(* ===== verification/_CoqProject ===== *)
-Q . S2P
Prelude.v
Words.v
BitPack.v
Search.v
Positions.v
Terms.v
TermDict.v
TermsVisitor.v
FrameDict.v
TextSegment.v
Binary.v
Journal.v
Hostile.v
Frames.v
Arena.v
Postings.v
Cursor.v
PostingEdit.v
PostingRuns.v
CheckpointLists.v
Lists.v
ImageDict.v
ImageWrite.v
Image.v
ImageOpen.v
Indexing.v
Bulk.v
IndexRuns.v
Filters.v
Share.v
SlotTable.v
Store.v
Overlay.v
Capacity.v
StoreSpec.v
StoreEdits.v
StoreRuns.v
StoreHistory.v
StoreCheckpoint.v
StoreText.v
TextRecords.v
TextSim.v
TextEdits.v
TextStrip.v
TextHistory.v
ImageEncode.v
ImageLayout.v
ImageStore.v
ImageRoundtrip.v
ImageServes.v
ImageBase.v
Listing.v
Paging.v
Memories.v
ChunkRead.v
Chars.v
Interner.v
Analysis.v
Chunking.v
Ingest.v
Bm25.v
Lexical.v
LexicalExact.v
LexicalHistory.v
Gate.v
TopK.v
CountUnion.v
WordCache.v
Batch.v
AuditDelivery.v
