(* ===== verification/Prelude.v ===== *)
(** * Verification of the WARM engine (writerslogic/holographic-memory)

    WARM is an embeddable Rust engine that stores documents, facts and sparse hypervectors in a
    directory and finds them again.  This library models the discrete core of it under
    [src/core]: the journal and its file format, the codecs, and the document store with its
    lexical index.  Rust functions are translated to Rocq functions of the same name; a field of a
    struct is a field of a record; a [Result] or a panic is a value of [outcome] (below).

    ** Parts of the program and their files

    The journal.  Mutations are encoded into payloads, payloads into frames, frames into segment
    files of an arena; opening replays the frames.
    - [Words]: varints, length-prefixed bytes, UTF-8 and the checked [Reader] of
      [documents/binary.rs].
    - [FrameDict], [Binary], [Journal]: the term dictionary of a frame, binary documents, and the
      payloads of [documents/binary.rs] and [engine/journal.rs].  [Hostile]: decoding arbitrary
      bytes.
    - [TextSegment]: the text file of [documents/text.rs], plain or encrypted.
    - [Frames]: frame recovery of [storage.rs] and the verifier of [format/scan.rs].
    - [Arena]: segments, growth, rotation, staged writes, failing syncs and replay
      ([storage.rs], [storage/staging.rs], [engine/mod.rs]).

    Ingest ([documents.rs]).
    - [Chunking]: cutting a text into windows of words.  [Chars], [Interner], [Analysis]: words, the
      interner that counts the terms of a chunk, and the reference analysis it computes, over the
      interface [Analyzer].  [Ingest]: preparing a document, and its validation on replay
      ([engine/mutation.rs], [format/scan.rs]), over the interface [Vectors].  [Batch]: the limits of a
      batch and its documents ([engine/document_batch.rs], [engine/document_api.rs]).

    The terms of a chunk.
    - [BitPack]: the bit packing of [documents/postings.rs].  [Search]: byte-string order and
      binary search.  [Positions]: word positions ([documents/positions.rs]).
    - [Terms]: the three layouts of a chunk's term table; [TermsVisitor]: reading a table from JSON;
      [Share]: moving a group of documents to one shared dictionary ([documents/packed_terms.rs]).

    The lexical index ([documents/postings.rs], [documents/index.rs]).
    - [TermDict]: term ids; [Postings], [Cursor], [PostingEdit], [PostingRuns]: packed posting
      lists, their bounds, cursors and edits; [Lists]: the lists of one term form, over the
      interface [TermIndex] that [TermDict] implements.
    - [Indexing], [Bulk], [IndexRuns]: replacing, removing and bulk-adding chunks in both forms.

    The document store ([documents/index.rs]).
    - [Filters]: source and metadata indexes, and candidate sets, over the interface [Json].
    - [SlotTable]: slot owners, word counts, position records, free slots and counters.
    - [Store]: [insert_batch], [replace], [remove_with] and the rebuild, over the interface
      [Checkpoint]; [Overlay] models [documents/overlay.rs] and implements [Checkpoint] over the
      interface [Image] of a checkpoint file.
    - [CheckpointLists], [ImageDict], [Image]: the checkpoint file of [documents/image.rs], its
      posting lists and term dictionaries, the checks of opening and every read; [ImageOpen]: a
      file of any bytes.  [ImageWrite], [ImageEncode], [ImageLayout], [ImageStore],
      [ImageRoundtrip], [ImageServes]: the writer, and a store served from what it wrote.
    - [Capacity], [StoreSpec], [StoreEdits], [StoreRuns], [StoreHistory]: the store's invariant, its
      operations, and the theorems over histories.  [StoreCheckpoint]: stores over a checkpoint.
    - [StoreText]: what the engine does with the text of a store ([documents/index.rs],
      [documents.rs], [engine/mutation.rs]): scrubbing deletions, deferred encodings, the canonical
      rebuild.  [TextRecords], [TextSim], [TextEdits], [TextStrip], [TextHistory]: the records of
      the segment and their owners, and histories of a store with a segment.
    - [ImageBase]: the checkpoint file of [documents/image.rs] as an [Image].  [Listing]: the
      listings of [documents/listing.rs] over a store and its checkpoint.  [Paging]: the pages of
      the HTTP server ([bin/warm-server/documents.rs]); [Memories]: the listings and prefix scans
      of the MCP server ([bin/warm-mcp/store.rs]).  [ChunkRead]: reading a chunk outside the locks
      ([documents/listing.rs], [engine/document_api.rs]) while writers run.

    Concurrency.
    - [Gate]: the queue of writers and the reader lock of [engine/mutation_gate.rs], as steps of
      threads.
    - [AuditDelivery]: audit records from their commit to a file of their own ([audit_effects.rs],
      [engine/audit_delivery.rs]), as actions of writers, a drain and compactions, with failures
      and crashes.

    Queries ([documents/lexical.rs]).
    - [Bm25]: scores, on binary64.  [Lexical]: the query language, phrase matching and the
      exhaustive execution.  [LexicalExact], [LexicalHistory]: what a query means, and searches of
      a store against the texts it was given.
    - [TopK]: the collector of the best hits of [documents/lexical/execution.rs].  [CountUnion]:
      counting the documents of a disjunction from bits per slot.  [WordCache]: the lookup of a
      phrase's words by ids kept across chunks ([documents/packed_terms.rs]).

    [Prelude] (this file) has outcomes, machine integers, slices, tactics and list lemmas.

    ** What the theorems show

    Journal: whatever syncs, growths and rotations fail, a reopened store replays exactly the
    acknowledged payloads; recovery never drops a committed frame and reports damage; the
    stand-alone verifier agrees with the engine; payloads decode to what was written (a chunk whose
    record takes seven bytes apart), and no bytes make the decoder panic.  Ingest: the chunks of a text cover it within the limits; an interner
    kept across chunks gives each chunk the reference analysis; what is accepted passes replay and
    is a document the store theorems are about; a batch is accepted exactly within its limits, as if
    its inputs were taken one by one.  Codecs: the decoders agree with the encoders, and lookups in packed
    tables are lookups in the lists they stand for.  Index: a posting list is the map of its edits,
    its bounds hold, cursors move exactly, and the index answers for exactly the chunks it holds,
    for any number of threads.  Store: any history of batches and removals never panics, holds the
    last content of each id, answers terms with the chunks that have them, keeps counters, filters
    and slots consistent and the slot table, position records included, proportional to its
    contents; a batch always returns.
    With a text segment the same histories, with deferred encodings and canonical rebuilds, keep
    every text readable and leave no byte of deleted or replaced text in the file.  Overlay: dead
    documents, live counts and merged lists are exact.  Checkpoint: what is written from a
    store with its text in a segment opens and serves the documents, texts, slots and postings of
    that store; the ids, slots, records and chunks of a file of any bytes that opens are read
    without a panic, and its posting bytes located (decoding them can panic).  Listing: a store over a checkpoint lists
    the union of both sides in id order, a client that follows the cursors of the server receives
    every document once, in one request per page, and the memory scans return exactly what their request asks for; a chunk
    read outside the locks returns what the store held when it was captured, or is retried.
    Queries: a search of a store that any history left matches, counts, scores and ranks by the
    texts of its documents; the count of a disjunction from the posting lists is the count of the
    exhaustive execution, the collector returns the first hits of a full sort, and lookups by cached
    ids are lookups by strings.  Gate: under any interleaving writers are admitted one at a time, in
    order, and all of them.  Audit: every committed record is delivered once, in order, whatever
    fails, and a flush delivers them all.  Four theorems show places where the code departs from its intent ([short_chunk_unreadable],
    [dictionary_limit_reader_only], [rebuild_drops_checkpoint], [opened_postings_unchecked]).

    ** Choices and bounds

    [usize] is 64 bits.  Loops that are not structural take fuel computed from the data they walk
    (a reader's remaining bytes, a segment's length, a list's count), and the theorems show the
    fuel is enough; [insert_batch] and [remove_with] call each other through the rebuild and get
    depth two, which [store_batch_returns] shows is enough.  Capacity hypotheses are the 32- and
    64-bit limits of the code: fewer than 2^32 - 1 chunks and distinct terms, fewer than 2^32 bytes
    of terms, word totals below 2^64, chunk lengths below [u32::MAX] (which marks an unbounded
    block).  Strings are their UTF-8 bytes, and a slice of one panics off a character boundary.
    Rayon maps are sequential maps over the same ranges.  [Arc::ptr_eq] on documents is
    equality of documents, except in [ChunkRead], where an [Arc] is the number of its allocation.  A hash map that is only looked up is a finite map.

    Parameters, with their documented laws as hypotheses: LZ4 and CRC-32, AES-GCM
    (decryption inverts encryption, and a message below 4 GiB is encrypted), JSON ([serde_json]
    together with the crate's [compact_metadata] of a parsed value, and the decoder serde derives
    for a mutation, which builds every term table with the modelled visitor), the nonces drawn, the mutations
    other than documents and deletes, the Unicode classes and lowercasing (which on ASCII are the
    ASCII ones), the stemmer, the text encoders and the normalisation of embeddings (which return
    valid vectors), the logarithm of the platform, and the identities drawn for audit records (which
    are distinct).  A crash leaves of a file what was synced and a beginning of what was not.

    ** Not modelled

    The walks over several posting lists of a pruned query (their bounds compare rounded scores)
    and hybrid search, dense vectors, the quantised graph and the phase and resonator vectors are
    floating-point numerics; the pool that hands interners to threads; the SIMD bodies of the bit
    packer (the portable loops are modelled); memory accounting and the derived serde impls; the manifest
    and directory switch of compaction, page release and file locking; provenance and private
    queries are cryptographic protocols of other crates; servers, command line and bindings are
    I/O.  Except for [Overlay], [StoreCheckpoint] and [Listing], the store theorems are about a
    store without a checkpoint under it; the rebuild of a store from a checkpoint
    ([hydrate_excluding]) is modelled only in its walk over the dictionaries. *)

From stdpp Require Export base gmap list strings sorting.
From Stdlib Require Export ZArith Lia.

(** ** Outcomes of Rust code

    A Rust function of type [Result<A>] ends with [Ok], with an [Err] that carries the
    message (the format arguments are left out) or by a panic (an index out of range, an
    [expect], an assertion). *)

Inductive outcome (A : Type) : Type :=
| Ok (a : A)
| Err (e : string)
| Panic.
Arguments Ok {A} _.
Arguments Err {A} _.
Arguments Panic {A}.

Definition obind {A B} (m : outcome A) (k : A -> outcome B) : outcome B :=
  match m with
  | Ok a => k a
  | Err e => Err e
  | Panic => Panic
  end.

Declare Scope warm_scope.
Delimit Scope warm_scope with warm.
Notation "'let*' x := m 'in' k" := (obind m (fun x => k))
  (at level 10, x pattern, m at level 100, k at level 200) : warm_scope.
Notation "'ensure' b 'else' e ; k" := (if b then k else Err e)
  (at level 10, b at level 99, e at level 99, k at level 200) : warm_scope.
Open Scope warm_scope.

(** Option into outcome: [Option::context] and [Option::ok_or]. *)
Definition ok_or {A} (o : option A) (e : string) : outcome A :=
  match o with Some a => Ok a | None => Err e end.

(** [expect], [unwrap] and indexing: [None] is a panic. *)
Definition expect {A} (o : option A) : outcome A :=
  match o with Some a => Ok a | None => Panic end.

Definition is_ok {A} (m : outcome A) : bool :=
  match m with Ok _ => true | _ => false end.

Definition no_panic {A} (m : outcome A) : Prop := m <> Panic.

Fixpoint omap_list {A B} (f : A -> outcome B) (l : list A) : outcome (list B) :=
  match l with
  | [] => Ok []
  | a :: r => let* b := f a in let* bs := omap_list f r in Ok (b :: bs)
  end.

Lemma obind_ok {A B} (m : outcome A) (k : A -> outcome B) b :
  obind m k = Ok b <-> exists a, m = Ok a /\ k a = Ok b.
Proof. destruct m; simpl; naive_solver. Qed.

Lemma obind_no_panic {A B} (m : outcome A) (k : A -> outcome B) :
  no_panic m -> (forall a, m = Ok a -> no_panic (k a)) -> no_panic (obind m k).
Proof. unfold no_panic. destruct m; simpl; naive_solver. Qed.

(** ** Tactics *)

(** Opens every [let*] and [ensure] of a hypothesis that ends in [Ok]. *)
Ltac inv_ok :=
  repeat match goal with
  | H : Ok _ = Ok _ |- _ => injection H as H; try subst
  | H : Err _ = Ok _ |- _ => discriminate H
  | H : Panic = Ok _ |- _ => discriminate H
  | H : ok_or ?o _ = Ok _ |- _ =>
      let E := fresh "E" in unfold ok_or in H; destruct o eqn:E; [|discriminate H]
  | H : expect ?o = Ok _ |- _ =>
      let E := fresh "E" in unfold expect in H; destruct o eqn:E; [|discriminate H]
  | H : obind _ _ = Ok _ |- _ =>
      apply obind_ok in H; let a := fresh "a" in let Ha := fresh "Ha" in
      destruct H as (a & Ha & H)
  | H : (if ?b then _ else Err _) = Ok _ |- _ =>
      let E := fresh "E" in destruct b eqn:E; [|discriminate H]
  end.

(** Turns boolean comparisons of naturals and integers into propositions. *)
Ltac bool_to_prop :=
  repeat match goal with
  | H : (_ && _) = true |- _ => apply andb_true_iff in H; destruct H
  | H : (_ || _) = false |- _ => apply orb_false_iff in H; destruct H
  | H : negb _ = true |- _ => apply negb_true_iff in H
  | H : negb _ = false |- _ => apply negb_false_iff in H
  | H : (_ <=? _)%Z = true |- _ => apply Z.leb_le in H
  | H : (_ <=? _)%Z = false |- _ => apply Z.leb_gt in H
  | H : (_ <? _)%Z = true |- _ => apply Z.ltb_lt in H
  | H : (_ <? _)%Z = false |- _ => apply Z.ltb_ge in H
  | H : (_ =? _)%Z = true |- _ => apply Z.eqb_eq in H
  | H : (_ =? _)%Z = false |- _ => apply Z.eqb_neq in H
  | H : Nat.leb _ _ = true |- _ => apply Nat.leb_le in H
  | H : Nat.leb _ _ = false |- _ => apply Nat.leb_gt in H
  | H : Nat.ltb _ _ = true |- _ => apply Nat.ltb_lt in H
  | H : Nat.ltb _ _ = false |- _ => apply Nat.ltb_ge in H
  | H : Nat.eqb _ _ = true |- _ => apply Nat.eqb_eq in H
  | H : Nat.eqb _ _ = false |- _ => apply Nat.eqb_neq in H
  | H : bool_decide _ = true |- _ => apply bool_decide_eq_true in H
  | H : bool_decide _ = false |- _ => apply bool_decide_eq_false in H
  end.

(** A decidable fact about concrete data. *)
Ltac by_decide := refine (bool_decide_unpack _ _); vm_compute; exact I.

(** ** Machine integers

    A [w]-bit unsigned integer is a [Z] in [[0, 2^w)]; operations that can leave the
    range are written out at their use. *)

Definition U8 : Z := 256.
Definition U16 : Z := 2 ^ 16.
Definition U32 : Z := 2 ^ 32.
Definition U64 : Z := 2 ^ 64.
(** [usize] of the 64-bit targets. *)
Definition USIZE : Z := 2 ^ 64.

Definition is_u8 (z : Z) : Prop := (0 <= z < 256)%Z.
Definition is_u32 (z : Z) : Prop := (0 <= z < U32)%Z.
Definition is_u64 (z : Z) : Prop := (0 <= z < U64)%Z.
#[global] Instance is_u8_dec z : Decision (is_u8 z) := _.
#[global] Instance is_u32_dec z : Decision (is_u32 z) := _.
#[global] Instance is_u64_dec z : Decision (is_u64 z) := _.

Definition checked_add (bound a b : Z) : option Z :=
  if (a + b <? bound)%Z then Some (a + b)%Z else None.
Definition checked_sub (a b : Z) : option Z :=
  if (b <=? a)%Z then Some (a - b)%Z else None.
Definition checked_mul (bound a b : Z) : option Z :=
  if (a * b <? bound)%Z then Some (a * b)%Z else None.
Definition saturating_add (bound a b : Z) : Z := Z.min (a + b) (bound - 1).
Definition saturating_mul (bound a b : Z) : Z := Z.min (a * b) (bound - 1).
Definition wrap (bound a : Z) : Z := (a mod bound)%Z.

(** [usize::div_ceil]. *)
Definition div_ceil (a b : nat) : nat := (a + b - 1) / b.

Lemma wrap_small bound a : (0 <= a < bound)%Z -> wrap bound a = a.
Proof. apply Z.mod_small. Qed.

(** A list of bytes. *)
Definition bytes_ok (l : list Z) : Prop := Forall is_u8 l.
#[global] Instance bytes_ok_dec l : Decision (bytes_ok l) := _.

Lemma div_ceil_mul_ge a b : 0 < b -> a <= div_ceil a b * b.
Proof.
  intros Hb. unfold div_ceil.
  pose proof (Nat.div_mod_eq (a + b - 1) b). pose proof (Nat.mod_upper_bound (a + b - 1) b). nia.
Qed.

Lemma div_ceil_le a b c : 0 < b -> a <= c * b -> div_ceil a b <= c.
Proof.
  intros Hb Ha. unfold div_ceil. apply Nat.lt_succ_r, Nat.Div0.div_lt_upper_bound; nia.
Qed.

(** ** Lists *)

(** [&l[a..b]] for [a <= b <= len]; a panic otherwise. *)
Definition slice {A} (l : list A) (a b : nat) : outcome (list A) :=
  if (a <=? b) && (b <=? length l) then Ok (take (b - a) (drop a l)) else Panic.

(** [l.get(a..b)]. *)
Definition get_range {A} (l : list A) (a b : nat) : option (list A) :=
  if (a <=? b) && (b <=? length l) then Some (take (b - a) (drop a l)) else None.

(** [l[a..a + |v|].copy_from_slice(v)] for a range inside [l]. *)
Definition splice {A} (l : list A) (a : nat) (v : list A) : list A :=
  take a l ++ v ++ drop (a + length v) l.

Lemma splice_length {A} (l : list A) a v :
  a + length v <= length l -> length (splice l a v) = length l.
Proof. intros. unfold splice. rewrite !length_app, length_take, length_drop. lia. Qed.

Lemma drop_splice {A} (l : list A) a v n :
  a + length v <= n -> n <= length l -> drop n (splice l a v) = drop n l.
Proof.
  intros Hn Hl. unfold splice. rewrite drop_app_ge by (rewrite length_take; lia).
  rewrite length_take, drop_app_ge by lia. rewrite drop_drop. f_equal. lia.
Qed.

Lemma take_splice {A} (l : list A) a v : a <= length l -> take a (splice l a v) = take a l.
Proof. intros Ha. unfold splice. rewrite take_app_le by (rewrite length_take; lia). by rewrite take_take, Nat.min_id. Qed.

(** Two adjacent overwrites. *)
Lemma splice_splice {A} (l : list A) a v w :
  a + length v + length w <= length l ->
  splice (splice l a v) (a + length v) w = take a l ++ v ++ w ++ drop (a + length v + length w) l.
Proof.
  intros H. unfold splice at 1. rewrite drop_splice by (rewrite ?splice_length; lia).
  unfold splice. rewrite (app_assoc (take a l)), take_app_le by (rewrite length_app, length_take; lia).
  rewrite take_ge by (rewrite length_app, length_take; lia). by rewrite <- !app_assoc.
Qed.

Lemma get_range_Some {A} (l : list A) a b :
  a <= b -> b <= length l -> get_range l a b = Some (take (b - a) (drop a l)).
Proof.
  intros. unfold get_range. by rewrite (proj2 (Nat.leb_le a b)), (proj2 (Nat.leb_le b (length l))).
Qed.

Lemma get_range_None {A} (l : list A) a b : length l < b -> get_range l a b = None.
Proof.
  intros. unfold get_range. rewrite (proj2 (Nat.leb_gt b (length l))) by done. by rewrite andb_false_r.
Qed.

Lemma slice_Ok {A} (l : list A) a b :
  a <= b -> b <= length l -> slice l a b = Ok (take (b - a) (drop a l)).
Proof.
  intros. unfold slice. by rewrite (proj2 (Nat.leb_le a b)), (proj2 (Nat.leb_le b (length l))).
Qed.

Lemma omap_list_ok {A B} (f : A -> outcome B) (g : A -> B) l :
  (forall a, a ∈ l -> f a = Ok (g a)) -> omap_list f l = Ok (map g l).
Proof.
  induction l as [|a l IH]; intros H; simpl; [done|].
  rewrite H by constructor. simpl. rewrite IH; [done|]. intros b Hb. apply H. by constructor.
Qed.

Lemma omap_list_ext {A B} (f g : A -> outcome B) l :
  (forall a, a ∈ l -> f a = g a) -> omap_list f l = omap_list g l.
Proof.
  induction l as [|a l IH]; intros H; simpl; [done|].
  rewrite H by constructor. rewrite IH; [done|]. intros b Hb. apply H. by constructor.
Qed.

Lemma list_filter_ext {A} (P Q : A -> Prop) `{!forall x, Decision (P x), !forall x, Decision (Q x)} (l : list A) :
  (forall x, x ∈ l -> P x <-> Q x) -> filter P l = filter Q l.
Proof.
  induction l as [|a l IH]; intros HPQ; [done|]. rewrite !filter_cons.
  pose proof (HPQ a ltac:(left)) as Ha. rewrite IH by (intros x Hx; apply HPQ; by right).
  repeat case_decide; tauto.
Qed.

Lemma omap_list_app {A B} (f : A -> outcome B) l k :
  omap_list f (l ++ k) = (let* a := omap_list f l in let* b := omap_list f k in Ok (a ++ b)).
Proof.
  induction l as [|x l IH]; simpl; [by destruct (omap_list f k)|].
  destruct (f x); simpl; [|done|done]. rewrite IH. destruct (omap_list f l); simpl; [|done|done].
  by destruct (omap_list f k).
Qed.

Lemma get_range_app_mid {A} (p m s : list A) :
  get_range (p ++ m ++ s) (length p) (length p + length m) = Some m.
Proof.
  unfold get_range. rewrite !length_app.
  replace (length p <=? length p + length m) with true by (symmetry; apply Nat.leb_le; lia).
  replace (length p + length m <=? length p + (length m + length s)) with true
    by (symmetry; apply Nat.leb_le; lia).
  simpl. rewrite drop_app_length. replace (length p + length m - length p) with (length m) by lia.
  by rewrite take_app_length.
Qed.

(** Strictly ascending by an integer key, as [windows(2).all(|p| p[0] < p[1])] checks it. *)
Fixpoint ascending (l : list Z) : bool :=
  match l with
  | a :: (b :: _) as r => (a <? b)%Z && ascending r
  | _ => true
  end.

Lemma ascending_Sorted l : ascending l = true <-> StronglySorted Z.lt l.
Proof.
  assert (T : Transitive Z.lt) by (intros ???; lia).
  transitivity (Sorted Z.lt l).
  - induction l as [|a [|b l] IH]; simpl; [naive_solver constructor|split; repeat constructor|].
    rewrite andb_true_iff, IH, Z.ltb_lt. split.
    + intros [??]. constructor; [done|by constructor].
    + intros H. inversion H as [|?? H1 H2]; subst. inversion H2; auto.
  - split; [apply Sorted_StronglySorted; auto|apply StronglySorted_Sorted].
Qed.

Create HintDb warm discriminated.
#[export] Hint Resolve obind_no_panic splice_length : warm.

#[global] Arguments Nat.div : simpl never.
#[global] Arguments Nat.modulo : simpl never.
#[global] Arguments Z.div : simpl never.
#[global] Arguments Z.modulo : simpl never.
#[global] Arguments Z.pow : simpl never.
#[global] Arguments Z.mul : simpl never.
#[global] Arguments Z.add : simpl never.
