(* ===== verification/Words.v ===== *)
(** * Words, varints and the journal reader

    Little-endian words ([u32::to_le_bytes], [u64::from_le_bytes]), the LEB128 varints of
    [src/core/documents/binary.rs] ([put_varint], [put_bytes]) and its [Reader]: a cursor
    over untrusted bytes whose every read fails instead of panicking.  UTF-8 validation is
    [std::str::from_utf8] of the Rust standard library. *)

From S2P Require Import Prelude.

(** ** Bit facts *)

Section Bits.
Local Open Scope Z_scope.

Lemma lor_shiftl_add a b n :
0 <= n -> 0 <= a < 2 ^ n -> Z.lor a (Z.shiftl b n) = a + b * 2 ^ n.
Proof.
intros Hn Ha. rewrite <- Z.shiftl_mul_pow2 by lia.
assert (L : Z.land a (Z.shiftl b n) = 0).
{ apply Z.bits_inj'. intros i Hi. rewrite Z.land_spec, Z.bits_0.
  destruct (Z.lt_ge_cases i n).
  - rewrite (Z.shiftl_spec_low _ _ _ H). apply andb_false_r.
  - destruct (Z.eq_dec a 0) as [->|]; [by rewrite Z.bits_0|].
    rewrite Z.bits_above_log2; [done|lia|].
    apply Z.log2_lt_pow2; [lia|]. pose proof (Z.pow_le_mono_r 2 n i). lia. }
rewrite <- Z.lxor_lor by done. symmetry. by apply Z.add_nocarry_lxor.
Qed.

Lemma land_ones_mod a n : 0 <= n -> Z.land a (2 ^ n - 1) = a mod 2 ^ n.
Proof. intros. rewrite <- Z.land_ones by lia. by rewrite Z.ones_equiv. Qed.

Lemma lor_128 a : 0 <= a < 256 -> Z.lor a 128 = a mod 128 + 128.
Proof.
intros H. assert (a = a mod 128 + 128 * (a / 128)) as E by (pose proof (Z.div_mod a 128); lia).
assert (Hd : a / 128 = 0 \/ a / 128 = 1).
{ pose proof (Z.div_lt_upper_bound a 128 2). pose proof (Z.div_pos a 128). lia. }
pose proof (Z.mod_pos_bound a 128).
assert (K : Z.lor (a mod 128) 128 = a mod 128 + 128).
{ change 128 with (Z.shiftl 1 7) at 2. rewrite lor_shiftl_add; lia. }
destruct Hd as [Hd|Hd]; rewrite Hd in E.
- rewrite E at 1. by rewrite Z.mul_0_r, Z.add_0_r.
- rewrite E at 1. replace (a mod 128 + 128 * 1) with (Z.lor (a mod 128) 128) by lia.
  by rewrite <- Z.lor_assoc.
Qed.

Lemma land_128 a : 0 <= a < 256 -> Z.land a 128 = if 128 <=? a then 128 else 0.
Proof.
intros H. assert (B : forall b, 0 <= b < 128 -> Z.land b 128 = 0).
{ intros b Hb. change 128 with (Z.shiftl 1 7). apply Z.bits_inj'. intros i Hi.
  rewrite Z.land_spec, Z.bits_0. destruct (Z.lt_ge_cases i 7).
  - rewrite Z.shiftl_spec_low by done. apply andb_false_r.
  - destruct (Z.eq_dec b 0) as [->|]; [by rewrite Z.bits_0|].
    rewrite Z.bits_above_log2; [done|lia|]. apply Z.log2_lt_pow2; [lia|].
    pose proof (Z.pow_le_mono_r 2 7 i). change (2 ^ 7) with 128 in *. lia. }
destruct (128 <=? a) eqn:E; bool_to_prop.
- replace a with (Z.lor (a - 128) 128).
  + rewrite Z.land_lor_distr_l, B by lia. by rewrite Z.land_diag.
  + rewrite lor_128 by lia. rewrite Z.mod_small; lia.
- apply B; lia.
Qed.

End Bits.

(** ** Little-endian words *)

Fixpoint to_le_bytes (n : nat) (z : Z) : list Z :=
  match n with
  | O => []
  | S n => Z.land z 255 :: to_le_bytes n (Z.shiftr z 8)
  end.

Fixpoint from_le_bytes (l : list Z) : Z :=
  match l with
  | [] => 0
  | b :: r => Z.lor b (Z.shiftl (from_le_bytes r) 8)
  end.

Lemma to_le_bytes_length n z : length (to_le_bytes n z) = n.
Proof. revert z; induction n; simpl; auto. Qed.

Lemma to_le_bytes_ok n z : bytes_ok (to_le_bytes n z).
Proof.
  revert z; induction n as [|n IH]; intros z; simpl; constructor; [|apply IH].
  unfold is_u8. change 255%Z with (2 ^ 8 - 1)%Z. rewrite land_ones_mod by lia.
  pose proof (Z.mod_pos_bound z (2 ^ 8)). change (2 ^ 8)%Z with 256%Z in *. lia.
Qed.

Lemma from_to_le_bytes n z :
  (0 <= z < 2 ^ (8 * Z.of_nat n))%Z -> from_le_bytes (to_le_bytes n z) = z.
Proof.
  revert z. induction n as [|n IH]; intros z Hz.
  - simpl in *. change (2 ^ 0)%Z with 1%Z in Hz. lia.
  - cbn [to_le_bytes from_le_bytes]. rewrite IH.
    + change 255%Z with (2 ^ 8 - 1)%Z. rewrite land_ones_mod by lia.
      rewrite lor_shiftl_add by (try lia; apply Z.mod_pos_bound; lia).
      rewrite Z.shiftr_div_pow2 by lia. pose proof (Z.div_mod z (2 ^ 8)). lia.
    + rewrite Z.shiftr_div_pow2 by lia. split; [apply Z.div_pos; lia|].
      apply Z.div_lt_upper_bound; [lia|]. rewrite <- Z.pow_add_r by lia.
      replace (8 + 8 * Z.of_nat n)%Z with (8 * Z.of_nat (S n))%Z by lia. lia.
Qed.

Lemma from_le_bytes_bound l :
  bytes_ok l -> (0 <= from_le_bytes l < 2 ^ (8 * Z.of_nat (length l)))%Z.
Proof.
  induction 1 as [|b l Hb Hl IH]; cbn [from_le_bytes length]; [lia|].
  unfold is_u8 in Hb. change 256%Z with (2 ^ 8)%Z in Hb.
  rewrite lor_shiftl_add by lia.
  replace (8 * Z.of_nat (S (length l)))%Z with (8 * Z.of_nat (length l) + 8)%Z by lia.
  rewrite Z.pow_add_r by lia. nia.
Qed.

Lemma to_from_le_bytes l : bytes_ok l -> to_le_bytes (length l) (from_le_bytes l) = l.
Proof.
  induction 1 as [|b l Hb Hl IH]; cbn [from_le_bytes length to_le_bytes]; [done|].
  unfold is_u8 in Hb. change 256%Z with (2 ^ 8)%Z in Hb.
  rewrite lor_shiftl_add by lia. pose proof (from_le_bytes_bound l Hl).
  f_equal.
  - change 255%Z with (2 ^ 8 - 1)%Z. rewrite land_ones_mod by lia.
    rewrite Z.mod_add by lia. apply Z.mod_small; lia.
  - rewrite Z.shiftr_div_pow2 by lia. rewrite Z.div_add by lia.
    rewrite (Z.div_small b) by lia. by rewrite Z.add_0_l.
Qed.

(** ** Varints, the writing side *)

(** The loop of [put_varint]; ten rounds are enough for 64 bits ([put_varint_rounds]). *)
Fixpoint put_varint_loop (fuel : nat) (value : Z) : list Z :=
  match fuel with
  | O => [wrap U8 value]
  | S fuel =>
      if (0x80 <=? value)%Z
      then Z.lor (wrap U8 value) 0x80 :: put_varint_loop fuel (Z.shiftr value 7)
      else [wrap U8 value]
  end.

Definition put_varint (value : Z) : list Z := put_varint_loop 10 value.

Definition put_bytes (bytes : list Z) : list Z :=
  put_varint (Z.of_nat (length bytes)) ++ bytes.

(** ** The reader *)

Record Reader := mkReader { data : list Z; at_ : nat }.

Definition reader_new (d : list Z) : Reader := {| data := d; at_ := 0 |}.
Definition is_empty (r : Reader) : bool := Nat.eqb (at_ r) (length (data r)).
Definition remaining (r : Reader) : nat := length (data r) - at_ r.
Definition position (r : Reader) : nat := at_ r.

(** A read: its value and the advanced cursor. *)
Definition read (A : Type) : Type := Reader -> outcome (A * Reader).
Definition rret {A} (a : A) : read A := fun r => Ok (a, r).
Definition rbind {A B} (m : read A) (k : A -> read B) : read B :=
  fun r => let* (a, r') := m r in k a r'.
Definition rfail {A} (e : string) : read A := fun _ => Err e.
Definition rlift {A} (m : outcome A) : read A := fun r => let* a := m in Ok (a, r).

Notation "x <- m ; k" := (rbind m (fun x => k))
  (at level 20, m at level 99, k at level 200, only parsing) : warm_scope.
Notation "' p <- m ; k" := (rbind m (fun p => k))
  (at level 20, p pattern, m at level 99, k at level 200, only parsing) : warm_scope.
Notation "'check' b 'else' e ; k" := (if b then k else rfail e)
  (at level 10, b at level 99, e at level 99, k at level 200) : warm_scope.

Definition rtake (len : nat) : read (list Z) := fun r =>
  ensure (len <=? remaining r) else "binary journal record is truncated" ;
  let* bytes := slice (data r) (at_ r) (at_ r + len) in
  Ok (bytes, {| data := data r; at_ := at_ r + len |}).

Definition rbyte : read Z :=
  b <- rtake 1 ; match b with b0 :: _ => rret b0 | [] => fun _ => Panic end.

(** The loop of [Reader::varint] over the shifts [(0..64).step_by(7)]. *)
Fixpoint varint_loop (shifts : list Z) (value : Z) : read Z :=
  match shifts with
  | [] => rfail "binary journal varint overflows 64 bits"
  | shift :: rest =>
      byte <- rbyte ;
      check ((shift <? 63) || (byte <=? 1))%Z else "binary journal varint overflows 64 bits" ;
      let value := Z.lor value (wrap U64 (Z.shiftl (Z.land byte 0x7f) shift)) in
      if (Z.land byte 0x80 =? 0)%Z then rret value else varint_loop rest value
  end.

Definition varint_shifts : list Z := [0; 7; 14; 21; 28; 35; 42; 49; 56; 63]%Z.
Definition varint : read Z := varint_loop varint_shifts 0.

(** [Reader::number::<T>]: [bound] is one more than [T::MAX]. *)
Definition number (bound : Z) : read Z :=
  value <- varint ; check (value <? bound)%Z else "out of range" ; rret value.

Definition rbytes : read (list Z) :=
  len <- number USIZE ; rtake (Z.to_nat len).

Definition count (min : nat) : read nat :=
  n <- number USIZE ;
  fun r =>
    if (n <=? Z.of_nat (remaining r / Nat.max min 1))%Z then Ok (Z.to_nat n, r)
    else Err "binary journal count exceeds the record".

(** [for _ in 0..n]: [n] reads in order, the state of the loop threaded through. *)
Fixpoint rrepeat {A S} (n : nat) (step : S -> read (A * S)) (s : S) : read (list A) :=
  match n with
  | O => rret []
  | S n => '(a, s') <- step s ; l <- rrepeat n step s' ; rret (a :: l)
  end.

(** ** UTF-8, [std::str::from_utf8] *)

Definition cont (b : Z) : bool := (0x80 <=? b)%Z && (b <=? 0xBF)%Z.
Definition within (lo hi b : Z) : bool := (lo <=? b)%Z && (b <=? hi)%Z.

Fixpoint utf8_valid (l : list Z) : bool :=
  match l with
  | [] => true
  | a :: r =>
      if within 0 0x7F a then utf8_valid r
      else match r with
      | [] => false
      | b :: r =>
          if within 0xC2 0xDF a then cont b && utf8_valid r
          else match r with
          | [] => false
          | c :: r =>
              if (within 0xE0 0xE0 a && within 0xA0 0xBF b)
                 || (within 0xE1 0xEC a && cont b)
                 || (within 0xED 0xED a && within 0x80 0x9F b)
                 || (within 0xEE 0xEF a && cont b)
              then cont c && utf8_valid r
              else match r with
              | [] => false
              | d :: r =>
                  ((within 0xF0 0xF0 a && within 0x90 0xBF b)
                   || (within 0xF1 0xF3 a && cont b)
                   || (within 0xF4 0xF4 a && within 0x80 0x8F b))
                  && cont c && cont d && utf8_valid r
              end
          end
      end
  end.

(** [str::is_char_boundary]. *)
Definition is_char_boundary (s : list Z) (i : nat) : bool :=
  if Nat.eqb i 0 then true
  else match s !! i with Some b => negb (cont b) | None => Nat.eqb i (length s) end.

(** Valid texts concatenate; the induction follows the four widths of a character. *)
Lemma utf8_valid_app a b : utf8_valid a = true -> utf8_valid b = true -> utf8_valid (a ++ b) = true.
Proof.
  intros Ha Hb. revert Ha. remember (length a) as n eqn:Hn.
  assert (Hle : length a <= n) by lia. clear Hn. revert a Hle.
  induction n as [|n IH]; intros a Hle Ha.
  { destruct a; [done|simpl in Hle; lia]. }
  destruct a as [|x a]; [done|]. cbn [app utf8_valid length] in *. fold utf8_valid in *.
  destruct (within 0 _ x); [apply IH; [lia|done]|].
  destruct a as [|y a]; [done|]. cbn [app length] in *.
  destruct (within _ _ x); [apply andb_true_iff in Ha as [-> Ha]; apply IH; [lia|done]|].
  destruct a as [|z a]; [done|]. cbn [app length] in *.
  match goal with |- context [if ?c then _ else _] => destruct c end;
    [apply andb_true_iff in Ha as [-> Ha]; apply IH; [lia|done]|].
  destruct a as [|w a]; [done|]. cbn [app length] in *.
  apply andb_true_iff in Ha as [-> Ha]. apply IH; [lia|done].
Qed.

Lemma utf8_valid_concat l : Forall (fun w => utf8_valid w = true) l -> utf8_valid (concat l) = true.
Proof. induction 1; simpl; [done|]. by apply utf8_valid_app. Qed.

(** [&text[a..b]] of a [str]: a bound inside a character panics. *)
Definition str_slice (text : list Z) (a b : nat) : outcome (list Z) :=
  if is_char_boundary text a && is_char_boundary text b then slice text a b else Panic.

Lemma utf8_head b r : utf8_valid (b :: r) = true -> cont b = false.
Proof.
  intros H. unfold cont. destruct (Z.leb_spec 0x80 b) as [H1|], (Z.leb_spec b 0xBF) as [H2|]; try done. exfalso. cbn [utf8_valid] in H. fold utf8_valid in H.
  assert (Hw : forall lo hi, (hi < 0x80 \/ 0xBF < lo)%Z -> within lo hi b = false).
  { intros lo hi Hr. unfold within. apply andb_false_iff. destruct Hr; [right|left]; apply Z.leb_gt; lia. }
  rewrite !Hw in H by lia. destruct r as [|? [|? [|? r]]]; done.
Qed.

Lemma boundary_end pre : is_char_boundary pre (length pre) = true.
Proof. unfold is_char_boundary. destruct (Nat.eqb_spec (length pre) 0); [done|]. rewrite lookup_ge_None_2 by lia. apply Nat.eqb_refl. Qed.

(** A list of strings. *)
Definition strings_ok (ws : list (list Z)) : Prop := Forall (fun w => utf8_valid w = true) ws.

(** A valid text starts at a boundary. *)
Lemma boundary_valid pre l : utf8_valid l = true -> is_char_boundary (pre ++ l) (length pre) = true.
Proof.
  intros Hl. destruct l as [|b r]; [rewrite app_nil_r; apply boundary_end|]. unfold is_char_boundary. destruct (Nat.eqb_spec (length pre) 0); [done|].
  rewrite list_lookup_middle by done. by rewrite (utf8_head b r Hl).
Qed.

(** Valid texts next to each other meet at boundaries. *)
Lemma boundary_texts ws i : strings_ok ws -> is_char_boundary (concat ws) (length (concat (take i ws))) = true.
Proof.
  intros Hw. rewrite <- (take_drop i ws) at 1. rewrite concat_app. apply boundary_valid, utf8_valid_concat. by apply Forall_drop.
Qed.

Definition rstr : read (list Z) :=
  b <- rbytes ; check (utf8_valid b) else "binary journal string is not UTF-8" ; rret b.

(** ** Reads over a known prefix

    [mid p s] is a reader of [p ++ s] that has consumed [p]; a codec law says that reading
    what was written moves the written bytes from the second list to the first. *)

Definition mid (p s : list Z) : Reader := {| data := p ++ s; at_ := length p |}.

(** [parses m e a]: reading [e] with [m] gives [a] and consumes exactly [e]. *)
Definition parses {A} (m : read A) (e : list Z) (a : A) : Prop :=
  forall p s, m (mid p (e ++ s)) = Ok (a, mid (p ++ e) s).

Lemma reader_new_mid d : reader_new d = mid [] d.
Proof. done. Qed.

Lemma remaining_mid p s : remaining (mid p s) = length s.
Proof. unfold remaining, mid; simpl. rewrite length_app. lia. Qed.

Lemma is_empty_mid p s : is_empty (mid p s) = match s with [] => true | _ => false end.
Proof.
  unfold is_empty, mid; simpl. rewrite length_app. destruct s; simpl.
  - apply Nat.eqb_eq. lia.
  - apply Nat.eqb_neq. lia.
Qed.

Lemma mid_assoc p e s : mid p (e ++ s) = {| data := (p ++ e) ++ s; at_ := length p |}.
Proof. unfold mid. by rewrite app_assoc. Qed.

Lemma rtake_parses e : parses (rtake (length e)) e e.
Proof.
  intros p s. unfold rtake. rewrite remaining_mid, length_app.
  replace (length e <=? length e + length s) with true by (symmetry; apply Nat.leb_le; lia).
  unfold slice, mid; cbn [data at_]. rewrite !length_app.
  replace (length p <=? length p + length e) with true by (symmetry; apply Nat.leb_le; lia).
  replace (length p + length e <=? length p + (length e + length s)) with true
    by (symmetry; apply Nat.leb_le; lia).
  simpl. rewrite drop_app_length. replace (length p + length e - length p) with (length e) by lia.
  rewrite take_app_length. by rewrite <- app_assoc.
Qed.

Lemma rret_parses {A} (a : A) : parses (rret a) [] a.
Proof. intros p s. unfold rret. by rewrite app_nil_r. Qed.

Lemma rbind_parses {A B} (m : read A) (k : A -> read B) e1 e2 a b :
  parses m e1 a -> parses (k a) e2 b -> parses (rbind m k) (e1 ++ e2) b.
Proof.
  intros H1 H2 p s. unfold rbind. rewrite <- app_assoc, H1. simpl.
  rewrite H2. by rewrite <- app_assoc.
Qed.

(** The last read of a chain consumes nothing. *)
Lemma rbind_parses_end {A B} (m : read A) (k : A -> read B) e a b :
  parses m e a -> parses (k a) [] b -> parses (rbind m k) e b.
Proof. intros H1 H2. rewrite <- (app_nil_r e). eapply rbind_parses; eauto. Qed.

Lemma rbyte_parses b : parses rbyte [b] b.
Proof.
  unfold rbyte. eapply rbind_parses_end; [apply (rtake_parses [b])|apply rret_parses].
Qed.

(** A guard that holds is transparent; used to rewrite a reader under [parses]. *)
Lemma parses_guard {A} (b : bool) e (m : read A) x a :
  b = true -> parses m x a -> parses (if b then m else rfail e) x a.
Proof. by intros ->. Qed.

Lemma rlift_parses {A} (m : outcome A) a : m = Ok a -> parses (rlift m) [] a.
Proof. intros -> p s. unfold rlift; simpl. by rewrite app_nil_r. Qed.

Lemma rbind_lift_parses {A B} (m : outcome A) (k : A -> read B) e a b :
  m = Ok a -> parses (k a) e b -> parses (rbind (rlift m) k) e b.
Proof. intros Hm Hk. apply (rbind_parses _ k [] e a b); [by apply rlift_parses|done]. Qed.

Lemma rrepeat_parses {A S} (step : S -> read (A * S)) (enc : S -> A -> list Z)
    (next : S -> A -> S) l s :
  (forall i a s', l !! i = Some a -> s' = foldl next s (take i l) ->
     parses (step s') (enc s' a) (a, next s' a)) ->
  parses (rrepeat (length l) step s)
    ((fix go s l := match l with [] => [] | a :: r => enc s a ++ go (next s a) r end) s l) l.
Proof.
  revert s. induction l as [|a l IH]; intros s H; simpl; [apply rret_parses|].
  eapply rbind_parses; [apply (H 0 a s); auto|]. simpl.
  eapply rbind_parses_end; [|apply rret_parses].
  apply IH. intros i b s' Hi ->. apply (H (Datatypes.S i)); auto.
Qed.

(** ** The varint codec *)

Definition shifts_from (k : nat) : list Z := map (fun i => 7 * Z.of_nat i)%Z (seq k (10 - k)).

Lemma shifts_from_0 : varint_shifts = shifts_from 0.
Proof. reflexivity. Qed.

Lemma shifts_from_S k : k < 10 -> shifts_from k = (7 * Z.of_nat k)%Z :: shifts_from (S k).
Proof.
  intros. unfold shifts_from. replace (10 - k) with (S (10 - S k)) by lia. done.
Qed.

(** The bits a byte contributes never overflow the 64-bit accumulator. *)
Lemma varint_bits k value b :
  k < 10 -> (0 <= b < 128)%Z -> (k = 9 -> (b <= 1)%Z) ->
  (0 <= value < 2 ^ (7 * Z.of_nat k))%Z ->
  Z.lor value (wrap U64 (Z.shiftl b (7 * Z.of_nat k))) = (value + b * 2 ^ (7 * Z.of_nat k))%Z.
Proof.
  intros Hk Hb H9 Hv. rewrite <- lor_shiftl_add by lia. f_equal.
  unfold wrap. apply Z.mod_small. rewrite Z.shiftl_mul_pow2 by lia.
  assert (0 < 2 ^ (7 * Z.of_nat k))%Z by (apply Z.pow_pos_nonneg; lia).
  split; [nia|]. destruct (decide (k = 9)) as [->|].
  - specialize (H9 eq_refl). change (2 ^ (7 * Z.of_nat 9))%Z with (2 ^ 63)%Z.
    unfold U64. change (2 ^ 64)%Z with (2 * 2 ^ 63)%Z. nia.
  - assert (2 ^ (7 * Z.of_nat k) <= 2 ^ 56)%Z by (apply Z.pow_le_mono_r; lia).
    unfold U64. change (2 ^ 64)%Z with (256 * 2 ^ 56)%Z. nia.
Qed.

Lemma land_7f b : (0 <= b < 128)%Z -> Z.land b 0x7f = b.
Proof.
  intros. change 0x7f%Z with (2 ^ 7 - 1)%Z. rewrite land_ones_mod by lia.
  apply Z.mod_small. change (2 ^ 7)%Z with 128%Z. lia.
Qed.

Lemma land_7f_hi b : (0 <= b < 128)%Z -> Z.land (b + 128) 0x7f = b.
Proof.
  intros. change 0x7f%Z with (2 ^ 7 - 1)%Z. rewrite land_ones_mod by lia.
  change (2 ^ 7)%Z with 128%Z. rewrite <- (Z.mul_1_l 128) at 1. rewrite Z.mod_add by lia.
  apply Z.mod_small. lia.
Qed.

Lemma varint_stop k value b :
  k < 10 -> (0 <= b < 128)%Z -> (k = 9 -> (b <= 1)%Z) ->
  (0 <= value < 2 ^ (7 * Z.of_nat k))%Z ->
  parses (varint_loop (shifts_from k) value) [b] (value + b * 2 ^ (7 * Z.of_nat k))%Z.
Proof.
  intros Hk Hb H9 Hv. rewrite shifts_from_S by lia. cbn [varint_loop].
  eapply rbind_parses_end; [apply rbyte_parses|]. apply parses_guard.
  { apply orb_true_iff. rewrite Z.ltb_lt, Z.leb_le. destruct (decide (k = 9)); [auto|left; lia]. }
  rewrite land_7f, varint_bits, land_128 by (auto; lia).
  replace (128 <=? b)%Z with false by (symmetry; apply Z.leb_gt; lia). apply rret_parses.
Qed.

Lemma varint_more k value b e r :
  k < 9 -> (0 <= b < 128)%Z -> (0 <= value < 2 ^ (7 * Z.of_nat k))%Z ->
  parses (varint_loop (shifts_from (S k)) (value + b * 2 ^ (7 * Z.of_nat k)))%Z e r ->
  parses (varint_loop (shifts_from k) value) ((b + 128)%Z :: e) r.
Proof.
  intros Hk Hb Hv He. rewrite shifts_from_S by lia. cbn [varint_loop].
  change ((b + 128)%Z :: e) with ([(b + 128)%Z] ++ e).
  eapply rbind_parses; [apply rbyte_parses|]. apply parses_guard.
  { apply orb_true_iff. rewrite Z.ltb_lt. left. lia. }
  rewrite land_7f_hi, varint_bits, land_128 by lia.
  by replace (128 <=? b + 128)%Z with true by (symmetry; apply Z.leb_le; lia).
Qed.

Lemma put_varint_loop_parses fuel k value v :
  k < 10 -> 9 - k <= fuel ->
  (0 <= value < 2 ^ (7 * Z.of_nat k))%Z -> (0 <= v < 2 ^ (64 - 7 * Z.of_nat k))%Z ->
  parses (varint_loop (shifts_from k) value) (put_varint_loop fuel v)
    (value + v * 2 ^ (7 * Z.of_nat k))%Z.
Proof.
  revert k value v. induction fuel as [|fuel IH]; intros k value v Hk Hf Hval Hv.
  all: assert (K9 : k = 9 -> (v <= 1)%Z)
    by (intros ->; change (64 - 7 * Z.of_nat 9)%Z with 1%Z in Hv; lia).
  - cbn [put_varint_loop]. rewrite (wrap_small U8 v) by (unfold U8; lia).
    apply varint_stop; auto; lia.
  - cbn [put_varint_loop]. destruct (0x80 <=? v)%Z eqn:E; bool_to_prop.
    + pose proof (Z.mod_pos_bound v 256 ltac:(lia)). pose proof (Z.mod_pos_bound v 128 ltac:(lia)).
      rewrite lor_128 by (unfold wrap, U8; lia).
      replace (wrap U8 v mod 128)%Z with (v mod 128)%Z.
      2: { unfold wrap, U8. change 256%Z with (128 * 2)%Z.
           rewrite Z.rem_mul_r, (Z.mul_comm 128), Z.mod_add, Z.mod_mod; lia. }
      assert (D : v = (128 * Z.shiftr v 7 + v mod 128)%Z).
      { rewrite Z.shiftr_div_pow2 by lia. apply Z.div_mod; lia. }
      assert (P : (2 ^ (7 * Z.of_nat (S k)) = 2 ^ (7 * Z.of_nat k) * 128)%Z).
      { replace (7 * Z.of_nat (S k))%Z with (7 * Z.of_nat k + 7)%Z by lia. by rewrite Z.pow_add_r by lia. }
      assert (Q : (2 ^ (64 - 7 * Z.of_nat k) = 2 ^ (64 - 7 * Z.of_nat (S k)) * 128)%Z).
      { replace (64 - 7 * Z.of_nat k)%Z with ((64 - 7 * Z.of_nat (S k)) + 7)%Z by lia.
        rewrite Z.pow_add_r; lia. }
      apply varint_more; [lia..|].
      replace (value + v * 2 ^ (7 * Z.of_nat k))%Z with
        (value + v mod 128 * 2 ^ (7 * Z.of_nat k) + Z.shiftr v 7 * 2 ^ (7 * Z.of_nat (S k)))%Z
        by (rewrite P; nia).
      apply IH; [lia|lia|rewrite P; nia|]. rewrite Q in Hv. lia.
    + rewrite (wrap_small U8 v) by (unfold U8; lia).
      apply varint_stop; auto; lia.
Qed.

Lemma varint_parses v : is_u64 v -> parses varint (put_varint v) v.
Proof.
  intros Hv. unfold varint. rewrite shifts_from_0.
  replace v with (0 + v * 2 ^ (7 * Z.of_nat 0))%Z at 2 by (simpl; lia).
  apply put_varint_loop_parses; simpl; [lia..|]. apply Hv.
Qed.

Lemma number_parses bound v :
  is_u64 v -> (v < bound)%Z -> parses (number bound) (put_varint v) v.
Proof.
  intros Hv Hb. unfold number. eapply rbind_parses_end; [by apply varint_parses|].
  apply parses_guard; [by apply Z.ltb_lt|apply rret_parses].
Qed.

Lemma rbytes_parses b : (Z.of_nat (length b) < USIZE)%Z -> parses rbytes (put_bytes b) b.
Proof.
  intros Hb. unfold rbytes, put_bytes. eapply rbind_parses.
  - apply number_parses; [split; [lia|exact Hb]|exact Hb].
  - rewrite Nat2Z.id. apply rtake_parses.
Qed.

Lemma rstr_parses b :
  (Z.of_nat (length b) < USIZE)%Z -> utf8_valid b = true -> parses rstr (put_bytes b) b.
Proof.
  intros Hb Hu. unfold rstr. eapply rbind_parses_end; [by apply rbytes_parses|].
  apply parses_guard; [done|apply rret_parses].
Qed.

Lemma put_varint_loop_nonempty fuel v : 1 <= length (put_varint_loop fuel v).
Proof. destruct fuel; cbn [put_varint_loop]; [|destruct (_ <=? _)%Z]; cbn [length]; lia. Qed.

Lemma put_varint_nonempty v : 1 <= length (put_varint v).
Proof. apply put_varint_loop_nonempty. Qed.

Lemma put_varint_loop_two fuel v : (128 <= v)%Z -> 2 <= length (put_varint_loop (S fuel) v).
Proof.
  intros H. cbn [put_varint_loop]. rewrite (proj2 (Z.leb_le _ _)) by lia. cbn [length].
  pose proof (put_varint_loop_nonempty fuel (Z.shiftr v 7)). lia.
Qed.

Lemma put_varint_two v : (128 <= v)%Z -> 2 <= length (put_varint v).
Proof. apply put_varint_loop_two. Qed.

Lemma put_varint_loop_ok fuel v : bytes_ok (put_varint_loop fuel v).
Proof.
  assert (W : forall a, is_u8 (wrap U8 a)) by (intros a; unfold wrap, U8, is_u8; pose proof (Z.mod_pos_bound a 256); lia).
  revert v. induction fuel as [|fuel IH]; intros v; cbn [put_varint_loop]; [repeat constructor; apply W|].
  destruct (_ <=? _)%Z; repeat constructor; try apply W; try apply IH.
  - specialize (W v). unfold is_u8 in W. rewrite lor_128 by lia. pose proof (Z.mod_pos_bound (wrap U8 v) 128). lia.
  - specialize (W v). unfold is_u8 in W. rewrite lor_128 by lia. pose proof (Z.mod_pos_bound (wrap U8 v) 128). lia.
Qed.

Lemma put_varint_ok v : bytes_ok (put_varint v).
Proof. apply put_varint_loop_ok. Qed.

Lemma put_bytes_ok b : bytes_ok b -> bytes_ok (put_bytes b).
Proof. intros. apply Forall_app_2; [apply put_varint_ok|done]. Qed.

Lemma put_bytes_nonempty b : 1 <= length (put_bytes b).
Proof. unfold put_bytes. rewrite length_app. pose proof (put_varint_nonempty (Z.of_nat (length b))). lia. Qed.

(** A count is accepted when its elements take at least [min] bytes each: the elements that
    follow are in the buffer, so no honest count is refused. *)
Lemma count_parses min n p s :
  (Z.of_nat n < USIZE)%Z -> n * Nat.max min 1 <= length s ->
  count min (mid p (put_varint (Z.of_nat n) ++ s)) = Ok (n, mid (p ++ put_varint (Z.of_nat n)) s).
Proof.
  intros Hn Hs. unfold count, rbind. rewrite (number_parses USIZE); [|split; [lia|exact Hn]|exact Hn].
  simpl. rewrite remaining_mid. rewrite Nat2Z.id.
  replace (_ <=? _)%Z with true; [done|]. symmetry. apply Z.leb_le, Nat2Z.inj_le.
  apply Nat.div_le_lower_bound; lia.
Qed.

(** A counted sequence: the count is accepted because the elements follow it. *)
Lemma rbind_count_parses {B} min n (k : nat -> read B) e b :
  (Z.of_nat n < USIZE)%Z -> n * Nat.max min 1 <= length e -> parses (k n) e b ->
  parses (rbind (count min) k) (put_varint (Z.of_nat n) ++ e) b.
Proof.
  intros Hn He Hk p s. unfold rbind. rewrite <- app_assoc, count_parses.
  - cbn [obind]. rewrite Hk. by rewrite <- app_assoc.
  - done.
  - rewrite length_app. lia.
Qed.

(** ** Reads of untrusted bytes

    A read never panics and never moves the cursor past the end of the buffer, whatever the
    bytes are. *)

Definition reader_ok (r : Reader) : Prop := at_ r <= length (data r).

Definition safe_read {A} (m : read A) : Prop :=
  forall r, reader_ok r -> no_panic (m r) /\ forall a r', m r = Ok (a, r') -> reader_ok r' /\ data r' = data r /\ at_ r <= at_ r'.

Lemma rret_safe {A} (a : A) : safe_read (rret a).
Proof. intros r Hr. split; [done|]. unfold rret. intros ?? [= <- <-]. auto. Qed.

Lemma rfail_safe {A} e : safe_read (@rfail A e).
Proof. done. Qed.

Lemma rbind_safe {A B} (m : read A) (k : A -> read B) :
  safe_read m -> (forall a, safe_read (k a)) -> safe_read (rbind m k).
Proof.
  intros Hm Hk r Hr. unfold rbind. destruct (Hm r Hr) as [Hp Hok].
  destruct (m r) as [[a r1]|e|] eqn:E; simpl; [|done|done].
  destruct (Hok _ _ eq_refl) as (H1 & H2 & H3). destruct (Hk a r1 H1) as [Hp' Hok'].
  split; [done|]. intros b r' Hb. destruct (Hok' _ _ Hb) as (? & Hd & ?).
  split; [done|]. split; [congruence|lia].
Qed.

Lemma rcheck_safe {A} (b : bool) e (m : read A) : safe_read m -> safe_read (if b then m else rfail e).
Proof. destruct b; auto using rfail_safe. Qed.

Lemma rlift_safe {A} (m : outcome A) : no_panic m -> safe_read (rlift m).
Proof.
  intros Hm r Hr. unfold rlift. destruct m; simpl; [|done|done].
  split; [done|]. intros ?? [= <- <-]. auto.
Qed.

Lemma rtake_inv len r b r' :
  rtake len r = Ok (b, r') ->
  len <= remaining r /\ b = take len (drop (at_ r) (data r)) /\ r' = {| data := data r; at_ := at_ r + len |}.
Proof.
  unfold rtake, slice. destruct (len <=? remaining r) eqn:E; [|done].
  destruct (_ && _) eqn:E2; simpl; [|done]. intros [= <- <-]. bool_to_prop.
  split; [done|]. split; [|done]. f_equal. lia.
Qed.

Lemma rtake_safe len : safe_read (rtake len).
Proof.
  intros r Hr. unfold reader_ok, remaining in *. split.
  - unfold rtake, remaining. destruct (_ <=? _) eqn:E; [|done]. bool_to_prop.
    unfold slice. destruct (_ && _) eqn:E2; [done|].
    apply andb_false_iff in E2. destruct E2; bool_to_prop; lia.
  - intros a r' H. apply rtake_inv in H as (H & -> & ->). unfold remaining in H. split_and!; simpl; try done; lia.
Qed.

Lemma rbyte_safe : safe_read rbyte.
Proof.
  intros r Hr. unfold rbyte, rbind. destruct (rtake_safe 1 r Hr) as [Hp Hok].
  destruct (rtake 1 r) as [[b r']|e|] eqn:E; simpl; [|done|done].
  destruct (Hok _ _ eq_refl) as (?&?&?). apply rtake_inv in E as (Hrem & -> & ->).
  unfold remaining in Hrem. destruct (drop (at_ r) (data r)) as [|c l] eqn:Ed.
  - apply (f_equal length) in Ed. rewrite length_drop in Ed. simpl in Ed. lia.
  - simpl. split; [done|]. unfold rret. intros ?? [= <- <-]. auto.
Qed.

Create HintDb reads discriminated.
#[export] Hint Resolve rret_safe rfail_safe rcheck_safe rtake_safe rbyte_safe : reads.

Lemma varint_loop_safe shifts value : safe_read (varint_loop shifts value).
Proof.
  revert value. induction shifts as [|sh shifts IH]; intros value; simpl; [apply rfail_safe|].
  apply rbind_safe; [apply rbyte_safe|]. intros b. apply rcheck_safe.
  destruct (_ =? _)%Z; auto with reads.
Qed.

Lemma number_safe bound : safe_read (number bound).
Proof. apply rbind_safe; [apply varint_loop_safe|auto with reads]. Qed.

Lemma rbytes_safe : safe_read rbytes.
Proof. apply rbind_safe; [apply number_safe|auto with reads]. Qed.

Lemma rstr_safe : safe_read rstr.
Proof. apply rbind_safe; [apply rbytes_safe|auto with reads]. Qed.

Lemma count_safe min : safe_read (count min).
Proof.
  apply rbind_safe; [apply number_safe|]. intros n r Hr. destruct (_ <=? _)%Z; [|done].
  split; [done|]. intros ?? [= <- <-]. auto.
Qed.

Lemma rrepeat_safe {A S} n (step : S -> read (A * S)) s :
  (forall s, safe_read (step s)) -> safe_read (rrepeat n step s).
Proof.
  intros Hs. revert s. induction n as [|n IH]; intros s; simpl; [apply rret_safe|].
  apply rbind_safe; [apply Hs|]. intros [a s']. apply rbind_safe; auto with reads.
Qed.

#[export] Hint Resolve rbind_safe varint_loop_safe number_safe rbytes_safe rstr_safe count_safe
  rrepeat_safe rlift_safe : reads.
