(* ===== verification/BitPack.v ===== *)
(** * Bit packing

    [pack], [unpack], [unpack_into], [unpack_fixed] (its portable loops), [unpack_values] and
    [BitReader] of [src/core/documents/postings.rs]: fixed-width values as one little-endian
    bit string.  [pack_spec] says what the packer's two-register loop writes; every decoder is
    then related to the same bit string through [digit].  The AVX2 and NEON kernels are
    target intrinsics and are not modelled: [unpack_fixed] is the path with [decoded = 0]. *)

From S2P Require Import Prelude Words.

Definition pw (n : nat) : Z := 2 ^ Z.of_nat n.

Lemma pw_pos n : (0 < pw n)%Z.
Proof. apply Z.pow_pos_nonneg; lia. Qed.

Lemma pw_add a b : pw (a + b) = (pw a * pw b)%Z.
Proof. unfold pw. rewrite Nat2Z.inj_add. apply Z.pow_add_r; lia. Qed.

Lemma pw_le a b : a <= b -> (pw a <= pw b)%Z.
Proof. intros. apply Z.pow_le_mono_r; lia. Qed.

Lemma land_pw a n : Z.land a (pw n - 1) = (a mod pw n)%Z.
Proof. apply land_ones_mod. lia. Qed.

(** ** The packer *)

Definition BLOCK_LEN : nat := 128.
Definition DIRECT_BITS : nat := 56.

(** The loop of [pack]: [buffer] holds the [used] low bits not yet flushed. *)
Fixpoint pack_loop (bits : nat) (values : list Z) (buffer : Z) (used : nat) : list Z :=
  match values with
  | [] => take (div_ceil used 8) (to_le_bytes 8 buffer)
  | value :: rest =>
      let buffer := Z.lor buffer (wrap U64 (Z.shiftl value (Z.of_nat used))) in
      let total := used + bits in
      if 64 <=? total then
        to_le_bytes 8 buffer ++
        pack_loop bits rest
          (if Nat.eqb used 0 then 0 else Z.shiftr value (64 - Z.of_nat used))%Z (total - 64)
      else pack_loop bits rest buffer total
  end.

Definition pack (values : list Z) (bits : nat) : list Z := pack_loop bits values 0 0.

(** ** The decoders *)

(** [unpack]: one value by its index. *)
Definition unpack (bytes : list Z) (index bits : nat) : outcome Z :=
  if Nat.eqb bits 0 then Ok 0%Z else
  let bit := index * bits in
  let start := bit / 8 in
  let shift := bit mod 8 in
  let slow :=
    let size := div_ceil (shift + bits) 8 in
    let* window := slice bytes start (start + size) in
    let value := Z.shiftr (from_le_bytes (window ++ replicate (16 - size) 0%Z)) (Z.of_nat shift) in
    Ok (wrap U64 (Z.land value (pw bits - 1))) in
  if bits <=? DIRECT_BITS then
    match get_range bytes start (start + 8) with
    | Some window => Ok (Z.land (Z.shiftr (from_le_bytes window) (Z.of_nat shift)) (pw bits - 1))
    | None => slow
    end
  else slow.

Record BitReader := mkBitReader { br_bytes : list Z; br_buffer : Z; br_used : nat; br_bits : nat }.

Definition bitreader_new (bytes : list Z) (bits : nat) : BitReader :=
  {| br_bytes := bytes; br_buffer := 0; br_used := 0; br_bits := bits |}.

(** The refill loop of [BitReader::next]; eight bytes are enough for 64 bits. *)
Fixpoint br_fill (fuel : nat) (r : BitReader) : outcome BitReader :=
  if br_used r <? br_bits r then
    match fuel with
    | O => Panic
    | S fuel =>
        match br_bytes r with
        | [] => Panic
        | b :: rest =>
            br_fill fuel
              {| br_bytes := rest;
                 br_buffer := Z.lor (br_buffer r) (Z.shiftl b (Z.of_nat (br_used r)));
                 br_used := br_used r + 8; br_bits := br_bits r |}
        end
    end
  else Ok r.

Definition br_next (r : BitReader) : outcome (Z * BitReader) :=
  let* r := br_fill 8 r in
  Ok (wrap U64 (Z.land (br_buffer r) (pw (br_bits r) - 1)),
      {| br_bytes := br_bytes r;
         br_buffer := Z.shiftr (br_buffer r) (Z.of_nat (br_bits r));
         br_used := br_used r - br_bits r; br_bits := br_bits r |}).

Fixpoint br_take (n : nat) (r : BitReader) : outcome (list Z) :=
  match n with
  | O => Ok []
  | S n => let* (v, r) := br_next r in let* l := br_take n r in Ok (v :: l)
  end.

(** The word read at byte [byte]: eight bytes, or the zero-padded tail. *)
Definition window_at (bytes : list Z) (byte : nat) : outcome Z :=
  match get_range bytes byte (byte + 8) with
  | Some window => Ok (from_le_bytes window)
  | None =>
      let* tail := slice bytes byte (length bytes) in
      Ok (from_le_bytes (tail ++ replicate (8 - length tail) 0%Z))
  end.

(** [unpack_into]: the values it emits, in index order. *)
Definition unpack_into (bytes : list Z) (n bits : nat) : outcome (list Z) :=
  if Nat.eqb bits 0 then Ok (replicate n 0%Z)
  else if DIRECT_BITS <? bits then br_take n (bitreader_new bytes bits)
  else
    omap_list (fun index =>
      let bit := index * bits in
      let* word := window_at bytes (bit / 8) in
      Ok (Z.land (Z.shiftr word (Z.of_nat (bit mod 8))) (pw bits - 1))) (seq 0 n).

(** [unpack_fixed::<BITS>]: the first [whole] values by full windows, the rest zero-padded. *)
Definition unpack_fixed (bits : nat) (bytes : list Z) (n : nat) : outcome (list Z) :=
  let whole :=
    if 8 <=? length bytes then Nat.min (((length bytes - 8) * 8 + 7) / bits + 1) n else 0 in
  let* head := omap_list (fun index =>
      let bit := index * bits in
      let* window := slice bytes (bit / 8) (bit / 8 + 8) in
      Ok (Z.land (Z.shiftr (from_le_bytes window) (Z.of_nat (bit mod 8))) (pw bits - 1)))
    (seq 0 whole) in
  let* tail := omap_list (fun index =>
      let bit := index * bits in
      let* tail := slice bytes (bit / 8) (Nat.min (bit / 8 + 8) (length bytes)) in
      Ok (Z.land (Z.shiftr (from_le_bytes (tail ++ replicate (8 - length tail) 0%Z))
                    (Z.of_nat (bit mod 8))) (pw bits - 1)))
    (seq whole (n - whole)) in
  Ok (head ++ tail).

(** [unpack_values]: a constant-width loop for widths up to 32, [unpack_into] above. *)
Definition unpack_values (bytes : list Z) (n bits : nat) : outcome (list Z) :=
  if Nat.eqb bits 0 then Ok (replicate n 0%Z)
  else if bits <=? 32 then unpack_fixed bits bytes n
  else unpack_into bytes n bits.

(** ** The packed number *)

Fixpoint packed (bits : nat) (values : list Z) : Z :=
  match values with
  | [] => 0
  | v :: r => v + pw bits * packed bits r
  end.

(** Value [i] of a bit string read as a number. *)
Definition digit (bits : nat) (x : Z) (i : nat) : Z := (x / pw (bits * i)) mod pw bits.

Definition fits (bits : nat) (v : Z) : Prop := (0 <= v < pw bits)%Z.

Lemma packed_bound bits l :
  Forall (fits bits) l -> (0 <= packed bits l < pw (bits * length l))%Z.
Proof.
  induction 1 as [|v l Hv Hl IH]; cbn [packed length].
  - rewrite Nat.mul_0_r. change (pw 0) with 1%Z. lia.
  - rewrite Nat.mul_succ_r, Nat.add_comm, pw_add. unfold fits in Hv.
    pose proof (pw_pos bits). pose proof (pw_pos (bits * length l)). nia.
Qed.

Lemma digit_add_high bits x y m i :
  bits * S i <= m -> digit bits (x + pw m * y) i = digit bits x i.
Proof.
  intros Hm. unfold digit.
  replace m with (bits * i + bits + (m - bits * S i)) by lia. rewrite !pw_add.
  replace (x + pw (bits * i) * pw bits * pw (m - bits * S i) * y)%Z
    with (x + (y * pw (m - bits * S i) * pw bits) * pw (bits * i))%Z by ring.
  rewrite Z.div_add by (pose proof (pw_pos (bits * i)); lia).
  apply Z.mod_add. pose proof (pw_pos bits); lia.
Qed.

Lemma digit_packed bits l i v :
  Forall (fits bits) l -> l !! i = Some v -> digit bits (packed bits l) i = v.
Proof.
  intros Hl. revert i. induction Hl as [|a l Ha Hl IH]; intros i Hi; [done|].
  unfold fits in Ha. pose proof (pw_pos bits). destruct i as [|i]; cbn [packed].
  - injection Hi as ->. unfold digit. rewrite Nat.mul_0_r. change (pw 0) with 1%Z.
    rewrite Z.div_1_r, Z.mul_comm, Z.mod_add by lia. apply Z.mod_small; lia.
  - rewrite <- (IH i Hi). unfold digit. rewrite Nat.mul_succ_r, Nat.add_comm, pw_add.
    rewrite <- Z.div_div by (pose proof (pw_pos (bits * i)); lia).
    rewrite (Z.mul_comm (pw bits)), Z.div_add, (Z.div_small a) by lia. by rewrite Z.add_0_l.
Qed.

Lemma from_le_bytes_app l r :
  bytes_ok l -> from_le_bytes (l ++ r) = (from_le_bytes l + pw (8 * length l) * from_le_bytes r)%Z.
Proof.
  induction 1 as [|b l Hb Hl IH]; cbn [app from_le_bytes length].
  - rewrite Nat.mul_0_r. change (pw 0) with 1%Z. lia.
  - unfold is_u8 in Hb. change 256%Z with (2 ^ 8)%Z in Hb.
    rewrite IH, !lor_shiftl_add by lia. rewrite Nat.mul_succ_r, Nat.add_comm, pw_add.
    change (pw 8) with (2 ^ 8)%Z. ring.
Qed.

Lemma from_le_bytes_zeros n : from_le_bytes (replicate n 0%Z) = 0%Z.
Proof. induction n; cbn; [done|]. by rewrite IHn. Qed.

Lemma to_le_bytes_app a b x :
  to_le_bytes (a + b) x = to_le_bytes a x ++ to_le_bytes b (Z.shiftr x (8 * Z.of_nat a)).
Proof.
  revert x. induction a as [|a IH]; intros x.
  - by rewrite Z.mul_0_r, Z.shiftr_0_r.
  - cbn [Nat.add to_le_bytes app]. f_equal. rewrite IH. f_equal. f_equal.
    rewrite Z.shiftr_shiftr by lia. f_equal. lia.
Qed.

Lemma to_le_bytes_mod n x k : to_le_bytes n (x + pw (8 * n) * k) = to_le_bytes n x.
Proof.
  revert x. induction n as [|n IH]; intros x; cbn [to_le_bytes]; [done|].
  rewrite Nat.mul_succ_r, Nat.add_comm, pw_add. f_equal.
  - change 255%Z with (2 ^ 8 - 1)%Z. rewrite !land_ones_mod by lia. change (pw 8) with (2 ^ 8)%Z.
    rewrite <- Z.mul_assoc, Z.mul_comm. apply Z.mod_add. lia.
  - rewrite <- (IH (Z.shiftr x 8)). f_equal. rewrite !Z.shiftr_div_pow2 by lia.
    change (pw 8) with (2 ^ 8)%Z.
    replace (x + 2 ^ 8 * pw (8 * n) * k)%Z with (x + (pw (8 * n) * k) * 2 ^ 8)%Z by ring.
    apply Z.div_add. lia.
Qed.

(** ** What the packer writes *)

Lemma div_ceil_add_mul a b c : 0 < b -> div_ceil (c * b + a) b = c + div_ceil a b.
Proof.
  intros Hb. unfold div_ceil.
  destruct (decide (a = 0)) as [->|Ha].
  - replace (c * b + 0 + b - 1) with (b - 1 + c * b) by lia.
    rewrite Nat.div_add by lia. simpl (0 + b). lia.
  - replace (c * b + a + b - 1) with (a + b - 1 + c * b) by lia. rewrite Nat.div_add; lia.
Qed.

Lemma lor_wrap_shiftl buffer v used :
  used < 64 -> (0 <= buffer < pw used)%Z -> (0 <= v)%Z ->
  Z.lor buffer (wrap U64 (Z.shiftl v (Z.of_nat used))) = ((buffer + v * pw used) mod U64)%Z.
Proof.
  intros Hu Hb Hv.
  assert (S : U64 = (pw used * pw (64 - used))%Z).
  { rewrite <- pw_add. by replace (used + (64 - used)) with 64 by lia. }
  pose proof (pw_pos used). pose proof (pw_pos (64 - used)).
  assert (E : wrap U64 (Z.shiftl v (Z.of_nat used)) = Z.shiftl (v mod pw (64 - used)) (Z.of_nat used)).
  { unfold wrap. rewrite !Z.shiftl_mul_pow2 by lia. fold (pw used). rewrite S, (Z.mul_comm (pw used)).
    apply Z.mul_mod_distr_r; lia. }
  rewrite E, lor_shiftl_add by (try lia; exact Hb). fold (pw used).
  pose proof (Z.div_mod v (pw (64 - used)) ltac:(lia)) as D.
  pose proof (Z.mod_pos_bound v (pw (64 - used)) ltac:(lia)) as B.
  set (q := (v / pw (64 - used))%Z) in *. set (m := (v mod pw (64 - used))%Z) in *.
  replace (buffer + v * pw used)%Z with (buffer + m * pw used + q * U64)%Z
    by (rewrite S, D; ring).
  rewrite Z.mod_add by done. symmetry. apply Z.mod_small. rewrite S. nia.
Qed.

Lemma take_to_le_bytes n m x : n <= m -> take n (to_le_bytes m x) = to_le_bytes n x.
Proof.
  intros. replace m with (n + (m - n)) by lia. rewrite to_le_bytes_app.
  rewrite take_app_le by (rewrite to_le_bytes_length; lia).
  rewrite take_ge by (rewrite to_le_bytes_length; lia). done.
Qed.

(** A full register is flushed and the carried bits of the value stay. *)
Lemma pack_carry bits used buffer v :
  bits <= 64 -> used < 64 -> 64 <= used + bits -> (0 <= buffer < pw used)%Z -> fits bits v ->
  (if Nat.eqb used 0 then 0 else Z.shiftr v (64 - Z.of_nat used))%Z
    = ((buffer + v * pw used) / U64)%Z /\
  (0 <= (buffer + v * pw used) / U64 < pw (used + bits - 64))%Z.
Proof.
  intros Hbits Hu Ht Hb Hv. unfold fits in Hv. pose proof (pw_pos used). split.
  - destruct (Nat.eqb used 0) eqn:E0; bool_to_prop.
    + subst used. change (pw 0) with 1%Z in *. assert (bits = 64) by lia. subst bits.
      change (pw 64) with U64 in *. symmetry. apply Z.div_small. lia.
    + rewrite Z.shiftr_div_pow2 by lia.
      replace (64 - Z.of_nat used)%Z with (Z.of_nat (64 - used)) by lia. fold (pw (64 - used)).
      replace U64 with (pw used * pw (64 - used))%Z
        by (rewrite <- pw_add; by replace (used + (64 - used)) with 64 by lia).
      pose proof (pw_pos (64 - used)). rewrite <- Z.div_div by lia. f_equal.
      rewrite Z.div_add, (Z.div_small buffer) by lia. lia.
  - split; [apply Z.div_pos; [nia|done]|]. apply Z.div_lt_upper_bound; [done|].
    change U64 with (pw 64). rewrite <- pw_add.
    replace (64 + (used + bits - 64)) with (used + bits) by lia. rewrite pw_add. nia.
Qed.

Lemma pack_flush n y z :
  to_le_bytes 8 (y mod U64) ++ to_le_bytes n (y / U64 + z) = to_le_bytes (8 + n) (y + U64 * z).
Proof.
  rewrite to_le_bytes_app. change U64 with (pw (8 * 8)).
  pose proof (Z.div_mod y (pw (8 * 8)) ltac:(done)) as D. f_equal.
  - rewrite to_le_bytes_mod, <- (to_le_bytes_mod 8 (y mod pw (8 * 8)) (y / pw (8 * 8))).
    f_equal. lia.
  - f_equal. rewrite Z.shiftr_div_pow2 by lia. change (2 ^ (8 * Z.of_nat 8))%Z with (pw (8 * 8)).
    rewrite (Z.mul_comm (pw (8 * 8))), Z.div_add by done. done.
Qed.

Lemma pack_loop_spec bits l buffer used :
  bits <= 64 -> used < 64 -> (0 <= buffer < pw used)%Z -> Forall (fits bits) l ->
  pack_loop bits l buffer used =
  to_le_bytes (div_ceil (used + length l * bits) 8) (buffer + pw used * packed bits l)%Z.
Proof.
  intros Hbits. revert buffer used. induction l as [|v l IH]; intros buffer used Hu Hb Hl.
  - cbn [pack_loop packed length]. rewrite Z.mul_0_r, Z.add_0_r, Nat.mul_0_l, Nat.add_0_r.
    apply take_to_le_bytes. apply div_ceil_le; lia.
  - inversion Hl as [|?? Hv Hl']; subst. cbn [pack_loop packed length].
    change (S (length l) * bits) with (bits + length l * bits).
    pose proof (pw_pos used). pose proof (pw_pos bits).
    rewrite lor_wrap_shiftl by (unfold fits in Hv; lia).
    destruct (64 <=? used + bits) eqn:E; bool_to_prop.
    + destruct (pack_carry bits used buffer v) as [-> BB]; auto.
      rewrite IH by (auto; lia). rewrite pack_flush, <- div_ceil_add_mul by lia. f_equal.
      * f_equal. lia.
      * rewrite Z.mul_assoc. change U64 with (pw 64). rewrite <- pw_add.
        replace (64 + (used + bits - 64)) with (used + bits) by lia. rewrite pw_add. ring.
    + assert (B : (0 <= buffer + v * pw used < pw (used + bits))%Z)
        by (unfold fits in Hv; rewrite pw_add; nia).
      rewrite Z.mod_small.
      2: { split; [lia|]. eapply Z.lt_le_trans; [apply B|]. apply (pw_le _ 64). lia. }
      rewrite IH by (auto; lia). f_equal; [f_equal; lia|]. rewrite pw_add. ring.
Qed.

(** [pack] writes the values as one number, lowest first, in the fewest whole bytes. *)
Lemma pack_spec bits l :
  bits <= 64 -> Forall (fits bits) l ->
  pack l bits = to_le_bytes (div_ceil (length l * bits) 8) (packed bits l).
Proof.
  intros Hb Hl. unfold pack. rewrite pack_loop_spec; auto; [|lia|change (pw 0) with 1%Z; lia].
  change (pw 0) with 1%Z. by rewrite Z.mul_1_l, Z.add_0_l, Nat.add_0_l.
Qed.

Lemma pack_length bits l :
  bits <= 64 -> Forall (fits bits) l -> length (pack l bits) = div_ceil (length l * bits) 8.
Proof. intros. by rewrite pack_spec, to_le_bytes_length. Qed.

Lemma pack_bytes_ok bits l : bits <= 64 -> Forall (fits bits) l -> bytes_ok (pack l bits).
Proof. intros. rewrite pack_spec by done. apply to_le_bytes_ok. Qed.

Lemma div_ceil_8_bits n : n <= 8 * div_ceil n 8.
Proof. pose proof (div_ceil_mul_ge n 8). lia. Qed.

(** The bit string a decoder sees when anything follows the packed values. *)
Lemma from_pack bits l rest :
  bits <= 64 -> Forall (fits bits) l ->
  from_le_bytes (pack l bits ++ rest)
    = (packed bits l + pw (8 * div_ceil (length l * bits) 8) * from_le_bytes rest)%Z.
Proof.
  intros Hb Hl. rewrite from_le_bytes_app by by apply pack_bytes_ok.
  rewrite pack_length, pack_spec by auto. rewrite from_to_le_bytes; [done|].
  pose proof (packed_bound bits l Hl) as B. split; [apply B|]. eapply Z.lt_le_trans; [apply B|].
  change 8%Z with (Z.of_nat 8). rewrite <- Nat2Z.inj_mul. fold (pw (8 * div_ceil (length l * bits) 8)).
  apply pw_le. pose proof (div_ceil_8_bits (length l * bits)). lia.
Qed.

Lemma digit_pack bits l rest i v :
  bits <= 64 -> Forall (fits bits) l -> l !! i = Some v ->
  digit bits (from_le_bytes (pack l bits ++ rest)) i = v.
Proof.
  intros Hb Hl Hi. rewrite from_pack, digit_add_high; auto using digit_packed.
  pose proof (lookup_lt_Some _ _ _ Hi). pose proof (div_ceil_8_bits (length l * bits)). nia.
Qed.

(** ** The decoders read digits *)

Lemma from_le_bytes_drop n l :
  bytes_ok l -> n <= length l -> from_le_bytes (drop n l) = (from_le_bytes l / pw (8 * n))%Z.
Proof.
  intros Hl Hn. rewrite <- (take_drop n l) at 2.
  assert (Ht : bytes_ok (take n l)) by by apply Forall_take.
  rewrite from_le_bytes_app by done. pose proof (from_le_bytes_bound _ Ht) as B.
  rewrite length_take in *. replace (n `min` length l) with n in * by lia.
  replace (8 * Z.of_nat n)%Z with (Z.of_nat (8 * n)) in B by lia. fold (pw (8 * n)) in B.
  pose proof (pw_pos (8 * n)). rewrite Z.mul_comm, Z.div_add, Z.div_small by lia. done.
Qed.

Lemma from_le_bytes_take n l :
  bytes_ok l -> n <= length l -> from_le_bytes (take n l) = (from_le_bytes l mod pw (8 * n))%Z.
Proof.
  intros Hl Hn. rewrite <- (take_drop n l) at 2.
  assert (Ht : bytes_ok (take n l)) by by apply Forall_take.
  rewrite from_le_bytes_app by done. pose proof (from_le_bytes_bound _ Ht) as B.
  rewrite length_take in *. replace (n `min` length l) with n in * by lia.
  replace (8 * Z.of_nat n)%Z with (Z.of_nat (8 * n)) in B by lia. fold (pw (8 * n)) in B.
  pose proof (pw_pos (8 * n)). rewrite Z.mul_comm, Z.mod_add, Z.mod_small by lia. done.
Qed.

Lemma from_le_bytes_pad l n : bytes_ok l -> from_le_bytes (l ++ replicate n 0%Z) = from_le_bytes l.
Proof. intros. rewrite from_le_bytes_app, from_le_bytes_zeros by done. lia. Qed.

Lemma div_mod_window z shift bits width :
  shift + bits <= width ->
  ((z / pw shift) mod pw bits = ((z mod pw width) / pw shift) mod pw bits)%Z.
Proof.
  intros Hw. pose proof (pw_pos shift). pose proof (pw_pos bits). pose proof (pw_pos width).
  set (k := width - shift - bits). assert (E : pw width = (pw k * pw bits * pw shift)%Z).
  { rewrite <- !pw_add. f_equal. unfold k. lia. }
  pose proof (Z.div_mod z (pw width) ltac:(lia)) as D.
  replace z with (z mod pw width + (z / pw width * pw k * pw bits) * pw shift)%Z at 1
    by (rewrite D at 3; rewrite E; ring).
  rewrite Z.div_add by lia. apply Z.mod_add. lia.
Qed.

(** A word that agrees with the bit string from byte [start] on [width] bits gives the digit. *)
Lemma word_digit bits x w start shift width i :
  bits * i = 8 * start + shift -> shift + bits <= width ->
  (w mod pw width = (x / pw (8 * start)) mod pw width)%Z ->
  Z.land (Z.shiftr w (Z.of_nat shift)) (pw bits - 1) = digit bits x i.
Proof.
  intros Hi Hw Hmod. unfold digit. rewrite land_pw.
  rewrite Z.shiftr_div_pow2 by lia. fold (pw shift). rewrite Hi, pw_add.
  pose proof (pw_pos shift). pose proof (pw_pos (8 * start)). rewrite <- Z.div_div by lia.
  rewrite (div_mod_window w shift bits width), (div_mod_window (x / _)%Z shift bits width) by done.
  by rewrite Hmod.
Qed.

(** The bytes hold value [i] in full. *)
Definition holds (bytes : list Z) (bits i : nat) : Prop := bits * S i <= 8 * length bytes.

Lemma index_split bits i : bits * i = 8 * (i * bits / 8) + (i * bits) mod 8.
Proof. rewrite (Nat.mul_comm bits i). apply Nat.div_mod_eq. Qed.

(** A slice of [k] bytes at byte [start] agrees with the string on [8 * k] bits. *)
Lemma slice_word bytes start k :
  bytes_ok bytes -> start + k <= length bytes ->
  (from_le_bytes (take k (drop start bytes)) mod pw (8 * k)
     = (from_le_bytes bytes / pw (8 * start)) mod pw (8 * k))%Z.
Proof.
  intros Hb Hk. rewrite from_le_bytes_take.
  - rewrite from_le_bytes_drop by (auto; lia). apply Z.mod_mod. pose proof (pw_pos (8 * k)). lia.
  - by apply Forall_drop.
  - rewrite length_drop. lia.
Qed.

Lemma mod8_lt n : n mod 8 < 8.
Proof. apply Nat.mod_upper_bound. lia. Qed.

Lemma window_at_digit bytes bits i :
  bytes_ok bytes -> holds bytes bits i -> 0 < bits <= DIRECT_BITS ->
  exists w, window_at bytes (i * bits / 8) = Ok w /\
    Z.land (Z.shiftr w (Z.of_nat ((i * bits) mod 8))) (pw bits - 1)
      = digit bits (from_le_bytes bytes) i.
Proof.
  unfold holds, DIRECT_BITS. intros Hb Hh Hbits. pose proof (index_split bits i) as Hi.
  pose proof (mod8_lt (i * bits)). set (start := i * bits / 8) in *. set (shift := (i * bits) mod 8) in *.
  unfold window_at. destruct (decide (start + 8 <= length bytes)) as [Hs|Hs].
  - rewrite get_range_Some by lia. eexists. split; [done|].
    replace (start + 8 - start) with 8 by lia.
    apply (word_digit bits _ _ start shift (8 * 8)); [done|lia|]. by apply slice_word.
  - rewrite get_range_None by lia. rewrite slice_Ok by lia. eexists. split; [done|].
    rewrite from_le_bytes_pad by (apply Forall_take, Forall_drop; done).
    rewrite take_ge by (rewrite length_drop; lia). rewrite from_le_bytes_drop by (auto; lia).
    by apply (word_digit bits _ _ start shift (shift + bits)).
Qed.

Lemma unpack_fixed_digits bits bytes n :
  bytes_ok bytes -> 0 < bits <= 32 -> bits * n <= 8 * length bytes ->
  unpack_fixed bits bytes n = Ok (map (digit bits (from_le_bytes bytes)) (seq 0 n)).
Proof.
  intros Hb Hbits Hn. unfold unpack_fixed.
  set (whole := if 8 <=? length bytes then _ else 0).
  assert (Hw : whole <= n) by (unfold whole; destruct (_ <=? _); lia).
  assert (Hfull : forall i, i < whole -> i * bits / 8 + 8 <= length bytes).
  { intros i Hi. unfold whole in Hi. destruct (8 <=? length bytes) eqn:E; bool_to_prop; [|lia].
    assert (Hi' : i <= ((length bytes - 8) * 8 + 7) / bits) by lia.
    apply (Nat.mul_le_mono_r _ _ bits) in Hi'.
    pose proof (Nat.Div0.mul_div_le ((length bytes - 8) * 8 + 7) bits).
    assert (i * bits / 8 <= length bytes - 8); [|lia].
    apply Nat.lt_succ_r, Nat.Div0.div_lt_upper_bound. lia. }
  assert (Hshift : forall i, i < n -> i * bits / 8 <= length bytes).
  { intros i Hi. apply Nat.Div0.div_le_upper_bound. nia. }
  rewrite (omap_list_ok _ (digit bits (from_le_bytes bytes)) (seq 0 whole)).
  2: { intros i Hi%elem_of_seq. pose proof (mod8_lt (i * bits)). specialize (Hfull i ltac:(lia)).
       rewrite slice_Ok by lia. simpl. f_equal.
       replace (i * bits / 8 + 8 - i * bits / 8) with 8 by lia.
       apply (word_digit bits _ _ (i * bits / 8) _ (8 * 8)); [apply index_split|lia|].
       by apply slice_word. }
  simpl. rewrite (omap_list_ok _ (digit bits (from_le_bytes bytes)) (seq whole _)).
  2: { intros i Hi%elem_of_seq.
       destruct (window_at_digit bytes bits i) as (w & Hwin & Hdig); [done|unfold holds; nia|unfold DIRECT_BITS; lia|].
       unfold window_at in Hwin. specialize (Hshift i ltac:(lia)).
       destruct (decide (i * bits / 8 + 8 <= length bytes)) as [Hs|Hs].
       - rewrite Nat.min_l, slice_Ok by lia. rewrite get_range_Some in Hwin by lia. injection Hwin as <-.
         simpl. rewrite from_le_bytes_pad by (apply Forall_take, Forall_drop; done). by rewrite Hdig.
       - rewrite Nat.min_r by lia. rewrite get_range_None in Hwin by lia. inv_ok.
         rewrite Ha. simpl. by rewrite Hdig. }
  simpl. rewrite <- map_app. do 2 f_equal. replace n with (whole + (n - whole)) at 2 by lia.
  by rewrite seq_app.
Qed.

(** ** The byte-wise reader *)

(** The bit string still to be read. *)
Definition br_value (r : BitReader) : Z :=
  (br_buffer r + pw (br_used r) * from_le_bytes (br_bytes r))%Z.

Definition br_ok (r : BitReader) : Prop :=
  bytes_ok (br_bytes r) /\ (0 <= br_buffer r < pw (br_used r))%Z.

Lemma br_fill_spec fuel r :
  br_ok r -> br_bits r <= br_used r + 8 * fuel ->
  br_bits r <= br_used r + 8 * length (br_bytes r) ->
  exists r', br_fill fuel r = Ok r' /\ br_ok r' /\ br_value r' = br_value r /\
    br_bits r' = br_bits r /\ br_bits r <= br_used r' /\
    br_used r' + 8 * length (br_bytes r') = br_used r + 8 * length (br_bytes r).
Proof.
  revert r. induction fuel as [|fuel IH]; intros r [Hb Hbuf] Hf Hl; cbn [br_fill];
    (destruct (br_used r <? br_bits r) eqn:E; bool_to_prop; [|by exists r]).
  - lia.
  - destruct (br_bytes r) as [|b rest] eqn:Eb; [simpl in Hl; lia|].
    inversion Hb as [|?? Hb0 Hrest]; subst. unfold is_u8 in Hb0.
    assert (L : Z.lor (br_buffer r) (Z.shiftl b (Z.of_nat (br_used r)))
                = (br_buffer r + b * pw (br_used r))%Z) by (apply lor_shiftl_add; [lia|exact Hbuf]).
    pose proof (pw_pos (br_used r)).
    destruct (IH {| br_bytes := rest; br_buffer := Z.lor (br_buffer r) (Z.shiftl b (Z.of_nat (br_used r)));
                    br_used := br_used r + 8; br_bits := br_bits r |}) as (r' & -> & Hok & Hv & Hbits & Hu & Hlen).
    + split; simpl; [done|]. rewrite L, pw_add. change (pw 8) with 256%Z. nia.
    + simpl. lia.
    + simpl in *. lia.
    + exists r'. simpl in *. split_and!; auto; [|lia]. rewrite Hv. unfold br_value. simpl.
      rewrite Eb, L, pw_add. cbn [from_le_bytes]. rewrite lor_shiftl_add by lia.
      change (pw 8) with 256%Z. change (2 ^ 8)%Z with 256%Z. ring.
Qed.

Lemma br_next_spec r :
  br_ok r -> br_bits r <= 64 -> br_bits r <= br_used r + 8 * length (br_bytes r) ->
  exists r', br_next r = Ok ((br_value r mod pw (br_bits r))%Z, r') /\ br_ok r' /\
    br_value r' = (br_value r / pw (br_bits r))%Z /\ br_bits r' = br_bits r /\
    br_used r' + 8 * length (br_bytes r') + br_bits r = br_used r + 8 * length (br_bytes r).
Proof.
  intros Hok Hbits Hl. unfold br_next.
  destruct (br_fill_spec 8 r) as (r1 & -> & [Hb1 Hbuf1] & Hv & Hbb & Hu & Hlen); [done|lia|done|].
  simpl. eexists. rewrite Hbb. set (bits := br_bits r) in *. rewrite land_pw.
  assert (S : pw (br_used r1) = (pw bits * pw (br_used r1 - bits))%Z)
    by (rewrite <- pw_add; f_equal; lia).
  pose proof (pw_pos bits). pose proof (pw_pos (br_used r1 - bits)).
  assert (Hm : (br_buffer r1 mod pw bits = br_value r mod pw bits)%Z).
  { rewrite <- Hv. unfold br_value. rewrite S, <- Z.mul_assoc, (Z.mul_comm (pw bits)), Z.mod_add; lia. }
  split; [|split_and!].
  - do 2 f_equal. rewrite Hm. apply wrap_small. pose proof (Z.mod_pos_bound (br_value r) (pw bits)).
    pose proof (pw_le bits 64 Hbits). change (pw 64) with U64 in *. lia.
  - split; simpl; [done|]. rewrite Z.shiftr_div_pow2 by lia. fold bits. fold (pw bits).
    split; [apply Z.div_pos; lia|]. apply Z.div_lt_upper_bound; lia.
  - unfold br_value at 1; simpl. rewrite <- Hv. unfold br_value. rewrite Z.shiftr_div_pow2 by lia.
    fold bits. fold (pw bits). rewrite S, <- Z.mul_assoc, (Z.mul_comm (pw bits)), Z.div_add by lia. done.
  - done.
  - simpl. lia.
Qed.

Lemma br_take_spec n r :
  br_ok r -> br_bits r <= 64 -> br_bits r * n <= br_used r + 8 * length (br_bytes r) ->
  br_take n r = Ok (map (digit (br_bits r) (br_value r)) (seq 0 n)).
Proof.
  revert r. induction n as [|n IH]; intros r Hok Hbits Hl; cbn [br_take seq map]; [done|].
  destruct (br_next_spec r) as (r' & -> & Hok' & Hv & Hb' & Hlen); [done|done|nia|].
  simpl. rewrite IH by (rewrite ?Hb'; auto; nia). simpl. do 2 f_equal.
  - unfold digit. rewrite Nat.mul_0_r. change (pw 0) with 1%Z. by rewrite Z.div_1_r.
  - rewrite <- seq_shift, map_map, Hb', Hv. apply map_ext. intros i. unfold digit.
    rewrite Nat.mul_succ_r, (Nat.add_comm _ (br_bits r)), pw_add, Z.div_div; [done|..];
      [pose proof (pw_pos (br_bits r)); lia|apply pw_pos].
Qed.

Lemma unpack_into_digits bits bytes n :
  bytes_ok bytes -> 0 < bits <= 64 -> bits * n <= 8 * length bytes ->
  unpack_into bytes n bits = Ok (map (digit bits (from_le_bytes bytes)) (seq 0 n)).
Proof.
  intros Hb Hbits Hn. unfold unpack_into.
  replace (Nat.eqb bits 0) with false by (symmetry; apply Nat.eqb_neq; lia).
  destruct (DIRECT_BITS <? bits) eqn:E; bool_to_prop.
  - rewrite br_take_spec; simpl; [|split; simpl; [done|change (pw 0) with 1%Z; lia]|lia|lia].
    do 2 f_equal. unfold br_value; simpl. change (pw 0) with 1%Z.
    by rewrite Z.add_0_l, Z.mul_1_l.
  - apply omap_list_ok. intros i Hi%elem_of_seq.
    destruct (window_at_digit bytes bits i) as (w & -> & Hd); [done|unfold holds; nia|lia|].
    simpl. by rewrite Hd.
Qed.

Lemma unpack_digit bits bytes i :
  bytes_ok bytes -> 0 < bits <= 64 -> holds bytes bits i ->
  unpack bytes i bits = Ok (digit bits (from_le_bytes bytes) i).
Proof.
  unfold holds. intros Hb Hbits Hh. unfold unpack.
  replace (Nat.eqb bits 0) with false by (symmetry; apply Nat.eqb_neq; lia).
  pose proof (index_split bits i) as Hi. pose proof (mod8_lt (i * bits)).
  set (start := i * bits / 8) in *. set (shift := (i * bits) mod 8) in *.
  set (size := div_ceil (shift + bits) 8).
  assert (Hsz : shift + bits <= 8 * size) by apply div_ceil_8_bits.
  assert (Hin : start + size <= length bytes).
  { assert (size <= length bytes - start); [|lia]. apply div_ceil_le; lia. }
  match goal with |- context [if bits <=? DIRECT_BITS then _ else ?s] => assert (Slow : s = Ok (digit bits (from_le_bytes bytes) i)) end.
  { rewrite slice_Ok by lia. simpl. replace (start + size - start) with size by lia.
    rewrite from_le_bytes_pad by (apply Forall_take, Forall_drop; done). f_equal.
    rewrite (word_digit bits (from_le_bytes bytes) _ start shift (8 * size) i) by (auto using slice_word).
    apply wrap_small. unfold digit. pose proof (pw_pos bits).
    pose proof (Z.mod_pos_bound (from_le_bytes bytes / pw (bits * i)) (pw bits)).
    pose proof (pw_le bits 64). change (pw 64) with U64 in *. lia. }
  destruct (bits <=? DIRECT_BITS) eqn:E; bool_to_prop; [|done].
  destruct (decide (start + 8 <= length bytes)).
  - rewrite get_range_Some by lia. replace (start + 8 - start) with 8 by lia. f_equal.
    unfold DIRECT_BITS in E.
    apply (word_digit bits _ _ start shift (8 * 8)); [done|lia|by apply slice_word].
  - by rewrite get_range_None by lia.
Qed.

(** ** Round trips *)

Lemma digits_pack bits l rest :
  bits <= 64 -> Forall (fits bits) l ->
  map (digit bits (from_le_bytes (pack l bits ++ rest))) (seq 0 (length l)) = l.
Proof.
  intros Hb Hl. apply list_eq. intros i. rewrite list_lookup_fmap.
  destruct (decide (i < length l)) as [Hi|Hi].
  - rewrite lookup_seq_lt by done. simpl. destruct (lookup_lt_is_Some_2 l i Hi) as [v Hv].
    rewrite Hv. f_equal. by apply digit_pack.
  - rewrite lookup_seq_ge by lia. symmetry. apply lookup_ge_None. lia.
Qed.

Lemma pack_holds bits l rest :
  bits <= 64 -> Forall (fits bits) l -> bits * length l <= 8 * length (pack l bits ++ rest).
Proof.
  intros. rewrite length_app, pack_length by done.
  pose proof (div_ceil_8_bits (length l * bits)). nia.
Qed.

Lemma fits_0 l : Forall (fits 0) l -> l = replicate (length l) 0%Z.
Proof.
  induction 1 as [|v l Hv Hl IH]; cbn; [done|]. unfold fits in Hv. change (pw 0) with 1%Z in Hv.
  by f_equal; [lia|].
Qed.

Lemma pack_rest_ok bits l rest :
  bits <= 64 -> Forall (fits bits) l -> bytes_ok rest -> bytes_ok (pack l bits ++ rest).
Proof. intros. apply Forall_app_2; [by apply pack_bytes_ok|done]. Qed.

Lemma unpack_values_pack bits l rest :
  bits <= 64 -> Forall (fits bits) l -> bytes_ok rest ->
  unpack_values (pack l bits ++ rest) (length l) bits = Ok l.
Proof.
  intros Hb Hl Hr. unfold unpack_values.
  destruct (Nat.eqb bits 0) eqn:E0; bool_to_prop.
  - subst bits. by rewrite <- fits_0.
  - destruct (bits <=? 32) eqn:E; bool_to_prop;
      [rewrite unpack_fixed_digits|rewrite unpack_into_digits];
      auto using pack_rest_ok, pack_holds; try lia; by rewrite digits_pack.
Qed.

Lemma unpack_pack bits l rest i v :
  bits <= 64 -> Forall (fits bits) l -> bytes_ok rest -> l !! i = Some v ->
  unpack (pack l bits ++ rest) i bits = Ok v.
Proof.
  intros Hb Hl Hr Hi. destruct (decide (bits = 0)) as [->|].
  - rewrite Forall_lookup in Hl. specialize (Hl i v Hi). unfold fits in Hl.
    change (pw 0) with 1%Z in Hl. unfold unpack. simpl. f_equal. lia.
  - rewrite unpack_digit; [by rewrite (digit_pack bits l rest i v)|by apply pack_rest_ok|lia|].
    unfold holds. pose proof (lookup_lt_Some _ _ _ Hi). pose proof (pack_holds bits l rest Hb Hl). nia.
Qed.

#[export] Hint Resolve pack_bytes_ok pack_rest_ok to_le_bytes_ok : warm.

(** Whatever follows the packed bytes, all decoders of the postings codec return the packed
    values: the bulk decoders the whole list, the random access one each value. *)
Theorem pack_decoders_agree bits l rest :
  bits <= 64 -> Forall (fits bits) l -> bytes_ok rest ->
  unpack_values (pack l bits ++ rest) (length l) bits = Ok l /\
  unpack_into (pack l bits ++ rest) (length l) bits = Ok l /\
  forall i v, l !! i = Some v -> unpack (pack l bits ++ rest) i bits = Ok v.
Proof.
  intros Hb Hl Hr. split_and!; [by apply unpack_values_pack| |intros; by apply unpack_pack].
  destruct (decide (bits = 0)) as [->|].
  - unfold unpack_into. simpl. by rewrite <- fits_0.
  - rewrite unpack_into_digits by (auto using pack_rest_ok, pack_holds; lia). by rewrite digits_pack.
Qed.

Lemma pack_decoders_agree_witness :
  unpack_values (pack [5; 1023; 0; 7] 10 ++ [255])%Z 4 10 = Ok [5; 1023; 0; 7]%Z /\
  unpack (pack [5; 2 ^ 62 + 3]%Z 63 ++ []) 1 63 = Ok (2 ^ 62 + 3)%Z.
Proof.
  split.
  - apply (pack_decoders_agree 10 [5; 1023; 0; 7]%Z [255]%Z); [lia| |by apply (bool_decide_unpack _)].
    repeat constructor; vm_compute; congruence.
  - apply (pack_decoders_agree 63 [5; 2 ^ 62 + 3]%Z []); [lia| |constructor|done].
    repeat constructor; vm_compute; congruence.
Defined.
