(* ===== verification/Search.v ===== *)
(** * Binary search and byte-string order

    The engine writes the same [while low < high] search over sorted keys in several places
    ([SharedDictionary::find], [SharedTerms::index], [PackedTerms::get],
    [TermDictionary::base_position], [binary_search_left]); [bsearch] is that loop over an
    index-comparison function.  Rust's [str] and slice comparisons are lexicographic on bytes
    ([bcmp]). *)

From S2P Require Import Prelude.

(** ** Lexicographic comparison *)

Fixpoint bcmp (a b : list Z) : comparison :=
  match a, b with
  | [], [] => Eq
  | [], _ :: _ => Lt
  | _ :: _, [] => Gt
  | x :: a, y :: b => match (x ?= y)%Z with Eq => bcmp a b | c => c end
  end.

Definition blt (a b : list Z) : Prop := bcmp a b = Lt.
#[global] Instance comparison_eq_dec : EqDecision comparison.
Proof. solve_decision. Defined.
#[global] Instance blt_dec a b : Decision (blt a b) := comparison_eq_dec _ _.

Lemma bcmp_refl a : bcmp a a = Eq.
Proof. induction a; simpl; [done|]. by rewrite Z.compare_refl. Qed.

Lemma bcmp_eq a b : bcmp a b = Eq <-> a = b.
Proof.
  split; [|intros ->; apply bcmp_refl].
  revert b. induction a as [|x a IH]; intros [|y b]; simpl; try done.
  destruct (x ?= y)%Z eqn:E; try done. apply Z.compare_eq in E as ->. intros H. f_equal. auto.
Qed.

Lemma bcmp_antisym a b : bcmp b a = CompOpp (bcmp a b).
Proof.
  revert b. induction a as [|x a IH]; intros [|y b]; simpl; try done.
  rewrite (Z.compare_antisym x y). destruct (x ?= y)%Z; simpl; auto.
Qed.

Lemma bcmp_gt a b : bcmp a b = Gt <-> bcmp b a = Lt.
Proof. rewrite (bcmp_antisym a b). destruct (bcmp a b); simpl; split; done. Qed.

#[global] Instance blt_trans : Transitive blt.
Proof.
  unfold blt. intros a. induction a as [|x a IH]; intros [|y b] [|z c]; simpl; try done.
  destruct (x ?= y)%Z eqn:E1, (y ?= z)%Z eqn:E2; try done;
    rewrite ?Z.compare_eq_iff, ?Z.compare_lt_iff in *; subst.
  - rewrite Z.compare_refl. apply IH.
  - by rewrite (proj2 (Z.compare_lt_iff y z)).
  - by rewrite (proj2 (Z.compare_lt_iff x z)).
  - by rewrite (proj2 (Z.compare_lt_iff x z)) by lia.
Qed.

#[global] Instance blt_irrefl : Irreflexive blt.
Proof. intros a H. unfold blt in H. by rewrite bcmp_refl in H. Qed.

(** ** The search loop *)

Fixpoint bsearch (fuel : nat) (cmp : nat -> outcome comparison) (low high : nat)
    : outcome (nat + nat) :=
  if low <? high then
    match fuel with
    | O => Panic
    | S fuel =>
        let middle := low + (high - low) / 2 in
        let* c := cmp middle in
        match c with
        | Lt => bsearch fuel cmp (middle + 1) high
        | Eq => Ok (inl middle)
        | Gt => bsearch fuel cmp low middle
        end
    end
  else Ok (inr low).

(** The search over [n] keys; every round shrinks the range, so [n] rounds are enough. *)
Definition search (n : nat) (cmp : nat -> outcome comparison) : outcome (nat + nat) :=
  bsearch n cmp 0 n.

(** A comparison sequence of strictly ascending keys: [Lt]s, at most one [Eq], then [Gt]s. *)
Definition ordered_cmp (n : nat) (c : nat -> comparison) : Prop :=
  forall i j, i < j -> j < n -> (c j = Lt -> c i = Lt) /\ (c i <> Lt -> c j = Gt).

Definition found_at (n : nat) (c : nat -> comparison) (r : nat + nat) : Prop :=
  match r with
  | inl i => i < n /\ c i = Eq
  | inr p => p <= n /\ (forall i, i < p -> c i = Lt) /\ (forall i, p <= i < n -> c i = Gt)
  end.

Lemma bsearch_found fuel cmp c n low high :
  ordered_cmp n c -> (forall i, i < n -> cmp i = Ok (c i)) ->
  low <= high <= n -> high - low <= fuel ->
  (forall i, i < low -> c i = Lt) -> (forall i, high <= i < n -> c i = Gt) ->
  exists r, bsearch fuel cmp low high = Ok r /\ found_at n c r.
Proof.
  intros Hc Hcmp. revert low high.
  induction fuel as [|fuel IH]; intros low high Hlh Hf Hlo Hhi; cbn [bsearch];
    (destruct (low <? high) eqn:E; bool_to_prop;
      [|exists (inr low); split; [done|]; simpl; split_and!; auto; [lia|]; intros; apply Hhi; lia]).
  - lia.
  - set (m := low + (high - low) / 2).
    assert (Hm : low <= m < high).
    { unfold m. split; [lia|]. pose proof (Nat.Div0.div_lt_upper_bound (high - low) 2 (high - low)). lia. }
    rewrite Hcmp by lia. simpl. destruct (c m) eqn:Em.
    + exists (inl m). split; [done|]. simpl. split; [lia|done].
    + apply IH; try lia; [|done]. intros i Hi.
      destruct (decide (i = m)) as [->|]; [done|]. apply (Hc i m); [lia|lia|done].
    + apply IH; try lia; [done|]. intros i Hi.
      destruct (decide (i = m)) as [->|]; [done|]. apply (Hc m i); [lia|lia|congruence].
Qed.

Lemma search_found cmp c n :
  ordered_cmp n c -> (forall i, i < n -> cmp i = Ok (c i)) ->
  exists r, search n cmp = Ok r /\ found_at n c r.
Proof. intros. apply bsearch_found; auto; intros; lia. Qed.

(** ** Searching a sorted list of byte strings *)

Definition bsorted (l : list (list Z)) : Prop := StronglySorted blt l.

Lemma bsorted_lookup_lt l i j a b :
  bsorted l -> i < j -> l !! i = Some a -> l !! j = Some b -> blt a b.
Proof.
  intros Hs. revert i j. induction Hs as [|x l Hl IH Hx]; intros i j Hij Ha Hb; [done|].
  destruct j as [|j]; [lia|]. destruct i as [|i]; simpl in *.
  - simplify_eq. rewrite Forall_lookup in Hx. eauto.
  - apply (IH i j); auto; lia.
Qed.

Lemma bsorted_NoDup l : bsorted l -> NoDup l.
Proof.
  intros Hs. apply NoDup_alt. intros i j x Hi Hj.
  destruct (Nat.lt_trichotomy i j) as [H|[->|H]]; [|done|];
    exfalso; apply (irreflexivity blt x); eapply bsorted_lookup_lt; eauto.
Qed.

Lemma bsorted_ordered_cmp l key :
  bsorted l ->
  ordered_cmp (length l) (fun i => bcmp (default [] (l !! i)) key).
Proof.
  intros Hs i j Hij Hj.
  destruct (lookup_lt_is_Some_2 l j Hj) as [b Hb].
  destruct (lookup_lt_is_Some_2 l i ltac:(lia)) as [a Ha]. rewrite Ha, Hb. simpl.
  pose proof (bsorted_lookup_lt l i j a b Hs Hij Ha Hb) as Hab. split.
  - intros Hbk. exact (blt_trans _ _ _ Hab Hbk).
  - intros Hak. apply bcmp_gt. destruct (bcmp a key) eqn:E; [|done|].
    + apply bcmp_eq in E as ->. done.
    + apply bcmp_gt in E. exact (blt_trans _ _ _ E Hab).
Qed.

(** The position of [key] in the list, as the searches return it. *)
Definition position_of (l : list (list Z)) (key : list Z) : option nat :=
  fst <$> list_find (fun k => k = key) l.

Lemma position_of_Some l key i :
  NoDup l -> position_of l key = Some i <-> l !! i = Some key.
Proof.
  intros Hnd. unfold position_of. split.
  - destruct (list_find _ l) as [[j k]|] eqn:E; simpl; intros; simplify_eq.
    apply list_find_Some in E as (H & -> & _). done.
  - intros Hi. assert (E : list_find (fun k => k = key) l = Some (i, key)); [|by rewrite E].
    apply list_find_Some. split_and!; auto. intros j y Hj Hji ->.
    eapply NoDup_lookup in Hnd; [|exact Hi|exact Hj]. lia.
Qed.

Lemma position_of_None l key : position_of l key = None <-> key ∉ l.
Proof.
  unfold position_of. rewrite fmap_None, list_find_None, Forall_forall. naive_solver.
Qed.

(** A search of the sorted keys gives the position, or the place to insert. *)
Lemma search_position l key cmp :
  bsorted l -> (forall i k, l !! i = Some k -> cmp i = Ok (bcmp k key)) ->
  exists r, search (length l) cmp = Ok r /\
    match r with
    | inl i => l !! i = Some key /\ position_of l key = Some i
    | inr p => p <= length l /\ position_of l key = None /\
        (forall i k, i < p -> l !! i = Some k -> blt k key) /\
        (forall i k, p <= i -> l !! i = Some k -> blt key k)
    end.
Proof.
  intros Hs Hcmp.
  destruct (search_found cmp (fun i => bcmp (default [] (l !! i)) key) (length l)) as (r & -> & Hr).
  - by apply bsorted_ordered_cmp.
  - intros i Hi. destruct (lookup_lt_is_Some_2 l i Hi) as [k Hk]. rewrite Hk. by apply Hcmp.
  - exists r. split; [done|]. destruct r as [i|p]; simpl in Hr.
    + destruct Hr as [Hi Heq]. destruct (lookup_lt_is_Some_2 l i Hi) as [k Hk]. rewrite Hk in Heq.
      apply bcmp_eq in Heq. simpl in Heq. subst k. split; [done|].
      apply position_of_Some; auto using bsorted_NoDup.
    + destruct Hr as (Hp & Hlt & Hgt). split_and!; [done| | |].
      * apply position_of_None. intros [i Hi]%list_elem_of_lookup.
        pose proof (lookup_lt_Some _ _ _ Hi).
        destruct (decide (i < p)) as [H'|H']; [specialize (Hlt i H')|specialize (Hgt i ltac:(lia))];
          rewrite Hi in *; simpl in *; rewrite bcmp_refl in *; done.
      * intros i k Hi Hk. specialize (Hlt i Hi). by rewrite Hk in Hlt.
      * intros i k Hi Hk. pose proof (lookup_lt_Some _ _ _ Hk). specialize (Hgt i ltac:(lia)).
        rewrite Hk in Hgt. by apply bcmp_gt.
Qed.

(** ** Sorted associations *)

Lemma bsorted_cons k l : bsorted (k :: l) <-> Forall (blt k) l /\ bsorted l.
Proof. unfold bsorted. split; [intros H; by inversion H|intros []; by constructor]. Qed.

Lemma sorted_unique {A} (l l' : list (list Z * A)) : bsorted (map fst l) -> bsorted (map fst l') -> l ≡ₚ l' -> l = l'.
Proof.
  revert l'. induction l as [|e l IH]; intros l' Hl Hl' Hp; [by apply Permutation_nil in Hp|].
  destruct l' as [|e' l']; [by symmetry in Hp; apply Permutation_nil in Hp|]. cbn [map] in *. apply bsorted_cons in Hl as [Hf Hl], Hl' as [Hf' Hl'].
  assert (e = e') as <-.
  { assert (He : e ∈ e' :: l') by (rewrite <- Hp; left). assert (He' : e' ∈ e :: l) by (rewrite Hp; left).
    apply elem_of_cons in He as [He|He]; [done|]. apply elem_of_cons in He' as [He'|He']; [done|]. rewrite Forall_forall in Hf, Hf'.
    pose proof (Hf' _ (list_elem_of_fmap_2 fst _ _ He)) as H1. pose proof (Hf _ (list_elem_of_fmap_2 fst _ _ He')) as H2.
    exfalso. exact (irreflexivity blt e.1 (transitivity H2 H1)). }
  f_equal. apply IH; [done|done|]. by apply (Permutation_cons_inv (a := e)).
Qed.

Lemma sorted_ext {A} (l l' : list (list Z * A)) : bsorted (map fst l) -> bsorted (map fst l') -> (forall x, x ∈ l <-> x ∈ l') -> l = l'.
Proof.
  intros Hl Hl' Hx. apply sorted_unique; [done|done|]. apply NoDup_Permutation; [by eapply NoDup_fmap_1, bsorted_NoDup..|done].
Qed.

(** Keys in byte order. *)
Definition key_le {A} (a b : list Z * A) : Prop := bcmp a.1 b.1 <> Gt.
#[global] Instance key_le_dec {A} : RelDecision (@key_le A) := fun a b => not_dec _.

Lemma keys_permutation {A} (m : gmap (list Z) A) : merge_sort key_le (map_to_list m) ≡ₚ map_to_list m.
Proof. apply merge_sort_Permutation. Qed.

Lemma keys_elem {A} (m : gmap (list Z) A) k v : (k, v) ∈ merge_sort key_le (map_to_list m) <-> m !! k = Some v.
Proof. rewrite keys_permutation. apply elem_of_map_to_list. Qed.

Lemma keys_sorted {A} (m : gmap (list Z) A) : bsorted (map fst (merge_sort key_le (map_to_list m))).
Proof.
  assert (Hnd : NoDup (merge_sort key_le (map_to_list m)).*1) by (rewrite keys_permutation; apply NoDup_fst_map_to_list).
  assert (Hsort : StronglySorted key_le (merge_sort key_le (map_to_list m))).
  { apply StronglySorted_merge_sort.
    - intros x y z. unfold key_le. intros H1 H2 H3. destruct (bcmp x.1 y.1) eqn:E1; [apply bcmp_eq in E1; congruence| |done].
      destruct (bcmp y.1 z.1) eqn:E2; [apply bcmp_eq in E2; congruence| |done]. assert (blt x.1 z.1) by (etrans; [exact E1|exact E2]). unfold blt in *. congruence.
    - intros x y. unfold key_le. rewrite (bcmp_antisym x.1 y.1). destruct (bcmp x.1 y.1); auto. }
  revert Hnd. induction Hsort as [|e r Hr IH Hf]; intros Hnd; cbn [fmap list_fmap map] in *; [constructor|]. apply NoDup_cons in Hnd as [He Hnd].
  apply bsorted_cons. split; [|by apply IH]. apply Forall_forall. intros k [x [-> Hx]]%list_elem_of_fmap.
  rewrite Forall_forall in Hf. specialize (Hf x Hx). unfold key_le in Hf. unfold blt.
  destruct (bcmp e.1 x.1) eqn:E; [|done|done]. apply bcmp_eq in E. exfalso. apply He. rewrite E. apply list_elem_of_fmap. by exists x.
Qed.
