(* ===== verification/Positions.v ===== *)
(** * Positional postings of a chunk

    [src/core/documents/positions.rs]: per term of a chunk, the word positions at which it
    occurs, as varint gaps in one byte string with one offset per term.  [from_ranks] builds
    them with a counting sort, [validate] checks untrusted ones, [iter] decodes without
    further checks. *)

From S2P Require Import Prelude Words.

Definition VERSION : Z := 1.
Definition DOCUMENT_VERSION : Z := 2.
Definition MAX_DOCUMENT_BYTES : Z := 8 * 1024 * 1024.

(** ** Offsets, stored at the narrowest width that holds the largest *)

Inductive Offsets : Type :=
| Byte (v : list Z)
| Short (v : list Z)
| Word (v : list Z).

Definition list_max (l : list Z) : Z := foldr Z.max 0%Z l.

Definition offsets_from (values : list Z) : Offsets :=
  let maximum := list_max values in
  if (maximum <=? 255)%Z then Byte (map (wrap U8) values)
  else if (maximum <=? 65535)%Z then Short (map (wrap U16) values)
  else Word values.

Definition offsets_len (o : Offsets) : nat :=
  match o with Byte v | Short v | Word v => length v end.
Definition offsets_get (o : Offsets) (index : nat) : outcome Z :=
  match o with Byte v | Short v | Word v => expect (v !! index) end.
Definition offsets_iter (o : Offsets) : list Z :=
  match o with Byte v | Short v | Word v => v end.

Record Positions := mkPositions { p_version : Z; p_offsets : Offsets; p_data : list Z }.

(** ** Decoding *)

(** [long_gap]: a gap of three or more bytes, and the bytes after it. *)
Definition long_gap (bytes : list Z) : outcome (Z * list Z) :=
  match varint (reader_new bytes) with
  | Ok (v, r) =>
      if (v <? U32)%Z then let* rest := slice bytes (position r) (length bytes) in Ok (v, rest)
      else Panic
  | _ => Panic
  end.

(** One gap of the iterator: one or two bytes decoded in place, longer ones by [long_gap]. *)
Definition next_gap (first : Z) (rest : list Z) : outcome (Z * list Z) :=
  if (first <? 0x80)%Z then Ok (first, rest)
  else match rest with
       | second :: tail =>
           if (second <? 0x80)%Z
           then Ok (Z.lor (Z.land first 0x7f) (Z.shiftl second 7), tail)
           else long_gap (first :: rest)
       | [] => long_gap (first :: rest)
       end.

(** The iterator of [Positions::iter]; every step consumes a byte. *)
Fixpoint iter_loop (fuel : nat) (bytes : list Z) (position : Z) : outcome (list Z) :=
  match bytes with
  | [] => Ok []
  | first :: rest =>
      match fuel with
      | O => Panic
      | S fuel =>
          let* (gap, bytes) := next_gap first rest in
          let position := wrap U32 (position + gap) in
          let* l := iter_loop fuel bytes position in Ok (position :: l)
      end
  end.

Definition p_bytes (p : Positions) (index : nat) : outcome (list Z) :=
  let* a := offsets_get (p_offsets p) index in
  let* b := offsets_get (p_offsets p) (index + 1) in
  slice (p_data p) (Z.to_nat a) (Z.to_nat b).

Definition iter (p : Positions) (index : nat) : outcome (list Z) :=
  let* bytes := p_bytes p index in iter_loop (length bytes) bytes 0.

(** ** Building from ranks *)

(** The varint gaps of one term's positions. *)
Fixpoint put_gaps (previous : Z) (l : list Z) : list Z :=
  match l with
  | [] => []
  | position :: r => put_varint (position - previous) ++ put_gaps position r
  end.

(** [starts[rank + 1] += 1] for every rank. *)
Fixpoint count_ranks (ranks : list nat) (starts : list nat) : outcome (list nat) :=
  match ranks with
  | [] => Ok starts
  | rank :: r =>
      let* n := expect (starts !! (rank + 1)) in count_ranks r (<[rank + 1 := n + 1]> starts)
  end.

(** The running totals. *)
Fixpoint totals (total : nat) (starts : list nat) : list nat :=
  match starts with
  | [] => []
  | s :: r => (total + s) :: totals (total + s) r
  end.

(** [sorted[next[rank]] = position; next[rank] += 1] for every word. *)
Fixpoint place (ranks : list nat) (position : nat) (next sorted : list nat) : outcome (list nat) :=
  match ranks with
  | [] => Ok sorted
  | rank :: r =>
      let* at_ := expect (next !! rank) in
      if at_ <? length sorted
      then place r (position + 1) (<[rank := at_ + 1]> next) (<[at_ := position]> sorted)
      else Panic
  end.

(** Data and offsets over the windows of [starts]. *)
Fixpoint emit_terms (sorted starts : list nat) (data : list Z) (offsets : list Z)
    : outcome (list Z * list Z) :=
  match starts with
  | a :: (b :: _) as r =>
      let* run := slice sorted a b in
      let data := data ++ put_gaps 0 (map Z.of_nat run) in
      if (Z.of_nat (length data) <? U32)%Z
      then emit_terms sorted r data (offsets ++ [Z.of_nat (length data)])
      else Panic
  | _ => Ok (data, offsets)
  end.

Definition from_ranks (ranks : list nat) (terms : nat) (whole_document : bool)
    : outcome Positions :=
  let* counts := count_ranks ranks (replicate (terms + 1) 0) in
  let starts := totals 0 counts in
  let* sorted := place ranks 0 starts (replicate (length ranks) 0) in
  let* (data, offsets) := emit_terms sorted starts [] [0%Z] in
  Ok {| p_version := if whole_document then DOCUMENT_VERSION else VERSION;
        p_offsets := offsets_from offsets; p_data := data |}.

(** ** Validation *)

(** The checks on one term's bytes; every round consumes a byte. *)
Fixpoint validate_term (fuel : nat) (r : Reader) (previous : option Z) (term_count : nat)
    (maximum : option Z) : outcome (nat * option Z) :=
  if is_empty r then Ok (term_count, maximum) else
  match fuel with
  | O => Panic
  | S fuel =>
      let* (gap, r) := varint r in
      ensure (gap <? U32)%Z else "position exceeds u32" ;
      ensure (match previous with None => true | Some _ => (0 <? gap)%Z end)
        else "positions are not strictly ascending" ;
      let* position := ok_or (checked_add U32 (default 0%Z previous) gap) "position overflows" in
      ensure (position <? MAX_DOCUMENT_BYTES)%Z else "position exceeds document limit" ;
      validate_term fuel r (Some position) (term_count + 1)
        (Some (match maximum with None => position | Some m => Z.max m position end))
  end.

Fixpoint validate_terms (p : Positions) (index : nat) (frequencies : list Z) (count : nat)
    (maximum : option Z) : outcome (nat * option Z) :=
  match frequencies with
  | [] => Ok (count, maximum)
  | frequency :: rest =>
      let* bytes := p_bytes p index in
      let* (term_count, maximum) :=
        validate_term (length bytes) (reader_new bytes) None 0 maximum in
      ensure ((0 <? term_count) && (Z.of_nat term_count <=? frequency)%Z)
        else "position count exceeds term frequency" ;
      validate_terms p (index + 1) rest (count + term_count) maximum
  end.

(** The bitset pass: every position once and below [count]. *)
Fixpoint mark (count : nat) (l : list Z) (seen : list Z) : outcome (list Z) :=
  match l with
  | [] => Ok seen
  | position :: rest =>
      ensure (position <? Z.of_nat count)%Z else "position exceeds token count" ;
      let word := Z.to_nat (position / 64) in
      let bit := Z.shiftl 1 (position mod 64) in
      let* w := expect (seen !! word) in
      ensure (Z.land w bit =? 0)%Z else "token position occurs in multiple terms" ;
      mark count rest (<[word := Z.lor w bit]> seen)
  end.

Fixpoint mark_terms (p : Positions) (count : nat) (indices : list nat) (seen : list Z)
    : outcome (list Z) :=
  match indices with
  | [] => Ok seen
  | index :: rest =>
      let* l := iter p index in
      let* seen := mark count l seen in
      mark_terms p count rest seen
  end.

(** [frequencies] are those of the chunk's term table, in term order. *)
Definition validate (p : Positions) (frequencies : list Z) : outcome unit :=
  let offsets := offsets_iter (p_offsets p) in
  ensure ((p_version p =? VERSION)%Z || (p_version p =? DOCUMENT_VERSION)%Z)
    else "positional postings version is newer than supported" ;
  ensure (Nat.eqb (offsets_len (p_offsets p)) (length frequencies + 1)
          && bool_decide (head offsets = Some 0%Z)
          && bool_decide (last offsets = Some (Z.of_nat (length (p_data p))))
          && ascending offsets
          && (Z.of_nat (length (p_data p)) <=? MAX_DOCUMENT_BYTES)%Z)
    else "invalid positional posting offsets or length" ;
  let* (count, maximum) := validate_terms p 0 frequencies 0 None in
  ensure ((Z.of_nat count <=? MAX_DOCUMENT_BYTES)%Z
          && (match maximum with None => 0 | Some m => m + 1 end =? Z.of_nat count)%Z)
    else "positions do not cover the token sequence" ;
  let* _ := mark_terms p count (seq 0 (length frequencies)) (replicate (div_ceil count 64) 0%Z) in
  Ok tt.

(** ** Offsets keep their values *)

Lemma list_max_ge l v : v ∈ l -> (v <= list_max l)%Z.
Proof. unfold list_max. induction 1; cbn [foldr]; lia. Qed.

Lemma map_wrap_id bound l : Forall (fun v => 0 <= v < bound)%Z l -> map (wrap bound) l = l.
Proof.
  induction 1; cbn [map]; [done|]. f_equal; [by apply wrap_small|done].
Qed.

Lemma offsets_from_iter v : Forall is_u32 v -> offsets_iter (offsets_from v) = v.
Proof.
  intros Hv. unfold offsets_from. rewrite Forall_forall in Hv.
  assert (B : forall b, (list_max v < b)%Z -> Forall (fun x => 0 <= x < b)%Z v).
  { intros b Hb. apply Forall_forall. intros x Hx. pose proof (list_max_ge v x Hx).
    specialize (Hv x Hx). unfold is_u32 in Hv. lia. }
  destruct (_ <=? 255)%Z eqn:E; [|destruct (_ <=? 65535)%Z eqn:E2]; bool_to_prop; simpl; [..|done];
    apply map_wrap_id, B; unfold U8, U16; lia.
Qed.

Lemma offsets_get_iter o i : offsets_get o i = expect (offsets_iter o !! i).
Proof. by destruct o. Qed.

Lemma offsets_len_iter o : offsets_len o = length (offsets_iter o).
Proof. by destruct o. Qed.

(** ** The iterator reads what the reader reads *)

Lemma rbyte_mid p b s : rbyte (mid p (b :: s)) = Ok (b, mid (p ++ [b]) s).
Proof. apply (rbyte_parses b p s). Qed.

Lemma rbyte_mid_nil p : exists e, rbyte (mid p []) = Err e.
Proof. unfold rbyte, rbind, rtake. rewrite remaining_mid. simpl. eauto. Qed.

Lemma varint_loop_mid_cons sh shifts value p b s :
  varint_loop (sh :: shifts) value (mid p (b :: s)) =
  (let value := Z.lor value (wrap U64 (Z.shiftl (Z.land b 0x7f) sh)) in
   if ((sh <? 63) || (b <=? 1))%Z then
     if (Z.land b 0x80 =? 0)%Z then Ok (value, mid (p ++ [b]) s)
     else varint_loop shifts value (mid (p ++ [b]) s)
   else Err "binary journal varint overflows 64 bits").
Proof.
  cbn [varint_loop]. unfold rbind at 1. rewrite rbyte_mid. cbn [obind].
  destruct (_ || _); [|done]. by destruct (_ =? 0)%Z.
Qed.

(** A successful varint read depends only on the bytes ahead and consumes a prefix of them. *)
Lemma varint_loop_mid shifts value p s v r :
  varint_loop shifts value (mid p s) = Ok (v, r) ->
  exists e s', s = e ++ s' /\ e <> [] /\ r = mid (p ++ e) s' /\
    forall p', varint_loop shifts value (mid p' s) = Ok (v, mid (p' ++ e) s').
Proof.
  revert value p s. induction shifts as [|sh shifts IH]; intros value p s H; [done|].
  destruct s as [|b s].
  { cbn [varint_loop] in H. unfold rbind in H. destruct (rbyte_mid_nil p) as [e He]. by rewrite He in H. }
  setoid_rewrite varint_loop_mid_cons. rewrite varint_loop_mid_cons in H.
  destruct (_ || _); [|done]. destruct (_ =? 0)%Z.
  - injection H as <- <-. exists [b], s. split_and!; auto.
  - apply IH in H as (e & s' & -> & He & -> & Hp). exists (b :: e), s'. split_and!; auto.
    + by rewrite <- app_assoc.
    + intros p'. rewrite Hp. by rewrite <- app_assoc.
Qed.

(** [Positions::iter]'s in-place decoding agrees with [Reader::varint] on every gap that
    fits a [u32]. *)
Lemma next_gap_varint p b s v r :
  bytes_ok (b :: s) -> varint (mid p (b :: s)) = Ok (v, r) -> (v < U32)%Z ->
  exists e s', b :: s = e ++ s' /\ e <> [] /\ r = mid (p ++ e) s' /\ next_gap b s = Ok (v, s').
Proof.
  intros Hok H Hv. inversion Hok as [|?? Hb Hs]; subst. unfold is_u8 in Hb. pose proof H as H0.
  unfold varint in H. apply varint_loop_mid in H as (e & s' & Hes & Hne & -> & Hp).
  exists e, s'. split_and!; auto. unfold next_gap.
  assert (Long : long_gap (b :: s) = Ok (v, s')).
  { unfold long_gap, varint. rewrite reader_new_mid, Hp.
    rewrite (proj2 (Z.ltb_lt v U32)) by done. unfold position, mid; cbn [at_ app].
    rewrite Hes, slice_Ok by (rewrite length_app; lia). cbn [obind].
    rewrite drop_app_length, take_ge; [done|rewrite length_app; lia]. }
  specialize (Hp []). unfold varint_shifts in Hp. rewrite varint_loop_mid_cons in Hp. cbv zeta in Hp.
  change (0 <? 63)%Z with true in Hp. cbn [orb] in Hp. rewrite Z.lor_0_l, Z.shiftl_0_r, land_128 in Hp by lia.
  destruct (b <? 0x80)%Z eqn:Eb; bool_to_prop.
  - rewrite (proj2 (Z.leb_gt 128 b)), land_7f, wrap_small in Hp by (unfold U64; lia).
    injection Hp as Hv' Hd Hl. f_equal. f_equal; [done|].
    destruct e as [|c [|? ?]]; simpl in *; try lia. by simplify_eq.
  - destruct s as [|c t]; [done|]. destruct (c <? 0x80)%Z eqn:Ec; bool_to_prop; [|done].
    inversion Hs as [|?? Hc Ht]; subst. unfold is_u8 in Hc.
    rewrite (proj2 (Z.leb_le 128 b)) in Hp by lia. change (128 =? 0)%Z with false in Hp. cbv iota in Hp.
    rewrite varint_loop_mid_cons in Hp. cbv zeta in Hp.
    change (7 <? 63)%Z with true in Hp. cbn [orb] in Hp.
    rewrite (land_128 c), (proj2 (Z.leb_gt 128 c)) in Hp by lia.
    change (0 =? 0)%Z with true in Hp. cbv iota in Hp.
    assert (B : (0 <= Z.land b 0x7f < 128)%Z).
    { replace b with ((b - 128) + 128)%Z by lia. rewrite land_7f_hi; lia. }
    rewrite (land_7f c), (wrap_small U64 (Z.land b 0x7f)), (wrap_small U64 (Z.shiftl c 7)) in Hp
      by (rewrite ?Z.shiftl_mul_pow2 by lia; unfold U64; lia).
    injection Hp as Hv' Hd Hl. rewrite Hv'. f_equal. f_equal.
    destruct e as [|x [|y [|? ?]]]; simpl in *; try lia. by simplify_eq.
Qed.

(** ** The gap codec *)

Lemma mid_inj p e s e' s' : mid (p ++ e) s = mid (p ++ e') s' -> e ++ s = e' ++ s' -> s = s'.
Proof.
  unfold mid. intros [= _ Hl] H. rewrite !length_app in Hl.
  apply (app_inj_1 e e'); [lia|done].
Qed.

Lemma next_gap_put g s b t :
  (0 <= g < U32)%Z -> bytes_ok s -> put_varint g ++ s = b :: t -> next_gap b t = Ok (g, s).
Proof.
  intros Hg Hs Hbt. assert (Hg64 : is_u64 g) by (unfold is_u64, U64, U32 in *; lia).
  pose proof (varint_parses g Hg64 [] s) as Hp. rewrite Hbt in Hp.
  destruct (next_gap_varint [] b t g (mid ([] ++ put_varint g) s)) as (e & s' & He & _ & Hm & ->); auto.
  - rewrite <- Hbt. apply Forall_app_2; [apply put_varint_ok|done].
  - lia.
  - do 2 f_equal. symmetry. apply (mid_inj [] (put_varint g) s e s'); [done|congruence].
Qed.

(** Ascending positions from [previous] on; the first may equal it. *)
Definition positions_from (previous : Z) (l : list Z) : Prop :=
  StronglySorted Z.lt l /\ Forall (fun v => previous <= v < U32)%Z l.

Lemma positions_from_cons previous v l :
  (0 <= previous)%Z -> positions_from previous (v :: l) ->
  (previous <= v < U32)%Z /\ positions_from v l.
Proof.
  intros Hp [Hs Hf]. inversion Hs as [|?? Hs' Hv]; subst. inversion Hf as [|?? Hv' Hf']; subst.
  split; [done|]. split; [done|]. rewrite Forall_forall in *. intros x Hx.
  specialize (Hv x Hx). specialize (Hf' x Hx). simpl in *. lia.
Qed.

Lemma put_gaps_ok previous l : bytes_ok (put_gaps previous l).
Proof.
  revert previous. induction l as [|v l IH]; intros; simpl; [constructor|].
  apply Forall_app_2; [apply put_varint_ok|apply IH].
Qed.

Lemma iter_put_gaps l fuel previous :
  (0 <= previous)%Z -> positions_from previous l -> length (put_gaps previous l) <= fuel ->
  iter_loop fuel (put_gaps previous l) previous = Ok l.
Proof.
  revert fuel previous. induction l as [|v l IH]; intros fuel previous Hp Hl Hf.
  - by destruct fuel.
  - apply positions_from_cons in Hl as [Hv Hl]; [|done]. cbn [put_gaps] in *.
    destruct (put_varint (v - previous) ++ put_gaps v l) as [|b t] eqn:E.
    { apply (f_equal length) in E. rewrite length_app in E.
      pose proof (put_varint_nonempty (v - previous)). simpl in E. lia. }
    destruct fuel as [|fuel]; [simpl in Hf; lia|]. cbn [iter_loop].
    rewrite (next_gap_put (v - previous) (put_gaps v l) b t); auto using put_gaps_ok; [|lia].
    cbn [obind]. replace (wrap U32 (previous + (v - previous))) with v by (rewrite wrap_small; lia).
    rewrite IH; [done|lia|done|].
    apply (f_equal length) in E. rewrite length_app in E.
    pose proof (put_varint_nonempty (v - previous)). simpl in *. lia.
Qed.

(** ** The counting sort *)

(** The word positions of term [t], in text order. *)
Fixpoint occurrences (t : nat) (i : nat) (ranks : list nat) : list nat :=
  match ranks with
  | [] => []
  | r :: rest => if Nat.eqb r t then i :: occurrences t (S i) rest else occurrences t (S i) rest
  end.

Lemma occurrences_app t i a b :
  occurrences t i (a ++ b) = occurrences t i a ++ occurrences t (i + length a) b.
Proof.
  revert i. induction a as [|r a IH]; intros i; simpl; [by rewrite Nat.add_0_r|].
  rewrite IH. replace (S i + length a) with (i + S (length a)) by lia. by destruct (Nat.eqb r t).
Qed.

Lemma occurrences_spec t i ranks j :
  j ∈ occurrences t i ranks <-> i <= j /\ ranks !! (j - i) = Some t.
Proof.
  revert i. induction ranks as [|r ranks IH]; intros i; simpl.
  - rewrite elem_of_nil, lookup_nil. naive_solver.
  - assert (T : j ∈ occurrences t (S i) ranks <-> S i <= j /\ (r :: ranks) !! (j - i) = Some t).
    { rewrite IH. destruct (decide (S i <= j)).
      - replace (j - i) with (S (j - S i)) by lia. done.
      - naive_solver lia. }
    destruct (Nat.eqb r t) eqn:E; bool_to_prop.
    + subst. rewrite elem_of_cons, T. split.
      * intros [->|[? ?]]; [rewrite Nat.sub_diag|]; auto with lia.
      * intros [? ?]. destruct (decide (j = i)); [auto|right; auto with lia].
    + rewrite T. split; [naive_solver lia|]. intros [? H]. split; [|done].
      destruct (decide (j = i)) as [->|]; [|lia]. rewrite Nat.sub_diag in H. naive_solver.
Qed.

Lemma occurrences_sorted t i ranks : StronglySorted lt (occurrences t i ranks).
Proof.
  revert i. induction ranks as [|r ranks IH]; intros i; simpl; [constructor|].
  destruct (Nat.eqb r t); auto. constructor; auto. apply Forall_forall. intros j Hj%occurrences_spec. lia.
Qed.

(** The words of the first [n] terms, and the totals the code computes. *)
Definition block (ranks : list nat) (t : nat) : list nat := occurrences t 0 ranks.
Definition upto (ranks : list nat) (n : nat) : nat :=
  length (concat (map (block ranks) (seq 0 n))).

Lemma upto_S ranks n : upto ranks (S n) = upto ranks n + length (block ranks n).
Proof. unfold upto. by rewrite seq_S, map_app, concat_app, length_app; simpl; rewrite app_nil_r. Qed.

Lemma upto_mono ranks a b : a <= b -> upto ranks a <= upto ranks b.
Proof. induction 1; [lia|]. rewrite upto_S. lia. Qed.

Lemma map_seq_ext {A} (f g : nat -> A) a n :
  (forall t, a <= t < a + n -> f t = g t) -> map f (seq a n) = map g (seq a n).
Proof.
  revert a. induction n as [|n IH]; intros a H; simpl; [done|].
  f_equal; [apply H; lia|]. apply IH. intros t Ht. apply H. lia.
Qed.

Lemma map_seq_split {A} (f : nat -> A) r n :
  r < n -> map f (seq 0 n) = map f (seq 0 r) ++ f r :: map f (seq (S r) (n - S r)).
Proof.
  intros Hr. replace n with (r + S (n - S r)) at 1 by lia. rewrite seq_app, map_app. done.
Qed.

Lemma count_ranks_spec ranks terms i f :
  Forall (fun r => r < terms) ranks ->
  count_ranks ranks (0 :: map f (seq 0 terms)) =
  Ok (0 :: map (fun t => f t + length (occurrences t i ranks)) (seq 0 terms)).
Proof.
  intros Hr. revert i f. induction Hr as [|r ranks Hr Hrs IH]; intros i f; simpl.
  - do 2 f_equal. apply map_seq_ext. intros. lia.
  - replace (r + 1) with (S r) by lia. simpl. rewrite list_lookup_fmap, lookup_seq_lt by done.
    simpl.
    replace (<[r := f r + 1]> (map f (seq 0 terms)))
      with (map (fun t => if Nat.eqb r t then f t + 1 else f t) (seq 0 terms)).
    + rewrite (IH (S i)). do 2 f_equal. apply map_seq_ext. intros t Ht.
      destruct (Nat.eqb r t); simpl; lia.
    + rewrite !(map_seq_split _ r terms) by done. rewrite insert_app_r_alt by (rewrite length_map, length_seq; lia).
      rewrite length_map, length_seq, Nat.sub_diag. simpl. rewrite Nat.eqb_refl.
      f_equal; [|f_equal]; apply map_seq_ext; intros t Ht;
        by replace (Nat.eqb r t) with false by (symmetry; apply Nat.eqb_neq; lia).
Qed.

Lemma totals_spec ranks k n :
  totals (upto ranks k) (map (fun t => length (block ranks t)) (seq k n)) = map (upto ranks) (seq (S k) n).
Proof.
  revert k. induction n as [|n IH]; intros k; simpl; [done|]. rewrite <- upto_S. f_equal. apply IH.
Qed.

(** The blocks with the words placed so far, the free places zero. *)
Definition filled (ranks pre : list nat) (t : nat) : list nat :=
  block pre t ++ replicate (length (block ranks t) - length (block pre t)) 0.

Lemma block_prefix pre post t :
  length (block pre t) <= length (block (pre ++ post) t).
Proof. unfold block. rewrite occurrences_app, length_app. lia. Qed.

Lemma block_snoc pre r t :
  block (pre ++ [r]) t = if Nat.eqb r t then block pre t ++ [length pre] else block pre t.
Proof.
  unfold block. rewrite occurrences_app. simpl. destruct (Nat.eqb r t); [done|by rewrite app_nil_r].
Qed.

Lemma filled_length ranks pre post t :
  ranks = pre ++ post -> length (filled ranks pre t) = length (block ranks t).
Proof.
  intros ->. unfold filled. rewrite length_app, length_replicate. pose proof (block_prefix pre post t). lia.
Qed.

Lemma concat_filled_length ranks pre post n :
  ranks = pre ++ post -> length (concat (map (filled ranks pre) (seq 0 n))) = upto ranks n.
Proof.
  intros H. induction n as [|n IH]; [done|].
  rewrite upto_S, seq_S, map_app, concat_app, length_app, IH. simpl.
  by rewrite app_nil_r, (filled_length ranks pre post).
Qed.

(** Placing one word fills the next free place of its block. *)
Lemma place_step ranks pre r post terms :
  ranks = pre ++ r :: post -> r < terms ->
  let at_ := upto ranks r + length (block pre r) in
  at_ < length (concat (map (filled ranks pre) (seq 0 terms))) /\
  <[at_ := length pre]> (concat (map (filled ranks pre) (seq 0 terms)))
    = concat (map (filled ranks (pre ++ [r])) (seq 0 terms)).
Proof.
  intros Hranks Hr at_. subst at_.
  assert (Hr1 : ranks = (pre ++ [r]) ++ post) by (by rewrite <- app_assoc).
  assert (Hlt : length (block pre r) < length (block ranks r)).
  { pose proof (block_prefix (pre ++ [r]) post r) as H. rewrite <- Hr1 in H.
    rewrite block_snoc, Nat.eqb_refl, length_app in H. simpl in H. lia. }
  assert (Hf : filled ranks pre r = block pre r ++ 0 ::
             replicate (length (block ranks r) - S (length (block pre r))) 0).
  { unfold filled. by replace (length (block ranks r) - length (block pre r))
      with (S (length (block ranks r) - S (length (block pre r)))) by lia. }
  assert (Hg : filled ranks (pre ++ [r]) r = block pre r ++ length pre ::
             replicate (length (block ranks r) - S (length (block pre r))) 0).
  { unfold filled. rewrite block_snoc, Nat.eqb_refl, length_app, <- app_assoc. simpl.
    by rewrite (Nat.add_comm _ 1). }
  assert (Hsame : forall t, t <> r -> filled ranks (pre ++ [r]) t = filled ranks pre t).
  { intros t Ht. unfold filled. rewrite block_snoc.
    by replace (Nat.eqb r t) with false by (symmetry; apply Nat.eqb_neq; lia). }
  split.
  - rewrite (concat_filled_length ranks pre (r :: post)) by done.
    pose proof (upto_mono ranks (S r) terms ltac:(lia)). rewrite upto_S in *. lia.
  - rewrite !(map_seq_split _ r terms), !concat_app by done. simpl. rewrite Hf, Hg.
    rewrite (map_seq_ext (filled ranks (pre ++ [r])) (filled ranks pre) 0 r) by (intros; apply Hsame; lia).
    rewrite (map_seq_ext (filled ranks (pre ++ [r])) (filled ranks pre) (S r)) by (intros; apply Hsame; lia).
    rewrite <- (concat_filled_length ranks pre (r :: post) r) by done.
    rewrite insert_app_r_alt by lia. f_equal.
    replace (_ + _ - _) with (length (block pre r)) by lia. rewrite <- !app_assoc.
    rewrite insert_app_r_alt by lia. by rewrite Nat.sub_diag.
Qed.

Lemma next_step ranks pre r terms (total : nat) :
  r < terms ->
  let next p := map (fun t => upto ranks t + length (block p t)) (seq 0 terms) ++ [total] in
  next pre !! r = Some (upto ranks r + length (block pre r)) /\
  <[r := upto ranks r + length (block pre r) + 1]> (next pre) = next (pre ++ [r]).
Proof.
  intros Hr next. unfold next. split.
  - rewrite lookup_app_l by (rewrite length_map, length_seq; done).
    by rewrite list_lookup_fmap, lookup_seq_lt.
  - rewrite insert_app_l by (rewrite length_map, length_seq; done). f_equal.
    rewrite !(map_seq_split _ r terms) by done.
    rewrite insert_app_r_alt by (rewrite length_map, length_seq; lia).
    rewrite length_map, length_seq, Nat.sub_diag. simpl.
    rewrite block_snoc, Nat.eqb_refl, length_app. simpl.
    f_equal; [|f_equal; [lia|]]; apply map_seq_ext; intros t Ht; rewrite block_snoc;
      by replace (Nat.eqb r t) with false by (symmetry; apply Nat.eqb_neq; lia).
Qed.

Lemma place_spec ranks terms total pre post :
  ranks = pre ++ post -> Forall (fun r => r < terms) post ->
  place post (length pre)
    (map (fun t => upto ranks t + length (block pre t)) (seq 0 terms) ++ [total])
    (concat (map (filled ranks pre) (seq 0 terms)))
  = Ok (concat (map (block ranks) (seq 0 terms))).
Proof.
  intros Hranks Hpost. revert pre Hranks. induction Hpost as [|r post Hr Hpost IH]; intros pre Hranks.
  - simpl. do 2 f_equal. rewrite app_nil_r in Hranks. subst. apply map_seq_ext. intros t _.
    unfold filled. by rewrite Nat.sub_diag, app_nil_r.
  - cbn [place]. destruct (next_step ranks pre r terms total Hr) as [-> Hnext].
    destruct (place_step ranks pre r post terms Hranks Hr) as [Hlt Hins]. simpl.
    rewrite (proj2 (Nat.ltb_lt _ _)) by exact Hlt.
    rewrite Hnext, Hins. replace (length pre + 1) with (length (pre ++ [r])) by (rewrite length_app; done).
    apply IH. by rewrite <- app_assoc.
Qed.

(** ** What [from_ranks] stores *)

Lemma positions_of_block ranks t :
  (Z.of_nat (length ranks) < U32)%Z -> positions_from 0 (map Z.of_nat (block ranks t)).
Proof.
  intros Hn. split.
  - pose proof (occurrences_sorted t 0 ranks) as Hs. fold (block ranks t) in Hs.
    induction Hs as [|x l Hs IH Hx]; simpl; constructor; auto.
    apply Forall_forall. intros y (z & -> & Hz)%list_elem_of_fmap. rewrite Forall_forall in Hx.
    specialize (Hx z Hz). lia.
  - apply Forall_forall. intros y (z & -> & Hz)%list_elem_of_fmap.
    apply occurrences_spec in Hz as [_ Hz]. apply lookup_lt_Some in Hz. lia.
Qed.

(** The data of the first [n] terms. *)
Definition term_data (ranks : list nat) (n : nat) : list Z :=
  concat (map (fun t => put_gaps 0 (map Z.of_nat (block ranks t))) (seq 0 n)).

Lemma term_data_S ranks n :
  term_data ranks (S n) = term_data ranks n ++ put_gaps 0 (map Z.of_nat (block ranks n)).
Proof. unfold term_data. by rewrite seq_S, map_app, concat_app; simpl; rewrite app_nil_r. Qed.

Lemma term_data_mono ranks a b : a <= b -> length (term_data ranks a) <= length (term_data ranks b).
Proof. induction 1; [lia|]. rewrite term_data_S, length_app. lia. Qed.

Lemma slice_block ranks terms t :
  t < terms ->
  slice (concat (map (block ranks) (seq 0 terms))) (upto ranks t) (upto ranks (S t)) = Ok (block ranks t).
Proof.
  intros Ht. rewrite (map_seq_split _ t terms), concat_app by done. simpl.
  unfold upto at 1. pose proof (upto_S ranks t) as HS. unfold upto at 2 in HS.
  rewrite slice_Ok by (rewrite ?length_app, HS; lia).
  rewrite HS. replace (_ + _ - _) with (length (block ranks t)) by lia.
  by rewrite drop_app_length, take_app_length.
Qed.

Lemma emit_terms_spec ranks terms k n :
  k + n = terms -> (Z.of_nat (length (term_data ranks terms)) < U32)%Z ->
  emit_terms (concat (map (block ranks) (seq 0 terms))) (map (upto ranks) (seq k (S n)))
    (term_data ranks k) (map (fun j => Z.of_nat (length (term_data ranks j))) (seq 0 (S k)))
  = Ok (term_data ranks terms,
        map (fun j => Z.of_nat (length (term_data ranks j))) (seq 0 (S terms))).
Proof.
  intros Hk Hlen. revert k Hk. induction n as [|n IH]; intros k Hk.
  - replace terms with k by lia. done.
  - change (map (upto ranks) (seq k (S (S n))))
      with (upto ranks k :: upto ranks (S k) :: map (upto ranks) (seq (S (S k)) n)).
    cbn [emit_terms]. rewrite slice_block by lia. cbn [obind]. rewrite <- term_data_S.
    rewrite (proj2 (Z.ltb_lt _ _)).
    + rewrite (seq_S (S k) 0), map_app in IH || idtac.
      change (upto ranks (S k) :: map (upto ranks) (seq (S (S k)) n)) with (map (upto ranks) (seq (S k) (S n))).
      specialize (IH (S k) ltac:(lia)). rewrite (seq_S (S k)), map_app in IH. apply IH.
    + pose proof (term_data_mono ranks (S k) terms ltac:(lia)). lia.
Qed.

Lemma filled_nil ranks terms :
  concat (map (filled ranks []) (seq 0 terms)) = replicate (upto ranks terms) 0.
Proof.
  induction terms as [|n IH]; [done|].
  rewrite upto_S, seq_S, map_app, concat_app, IH, replicate_add. simpl.
  unfold filled at 1. simpl. by rewrite Nat.sub_0_r, app_nil_r.
Qed.

(** Every word is in the block of its term. *)
Lemma upto_all ranks terms : Forall (fun r => r < terms) ranks -> upto ranks terms = length ranks.
Proof.
  intros Hr. induction ranks as [|r ranks IH] using rev_ind.
  - clear. induction terms as [|n IH]; [done|]. by rewrite upto_S, IH.
  - rewrite Forall_app in Hr. destruct Hr as [Hr Hrr]. specialize (IH Hr).
    inversion Hrr; subst. rewrite length_app, <- IH. simpl. clear IH.
    assert (G : forall n, upto (ranks ++ [r]) n = upto ranks n + if decide (r < n) then 1 else 0).
    { induction n as [|n IHn]; [done|]. rewrite !upto_S, IHn, block_snoc.
      destruct (Nat.eqb r n) eqn:E; bool_to_prop.
      - rewrite length_app. simpl. repeat case_decide; lia.
      - repeat case_decide; lia. }
    rewrite G. case_decide; lia.
Qed.

Lemma from_ranks_ok ranks terms w :
  Forall (fun r => r < terms) ranks -> (Z.of_nat (length (term_data ranks terms)) < U32)%Z ->
  from_ranks ranks terms w =
  Ok {| p_version := if w then DOCUMENT_VERSION else VERSION;
        p_offsets := offsets_from (map (fun j => Z.of_nat (length (term_data ranks j))) (seq 0 (S terms)));
        p_data := term_data ranks terms |}.
Proof.
  intros Hr Hlen. unfold from_ranks.
  replace (replicate (terms + 1) 0) with (0 :: map (fun _ : nat => 0) (seq 0 terms)).
  2: { rewrite Nat.add_1_r. simpl. f_equal. clear. generalize 0 at 2. induction terms; intros; simpl; [done|].
       by f_equal. }
  rewrite (count_ranks_spec ranks terms 0) by done. cbn [obind].
  set (counts := 0 :: _).
  assert (Hs : totals 0 counts = map (upto ranks) (seq 0 (S terms))).
  { unfold counts. cbn [totals seq map]. f_equal.
    rewrite <- (totals_spec ranks 0 terms). done. }
  assert (P : place ranks 0 (map (upto ranks) (seq 0 (S terms))) (replicate (length ranks) 0)
              = Ok (concat (map (block ranks) (seq 0 terms)))).
  { rewrite <- (place_spec ranks terms (upto ranks terms) [] ranks) by done. f_equal.
    - rewrite seq_S, map_app. f_equal. apply map_seq_ext. intros t _. unfold block; simpl. lia.
    - by rewrite filled_nil, upto_all. }
  rewrite Hs, P. cbn [obind].
  pose proof (emit_terms_spec ranks terms 0 terms eq_refl Hlen) as E.
  change (term_data ranks 0) with (@nil Z) in E. cbn [seq map length Z.of_nat] in E.
  change 0%Z with (Z.of_nat (length (term_data ranks 0))). cbn [seq map]. by rewrite E.
Qed.

Lemma is_u32_data ranks terms :
  (Z.of_nat (length (term_data ranks terms)) < U32)%Z ->
  Forall is_u32 (map (fun j => Z.of_nat (length (term_data ranks j))) (seq 0 (S terms))).
Proof.
  intros H. apply Forall_forall. intros y (j & -> & Hj)%list_elem_of_fmap. apply elem_of_seq in Hj.
  pose proof (term_data_mono ranks j terms ltac:(lia)). unfold is_u32. lia.
Qed.

(** Decoding the positions of a term gives exactly the words of that rank, in order. *)
Lemma from_ranks_iter ranks terms w :
  Forall (fun r => r < terms) ranks -> (Z.of_nat (length ranks) < U32)%Z ->
  (Z.of_nat (length (term_data ranks terms)) < U32)%Z ->
  exists p, from_ranks ranks terms w = Ok p /\
    forall t, t < terms -> iter p t = Ok (map Z.of_nat (block ranks t)).
Proof.
  intros Hr Hn Hlen. rewrite from_ranks_ok by done. eexists. split; [done|]. intros t Ht.
  unfold iter, p_bytes. cbn [p_offsets p_data]. rewrite !offsets_get_iter, offsets_from_iter by by apply is_u32_data.
  rewrite !list_lookup_fmap, !lookup_seq_lt by lia. cbn [fmap option_fmap option_map expect obind].
  rewrite !Nat2Z.id. replace (0 + (t + 1)) with (S t) by lia. cbn [Nat.add].
  assert (Hs : slice (term_data ranks terms) (length (term_data ranks t)) (length (term_data ranks (S t)))
               = Ok (put_gaps 0 (map Z.of_nat (block ranks t)))).
  { unfold term_data at 1. rewrite (map_seq_split _ t terms), concat_app by done. simpl.
    fold (term_data ranks t). rewrite term_data_S, length_app, slice_Ok by (rewrite ?length_app; lia).
    replace (_ + _ - _) with (length (put_gaps 0 (map Z.of_nat (block ranks t)))) by lia.
    by rewrite drop_app_length, take_app_length. }
  rewrite Hs. cbn [obind]. apply iter_put_gaps; [done| |done]. by apply positions_of_block.
Qed.

(** ** What validation guarantees *)

Lemma varint_loop_nonneg shifts value r v r' :
  (0 <= value)%Z -> varint_loop shifts value r = Ok (v, r') -> (0 <= v)%Z.
Proof.
  revert value r. induction shifts as [|sh shifts IH]; intros value r Hv H; [done|].
  cbn [varint_loop] in H. unfold rbind in H. inv_ok. destruct a as [b r1].
  destruct (_ || _); [|done].
  assert (0 <= Z.lor value (wrap U64 (Z.shiftl (Z.land b 0x7f) sh)))%Z.
  { apply Z.lor_nonneg. split; [done|]. apply Z.mod_pos_bound. done. }
  destruct (_ =? 0)%Z; [unfold rret in H; inv_ok; by simplify_eq|eauto].
Qed.

(** The running maximum of [validate]. *)
Definition grow_max (m : option Z) (v : Z) : option Z :=
  Some (match m with None => v | Some m => Z.max m v end).

Lemma validate_term_sound fuel p s prev tc mx tc' mx' :
  bytes_ok s -> (forall q, prev = Some q -> 0 <= q < U32)%Z ->
  validate_term fuel (mid p s) prev tc mx = Ok (tc', mx') ->
  exists l, (forall f, length s <= f -> iter_loop f s (default 0%Z prev) = Ok l) /\
    tc' = tc + length l /\ mx' = foldl grow_max mx l /\
    StronglySorted Z.lt l /\ Forall (fun v => 0 <= v)%Z l /\
    (forall q, prev = Some q -> Forall (fun v => q < v)%Z l).
Proof.
  revert p s prev tc mx. induction fuel as [|fuel IH]; intros p s prev tc mx Hs Hprev H;
    cbn [validate_term] in H; rewrite is_empty_mid in H; destruct s as [|b s]; try done.
  1, 2: injection H as <- <-; exists []; split_and!; auto using SSorted_nil; intros f; by destruct f.
  inv_ok. destruct a as [gap r]. inv_ok. rename E0 into Easc. unfold checked_add in E1.
  destruct (default 0%Z prev + gap <? U32)%Z eqn:Hlt; [|done]. injection E1 as <-. bool_to_prop.
  destruct (next_gap_varint p b s gap r Hs Ha E) as (e & s' & Hes & He & -> & Hgap).
  pose proof (varint_loop_nonneg _ _ _ _ _ (Z.le_refl 0) Ha) as Hg0.
  assert (Hs' : bytes_ok s') by (rewrite Hes in Hs; by apply Forall_app in Hs as [_ ?]).
  assert (Hd : (0 <= default 0 prev)%Z) by (destruct prev as [q|]; simpl; [apply (Hprev q); done|lia]).
  apply IH in H as (l & Hit & -> & -> & Hsort & Hnn & Hgt); [|done|intros q [= <-]; lia].
  exists ((default 0%Z prev + gap)%Z :: l). split_and!.
  - intros [|f] Hf; [simpl in Hf; lia|]. cbn [iter_loop]. rewrite Hgap. cbn [obind].
    rewrite wrap_small by lia. rewrite Hit; [done|].
    apply (f_equal length) in Hes. rewrite length_app in Hes. simpl in *.
    destruct e; [done|]. simpl in *. lia.
  - simpl. lia.
  - done.
  - constructor; [done|]. apply (Hgt _ eq_refl).
  - constructor; [lia|done].
  - intros q ->. simpl in *. bool_to_prop. constructor; [lia|].
    apply (Forall_impl _ _ _ (Hgt _ eq_refl)). intros. lia.
Qed.

(** The positions of one term, as a valid table holds them. *)
Definition term_positions (p : Positions) (index : nat) (frequency : Z) (l : list Z) : Prop :=
  iter p index = Ok l /\ l <> [] /\ StronglySorted Z.lt l /\ Forall (fun v => 0 <= v)%Z l /\
  (Z.of_nat (length l) <= frequency)%Z.

Lemma p_bytes_ok p index b : bytes_ok (p_data p) -> p_bytes p index = Ok b -> bytes_ok b.
Proof.
  intros Hd H. unfold p_bytes in H. inv_ok. unfold slice in H. destruct (_ && _); [|done].
  injection H as <-. by apply Forall_take, Forall_drop.
Qed.

Lemma validate_terms_sound p index freqs n mx n' mx' :
  bytes_ok (p_data p) ->
  validate_terms p index freqs n mx = Ok (n', mx') ->
  exists ls, length ls = length freqs /\
    (forall i l f, ls !! i = Some l -> freqs !! i = Some f -> term_positions p (index + i) f l) /\
    n' = n + length (concat ls) /\ mx' = foldl grow_max mx (concat ls).
Proof.
  intros Hd. revert index n mx. induction freqs as [|f freqs IH]; intros index n mx H;
    cbn [validate_terms] in H.
  - injection H as <- <-. exists []. split_and!; auto; done.
  - inv_ok. destruct a0 as [tc mx1]. bool_to_prop.
    destruct (validate_term_sound (length a) [] a None 0 mx tc mx1) as (l & Hit & -> & -> & Hs & Hnn & _);
      [by eapply p_bytes_ok|done|done|].
    inv_ok. bool_to_prop. apply IH in H as (ls & Hlen & Hls & -> & ->).
    exists (l :: ls). split_and!; [simpl; lia| | |].
    + intros [|i] l' f' Hl' Hf'; simpl in *; simplify_eq.
      * rewrite Nat.add_0_r. split_and!; auto; [|destruct l'; [simpl in *; lia|done]].
        unfold iter. rewrite Ha. cbn [obind]. by apply Hit.
      * replace (index + S i) with (index + 1 + i) by lia. by apply Hls.
    + simpl. rewrite length_app. lia.
    + simpl. by rewrite foldl_app.
Qed.

(** A bitset of positions, 64 per word. *)
Definition bit_at (seen : list Z) (q : Z) : bool :=
  match seen !! Z.to_nat (q / 64) with Some w => Z.testbit w (q mod 64) | None => false end.

Lemma bit_at_insert seen q v w :
  (0 <= q)%Z -> (0 <= v)%Z -> seen !! Z.to_nat (v / 64) = Some w ->
  bit_at (<[Z.to_nat (v / 64) := Z.lor w (Z.shiftl 1 (v mod 64))]> seen) q
    = bit_at seen q || bool_decide (q = v).
Proof.
  intros Hq Hv Hw. unfold bit_at. pose proof (lookup_lt_Some _ _ _ Hw).
  pose proof (Z.mod_pos_bound v 64 ltac:(lia)). pose proof (Z.mod_pos_bound q 64 ltac:(lia)).
  pose proof (Z.div_pos v 64 Hv ltac:(lia)). pose proof (Z.div_pos q 64 Hq ltac:(lia)).
  pose proof (Z.div_mod v 64 ltac:(lia)). pose proof (Z.div_mod q 64 ltac:(lia)).
  destruct (decide (Z.to_nat (q / 64) = Z.to_nat (v / 64))) as [E|E].
  - rewrite E, list_lookup_insert_eq, Hw by done.
    rewrite Z.lor_spec, Z.shiftl_1_l, Z.pow2_bits_eqb by lia. f_equal.
    destruct (Z.eqb_spec (v mod 64) (q mod 64)); symmetry;
      [apply bool_decide_eq_true|apply bool_decide_eq_false]; lia.
  - rewrite list_lookup_insert_ne by done. rewrite bool_decide_eq_false_2 by (intros ->; done).
    by rewrite orb_false_r.
Qed.

Lemma land_bit_0 w b : (0 <= b)%Z -> Z.land w (Z.shiftl 1 b) = 0%Z -> Z.testbit w b = false.
Proof.
  intros Hb H. assert (T : Z.testbit (Z.land w (Z.shiftl 1 b)) b = false) by (rewrite H; apply Z.bits_0).
  rewrite Z.land_spec, Z.shiftl_1_l, Z.pow2_bits_true, andb_true_r in T by done. done.
Qed.

Lemma mark_sound n l seen seen' :
  Forall (fun v => 0 <= v)%Z l -> mark n l seen = Ok seen' ->
  NoDup l /\ Forall (fun v => v < Z.of_nat n)%Z l /\ Forall (fun v => bit_at seen v = false) l /\
  forall q, (0 <= q)%Z -> bit_at seen' q = bit_at seen q || bool_decide (q ∈ l).
Proof.
  intros Hl. revert seen. induction Hl as [|v l Hv Hl IH]; intros seen H; cbn [mark] in H.
  - injection H as <-. split_and!; auto using NoDup_nil_2. intros q _. by rewrite orb_false_r.
  - inv_ok. bool_to_prop.
    assert (Hbit : bit_at seen v = false).
    { unfold bit_at. rewrite E0. apply land_bit_0; [apply Z.mod_pos_bound; lia|done]. }
    apply IH in H as (Hnd & Hlt & Hfree & Hb).
    assert (Hfree' : Forall (fun q => bit_at seen q = false /\ q <> v) l).
    { rewrite Forall_forall in *. intros q Hq. specialize (Hfree q Hq). specialize (Hl q Hq).
      rewrite bit_at_insert in Hfree by done. apply orb_false_iff in Hfree as [? ?]. by bool_to_prop. }
    rewrite Forall_forall in Hfree'. split_and!.
    + constructor; [|done]. intros Hin. destruct (Hfree' v Hin). done.
    + by constructor.
    + constructor; [done|]. apply Forall_forall. intros q Hq. by destruct (Hfree' q Hq).
    + intros q Hq. rewrite Hb, bit_at_insert by done. rewrite <- orb_assoc. f_equal.
      rewrite <- bool_decide_or. apply bool_decide_ext. rewrite elem_of_cons. done.
Qed.

Lemma mark_terms_sound p n indices ls seen seen' :
  Forall2 (fun i l => iter p i = Ok l /\ Forall (fun v => 0 <= v)%Z l) indices ls ->
  mark_terms p n indices seen = Ok seen' ->
  NoDup (concat ls) /\ Forall (fun v => v < Z.of_nat n)%Z (concat ls) /\
  Forall (fun v => bit_at seen v = false) (concat ls).
Proof.
  intros H2. revert seen. induction H2 as [|i l ids ls [Hi Hl] H2 IH]; intros seen H; cbn [mark_terms] in H.
  - simpl. split_and!; constructor.
  - inv_ok. rewrite Hi in Ha. injection Ha as <-.
    apply mark_sound in Ha0 as (Hnd & Hlt & Hfree & Hb); [|done].
    apply IH in H as (Hnd' & Hlt' & Hfree'). simpl.
    assert (Hnn : Forall (fun v => 0 <= v)%Z (concat ls)).
    { clear -H2. induction H2 as [|?? ? ? [_ ?]]; simpl; [constructor|]. by apply Forall_app_2. }
    assert (Hsep : Forall (fun v => bit_at seen v = false /\ v ∉ l) (concat ls)).
    { rewrite Forall_forall in *. intros v Hv. specialize (Hfree' v Hv). rewrite Hb in Hfree' by auto.
      apply orb_false_iff in Hfree' as [? ?]. by bool_to_prop. }
    rewrite Forall_forall in Hsep. split_and!.
    + apply NoDup_app. split_and!; auto. intros v Hv Hv'. by destruct (Hsep v Hv').
    + by apply Forall_app_2.
    + apply Forall_app_2; [done|]. apply Forall_forall. intros v Hv. by destruct (Hsep v Hv).
Qed.

(** Distinct positions below their number are all of them. *)
Lemma covers_all (l : list Z) :
  NoDup l -> Forall (fun v => 0 <= v < Z.of_nat (length l))%Z l ->
  l ≡ₚ map Z.of_nat (seq 0 (length l)).
Proof.
  intros Hnd Hl. apply submseteq_length_Permutation; [|by rewrite length_map, length_seq].
  apply NoDup_submseteq; [done|]. intros v Hv. rewrite Forall_forall in Hl. specialize (Hl v Hv).
  apply list_elem_of_fmap. exists (Z.to_nat v). split; [lia|]. apply elem_of_seq. lia.
Qed.

(** A table that passes validation decodes without a panic; each term's positions are
    strictly ascending, nonempty and at most its frequency, and together they are every word
    position exactly once. *)
Lemma validate_positions p freqs :
  bytes_ok (p_data p) -> validate p freqs = Ok tt ->
  exists ls, length ls = length freqs /\
    (forall i l f, ls !! i = Some l -> freqs !! i = Some f -> term_positions p i f l) /\
    concat ls ≡ₚ map Z.of_nat (seq 0 (length (concat ls))).
Proof.
  intros Hd H. unfold validate in H. inv_ok. destruct a as [n mx].
  apply validate_terms_sound in Ha as (ls & Hlen & Hls & -> & ->); [|done].
  inv_ok. bool_to_prop. exists ls. split_and!; auto.
  assert (HF : Forall2 (fun i l => iter p i = Ok l /\ Forall (fun v => 0 <= v)%Z l)
                 (seq 0 (length freqs)) ls).
  { apply Forall2_same_length_lookup_2; [by rewrite length_seq|]. intros i j l Hi Hl.
    apply lookup_seq in Hi as [-> Hi]. destruct (lookup_lt_is_Some_2 freqs i Hi) as [f Hf].
    destruct (Hls i l f Hl Hf) as (?&?&?&?&?). auto. }
  destruct (mark_terms_sound p _ _ _ _ _ HF Ha) as (Hnd & Hlt & _).
  apply covers_all; [done|]. rewrite Nat.add_0_l in Hlt.
  assert (Hnn : Forall (fun v => 0 <= v)%Z (concat ls)).
  { clear -HF. induction HF as [|?? ? ? [_ ?]]; simpl; [constructor|]. by apply Forall_app_2. }
  rewrite Forall_forall in *. intros v Hv. specialize (Hlt v Hv). specialize (Hnn v Hv). simpl in *. lia.
Qed.

(** ** Validation of untrusted tables never panics *)

Lemma varint_progress r v r' :
  reader_ok r -> varint r = Ok (v, r') -> at_ r < at_ r' /\ reader_ok r' /\ data r' = data r.
Proof.
  intros Hr H. destruct r as [d a]. unfold reader_ok in Hr. cbn [data at_] in *.
  assert (E : {| data := d; at_ := a |} = mid (take a d) (drop a d)).
  { unfold mid. rewrite take_drop, length_take. f_equal. lia. }
  rewrite E in H. unfold varint in H. apply varint_loop_mid in H as (e & s' & Hes & Hne & -> & _).
  unfold mid, reader_ok. cbn [data at_]. rewrite !length_app, length_take. destruct e; [done|]. simpl.
  split_and!; [lia|lia|]. by rewrite <- app_assoc, <- Hes, take_drop.
Qed.

Lemma validate_term_no_panic fuel r prev tc mx :
  reader_ok r -> remaining r <= fuel -> no_panic (validate_term fuel r prev tc mx).
Proof.
  revert r prev tc mx. induction fuel as [|fuel IH]; intros r prev tc mx Hr Hf; cbn [validate_term];
    destruct (is_empty r) eqn:E; try done; unfold is_empty in E; bool_to_prop; unfold reader_ok, remaining in *; [lia|].
  apply obind_no_panic; [by apply (varint_loop_safe varint_shifts 0 r)|]. intros [gap r'] Hv.
  destruct (varint_progress r gap r' Hr Hv) as (Hlt & Hr' & Hd).
  destruct (gap <? U32)%Z; [|done]. destruct (match prev with None => true | Some _ => (0 <? gap)%Z end); [|done].
  destruct (checked_add _ _ _); simpl; [|done].
  destruct (_ <? MAX_DOCUMENT_BYTES)%Z; [|done].
  apply IH; [done|]. unfold remaining, reader_ok in *. rewrite Hd in *. lia.
Qed.

(** The offsets [validate] accepts delimit slices of the data. *)
Definition offsets_valid (p : Positions) (n : nat) : Prop :=
  length (offsets_iter (p_offsets p)) = n + 1 /\ StronglySorted Z.lt (offsets_iter (p_offsets p)) /\
  head (offsets_iter (p_offsets p)) = Some 0%Z /\
  last (offsets_iter (p_offsets p)) = Some (Z.of_nat (length (p_data p))).

Lemma sorted_lookup_lt (l : list Z) i j a b :
  StronglySorted Z.lt l -> i < j -> l !! i = Some a -> l !! j = Some b -> (a < b)%Z.
Proof.
  intros Hs. revert i j. induction Hs as [|x l Hl IH Hx]; intros i j Hij Ha Hb; [done|].
  destruct j as [|j]; [lia|]. destruct i as [|i]; simpl in *.
  - simplify_eq. rewrite Forall_lookup in Hx. eauto.
  - apply (IH i j); [lia|done|done].
Qed.

Lemma p_bytes_total p n i : offsets_valid p n -> i < n -> exists b, p_bytes p i = Ok b.
Proof.
  intros (Hn & Hs & Hh & Hl) Hi. unfold p_bytes. rewrite !offsets_get_iter.
  destruct (lookup_lt_is_Some_2 (offsets_iter (p_offsets p)) i) as [a Ha]; [lia|].
  destruct (lookup_lt_is_Some_2 (offsets_iter (p_offsets p)) (i + 1)) as [b Hb]; [lia|].
  rewrite Ha, Hb. cbn [expect obind].
  assert (a < b)%Z by (eapply (sorted_lookup_lt _ i (i + 1)); eauto; lia).
  assert (0 <= a)%Z.
  { rewrite head_lookup in Hh. destruct i as [|i]; [simplify_eq; lia|].
    pose proof (sorted_lookup_lt _ 0 (S i) 0%Z a Hs ltac:(lia) Hh Ha). lia. }
  assert (b <= Z.of_nat (length (p_data p)))%Z.
  { rewrite last_lookup, Hn in Hl. replace (pred (n + 1)) with n in Hl by lia.
    destruct (decide (i + 1 = n)) as [E|]; [rewrite E in Hb; simplify_eq; lia|].
    pose proof (sorted_lookup_lt _ (i + 1) n b _ Hs ltac:(lia) Hb Hl). lia. }
  rewrite slice_Ok by lia. by eexists.
Qed.

Lemma validate_terms_no_panic p m index freqs n mx :
  offsets_valid p m -> index + length freqs <= m -> no_panic (validate_terms p index freqs n mx).
Proof.
  intros Ho. revert index n mx. induction freqs as [|f freqs IH]; intros index n mx Hi; cbn [validate_terms]; [done|].
  cbn [length] in Hi. destruct (p_bytes_total p m index Ho ltac:(lia)) as [b Hb]. rewrite Hb. cbn [obind].
  apply obind_no_panic.
  - apply validate_term_no_panic; unfold reader_ok, remaining; simpl; lia.
  - intros [tc mx'] _. destruct (_ && _); [|done]. apply IH. lia.
Qed.

Lemma mark_total n l seen :
  Forall (fun v => 0 <= v)%Z l -> n <= length seen * 64 ->
  no_panic (mark n l seen) /\ forall seen', mark n l seen = Ok seen' -> length seen' = length seen.
Proof.
  intros Hl. revert seen. induction Hl as [|v l Hv Hl IH]; intros seen Hs; cbn [mark].
  { split; [done|]. by intros ? [= <-]. }
  destruct (v <? Z.of_nat n)%Z eqn:E; [|by split]. bool_to_prop.
  destruct (lookup_lt_is_Some_2 seen (Z.to_nat (v / 64))) as [w Hw].
  { assert (v / 64 < Z.of_nat (length seen))%Z by (apply Z.div_lt_upper_bound; lia).
    pose proof (Z.div_pos v 64 Hv ltac:(lia)). lia. }
  rewrite Hw. cbn [expect obind]. destruct (_ =? 0)%Z; [|by split].
  destruct (IH (<[Z.to_nat (v / 64) := Z.lor w (Z.shiftl 1 (v mod 64))]> seen)) as [H1 H2]; [by rewrite length_insert|].
  split; [done|]. intros seen' H%H2. by rewrite length_insert in H.
Qed.

Lemma mark_terms_no_panic p n indices ls seen :
  Forall2 (fun i l => iter p i = Ok l /\ Forall (fun v => 0 <= v)%Z l) indices ls ->
  n <= length seen * 64 -> no_panic (mark_terms p n indices seen).
Proof.
  intros H2. revert seen. induction H2 as [|i l ids ls [Hi Hl] H2 IH]; intros seen Hs; cbn [mark_terms]; [done|].
  rewrite Hi. cbn [obind]. destruct (mark_total n l seen Hl Hs) as [H1 H3].
  apply obind_no_panic; [done|]. intros seen' Hm. apply IH. by rewrite (H3 _ Hm).
Qed.

Lemma term_positions_iter p freqs ls :
  length ls = length freqs ->
  (forall i l f, ls !! i = Some l -> freqs !! i = Some f -> term_positions p i f l) ->
  Forall2 (fun i l => iter p i = Ok l /\ Forall (fun v => 0 <= v)%Z l) (seq 0 (length freqs)) ls.
Proof.
  intros Hlen Hls. apply Forall2_same_length_lookup_2; [by rewrite length_seq|]. intros i j l Hi Hl.
  apply lookup_seq in Hi as [-> Hi]. destruct (lookup_lt_is_Some_2 freqs i Hi) as [f Hf].
  destruct (Hls i l f Hl Hf) as (?&?&?&?&?). auto.
Qed.

Lemma validate_no_panic p freqs : bytes_ok (p_data p) -> no_panic (validate p freqs).
Proof.
  intros Hd. unfold validate. destruct (_ || _); [|done]. destruct (_ && _) eqn:E; [|done].
  repeat match goal with H : (_ && _) = true |- _ => apply andb_true_iff in H as [??] end. bool_to_prop.
  assert (Ho : offsets_valid p (length freqs)).
  { split_and!; auto; [by rewrite <- offsets_len_iter|by apply ascending_Sorted]. }
  apply obind_no_panic; [by apply (validate_terms_no_panic p (length freqs))|]. intros [n mx] Hv.
  destruct (_ && _); [|done]. apply validate_terms_sound in Hv as (ls & Hlen & Hls & -> & ->); [|done].
  apply obind_no_panic; [|done]. eapply mark_terms_no_panic; [by apply term_positions_iter|].
  rewrite length_replicate. pose proof (div_ceil_mul_ge (0 + length (concat ls)) 64). lia.
Qed.

(** ** Claims *)

Lemma occurrences_filter t k ranks :
  occurrences t k ranks = filter (fun i => ranks !! (i - k) = Some t) (seq k (length ranks)).
Proof.
  revert k. induction ranks as [|r ranks IH]; intros k; cbn [occurrences length seq]; [done|].
  assert (E : filter (fun i => (r :: ranks) !! (i - k) = Some t) (seq (S k) (length ranks)) =
              filter (fun i => ranks !! (i - S k) = Some t) (seq (S k) (length ranks))).
  { apply list_filter_ext. intros i Hi%elem_of_seq.
    replace (i - k) with (S (i - S k)) by lia. done. }
  rewrite filter_cons, Nat.sub_diag, E, <- IH. simpl.
  destruct (Nat.eqb_spec r t); case_decide; simplify_eq; done.
Qed.

Lemma block_filter ranks t : block ranks t = filter (fun i => ranks !! i = Some t) (seq 0 (length ranks)).
Proof.
  unfold block. rewrite occurrences_filter. apply list_filter_ext. intros i _.
  by rewrite Nat.sub_0_r.
Qed.

(** A positional table built from the word ranks of a text decodes, for every term, to
    exactly the ascending word positions at which the term occurs. *)
Theorem positions_of_ranks ranks terms whole_document :
  Forall (fun r => r < terms) ranks -> (Z.of_nat (length ranks) < U32)%Z ->
  (Z.of_nat (length (term_data ranks terms)) < U32)%Z ->
  exists p, from_ranks ranks terms whole_document = Ok p /\
    forall t, t < terms ->
      iter p t = Ok (map Z.of_nat (filter (fun i => ranks !! i = Some t) (seq 0 (length ranks)))).
Proof.
  intros Hr Hn Hlen. destruct (from_ranks_iter ranks terms whole_document Hr Hn Hlen) as (p & Hp & Hi).
  exists p. split; [done|]. intros t Ht. by rewrite Hi, block_filter.
Qed.

Lemma positions_of_ranks_witness :
  exists p, from_ranks [0; 1; 0; 2; 0] 3 false = Ok p /\ iter p 0 = Ok [0; 2; 4]%Z.
Proof.
  destruct (positions_of_ranks [0; 1; 0; 2; 0] 3 false) as (p & Hp & Hi).
  - repeat constructor.
  - reflexivity.
  - reflexivity.
  - exists p. split; [exact Hp|]. exact (Hi 0 ltac:(lia)).
Defined.

(** Validation accepts only tables that are safe to decode unchecked: it never panics,
    and a table it accepts decodes every term to a nonempty, strictly ascending list of at most
    its frequency, the lists together being every word position exactly once. *)
Theorem validate_sound p freqs :
  bytes_ok (p_data p) ->
  no_panic (validate p freqs) /\
  (validate p freqs = Ok tt ->
   exists ls, length ls = length freqs /\
     (forall i l f, ls !! i = Some l -> freqs !! i = Some f ->
        iter p i = Ok l /\ l <> [] /\ StronglySorted Z.lt l /\ (Z.of_nat (length l) <= f)%Z) /\
     concat ls ≡ₚ map Z.of_nat (seq 0 (length (concat ls)))).
Proof.
  intros Hd. split; [by apply validate_no_panic|]. intros H.
  destruct (validate_positions p freqs Hd H) as (ls & Hlen & Hls & Hp). exists ls. split_and!; auto.
  intros i l f Hl Hf. destruct (Hls i l f Hl Hf) as (?&?&?&?&?). auto.
Qed.

Lemma validate_sound_witness :
  exists ls, length ls = 2 /\ concat ls ≡ₚ map Z.of_nat (seq 0 (length (concat ls))).
Proof.
  pose proof (validate_sound {| p_version := 1; p_offsets := Byte [0; 2; 3]%Z; p_data := [0; 2; 1]%Z |} [2; 1]%Z
    ltac:(by_decide)) as [_ H].
  specialize (H ltac:(vm_compute; reflexivity)). destruct H as (ls & Hlen & _ & Hp).
  exists ls. split; [exact Hlen|exact Hp].
Defined.
