(* ===== verification/Terms.v ===== *)
(** * Term tables of stored chunks

    [src/core/documents/packed_terms.rs]: a chunk's terms with their frequencies, in three
    layouts: one concatenated text with offsets ([PackedTerms]), bit-packed ids into a frame's
    shared dictionary ([SharedTerms]), or a tree when neither packs.  The abstract view is an
    ascending association list ([entries]); lookups of every layout are lookups in it. *)

From S2P Require Import Prelude Words BitPack Search Positions.

(** ** Layouts *)

Record SharedDictionary := mkDictionary { d_text : list Z; d_starts : list Z }.

(** [SharedDictionary::new]. *)
Fixpoint dictionary_parts (words : list (list Z)) (text : list Z) (starts : list Z)
    : outcome (list Z * list Z) :=
  match words with
  | [] => Ok (text, starts)
  | word :: rest =>
      if (Z.of_nat (length text) <? U32)%Z
      then dictionary_parts rest (text ++ word) (starts ++ [Z.of_nat (length text)])
      else Panic
  end.

Definition dictionary_new (words : list (list Z)) : outcome SharedDictionary :=
  let* (text, starts) := dictionary_parts words [] [] in
  Ok {| d_text := text; d_starts := starts |}.

Definition d_len (d : SharedDictionary) : nat := length (d_starts d).

(** Entry [index] of a concatenated text: from its start to the next start or the end. *)
Definition text_entry (text : list Z) (starts : list Z) (index : nat) : outcome (list Z) :=
  let e := match starts !! (index + 1) with Some v => Z.to_nat v | None => length text end in
  let* s := expect (starts !! index) in
  str_slice text (Z.to_nat s) e.

Definition d_term (d : SharedDictionary) (index : nat) : outcome (list Z) :=
  text_entry (d_text d) (d_starts d) index.

(** [SharedDictionary::find]. *)
Definition d_find (d : SharedDictionary) (key : list Z) : outcome (option Z) :=
  let* r := search (d_len d) (fun i => let* t := d_term d i in Ok (bcmp t key)) in
  Ok (match r with
      | inl middle => if (Z.of_nat middle <? U32)%Z then Some (Z.of_nat middle) else None
      | inr _ => None
      end).

Inductive SharedFrequencies : Type :=
| FByte (v : list Z)
| FShort (v : list Z)
| FWord (v : list Z).

Definition frequencies_from (values : list Z) : SharedFrequencies :=
  let maximum := list_max values in
  if (maximum <=? 255)%Z then FByte (map (wrap U8) values)
  else if (maximum <=? 65535)%Z then FShort (map (wrap U16) values)
  else FWord values.

Definition frequencies_list (f : SharedFrequencies) : list Z :=
  match f with FByte v | FShort v | FWord v => v end.
Definition f_len (f : SharedFrequencies) : nat := length (frequencies_list f).
Definition f_get (f : SharedFrequencies) (index : nat) : option Z := frequencies_list f !! index.

Record SharedTerms := mkShared {
  s_dictionary : SharedDictionary; s_ids : list Z; s_bits : nat; s_frequencies : SharedFrequencies }.

Definition s_key (t : SharedTerms) (index : nat) : outcome (list Z) :=
  let* id := unpack (s_ids t) index (s_bits t) in d_term (s_dictionary t) (Z.to_nat id).

(** [SharedTerms::index]. *)
Definition s_index (t : SharedTerms) (key : list Z) : outcome (option nat) :=
  let* r := search (f_len (s_frequencies t)) (fun i => let* k := s_key t i in Ok (bcmp k key)) in
  Ok (match r with inl middle => Some middle | inr _ => None end).

Record PackedTerms := mkPacked { k_text : list Z; k_starts : list Z; k_frequencies : list Z }.

Definition k_key (t : PackedTerms) (index : nat) : outcome (list Z) :=
  text_entry (k_text t) (k_starts t) index.

(** [PackedTerms::get]. *)
Definition k_get (t : PackedTerms) (key : list Z) : outcome (option Z) :=
  let* r := search (length (k_frequencies t)) (fun i => let* k := k_key t i in Ok (bcmp k key)) in
  match r with
  | inl middle => let* f := expect (k_frequencies t !! middle) in Ok (Some f)
  | inr _ => Ok None
  end.

(** A [BTreeMap<String, u32>] is its entries in key order. *)
Inductive TermData : Type :=
| Packed (t : PackedTerms)
| Shared (t : SharedTerms)
| Tree (m : list (list Z * Z)).

Record StoredTerms := mkTerms { t_terms : option TermData; t_positions : option Positions }.

Definition terms_default : StoredTerms := {| t_terms := None; t_positions := None |}.

(** ** Operations *)

Definition tree_get (m : list (list Z * Z)) (key : list Z) : option Z :=
  snd <$> (snd <$> list_find (fun e : list Z * Z => e.1 = key) m).

Definition t_len (t : StoredTerms) : nat :=
  match t_terms t with
  | None => 0
  | Some (Packed t) => length (k_frequencies t)
  | Some (Shared t) => f_len (s_frequencies t)
  | Some (Tree m) => length m
  end.

Definition t_get (t : StoredTerms) (key : list Z) : outcome (option Z) :=
  match t_terms t with
  | None => Ok None
  | Some (Packed t) => k_get t key
  | Some (Shared t) =>
      let* i := s_index t key in
      Ok (match i with Some i => f_get (s_frequencies t) i | None => None end)
  | Some (Tree m) => Ok (tree_get m key)
  end.

Definition t_index (t : StoredTerms) (key : list Z) : outcome (option nat) :=
  match t_terms t with
  | None => Ok None
  | Some (Packed t) =>
      let* r := search (length (k_starts t)) (fun i => let* k := k_key t i in Ok (bcmp k key)) in
      Ok (match r with inl middle => Some middle | inr _ => None end)
  | Some (Tree m) => Ok (position_of (map fst m) key)
  | Some (Shared t) => s_index t key
  end.

(** The iterator [TermIter], run to its end. *)
Definition t_entries (t : StoredTerms) : outcome (list (list Z * Z)) :=
  match t_terms t with
  | None => Ok []
  | Some (Tree m) => Ok m
  | Some (Packed t) =>
      omap_list (fun i => let* f := expect (k_frequencies t !! i) in
                          let* k := k_key t i in Ok (k, f)) (seq 0 (length (k_frequencies t)))
  | Some (Shared t) =>
      omap_list (fun i => let* f := expect (f_get (s_frequencies t) i) in
                          let* k := s_key t i in Ok (k, f)) (seq 0 (f_len (s_frequencies t)))
  end.

Definition t_keys (t : StoredTerms) : outcome (list (list Z)) :=
  let* e := t_entries t in Ok (map fst e).

Definition frequency_at (t : StoredTerms) (index : nat) : outcome Z :=
  match t_terms t with
  | None => Panic
  | Some (Packed t) => expect (k_frequencies t !! index)
  | Some (Shared t) => expect (f_get (s_frequencies t) index)
  | Some (Tree m) => expect (snd <$> m !! index)
  end.

(** The bits of the largest id: [32 - leading_zeros]. *)
Definition bit_length (v : Z) : nat := if (v =? 0)%Z then 0 else Z.to_nat (Z.log2 v + 1).

(** [StoredTerms::from_dictionary]. *)
Definition from_dictionary (d : SharedDictionary) (ids frequencies : list Z) : outcome StoredTerms :=
  if Nat.eqb (length ids) (length frequencies) then
    match last ids with
    | None => Ok terms_default
    | Some top =>
        let bits := bit_length top in
        Ok {| t_terms := Some (Shared {| s_dictionary := d; s_ids := pack ids bits; s_bits := bits;
                                         s_frequencies := frequencies_from frequencies |});
              t_positions := None |}
    end
  else Panic.

(** [can_pack]: [size_of::<(String, u32)>() - 2 * size_of::<u32>()] is 24 bytes per entry. *)
Definition can_pack (n bytes : Z) : bool :=
  (bytes <? U32)%Z &&
  match checked_mul USIZE n 24 with Some limit => (bytes <=? limit)%Z | None => false end.

(** [StoredTerms::from_sorted]. *)
Definition from_sorted (l : list (list Z * Z)) : outcome StoredTerms :=
  match l with
  | [] => Ok terms_default
  | _ =>
      let bytes := Z.of_nat (length (concat (map fst l))) in
      if can_pack (Z.of_nat (length l)) bytes then
        let* (text, starts) := dictionary_parts (map fst l) [] [] in
        Ok {| t_terms := Some (Packed {| k_text := text; k_starts := starts; k_frequencies := map snd l |});
              t_positions := None |}
      else Ok {| t_terms := Some (Tree l); t_positions := None |}
  end.

(** ** Texts and their entries *)

Definition starts_of (words : list (list Z)) : list Z :=
  map (fun i => Z.of_nat (length (concat (take i words)))) (seq 0 (length words)).

Lemma concat_take_length {A} (l : list (list A)) i :
  length (concat (take i l)) <= length (concat l).
Proof. rewrite <- (take_drop i l) at 2. rewrite concat_app, length_app. lia. Qed.

Lemma dictionary_parts_spec pre words :
  (Z.of_nat (length (concat (pre ++ words))) < U32)%Z ->
  dictionary_parts words (concat pre) (starts_of pre) =
  Ok (concat (pre ++ words), starts_of (pre ++ words)).
Proof.
  revert pre. induction words as [|w words IH]; intros pre H; cbn [dictionary_parts].
  - by rewrite app_nil_r.
  - rewrite (proj2 (Z.ltb_lt _ _)).
    2: { rewrite concat_app, length_app in H. lia. }
    specialize (IH (pre ++ [w])). rewrite <- app_assoc in IH. simpl in IH. rewrite <- IH by done.
    f_equal.
    + rewrite concat_app. simpl. by rewrite app_nil_r.
    + unfold starts_of. rewrite length_app. simpl. rewrite seq_app, map_app. f_equal.
      * apply map_seq_ext. intros i Hi. by rewrite take_app_le by lia.
      * simpl. by rewrite take_app_length.
Qed.

Lemma dictionary_parts_ok words :
  (Z.of_nat (length (concat words)) < U32)%Z ->
  dictionary_parts words [] [] = Ok (concat words, starts_of words).
Proof. apply (dictionary_parts_spec []). Qed.

Lemma text_entry_spec words i w :
  strings_ok words -> words !! i = Some w -> text_entry (concat words) (starts_of words) i = Ok w.
Proof.
  intros Hu Hi. pose proof (lookup_lt_Some _ _ _ Hi) as Hlt. unfold text_entry, starts_of.
  rewrite !list_lookup_fmap, (lookup_seq_lt 0 _ i) by done. cbn [fmap option_fmap option_map expect obind].
  rewrite Nat2Z.id.
  assert (Hsplit : concat words = concat (take i words) ++ w ++ concat (drop (S i) words)).
  { rewrite <- (take_drop_middle words i w Hi) at 1. by rewrite concat_app. }
  match goal with |- context [str_slice _ _ ?x] => assert (He : x = length (concat (take i words)) + length w) end.
  { destruct (decide (S i < length words)).
    - rewrite lookup_seq_lt by lia. simpl. rewrite Nat2Z.id.
      replace (i + 1) with (S i) by lia. rewrite (take_S_r words i w Hi), concat_app, length_app. simpl.
      by rewrite app_nil_r.
    - rewrite lookup_seq_ge by lia. simpl. rewrite Hsplit, !length_app.
      rewrite drop_ge by lia. simpl. lia. }
  rewrite He. change (0 + i) with i. unfold str_slice. rewrite boundary_texts by done.
  pose proof (boundary_texts words (S i) Hu) as Hb. rewrite (take_S_r words i w Hi), concat_app, length_app in Hb. cbn [concat] in Hb. rewrite app_nil_r in Hb. rewrite Hb. cbn [andb].
  rewrite Hsplit, slice_Ok by (rewrite ?length_app; lia).
  replace (_ + _ - _) with (length w) by lia. by rewrite drop_app_length, take_app_length.
Qed.

Lemma starts_of_length words : length (starts_of words) = length words.
Proof. unfold starts_of. by rewrite length_map, length_seq. Qed.

Lemma frequencies_from_list v : Forall is_u32 v -> frequencies_list (frequencies_from v) = v.
Proof.
  intros Hv. pose proof (offsets_from_iter v Hv) as H. unfold offsets_from in H.
  unfold frequencies_from. by destruct (list_max v <=? 255)%Z, (list_max v <=? 65535)%Z.
Qed.

Lemma bit_length_fits v : (0 <= v)%Z -> fits (bit_length v) v.
Proof.
  intros Hv. unfold fits, bit_length. destruct (v =? 0)%Z eqn:E; bool_to_prop.
  - subst. change (pw 0) with 1%Z. lia.
  - unfold pw. rewrite Z2Nat.id by (pose proof (Z.log2_nonneg v); lia).
    pose proof (Z.log2_spec v ltac:(lia)). rewrite Z.add_1_r. lia.
Qed.

Lemma bit_length_le v n : (0 <= v < pw n)%Z -> bit_length v <= n.
Proof.
  intros Hv. unfold bit_length. destruct (v =? 0)%Z eqn:E; bool_to_prop; [lia|].
  assert (Z.log2 v < Z.of_nat n)%Z by (apply Z.log2_lt_pow2; [lia|apply Hv]). lia.
Qed.

(** ** The abstract table *)

(** [repr t l]: the layout holds the entries [l]. *)
Definition repr (t : option TermData) (l : list (list Z * Z)) : Prop :=
  match t with
  | None => l = []
  | Some (Tree m) => m = l /\ strings_ok (map fst l)
  | Some (Packed t) =>
      strings_ok (map fst l) /\ t = {| k_text := concat (map fst l); k_starts := starts_of (map fst l); k_frequencies := map snd l |}
  | Some (Shared t) =>
      exists words ids,
        s_dictionary t = {| d_text := concat words; d_starts := starts_of words |} /\
        s_bits t <= 64 /\ Forall (fits (s_bits t)) ids /\ s_ids t = pack ids (s_bits t) /\
        frequencies_list (s_frequencies t) = map snd l /\
        Forall2 (fun id (k : list Z) => words !! Z.to_nat id = Some k) ids (map fst l) /\ strings_ok words
  end.

(** The terms of a table are strings. *)
Lemma repr_texts t l : repr t l -> strings_ok (map fst l).
Proof.
  destruct t as [[t|t|m]|]; cbn [repr]; [by intros [? _]| |by intros [_ ?]|intros ->; constructor].
  intros (words & ids & _ & _ & _ & _ & _ & H2 & Hu). apply Forall_lookup. intros i k Hk. destruct (Forall2_lookup_r _ _ _ _ _ H2 Hk) as (id & _ & Hw).
  by eapply Forall_lookup_1 in Hu.
Qed.

Definition entries_ok (l : list (list Z * Z)) : Prop :=
  bsorted (map fst l) /\ Forall is_u32 (map snd l).

Lemma s_key_repr t l i k :
  repr (Some (Shared t)) l -> map fst l !! i = Some k -> s_key t i = Ok k.
Proof.
  intros (words & ids & Hd & Hb & Hf & Hids & _ & H2 & Hu) Hi.
  destruct (Forall2_lookup_r _ _ _ _ _ H2 Hi) as (id & Hid & Hk).
  unfold s_key. rewrite Hids, <- (app_nil_r (pack _ _)).
  rewrite (unpack_pack (s_bits t) ids [] i id) by (auto; constructor). cbn [obind].
  unfold d_term. rewrite Hd. by apply text_entry_spec.
Qed.

Lemma s_len_repr t l : repr (Some (Shared t)) l -> f_len (s_frequencies t) = length l.
Proof. intros (? & ? & _ & _ & _ & _ & H & _). unfold f_len. by rewrite H, length_map. Qed.

Lemma k_key_repr (l : list (list Z * Z)) i k :
  strings_ok (map fst l) -> map fst l !! i = Some k ->
  k_key {| k_text := concat (map fst l); k_starts := starts_of (map fst l); k_frequencies := map snd l |} i = Ok k.
Proof. apply text_entry_spec. Qed.

Lemma tree_get_position l key :
  tree_get l key = position_of (map fst l) key ≫= (fun i => snd <$> l !! i).
Proof.
  unfold tree_get, position_of. induction l as [|[k f] l IH]; simpl; [done|].
  repeat case_decide; simpl; try congruence.
  destruct (list_find (fun e : list Z * Z => e.1 = key) l) as [[i e]|] eqn:E1,
    (list_find (fun k => k = key) (map fst l)) as [[j k']|] eqn:E2; simpl in *; done.
Qed.

(** Any layout's search over its keys is the position in the abstract table. *)
Lemma search_keys (l : list (list Z * Z)) key n cmp :
  bsorted (map fst l) -> n = length l ->
  (forall i k, map fst l !! i = Some k -> cmp i = Ok (bcmp k key)) ->
  exists r, search n cmp = Ok r /\
    (match r with inl i => Some i | inr _ => None end) = position_of (map fst l) key /\
    match r with inl i => is_Some (l !! i) | inr _ => True end.
Proof.
  intros Hs -> Hcmp. rewrite <- (length_map fst l).
  destruct (search_position (map fst l) key cmp Hs Hcmp) as (r & -> & Hr). exists r. split; [done|].
  destruct r as [i|p].
  - destruct Hr as [Hi ->]. split; [done|]. rewrite list_lookup_fmap in Hi. by destruct (l !! i).
  - by destruct Hr as (_ & -> & _).
Qed.

Lemma s_index_repr t l key :
  repr (Some (Shared t)) l -> bsorted (map fst l) -> s_index t key = Ok (position_of (map fst l) key).
Proof.
  intros Hr Hs. unfold s_index.
  destruct (search_keys l key (f_len (s_frequencies t)) (fun i => let* k := s_key t i in Ok (bcmp k key)))
    as (r & -> & Hp & _); [done|by apply s_len_repr| |cbn [obind]; by rewrite Hp].
  intros i k Hk. by rewrite (s_key_repr t l i k).
Qed.

Lemma t_index_repr t l key :
  repr (t_terms t) l -> bsorted (map fst l) -> t_index t key = Ok (position_of (map fst l) key).
Proof.
  destruct t as [[[t|t|m]|] ps]; cbn [t_index t_terms]; intros Hr Hs.
  - destruct Hr as [Hu ->]. cbn [k_starts].
    destruct (search_keys l key (length (starts_of (map fst l)))
      (fun i => let* k := k_key {| k_text := concat (map fst l); k_starts := starts_of (map fst l);
                                   k_frequencies := map snd l |} i in Ok (bcmp k key)))
      as (r & -> & Hp & _); [done|by rewrite starts_of_length, length_map| |cbn [obind]; by rewrite Hp].
    intros i k Hk. by rewrite (k_key_repr l i k).
  - by apply s_index_repr.
  - by destruct Hr as [-> _].
  - by simpl in Hr; subst.
Qed.

Lemma t_get_repr t l key :
  repr (t_terms t) l -> bsorted (map fst l) -> t_get t key = Ok (tree_get l key).
Proof.
  rewrite tree_get_position. destruct t as [[[t|t|m]|] ps]; cbn [t_get t_terms]; intros Hr Hs.
  - destruct Hr as [Hu ->]. unfold k_get. cbn [k_frequencies].
    destruct (search_keys l key (length (map snd l))
      (fun i => let* k := k_key {| k_text := concat (map fst l); k_starts := starts_of (map fst l);
                                   k_frequencies := map snd l |} i in Ok (bcmp k key)))
      as (r & -> & Hp & Hl); [done|by rewrite length_map|intros i k Hk; by rewrite (k_key_repr l i k)|].
    cbn [obind]. rewrite <- Hp. destruct r as [i|p]; [|done].
    destruct Hl as [[k f] Hl]. simpl. rewrite list_lookup_fmap, Hl. done.
  - rewrite (s_index_repr t l key) by done. cbn [obind]. destruct (position_of _ _) as [i|]; [|done].
    simpl. unfold f_get. destruct Hr as (? & ? & _ & _ & _ & _ & -> & _).
    by rewrite list_lookup_fmap.
  - destruct Hr as [-> _]. by rewrite tree_get_position.
  - by simpl in Hr; subst.
Qed.

Lemma omap_list_seq {A} (f : nat -> outcome A) l :
  (forall i a, l !! i = Some a -> f i = Ok a) -> omap_list f (seq 0 (length l)) = Ok l.
Proof.
  intros H. assert (G : forall k m, (forall i a, m !! i = Some a -> f (k + i) = Ok a) ->
    omap_list f (seq k (length m)) = Ok m).
  { intros k m. revert k. induction m as [|a m IH]; intros k Hm; simpl; [done|].
    rewrite <- (Nat.add_0_r k) at 1. rewrite (Hm 0 a) by done. cbn [obind].
    rewrite IH; [done|]. intros i b Hi. replace (S k + i) with (k + S i) by lia. by apply Hm. }
  by apply (G 0).
Qed.

Lemma t_entries_repr t l : repr (t_terms t) l -> t_entries t = Ok l.
Proof.
  destruct t as [[[t|t|m]|] ps]; cbn [t_entries t_terms]; intros Hr.
  - destruct Hr as [Hu ->]. cbn [k_frequencies]. rewrite length_map. apply omap_list_seq.
    intros i [k f] Hi. rewrite list_lookup_fmap, Hi. cbn [fmap option_fmap option_map expect obind].
    rewrite (k_key_repr l i k); [done|done|]. by rewrite list_lookup_fmap, Hi.
  - rewrite (s_len_repr t l Hr). apply omap_list_seq. intros i [k f] Hi.
    rewrite (s_key_repr t l i k); [|done|by rewrite list_lookup_fmap, Hi].
    unfold f_get. destruct Hr as (? & ? & _ & _ & _ & _ & -> & _).
    by rewrite list_lookup_fmap, Hi.
  - by destruct Hr as [-> _].
  - by simpl in Hr; subst.
Qed.

Lemma t_len_repr t l : repr (t_terms t) l -> t_len t = length l.
Proof.
  destruct t as [[[t|t|m]|] ps]; cbn [t_len t_terms]; intros Hr.
  - destruct Hr as [_ ->]. simpl. by rewrite length_map.
  - by apply s_len_repr.
  - by destruct Hr as [-> _].
  - by simpl in Hr; subst.
Qed.

Lemma from_sorted_repr l : strings_ok (map fst l) -> exists t, from_sorted l = Ok t /\ repr (t_terms t) l /\ t_positions t = None.
Proof.
  intros Hu. unfold from_sorted. destruct l as [|e l]; [by exists terms_default|].
  set (l' := e :: l). destruct (can_pack _ _) eqn:E.
  - unfold can_pack in E. apply andb_true_iff in E as [E _]. bool_to_prop.
    rewrite dictionary_parts_ok by done. cbn [obind]. by eexists.
  - by eexists.
Qed.

(** Ids below the dictionary's size, ascending, with their frequencies. *)
Definition ids_ok (words : list (list Z)) (ids : list Z) : Prop :=
  StronglySorted Z.lt ids /\ Forall (fun i => 0 <= i < Z.of_nat (length words))%Z ids.

Lemma ids_ok_sorted words ids :
  bsorted words -> ids_ok words ids -> bsorted (map (fun i => default [] (words !! Z.to_nat i)) ids).
Proof.
  intros Hw [Hs Hb]. induction Hs as [|i ids Hs IH Hi]; [constructor|]. inversion Hb as [|?? Hib Hb']; subst.
  constructor; [by apply IH|]. apply Forall_forall. intros w (j & -> & Hj)%list_elem_of_fmap.
  rewrite Forall_forall in Hi, Hb'. specialize (Hi j Hj). specialize (Hb' j Hj). simpl in *.
  destruct (lookup_lt_is_Some_2 words (Z.to_nat i)) as [a Ha]; [lia|].
  destruct (lookup_lt_is_Some_2 words (Z.to_nat j)) as [b Hb2]; [lia|]. rewrite Ha, Hb2. simpl.
  apply (bsorted_lookup_lt words (Z.to_nat i) (Z.to_nat j)); auto. lia.
Qed.

Lemma last_max ids top v :
  StronglySorted Z.lt ids -> last ids = Some top -> v ∈ ids -> (v <= top)%Z.
Proof.
  intros Hs. revert v. induction Hs as [|x l Hl IH Hx]; intros v Ht Hv; [by apply elem_of_nil in Hv|].
  destruct l as [|y l].
  - simpl in Ht. injection Ht as ->. apply elem_of_cons in Hv as [->|Hv]; [lia|by apply elem_of_nil in Hv].
  - change (last (x :: y :: l)) with (last (y :: l)) in Ht. apply elem_of_cons in Hv as [->|Hv]; [|auto].
    rewrite Forall_forall in Hx. specialize (Hx y ltac:(left)).
    assert (y <= top)%Z by (apply IH; [done|left]). lia.
Qed.

Lemma from_dictionary_repr words ids freqs d :
  d = {| d_text := concat words; d_starts := starts_of words |} ->
  strings_ok words -> ids_ok words ids -> (Z.of_nat (length words) < U32)%Z ->
  length ids = length freqs -> Forall is_u32 freqs ->
  exists t, from_dictionary d ids freqs = Ok t /\ t_positions t = None /\
    repr (t_terms t) (zip (map (fun i => default [] (words !! Z.to_nat i)) ids) freqs).
Proof.
  intros -> Hu [Hs Hids] Hw Hlen Hf. unfold from_dictionary. rewrite Hlen, Nat.eqb_refl.
  destruct (last ids) as [top|] eqn:Ht.
  - eexists. split; [done|]. split; [done|]. cbn [t_terms]. exists words, ids. cbn [s_dictionary s_bits s_ids s_frequencies].
    rewrite Forall_forall in Hids.
    assert (Htop : (0 <= top < Z.of_nat (length words))%Z)
      by (apply Hids; apply last_Some_elem_of in Ht; done).
    assert (Hb : bit_length top <= 32) by (apply bit_length_le; change (pw 32) with U32; lia).
    split_and!; auto; [lia| | |].
    + apply Forall_forall. intros v Hv. pose proof (last_max ids top v Hs Ht Hv). specialize (Hids v Hv).
      pose proof (bit_length_fits top ltac:(lia)). unfold fits in *. lia.
    + rewrite frequencies_from_list by done. rewrite snd_zip; [done|]. rewrite length_map. lia.
    + rewrite fst_zip by (rewrite length_map; lia).
      apply Forall2_fmap_r. apply Forall_Forall2_diag. apply Forall_forall. intros v Hv.
      specialize (Hids v Hv). unfold compose.
      destruct (lookup_lt_is_Some_2 words (Z.to_nat v)) as [w Hw']; [lia|]. by rewrite Hw'.
  - apply last_None in Ht as ->. eexists. split; [done|]. split; [done|]. done.
Qed.

(** ** Claims *)

(** A term table built from ascending entries answers every lookup as the association list
    it was built from, whichever layout [from_sorted] chose: [get] is the frequency of the key,
    [index] its rank, iteration gives back the entries, and no access panics. *)
Theorem from_sorted_lookup l :
  bsorted (map fst l) -> strings_ok (map fst l) ->
  exists t, from_sorted l = Ok t /\ t_entries t = Ok l /\ t_len t = length l /\
    forall key, t_get t key = Ok (tree_get l key) /\ t_index t key = Ok (position_of (map fst l) key).
Proof.
  intros Hs Hu. destruct (from_sorted_repr l Hu) as (t & Ht & Hr & _). exists t.
  split_and!; [done|by apply t_entries_repr|by apply t_len_repr|].
  intros key. split; [by apply t_get_repr|by apply t_index_repr].
Qed.

Lemma from_sorted_lookup_witness :
  exists t, from_sorted [([97], 3); ([98], 1); ([98; 99], 7)]%Z = Ok t /\ t_get t [98]%Z = Ok (Some 1%Z).
Proof.
  destruct (from_sorted_lookup [([97], 3); ([98], 1); ([98; 99], 7)]%Z) as (t & Ht & _ & _ & Hk).
  - repeat constructor.
  - by_decide.
  - exists t. split; [exact Ht|]. destruct (Hk [98]%Z) as [Hg _]. rewrite Hg. reflexivity.
Defined.

(** A table of ascending ids into a shared dictionary, bit-packed at the width of its
    largest id, answers every lookup as the list of (dictionary word, frequency) it stands for. *)
Theorem from_dictionary_lookup words ids freqs :
  bsorted words -> strings_ok words -> ids_ok words ids -> (Z.of_nat (length words) < U32)%Z ->
  length ids = length freqs -> Forall is_u32 freqs ->
  let l := zip (map (fun i => default [] (words !! Z.to_nat i)) ids) freqs in
  exists t, from_dictionary {| d_text := concat words; d_starts := starts_of words |} ids freqs = Ok t /\
    t_entries t = Ok l /\
    forall key, t_get t key = Ok (tree_get l key) /\ t_index t key = Ok (position_of (map fst l) key).
Proof.
  intros Hw Hu Hids Hn Hlen Hf l.
  destruct (from_dictionary_repr words ids freqs _ eq_refl Hu Hids Hn Hlen Hf) as (t & Ht & _ & Hr). fold l in Hr.
  assert (Hs : bsorted (map fst l)) by (unfold l; rewrite fst_zip by (rewrite length_map; lia); by apply ids_ok_sorted).
  exists t. split_and!; [done|by apply t_entries_repr|]. intros key. split; [by apply t_get_repr|by apply t_index_repr].
Qed.

Lemma from_dictionary_lookup_witness :
  exists t, from_dictionary {| d_text := [97; 98; 98; 99]%Z; d_starts := [0; 1; 2]%Z |} [0; 2]%Z [5; 300]%Z = Ok t /\
    t_get t [98; 99]%Z = Ok (Some 300%Z) /\ t_get t [98]%Z = Ok None.
Proof.
  destruct (from_dictionary_lookup [[97]; [98]; [98; 99]]%Z [0; 2]%Z [5; 300]%Z) as (t & Ht & _ & Hk).
  - repeat constructor.
  - by_decide.
  - split; by_decide.
  - reflexivity.
  - reflexivity.
  - by_decide.
  - exists t. split; [exact Ht|]. split.
    + destruct (Hk [98; 99]%Z) as [Hg _]. rewrite Hg. reflexivity.
    + destruct (Hk [98]%Z) as [Hg _]. rewrite Hg. reflexivity.
Defined.
