(* ===== verification/TermDict.v ===== *)
(** * The term dictionary of the postings

    [TermDictionary] of [src/core/documents/postings.rs]: a sorted base (one byte string with
    offsets, list ids with tombstones) and an ordered overlay that is folded into a new base
    when it outgrows its budget.  It refines a finite map from terms to list ids. *)

From S2P Require Import Prelude Search Terms.

Definition NONE : Z := U32 - 1.

(** [td_overlay] is the [BTreeMap] as its ascending entries. *)
Record TermDictionary := mkTermDictionary {
  td_bytes : list Z; td_offsets : list Z; td_base_ids : list Z; td_tombstones : nat;
  td_overlay : list (list Z * Z) }.

Definition td_default : TermDictionary :=
  {| td_bytes := []; td_offsets := []; td_base_ids := []; td_tombstones := 0; td_overlay := [] |}.

(** ** The ordered overlay *)

Fixpoint tree_insert (m : list (list Z * Z)) (key : list Z) (v : Z) : list (list Z * Z) :=
  match m with
  | [] => [(key, v)]
  | (k, w) :: rest =>
      match bcmp key k with
      | Lt => (key, v) :: m
      | Eq => (key, v) :: rest
      | Gt => (k, w) :: tree_insert rest key v
      end
  end.

Definition tree_remove (m : list (list Z * Z)) (key : list Z) : list (list Z * Z) :=
  filter (fun e => e.1 <> key) m.

(** ** Operations *)

Definition base_term (d : TermDictionary) (i : nat) : outcome (list Z) :=
  let* a := expect (td_offsets d !! i) in
  let* b := expect (td_offsets d !! (i + 1)) in
  slice (td_bytes d) (Z.to_nat a) (Z.to_nat b).

Definition base_position (d : TermDictionary) (term : list Z) : outcome (nat + nat) :=
  search (length (td_base_ids d)) (fun i => let* t := base_term d i in Ok (bcmp t term)).

Definition td_get (d : TermDictionary) (term : list Z) : outcome (option Z) :=
  match tree_get (td_overlay d) term with
  | Some id => Ok (Some id)
  | None =>
      let* r := base_position d term in
      match r with
      | inl i => let* id := expect (td_base_ids d !! i) in
          Ok (if (id =? NONE)%Z then None else Some id)
      | inr _ => Ok None
      end
  end.

Definition overlay_budget (d : TermDictionary) : nat := length (td_base_ids d) / 4 + 1024.

(** Entries compared by term. *)
Definition key_lt {A} (a b : list Z * A) : Prop := blt a.1 b.1.
#[global] Instance key_lt_dec {A} : RelDecision (@key_lt A).
Proof. intros a b. unfold key_lt. apply _. Defined.

Definition key_le (a b : list Z * Z) : Prop := bcmp a.1 b.1 <> Gt.
#[global] Instance key_le_dec : RelDecision key_le.
Proof. intros a b. unfold key_le. apply _. Defined.

Definition base : Type := list Z * list Z * list Z.

(** The [push] closure of [merged_base]. *)
Definition push (term : list Z) (id : Z) (b : base) : outcome base :=
  let '(bytes, offsets, ids) := b in
  let bytes := bytes ++ term in
  if (Z.of_nat (length bytes) <? U32)%Z
  then Ok (bytes, offsets ++ [Z.of_nat (length bytes)], ids ++ [id])
  else Panic.

(** The loop of [merged_base]; [extra] is the part from [j] on, and a round drops a base entry
    or an extra one. *)
Fixpoint merged_loop (fuel : nat) (d : TermDictionary) (extra : list (list Z * Z)) (i : nat) (b : base)
    : outcome base :=
  match fuel, td_base_ids d !! i, extra with
  | _, None, [] => Ok b
  | O, _, _ => Panic
  | S fuel, Some id, _ =>
      if (id =? NONE)%Z then merged_loop fuel d extra (i + 1) b
      else
        let* t := base_term d i in
        match extra with
        | e :: rest =>
            match bcmp t e.1 with
            | Lt => let* b := push t id b in merged_loop fuel d extra (i + 1) b
            | _ => let* b := push e.1 e.2 b in merged_loop fuel d rest i b
            end
        | [] => let* b := push t id b in merged_loop fuel d extra (i + 1) b
        end
  | S fuel, None, e :: rest => let* b := push e.1 e.2 b in merged_loop fuel d rest i b
  end.

Definition merged_base (d : TermDictionary) (extra : list (list Z * Z)) : outcome base :=
  if td_tombstones d <=? length (td_base_ids d)
  then merged_loop (length (td_base_ids d) + length extra) d extra 0 ([], [0%Z], [])
  else Panic.

Definition with_base (d : TermDictionary) (extra : list (list Z * Z)) : outcome TermDictionary :=
  let* (bytes, offsets, ids) := merged_base d extra in
  Ok {| td_bytes := bytes; td_offsets := offsets; td_base_ids := ids; td_tombstones := 0; td_overlay := [] |}.

Definition rebuild (d : TermDictionary) : outcome TermDictionary := with_base d (td_overlay d).

Definition set_ids (d : TermDictionary) (ids : list Z) (tombstones : nat) : TermDictionary :=
  {| td_bytes := td_bytes d; td_offsets := td_offsets d; td_base_ids := ids;
     td_tombstones := tombstones; td_overlay := td_overlay d |}.

Definition set_overlay (d : TermDictionary) (m : list (list Z * Z)) : TermDictionary :=
  {| td_bytes := td_bytes d; td_offsets := td_offsets d; td_base_ids := td_base_ids d;
     td_tombstones := td_tombstones d; td_overlay := m |}.

Definition td_insert (d : TermDictionary) (term : list Z) (id : Z) : outcome TermDictionary :=
  let* r := base_position d term in
  match r with
  | inl i =>
      match td_tombstones d with
      | O => Panic
      | S n => Ok (set_ids d (<[i := id]> (td_base_ids d)) n)
      end
  | inr _ =>
      let d := set_overlay d (tree_insert (td_overlay d) term id) in
      if overlay_budget d <? length (td_overlay d) then rebuild d else Ok d
  end.

Fixpoint td_inserts (d : TermDictionary) (terms : list (list Z * Z)) : outcome TermDictionary :=
  match terms with
  | [] => Ok d
  | (term, id) :: rest => let* d := td_insert d term id in td_inserts d rest
  end.

(** The sort is unstable, but the terms are distinct; [list_merge key_lt] is the two-way loop
    that takes the overlay entry when it is smaller. *)
Definition insert_many (d : TermDictionary) (terms : list (list Z * Z)) : outcome TermDictionary :=
  if length (td_overlay d) + length terms <=? overlay_budget d then td_inserts d terms
  else with_base d (list_merge key_lt (td_overlay d) (merge_sort key_le terms)).

Definition td_remove (d : TermDictionary) (term : list Z) : outcome (TermDictionary * option Z) :=
  match tree_get (td_overlay d) term with
  | Some id => Ok (set_overlay d (tree_remove (td_overlay d) term), Some id)
  | None =>
      let* r := base_position d term in
      match r with
      | inr _ => Ok (d, None)
      | inl i =>
          let* id := expect (td_base_ids d !! i) in
          let ids := <[i := NONE]> (td_base_ids d) in
          if (id =? NONE)%Z then Ok (set_ids d ids (td_tombstones d), None)
          else
            let d := set_ids d ids (td_tombstones d + 1) in
            let* d := if length ids / 2 + 1024 <? td_tombstones d then rebuild d else Ok d in
            Ok (d, Some id)
      end
  end.

(** [PostingLists::sorted_terms] reads the same merge without replacing the base. *)
Definition live_terms (d : TermDictionary) : outcome base := merged_base d (td_overlay d).

(** ** The overlay as a map *)

Lemma tree_get_map l key : list_to_map (M := gmap (list Z) Z) l !! key = tree_get l key.
Proof.
  unfold tree_get. induction l as [|[k v] l IH]; simpl; [done|].
  destruct (decide (k = key)) as [->|Hne]; simpl; [by rewrite lookup_insert_eq|].
  rewrite lookup_insert_ne by done. rewrite IH.
  destruct (list_find (fun e => e.1 = key) l) as [[i e]|]; done.
Qed.

Lemma tree_insert_Permutation l key v : (key ∉ map fst l) -> tree_insert l key v ≡ₚ (key, v) :: l.
Proof.
  induction l as [|[k w] l IH]; intros Hk; simpl; [done|].
  destruct (bcmp key k) eqn:E; [|done|].
  - apply bcmp_eq in E. set_solver.
  - rewrite IH by set_solver. apply Permutation_swap.
Qed.

Lemma tree_insert_sorted l key v :
  bsorted (map fst l) -> (key ∉ map fst l) -> bsorted (map fst (tree_insert l key v)).
Proof.
  induction l as [|[k w] l IH]; intros Hs Hk; simpl; [repeat constructor|].
  simpl in Hs. apply bsorted_cons in Hs as [Hf Hs].
  destruct (bcmp key k) eqn:E.
  - apply bcmp_eq in E. set_solver.
  - simpl. apply bsorted_cons. split; [|by apply bsorted_cons].
    constructor; [done|]. eapply Forall_impl; [exact Hf|]. intros x Hx. exact (blt_trans _ _ _ E Hx).
  - simpl. apply bsorted_cons. split; [|apply IH; set_solver].
    apply Forall_forall. intros x Hx. apply list_elem_of_fmap in Hx as ([x' y] & -> & Hx).
    rewrite tree_insert_Permutation in Hx by set_solver.
    apply elem_of_cons in Hx as [[= -> ->]|Hx]; [by apply bcmp_gt|].
    rewrite Forall_forall in Hf. apply Hf. apply list_elem_of_fmap. by exists (x', y).
Qed.

Lemma bsorted_filter (P : list Z * Z -> Prop) `{!forall x, Decision (P x)} l :
  bsorted (map fst l) -> bsorted (map fst (filter P l)).
Proof.
  induction l as [|[k w] l IH]; intros Hs; [done|]. simpl in Hs. apply bsorted_cons in Hs as [Hf Hs].
  rewrite filter_cons. case_decide; [|auto]. simpl. apply bsorted_cons. split; [|auto].
  rewrite Forall_forall in Hf |- *. intros x Hx. apply list_elem_of_fmap in Hx as (e & -> & He).
  apply list_elem_of_filter in He as [_ He]. apply Hf, list_elem_of_fmap. by exists e.
Qed.

(** ** The merge *)

Lemma list_merge_sorted {A} (l r : list (list Z * A)) :
  bsorted (map fst l) -> bsorted (map fst r) -> (forall k, k ∈ map fst l -> k ∉ map fst r) ->
  bsorted (map fst (list_merge key_lt l r)).
Proof.
  revert r. induction l as [|[k v] l IHl]; intros r; [by destruct r|].
  induction r as [|[k' v'] r IHr]; intros Hl Hr Hd; [done|].
  rewrite list_merge_cons. case_decide as E; unfold key_lt in E; simpl in E, Hl, Hr.
  - pose proof Hl as [Hf Hl']%bsorted_cons. simpl. apply bsorted_cons.
    split; [|apply IHl; [done|done|set_solver]].
    apply Forall_forall. intros x [e [-> He]]%list_elem_of_fmap.
    rewrite merge_Permutation in He. apply elem_of_app in He as [He|He].
    + rewrite Forall_forall in Hf. apply Hf, list_elem_of_fmap. by exists e.
    + apply elem_of_cons in He as [->|He]; [done|]. apply bsorted_cons in Hr as [Hf' _].
      rewrite Forall_forall in Hf'. eapply blt_trans; [exact E|]. apply Hf', list_elem_of_fmap. by exists e.
  - pose proof Hr as [Hf Hr']%bsorted_cons. simpl. apply bsorted_cons.
    assert (Hlt : blt k' k).
    { destruct (bcmp k k') eqn:C; [|done|by apply bcmp_gt].
      apply bcmp_eq in C as ->. exfalso. apply (Hd k'); simpl; left. }
    split; [|apply IHr; [done|done|set_solver]].
    apply Forall_forall. intros x [e [-> He]]%list_elem_of_fmap.
    rewrite merge_Permutation in He. apply elem_of_app in He as [He|He].
    + apply elem_of_cons in He as [->|He]; [done|]. apply bsorted_cons in Hl as [Hf' _].
      rewrite Forall_forall in Hf'. eapply blt_trans; [exact Hlt|]. apply Hf', list_elem_of_fmap. by exists e.
    + rewrite Forall_forall in Hf. apply Hf, list_elem_of_fmap. by exists e.
Qed.

(** The base entries that are not tombstones. *)
Definition live (words : list (list Z)) (ids : list Z) : list (list Z * Z) :=
  filter (fun e => e.2 <> NONE) (zip words ids).

(** The encoding of a list of entries as a base. *)
Definition bounds (words : list (list Z)) : list Z :=
  map (fun n => Z.of_nat (length (concat (take n words)))) (seq 0 (length words + 1)).

Definition encode (l : list (list Z * Z)) : base := (concat (map fst l), bounds (map fst l), map snd l).

Definition text_len (l : list (list Z * Z)) : Z := Z.of_nat (length (concat (map fst l))).

Lemma text_len_app l r : text_len (l ++ r) = (text_len l + text_len r)%Z.
Proof. unfold text_len. rewrite map_app, concat_app, length_app. lia. Qed.

Lemma text_len_cons e l : text_len (e :: l) = (Z.of_nat (length e.1) + text_len l)%Z.
Proof. unfold text_len. simpl. rewrite length_app. lia. Qed.

Lemma text_len_nonneg l : (0 <= text_len l)%Z.
Proof. unfold text_len. lia. Qed.

#[global] Instance text_len_proper : Proper ((≡ₚ) ==> (=)) text_len.
Proof. induction 1; rewrite ?text_len_cons in *; lia. Qed.

Lemma bounds_snoc words w :
  bounds (words ++ [w]) = bounds words ++ [Z.of_nat (length (concat words ++ w))].
Proof.
  unfold bounds. rewrite length_app. simpl (length [w]).
  rewrite (seq_app (length words + 1) 1), map_app. f_equal.
  - apply map_ext_in. intros n Hn. apply in_seq in Hn. rewrite take_app_le by lia. done.
  - simpl. rewrite take_ge by (rewrite length_app; simpl; lia). rewrite concat_app. simpl. by rewrite app_nil_r.
Qed.

Lemma push_encode t id l :
  (text_len (l ++ [(t, id)]) < U32)%Z -> push t id (encode l) = Ok (encode (l ++ [(t, id)])).
Proof.
  intros H. unfold push, encode. unfold text_len in H. rewrite !map_app, !concat_app in *. simpl in *.
  rewrite app_nil_r in *. rewrite (proj2 (Z.ltb_lt _ _)) by done. by rewrite bounds_snoc.
Qed.

Definition base_ok (d : TermDictionary) (words : list (list Z)) : Prop :=
  length words = length (td_base_ids d) /\
  forall i w, words !! i = Some w -> base_term d i = Ok w.

Lemma base_term_encode words ids t o i w :
  words !! i = Some w ->
  base_term {| td_bytes := concat words; td_offsets := bounds words; td_base_ids := ids;
               td_tombstones := t; td_overlay := o |} i = Ok w.
Proof.
  intros Hi. pose proof (lookup_lt_Some _ _ _ Hi) as Hlt. unfold base_term, bounds. cbn [td_offsets td_bytes].
  rewrite !list_lookup_fmap, !lookup_seq_lt by lia. cbn [fmap option_fmap option_map expect obind].
  rewrite !Nat2Z.id. rewrite !Nat.add_0_l, Nat.add_1_r, (take_S_r words i w Hi), concat_app. simpl. rewrite app_nil_r.
  assert (Hsplit : concat words = concat (take i words) ++ w ++ concat (drop (S i) words)).
  { rewrite <- (take_drop_middle words i w Hi) at 1. by rewrite concat_app. }
  rewrite Hsplit, slice_Ok by (rewrite ?length_app; lia). rewrite length_app.
  replace (_ + _ - _) with (length w) by lia. by rewrite drop_app_length, take_app_length.
Qed.

Lemma drop_lookup_cons {A} (l : list A) i x : l !! i = Some x -> drop i l = x :: drop (i + 1) l.
Proof. intros H. rewrite Nat.add_1_r. by apply drop_S. Qed.

(** What the merge loop has still to write: the live base from [i] on merged with [extra]. *)
Definition to_merge (d : TermDictionary) (words : list (list Z)) (extra : list (list Z * Z)) (i : nat)
    : list (list Z * Z) := list_merge key_lt (live (drop i words) (drop i (td_base_ids d))) extra.

Lemma to_merge_dead d words extra i :
  base_ok d words -> td_base_ids d !! i = Some NONE -> to_merge d words extra i = to_merge d words extra (i + 1).
Proof.
  intros [Hlen _] Hid. destruct (lookup_lt_is_Some_2 words i) as [w Hw].
  { rewrite Hlen. by eapply lookup_lt_Some. }
  unfold to_merge, live. rewrite (drop_lookup_cons _ _ _ Hw), (drop_lookup_cons _ _ _ Hid). cbn [zip zip_with].
  by rewrite filter_cons_False by (simpl; congruence).
Qed.

Lemma to_merge_live d words extra i id w :
  base_ok d words -> td_base_ids d !! i = Some id -> id <> NONE -> words !! i = Some w ->
  to_merge d words extra i =
    match extra with
    | e :: rest => match bcmp w e.1 with Lt => (w, id) :: to_merge d words extra (i + 1) | _ => e :: to_merge d words rest i end
    | [] => (w, id) :: to_merge d words [] (i + 1)
    end.
Proof.
  intros [Hlen _] Hid Hne Hw. unfold to_merge, live.
  rewrite (drop_lookup_cons _ _ _ Hw), (drop_lookup_cons _ _ _ Hid). cbn [zip zip_with].
  rewrite filter_cons_True by (simpl; congruence).
  destruct extra as [|e rest]; [by rewrite !list_merge_nil_r|].
  rewrite list_merge_cons. case_decide as E; unfold key_lt, blt in E; simpl in E; [by rewrite E|].
  by destruct (bcmp w e.1).
Qed.

Lemma to_merge_end d words extra i :
  base_ok d words -> td_base_ids d !! i = None -> to_merge d words extra i = extra.
Proof.
  intros [Hlen _] Hid. apply lookup_ge_None in Hid. unfold to_merge, live.
  rewrite !drop_ge by lia. by destruct extra.
Qed.

Lemma merged_loop_spec fuel d words extra i done_ :
  base_ok d words -> length (td_base_ids d) - i + length extra <= fuel ->
  (text_len (done_ ++ to_merge d words extra i) < U32)%Z ->
  merged_loop fuel d extra i (encode done_) = Ok (encode (done_ ++ to_merge d words extra i)).
Proof.
  intros Hb. pose proof Hb as [Hlen Hterm]. revert extra i done_.
  assert (Hpush : forall l t id r, (text_len (l ++ (t, id) :: r) < U32)%Z -> push t id (encode l) = Ok (encode (l ++ [(t, id)]))).
  { intros l t id r H. apply push_encode. rewrite cons_middle, app_assoc, text_len_app in H.
    pose proof (text_len_nonneg r). lia. }
  assert (Hgo : forall l (e : list Z * Z) r, l ++ e :: r = (l ++ [e]) ++ r) by (intros; by rewrite <- app_assoc).
  induction fuel as [|fuel IH]; intros extra i done_ Hf Hsz.
  - destruct extra; simpl in Hf; [|lia]. assert (Hid : td_base_ids d !! i = None) by (apply lookup_ge_None; lia).
    rewrite (to_merge_end d words) by done. simpl. rewrite Hid. by rewrite app_nil_r.
  - cbn [merged_loop]. destruct (td_base_ids d !! i) as [id|] eqn:Hid.
    + pose proof (lookup_lt_Some _ _ _ Hid) as Hlt. destruct (id =? NONE)%Z eqn:E; bool_to_prop.
      { subst id. rewrite (to_merge_dead d words) in * by done. apply IH; [lia|done]. }
      destruct (lookup_lt_is_Some_2 words i) as [w Hw]; [lia|]. rewrite (Hterm i w Hw). cbn [obind].
      rewrite (to_merge_live d words extra i id w) in * by done. destruct extra as [|e rest].
      * rewrite (Hpush _ _ _ _ Hsz). cbn [obind]. rewrite (Hgo done_ _ (to_merge _ _ _ _)) in *. apply IH; [simpl; lia|done].
      * destruct e as [k v]. simpl in *. destruct (bcmp w k); rewrite (Hpush _ _ _ _ Hsz); cbn [obind];
          rewrite (Hgo done_ _ (to_merge _ _ _ _)) in *; (apply IH; [simpl; lia|done]).
    + rewrite (to_merge_end d words) in * by done. destruct extra as [|[k v] rest]; [by rewrite app_nil_r|].
      cbn [fst snd]. rewrite (Hpush _ _ _ _ Hsz). cbn [obind]. rewrite (Hgo done_ (k, v) rest) in *.
      rewrite IH; rewrite ?(to_merge_end d words) by done; [done|simpl in Hf; lia|done].
Qed.

(** ** Refinement of a finite map *)

Abbreviation term_map := (gmap (list Z) Z).

Definition text_size (m : term_map) : Z := text_len (map_to_list m).

Record dict_ok_at (d : TermDictionary) (words : list (list Z)) (m : term_map) : Prop := {
  do_base : base_ok d words;
  do_sorted : bsorted words;
  do_tombstones : td_tombstones d = length (filter (fun id => id = NONE) (td_base_ids d));
  do_overlay : bsorted (map fst (td_overlay d));
  do_disjoint : forall k, k ∈ map fst (td_overlay d) -> k ∉ words;
  do_ids : Forall (fun e => e.2 <> NONE) (td_overlay d);
  do_map : m = list_to_map (live words (td_base_ids d) ++ td_overlay d) }.

Definition dict_ok (d : TermDictionary) (m : term_map) : Prop := exists words, dict_ok_at d words m.

Lemma live_keys words ids k : k ∈ map fst (live words ids) -> k ∈ words.
Proof.
  intros [[k' v] [-> [_ He]%list_elem_of_filter]]%list_elem_of_fmap. simpl.
  apply elem_of_zip_l in He. done.
Qed.

Lemma live_sorted words ids : length words = length ids -> bsorted words -> bsorted (map fst (live words ids)).
Proof. intros Hl Hs. apply bsorted_filter. rewrite fst_zip by lia. done. Qed.

Lemma dict_keys d words m :
  dict_ok_at d words m -> NoDup (map fst (live words (td_base_ids d) ++ td_overlay d)).
Proof.
  intros H. destruct (do_base _ _ _ H) as [Hlen _]. rewrite map_app. apply NoDup_app. split_and!.
  - apply bsorted_NoDup, live_sorted; [done|apply (do_sorted _ _ _ H)].
  - intros k Hk1 Hk2. apply (do_disjoint _ _ _ H k Hk2). by eapply live_keys.
  - apply bsorted_NoDup, (do_overlay _ _ _ H).
Qed.

Lemma text_size_list l : NoDup (map fst l) -> text_size (list_to_map l) = text_len l.
Proof. intros Hnd. unfold text_size. by rewrite map_to_list_to_map. Qed.

Lemma live_all words ids :
  length words = length ids -> Forall (fun id => id <> NONE) ids -> live words ids = zip words ids.
Proof.
  unfold live. revert ids. induction words as [|w words IH]; intros [|id ids] Hl Hf; simpl; try done.
  inversion Hf; subst. rewrite filter_cons_True by done. f_equal. apply IH; [simpl in Hl; lia|done].
Qed.

Lemma filter_none {A} (P : A -> Prop) `{!forall x, Decision (P x)} l : Forall (fun x => ~ P x) l -> filter P l = [].
Proof. induction 1 as [|x l Hx Hl IH]; [done|]. by rewrite filter_cons_False. Qed.

Lemma live_ids words ids : Forall (fun e => e.2 <> NONE) (live words ids).
Proof. apply Forall_forall. intros e He. by apply list_elem_of_filter in He as [? _]. Qed.

Lemma merged_base_ok d words m extra :
  dict_ok_at d words m -> (text_len (live words (td_base_ids d) ++ extra) < U32)%Z ->
  merged_base d extra = Ok (encode (list_merge key_lt (live words (td_base_ids d)) extra)).
Proof.
  intros H Hsz. unfold merged_base. rewrite (proj2 (Nat.leb_le _ _)).
  2:{ rewrite (do_tombstones _ _ _ H). apply length_filter. }
  apply (merged_loop_spec _ d words extra 0 []); [apply H|lia|].
  simpl. unfold to_merge. rewrite !drop_0. by rewrite merge_Permutation.
Qed.

(** Folding [extra] into the base keeps the live base and adds [extra]. *)
Lemma with_base_ok d words m extra :
  dict_ok_at d words m -> bsorted (map fst extra) -> Forall (fun e => e.2 <> NONE) extra ->
  (forall k, k ∈ map fst (live words (td_base_ids d)) -> k ∉ map fst extra) ->
  (text_len (live words (td_base_ids d) ++ extra) < U32)%Z ->
  exists d', with_base d extra = Ok d' /\ dict_ok d' (list_to_map (live words (td_base_ids d) ++ extra)).
Proof.
  intros H Hs He Hdis Hsz. pose proof (do_base _ _ _ H) as Hb. pose proof Hb as [Hlen _].
  pose proof (live_sorted words (td_base_ids d) Hlen (do_sorted _ _ _ H)) as Hls.
  pose proof (merged_base_ok d words m extra H Hsz) as Hm. set (L := list_merge key_lt (live words (td_base_ids d)) extra) in *.
  assert (HL : L ≡ₚ live words (td_base_ids d) ++ extra) by apply merge_Permutation.
  assert (HLid : Forall (fun e => e.2 <> NONE) L) by (rewrite HL; apply Forall_app; auto using live_ids).
  unfold with_base. rewrite Hm. cbn [obind encode]. eexists. split; [done|]. exists (map fst L). split; simpl.
  - split; simpl; [by rewrite !length_map|]. intros i w Hw. by apply base_term_encode.
  - by apply list_merge_sorted.
  - rewrite filter_none; [done|]. apply Forall_map. eapply Forall_impl; [exact HLid|]. auto.
  - constructor.
  - intros k Hk. by apply elem_of_nil in Hk.
  - constructor.
  - rewrite app_nil_r, (live_all (map fst L) (map snd L)).
    + transitivity (list_to_map (M := term_map) L); [|f_equal; symmetry; apply zip_fst_snd].
      apply list_to_map_proper; [|by symmetry].
      change (NoDup (map fst (live words (td_base_ids d) ++ extra))).
      rewrite map_app. apply NoDup_app. split_and!; auto using bsorted_NoDup.
    + by rewrite !length_map.
    + apply Forall_map. done.
Qed.

Lemma map_of_perm l r : NoDup (map fst l) -> l ≡ₚ r -> list_to_map (M := term_map) l = list_to_map r.
Proof. intros. by apply list_to_map_proper. Qed.

Lemma keys_perm (l r : list (list Z * Z)) : l ≡ₚ r -> NoDup (map fst l) -> NoDup (map fst r).
Proof. intros H. by rewrite (Permutation_map fst H). Qed.

(** Entry [i] of the base under every id it can have: [R] are the other live entries. *)
Lemma live_update words ids i k :
  words !! i = Some k -> length words = length ids ->
  exists R n, forall x, live words (<[i := x]> ids) ≡ₚ (if decide (x = NONE) then R else (k, x) :: R) /\
    length (filter (fun id => id = NONE) (<[i := x]> ids)) = (if decide (x = NONE) then S n else n).
Proof.
  intros Hk Hlen. pose proof (lookup_lt_Some _ _ _ Hk) as Hlt.
  exists (live (take i words) (take i ids) ++ live (drop (S i) words) (drop (S i) ids)).
  exists (length (filter (fun id => id = NONE) (take i ids ++ drop (S i) ids))). intros x.
  rewrite insert_take_drop by lia. split.
  - unfold live. rewrite <- (take_drop_middle words i k Hk) at 1.
    rewrite zip_with_app by (rewrite !length_take; lia). cbn [zip_with]. rewrite !filter_app.
    case_decide; [by rewrite filter_cons_False by (simpl; naive_solver)|].
    rewrite filter_cons_True by done. by rewrite <- Permutation_middle.
  - rewrite !filter_app, !length_app. case_decide; [rewrite filter_cons_True by done; simpl; lia|].
    rewrite filter_cons_False by done. done.
Qed.

Lemma base_position_ok d words m term :
  dict_ok_at d words m ->
  exists r, base_position d term = Ok r /\
    match r with inl i => words !! i = Some term | inr _ => term ∉ words end.
Proof.
  intros H. pose proof (do_base _ _ _ H) as [Hlen Hterm].
  destruct (search_position words term (fun i => let* t := base_term d i in Ok (bcmp t term)))
    as (r & Hr & Hp); [apply (do_sorted _ _ _ H)|intros i k Hk; by rewrite (Hterm i k Hk)|].
  exists r. unfold base_position. rewrite <- Hlen, Hr. split; [done|].
  destruct r; [by destruct Hp|]. destruct Hp as (_ & Hp & _). by apply position_of_None.
Qed.

Lemma dict_lookup_split d words m k :
  dict_ok_at d words m ->
  m !! k = match tree_get (td_overlay d) k with Some v => Some v | None => tree_get (live words (td_base_ids d)) k end.
Proof.
  intros H. rewrite (do_map _ _ _ H), list_to_map_app, lookup_union, !tree_get_map.
  destruct (tree_get (td_overlay d) k) as [v|] eqn:E; [|by rewrite (right_id_L None (∪))].
  destruct (tree_get (live _ _) k) as [w|] eqn:E'; [|done].
  exfalso. rewrite <- tree_get_map in E, E'. apply elem_of_list_to_map_2 in E, E'.
  apply (do_disjoint _ _ _ H k); [apply list_elem_of_fmap; by exists (k, v)|].
  apply (live_keys _ (td_base_ids d)), list_elem_of_fmap. by exists (k, w).
Qed.

Lemma live_NoDup words ids : NoDup words -> length words <= length ids -> NoDup (map fst (live words ids)).
Proof.
  intros Hnd Hlen. rewrite <- (fst_zip words ids) in Hnd by lia. unfold live. revert Hnd.
  generalize (zip words ids). intros l. induction l as [|e l IH]; simpl; [done|].
  intros [He Hl]%NoDup_cons. rewrite filter_cons. case_decide; [|auto]. simpl. apply NoDup_cons. split; [|auto].
  intros [x [Hx Hin]]%list_elem_of_fmap. apply He. rewrite Hx. apply list_elem_of_fmap. exists x. split; [done|].
  by apply list_elem_of_filter in Hin as [_ ?].
Qed.

Lemma tree_get_live words ids i k id :
  NoDup words -> length words = length ids -> words !! i = Some k -> ids !! i = Some id ->
  tree_get (live words ids) k = if (id =? NONE)%Z then None else Some id.
Proof.
  intros Hnd Hlen Hk Hid. destruct (live_update words ids i k Hk Hlen) as (R & n & HR).
  destruct (HR id) as [Hp _]. rewrite list_insert_id in Hp by done.
  assert (Hl : NoDup (map fst (live words ids))) by (apply live_NoDup; auto with lia).
  rewrite <- tree_get_map, (map_of_perm _ _ Hl Hp). case_decide as E.
  - subst. rewrite Z.eqb_refl. destruct (HR 0%Z) as [Hp' _]. case_decide; [done|].
    apply not_elem_of_list_to_map_1. intros HinR.
    assert (Hl' : NoDup (map fst (live words (<[i := 0%Z]> ids))))
      by (apply live_NoDup; rewrite ?length_insert; auto with lia).
    apply (keys_perm _ _ Hp') in Hl'. simpl in Hl'. by apply NoDup_cons in Hl' as [? _].
  - simpl. rewrite lookup_insert_eq. by rewrite (proj2 (Z.eqb_neq _ _)).
Qed.

Lemma tree_get_live_None words ids k : (k ∉ words) -> tree_get (live words ids) k = None.
Proof.
  intros Hk. rewrite <- tree_get_map. apply not_elem_of_list_to_map_1. intros Hin.
  apply Hk. by eapply live_keys.
Qed.

Lemma td_get_ok d m k : dict_ok d m -> td_get d k = Ok (m !! k).
Proof.
  intros [words H]. unfold td_get. rewrite (dict_lookup_split d words m k H).
  destruct (tree_get (td_overlay d) k) as [v|]; [done|].
  destruct (base_position_ok d words m k H) as (r & -> & Hr). cbn [obind]. destruct r as [i|p].
  - pose proof (do_base _ _ _ H) as [Hlen _].
    destruct (lookup_lt_is_Some_2 (td_base_ids d) i) as [id Hid]; [rewrite <- Hlen; by eapply lookup_lt_Some|].
    rewrite Hid. cbn [expect obind]. f_equal. symmetry.
    eapply tree_get_live; eauto. apply bsorted_NoDup, (do_sorted _ _ _ H).
  - by rewrite tree_get_live_None.
Qed.

Lemma dict_ok_default : dict_ok td_default ∅.
Proof.
  exists []. split; simpl; try constructor; try done. intros k Hk. by apply elem_of_nil in Hk.
Qed.

(** A change of base entry [i] to [id], [k] being its term. *)
Lemma set_ids_ok d words m i k id :
  dict_ok_at d words m -> words !! i = Some k ->
  dict_ok (set_ids d (<[i := id]> (td_base_ids d)) (length (filter (fun x => x = NONE) (<[i := id]> (td_base_ids d)))))
    (if decide (id = NONE) then delete k m else <[k := id]> m).
Proof.
  intros H Hk. pose proof (do_base _ _ _ H) as [Hlen Hterm]. pose proof (lookup_lt_Some _ _ _ Hk) as Hlt.
  destruct (lookup_lt_is_Some_2 (td_base_ids d) i) as [old Hold]; [lia|].
  destruct (live_update words (td_base_ids d) i k Hk Hlen) as (R & n & HR).
  pose proof (HR old) as [Hp _]. rewrite list_insert_id in Hp by done. destruct (HR id) as [Hp' _].
  pose proof (dict_keys _ _ _ H) as Hnd.
  assert (Hko : k ∉ map fst (td_overlay d)).
  { intros Hin. apply (do_disjoint _ _ _ H k Hin). by eapply list_elem_of_lookup_2. }
  assert (HkR : k ∉ map fst R).
  { destruct (HR 0%Z) as [Hp0 _]. case_decide; [done|]. assert (Hl : NoDup (map fst (live words (<[i := 0%Z]> (td_base_ids d))))).
    { apply live_NoDup; [apply bsorted_NoDup, (do_sorted _ _ _ H)|rewrite length_insert; lia]. }
    apply (keys_perm _ _ Hp0) in Hl. simpl in Hl. by apply NoDup_cons in Hl as [? _]. }
  assert (Hm : (if decide (id = NONE) then delete k m else <[k := id]> m) =
    list_to_map (live words (<[i := id]> (td_base_ids d)) ++ td_overlay d)).
  { assert (HR0 : delete k m = list_to_map (R ++ td_overlay d)).
    { rewrite (do_map _ _ _ H), (map_of_perm _ _ Hnd (Permutation_app_tail _ Hp)). destruct (decide (old = NONE)).
      - apply delete_id. apply not_elem_of_list_to_map_1. change (k ∉ map fst (R ++ td_overlay d)). rewrite map_app. set_solver.
      - simpl. rewrite delete_insert_id; [done|]. apply not_elem_of_list_to_map_1.
        change (k ∉ map fst (R ++ td_overlay d)). rewrite map_app. set_solver. }
    assert (Hnd' : NoDup (map fst (live words (<[i := id]> (td_base_ids d)) ++ td_overlay d))).
    { rewrite map_app in Hnd |- *. apply NoDup_app in Hnd as (H1 & _ & H3). apply NoDup_app. split_and!; [| |done].
      - apply live_NoDup; [apply bsorted_NoDup, (do_sorted _ _ _ H)|rewrite length_insert; lia].
      - intros x Hx Hx'. apply (do_disjoint _ _ _ H x Hx'). by eapply live_keys. }
    rewrite (map_of_perm _ _ Hnd' (Permutation_app_tail _ Hp')). destruct (decide (id = NONE)); [done|].
    simpl. rewrite <- HR0. by rewrite insert_delete_eq. }
  exists words. split; simpl; try apply H; [|done|exact Hm].
  split; simpl; [by rewrite length_insert|exact Hterm].
Qed.

(** A change of the overlay that adds entries or drops some. *)
Lemma set_overlay_ok d words m o m' :
  dict_ok_at d words m -> bsorted (map fst o) -> (forall k, k ∈ map fst o -> k ∉ words) ->
  Forall (fun e => e.2 <> NONE) o -> m' = list_to_map (live words (td_base_ids d) ++ o) ->
  dict_ok_at (set_overlay d o) words m'.
Proof. intros H Hs Hd Hi ->. destruct H. by split. Qed.

Lemma rebuild_ok d m :
  dict_ok d m -> (text_size m < U32)%Z -> exists d', rebuild d = Ok d' /\ dict_ok d' m.
Proof.
  intros [words H] Hsz. pose proof (dict_keys _ _ _ H) as Hnd. rewrite (do_map _ _ _ H) in *.
  apply (with_base_ok d words m (td_overlay d)); [exact H|apply H|apply H| |].
  - intros k Hk Hk'. apply (do_disjoint _ _ _ H k Hk'). by eapply live_keys.
  - by rewrite text_size_list in Hsz.
Qed.

(** The live terms in order. *)
Lemma live_terms_ok d m :
  dict_ok d m -> (text_size m < U32)%Z ->
  exists l, live_terms d = Ok (encode l) /\ bsorted (map fst l) /\ m = list_to_map l /\ NoDup (map fst l).
Proof.
  intros [words H] Hsz. pose proof (dict_keys _ _ _ H) as Hnd. rewrite (do_map _ _ _ H) in *. rewrite text_size_list in Hsz by done.
  pose proof (proj1 (do_base _ _ _ H)) as Hlen. pose proof (live_sorted _ _ Hlen (do_sorted _ _ _ H)) as Hls.
  set (L := list_merge key_lt (live words (td_base_ids d)) (td_overlay d)).
  assert (HL : L ≡ₚ live words (td_base_ids d) ++ td_overlay d) by apply merge_Permutation.
  exists L. split_and!; [by eapply merged_base_ok| |by apply map_of_perm; [|symmetry]|by eapply keys_perm; [symmetry|]].
  apply list_merge_sorted; [done|apply H|]. intros k Hk Hk'. apply (do_disjoint _ _ _ H k Hk'). by eapply live_keys.
Qed.

Lemma overlay_keys d words m k : dict_ok_at d words m -> m !! k = None -> (k ∉ map fst (td_overlay d)).
Proof.
  intros H Hk Hin. rewrite (dict_lookup_split _ _ _ _ H) in Hk.
  destruct (tree_get (td_overlay d) k) eqn:E; [done|]. rewrite <- tree_get_map in E.
  by apply not_elem_of_list_to_map_2 in E.
Qed.

Lemma td_insert_ok d m term id :
  dict_ok d m -> m !! term = None -> id <> NONE -> (text_size (<[term := id]> m) < U32)%Z ->
  exists d', td_insert d term id = Ok d' /\ dict_ok d' (<[term := id]> m).
Proof.
  intros [words H] Hm Hid Hsz. unfold td_insert.
  destruct (base_position_ok d words m term H) as (r & -> & Hr). cbn [obind]. destruct r as [i|p].
  - pose proof (set_ids_ok d words m i term id H Hr) as Hset. case_decide; [done|].
    pose proof (do_base _ _ _ H) as [Hlen _].
    destruct (lookup_lt_is_Some_2 (td_base_ids d) i) as [old Hold]; [rewrite <- Hlen; by eapply lookup_lt_Some|].
    destruct (live_update words (td_base_ids d) i term Hr Hlen) as (R & n & HR).
    assert (Ho : old = NONE).
    { rewrite (dict_lookup_split _ _ _ _ H) in Hm. destruct (tree_get (td_overlay d) term); [done|].
      rewrite (tree_get_live words (td_base_ids d) i term old) in Hm; auto;
        [|apply bsorted_NoDup, (do_sorted _ _ _ H)]. by destruct (old =? NONE)%Z eqn:E; bool_to_prop. }
    pose proof (proj2 (HR old)) as Hn. rewrite list_insert_id in Hn by done. rewrite Ho, decide_True in Hn by done.
    pose proof (proj2 (HR id)) as Hn'. rewrite decide_False in Hn' by done.
    rewrite (do_tombstones _ _ _ H), Hn. rewrite Hn' in Hset. eauto.
  - pose proof (overlay_keys _ _ _ _ H Hm) as Hov.
    assert (Hok : dict_ok_at (set_overlay d (tree_insert (td_overlay d) term id)) words (<[term := id]> m)).
    { apply (set_overlay_ok d words m); [done|apply tree_insert_sorted; [apply H|done]| | |].
      - intros k Hk. rewrite (Permutation_map fst (tree_insert_Permutation _ _ _ Hov)) in Hk. simpl in Hk.
        apply elem_of_cons in Hk as [->|Hk]; [done|]. by apply (do_disjoint _ _ _ H).
      - rewrite tree_insert_Permutation by done. constructor; [done|apply H].
      - rewrite (map_of_perm (live words (td_base_ids d) ++ _) ((term, id) :: live words (td_base_ids d) ++ td_overlay d)).
        + simpl. by rewrite <- (do_map _ _ _ H).
        + eapply keys_perm; [rewrite tree_insert_Permutation by done; apply Permutation_middle|].
          simpl. apply NoDup_cons. split; [|apply (dict_keys _ _ _ H)].
          rewrite map_app. intros [Hin|Hin]%elem_of_app; [by apply live_keys in Hin|done].
        + rewrite tree_insert_Permutation by done. by rewrite <- Permutation_middle. }
    case_match; [apply rebuild_ok; [by exists words|done]|]. eexists. split; [done|]. by exists words.
Qed.

Lemma text_size_mono (m m' : term_map) : m ⊆ m' -> (text_size m <= text_size m')%Z.
Proof.
  intros Hm. unfold text_size. destruct (submseteq_Permutation _ _ (map_to_list_submseteq _ _ Hm)) as [k Hk].
  rewrite Hk, text_len_app. pose proof (text_len_nonneg k). lia.
Qed.

#[global] Instance key_le_total : Total key_le.
Proof.
  intros a b. unfold key_le. destruct (bcmp a.1 b.1) eqn:E; [by left|by left|right].
  apply bcmp_gt in E. by rewrite E.
Qed.

#[global] Instance key_le_trans : Transitive key_le.
Proof.
  assert (Hle : forall a b : list Z * Z, key_le a b <-> a.1 = b.1 \/ blt a.1 b.1).
  { intros a b. unfold key_le, blt. rewrite <- bcmp_eq. destruct (bcmp a.1 b.1); naive_solver. }
  intros a b c. rewrite !Hle. intros [->|Hab] [Hbc|Hbc]; [left; congruence|by right|right; by rewrite <- Hbc|].
  right. exact (blt_trans _ _ _ Hab Hbc).
Qed.

Lemma merge_sort_keys l : NoDup (map fst l) -> bsorted (map fst (merge_sort key_le l)).
Proof.
  intros Hnd. pose proof (StronglySorted_merge_sort key_le l) as Hs.
  apply (keys_perm _ (merge_sort key_le l)) in Hnd; [|by rewrite merge_sort_Permutation].
  induction Hs as [|e r Hr IH Hf]; simpl in *; [constructor|]. apply NoDup_cons in Hnd as [He Hnd].
  apply bsorted_cons. split; [|auto]. apply Forall_forall. intros k [x [-> Hx]]%list_elem_of_fmap.
  rewrite Forall_forall in Hf. specialize (Hf x Hx). unfold key_le in Hf. unfold blt.
  destruct (bcmp e.1 x.1) eqn:E; [|done|done]. apply bcmp_eq in E. exfalso. apply He. rewrite E.
  apply list_elem_of_fmap. by exists x.
Qed.

Definition fresh_terms (m : term_map) (terms : list (list Z * Z)) : Prop :=
  NoDup (map fst terms) /\ Forall (fun e => m !! e.1 = None /\ e.2 <> NONE) terms.

Lemma fresh_disjoint m terms : fresh_terms m terms -> (list_to_map terms : term_map) ##ₘ m.
Proof.
  intros [_ Hf]. apply map_disjoint_spec. intros k x y H1 H2. apply elem_of_list_to_map_2 in H1.
  rewrite Forall_forall in Hf. destruct (Hf _ H1). simpl in *. congruence.
Qed.

Lemma td_inserts_ok d m terms :
  dict_ok d m -> fresh_terms m terms -> (text_size (list_to_map terms ∪ m) < U32)%Z ->
  exists d', td_inserts d terms = Ok d' /\ dict_ok d' (list_to_map terms ∪ m).
Proof.
  revert d m. induction terms as [|[t id] terms IH]; intros d m Hd [Hnd Hf] Hsz; simpl.
  - rewrite (left_id_L ∅ (∪)). eauto.
  - simpl in *. apply NoDup_cons in Hnd as [Ht Hnd]. apply Forall_cons in Hf as [[Hm Hid] Hf]. simpl in *.
    assert (Heq : <[t := id]> (list_to_map terms) ∪ m = list_to_map terms ∪ <[t := id]> m).
    { rewrite <- insert_union_l. by rewrite insert_union_r by (by apply not_elem_of_list_to_map_1). }
    rewrite Heq in *.
    assert (Hfr : fresh_terms (<[t := id]> m) terms).
    { split; [done|]. apply Forall_forall. intros e He. rewrite Forall_forall in Hf. destruct (Hf e He). split; [|done].
      rewrite lookup_insert_ne; [done|]. intros ->. apply Ht, list_elem_of_fmap. eauto. }
    destruct (td_insert_ok d m t id) as (d' & -> & Hd'); [done|done|done| |cbn [obind]; by apply IH].
    eapply Z.le_lt_trans; [|exact Hsz]. by apply text_size_mono, map_union_subseteq_r, fresh_disjoint.
Qed.

Lemma insert_many_ok d m terms :
  dict_ok d m -> fresh_terms m terms -> (text_size (list_to_map terms ∪ m) < U32)%Z ->
  exists d', insert_many d terms = Ok d' /\ dict_ok d' (list_to_map terms ∪ m).
Proof.
  intros Hd Hfr Hsz. unfold insert_many. destruct (_ <=? _); [by apply td_inserts_ok|].
  destruct Hd as [words H]. destruct Hfr as [Hnd Hf].
  pose proof (merge_sort_Permutation key_le terms) as Hsort. pose proof (merge_sort_keys terms Hnd) as Hss.
  pose proof (dict_keys _ _ _ H) as Hdk.
  assert (Hnew : forall k, k ∈ map fst terms -> k ∉ map fst (live words (td_base_ids d) ++ td_overlay d)).
  { intros k [e [-> He]]%list_elem_of_fmap Hin. rewrite Forall_forall in Hf. destruct (Hf e He) as [Hn _].
    rewrite (do_map _ _ _ H) in Hn. by apply not_elem_of_list_to_map_2 in Hn. }
  assert (Hp : live words (td_base_ids d) ++ list_merge key_lt (td_overlay d) (merge_sort key_le terms) ≡ₚ
               terms ++ live words (td_base_ids d) ++ td_overlay d).
  { rewrite merge_Permutation, Hsort, app_assoc. apply Permutation_app_comm. }
  assert (Hall : NoDup (map fst (terms ++ live words (td_base_ids d) ++ td_overlay d))).
  { rewrite map_app. apply NoDup_app. auto. }
  assert (Hm' : list_to_map terms ∪ m = list_to_map (live words (td_base_ids d) ++ list_merge key_lt (td_overlay d) (merge_sort key_le terms))).
  { symmetry. rewrite (map_of_perm _ _ (keys_perm _ _ (symmetry Hp) Hall) Hp), list_to_map_app. by rewrite (do_map _ _ _ H). }
  rewrite Hm' in *. apply (with_base_ok d words m); [done| | | |].
  - apply list_merge_sorted; [apply H|done|]. intros k Hk Hk'.
    rewrite (Permutation_map fst Hsort) in Hk'. apply (Hnew k Hk'). rewrite map_app. apply elem_of_app. auto.
  - rewrite merge_Permutation, Hsort. apply Forall_app. split; [apply H|]. eapply Forall_impl; [exact Hf|]. naive_solver.
  - intros k Hk Hk'. rewrite (Permutation_map fst (merge_Permutation _ _ _)), (Permutation_map fst (Permutation_app_head _ Hsort)), map_app in Hk'.
    apply elem_of_app in Hk' as [Hk'|Hk'].
    + apply (do_disjoint _ _ _ H k Hk'). by eapply live_keys.
    + apply (Hnew k Hk'). rewrite map_app. apply elem_of_app. auto.
  - rewrite text_size_list in Hsz; [done|]. exact (keys_perm _ _ (symmetry Hp) Hall).
Qed.

Lemma tree_remove_Permutation l k v :
  NoDup (map fst l) -> (k, v) ∈ l -> l ≡ₚ (k, v) :: tree_remove l k.
Proof.
  unfold tree_remove. induction l as [|[k' v'] l IH]; simpl; intros Hnd Hin; [by apply elem_of_nil in Hin|].
  apply NoDup_cons in Hnd as [Hk Hnd]. destruct (decide (k' = k)) as [->|Hne].
  - rewrite filter_cons_False by (simpl; naive_solver). assert (v' = v) as ->.
    { apply elem_of_cons in Hin as [[= ->]|Hin]; [done|]. exfalso. apply Hk, list_elem_of_fmap. by exists (k, v). }
    constructor. clear IH Hin. induction l as [|[k2 v2] l IH]; [done|]. simpl in Hk. apply NoDup_cons in Hnd as [_ Hnd].
    rewrite filter_cons_True by (simpl; intros ->; apply Hk; left). constructor. apply IH; [|done]. set_solver.
  - rewrite filter_cons_True by done. apply elem_of_cons in Hin as [[= -> ->]|Hin]; [done|].
    rewrite (IH Hnd Hin) at 1. apply Permutation_swap.
Qed.

Lemma td_remove_ok d m term :
  dict_ok d m -> (text_size m < U32)%Z ->
  exists d', td_remove d term = Ok (d', m !! term) /\ dict_ok d' (delete term m).
Proof.
  intros [words H] Hsz. unfold td_remove. pose proof (dict_lookup_split _ _ _ term H) as Hl.
  destruct (tree_get (td_overlay d) term) as [v|] eqn:E.
  - rewrite Hl. eexists. split; [done|]. exists words. apply (set_overlay_ok d words m); [done| | | |].
    + apply bsorted_filter, H.
    + intros k [e [-> [_ He]%list_elem_of_filter]]%list_elem_of_fmap.
      apply (do_disjoint _ _ _ H), list_elem_of_fmap. by exists e.
    + apply Forall_forall. intros e [_ He]%list_elem_of_filter.
      pose proof (do_ids _ _ _ H) as Hi. rewrite Forall_forall in Hi. auto.
    + rewrite <- tree_get_map in E. apply elem_of_list_to_map_2 in E.
      pose proof (tree_remove_Permutation _ _ _ (bsorted_NoDup _ (do_overlay _ _ _ H)) E) as Hp.
      pose proof (dict_keys _ _ _ H) as Hnd.
      assert (Hp2 : live words (td_base_ids d) ++ td_overlay d ≡ₚ (term, v) :: live words (td_base_ids d) ++ tree_remove (td_overlay d) term)
        by (rewrite Hp at 1; by rewrite <- Permutation_middle).
      rewrite (do_map _ _ _ H), (map_of_perm _ _ Hnd Hp2). simpl. apply delete_insert_id.
      apply not_elem_of_list_to_map_1. apply (keys_perm _ _ Hp2) in Hnd. simpl in Hnd. by apply NoDup_cons in Hnd as [? _].
  - destruct (base_position_ok d words m term H) as (r & -> & Hr). cbn [obind]. destruct r as [i|p].
    + pose proof (do_base _ _ _ H) as [Hlen _].
      destruct (lookup_lt_is_Some_2 (td_base_ids d) i) as [id Hid]; [rewrite <- Hlen; by eapply lookup_lt_Some|].
      rewrite Hid. cbn [expect obind].
      rewrite (tree_get_live words (td_base_ids d) i term id) in Hl; auto;
        [|apply bsorted_NoDup, (do_sorted _ _ _ H)].
      destruct (live_update words (td_base_ids d) i term Hr Hlen) as (R & n & HR).
      pose proof (proj2 (HR id)) as Hn. rewrite list_insert_id in Hn by done.
      pose proof (set_ids_ok d words m i term NONE H Hr) as Hset. rewrite decide_True in Hset by done.
      pose proof (proj2 (HR NONE)) as Hn'. rewrite decide_True in Hn' by done. rewrite Hn' in Hset.
      rewrite Hl. rewrite (do_tombstones _ _ _ H), Hn.
      destruct (id =? NONE)%Z eqn:Eid; bool_to_prop.
      * rewrite decide_True by done. eauto.
      * rewrite decide_False by done. rewrite Nat.add_1_r. destruct (_ <? _).
        -- destruct (rebuild_ok _ _ Hset) as (d' & -> & Hd'); [|cbn [obind]; eauto].
           eapply Z.le_lt_trans; [|exact Hsz]. apply text_size_mono, delete_subseteq.
        -- cbn [obind]. eauto.
    + rewrite tree_get_live_None in Hl by done. rewrite Hl, delete_id by done. eexists. split; [done|]. by exists words.
Qed.

(** ** Runs *)

Inductive dict_op : Type :=
| DInsert (term : list Z) (id : Z)
| DInsertMany (terms : list (list Z * Z))
| DRemove (term : list Z)
| DRebuild.

(** An operation of the dictionary and the id it returns. *)
Definition dict_step (d : TermDictionary) (o : dict_op) : outcome (TermDictionary * option Z) :=
  match o with
  | DInsert term id => let* d := td_insert d term id in Ok (d, None)
  | DInsertMany terms => let* d := insert_many d terms in Ok (d, None)
  | DRemove term => td_remove d term
  | DRebuild => let* d := rebuild d in Ok (d, None)
  end.

Definition map_step (m : term_map) (o : dict_op) : term_map * option Z :=
  match o with
  | DInsert term id => (<[term := id]> m, None)
  | DInsertMany terms => (list_to_map terms ∪ m, None)
  | DRemove term => (delete term m, m !! term)
  | DRebuild => (m, None)
  end.

Fixpoint dict_run (d : TermDictionary) (ops : list dict_op) : outcome (TermDictionary * list (option Z)) :=
  match ops with
  | [] => Ok (d, [])
  | o :: rest =>
      let* (d, r) := dict_step d o in
      let* (d, rs) := dict_run d rest in
      Ok (d, r :: rs)
  end.

Fixpoint map_run (m : term_map) (ops : list dict_op) : term_map * list (option Z) :=
  match ops with
  | [] => (m, [])
  | o :: rest =>
      let '(m, r) := map_step m o in
      let '(m, rs) := map_run m rest in
      (m, r :: rs)
  end.

(** What the callers keep to: added terms are absent, ids are not the tombstone, and the live
    terms stay under 4 GiB. *)
Definition op_allowed (m : term_map) (o : dict_op) : Prop :=
  match o with
  | DInsert term id => m !! term = None /\ id <> NONE
  | DInsertMany terms => fresh_terms m terms
  | _ => True
  end /\ (text_size (map_step m o).1 < U32)%Z.

Fixpoint ops_allowed (m : term_map) (ops : list dict_op) : Prop :=
  match ops with
  | [] => True
  | o :: rest => op_allowed m o /\ ops_allowed (map_step m o).1 rest
  end.

Lemma dict_step_ok d m o :
  dict_ok d m -> (text_size m < U32)%Z -> op_allowed m o ->
  exists d', dict_step d o = Ok (d', (map_step m o).2) /\ dict_ok d' (map_step m o).1.
Proof.
  intros Hd Hsz [Ho Hsz']. destruct o as [t id|ts|t|]; simpl in *.
  - destruct Ho. destruct (td_insert_ok d m t id) as (d' & -> & ?); eauto.
  - destruct (insert_many_ok d m ts) as (d' & -> & ?); eauto.
  - by apply td_remove_ok.
  - destruct (rebuild_ok d m) as (d' & -> & ?); eauto.
Qed.

Lemma dict_run_ok d m ops :
  dict_ok d m -> (text_size m < U32)%Z -> ops_allowed m ops ->
  exists d', dict_run d ops = Ok (d', (map_run m ops).2) /\ dict_ok d' (map_run m ops).1.
Proof.
  revert d m. induction ops as [|o ops IH]; intros d m Hd Hsz Hops; simpl; [eauto|].
  destruct Hops as [Ho Hops]. destruct (dict_step_ok d m o Hd Hsz Ho) as (d' & -> & Hd').
  cbn [obind]. destruct Ho as [_ Hsz']. destruct (IH d' _ Hd' Hsz' Hops) as (d2 & -> & Hd2).
  destruct (map_step m o) as [m' r]. simpl in *. destruct (map_run m' ops). simpl in *. eauto.
Qed.

(** C35: the term dictionary is a finite map.  After any sequence of insertions of absent terms,
    one by one or in bulk, removals and rebuilds, it never panics, every removal returns what
    the map holds, and every lookup answers as the map, however the entries are spread over
    base, tombstones and overlay. *)
Theorem dictionary_refines_map ops :
  ops_allowed ∅ ops ->
  exists d, dict_run td_default ops = Ok (d, (map_run ∅ ops).2) /\
    forall term, td_get d term = Ok ((map_run ∅ ops).1 !! term).
Proof.
  intros Hops. destruct (dict_run_ok td_default ∅ ops) as (d & Hrun & Hd); [apply dict_ok_default|done|done|].
  exists d. split; [done|]. intros term. by apply td_get_ok.
Qed.

Definition toy_dict_ops : list dict_op :=
  [DInsert [98] 0; DRebuild; DInsert [97] 1; DRemove [98]; DInsert [98] 2; DRemove [97; 97];
   DInsertMany [([99], 3); ([97; 98], 4)]; DRemove [97]]%Z.

Lemma dictionary_refines_map_witness :
  ops_allowed ∅ toy_dict_ops /\
  exists d, dict_run td_default toy_dict_ops = Ok (d, [None; None; None; Some 0; None; None; None; Some 1]%Z) /\
    td_get d [98]%Z = Ok (Some 2%Z) /\ td_get d [97]%Z = Ok None.
Proof.
  assert (H : ops_allowed ∅ toy_dict_ops).
  { unfold toy_dict_ops. cbn [ops_allowed op_allowed]. repeat split; try by_decide.  }
  split; [exact H|]. destruct (dictionary_refines_map toy_dict_ops H) as (d & Hrun & Hget).
  exists d. rewrite Hrun, !Hget. split; [reflexivity|split; reflexivity].
Defined.
