(* ===== verification/TermsVisitor.v ===== *)
(** * Term tables read from JSON

    The visitor of [StoredTerms]'s [Deserialize] in [src/core/documents/packed_terms.rs]: the
    entries of a JSON map in the order they are read, the reserved key that holds the positions,
    the straight append of an ascending table and the map's insertions of any other.  The
    values are decoded by serde, a parameter. *)

From S2P Require Import Prelude Words Search Positions Terms TermDict.

(** ["$hms_positions"] *)
Definition POSITIONS_KEY : list Z := [36; 104; 109; 115; 95; 112; 111; 115; 105; 116; 105; 111; 110; 115]%Z.

Section Visitor.
(** The values of the map, and serde's decoders of a [u32] and of [Positions]. *)
Context {J : Type} (next_u32 : J -> outcome Z) (next_positions : J -> outcome Positions).

(** The loop over the map's entries. *)
Fixpoint visit_entries (access : list (list Z * J)) (entries : list (list Z * Z)) (ascending : bool)
    (positions : option Positions) : outcome (list (list Z * Z) * bool * option Positions) :=
  match access with
  | [] => Ok (entries, ascending, positions)
  | (key, value) :: access =>
      if bool_decide (key = POSITIONS_KEY) then
        match positions with
        | Some _ => Err "duplicate positional payload"
        | None => let* p := next_positions value in visit_entries access entries ascending (Some p)
        end
      else
        let* frequency := next_u32 value in
        let ascending := ascending && match last entries with None => true | Some e => bool_decide (blt e.1 key) end in
        visit_entries access (entries ++ [(key, frequency)]) ascending positions
  end.

(** [BTreeMap::insert] of every entry in turn. *)
Definition tree_of (entries : list (list Z * Z)) : list (list Z * Z) :=
  foldl (fun m e => tree_insert m e.1 e.2) [] entries.

Definition visit_map (access : list (list Z * J)) : outcome StoredTerms :=
  let* read := visit_entries access [] true None in
  let '(entries, ascending, positions) := read in
  let* table := if ascending : bool then from_sorted entries else from_sorted (tree_of entries) in
  match positions with
  | Some p =>
      let* entries := t_entries table in
      let* _ := validate p (map snd entries) in
      Ok {| t_terms := t_terms table; t_positions := Some p |}
  | None => Ok table
  end.

(** ** The tables are well formed *)

(** Keys are strings, frequencies 32-bit. *)
Definition map_entry_ok (e : list Z * Z) : Prop := utf8_valid e.1 = true /\ is_u32 e.2.

Lemma entry_texts l : Forall map_entry_ok l -> strings_ok (map fst l).
Proof. intros H. apply Forall_fmap. eapply Forall_impl; [exact H|]. by intros e [? _]. Qed.

Lemma entry_u32 l : Forall map_entry_ok l -> Forall is_u32 (map snd l).
Proof. intros H. apply Forall_fmap. eapply Forall_impl; [exact H|]. by intros e [_ ?]. Qed.

Lemma tree_insert_elem l key v e : e ∈ tree_insert l key v -> e = (key, v) \/ e ∈ l.
Proof.
  induction l as [|[k w] l IH]; cbn [tree_insert]; [set_solver|]. destruct (bcmp key k); set_solver.
Qed.

Lemma tree_insert_ascends l key v : bsorted (map fst l) -> bsorted (map fst (tree_insert l key v)).
Proof.
  induction l as [|[k w] l IH]; cbn [tree_insert]; [repeat constructor|].
  cbn [map fst]. rewrite bsorted_cons. intros [Hf Hs]. destruct (bcmp key k) eqn:E; cbn [map fst]; rewrite !bsorted_cons.
  - apply bcmp_eq in E as ->. done.
  - split; [|done]. constructor; [done|]. eapply Forall_impl; [exact Hf|]. intros x. by apply blt_trans.
  - split; [|by apply IH]. apply Forall_forall. intros x ([x' y] & -> & [[= -> ->]|Hx]%tree_insert_elem)%list_elem_of_fmap.
    + by apply bcmp_gt.
    + rewrite Forall_forall in Hf. apply Hf, list_elem_of_fmap. by exists (x', y).
Qed.

Lemma tree_of_ok l : Forall map_entry_ok l -> bsorted (map fst (tree_of l)) /\ Forall map_entry_ok (tree_of l).
Proof.
  intros H. unfold tree_of. assert (Hm : bsorted (map fst (@nil (list Z * Z))) /\ Forall map_entry_ok []) by (split; constructor).
  revert Hm. generalize (@nil (list Z * Z)). induction H as [|e l He _ IH]; intros m [Hs Hf]; cbn [foldl]; [done|].
  apply IH. split; [by apply tree_insert_ascends|]. apply Forall_forall. intros x [->|Hx]%tree_insert_elem; [by destruct e|].
  by eapply Forall_forall in Hf.
Qed.

(** What serde promises of a decoded value: no panic, a [u32] in range, bytes in range. *)
Record json_values : Prop := {
  jv_u32 : forall j, no_panic (next_u32 j);
  jv_range : forall j f, next_u32 j = Ok f -> is_u32 f;
  jv_positions : forall j, no_panic (next_positions j);
  jv_bytes : forall j p, next_positions j = Ok p -> bytes_ok (p_data p) }.
Context (Hj : json_values).

Definition visited (s : list (list Z * Z) * bool * option Positions) : Prop :=
  Forall map_entry_ok s.1.1 /\ (s.1.2 = true -> bsorted (map fst s.1.1)) /\ forall p, s.2 = Some p -> bytes_ok (p_data p).

Lemma ascending_snoc (l : list (list Z * Z)) key f :
  bsorted (map fst l) -> match last l with None => true | Some e => bool_decide (blt e.1 key) end = true ->
  bsorted (map fst (l ++ [(key, f)])).
Proof.
  intros Hs Hl. destruct l as [|e l _] using rev_ind; [repeat constructor|].
  rewrite last_snoc in Hl. apply bool_decide_eq_true in Hl. rewrite map_app. unfold bsorted in *.
  apply StronglySorted_app_2; [|exact Hs|repeat constructor]. intros x y Hx ->%list_elem_of_singleton. cbn [fst].
  rewrite map_app in Hx, Hs. apply elem_of_app in Hx as [Hx| ->%list_elem_of_singleton]; [|done].
  eapply blt_trans; [|exact Hl]. apply StronglySorted_app in Hs as (H & _ & _). apply H; [done|by left].
Qed.

Lemma visit_entries_ok access entries ascending positions :
  strings_ok (map fst access) -> visited (entries, ascending, positions) ->
  no_panic (visit_entries access entries ascending positions) /\
  forall s, visit_entries access entries ascending positions = Ok s -> visited s.
Proof using Hj.
  revert entries ascending positions. induction access as [|[key value] access IH]; intros entries ascending positions Ht Hv; cbn [visit_entries].
  { split; [done|]. by intros s [= <-]. }
  inversion Ht as [|?? Hk Ht']; subst. destruct Hv as (He & Ha & Hp). cbn [fst snd] in *. destruct (bool_decide _).
  - destruct positions; [done|]. pose proof (jv_positions Hj value). destruct (next_positions value) as [p|e|] eqn:Ep; cbn [obind]; [|done|done].
    apply IH; [done|]. split_and!; [done|done|]. intros ? [= <-]. by eapply (jv_bytes Hj).
  - pose proof (jv_u32 Hj value). destruct (next_u32 value) as [f|e|] eqn:Ef; cbn [obind]; [|done|done]. apply IH; [done|].
    split_and!; cbn [fst snd]; [|intros [Hasc Hl]%andb_true_iff; apply ascending_snoc; auto|done].
    apply Forall_app. split; [done|]. repeat constructor; [done|by eapply (jv_range Hj)|by eapply (jv_range Hj)].
Qed.

(** Whatever map is read, the visitor returns a well-formed table whose positions were validated,
    or an error. *)
Lemma visit_map_ok access :
  strings_ok (map fst access) ->
  no_panic (visit_map access) /\
  forall t, visit_map access = Ok t -> exists entries, repr (t_terms t) entries /\ entries_ok entries /\
    forall p, t_positions t = Some p -> validate p (map snd entries) = Ok tt /\ bytes_ok (p_data p).
Proof using Hj.
  intros Ht. unfold visit_map. destruct (visit_entries_ok access [] true None Ht) as [Hp Hok].
  { split_and!; [constructor|constructor|done]. }
  destruct (visit_entries access [] true None) as [[[entries ascending] positions]|e|]; cbn [obind]; [|done|done].
  destruct (Hok _ eq_refl) as (He & Ha & Hb). cbn [fst snd] in *.
  assert (exists l t, (if ascending then from_sorted entries else from_sorted (tree_of entries)) = Ok t /\
    repr (t_terms t) l /\ t_positions t = None /\ entries_ok l) as (l & t & -> & Hr & Hn & Hl).
  { destruct ascending; [exists entries|exists (tree_of entries)].
    - destruct (from_sorted_repr entries (entry_texts _ He)) as (t & ? & ? & ?). exists t. split_and!; [done..|].
      split; [auto|by apply entry_u32].
    - destruct (tree_of_ok entries He) as [Hs Hf]. destruct (from_sorted_repr _ (entry_texts _ Hf)) as (t & ? & ? & ?).
      exists t. split_and!; [done..|]. split; [done|by apply entry_u32]. }
  cbn [obind]. destruct positions as [p|].
  - rewrite (t_entries_repr _ _ Hr). cbn [obind]. pose proof (validate_no_panic p (map snd l) (Hb p eq_refl)).
    destruct (validate p (map snd l)) as [[]|e|] eqn:Ev; cbn [obind]; [|done|done]. split; [done|]. intros t' [= <-].
    exists l. split_and!; [done|done|]. intros ? [= <-]. auto.
  - split; [done|]. intros t' [= <-]. exists l. split_and!; [done|done|]. intros p. by rewrite Hn.
Qed.
End Visitor.
