(* ===== verification/FrameDict.v ===== *)
(** * The term dictionary of a journal frame

    [FrameTerms] and [DecodedTerms] of [src/core/documents/binary.rs]: a frame carries the
    distinct terms of its documents once, sorted and front-coded; every (chunk, term) of the
    documents is then a dictionary id. *)

From S2P Require Import Prelude Words Search Positions Terms.

Definition MAX_RAW_FRAME_SIZE : Z := 50 * 1024 * 1024.

(** ** Writing *)

Record FrameTerms := mkFrameTerms { ft_sorted : list (list Z); ft_ids : list nat }.

(** First-seen order of the terms and the provisional id of every occurrence; the hash map
    of the code maps each term of [order] to its index. *)
Fixpoint provisional_ids (terms : list (list Z)) (order : list (list Z)) (ids : list nat)
    : list (list Z) * list nat :=
  match terms with
  | [] => (order, ids)
  | term :: rest =>
      match position_of order term with
      | Some id => provisional_ids rest order (ids ++ [id])
      | None => provisional_ids rest (order ++ [term]) (ids ++ [length order])
      end
  end.

Definition term_at (order : list (list Z)) (i : nat) : list Z := default [] (order !! i).

Definition term_le (order : list (list Z)) (a b : nat) : Prop :=
  bcmp (term_at order a) (term_at order b) <> Gt.
#[global] Instance term_le_dec order : RelDecision (term_le order).
Proof. intros a b. unfold term_le. apply _. Defined.

(** [rank[id] = position] for every position of [by_term]. *)
Fixpoint set_ranks (by_term : list nat) (position : nat) (rank : list nat) : list nat :=
  match by_term with
  | [] => rank
  | id :: rest => set_ranks rest (position + 1) (<[id := position]> rank)
  end.

(** [FrameTerms::new] over the (chunk, term) keys of the documents, in order. *)
Definition frame_terms_new (keys : list (list Z)) : FrameTerms :=
  let '(order, ids) := provisional_ids keys [] [] in
  let by_term := merge_sort (term_le order) (seq 0 (length order)) in
  let rank := set_ranks by_term 0 (replicate (length order) 0) in
  {| ft_sorted := map (term_at order) by_term;
     ft_ids := map (fun id => default 0 (rank !! id)) ids |}.

Fixpoint common_prefix (a b : list Z) : nat :=
  match a, b with
  | x :: a, y :: b => if (x =? y)%Z then S (common_prefix a b) else 0
  | _, _ => 0
  end.

Fixpoint write_terms (previous : list Z) (sorted : list (list Z)) : list Z :=
  match sorted with
  | [] => []
  | term :: rest =>
      let shared := common_prefix previous term in
      put_varint (Z.of_nat shared) ++ put_bytes (drop shared term) ++ write_terms term rest
  end.

(** [FrameTerms::write]. *)
Definition frame_terms_write (sorted : list (list Z)) : list Z :=
  put_varint (Z.of_nat (length sorted)) ++ write_terms [] sorted.

(** ** Reading *)

(** One entry of the loop of [DecodedTerms::read]; [bytes] are the terms decoded so far and
    [offsets] their boundaries. *)
Definition read_term (bytes : list Z) (offsets : list nat) : read (list Z * list nat) :=
  previous_start <- rlift (expect (offsets !! (length offsets - 2))) ;
  let previous_len := length bytes - previous_start in
  shared <- number USIZE ;
  check ((shared <=? Z.of_nat previous_len)%Z && ((1 <? length offsets) || (shared =? 0)%Z))
    else "binary journal term prefix exceeds the previous term" ;
  suffix <- rbytes ;
  check (Z.of_nat (length bytes) + shared + Z.of_nat (length suffix) <=? MAX_RAW_FRAME_SIZE)%Z
    else "binary journal term dictionary exceeds the frame size limit" ;
  let start := length bytes in
  repeated <- rlift (slice bytes previous_start (previous_start + Z.to_nat shared)) ;
  let bytes := bytes ++ repeated ++ suffix in
  term <- rlift (slice bytes start (length bytes)) ;
  check (utf8_valid term) else "binary journal term is not UTF-8" ;
  previous <- rlift (slice bytes previous_start start) ;
  check (Nat.eqb (length offsets) 1 || bool_decide (blt previous term))
    else "binary journal terms are not strictly ascending" ;
  rret (bytes, offsets ++ [length bytes]).

Fixpoint read_terms (n : nat) (bytes : list Z) (offsets : list nat) : read (list Z * list nat) :=
  match n with
  | O => rret (bytes, offsets)
  | S n => '(bytes, offsets) <- read_term bytes offsets ; read_terms n bytes offsets
  end.

(** [DecodedTerms::read]. *)
Definition decoded_terms_read : read SharedDictionary :=
  n <- count 2 ;
  '(bytes, offsets) <- read_terms n [] [0] ;
  check (utf8_valid bytes) else "binary dictionary is not UTF-8" ;
  starts <- rlift (slice offsets 0 n) ;
  check (forallb (fun v => Z.of_nat v <? U32)%Z starts) else "dictionary exceeds u32" ;
  rret {| d_text := bytes; d_starts := map Z.of_nat starts |}.

(** ** The dictionary is the sorted set of terms *)

Lemma provisional_ids_spec keys order ids order' ids' done :
  NoDup order -> Forall2 (fun id k => order !! id = Some k) ids done ->
  provisional_ids keys order ids = (order', ids') ->
  NoDup order' /\ Forall2 (fun id k => order' !! id = Some k) ids' (done ++ keys) /\
  (forall k, k ∈ order' -> k ∈ order \/ k ∈ keys).
Proof.
  revert order ids done. induction keys as [|k keys IH]; intros order ids done_ Hnd H2 H; simpl in H.
  - injection H as <- <-. rewrite app_nil_r. split_and!; auto.
  - destruct (position_of order k) as [i|] eqn:E.
    + apply position_of_Some in E; [|done].
      destruct (IH order (ids ++ [i]) (done_ ++ [k])) as (H1 & H3 & H4); auto.
      { apply Forall2_app; [done|]. by constructor. }
      rewrite <- app_assoc in H3. split_and!; auto. intros x Hx. destruct (H4 x Hx); [auto|]. right. by right.
    + apply position_of_None in E.
      destruct (IH (order ++ [k]) (ids ++ [length order]) (done_ ++ [k])) as (H1 & H3 & H4); auto.
      * apply NoDup_app. split_and!; auto using NoDup_singleton.
        intros x Hx Hx'. apply list_elem_of_singleton in Hx' as ->. done.
      * apply Forall2_app.
        -- eapply Forall2_impl; [exact H2|]. intros id x Hx. by apply lookup_app_l_Some.
        -- constructor; [|constructor]. by rewrite lookup_app_r, Nat.sub_diag by lia.
      * rewrite <- app_assoc in H3. split_and!; auto. intros x Hx. destruct (H4 x Hx) as [Hx'|]; [|right; by right].
        apply elem_of_app in Hx' as [|Hx']; [auto|]. apply list_elem_of_singleton in Hx' as ->. right. left.
Qed.

#[global] Instance term_le_trans order : Transitive (term_le order).
Proof.
  unfold term_le. intros a b c. set (x := term_at order a). set (y := term_at order b).
  set (z := term_at order c). intros H1 H2 H3. apply bcmp_gt in H3.
  destruct (bcmp x y) eqn:E1; [|..]; try done.
  - apply bcmp_eq in E1. rewrite E1 in H3. by apply H2, bcmp_gt.
  - apply H2, bcmp_gt. exact (blt_trans _ _ _ H3 E1).
Qed.

#[global] Instance term_le_total order : Total (term_le order).
Proof.
  intros a b. unfold term_le. destruct (bcmp (term_at order a) (term_at order b)) eqn:E; [by left|by left|].
  right. intros H. apply bcmp_gt in H. congruence.
Qed.

Lemma sorted_terms_bsorted order by_term :
  NoDup order -> Forall (fun i => i < length order) by_term -> NoDup by_term -> StronglySorted (term_le order) by_term ->
  bsorted (map (term_at order) by_term).
Proof.
  intros Hnd Hin Hnb Hs.
  induction Hs as [|i l Hl IH Hi]; simpl; [constructor|].
  inversion Hin as [|?? Hil Hin']; subst. inversion Hnb as [|?? Hni Hnb']; subst.
  constructor; [by apply IH|]. apply Forall_forall. intros x (j & -> & Hj)%list_elem_of_fmap.
  rewrite Forall_forall in *. specialize (Hi j Hj). specialize (Hin' j Hj). simpl in *.
  unfold term_le in Hi. unfold blt. destruct (bcmp _ _) eqn:E; [|done|done].
  apply bcmp_eq in E. exfalso. apply Hni. unfold term_at in E.
  destruct (lookup_lt_is_Some_2 order i Hil) as [a Ha], (lookup_lt_is_Some_2 order j Hin') as [b Hb].
  rewrite Ha, Hb in E. simpl in E. subst b. by rewrite (NoDup_lookup order i j a Hnd Ha Hb).
Qed.

Lemma set_ranks_lookup by_term position rank i j :
  NoDup by_term -> by_term !! j = Some i -> i < length rank ->
  set_ranks by_term position rank !! i = Some (position + j).
Proof.
  revert position rank j. induction by_term as [|x l IH]; intros position rank j Hnd Hj Hi; [done|].
  inversion Hnd as [|?? Hx Hnd']; subst. destruct j as [|j]; simpl in *.
  - injection Hj as ->. rewrite Nat.add_0_r. clear IH.
    assert (G : forall l p r, i ∉ l -> set_ranks l p r !! i = r !! i).
    { intros m. induction m as [|y m IHm]; intros p r Hn; simpl; [done|].
      rewrite IHm by set_solver. apply list_lookup_insert_ne. set_solver. }
    rewrite G by done. by apply list_lookup_insert_eq.
  - rewrite (IH _ _ j) by (auto; by rewrite length_insert). f_equal. lia.
Qed.

(** The dictionary is strictly ascending, holds only terms of the documents, and the id of
    every (chunk, term) finds its term. *)
Lemma frame_terms_new_spec keys :
  let ft := frame_terms_new keys in
  bsorted (ft_sorted ft) /\ (forall k, k ∈ ft_sorted ft -> k ∈ keys) /\
  Forall2 (fun id k => ft_sorted ft !! id = Some k) (ft_ids ft) keys.
Proof.
  unfold frame_terms_new. destruct (provisional_ids keys [] []) as [order ids] eqn:E.
  destruct (provisional_ids_spec keys [] [] order ids []) as (Hnd & H2 & Hin);
    [constructor|constructor|done|]. simpl in H2. cbv zeta. cbn [ft_sorted ft_ids].
  set (by_term := merge_sort (term_le order) (seq 0 (length order))).
  assert (Hp : by_term ≡ₚ seq 0 (length order)) by apply merge_sort_Permutation.
  assert (Hs : StronglySorted (term_le order) by_term) by (apply StronglySorted_merge_sort; apply _).
  assert (Hnb : NoDup by_term) by (rewrite Hp; apply NoDup_seq).
  split_and!.
  - apply sorted_terms_bsorted; [done| |done|done]. rewrite Hp. apply Forall_forall. intros i Hi%elem_of_seq. lia.
  - intros k (i & -> & Hi)%list_elem_of_fmap. rewrite Hp in Hi. apply elem_of_seq in Hi.
    unfold term_at. destruct (lookup_lt_is_Some_2 order i ltac:(lia)) as [k Hk]. rewrite Hk. simpl.
    destruct (Hin k) as [H|H]; [by eapply list_elem_of_lookup_2| |done]. by apply elem_of_nil in H.
  - apply Forall2_fmap_l. eapply Forall2_impl; [exact H2|]. intros id k Hid. unfold compose; simpl.
    pose proof (lookup_lt_Some _ _ _ Hid) as Hlt.
    assert (Hm : id ∈ by_term) by (rewrite Hp; apply elem_of_seq; lia).
    apply list_elem_of_lookup in Hm as [j Hj].
    rewrite (set_ranks_lookup by_term 0 _ id j) by (auto; by rewrite length_replicate). simpl.
    rewrite list_lookup_fmap, Hj. simpl. unfold term_at. by rewrite Hid.
Qed.

(** ** Reading what was written *)

Definition offsets_of (words : list (list Z)) : list nat :=
  map (fun i => length (concat (take i words))) (seq 0 (S (length words))).

Definition previous_word (pre : list (list Z)) : list Z := default [] (last pre).

Lemma offsets_of_snoc pre w :
  offsets_of (pre ++ [w]) = offsets_of pre ++ [length (concat (pre ++ [w]))].
Proof.
  unfold offsets_of. rewrite length_app. simpl length. rewrite Nat.add_1_r.
  rewrite (seq_S (S (length pre))), map_app. f_equal.
  - apply map_seq_ext. intros i Hi. by rewrite take_app_le by lia.
  - cbn [map]. do 2 f_equal. rewrite Nat.add_0_l, take_ge; [done|]. rewrite length_app. simpl. lia.
Qed.

Lemma offsets_of_length words : length (offsets_of words) = S (length words).
Proof. unfold offsets_of. by rewrite length_map, length_seq. Qed.

Lemma offsets_of_starts words : map Z.of_nat (take (length words) (offsets_of words)) = starts_of words.
Proof.
  unfold offsets_of, starts_of. rewrite seq_S, map_app, take_app_le by (rewrite length_map, length_seq; lia).
  rewrite take_ge by (rewrite length_map, length_seq; lia). by rewrite map_map.
Qed.

(** Where the previous word starts, and that it is the previous word. *)
Lemma offsets_previous pre :
  exists s, offsets_of pre !! (length (offsets_of pre) - 2) = Some s /\
    s <= length (concat pre) /\ drop s (concat pre) = previous_word pre.
Proof.
  destruct pre as [|w pre _] using rev_ind; [by exists 0|].
  exists (length (concat pre)). rewrite offsets_of_snoc, length_app, offsets_of_length. simpl length.
  replace (S (length pre) + 1 - 2) with (length pre) by lia. split_and!.
  - rewrite lookup_app_l by (rewrite offsets_of_length; lia).
    destruct pre as [|x pre _] using rev_ind; [done|].
    rewrite offsets_of_snoc, lookup_app_r; rewrite offsets_of_length, length_app; simpl; [|lia].
    by replace (length pre + 1 - S (length pre)) with 0 by lia.
  - rewrite concat_app, length_app. lia.
  - rewrite concat_app, drop_app_length. unfold previous_word. rewrite last_snoc. simpl. by rewrite app_nil_r.
Qed.

Lemma common_prefix_take a b :
  common_prefix a b <= length a /\ common_prefix a b <= length b /\
  take (common_prefix a b) a = take (common_prefix a b) b.
Proof.
  revert b. induction a as [|x a IH]; intros [|y b]; simpl; try (split_and!; [lia|lia|done]).
  destruct (x =? y)%Z eqn:E; bool_to_prop; simpl; [|split_and!; [lia|lia|done]].
  destruct (IH b) as (?&?&?). split_and!; [lia|lia|]. by f_equal.
Qed.

Lemma concat_snoc {A} (pre : list (list A)) w : concat (pre ++ [w]) = concat pre ++ w.
Proof. rewrite concat_app. simpl. by rewrite app_nil_r. Qed.

Lemma slice_last_word (pre : list (list Z)) w :
  slice (concat (pre ++ [w])) (length (concat pre)) (length (concat (pre ++ [w]))) = Ok w.
Proof.
  rewrite concat_snoc, slice_Ok by (rewrite length_app; lia).
  rewrite drop_app_length, length_app. by rewrite take_ge by lia.
Qed.

Lemma slice_previous_word pre w s :
  s <= length (concat pre) -> drop s (concat pre) = previous_word pre ->
  slice (concat (pre ++ [w])) s (length (concat pre)) = Ok (previous_word pre).
Proof.
  intros Hs Hd. rewrite concat_snoc, slice_Ok by (rewrite ?length_app; lia).
  rewrite drop_app_le by lia. rewrite <- Hd, take_app_le, take_ge by (rewrite length_drop; lia). done.
Qed.

Lemma read_term_parses pre w :
  (Z.of_nat (length (concat (pre ++ [w]))) <= MAX_RAW_FRAME_SIZE)%Z -> utf8_valid w = true ->
  (pre = [] \/ blt (previous_word pre) w) ->
  let shared := common_prefix (previous_word pre) w in
  parses (read_term (concat pre) (offsets_of pre))
    (put_varint (Z.of_nat shared) ++ put_bytes (drop shared w))
    (concat (pre ++ [w]), offsets_of (pre ++ [w])).
Proof.
  intros Hm Hu Hlt shared. destruct (common_prefix_take (previous_word pre) w) as (Hsp & Hsw & Htake).
  fold shared in Hsp, Hsw, Htake. destruct (offsets_previous pre) as (s & Hs & Hsl & Hd).
  assert (Hc : concat (pre ++ [w]) = concat pre ++ w) by (rewrite concat_app; simpl; by rewrite app_nil_r).
  rewrite Hc, length_app in Hm. assert (Hmax : (MAX_RAW_FRAME_SIZE < USIZE)%Z) by reflexivity.
  assert (Hpl : length (previous_word pre) = length (concat pre) - s) by (rewrite <- Hd, length_drop; done).
  unfold read_term. rewrite Hs. cbn [expect].
  change (put_varint (Z.of_nat shared)) with ([] ++ put_varint (Z.of_nat shared)). rewrite <- app_assoc.
  eapply rbind_parses; [by apply rlift_parses|]. cbv zeta.
  eapply rbind_parses; [apply number_parses; [unfold is_u64, U64; unfold USIZE in *; lia|unfold USIZE in *; lia]|].
  apply parses_guard.
  { apply andb_true_iff. split; [apply Z.leb_le; lia|]. rewrite offsets_of_length.
    destruct pre as [|x pre]; [|done]. apply orb_true_iff. right. apply Z.eqb_eq. unfold shared. done. }
  eapply rbind_parses_end; [apply rbytes_parses; rewrite length_drop; lia|].
  apply parses_guard; [apply Z.leb_le; rewrite length_drop; lia|]. rewrite Nat2Z.id.
  rewrite slice_Ok by lia. replace (s + shared - s) with shared by lia. rewrite Hd, Htake.
  eapply rbind_parses_end; [by apply rlift_parses|]. cbv beta zeta. rewrite take_drop, <- Hc.
  rewrite slice_last_word. eapply rbind_parses_end; [by apply rlift_parses|]. apply parses_guard; [done|].
  rewrite slice_previous_word by done. eapply rbind_parses_end; [by apply rlift_parses|]. apply parses_guard.
  { apply orb_true_iff. rewrite offsets_of_length. destruct Hlt as [->|Hlt]; [by left|].
    right. by apply bool_decide_eq_true. }
  rewrite offsets_of_snoc. apply rret_parses.
Qed.

Lemma write_terms_nonempty previous l : 2 * length l <= length (write_terms previous l).
Proof.
  revert previous. induction l as [|w l IH]; intros previous; simpl; [lia|]. rewrite !length_app.
  specialize (IH w). pose proof (put_varint_nonempty (Z.of_nat (common_prefix previous w))).
  pose proof (put_bytes_nonempty (drop (common_prefix previous w) w)). lia.
Qed.

Lemma read_terms_parses pre l :
  (Z.of_nat (length (concat (pre ++ l))) <= MAX_RAW_FRAME_SIZE)%Z ->
  Forall (fun w => utf8_valid w = true) l -> bsorted (pre ++ l) ->
  parses (read_terms (length l) (concat pre) (offsets_of pre)) (write_terms (previous_word pre) l)
    (concat (pre ++ l), offsets_of (pre ++ l)).
Proof.
  revert pre. induction l as [|w l IH]; intros pre Hm Hu Hs; cbn [length read_terms write_terms].
  - rewrite !app_nil_r. apply rret_parses.
  - inversion Hu as [|?? Hw Hu']; subst.
    assert (E : pre ++ w :: l = (pre ++ [w]) ++ l) by (by rewrite <- app_assoc). rewrite E in *.
    rewrite (app_assoc (put_varint _)). eapply rbind_parses.
    + apply read_term_parses; [|done|].
      * rewrite concat_app, length_app in Hm. lia.
      * destruct pre as [|x pre _] using rev_ind; [by left|]. right.
        unfold previous_word. rewrite last_snoc. simpl.
        apply (bsorted_lookup_lt _ (length pre) (S (length pre)) x w Hs); [lia|..].
        -- rewrite <- !app_assoc, lookup_app_r, Nat.sub_diag by lia. done.
        -- rewrite <- !app_assoc, lookup_app_r by lia. by replace (S (length pre) - length pre) with 1 by lia.
    + cbv beta iota. specialize (IH (pre ++ [w])). unfold previous_word in IH at 1. rewrite last_snoc in IH.
      by apply IH.
Qed.

Definition words_ok (words : list (list Z)) : Prop :=
  bsorted words /\ Forall (fun w => utf8_valid w = true) words /\
  (Z.of_nat (length (concat words)) <= MAX_RAW_FRAME_SIZE)%Z.

(** Distinct ascending words: only the first can be empty, so the count is bounded too. *)
Lemma bsorted_count words : bsorted words -> length words <= length (concat words) + 1.
Proof.
  intros Hs. destruct Hs as [|w l Hl Hw]; simpl; [lia|]. rewrite length_app.
  assert (length l <= length (concat l)); [|lia]. clear Hl. induction Hw as [|x l Hx _ IH]; simpl; [lia|].
  rewrite length_app. destruct x; simpl; [|lia]. exfalso. unfold blt in Hx. by destruct w.
Qed.

Lemma words_ok_count words : words_ok words -> (Z.of_nat (length words) < U32)%Z.
Proof.
  intros (Hs & _ & Hm). pose proof (bsorted_count words Hs). unfold MAX_RAW_FRAME_SIZE, U32 in *. lia.
Qed.

(** Reading a written dictionary gives the dictionary of the same terms. *)
Lemma decoded_terms_parses words :
  words_ok words ->
  parses decoded_terms_read (frame_terms_write words)
    {| d_text := concat words; d_starts := starts_of words |}.
Proof.
  intros Hok. pose proof (words_ok_count words Hok) as Hn. destruct Hok as (Hs & Hu & Hm). unfold decoded_terms_read, frame_terms_write.
  apply rbind_count_parses; [unfold U32, USIZE in *; lia|pose proof (write_terms_nonempty [] words); simpl; lia|].
  eapply rbind_parses_end; [exact (read_terms_parses [] words Hm Hu Hs)|]. cbn [app].
  apply parses_guard; [by apply utf8_valid_concat|].
  rewrite slice_Ok, Nat.sub_0_r, drop_0 by (rewrite ?offsets_of_length; lia).
  eapply rbind_parses_end; [by apply rlift_parses|]. apply parses_guard.
  { apply forallb_forall. intros v Hv%list_elem_of_In%list_elem_of_lookup. destruct Hv as [i Hi].
    apply lookup_take_Some in Hi as [Hi _]. unfold offsets_of in Hi.
    rewrite list_lookup_fmap in Hi. destruct (seq _ _ !! i) as [j|]; [|done]. injection Hi as <-. apply Z.ltb_lt.
    pose proof (concat_take_length words j). unfold MAX_RAW_FRAME_SIZE in Hm. unfold U32. lia. }
  rewrite offsets_of_starts. apply rret_parses.
Qed.

(** ** The size limit is checked by the reader only *)

Lemma common_prefix_app p x l y m : x <> y -> common_prefix (p ++ x :: l) (p ++ y :: m) = length p.
Proof.
  intros Hne. induction p as [|a p IH]; cbn [app common_prefix length].
  - by rewrite (proj2 (Z.eqb_neq x y)).
  - by rewrite Z.eqb_refl, IH.
Qed.

Lemma put_varint_loop_length fuel v : length (put_varint_loop fuel v) <= S fuel.
Proof.
  revert v. induction fuel as [|fuel IH]; intros v; cbn [put_varint_loop length]; [lia|].
  destruct (_ <=? _)%Z; cbn [length]; [|lia]. specialize (IH (Z.shiftr v 7)). lia.
Qed.

Lemma put_varint_length v : length (put_varint v) <= 11.
Proof. apply put_varint_loop_length. Qed.

Lemma read_term_over pre w p s :
  (Z.of_nat (length (concat pre)) <= MAX_RAW_FRAME_SIZE)%Z ->
  (MAX_RAW_FRAME_SIZE < Z.of_nat (length (concat (pre ++ [w]))))%Z -> pre <> [] ->
  (Z.of_nat (length w) < USIZE)%Z ->
  let shared := common_prefix (previous_word pre) w in
  read_term (concat pre) (offsets_of pre) (mid p (put_varint (Z.of_nat shared) ++ put_bytes (drop shared w) ++ s)) =
  Err "binary journal term dictionary exceeds the frame size limit".
Proof.
  intros Hc Hm Hne Hw shared. destruct (common_prefix_take (previous_word pre) w) as (Hsp & Hsw & _).
  fold shared in Hsp, Hsw. destruct (offsets_previous pre) as (o & Ho & Hol & Hd).
  assert (Hpl : length (previous_word pre) = length (concat pre) - o) by (rewrite <- Hd, length_drop; done).
  rewrite concat_app, length_app in Hm. cbn [concat] in Hm. rewrite app_nil_r in Hm.
  unfold read_term, rbind, rlift. rewrite Ho. cbn [expect obind].
  rewrite (number_parses USIZE) by (unfold is_u64, U64, USIZE in *; lia). cbn [obind].
  rewrite (proj2 (Z.leb_le _ _)) by lia. rewrite offsets_of_length.
  replace (1 <? S (length pre)) with true by (symmetry; apply Nat.ltb_lt; destruct pre; [done|simpl; lia]).
  cbn [andb orb]. rewrite (rbytes_parses _) by (rewrite length_drop; lia). cbn [obind].
  rewrite (proj2 (Z.leb_gt _ _)); [done|]. rewrite length_drop. lia.
Qed.

Lemma read_terms_S n bytes offsets r :
  read_terms (S n) bytes offsets r =
  (let* (bo, r) := read_terms n bytes offsets r in read_term bo.1 bo.2 r).
Proof.
  revert bytes offsets r. induction n as [|n IH]; intros bytes offsets r.
  - cbn [read_terms]. unfold rbind, rret. cbn [obind fst snd]. by destruct (read_term bytes offsets r) as [[[b o] r']| |].
  - change (read_terms (S (S n)) bytes offsets r) with
      (rbind (read_term bytes offsets) (fun '(b, o) => read_terms (S n) b o) r).
    cbn [read_terms]. unfold rbind. destruct (read_term bytes offsets r) as [[[b o] r']| |]; cbn [obind]; [|done|done].
    exact (IH b o r').
Qed.

Lemma write_terms_snoc previous l w :
  write_terms previous (l ++ [w]) =
  write_terms previous l ++ write_terms (default previous (last l)) [w].
Proof.
  revert previous. induction l as [|x l IH]; intros previous; [done|]. cbn [app write_terms].
  rewrite IH, <- !app_assoc. cbn [write_terms]. rewrite last_cons. by destruct (last l).
Qed.

(** [k] words of [n] equal bytes and a last one that tells them apart. *)
Definition long_words (n k : nat) : list (list Z) :=
  map (fun i => replicate n 97%Z ++ [98 + Z.of_nat i]%Z) (seq 0 k).

Lemma long_words_S n k : long_words n (S k) = long_words n k ++ [replicate n 97%Z ++ [98 + Z.of_nat k]%Z].
Proof. unfold long_words. by rewrite seq_S, map_app. Qed.

Lemma long_words_concat n k : length (concat (long_words n k)) = k * (n + 1).
Proof.
  induction k as [|k IH]; [done|]. rewrite long_words_S, concat_app, length_app, IH. cbn [concat].
  rewrite app_nil_r, length_app, length_replicate. simpl. lia.
Qed.

Lemma long_words_sorted n k : bsorted (long_words n k).
Proof.
  unfold long_words. generalize 0. induction k as [|k IH]; intros o; cbn [seq map]; [constructor|].
  constructor; [apply IH|]. apply Forall_forall. intros w (i & -> & Hi)%list_elem_of_fmap. apply elem_of_seq in Hi.
  unfold blt. clear IH. induction n as [|n IHn]; cbn [replicate app bcmp].
  - by rewrite (proj2 (Z.compare_lt_iff _ _)) by lia.
  - rewrite Z.compare_refl. exact IHn.
Qed.

Lemma long_words_utf8 n k : k <= 20 -> Forall (fun w => utf8_valid w = true) (long_words n k).
Proof.
  intros Hk. apply Forall_forall. intros w (i & -> & Hi)%list_elem_of_fmap. apply elem_of_seq in Hi.
  apply utf8_valid_app.
  - induction n as [|n IH]; [done|]. exact IH.
  - cbn [utf8_valid]. unfold within. rewrite (proj2 (Z.leb_le _ _)), (proj2 (Z.leb_le _ _)) by lia. done.
Qed.

Lemma write_long_words n k o previous :
  (o = 0 /\ previous = [] \/ exists j, j < o /\ previous = replicate n 97%Z ++ [98 + Z.of_nat j]%Z) ->
  length (write_terms previous (map (fun i => replicate n 97%Z ++ [98 + Z.of_nat i]%Z) (seq o k)))
  <= (if Nat.eqb o 0 then n + 1 else 0) + 24 * k.
Proof.
  revert o previous. induction k as [|k IH]; intros o previous Hp; cbn [seq map write_terms]; [simpl; lia|].
  rewrite !length_app. unfold put_bytes. rewrite length_app, length_drop, length_app, length_replicate. cbn [length].
  specialize (IH (S o) (replicate n 97%Z ++ [98 + Z.of_nat o]%Z)). cbn [Nat.eqb] in IH.
  pose proof put_varint_length as V. pose proof (V (Z.of_nat (common_prefix previous (replicate n 97%Z ++ [98 + Z.of_nat o]%Z)))).
  match goal with |- context [length (put_varint ?v) + (_ - _)] => pose proof (V v) end.
  assert (IH' := IH ltac:(right; exists o; split; [lia|done])). clear IH V.
  assert (Hc : o = 0 \/ n <= common_prefix previous (replicate n 97%Z ++ [98 + Z.of_nat o]%Z)).
  { destruct Hp as [[-> _]|(j & Hj & ->)]; [by left|right]. rewrite common_prefix_app, length_replicate by lia. done. }
  destruct (Nat.eqb o 0) eqn:E; bool_to_prop; lia.
Qed.

(** The writer emits a dictionary the reader refuses: thirteen 4 MiB terms that share a
    prefix take about 4 MiB in a frame, but decode to more than [MAX_RAW_FRAME_SIZE] bytes.  The
    bound the reader relies on (the terms of a frame never exceed the largest payload) does not
    follow from the size of the frame. *)
Theorem dictionary_limit_reader_only :
  exists words,
    bsorted words /\ Forall (fun w => utf8_valid w = true /\ (Z.of_nat (length w) <= MAX_DOCUMENT_BYTES)%Z) words /\
    (Z.of_nat (length (frame_terms_write words)) * 10 <= MAX_RAW_FRAME_SIZE)%Z /\
    decoded_terms_read (reader_new (frame_terms_write words)) =
      Err "binary journal term dictionary exceeds the frame size limit".
Proof.
  destruct (Z_of_nat_complete 4194304 ltac:(lia)) as [n Hn]. symmetry in Hn.
  exists (long_words n 13). assert (HM : MAX_RAW_FRAME_SIZE = 52428800%Z) by reflexivity.
  assert (Hlen : length (long_words n 13) = 13) by (unfold long_words; by rewrite length_map).
  split; [apply long_words_sorted|]. split; [|split].
  - apply Forall_forall. intros w Hw. pose proof (long_words_utf8 n 13 ltac:(lia)) as Hu. rewrite Forall_forall in Hu.
    split; [by apply Hu|]. apply list_elem_of_fmap in Hw as (i & -> & _). rewrite length_app, length_replicate.
    change MAX_DOCUMENT_BYTES with 8388608%Z. simpl. lia.
  - unfold frame_terms_write. rewrite length_app. pose proof (put_varint_length (Z.of_nat (length (long_words n 13)))).
    pose proof (write_long_words n 13 0 [] ltac:(by left)) as W. cbn [Nat.eqb] in W. unfold long_words at 2. lia.
  - unfold decoded_terms_read, frame_terms_write, rbind at 1. rewrite Hlen, reader_new_mid.
    rewrite count_parses.
    2: done.
    2: { pose proof (write_terms_nonempty [] (long_words n 13)) as W. rewrite Hlen in W. exact W. }
    cbn [obind]. pose proof (long_words_concat n 12) as H12. pose proof (long_words_concat n 13) as H13.
    assert (R : forall p, read_terms 13 [] [0] (mid p (write_terms [] (long_words n 13))) =
                Err "binary journal term dictionary exceeds the frame size limit").
    { intros p. rewrite read_terms_S, long_words_S, write_terms_snoc.
      assert (Hl12 : length (long_words n 12) = 12) by (unfold long_words; by rewrite length_map).
      pose proof (read_terms_parses [] (long_words n 12)) as P. rewrite Hl12 in P. cbn [app] in P.
      rewrite P; [|rewrite HM; lia|apply long_words_utf8; lia|apply long_words_sorted]. cbn [obind fst snd].
      cbn [write_terms]. apply read_term_over.
      - rewrite HM. lia.
      - rewrite <- long_words_S, HM. lia.
      - intros H. by rewrite H in Hl12.
      - rewrite length_app, length_replicate. unfold USIZE. cbn [length]. lia. }
    unfold rbind. by rewrite R.
Qed.
