(* ===== verification/TextSegment.v ===== *)
(** * The chunk-text segment

    [src/core/documents/text.rs] over [positioned_read]/[positioned_write] of
    [src/core/durable_file.rs], with the record encryption of [src/core/security.rs].  The
    segment is an append-only file of chunk texts; a location is (offset, stored length,
    checksum of the plaintext).  A scrubbed record reads as empty text. *)

From S2P Require Import Prelude Words.

(** ** The external functions *)

(** [aes_gcm]'s [encrypt]/[decrypt] under one key: nonce, message, associated data. *)
Record Aead := mkAead {
  aead_encrypt : list Z -> list Z -> list Z -> option (list Z);
  aead_decrypt : list Z -> list Z -> list Z -> option (list Z) }.

(** What AES-256-GCM documents: decryption inverts encryption under the same nonce and
    associated data, and the ciphertext is the message and a 16-byte tag. *)
Class AeadLaws (a : Aead) : Prop := {
  aead_inverse nonce msg aad c : aead_encrypt a nonce msg aad = Some c -> aead_decrypt a nonce c aad = Some msg;
  aead_length nonce msg aad c : aead_encrypt a nonce msg aad = Some c -> length c = length msg + 16 }.

(** ** Encryption of a record *)

(** [EncryptionManager::encrypt_with_aad]; [nonce] is what [secure_random] drew. *)
Definition encrypt_with_aad (a : Aead) (nonce plaintext aad : list Z) : outcome (list Z) :=
  let* ciphertext := ok_or (aead_encrypt a nonce plaintext aad) "Encryption failed" in
  Ok (nonce ++ ciphertext).

(** [EncryptionManager::decrypt_with_aad]. *)
Definition decrypt_with_aad (a : Aead) (encrypted aad : list Z) : outcome (list Z) :=
  ensure negb (length encrypted <? 12) else "Encrypted data too short" ;
  let* nonce := slice encrypted 0 12 in
  let* ciphertext := slice encrypted 12 (length encrypted) in
  ok_or (aead_decrypt a nonce ciphertext aad) "Decryption failed".

Lemma decrypt_encrypt a `{!AeadLaws a} nonce msg aad c :
  length nonce = 12 -> encrypt_with_aad a nonce msg aad = Ok c ->
  decrypt_with_aad a c aad = Ok msg /\ length c = length msg + 28.
Proof.
  intros Hn H. unfold encrypt_with_aad in H. destruct (aead_encrypt a nonce msg aad) as [e|] eqn:E; [|done].
  simpl in H. injection H as <-. pose proof (aead_length _ _ _ _ E). unfold decrypt_with_aad.
  rewrite length_app, Hn. replace (12 + length e <? 12) with false by (symmetry; apply Nat.ltb_ge; lia).
  simpl negb. cbv iota. rewrite !slice_Ok by (rewrite ?length_app; lia). cbn [obind].
  rewrite Nat.sub_0_r, drop_0, take_app_le, take_ge by lia.
  rewrite (drop_app_length' _ _ 12), take_ge by lia. rewrite (aead_inverse _ _ _ _ E). split; [done|lia].
Qed.

(** ** Positioned file access *)

(** A write past the end leaves a gap of zeros, as POSIX does. *)
Definition positioned_write (file : list Z) (buf : list Z) (at_ : nat) : list Z :=
  let file := file ++ replicate (at_ - length file) 0%Z in
  take at_ file ++ buf ++ drop (at_ + length buf) file.

Definition positioned_read (file : list Z) (n at_ : nat) : outcome (list Z) :=
  ok_or (get_range file at_ (at_ + n)) "failed to fill whole buffer".

Lemma positioned_write_length file buf at_ :
  length (positioned_write file buf at_) = Nat.max (length file) (at_ + length buf).
Proof.
  unfold positioned_write. rewrite !length_app, length_take, length_drop, length_app, length_replicate. lia.
Qed.

Lemma positioned_read_write file buf at_ :
  positioned_read (positioned_write file buf at_) (length buf) at_ = Ok buf.
Proof.
  unfold positioned_read, positioned_write. set (f := file ++ _).
  assert (Hf : length (take at_ f) = at_).
  { rewrite length_take. unfold f. rewrite length_app, length_replicate. lia. }
  pose proof (get_range_app_mid (take at_ f) buf (drop (at_ + length buf) f)) as G. rewrite Hf in G.
  by rewrite G.
Qed.

(** Bytes outside the written range keep their value. *)
Lemma positioned_read_write_ne file buf at_ n at2 :
  at2 + n <= length file -> at2 + n <= at_ \/ at_ + length buf <= at2 ->
  positioned_read (positioned_write file buf at_) n at2 = positioned_read file n at2.
Proof.
  intros Hin Hd. unfold positioned_read. pose proof (positioned_write_length file buf at_) as HL.
  rewrite !get_range_Some by lia. do 2 f_equal. apply list_eq. intros i.
  destruct (decide (i < n)) as [Hi|Hi].
  2: { rewrite !lookup_ge_None_2; [done|..]; rewrite length_take; lia. }
  rewrite !lookup_take_lt, !lookup_drop by lia. unfold positioned_write. set (f := file ++ _).
  assert (Hfl : length f = Nat.max (length file) at_) by (unfold f; rewrite length_app, length_replicate; lia).
  assert (Hff : forall j, j < length file -> f !! j = file !! j) by (intros; unfold f; by rewrite lookup_app_l).
  destruct Hd as [Hd|Hd].
  - rewrite lookup_app_l by (rewrite length_take; lia). rewrite lookup_take_lt by lia. apply Hff. lia.
  - rewrite lookup_app_r by (rewrite length_take; lia). rewrite length_take.
    rewrite lookup_app_r by lia. rewrite lookup_drop. rewrite <- Hff by lia. f_equal. lia.
Qed.

(** ** The segment *)

Definition HEADER_LEN : Z := 8.
Definition location : Type := Z * Z * Z.

Record TextSegment := mkSegment { ts_file : list Z; ts_len : Z; ts_scrubbed : gset (Z * Z) }.

Section Segment.
(** [crc32fast::hash] and the optional cipher of the segment. *)
Context (crc32 : list Z -> Z) (cipher : option Aead).

Definition segment_create : TextSegment :=
  let flags := match cipher with Some _ => 1 | None => 0 end%Z in
  {| ts_file := positioned_write [] [0x48; 0x4d; 0x53; 0x54; 2; flags; 0; 0]%Z 0;
     ts_len := HEADER_LEN; ts_scrubbed := ∅ |}.

Definition sealed (nonce text : list Z) (at_ : Z) : outcome (list Z) :=
  match cipher with
  | Some c => encrypt_with_aad c nonce text (to_le_bytes 8 at_)
  | None => Ok text
  end.

(** [TextSegment::append]; [nonce] is the randomness of the encryption. *)
Definition segment_append (s : TextSegment) (nonce text : list Z) : outcome (location * TextSegment) :=
  let at_ := ts_len s in
  let* bytes := sealed nonce text at_ in
  ensure (Z.of_nat (length bytes) <? U32)%Z else "chunk text over 4 GiB" ;
  let len := Z.of_nat (length bytes) in
  let* next := expect (checked_add U64 at_ len) in
  Ok ((at_, len, crc32 text),
      {| ts_file := positioned_write (ts_file s) bytes (Z.to_nat at_);
         ts_len := next; ts_scrubbed := ts_scrubbed s |}).

Definition in_segment (s : TextSegment) (at_ len : Z) : bool :=
  match checked_add U64 at_ len with Some e => (e <=? ts_len s)%Z | None => false end.

(** [TextSegment::scrub]. *)
Definition segment_scrub (s : TextSegment) (at_ len : Z) : outcome TextSegment :=
  ensure ((HEADER_LEN <=? at_)%Z && in_segment s at_ len)
    else "chunk text location outside the text segment" ;
  Ok {| ts_file := positioned_write (ts_file s) (replicate (Z.to_nat len) 0%Z) (Z.to_nat at_);
        ts_len := ts_len s; ts_scrubbed := {[ (at_, len) ]} ∪ ts_scrubbed s |}.

Definition is_scrubbed (s : TextSegment) (at_ len : Z) : bool :=
  bool_decide ((at_, len) ∈ ts_scrubbed s).

(** [TextSegment::read]. *)
Definition segment_read (s : TextSegment) (loc : location) : outcome (list Z) :=
  let '(at_, len, checksum) := loc in
  ensure (in_segment s at_ len) else "chunk text location outside the text segment" ;
  ensure (HEADER_LEN <=? at_)%Z else "chunk text location inside the segment header" ;
  if is_scrubbed s at_ len then Ok []
  else
    let* bytes := positioned_read (ts_file s) (Z.to_nat len) (Z.to_nat at_) in
    let* bytes := match cipher with
                  | Some c => decrypt_with_aad c bytes (to_le_bytes 8 at_)
                  | None => Ok bytes
                  end in
    ensure (crc32 bytes =? checksum)%Z else "chunk text checksum mismatch" ;
    ensure (utf8_valid bytes) else "chunk text is not UTF-8" ;
    Ok bytes.

(** ** The ledger a client keeps

    Every append is an entry; scrubbing a location marks every entry stored there. *)

Inductive segment_op : Type :=
| Append (nonce text : list Z)
| Scrub (at_ len : Z).

Definition ledger : Type := list (location * option (list Z)).

Definition mark_scrubbed (at_ len : Z) (e : location * option (list Z)) : location * option (list Z) :=
  let '(a, l, c, t) := e in
  if ((a =? at_) && (l =? len))%Z then (a, l, c, None) else e.

(** One operation on the segment and on the ledger; a scrub only of recorded locations. *)
Definition segment_step (s : TextSegment) (g : ledger) (o : segment_op) : outcome (TextSegment * ledger) :=
  match o with
  | Append nonce text =>
      let* (loc, s') := segment_append s nonce text in Ok (s', g ++ [(loc, Some text)])
  | Scrub at_ len =>
      ensure (existsb (fun e : location * option (list Z) => (e.1.1.1 =? at_) && (e.1.1.2 =? len))%Z g)
        else "no record at the location" ;
      let* s' := segment_scrub s at_ len in Ok (s', map (mark_scrubbed at_ len) g)
  end.

Fixpoint segment_run (s : TextSegment) (g : ledger) (ops : list segment_op) : outcome (TextSegment * ledger) :=
  match ops with
  | [] => Ok (s, g)
  | o :: ops => let* (s', g') := segment_step s g o in segment_run s' g' ops
  end.

Definition op_ok (o : segment_op) : Prop :=
  match o with
  | Append nonce text => length nonce = 12 /\ utf8_valid text = true
  | Scrub _ _ => True
  end.

(** ** Invariants *)

Context (Hlaws : forall a, cipher = Some a -> AeadLaws a).

Definition segment_ok (s : TextSegment) : Prop :=
  (HEADER_LEN <= ts_len s < U64)%Z /\ (ts_len s <= Z.of_nat (length (ts_file s)))%Z.

(** A record lies inside the segment.  A live one holds bytes that decode to its text (an
    empty one may share its location with a scrubbed empty one); a scrubbed one is zeros. *)
Definition record_ok (s : TextSegment) (e : location * option (list Z)) : Prop :=
  let '(a, l, c, t) := e in
  (HEADER_LEN <= a /\ 0 <= l /\ a + l <= ts_len s)%Z /\
  match t with
  | None => (a, l) ∈ ts_scrubbed s /\
      positioned_read (ts_file s) (Z.to_nat l) (Z.to_nat a) = Ok (replicate (Z.to_nat l) 0%Z)
  | Some text =>
      (l = 0%Z /\ (a, l) ∈ ts_scrubbed s /\ text = []) \/
      (~ (a, l) ∈ ts_scrubbed s /\ c = crc32 text /\ utf8_valid text = true /\
       exists nonce bytes, length nonce = 12 /\ sealed nonce text a = Ok bytes /\ Z.of_nat (length bytes) = l /\
        positioned_read (ts_file s) (Z.to_nat l) (Z.to_nat a) = Ok bytes)
  end.

Definition apart (a l b m : Z) : Prop := (a + l <= b \/ b + m <= a)%Z.

Definition disjoint_or_same (x y : location * option (list Z)) : Prop :=
  (x.1.1.1 = y.1.1.1 /\ x.1.1.2 = y.1.1.2) \/ apart x.1.1.1 x.1.1.2 y.1.1.1 y.1.1.2.

Definition scrubbed_in (s : TextSegment) : Prop :=
  forall a l, (a, l) ∈ ts_scrubbed s -> (a + l <= ts_len s)%Z.

Definition ledger_ok (s : TextSegment) (g : ledger) : Prop :=
  segment_ok s /\ Forall (record_ok s) g /\
  (forall x y, x ∈ g -> y ∈ g -> disjoint_or_same x y) /\ scrubbed_in s.

Lemma segment_create_ok : ledger_ok segment_create [].
Proof.
  unfold ledger_ok, segment_ok, segment_create. cbn [ts_len ts_file ts_scrubbed].
  rewrite positioned_write_length. simpl. unfold HEADER_LEN, U64. split_and!; try done; set_solver.
Qed.

(** The record of a location decodes to what the ledger says. *)
Lemma record_read s a l c t :
  segment_ok s -> record_ok s (a, l, c, t) -> segment_read s (a, l, c) = Ok (default [] t).
Proof.
  intros [Hs _] [(Ha & Hl & Hal) Ht]. unfold segment_read, in_segment, checked_add.
  replace (a + l <? U64)%Z with true by (symmetry; apply Z.ltb_lt; lia).
  replace (a + l <=? ts_len s)%Z with true by (symmetry; by apply Z.leb_le).
  replace (HEADER_LEN <=? a)%Z with true by (symmetry; by apply Z.leb_le).
  unfold is_scrubbed. destruct t as [text|].
  - destruct Ht as [(_ & Hin & ->)|(Hin & -> & Hu & nonce & bytes & Hn & Hb & <- & Hr)].
    { by rewrite bool_decide_eq_true_2 by done. }
    rewrite bool_decide_eq_false_2 by done. rewrite Hr. cbn [obind].
    assert (D : match cipher with Some c => decrypt_with_aad c bytes (to_le_bytes 8 a) | None => Ok bytes end = Ok text).
    { unfold sealed in Hb. destruct cipher as [ci|] eqn:E; [|by injection Hb as ->].
      pose proof (Hlaws ci eq_refl) as Hlaw. by apply (decrypt_encrypt ci nonce text). }
    rewrite D. cbn [obind]. by rewrite Z.eqb_refl, Hu.
  - destruct Ht as [Hin _]. by rewrite bool_decide_eq_true_2 by done.
Qed.

Lemma sealed_nonempty nonce text a bytes :
  length nonce = 12 -> sealed nonce text a = Ok bytes -> bytes = [] -> text = [].
Proof.
  unfold sealed. destruct cipher as [c|] eqn:E; intros Hn H ->; [|by injection H as ->].
  pose proof (Hlaws c eq_refl) as Hlaw. apply decrypt_encrypt in H as [_ H]; [|done|done]. simpl in H. lia.
Qed.

(** An append changes no earlier record. *)
Lemma record_ok_frame s s' e :
  record_ok s e -> (ts_len s <= ts_len s')%Z -> ts_scrubbed s' = ts_scrubbed s ->
  (forall a l, (HEADER_LEN <= a /\ 0 <= l /\ a + l <= ts_len s)%Z ->
     positioned_read (ts_file s') (Z.to_nat l) (Z.to_nat a) = positioned_read (ts_file s) (Z.to_nat l) (Z.to_nat a)) ->
  record_ok s' e.
Proof.
  destruct e as [[[a l] c] t]. intros [Hr Ht] Hlen Hsc Hread. split; [lia|]. rewrite Hsc.
  destruct t as [text|]; rewrite Hread by done; done.
Qed.

Lemma append_ledger_ok s g nonce text loc s' :
  ledger_ok s g -> length nonce = 12 -> utf8_valid text = true ->
  segment_append s nonce text = Ok (loc, s') -> ledger_ok s' (g ++ [(loc, Some text)]).
Proof.
  intros (Hs & Hg & Hd & Hsc) Hn Hu H. unfold segment_append in H.
  destruct (sealed nonce text (ts_len s)) as [bytes| |] eqn:Hb; [|done|done]. cbn [obind] in H.
  destruct (_ <? U32)%Z; [|done]. unfold checked_add in H.
  destruct (_ <? U64)%Z eqn:E; [|done]. simpl in H. injection H as <- <-. bool_to_prop.
  destruct Hs as [Hs Hf]. unfold HEADER_LEN in *.
  assert (Hrec : record_ok {| ts_file := positioned_write (ts_file s) bytes (Z.to_nat (ts_len s));
      ts_len := (ts_len s + Z.of_nat (length bytes))%Z; ts_scrubbed := ts_scrubbed s |}
      (ts_len s, Z.of_nat (length bytes), crc32 text, Some text)).
  { split; cbn [ts_len ts_scrubbed ts_file]; [unfold HEADER_LEN; lia|].
    destruct (decide ((ts_len s, Z.of_nat (length bytes)) ∈ ts_scrubbed s)) as [Hin|Hin].
    - left. specialize (Hsc _ _ Hin). split; [lia|]. split; [done|]. apply (sealed_nonempty nonce text (ts_len s) bytes Hn Hb).
      apply nil_length_inv. lia.
    - right. split_and!; auto. exists nonce, bytes. split_and!; auto. rewrite Nat2Z.id.
      apply positioned_read_write. }
  split_and!.
  - split; cbn [ts_len ts_file]; [unfold HEADER_LEN; lia|]. rewrite positioned_write_length. lia.
  - apply Forall_app. split; [|by constructor]. eapply Forall_impl; [exact Hg|]. intros e He.
    eapply record_ok_frame; [exact He|cbn; lia|done|]. intros a l Hr. cbn [ts_file].
    unfold HEADER_LEN in Hr. apply positioned_read_write_ne; lia.
  - assert (Hold : forall x, x ∈ g -> (x.1.1.1 + x.1.1.2 <= ts_len s)%Z).
    { intros [[[a l] c] t] Hx. rewrite Forall_forall in Hg. destruct (Hg _ Hx) as [Hr _]. simpl. lia. }
    intros x y Hx Hy. apply elem_of_app in Hx as [Hx|Hx], Hy as [Hy|Hy]; rewrite ?list_elem_of_singleton in *; subst;
      [by apply Hd|unfold disjoint_or_same, apart; simpl; auto..].
  - intros a l Hin. cbn in *. specialize (Hsc a l Hin). lia.
Qed.

Lemma mark_scrubbed_loc at_ len e : (mark_scrubbed at_ len e).1 = e.1.
Proof. destruct e as [[[a l] c] t]. simpl. by destruct (_ && _). Qed.

Lemma scrub_ledger_ok s g at_ len s' :
  ledger_ok s g -> (exists c t, (at_, len, c, t) ∈ g) ->
  segment_scrub s at_ len = Ok s' -> ledger_ok s' (map (mark_scrubbed at_ len) g).
Proof.
  intros (Hs & Hg & Hd & Hsc) (c0 & t0 & Hin0) H. unfold segment_scrub in H.
  destruct (_ && _) eqn:E; [|done]. injection H as <-. clear E. rewrite Forall_forall in Hg.
  destruct (Hg _ Hin0) as [(Ha0 & Hl0 & Hal0) _]. destruct Hs as [Hs Hf].
  set (zeros := replicate (Z.to_nat len) 0%Z). set (file' := positioned_write _ _ _).
  assert (Hz : positioned_read file' (Z.to_nat len) (Z.to_nat at_) = Ok zeros).
  { unfold file'. pose proof (positioned_read_write (ts_file s) zeros (Z.to_nat at_)) as R.
    unfold zeros in R at 2. by rewrite length_replicate in R. }
  unfold HEADER_LEN in *. split_and!.
  - split; cbn [ts_len ts_file]; [done|]. unfold file'. rewrite positioned_write_length. lia.
  - apply Forall_forall. intros e (e0 & -> & He)%list_elem_of_fmap. pose proof (Hd _ _ Hin0 He) as Hde.
    destruct e0 as [[[a l] c] t]. destruct (Hg _ He) as [Hr Ht]. unfold mark_scrubbed, HEADER_LEN in *.
    destruct ((a =? at_) && (l =? len))%Z eqn:Em.
    + apply andb_true_iff in Em as [??]. bool_to_prop. subst. split; [done|]. cbn [ts_scrubbed ts_file].
      split; [set_solver|done].
    + split; [done|]. cbn [ts_scrubbed ts_file].
      assert (Hne : (a, l) <> (at_, len)) by (intros [= -> ->]; rewrite !Z.eqb_refl in Em; done).
      destruct Hde as [[Hx Hy]|Hap]; [simpl in Hx, Hy; congruence|]. unfold apart in Hap; simpl in Hap.
      assert (Hread : positioned_read file' (Z.to_nat l) (Z.to_nat a) = positioned_read (ts_file s) (Z.to_nat l) (Z.to_nat a)).
      { apply positioned_read_write_ne; unfold zeros; rewrite ?length_replicate; lia. }
      destruct t as [text|]; rewrite Hread.
      * destruct Ht as [(El & Hin & ->)|(Hin & Hrest)]; [left; split_and!; [done|set_solver|done]|right; split; [set_solver|done]].
      * destruct Ht. split; [set_solver|done].
  - intros x y (x0 & -> & Hx)%list_elem_of_fmap (y0 & -> & Hy)%list_elem_of_fmap.
    unfold disjoint_or_same. rewrite !mark_scrubbed_loc. by apply Hd.
  - intros a l [Hin|Hin]%elem_of_union; cbn [ts_len]; [|by apply Hsc].
    apply elem_of_singleton in Hin. injection Hin as -> ->. lia.
Qed.

Lemma segment_run_ok ops s g s' g' :
  ledger_ok s g -> Forall op_ok ops -> segment_run s g ops = Ok (s', g') -> ledger_ok s' g'.
Proof.
  intros Hok Hops. revert s g Hok. induction Hops as [|o ops Ho Hops IH]; intros s g Hok H; simpl in H.
  { by injection H as <- <-. }
  destruct (segment_step s g o) as [[s1 g1]| |] eqn:E; [|done|done]. cbn [obind] in H.
  apply (IH s1 g1); [|done]. destruct o as [nonce text|a l]; simpl in E.
  - destruct (segment_append s nonce text) as [[loc s2]| |] eqn:E2; [|done|done]. simpl in E. injection E as <- <-.
    destruct Ho. by eapply append_ledger_ok.
  - destruct (existsb _ g) eqn:Ex; [|done]. destruct (segment_scrub s a l) as [s2| |] eqn:E2; [|done|done].
    simpl in E. injection E as <- <-. eapply scrub_ledger_ok; [done| |done].
    apply existsb_exists in Ex as ([[[a0 l0] c0] t0] & Hin & Hb). simpl in Hb.
    apply andb_true_iff in Hb as [??]. bool_to_prop. subst. exists c0, t0. by apply list_elem_of_In.
Qed.

End Segment.

(** After any sequence of appends and scrubs of recorded locations, with or without a
    cipher, every location ever returned by an append reads back as exactly the text appended
    there, or as empty text once it was scrubbed; and the bytes of a scrubbed record are zeros
    in the file. *)
Theorem segment_reads_ledger crc32 cipher ops s g :
  (forall a, cipher = Some a -> AeadLaws a) -> Forall op_ok ops ->
  segment_run crc32 cipher (segment_create cipher) [] ops = Ok (s, g) ->
  forall a l c t, (a, l, c, t) ∈ g ->
    segment_read crc32 cipher s (a, l, c) = Ok (default [] t) /\
    (t = None -> positioned_read (ts_file s) (Z.to_nat l) (Z.to_nat a) = Ok (replicate (Z.to_nat l) 0%Z)).
Proof.
  intros Hlaws Hops Hrun a l c t Hin.
  destruct (segment_run_ok crc32 cipher Hlaws ops _ _ s g (segment_create_ok crc32 cipher Hlaws) Hops Hrun)
    as (Hs & Hg & _).
  rewrite Forall_forall in Hg. specialize (Hg _ Hin). split.
  - by eapply record_read.
  - intros ->. destruct Hg as [_ [_ H]]. exact H.
Qed.

(** A toy cipher: the message behind a 16-byte tag of zeros. *)
Definition toy_aead : Aead := {|
  aead_encrypt := fun nonce msg aad => Some (replicate 16 0%Z ++ msg);
  aead_decrypt := fun nonce c aad => Some (drop 16 c) |}.

#[global] Instance toy_aead_laws : AeadLaws toy_aead.
Proof.
  split; simpl; intros nonce msg aad c [= <-]; [done|]. simpl. lia.
Qed.

Definition toy_ops : list segment_op :=
  [Append (replicate 12 7%Z) [97; 98]%Z; Append (replicate 12 9%Z) [99]%Z; Scrub 8 30].

Definition toy_run : outcome (TextSegment * ledger) :=
  segment_run (fun l => foldr Z.add 0%Z l) (Some toy_aead) (segment_create (Some toy_aead)) [] toy_ops.

Lemma segment_reads_ledger_witness :
  exists s g, toy_run = Ok (s, g) /\ g !! 1 = Some (38, 29, 99, Some [99])%Z /\
    segment_read (fun l => foldr Z.add 0%Z l) (Some toy_aead) s (38, 29, 99)%Z = Ok [99]%Z.
Proof.
  destruct toy_run as [[s g]| |] eqn:E; [|vm_compute in E; discriminate E|vm_compute in E; discriminate E].
  assert (Hg : g !! 1 = Some (38, 29, 99, Some [99])%Z).
  { vm_compute in E. injection E as <- <-. reflexivity. }
  exists s, g. split; [reflexivity|]. split; [exact Hg|].
  apply (segment_reads_ledger _ (Some toy_aead) toy_ops s g) with (t := Some [99]%Z).
  - intros a Ha. injection Ha as <-. exact toy_aead_laws.
  - repeat constructor.
  - exact E.
  - apply (list_elem_of_lookup_2 g 1). exact Hg.
Defined.
