(* ===== verification/Binary.v ===== *)
(** * Binary form of stored documents

    [write_document] and [read_document] of [src/core/documents/binary.rs] with the chunk ids
    of [src/core/documents.rs].  Strings are their UTF-8 bytes, an [f32] is its bit pattern, and
    the metadata type with [serde_json]'s [to_vec] and [from_slice] are parameters. *)

From S2P Require Import Prelude Words Search Positions Terms FrameDict TextSegment.

(** ** Data *)

Inductive VectorState : Type := Encoded | Pending | Lexical.

Record EntangledHVec := mkHVec { hv_dim : Z; hv_indices : list Z }.

Record StoredChunk := mkChunk {
  c_id : list Z; c_text : option (list Z); c_text_at : option location;
  c_start_byte : Z; c_end_byte : Z; c_vector : EntangledHVec;
  c_embedding : option (list Z); c_terms : StoredTerms;
  c_word_count : Z; c_stemmed : bool; c_vector_state : VectorState }.

Record StoredDocument (Value : Type) := mkDocument {
  doc_id : list Z; doc_source_uri : option (list Z); doc_version : list Z;
  doc_metadata : Value; doc_chunks : list StoredChunk }.
Arguments mkDocument {Value}.
Arguments doc_id {Value}.
Arguments doc_source_uri {Value}.
Arguments doc_version {Value}.
Arguments doc_metadata {Value}.
Arguments doc_chunks {Value}.

(** ** Chunk ids *)

(** ["hms:chunk:"] and [":"]. *)
Definition CHUNK_PREFIX : list Z := [104; 109; 115; 58; 99; 104; 117; 110; 107; 58]%Z.
Definition COLON : list Z := [58]%Z.

(** [decimal] fills a 20-byte buffer from its end; running out of it would panic. *)
Fixpoint decimal_loop (room : nat) (value : Z) (digits : list Z) : outcome (list Z) :=
  match room with
  | O => Panic
  | S room =>
      let digits := (48 + value mod 10)%Z :: digits in
      let value := (value / 10)%Z in
      if (value =? 0)%Z then Ok digits else decimal_loop room value digits
  end.

Definition decimal (value : Z) : outcome (list Z) := decimal_loop 20 value [].

Definition chunk_id_parts (document : list Z) (index : Z) : outcome (list (list Z)) :=
  let* len := decimal (Z.of_nat (length document)) in
  let* ordinal := decimal index in
  Ok [CHUNK_PREFIX; len; COLON; document; COLON; ordinal].

Definition chunk_id (document : list Z) (index : Z) : outcome (list Z) :=
  let* parts := chunk_id_parts document index in Ok (concat parts).

Definition strip_prefix (l part : list Z) : option (list Z) :=
  if bool_decide (take (length part) l = part) then Some (drop (length part) l) else None.

Fixpoint strip_parts (rest : list Z) (parts : list (list Z)) : bool :=
  match parts with
  | [] => bool_decide (rest = [])
  | part :: parts =>
      match strip_prefix rest part with
      | Some after => strip_parts after parts
      | None => false
      end
  end.

Definition is_chunk_id (id document : list Z) (index : Z) : outcome bool :=
  let* parts := chunk_id_parts document index in Ok (strip_parts id parts).

(** ** Flags *)

Definition CHUNK_EXPLICIT_ID : Z := 1.
Definition CHUNK_TEXT : Z := Z.shiftl 1 1.
Definition CHUNK_STEMMED : Z := Z.shiftl 1 2.
Definition CHUNK_EMBEDDING : Z := Z.shiftl 1 3.
Definition CHUNK_STATE_SHIFT : Z := 4.
Definition CHUNK_POSITIONS : Z := Z.shiftl 1 6.
Definition CHUNK_FLAGS : Z := 0x7f.

Definition state_bits (state : VectorState) : Z :=
  match state with Encoded => 0 | Pending => 1 | Lexical => 2 end.

Definition chunk_flags (explicit_id text stemmed embedding : bool) (state : VectorState) (positions : bool) : Z :=
  let bit (b : bool) (mask : Z) := (Z.b2z b * mask)%Z in
  Z.lor (Z.lor (Z.lor (Z.lor (Z.lor (bit explicit_id CHUNK_EXPLICIT_ID) (bit text CHUNK_TEXT))
    (bit stemmed CHUNK_STEMMED)) (bit embedding CHUNK_EMBEDDING))
    (Z.shiftl (state_bits state) CHUNK_STATE_SHIFT)) (bit positions CHUNK_POSITIONS).

Definition state_of_bits (bits : Z) : outcome VectorState :=
  if (bits =? 0)%Z then Ok Encoded
  else if (bits =? 1)%Z then Ok Pending
  else if (bits =? 2)%Z then Ok Lexical
  else Err "binary journal vector state is invalid".

(** ** Writing *)

(** First value, then differences; a difference below zero is an arithmetic overflow. *)
Fixpoint put_deltas (previous : option Z) (l : list Z) : outcome (list Z) :=
  match l with
  | [] => Ok []
  | v :: r =>
      let* gap := match previous with None => Ok v | Some p => expect (checked_sub v p) end in
      let* rest := put_deltas (Some v) r in
      Ok (put_varint gap ++ rest)
  end.

(** [count] ids from the cursor. *)
Fixpoint next_ids (count : nat) (ids : list nat) : outcome (list Z * list nat) :=
  match count with
  | O => Ok ([], ids)
  | S count =>
      match ids with
      | [] => Err "frame dictionary ran out of ids"
      | id :: ids =>
          let* (l, ids) := next_ids count ids in Ok (Z.of_nat id :: l, ids)
      end
  end.

Definition put_positions (p : Positions) : list Z :=
  [p_version p] ++ put_varint (Z.of_nat (offsets_len (p_offsets p))) ++
  concat (map put_varint (offsets_iter (p_offsets p))) ++ put_bytes (p_data p).

Definition put_option {A} (f : A -> list Z) (o : option A) : list Z :=
  match o with Some a => f a | None => [] end.

Definition put_source (source_uri : option (list Z)) : list Z :=
  match source_uri with None => [0%Z] | Some uri => [1%Z] ++ put_bytes uri end.

Section Documents.
Context {Value : Type} (to_vec : Value -> outcome (list Z)) (from_slice : list Z -> outcome Value).
(** [TextSegment::read] of the attached segment, if one is. *)
Context (segment : option (location -> outcome (list Z))).

Definition chunk_text (chunk : StoredChunk) : outcome (option (list Z)) :=
  match c_text chunk, c_text_at chunk with
  | Some text, _ => Ok (Some text)
  | None, Some loc =>
      let* s := ok_or segment "chunk text moved to a segment that is not attached" in
      let* text := s loc in Ok (Some text)
  | None, None => Ok None
  end.

(** The record of a chunk, from its resolved text and its coded vector and term ids. *)
Definition chunk_record (explicit_id : bool) (text : option (list Z)) (chunk : StoredChunk)
    (vector term_gaps : list Z) (entries : list (list Z * Z)) : list Z :=
  let flags := chunk_flags explicit_id (bool_decide (is_Some text)) (c_stemmed chunk)
                 (bool_decide (is_Some (c_embedding chunk))) (c_vector_state chunk)
                 (bool_decide (is_Some (t_positions (c_terms chunk)))) in
  [flags] ++ (if explicit_id then put_bytes (c_id chunk) else []) ++
  put_option put_bytes text ++
  put_varint (c_start_byte chunk) ++ put_varint (c_end_byte chunk) ++
  put_varint (c_word_count chunk) ++ put_varint (hv_dim (c_vector chunk)) ++
  put_varint (Z.of_nat (length (hv_indices (c_vector chunk)))) ++ vector ++
  put_option (fun e => put_varint (Z.of_nat (length e)) ++ concat (map (to_le_bytes 4) e))
    (c_embedding chunk) ++
  put_varint (Z.of_nat (length entries)) ++ term_gaps ++
  concat (map (fun e : list Z * Z => put_varint e.2) entries) ++
  put_option put_positions (t_positions (c_terms chunk)).

(** One chunk of [write_document]: its bytes and the cursor after it. *)
Definition write_chunk (document : list Z) (index : nat) (chunk : StoredChunk) (ids : list nat)
    : outcome (list Z * list nat) :=
  let* text := chunk_text chunk in
  let* derived := is_chunk_id (c_id chunk) document (Z.of_nat index) in
  let* vector := put_deltas None (hv_indices (c_vector chunk)) in
  let* (term_ids, ids) := next_ids (t_len (c_terms chunk)) ids in
  let* term_gaps := put_deltas None term_ids in
  let* entries := t_entries (c_terms chunk) in
  Ok (chunk_record (negb derived) text chunk vector term_gaps entries, ids).

Fixpoint write_chunks (document : list Z) (index : nat) (chunks : list StoredChunk) (ids : list nat)
    : outcome (list Z * list nat) :=
  match chunks with
  | [] => Ok ([], ids)
  | chunk :: chunks =>
      let* (bytes, ids) := write_chunk document index chunk ids in
      let* (rest, ids) := write_chunks document (index + 1) chunks ids in
      Ok (bytes ++ rest, ids)
  end.

Definition write_document (d : StoredDocument Value) (ids : list nat) : outcome (list Z * list nat) :=
  let* metadata := to_vec (doc_metadata d) in
  let* (chunks, ids) := write_chunks (doc_id d) 0 (doc_chunks d) ids in
  Ok (put_bytes (doc_id d) ++
      put_source (doc_source_uri d) ++
      put_bytes (doc_version d) ++ put_bytes metadata ++
      put_varint (Z.of_nat (length (doc_chunks d))) ++ chunks, ids).

(** [representable]. *)
Definition representable (d : StoredDocument Value) : bool :=
  forallb (fun c => ascending (hv_indices (c_vector c))) (doc_chunks d).

(** ** Reading *)

Definition has (flags mask : Z) : bool := negb (Z.land flags mask =? 0)%Z.

Definition read_index (previous : option Z) : read (Z * option Z) :=
  gap <- number U32 ;
  v <- rlift (match previous with
              | None => Ok gap
              | Some p => ok_or (checked_add U32 p gap) "binary journal vector index overflows"
              end) ;
  rret (v, Some v).

Definition read_term_id (dictionary : SharedDictionary) (previous : option Z) : read (Z * option Z) :=
  gap <- number USIZE ;
  id <- rlift (match previous with
               | None => Ok gap
               | Some p =>
                   ensure (0 <? gap)%Z else "binary journal term ids are not strictly ascending" ;
                   ok_or (checked_add USIZE p gap) "binary journal term id overflows"
               end) ;
  check (id <? Z.of_nat (d_len dictionary))%Z else "binary journal term id is not in the dictionary" ;
  rret (id, Some id).

Definition read_number (bound : Z) (_ : unit) : read (Z * unit) :=
  v <- number bound ; rret (v, tt).

Definition read_f32 (_ : unit) : read (Z * unit) :=
  bytes <- rtake 4 ; rret (from_le_bytes bytes, tt).

Definition read_embedding : read (list Z) :=
  len <- count 4 ; rrepeat len read_f32 tt.

Definition read_positions (term_count : nat) (table : StoredTerms) : read Positions :=
  version <- rbyte ;
  check ((version =? VERSION) || (version =? DOCUMENT_VERSION))%Z
    else "positional postings version is newer than supported" ;
  n <- count 1 ;
  check (Nat.eqb n (term_count + 1)) else "positional term count mismatch" ;
  offsets <- rrepeat n (read_number U32) tt ;
  data <- rbytes ;
  check (Z.of_nat (length data) <=? MAX_DOCUMENT_BYTES)%Z else "positional payload exceeds document limit" ;
  let positions := {| p_version := version; p_offsets := offsets_from offsets; p_data := data |} in
  _ <- rlift (let* entries := t_entries table in validate positions (map snd entries)) ;
  rret positions.

Definition read_option {A} (b : bool) (m : read A) : read (option A) :=
  if b then a <- m ; rret (Some a) else rret None.

(** [StoredTerms::from_dictionary] over the ids read, and the positions if present. *)
Definition read_table (dictionary : SharedDictionary) (positions : bool) : read StoredTerms :=
  term_count <- count 2 ;
  ids <- rrepeat term_count (read_term_id dictionary) None ;
  frequencies <- rrepeat term_count (read_number U32) tt ;
  ids <- rlift (omap_list (fun id => if (id <? U32)%Z then Ok id else Panic) ids) ;
  table <- rlift (from_dictionary dictionary ids frequencies) ;
  positions <- read_option positions (read_positions term_count table) ;
  rret {| t_terms := t_terms table; t_positions := positions |}.

Definition read_chunk (dictionary : SharedDictionary) (document : list Z) (index : nat)
    : read (StoredChunk * nat) :=
  flags <- rbyte ;
  check (Z.land flags (Z.lxor 255 CHUNK_FLAGS) =? 0)%Z else "binary journal chunk flags are invalid" ;
  vector_state <- rlift (state_of_bits (Z.land (Z.shiftr flags CHUNK_STATE_SHIFT) 3)) ;
  id <- (if has flags CHUNK_EXPLICIT_ID then rstr else rlift (chunk_id document (Z.of_nat index))) ;
  text <- read_option (has flags CHUNK_TEXT) rstr ;
  start_byte <- number U32 ;
  end_byte <- number U32 ;
  word_count <- number USIZE ;
  dim <- number USIZE ;
  index_count <- count 1 ;
  indices <- rrepeat index_count read_index None ;
  embedding <- read_option (has flags CHUNK_EMBEDDING) read_embedding ;
  table <- read_table dictionary (has flags CHUNK_POSITIONS) ;
  rret ({| c_id := id; c_text := text; c_text_at := None; c_start_byte := start_byte;
           c_end_byte := end_byte; c_vector := {| hv_dim := dim; hv_indices := indices |};
           c_embedding := embedding; c_terms := table; c_word_count := word_count;
           c_stemmed := has flags CHUNK_STEMMED; c_vector_state := vector_state |}, index + 1).

Definition read_source : read (option (list Z)) :=
  source <- rbyte ;
  if (source =? 0)%Z then rret None
  else if (source =? 1)%Z then (uri <- rstr ; rret (Some uri))
  else rfail "binary journal source flag is invalid".

Definition read_document (dictionary : SharedDictionary) : read (StoredDocument Value) :=
  id <- rstr ;
  source_uri <- read_source ;
  version <- rstr ;
  metadata_bytes <- rbytes ;
  metadata <- rlift (from_slice metadata_bytes) ;
  n <- count 8 ;
  chunks <- rrepeat n (read_chunk dictionary id) 0 ;
  rret {| doc_id := id; doc_source_uri := source_uri; doc_version := version;
          doc_metadata := metadata; doc_chunks := chunks |}.
End Documents.

(** ** Chunk ids *)

Lemma decimal_loop_ok room v digits :
  (0 <= v < 10 ^ Z.of_nat (S room))%Z -> exists ds, decimal_loop (S room) v digits = Ok ds.
Proof.
  revert v digits. induction room as [|room IH]; intros v digits Hv; cbn [decimal_loop].
  - rewrite Z.div_small by (change (10 ^ Z.of_nat 1)%Z with 10%Z in Hv; lia). by eexists.
  - destruct (_ =? 0)%Z; [by eexists|]. apply IH. rewrite Nat2Z.inj_succ, Z.pow_succ_r in Hv by lia.
    split; [apply Z.div_pos; lia|]. apply Z.div_lt_upper_bound; lia.
Qed.

Lemma decimal_ok v : is_u64 v -> exists ds, decimal v = Ok ds.
Proof. intros [H1 H2]. apply decimal_loop_ok. unfold U64 in H2. simpl. lia. Qed.

Lemma strip_parts_concat rest parts : strip_parts rest parts = true <-> rest = concat parts.
Proof.
  revert rest. induction parts as [|p parts IH]; intros rest; cbn [strip_parts concat].
  { by rewrite bool_decide_eq_true. }
  unfold strip_prefix. case_bool_decide as H.
  - rewrite IH. rewrite <- (take_drop (length p) rest) at 2. rewrite H. split; [by intros ->|apply app_inv_head].
  - split; [done|]. intros ->. by rewrite take_app_length in H.
Qed.

Lemma is_chunk_id_spec id document index :
  is_u64 (Z.of_nat (length document)) -> is_u64 index ->
  exists derived, chunk_id document index = Ok derived /\
    is_chunk_id id document index = Ok (bool_decide (id = derived)).
Proof.
  intros H1 H2. unfold chunk_id, is_chunk_id, chunk_id_parts.
  destruct (decimal_ok _ H1) as [ds ->], (decimal_ok _ H2) as [os ->]. cbn [obind].
  eexists. split; [done|]. f_equal. set (parts := [_; _; _; _; _; _]).
  destruct (strip_parts id parts) eqn:E.
  - apply strip_parts_concat in E. by rewrite bool_decide_eq_true_2.
  - rewrite bool_decide_eq_false_2; [done|]. intros H%strip_parts_concat. congruence.
Qed.

(** ** Flags *)

Lemma chunk_flags_read e t s m st p :
  let f := chunk_flags e t s m st p in
  (Z.land f (Z.lxor 255 CHUNK_FLAGS) =? 0)%Z = true /\
  state_of_bits (Z.land (Z.shiftr f CHUNK_STATE_SHIFT) 3) = Ok st /\
  has f CHUNK_EXPLICIT_ID = e /\ has f CHUNK_TEXT = t /\ has f CHUNK_STEMMED = s /\
  has f CHUNK_EMBEDDING = m /\ has f CHUNK_POSITIONS = p.
Proof. destruct e, t, s, m, st, p; vm_compute; auto 10. Qed.

(** ** Sequences of numbers *)

Definition delta_ok (previous : option Z) (l : list Z) : Prop :=
  StronglySorted Z.lt l /\ match previous with None => True | Some p => (0 <= p)%Z /\ Forall (Z.lt p) l end.

Lemma delta_ok_cons previous v l : delta_ok previous (v :: l) -> (0 <= v)%Z -> delta_ok (Some v) l.
Proof. intros [Hs _] Hv. inversion Hs; subst. done. Qed.

Lemma put_deltas_ok previous l :
  delta_ok previous l -> Forall (fun v => 0 <= v)%Z l ->
  exists e, put_deltas previous l = Ok e /\ length l <= length e.
Proof.
  intros Hs Hp. revert previous Hs. induction Hp as [|v l Hv Hp IH]; intros previous Hs; cbn [put_deltas].
  { exists []. split; [done|simpl; lia]. }
  destruct (IH (Some v)) as (e & He & Hlen); [by eapply delta_ok_cons|].
  assert (Hg : exists gap, match previous with None => Ok v | Some p => expect (checked_sub v p) end = Ok gap).
  { destruct previous as [p|]; [|by eexists]. destruct Hs as [_ [_ Hpl]]. inversion Hpl; subst.
    unfold checked_sub. rewrite (proj2 (Z.leb_le _ _)) by lia. by eexists. }
  destruct Hg as [gap ->]. cbn [obind]. rewrite He. cbn [obind]. eexists. split; [done|].
  rewrite length_app. pose proof (put_varint_nonempty gap). simpl. lia.
Qed.

(** A reader that accepts every gap of an ascending sequence reads the sequence. *)
Lemma put_deltas_parses (step : option Z -> read (Z * option Z)) previous l e :
  (forall prev v, v ∈ l -> delta_ok prev [v] -> (0 <= v)%Z ->
     parses (step prev) (put_varint (v - default 0%Z prev)) (v, Some v)) ->
  delta_ok previous l -> Forall (fun v => 0 <= v)%Z l -> put_deltas previous l = Ok e ->
  parses (rrepeat (length l) step previous) e l.
Proof.
  intros Hstep Hs Hp. revert previous e Hs. induction Hp as [|v l Hv Hp IH]; intros previous e Hs He; cbn [put_deltas length rrepeat] in *.
  { injection He as <-. apply rret_parses. }
  assert (Hg : match previous with None => Ok v | Some p => expect (checked_sub v p) end = Ok (v - default 0%Z previous)%Z).
  { destruct previous as [p|]; cbn [default from_option id]; [|f_equal; lia]. destruct Hs as [_ [_ Hpl]]. inversion Hpl; subst.
    unfold checked_sub. by rewrite (proj2 (Z.leb_le _ _)) by lia. }
  rewrite Hg in He. cbn [obind] in He. destruct (put_deltas (Some v) l) as [r| |] eqn:Er; [|done|done].
  injection He as <-. eapply rbind_parses.
  - apply Hstep; [left| |done]. destruct Hs as [_ Hs]. split; [repeat constructor|].
    destruct previous; [|done]. destruct Hs as [? Hs]. inversion Hs; subst. auto.
  - cbv beta iota. eapply rbind_parses_end; [|apply rret_parses].
    apply IH; [|by eapply delta_ok_cons|done]. intros. apply Hstep; [by right|done|done].
Qed.

Lemma gap_u64 prev v bound :
  (bound <= U64)%Z -> (0 <= v < bound)%Z -> delta_ok prev [v] ->
  is_u64 (v - default 0%Z prev) /\ (v - default 0%Z prev < bound)%Z.
Proof.
  intros Hb Hv [_ Hp]. unfold is_u64. destruct prev as [p|]; simpl; [|lia].
  destruct Hp as [H0 Hp]. inversion Hp; subst. lia.
Qed.

Lemma read_index_parses prev v :
  is_u32 v -> delta_ok prev [v] -> parses (read_index prev) (put_varint (v - default 0%Z prev)) (v, Some v).
Proof.
  intros Hv Hd. destruct (gap_u64 prev v U32) as [H1 H2]; [unfold U32, U64; lia|done|done|].
  unfold read_index. eapply rbind_parses_end; [by apply number_parses|].
  eapply rbind_lift_parses; [|apply rret_parses].
  destruct prev as [p|]; cbn [default from_option id]; [|f_equal; lia].
  unfold checked_add. rewrite (proj2 (Z.ltb_lt _ _)) by (unfold is_u32 in Hv; simpl; lia). simpl. f_equal. lia.
Qed.

Lemma read_term_id_parses dictionary prev v :
  (0 <= v < Z.of_nat (d_len dictionary))%Z -> (Z.of_nat (d_len dictionary) < USIZE)%Z -> delta_ok prev [v] ->
  parses (read_term_id dictionary prev) (put_varint (v - default 0%Z prev)) (v, Some v).
Proof.
  intros Hv Hn Hd. destruct (gap_u64 prev v USIZE) as [H1 H2]; [unfold USIZE, U64; lia|lia|done|].
  unfold read_term_id. eapply rbind_parses_end; [by apply number_parses|].
  eapply rbind_lift_parses with (a := v).
  - destruct prev as [p|]; cbn [default from_option id]; [|f_equal; lia]. destruct Hd as [_ [_ Hp]]. inversion Hp; subst.
    rewrite (proj2 (Z.ltb_lt _ _)) by lia. unfold checked_add. rewrite (proj2 (Z.ltb_lt _ _)) by lia. simpl. f_equal. lia.
  - apply parses_guard; [apply Z.ltb_lt; lia|apply rret_parses].
Qed.

Lemma rrepeat_unit_parses {A} (step : unit -> read (A * unit)) (enc : A -> list Z) l :
  (forall a, a ∈ l -> parses (step tt) (enc a) (a, tt)) ->
  parses (rrepeat (length l) step tt) (concat (map enc l)) l.
Proof.
  induction l as [|a l IH]; intros H; cbn [length rrepeat map concat]; [apply rret_parses|].
  eapply rbind_parses; [apply H; left|]. cbv beta iota.
  eapply rbind_parses_end; [apply IH; intros; apply H; by right|apply rret_parses].
Qed.

Lemma read_numbers_parses bound l :
  (bound <= U64)%Z -> Forall (fun v => 0 <= v < bound)%Z l ->
  parses (rrepeat (length l) (read_number bound) tt) (concat (map put_varint l)) l.
Proof.
  intros Hb Hl. apply rrepeat_unit_parses. intros v Hv. rewrite Forall_forall in Hl. specialize (Hl v Hv).
  unfold read_number. eapply rbind_parses_end; [apply number_parses; unfold is_u64; lia|apply rret_parses].
Qed.

Lemma put_varints_length l : length l <= length (concat (map put_varint l)).
Proof.
  induction l as [|v l IH]; cbn [map concat length]; [lia|]. rewrite length_app.
  pose proof (put_varint_nonempty v). lia.
Qed.

(** ** Term tables *)

Lemma next_ids_app ids rest : next_ids (length ids) (ids ++ rest) = Ok (map Z.of_nat ids, rest).
Proof. induction ids as [|i ids IH]; simpl; [done|]. by rewrite IH. Qed.

Definition ids_of (words : list (list Z)) (ids : list nat) (keys : list (list Z)) : Prop :=
  Forall2 (fun id k => words !! id = Some k) ids keys.

(** Ascending keys have ascending ids in an ascending dictionary. *)
Lemma ids_of_sorted words ids keys :
  bsorted words -> bsorted keys -> ids_of words ids keys -> StronglySorted Z.lt (map Z.of_nat ids).
Proof.
  intros Hw Hk H. induction H as [|i k ids keys Hi H IH]; cbn [map]; [constructor|].
  inversion Hk as [|?? Hk' Hlt]; subst. constructor; [by apply IH|].
  apply Forall_forall. intros z (j & -> & Hj)%list_elem_of_fmap.
  apply list_elem_of_lookup in Hj as [n Hn]. destruct (Forall2_lookup_l _ _ _ _ _ H Hn) as (k' & Hk'n & Hj).
  rewrite Forall_forall in Hlt. specialize (Hlt k' ltac:(by eapply list_elem_of_lookup_2)).
  destruct (decide (i < j)); [lia|]. exfalso. destruct (decide (i = j)) as [->|].
  - assert (k = k') as <- by congruence. unfold blt in Hlt. by rewrite bcmp_refl in Hlt.
  - pose proof (bsorted_lookup_lt words j i k' k Hw ltac:(lia) Hj Hi) as Hgt.
    pose proof (blt_trans _ _ _ Hlt Hgt) as Hkk. unfold blt in Hkk. by rewrite bcmp_refl in Hkk.
Qed.

Lemma ids_of_bound words ids keys :
  ids_of words ids keys -> Forall (fun v => 0 <= v < Z.of_nat (length words))%Z (map Z.of_nat ids).
Proof.
  intros H. apply Forall_forall. intros z (j & -> & Hj)%list_elem_of_fmap.
  apply list_elem_of_lookup in Hj as [n Hn]. destruct (Forall2_lookup_l _ _ _ _ _ H Hn) as (k & _ & Hk).
  apply lookup_lt_Some in Hk. lia.
Qed.

Lemma ids_of_count words ids keys :
  StronglySorted Z.lt (map Z.of_nat ids) -> ids_of words ids keys -> length ids <= length words.
Proof.
  intros Hsorted Hids. pose proof (ids_of_bound _ _ _ Hids) as Hbound.
  assert (NoDup ids) as Hnd.
  { apply (NoDup_fmap_1 Z.of_nat). change (NoDup (map Z.of_nat ids)). clear -Hsorted.
    induction Hsorted as [|a l _ IH Ha]; constructor; [|done].
    intros Hin. rewrite Forall_forall in Ha. specialize (Ha a Hin). lia. }
  assert (ids ⊆+ seq 0 (length words)) as Hsub.
  { apply NoDup_submseteq; [done|]. intros i Hi. apply elem_of_seq. rewrite Forall_forall in Hbound.
    specialize (Hbound (Z.of_nat i) ltac:(apply list_elem_of_fmap; by exists i)). lia. }
  apply submseteq_length in Hsub. by rewrite length_seq in Hsub.
Qed.

Lemma ids_of_keys words ids keys :
  ids_of words ids keys -> map (fun i => default [] (words !! Z.to_nat i)) (map Z.of_nat ids) = keys.
Proof. induction 1 as [|i k ids keys Hi H IH]; simpl; [done|]. rewrite Nat2Z.id, Hi, IH. done. Qed.

Definition dictionary_of (words : list (list Z)) : SharedDictionary :=
  {| d_text := concat words; d_starts := starts_of words |}.

Lemma dictionary_of_len words : d_len (dictionary_of words) = length words.
Proof. apply starts_of_length. Qed.

Definition positions_ok (frequencies : list Z) (p : Positions) : Prop :=
  validate p frequencies = Ok tt /\ exists v, p_offsets p = offsets_from v /\ Forall is_u32 v.

Lemma positions_ok_parts frequencies p :
  positions_ok frequencies p ->
  ((p_version p =? VERSION) || (p_version p =? DOCUMENT_VERSION))%Z = true /\
  offsets_len (p_offsets p) = length frequencies + 1 /\
  (Z.of_nat (length (p_data p)) <= MAX_DOCUMENT_BYTES)%Z.
Proof.
  intros [H _]. unfold validate in H. inv_ok.
  repeat match goal with H : (_ && _) = true |- _ => apply andb_true_iff in H as [??] end.
  bool_to_prop. auto.
Qed.

Lemma read_positions_parses table entries p :
  repr (t_terms table) entries -> positions_ok (map snd entries) p -> (Z.of_nat (length entries) + 1 < USIZE)%Z ->
  parses (read_positions (length entries) table) (put_positions p) p.
Proof.
  intros Hr Hp Hn. destruct (positions_ok_parts _ _ Hp) as (Hv & Hl & Hd). destruct Hp as (Hval & v & Ho & Hu).
  rewrite length_map in Hl. destruct p as [version offsets data]; cbn [p_version p_offsets p_data] in *. subst offsets.
  rewrite offsets_len_iter, offsets_from_iter in Hl by done.
  unfold read_positions, put_positions. cbn [p_version p_offsets p_data].
  rewrite offsets_len_iter, offsets_from_iter by done.
  eapply rbind_parses; [apply rbyte_parses|]. apply parses_guard; [done|].
  apply rbind_count_parses; [lia|rewrite length_app; pose proof (put_varints_length v); simpl; lia|].
  apply parses_guard; [by apply Nat.eqb_eq|].
  eapply rbind_parses; [apply read_numbers_parses; [unfold U32, U64; lia|done]|].
  eapply rbind_parses_end; [apply rbytes_parses; unfold MAX_DOCUMENT_BYTES, USIZE in *; lia|].
  apply parses_guard; [by apply Z.leb_le|].
  eapply rbind_lift_parses; [|apply rret_parses]. by rewrite (t_entries_repr _ _ Hr).
Qed.

Lemma read_option_parses {A} (m : read A) (enc : A -> list Z) (o : option A) :
  (forall a, o = Some a -> parses m (enc a) a) ->
  parses (read_option (bool_decide (is_Some o)) m) (put_option enc o) o.
Proof.
  intros H. destruct o as [a|].
  - rewrite bool_decide_eq_true_2 by done. cbn [put_option]. eapply rbind_parses_end; [by apply H|apply rret_parses].
  - rewrite bool_decide_eq_false_2 by (intros [? ?]; done). apply rret_parses.
Qed.

Lemma read_table_parses words ids entries ps gaps :
  words_ok words -> ids_of words ids (map fst entries) -> entries_ok entries ->
  (forall p, ps = Some p -> positions_ok (map snd entries) p) ->
  put_deltas None (map Z.of_nat ids) = Ok gaps ->
  exists t, repr (t_terms t) entries /\ t_positions t = ps /\
    parses (read_table (dictionary_of words) (bool_decide (is_Some ps)))
      (put_varint (Z.of_nat (length entries)) ++ gaps ++
       concat (map (fun e : list Z * Z => put_varint e.2) entries) ++ put_option put_positions ps) t.
Proof.
  intros Hw Hids [Hks Hfs] Hps Hgaps. pose proof (words_ok_count words Hw) as Hwc. destruct (Hw) as (Hws & _).
  pose proof (ids_of_sorted _ _ _ Hws Hks Hids) as Hsorted. pose proof (ids_of_bound _ _ _ Hids) as Hbound.
  assert (Hlen : length ids = length entries) by (rewrite (Forall2_length _ _ _ Hids), length_map; done).
  pose proof (ids_of_count _ _ _ Hsorted Hids) as Hil.
  destruct (from_dictionary_repr words (map Z.of_nat ids) (map snd entries) (dictionary_of words))
    as (t & Ht & Htp & Hrepr); [done|apply Hw|done|done|by rewrite !length_map|done|].
  rewrite (ids_of_keys _ _ _ Hids) in Hrepr. rewrite zip_fst_snd in Hrepr.
  exists {| t_terms := t_terms t; t_positions := ps |}. split; [done|]. split; [done|].
  assert (Hpos : Forall (fun v => 0 <= v)%Z (map Z.of_nat ids)).
  { eapply Forall_impl; [exact Hbound|]. simpl. lia. }
  destruct (put_deltas_ok None (map Z.of_nat ids)) as (e & He & Hge); [done|done|].
  assert (e = gaps) as -> by congruence. rewrite length_map in Hge.
  unfold read_table. apply rbind_count_parses; [unfold U32, USIZE in *; lia| |].
  { rewrite !length_app. pose proof (put_varints_length (map snd entries)) as L. rewrite map_map, length_map in L.
    simpl. lia. }
  eapply rbind_parses.
  { rewrite <- Hlen, <- (length_map Z.of_nat ids).
    apply put_deltas_parses with (previous := None); [|done|done|done]. intros prev v Hv Hd H0.
    rewrite Forall_forall in Hbound. apply read_term_id_parses; rewrite ?dictionary_of_len; auto.
    unfold U32, USIZE in *; lia. }
  eapply rbind_parses.
  { rewrite <- (length_map snd entries), <- (map_map snd put_varint). apply read_numbers_parses; [unfold U32, U64; lia|done]. }
  eapply rbind_lift_parses.
  { rewrite (omap_list_ok _ (fun v => v)); [by rewrite map_id|]. intros v Hv. rewrite Forall_forall in Hbound.
    specialize (Hbound v Hv). by rewrite (proj2 (Z.ltb_lt _ _)) by lia. }
  eapply rbind_lift_parses; [exact Ht|].
  eapply rbind_parses_end; [|apply rret_parses].
  apply read_option_parses. intros p ->. apply read_positions_parses; [done|by apply Hps|unfold U32, USIZE in *; lia].
Qed.

(** ** Chunks *)

Definition small (l : list Z) : Prop := (Z.of_nat (length l) < USIZE)%Z.

Section RoundTrip.
Context {Value : Type} (to_vec : Value -> outcome (list Z)) (from_slice : list Z -> outcome Value).
Context (segment : option (location -> outcome (list Z))).

(** A chunk the engine can hold: machine-width fields, an ascending vector, a term table of
    either layout with validated positions, resolvable text. *)
Record chunk_ok (entries : list (list Z * Z)) (text : option (list Z)) (c : StoredChunk) : Prop := {
  co_id : utf8_valid (c_id c) = true /\ small (c_id c);
  co_text : chunk_text segment c = Ok text;
  co_text_ok : forall t, text = Some t -> utf8_valid t = true /\ small t;
  co_start : is_u32 (c_start_byte c);
  co_end : is_u32 (c_end_byte c);
  co_words : is_u64 (c_word_count c);
  co_dim : is_u64 (hv_dim (c_vector c));
  co_indices : StronglySorted Z.lt (hv_indices (c_vector c)) /\ Forall is_u32 (hv_indices (c_vector c)) /\
               small (hv_indices (c_vector c));
  co_embedding : forall e, c_embedding c = Some e -> Forall is_u32 e /\ small e;
  co_terms : repr (t_terms (c_terms c)) entries;
  co_entries : entries_ok entries;
  co_positions : forall p, t_positions (c_terms c) = Some p -> positions_ok (map snd entries) p;
  (** Not a chunk whose record may take only seven bytes, which [read_document] refuses: see
      [short_chunk_unreadable]. *)
  co_eight : (128 <= hv_dim (c_vector c))%Z \/ text <> None \/ entries <> [] \/ hv_indices (c_vector c) <> [] \/
             c_embedding c <> None \/ t_positions (c_terms c) <> None \/
             (128 <= c_start_byte c \/ 128 <= c_end_byte c \/ 128 <= c_word_count c)%Z }.

(** The chunk a reader restores: the text inline, the same terms in the dictionary layout. *)
Definition restored (c c' : StoredChunk) : Prop :=
  c_id c' = c_id c /\ Ok (c_text c') = chunk_text segment c /\ c_text_at c' = None /\
  c_start_byte c' = c_start_byte c /\ c_end_byte c' = c_end_byte c /\ c_vector c' = c_vector c /\
  c_embedding c' = c_embedding c /\ c_word_count c' = c_word_count c /\ c_stemmed c' = c_stemmed c /\
  c_vector_state c' = c_vector_state c /\ t_positions (c_terms c') = t_positions (c_terms c) /\
  exists entries, repr (t_terms (c_terms c)) entries /\ repr (t_terms (c_terms c')) entries /\ entries_ok entries.

Lemma read_embedding_parses e :
  Forall is_u32 e -> small e ->
  parses read_embedding (put_varint (Z.of_nat (length e)) ++ concat (map (to_le_bytes 4) e)) e.
Proof.
  intros He Hs. unfold read_embedding.
  apply rbind_count_parses; [done| |].
  { clear. induction e as [|v e IH]; cbn [map concat length]; [simpl; lia|].
    rewrite length_app, to_le_bytes_length. simpl in *. lia. }
  apply rrepeat_unit_parses. intros v Hv. rewrite Forall_forall in He. specialize (He v Hv).
  unfold read_f32. eapply rbind_parses_end.
  - pose proof (rtake_parses (to_le_bytes 4 v)) as R. rewrite to_le_bytes_length in R. exact R.
  - rewrite from_to_le_bytes by (unfold is_u32, U32 in He; simpl; lia). apply rret_parses.
Qed.

Lemma read_id_parses (explicit : bool) id document index derived :
  utf8_valid id = true -> small id -> chunk_id document index = Ok derived ->
  explicit = negb (bool_decide (id = derived)) ->
  parses (if explicit then rstr else rlift (chunk_id document index)) (if explicit then put_bytes id else []) id.
Proof.
  intros Hu Hs Hd ->. case_bool_decide as E; simpl; [|by apply rstr_parses].
  apply rlift_parses. by rewrite Hd, E.
Qed.

(** The record takes the eight bytes the chunk count is checked against. *)
Lemma chunk_record_eight explicit entries text c vector gaps :
  chunk_ok entries text c -> length (hv_indices (c_vector c)) <= length vector ->
  length entries <= length gaps -> 8 <= length (chunk_record explicit text c vector gaps entries).
Proof.
  intros Hc Hv Hg. unfold chunk_record. rewrite !length_app. cbn [length]. pose proof put_varint_nonempty as V.
  pose proof (V (c_start_byte c)). pose proof (V (c_end_byte c)). pose proof (V (c_word_count c)).
  pose proof (V (hv_dim (c_vector c))). pose proof (V (Z.of_nat (length (hv_indices (c_vector c))))).
  pose proof (V (Z.of_nat (length entries))).
  destruct (co_eight _ _ _ Hc) as [Hdim|[Ht|[He|[Hi|[Hm|[Hps|Hlong]]]]]].
  - pose proof (put_varint_two _ Hdim). lia.
  - destruct text as [x|]; [|done]. cbn [put_option]. pose proof (put_bytes_nonempty x). lia.
  - destruct entries; [done|]. simpl in Hg. lia.
  - destruct (hv_indices (c_vector c)); [done|]. simpl in Hv. lia.
  - destruct (c_embedding c) as [e|]; [|done]. cbn [put_option]. rewrite length_app. pose proof (V (Z.of_nat (length e))). lia.
  - destruct (t_positions (c_terms c)) as [p|]; [|done]. cbn [put_option]. unfold put_positions. rewrite !length_app. cbn [length]. lia.
  - destruct Hlong as [Hl|[Hl|Hl]]; pose proof (put_varint_two _ Hl); lia.
Qed.

Lemma chunk_record_parses words document index derived c entries text vector ids gaps :
  words_ok words -> chunk_ok entries text c -> ids_of words ids (map fst entries) ->
  chunk_id document (Z.of_nat index) = Ok derived ->
  put_deltas None (hv_indices (c_vector c)) = Ok vector -> length (hv_indices (c_vector c)) <= length vector ->
  put_deltas None (map Z.of_nat ids) = Ok gaps ->
  exists c', restored c c' /\
    parses (read_chunk (dictionary_of words) document index)
      (chunk_record (negb (bool_decide (c_id c = derived))) text c vector gaps entries) (c', index + 1).
Proof.
  intros Hw Hc Hids Hd Hvec Hvl Hgaps. destruct (co_indices _ _ _ Hc) as (Hvs & Hvu & Hvn).
  destruct (read_table_parses words ids entries (t_positions (c_terms c)) gaps)
    as (t & Htr & Htp & Hparse); [done|done|apply (co_entries _ _ _ Hc)|apply (co_positions _ _ _ Hc)|done|].
  set (explicit := negb (bool_decide (c_id c = derived))). unfold chunk_record.
  set (f := chunk_flags _ _ _ _ _ _). 
  destruct (chunk_flags_read explicit (bool_decide (is_Some text)) (c_stemmed c)
    (bool_decide (is_Some (c_embedding c))) (c_vector_state c)
    (bool_decide (is_Some (t_positions (c_terms c))))) as (F1 & F2 & F3 & F4 & F5 & F6 & F7). fold f in F1, F2, F3, F4, F5, F6, F7.
  eexists. split.
  2: { unfold read_chunk. eapply rbind_parses; [apply rbyte_parses|].
       apply parses_guard; [exact F1|]. eapply rbind_lift_parses; [exact F2|].
       rewrite F3, F4, F5, F6, F7.
       eapply rbind_parses; [apply (read_id_parses explicit _ _ _ derived); [apply (co_id _ _ _ Hc)..|exact Hd|done]|].
       eapply rbind_parses; [apply read_option_parses; intros x Hx; destruct (co_text_ok _ _ _ Hc x Hx); by apply rstr_parses|].
       pose proof (co_start _ _ _ Hc). pose proof (co_end _ _ _ Hc). pose proof (co_words _ _ _ Hc). pose proof (co_dim _ _ _ Hc).
       unfold is_u32, is_u64, U32, U64 in *.
       do 4 (eapply rbind_parses; [apply number_parses; unfold is_u64, U32, U64, USIZE; lia|]).
       apply rbind_count_parses; [done|rewrite length_app; simpl; lia|].
       eapply rbind_parses.
       { apply put_deltas_parses with (previous := None); [|done|eapply Forall_impl; [exact Hvu|]; simpl; lia|done].
         intros prev v Hv Hdv _. rewrite Forall_forall in Hvu. apply read_index_parses; [by apply Hvu|done]. }
       eapply rbind_parses; [apply read_option_parses; intros e He; destruct (co_embedding _ _ _ Hc e He); by apply read_embedding_parses|].
       eapply rbind_parses_end; [exact Hparse|]. apply rret_parses. }
  unfold restored. cbn. rewrite Htp, (co_text _ _ _ Hc). destruct (c_vector c); cbn. split_and!; auto.
  exists entries. split_and!; [apply (co_terms _ _ _ Hc)|done|apply (co_entries _ _ _ Hc)..].
Qed.

Lemma write_chunk_parses words document index c entries text ids rest :
  words_ok words -> small document -> is_u64 (Z.of_nat index) -> chunk_ok entries text c ->
  ids_of words ids (map fst entries) ->
  exists bytes c', write_chunk segment document index c (ids ++ rest) = Ok (bytes, rest) /\
    8 <= length bytes /\ restored c c' /\
    parses (read_chunk (dictionary_of words) document index) bytes (c', index + 1).
Proof.
  intros Hw Hdoc Hi Hc Hids. destruct (co_indices _ _ _ Hc) as (Hvs & Hvu & Hvn).
  assert (Hlen : length ids = length entries) by (rewrite (Forall2_length _ _ _ Hids), length_map; done).
  destruct (is_chunk_id_spec (c_id c) document (Z.of_nat index)) as (derived & Hd & Hisd);
    [split; [lia|exact Hdoc]|done|].
  destruct (put_deltas_ok None (hv_indices (c_vector c))) as (vector & Hvec & Hvecl);
    [done|eapply Forall_impl; [exact Hvu|]; unfold is_u32; simpl; lia|].
  destruct (Hw) as (Hws & _). destruct (co_entries _ _ _ Hc) as [Hks Hfs].
  destruct (put_deltas_ok None (map Z.of_nat ids)) as (gaps & Hgaps & Hgapl).
  { split; [exact (ids_of_sorted _ _ _ Hws Hks Hids)|done]. }
  { eapply Forall_impl; [exact (ids_of_bound _ _ _ Hids)|]. simpl. lia. }
  rewrite length_map, Hlen in Hgapl.
  destruct (chunk_record_parses words document index derived c entries text vector ids gaps)
    as (c' & Hres & Hparse); [done..|].
  exists (chunk_record (negb (bool_decide (c_id c = derived))) text c vector gaps entries), c'.
  split_and!; [|by apply chunk_record_eight|done|done].
  unfold write_chunk. rewrite (co_text _ _ _ Hc), Hisd. cbn [obind]. rewrite Hvec. cbn [obind].
  rewrite (t_len_repr _ _ (co_terms _ _ _ Hc)), <- Hlen, next_ids_app. cbn [obind]. rewrite Hgaps. cbn [obind].
  by rewrite (t_entries_repr _ _ (co_terms _ _ _ Hc)).
Qed.

(** ** Documents *)

(** [tables] are the entries of the chunks, in order. *)
Definition chunks_ok (tables : list (list (list Z * Z))) (chunks : list StoredChunk) : Prop :=
  Forall2 (fun entries c => exists text, chunk_ok entries text c) tables chunks.

Definition keys_of (tables : list (list (list Z * Z))) : list (list Z) := concat (map (map fst) tables).

Lemma write_chunks_parses words document tables chunks index ids rest :
  words_ok words -> small document -> is_u64 (Z.of_nat (index + length chunks)) ->
  chunks_ok tables chunks -> ids_of words ids (keys_of tables) ->
  exists bytes chunks', write_chunks segment document index chunks (ids ++ rest) = Ok (bytes, rest) /\
    8 * length chunks <= length bytes /\ Forall2 restored chunks chunks' /\
    parses (rrepeat (length chunks) (read_chunk (dictionary_of words) document) index) bytes chunks'.
Proof.
  intros Hw Hdoc Hi Hc. revert index ids Hi.
  induction Hc as [|entries c tables chunks [text Hc] Hcs IH]; intros index ids Hi Hids.
  - inversion Hids; subst. exists [], []. split_and!; [done|simpl; lia|constructor|apply rret_parses].
  - unfold keys_of in Hids. cbn [map concat] in Hids. apply Forall2_app_inv_r in Hids as (ids1 & ids2 & H1 & H2 & ->).
    rewrite <- app_assoc. cbn [length] in Hi.
    destruct (write_chunk_parses words document index c entries text ids1 (ids2 ++ rest))
      as (b1 & c' & Hwr & H8 & Hres & Hp); [done|done|unfold is_u64 in *; lia|done|done|].
    destruct (IH (index + 1) ids2) as (b2 & cs' & Hwr2 & H82 & Hres2 & Hp2); [unfold is_u64 in *; lia|done|].
    exists (b1 ++ b2), (c' :: cs'). cbn [write_chunks]. rewrite Hwr. cbn [obind]. rewrite Hwr2. cbn [obind length rrepeat].
    rewrite length_app. split_and!; [done|lia|by constructor|].
    eapply rbind_parses; [exact Hp|]. cbv beta iota.
    eapply rbind_parses_end; [exact Hp2|apply rret_parses].
Qed.

Lemma read_source_parses o :
  (forall u, o = Some u -> utf8_valid u = true /\ small u) -> parses read_source (put_source o) o.
Proof.
  intros H. unfold read_source, put_source. destruct o as [u|].
  - destruct (H u eq_refl). eapply rbind_parses; [apply rbyte_parses|]. cbn.
    eapply rbind_parses_end; [by apply rstr_parses|apply rret_parses].
  - eapply rbind_parses_end; [apply rbyte_parses|apply rret_parses].
Qed.

Record document_ok (tables : list (list (list Z * Z))) (d : StoredDocument Value) : Prop := {
  do_id : utf8_valid (doc_id d) = true /\ small (doc_id d);
  do_uri : forall u, doc_source_uri d = Some u -> utf8_valid u = true /\ small u;
  do_version : utf8_valid (doc_version d) = true /\ small (doc_version d);
  do_metadata : exists b, to_vec (doc_metadata d) = Ok b /\ from_slice b = Ok (doc_metadata d) /\ small b;
  do_count : (Z.of_nat (length (doc_chunks d)) < USIZE)%Z;
  do_chunks : chunks_ok tables (doc_chunks d) }.

Definition restored_document (d d' : StoredDocument Value) : Prop :=
  doc_id d' = doc_id d /\ doc_source_uri d' = doc_source_uri d /\ doc_version d' = doc_version d /\
  doc_metadata d' = doc_metadata d /\ Forall2 restored (doc_chunks d) (doc_chunks d').

(** A written document is read back with every field, its text inline and the same terms. *)
Lemma write_document_parses words tables d ids rest :
  words_ok words -> document_ok tables d -> ids_of words ids (keys_of tables) ->
  exists bytes d', write_document to_vec segment d (ids ++ rest) = Ok (bytes, rest) /\
    restored_document d d' /\ parses (read_document from_slice (dictionary_of words)) bytes d'.
Proof.
  intros Hw Hd Hids. destruct (do_id _ _ Hd) as [Hiu His], (do_version _ _ Hd) as [Hvu Hvs].
  destruct (do_metadata _ _ Hd) as (b & Hto & Hfrom & Hbs).
  destruct (write_chunks_parses words (doc_id d) tables (doc_chunks d) 0 ids rest)
    as (bytes & chunks' & Hwr & H8 & Hres & Hp); [done|done|split; [lia|apply (do_count _ _ Hd)]|apply (do_chunks _ _ Hd)|done|].
  unfold write_document. rewrite Hto. cbn [obind]. rewrite Hwr. cbn [obind].
  eexists _, {| doc_id := doc_id d; doc_source_uri := doc_source_uri d; doc_version := doc_version d;
                doc_metadata := doc_metadata d; doc_chunks := chunks' |}.
  split; [reflexivity|]. split; [unfold restored_document; by split_and!|].
  unfold read_document. eapply rbind_parses; [by apply rstr_parses|].
  eapply rbind_parses; [apply read_source_parses, (do_uri _ _ Hd)|].
  eapply rbind_parses; [by apply rstr_parses|]. eapply rbind_parses; [by apply rbytes_parses|].
  eapply rbind_lift_parses; [exact Hfrom|].
  apply rbind_count_parses; [apply (do_count _ _ Hd)|simpl; lia|].
  eapply rbind_parses_end; [exact Hp|apply rret_parses].
Qed.
End RoundTrip.
