(* ===== verification/Journal.v ===== *)
(** * Journal frame payloads

    [src/core/engine/journal.rs]: the [HMS-TXN-3] payload of a list of mutations.  Documents and
    document deletes are binary, every other mutation is its JSON element; the mutations that are
    carried as JSON and their [serde_json] form are parameters. *)

From S2P Require Import Prelude Words Search Positions Terms FrameDict TextSegment Binary.

(** ["HMS-TXN-2\0"] and ["HMS-TXN-3\0"]. *)
Definition JSON_MAGIC : list Z := [72; 77; 83; 45; 84; 88; 78; 45; 50; 0]%Z.
Definition BINARY_MAGIC : list Z := [72; 77; 83; 45; 84; 88; 78; 45; 51; 0]%Z.

Definition TAG_JSON : Z := 0.
Definition TAG_DOCUMENT : Z := 1.
Definition TAG_DELETE_DOCUMENT : Z := 2.

Inductive JournalFormat : Type := FormatJson | FormatBinary.

Definition for_schema (version : Z) : JournalFormat :=
  if (3 <=? version)%Z then FormatBinary else FormatJson.

Section Journal.
Context {Value Other : Type}.
Context (to_vec : Value -> outcome (list Z)) (from_slice : list Z -> outcome Value).

(** The mutations the binary form distinguishes; [MOther] is any of the rest. *)
Inductive Mutation : Type :=
| MDocument (d : StoredDocument Value)
| MDeleteDocument (id : list Z)
| MOther (o : Other).

(** [serde_json::to_vec] and [from_slice] of one mutation and [to_vec] of a list of them. *)
Context (mutation_to_vec : Mutation -> outcome (list Z)) (mutation_from_slice : list Z -> outcome Mutation).
Context (mutations_to_vec : list Mutation -> outcome (list Z)).

Definition document_of (m : Mutation) : option (StoredDocument Value) :=
  match m with
  | MDocument d => if representable d then Some d else None
  | _ => None
  end.

(** The (chunk, term) keys of documents, in order: what [FrameTerms::new] walks. *)
Definition document_keys (docs : list (StoredDocument Value)) : outcome (list (list Z)) :=
  let* keys := omap_list (fun c => t_keys (c_terms c)) (concat (map doc_chunks docs)) in
  Ok (concat keys).

Fixpoint write_mutations (segment : option (location -> outcome (list Z))) (ms : list Mutation) (ids : list nat)
    : outcome (list Z) :=
  match ms with
  | [] => Ok []
  | m :: ms =>
      let* (bytes, ids) :=
        match document_of m with
        | Some d =>
            let* (b, ids) := write_document to_vec segment d ids in Ok (TAG_DOCUMENT :: b, ids)
        | None =>
            match m with
            | MDeleteDocument id => Ok (TAG_DELETE_DOCUMENT :: put_bytes id, ids)
            | _ => let* j := mutation_to_vec m in Ok (TAG_JSON :: put_bytes j, ids)
            end
        end in
      let* rest := write_mutations segment ms ids in
      Ok (bytes ++ rest)
  end.

(** [binary_payload]. *)
Definition binary_payload (ms : list Mutation) : outcome (list Z) :=
  let* keys := document_keys (omap document_of ms) in
  let terms := frame_terms_new keys in
  let* body := write_mutations None ms (ft_ids terms) in
  Ok (BINARY_MAGIC ++ put_varint (Z.of_nat (length ms)) ++ frame_terms_write (ft_sorted terms) ++ body).

(** [binary_document_payload]. *)
Definition binary_document_payload (d : StoredDocument Value) (segment : option (location -> outcome (list Z)))
    : outcome (option (list Z)) :=
  if negb (representable d) then Ok None
  else
    let* keys := document_keys [d] in
    let terms := frame_terms_new keys in
    let* (b, _) := write_document to_vec segment d (ft_ids terms) in
    Ok (Some (BINARY_MAGIC ++ put_varint 1 ++ frame_terms_write (ft_sorted terms) ++ TAG_DOCUMENT :: b)).

(** ** Decoding *)

Record BinaryDecoder := mkDecoder { bd_reader : Reader; bd_terms : SharedDictionary; bd_remaining : nat }.

Definition decoder_new (body : list Z) : outcome BinaryDecoder :=
  let* (remaining, r) := count 2 (reader_new body) in
  let* (terms, r) := decoded_terms_read r in
  Ok {| bd_reader := r; bd_terms := terms; bd_remaining := remaining |}.

Definition read_mutation (terms : SharedDictionary) : read Mutation :=
  tag <- rbyte ;
  if (tag =? TAG_JSON)%Z then (b <- rbytes ; rlift (mutation_from_slice b))
  else if (tag =? TAG_DOCUMENT)%Z then (d <- read_document from_slice terms ; rret (MDocument d))
  else if (tag =? TAG_DELETE_DOCUMENT)%Z then (id <- rstr ; rret (MDeleteDocument id))
  else rfail "binary journal mutation tag is invalid".

(** [BinaryDecoder::next_mutation]. *)
Definition next_mutation (d : BinaryDecoder) : outcome (option Mutation * BinaryDecoder) :=
  match bd_remaining d with
  | O =>
      ensure (is_empty (bd_reader d)) else "binary journal payload has bytes after its last mutation" ;
      Ok (None, d)
  | S remaining =>
      let* (m, r) := read_mutation (bd_terms d) (bd_reader d) in
      Ok (Some m, {| bd_reader := r; bd_terms := bd_terms d; bd_remaining := remaining |})
  end.

(** [while let Some(mutation) = decoder.next_mutation()?]: at most one round per remaining
    mutation and the last that ends the loop. *)
Fixpoint decode_loop (fuel : nat) (d : BinaryDecoder) : outcome (list Mutation) :=
  match fuel with
  | O => Panic
  | S fuel =>
      let* (m, d) := next_mutation d in
      match m with
      | None => Ok []
      | Some m => let* rest := decode_loop fuel d in Ok (m :: rest)
      end
  end.

Lemma decode_loop_S fuel d :
  decode_loop (S fuel) d =
  (let* (m, d) := next_mutation d in
   match m with None => Ok [] | Some m => let* rest := decode_loop fuel d in Ok (m :: rest) end).
Proof. done. Qed.

Definition decode_body (body : list Z) : outcome (list Mutation) :=
  let* d := decoder_new body in decode_loop (S (bd_remaining d)) d.

(** [payload_json]: [None] without a magic. *)
Definition payload_json (payload : list Z) : option (outcome (list Z)) :=
  match strip_prefix payload JSON_MAGIC with
  | Some json => Some (Ok json)
  | None =>
      match strip_prefix payload BINARY_MAGIC with
      | None => None
      | Some body => Some (let* ms := decode_body body in mutations_to_vec ms)
      end
  end.

(** ** Round trip *)

(** [tables]: the term tables of the mutation's document, if the binary form carries it. *)
Inductive mutation_ok (segment : option (location -> outcome (list Z))) : list (list (list Z * Z)) -> Mutation -> Prop :=
| ok_document tables d :
    document_ok to_vec from_slice segment tables d -> mutation_ok segment tables (MDocument d)
| ok_delete id : utf8_valid id = true -> small id -> mutation_ok segment [] (MDeleteDocument id)
| ok_json m j :
    document_of m = None -> (forall id, m <> MDeleteDocument id) ->
    mutation_to_vec m = Ok j -> mutation_from_slice j = Ok m -> small j -> mutation_ok segment [] m.

Definition restored_mutation (segment : option (location -> outcome (list Z))) (m m' : Mutation) : Prop :=
  match m, m' with
  | MDocument d, MDocument d' => d = d' \/ restored_document segment d d'
  | _, _ => m = m'
  end.

Lemma restored_mutation_refl segment m : restored_mutation segment m m.
Proof. destruct m; simpl; auto. Qed.

Lemma chunks_ok_representable segment tables chunks :
  chunks_ok segment tables chunks -> forallb (fun c => ascending (hv_indices (c_vector c))) chunks = true.
Proof.
  induction 1 as [|e c tables chunks [t Hc] _ IH]; simpl; [done|]. rewrite IH, andb_true_r.
  apply ascending_Sorted. apply (co_indices _ _ _ _ Hc).
Qed.

Lemma document_ok_representable segment tables d :
  document_ok to_vec from_slice segment tables d -> representable d = true.
Proof. intros Hd. apply (chunks_ok_representable segment tables), (do_chunks _ _ _ _ _ Hd). Qed.

Lemma document_ok_of segment tables d :
  document_ok to_vec from_slice segment tables d -> document_of (MDocument d) = Some d.
Proof. intros Hd. unfold document_of. by rewrite (document_ok_representable _ _ _ Hd). Qed.

Lemma write_document_nonempty segment d ids b rest :
  write_document to_vec segment d ids = Ok (b, rest) -> 1 <= length b.
Proof.
  intros H. unfold write_document in H. inv_ok. destruct a0. inv_ok.
  rewrite length_app. pose proof (put_bytes_nonempty (doc_id d)). lia.
Qed.

Lemma read_mutation_document terms b d :
  parses (read_document from_slice terms) b d -> parses (read_mutation terms) (TAG_DOCUMENT :: b) (MDocument d).
Proof.
  intros Hp. unfold read_mutation. change (TAG_DOCUMENT :: b) with ([TAG_DOCUMENT] ++ b).
  eapply rbind_parses; [apply rbyte_parses|]. cbn.
  eapply rbind_parses_end; [exact Hp|apply rret_parses].
Qed.

Lemma decode_loop_end fuel p terms :
  decode_loop (S fuel) {| bd_reader := mid p []; bd_terms := terms; bd_remaining := 0 |} = Ok [].
Proof. rewrite decode_loop_S. unfold next_mutation. cbn [bd_remaining bd_reader]. by rewrite is_empty_mid. Qed.

Lemma decode_loop_cons fuel p terms b m s n :
  parses (read_mutation terms) b m ->
  decode_loop (S fuel) {| bd_reader := mid p (b ++ s); bd_terms := terms; bd_remaining := S n |} =
  (let* rest := decode_loop fuel {| bd_reader := mid (p ++ b) s; bd_terms := terms; bd_remaining := n |} in Ok (m :: rest)).
Proof.
  intros Hp. rewrite decode_loop_S. unfold next_mutation at 1. cbn [bd_remaining bd_reader bd_terms]. by rewrite Hp.
Qed.

(** Reading one written mutation. *)
Lemma write_mutation_parses segment words tables m ms ids rest body :
  words_ok words -> mutation_ok segment tables m -> ids_of words ids (keys_of tables) ->
  write_mutations segment ms rest = Ok body ->
  exists bytes m', write_mutations segment (m :: ms) (ids ++ rest) = Ok (bytes ++ body) /\
    restored_mutation segment m m' /\ 2 <= length bytes /\ parses (read_mutation (dictionary_of words)) bytes m'.
Proof.
  intros Hw Hm Hids Hms. destruct Hm as [tables d Hd|id Hu Hs|m j Hn Hnd Hto Hfrom Hs].
  - destruct (write_document_parses to_vec from_slice segment words tables d ids rest)
      as (b & d' & Hwr & Hres & Hp); [done..|].
    exists (TAG_DOCUMENT :: b), (MDocument d'). cbn [write_mutations].
    rewrite (document_ok_of _ _ _ Hd), Hwr. cbn [obind]. rewrite Hms. cbn [obind]. split_and!; [done|by right| |].
    + apply write_document_nonempty in Hwr. simpl. lia.
    + by apply read_mutation_document.
  - apply Forall2_nil_inv_r in Hids as ->.
    exists (TAG_DELETE_DOCUMENT :: put_bytes id), (MDeleteDocument id). cbn [write_mutations document_of app].
    cbn [obind]. rewrite Hms. cbn [obind]. split_and!; [done|done| |].
    + pose proof (put_bytes_nonempty id). simpl. lia.
    + unfold read_mutation. change (TAG_DELETE_DOCUMENT :: ?b) with ([TAG_DELETE_DOCUMENT] ++ b).
      eapply rbind_parses; [apply rbyte_parses|]. cbn.
      eapply rbind_parses_end; [by apply rstr_parses|apply rret_parses].
  - apply Forall2_nil_inv_r in Hids as ->.
    exists (TAG_JSON :: put_bytes j), m. cbn [write_mutations app]. rewrite Hn.
    split_and!; [|apply restored_mutation_refl| |].
    + destruct m; rewrite ?Hto; cbn [obind]; rewrite ?Hms; try done. by destruct (Hnd id).
    + pose proof (put_bytes_nonempty j). simpl. lia.
    + unfold read_mutation. change (TAG_JSON :: ?b) with ([TAG_JSON] ++ b).
      eapply rbind_parses; [apply rbyte_parses|]. cbn.
      eapply rbind_parses_end; [by apply rbytes_parses|by apply rlift_parses].
Qed.

Lemma write_mutations_decode segment words tabless ms ids :
  words_ok words -> Forall2 (mutation_ok segment) tabless ms -> ids_of words ids (keys_of (concat tabless)) ->
  exists bytes ms', write_mutations segment ms ids = Ok bytes /\ Forall2 (restored_mutation segment) ms ms' /\
    2 * length ms <= length bytes /\
    forall p, decode_loop (S (length ms))
      {| bd_reader := mid p bytes; bd_terms := dictionary_of words; bd_remaining := length ms |} = Ok ms'.
Proof.
  intros Hw Hms. revert ids. induction Hms as [|tables m tabless ms Hm Hms IH]; intros ids Hids.
  - exists [], []. split_and!; [done|constructor|simpl; lia|]. intros p. apply decode_loop_end.
  - unfold keys_of in Hids. cbn [concat] in Hids. rewrite map_app, concat_app in Hids.
    apply Forall2_app_inv_r in Hids as (ids1 & ids2 & H1 & H2 & ->).
    destruct (IH ids2 H2) as (body & ms' & Hwr & Hres & Hl & Hdec).
    destruct (write_mutation_parses segment words tables m ms ids1 ids2 body)
      as (bytes & m' & Hwr' & Hres' & Hl' & Hp); [done..|].
    exists (bytes ++ body), (m' :: ms'). split_and!; [done|by constructor|rewrite length_app; simpl; lia|].
    intros p. cbn [length]. rewrite (decode_loop_cons _ _ _ _ m') by done. by rewrite Hdec.
Qed.

Lemma document_keys_ok segment tabless ms :
  Forall2 (mutation_ok segment) tabless ms ->
  document_keys (omap document_of ms) = Ok (keys_of (concat tabless)).
Proof.
  assert (C : forall tables chunks, chunks_ok segment tables chunks ->
    omap_list (fun c => t_keys (c_terms c)) chunks = Ok (map (map fst) tables)).
  { induction 1 as [|e c tables chunks [t Hc] _ IH]; simpl; [done|]. unfold t_keys at 1.
    rewrite (t_entries_repr _ _ (co_terms _ _ _ _ Hc)). cbn [obind]. by rewrite IH. }
  intros Hms. unfold document_keys.
  assert (K : omap_list (fun c => t_keys (c_terms c)) (concat (map doc_chunks (omap document_of ms)))
              = Ok (map (map fst) (concat tabless))).
  { induction Hms as [|tables m tabless ms Hm Hms IH]; [done|]. destruct Hm as [tables d Hd|id Hu Hs|m j Hn Hnd Hto Hfrom Hs].
    - cbn [omap list_omap]. rewrite (document_ok_of _ _ _ Hd). cbn [map concat].
      rewrite omap_list_app, (C tables), IH by apply (do_chunks _ _ _ _ _ Hd). cbn [obind]. by rewrite map_app.
    - cbn. exact IH.
    - cbn [omap list_omap]. rewrite Hn. exact IH. }
  rewrite K. done.
Qed.

Lemma frame_words_ok keys :
  Forall (fun k => utf8_valid k = true) keys ->
  (Z.of_nat (length (concat (ft_sorted (frame_terms_new keys)))) <= MAX_RAW_FRAME_SIZE)%Z ->
  words_ok (ft_sorted (frame_terms_new keys)) /\ ids_of (ft_sorted (frame_terms_new keys)) (ft_ids (frame_terms_new keys)) keys.
Proof.
  intros Hu Hm. destruct (frame_terms_new_spec keys) as (Hs & Hin & H2). split; [|exact H2]. split_and!; [done| |done].
  apply Forall_forall. intros w Hw. rewrite Forall_forall in Hu. auto.
Qed.

Lemma strip_prefix_app p l : strip_prefix (p ++ l) p = Some l.
Proof. unfold strip_prefix. by rewrite take_app_length, drop_app_length, bool_decide_eq_true_2. Qed.

Lemma decode_payload_ok segment tabless ms keys body ms' :
  words_ok (ft_sorted (frame_terms_new keys)) -> Forall2 (mutation_ok segment) tabless ms ->
  (Z.of_nat (length ms) < USIZE)%Z -> 2 * length ms <= length body ->
  (forall p, decode_loop (S (length ms))
      {| bd_reader := mid p body; bd_terms := dictionary_of (ft_sorted (frame_terms_new keys));
         bd_remaining := length ms |} = Ok ms') ->
  decode_body (put_varint (Z.of_nat (length ms)) ++ frame_terms_write (ft_sorted (frame_terms_new keys)) ++ body) = Ok ms'.
Proof.
  intros Hw Hms Hn Hl Hdec. unfold decode_body, decoder_new. rewrite reader_new_mid.
  rewrite count_parses; [|done|rewrite length_app; simpl; lia]. cbn [obind].
  rewrite (decoded_terms_parses _ Hw). cbn [obind bd_remaining]. apply Hdec.
Qed.

End Journal.

(** C2: the [HMS-TXN-3] payload of a list of mutations is written without error and decodes
    to the same list: documents come back with every field, their chunk text inline and the same
    terms, frequencies and positions (whatever layout the term tables had), deletes and JSON
    mutations exactly.  Strings are UTF-8 and lengths representable; the distinct terms must fit
    the reader's dictionary limit; and no chunk may be so short (no text, vector indices, terms,
    positions or embedding, every number below 128) that its record can take seven bytes, which
    the reader refuses ([short_chunk_unreadable]). *)
Theorem binary_payload_roundtrip {Value Other} to_vec from_slice mutation_to_vec mutation_from_slice
    tabless (ms : list (@Mutation Value Other)) :
  Forall2 (mutation_ok to_vec from_slice mutation_to_vec mutation_from_slice None) tabless ms ->
  (Z.of_nat (length ms) < USIZE)%Z -> Forall (fun k => utf8_valid k = true) (keys_of (concat tabless)) ->
  (Z.of_nat (length (concat (ft_sorted (frame_terms_new (keys_of (concat tabless)))))) <= MAX_RAW_FRAME_SIZE)%Z ->
  exists body ms', binary_payload to_vec mutation_to_vec ms = Ok (BINARY_MAGIC ++ body) /\
    decode_body from_slice mutation_from_slice body = Ok ms' /\ Forall2 (restored_mutation None) ms ms'.
Proof.
  intros Hms Hn Hu Hm. destruct (frame_words_ok _ Hu Hm) as [Hw Hids].
  destruct (write_mutations_decode to_vec from_slice mutation_to_vec mutation_from_slice None _ tabless ms _ Hw Hms Hids)
    as (bytes & ms' & Hwr & Hres & Hl & Hdec).
  eexists _, ms'. split_and!; [| |done].
  - unfold binary_payload. rewrite (document_keys_ok _ _ _ _ _ _ _ Hms). cbn [obind]. rewrite Hwr. cbn [obind]. reflexivity.
  - by eapply decode_payload_ok.
Qed.

(** A document of one chunk with a two-term table, a delete, and a JSON mutation. *)
Definition toy_entries : list (list Z * Z) := [([97; 98], 2); ([97; 99], 1)]%Z.
Definition toy_chunk : StoredChunk := {|
  c_id := [104; 109; 115; 58; 99; 104; 117; 110; 107; 58; 49; 58; 100; 58; 48]%Z;
  c_text := Some [97; 98; 32; 97; 99]%Z; c_text_at := None; c_start_byte := 0; c_end_byte := 5;
  c_vector := {| hv_dim := 64; hv_indices := [3; 9; 40]%Z |}; c_embedding := Some [1065353216]%Z;
  c_terms := {| t_terms := Some (Tree toy_entries); t_positions := None |};
  c_word_count := 3; c_stemmed := true; c_vector_state := Encoded |}.
Definition toy_document : StoredDocument (list Z) := {|
  doc_id := [100]%Z; doc_source_uri := None; doc_version := [49]%Z; doc_metadata := [123; 125]%Z;
  doc_chunks := [toy_chunk] |}.
Definition toy_mutations : list (@Mutation (list Z) unit) :=
  [MDocument toy_document; MDeleteDocument [120]%Z; MOther tt].

Lemma toy_chunk_ok : chunk_ok None toy_entries (Some [97; 98; 32; 97; 99]%Z) toy_chunk.
Proof.
  split; try done.
  - by intros t [= <-].
  - split_and!; [by apply ascending_Sorted|by_decide|done].
  - intros e [= <-]. split; [by_decide|done].
  - split; [reflexivity|by_decide].
  - split; [repeat constructor|by_decide].
  - right. by left.
Qed.

Lemma toy_mutations_ok :
  Forall2 (mutation_ok (fun v => Ok v) (fun v => Ok v) (fun _ => Ok [7]%Z) (fun _ => Ok (MOther tt)) None)
    [[toy_entries]; []; []] toy_mutations.
Proof.
  constructor; [|constructor; [|constructor; [|constructor]]].
  - apply ok_document. split; try done; [by eexists|]. constructor; [|constructor]. eexists. apply toy_chunk_ok.
  - by apply ok_delete.
  - by eapply ok_json.
Qed.

Lemma binary_payload_roundtrip_witness :
  exists body ms', binary_payload (fun v => Ok v) (fun _ => Ok [7]%Z) toy_mutations = Ok (BINARY_MAGIC ++ body) /\
    decode_body (fun v => Ok v) (fun _ => Ok (MOther tt)) body = Ok ms' /\
    Forall2 (restored_mutation None) toy_mutations ms'.
Proof.
  apply (binary_payload_roundtrip _ _ _ _ [[toy_entries]; []; []] toy_mutations).
  - exact toy_mutations_ok.
  - reflexivity.
  - repeat constructor.
  - vm_compute. congruence.
Defined.

(** A compaction frame of one document, whose chunk text may have moved to the text segment,
    decodes to the document with the text inline; a document the binary form cannot carry gives
    no frame. *)
Theorem binary_document_payload_roundtrip {Value Other} to_vec from_slice mutation_from_slice segment tables
    (d : StoredDocument Value) :
  (representable d = false -> binary_document_payload to_vec d segment = Ok None) /\
  (document_ok to_vec from_slice segment tables d -> Forall (fun k => utf8_valid k = true) (keys_of tables) ->
   (Z.of_nat (length (concat (ft_sorted (frame_terms_new (keys_of tables))))) <= MAX_RAW_FRAME_SIZE)%Z ->
   exists body d', binary_document_payload to_vec d segment = Ok (Some (BINARY_MAGIC ++ body)) /\
     decode_body from_slice mutation_from_slice body = Ok [@MDocument Value Other d'] /\
     restored_document segment d d').
Proof.
  split; [intros H; unfold binary_document_payload; by rewrite H|].
  intros Hd Hu Hm. destruct (frame_words_ok _ Hu Hm) as [Hw Hids].
  pose (to_json := fun _ : @Mutation Value Other => Ok ([] : list Z)).
  assert (Hmu : Forall2 (mutation_ok to_vec from_slice to_json mutation_from_slice segment) [tables] [MDocument d])
    by (constructor; [by apply ok_document|constructor]).
  assert (Hk : keys_of (concat [tables]) = keys_of tables) by (simpl; by rewrite app_nil_r).
  pose proof (document_keys_ok _ _ _ _ _ _ _ Hmu) as Hkeys. cbn [omap list_omap] in Hkeys.
  rewrite (document_ok_of _ _ _ _ _ Hd), Hk in Hkeys.
  destruct (write_document_parses to_vec from_slice segment _ tables d (ft_ids (frame_terms_new (keys_of tables))) [] Hw Hd Hids)
    as (b & d' & Hwr & Hres & Hp). rewrite app_nil_r in Hwr.
  eexists _, d'. split_and!; [| |done].
  - unfold binary_document_payload. rewrite (document_ok_representable _ _ _ _ _ Hd). cbn [negb].
    rewrite Hkeys. cbn [obind]. rewrite Hwr. cbn [obind]. reflexivity.
  - apply (decode_payload_ok to_vec from_slice to_json mutation_from_slice segment [tables] [MDocument d]); [done|done|done| |].
    + apply write_document_nonempty in Hwr. simpl. lia.
    + intros p. cbn [length]. rewrite <- (app_nil_r (TAG_DOCUMENT :: b)).
      rewrite (decode_loop_cons _ _ _ _ _ _ (MDocument d')) by by apply read_mutation_document.
      by rewrite decode_loop_end.
Qed.

Lemma binary_document_payload_roundtrip_witness :
  exists body d', binary_document_payload (fun v => Ok v) toy_document None = Ok (Some (BINARY_MAGIC ++ body)) /\
    decode_body (fun v => Ok v) (fun _ => Ok (MOther tt)) body = Ok [@MDocument (list Z) unit d'] /\
    restored_document None toy_document d'.
Proof.
  apply (proj2 (binary_document_payload_roundtrip (fun v => Ok v) (fun v => Ok v) (fun _ => Ok (MOther tt)) None
           [toy_entries] toy_document)).
  - split; try done; [by eexists|]. constructor; [|constructor]. eexists. apply toy_chunk_ok.
  - repeat constructor.
  - vm_compute. congruence.
Defined.

(** The chunk of a text without word characters, stored without text and without a vector, in a
    store of fewer than 128 dimensions: its record is the flags byte and six one-byte varints. *)
Definition short_document : StoredDocument (list Z) := {|
  doc_id := [100]%Z; doc_source_uri := None; doc_version := [49]%Z; doc_metadata := [123; 125]%Z;
  doc_chunks := [{|
    c_id := [104; 109; 115; 58; 99; 104; 117; 110; 107; 58; 49; 58; 100; 58; 48]%Z;
    c_text := None; c_text_at := None; c_start_byte := 0; c_end_byte := 3;
    c_vector := {| hv_dim := 64; hv_indices := [] |}; c_embedding := None; c_terms := terms_default;
    c_word_count := 0; c_stemmed := true; c_vector_state := Lexical |}] |}.

(** C36: the reader refuses a payload the writer produces.  [read_document] checks the chunk
    count against eight bytes per chunk, but a chunk record can take seven: the payload of a
    representable document whose only chunk has no text, vector, terms or embedding and a vector
    dimension below 128 is written without error and fails to decode. *)
Theorem short_chunk_unreadable :
  representable short_document = true /\
  exists body, binary_payload (fun v => Ok v) (fun _ => Err "unused") [@MDocument (list Z) unit short_document] = Ok (BINARY_MAGIC ++ body) /\
    decode_body (fun v => Ok v) (fun _ => Ok (@MOther (list Z) unit tt)) body = Err "binary journal count exceeds the record".
Proof.
  split; [reflexivity|].
  exists [1; 0; 1; 1; 100; 0; 1; 49; 2; 123; 125; 1; 36; 0; 3; 0; 64; 0; 0]%Z.
  split; vm_compute; reflexivity.
Qed.
