(* ===== verification/Hostile.v ===== *)
(** * Decoding untrusted payloads

    Whatever the bytes of an [HMS-TXN-3] payload are, decoding it returns or reports an error:
    no index out of range, failed [expect] or assertion, no string cut inside a character.  The
    reads of [Words], [FrameDict], [Binary], [Journal] and [TermsVisitor] are taken with a
    postcondition that the next read relies on. *)

From S2P Require Import Prelude Words BitPack Search Positions Terms TermsVisitor FrameDict TextSegment Binary Journal.

(** ** Reads with a postcondition *)

Definition byte_reader (r : Reader) : Prop := reader_ok r /\ bytes_ok (data r).

Definition yields {A} (P : A -> Prop) (m : read A) : Prop :=
  forall r, byte_reader r -> no_panic (m r) /\ forall a r', m r = Ok (a, r') -> byte_reader r' /\ P a.

Lemma yields_ret {A} (P : A -> Prop) a : P a -> yields P (rret a).
Proof. intros Ha r Hr. split; [done|]. unfold rret. intros ?? [= <- <-]. auto. Qed.

Lemma yields_bind {A B} (P : A -> Prop) (Q : B -> Prop) m k :
  yields P m -> (forall a, P a -> yields Q (k a)) -> yields Q (rbind m k).
Proof.
  intros Hm Hk r Hr. destruct (Hm r Hr) as [Hp Hok]. unfold rbind.
  destruct (m r) as [[a r1]|e|] eqn:E; cbn [obind]; [|done|done].
  destruct (Hok a r1 eq_refl) as [Hr1 Ha]. by apply Hk.
Qed.

Lemma yields_check {A} (P : A -> Prop) (b : bool) e m :
  (b = true -> yields P m) -> yields P (if b then m else rfail e).
Proof. destruct b; intros H; [by apply H|done]. Qed.

Lemma yields_lift {A} (P : A -> Prop) (m : outcome A) :
  no_panic m -> (forall a, m = Ok a -> P a) -> yields P (rlift m).
Proof.
  intros Hm Ha r Hr. unfold rlift. destruct m; simpl; [|done|done].
  split; [done|]. intros ?? [= <- <-]. auto.
Qed.

Lemma yields_weaken {A} (P Q : A -> Prop) m : yields P m -> (forall a, P a -> Q a) -> yields Q m.
Proof. intros H HPQ r Hr. destruct (H r Hr) as [? Hok]. split; [done|]. intros a r' Ha. destruct (Hok a r' Ha). auto. Qed.

Lemma yields_take n : yields (fun b => bytes_ok b /\ length b = n) (rtake n).
Proof.
  intros r [Hr Hb]. destruct (rtake_safe n r Hr) as [Hp Hok]. split; [done|]. intros b r' H.
  destruct (Hok b r' H) as (? & Hd & _). split; [split; [done|by rewrite Hd]|].
  apply rtake_inv in H as (Hrem & -> & _). split; [by apply Forall_take, Forall_drop|].
  unfold remaining in Hrem. rewrite length_take, length_drop. lia.
Qed.

Lemma yields_byte : yields is_u8 rbyte.
Proof.
  eapply yields_bind; [apply yields_take|]. intros b [Hb Hl]. destruct b as [|x b]; [done|].
  apply yields_ret. by inversion Hb.
Qed.

Lemma yields_varint : yields (fun v => 0 <= v)%Z varint.
Proof.
  intros r [Hr Hb]. destruct (varint_loop_safe varint_shifts 0 r Hr) as [Hp Hok]. split; [done|].
  intros v r' H. destruct (Hok v r' H) as (? & Hd & _). split; [split; [done|by rewrite Hd]|].
  by apply (varint_loop_nonneg _ _ _ _ _ (Z.le_refl 0) H).
Qed.

Lemma yields_number bound : yields (fun v => 0 <= v < bound)%Z (number bound).
Proof.
  eapply yields_bind; [apply yields_varint|]. intros v Hv. apply yields_check. intros E. bool_to_prop.
  by apply yields_ret.
Qed.

Lemma yields_bytes : yields (fun b => bytes_ok b /\ small b) rbytes.
Proof.
  eapply yields_bind; [apply yields_number|]. intros n Hn. eapply yields_weaken; [apply yields_take|].
  intros b [Hb Hl]. split; [done|]. unfold small. simpl in Hn. rewrite Hl. lia.
Qed.

Lemma yields_str : yields (fun b => bytes_ok b /\ small b) rstr.
Proof. eapply yields_bind; [apply yields_bytes|]. intros b Hb. apply yields_check. intros _. by apply yields_ret. Qed.

Lemma yields_count min : yields (fun n => Z.of_nat n < USIZE)%Z (count min).
Proof.
  eapply yields_bind; [apply yields_number|]. intros v Hv r Hr. destruct (_ <=? _)%Z; [|done].
  split; [done|]. intros ?? [= <- <-]. split; [done|]. simpl in Hv. lia.
Qed.

(** A loop of [n] reads with an invariant on its state, indexed by the rounds that remain. *)
Lemma yields_repeat {A S} (I : nat -> S -> Prop) (P : A -> Prop) (step : S -> read (A * S)) n s :
  (forall k s, I (Datatypes.S k) s -> yields (fun p => P p.1 /\ I k p.2) (step s)) -> I n s ->
  yields (fun l => length l = n /\ Forall P l) (rrepeat n step s).
Proof.
  intros Hstep. revert s. induction n as [|n IH]; intros s Hs; cbn [rrepeat].
  - apply yields_ret. by split.
  - eapply yields_bind; [by apply Hstep|]. intros [a s'] [Ha Hs']. simpl in *.
    eapply yields_bind; [by apply IH|]. intros l [Hl HP]. apply yields_ret. simpl. split; [by f_equal|by constructor].
Qed.

#[export] Hint Resolve yields_byte yields_varint yields_number yields_bytes yields_str yields_count yields_take : reads.

(** ** The dictionary *)

Definition dictionary_ok (d : SharedDictionary) : Prop :=
  exists words, d = dictionary_of words /\ bsorted words /\ (Z.of_nat (length words) < U32)%Z /\ strings_ok words.

(** The state of the dictionary loop is always that of some ascending words. *)
Definition words_read (bo : list Z * list nat) (n : nat) : Prop :=
  exists words, bo = (concat words, offsets_of words) /\ bsorted words /\ length words = n /\
    (Z.of_nat (length (concat words)) <= MAX_RAW_FRAME_SIZE)%Z /\ strings_ok words.

Lemma bsorted_snoc words w :
  bsorted words -> (words = [] \/ blt (previous_word words) w) -> bsorted (words ++ [w]).
Proof.
  intros Hs Hw. unfold bsorted. apply StronglySorted_app_2; [|done|repeat constructor].
  intros x y Hx Hy. apply list_elem_of_singleton in Hy as ->.
  destruct words as [|l ws _] using rev_ind; [by apply elem_of_nil in Hx|].
  destruct Hw as [Hw|Hw]; [by destruct ws|]. unfold previous_word in Hw. rewrite last_snoc in Hw. simpl in Hw.
  apply elem_of_app in Hx as [Hx|Hx%list_elem_of_singleton]; [|by subst].
  eapply blt_trans; [|exact Hw]. apply list_elem_of_lookup in Hx as [i Hi].
  eapply (bsorted_lookup_lt _ i (length ws) x l Hs).
  - by apply lookup_lt_Some in Hi.
  - by apply lookup_app_l_Some.
  - by rewrite lookup_app_r, Nat.sub_diag by lia.
Qed.

Lemma yields_read_term words :
  bsorted words -> (Z.of_nat (length (concat words)) <= MAX_RAW_FRAME_SIZE)%Z -> strings_ok words ->
  yields (fun bo => words_read bo (S (length words))) (read_term (concat words) (offsets_of words)).
Proof.
  intros Hs Hm Hu. destruct (offsets_previous words) as (o & Ho & Hol & Hd).
  assert (Hpl : length (previous_word words) = length (concat words) - o) by (rewrite <- Hd, length_drop; done).
  unfold read_term. rewrite Ho. cbn [expect].
  eapply (yields_bind (fun a => a = o)); [by apply yields_lift; [|intros a [= <-]]|]. intros ? ->. cbv zeta.
  eapply yields_bind; [apply yields_number|]. intros shared Hsh. simpl in Hsh. apply yields_check. intros E.
  apply andb_true_iff in E as [E _]. bool_to_prop.
  eapply yields_bind; [apply yields_bytes|]. intros suffix [Hsb _]. apply yields_check. intros E2. bool_to_prop.
  rewrite slice_Ok by lia. replace (o + Z.to_nat shared - o) with (Z.to_nat shared) by lia. rewrite Hd.
  eapply (yields_bind (fun a => a = take (Z.to_nat shared) (previous_word words))); [by apply yields_lift; [|intros a [= <-]]|].
  intros ? ->. cbv beta. set (w := take _ _ ++ suffix).
  assert (Hcw : concat words ++ w = concat (words ++ [w])) by (rewrite concat_app; simpl; by rewrite app_nil_r).
  rewrite Hcw, slice_last_word.
  eapply (yields_bind (fun a => a = w)); [by apply yields_lift; [|intros a [= <-]]|]. intros ? ->.
  apply yields_check. intros Hwu. rewrite slice_previous_word by done.
  eapply (yields_bind (fun a => a = previous_word words)); [by apply yields_lift; [|intros a [= <-]]|]. intros ? ->.
  apply yields_check. intros E3. apply yields_ret. exists (words ++ [w]).
  rewrite offsets_of_snoc. split_and!; [done| |rewrite length_app; simpl; lia| |apply Forall_app; split; [done|by repeat constructor]].
  - apply bsorted_snoc; [done|]. apply orb_true_iff in E3 as [E3|E3]; bool_to_prop; [|by right].
    left. rewrite offsets_of_length in E3. by destruct words.
  - rewrite <- Hcw, length_app. unfold w. rewrite length_app, length_take. lia.
Qed.

Lemma yields_read_terms n words :
  bsorted words -> (Z.of_nat (length (concat words)) <= MAX_RAW_FRAME_SIZE)%Z -> strings_ok words ->
  yields (fun bo => words_read bo (length words + n)) (read_terms n (concat words) (offsets_of words)).
Proof.
  revert words. induction n as [|n IH]; intros words Hs Hm Hu; cbn [read_terms].
  - apply yields_ret. exists words. rewrite Nat.add_0_r. done.
  - eapply yields_bind; [by apply yields_read_term|]. intros [b o] (ws & [= -> ->] & Hws & Hl & Hwm & Hwu).
    replace (length words + S n) with (length ws + n) by lia. by apply IH.
Qed.

Lemma yields_dictionary : yields dictionary_ok decoded_terms_read.
Proof.
  unfold decoded_terms_read. eapply yields_bind; [apply yields_count|]. intros n Hn.
  eapply yields_bind; [apply (yields_read_terms n []); [constructor|done|constructor]|].
  intros [b o] (ws & [= -> ->] & Hws & Hl & Hm & Hu). simpl in Hl. apply yields_check. intros _.
  rewrite slice_Ok by (rewrite ?offsets_of_length; lia). rewrite Nat.sub_0_r, drop_0.
  eapply (yields_bind (fun a => a = take n (offsets_of ws))); [by apply yields_lift; [|intros a [= <-]]|].
  intros ? ->. apply yields_check. intros _. apply yields_ret. exists ws. rewrite <- Hl, offsets_of_starts.
  split_and!; [done|done| |done]. pose proof (bsorted_count ws Hws). unfold MAX_RAW_FRAME_SIZE, U32 in *. lia.
Qed.

(** ** Documents *)

(** What a decoded chunk guarantees to the queries that follow: its term table is a well-formed
    ascending table and its positions, if any, were validated against it. *)
Definition chunk_safe (c : StoredChunk) : Prop :=
  exists entries, repr (t_terms (c_terms c)) entries /\ entries_ok entries /\
    forall p, t_positions (c_terms c) = Some p -> validate p (map snd entries) = Ok tt /\ bytes_ok (p_data p).

Lemma yields_index prev :
  (forall p, prev = Some p -> 0 <= p)%Z ->
  yields (fun vs => (0 <= vs.1)%Z /\ forall p, vs.2 = Some p -> (0 <= p)%Z) (read_index prev).
Proof.
  intros Hp. eapply yields_bind; [apply yields_number|]. intros gap Hg. simpl in Hg.
  eapply (yields_bind (fun v => 0 <= v)%Z).
  - apply yields_lift; [destruct prev; [by destruct (checked_add _ _ _)|done]|]. intros v Hv. destruct prev as [p|].
    + unfold checked_add in Hv. specialize (Hp p eq_refl). destruct (_ <? U32)%Z; [|done]. simpl in Hv. injection Hv as <-. lia.
    + injection Hv as <-. lia.
  - intros v Hv. apply yields_ret. split; [done|]. by intros p [= <-].
Qed.

Lemma yields_term_ids words n prev :
  (forall p, prev = Some p -> 0 <= p)%Z ->
  yields (fun l => length l = n /\ delta_ok prev l /\ Forall (fun v => 0 <= v < Z.of_nat (length words))%Z l)
    (rrepeat n (read_term_id (dictionary_of words)) prev).
Proof.
  revert prev. induction n as [|n IH]; intros prev Hp; cbn [rrepeat].
  - apply yields_ret. split_and!; [done| |constructor]. split; [constructor|].
    destruct prev as [p|]; [split; [by apply Hp|constructor]|done].
  - eapply (yields_bind (fun vs => vs.2 = Some vs.1 /\ delta_ok prev [vs.1] /\ (0 <= vs.1 < Z.of_nat (length words))%Z)).
    + unfold read_term_id. eapply yields_bind; [apply yields_number|]. intros gap Hg. simpl in Hg.
      eapply (yields_bind (fun v => delta_ok prev [v] /\ (0 <= v)%Z)).
      * apply yields_lift.
        { destruct prev; [destruct (_ <? _)%Z; [by destruct (checked_add _ _ _)|done]|done]. }
        intros v Hv. destruct prev as [p|].
        -- specialize (Hp p eq_refl). destruct (0 <? gap)%Z eqn:E; [|done]. unfold checked_add in Hv.
           destruct (_ <? USIZE)%Z; [|done]. simpl in Hv. injection Hv as <-. bool_to_prop. split; [|lia].
           split; [repeat constructor|]. split; [done|]. constructor; [lia|constructor].
        -- injection Hv as <-. split; [split; [repeat constructor|done]|lia].
      * intros v [Hd Hv0]. apply yields_check. intros E. bool_to_prop. rewrite dictionary_of_len in E.
        apply yields_ret. simpl. split_and!; auto.
    + intros [v s] (Hs & Hd & Hv). simpl in *. subst s.
      eapply yields_bind; [apply IH; intros p [= <-]; lia|]. intros l (Hl & Hdl & Hf).
      apply yields_ret. split_and!; [simpl; by f_equal| |by constructor].
      destruct Hdl as [Hsl [_ Hvl]]. split; [by constructor|]. destruct Hd as [_ Hd].
      destruct prev as [p|]; [|done]. destruct Hd as [Hp0 Hpv]. inversion Hpv as [|?? Hlt]; subst.
      split; [done|]. constructor; [done|]. eapply Forall_impl; [exact Hvl|]. intros. lia.
Qed.

Lemma yields_numbers bound n :
  yields (fun l => length l = n /\ Forall (fun v => 0 <= v < bound)%Z l) (rrepeat n (read_number bound) tt).
Proof.
  apply (yields_repeat (fun _ _ => True)); [|done]. intros k0 s0 _. unfold read_number.
  eapply yields_bind; [apply yields_number|]. intros v Hv. by apply yields_ret.
Qed.

Lemma yields_positions n table entries :
  repr (t_terms table) entries ->
  yields (fun p => validate p (map snd entries) = Ok tt /\ bytes_ok (p_data p)) (read_positions n table).
Proof.
  intros Hr. unfold read_positions. eapply yields_bind; [apply yields_byte|]. intros version _. apply yields_check. intros _.
  eapply yields_bind; [apply yields_count|]. intros k Hk. apply yields_check. intros _.
  eapply yields_bind; [apply yields_numbers|]. intros offsets [_ Ho].
  eapply yields_bind; [apply yields_bytes|]. intros d [Hd _]. apply yields_check. intros _. cbv zeta.
  rewrite (t_entries_repr _ _ Hr). cbn [obind].
  eapply (yields_bind (fun _ => validate {| p_version := version; p_offsets := offsets_from offsets; p_data := d |} (map snd entries) = Ok tt)).
  - apply yields_lift; [by apply validate_no_panic|]. by intros [] H.
  - intros _ H. by apply yields_ret.
Qed.

Lemma yields_option {A} (P : A -> Prop) (b : bool) m :
  yields P m -> yields (fun o => forall a, o = Some a -> P a) (read_option b m).
Proof.
  intros Hm. unfold read_option. destruct b; [|by apply yields_ret].
  eapply yields_bind; [exact Hm|]. intros a Ha. apply yields_ret. by intros ? [= <-].
Qed.

Lemma yields_table d positions :
  dictionary_ok d ->
  yields (fun t => exists entries, repr (t_terms t) entries /\ entries_ok entries /\
     forall p, t_positions t = Some p -> validate p (map snd entries) = Ok tt /\ bytes_ok (p_data p))
    (read_table d positions).
Proof.
  intros (words & -> & Hs & Hn & Hu). unfold read_table. eapply yields_bind; [apply yields_count|]. intros n _.
  eapply yields_bind; [by apply yields_term_ids|]. intros ids (Hl & [Hsorted _] & Hids).
  eapply yields_bind; [apply yields_numbers|]. intros freqs [Hfl Hf].
  assert (Ho : omap_list (fun id => if (id <? U32)%Z then Ok id else Panic) ids = Ok ids).
  { rewrite (omap_list_ok _ (fun v => v)); [by rewrite map_id|]. intros v Hv. rewrite Forall_forall in Hids.
    specialize (Hids v Hv). simpl in Hids. by rewrite (proj2 (Z.ltb_lt _ _)) by lia. }
  rewrite Ho. eapply (yields_bind (fun l => l = ids)); [by apply yields_lift; [|intros a [= <-]]|]. intros ? ->.
  destruct (from_dictionary_repr words ids freqs (dictionary_of words)) as (t & Ht & _ & Hr); [done|done|done|done|lia|done|].
  set (entries := zip _ _) in Hr. rewrite Ht.
  eapply (yields_bind (fun x => x = t)); [by apply yields_lift; [|intros a [= <-]]|]. intros ? ->.
  eapply yields_bind; [apply yields_option, yields_positions, Hr|]. intros ps Hps. apply yields_ret.
  exists entries. split_and!; [done| |done]. split.
  - unfold entries. rewrite fst_zip by (rewrite length_map; lia). by apply ids_ok_sorted.
  - unfold entries. rewrite snd_zip by (rewrite length_map; lia). done.
Qed.

Lemma yields_chunk d document index :
  dictionary_ok d -> small document -> is_u64 (Z.of_nat index) ->
  yields (fun cs => chunk_safe cs.1 /\ cs.2 = index + 1) (read_chunk d document index).
Proof.
  intros Hd Hdoc Hi. unfold read_chunk. eapply yields_bind; [apply yields_byte|]. intros flags _.
  apply yields_check. intros _. eapply (yields_bind (fun _ => True)).
  { apply yields_lift; [|done]. unfold state_of_bits. repeat destruct (_ =? _)%Z; done. }
  intros state _. eapply (yields_bind (fun _ => True)).
  { destruct (has flags _); [eapply yields_weaken; [apply yields_str|done]|].
    destruct (is_chunk_id_spec [] document (Z.of_nat index)) as (derived & -> & _); [split; [lia|exact Hdoc]|done|].
    by apply yields_lift. }
  intros id _. eapply yields_bind; [apply yields_option, yields_str|]. intros text _.
  do 4 (eapply yields_bind; [apply yields_number|]; intros ? _).
  eapply yields_bind; [apply yields_count|]. intros n _.
  eapply (yields_bind (fun _ => True)).
  { eapply yields_weaken; [apply (yields_repeat (fun _ s => forall p, s = Some p -> (0 <= p)%Z) (fun v => 0 <= v)%Z)|done]; [|done].
    intros _ s Hs. by apply yields_index. }
  intros indices _. eapply (yields_bind (fun _ => True)).
  { eapply yields_weaken; [apply (yields_option (fun _ => True))|done]. unfold read_embedding.
    eapply yields_bind; [apply yields_count|]. intros k _.
    eapply yields_weaken; [apply (yields_repeat (fun _ _ => True) (fun _ => True)); [|done]|done].
    intros k0 s0 _. unfold read_f32. eapply yields_bind; [apply yields_take|]. intros b _. by apply yields_ret. }
  intros embedding _. eapply yields_bind; [by apply yields_table|]. intros t Ht. by apply yields_ret.
Qed.

Lemma yields_document {Value} (from_slice : list Z -> outcome Value) d :
  (forall b, no_panic (from_slice b)) -> dictionary_ok d ->
  yields (fun doc => Forall chunk_safe (doc_chunks doc)) (read_document from_slice d).
Proof.
  intros Hj Hd. unfold read_document. eapply yields_bind; [apply yields_str|]. intros id [_ Hid].
  eapply (yields_bind (fun _ => True)).
  { unfold read_source. eapply yields_bind; [apply yields_byte|]. intros f _.
    destruct (_ =? 0)%Z; [by apply yields_ret|]. destruct (_ =? 1)%Z; [|done].
    eapply yields_bind; [apply yields_str|]. intros u _. by apply yields_ret. }
  intros uri _. eapply yields_bind; [apply yields_str|]. intros version _.
  eapply yields_bind; [apply yields_bytes|]. intros mb _.
  eapply (yields_bind (fun _ => True)); [by apply yields_lift|]. intros metadata _.
  eapply yields_bind; [apply yields_count|]. intros n Hn.
  eapply yields_bind.
  { apply (yields_repeat (fun k i => k + i = n) chunk_safe); [|lia]. intros k i Hki.
    eapply yields_weaken; [apply yields_chunk; [done|done|unfold is_u64, U64, USIZE in *; simpl in Hn; lia]|].
    intros [c i'] [Hc Hi']. simpl in *. split; [done|lia]. }
  intros chunks [_ Hc]. by apply yields_ret.
Qed.

(** ** Payloads *)

Definition mutation_safe {Value Other} (m : @Mutation Value Other) : Prop :=
  match m with MDocument d => Forall chunk_safe (doc_chunks d) | _ => True end.

(** The decoder that serde derives for [Mutation], given the visitor of [StoredTerms]: it panics
    only if the visitor does on a map whose keys are strings, and the term table of every chunk it
    returns is one that the visitor returned. *)
Record derived_decoder {Value Other J}
    (derive : (list (list Z * J) -> outcome StoredTerms) -> list Z -> outcome (@Mutation Value Other)) : Prop := {
  dd_no_panic : forall visit, (forall m, strings_ok (map fst m) -> no_panic (visit m)) -> forall b, no_panic (derive visit b);
  dd_terms : forall visit b d, derive visit b = Ok (MDocument d) ->
    Forall (fun c => exists m, strings_ok (map fst m) /\ visit m = Ok (c_terms c)) (doc_chunks d) }.

Section Decode.
Context {Value Other J : Type} (from_slice : list Z -> outcome Value)
        (next_u32 : J -> outcome Z) (next_positions : J -> outcome Positions)
        (derive : (list (list Z * J) -> outcome StoredTerms) -> list Z -> outcome (@Mutation Value Other)).
Context (Hj : forall b, no_panic (from_slice b)) (Hv : json_values next_u32 next_positions) (Hd : derived_decoder derive).
Abbreviation mutation_from_slice := (derive (visit_map next_u32 next_positions)).

(** A document carried as JSON is as safe as one carried in binary form. *)
Lemma derived_safe b m : mutation_from_slice b = Ok m -> mutation_safe m.
Proof using Hv Hd.
  destruct m as [d|id|o]; [|done..]. intros H. eapply Forall_impl; [exact (dd_terms _ Hd _ _ _ H)|].
  intros c (es & Ht & Hc). exact (proj2 (visit_map_ok _ _ Hv es Ht) _ Hc).
Qed.

Lemma derived_no_panic b : no_panic (mutation_from_slice b).
Proof using Hv Hd. apply (dd_no_panic _ Hd). intros m Ht. exact (proj1 (visit_map_ok _ _ Hv m Ht)). Qed.

Lemma yields_mutation d : dictionary_ok d -> yields mutation_safe (read_mutation from_slice mutation_from_slice d).
Proof using Hj Hv Hd.
  intros Hdict. unfold read_mutation. eapply yields_bind; [apply yields_byte|]. intros tag _.
  destruct (_ =? TAG_JSON)%Z.
  { eapply yields_bind; [apply yields_bytes|]. intros b _. apply yields_lift; [apply derived_no_panic|apply derived_safe]. }
  destruct (_ =? TAG_DOCUMENT)%Z.
  { eapply yields_bind; [by apply yields_document|]. intros doc Hdoc. by apply yields_ret. }
  destruct (_ =? TAG_DELETE_DOCUMENT)%Z; [|done].
  eapply yields_bind; [apply yields_str|]. intros id _. by apply yields_ret.
Qed.

Lemma decode_loop_safe fuel d :
  byte_reader (bd_reader d) -> dictionary_ok (bd_terms d) -> bd_remaining d < fuel ->
  no_panic (decode_loop from_slice mutation_from_slice fuel d) /\
  forall ms, decode_loop from_slice mutation_from_slice fuel d = Ok ms -> Forall mutation_safe ms.
Proof using Hj Hv Hd.
  revert d. induction fuel as [|fuel IH]; intros d Hr Hdict Hf; [lia|]. rewrite decode_loop_S. unfold next_mutation.
  destruct (bd_remaining d) as [|n] eqn:En.
  - destruct (is_empty _); cbn [obind]; [|done]. split; [done|]. intros ms [= <-]. constructor.
  - destruct (yields_mutation (bd_terms d) Hdict (bd_reader d) Hr) as [Hp Hok].
    destruct (read_mutation _ _ _ _) as [[m r']|e|]; cbn [obind]; [|done|done].
    destruct (Hok m r' eq_refl) as [Hr' Hms].
    destruct (IH {| bd_reader := r'; bd_terms := bd_terms d; bd_remaining := n |}) as [Hp' Hok']; [done|done|simpl; lia|].
    destruct (decode_loop _ _ fuel _) as [rest|e|]; cbn [obind]; [|done|done].
    split; [done|]. intros ms [= <-]. constructor; [done|]. by apply Hok'.
Qed.
End Decode.

(** C3: whatever the bytes of a binary payload body are, decoding it never panics (no index out
    of range, no failed assertion or [expect], no string cut inside a character), and the
    documents it returns are safe to query: every term table is an ascending table of UTF-8
    strings and its positions passed validation.  This includes the documents a payload carries
    as JSON, whose tables the visitor of [StoredTerms] builds; serde's decoders of a value and
    the decoder it derives around that visitor are parameters. *)
Theorem decode_never_panics {Value Other J} (from_slice : list Z -> outcome Value)
    (next_u32 : J -> outcome Z) (next_positions : J -> outcome Positions)
    (derive : (list (list Z * J) -> outcome StoredTerms) -> list Z -> outcome (@Mutation Value Other)) body :
  (forall b, no_panic (from_slice b)) -> json_values next_u32 next_positions -> derived_decoder derive -> bytes_ok body ->
  no_panic (decode_body from_slice (derive (visit_map next_u32 next_positions)) body) /\
  forall ms, decode_body from_slice (derive (visit_map next_u32 next_positions)) body = Ok ms -> Forall mutation_safe ms.
Proof.
  intros Hj Hv Hd Hb. unfold decode_body, decoder_new.
  assert (Hr : byte_reader (reader_new body)) by (split; [unfold reader_ok; simpl; lia|done]).
  destruct (yields_count 2 _ Hr) as [Hp Hok]. destruct (count 2 _) as [[n r1]|e|]; cbn [obind]; [|done|done].
  destruct (Hok n r1 eq_refl) as [Hr1 _]. destruct (yields_dictionary r1 Hr1) as [Hp1 Hok1].
  destruct (decoded_terms_read r1) as [[d r2]|e|]; cbn [obind]; [|done|done].
  destruct (Hok1 d r2 eq_refl) as [Hr2 Hdict]. apply decode_loop_safe; auto.
Qed.

(** A payload whose one mutation is carried as JSON: the derived decoder reads a document whose
    term map is out of order and repeats a key. *)
Definition json_value : Type := Z + Positions.
Definition toy_u32 (j : json_value) : outcome Z :=
  match j with inl f => if (0 <=? f)%Z && (f <? U32)%Z then Ok f else Err "not a u32" | inr _ => Err "not a number" end.
Definition toy_positions (j : json_value) : outcome Positions :=
  match j with inl _ => Err "not a map" | inr p => if decide (bytes_ok (p_data p)) then Ok p else Err "not bytes" end.
Definition json_terms : list (list Z * json_value) := [([98], inl 2); ([97], inl 1); ([97], inl 3)]%Z.
Definition toy_derive (visit : list (list Z * json_value) -> outcome StoredTerms) (b : list Z) : outcome (@Mutation (list Z) unit) :=
  if decide (b = [1]%Z) then
    let* t := visit json_terms in
    Ok (MDocument {| doc_id := [100]%Z; doc_source_uri := None; doc_version := [49]%Z; doc_metadata := [123; 125]%Z;
      doc_chunks := [{| c_id := [120]%Z; c_text := None; c_text_at := None; c_start_byte := 0; c_end_byte := 5;
        c_vector := {| hv_dim := 64; hv_indices := [] |}; c_embedding := None; c_terms := t;
        c_word_count := 5; c_stemmed := true; c_vector_state := Encoded |}] |})
  else Ok (MOther tt).

Lemma toy_json_values : json_values toy_u32 toy_positions.
Proof.
  split.
  - intros [f|p] H; cbn in H; [by destruct (_ && _)|done].
  - intros [f|p] v H; cbn in H; [|done]. destruct (_ && _) eqn:E; [|done]. injection H as <-.
    apply andb_true_iff in E as [E1 E2]. bool_to_prop. done.
  - intros [f|p] H; cbn in H; [done|by case_decide].
  - intros [f|p] v H; cbn in H; [done|]. case_decide; [|done]. by injection H as <-.
Qed.

Lemma toy_derived : derived_decoder toy_derive.
Proof.
  split.
  - intros visit Hv b. unfold toy_derive. case_decide; [|done]. assert (Hp : no_panic (visit json_terms)) by (apply Hv; by_decide).
    by destruct (visit json_terms).
  - intros visit b d. unfold toy_derive. case_decide; [|done]. destruct (visit json_terms) as [t|e|] eqn:E; cbn [obind]; [|done|done].
    intros [= <-]. constructor; [|constructor]. exists json_terms. split; [by_decide|done].
Qed.

Lemma decode_never_panics_witness :
  no_panic (decode_body (fun b => Ok b) (toy_derive (visit_map toy_u32 toy_positions)) [1; 1; 0; 9; 255; 255; 255]%Z) /\
  exists ms, decode_body (fun b => Ok b) (toy_derive (visit_map toy_u32 toy_positions)) [1; 0; 0; 1; 1]%Z = Ok ms /\
    length ms = 1 /\ Forall mutation_safe ms.
Proof.
  split.
  - apply (decode_never_panics (fun b => Ok b) toy_u32 toy_positions toy_derive [1; 1; 0; 9; 255; 255; 255]%Z);
      [intros b H; discriminate H|exact toy_json_values|exact toy_derived|by_decide].
  - eexists. split; [vm_compute; reflexivity|]. split; [reflexivity|].
    apply (decode_never_panics (fun b => Ok b) toy_u32 toy_positions toy_derive [1; 0; 0; 1; 1]%Z);
      [intros b H; discriminate H|exact toy_json_values|exact toy_derived|by_decide|vm_compute; reflexivity].
Defined.
