(* ===== verification/Frames.v ===== *)
(** * Journal frames and segment recovery

    The byte format of [src/core/storage.rs] (frames, end marker, [discover_offset]) and the
    independent reader of [src/core/format/scan.rs] ([decode_frame_into], [scan_segment]).  LZ4
    and CRC32 are an interface with the laws their crates document. *)

From S2P Require Import Prelude Words FrameDict.

Definition HEADER_SIZE : nat := 16.
Definition END_MARK : Z := 0x454E444C.

(** ** The codec the frames rely on *)

Class FrameCodec : Type := {
  crc32 : list Z -> Z;
  lz4_compress : list Z -> list Z;
  (** The decoded block when it is valid and fits the output bound. *)
  lz4_decompress : list Z -> nat -> option (list Z) }.

Class FrameCodecLaws `{!FrameCodec} : Prop := {
  crc32_u32 d : is_u32 (crc32 d);
  lz4_inverse d : lz4_decompress (lz4_compress d) (length d) = Some d;
  lz4_nonempty d : d <> [] -> lz4_compress d <> [];
  (** A block never expands more than 255 times. *)
  lz4_ratio b n d : lz4_decompress b n = Some d -> length d <= length b * 255 }.

(** ** Headers *)

Definition word (data : list Z) (at_ : nat) : Z := from_le_bytes (take 4 (drop at_ data)).

(** [crc; raw_len; comp_len; version]. *)
Definition header_words (bytes : list Z) : option (Z * Z * Z * Z) :=
  if HEADER_SIZE <=? length bytes
  then Some (word bytes 0, word bytes 4, word bytes 8, word bytes 12) else None.

Definition is_log_end (header : list Z) : bool :=
  match header_words header with
  | Some (crc, raw_len, comp_len, version) =>
      ((crc =? 0) && (raw_len =? 0) && (comp_len =? 0) && ((version =? 0) || (version =? END_MARK)))%Z
  | None => false
  end.

Definition end_marker_bytes : list Z := splice (replicate HEADER_SIZE 0%Z) 12 (to_le_bytes 4 END_MARK).

(** ** The last non-zero byte, by blocks *)

Fixpoint rposition {A} (f : A -> bool) (l : list A) : option nat :=
  match l with
  | [] => None
  | a :: r =>
      match rposition f r with
      | Some i => Some (S i)
      | None => if f a then Some 0 else None
      end
  end.

Definition BLOCK : nat := 64 * 64.

(** [as_chunks]: [n] whole blocks and the remainder. *)
Fixpoint chunks (size n : nat) (data : list Z) : list (list Z) :=
  match n with
  | O => []
  | S n => take size data :: chunks size n (drop size data)
  end.

Definition nonzero (b : Z) : bool := negb (b =? 0)%Z.

Definition last_nonzero_by (size : nat) (data : list Z) : option nat :=
  let n := length data / size in
  let blocks := chunks size n data in
  let tail := drop (n * size) data in
  match rposition nonzero tail with
  | Some at_ => Some (n * size + at_)
  | None =>
      match rposition (fun bytes => negb (forallb (fun b => b =? 0)%Z bytes)) blocks with
      | None => None
      | Some block => (fun at_ => block * size + at_) <$> rposition nonzero (default [] (blocks !! block))
      end
  end.

Definition last_nonzero (data : list Z) : option nat := last_nonzero_by BLOCK data.

Section Frames.
Context {codec : FrameCodec}.

(** ** The engine's reader *)

Definition frame_checks_out (data : list Z) (offset : nat) : bool :=
  match (if offset <=? length data then header_words (drop offset data) else None) with
  | None => false
  | Some (expected_crc, raw_len, comp_len, _) =>
      if ((comp_len =? 0) || (raw_len =? 0) || (MAX_RAW_FRAME_SIZE <? raw_len) || (raw_len <? comp_len))%Z
      then false
      else
        let e := offset + (HEADER_SIZE + Z.to_nat comp_len) in
        if e <=? length data then
          let payload := take (Z.to_nat comp_len) (drop (offset + HEADER_SIZE) data) in
          if (comp_len <? raw_len)%Z then
            match lz4_decompress payload (Z.to_nat raw_len) with
            | Some out => Nat.eqb (length out) (Z.to_nat raw_len) && (crc32 out =? expected_crc)%Z
            | None => false
            end
          else (crc32 payload =? expected_crc)%Z
        else false
  end.

Definition committed_after (data : list Z) (from : nat) (include_end_marker : bool) : option nat :=
  match last_nonzero data with
  | None => None
  | Some last =>
      List.find (fun at_ =>
          (at_ + HEADER_SIZE <=? length data) &&
          (frame_checks_out data at_ ||
           (include_end_marker && is_log_end (take HEADER_SIZE (drop at_ data)) &&
            bool_decide (take 4 (drop (at_ + 12) data) = to_le_bytes 4 END_MARK))))
        (seq from (S (last - (HEADER_SIZE - 1)) - from))
  end.

Definition fail (data : list Z) (offset : nat) (max_version : Z) : outcome (nat * Z) :=
  match committed_after data (offset + 1) true with
  | Some _ => Err "frame fails its checks but committed data follows: the segment is corrupt, not a torn tail"
  | None => Ok (offset, max_version)
  end.

(** The loop of [discover_offset]; every round advances by a header at least. *)
Fixpoint discover_loop (fuel : nat) (data : list Z) (offset : nat) (max_version : Z) : outcome (nat * Z) :=
  match header_words (drop offset data) with
  | None => Ok (offset, max_version)
  | Some (_, raw_len, comp_len, version) =>
      match fuel with
      | O => Panic
      | S fuel =>
          if ((raw_len =? 0) && (comp_len =? 0))%Z then
            if is_log_end (take HEADER_SIZE (drop offset data)) then
              match committed_after data (offset + HEADER_SIZE) false with
              | Some _ => fail data offset max_version
              | None => Ok (offset, max_version)
              end
            else fail data offset max_version
          else if ((Z.of_nat (length data) <? comp_len) || (MAX_RAW_FRAME_SIZE <? raw_len) || (comp_len =? 0))%Z
          then fail data offset max_version
          else
            let frame_size := HEADER_SIZE + Z.to_nat comp_len in
            if length data <? offset + frame_size then fail data offset max_version
            else if negb (frame_checks_out data offset) then fail data offset max_version
            else discover_loop fuel data (offset + frame_size)
                   (if (max_version <? version)%Z then version else max_version)
      end
  end.

Definition discover_offset (data : list Z) : outcome (nat * Z) :=
  discover_loop (length data) data 0 0.

(** ** The verifier's reader *)

Record FrameRef := mkFrameRef { fr_offset : nat; fr_raw_len : Z; fr_comp_len : Z; fr_seq : Z; fr_crc : Z }.

Definition fr_end (f : FrameRef) : nat := fr_offset f + HEADER_SIZE + Z.to_nat (fr_comp_len f).

Definition scan_is_log_end (data : list Z) (at_ : nat) : bool :=
  (at_ + HEADER_SIZE <=? length data) && (word data (at_ + 4) =? 0)%Z && (word data (at_ + 8) =? 0)%Z &&
  (((word data at_ =? 0) && (word data (at_ + 12) =? END_MARK))%Z
   || forallb (fun b => b =? 0)%Z (take HEADER_SIZE (drop at_ data))).

Definition is_end_marker (data : list Z) (at_ : nat) : bool :=
  scan_is_log_end data at_ && (word data (at_ + 12) =? END_MARK)%Z.

(** [decode_frame_into]: the frame and its payload. *)
Definition decode_frame (data : list Z) (offset : nat) : (FrameRef * list Z) + string :=
  if negb (offset + HEADER_SIZE <=? length data) then inr "truncated-header"
  else
    let crc := word data offset in
    let raw_len := word data (offset + 4) in
    let comp_len := word data (offset + 8) in
    let seq := word data (offset + 12) in
    let frame := {| fr_offset := offset; fr_raw_len := raw_len; fr_comp_len := comp_len; fr_seq := seq; fr_crc := crc |} in
    if ((raw_len =? 0) || (comp_len =? 0) || (MAX_RAW_FRAME_SIZE <? raw_len) || (raw_len <? comp_len))%Z
    then inr "header-lengths"
    else if negb (offset + HEADER_SIZE + Z.to_nat comp_len <=? length data) then inr "truncated-payload"
    else
      let payload := take (Z.to_nat comp_len) (drop (offset + HEADER_SIZE) data) in
      if (comp_len <? raw_len)%Z then
        if (comp_len * 255 <? raw_len)%Z then inr "implausible-ratio"
        else
          match lz4_decompress payload (Z.to_nat raw_len) with
          | None => inr "lz4"
          | Some out =>
              if negb (Nat.eqb (length out) (Z.to_nat raw_len)) then inr "raw-length"
              else if (crc32 out =? crc)%Z then inl (frame, out) else inr "crc32"
          end
      else if (crc32 payload =? crc)%Z then inl (frame, payload) else inr "crc32".

Definition scan_committed_after (data : list Z) (from : nat) (include_end_marker : bool) : option nat :=
  match last_nonzero data with
  | None => None
  | Some last =>
      List.find (fun at_ =>
          (at_ + HEADER_SIZE <=? length data) &&
          ((include_end_marker && is_end_marker data at_)
           || match decode_frame data at_ with inl _ => true | inr _ => false end))
        (seq from (S (last - (HEADER_SIZE - 1)) - from))
  end.

Inductive SegmentEnd : Type :=
| Marker
| ZeroHeader
| Exhausted
| TornTail (reason : string)
| Corrupt (reason : string) (committed_at : option nat).

Record SegmentScan := mkScan { scan_frames : list (FrameRef * list Z); scan_end_offset : nat; scan_end : SegmentEnd }.

Definition scan_fault (data : list Z) (is_final : bool) (frames : list (FrameRef * list Z)) (offset : nat)
    (reason : string) : SegmentScan :=
  let committed_at := scan_committed_after data (offset + 1) true in
  {| scan_frames := frames; scan_end_offset := offset;
     scan_end := if is_final && negb (bool_decide (is_Some committed_at)) then TornTail reason
                 else Corrupt reason committed_at |}.

Fixpoint scan_loop (fuel : nat) (data : list Z) (is_final : bool) (frames : list (FrameRef * list Z)) (offset : nat)
    : outcome SegmentScan :=
  if negb (offset + HEADER_SIZE <=? length data)
  then Ok {| scan_frames := frames; scan_end_offset := offset; scan_end := Exhausted |}
  else match fuel with
  | O => Panic
  | S fuel =>
      if ((word data (offset + 4) =? 0) && (word data (offset + 8) =? 0))%Z then
        if scan_is_log_end data offset then
          match scan_committed_after data (offset + HEADER_SIZE) false with
          | Some at_ => Ok {| scan_frames := frames; scan_end_offset := offset;
                              scan_end := Corrupt "committed-after-end" (Some at_) |}
          | None => Ok {| scan_frames := frames; scan_end_offset := offset;
                          scan_end := if is_end_marker data offset then Marker else ZeroHeader |}
          end
        else Ok (scan_fault data is_final frames offset "invalid-end-header")
      else
        match decode_frame data offset with
        | inl (frame, payload) => scan_loop fuel data is_final (frames ++ [(frame, payload)]) (fr_end frame)
        | inr reason => Ok (scan_fault data is_final frames offset reason)
        end
  end.

Definition scan_segment (data : list Z) (is_final : bool) : outcome SegmentScan :=
  scan_loop (length data) data is_final [] 0.
End Frames.

(** ** The blockwise search finds the last non-zero byte *)

Lemma rposition_app {A} (f : A -> bool) l k :
  rposition f (l ++ k) =
  match rposition f k with Some i => Some (length l + i) | None => rposition f l end.
Proof.
  induction l as [|a l IH]; cbn [app rposition length]; [by destruct (rposition f k)|].
  rewrite IH. by destruct (rposition f k).
Qed.

Lemma rposition_None {A} (f : A -> bool) l : rposition f l = None <-> forallb (fun a => negb (f a)) l = true.
Proof.
  induction l as [|a l IH]; cbn [rposition forallb]; [done|].
  destruct (rposition f l).
  - split; [done|]. intros [_ H]%andb_true_iff. by apply IH in H.
  - destruct IH as [IH _]. rewrite IH, andb_true_r by done. by destruct (f a).
Qed.

Lemma rposition_Some {A} (f : A -> bool) l i :
  rposition f l = Some i -> i < length l /\ forall j a, i < j -> l !! j = Some a -> f a = false.
Proof.
  revert i. induction l as [|a l IH]; intros i H; cbn [rposition] in H; [done|]. cbn [length].
  destruct (rposition f l) as [k|] eqn:E.
  - injection H as <-. destruct (IH k eq_refl) as [Hk Hj]. split; [lia|]. intros [|j] b Hlt Hb; [lia|].
    apply (Hj j); [lia|done].
  - destruct (f a); [|done]. injection H as <-. split; [lia|]. intros [|j] b Hlt Hb; [lia|]. simpl in Hb.
    apply rposition_None in E. rewrite forallb_forall in E. apply negb_true_iff, E, list_elem_of_In.
    by eapply list_elem_of_lookup_2.
Qed.

Lemma forallb_zero_rposition l : rposition nonzero l = None <-> forallb (fun b => b =? 0)%Z l = true.
Proof.
  rewrite rposition_None. unfold nonzero. replace (forallb (fun a => negb (negb (a =? 0)%Z)) l) with (forallb (fun b => b =? 0)%Z l); [done|].
  induction l as [|b l IH]; cbn [forallb]; [done|]. by rewrite IH, negb_involutive.
Qed.

(** The search over whole blocks. *)
Definition last_in_blocks (size : nat) (blocks : list (list Z)) : option nat :=
  match rposition (fun bytes => negb (forallb (fun b => b =? 0)%Z bytes)) blocks with
  | None => None
  | Some block => (fun at_ => block * size + at_) <$> rposition nonzero (default [] (blocks !! block))
  end.

Lemma last_in_blocks_concat size blocks :
  Forall (fun b => length b = size) blocks -> last_in_blocks size blocks = rposition nonzero (concat blocks).
Proof.
  unfold last_in_blocks. induction 1 as [|b blocks Hb Hbs IH]; cbn [rposition concat]; [done|].
  rewrite rposition_app, <- IH.
  destruct (rposition (fun bytes => negb (forallb (fun b => b =? 0)%Z bytes)) blocks) as [k|] eqn:E; cbn [lookup list_lookup default].
  - destruct (rposition nonzero (default [] (blocks !! k))) as [i|] eqn:Ei; cbn [fmap option_fmap option_map]; [f_equal; lia|].
    exfalso. apply forallb_zero_rposition in Ei.
    assert (Hk : match blocks !! k with Some x => negb (forallb (fun b => b =? 0)%Z x) = true | None => False end).
    { clear -E. revert k E. induction blocks as [|x l IH]; intros k H; cbn [rposition] in H; [done|].
      destruct (rposition _ l) as [j|] eqn:Ej.
      - injection H as <-. simpl. by apply IH.
      - destruct (negb _) eqn:En; [|done]. injection H as <-. done. }
    destruct (blocks !! k); [|done]. simpl in Ei. by rewrite Ei in Hk.
  - destruct (forallb (fun b => b =? 0)%Z b) eqn:Ez; cbn [negb].
    + by apply forallb_zero_rposition in Ez.
    + cbn. by destruct (rposition nonzero b).
Qed.

Lemma chunks_concat size n data :
  n * size <= length data ->
  concat (chunks size n data) = take (n * size) data /\ Forall (fun b => length b = size) (chunks size n data).
Proof.
  revert data. induction n as [|n IH]; intros data H; cbn [chunks concat]; [done|].
  destruct (IH (drop size data)) as [IH1 IH2]; [rewrite length_drop; lia|]. split.
  - rewrite IH1. cbn [Nat.mul]. rewrite <- (take_drop size (take (size + n * size) data)).
    f_equal; [rewrite take_take; f_equal; lia|]. by rewrite skipn_firstn_comm, Nat.add_comm, Nat.add_sub.
  - constructor; [rewrite length_take; lia|done].
Qed.

Lemma last_nonzero_rposition data : last_nonzero data = rposition nonzero data.
Proof.
  unfold last_nonzero, last_nonzero_by. set (size := BLOCK). assert (Hs : 0 < size) by (unfold size, BLOCK; lia).
  clearbody size. set (n := length data / size).
  assert (Hn : n * size <= length data) by (unfold n; rewrite Nat.mul_comm; apply Nat.Div0.mul_div_le).
  destruct (chunks_concat size n data Hn) as [Hc Hl]. pose proof (last_in_blocks_concat size _ Hl) as Hb.
  unfold last_in_blocks in Hb. rewrite Hb, Hc.
  assert (R : rposition nonzero data = rposition nonzero (take (n * size) data ++ drop (n * size) data))
    by (by rewrite take_drop).
  rewrite R, rposition_app, length_take, Nat.min_l by lia. by destruct (rposition nonzero (drop _ data)).
Qed.

(** ** Encoded frames *)

Lemma word_app a v r : is_u32 v -> word (a ++ to_le_bytes 4 v ++ r) (length a) = v.
Proof.
  intros Hv. unfold word. rewrite drop_app_length. rewrite take_app_le by (rewrite to_le_bytes_length; lia).
  rewrite take_ge by (rewrite to_le_bytes_length; lia). apply from_to_le_bytes. unfold is_u32, U32 in Hv. simpl. lia.
Qed.

Lemma word_app_skip a b at_ : word (a ++ b) (length a + at_) = word b at_.
Proof. unfold word. by rewrite drop_app_add. Qed.

Definition header_bytes (crc raw_len comp_len version : Z) : list Z :=
  to_le_bytes 4 crc ++ to_le_bytes 4 raw_len ++ to_le_bytes 4 comp_len ++ to_le_bytes 4 version.

Lemma header_bytes_length c r k v : length (header_bytes c r k v) = HEADER_SIZE.
Proof. unfold header_bytes. by rewrite !length_app, !to_le_bytes_length. Qed.

Lemma header_words_bytes c r k v rest :
  is_u32 c -> is_u32 r -> is_u32 k -> is_u32 v -> header_words (header_bytes c r k v ++ rest) = Some (c, r, k, v).
Proof.
  intros Hc Hr Hk Hv. unfold header_words. rewrite length_app, header_bytes_length.
  replace (HEADER_SIZE <=? HEADER_SIZE + length rest) with true by (symmetry; apply Nat.leb_le; lia).
  unfold header_bytes. rewrite <- !app_assoc. f_equal. f_equal; [f_equal; [f_equal|]|].
  - by apply (word_app [] c).
  - pose proof (word_app (to_le_bytes 4 c) r (to_le_bytes 4 k ++ to_le_bytes 4 v ++ rest) Hr) as W.
    by rewrite to_le_bytes_length in W.
  - pose proof (word_app (to_le_bytes 4 c ++ to_le_bytes 4 r) k (to_le_bytes 4 v ++ rest) Hk) as W.
    by rewrite length_app, !to_le_bytes_length, <- app_assoc in W.
  - pose proof (word_app (to_le_bytes 4 c ++ to_le_bytes 4 r ++ to_le_bytes 4 k) v rest Hv) as W.
    by rewrite !length_app, !to_le_bytes_length, <- !app_assoc in W.
Qed.

Lemma word_take n bytes at_ : at_ + 4 <= n -> word (take n bytes) at_ = word bytes at_.
Proof. intros H. unfold word. rewrite skipn_firstn_comm, take_take. f_equal. by rewrite Nat.min_l by lia. Qed.

Lemma header_words_take bytes : header_words (take HEADER_SIZE bytes) = header_words bytes.
Proof.
  unfold header_words. rewrite length_take. destruct (HEADER_SIZE <=? length bytes) eqn:E; bool_to_prop.
  - rewrite Nat.min_l by lia. cbn [Nat.leb HEADER_SIZE]. by rewrite !word_take by (unfold HEADER_SIZE; lia).
  - rewrite Nat.min_r by lia. by rewrite (proj2 (Nat.leb_gt _ _)).
Qed.

Lemma is_log_end_take bytes : is_log_end (take HEADER_SIZE bytes) = is_log_end bytes.
Proof. unfold is_log_end. by rewrite header_words_take. Qed.

Lemma header_words_None bytes : header_words bytes = None <-> length bytes < HEADER_SIZE.
Proof.
  unfold header_words. destruct (HEADER_SIZE <=? length bytes) eqn:E; bool_to_prop; split; try done; lia.
Qed.

Lemma word_u32 data at_ : bytes_ok data -> is_u32 (word data at_).
Proof.
  intros H. unfold word. pose proof (from_le_bytes_bound (take 4 (drop at_ data))
    ltac:(by apply Forall_take, Forall_drop)) as B.
  rewrite length_take in B. unfold is_u32, U32.
  pose proof (Z.pow_le_mono_r 2 (8 * Z.of_nat (Nat.min 4 (length (drop at_ data)))) 32). lia.
Qed.

Lemma end_marker_bytes_header : end_marker_bytes = header_bytes 0 0 0 END_MARK.
Proof. reflexivity. Qed.

Section FrameLemmas.
Context {codec : FrameCodec} {laws : FrameCodecLaws}.

(** What [write_frame] stores for a payload: the LZ4 block when it is shorter. *)
Definition stored (d : list Z) : list Z :=
  if length (lz4_compress d) <? length d then lz4_compress d else d.

Definition frame_bytes (d : list Z) (version : Z) : list Z :=
  header_bytes (crc32 d) (Z.of_nat (length d)) (Z.of_nat (length (stored d))) version ++ stored d.

Definition payload_ok (d : list Z) : Prop := (1 <= Z.of_nat (length d) <= MAX_RAW_FRAME_SIZE)%Z.

Lemma stored_length d : payload_ok d -> 1 <= length (stored d) <= length d.
Proof.
  intros Hd. unfold stored. destruct (_ <? _) eqn:E; bool_to_prop; unfold payload_ok in Hd; [|lia].
  assert (lz4_compress d <> []) as Hn by (apply lz4_nonempty; intros ->; simpl in Hd; lia).
  destruct (lz4_compress d); [done|]. simpl in *. lia.
Qed.

Lemma frame_bytes_length d v : length (frame_bytes d v) = HEADER_SIZE + length (stored d).
Proof. unfold frame_bytes. by rewrite length_app, header_bytes_length. Qed.

Lemma payload_u32 d : payload_ok d -> is_u32 (Z.of_nat (length d)) /\ is_u32 (Z.of_nat (length (stored d))).
Proof.
  intros Hd. pose proof (stored_length d Hd). unfold payload_ok, MAX_RAW_FRAME_SIZE in Hd. unfold is_u32, U32. lia.
Qed.

Lemma frame_header d v rest :
  payload_ok d -> is_u32 v ->
  header_words (frame_bytes d v ++ rest) = Some (crc32 d, Z.of_nat (length d), Z.of_nat (length (stored d)), v).
Proof.
  intros Hd Hv. destruct (payload_u32 d Hd). unfold frame_bytes. rewrite <- app_assoc.
  apply header_words_bytes; auto using crc32_u32.
Qed.

(** The stored bytes decode to the payload. *)
Lemma stored_decodes d :
  (if (Z.of_nat (length (stored d)) <? Z.of_nat (length d))%Z
   then lz4_decompress (stored d) (length d) else Some (stored d)) = Some d.
Proof.
  unfold stored. destruct (length (lz4_compress d) <? length d) eqn:E; bool_to_prop.
  - rewrite (proj2 (Z.ltb_lt _ _)) by lia. apply lz4_inverse.
  - by rewrite (proj2 (Z.ltb_ge _ _)) by lia.
Qed.

Lemma frame_checks d v pre rest :
  payload_ok d -> is_u32 v -> frame_checks_out (pre ++ frame_bytes d v ++ rest) (length pre) = true.
Proof.
  intros Hd Hv. pose proof (stored_length d Hd) as Hs. unfold payload_ok in Hd. unfold frame_checks_out.
  rewrite (proj2 (Nat.leb_le _ _)) by (rewrite length_app; lia). rewrite drop_app_length, frame_header by done.
  replace (_ || _ || _ || _)%Z with false.
  2: { symmetry. rewrite !orb_false_iff. split_and!; [apply Z.eqb_neq; lia|apply Z.eqb_neq; lia|apply Z.ltb_ge; lia..]. }
  rewrite !Nat2Z.id. rewrite (proj2 (Nat.leb_le _ _)) by (rewrite !length_app, frame_bytes_length; lia).
  assert (Hp : take (length (stored d)) (drop (length pre + HEADER_SIZE) (pre ++ frame_bytes d v ++ rest)) = stored d).
  { rewrite drop_app_add. unfold frame_bytes. rewrite <- app_assoc, (drop_app_length' (header_bytes _ _ _ _)).
    - by rewrite take_app_length.
    - by rewrite header_bytes_length. }
  rewrite Hp. pose proof (stored_decodes d) as D. destruct (_ <? _)%Z.
  - rewrite D, Nat.eqb_refl, Z.eqb_refl. done.
  - injection D as ->. apply Z.eqb_refl.
Qed.

(** ** Logs *)

Definition frame : Type := list Z * Z.
Definition log (fs : list frame) : list Z := concat (map (fun f => frame_bytes f.1 f.2) fs).
Definition frame_ok (f : frame) : Prop := payload_ok f.1 /\ is_u32 f.2.
Definition max_version (v : Z) (fs : list frame) : Z := foldl Z.max v (map snd fs).

Lemma log_app fs gs : log (fs ++ gs) = log fs ++ log gs.
Proof. unfold log. by rewrite map_app, concat_app. Qed.

Lemma log_cons f fs : log (f :: fs) = frame_bytes f.1 f.2 ++ log fs.
Proof. done. Qed.

Lemma max_version_ge v fs : (v <= max_version v fs)%Z.
Proof.
  unfold max_version. revert v. induction fs as [|f fs IH]; intros v; simpl; [lia|].
  specialize (IH (Z.max v f.2)). lia.
Qed.

Lemma log_length_ge fs : HEADER_SIZE * length fs <= length (log fs).
Proof.
  induction fs as [|f fs IH]; [simpl; lia|]. rewrite log_cons, length_app, frame_bytes_length.
  cbn [length]. lia.
Qed.

(** One round of the walk over a frame that was written. *)
Lemma discover_frame fuel pre f rest mv :
  frame_ok f ->
  discover_loop (S fuel) (pre ++ frame_bytes f.1 f.2 ++ rest) (length pre) mv =
  discover_loop fuel (pre ++ frame_bytes f.1 f.2 ++ rest) (length (pre ++ frame_bytes f.1 f.2)) (Z.max mv f.2).
Proof.
  intros [Hd Hv]. destruct f as [d v]; cbn [fst snd] in *. pose proof (stored_length d Hd) as Hs.
  cbn [discover_loop]. rewrite drop_app_length, frame_header by done. unfold payload_ok in Hd.
  replace (_ && _)%Z with false by (symmetry; apply andb_false_iff; left; apply Z.eqb_neq; lia).
  assert (Hl : length (pre ++ frame_bytes d v ++ rest) = length pre + (HEADER_SIZE + length (stored d)) + length rest)
    by (rewrite !length_app, frame_bytes_length; lia).
  replace (_ || _ || _)%Z with false.
  2: { symmetry. rewrite !orb_false_iff, Hl. split_and!; [apply Z.ltb_ge; lia|apply Z.ltb_ge; lia|apply Z.eqb_neq; lia]. }
  rewrite Nat2Z.id, (proj2 (Nat.ltb_ge _ _)) by lia. rewrite frame_checks by done. cbn [negb].
  rewrite length_app, frame_bytes_length. f_equal. destruct (mv <? v)%Z eqn:E; bool_to_prop; lia.
Qed.

Lemma discover_frames fs : forall fuel pre rest mv,
  Forall frame_ok fs ->
  discover_loop (length fs + fuel) (pre ++ log fs ++ rest) (length pre) mv =
  discover_loop fuel (pre ++ log fs ++ rest) (length (pre ++ log fs)) (max_version mv fs).
Proof.
  induction fs as [|f fs IH]; intros fuel pre rest mv Hf.
  - change (log []) with (@nil Z). rewrite app_nil_r. done.
  - inversion Hf as [|?? H1 H2]; subst. rewrite log_cons, <- app_assoc.
    change (length (f :: fs) + fuel) with (S (length fs + fuel)). rewrite discover_frame by done.
    rewrite (app_assoc pre). rewrite IH by done. rewrite <- !app_assoc. done.
Qed.

Lemma discover_log fs tail :
  Forall frame_ok fs ->
  discover_offset (log fs ++ tail) =
  discover_loop (length (log fs ++ tail) - length fs) (log fs ++ tail) (length (log fs)) (max_version 0 fs).
Proof.
  intros Hf. unfold discover_offset. pose proof (log_length_ge fs) as Hge. unfold HEADER_SIZE in Hge.
  rewrite <- (discover_frames fs _ [] tail 0 Hf). f_equal. rewrite length_app. simpl. lia.
Qed.

(** ** What follows the log *)

Lemma find_none_iff {A} (f : A -> bool) l : (forall x, x ∈ l -> f x = false) -> List.find f l = None.
Proof.
  induction l as [|a l IH]; intros H; simpl; [done|]. rewrite H by left. apply IH. intros x Hx. apply H. by right.
Qed.

Lemma find_some_iff {A} (f : A -> bool) l x : x ∈ l -> f x = true -> exists y, List.find f l = Some y.
Proof.
  intros Hx Hf. destruct (List.find f l) as [y|] eqn:E; [by exists y|].
  pose proof (List.find_none f l E x ltac:(by apply list_elem_of_In)). congruence.
Qed.

Lemma committed_after_none data from :
  (forall p, from <= p -> frame_checks_out data p = false) -> committed_after data from false = None.
Proof.
  intros H. unfold committed_after. destruct (last_nonzero data); [|done]. apply find_none_iff.
  intros p Hp%elem_of_seq. rewrite H by lia. by rewrite andb_false_r.
Qed.

Lemma committed_after_some data from m p last :
  last_nonzero data = Some last -> from <= p -> p + (HEADER_SIZE - 1) <= last -> p + HEADER_SIZE <= length data ->
  frame_checks_out data p = true \/
    (m = true /\ take HEADER_SIZE (drop p data) = end_marker_bytes) ->
  exists q, committed_after data from m = Some q.
Proof.
  intros Hl Hfrom Hlast Hlen Hp. unfold committed_after. rewrite Hl. eapply (find_some_iff _ _ p).
  - apply elem_of_seq. unfold HEADER_SIZE in *. lia.
  - rewrite (proj2 (Nat.leb_le _ _)) by done. destruct Hp as [->|[-> Hm]]; [done|]. rewrite Hm.
    replace (take 4 (drop (p + 12) data)) with (take 4 (drop 12 (take HEADER_SIZE (drop p data)))).
    + rewrite Hm. apply orb_true_r.
    + rewrite skipn_firstn_comm, take_take, drop_drop. f_equal.
Qed.

(** ** Recovery *)

Lemma discover_stop fuel data off mv :
  (length data < off + HEADER_SIZE \/
   (is_log_end (drop off data) = true /\ forall p, off + HEADER_SIZE <= p -> frame_checks_out data p = false)) ->
  0 < fuel -> discover_loop fuel data off mv = Ok (off, mv).
Proof.
  intros Hstop Hf. destruct fuel as [|fuel]; [lia|]. cbn [discover_loop].
  destruct (header_words (drop off data)) as [[[[crc raw] comp] version]|] eqn:E; [|done].
  destruct Hstop as [Hlen|[Hend Hnone]].
  { assert (header_words (drop off data) = None) by (apply header_words_None; rewrite length_drop; unfold HEADER_SIZE in *; lia). congruence. }
  rewrite is_log_end_take, Hend. unfold is_log_end in Hend. rewrite E in Hend.
  apply andb_true_iff in Hend as [[[_ ->]%andb_true_iff ->]%andb_true_iff _]. cbn [andb].
  by rewrite committed_after_none.
Qed.

(** The end of a written log: the marker, or too little room for a header. *)
Definition log_end (data : list Z) (off : nat) : Prop :=
  (length data < off + HEADER_SIZE \/ is_log_end (drop off data) = true) /\
  (forall p, off + HEADER_SIZE <= p -> frame_checks_out data p = false).

Lemma discover_exact fs tail :
  Forall frame_ok fs -> log_end (log fs ++ tail) (length (log fs)) ->
  discover_offset (log fs ++ tail) = Ok (length (log fs), max_version 0 fs).
Proof.
  intros Hf [Hend Hnone]. rewrite discover_log by done. pose proof (log_length_ge fs) as Hge. unfold HEADER_SIZE in Hge.
  destruct (decide (length (log fs ++ tail) - length fs = 0)) as [E0|E0].
  - rewrite length_app in E0. destruct fs as [|f fs]; [|cbn [length] in *; lia].
    change (log []) with (@nil Z) in *. simpl in E0. rewrite Nat.sub_0_r in E0. rewrite app_nil_l in *. apply nil_length_inv in E0 as ->. done.
  - apply discover_stop; [|lia]. destruct Hend; auto.
Qed.

Lemma discover_loop_total fuel data off mv :
  off <= length data -> length data - off <= fuel * HEADER_SIZE ->
  no_panic (discover_loop fuel data off mv) /\
  forall off' v, discover_loop fuel data off mv = Ok (off', v) -> off <= off' <= length data /\ (mv <= v)%Z.
Proof.
  assert (F : forall o m, o <= length data -> no_panic (fail data o m) /\
    forall o' v, fail data o m = Ok (o', v) -> o <= o' <= length data /\ (m <= v)%Z).
  { intros o m Ho. unfold fail. destruct (committed_after _ _ _); [done|]. split; [done|].
    intros ?? [= <- <-]. split; lia. }
  revert off mv. induction fuel as [|fuel IH]; intros off mv Hoff Hf; cbn [discover_loop];
    destruct (header_words (drop off data)) as [[[[crc raw] comp] version]|] eqn:E.
  - exfalso. assert (header_words (drop off data) = None); [|congruence]. apply header_words_None.
    rewrite length_drop. unfold HEADER_SIZE. lia.
  - split; [done|]. intros ?? [= <- <-]. split; lia.
  - destruct (_ && _)%Z.
    { destruct (is_log_end _); [|by apply F]. destruct (committed_after _ _ _); [by apply F|].
      split; [done|]. intros ?? [= <- <-]. split; lia. }
    destruct (_ || _)%Z; [by apply F|]. destruct (_ <? _) eqn:El; [by apply F|]. bool_to_prop.
    destruct (negb _); [by apply F|].
    destruct (IH (off + (HEADER_SIZE + Z.to_nat comp)) (if (mv <? version)%Z then version else mv)) as [H1 H2]; [lia|lia|].
    split; [done|]. intros o' v Ho. destruct (H2 o' v Ho) as [? Hv]. split; [lia|].
    destruct (mv <? version)%Z eqn:Ev; bool_to_prop; lia.
  - split; [done|]. intros ?? [= <- <-]. split; lia.
Qed.

Lemma discover_bounds fs tail off v :
  Forall frame_ok fs -> discover_offset (log fs ++ tail) = Ok (off, v) ->
  length (log fs) <= off <= length (log fs ++ tail) /\ (max_version 0 fs <= v)%Z.
Proof.
  intros Hf H. rewrite discover_log in H by done. pose proof (log_length_ge fs) as Hge. unfold HEADER_SIZE in Hge.
  eapply discover_loop_total; [| |exact H]; rewrite length_app; unfold HEADER_SIZE; lia.
Qed.

(** ** Damage inside the log *)

Lemma last_nonzero_marker l k :
  last_nonzero (l ++ end_marker_bytes ++ replicate k 0%Z) = Some (length l + (HEADER_SIZE - 1)).
Proof.
  rewrite last_nonzero_rposition, !rposition_app.
  assert (Z0 : rposition nonzero (replicate k 0%Z) = None).
  { apply forallb_zero_rposition. induction k; simpl; auto. }
  rewrite Z0. done.
Qed.

Lemma fail_err data off mv q : committed_after data (off + 1) true = Some q -> exists e, fail data off mv = Err e.
Proof. intros H. unfold fail. rewrite H. by eexists. Qed.

(** [b] takes the place of a committed frame and fails its checks; what follows it was written
    by later commits and ends with the marker. *)
Definition damaged (fs1 : list frame) (b : list Z) (fs2 : list frame) (k : nat) : list Z :=
  log fs1 ++ b ++ log fs2 ++ end_marker_bytes ++ replicate k 0%Z.

Lemma damaged_marker fs1 b fs2 k off :
  HEADER_SIZE <= length b -> off <= length (log fs1) ->
  exists q, committed_after (damaged fs1 b fs2 k) (off + 1) true = Some q.
Proof.
  intros Hb Hoff. set (l := log fs1 ++ b ++ log fs2).
  assert (E : damaged fs1 b fs2 k = l ++ end_marker_bytes ++ replicate k 0%Z)
    by (unfold damaged, l; by rewrite <- !app_assoc).
  rewrite E. apply (committed_after_some _ _ _ (length l) (length l + (HEADER_SIZE - 1)));
    [apply last_nonzero_marker|unfold l; rewrite !length_app; unfold HEADER_SIZE in Hb; lia|lia| |].
  - rewrite !length_app. change (length end_marker_bytes) with HEADER_SIZE. lia.
  - right. split; [done|]. by rewrite drop_app_length, (take_app_length' end_marker_bytes).
Qed.

Lemma damaged_next fs1 b f fs2 k :
  frame_ok f -> HEADER_SIZE <= length b ->
  exists q, committed_after (damaged fs1 b (f :: fs2) k) (length (log fs1) + HEADER_SIZE) false = Some q.
Proof.
  intros [Hd Hv] Hb. unfold damaged. rewrite log_cons. set (l := log fs1 ++ b).
  set (r := log fs2 ++ end_marker_bytes ++ replicate k 0%Z).
  assert (E : log fs1 ++ b ++ (frame_bytes f.1 f.2 ++ log fs2) ++ end_marker_bytes ++ replicate k 0%Z
              = l ++ frame_bytes f.1 f.2 ++ r) by (unfold l, r; by rewrite <- !app_assoc).
  rewrite E. pose proof (last_nonzero_marker (l ++ frame_bytes f.1 f.2 ++ log fs2) k) as Hl.
  rewrite <- !app_assoc in Hl. fold r in Hl.
  apply (committed_after_some _ _ _ (length l) _ Hl).
  - unfold l. rewrite length_app. lia.
  - rewrite !length_app. unfold l. rewrite length_app. lia.
  - rewrite !length_app, frame_bytes_length. lia.
  - left. by apply frame_checks.
Qed.

(** C31: damage inside a committed log is reported, never truncated: when a committed frame was
    overwritten so that it fails its checks, and it was followed by a later commit or its header
    does not read as the end of the log, opening the segment is an error. *)
Theorem damage_is_reported fs1 b fs2 k :
  Forall frame_ok fs1 -> Forall frame_ok fs2 -> HEADER_SIZE <= length b ->
  frame_checks_out (damaged fs1 b fs2 k) (length (log fs1)) = false ->
  fs2 <> [] \/ is_log_end b = false ->
  exists e, discover_offset (damaged fs1 b fs2 k) = Err e.
Proof.
  intros H1 H2 Hb Hbad Hcase. set (data := damaged fs1 b fs2 k) in *.
  assert (Hlen : length data = length (log fs1) + length b + length (log fs2) + HEADER_SIZE + k).
  { unfold data, damaged. rewrite !length_app, length_replicate. change (length end_marker_bytes) with HEADER_SIZE. lia. }
  destruct (damaged_marker fs1 b fs2 k (length (log fs1)) Hb ltac:(lia)) as [q Hq]. fold data in Hq.
  assert (Hd : discover_offset data = discover_loop (length data - length fs1) data (length (log fs1)) (max_version 0 fs1))
    by (by apply discover_log).
  rewrite Hd. pose proof (log_length_ge fs1) as Hge. unfold HEADER_SIZE in *.
  destruct (length data - length fs1) as [|fuel] eqn:Ef; [lia|]. cbn [discover_loop].
  assert (Hdrop : drop (length (log fs1)) data = b ++ log fs2 ++ end_marker_bytes ++ replicate k 0%Z)
    by (unfold data, damaged; by rewrite drop_app_length).
  destruct (header_words (drop (length (log fs1)) data)) as [[[[crc raw] comp] version]|] eqn:Eh.
  2: { apply header_words_None in Eh. rewrite Hdrop, length_app in Eh. unfold HEADER_SIZE in Eh. lia. }
  destruct (_ && _)%Z.
  { destruct (is_log_end (take _ _)) eqn:Ee; [|by eapply fail_err].
    destruct Hcase as [Hne|Hne].
    - destruct fs2 as [|f fs2]; [done|]. inversion H2; subst.
      destruct (damaged_next fs1 b f fs2 k) as [q2 Hq2]; [done|done|]. fold data in Hq2. rewrite Hq2. by eapply fail_err.
    - exfalso. rewrite Hdrop, take_app_le, is_log_end_take in Ee by (unfold HEADER_SIZE; lia). congruence. }
  destruct (_ || _)%Z; [by eapply fail_err|]. destruct (_ <? _); [by eapply fail_err|].
  rewrite Hbad. cbn [negb]. by eapply fail_err.
Qed.

(** ** The verifier agrees with the engine *)

Lemma decode_frame_checks data off :
  bytes_ok data ->
  (match decode_frame data off with inl _ => true | inr _ => false end) = frame_checks_out data off.
Proof using laws.
  intros Hok. pose proof (word_u32 data (off + 4) Hok) as Hr4. pose proof (word_u32 data (off + 8) Hok) as Hr8.
  unfold is_u32 in Hr4, Hr8. unfold decode_frame, frame_checks_out. destruct (off + HEADER_SIZE <=? length data) eqn:E; bool_to_prop; cbn [negb].
  2: { destruct (off <=? length data) eqn:E2; [|done]. bool_to_prop.
       rewrite (proj2 (header_words_None _)); [done|]. rewrite length_drop. lia. }
  rewrite (proj2 (Nat.leb_le off _)) by lia. unfold header_words. rewrite length_drop, (proj2 (Nat.leb_le HEADER_SIZE _)) by lia.
  assert (W : forall k, word (drop off data) k = word data (off + k)) by (intros k; unfold word; by rewrite drop_drop).
  rewrite !W, Nat.add_0_r. set (raw := word data (off + 4)). set (comp := word data (off + 8)).
  rewrite (orb_comm (comp =? 0)%Z (raw =? 0)%Z). destruct (_ || _ || _ || _)%Z eqn:Elen; [done|]. rewrite !orb_false_iff in Elen. destruct Elen as [[[??]?]?]. bool_to_prop.
  replace (off + (HEADER_SIZE + Z.to_nat comp)) with (off + HEADER_SIZE + Z.to_nat comp) by lia.
  destruct (off + HEADER_SIZE + Z.to_nat comp <=? length data) eqn:E3; bool_to_prop; [|done]. cbn [negb].
  set (payload := take _ _).
  destruct (comp <? raw)%Z eqn:Ec; [|by destruct (_ =? _)%Z].
  destruct (comp * 255 <? raw)%Z eqn:Er; bool_to_prop.
  - destruct (lz4_decompress payload (Z.to_nat raw)) as [out|] eqn:Ed; [|done].
    destruct (Nat.eqb (length out) (Z.to_nat raw)) eqn:El; [|done]. bool_to_prop. exfalso.
    pose proof (lz4_ratio _ _ _ Ed) as Hr. unfold payload in Hr. rewrite length_take in Hr. lia.
  - destruct (lz4_decompress payload (Z.to_nat raw)) as [out|]; [|done].
    destruct (Nat.eqb _ _); cbn [negb andb]; [|done]. by destruct (_ =? _)%Z.
Qed.

Lemma word_eq data at_ v :
  bytes_ok data -> at_ + 4 <= length data -> is_u32 v ->
  (word data at_ =? v)%Z = bool_decide (take 4 (drop at_ data) = to_le_bytes 4 v).
Proof.
  intros Hd Hl Hv. unfold word. set (l := take 4 (drop at_ data)).
  assert (Hlen : length l = 4) by (unfold l; rewrite length_take, length_drop; lia).
  assert (Hok : bytes_ok l) by (by apply Forall_take, Forall_drop).
  case_bool_decide as E.
  - rewrite E. apply Z.eqb_eq, from_to_le_bytes. unfold is_u32, U32 in Hv. simpl. lia.
  - apply Z.eqb_neq. intros H. apply E. rewrite <- H, <- Hlen. by rewrite to_from_le_bytes.
Qed.

Lemma forallb_zeros l n : length l = n -> forallb (fun b => b =? 0)%Z l = bool_decide (l = replicate n 0%Z).
Proof.
  intros <-. induction l as [|a l IH]; [done|]. cbn [forallb length replicate]. rewrite IH.
  destruct (Z.eqb_spec a 0) as [->|Ha]; cbn [andb].
  - apply bool_decide_ext. split; congruence.
  - symmetry. apply bool_decide_eq_false. intros [= ? _]. done.
Qed.

Lemma zeros_words data at_ :
  bytes_ok data -> at_ + HEADER_SIZE <= length data ->
  forallb (fun b => b =? 0)%Z (take HEADER_SIZE (drop at_ data)) =
  ((word data at_ =? 0) && (word data (at_ + 4) =? 0) && (word data (at_ + 8) =? 0) && (word data (at_ + 12) =? 0))%Z.
Proof.
  intros Hd Hl. unfold HEADER_SIZE in *. rewrite !word_eq by (done || unfold is_u32, U32; lia).
  assert (Hz : forall n, n + 4 <= length data ->
    forallb (fun b => b =? 0)%Z (take 4 (drop n data)) = bool_decide (take 4 (drop n data) = to_le_bytes 4 0)).
  { intros n Hn. change (to_le_bytes 4 0) with (replicate 4 0%Z). apply forallb_zeros. rewrite length_take, length_drop. lia. }
  assert (S16 : take 16 (drop at_ data) = take 4 (drop at_ data) ++ take 4 (drop (at_ + 4) data) ++
                take 4 (drop (at_ + 8) data) ++ take 4 (drop (at_ + 12) data)).
  { assert (T : forall n m, take (4 + m) (drop n data) = take 4 (drop n data) ++ take m (drop (n + 4) data))
      by (intros n m; by rewrite <- take_take_drop, drop_drop).
    change 16 with (4 + (4 + (4 + 4))). rewrite T, T, T. by rewrite <- !Nat.add_assoc. }
  rewrite S16, !forallb_app.
  rewrite !Hz by lia. by rewrite !andb_assoc.
Qed.

Lemma header_words_drop data off :
  header_words (drop off data) =
  if off + HEADER_SIZE <=? length data
  then Some (word data off, word data (off + 4), word data (off + 8), word data (off + 12)) else None.
Proof.
  unfold header_words. rewrite length_drop.
  destruct (off + HEADER_SIZE <=? length data) eqn:E; bool_to_prop.
  - rewrite (proj2 (Nat.leb_le _ _)) by lia. unfold word. by rewrite !drop_drop, !Nat.add_0_r.
  - by rewrite (proj2 (Nat.leb_gt _ _)) by (unfold HEADER_SIZE in *; lia).
Qed.

Lemma scan_is_log_end_eq data off :
  bytes_ok data -> scan_is_log_end data off = is_log_end (take HEADER_SIZE (drop off data)).
Proof.
  intros Hd. unfold scan_is_log_end. rewrite is_log_end_take. unfold is_log_end. rewrite header_words_drop.
  destruct (off + HEADER_SIZE <=? length data) eqn:E; [|done]. bool_to_prop. rewrite zeros_words by done. cbn [andb].
  destruct (word data off =? 0)%Z, (word data (off + 4) =? 0)%Z, (word data (off + 8) =? 0)%Z,
    (word data (off + 12) =? 0)%Z, (word data (off + 12) =? END_MARK)%Z; reflexivity.
Qed.

Lemma scan_committed_after_eq data from m :
  bytes_ok data -> scan_committed_after data from m = committed_after data from m.
Proof using laws.
  intros Hd. unfold scan_committed_after, committed_after. destruct (last_nonzero data) as [last|]; [|done].
  generalize (seq from (S (last - (HEADER_SIZE - 1)) - from)). intros l. induction l as [|p l IH]; [done|].
  cbn [List.find]. rewrite IH, decode_frame_checks by done. unfold is_end_marker. rewrite scan_is_log_end_eq by done.
  destruct (p + HEADER_SIZE <=? length data) eqn:E; [|done]. bool_to_prop. unfold HEADER_SIZE in E. cbn [andb].
  rewrite (word_eq data (p + 12)) by (done || lia || (unfold is_u32, U32, END_MARK; lia)).
  rewrite !andb_assoc. by rewrite orb_comm.
Qed.

(** How the verifier's report corresponds to the engine's result. *)
Definition agrees (s : SegmentScan) (mv : Z) (r : outcome (nat * Z)) : Prop :=
  match scan_end s with
  | Corrupt _ _ => exists e, r = Err e
  | _ => r = Ok (scan_end_offset s, foldl Z.max mv (map (fun f => fr_seq f.1) (scan_frames s)))
  end.

Lemma scan_fault_agrees data frames off reason mv :
  bytes_ok data ->
  agrees (scan_fault data true frames off reason) mv
    (fail data off (foldl Z.max mv (map (fun f => fr_seq f.1) frames))).
Proof using laws.
  intros Hd. unfold agrees, scan_fault, fail. cbn [scan_end scan_end_offset scan_frames andb].
  rewrite scan_committed_after_eq by done. destruct (committed_after data (off + 1) true) as [q|].
  - rewrite bool_decide_eq_true_2 by done. cbn [negb]. by eexists.
  - rewrite bool_decide_eq_false_2 by (intros [? ?]; done). done.
Qed.

Lemma decode_frame_inl data off f p :
  decode_frame data off = inl (f, p) ->
  fr_offset f = off /\ fr_comp_len f = word data (off + 8) /\ fr_seq f = word data (off + 12) /\
  (word data (off + 4) =? 0)%Z = false /\ (word data (off + 8) =? 0)%Z = false /\
  (MAX_RAW_FRAME_SIZE <? word data (off + 4))%Z = false /\
  off + HEADER_SIZE + Z.to_nat (word data (off + 8)) <= length data.
Proof.
  unfold decode_frame. destruct (off + HEADER_SIZE <=? length data); cbn [negb]; [|done].
  destruct (_ || _ || _ || _)%Z eqn:El; [done|]. rewrite !orb_false_iff in El. destruct El as [[[??]?]?].
  destruct (off + HEADER_SIZE + _ <=? _) eqn:Ee; cbn [negb]; [|done]. bool_to_prop.
  assert (G : fr_offset f = off /\ fr_comp_len f = word data (off + 8) /\ fr_seq f = word data (off + 12) ->
    fr_offset f = off /\ fr_comp_len f = word data (off + 8) /\ fr_seq f = word data (off + 12) /\
    (word data (off + 4) =? 0)%Z = false /\ (word data (off + 8) =? 0)%Z = false /\
    (MAX_RAW_FRAME_SIZE <? word data (off + 4))%Z = false /\
    off + HEADER_SIZE + Z.to_nat (word data (off + 8)) <= length data).
  { intros (?&?&?). split_and!; auto; rewrite ?Z.eqb_neq, ?Z.ltb_ge; lia. }
  repeat (case_match; try done); intros [= <- <-]; by apply G.
Qed.

Lemma scan_loop_agrees fuel data frames off mv :
  bytes_ok data -> off <= length data ->
  exists s, (scan_loop fuel data true frames off = Ok s /\
             agrees s mv (discover_loop fuel data off (foldl Z.max mv (map (fun f => fr_seq f.1) frames)))) \/
            scan_loop fuel data true frames off = Panic /\
            discover_loop fuel data off (foldl Z.max mv (map (fun f => fr_seq f.1) frames)) = Panic.
Proof using laws.
  intros Hd. revert frames off. induction fuel as [|fuel IH]; intros frames off Hoff;
    cbn [scan_loop discover_loop]; rewrite header_words_drop;
    destruct (off + HEADER_SIZE <=? length data) eqn:E; cbn [negb].
  2, 4: eexists {| scan_frames := frames; scan_end_offset := off; scan_end := Exhausted |}; by left.
  { exists {| scan_frames := frames; scan_end_offset := off; scan_end := Exhausted |}. by right. }
  destruct ((word data (off + 4) =? 0) && (word data (off + 8) =? 0))%Z eqn:Ez.
  { rewrite scan_is_log_end_eq, scan_committed_after_eq by done.
    destruct (is_log_end (take HEADER_SIZE (drop off data))) eqn:Ele.
    - destruct (committed_after data (off + HEADER_SIZE) false) as [q|] eqn:Eq.
      + eexists. left. split; [done|]. unfold agrees. cbn [scan_end]. unfold committed_after in Eq.
        destruct (last_nonzero data) as [last|] eqn:El; [|done]. apply List.find_some in Eq as [Hin Hf].
        apply list_elem_of_In, elem_of_seq in Hin. apply andb_true_iff in Hf as [Hb Hc]. bool_to_prop.
        rewrite orb_false_r in Hc. unfold HEADER_SIZE in *.
        destruct (committed_after_some data (off + 1) true q last El) as [q2 Hq2]; unfold HEADER_SIZE; [lia|lia|lia|by left|].
        by eapply fail_err.
      + eexists. left. split; [done|]. unfold agrees. cbn [scan_end scan_end_offset scan_frames].
        by destruct (is_end_marker data off).
    - eexists. left. split; [done|]. by apply scan_fault_agrees. }
  pose proof (decode_frame_checks data off Hd) as Hck.
  destruct (decode_frame data off) as [[f p]|reason] eqn:Edec.
  - destruct (decode_frame_inl _ _ _ _ Edec) as (Hfo & Hfc & Hfs & H4 & H8 & Hm & Hle). rewrite Hm, H8, <- Hck.
    replace (Z.of_nat (length data) <? word data (off + 8))%Z with false by (symmetry; apply Z.ltb_ge; lia).
    cbn [orb negb]. rewrite (proj2 (Nat.ltb_ge _ _)) by lia.
    destruct (IH (frames ++ [(f, p)]) (fr_end f)) as [s Hs]; [unfold fr_end; rewrite Hfo, Hfc; lia|].
    exists s. rewrite map_app, foldl_app in Hs. cbn [map foldl fst] in Hs. unfold fr_end in Hs. rewrite Hfo, Hfc, Hfs in Hs.
    unfold fr_end. rewrite Hfo, Hfc.
    replace (off + (HEADER_SIZE + Z.to_nat (word data (off + 8)))) with (off + HEADER_SIZE + Z.to_nat (word data (off + 8))) by lia.
    set (w := word data (off + 12)) in *. set (m := foldl _ _ _) in *.
    replace (if (m <? w)%Z then w else m) with (Z.max m w); [exact Hs|].
    destruct (m <? w)%Z eqn:Em; bool_to_prop; lia.
  - exists (scan_fault data true frames off reason). left. split; [done|]. rewrite <- Hck. cbn [negb].
    destruct (_ || _ || _)%Z; [by apply scan_fault_agrees|]. destruct (_ <? _); by apply scan_fault_agrees.
Qed.
End FrameLemmas.

(** ** Claims *)

(** C30: recovery of a segment never loses a committed frame and never panics: whatever bytes
    follow the frames of a log (a torn append, stale data, damage), opening it either reports
    corruption or places the write offset at or after the end of those frames, with a version
    not below theirs. *)
Theorem recovery_keeps_log {codec : FrameCodec} {laws : FrameCodecLaws} fs tail :
  Forall frame_ok fs ->
  (exists e, discover_offset (log fs ++ tail) = Err e) \/
  (exists off v, discover_offset (log fs ++ tail) = Ok (off, v) /\
     length (log fs) <= off <= length (log fs ++ tail) /\ (max_version 0 fs <= v)%Z).
Proof.
  intros Hf. destruct (discover_offset (log fs ++ tail)) as [[off v]|e|] eqn:E.
  - right. exists off, v. split; [done|]. by eapply discover_bounds.
  - left. by exists e.
  - exfalso. destruct (discover_loop_total (length (log fs ++ tail)) (log fs ++ tail) 0 0) as [Hp _];
      [lia|unfold HEADER_SIZE; lia|]. by apply Hp.
Qed.

(** C32: the stand-alone verifier agrees with the engine on the final segment of any store: it
    reports corruption exactly where the engine refuses to open, and otherwise stops at the
    offset, and sees the highest version, that the engine recovers. *)
Theorem verifier_agrees {codec : FrameCodec} {laws : FrameCodecLaws} data :
  bytes_ok data ->
  exists s, scan_segment data true = Ok s /\
    match scan_end s with
    | Corrupt _ _ => exists e, discover_offset data = Err e
    | _ => discover_offset data = Ok (scan_end_offset s, foldl Z.max 0%Z (map (fun f => fr_seq f.1) (scan_frames s)))
    end.
Proof.
  intros Hd. destruct (scan_loop_agrees (length data) data [] 0 0 Hd ltac:(lia)) as [s [[Hs Ha]|[_ Hp]]].
  - exists s. split; [exact Hs|exact Ha].
  - exfalso. destruct (discover_loop_total (length data) data 0 0) as [Hnp _]; [lia|unfold HEADER_SIZE; lia|].
    by apply Hnp.
Qed.

(** ** A codec for examples

    A run of one byte is stored as its length; anything else as itself. *)

Definition toy_codec : FrameCodec := {|
  crc32 d := (foldl (fun a b => a * 31 + b + 7) 1 d mod U32)%Z;
  lz4_compress d :=
    match d with
    | x :: _ => if forallb (fun b => b =? x)%Z d && (length d <=? 255) then [1; x; Z.of_nat (length d)]%Z else 0%Z :: d
    | [] => [0%Z]
    end;
  lz4_decompress b n :=
    match b with
    | [1; x; k]%Z => Some (replicate (Z.to_nat (Z.min k 255)) x)
    | 0%Z :: d => Some d
    | _ => None
    end |}.
#[local] Existing Instance toy_codec.

Lemma toy_codec_laws : FrameCodecLaws.
Proof.
  split.
  - intros d. unfold crc32, toy_codec, is_u32. apply Z.mod_pos_bound. done.
  - intros [|x d]; [done|]. unfold lz4_compress, lz4_decompress, toy_codec.
    destruct (forallb _ _ && _) eqn:E; [|done]. apply andb_true_iff in E as [Ex Hl]. bool_to_prop.
    rewrite Z.min_l, Nat2Z.id by lia. f_equal. rewrite forallb_forall in Ex. apply replicate_as_Forall_2.
    1: done. apply Forall_forall. intros y Hy%list_elem_of_In%Ex. bool_to_prop. done.
  - intros [|x d] _; unfold lz4_compress, toy_codec; [done|]. by destruct (_ && _).
  - intros b n d. unfold lz4_decompress, toy_codec. intros Hd.
    repeat case_match; simplify_eq; rewrite ?length_replicate; simpl; lia.
Qed.

#[local] Existing Instance toy_codec_laws.

Definition toy_log : list Z := log [(replicate 9 5%Z, 0%Z); ([1; 2; 3]%Z, 1%Z)].

Lemma recovery_keeps_log_witness :
  (exists e, discover_offset (toy_log ++ replicate 40 7%Z) = Err e) \/
  (exists off v, discover_offset (toy_log ++ replicate 40 7%Z) = Ok (off, v) /\
     length toy_log <= off <= length (toy_log ++ replicate 40 7%Z) /\ (1 <= v)%Z).
Proof.
  apply (recovery_keeps_log [(replicate 9 5%Z, 0%Z); ([1; 2; 3]%Z, 1%Z)] (replicate 40 7%Z)).
  repeat constructor; vm_compute; congruence.
Defined.

Lemma damage_is_reported_witness :
  exists e, discover_offset (damaged [(replicate 9 5%Z, 0%Z)] (replicate 20 9%Z) [([1; 2; 3]%Z, 1%Z)] 3) = Err e.
Proof.
  apply damage_is_reported.
  - repeat constructor; vm_compute; congruence.
  - repeat constructor; vm_compute; congruence.
  - vm_compute. repeat constructor.
  - vm_compute. reflexivity.
  - left. discriminate.
Defined.

Lemma verifier_agrees_witness :
  exists s, scan_segment (toy_log ++ replicate 40 7%Z) true = Ok s /\ scan_end s = TornTail "header-lengths".
Proof.
  destruct (verifier_agrees (toy_log ++ replicate 40 7%Z)) as (s & Hs & _); [by_decide|].
  exists s. split; [exact Hs|]. vm_compute in Hs. injection Hs as <-. reflexivity.
Defined.
