(* ===== verification/Arena.v ===== *)
(** * The segmented journal

    [PersistentArena] of [src/core/storage.rs] and [StagedArena] of [src/core/storage/staging.rs]:
    frames appended to fixed-size segments that grow in steps and rotate.  A mapping is the list
    of its bytes; what the operating system may refuse (creating or syncing a file) is a
    [Faults] argument.  The abstract journal is the list of payloads. *)

From S2P Require Import Prelude Words FrameDict Frames.

(** The declared segment size, the allocation step and whether the format grows a segment in
    steps ([format_version >= 4] on Unix).  The engine's values are 1 GiB (64 MiB for format 3)
    and 64 MiB. *)
Record Geometry := mkGeometry { segment_size : nat; step_size : nat; incremental : bool; format_version : Z }.

Record Arena := mkArena {
  a_segments : list (list Z);
  a_map : list Z;
  a_active_id : nat;
  a_offset : nat;
  a_capacity : nat;
  a_version : Z;
  a_pending : bool }.

(** The step at which the operating system reports a failure, if any. *)
Inductive rotation_fault : Type := RotateSync | RotateCreate.
Record Faults := mkFaults { f_rotate : option rotation_fault; f_grow : bool; f_sync : bool }.
Definition no_faults : Faults := {| f_rotate := None; f_grow := false; f_sync := false |}.

Section Arena.
Context {codec : FrameCodec}.
Context (g : Geometry).

Definition set_pending (a : Arena) (b : bool) : Arena :=
  {| a_segments := a_segments a; a_map := a_map a; a_active_id := a_active_id a; a_offset := a_offset a;
     a_capacity := a_capacity a; a_version := a_version a; a_pending := b |}.
Definition set_version (a : Arena) (v : Z) : Arena :=
  {| a_segments := a_segments a; a_map := a_map a; a_active_id := a_active_id a; a_offset := a_offset a;
     a_capacity := a_capacity a; a_version := v; a_pending := a_pending a |}.
Definition set_map (a : Arena) (m : list Z) (offset : nat) : Arena :=
  {| a_segments := a_segments a; a_map := m; a_active_id := a_active_id a; a_offset := offset;
     a_capacity := a_capacity a; a_version := a_version a; a_pending := a_pending a |}.

(** ** Opening *)

(** [file.set_len]: truncation, or extension with zeros. *)
Definition set_len (file : list Z) (n : nat) : list Z := take n file ++ replicate (n - length file) 0%Z.

(** [PersistentArena::new] over the contents of the sealed segments and of the active file. *)
Definition arena_open (sealed : list (list Z)) (file : list Z) : outcome Arena :=
  ensure (length file <=? segment_size g) else "active segment exceeds its declared size" ;
  let capacity :=
    if incremental g then div_ceil (Nat.max (length file) (step_size g)) (step_size g) * step_size g
    else segment_size g in
  let map := set_len file capacity in
  let* (recovered, max_version) := discover_offset map in
  let map :=
    if (recovered + HEADER_SIZE <=? length map)
       && negb (bool_decide (take HEADER_SIZE (drop recovered map) = end_marker_bytes))
    then splice map recovered end_marker_bytes else map in
  Ok {| a_segments := sealed; a_map := map; a_active_id := length sealed; a_offset := recovered;
        a_capacity := capacity;
        a_version := if 0 <? recovered then (max_version + 1)%Z else 0%Z; a_pending := false |}.

(** ** Reading *)

(** [with_mapping]: the bytes from [global_offset] to the end of its segment's mapping. *)
Definition with_mapping (a : Arena) (global_offset : nat) : outcome (list Z) :=
  let seg_idx := global_offset / segment_size g in
  ensure (seg_idx <=? a_active_id a) else "read beyond final arena segment" ;
  let local_offset := global_offset mod segment_size g in
  let* mapping := if seg_idx <? length (a_segments a) then expect (a_segments a !! seg_idx) else Ok (a_map a) in
  let e := Nat.min (length mapping) (segment_size g) in
  ok_or (get_range mapping local_offset e) "read exceeds arena segment".

Definition read_slice (a : Arena) (global_offset len : nat) : outcome (list Z) :=
  let* rest := with_mapping a global_offset in
  ok_or (get_range rest 0 len) "Read out of bounds".

Definition read_frame (a : Arena) (global_offset : nat) : outcome (list Z * Z) :=
  let* rest := with_mapping a global_offset in
  let* (expected_crc, raw_len, comp_len, version) := ok_or (header_words rest) "Truncated header" in
  ensure negb (raw_len =? 0)%Z else "Empty frame" ;
  ensure negb (MAX_RAW_FRAME_SIZE <? raw_len)%Z else "Suspiciously large raw frame length" ;
  ensure negb ((comp_len =? 0) || (raw_len <? comp_len))%Z else "Suspiciously large compressed frame length" ;
  let* payload := ok_or (get_range rest HEADER_SIZE (HEADER_SIZE + Z.to_nat comp_len)) "Truncated payload" in
  let* data := if (comp_len <? raw_len)%Z
               then ok_or (lz4_decompress payload (Z.to_nat raw_len)) "LZ4 decompression failed"
               else Ok payload in
  ensure (Nat.eqb (length data) (Z.to_nat raw_len)) else "frame payload length differs from its header" ;
  ensure (crc32 data =? expected_crc)%Z else "CRC32 mismatch" ;
  Ok (data, version).

Definition next_offset (a : Arena) (global_offset : nat) : outcome nat :=
  let* header_bytes := read_slice a global_offset HEADER_SIZE in
  let* (_, _, comp_len, _) := ok_or (header_words header_bytes) "Truncated header" in
  ensure negb (comp_len =? 0)%Z else "Empty frame" ;
  let next := global_offset + HEADER_SIZE + Z.to_nat comp_len in
  let segment := global_offset / segment_size g in
  if segment <? a_active_id a then
    if segment_size g <? next mod segment_size g + HEADER_SIZE then Ok ((segment + 1) * segment_size g)
    else
      let* header := read_slice a next HEADER_SIZE in
      if is_log_end header then Ok ((segment + 1) * segment_size g) else Ok next
  else Ok next.

Definition used_bytes (a : Arena) : nat := a_active_id a * segment_size g + a_offset a.
Definition segment_count (a : Arena) : nat := a_active_id a + 1.
Definition capacity_bytes (a : Arena) : nat := (segment_count a - 1) * segment_size g + a_capacity a.

(** ** Writing *)

(** A step that may fail keeps the state it reached. *)
Definition step (A : Type) : Type := Arena * outcome A.

(** [grow_segment_locked]. *)
Definition grow_segment (f : Faults) (a : Arena) (required : nat) : step unit :=
  if incremental g && (required <=? segment_size g) && (length (a_map a) <? required) then
    if f_grow f then (a, Err "growing the segment failed")
    else
      let capacity := div_ceil required (step_size g) * step_size g in
      ({| a_segments := a_segments a; a_map := set_len (a_map a) capacity; a_active_id := a_active_id a;
          a_offset := a_offset a; a_capacity := capacity; a_version := a_version a; a_pending := a_pending a |}, Ok tt)
  else (a, Err "invalid arena growth request").

(** [rotate_segment_locked]: the next segment's file is created before the swap, so a failure
    after that leaves the arena on its segment with the rotation pending. *)
Definition rotate_segment (f : Faults) (a : Arena) : step unit :=
  match f_rotate f with
  | Some RotateSync => (a, Err "segment sync failed")
  | Some RotateCreate => (set_pending a true, Err "creating the next segment failed")
  | None =>
      let capacity := if incremental g then step_size g else segment_size g in
      ({| a_segments := a_segments a ++ [a_map a]; a_map := replicate capacity 0%Z;
          a_active_id := a_active_id a + 1; a_offset := 0; a_capacity := capacity;
          a_version := a_version a; a_pending := false |}, Ok tt)
  end.

Definition map_write (a : Arena) (offset : nat) (bytes : list Z) : outcome (list Z) :=
  if offset + length bytes <=? length (a_map a) then Ok (splice (a_map a) offset bytes) else Panic.

(** The copy of the frame and its end marker, and the commit. *)
Definition place_frame (f : Faults) (a : Arena) (frame : list Z) (durable : bool) : step nat :=
  let offset := a_offset a in
  let frame_end := offset + length frame in
  match map_write a offset frame with
  | Ok map =>
      let a := set_map a map frame_end in
      let sentinel_len := if frame_end + HEADER_SIZE <=? length (a_map a) then HEADER_SIZE else 0 in
      let a := if 0 <? sentinel_len then set_map a (splice (a_map a) frame_end end_marker_bytes) frame_end else a in
      if durable && f_sync f then
        let map := splice (a_map a) offset end_marker_bytes in
        let map := splice map (offset + HEADER_SIZE)
                     (replicate (frame_end + sentinel_len - (offset + HEADER_SIZE)) 0%Z) in
        (set_map a map offset, Err "segment sync failed")
      else (a, Ok (a_active_id a * segment_size g + offset))
  | Err e => (a, Err e)
  | Panic => (a, Panic)
  end.

(** [write_frame]. *)
Definition write_frame (f : Faults) (a : Arena) (data : list Z) (durable : bool) : step nat :=
  let raw_len := length data in
  if Nat.eqb raw_len 0 || (MAX_RAW_FRAME_SIZE <? Z.of_nat raw_len)%Z
  then (a, Err "arena payload must contain 1..=MAX_RAW_FRAME_SIZE bytes")
  else
    let version := wrap U32 (a_version a) in
    let a := set_version a (wrap USIZE (a_version a + 1)) in
    let compressed := lz4_compress data in
    let write_data := if length compressed <? raw_len then compressed else data in
    let comp_len := length write_data in
    let total_frame_len := HEADER_SIZE + comp_len in
    if ((U32 - 1 <? Z.of_nat raw_len) || (U32 - 1 <? Z.of_nat comp_len))%Z
    then (a, Err "Frame payload exceeds u32 header capacity")
    else
      match (if (segment_size g <? a_offset a + total_frame_len) || a_pending a
             then rotate_segment f a else (a, Ok tt)) with
      | (a, Ok _) =>
          match (if length (a_map a) <? a_offset a + total_frame_len
                 then grow_segment f a (a_offset a + total_frame_len) else (a, Ok tt)) with
          | (a, Ok _) =>
              let frame := header_bytes (crc32 data) (Z.of_nat raw_len) (Z.of_nat comp_len) version ++ write_data in
              place_frame f a frame durable
          | (a, Err e) => (a, Err e)
          | (a, Panic) => (a, Panic)
          end
      | (a, Err e) => (a, Err e)
      | (a, Panic) => (a, Panic)
      end.

(** ** Replay *)

(** The walk of [load_from_log]: every frame's payload is given to [apply] in log order (the
    decryption, the magic and the mutations are [apply]'s). *)
Fixpoint load_from_log {St} (fuel : nat) (a : Arena) (apply : list Z -> St -> outcome St) (offset : nat) (s : St) : outcome St :=
  if offset <? used_bytes a then
    match fuel with
    | O => Panic
    | S fuel =>
        let* (data, _) := read_frame a offset in
        let* s := apply data s in
        let* next := next_offset a offset in
        load_from_log fuel a apply next s
    end
  else Ok s.

(** ** Staged arenas and compaction *)

Definition MAX_PENDING_BYTES : Z := 1024 * 1024.
Definition MAX_PENDING_FRAMES : Z := 1024.

Record StagedArena := mkStaged { sa_arena : Arena; sa_bytes : Z; sa_frames : Z }.

(** [StagedArena::write_slice]; the write-back of dirty pages changes no byte. *)
Definition staged_write (f : Faults) (s : StagedArena) (data : list Z) : StagedArena * outcome nat :=
  match write_frame f (sa_arena s) data false with
  | (a, Ok offset) =>
      match checked_add USIZE (sa_bytes s) (Z.of_nat (length data)) with
      | Some b =>
          match checked_add USIZE b (Z.of_nat HEADER_SIZE) with
          | Some b =>
              let n := (sa_frames s + 1)%Z in
              if ((MAX_PENDING_BYTES <=? b) || (MAX_PENDING_FRAMES <=? n))%Z
              then ({| sa_arena := a; sa_bytes := 0; sa_frames := 0 |}, Ok offset)
              else ({| sa_arena := a; sa_bytes := b; sa_frames := n |}, Ok offset)
          | None => ({| sa_arena := a; sa_bytes := sa_bytes s; sa_frames := sa_frames s |}, Err "staged frame byte count overflow")
          end
      | None => ({| sa_arena := a; sa_bytes := sa_bytes s; sa_frames := sa_frames s |}, Err "staged frame byte count overflow")
      end
  | (a, Err e) => ({| sa_arena := a; sa_bytes := sa_bytes s; sa_frames := sa_frames s |}, Err e)
  | (a, Panic) => ({| sa_arena := a; sa_bytes := sa_bytes s; sa_frames := sa_frames s |}, Panic)
  end.

(** [PreparedCompaction::append_frame]. *)
Definition append_frame (f : Faults) (a : Arena) (data : list Z) : step unit :=
  match write_frame f a data false with
  | (a, Ok offset) =>
      (a, let* (written, _) := read_frame a offset in
          ensure (bool_decide (written = data)) else "compaction replay frame changed after writing" ; Ok tt)
  | (a, Err e) => (a, Err e)
  | (a, Panic) => (a, Panic)
  end.

(** [replay_compaction_tail]: the frames of [[cursor, end)] appended to the prepared arena. *)
Fixpoint replay_compaction_tail (fuel : nat) (f : Faults) (src : Arena) (prepared : Arena) (cursor e : nat)
    : step nat :=
  if e <? cursor then (prepared, Err "compaction journal checkpoint moved backwards")
  else if cursor <? e then
    match fuel with
    | O => (prepared, Panic)
    | S fuel =>
        let segment_end := (cursor / segment_size g + 1) * segment_size g in
        let header_end := cursor + HEADER_SIZE in
        if segment_end <? header_end then
          if segment_end <=? e then replay_compaction_tail fuel f src prepared segment_end e
          else (prepared, Err "truncated compaction replay header")
        else if negb (header_end <=? e) then (prepared, Err "truncated compaction replay header")
        else match read_slice src cursor HEADER_SIZE with
        | Ok header =>
            if is_log_end header then
              if segment_end <=? e then replay_compaction_tail fuel f src prepared segment_end e
              else (prepared, Err "empty compaction replay frame")
            else match header_words header with
            | None => (prepared, Err "truncated compaction replay header")
            | Some (_, raw, compressed, _) =>
                if negb ((1 <=? raw) && (raw <=? MAX_RAW_FRAME_SIZE) && (1 <=? compressed) && (compressed <=? raw))%Z
                then (prepared, Err "invalid compaction replay frame lengths")
                else
                  let next := header_end + Z.to_nat compressed in
                  if negb ((next <=? e) && (next <=? segment_end))
                  then (prepared, Err "compaction replay frame exceeds its captured boundary")
                  else match read_frame src cursor with
                  | Ok (data, _) =>
                      match append_frame f prepared data with
                      | (prepared, Ok _) => replay_compaction_tail fuel f src prepared next e
                      | (prepared, Err m) => (prepared, Err m)
                      | (prepared, Panic) => (prepared, Panic)
                      end
                  | Err m => (prepared, Err m)
                  | Panic => (prepared, Panic)
                  end
            end
        | Err m => (prepared, Err m)
        | Panic => (prepared, Panic)
        end
    end
  else (prepared, Ok cursor).
End Arena.

(** ** Segments that hold a log *)

Section SegmentLemmas.
Context {codec : FrameCodec} {laws : FrameCodecLaws}.

Definition zeros (n : nat) : list Z := replicate n 0%Z.

(** Bytes that no frame starts in, also after a part of them is zeroed or zeros follow. *)
Definition quiet (tail : list Z) : Prop :=
  forall j k p, frame_checks_out (zeros j ++ drop j tail ++ zeros k) p = false.

(** The bytes of a segment are its frames and a quiet rest; [seg_ok] adds the end of the log. *)
Record seg_pre (data : list Z) (fs : list frame) : Prop := {
  sp_prefix : take (length (log fs)) data = log fs;
  sp_frames : Forall frame_ok fs;
  sp_quiet : quiet (drop (length (log fs) + HEADER_SIZE) data) }.

Definition log_ends (data : list Z) (off : nat) : Prop :=
  length data < off + HEADER_SIZE \/ is_log_end (drop off data) = true.

Definition seg_ok (data : list Z) (fs : list frame) : Prop := seg_pre data fs /\ log_ends data (length (log fs)).

Lemma seg_split data fs : seg_pre data fs -> data = log fs ++ drop (length (log fs)) data.
Proof. intros H. rewrite <- (sp_prefix _ _ H) at 1. by rewrite take_drop. Qed.

Lemma seg_length data fs : seg_pre data fs -> length (log fs) <= length data.
Proof. intros H. rewrite (seg_split _ _ H), length_app. lia. Qed.

(** Whether a frame starts at [p] depends on the bytes from [p] only. *)
Lemma frame_checks_drop data n p :
  frame_checks_out data (n + p) = frame_checks_out (drop n data) p.
Proof.
  unfold frame_checks_out. rewrite length_drop, drop_drop.
  destruct (n + p <=? length data) eqn:E, (p <=? length data - n) eqn:E2; bool_to_prop; try done; try lia.
  - destruct (header_words (drop (n + p) data)) as [[[[crc raw] comp] v]|]; [|done].
    destruct (_ || _ || _ || _)%Z; [done|]. rewrite drop_drop, (Nat.add_assoc n p HEADER_SIZE).
    replace (p + (HEADER_SIZE + Z.to_nat comp) <=? length data - n)
      with (n + p + (HEADER_SIZE + Z.to_nat comp) <=? length data); [done|].
    destruct (n + p + _ <=? _) eqn:E3, (p + _ <=? _) eqn:E4; bool_to_prop; try done; lia.
  - assert (p = 0) as -> by lia. rewrite Nat.add_0_r, (drop_ge data) by lia. done.
Qed.

Lemma frame_checks_zeros n p : frame_checks_out (zeros n) p = false.
Proof.
  unfold frame_checks_out, zeros. destruct (p <=? _); [|done]. rewrite drop_replicate.
  destruct (header_words (replicate (n - p) 0%Z)) as [[[[crc raw] comp] v]|] eqn:E; [|done].
  unfold header_words in E. destruct (_ <=? _) eqn:El; [|done]. injection E as <- <- <- <-.
  assert (W : forall k, word (replicate (n - p) 0%Z) k = 0%Z).
  { intros k. unfold word. rewrite drop_replicate, take_replicate.
    destruct (Nat.min 4 (n - p - k)) as [|[|[|[|[|?]]]]] eqn:E4; try reflexivity. lia. }
  by rewrite !W.
Qed.

Lemma quiet_zeros n : quiet (zeros n).
Proof. intros j k p. unfold zeros. rewrite drop_replicate, <- !replicate_add. apply frame_checks_zeros. Qed.

Lemma quiet_drop n tail : quiet tail -> quiet (drop n tail).
Proof.
  intros H j k p. rewrite <- (H (n + j) k (n + p)), frame_checks_drop. f_equal.
  unfold zeros. rewrite replicate_add, <- app_assoc, drop_app_length' by (by rewrite length_replicate).
  by rewrite drop_drop.
Qed.

Lemma quiet_zeroed n tail : quiet tail -> quiet (zeros n ++ drop n tail).
Proof.
  intros H j k p. unfold zeros in *. destruct (decide (j <= n)).
  - rewrite drop_app_le by (rewrite length_replicate; lia). rewrite drop_replicate, app_assoc.
    rewrite app_assoc, <- replicate_add. replace (j + (n - j)) with n by lia. rewrite <- app_assoc. apply H.
  - rewrite drop_app_ge by (rewrite length_replicate; lia). rewrite length_replicate, drop_drop.
    replace (n + (j - n)) with j by lia. apply H.
Qed.

Lemma quiet_grow tail m : quiet tail -> quiet (tail ++ zeros m).
Proof.
  intros H j k p. unfold zeros in *. destruct (decide (j <= length tail)).
  - rewrite drop_app_le by done. rewrite <- app_assoc, <- replicate_add. apply H.
  - rewrite drop_app_ge by lia. rewrite drop_replicate, <- !replicate_add. apply frame_checks_zeros.
Qed.

Lemma seg_no_frame data fs p :
  seg_pre data fs -> length (log fs) + HEADER_SIZE <= p -> frame_checks_out data p = false.
Proof.
  intros H Hp. replace p with (length (log fs) + HEADER_SIZE + (p - (length (log fs) + HEADER_SIZE))) by lia.
  rewrite frame_checks_drop. pose proof (sp_quiet _ _ H 0 0 (p - (length (log fs) + HEADER_SIZE))) as Q.
  unfold zeros in Q. simpl in Q. by rewrite drop_0, app_nil_r in Q.
Qed.

Lemma seg_discover data fs : seg_ok data fs -> discover_offset data = Ok (length (log fs), max_version 0 fs).
Proof.
  intros [H He]. rewrite (seg_split _ _ H). apply discover_exact; [apply (sp_frames _ _ H)|].
  rewrite <- (seg_split _ _ H). split; [done|]. intros p Hp. by eapply seg_no_frame.
Qed.

Lemma is_log_end_marker rest : is_log_end (end_marker_bytes ++ rest) = true.
Proof. unfold is_log_end. rewrite end_marker_bytes_header, header_words_bytes; unfold is_u32, U32, END_MARK; done. Qed.

Lemma is_log_end_zeros n : HEADER_SIZE <= n -> is_log_end (zeros n) = true.
Proof.
  intros Hn. unfold zeros, HEADER_SIZE in *. replace n with (16 + (n - 16)) by lia. rewrite replicate_add.
  by rewrite <- is_log_end_take, take_app_length'.
Qed.

(** A fresh segment. *)
Lemma seg_fresh n : seg_ok (zeros n) [].
Proof.
  split; [split; [done|constructor|]|].
  - unfold zeros. rewrite drop_replicate. apply quiet_zeros.
  - unfold log_ends. change (length (log [])) with 0. rewrite drop_0. unfold zeros at 1. rewrite length_replicate.
    destruct (decide (n < HEADER_SIZE)); [left; lia|right]. apply is_log_end_zeros. lia.
Qed.

Lemma seg_grow data fs m : seg_pre data fs -> seg_pre (data ++ zeros m) fs.
Proof.
  intros H. pose proof (seg_length _ _ H) as Hl. split.
  - rewrite take_app_le by done. apply (sp_prefix _ _ H).
  - apply (sp_frames _ _ H).
  - destruct (decide (length (log fs) + HEADER_SIZE <= length data)).
    + rewrite drop_app_le by done. apply quiet_grow, (sp_quiet _ _ H).
    + rewrite drop_app_ge by lia. unfold zeros. rewrite drop_replicate. apply quiet_zeros.
Qed.

(** ** The effect of a commit on a segment *)

Definition with_marker (map : list Z) (at_ : nat) : list Z :=
  if at_ + HEADER_SIZE <=? length map then splice map at_ end_marker_bytes else map.

Lemma log_snoc fs f : log (fs ++ [f]) = log fs ++ frame_bytes f.1 f.2.
Proof. rewrite log_app. unfold log at 2. cbn [map concat]. by rewrite app_nil_r. Qed.

(** Frame and marker written at the end of the log. *)
Lemma seg_append data fs f :
  seg_pre data fs -> frame_ok f -> length (log fs) + length (frame_bytes f.1 f.2) <= length data ->
  seg_ok (with_marker (splice data (length (log fs)) (frame_bytes f.1 f.2)) (length (log fs) + length (frame_bytes f.1 f.2))) (fs ++ [f]).
Proof.
  intros H Hf Hlen. set (fb := frame_bytes f.1 f.2) in *. set (n := length (log fs) + length fb) in *.
  assert (Hlog : length (log (fs ++ [f])) = n).
  { rewrite log_snoc, length_app. done. }
  assert (Hsp : splice data (length (log fs)) fb = log (fs ++ [f]) ++ drop n data).
  { unfold splice. rewrite (sp_prefix _ _ H), log_snoc. by rewrite <- app_assoc. }
  assert (Hfs : Forall frame_ok (fs ++ [f])) by (apply Forall_app; split; [apply (sp_frames _ _ H)|by constructor]).
  pose proof (sp_quiet _ _ H) as Hq.
  assert (Hq' : quiet (drop (n + HEADER_SIZE) data)).
  { replace (n + HEADER_SIZE) with (length (log fs) + HEADER_SIZE + length fb) by (unfold n; lia).
    rewrite <- drop_drop. by apply quiet_drop. }
  unfold with_marker. rewrite splice_length by done. destruct (n + HEADER_SIZE <=? length data) eqn:E; bool_to_prop.
  - assert (Hm : splice (splice data (length (log fs)) fb) n end_marker_bytes =
                 log (fs ++ [f]) ++ end_marker_bytes ++ drop (n + HEADER_SIZE) data).
    { rewrite Hsp. unfold splice. rewrite <- Hlog, take_app_length.
      change (length end_marker_bytes) with HEADER_SIZE. rewrite drop_app_add, drop_drop. done. }
    rewrite Hm. split; [split|].
    + by rewrite take_app_length.
    + done.
    + rewrite drop_app_add, drop_app_length' by done. done.
    + right. rewrite drop_app_length. apply is_log_end_marker.
  - rewrite Hsp. split; [split|].
    + by rewrite take_app_length.
    + done.
    + rewrite drop_app_add, drop_drop. done.
    + left. rewrite length_app, length_drop, Hlog. lia.
Qed.

(** The frame taken back out: the marker at its start, zeros over the rest. *)
Lemma seg_rollback data fs n :
  seg_pre data fs -> HEADER_SIZE <= n -> length (log fs) + n <= length data ->
  seg_ok (log fs ++ end_marker_bytes ++ zeros (n - HEADER_SIZE) ++ drop (length (log fs) + n) data) fs.
Proof.
  intros H Hn Hlen. split; [split|].
  - by rewrite take_app_length.
  - apply (sp_frames _ _ H).
  - rewrite drop_app_add, drop_app_length' by done.
    replace (length (log fs) + n) with (length (log fs) + HEADER_SIZE + (n - HEADER_SIZE)) by lia.
    rewrite <- drop_drop. apply quiet_zeroed, (sp_quiet _ _ H).
  - right. rewrite drop_app_length. apply is_log_end_marker.
Qed.
End SegmentLemmas.

(** ** The arena invariant *)

Section ArenaLemmas.
Context {codec : FrameCodec} {laws : FrameCodecLaws}.
Context (g : Geometry).

Record geometry_ok : Prop := {
  go_step : HEADER_SIZE <= step_size g;
  go_segment : exists m, 1 <= m /\ segment_size g = m * step_size g }.

Context (Hg : geometry_ok).

Definition map_size_ok (n : nat) : Prop :=
  if incremental g then n <= segment_size g /\ exists k, 1 <= k /\ n = k * step_size g else n = segment_size g.

Record arena_ok (a : Arena) (sealed : list (list frame)) (cur : list frame) : Prop := {
  ao_sealed : Forall2 (fun data fs => seg_ok data fs /\ length data = segment_size g /\ fs <> []) (a_segments a) sealed;
  ao_active : seg_ok (a_map a) cur;
  ao_offset : a_offset a = length (log cur);
  ao_size : map_size_ok (length (a_map a));
  ao_id : a_active_id a = length (a_segments a);
  ao_capacity : a_capacity a = length (a_map a);
  ao_version : is_u64 (a_version a);
  ao_pending : a_pending a = true -> cur <> [] /\ length (a_map a) = segment_size g }.

(** The journal an arena holds: the frames of its segments in order. *)
Definition journal (a : Arena) (fs : list frame) : Prop :=
  exists sealed cur, arena_ok a sealed cur /\ fs = concat sealed ++ cur.

(** A payload whose frame fits an allocation step (every legal payload does in the engine's
    geometry, see [engine_geometry_fits]). *)
Definition fits (d : list Z) : Prop := HEADER_SIZE + length d <= step_size g.

Lemma map_size_le n : map_size_ok n -> step_size g <= n <= segment_size g.
Proof.
  unfold map_size_ok. destruct (go_segment Hg) as (m & Hm & ->). destruct (incremental g).
  - intros (Hn & k & Hk & ->). nia.
  - intros ->. nia.
Qed.

(** A segment too full for a frame has its whole size allocated. *)
Lemma map_size_full n off total :
  map_size_ok n -> off <= n -> total <= step_size g -> segment_size g < off + total -> n = segment_size g /\ 0 < off.
Proof.
  intros Hn Hoff Ht Hover. destruct (go_segment Hg) as (m & Hm & Hs). unfold map_size_ok in Hn.
  destruct (incremental g); [|subst n; split; [done|nia]].
  destruct Hn as (Hle & k & Hk & ->). rewrite Hs in *. split; [|nia].
  assert (k = m); [|by subst]. nia.
Qed.

Lemma arena_active_length a sealed cur : arena_ok a sealed cur -> length (log cur) <= length (a_map a).
Proof. intros H. apply seg_length, (ao_active _ _ _ H). Qed.

Lemma set_version_ok a sealed cur v : arena_ok a sealed cur -> is_u64 v -> arena_ok (set_version a v) sealed cur.
Proof. intros [] Hv. by split. Qed.

Lemma rotate_ok f a sealed cur total :
  arena_ok a sealed cur -> total <= step_size g ->
  (segment_size g <? a_offset a + total) || a_pending a = true ->
  let '(a', r) := rotate_segment g f a in
  match r with
  | Ok _ => arena_ok a' (sealed ++ [cur]) [] /\ a_pending a' = false /\ a_version a' = a_version a
  | Err _ => arena_ok a' sealed cur
  | Panic => False
  end.
Proof using Hg laws.
  intros H Ht Hc.
  assert (Hfull : cur <> [] /\ length (a_map a) = segment_size g).
  { apply orb_true_iff in Hc as [Hc|Hc]; [|by apply (ao_pending _ _ _ H)]. bool_to_prop.
    rewrite (ao_offset _ _ _ H) in Hc.
    destruct (map_size_full (length (a_map a)) (length (log cur)) total) as [Hn H0];
      [apply (ao_size _ _ _ H)|by eapply arena_active_length|done|done|].
    split; [|done]. intros ->. simpl in H0. lia. }
  unfold rotate_segment. destruct (f_rotate f) as [[]|]; [done| |].
  - destruct H. by split.
  - split; [|done]. destruct (go_segment Hg) as (m & Hm & Hs). destruct H. split; cbn; try done.
    + apply Forall2_app; [done|]. constructor; [|constructor]. destruct Hfull. done.
    + apply seg_fresh.
    + rewrite length_replicate. unfold map_size_ok. destruct (incremental g); [|done]. rewrite Hs. split; [nia|].
      exists 1. lia.
    + rewrite length_app. simpl. lia.
    + by rewrite length_replicate.
Qed.

Lemma set_len_grow file n : length file <= n -> set_len file n = file ++ zeros (n - length file).
Proof. intros H. unfold set_len, zeros. by rewrite take_ge. Qed.

(** What the copy of a frame needs: the log of the segment, and room for the frame. *)
Record place_ready (a : Arena) (sealed : list (list frame)) (cur : list frame) (total : nat) : Prop := {
  pr_sealed : Forall2 (fun data fs => seg_ok data fs /\ length data = segment_size g /\ fs <> []) (a_segments a) sealed;
  pr_active : seg_pre (a_map a) cur;
  pr_offset : a_offset a = length (log cur);
  pr_size : map_size_ok (length (a_map a));
  pr_id : a_active_id a = length (a_segments a);
  pr_capacity : a_capacity a = length (a_map a);
  pr_version : is_u64 (a_version a);
  pr_pending : a_pending a = false;
  pr_room : length (log cur) + total <= length (a_map a) }.

Lemma grow_ok f a sealed cur total :
  arena_ok a sealed cur -> a_pending a = false -> length (log cur) + total <= segment_size g ->
  let '(a', r) := (if length (a_map a) <? a_offset a + total then grow_segment g f a (a_offset a + total) else (a, Ok tt)) in
  match r with
  | Ok _ => place_ready a' sealed cur total
  | Err _ => a' = a
  | Panic => False
  end.
Proof using Hg laws.
  intros H Hp Ht. rewrite (ao_offset _ _ _ H). destruct (length (a_map a) <? length (log cur) + total) eqn:E; bool_to_prop.
  - unfold grow_segment. pose proof (ao_size _ _ _ H) as Hsz. unfold map_size_ok in Hsz.
    destruct (incremental g) eqn:Ei; [|lia]. rewrite (proj2 (Nat.leb_le _ _)), (proj2 (Nat.ltb_lt _ _)) by lia. cbn [andb].
    destruct (f_grow f); [done|]. set (capacity := div_ceil _ _ * _).
    destruct (go_segment Hg) as (m & Hm & Hs). pose proof (go_step Hg) as Hstep. unfold HEADER_SIZE in Hstep.
    assert (Hc1 : length (log cur) + total <= capacity) by (apply div_ceil_mul_ge; lia).
    assert (Hc2 : capacity <= segment_size g).
    { unfold capacity. rewrite Hs. apply Nat.mul_le_mono_r, div_ceil_le; [lia|]. by rewrite <- Hs. }
    assert (Hlen : length (set_len (a_map a) capacity) = capacity).
    { rewrite set_len_grow by lia. unfold zeros. rewrite length_app, length_replicate. lia. }
    destruct H as [H1 [H2 H2'] H3 H4 H5 H6 H7 H8]. split; cbn; try done; rewrite ?Hlen; try done.
    + rewrite set_len_grow by lia. by apply seg_grow.
    + unfold map_size_ok. rewrite Ei. split; [done|]. exists (div_ceil (length (log cur) + total) (step_size g)).
      split; [|done]. unfold capacity in Hc1. destruct (div_ceil _ _); lia.
  - destruct H as [H1 [H2 H2'] H3 H4 H5 H6 H7 H8]. by split.
Qed.

Lemma place_ready_ok a sealed cur total map offset fs :
  place_ready a sealed cur total -> length map = length (a_map a) -> seg_ok map fs -> offset = length (log fs) ->
  arena_ok (set_map a map offset) sealed fs.
Proof. intros [] Hl Hs Ho. split; cbn; try done; rewrite ?Hl; try done. congruence. Qed.

Lemma place_frame_ok f a sealed cur d v durable :
  place_ready a sealed cur (length (frame_bytes d v)) -> frame_ok (d, v) ->
  let '(a', r) := place_frame g f a (frame_bytes d v) durable in
  match r with
  | Ok at_ => arena_ok a' sealed (cur ++ [(d, v)]) /\ at_ = length sealed * segment_size g + length (log cur)
  | Err _ => arena_ok a' sealed cur
  | Panic => False
  end.
Proof using Hg laws.
  intros H Hf. set (fb := frame_bytes d v) in *. pose proof (pr_room _ _ _ _ H) as Hroom.
  pose proof (seg_append (a_map a) cur (d, v) (pr_active _ _ _ _ H) Hf Hroom) as Happ. cbn [fst snd] in Happ. fold fb in Happ.
  assert (Hfb : HEADER_SIZE < length fb).
  { unfold fb. rewrite frame_bytes_length. pose proof (stored_length d (proj1 Hf)). lia. }
  unfold place_frame, map_write. rewrite (pr_offset _ _ _ _ H), (proj2 (Nat.leb_le _ _)) by done.
  cbn [a_map set_map]. rewrite splice_length by done.
  set (fe := length (log cur) + length fb) in *. set (m1 := splice (a_map a) (length (log cur)) fb) in *.
  assert (Hm1 : length m1 = length (a_map a)) by (unfold m1; by rewrite splice_length).
  set (sl := if fe + HEADER_SIZE <=? length (a_map a) then HEADER_SIZE else 0).
  set (a2 := if 0 <? sl then _ else _).
  assert (Ha2 : a2 = set_map a (with_marker m1 fe) fe).
  { unfold a2, sl, with_marker. rewrite Hm1. by destruct (fe + HEADER_SIZE <=? length (a_map a)). }
  assert (Hm2 : length (with_marker m1 fe) = length (a_map a)).
  { unfold with_marker. rewrite Hm1. destruct (_ <=? _) eqn:E; [|done]. bool_to_prop. rewrite splice_length; [done|].
    change (length end_marker_bytes) with HEADER_SIZE. lia. }
  assert (Hsl : fe + sl <= length (a_map a)).
  { unfold sl. destruct (_ <=? _) eqn:E; bool_to_prop; lia. }
  assert (Hdrop : drop (fe + sl) (with_marker m1 fe) = drop (fe + sl) (a_map a)).
  { unfold with_marker, sl. rewrite Hm1. unfold m1. destruct (fe + HEADER_SIZE <=? length (a_map a)) eqn:E; bool_to_prop.
    - rewrite drop_splice; [|done|rewrite splice_length; lia]. apply drop_splice; unfold fe; lia.
    - apply drop_splice; unfold fe; lia. }
  assert (Htake : take (length (log cur)) (with_marker m1 fe) = log cur).
  { pose proof (sp_prefix _ _ (proj1 Happ)) as Hp. rewrite log_snoc in Hp. cbn [fst snd] in Hp. fold fb in Hp.
    apply (f_equal (take (length (log cur)))) in Hp. rewrite take_take, take_app_length in Hp.
    by rewrite length_app, Nat.min_l in Hp by lia. }
  destruct (durable && f_sync f).
  - rewrite Ha2. cbn [a_map set_map].
    assert (Hroll : splice (splice (with_marker m1 fe) (length (log cur)) end_marker_bytes) (length (log cur) + HEADER_SIZE)
               (replicate (fe + sl - (length (log cur) + HEADER_SIZE)) 0%Z)
             = log cur ++ end_marker_bytes ++ zeros (length fb + sl - HEADER_SIZE) ++ drop (length (log cur) + (length fb + sl)) (a_map a)).
    { change HEADER_SIZE with (length end_marker_bytes) at 1. rewrite splice_splice.
      2: { rewrite length_replicate, Hm2. change (length end_marker_bytes) with HEADER_SIZE. unfold fe in *. lia. }
      rewrite Htake, length_replicate. change (length end_marker_bytes) with HEADER_SIZE. unfold zeros.
      replace (fe + sl - (length (log cur) + HEADER_SIZE)) with (length fb + sl - HEADER_SIZE) by (unfold fe; lia).
      replace (length (log cur) + HEADER_SIZE + (length fb + sl - HEADER_SIZE)) with (fe + sl) by (unfold fe; lia).
      rewrite Hdrop. do 4 f_equal. unfold fe. lia. }
    rewrite Hroll. eapply (place_ready_ok a sealed cur _ _ _ cur H).
    + rewrite !length_app. unfold zeros. rewrite length_replicate, length_drop. change (length end_marker_bytes) with HEADER_SIZE.
      unfold fe in *. lia.
    + apply seg_rollback; [apply (pr_active _ _ _ _ H)|lia|unfold fe in *; lia].
    + done.
  - rewrite Ha2. split.
    + eapply (place_ready_ok a sealed cur _ _ _ _ H); [done|done|]. rewrite log_snoc, length_app. done.
    + cbn [a_active_id set_map]. rewrite (pr_id _ _ _ _ H). by rewrite (Forall2_length _ _ _ (pr_sealed _ _ _ _ H)).
Qed.

(** One append, whatever the operating system refuses. *)
Lemma write_frame_ok f a sealed cur d durable :
  arena_ok a sealed cur -> payload_ok d -> fits d ->
  let '(a', r) := write_frame g f a d durable in
  match r with
  | Ok at_ => exists sealed' cur' v, arena_ok a' sealed' (cur' ++ [(d, v)]) /\
      concat sealed' ++ cur' = concat sealed ++ cur /\ at_ = length sealed' * segment_size g + length (log cur')
  | Err _ => exists sealed' cur', arena_ok a' sealed' cur' /\ concat sealed' ++ cur' = concat sealed ++ cur
  | Panic => False
  end.
Proof using Hg laws.
  intros H Hd Hfit. unfold write_frame. fold (stored d). pose proof (stored_length d Hd) as Hs. unfold fits in Hfit.
  destruct (payload_u32 d Hd) as [Hu1 Hu2]. unfold payload_ok, is_u32 in *.
  replace (Nat.eqb (length d) 0 || _) with false.
  2: { symmetry. apply orb_false_iff. split; [apply Nat.eqb_neq; lia|apply Z.ltb_ge; lia]. }
  replace (_ || _)%Z with false.
  2: { symmetry. apply orb_false_iff. split; apply Z.ltb_ge; lia. }
  set (v := wrap U32 (a_version a)). set (a1 := set_version a _).
  assert (Hv : is_u32 v) by (apply Z.mod_pos_bound; done).
  assert (H1 : arena_ok a1 sealed cur) by (apply set_version_ok; [done|apply Z.mod_pos_bound; done]).
  assert (Hfin : forall a2 sealed2 cur2, arena_ok a2 sealed2 cur2 -> a_pending a2 = false ->
     length (log cur2) + (HEADER_SIZE + length (stored d)) <= segment_size g ->
     concat sealed2 ++ cur2 = concat sealed ++ cur ->
     let '(a', r) := match (if length (a_map a2) <? a_offset a2 + (HEADER_SIZE + length (stored d))
                            then grow_segment g f a2 (a_offset a2 + (HEADER_SIZE + length (stored d))) else (a2, Ok tt)) with
       | (a3, Ok _) => place_frame g f a3 (frame_bytes d v) durable
       | (a3, Err e) => (a3, Err e) | (a3, Panic) => (a3, Panic) end in
     match r with
     | Ok at_ => exists sealed' cur' v, arena_ok a' sealed' (cur' ++ [(d, v)]) /\
         concat sealed' ++ cur' = concat sealed ++ cur /\ at_ = length sealed' * segment_size g + length (log cur')
     | Err _ => exists sealed' cur', arena_ok a' sealed' cur' /\ concat sealed' ++ cur' = concat sealed ++ cur
     | Panic => False
     end).
  { intros a2 sealed2 cur2 H2 Hp2 Hroom Heq. pose proof (grow_ok f a2 sealed2 cur2 _ H2 Hp2 Hroom) as G.
    destruct (if length (a_map a2) <? _ then _ else _) as [a3 [u|e|]]; [|subst a3; eauto|done].
    rewrite <- frame_bytes_length with (v := v) in G.
    pose proof (place_frame_ok f a3 sealed2 cur2 d v durable G (conj Hd Hv)) as P.
    destruct (place_frame g f a3 _ durable) as [a4 [at_|e|]]; [destruct P as [P ->]; by eauto 8|by eauto|done]. }
  destruct ((segment_size g <? a_offset a1 + (HEADER_SIZE + length (stored d))) || a_pending a1) eqn:Erot.
  - pose proof (rotate_ok f a1 sealed cur (HEADER_SIZE + length (stored d)) H1 ltac:(lia) Erot) as R.
    destruct (rotate_segment g f a1) as [a2 [u|e|]]; [|eauto|done]. destruct R as (H2 & Hp2 & _).
    apply (Hfin a2 (sealed ++ [cur]) [] H2 Hp2).
    + change (length (log [])) with 0. destruct (go_segment Hg) as (m & Hm & ->). nia.
    + rewrite concat_app. simpl. by rewrite !app_nil_r.
  - apply orb_false_iff in Erot as [Er Ep]. bool_to_prop. rewrite (ao_offset _ _ _ H1) in Er.
    by apply (Hfin a1 sealed cur H1 Ep).
Qed.

(** ** Reading back *)

Definition segments_of (a : Arena) : list (list Z) := a_segments a ++ [a_map a].

(** Segment [s] holds the frames [fs] in the bytes [data]. *)
Lemma arena_segment a sealed cur s fs :
  arena_ok a sealed cur -> (sealed ++ [cur]) !! s = Some fs ->
  exists data, segments_of a !! s = Some data /\ seg_ok data fs /\ length data <= segment_size g /\
    step_size g <= length data /\ (s < length sealed -> length data = segment_size g /\ fs <> []) /\ s <= a_active_id a.
Proof using Hg.
  intros H Hs. pose proof (Forall2_length _ _ _ (ao_sealed _ _ _ H)) as Hlen. unfold segments_of.
  destruct (decide (s < length sealed)) as [Hlt|Hge].
  - rewrite lookup_app_l in Hs by done. destruct (Forall2_lookup_r _ _ _ _ _ (ao_sealed _ _ _ H) Hs) as (data & Hd & Hok & Hl & Hne).
    exists data. rewrite lookup_app_l by lia. destruct (go_segment Hg) as (m & Hm & Hsz). split_and!; auto; try nia.
    rewrite (ao_id _ _ _ H). lia.
  - pose proof (lookup_lt_Some _ _ _ Hs) as Hb. rewrite length_app in Hb. simpl in Hb. assert (s = length sealed) as -> by lia.
    rewrite lookup_app_r, Nat.sub_diag in Hs by lia. injection Hs as ->.
    exists (a_map a). rewrite lookup_app_r, Hlen, Nat.sub_diag by lia. pose proof (map_size_le _ (ao_size _ _ _ H)).
    split_and!; try done; try lia; [apply (ao_active _ _ _ H)|]. rewrite (ao_id _ _ _ H). lia.
Qed.

Lemma segment_pos : 0 < segment_size g.
Proof using Hg. destruct (go_segment Hg) as (m & Hm & ->). pose proof (go_step Hg). unfold HEADER_SIZE in *. nia. Qed.

Lemma address_mod s l : l < segment_size g -> (s * segment_size g + l) mod segment_size g = l.
Proof. intros Hl. rewrite Nat.add_comm, Nat.Div0.mod_add. by apply Nat.mod_small. Qed.

Lemma address_div s l : l < segment_size g -> (s * segment_size g + l) / segment_size g = s.
Proof. intros Hl. rewrite Nat.div_add_l, (Nat.div_small l) by lia. lia. Qed.

Lemma with_mapping_ok a sealed cur s data local :
  arena_ok a sealed cur -> segments_of a !! s = Some data -> length data <= segment_size g ->
  local <= length data -> local < segment_size g ->
  with_mapping g a (s * segment_size g + local) = Ok (drop local data).
Proof using Hg.
  intros H Hs Hlen Hl Hlt. pose proof segment_pos as Hpos. unfold with_mapping.
  rewrite address_div, address_mod by done.
  pose proof (lookup_lt_Some _ _ _ Hs) as Hb. unfold segments_of in *. rewrite length_app in Hb. simpl in Hb.
  rewrite (proj2 (Nat.leb_le _ _)) by (rewrite (ao_id _ _ _ H); lia).
  assert (Hm : (if s <? length (a_segments a) then expect (a_segments a !! s) else Ok (a_map a)) = Ok data).
  { destruct (s <? length (a_segments a)) eqn:E; bool_to_prop.
    - rewrite lookup_app_l in Hs by done. by rewrite Hs.
    - rewrite lookup_app_r in Hs by done. replace (s - length (a_segments a)) with 0 in Hs by lia. by injection Hs as ->. }
  rewrite Hm. cbn [obind]. rewrite Nat.min_l, get_range_Some by lia. cbn [ok_or]. f_equal. apply take_ge. rewrite length_drop. lia.
Qed.

(** Where frame [i] of [fs] starts, and what follows it. *)
Lemma seg_frame_at data fs i f :
  seg_pre data fs -> fs !! i = Some f ->
  drop (length (log (take i fs))) data =
    frame_bytes f.1 f.2 ++ log (drop (S i) fs) ++ drop (length (log fs)) data /\
  length (log (take (S i) fs)) = length (log (take i fs)) + length (frame_bytes f.1 f.2) /\
  length (log (take (S i) fs)) <= length (log fs).
Proof.
  intros H Hi. assert (Hsplit : log fs = log (take i fs) ++ frame_bytes f.1 f.2 ++ log (drop (S i) fs)).
  { rewrite <- (take_drop_middle fs i f Hi) at 1. rewrite log_app, log_cons. done. }
  rewrite (take_S_r fs i f Hi), log_snoc, length_app. split_and!; [|done|].
  - set (tail := drop (length (log fs)) data).
    assert (E : data = log fs ++ tail) by apply (seg_split _ _ H).
    rewrite E, Hsplit, <- app_assoc, drop_app_length. by rewrite <- app_assoc.
  - rewrite Hsplit, !length_app. lia.
Qed.

Lemma arena_frame_ok a sealed cur s fs i f :
  arena_ok a sealed cur -> (sealed ++ [cur]) !! s = Some fs -> fs !! i = Some f -> frame_ok f.
Proof using Hg.
  intros H Hs Hi. destruct (arena_segment a sealed cur s fs H Hs) as (data & _ & [Hp _] & _).
  pose proof (sp_frames _ _ Hp) as Hf. rewrite Forall_lookup in Hf. eauto.
Qed.

Lemma read_frame_at a sealed cur s fs i f :
  arena_ok a sealed cur -> (sealed ++ [cur]) !! s = Some fs -> fs !! i = Some f ->
  read_frame g a (s * segment_size g + length (log (take i fs))) = Ok f.
Proof using Hg laws.
  intros H Hs Hi. pose proof (arena_frame_ok a sealed cur s fs i f H Hs Hi) as [Hd Hv].
  destruct (arena_segment a sealed cur s fs H Hs) as (data & Hdata & [Hok He] & Hlen & _).
  destruct (seg_frame_at data fs i f Hok Hi) as (Hdrop & Hnext & Hle). pose proof (seg_length _ _ Hok).
  destruct f as [d v]; cbn [fst snd] in *. pose proof (stored_length d Hd) as Hst. pose proof (frame_bytes_length d v) as Hfb.
  unfold read_frame. rewrite (with_mapping_ok a sealed cur s data) by (auto; unfold HEADER_SIZE in *; lia). cbn [obind].
  rewrite Hdrop, frame_header by done. cbn [ok_or obind]. unfold payload_ok in Hd.
  rewrite (proj2 (Z.eqb_neq (Z.of_nat (length d)) 0)), (proj2 (Z.ltb_ge _ _)) by lia. cbn [negb].
  rewrite (proj2 (Z.eqb_neq (Z.of_nat (length (stored d))) 0)), (proj2 (Z.ltb_ge (Z.of_nat (length d)) _)) by lia. cbn [negb orb].
  rewrite !Nat2Z.id. unfold frame_bytes at 1. rewrite <- app_assoc.
  rewrite <- (header_bytes_length (crc32 d) (Z.of_nat (length d)) (Z.of_nat (length (stored d))) v) at 1 2.
  rewrite get_range_app_mid. cbn [ok_or obind]. pose proof (stored_decodes d) as D. destruct (_ <? _)%Z.
  - rewrite D. cbn [ok_or obind]. by rewrite Nat.eqb_refl, Z.eqb_refl.
  - injection D as D. rewrite D. cbn [obind]. by rewrite Nat.eqb_refl, Z.eqb_refl.
Qed.

Lemma read_slice_header a sealed cur s data local :
  arena_ok a sealed cur -> segments_of a !! s = Some data -> length data <= segment_size g ->
  local + HEADER_SIZE <= length data ->
  read_slice g a (s * segment_size g + local) HEADER_SIZE = Ok (take HEADER_SIZE (drop local data)).
Proof using Hg.
  intros H Hs Hlen Hl. unfold read_slice.
  rewrite (with_mapping_ok a sealed cur s data) by (auto; unfold HEADER_SIZE in *; lia). cbn [obind].
  rewrite get_range_Some by (rewrite ?length_drop; lia). cbn [ok_or]. by rewrite Nat.sub_0_r, drop_0.
Qed.

(** The address after frame [i] of segment [s]: the next frame, or the next segment, or the
    end of the journal. *)
Lemma next_offset_at a sealed cur s fs i f :
  arena_ok a sealed cur -> (sealed ++ [cur]) !! s = Some fs -> fs !! i = Some f ->
  next_offset g a (s * segment_size g + length (log (take i fs))) =
  Ok (if decide (S i < length fs) then s * segment_size g + length (log (take (S i) fs))
      else if decide (s < length sealed) then (s + 1) * segment_size g
      else s * segment_size g + length (log fs)).
Proof using Hg laws.
  intros H Hs Hi. pose proof (arena_frame_ok a sealed cur s fs i f H Hs Hi) as [Hd Hv].
  destruct (arena_segment a sealed cur s fs H Hs) as (data & Hdata & [Hok He] & Hlen & _ & Hsealed & _).
  destruct (seg_frame_at data fs i f Hok Hi) as (Hdrop & Hnext & Hle). pose proof (seg_length _ _ Hok) as Hsl.
  pose proof (stored_length f.1 Hd) as Hst. pose proof (frame_bytes_length f.1 f.2) as Hfb. pose proof segment_pos as Hpos.
  pose proof (Forall2_length _ _ _ (ao_sealed _ _ _ H)) as Hlens.
  assert (Hlocal : length (log (take i fs)) < segment_size g) by (unfold HEADER_SIZE in *; lia).
  unfold next_offset. rewrite (read_slice_header a sealed cur s data) by (auto; unfold HEADER_SIZE in *; lia).
  cbn [obind]. rewrite header_words_take, Hdrop, frame_header by done. cbn [ok_or obind].
  rewrite (proj2 (Z.eqb_neq _ _)) by lia. cbn [negb]. rewrite Nat2Z.id, <- Nat.add_assoc, <- Hfb.
  rewrite <- Nat.add_assoc, <- Hnext. rewrite address_div by done.
  rewrite (ao_id _ _ _ H), Hlens.
  destruct (s <? length sealed) eqn:Es; bool_to_prop.
  2: { destruct (decide (S i < length fs)); [done|]. rewrite decide_False by lia.
       by rewrite (take_ge fs (S i)) by lia. }
  destruct (Hsealed Es) as [Hfull Hne]. rewrite (decide_True (P := s < length sealed)) by done.
  destruct (decide (S i < length fs)) as [Hmore|Hlast].
  - destruct (lookup_lt_is_Some_2 fs (S i) Hmore) as [f2 Hi2].
    pose proof (arena_frame_ok a sealed cur s fs (S i) f2 H Hs Hi2) as [Hd2 Hv2].
    destruct (seg_frame_at data fs (S i) f2 Hok Hi2) as (Hdrop2 & Hnext2 & Hle2).
    pose proof (stored_length f2.1 Hd2). pose proof (frame_bytes_length f2.1 f2.2) as Hfb2.
    rewrite address_mod by (unfold HEADER_SIZE in *; lia). rewrite (proj2 (Nat.ltb_ge _ _)) by lia.
    rewrite (read_slice_header a sealed cur s data) by (auto; unfold HEADER_SIZE in *; lia). cbn [obind].
    rewrite is_log_end_take, Hdrop2. unfold is_log_end. rewrite frame_header by done.
    rewrite (proj2 (Z.eqb_neq (Z.of_nat (length f2.1)) 0)) by (unfold payload_ok in Hd2; lia). by rewrite andb_false_r.
  - rewrite (take_ge fs (S i)) by lia. destruct (decide (length (log fs) = segment_size g)) as [Eq|Hneq].
    + rewrite Eq. replace (s * segment_size g + segment_size g) with ((s + 1) * segment_size g) by lia.
      rewrite Nat.Div0.mod_mul. pose proof (go_step Hg). destruct (go_segment Hg) as (m & Hm & Hsz).
      rewrite (proj2 (Nat.ltb_ge _ _)) by nia.
      destruct (lookup_lt_is_Some_2 (sealed ++ [cur]) (s + 1)) as [fs2 Hs2]; [rewrite length_app; simpl; lia|].
      destruct (arena_segment a sealed cur (s + 1) fs2 H Hs2) as (data2 & Hdata2 & _ & Hlen2 & Hstep2 & _).
      pose proof (read_slice_header a sealed cur (s + 1) data2 0 H Hdata2 Hlen2 ltac:(lia)) as R. rewrite Nat.add_0_r in R.
      rewrite R. cbn [obind]. by destruct (is_log_end _).
    + rewrite address_mod by lia.
      destruct (segment_size g <? length (log fs) + HEADER_SIZE) eqn:E; [done|]. bool_to_prop.
      rewrite (read_slice_header a sealed cur s data) by (auto; lia). cbn [obind].
      rewrite is_log_end_take. destruct He as [He|He]; [lia|]. by rewrite He.
Qed.

(** ** Replay *)

Fixpoint apply_all {St} (apply : list Z -> St -> outcome St) (ds : list (list Z)) (st : St) : outcome St :=
  match ds with
  | [] => Ok st
  | d :: ds => let* st := apply d st in apply_all apply ds st
  end.

Lemma used_bytes_ok a sealed cur :
  arena_ok a sealed cur -> used_bytes g a = length sealed * segment_size g + length (log cur).
Proof.
  intros H. unfold used_bytes. by rewrite (ao_id _ _ _ H), (Forall2_length _ _ _ (ao_sealed _ _ _ H)), (ao_offset _ _ _ H).
Qed.

(** The walk from frame [i] of segment [s] applies the frames that remain. *)
Lemma walk_from {St} (apply : list Z -> St -> outcome St) a sealed cur :
  arena_ok a sealed cur ->
  forall fuel s i fs st,
    (sealed ++ [cur]) !! s = Some fs -> i < length fs \/ (s = length sealed /\ i = length fs) ->
    length (drop i fs ++ concat (drop (s + 1) (sealed ++ [cur]))) <= fuel ->
    load_from_log g fuel a apply (s * segment_size g + length (log (take i fs))) st =
    apply_all apply (map fst (drop i fs ++ concat (drop (s + 1) (sealed ++ [cur])))) st.
Proof using Hg laws.
  intros H. induction fuel as [|fuel IH]; intros s i fs st Hs Hi Hf.
  { assert (Hnil : drop i fs ++ concat (drop (s + 1) (sealed ++ [cur])) = []) by (apply nil_length_inv; lia).
    rewrite Hnil. cbn [map apply_all]. apply app_nil in Hnil as [Hd _].
    destruct Hi as [Hi|[-> ->]]; [apply (f_equal length) in Hd; rewrite length_drop in Hd; simpl in Hd; lia|].
    rewrite lookup_app_r, Nat.sub_diag in Hs by lia. injection Hs as <-.
    cbn [load_from_log]. rewrite (used_bytes_ok a sealed cur H), take_ge by done.
    by rewrite (proj2 (Nat.ltb_ge _ _)) by lia. }
  destruct Hi as [Hi|[-> ->]].
  2: { rewrite lookup_app_r, Nat.sub_diag in Hs by lia. injection Hs as <-.
       cbn [load_from_log]. rewrite (used_bytes_ok a sealed cur H), take_ge by done.
       rewrite (proj2 (Nat.ltb_ge _ _)) by lia. rewrite drop_ge by done.
       rewrite (drop_ge (sealed ++ [cur])) by (rewrite length_app; simpl; lia). done. }
  destruct (lookup_lt_is_Some_2 fs i Hi) as [f Hfi].
  destruct (arena_segment a sealed cur s fs H Hs) as (data & _ & [Hok _] & Hlen & _ & Hsealed & _).
  destruct (seg_frame_at data fs i f Hok Hfi) as (_ & Hnext & Hle). pose proof (seg_length _ _ Hok).
  pose proof (frame_bytes_length f.1 f.2) as Hfb. unfold HEADER_SIZE in Hfb.
  pose proof (lookup_lt_Some _ _ _ Hs) as Hsb. rewrite length_app in Hsb. simpl in Hsb.
  assert (Hlt : s * segment_size g + length (log (take i fs)) < used_bytes g a).
  { rewrite (used_bytes_ok a sealed cur H). destruct (decide (s = length sealed)) as [->|]; [|nia].
    rewrite lookup_app_r, Nat.sub_diag in Hs by lia. injection Hs as <-. lia. }
  cbn [load_from_log]. rewrite (proj2 (Nat.ltb_lt _ _)) by done.
  rewrite (read_frame_at a sealed cur s fs i f H Hs Hfi). destruct f as [d v]. cbn [obind].
  rewrite (drop_S fs _ i Hfi). cbn [app map fst apply_all]. destruct (apply d st) as [st'| |]; cbn [obind]; [|done|done].
  rewrite (next_offset_at a sealed cur s fs i (d, v) H Hs Hfi). cbn [obind].
  rewrite (drop_S fs _ i Hfi) in Hf. cbn [app length] in Hf.
  destruct (decide (S i < length fs)) as [Hmore|Hlast].
  { apply IH; [done|by left|lia]. }
  rewrite (drop_ge fs (S i)) in * by lia. cbn [app] in *.
  destruct (decide (s < length sealed)) as [Hss|Hss].
  - destruct (lookup_lt_is_Some_2 (sealed ++ [cur]) (s + 1)) as [fs2 Hs2]; [rewrite length_app; simpl; lia|].
    rewrite (drop_S _ _ _ Hs2). cbn [concat]. rewrite (drop_S _ _ _ Hs2) in Hf. cbn [concat] in Hf.
    pose proof (IH (s + 1) 0 fs2 st' Hs2) as IH2. change (log (take 0 fs2)) with (@nil Z) in IH2. simpl length in IH2.
    rewrite Nat.add_0_r, drop_0 in IH2. replace (s + 1 + 1) with (S (s + 1)) in IH2 by lia. apply IH2; [|lia].
    destruct (arena_segment a sealed cur (s + 1) fs2 H Hs2) as (? & _ & _ & _ & _ & Hne & _).
    destruct (decide (s + 1 < length sealed)) as [Hl2|]; [left; destruct (Hne Hl2) as [_ Hn]; destruct fs2; [done|simpl; lia]|].
    destruct fs2; [right; simpl; lia|left; simpl; lia].
  - assert (s = length sealed) as -> by lia. pose proof Hs as Hs'.
    pose proof (IH (length sealed) (length fs) fs st' Hs) as IH2. rewrite (take_ge fs) in IH2 by lia.
    rewrite (drop_ge fs) in IH2 by lia. cbn [app] in IH2. apply IH2; [by right|lia].
Qed.

Lemma load_from_log_ok {St} (apply : list Z -> St -> outcome St) a fs fuel st :
  journal a fs -> length fs <= fuel -> load_from_log g fuel a apply 0 st = apply_all apply (map fst fs) st.
Proof using Hg laws.
  intros (sealed & cur & H & ->) Hf.
  destruct (lookup_lt_is_Some_2 (sealed ++ [cur]) 0) as [fs0 H0]; [rewrite length_app; simpl; lia|].
  assert (Hall : concat sealed ++ cur = drop 0 fs0 ++ concat (drop (0 + 1) (sealed ++ [cur]))).
  { rewrite drop_0. destruct sealed as [|x l]; simpl in *; injection H0 as ->; [by rewrite app_nil_r|].
    rewrite drop_0, concat_app. simpl. by rewrite app_nil_r, app_assoc. }
  rewrite Hall in *. rewrite <- (walk_from apply a sealed cur H fuel 0 0 fs0 st H0); [done| |done].
  destruct sealed as [|x l]; simpl in H0; injection H0 as ->; [destruct fs0; [right; done|left; simpl; lia]|].
  pose proof (ao_sealed _ _ _ H) as Hse. inversion Hse as [|? ? ? ? (_ & _ & Hne)]; subst. left. destruct fs0; [done|simpl; lia].
Qed.

(** ** Reopening *)

Lemma with_marker_ok data fs : seg_ok data fs -> seg_ok (with_marker data (length (log fs))) fs.
Proof.
  intros [H He]. unfold with_marker. destruct (_ <=? _) eqn:E; [|done]. bool_to_prop.
  assert (Hs : splice data (length (log fs)) end_marker_bytes = log fs ++ end_marker_bytes ++ drop (length (log fs) + HEADER_SIZE) data).
  { unfold splice. by rewrite (sp_prefix _ _ H). }
  rewrite Hs. split; [split|].
  - by rewrite take_app_length.
  - apply (sp_frames _ _ H).
  - rewrite drop_app_add, drop_app_length' by done. apply (sp_quiet _ _ H).
  - right. rewrite drop_app_length. apply is_log_end_marker.
Qed.

Lemma max_version_u32 fs : Forall frame_ok fs -> (0 <= max_version 0 fs < U32)%Z.
Proof.
  intros H. assert (G : forall v, (0 <= v < U32)%Z -> (0 <= max_version v fs < U32)%Z); [|apply G; done].
  induction H as [|f fs [_ Hf] H IH]; intros v Hv; [done|]. unfold max_version. cbn [map foldl]. apply IH.
  unfold is_u32 in Hf. lia.
Qed.

Lemma open_capacity n :
  map_size_ok n ->
  (if incremental g then div_ceil (Nat.max n (step_size g)) (step_size g) * step_size g else segment_size g) = n.
Proof using Hg.
  intros Hn. pose proof (map_size_le n Hn) as Hle. unfold map_size_ok in Hn. destruct (incremental g); [|done].
  destruct Hn as (_ & k & Hk & ->). rewrite Nat.max_l by lia. pose proof (go_step Hg) as Hst. unfold HEADER_SIZE in Hst. f_equal.
  unfold div_ceil. replace (k * step_size g + step_size g - 1) with (k * step_size g + (step_size g - 1)) by lia.
  rewrite Nat.div_add_l, (Nat.div_small (_ - 1)) by lia. lia.
Qed.

Definition open_size (n : nat) : nat :=
  if incremental g then div_ceil (Nat.max n (step_size g)) (step_size g) * step_size g else segment_size g.

(** Opening files whose active one, at its capacity, holds the log of [cur]. *)
Lemma arena_open_ok segs sealed file cur :
  Forall2 (fun data fs => seg_ok data fs /\ length data = segment_size g /\ fs <> []) segs sealed ->
  length file <= segment_size g -> map_size_ok (open_size (length file)) ->
  seg_ok (set_len file (open_size (length file))) cur -> length file <= open_size (length file) ->
  exists a', arena_open g segs file = Ok a' /\ arena_ok a' sealed cur /\ a_pending a' = false.
Proof using laws.
  intros Hse Hlen Hsz Hok Hle. unfold arena_open. rewrite (proj2 (Nat.leb_le _ _)) by done.
  change (if incremental g then _ else _) with (open_size (length file)).
  set (map := set_len file _) in *. assert (Hml : length map = open_size (length file)).
  { unfold map. rewrite set_len_grow by done. unfold zeros. rewrite length_app, length_replicate. lia. }
  rewrite (seg_discover _ cur Hok). cbn [obind]. set (m := if _ && _ then _ else _).
  assert (Hm : seg_ok m cur /\ length m = length map).
  { unfold m. pose proof (with_marker_ok _ _ Hok) as Hwm. unfold with_marker in Hwm.
    destruct (length (log cur) + HEADER_SIZE <=? length map) eqn:E; cbn [andb]; [|done].
    bool_to_prop. destruct (negb _); [|done]. split; [done|].
    apply splice_length. change (length end_marker_bytes) with HEADER_SIZE. lia. }
  destruct Hm as [Hm Hmm]. eexists. split; [reflexivity|]. split; [|done].
  pose proof (max_version_u32 cur (sp_frames _ _ (proj1 Hok))) as Hv.
  assert (Hver : is_u64 (if 0 <? length (log cur) then (max_version 0 cur + 1)%Z else 0%Z))
    by (destruct (0 <? _); unfold is_u64, U64, U32 in *; lia).
  split; cbn [a_segments a_map a_active_id a_offset a_capacity a_version a_pending]; rewrite ?Hmm, ?Hml; done.
Qed.

(** A new file, or the empty file a failed rotation left. *)
Lemma arena_open_empty segs sealed n :
  Forall2 (fun data fs => seg_ok data fs /\ length data = segment_size g /\ fs <> []) segs sealed ->
  n <= segment_size g ->
  exists a', arena_open g segs (zeros n) = Ok a' /\ arena_ok a' sealed [] /\ a_pending a' = false.
Proof using Hg laws.
  intros Hse Hn. pose proof (go_step Hg) as Hst. unfold HEADER_SIZE in Hst. destruct (go_segment Hg) as (m & Hm & Hs).
  assert (Hlen : length (zeros n) = n) by apply length_replicate.
  assert (Hge : n <= open_size n).
  { unfold open_size. destruct (incremental g); [|done].
    pose proof (div_ceil_mul_ge (Nat.max n (step_size g)) (step_size g)). lia. }
  apply (arena_open_ok segs sealed); rewrite ?Hlen; try done.
  - unfold open_size, map_size_ok. destruct (incremental g); [|done]. split.
    + rewrite Hs. apply Nat.mul_le_mono_r, div_ceil_le; [lia|]. rewrite <- Hs. nia.
    + exists (div_ceil (Nat.max n (step_size g)) (step_size g)). split; [|done].
      pose proof (div_ceil_mul_ge (Nat.max n (step_size g)) (step_size g)) as Hc. destruct (div_ceil _ _); lia.
  - rewrite set_len_grow, Hlen by (by rewrite Hlen). unfold zeros. rewrite <- replicate_add. apply seg_fresh.
Qed.

Lemma arena_reopen a fs :
  journal a fs ->
  exists a', arena_open g (a_segments a) (a_map a) = Ok a' /\ journal a' fs /\ a_pending a' = false.
Proof using Hg laws.
  intros (sealed & cur & H & ->). pose proof (map_size_le _ (ao_size _ _ _ H)) as Hle.
  pose proof (open_capacity _ (ao_size _ _ _ H)) as Hcap. fold (open_size (length (a_map a))) in Hcap.
  assert (Hsl : set_len (a_map a) (length (a_map a)) = a_map a).
  { unfold set_len. by rewrite take_ge, Nat.sub_diag, app_nil_r by lia. }
  destruct (arena_open_ok (a_segments a) sealed (a_map a) cur) as (a' & Ha' & Hok & Hp);
    rewrite ?Hcap, ?Hsl; try lia; [apply (ao_sealed _ _ _ H)|apply (ao_size _ _ _ H)|apply (ao_active _ _ _ H)|].
  exists a'. split_and!; [done|by exists sealed, cur|done].
Qed.

(** A failed rotation left the next segment's file: the open seals the current segment. *)
Lemma arena_reopen_rotated a fs n :
  journal a fs -> a_pending a = true -> n <= segment_size g ->
  exists a', arena_open g (a_segments a ++ [a_map a]) (zeros n) = Ok a' /\ journal a' fs.
Proof using Hg laws.
  intros (sealed & cur & H & ->) Hp Hn. destruct (ao_pending _ _ _ H Hp) as [Hne Hfull].
  destruct (arena_open_empty (a_segments a ++ [a_map a]) (sealed ++ [cur]) n) as (a' & Ha' & Hok & _); [|done|].
  - apply Forall2_app; [apply (ao_sealed _ _ _ H)|]. constructor; [|constructor]. split; [apply (ao_active _ _ _ H)|done].
  - exists a'. split; [done|]. exists (sealed ++ [cur]), []. split; [done|]. rewrite concat_app. simpl. by rewrite !app_nil_r.
Qed.
End ArenaLemmas.

(** ** The engine's geometry *)

Definition SEGMENT_SIZE : Z := 64 * 1024 * 1024.
Definition LEGACY_SEGMENT_SIZE : Z := 1024 * 1024 * 1024.

Definition engine_geometry (version : Z) (unix : bool) : Geometry := {|
  segment_size := Z.to_nat (if (version =? 3)%Z then SEGMENT_SIZE else LEGACY_SEGMENT_SIZE);
  step_size := Z.to_nat SEGMENT_SIZE; incremental := (4 <=? version)%Z && unix; format_version := version |}.

Lemma engine_geometry_ok version unix : geometry_ok (engine_geometry version unix).
Proof.
  split; unfold engine_geometry, step_size, segment_size, SEGMENT_SIZE, LEGACY_SEGMENT_SIZE, HEADER_SIZE; [lia|].
  destruct (version =? 3)%Z; [exists 1; lia|exists 16; lia].
Qed.

(** Every payload [write_frame] accepts fits an allocation step of the engine. *)
Lemma engine_geometry_fits version unix d : payload_ok d -> fits (engine_geometry version unix) d.
Proof.
  unfold payload_ok, fits, engine_geometry, step_size, SEGMENT_SIZE, MAX_RAW_FRAME_SIZE, HEADER_SIZE. lia.
Qed.

(** ** Histories *)

Inductive event : Type :=
| Write (f : Faults) (d : list Z) (durable : bool)
(** [left_file]: the length of the file of the next segment, when a failed rotation left one. *)
| Reopen (left_file : option nat).

Section Histories.
Context {codec : FrameCodec} (g : Geometry).

(** The arena after a history, and the payloads whose write was acknowledged. *)
Fixpoint run (evs : list event) (a : Arena) (acked : list (list Z)) : outcome (Arena * list (list Z)) :=
  match evs with
  | [] => Ok (a, acked)
  | Write f d durable :: evs =>
      match write_frame g f a d durable with
      | (a, Ok _) => run evs a (acked ++ [d])
      | (a, Err _) => run evs a acked
      | (a, Panic) => Panic
      end
  | Reopen left_file :: evs =>
      let* a := match left_file with
                | Some n => if a_pending a && (n <=? segment_size g)
                            then arena_open g (a_segments a ++ [a_map a]) (replicate n 0%Z)
                            else arena_open g (a_segments a) (a_map a)
                | None => arena_open g (a_segments a) (a_map a)
                end in
      run evs a acked
  end.

Definition event_fits (e : event) : Prop := match e with Write _ d _ => fits g d | Reopen _ => True end.

Definition fresh : outcome Arena := arena_open g [] [].
End Histories.

Section HistoryLemmas.
Context {codec : FrameCodec} {laws : FrameCodecLaws} (g : Geometry) (Hg : geometry_ok g).

Lemma write_frame_journal f a fs d durable :
  journal g a fs -> fits g d ->
  let '(a', r) := write_frame g f a d durable in
  match r with
  | Ok at_ => exists v, journal g a' (fs ++ [(d, v)]) /\ read_frame g a' at_ = Ok (d, v)
  | Err _ => journal g a' fs
  | Panic => False
  end.
Proof using Hg laws.
  intros (sealed & cur & H & ->) Hfit. destruct (decide (payload_ok d)) as [Hd|Hd].
  - pose proof (write_frame_ok g Hg f a sealed cur d durable H Hd Hfit) as W.
    destruct (write_frame g f a d durable) as [a' [at_|e|]]; [| |done].
    + destruct W as (sealed' & cur' & v & Hok & Heq & ->). exists v. split.
      * exists sealed', (cur' ++ [(d, v)]). split; [done|]. by rewrite <- Heq, app_assoc.
      * pose proof (read_frame_at g Hg a' sealed' (cur' ++ [(d, v)]) (length sealed') (cur' ++ [(d, v)]) (length cur') (d, v) Hok) as R.
        rewrite (take_app_length' cur') in R by done. apply R.
        -- by rewrite lookup_app_r, Nat.sub_diag by lia.
        -- by rewrite lookup_app_r, Nat.sub_diag by lia.
    + destruct W as (sealed' & cur' & Hok & Heq). exists sealed', cur'. done.
  - unfold write_frame. replace (Nat.eqb (length d) 0 || _) with true.
    + exists sealed, cur. done.
    + symmetry. apply orb_true_iff. unfold payload_ok in Hd.
      destruct (decide (length d = 0)) as [->|]; [by left|right]. apply Z.ltb_lt. lia.
Qed.

Lemma fresh_ok : exists a, fresh g = Ok a /\ journal g a [].
Proof using Hg laws.
  destruct (arena_open_empty g Hg [] [] 0) as (a & Ha & Hok & _); [constructor|lia|].
  exists a. split; [exact Ha|]. by exists [], [].
Qed.

Lemma run_journal evs a fs acked :
  journal g a fs -> map fst fs = acked -> Forall (event_fits g) evs ->
  exists a' acked' fs', run g evs a acked = Ok (a', acked') /\ journal g a' fs' /\ map fst fs' = acked'.
Proof using Hg laws.
  intros Hj Hm Hf. revert a fs acked Hj Hm. induction Hf as [|e evs He Hf IH]; intros a fs acked Hj Hm; cbn [run].
  { by exists a, acked, fs. }
  destruct e as [f d durable|].
  - pose proof (write_frame_journal f a fs d durable Hj He) as W.
    destruct (write_frame g f a d durable) as [a' [at_|e|]]; [| |done].
    + destruct W as (v & Hj' & _). eapply IH; [exact Hj'|]. rewrite map_app, <- Hm. done.
    + by eapply IH.
  - destruct (arena_reopen g Hg a fs Hj) as (a1 & Hr1 & Hj1 & _). destruct left_file as [n|].
    2: { rewrite Hr1. cbn [obind]. by eapply IH. }
    destruct (a_pending a && _) eqn:E; [|rewrite Hr1; cbn [obind]; by eapply IH].
    apply andb_true_iff in E as [Ep En]. bool_to_prop.
    destruct (arena_reopen_rotated g Hg a fs n Hj Ep En) as (a2 & Hr2 & Hj2). unfold zeros in Hr2.
    rewrite Hr2. cbn [obind]. by eapply IH.
Qed.

Lemma apply_all_collect ds (acc : list (list Z)) : apply_all (fun d l => Ok (l ++ [d])) ds acc = Ok (acc ++ ds).
Proof.
  revert acc. induction ds as [|d ds IH]; intros acc; cbn [apply_all obind]; [by rewrite app_nil_r|].
  rewrite IH. by rewrite <- app_assoc.
Qed.

Lemma journal_count a fs : journal g a fs -> length fs <= used_bytes g a.
Proof using Hg.
  intros (sealed & cur & H & ->). rewrite (used_bytes_ok g a sealed cur H), length_app.
  assert (Hc : forall l, length l <= length (log l)) by (intros l; pose proof (log_length_ge l); unfold HEADER_SIZE in *; lia).
  assert (Hs : length (concat sealed) <= length sealed * segment_size g).
  { pose proof (ao_sealed _ _ _ _ H) as Hse. clear H. induction Hse as [|data fs segs sealed ([Hp _] & Hl & _) Hse IH]; simpl; [lia|].
    rewrite length_app. pose proof (Hc fs). pose proof (seg_length _ _ Hp). lia. }
  specialize (Hc cur). lia.
Qed.
End HistoryLemmas.

(** ** Claims *)

(** C1: the journal is exact under failures.  From a new store, after any sequence of appends
    (with failing syncs, failing growth or failing rotations at any point) and reopenings (also
    of a directory where a failed rotation left the next segment's file), the store never panics and never fails to reopen, and replay applies exactly the acknowledged
    payloads, in the order they were acknowledged: a failed append leaves nothing behind and no
    acknowledged one is lost, across segment growth and rotation. *)
Theorem replay_is_acknowledged {codec : FrameCodec} {laws : FrameCodecLaws} g evs :
  geometry_ok g -> Forall (event_fits g) evs ->
  exists a0 a acked, fresh g = Ok a0 /\ run g evs a0 [] = Ok (a, acked) /\
    forall (St : Type) (apply : list Z -> St -> outcome St) st,
      load_from_log g (used_bytes g a) a apply 0 st = apply_all apply acked st.
Proof.
  intros Hg Hf. destruct (fresh_ok g Hg) as (a0 & H0 & Hj0).
  destruct (run_journal g Hg evs a0 [] [] Hj0 eq_refl Hf) as (a & acked & fs & Hrun & Hj & Hm).
  exists a0, a, acked. split_and!; [done|done|]. intros St apply st.
  rewrite (load_from_log_ok g Hg apply a fs _ st Hj (journal_count g Hg a fs Hj)). by rewrite Hm.
Qed.

(** One append: an acknowledged frame is at the returned address and extends the journal
    by exactly its payload; a refused one (empty or oversized payload, or any failure of the
    operating system, the failed commit being taken back out) leaves the journal as it was. *)
Theorem append_refines {codec : FrameCodec} {laws : FrameCodecLaws} g f a fs d durable :
  geometry_ok g -> journal g a fs -> fits g d ->
  let '(a', r) := write_frame g f a d durable in
  match r with
  | Ok at_ => exists v, journal g a' (fs ++ [(d, v)]) /\ read_frame g a' at_ = Ok (d, v)
  | Err _ => journal g a' fs
  | Panic => False
  end.
Proof. intros Hg. by apply write_frame_journal. Qed.

(** A small geometry: segments of four steps of 64 bytes. *)
Definition toy_geometry : Geometry := {| segment_size := 256; step_size := 64; incremental := true; format_version := 4 |}.

Lemma toy_geometry_ok : geometry_ok toy_geometry.
Proof. split; [vm_compute; repeat constructor|]. exists 4. split; [lia|reflexivity]. Qed.

#[local] Existing Instance toy_codec.
#[local] Existing Instance toy_codec_laws.

(** Nine appends of 40 bytes, one with a failing sync and one with a failing rotation, and a
    reopening in between. *)
Definition toy_payload (n : Z) : list Z := n :: (n + 1)%Z :: replicate 38 n.
Definition sync_fails : Faults := {| f_rotate := None; f_grow := false; f_sync := true |}.
Definition rotation_fails : Faults := {| f_rotate := Some RotateCreate; f_grow := false; f_sync := false |}.
Definition toy_history : list event :=
  [Write no_faults (toy_payload 1) true; Write sync_fails (toy_payload 2) true; Write no_faults (toy_payload 3) true;
   Write no_faults (toy_payload 4) true; Write no_faults (toy_payload 5) false;
   Write rotation_fails (toy_payload 6) true; Reopen (Some 0); Write no_faults (toy_payload 7) true;
   Write no_faults (toy_payload 8) true; Write no_faults [] true].

Lemma replay_is_acknowledged_witness :
  exists a0 a acked, fresh toy_geometry = Ok a0 /\ run toy_geometry toy_history a0 [] = Ok (a, acked) /\
    acked = [toy_payload 1; toy_payload 3; toy_payload 4; toy_payload 5; toy_payload 7; toy_payload 8] /\
    load_from_log toy_geometry (used_bytes toy_geometry a) a (fun d l => Ok (l ++ [d])) 0 [] = Ok acked.
Proof.
  destruct (replay_is_acknowledged toy_geometry toy_history toy_geometry_ok) as (a0 & a & acked & H0 & Hr & Hl).
  - repeat constructor; vm_compute; repeat constructor.
  - exists a0, a, acked. split; [exact H0|]. split; [exact Hr|]. split.
    + vm_compute in H0. injection H0 as <-. vm_compute in Hr. injection Hr as <- <-. reflexivity.
    + rewrite Hl. exact (apply_all_collect acked []).
Defined.

Lemma append_refines_witness :
  exists a0, fresh toy_geometry = Ok a0 /\
    let '(a', r) := write_frame toy_geometry no_faults a0 (toy_payload 1) true in
    match r with
    | Ok at_ => exists v, journal toy_geometry a' [(toy_payload 1, v)] /\ read_frame toy_geometry a' at_ = Ok (toy_payload 1, v)
    | _ => False
    end.
Proof.
  destruct (fresh_ok toy_geometry toy_geometry_ok) as (a0 & H0 & Hj). exists a0. split; [exact H0|].
  pose proof (append_refines toy_geometry no_faults a0 [] (toy_payload 1) true toy_geometry_ok Hj ltac:(vm_compute; repeat constructor)) as W.
  destruct (write_frame toy_geometry no_faults a0 (toy_payload 1) true) as [a' [at_|e|]] eqn:E; [exact W| |exact W].
  exfalso. vm_compute in H0. injection H0 as <-. vm_compute in E. discriminate E.
Defined.
