(* ===== verification/Postings.v ===== *)
(** * Posting lists: blocks and their bounds

    The block layer of [PostingList] of [src/core/documents/postings.rs]: postings of a term as
    bit-packed blocks of at most 128, each with the bounds that let a search skip it (its largest
    frequency, its least document length and a frontier of undominated points), and the lazily
    built summary of a long list.

    A list of [groups] (the postings of each block with their ordinals) is the abstract view:
    [pl_repr] says that the bytes and block headers are the encoding of the groups, and
    [block_covers] that a block's bounds hold for its postings. *)

From S2P Require Import Prelude Words BitPack Positions Terms.

(** [(slot, frequency)]. *)
Abbreviation Posting := (Z * Z)%type.
(** [(frequency, words)]. *)
Abbreviation point := (Z * Z)%type.

Definition U32_MAX : Z := U32 - 1.
Definition MIN_BLOCK_LEN : nat := BLOCK_LEN / 4.
Definition SUPER_LEN : nat := 32.
Definition SUMMARY_MIN_BLOCKS : nat := 2 * SUPER_LEN.

Record Block := mkBlock {
  b_offset : nat; b_first : Z; b_last : Z; b_count : nat; b_doc_bits : nat; b_frequency_bits : nat;
  b_ordinal_bits : nat; b_max_frequency : Z; b_min_words : Z; b_frontier : option (list point) }.

(** The [OnceLock]s of [Summary]: [None] until the first query. *)
Record Summary := mkSummary { s_maxima : option (Z * Z); s_runs : option (list (list point)) }.

Definition summary_default : Summary := {| s_maxima := None; s_runs := None |}.

Record PostingList := mkPostingList {
  pl_data : list Z; pl_blocks : list Block; pl_count : Z; pl_positive_count : Z; pl_last : Z;
  pl_summary : option Summary }.

Definition pl_default : PostingList :=
  {| pl_data := []; pl_blocks := []; pl_count := 0; pl_positive_count := 0; pl_last := 0; pl_summary := None |}.

(** ** Frontiers *)

(** By frequency descending, then length ascending. *)
Definition point_le (a b : point) : Prop := (b.1 < a.1 \/ (b.1 = a.1 /\ a.2 <= b.2))%Z.
#[global] Instance point_le_dec : RelDecision point_le.
Proof. intros a b. unfold point_le. apply _. Defined.

Fixpoint pareto_loop (kept : list point) (points : list point) : list point :=
  match points with
  | [] => kept
  | p :: rest =>
      if match last kept with None => true | Some q => (p.2 <? q.2)%Z end
      then pareto_loop (kept ++ [p]) rest else pareto_loop kept rest
  end.

Definition pareto (points : list point) : list point := pareto_loop [] (merge_sort point_le points).

(** The first loop of [frontier]: the least length of every frequency up to [BLOCK_LEN], and
    the points of larger frequency. *)
Fixpoint least_loop (points : list point) (used : nat) (least : list Z) (spill : list point)
    : outcome (list Z * list point) :=
  match points with
  | [] => Ok (least, spill)
  | (frequency, words) :: rest =>
      if used <? BLOCK_LEN then
        if (frequency <? Z.of_nat (length least))%Z
        then least_loop rest (used + 1) (alter (fun e => Z.min e words) (Z.to_nat frequency) least) spill
        else least_loop rest (used + 1) least (spill ++ [(frequency, words)])
      else Panic
  end.

(** The last loop of [frontier]. *)
Fixpoint keep_loop (kept : list point) (shortest : Z) (points : list point) : list point :=
  match points with
  | [] => kept
  | p :: rest =>
      if Nat.eqb (length kept) 0 || (p.2 <? shortest)%Z
      then keep_loop (kept ++ [p]) p.2 rest else keep_loop kept shortest rest
  end.

(** The points of the table, from frequency [BLOCK_LEN] down to one. *)
Definition table_points (least : list Z) : list point :=
  omap (fun f => match least !! f with
                 | Some w => if (w =? U32_MAX)%Z then None else Some (Z.of_nat f, w)
                 | None => None
                 end) (rev (seq 1 BLOCK_LEN)).

Definition frontier (points : list point) : outcome (option (list point)) :=
  let* (least, spill) := least_loop (filter (fun p => 0 < p.1)%Z points) 0 (replicate (BLOCK_LEN + 1) U32_MAX) [] in
  let kept := keep_loop [] U32_MAX (merge_sort point_le spill ++ table_points least) in
  Ok (if 1 <? length kept then Some kept else None).

(** ** Blocks *)

(** [touch]: drops the summary after a change of the blocks. *)
Definition touch (l : PostingList) : PostingList :=
  {| pl_data := pl_data l; pl_blocks := pl_blocks l; pl_count := pl_count l;
     pl_positive_count := pl_positive_count l; pl_last := pl_last l;
     pl_summary :=
       if length (pl_blocks l) <? SUMMARY_MIN_BLOCKS then None
       else match pl_summary l with
            | Some s =>
                match s_maxima s, s_runs s with
                | None, None => Some s
                | _, _ => Some summary_default
                end
            | None => Some summary_default
            end |}.

Definition set_blocks (l : PostingList) (data : list Z) (blocks : list Block) : PostingList :=
  {| pl_data := data; pl_blocks := blocks; pl_count := pl_count l;
     pl_positive_count := pl_positive_count l; pl_last := pl_last l; pl_summary := pl_summary l |}.

Definition set_counts (l : PostingList) (count positive last : Z) : PostingList :=
  {| pl_data := pl_data l; pl_blocks := pl_blocks l; pl_count := count;
     pl_positive_count := positive; pl_last := last; pl_summary := pl_summary l |}.

(** The differences from one slot to the next, from [previous] on. *)
Fixpoint deltas (previous : Z) (ps : list Posting) : outcome (list Z) :=
  match ps with
  | [] => Ok []
  | p :: rest =>
      let* d := expect (checked_sub p.1 previous) in
      let* ds := deltas p.1 rest in
      Ok (d :: ds)
  end.

(** The first difference is zero, so the largest one is that of the [windows(2)] loop. *)
Definition append_block (l : PostingList) (ps : list Posting) (ordinals : list Z) (min_words : Z)
    (front : option (list point)) : outcome PostingList :=
  let* first := expect (head ps) in
  let* final := expect (last ps) in
  let* gaps := deltas first.1 ps in
  let doc_bits := bit_length (list_max gaps) in
  let max_frequency := list_max (map snd ps) in
  let frequency_bits := bit_length max_frequency in
  let ordinal_bits := bit_length (list_max ordinals) in
  let* packed_ordinals :=
    if 0 <? ordinal_bits then
      if Nat.eqb (length ordinals) (length ps) then Ok (pack ordinals ordinal_bits) else Panic
    else Ok [] in
  Ok (touch (set_blocks l
        (pl_data l ++ pack gaps doc_bits ++ pack (map snd ps) frequency_bits ++ packed_ordinals)
        (pl_blocks l ++
          [{| b_offset := length (pl_data l); b_first := first.1; b_last := final.1;
              b_count := Z.to_nat (wrap U16 (Z.of_nat (length ps))); b_doc_bits := doc_bits;
              b_frequency_bits := frequency_bits; b_ordinal_bits := ordinal_bits;
              b_max_frequency := max_frequency; b_min_words := min_words; b_frontier := front |}]))).

(** The running slots of a block and the last one. *)
Fixpoint running (slot : Z) (gaps : list Z) : list Z * Z :=
  match gaps with
  | [] => ([], slot)
  | gap :: rest =>
      let slot := wrap U64 (slot + gap) in
      let '(slots, final) := running slot rest in (slot :: slots, final)
  end.

Definition gap_bytes (b : Block) : nat := div_ceil (b_count b * b_doc_bits b) 8.

Definition decode_values (l : PostingList) (b : Block) : outcome (list Posting) :=
  let* bytes := slice (pl_data l) (b_offset b) (length (pl_data l)) in
  let* gaps := unpack_values bytes (b_count b) (b_doc_bits b) in
  let '(slots, final) := running (b_first b) gaps in
  if (final =? b_last b)%Z then
    let* rest := slice bytes (gap_bytes b) (length bytes) in
    let* frequencies := unpack_values rest (b_count b) (b_frequency_bits b) in
    Ok (zip slots (map (wrap U32) frequencies))
  else Panic.

(** The slots of a block alone, as [mark_slots] decodes them. *)
Definition block_slots (l : PostingList) (b : Block) : outcome (list Z) :=
  let* bytes := slice (pl_data l) (b_offset b) (length (pl_data l)) in
  let* gaps := unpack_values bytes (b_count b) (b_doc_bits b) in
  let '(slots, final) := running (b_first b) gaps in
  if (final =? b_last b)%Z then Ok slots else Panic.

Definition ordinal_bytes (l : PostingList) (b : Block) : outcome (list Z) :=
  let start := b_offset b + gap_bytes b + div_ceil (b_count b * b_frequency_bits b) 8 in
  slice (pl_data l) start (start + div_ceil (b_count b * b_ordinal_bits b) 8).

Definition decode_ordinals (l : PostingList) (b : Block) : outcome (list Z) :=
  let* bytes := ordinal_bytes l b in
  let* values := unpack_values bytes (b_count b) (b_ordinal_bits b) in
  Ok (map (wrap U32) values).

Definition first_frequency (l : PostingList) (b : Block) : outcome Z :=
  let* bytes := slice (pl_data l) (b_offset b + gap_bytes b) (length (pl_data l)) in
  let* f := unpack bytes 0 (b_frequency_bits b) in
  Ok (wrap U32 f).

(** [for_each] and [block_of]'s decoding of block [index]. *)
Definition decode_block (l : PostingList) (index : nat) : outcome (list Posting) :=
  let* b := expect (pl_blocks l !! index) in decode_values l b.

Definition pl_for_each (l : PostingList) : outcome (list Posting) :=
  let* blocks := omap_list (decode_values l) (pl_blocks l) in Ok (concat blocks).

(** ** Bounds and their summary *)

Definition maxima_of (blocks : list Block) : Z * Z :=
  foldl (fun fw b => (Z.max fw.1 (b_max_frequency b), Z.min fw.2 (b_min_words b))) (0, U32_MAX)%Z blocks.

Definition set_summary (l : PostingList) (s : Summary) : PostingList :=
  {| pl_data := pl_data l; pl_blocks := pl_blocks l; pl_count := pl_count l;
     pl_positive_count := pl_positive_count l; pl_last := pl_last l; pl_summary := Some s |}.

(** [maxima]: the value and the list with its cell filled. *)
Definition maxima (l : PostingList) : PostingList * (Z * Z) :=
  match pl_summary l with
  | Some s =>
      match s_maxima s with
      | Some v => (l, v)
      | None => let v := maxima_of (pl_blocks l) in
          (set_summary l {| s_maxima := Some v; s_runs := s_runs s |}, v)
      end
  | None => (l, maxima_of (pl_blocks l))
  end.

Definition block_points (b : Block) : list point :=
  match b_frontier b with Some f => f | None => [(b_max_frequency b, b_min_words b)] end.

(** [chunks(SUPER_LEN)]; [n] bounds the number of runs. *)
Fixpoint runs_of (n : nat) (blocks : list Block) : list (list Block) :=
  match n, blocks with
  | S n, _ :: _ => take SUPER_LEN blocks :: runs_of n (drop SUPER_LEN blocks)
  | _, _ => []
  end.

Definition summary_runs (blocks : list Block) : list (list point) :=
  map (fun run => pareto (concat (map block_points run))) (runs_of (length blocks) blocks).

Definition summary (l : PostingList) : PostingList * option (list (list point)) :=
  match pl_summary l with
  | None => (l, None)
  | Some s =>
      match s_runs s with
      | Some v => (l, Some v)
      | None => let v := summary_runs (pl_blocks l) in
          (set_summary l {| s_maxima := s_maxima s; s_runs := Some v |}, Some v)
      end
  end.

(** ** Columns

    A column of a block: values packed at the width of the largest. *)

Definition width (vs : list Z) : nat := bit_length (list_max vs).
Definition column (vs : list Z) : list Z := pack vs (width vs).

(** Values of at most 64 bits. *)
Definition col_ok (vs : list Z) : Prop := Forall is_u64 vs.

Lemma list_max_bound b vs : (0 <= b)%Z -> Forall (fun v => v <= b)%Z vs -> (0 <= list_max vs <= b)%Z.
Proof. intros Hb. unfold list_max. induction 1 as [|v vs Hv Hvs IH]; simpl; lia. Qed.

Lemma col_max vs : col_ok vs -> (0 <= list_max vs < U64)%Z.
Proof.
  intros H. destruct (list_max_bound (U64 - 1) vs); [done| |lia].
  eapply Forall_impl; [exact H|]. unfold is_u64. intros v Hv. simpl in *. lia.
Qed.

Lemma width_le vs : col_ok vs -> width vs <= 64.
Proof. intros H. apply bit_length_le. change (pw 64) with U64. by apply col_max. Qed.

Lemma width_fits vs : col_ok vs -> Forall (fits (width vs)) vs.
Proof.
  intros H. pose proof (bit_length_fits _ (proj1 (col_max vs H))) as Hm.
  apply Forall_forall. intros v Hv. pose proof (list_max_ge vs v Hv).
  unfold col_ok in H. rewrite Forall_forall in H. specialize (H v Hv). unfold is_u64, fits, width in *. lia.
Qed.

Lemma column_length vs : col_ok vs -> length (column vs) = div_ceil (length vs * width vs) 8.
Proof. intros. apply pack_length; auto using width_le, width_fits. Qed.

Lemma column_bytes vs : col_ok vs -> bytes_ok (column vs).
Proof. intros. apply pack_bytes_ok; auto using width_le, width_fits. Qed.

Lemma column_values vs rest :
  col_ok vs -> bytes_ok rest -> unpack_values (column vs ++ rest) (length vs) (width vs) = Ok vs.
Proof. intros. apply unpack_values_pack; auto using width_le, width_fits. Qed.

Lemma column_at vs rest i v :
  col_ok vs -> bytes_ok rest -> vs !! i = Some v -> unpack (column vs ++ rest) i (width vs) = Ok v.
Proof. intros. apply unpack_pack; auto using width_le, width_fits. Qed.

Lemma column_zeros n : column (replicate n 0%Z) = [].
Proof.
  assert (Hc : col_ok (replicate n 0%Z)) by (apply Forall_replicate; done).
  assert (Hw : width (replicate n 0%Z) = 0).
  { unfold width. replace (list_max _) with 0%Z; [done|]. clear. induction n; simpl; [done|]. unfold list_max in *. simpl. lia. }
  apply nil_length_inv. rewrite column_length, Hw by done. by rewrite Nat.mul_0_r.
Qed.

Lemma col_u32 vs : Forall is_u32 vs -> col_ok vs.
Proof. intros H. eapply Forall_impl; [exact H|]. unfold is_u32, is_u64, U32, U64. intros. lia. Qed.

Lemma wrap_u32_id vs : Forall is_u32 vs -> map (wrap U32) vs = vs.
Proof. induction 1 as [|v vs Hv Hvs IH]; simpl; [done|]. rewrite IH. f_equal. by apply wrap_small. Qed.

(** ** Groups: the postings of a block with their ordinals *)

Abbreviation group := (list Posting * list Z)%type.

Record group_ok (g : group) : Prop := {
  go_nonempty : g.1 <> [];
  go_length : length g.1 <= BLOCK_LEN;
  go_ordinals : length g.2 = length g.1;
  go_sorted : StronglySorted Z.lt (map fst g.1);
  go_slots : Forall is_u64 (map fst g.1);
  go_frequencies : Forall is_u32 (map snd g.1);
  go_ordinal_u32 : Forall is_u32 g.2 }.

Fixpoint gap_list (previous : Z) (slots : list Z) : list Z :=
  match slots with
  | [] => []
  | s :: rest => (s - previous)%Z :: gap_list s rest
  end.

Definition gaps_of (ps : list Posting) : list Z :=
  match ps with [] => [] | p :: _ => gap_list p.1 (map fst ps) end.

Lemma gap_list_length previous slots : length (gap_list previous slots) = length slots.
Proof. revert previous. induction slots; intros; simpl; auto. Qed.

Lemma deltas_spec previous ps :
  (0 <= previous)%Z -> Forall (fun s => previous <= s)%Z (map fst ps) ->
  StronglySorted Z.lt (map fst ps) -> Forall is_u64 (map fst ps) ->
  deltas previous ps = Ok (gap_list previous (map fst ps)) /\
  col_ok (gap_list previous (map fst ps)) /\
  running previous (gap_list previous (map fst ps)) = (map fst ps, default previous (last (map fst ps))).
Proof.
  revert previous. induction ps as [|[s f] ps IH]; intros previous Hp Hle Hs Hu; simpl; [repeat constructor|].
  simpl in *. inversion Hle as [|?? Hle1 Hle2]; subst. inversion Hs as [|?? Hs1 Hs2]; subst. inversion Hu as [|?? Hu1 Hu2]; subst.
  unfold is_u64 in Hu1. destruct (IH s) as (Hd & Hc & Hr); [lia| |done|done|].
  { eapply Forall_impl; [exact Hs2|]. simpl. lia. }
  unfold checked_sub. rewrite (proj2 (Z.leb_le _ _)) by done. simpl. rewrite Hd. simpl. split_and!; [done| |].
  - constructor; [unfold is_u64; lia|done].
  - replace (previous + (s - previous))%Z with s by lia. rewrite wrap_small by lia. rewrite Hr.
    f_equal. destruct (map fst ps) as [|x r]; [done|]. cbn [last]. destruct (last (x :: r)) eqn:E; [done|].
    by apply last_None in E.
Qed.

Definition enc_group (g : group) : list Z := column (gaps_of g.1) ++ column (map snd g.1) ++ column g.2.

Definition header (offset : nat) (g : group) (min_words : Z) (front : option (list point)) : Block :=
  {| b_offset := offset; b_first := default 0%Z (head (map fst g.1)); b_last := default 0%Z (last (map fst g.1));
     b_count := length g.1; b_doc_bits := width (gaps_of g.1); b_frequency_bits := width (map snd g.1);
     b_ordinal_bits := width g.2; b_max_frequency := list_max (map snd g.1);
     b_min_words := min_words; b_frontier := front |}.

Definition header_of (offset : nat) (g : group) (b : Block) : Prop :=
  b = header offset g (b_min_words b) (b_frontier b).

Lemma gaps_spec g :
  group_ok g ->
  exists p, head g.1 = Some p /\ deltas p.1 g.1 = Ok (gaps_of g.1) /\ col_ok (gaps_of g.1) /\
    length (gaps_of g.1) = length g.1 /\
    running p.1 (gaps_of g.1) = (map fst g.1, default 0%Z (last (map fst g.1))).
Proof.
  intros H. destruct g as [[|p ps] os]; [by destruct (go_nonempty _ H)|]. exists p. split; [done|].
  pose proof (go_sorted _ H) as Hs. pose proof (go_slots _ H) as Hu. simpl in Hs, Hu.
  inversion Hs as [|?? Hs1 Hs2]; subst. inversion Hu as [|?? Hu1 Hu2]; subst. unfold is_u64 in Hu1.
  destruct (deltas_spec p.1 (p :: ps)) as (Hd & Hc & Hr); [lia| |done|done|].
  { simpl. constructor; [lia|]. eapply Forall_impl; [exact Hs2|]. simpl. lia. }
  unfold gaps_of. cbn [fst]. rewrite gap_list_length, length_map. split_and!; try done.
  rewrite Hr. f_equal. cbn [map]. destruct (last (p.1 :: map fst ps)) eqn:E; [done|]. by apply last_None in E.
Qed.

Lemma enc_group_bytes g : group_ok g -> bytes_ok (enc_group g).
Proof.
  intros H. destruct (gaps_spec g H) as (p & _ & _ & Hc & _). unfold enc_group.
  repeat apply Forall_app_2; apply column_bytes; auto using col_u32, go_frequencies, go_ordinal_u32.
Qed.

(** ** Decoding a block *)

Section Decode.
Context (l : PostingList) (pre post : list Z) (g : group) (b : Block).
Context (Hg : group_ok g) (Hb : header_of (length pre) g b)
  (Hdata : pl_data l = pre ++ enc_group g ++ post) (Hpost : bytes_ok post).

Lemma hdr_offset : b_offset b = length pre.
Proof. by rewrite Hb. Qed.
Lemma hdr_count : b_count b = length g.1.
Proof. by rewrite Hb. Qed.
Lemma hdr_doc_bits : b_doc_bits b = width (gaps_of g.1).
Proof. by rewrite Hb. Qed.
Lemma hdr_frequency_bits : b_frequency_bits b = width (map snd g.1).
Proof. by rewrite Hb. Qed.
Lemma hdr_ordinal_bits : b_ordinal_bits b = width g.2.
Proof. by rewrite Hb. Qed.
Lemma hdr_first p : head g.1 = Some p -> b_first b = p.1.
Proof. intros Hp. rewrite Hb. simpl. by destruct g.1; simplify_eq/=. Qed.
Lemma hdr_last : b_last b = default 0%Z (last (map fst g.1)).
Proof. by rewrite Hb. Qed.

Lemma block_gap_bytes : gap_bytes b = length (column (gaps_of g.1)).
Proof.
  destruct (gaps_spec g Hg) as (p & _ & _ & Hc & Hlen & _).
  unfold gap_bytes. by rewrite hdr_count, hdr_doc_bits, column_length, Hlen.
Qed.

Lemma block_frequency_bytes : div_ceil (b_count b * b_frequency_bits b) 8 = length (column (map snd g.1)).
Proof.
  rewrite hdr_count, hdr_frequency_bits, column_length by (apply col_u32, Hg). by rewrite length_map.
Qed.

Lemma block_tail : slice (pl_data l) (b_offset b) (length (pl_data l)) = Ok (enc_group g ++ post).
Proof.
  rewrite Hdata, hdr_offset, slice_Ok by (rewrite ?length_app; lia).
  rewrite take_ge by (rewrite length_drop; lia). by rewrite drop_app_length.
Qed.

Lemma ordinals_bytes : bytes_ok (column g.2 ++ post).
Proof. apply Forall_app_2; [apply column_bytes, col_u32, Hg|done]. Qed.

Lemma frequencies_bytes : bytes_ok (column (map snd g.1) ++ column g.2 ++ post).
Proof. apply Forall_app_2; [apply column_bytes, col_u32, Hg|apply ordinals_bytes]. Qed.

Lemma decode_values_spec : decode_values l b = Ok g.1.
Proof.
  destruct (gaps_spec g Hg) as (p & Hp & Hd & Hc & Hlen & Hr).
  unfold decode_values. rewrite block_tail. cbn [obind]. unfold enc_group. rewrite <- !app_assoc.
  rewrite hdr_doc_bits, hdr_count, <- Hlen, column_values; [|done|apply frequencies_bytes].
  cbn [obind]. rewrite (hdr_first p Hp), Hr, hdr_last, Z.eqb_refl, block_gap_bytes.
  rewrite slice_Ok by (rewrite ?length_app; lia). cbn [obind]. rewrite take_ge by (rewrite length_drop; lia).
  rewrite drop_app_length, hdr_frequency_bits, Hlen.
  replace (length g.1) with (length (map snd g.1)) by apply length_map. rewrite column_values.
  - cbn [obind]. rewrite wrap_u32_id by apply Hg. f_equal. apply zip_fst_snd.
  - apply col_u32, Hg.
  - apply ordinals_bytes.
Qed.

Lemma block_slots_spec : block_slots l b = Ok (map fst g.1).
Proof.
  destruct (gaps_spec g Hg) as (p & Hp & Hd & Hc & Hlen & Hr).
  unfold block_slots. rewrite block_tail. cbn [obind]. unfold enc_group. rewrite <- !app_assoc.
  rewrite hdr_doc_bits, hdr_count, <- Hlen, column_values; [|done|apply frequencies_bytes].
  cbn [obind]. by rewrite (hdr_first p Hp), Hr, hdr_last, Z.eqb_refl.
Qed.

Lemma ordinal_bytes_spec : ordinal_bytes l b = Ok (column g.2).
Proof.
  unfold ordinal_bytes. rewrite block_frequency_bytes, block_gap_bytes, hdr_offset, hdr_count, hdr_ordinal_bits.
  rewrite <- (go_ordinals _ Hg), <- column_length by (apply col_u32, Hg).
  rewrite Hdata. unfold enc_group. rewrite slice_Ok by (rewrite ?length_app; lia).
  replace (_ + length (column g.2) - _) with (length (column g.2)) by lia.
  rewrite <- !app_assoc, (app_assoc pre), (app_assoc (pre ++ _)), <- !length_app, drop_app_length.
  by rewrite take_app_length.
Qed.

Lemma decode_ordinals_spec : decode_ordinals l b = Ok g.2.
Proof.
  unfold decode_ordinals. rewrite ordinal_bytes_spec. cbn [obind]. rewrite hdr_count, hdr_ordinal_bits.
  rewrite <- (go_ordinals _ Hg), <- (app_nil_r (column g.2)), column_values by (apply col_u32, Hg || constructor).
  cbn [obind]. by rewrite wrap_u32_id by apply Hg.
Qed.

Lemma first_frequency_spec p : head g.1 = Some p -> first_frequency l b = Ok p.2.
Proof.
  intros Hp. unfold first_frequency. rewrite block_gap_bytes, Hdata, hdr_offset. unfold enc_group.
  rewrite slice_Ok by (rewrite ?length_app; lia). cbn [obind]. rewrite take_ge by (rewrite length_drop; lia).
  rewrite <- length_app, <- !app_assoc, app_assoc, drop_app_length, hdr_frequency_bits.
  rewrite (column_at _ _ 0 p.2).
  - cbn [obind]. rewrite wrap_small; [done|]. pose proof (go_frequencies _ Hg) as Hf.
    destruct g.1; simplify_eq/=. by inversion Hf.
  - apply col_u32, Hg.
  - apply ordinals_bytes.
  - by destruct g.1; simplify_eq/=.
Qed.
End Decode.

(** ** Frontiers dominate *)

Definition dominates (q p : point) : Prop := (p.1 <= q.1 /\ q.2 <= p.2)%Z.

Definition staircase (l : list point) : Prop := StronglySorted (fun p q => q.1 <= p.1 /\ q.2 < p.2)%Z l.

#[global] Instance point_le_total : Total point_le.
Proof. intros a b. unfold point_le. lia. Qed.
#[global] Instance point_le_trans : Transitive point_le.
Proof. intros a b c. unfold point_le. lia. Qed.

Lemma StronglySorted_snoc {A} (R : A -> A -> Prop) l x :
  StronglySorted R l -> Forall (fun y => R y x) l -> StronglySorted R (l ++ [x]).
Proof.
  induction 1 as [|y l Hl IH Hy]; intros Hx; simpl; [repeat constructor|].
  inversion Hx; subst. constructor; [auto|]. apply Forall_app_2; [done|by constructor].
Qed.

Lemma StronglySorted_weaken {A} (R Q : A -> A -> Prop) l :
  (forall x y, R x y -> Q x y) -> StronglySorted R l -> StronglySorted Q l.
Proof. intros HRQ. induction 1 as [|x l Hl IH Hx]; constructor; [done|]. eapply Forall_impl; eauto. Qed.

Lemma staircase_NoDup l : staircase l -> NoDup l.
Proof.
  induction 1 as [|p l Hl IH Hp]; constructor; [|done]. intros Hin.
  rewrite Forall_forall in Hp. specialize (Hp p Hin). lia.
Qed.

Lemma keep_loop_spec kept shortest pts :
  staircase kept -> StronglySorted point_le pts ->
  (forall q p, q ∈ kept -> p ∈ pts -> p.1 <= q.1)%Z ->
  (kept <> [] -> Forall (fun q => shortest <= q.2)%Z kept /\ exists q, q ∈ kept /\ q.2 = shortest) ->
  staircase (keep_loop kept shortest pts) /\
  (forall q, q ∈ keep_loop kept shortest pts -> q ∈ kept \/ q ∈ pts) /\
  (forall p, p ∈ kept \/ p ∈ pts -> exists q, q ∈ keep_loop kept shortest pts /\ dominates q p).
Proof.
  revert kept shortest. induction pts as [|p pts IH]; intros kept shortest Hst Hs Hlow Hsh; simpl.
  { split_and!; [done|auto|]. intros p [Hp|Hp]; [|by apply elem_of_nil in Hp].
    exists p. split; [done|]. unfold dominates. lia. }
  inversion Hs as [|?? Hs1 Hs2]; subst. rewrite Forall_forall in Hs2.
  destruct (Nat.eqb (length kept) 0 || (p.2 <? shortest)%Z) eqn:E.
  - assert (Hlt : Forall (fun q => p.1 <= q.1 /\ p.2 < q.2)%Z kept).
    { apply Forall_forall. intros q Hq. split; [apply Hlow; [done|left]|].
      destruct kept as [|k0 kept]; [by apply elem_of_nil in Hq|]. simpl in E. apply Z.ltb_lt in E.
      destruct Hsh as [Hf _]; [done|]. rewrite Forall_forall in Hf. specialize (Hf q Hq). simpl in Hf. lia. }
    destruct (IH (kept ++ [p]) p.2) as (H1 & H2 & H3).
    + by apply StronglySorted_snoc.
    + done.
    + intros q x [Hq|Hq]%elem_of_app Hx; [apply Hlow; [done|by right]|].
      apply list_elem_of_singleton in Hq as ->. specialize (Hs2 x Hx). unfold point_le in Hs2. lia.
    + intros _. split.
      * apply Forall_app_2; [|repeat constructor; lia]. eapply Forall_impl; [exact Hlt|]. simpl. lia.
      * exists p. split; [apply elem_of_app; right; left|done].
    + split_and!; [done| |].
      * intros q Hq. destruct (H2 q Hq) as [[?|Hq']%elem_of_app|?]; [by left| |right; by right].
        apply list_elem_of_singleton in Hq' as ->. right. left.
      * intros x [Hx|[->|Hx]%elem_of_cons]; apply H3; [left; apply elem_of_app; by left|left; apply elem_of_app; right; left|by right].
  - apply orb_false_iff in E as [E1 E2]. apply Z.ltb_ge in E2.
    assert (Hk : kept <> []) by (intros ->; done).
    destruct (IH kept shortest) as (H1 & H2 & H3); [done|done| |done|].
    + intros q x Hq Hx. apply Hlow; [done|by right].
    + split_and!; [done| |].
      * intros q Hq. destruct (H2 q Hq); [by left|right; by right].
      * intros x [Hx|[->|Hx]%elem_of_cons]; [apply H3; by left| |apply H3; by right].
        destruct (Hsh Hk) as [_ (q & Hq & Hq2)]. destruct (H3 q (or_introl Hq)) as (q' & Hq' & Hd).
        exists q'. split; [done|]. specialize (Hlow q p Hq ltac:(left)). unfold dominates in *. lia.
Qed.

Lemma pareto_keep kept pts :
  pareto_loop kept pts = keep_loop kept (default U32_MAX (snd <$> last kept)) pts.
Proof.
  revert kept. induction pts as [|p pts IH]; intros kept; simpl; [done|].
  destruct (last kept) as [q|] eqn:E.
  - destruct (decide (kept = [])) as [->|Hk]; [done|].
    rewrite (proj2 (Nat.eqb_neq _ _)) by (by destruct kept). simpl.
    destruct (p.2 <? q.2)%Z; [|by rewrite IH, E]. by rewrite IH, last_snoc.
  - apply last_None in E as ->. simpl. by rewrite IH.
Qed.

Lemma pareto_spec pts :
  staircase (pareto pts) /\ (forall q, q ∈ pareto pts -> q ∈ pts) /\
  (forall p, p ∈ pts -> exists q, q ∈ pareto pts /\ dominates q p).
Proof.
  unfold pareto. rewrite pareto_keep. simpl.
  destruct (keep_loop_spec [] U32_MAX (merge_sort point_le pts)) as (H1 & H2 & H3);
    [constructor|apply StronglySorted_merge_sort; apply _|intros q p Hq; by apply elem_of_nil in Hq|done|].
  split_and!; [done| |].
  - intros q Hq. destruct (H2 q Hq) as [H|H]; [by apply elem_of_nil in H|]. by rewrite merge_sort_Permutation in H.
  - intros p Hp. apply H3. right. by rewrite merge_sort_Permutation.
Qed.

Definition point_ok (p : point) : Prop := (0 <= p.1 /\ 0 <= p.2 <= U32_MAX)%Z.

(** The table holds the least length of every frequency it indexes. *)
Lemma least_loop_spec pts used least spill :
  used + length pts <= BLOCK_LEN -> Forall point_ok pts ->
  exists least', least_loop pts used least spill = Ok (least', spill ++ filter (fun p => Z.of_nat (length least) <= p.1)%Z pts) /\
    length least' = length least /\
    (forall f v, least !! f = Some v -> exists v', least' !! f = Some v' /\ v' <= v)%Z /\
    (forall p, p ∈ pts -> (p.1 < Z.of_nat (length least))%Z -> exists v, least' !! Z.to_nat p.1 = Some v /\ v <= p.2)%Z /\
    (forall f v, least' !! f = Some v -> least !! f = Some v \/ (Z.of_nat f, v) ∈ pts).
Proof.
  revert used least spill. induction pts as [|[f w] pts IH]; intros used least spill Hu Hok; simpl.
  { exists least. rewrite app_nil_r. split_and!; auto; [|intros p Hp; by apply elem_of_nil in Hp]. intros g v Hv. exists v. split; [done|lia]. }
  simpl in Hu. inversion Hok as [|?? [Hf Hw] Hok']; subst. simpl in Hf, Hw.
  rewrite (proj2 (Nat.ltb_lt _ _)) by lia. destruct (f <? Z.of_nat (length least))%Z eqn:E; bool_to_prop.
  - destruct (lookup_lt_is_Some_2 least (Z.to_nat f)) as [v0 Hv0]; [lia|].
    destruct (IH (used + 1) (alter (fun e => Z.min e w) (Z.to_nat f) least) spill) as (l' & -> & Hl & Hle & Hp & Hback); [lia|done|].
    rewrite length_alter in *. exists l'. rewrite filter_cons_False by (simpl; lia). split_and!; auto.
    + intros g v Hv. destruct (decide (g = Z.to_nat f)) as [->|Hne].
      * destruct (Hle (Z.to_nat f) (Z.min v w)) as (v' & ? & ?); [by rewrite list_lookup_alter_eq, Hv|]. exists v'. split; [done|lia].
      * apply Hle. by rewrite list_lookup_alter_ne.
    + intros p [->|Hin]%elem_of_cons Hlt; [|by apply Hp]. simpl in *.
      destruct (Hle (Z.to_nat f) (Z.min v0 w)) as (v' & ? & ?); [by rewrite list_lookup_alter_eq, Hv0|]. exists v'. split; [done|lia].
    + intros g v Hv. destruct (Hback g v Hv) as [Hg|Hg]; [|right; by right].
      destruct (decide (g = Z.to_nat f)) as [->|Hne].
      * rewrite list_lookup_alter_eq, Hv0 in Hg. simpl in Hg. injection Hg as <-.
        destruct (Z.min_spec v0 w) as [[_ ->]|[_ ->]]; [by left|right]. rewrite Z2Nat.id by lia. left.
      * rewrite list_lookup_alter_ne in Hg by done. by left.
  - destruct (IH (used + 1) least (spill ++ [(f, w)])) as (l' & -> & Hl & Hle & Hp & Hback); [lia|done|].
    exists l'. rewrite filter_cons_True by (simpl; lia). rewrite <- app_assoc. split_and!; auto.
    + intros p [->|Hin]%elem_of_cons Hlt; [simpl in *; lia|by apply Hp].
    + intros g v Hv. destruct (Hback g v Hv); [by left|right; by right].
Qed.

Lemma table_points_elem least p :
  p ∈ table_points least <->
  (1 <= p.1 <= Z.of_nat BLOCK_LEN)%Z /\ least !! Z.to_nat p.1 = Some p.2 /\ p.2 <> U32_MAX.
Proof.
  unfold table_points. rewrite list_elem_of_omap. split.
  - intros (f & Hf & Hp). rewrite list_elem_of_In, <- in_rev, <- list_elem_of_In, elem_of_seq in Hf.
    destruct (least !! f) as [w|] eqn:E; [|done]. destruct (w =? U32_MAX)%Z eqn:Ew; [done|]. bool_to_prop.
    injection Hp as <-. simpl. rewrite Nat2Z.id. split_and!; [lia|lia|done|done].
  - intros (Hf & Hl & Hw). exists (Z.to_nat p.1). rewrite list_elem_of_In, <- in_rev, <- list_elem_of_In, elem_of_seq.
    split; [lia|]. rewrite Hl, (proj2 (Z.eqb_neq _ _)) by done. rewrite Z2Nat.id by lia. by destruct p.
Qed.

Lemma table_points_sorted least : StronglySorted (fun p q => q.1 < p.1)%Z (table_points least).
Proof.
  unfold table_points. generalize BLOCK_LEN. intros n.
  induction n as [|n IH]; [constructor|]. rewrite seq_S, rev_app_distr. cbn [rev app omap list_omap].
  destruct (least !! (1 + n)) as [w|]; [|exact IH]. destruct (w =? U32_MAX)%Z; [exact IH|].
  constructor; [exact IH|]. apply Forall_forall. intros p Hp. apply list_elem_of_omap in Hp as (f & Hf & Hp).
  rewrite list_elem_of_In, <- in_rev, <- list_elem_of_In, elem_of_seq in Hf.
  destruct (least !! f) as [v|]; [|done]. destruct (v =? U32_MAX)%Z; [done|]. injection Hp as <-. simpl. lia.
Qed.

(** A frontier holds points of the block and dominates every posting of positive frequency. *)
Lemma frontier_spec pts :
  length pts <= BLOCK_LEN -> Forall point_ok pts ->
  exists r, frontier pts = Ok r /\
    match r with
    | None => True
    | Some kept => length kept <= length pts /\ staircase kept /\ (forall q, q ∈ kept -> q ∈ pts) /\
        forall p, p ∈ pts -> (0 < p.1)%Z -> (p.2 < U32_MAX)%Z -> exists q, q ∈ kept /\ dominates q p
    end.
Proof.
  intros Hlen Hok. set (pos := filter (fun p => 0 < p.1)%Z pts).
  assert (Hposlen : length pos <= length pts) by apply length_filter.
  assert (Hposin : forall p, p ∈ pos <-> (0 < p.1)%Z /\ p ∈ pts) by (intros p; unfold pos; by rewrite list_elem_of_filter).
  assert (Hposok : Forall point_ok pos).
  { apply Forall_forall. intros p Hp. apply Hposin in Hp as [_ Hp]. rewrite Forall_forall in Hok. auto. }
  destruct (least_loop_spec pos 0 (replicate (BLOCK_LEN + 1) U32_MAX) []) as (least & Hleast & Hll & _ & Hsmall & Hback);
    [lia|done|]. rewrite length_replicate in *. unfold frontier. fold pos. rewrite Hleast. cbn [obind app].
  set (spill := filter _ pos). set (all := merge_sort point_le spill ++ table_points least).
  assert (Hspill : forall p, p ∈ spill <-> (Z.of_nat (BLOCK_LEN + 1) <= p.1)%Z /\ p ∈ pos) by (intros p; unfold spill; by rewrite list_elem_of_filter).
  assert (Hsorted : StronglySorted point_le all).
  { apply StronglySorted_app. split_and!.
    - intros p q Hp Hq. rewrite merge_sort_Permutation in Hp. apply Hspill in Hp as [Hp _].
      apply table_points_elem in Hq as [Hq _]. unfold point_le. lia.
    - apply StronglySorted_merge_sort; apply _.
    - eapply StronglySorted_weaken; [|apply table_points_sorted]. intros p q Hpq. unfold point_le. left. exact Hpq. }
  assert (Hall : forall q, q ∈ all -> q ∈ pos).
  { intros q [Hq|Hq]%elem_of_app; [rewrite merge_sort_Permutation in Hq; by apply Hspill in Hq as [_ ?]|].
    apply table_points_elem in Hq as (Hf & Hl & Hw). destruct (Hback _ _ Hl) as [Hr|Hr].
    - apply lookup_replicate in Hr as [Hr _]. by destruct Hw.
    - rewrite Z2Nat.id in Hr by lia. by destruct q. }
  destruct (keep_loop_spec [] U32_MAX all) as (H1 & H2 & H3);
    [constructor|done|intros q p Hq; by apply elem_of_nil in Hq|done|].
  eexists. split; [done|]. set (kept := keep_loop [] U32_MAX all) in *. destruct (1 <? length kept) eqn:E; [|done].
  assert (Hin : forall q, q ∈ kept -> q ∈ pts).
  { intros q Hq. destruct (H2 q Hq) as [Hn|Hq']; [by apply elem_of_nil in Hn|]. by apply Hall, Hposin in Hq' as [_ ?]. }
  split_and!; [|done|done|].
  - apply submseteq_length, NoDup_submseteq; [by apply staircase_NoDup|done].
  - intros p Hp Hp1 Hp2. assert (Hpos : p ∈ pos) by (by apply Hposin).
    destruct (decide (Z.of_nat (BLOCK_LEN + 1) <= p.1)%Z) as [Hbig|Hsml].
    + apply H3. right. apply elem_of_app. left. rewrite merge_sort_Permutation. by apply Hspill.
    + destruct (Hsmall p Hpos) as (v & Hv & Hvle); [lia|]. destruct (H3 (p.1, v)) as (q & Hq & Hd).
      * right. apply elem_of_app. right. apply table_points_elem. simpl. split_and!; [lia|lia|done|lia].
      * exists q. split; [done|]. unfold dominates in *. simpl in Hd. lia.
Qed.

(** ** Lists of blocks *)

Fixpoint blocks_at (offset : nat) (gs : list group) (bs : list Block) : Prop :=
  match gs, bs with
  | [], [] => True
  | g :: gs, b :: bs => header_of offset g b /\ blocks_at (offset + length (enc_group g)) gs bs
  | _, _ => False
  end.

Definition encoded (gs : list group) : list Z := concat (map enc_group gs).

Record blocks_repr (l : PostingList) (gs : list group) : Prop := {
  br_groups : Forall group_ok gs;
  br_data : pl_data l = encoded gs;
  br_headers : blocks_at 0 gs (pl_blocks l) }.

(** A list has a summary exactly when it is long, and what the summary holds is up to date. *)
Definition summary_ok (l : PostingList) : Prop :=
  match pl_summary l with
  | None => length (pl_blocks l) < SUMMARY_MIN_BLOCKS
  | Some s => SUMMARY_MIN_BLOCKS <= length (pl_blocks l) /\
      (forall v, s_maxima s = Some v -> v = maxima_of (pl_blocks l)) /\
      (forall v, s_runs s = Some v -> v = summary_runs (pl_blocks l))
  end.

Lemma touch_summary_ok l : summary_ok (touch l).
Proof.
  unfold summary_ok, touch. cbn [pl_summary pl_blocks].
  destruct (length (pl_blocks l) <? SUMMARY_MIN_BLOCKS) eqn:E; bool_to_prop; [done|].
  destruct (pl_summary l) as [[[v|] [w|]]|]; simpl; split_and!; done.
Qed.

Lemma encoded_app gs hs : encoded (gs ++ hs) = encoded gs ++ encoded hs.
Proof. unfold encoded. by rewrite map_app, concat_app. Qed.

Lemma encoded_bytes gs : Forall group_ok gs -> bytes_ok (encoded gs).
Proof.
  induction 1 as [|g gs Hg Hgs IH]; [constructor|]. unfold encoded. simpl.
  apply Forall_app_2; [by apply enc_group_bytes|done].
Qed.

Lemma blocks_at_length offset gs bs : blocks_at offset gs bs -> length bs = length gs.
Proof.
  revert offset bs. induction gs as [|g gs IH]; intros offset [|b bs]; simpl; try done.
  intros [_ H]. f_equal. eauto.
Qed.

Lemma blocks_at_app offset gs hs bs :
  blocks_at offset (gs ++ hs) bs <->
  exists b1 b2, bs = b1 ++ b2 /\ blocks_at offset gs b1 /\ blocks_at (offset + length (encoded gs)) hs b2.
Proof.
  revert offset bs. induction gs as [|g gs IH]; intros offset bs; cbn [app blocks_at].
  - change (encoded []) with (@nil Z). rewrite Nat.add_0_r. split.
    + intros H. exists [], bs. done.
    + intros ([|? b1] & b2 & -> & H1 & H2); [done|]. by destruct H1.
  - change (encoded (g :: gs)) with (enc_group g ++ encoded gs). rewrite length_app, Nat.add_assoc. split.
    + destruct bs as [|b bs]; [done|]. intros [Hb H]. apply IH in H as (b1 & b2 & -> & H1 & H2).
      by exists (b :: b1), b2.
    + intros ([|b b1] & b2 & -> & H1 & H2); [done|]. destruct H1 as [Hb H1]. split; [done|].
      apply IH. by exists b1, b2.
Qed.

Lemma blocks_at_cons offset g gs bs :
  blocks_at offset (g :: gs) bs <->
  exists b bs', bs = b :: bs' /\ header_of offset g b /\ blocks_at (offset + length (enc_group g)) gs bs'.
Proof. split; [destruct bs as [|b bs']; simpl; [done|naive_solver]|by intros (b & bs' & -> & ?)]. Qed.

(** Block [i] with what precedes and follows it. *)
Lemma blocks_repr_split l gs i g :
  blocks_repr l gs -> gs !! i = Some g ->
  exists b, pl_blocks l !! i = Some b /\ header_of (length (encoded (take i gs))) g b /\ group_ok g /\
    pl_data l = encoded (take i gs) ++ enc_group g ++ encoded (drop (S i) gs) /\
    bytes_ok (encoded (drop (S i) gs)).
Proof.
  intros [Hg Hd Hb] Hi. pose proof (take_drop_middle gs i g Hi) as Hsplit.
  rewrite <- Hsplit in Hb. apply blocks_at_app in Hb as (b1 & b2 & Heq & H1 & H2).
  apply blocks_at_cons in H2 as (b & b2' & -> & Hh & H2). exists b. split_and!.
  - rewrite Heq. apply blocks_at_length in H1. rewrite length_take in H1.
    pose proof (lookup_lt_Some _ _ _ Hi). by rewrite list_lookup_middle by lia.
  - exact Hh.
  - rewrite Forall_lookup in Hg. eauto.
  - rewrite Hd. rewrite <- Hsplit at 1. by rewrite encoded_app.
  - apply encoded_bytes. by apply Forall_drop.
Qed.

Lemma blocks_repr_None l gs i : blocks_repr l gs -> gs !! i = None -> pl_blocks l !! i = None.
Proof.
  intros H Hi. apply lookup_ge_None in Hi. apply lookup_ge_None.
  by rewrite (blocks_at_length _ _ _ (br_headers _ _ H)).
Qed.

Lemma decode_block_ok l gs i g :
  blocks_repr l gs -> gs !! i = Some g ->
  exists b, pl_blocks l !! i = Some b /\ header_of (length (encoded (take i gs))) g b /\
    decode_block l i = Ok g.1 /\ decode_values l b = Ok g.1 /\ decode_ordinals l b = Ok g.2 /\
    (forall p, head g.1 = Some p -> first_frequency l b = Ok p.2) /\ ordinal_bytes l b = Ok (column g.2).
Proof.
  intros H Hi. destruct (blocks_repr_split l gs i g H Hi) as (b & Hb & Hh & Hg & Hd & Hp).
  pose proof (decode_values_spec l _ _ g b Hg Hh Hd Hp) as Hv. exists b. split_and!; auto.
  - unfold decode_block. by rewrite Hb.
  - exact (decode_ordinals_spec l _ _ g b Hg Hh Hd).
  - intros p. exact (first_frequency_spec l _ _ g b Hg Hh Hd Hp p).
  - exact (ordinal_bytes_spec l _ _ g b Hg Hh Hd).
Qed.

(** Every block of a list by its group. *)
Lemma per_block {A} (f : Block -> outcome A) (h : group -> A) l gs :
  blocks_repr l gs -> (forall i b g, pl_blocks l !! i = Some b -> gs !! i = Some g -> f b = Ok (h g)) ->
  omap_list f (pl_blocks l) = Ok (map h gs).
Proof.
  intros H Hall. assert (Hlen := blocks_at_length _ _ _ (br_headers _ _ H)). clear H.
  revert gs Hlen Hall. induction (pl_blocks l) as [|b bs IH]; intros [|g gs] Hlen Hall; simpl in *; try done.
  rewrite (Hall 0 b g) by done. cbn [obind]. rewrite (IH gs); [done|lia|]. intros i. exact (Hall (S i)).
Qed.

Lemma pl_for_each_ok l gs : blocks_repr l gs -> pl_for_each l = Ok (concat (map fst gs)).
Proof.
  intros H. unfold pl_for_each. rewrite (per_block (decode_values l) fst l gs H); [done|].
  intros i b g Hb Hg. destruct (decode_block_ok l gs i g H Hg) as (b' & Hb' & _ & _ & Hv & _). congruence.
Qed.

Lemma block_slots_ok l gs : blocks_repr l gs -> omap_list (block_slots l) (pl_blocks l) = Ok (map (fun g => map fst g.1) gs).
Proof.
  intros H. apply per_block; [done|]. intros i b g Hb Hi. destruct (blocks_repr_split l gs i g H Hi) as (b' & Hb' & Hh & Hg & Hd & Hp).
  assert (b' = b) as -> by congruence. exact (block_slots_spec l _ _ g b Hg Hh Hd Hp).
Qed.

(** ** Appending a block *)

(** The ordinals given for a group: none stand for zeros. *)
Definition ordinals_for (g : group) (ordinals : list Z) : Prop :=
  ordinals = g.2 \/ (ordinals = [] /\ g.2 = replicate (length g.1) 0%Z).

Lemma width_zeros n : width (replicate n 0%Z) = 0.
Proof. unfold width. replace (list_max _) with 0%Z; [done|]. induction n; unfold list_max in *; simpl; lia. Qed.

Lemma same_counts_touch l data blocks :
  let l' := touch (set_blocks l data blocks) in
  pl_count l' = pl_count l /\ pl_positive_count l' = pl_positive_count l /\ pl_last l' = pl_last l.
Proof. done. Qed.

Lemma append_block_ok l gs g ordinals mw fr :
  blocks_repr l gs -> group_ok g -> ordinals_for g ordinals ->
  exists l', append_block l g.1 ordinals mw fr = Ok l' /\ blocks_repr l' (gs ++ [g]) /\ summary_ok l' /\
    pl_blocks l' = pl_blocks l ++ [header (length (pl_data l)) g mw fr] /\
    pl_count l' = pl_count l /\ pl_positive_count l' = pl_positive_count l /\ pl_last l' = pl_last l.
Proof.
  intros H Hg Ho. destruct (gaps_spec g Hg) as (p & Hp & Hd & Hc & Hlen & Hr).
  unfold append_block. rewrite Hp. cbn [expect obind].
  destruct (last g.1) as [q|] eqn:Hq; [|apply last_None in Hq; by destruct (go_nonempty _ Hg)].
  cbn [expect obind]. rewrite Hd. cbn [obind].
  assert (Hord : (if 0 <? bit_length (list_max ordinals) then
      if Nat.eqb (length ordinals) (length g.1) then Ok (pack ordinals (bit_length (list_max ordinals))) else Panic
      else Ok []) = Ok (column g.2) /\ bit_length (list_max ordinals) = width g.2).
  { destruct Ho as [->|[-> Hz]].
    - split; [|done]. rewrite (proj2 (Nat.eqb_eq _ _)) by apply Hg.
      change (bit_length (list_max g.2)) with (width g.2). destruct (0 <? width g.2) eqn:E; [done|]. bool_to_prop.
      f_equal. symmetry. apply nil_length_inv. rewrite column_length by (apply col_u32, Hg).
      replace (width g.2) with 0 by lia. by rewrite Nat.mul_0_r.
    - rewrite Hz, column_zeros, width_zeros. done. }
  destruct Hord as [Hord Hbits]. rewrite Hord. cbn [obind]. eexists. split; [reflexivity|].
  assert (Hhead : {| b_offset := length (pl_data l); b_first := p.1; b_last := q.1;
      b_count := Z.to_nat (wrap U16 (Z.of_nat (length g.1))); b_doc_bits := bit_length (list_max (gaps_of g.1));
      b_frequency_bits := bit_length (list_max (map snd g.1)); b_ordinal_bits := bit_length (list_max ordinals);
      b_max_frequency := list_max (map snd g.1); b_min_words := mw; b_frontier := fr |} =
      header (length (pl_data l)) g mw fr).
  { unfold header. rewrite Hbits. f_equal.
    - by destruct g.1; simplify_eq/=.
    - pose proof (fmap_last fst g.1) as Hf. rewrite Hq in Hf. simpl in Hf.
      change (fst <$> g.1) with (map fst g.1) in Hf. by rewrite Hf.
    - rewrite wrap_small; [lia|]. pose proof (go_length _ Hg). change BLOCK_LEN with 128 in *. unfold U16. lia. }
  rewrite Hhead. split_and!; try done; [|apply touch_summary_ok]. destruct H as [Hgs Hdata Hbl]. split.
  - apply Forall_app_2; [done|by constructor].
  - cbn [touch set_blocks pl_data]. rewrite encoded_app, Hdata. f_equal. unfold encoded. simpl. by rewrite app_nil_r.
  - cbn [touch set_blocks pl_blocks]. apply blocks_at_app. eexists _, _. split; [done|]. split; [done|].
    simpl. split; [|done]. by rewrite Hdata.
Qed.

(** ** Bounds *)

Section Bounds.
(** The length of the document at a slot, as the caller knows it. *)
Context (words : Z -> Z).

(** What [bounds_cover] checks of a block: the largest frequency, the least length, and a
    frontier point dominating every posting of positive frequency. *)
Definition covers (b : Block) (g : group) : Prop :=
  Forall (fun p => (p.2 <= b_max_frequency b)%Z /\ (b_min_words b <= words p.1)%Z /\
    (p.2 = 0%Z \/ match b_frontier b with
                  | None => True
                  | Some pts => exists q, q ∈ pts /\ dominates q (p.2, words p.1)
                  end)) g.1.

Record bounds_ok (b : Block) (g : group) : Prop := {
  bo_covers : covers b g;
  bo_min_words : (0 <= b_min_words b)%Z;
  bo_frontier : forall pts, b_frontier b = Some pts -> length pts <= length g.1 /\ Forall point_ok pts }.

(** Lengths are 32-bit and below the table's marker. *)
Definition words_small : Prop := forall s, (0 <= words s < U32_MAX)%Z.

(** [words(p.0)] of every posting, and the least of them. *)
Definition lengths (ps : list Posting) : list Z := map (fun p => words p.1) ps.
Definition least_length (ps : list Posting) : Z :=
  match lengths ps with [] => 0 | w :: rest => foldr Z.min w rest end.
Definition points_of (ps : list Posting) : list point := map (fun p => (p.2, words p.1)) ps.

Lemma foldr_min_le w rest x : x ∈ w :: rest -> (foldr Z.min w rest <= x)%Z.
Proof.
  induction rest as [|y rest IH]; simpl; [intros ->%list_elem_of_singleton; lia|].
  intros [->|[->|Hx]%elem_of_cons]%elem_of_cons; [specialize (IH ltac:(left)); lia|lia|].
  specialize (IH ltac:(by right)). lia.
Qed.

Lemma foldr_min_ge a w rest : (a <= w)%Z -> Forall (fun x => a <= x)%Z rest -> (a <= foldr Z.min w rest)%Z.
Proof. intros Hw. induction 1; simpl; lia. Qed.

Lemma least_length_le ps p : p ∈ ps -> (least_length ps <= words p.1)%Z.
Proof.
  intros Hp. unfold least_length. assert (Hin : words p.1 ∈ lengths ps) by (apply list_elem_of_fmap; by exists p).
  destruct (lengths ps) as [|w rest]; [by apply elem_of_nil in Hin|]. by apply foldr_min_le.
Qed.

Lemma least_length_bound ps : words_small -> (0 <= least_length ps)%Z.
Proof.
  intros Hw. unfold least_length. destruct (lengths ps) as [|w rest] eqn:E; [lia|].
  assert (Hall : Forall (fun x => 0 <= x)%Z (w :: rest)).
  { rewrite <- E. apply Forall_map, Forall_forall. intros p _. apply Hw. }
  inversion Hall; subst. by apply foldr_min_ge.
Qed.

Lemma points_of_ok ps : words_small -> Forall is_u32 (map snd ps) -> Forall point_ok (points_of ps).
Proof.
  intros Hw Hf. apply Forall_map, Forall_forall. intros p Hp. rewrite Forall_forall in Hf.
  assert (Hu : is_u32 p.2) by (apply Hf, list_elem_of_fmap; by exists p).
  unfold point_ok, is_u32 in *. simpl. specialize (Hw p.1). lia.
Qed.

(** The bounds of a block built from scratch. *)
Lemma fresh_bounds_ok off g :
  words_small -> group_ok g ->
  exists fr, frontier (points_of g.1) = Ok fr /\ bounds_ok (header off g (least_length g.1) fr) g.
Proof.
  intros Hw Hg. destruct (frontier_spec (points_of g.1)) as (fr & Hfr & Hspec).
  - unfold points_of. rewrite length_map. apply Hg.
  - apply points_of_ok; [done|apply Hg].
  - exists fr. split; [done|]. split; cbn [header b_min_words b_frontier].
    + apply Forall_forall. intros p Hp. cbn [header b_max_frequency b_min_words b_frontier]. split_and!.
      * apply list_max_ge, list_elem_of_fmap. by exists p.
      * by apply least_length_le.
      * destruct (decide (p.2 = 0%Z)); [by left|right]. destruct fr as [pts|]; [|done].
        destruct Hspec as (_ & _ & _ & Hdom). apply (Hdom (p.2, words p.1)).
        -- apply list_elem_of_fmap. by exists p.
        -- simpl. pose proof (go_frequencies _ Hg) as Hf. rewrite Forall_forall in Hf.
           assert (is_u32 p.2) by (apply Hf, list_elem_of_fmap; by exists p). unfold is_u32 in *. lia.
        -- simpl. apply Hw.
    + by apply least_length_bound.
    + intros pts ->. destruct Hspec as (Hl & _ & Hin & _). unfold points_of in Hl. rewrite length_map in Hl. split; [done|].
      pose proof (points_of_ok g.1 Hw (go_frequencies _ Hg)) as Hok. rewrite Forall_forall in Hok |- *. auto.
Qed.
End Bounds.
