(* ===== verification/Cursor.v ===== *)
(** * Forward cursors over posting lists

    [gallop] and [PostingCursor] of [src/core/documents/postings.rs]: a cursor decodes a block
    only when it needs a posting after the block's first, and skips blocks by their last slot.
    [cursor_at] relates a cursor to the postings it has still to visit. *)

From S2P Require Import Prelude Words BitPack Search Positions Terms Postings.

(** ** Searching a partitioned slice *)

(** [slice::partition_point], the standard library's binary search for the first element the
    predicate rejects. *)
Definition partition_point {A} (items : list A) (before : A -> bool) : outcome nat :=
  let* r := search (length items) (fun i =>
    let* x := expect (items !! i) in Ok (if before x then Lt else Gt)) in
  Ok (match r with inl i => i | inr i => i end).

(** The doubling loop of [gallop]; [low] grows in every round. *)
Fixpoint gallop_loop {A} (fuel : nat) (items : list A) (before : A -> bool) (low step : nat) : outcome (nat * nat) :=
  if low + step <=? length items then
    let* x := expect (items !! (low + step - 1)) in
    if before x then
      match fuel with
      | O => Panic
      | S fuel => gallop_loop fuel items before (low + step) (step * 2)
      end
    else Ok (low, step)
  else Ok (low, step).

Definition gallop {A} (items : list A) (before : A -> bool) : outcome nat :=
  let* (low, step) := gallop_loop (length items) items before 0 1 in
  let high := Nat.min (low + step) (length items) in
  let* part := slice items low high in
  let* p := partition_point part before in
  Ok (low + p).

(** ** The cursor *)

Record PostingCursor := mkCursor {
  c_block : nat; c_index : nat; c_decoded : list Posting; c_length : nat; c_filled : bool }.

Section Cursor.
Context (l : PostingList).

Definition load (c : PostingCursor) (block : nat) : outcome PostingCursor :=
  match pl_blocks l !! block with
  | Some b =>
      let* f := first_frequency l b in
      Ok {| c_block := block; c_index := 0; c_decoded := <[0 := (b_first b, f)]> (c_decoded c);
            c_length := b_count b; c_filled := false |}
  | None =>
      Ok {| c_block := block; c_index := 0; c_decoded := c_decoded c; c_length := 0; c_filled := false |}
  end.

Definition cursor_new : outcome PostingCursor :=
  load {| c_block := 0; c_index := 0; c_decoded := replicate BLOCK_LEN (0, 0)%Z; c_length := 0;
          c_filled := false |} 0.

Definition fill (c : PostingCursor) : outcome PostingCursor :=
  if c_filled c then Ok c
  else
    let* ps := decode_block l (c_block c) in
    Ok {| c_block := c_block c; c_index := c_index c; c_decoded := splice (c_decoded c) 0 ps;
          c_length := c_length c; c_filled := true |}.

Definition set_index (c : PostingCursor) (index : nat) : PostingCursor :=
  {| c_block := c_block c; c_index := index; c_decoded := c_decoded c; c_length := c_length c;
     c_filled := c_filled c |}.

Definition peek (c : PostingCursor) : outcome (option Posting) :=
  if c_index c <? c_length c then let* p := expect (c_decoded c !! c_index c) in Ok (Some p) else Ok None.

(** [value |= byte << (offset * 8)] over the bytes. *)
Fixpoint or_bytes (bytes : list Z) (offset : nat) (value : Z) : Z :=
  match bytes with
  | [] => value
  | byte :: rest => or_bytes rest (offset + 1) (Z.lor value (Z.shiftl byte (Z.of_nat (offset * 8))))
  end.

Definition cursor_ordinal (c : PostingCursor) : outcome Z :=
  let* b := expect (pl_blocks l !! c_block c) in
  let bits := b_ordinal_bits b in
  let start := c_index c * bits in
  let* bytes := ordinal_bytes l b in
  let* part := slice bytes (start / 8) (div_ceil (start + bits) 8) in
  let value := or_bytes part 0 0 in
  Ok (wrap U32 (Z.land (Z.shiftr value (Z.of_nat (start mod 8))) (pw bits - 1))).

Definition term_index (c : PostingCursor) : outcome Z :=
  let* n := cursor_ordinal c in expect (checked_sub n 1).

Definition locate (c : PostingCursor) (target : Z) : outcome (PostingCursor * bool) :=
  if c_length c <=? c_index c then Ok (c, false)
  else
    let* b := expect (pl_blocks l !! c_block c) in
    let* c :=
      if (b_last b <? target)%Z then
        let after := c_block c + 1 in
        let* rest := slice (pl_blocks l) after (length (pl_blocks l)) in
        let* n := gallop rest (fun b => b_last b <? target)%Z in
        load c (after + n)
      else Ok c in
    Ok (c, 0 <? c_length c).

Definition advance (c : PostingCursor) (target : Z) : outcome (PostingCursor * option Posting) :=
  let* here := peek c in
  if match here with None => true | Some p => (target <=? p.1)%Z end then Ok (c, here)
  else
    let* (c, located) := locate c target in
    let* stop :=
      if located then
        let* p := expect (c_decoded c !! 0) in Ok ((target <=? p.1)%Z && Nat.eqb (c_index c) 0)
      else Ok true in
    if stop then let* p := peek c in Ok (c, p)
    else
      let* c := fill c in
      let* part := slice (c_decoded c) (c_index c) (c_length c) in
      let* n := gallop part (fun p => p.1 <? target)%Z in
      let c := set_index c (c_index c + n) in
      let* p := peek c in
      Ok (c, p).

Definition cursor_next (c : PostingCursor) : outcome (PostingCursor * option Posting) :=
  let* value := peek c in
  match value with
  | None => Ok (c, None)
  | Some p =>
      let c := set_index c (c_index c + 1) in
      let* c := if Nat.eqb (c_index c) (c_length c) then load c (c_block c + 1) else fill c in
      Ok (c, Some p)
  end.

(** [take_while(first <= last)] of the blocks and the fold of their bounds. *)
Fixpoint range_fold (last : Z) (blocks : list Block) (acc : option (Z * Z)) : option (Z * Z) :=
  match blocks with
  | [] => acc
  | b :: rest =>
      if (b_first b <=? last)%Z then
        range_fold last rest
          (Some match acc with
                | None => (b_max_frequency b, b_min_words b)
                | Some fw => (Z.max fw.1 (b_max_frequency b), Z.min fw.2 (b_min_words b))
                end)
      else acc
  end.

Definition range_maximum (c : PostingCursor) (first last : Z) : outcome (option (Z * Z)) :=
  if c_length c <=? c_index c then Ok None
  else
    let* blocks := slice (pl_blocks l) (c_block c) (length (pl_blocks l)) in
    let* start := partition_point blocks (fun b => b_last b <? first)%Z in
    let* rest := slice blocks start (length blocks) in
    Ok (range_fold last rest None).

(** [iter().collect()]; one round per posting and a last one. *)
Fixpoint collect (fuel : nat) (c : PostingCursor) : outcome (list Posting) :=
  match fuel with
  | O => Panic
  | S fuel =>
      let* (c, p) := cursor_next c in
      match p with
      | None => Ok []
      | Some p => let* ps := collect fuel c in Ok (p :: ps)
      end
  end.

Definition posting_total : nat := sum_list (map b_count (pl_blocks l)).

Definition decode : outcome (list Posting) :=
  let* c := cursor_new in collect (S posting_total) c.
End Cursor.

(** ** Partitioned slices *)

Lemma app_lookup_cmp {A} (a b : list A) (before : A -> bool) i x :
  Forall (fun x => before x = true) a -> Forall (fun x => before x = false) b ->
  (a ++ b) !! i = Some x -> before x = (i <? length a).
Proof.
  intros Ha Hb Hi. apply lookup_app_Some in Hi as [Hi|[Hge Hi]].
  - rewrite (proj2 (Nat.ltb_lt _ _)) by (by eapply lookup_lt_Some). rewrite Forall_lookup in Ha. eauto.
  - rewrite (proj2 (Nat.ltb_ge _ _)) by done. rewrite Forall_lookup in Hb. eauto.
Qed.

Lemma partition_point_ok {A} (a b : list A) before :
  Forall (fun x => before x = true) a -> Forall (fun x => before x = false) b ->
  partition_point (a ++ b) before = Ok (length a).
Proof.
  intros Ha Hb. unfold partition_point.
  destruct (search_found (fun i => let* x := expect ((a ++ b) !! i) in Ok (if before x then Lt else Gt))
    (fun i => if i <? length a then Lt else Gt) (length (a ++ b))) as (r & -> & Hr).
  - intros i j Hij Hj. destruct (i <? length a) eqn:Ei, (j <? length a) eqn:Ej; bool_to_prop; try done; lia.
  - intros i Hi. destruct (lookup_lt_is_Some_2 _ _ Hi) as [x Hx]. rewrite Hx. cbn [expect obind].
    by rewrite (app_lookup_cmp a b before i x Ha Hb Hx).
  - cbn [obind]. destruct r as [i|p]; cbn [found_at] in Hr; [by destruct Hr, (i <? length a)|].
    destruct Hr as (Hp & Hlt & Hgt). f_equal. rewrite length_app in *.
    destruct (Nat.lt_trichotomy p (length a)) as [Hc|[Hc|Hc]]; [|done|].
    + specialize (Hgt p ltac:(lia)). by rewrite (proj2 (Nat.ltb_lt _ _)) in Hgt.
    + specialize (Hlt (length a) ltac:(lia)). by rewrite Nat.ltb_irrefl in Hlt.
Qed.

Lemma gallop_loop_ok {A} fuel (a b : list A) before low step :
  Forall (fun x => before x = true) a -> Forall (fun x => before x = false) b ->
  0 < step -> low <= length a -> length (a ++ b) - low <= fuel ->
  exists low' step', gallop_loop fuel (a ++ b) before low step = Ok (low', step') /\
    low' <= length a /\ Nat.min (low' + step') (length (a ++ b)) >= length a.
Proof.
  intros Ha Hb. revert low step. induction fuel as [|fuel IH]; intros low step Hs Hl Hf; cbn [gallop_loop];
    (destruct (low + step <=? length (a ++ b)) eqn:E; bool_to_prop;
      [|exists low, step; rewrite length_app in *; split_and!; [done|done|lia]]);
    (destruct (lookup_lt_is_Some_2 (a ++ b) (low + step - 1)) as [x Hx]; [lia|]; rewrite Hx; cbn [expect obind];
     rewrite (app_lookup_cmp a b before _ x Ha Hb Hx);
     destruct (low + step - 1 <? length a) eqn:E2; bool_to_prop).
  - lia.
  - exists low, step. rewrite length_app in *. split_and!; [done|done|lia].
  - apply IH; lia.
  - exists low, step. rewrite length_app in *. split_and!; [done|done|lia].
Qed.

(** The exponential search finds the partition point. *)
Lemma gallop_ok {A} (a b : list A) before :
  Forall (fun x => before x = true) a -> Forall (fun x => before x = false) b ->
  gallop (a ++ b) before = Ok (length a).
Proof.
  intros Ha Hb. unfold gallop.
  destruct (gallop_loop_ok (length (a ++ b)) a b before 0 1) as (low & step & -> & Hl & Hh); [done|done|lia|lia|lia|].
  cbn [obind]. set (high := Nat.min (low + step) (length (a ++ b))) in *.
  rewrite slice_Ok by lia. cbn [obind].
  replace (take (high - low) (drop low (a ++ b))) with (drop low a ++ take (high - length a) b).
  2:{ rewrite drop_app_le, take_app_ge by (rewrite ?length_drop; lia). f_equal. f_equal. rewrite length_drop. lia. }
  rewrite partition_point_ok by (by apply Forall_drop || by apply Forall_take). cbn [obind]. f_equal.
  rewrite length_drop. lia.
Qed.

(** A sorted list is partitioned by any threshold. *)
Fixpoint drop_below {A} (key : A -> Z) (target : Z) (l : list A) : list A :=
  match l with
  | [] => []
  | x :: r => if (key x <? target)%Z then drop_below key target r else l
  end.

Fixpoint take_below {A} (key : A -> Z) (target : Z) (l : list A) : list A :=
  match l with
  | [] => []
  | x :: r => if (key x <? target)%Z then x :: take_below key target r else []
  end.

Lemma take_drop_below {A} (key : A -> Z) target l : take_below key target l ++ drop_below key target l = l.
Proof. induction l as [|x l IH]; simpl; [done|]. destruct (key x <? target)%Z; simpl; [by rewrite IH|done]. Qed.

Lemma take_below_all {A} (key : A -> Z) target l : Forall (fun x => (key x <? target)%Z = true) (take_below key target l).
Proof. induction l as [|x l IH]; simpl; [done|]. destruct (key x <? target)%Z eqn:E; by constructor. Qed.

Lemma drop_below_none {A} (key : A -> Z) target l :
  StronglySorted Z.lt (map key l) -> Forall (fun x => (key x <? target)%Z = false) (drop_below key target l).
Proof.
  induction l as [|x l IH]; simpl; [done|]. intros H. inversion H as [|?? H1 H2]; subst.
  destruct (key x <? target)%Z eqn:E; [auto|]. constructor; [done|]. bool_to_prop.
  apply Forall_forall. intros y Hy. rewrite Forall_forall in H2. apply Z.ltb_ge.
  specialize (H2 (key y) ltac:(apply list_elem_of_fmap; by exists y)). lia.
Qed.

Lemma gallop_sorted {A} (key : A -> Z) target l :
  StronglySorted Z.lt (map key l) ->
  gallop l (fun x => key x <? target)%Z = Ok (length (take_below key target l)).
Proof.
  intros Hs. rewrite <- (take_drop_below key target l) at 1.
  apply gallop_ok; [apply take_below_all|by apply drop_below_none].
Qed.

Lemma partition_point_sorted {A} (key : A -> Z) target l :
  StronglySorted Z.lt (map key l) ->
  partition_point l (fun x => key x <? target)%Z = Ok (length (take_below key target l)).
Proof.
  intros Hs. rewrite <- (take_drop_below key target l) at 1.
  apply partition_point_ok; [apply take_below_all|by apply drop_below_none].
Qed.

Lemma drop_take_below {A} (key : A -> Z) target l : drop (length (take_below key target l)) l = drop_below key target l.
Proof. rewrite <- (take_drop_below key target l) at 2. by rewrite drop_app_length. Qed.

Lemma drop_below_app {A} (key : A -> Z) target a b :
  Forall (fun x => key x < target)%Z a -> drop_below key target (a ++ b) = drop_below key target b.
Proof. induction 1 as [|x a Hx Ha IH]; simpl; [done|]. by rewrite (proj2 (Z.ltb_lt _ _)). Qed.

Lemma drop_below_id {A} (key : A -> Z) target l :
  (forall x, head l = Some x -> target <= key x)%Z -> drop_below key target l = l.
Proof. destruct l as [|x l]; simpl; [done|]. intros H. by rewrite (proj2 (Z.ltb_ge _ _)) by auto. Qed.

(** ** What a cursor has still to visit *)

(** The postings of the groups with their ordinals, in order. *)
Definition entries (g : group) : list (Posting * Z) := zip g.1 g.2.
Definition flat (gs : list group) : list (Posting * Z) := concat (map entries gs).
Definition slot_of (e : Posting * Z) : Z := e.1.1.

(** A list whose blocks are the groups and whose slots ascend over all of them. *)
Record list_repr (l : PostingList) (gs : list group) : Prop := {
  lr_blocks : blocks_repr l gs;
  lr_sorted : StronglySorted Z.lt (map slot_of (flat gs)) }.

Section CursorSpec.
Context (l : PostingList) (gs : list group) (Hl : list_repr l gs).

Record cursor_in (c : PostingCursor) (i j : nat) (g : group) : Prop := {
  ci_block : c_block c = i;
  ci_index : c_index c = j;
  ci_length : c_length c = length g.1;
  ci_inside : j < length g.1;
  ci_array : length (c_decoded c) = BLOCK_LEN;
  ci_first : c_decoded c !! 0 = head g.1;
  ci_filled : c_filled c = true -> take (length g.1) (c_decoded c) = g.1;
  ci_unfilled : c_filled c = false -> j = 0 }.

(** The cursor stands at posting [j] of block [i], or past the last block. *)
Definition cursor_at (c : PostingCursor) (r : list (Posting * Z)) : Prop :=
  (exists i j g, gs !! i = Some g /\ cursor_in c i j g /\ r = drop j (entries g) ++ flat (drop (S i) gs)) \/
  (gs !! c_block c = None /\ c_index c = 0 /\ c_length c = 0 /\ length (c_decoded c) = BLOCK_LEN /\ r = []).

Lemma entries_length g : group_ok g -> length (entries g) = length g.1.
Proof. intros H. unfold entries. rewrite length_zip_with, (go_ordinals _ H). lia. Qed.

Lemma entries_fst g : group_ok g -> map fst (entries g) = g.1.
Proof. intros H. unfold entries. apply fst_zip. rewrite (go_ordinals _ H). lia. Qed.

Lemma group_at i g : gs !! i = Some g -> group_ok g.
Proof. intros Hi. pose proof (br_groups _ _ (lr_blocks _ _ Hl)) as H. rewrite Forall_lookup in H. eauto. Qed.

Lemma flat_drop i g : gs !! i = Some g -> flat (drop i gs) = entries g ++ flat (drop (S i) gs).
Proof. intros Hi. by rewrite (drop_S _ _ _ Hi). Qed.

Lemma cursor_in_lookup c i j g : gs !! i = Some g -> cursor_in c i j g -> c_decoded c !! j = g.1 !! j.
Proof.
  intros Hi H. destruct (c_filled c) eqn:E.
  - transitivity (take (length g.1) (c_decoded c) !! j); [|by rewrite (ci_filled _ _ _ _ H E)].
    by rewrite lookup_take_lt by apply H.
  - rewrite (ci_unfilled _ _ _ _ H E), (ci_first _ _ _ _ H). by destruct g.1.
Qed.

Lemma load_ok c i :
  length (c_decoded c) = BLOCK_LEN -> exists c', load l c i = Ok c' /\ cursor_at c' (flat (drop i gs)) /\ c_index c' = 0.
Proof.
  intros Ha. unfold load. destruct (gs !! i) as [g|] eqn:Hi.
  - destruct (decode_block_ok l gs i g (lr_blocks _ _ Hl) Hi) as (b & Hb & Hh & _ & _ & _ & Hff & _).
    rewrite Hb. pose proof (group_at i g Hi) as Hg.
    destruct (head g.1) as [p|] eqn:Hp; [|destruct g.1 eqn:E; [by destruct (go_nonempty _ Hg)|done]].
    rewrite (Hff p) by done. cbn [obind]. eexists. split; [done|]. split; [|done].
    left. exists i, 0, g. split; [done|]. rewrite (flat_drop i g Hi), drop_0. split; [|done].
    split; simpl; try done.
    + by rewrite Hh.
    + destruct g.1; [done|simpl; lia].
    + by rewrite length_insert.
    + rewrite list_lookup_insert_eq by (rewrite Ha; vm_compute; lia). rewrite Hp, Hh. simpl.
      destruct g.1 as [|p' r]; simplify_eq/=. by destruct p.
  - rewrite (blocks_repr_None l gs i (lr_blocks _ _ Hl) Hi). eexists. split; [done|]. split; [|done].
    right. simpl. split_and!; try done. rewrite drop_ge; [done|]. by apply lookup_ge_None.
Qed.

Lemma cursor_new_ok : exists c, cursor_new l = Ok c /\ cursor_at c (flat gs).
Proof.
  unfold cursor_new. destruct (load_ok {| c_block := 0; c_index := 0; c_decoded := replicate BLOCK_LEN (0, 0)%Z;
    c_length := 0; c_filled := false |} 0) as (c & Hc & Hat & _); [done|]. exists c. by rewrite drop_0 in Hat.
Qed.

Lemma cursor_in_filled c i j g : gs !! i = Some g -> cursor_in c i j g ->
  exists c', fill l c = Ok c' /\ c_filled c' = true /\ cursor_in c' i j g.
Proof.
  intros Hi H. unfold fill. destruct (c_filled c) eqn:E; [eauto|].
  destruct (decode_block_ok l gs i g (lr_blocks _ _ Hl) Hi) as (b & Hb & Hh & Hd & _).
  rewrite (ci_block _ _ _ _ H), Hd. cbn [obind]. eexists. split; [done|]. split; [done|].
  pose proof (group_at i g Hi) as Hg. pose proof (go_length _ Hg) as Hlen.
  destruct H. split; simpl; try done.
  - rewrite splice_length; [done|]. rewrite ci_array0. lia.
  - unfold splice. rewrite take_0. simpl. destruct g.1 eqn:E2; [by destruct (go_nonempty _ Hg)|done].
  - intros _. unfold splice. rewrite take_0. simpl. by rewrite take_app_length.
Qed.

Lemma peek_ok c r : cursor_at c r -> peek c = Ok (fst <$> head r).
Proof.
  unfold peek. intros [(i & j & g & Hi & H & ->)|(Hn & Hx & Hlen & Ha & ->)].
  - pose proof (group_at i g Hi) as Hg.
    rewrite (ci_length _ _ _ _ H), (ci_index _ _ _ _ H), (proj2 (Nat.ltb_lt _ _)) by apply H.
    rewrite (cursor_in_lookup c i j g Hi H).
    destruct (lookup_lt_is_Some_2 g.1 j) as [p Hp]; [apply H|]. rewrite Hp. cbn [expect obind].
    destruct (lookup_lt_is_Some_2 (entries g) j) as [e He]; [rewrite entries_length by done; apply H|].
    rewrite (drop_S _ _ _ He). simpl. f_equal. f_equal.
    pose proof (entries_fst g Hg) as Hfst. rewrite <- Hfst, list_lookup_fmap, He in Hp. by simplify_eq/=.
  - by rewrite Hlen, Hx.
Qed.

Lemma or_bytes_spec part k v :
  or_bytes part k v = Z.lor v (Z.shiftl (from_le_bytes part) (Z.of_nat (k * 8))).
Proof.
  revert k v. induction part as [|b part IH]; intros k v; simpl; [by rewrite Z.shiftl_0_l, Z.lor_0_r|].
  rewrite IH, Z.shiftl_lor, Z.shiftl_shiftl, Z.lor_assoc by lia. do 2 f_equal. lia.
Qed.

Lemma ordinal_ok c e r : cursor_at c (e :: r) -> cursor_ordinal l c = Ok e.2.
Proof.
  intros [(i & j & g & Hi & H & Hr)|(_ & _ & _ & _ & Hr)]; [|done].
  destruct (decode_block_ok l gs i g (lr_blocks _ _ Hl) Hi) as (b & Hb & Hh & _ & _ & _ & _ & Hob).
  pose proof (group_at i g Hi) as Hg. pose proof (ci_inside _ _ _ _ H) as Hj.
  assert (Hv : g.2 !! j = Some e.2).
  { destruct (lookup_lt_is_Some_2 (entries g) j) as [e' He]; [by rewrite entries_length|].
    rewrite (drop_S _ _ _ He) in Hr. simplify_eq/=. unfold entries in He.
    apply lookup_zip_with_Some in He as (x & y & -> & _ & Hy). done. }
  unfold cursor_ordinal. rewrite (ci_block _ _ _ _ H), (ci_index _ _ _ _ H), Hb. cbn [expect obind].
  rewrite Hob. cbn [obind]. replace (b_ordinal_bits b) with (width g.2) by (by rewrite Hh).
  pose proof (col_u32 _ (go_ordinal_u32 _ Hg)) as Hc.
  pose proof (width_le g.2 Hc) as Hw. pose proof (width_fits g.2 Hc) as Hfit. set (bits := width g.2) in *.
  assert (Hhold : bits * S j <= 8 * length (column g.2)).
  { pose proof (pack_holds bits g.2 [] Hw Hfit) as Hh2. rewrite app_nil_r in Hh2. fold (column g.2) in Hh2.
    pose proof (lookup_lt_Some _ _ _ Hv). unfold column. fold bits. nia. }
  pose proof (index_split bits j) as Hsplit. set (start := j * bits / 8) in *. set (shift := (j * bits) mod 8) in *.
  assert (Hend : div_ceil (j * bits + bits) 8 = start + div_ceil (shift + bits) 8).
  { replace (j * bits + bits) with (start * 8 + (shift + bits)) by lia. by rewrite div_ceil_add_mul by lia. }
  rewrite Hend. pose proof (div_ceil_8_bits (shift + bits)) as Hsz. set (size := div_ceil (shift + bits) 8) in *.
  assert (Hin : start + size <= length (column g.2)).
  { assert (size <= length (column g.2) - start); [|lia]. apply div_ceil_le; lia. }
  rewrite slice_Ok by lia. cbn [obind]. replace (start + size - start) with size by lia.
  rewrite or_bytes_spec, Z.lor_0_l, Nat.mul_0_l, Z.shiftl_0_r.
  rewrite (word_digit bits (from_le_bytes (column g.2)) _ start shift (8 * size) j) by (auto using slice_word, column_bytes).
  unfold column. fold bits. rewrite <- (app_nil_r (pack g.2 bits)), (digit_pack bits g.2 [] j e.2) by done.
  rewrite wrap_small; [done|]. pose proof (go_ordinal_u32 _ Hg) as Hu. rewrite Forall_lookup in Hu. exact (Hu j _ Hv).
Qed.

Lemma set_index_in c i j j' g :
  cursor_in c i j g -> c_filled c = true -> j' < length g.1 -> cursor_in (set_index c j') i j' g.
Proof. intros [] Hf Hj. split; simpl; try done. congruence. Qed.

Lemma cursor_next_ok c r :
  cursor_at c r -> exists c', cursor_next l c = Ok (c', fst <$> head r) /\ cursor_at c' (tail r).
Proof.
  intros Hc. unfold cursor_next. rewrite (peek_ok c r Hc). cbn [obind].
  destruct Hc as [(i & j & g & Hi & H & ->)|Hend].
  2:{ destruct Hend as (Hn & Hx & Hlen & Ha & ->). exists c. split; [done|]. right. done. }
  pose proof (group_at i g Hi) as Hg. pose proof (ci_inside _ _ _ _ H) as Hj.
  destruct (lookup_lt_is_Some_2 (entries g) j) as [e He]; [by rewrite entries_length|].
  rewrite (drop_S _ _ _ He). cbn [head app fmap option_fmap option_map tail].
  cbn [set_index c_index c_length c_block]. rewrite (ci_index _ _ _ _ H), (ci_length _ _ _ _ H), (ci_block _ _ _ _ H), Nat.add_1_r.
  destruct (Nat.eqb (S j) (length g.1)) eqn:E; bool_to_prop.
  - destruct (load_ok (set_index c (S j)) (i + 1)) as (c' & Hc' & Hat & _); [apply H|].
    rewrite Hc'. cbn [obind]. exists c'. split; [done|].
    rewrite (drop_ge (entries g)) by (rewrite entries_length by done; lia). by rewrite Nat.add_1_r in Hat.
  - unfold fill. cbn [set_index c_filled].
    destruct (cursor_in_filled c i j g Hi H) as (c1 & Hfill & Hf & Hin). unfold fill in Hfill.
    destruct (c_filled c) eqn:Ef.
    + injection Hfill as <-. eexists. split; [done|]. left. exists i, (S j), g. split; [done|]. split; [|done].
      apply (set_index_in c i j); [done|done|lia].
    + cbn [set_index c_block c_index c_decoded c_length]. destruct (decode_block l (c_block c)) as [ps| |]; try done.
      cbn [obind] in *. injection Hfill as <-. eexists. split; [done|]. left. exists i, (S j), g. split; [done|]. split; [|done].
      apply (set_index_in _ i j (S j) g) in Hin; [exact Hin|done|lia].
Qed.

Lemma collect_ok fuel c r : cursor_at c r -> length r < fuel -> collect l fuel c = Ok (map fst r).
Proof.
  revert c r. induction fuel as [|fuel IH]; intros c r Hc Hf; [lia|]. cbn [collect].
  destruct (cursor_next_ok c r Hc) as (c' & -> & Hc'). cbn [obind].
  destruct r as [|e r]; simpl in *; [done|]. rewrite (IH c' r Hc') by lia. done.
Qed.

Lemma flat_length : length (flat gs) = posting_total l.
Proof.
  unfold posting_total. pose proof (lr_blocks _ _ Hl) as [Hg _ Hb]. clear Hl. revert Hb. generalize 0.
  generalize (pl_blocks l). induction gs as [|g hs IH]; intros bs off Hb; [by destruct bs|].
  apply blocks_at_cons in Hb as (b & bs' & -> & Hh & Hb). inversion Hg as [|?? Hg1 Hg2]; subst.
  unfold flat. simpl. rewrite length_app, entries_length by done. fold (flat hs). rewrite (IH Hg2 _ _ Hb).
  f_equal. by rewrite Hh.
Qed.

Lemma decode_ok : decode l = Ok (map fst (flat gs)).
Proof.
  unfold decode. destruct cursor_new_ok as (c & -> & Hc). cbn [obind]. apply collect_ok; [done|].
  rewrite flat_length. lia.
Qed.

(** *** Advancing to a slot *)

Definition last_slot (g : group) : Z := default 0%Z (last (map fst g.1)).

Lemma slot_of_entries g : group_ok g -> map slot_of (entries g) = map fst g.1.
Proof. intros H. transitivity (map fst (map fst (entries g))); [by rewrite map_map|by rewrite entries_fst]. Qed.

Lemma last_slot_in g : group_ok g -> last_slot g ∈ map slot_of (entries g).
Proof.
  intros H. rewrite slot_of_entries by done. unfold last_slot.
  destruct (last (map fst g.1)) as [s|] eqn:E; [by apply last_Some_elem_of|].
  apply last_None in E. apply map_eq_nil in E. by destruct (go_nonempty _ H).
Qed.

Lemma last_slot_max g : group_ok g -> Forall (fun e => slot_of e <= last_slot g)%Z (entries g).
Proof.
  intros H. apply Forall_forall. intros e He.
  assert (Hs : slot_of e ∈ map fst g.1) by (rewrite <- slot_of_entries by done; apply list_elem_of_fmap; by exists e).
  pose proof (go_sorted _ H) as Hso. unfold last_slot.
  revert Hs. induction Hso as [|x r Hr IH Hx]; intros Hs; [by apply elem_of_nil in Hs|].
  destruct r as [|y r]; [apply list_elem_of_singleton in Hs; simpl; lia|].
  apply elem_of_cons in Hs as [Hs|Hs]; [|by apply IH].
  change (last (x :: y :: r)) with (last (y :: r)). rewrite Forall_forall in Hx.
  destruct (last (y :: r)) as [z|] eqn:E; [|by apply last_None in E].
  specialize (Hx z (last_Some_elem_of _ _ E)). simpl. lia.
Qed.

Lemma blocks_last off hs bs : blocks_at off hs bs -> map b_last bs = map last_slot hs.
Proof.
  revert off bs. induction hs as [|g hs IH]; intros off [|b bs]; simpl; try done.
  intros [Hh H]. f_equal; [by rewrite Hh|eauto].
Qed.

Lemma lasts_sorted hs :
  Forall group_ok hs -> StronglySorted Z.lt (map slot_of (flat hs)) -> StronglySorted Z.lt (map last_slot hs).
Proof.
  induction 1 as [|g hs Hg Hhs IH]; intros Hs; simpl; [constructor|].
  unfold flat in Hs. simpl in Hs. rewrite map_app in Hs. apply StronglySorted_app in Hs as (Hx & _ & Hs).
  constructor; [by apply IH|]. apply Forall_forall. intros y [h [-> Hh]]%list_elem_of_fmap.
  apply Hx; [by apply last_slot_in|]. rewrite Forall_forall in Hhs.
  pose proof (last_slot_in h (Hhs h Hh)) as Hin. apply list_elem_of_fmap in Hin as (e & -> & He).
  apply list_elem_of_fmap. exists e. split; [done|]. apply list_elem_of_In, in_concat.
  exists (entries h). rewrite <- !list_elem_of_In. split; [|done]. apply list_elem_of_fmap. by exists h.
Qed.

Lemma take_below_keys {A B} (k1 : A -> Z) (k2 : B -> Z) target xs ys :
  map k1 xs = map k2 ys -> length (take_below k1 target xs) = length (take_below k2 target ys).
Proof.
  revert ys. induction xs as [|x xs IH]; intros [|y ys] H; simplify_eq/=; [done|].
  match goal with E : k1 x = k2 y |- _ => rewrite E end. destruct (k2 y <? target)%Z; simpl; auto.
Qed.

Lemma flat_skip target hs :
  Forall group_ok hs ->
  drop_below slot_of target (flat hs) = drop_below slot_of target (flat (drop (length (take_below last_slot target hs)) hs)).
Proof.
  induction 1 as [|g hs Hg Hhs IH]; simpl; [done|]. destruct (last_slot g <? target)%Z eqn:E; [|done]. bool_to_prop. simpl.
  unfold flat at 1. simpl. rewrite drop_below_app; [exact IH|].
  eapply Forall_impl; [apply (last_slot_max g Hg)|]. simpl. lia.
Qed.

Lemma drop_below_app_last target (a b : list (Posting * Z)) :
  (exists e, e ∈ a /\ (target <= slot_of e)%Z) -> drop_below slot_of target (a ++ b) = drop_below slot_of target a ++ b.
Proof.
  intros (e & He & Ht). induction a as [|x a IH]; [by apply elem_of_nil in He|]. simpl.
  destruct (slot_of x <? target)%Z eqn:E; [|done]. bool_to_prop.
  apply elem_of_cons in He as [->|He]; [lia|auto].
Qed.

(** Inside a block that reaches the target. *)
Lemma settle_ok c i j g target :
  gs !! i = Some g -> cursor_in c i j g -> (target <= last_slot g)%Z ->
  let r := drop_below slot_of target (drop j (entries g) ++ flat (drop (S i) gs)) in
  exists c', (let* c := fill l c in
              let* part := slice (c_decoded c) (c_index c) (c_length c) in
              let* n := gallop part (fun p => p.1 <? target)%Z in
              let c := set_index c (c_index c + n) in
              let* p := peek c in
              Ok (c, p)) = Ok (c', fst <$> head r) /\ cursor_at c' r.
Proof.
  intros Hi Hc Ht r. pose proof (group_at i g Hi) as Hg. pose proof (go_length _ Hg) as Hlen.
  destruct (cursor_in_filled c i j g Hi Hc) as (c1 & -> & Hf & H1). cbn [obind].
  rewrite (ci_index _ _ _ _ H1), (ci_length _ _ _ _ H1). pose proof (ci_inside _ _ _ _ H1) as Hj.
  rewrite slice_Ok by (rewrite ?(ci_array _ _ _ _ H1); lia). cbn [obind].
  assert (Hpart : take (length g.1 - j) (drop j (c_decoded c1)) = drop j g.1).
  { rewrite <- skipn_firstn_comm. by rewrite (ci_filled _ _ _ _ H1 Hf). }
  rewrite Hpart. assert (Hsort : StronglySorted Z.lt (map fst (drop j g.1))).
  { rewrite <- drop_fmap || rewrite <- skipn_map. pose proof (go_sorted _ Hg) as Hso.
    rewrite <- (take_drop j (map fst g.1)) in Hso. by apply StronglySorted_app in Hso as (_ & _ & ?). }
  rewrite (gallop_sorted fst target _ Hsort). cbn [obind].
  set (n := length (take_below fst target (drop j g.1))).
  assert (Hn : n = length (take_below slot_of target (drop j (entries g)))).
  { apply take_below_keys. rewrite <- !skipn_map. by rewrite slot_of_entries. }
  assert (Hlast : exists e, e ∈ drop j (entries g) /\ (target <= slot_of e)%Z).
  { destruct (last (entries g)) as [e|] eqn:El.
    - exists e. split.
      + apply last_Some_elem_of. rewrite <- (take_drop j (entries g)), last_app in El.
        destruct (last (drop j (entries g))) eqn:E; [done|]. apply last_None in E.
        apply (f_equal length) in E. rewrite length_drop, entries_length in E by done. simpl in E. lia.
      + pose proof (fmap_last slot_of (entries g)) as Hm. rewrite El in Hm. simpl in Hm.
        change (slot_of <$> entries g) with (map slot_of (entries g)) in Hm. rewrite slot_of_entries in Hm by done.
        unfold last_slot in Ht. rewrite Hm in Ht. exact Ht.
    - apply last_None in El. pose proof (entries_length g Hg) as He. rewrite El in He. simpl in He. lia. }
  assert (Hr : r = drop (j + n) (entries g) ++ flat (drop (S i) gs)).
  { unfold r. rewrite drop_below_app_last by done. f_equal. rewrite <- (drop_take_below slot_of target). rewrite drop_drop. by rewrite Hn. }
  assert (Hjn : j + n < length g.1).
  { destruct (decide (j + n < length g.1)) as [|Hge]; [done|exfalso].
    destruct Hlast as (e & He & Hte). rewrite <- (take_drop_below slot_of target (drop j (entries g))) in He.
    rewrite <- drop_take_below, <- Hn, drop_drop in He. rewrite (drop_ge _ (j + n)) in He by (rewrite entries_length by done; lia).
    rewrite app_nil_r in He. pose proof (take_below_all slot_of target (drop j (entries g))) as Hall.
    rewrite Forall_forall in Hall. specialize (Hall e He). simpl in Hall. apply Z.ltb_lt in Hall. lia. }
  assert (Hat : cursor_at (set_index c1 (j + n)) r).
  { left. exists i, (j + n), g. split; [done|]. split; [by eapply set_index_in|done]. }
  rewrite (peek_ok _ _ Hat). eexists. split; [done|]. exact Hat.
Qed.

(** The cursor moves to the first posting at or after the target. *)
Lemma advance_ok c r target :
  cursor_at c r ->
  exists c', advance l c target = Ok (c', fst <$> head (drop_below slot_of target r)) /\
    cursor_at c' (drop_below slot_of target r).
Proof.
  intros Hc. unfold advance. rewrite (peek_ok c r Hc). cbn [obind]. destruct r as [|e r0].
  { cbn [head fmap option_fmap option_map drop_below]. eauto. }
  cbn [head fmap option_fmap option_map]. destruct (target <=? e.1.1)%Z eqn:Ee; bool_to_prop.
  { exists c. cbn [drop_below]. unfold slot_of. rewrite (proj2 (Z.ltb_ge _ _)) by done. done. }
  destruct Hc as [(i & j & g & Hi & Hin & Hr)|(_ & _ & _ & _ & ?)]; [|done].
  pose proof (group_at i g Hi) as Hg. pose proof (lr_blocks _ _ Hl) as Hbr. pose proof (br_groups _ _ Hbr) as Hgs.
  pose proof (ci_inside _ _ _ _ Hin) as Hj.
  destruct (decode_block_ok l gs i g Hbr Hi) as (b & Hb & Hh & _).
  unfold locate. rewrite (ci_length _ _ _ _ Hin), (ci_index _ _ _ _ Hin), (proj2 (Nat.leb_gt _ _)) by done.
  rewrite (ci_block _ _ _ _ Hin), Hb. cbn [expect obind].
  assert (Hbl : b_last b = last_slot g) by (by rewrite Hh). rewrite Hbl.
  destruct (last_slot g <? target)%Z eqn:El; bool_to_prop.
  - pose proof (lookup_lt_Some _ _ _ Hb) as Hlt. rewrite Nat.add_1_r, slice_Ok by lia. cbn [obind].
    rewrite take_ge by (rewrite length_drop; lia).
    assert (Hkeys : map b_last (drop (S i) (pl_blocks l)) = map last_slot (drop (S i) gs)).
    { rewrite <- !skipn_map. by rewrite (blocks_last 0 gs) by apply Hbr. }
    assert (Hflat : flat (drop i gs) = entries g ++ flat (drop (S i) gs)) by (by apply flat_drop).
    rewrite (gallop_sorted b_last).
    2:{ rewrite Hkeys, <- skipn_map. pose proof (lasts_sorted gs Hgs (lr_sorted _ _ Hl)) as Hls.
        rewrite <- (take_drop (S i) (map last_slot gs)) in Hls. by apply StronglySorted_app in Hls as (_ & _ & ?). }
    cbn [obind]. rewrite (take_below_keys b_last last_slot target _ _ Hkeys).
    set (n := length (take_below last_slot target (drop (S i) gs))).
    destruct (load_ok c (S i + n)) as (c1 & Hload & Hat & Hx); [apply Hin|]. rewrite Hload. cbn [obind].
    assert (Hr' : drop_below slot_of target (e :: r0) = drop_below slot_of target (flat (drop (S i + n) gs))).
    { rewrite Hr, drop_below_app.
      - rewrite (flat_skip target (drop (S i) gs)) by (by apply Forall_drop). fold n. by rewrite drop_drop.
      - apply Forall_drop. eapply Forall_impl; [apply (last_slot_max g Hg)|]. simpl. lia. }
    rewrite Hr'. destruct Hat as [(k & j' & g' & Hk & Hin' & Hr1)|(Hn & Hi0 & Hl0 & Ha0 & Hr1)].
    + pose proof (group_at k g' Hk) as Hg'. rewrite (ci_index _ _ _ _ Hin') in Hx. subst j'.
      rewrite (ci_length _ _ _ _ Hin'), (proj2 (Nat.ltb_lt _ _)) by (pose proof (ci_inside _ _ _ _ Hin'); lia).
      pose proof (ci_first _ _ _ _ Hin') as Hfirst. destruct (entries g') as [|e' re] eqn:Een.
      { pose proof (entries_length g' Hg') as Hz. rewrite Een in Hz. pose proof (ci_inside _ _ _ _ Hin'). simpl in Hz. lia. }
      assert (Hhead : head g'.1 = Some e'.1) by (rewrite <- (entries_fst g' Hg'), Een; done).
      rewrite Hhead in Hfirst. rewrite Hfirst. cbn [expect obind]. rewrite (ci_index _ _ _ _ Hin'). rewrite Hr1, drop_0.
      assert (Hat1 : cursor_at c1 (flat (drop (S i + n) gs))).
      { left. exists k, 0, g'. rewrite Een, drop_0. rewrite drop_0 in Hr1. done. }
      destruct (target <=? e'.1.1)%Z eqn:Et; bool_to_prop; cbn [andb Nat.eqb].
      * rewrite (peek_ok _ _ Hat1). rewrite Hr1, drop_0. cbn [obind].
        assert (Hid : drop_below slot_of target ((e' :: re) ++ flat (drop (S k) gs)) = (e' :: re) ++ flat (drop (S k) gs)).
        { apply drop_below_id. intros x [= <-]. exact Et. }
        rewrite Hid. exists c1. split; [done|]. rewrite Hr1, drop_0 in Hat1. exact Hat1.
      * rewrite <- Een. replace (entries g') with (drop 0 (entries g')) by apply drop_0. apply settle_ok; [done|done|].
        assert (Hkn : k = S i + n).
        { unfold load in Hload. destruct (pl_blocks l !! (S i + n)); [destruct (first_frequency l b0); try done|];
            cbn [obind] in Hload; injection Hload as <-; by rewrite <- (ci_block _ _ _ _ Hin'). }
        pose proof (lasts_sorted gs Hgs (lr_sorted _ _ Hl)) as Hls.
        rewrite <- (take_drop (S i) gs), map_app in Hls. apply StronglySorted_app in Hls as (_ & _ & Hls).
        pose proof (drop_below_none last_slot target _ Hls) as Hnb. rewrite <- drop_take_below in Hnb. fold n in Hnb.
        rewrite drop_drop, <- Hkn, (drop_S _ _ _ Hk) in Hnb. apply Forall_cons in Hnb as [Hnb _]. by apply Z.ltb_ge in Hnb.
    + rewrite Hl0. cbn [Nat.ltb Nat.leb]. cbn [obind].
      assert (Hat1 : cursor_at c1 []) by (right; done). rewrite (peek_ok _ _ Hat1). cbn [obind]. rewrite Hr1. simpl. eauto.
  - cbn [obind]. rewrite (ci_length _ _ _ _ Hin), (proj2 (Nat.ltb_lt _ _)) by lia.
    destruct (lookup_lt_is_Some_2 (c_decoded c) 0) as [p0 Hp0]; [rewrite (ci_array _ _ _ _ Hin); vm_compute; lia|].
    rewrite Hp0. cbn [expect obind]. rewrite (ci_index _ _ _ _ Hin).
    assert (Hstop : (target <=? p0.1)%Z && Nat.eqb j 0 = false).
    { destruct j as [|j]; [|by rewrite andb_false_r]. rewrite andb_true_r. apply Z.leb_gt.
      rewrite (ci_first _ _ _ _ Hin) in Hp0. pose proof (entries_fst g Hg) as Hf. rewrite drop_0 in Hr.
      destruct (entries g) as [|e' re] eqn:Een; [pose proof (entries_length g Hg) as Hz; rewrite Een in Hz; simpl in Hz; lia|].
      simplify_eq/=. rewrite <- Hf in Hp0. simpl in Hp0. simplify_eq. lia. }
    rewrite Hstop, Hr. by apply settle_ok.
Qed.
End CursorSpec.
