(* ===== verification/PostingEdit.v ===== *)
(** * Edits of posting lists

    [encode], [append_run], [insert], [remove], [set_entry], [rewrite_block] and
    [invalidate_length] of [PostingList] in [src/core/documents/postings.rs].  A list refines a
    finite map from slots to (frequency, ordinal); every edit keeps the blocks sorted, at least a
    quarter full and correctly bounded. *)

From S2P Require Import Prelude Words BitPack Search Positions Terms Postings Cursor.

Section Edit.
(** The length of the document at a slot. *)
Context (words : Z -> Z).

(** [chunks(size)] appended block by block; [ordinals_at] reads the ordinals of a range. *)
Fixpoint append_chunks (fuel : nat) (l : PostingList) (size : nat) (ps : list Posting)
    (ordinals_at : nat -> nat -> outcome (list Z)) (start : nat) : outcome PostingList :=
  match ps, fuel with
  | [], _ => Ok l
  | _, O => Panic
  | _, S fuel =>
      let run := take size ps in
      let* ordinals := ordinals_at start (start + length run) in
      let* front := frontier (points_of words run) in
      let* l := append_block l run ordinals (least_length words run) front in
      append_chunks fuel l size (drop size ps) ordinals_at (start + size)
  end.

(** [ordinals.get(a..b).unwrap_or(&[])]. *)
Definition ordinals_or_none (ordinals : list Z) (a b : nat) : outcome (list Z) :=
  Ok (default [] (get_range ordinals a b)).

Definition positive (ps : list Posting) : Z := Z.of_nat (length (filter (fun p => 0 < p.2)%Z ps)).

Definition last_or_zero (ps : list Posting) : Z := match last ps with Some p => p.1 | None => 0 end.

Definition to_u32 (n : Z) : outcome Z := if (n <? U32)%Z then Ok n else Panic.

Definition encode_with_ordinals (l : PostingList) (ps : list Posting) (ordinals : list Z) : outcome PostingList :=
  if Nat.eqb (length ordinals) 0 || Nat.eqb (length ordinals) (length ps) then
    let l := touch (set_blocks l [] []) in
    let* l := append_chunks (length ps) l BLOCK_LEN ps (ordinals_or_none ordinals) 0 in
    let* count := to_u32 (Z.of_nat (length ps)) in
    Ok (set_counts l count (positive ps) (last_or_zero ps))
  else Panic.

Definition encode (l : PostingList) (ps : list Posting) : outcome PostingList := encode_with_ordinals l ps [].

(** [binary_search_by_key(&slot, |p| p.0)]. *)
Definition search_slot (ps : list Posting) (slot : Z) : outcome (nat + nat) :=
  search (length ps) (fun i => let* p := expect (ps !! i) in Ok (p.1 ?= slot)%Z).

Definition found {A B} (r : A + B) : outcome A := match r with inl a => Ok a | inr _ => Panic end.

Definition shift_offset (removed added : nat) (b : Block) : Block :=
  {| b_offset := b_offset b - removed + added; b_first := b_first b; b_last := b_last b;
     b_count := b_count b; b_doc_bits := b_doc_bits b; b_frequency_bits := b_frequency_bits b;
     b_ordinal_bits := b_ordinal_bits b; b_max_frequency := b_max_frequency b;
     b_min_words := b_min_words b; b_frontier := b_frontier b |}.

Definition rewrite_block (l : PostingList) (index : nat) (ps : list Posting) (ordinals : list Z)
    : outcome PostingList :=
  let* b := expect (pl_blocks l !! index) in
  let start := b_offset b in
  let end_ := match pl_blocks l !! (index + 1) with Some b => b_offset b | None => length (pl_data l) end in
  let size := if BLOCK_LEN <? length ps then div_ceil (length ps) 2 else BLOCK_LEN in
  let* scratch := append_chunks (length ps) pl_default size ps (slice ordinals) 0 in
  let length_ := length (pl_data scratch) in
  if (start <=? end_) && (end_ <=? length (pl_data l)) then
    Ok (touch (set_blocks l
          (take start (pl_data l) ++ pl_data scratch ++ drop end_ (pl_data l))
          (take index (pl_blocks l) ++ map (shift_offset 0 start) (pl_blocks scratch) ++
           map (shift_offset (end_ - start) length_) (drop (index + 1) (pl_blocks l)))))
  else Panic.

(** The first block that does not end below [slot], decoded. *)
Definition block_of (l : PostingList) (slot : Z) : outcome (nat * list Posting) :=
  let* block := partition_point (pl_blocks l) (fun b => b_last b <? slot)%Z in
  if block <? length (pl_blocks l) then
    let* decoded := decode_block l block in Ok (block, decoded)
  else Panic.

Definition block_ordinals (l : PostingList) (block : nat) : outcome (list Z) :=
  let* b := expect (pl_blocks l !! block) in decode_ordinals l b.

Definition list_insert_at {A} (l : list A) (at_ : nat) (x : A) : list A := take at_ l ++ x :: drop at_ l.
Definition list_remove_at {A} (l : list A) (at_ : nat) : list A := take at_ l ++ drop (at_ + 1) l.

Definition is_positive (f : Z) : Z := if (0 <? f)%Z then 1 else 0.

Definition pl_insert (l : PostingList) (posting : Posting) (ordinal : Z) : outcome PostingList :=
  let* block := partition_point (pl_blocks l) (fun b => b_last b <? posting.1)%Z in
  let* decoded := decode_block l block in
  let* r := search_slot decoded posting.1 in
  match r with
  | inl _ => Panic
  | inr at_ =>
      let* ordinals := block_ordinals l block in
      let* l := rewrite_block l block (list_insert_at decoded at_ posting) (list_insert_at ordinals at_ ordinal) in
      let* count := expect (checked_add U32 (pl_count l) 1) in
      let* positive := expect (checked_add U32 (pl_positive_count l) (is_positive posting.2)) in
      Ok (set_counts l count positive (pl_last l))
  end.

(** [merge_sorted]; equal slots are a panic. *)
Fixpoint merge_sorted (a : list Posting) : list Posting -> outcome (list Posting) :=
  fix aux b :=
    match a, b with
    | [], _ => Ok b
    | _, [] => Ok a
    | x :: a', y :: b' =>
        match (x.1 ?= y.1)%Z with
        | Lt => let* m := merge_sorted a' b in Ok (x :: m)
        | Gt => let* m := aux b' in Ok (y :: m)
        | Eq => Panic
        end
    end.

(** The ordinals of the merged postings: the run's own, or the cursor's at the slot. *)
Fixpoint merge_ordinals (l : PostingList) (merged run : list Posting) (ordinals : list Z) (next : nat)
    (c : PostingCursor) : outcome (list Z) :=
  match merged with
  | [] => Ok []
  | (slot, _) :: rest =>
      if match run !! next with Some p => (p.1 =? slot)%Z | None => false end then
        let* os := merge_ordinals l rest run ordinals (next + 1) c in
        Ok (default 0%Z (ordinals !! next) :: os)
      else
        let* (c, p) := advance l c slot in
        if match p with Some p => (p.1 =? slot)%Z | None => false end then
          let* o := cursor_ordinal l c in
          let* os := merge_ordinals l rest run ordinals next c in
          Ok (o :: os)
        else Panic
  end.

(** The last block, when it has room, takes the head of the run; the number of postings taken. *)
Definition top_up (l : PostingList) (run : list Posting) (ordinals : list Z) : outcome (PostingList * nat) :=
  match last (pl_blocks l) with
  | Some block =>
      if b_count block <? BLOCK_LEN then
        let* decoded := decode_values l block in
        let* ords := decode_ordinals l block in
        let l := set_blocks l (take (b_offset block) (pl_data l))
                   (take (length (pl_blocks l) - 1) (pl_blocks l)) in
        let take_ := Nat.min (BLOCK_LEN - b_count block) (length run) in
        let new := take take_ run in
        let new_ords := if Nat.eqb (length ordinals) 0 then replicate take_ 0%Z else take take_ ordinals in
        let min_words := Z.min (least_length words new) (b_min_words block) in
        let* front := frontier (block_points block ++ points_of words new) in
        let* l := append_block l (decoded ++ new) (ords ++ new_ords) min_words front in
        Ok (l, take_)
      else Ok (l, 0)
  | None => Ok (l, 0)
  end.

Definition append_run_with_ordinals (l : PostingList) (run : list Posting) (ordinals : list Z)
    : outcome PostingList :=
  if Nat.eqb (length ordinals) 0 || Nat.eqb (length ordinals) (length run) then
    match run with
    | [] => Ok l
    | first :: _ =>
        if (0 <? pl_count l)%Z && (first.1 <=? pl_last l)%Z then
          match run with
          | [posting] => pl_insert l posting (default 0%Z (head ordinals))
          | _ =>
              let* decoded := decode l in
              let* merged := merge_sorted decoded run in
              let* c := cursor_new l in
              let* merged_ords := merge_ordinals l merged run ordinals 0 c in
              encode_with_ordinals l merged merged_ords
          end
        else
          let* (l, start) := top_up l run ordinals in
          let* l := append_chunks (length run) l BLOCK_LEN (drop start run) (ordinals_or_none ordinals) start in
          let* count := to_u32 (pl_count l + Z.of_nat (length run)) in
          let* positive_ := expect (checked_add U32 (pl_positive_count l) (positive run)) in
          Ok (set_counts l count positive_ (last_or_zero run))
    end
  else Panic.

(** The ordinals of the whole list, read by a cursor. *)
Fixpoint collect_ordinals (l : PostingList) (fuel : nat) (c : PostingCursor) : outcome (list Z) :=
  match fuel with
  | O => Panic
  | S fuel =>
      let* p := peek c in
      match p with
      | None => Ok []
      | Some _ =>
          let* o := cursor_ordinal l c in
          let* (c, _) := cursor_next l c in
          let* os := collect_ordinals l fuel c in
          Ok (o :: os)
      end
  end.

Definition pl_remove (l : PostingList) (slot : Z) : outcome PostingList :=
  let* (block, decoded) := block_of l slot in
  if (length decoded <=? MIN_BLOCK_LEN) && (block + 1 <? length (pl_blocks l)) then
    let* postings := decode l in
    let* r := search_slot postings slot in
    let* index := found r in
    let* c := cursor_new l in
    let* ordinals := collect_ordinals l (S (posting_total l)) c in
    encode_with_ordinals l (list_remove_at postings index) (list_remove_at ordinals index)
  else
    let* r := search_slot decoded slot in
    let* index := found r in
    let* p := expect (decoded !! index) in
    let* ordinals := block_ordinals l block in
    let* l := rewrite_block l block (list_remove_at decoded index) (list_remove_at ordinals index) in
    let* count := expect (checked_sub (pl_count l) 1) in
    let* positive_ := expect (checked_sub (pl_positive_count l) (is_positive p.2)) in
    let last_ := match last (pl_blocks l) with Some b => b_last b | None => 0%Z end in
    let l := set_counts l count positive_ last_ in
    Ok (if (count =? 0)%Z then touch (set_blocks l [] []) else l).

Definition pl_set_entry (l : PostingList) (slot frequency : Z) (ordinal : option Z) : outcome PostingList :=
  let* (block, decoded) := block_of l slot in
  let* r := search_slot decoded slot in
  let* index := found r in
  let* ordinals := block_ordinals l block in
  let* p := expect (decoded !! index) in
  let* o := expect (ordinals !! index) in
  if (frequency =? p.2)%Z && match ordinal with None => true | Some n => (n =? o)%Z end then Ok l
  else
    let ordinals := match ordinal with Some n => <[index := n]> ordinals | None => ordinals end in
    let* positive_ := expect (checked_sub (pl_positive_count l) (is_positive p.2)) in
    let l := set_counts l (pl_count l) (positive_ + is_positive frequency) (pl_last l) in
    rewrite_block l block (<[index := (p.1, frequency)]> decoded) ordinals.

Definition pl_invalidate_length (l : PostingList) (slot : Z) : outcome PostingList :=
  let* block := partition_point (pl_blocks l) (fun b => b_last b <? slot)%Z in
  let* b := expect (pl_blocks l !! block) in
  Ok (touch (set_blocks l (pl_data l)
        (<[block := {| b_offset := b_offset b; b_first := b_first b; b_last := b_last b; b_count := b_count b;
                       b_doc_bits := b_doc_bits b; b_frequency_bits := b_frequency_bits b;
                       b_ordinal_bits := b_ordinal_bits b; b_max_frequency := b_max_frequency b;
                       b_min_words := 0; b_frontier := None |}]> (pl_blocks l)))).
End Edit.

(** ** Entries and groups *)

Definition grp (es : list (Posting * Z)) : group := (map fst es, map snd es).

Lemma entries_grp es : entries (grp es) = es.
Proof. apply zip_fst_snd. Qed.

(** Ascending entries at their widths. *)
Record entries_ok (es : list (Posting * Z)) : Prop := {
  eo_sorted : StronglySorted Z.lt (map slot_of es);
  eo_slots : Forall (fun e => is_u64 (slot_of e)) es;
  eo_values : Forall (fun e => is_u32 e.1.2 /\ is_u32 e.2) es }.

Lemma entries_ok_app a b : entries_ok (a ++ b) -> entries_ok a /\ entries_ok b.
Proof.
  intros [Hs Hsl Hv]. rewrite map_app in Hs. apply StronglySorted_app in Hs as (_ & H1 & H2).
  apply Forall_app in Hsl as [], Hv as []. by split; split.
Qed.

Lemma entries_ok_take es n : entries_ok es -> entries_ok (take n es).
Proof. intros H. rewrite <- (take_drop n es) in H. by apply entries_ok_app in H as []. Qed.

Lemma entries_ok_drop es n : entries_ok es -> entries_ok (drop n es).
Proof. intros H. rewrite <- (take_drop n es) in H. by apply entries_ok_app in H as []. Qed.

Lemma grp_ok es : entries_ok es -> es <> [] -> length es <= BLOCK_LEN -> group_ok (grp es).
Proof.
  intros [Hs Hsl Hv] Hne Hlen. unfold grp. split; cbn [fst snd]; rewrite ?length_map; try done.
  - by destruct es.
  - by rewrite map_map.
  - rewrite map_map. by apply Forall_map.
  - rewrite map_map. apply Forall_map. eapply Forall_impl; [exact Hv|]. naive_solver.
  - apply Forall_map. eapply Forall_impl; [exact Hv|]. naive_solver.
Qed.

Lemma group_entries_ok g : group_ok g -> entries_ok (entries g).
Proof.
  intros H. split.
  - rewrite slot_of_entries by done. apply H.
  - pose proof (go_slots _ H) as Hs. rewrite <- slot_of_entries in Hs by done.
    apply Forall_forall. intros e He. rewrite Forall_forall in Hs. apply Hs, list_elem_of_fmap. by exists e.
  - apply Forall_forall. intros e He. unfold entries in He.
    pose proof (go_frequencies _ H) as Hf. pose proof (go_ordinal_u32 _ H) as Ho.
    apply list_elem_of_lookup in He as [i Hi]. apply lookup_zip_with_Some in Hi as (p & o & -> & Hp & Ho').
    rewrite Forall_lookup in Ho. split; [|exact (Ho i o Ho')].
    rewrite Forall_forall in Hf. apply Hf, list_elem_of_fmap. exists p. split; [done|]. by eapply list_elem_of_lookup_2.
Qed.

Lemma flat_app gs hs : flat (gs ++ hs) = flat gs ++ flat hs.
Proof. unfold flat. by rewrite map_app, concat_app. Qed.

Lemma flat_cons g gs : flat (g :: gs) = entries g ++ flat gs.
Proof. done. Qed.

(** The groups [chunks(size)] makes. *)
Fixpoint groups_of (fuel size : nat) (es : list (Posting * Z)) : list group :=
  match es, fuel with
  | [], _ => []
  | _, O => []
  | _, S fuel => grp (take size es) :: groups_of fuel size (drop size es)
  end.

Lemma groups_of_flat fuel size es : 0 < size -> length es <= fuel -> flat (groups_of fuel size es) = es.
Proof.
  intros Hs. revert es. induction fuel as [|fuel IH]; intros es Hf; (destruct es as [|e es]; [done|]); simpl in Hf; [lia|].
  cbn [groups_of]. rewrite flat_cons, entries_grp, IH by (rewrite length_drop; simpl; lia). apply take_drop.
Qed.

Lemma groups_of_ok fuel size es :
  entries_ok es -> 0 < size <= BLOCK_LEN -> Forall group_ok (groups_of fuel size es).
Proof.
  intros He Hs. revert es He. induction fuel as [|fuel IH]; intros es He; destruct es as [|e es]; cbn [groups_of]; try constructor.
  - apply grp_ok; [by apply entries_ok_take| |rewrite length_take; lia]. destruct size; [lia|done].
  - apply IH. by apply entries_ok_drop.
Qed.

Lemma groups_of_one fuel size es : es <> [] -> length es <= size -> 0 < fuel -> groups_of fuel size es = [grp es].
Proof.
  intros Hne Hlen Hf. destruct fuel as [|fuel]; [lia|]. destruct es as [|e es]; [done|].
  cbn [groups_of]. rewrite take_ge, drop_ge by done. by destruct fuel.
Qed.

Lemma groups_of_two fuel size es :
  0 < size -> size < length es <= 2 * size -> 1 < fuel ->
  groups_of fuel size es = [grp (take size es); grp (drop size es)].
Proof.
  intros Hs Hlen Hf. destruct fuel as [|fuel]; [lia|]. destruct es as [|e es]; [simpl in Hlen; lia|].
  cbn [groups_of]. f_equal. apply groups_of_one; [|rewrite length_drop; lia|lia].
  intros Hn. apply (f_equal length) in Hn. rewrite length_drop in Hn. simpl (length []) in Hn. lia.
Qed.

(** Every group but the last is full. *)
Lemma groups_of_full fuel size es i g :
  0 < size -> groups_of fuel size es !! i = Some g -> S i < length (groups_of fuel size es) -> length g.1 = size.
Proof.
  intros Hs. revert es i. induction fuel as [|fuel IH]; intros es i Hg Hi; (destruct es as [|e es]; cbn [groups_of] in *; [done|]); [done|].
  destruct i as [|i]; [|simpl in Hg, Hi; apply (IH (drop size (e :: es)) i); [done|lia]].
  simplify_eq/=. rewrite length_map, length_take. simpl in Hi.
  destruct (drop size (e :: es)) as [|x r] eqn:E; [destruct fuel; simpl in Hi; lia|].
  apply (f_equal length) in E. rewrite length_drop in E. simpl in E. simpl. lia.
Qed.

(** ** Appending chunks *)

Section AppendChunks.
Context (words : Z -> Z) (Hwords : words_small words).

Lemma append_chunks_ok fuel l gs size es oat start :
  blocks_repr l gs -> entries_ok es -> 0 < size <= BLOCK_LEN -> length es <= fuel ->
  (forall a b, a < b <= length es ->
     exists os, oat (start + a) (start + b) = Ok os /\ ordinals_for (grp (take (b - a) (drop a es))) os) ->
  exists l' bs, append_chunks words fuel l size (map fst es) oat start = Ok l' /\
    blocks_repr l' (gs ++ groups_of fuel size es) /\ (es = [] \/ summary_ok l') /\ (es = [] -> l' = l) /\
    pl_blocks l' = pl_blocks l ++ bs /\ Forall2 (bounds_ok words) bs (groups_of fuel size es) /\
    pl_count l' = pl_count l /\ pl_positive_count l' = pl_positive_count l /\ pl_last l' = pl_last l.
Proof.
  intros Hl He Hs. revert l gs es start Hl He.
  induction fuel as [|fuel IH]; intros l gs es start Hl He Hf Hoat; (destruct es as [|e es]; simpl in Hf; [|try lia]).
  1,2: exists l, []; rewrite !app_nil_r; cbn [append_chunks groups_of map]; split_and!; auto.
  set (E := e :: es) in *. assert (HE : map fst E = fst e :: map fst es) by done.
  cbn [append_chunks groups_of]. rewrite HE. fold E. rewrite <- HE.
  replace (take size (map fst E)) with (map fst (take size E)) by apply fmap_take.
  replace (drop size (map fst E)) with (map fst (drop size E)) by apply fmap_drop.
  set (n := length (take size E)). assert (Hn : n <= length E) by (unfold n; rewrite length_take; lia).
  assert (Hne : take size E <> []) by (unfold E; destruct size; [lia|done]).
  pose proof (grp_ok (take size E) (entries_ok_take _ _ He) Hne ltac:(rewrite length_take; lia)) as Hg.
  rewrite length_map. fold n. destruct (Hoat 0 n) as (os & Hos & Hfor); [destruct (take size E); [done|simpl in n; lia]|]. rewrite Nat.add_0_r in Hos.
  rewrite Hos. cbn [obind]. rewrite drop_0, Nat.sub_0_r in Hfor.
  assert (Htake : take n E = take size E).
  { unfold n. rewrite length_take. destruct (decide (size <= length E)); [by rewrite Nat.min_l by lia|].
    rewrite Nat.min_r by lia. by rewrite !take_ge by lia. }
  rewrite Htake in Hfor. change (map fst (take size E)) with (grp (take size E)).1.
  destruct (fresh_bounds_ok words (length (pl_data l)) _ Hwords Hg) as (fr & Hfr & Hbo). rewrite Hfr. cbn [obind].
  destruct (append_block_ok l gs _ os (least_length words (grp (take size E)).1) fr Hl Hg Hfor)
    as (l1 & -> & H1 & Hsum & Hbl & Hc1 & Hc2 & Hc3). cbn [obind].
  destruct (IH l1 (gs ++ [grp (take size E)]) (drop size E) (start + size)) as (l2 & bs & Hrun & H2 & Hsum2 & Hsame & Hbl2 & Hb2 & Hd1 & Hd2 & Hd3).
  - done.
  - by apply entries_ok_drop.
  - rewrite length_drop. unfold E. simpl. lia.
  - intros a b Hab. rewrite length_drop in Hab. destruct (Hoat (size + a) (size + b)) as (os' & Ho' & Hf').
    { lia. }
    exists os'. rewrite drop_drop. rewrite <- !Nat.add_assoc. replace (b - a) with (size + b - (size + a)) by lia. done.
  - exists l2, (header (length (pl_data l)) (grp (take size E)) (least_length words (grp (take size E)).1) fr :: bs).
    rewrite Hrun. split; [done|]. rewrite <- app_assoc in H2. split; [exact H2|]. split_and!.
    + right. destruct Hsum2 as [Hnil|]; [|done]. by rewrite (Hsame Hnil).
    + done.
    + rewrite Hbl2, Hbl, <- app_assoc. done.
    + by constructor.
    + congruence.
    + congruence.
    + congruence.
Qed.
End AppendChunks.

(** ** The invariant of a list *)

(** Every block but the last keeps at least a quarter of its room used. *)
Definition packed (gs : list group) : Prop :=
  forall i g, gs !! i = Some g -> S i < length gs -> MIN_BLOCK_LEN <= length g.1.

Record pl_ok (words : Z -> Z) (l : PostingList) (gs : list group) : Prop := {
  po_repr : list_repr l gs;
  po_summary : summary_ok l;
  po_bounds : Forall2 (bounds_ok words) (pl_blocks l) gs;
  po_packed : packed gs;
  po_count : pl_count l = Z.of_nat (length (flat gs));
  po_small : (pl_count l < U32)%Z;
  po_positive : pl_positive_count l = positive (map fst (flat gs));
  po_last : pl_last l = last_or_zero (map fst (flat gs)) }.

(** The list holds exactly the entries [es]. *)
Definition models (words : Z -> Z) (l : PostingList) (es : list (Posting * Z)) : Prop :=
  exists gs, pl_ok words l gs /\ flat gs = es.

(** The ordinals given with entries: none when all are zero. *)
Definition ordinals_of (es : list (Posting * Z)) (ordinals : list Z) : Prop :=
  ordinals = map snd es \/ (ordinals = [] /\ Forall (fun e => e.2 = 0%Z) es).

Lemma ordinals_of_length es ordinals :
  ordinals_of es ordinals -> Nat.eqb (length ordinals) 0 || Nat.eqb (length ordinals) (length (map fst es)) = true.
Proof. intros [->|[-> _]]; rewrite ?length_map; [by rewrite Nat.eqb_refl, orb_true_r|done]. Qed.

Lemma zeros_replicate es : Forall (fun e : Posting * Z => e.2 = 0%Z) es -> map snd es = replicate (length es) 0%Z.
Proof. induction 1 as [|e es He Hes IH]; simpl; congruence. Qed.

Lemma ordinals_or_none_ok es ordinals pre a b :
  ordinals_of (pre ++ es) ordinals -> a < b <= length es ->
  exists os, ordinals_or_none ordinals (length pre + a) (length pre + b) = Ok os /\ ordinals_for (grp (take (b - a) (drop a es))) os.
Proof.
  intros Ho Hab. unfold ordinals_or_none. destruct Ho as [->|[-> Hz]].
  - rewrite get_range_Some by (rewrite ?length_map, ?length_app; lia). eexists. split; [done|]. left. cbn [default grp snd].
    rewrite map_app, <- drop_drop. replace (length pre) with (length (map snd pre)) by apply length_map.
    rewrite drop_app_length. replace (length (map snd pre) + b - (length (map snd pre) + a)) with (b - a) by lia.
    by rewrite <- firstn_map, <- skipn_map.
  - rewrite get_range_None by (simpl; lia). eexists. split; [done|]. right. split; [done|]. cbn [grp fst snd].
    apply Forall_app in Hz as [_ Hz]. rewrite zeros_replicate, !length_map; [done|]. by apply Forall_take, Forall_drop.
Qed.

Lemma groups_packed fuel es : packed (groups_of fuel BLOCK_LEN es).
Proof.
  intros i g Hg Hi. rewrite (groups_of_full fuel BLOCK_LEN es i g) by (done || (vm_compute; lia)). vm_compute. lia.
Qed.

Section EditSpec.
Context (words : Z -> Z) (Hwords : words_small words).

Lemma encode_ok l es ordinals :
  entries_ok es -> ordinals_of es ordinals -> (Z.of_nat (length es) < U32)%Z ->
  exists l', encode_with_ordinals words l (map fst es) ordinals = Ok l' /\ models words l' es.
Proof.
  intros He Ho Hsz. unfold encode_with_ordinals. rewrite ordinals_of_length by done. rewrite length_map.
  destruct (append_chunks_ok words Hwords (length es) (touch (set_blocks l [] [])) [] BLOCK_LEN es (ordinals_or_none ordinals) 0)
    as (l' & bs & -> & Hr & Hsum & Hsame & Hbl & Hb & Hc1 & Hc2 & Hc3); [by split|done|vm_compute; lia|done| |].
  { intros a b Hab. exact (ordinals_or_none_ok es ordinals [] a b Ho Hab). }
  cbn [obind]. unfold to_u32. rewrite (proj2 (Z.ltb_lt _ _)) by done. cbn [obind]. eexists. split; [done|].
  assert (Hflat : flat (groups_of (length es) BLOCK_LEN es) = es) by (apply groups_of_flat; [vm_compute; lia|done]).
  exists (groups_of (length es) BLOCK_LEN es). split; [|done]. simpl in Hr, Hbl. split; rewrite ?Hflat.
  - split; [destruct Hr; by split|]. by rewrite Hflat; apply He.
  - destruct Hsum as [Hnil|Hsum]; [|exact Hsum]. rewrite (Hsame Hnil). apply (touch_summary_ok (set_blocks l [] [])).
  - by rewrite <- Hbl in Hb.
  - apply groups_packed.
  - done.
  - done.
  - done.
  - done.
Qed.

Lemma blocks_at_shift removed added off hs bs :
  removed <= off -> blocks_at off hs bs -> blocks_at (off - removed + added) hs (map (shift_offset removed added) bs).
Proof.
  revert off bs. induction hs as [|g hs IH]; intros off [|b bs] Hr; cbn [blocks_at map]; try done.
  intros [Hh H]. split.
  - unfold header_of in *. rewrite Hh. done.
  - replace (off - removed + added + length (enc_group g)) with (off + length (enc_group g) - removed + added) by lia.
    apply IH; [lia|done].
Qed.

Lemma bounds_shift removed added bs hs :
  Forall2 (bounds_ok words) bs hs -> Forall2 (bounds_ok words) (map (shift_offset removed added) bs) hs.
Proof. induction 1 as [|b g bs hs Hb H IH]; constructor; [|done]. destruct Hb. by split. Qed.

Definition rewrite_size (n : nat) : nat := if BLOCK_LEN <? n then div_ceil n 2 else BLOCK_LEN.

Lemma rewrite_size_ok n : n <= BLOCK_LEN + 1 -> 0 < rewrite_size n <= BLOCK_LEN.
Proof.
  intros Hn. unfold rewrite_size. destruct (BLOCK_LEN <? n) eqn:E; bool_to_prop; [|vm_compute; lia].
  replace n with 129 by (change BLOCK_LEN with 128 in *; lia). vm_compute. lia.
Qed.

(** Block [i] is replaced by the blocks of [es]; the others keep their postings and bounds. *)
Lemma rewrite_block_ok l gs i g es :
  blocks_repr l gs -> Forall2 (bounds_ok words) (pl_blocks l) gs -> gs !! i = Some g ->
  entries_ok es -> length es <= BLOCK_LEN + 1 ->
  let hs := groups_of (length es) (rewrite_size (length es)) es in
  exists l', rewrite_block words l i (map fst es) (map snd es) = Ok l' /\
    blocks_repr l' (take i gs ++ hs ++ drop (S i) gs) /\ summary_ok l' /\
    Forall2 (bounds_ok words) (pl_blocks l') (take i gs ++ hs ++ drop (S i) gs) /\
    pl_count l' = pl_count l /\ pl_positive_count l' = pl_positive_count l /\ pl_last l' = pl_last l.
Proof.
  intros Hl Hbo Hi He Hlen hs. destruct Hl as [Hgs Hdata Hbl].
  pose proof (take_drop_middle gs i g Hi) as Hsplit. pose proof (lookup_lt_Some _ _ _ Hi) as Hlt.
  pose proof Hbl as Hbl'. rewrite <- Hsplit in Hbl'. apply blocks_at_app in Hbl' as (b1 & b2 & Hblocks & H1 & H2).
  apply blocks_at_cons in H2 as (b & b3 & -> & Hh & H3). rewrite Nat.add_0_l in *.
  assert (Hl1 : length b1 = i) by (rewrite (blocks_at_length _ _ _ H1), length_take; lia).
  assert (Hoff : b_offset b = length (encoded (take i gs))) by (by rewrite Hh).
  assert (Hd : pl_data l = encoded (take i gs) ++ enc_group g ++ encoded (drop (S i) gs)).
  { rewrite Hdata. rewrite <- Hsplit at 1. by rewrite encoded_app. }
  assert (Hend : match pl_blocks l !! (i + 1) with Some b => b_offset b | None => length (pl_data l) end =
                 length (encoded (take i gs)) + length (enc_group g)).
  { rewrite Hblocks, lookup_app_r, Hl1 by lia. replace (i + 1 - i) with 1 by lia. simpl.
    destruct (drop (S i) gs) as [|h hs'] eqn:Edrop; destruct b3 as [|b' b3]; cbn [blocks_at] in H3; try done.
    - simpl. rewrite Hd, !length_app. simpl. lia.
    - destruct H3 as [Hh' _]. simpl. by rewrite Hh'. }
  unfold rewrite_block. rewrite Hend, Hblocks, list_lookup_middle by done. cbn [expect obind]. rewrite length_map.
  change (if BLOCK_LEN <? length es then div_ceil (length es) 2 else BLOCK_LEN) with (rewrite_size (length es)).
  destruct (append_chunks_ok words Hwords (length es) pl_default [] (rewrite_size (length es)) es (slice (map snd es)) 0)
    as (s & bs & -> & Hr & _ & _ & Hsb & Hsbo & _); [by split|done|by apply rewrite_size_ok|done| |].
  { intros a c Hac. rewrite !Nat.add_0_l. rewrite slice_Ok by (rewrite ?length_map; lia). eexists. split; [done|].
    left. cbn [grp snd]. by rewrite <- firstn_map, <- skipn_map. }
  cbn [obind]. fold hs in Hr, Hsbo. simpl in Hr, Hsb. destruct Hr as [Hhs Hsd Hsbl]. rewrite Hoff, Hsb, Hsd.
  rewrite (proj2 (Nat.leb_le _ _)), (proj2 (Nat.leb_le (_ + _) _)) by (rewrite ?Hd, ?length_app; lia). cbn [andb].
  replace (take i (b1 ++ b :: b3)) with b1 by (by rewrite take_app_length').
  replace (drop (i + 1) (b1 ++ b :: b3)) with b3
    by (rewrite drop_app_ge by lia; by replace (i + 1 - length b1) with 1 by lia).
  eexists. split; [done|]. cbn [touch set_blocks pl_blocks pl_data pl_count pl_positive_count pl_last].
  assert (Hbo2 : Forall2 (bounds_ok words) (b1 ++ map (shift_offset 0 (length (encoded (take i gs)))) bs ++
      map (shift_offset (length (encoded (take i gs)) + length (enc_group g) - length (encoded (take i gs))) (length (encoded hs))) b3)
      (take i gs ++ hs ++ drop (S i) gs)).
  { rewrite Hblocks in Hbo. rewrite <- Hsplit in Hbo. apply Forall2_app_inv in Hbo as [Hbo1 Hbo2];
      [|rewrite (blocks_at_length _ _ _ H1); by rewrite ?length_take].
    inversion Hbo2; subst. apply Forall2_app; [done|]. apply Forall2_app; by apply bounds_shift. }
  split_and!; [|apply touch_summary_ok|exact Hbo2|done|done|done]. split.
  - rewrite <- Hsplit in Hgs. apply Forall_app in Hgs as [? [_ ?]%Forall_cons]. by repeat apply Forall_app_2.
  - cbn [touch set_blocks pl_data]. rewrite !encoded_app, Hd, take_app_length. do 2 f_equal.
    rewrite app_assoc, <- length_app. by rewrite drop_app_length.
  - cbn [touch set_blocks pl_blocks]. apply blocks_at_app. eexists _, _. split; [done|]. split; [done|]. apply blocks_at_app.
    eexists _, _. split; [done|]. rewrite !Nat.add_0_l. split.
    + rewrite Hsb in Hsbl. apply (blocks_at_shift 0 (length (encoded (take i gs)))) in Hsbl; [|lia]. done.
    + apply (blocks_at_shift (length (enc_group g)) (length (encoded hs))) in H3; [|lia].
      replace (length (encoded (take i gs)) + length (enc_group g) - length (encoded (take i gs))) with (length (enc_group g)) by lia.
      replace (length (encoded (take i gs)) + length (encoded hs)) with
        (length (encoded (take i gs)) + length (enc_group g) - length (enc_group g) + length (encoded hs)) by lia. done.
Qed.

(** ** Where a slot is *)

Lemma repr_entries_ok l gs : list_repr l gs -> entries_ok (flat gs).
Proof.
  intros [Hb Hs]. split; [done| |]; pose proof (br_groups _ _ Hb) as Hg; clear Hs Hb;
    induction Hg as [|g gs Hg Hgs IH]; [constructor| |constructor|]; rewrite flat_cons; apply Forall_app_2; auto;
    apply (group_entries_ok g Hg).
Qed.

Lemma block_at_slot l gs slot :
  list_repr l gs ->
  partition_point (pl_blocks l) (fun b => b_last b <? slot)%Z = Ok (length (take_below last_slot slot gs)).
Proof.
  intros [Hb Hs]. pose proof (blocks_last 0 gs (pl_blocks l) (br_headers _ _ Hb)) as Hk.
  rewrite (partition_point_sorted b_last).
  - by rewrite (take_below_keys b_last last_slot slot _ _ Hk).
  - rewrite Hk. apply lasts_sorted; [apply Hb|done].
Qed.

(** The entries before and after the block that can hold [slot]. *)
Lemma below_split l gs slot :
  list_repr l gs -> let k := length (take_below last_slot slot gs) in
  Forall (fun e => slot_of e < slot)%Z (flat (take k gs)) /\
  (gs !! k = None -> Forall (fun e => slot_of e < slot)%Z (flat gs)) /\
  (forall g, gs !! k = Some g -> (slot <= last_slot g)%Z /\ Forall (fun e => slot < slot_of e)%Z (flat (drop (S k) gs))).
Proof.
  intros [Hb Hs] k. pose proof (br_groups _ _ Hb) as Hg.
  assert (Htake : take k gs = take_below last_slot slot gs).
  { unfold k. rewrite <- (take_drop_below last_slot slot gs) at 2. by rewrite take_app_length. }
  assert (H1 : Forall (fun e => slot_of e < slot)%Z (flat (take k gs))).
  { rewrite Htake. pose proof (take_below_all last_slot slot gs) as Hall.
    pose proof (Forall_take group_ok k gs Hg) as Hgt. rewrite Htake in Hgt. revert Hall Hgt.
    generalize (take_below last_slot slot gs). intros hs. induction hs as [|h hs IH]; intros Ha Hgt; [constructor|].
    inversion Ha; inversion Hgt; subst. rewrite flat_cons. apply Forall_app_2; [|auto].
    eapply Forall_impl; [by apply last_slot_max|]. intros e He. bool_to_prop. simpl in He. lia. }
  split_and!; [done| |].
  - intros Hn. apply lookup_ge_None in Hn. by rewrite take_ge in H1.
  - intros g Hgk. pose proof (drop_below_none last_slot slot gs (lasts_sorted gs Hg Hs)) as Hnb.
    rewrite <- drop_take_below in Hnb. fold k in Hnb. rewrite (drop_S _ _ _ Hgk) in Hnb.
    apply Forall_cons in Hnb as [Hle _]. bool_to_prop. split; [done|].
    pose proof (take_drop_middle gs k g Hgk) as Hsp. rewrite <- Hsp, flat_app, flat_cons in Hs.
    rewrite !map_app in Hs. apply StronglySorted_app in Hs as (_ & _ & Hs). apply StronglySorted_app in Hs as (Hx & _ & _).
    assert (Hgok : group_ok g) by (rewrite Forall_lookup in Hg; eauto).
    apply Forall_forall. intros e He. specialize (Hx _ (slot_of e) (last_slot_in g Hgok)).
    assert (Hin : slot_of e ∈ map slot_of (flat (drop (S k) gs))) by (apply list_elem_of_fmap; by exists e).
    specialize (Hx Hin). lia.
Qed.

Lemma search_slot_ok ps slot :
  StronglySorted Z.lt (map fst ps) ->
  exists r, search_slot ps slot = Ok r /\
    match r with
    | inl i => exists p, ps !! i = Some p /\ p.1 = slot
    | inr n => n <= length ps /\ Forall (fun p => p.1 < slot)%Z (take n ps) /\ Forall (fun p => slot < p.1)%Z (drop n ps)
    end.
Proof.
  intros Hs. set (c := fun i => match ps !! i with Some p => (p.1 ?= slot)%Z | None => Gt end).
  assert (Hmono : forall i j p q, i < j -> ps !! i = Some p -> ps !! j = Some q -> (p.1 < q.1)%Z).
  { intros i j p q Hij Hp Hq. pose proof (take_drop_middle ps i p Hp) as Hsp. rewrite <- Hsp, map_app in Hs.
    apply StronglySorted_app in Hs as (_ & _ & Hs). simpl in Hs. inversion Hs as [|?? _ Hf]; subst.
    rewrite Forall_forall in Hf. apply Hf, list_elem_of_fmap. exists q. split; [done|].
    apply (list_elem_of_lookup_2 _ (j - S i)). rewrite lookup_drop. by replace (S i + (j - S i)) with j by lia. }
  destruct (search_found (fun i => let* p := expect (ps !! i) in Ok (p.1 ?= slot)%Z) c (length ps)) as (r & Hr & Hf).
  - intros i j Hij Hj. unfold c. destruct (lookup_lt_is_Some_2 ps j Hj) as [q Hq].
    destruct (lookup_lt_is_Some_2 ps i) as [p Hp]; [lia|]. rewrite Hp, Hq. pose proof (Hmono i j p q Hij Hp Hq).
    split; [rewrite !Z.compare_lt_iff; lia|]. rewrite Z.compare_gt_iff. intros Hc.
    destruct (p.1 ?= slot)%Z eqn:E; [apply Z.compare_eq in E; lia|done|apply Z.compare_gt_iff in E; lia].
  - intros i Hi. unfold c. destruct (lookup_lt_is_Some_2 ps i Hi) as [p Hp]. by rewrite Hp.
  - exists r. split; [exact Hr|]. destruct r as [i|n]; cbn [found_at] in Hf; unfold c in Hf.
    + destruct Hf as [Hi Hc]. destruct (lookup_lt_is_Some_2 ps i Hi) as [p Hp]. rewrite Hp in Hc.
      exists p. split; [done|]. by apply Z.compare_eq in Hc.
    + destruct Hf as (Hn & Hlt & Hgt). split_and!; [done| |]; apply Forall_lookup; intros i p Hp.
      * apply lookup_take_Some in Hp as [Hp Hi]. specialize (Hlt i Hi). rewrite Hp in Hlt. by apply Z.compare_lt_iff in Hlt.
      * rewrite lookup_drop in Hp. pose proof (lookup_lt_Some _ _ _ Hp). specialize (Hgt (n + i) ltac:(lia)).
        rewrite Hp in Hgt. by apply Z.compare_gt_iff in Hgt.
Qed.

(** ** Replacing the entries of one block *)

Lemma rewrite_groups_room es h k :
  length es <= BLOCK_LEN + 1 ->
  groups_of (length es) (rewrite_size (length es)) es !! k = Some h ->
  MIN_BLOCK_LEN <= length es -> MIN_BLOCK_LEN <= length h.1.
Proof.
  intros Hlen Hk Hmin. change MIN_BLOCK_LEN with 32 in *. change BLOCK_LEN with 128 in Hlen.
  unfold rewrite_size in Hk. change BLOCK_LEN with 128 in Hk. destruct (128 <? length es) eqn:E; bool_to_prop.
  - assert (Hl : length es = 129) by lia. replace (div_ceil (length es) 2) with 65 in Hk by (by rewrite Hl).
    rewrite groups_of_two in Hk by lia. destruct k as [|[|k]]; [| |done]; injection Hk as <-; unfold grp; cbn [fst];
      rewrite length_map, ?length_take, ?length_drop; lia.
  - assert (Hne : es <> []) by (intros ->; simpl in Hmin; lia). rewrite groups_of_one in Hk by (done || lia).
    destruct k; [|done]. injection Hk as <-. unfold grp. cbn [fst]. by rewrite length_map.
Qed.

Lemma packed_edit gs i g es :
  packed gs -> gs !! i = Some g -> length es <= BLOCK_LEN + 1 ->
  (S i < length gs -> MIN_BLOCK_LEN <= length es) ->
  packed (take i gs ++ groups_of (length es) (rewrite_size (length es)) es ++ drop (S i) gs).
Proof.
  intros Hp Hi Hlen Hmin j h Hj Hlt. pose proof (lookup_lt_Some _ _ _ Hi) as Hil.
  set (hs := groups_of (length es) (rewrite_size (length es)) es) in *.
  rewrite !length_app, length_take, length_drop, Nat.min_l in Hlt by lia.
  apply lookup_app_Some in Hj as [Hj|[Hge Hj]].
  - apply lookup_take_Some in Hj as [Hj Hji]. apply (Hp j h Hj). lia.
  - rewrite length_take, Nat.min_l in Hj, Hge by lia. apply lookup_app_Some in Hj as [Hj|[Hge2 Hj]].
    + destruct (decide (S i < length gs)) as [Hs|Hs]; [exact (rewrite_groups_room es h (j - i) Hlen Hj (Hmin Hs))|].
      pose proof (rewrite_size_ok (length es) Hlen) as Hsz.
      pose proof (groups_of_full (length es) (rewrite_size (length es)) es (j - i) h (proj1 Hsz) Hj) as Hfull.
      fold hs in Hfull. rewrite Hfull by lia. unfold rewrite_size. destruct (BLOCK_LEN <? length es) eqn:E; bool_to_prop; [|vm_compute; lia].
      change BLOCK_LEN with 128 in *. replace (length es) with 129 by lia. vm_compute. lia.
    + rewrite lookup_drop in Hj. apply (Hp _ h Hj). apply lookup_lt_Some in Hj as Hjl. lia.
Qed.

Lemma edit_block_ok l gs i g es :
  pl_ok words l gs -> gs !! i = Some g -> length es <= BLOCK_LEN + 1 ->
  entries_ok (flat (take i gs) ++ es ++ flat (drop (S i) gs)) ->
  (S i < length gs -> MIN_BLOCK_LEN <= length es) ->
  exists l' gs', rewrite_block words l i (map fst es) (map snd es) = Ok l' /\
    list_repr l' gs' /\ flat gs' = flat (take i gs) ++ es ++ flat (drop (S i) gs) /\
    summary_ok l' /\ Forall2 (bounds_ok words) (pl_blocks l') gs' /\ packed gs' /\
    pl_count l' = pl_count l /\ pl_positive_count l' = pl_positive_count l /\ pl_last l' = pl_last l.
Proof.
  intros H Hi Hlen He Hmin. pose proof (lr_blocks _ _ (po_repr _ _ _ H)) as Hb.
  pose proof (proj2 (entries_ok_app _ _ He)) as He2. pose proof (proj1 (entries_ok_app _ _ He2)) as He3.
  destruct (rewrite_block_ok l gs i g es Hb (po_bounds _ _ _ H) Hi He3 Hlen) as (l' & Hrw & Hr & Hs & Hbo & Hc).
  set (hs := groups_of (length es) (rewrite_size (length es)) es) in *.
  assert (Hflat : flat (take i gs ++ hs ++ drop (S i) gs) = flat (take i gs) ++ es ++ flat (drop (S i) gs)).
  { rewrite !flat_app. f_equal. f_equal. apply groups_of_flat; [|done]. by apply rewrite_size_ok. }
  exists l', (take i gs ++ hs ++ drop (S i) gs). split_and!; try done; try apply Hc.
  - split; [done|]. rewrite Hflat. apply He.
  - by apply (packed_edit gs i g); [apply H|..].
Qed.

(** ** Counting *)

Lemma positive_cons p ps : positive (p :: ps) = (is_positive p.2 + positive ps)%Z.
Proof.
  unfold positive, is_positive. rewrite filter_cons. destruct (0 <? p.2)%Z eqn:E; bool_to_prop.
  - rewrite decide_True by done. simpl. lia.
  - rewrite decide_False by lia. lia.
Qed.

Lemma positive_app a b : positive (a ++ b) = (positive a + positive b)%Z.
Proof. unfold positive. rewrite filter_app, length_app. lia. Qed.

#[local] Instance positive_proper : Proper ((≡ₚ) ==> (=)) positive.
Proof. induction 1; rewrite ?positive_cons in *; lia. Qed.

Lemma positive_bound ps : (0 <= positive ps <= Z.of_nat (length ps))%Z.
Proof. unfold positive. pose proof (length_filter (fun p => 0 < p.2)%Z ps). lia. Qed.

Lemma is_positive_bound f : (0 <= is_positive f <= 1)%Z.
Proof. unfold is_positive. destruct (0 <? f)%Z; lia. Qed.

Lemma last_or_zero_app a b : b <> [] -> last_or_zero (a ++ b) = last_or_zero b.
Proof.
  intros Hb. unfold last_or_zero. rewrite last_app. destruct (last b) eqn:E; [done|]. by apply last_None in E.
Qed.

Lemma last_block_slot l gs :
  list_repr l gs -> match last (pl_blocks l) with Some b => b_last b | None => 0%Z end = last_or_zero (map fst (flat gs)).
Proof.
  intros [Hb _]. destruct gs as [|g0 gs0] eqn:Egs using rev_ind.
  - destruct Hb as [_ _ Hb]. by destruct (pl_blocks l).
  - clear IHgs0. pose proof (br_headers _ _ Hb) as Hh. apply blocks_at_app in Hh as (b1 & b2 & Hbl & _ & H2).
    apply blocks_at_cons in H2 as (b & b3 & -> & Hhd & H3). destruct b3; [|done]. rewrite Hbl, last_snoc, flat_app, map_app.
    pose proof (br_groups _ _ Hb) as Hg. apply Forall_app in Hg as [_ [Hg _]%Forall_cons].
    rewrite flat_cons, app_nil_r, entries_fst by done. rewrite last_or_zero_app by apply Hg.
    rewrite Hhd. cbn [header b_last]. unfold last_or_zero.
    pose proof (fmap_last fst g0.1) as Hf. change (fst <$> g0.1) with (map fst g0.1) in Hf. rewrite Hf.
    by destruct (last g0.1).
Qed.

(** ** Inserting *)

Definition entry_ok (e : Posting * Z) : Prop := is_u64 (slot_of e) /\ is_u32 e.1.2 /\ is_u32 e.2.

Lemma entries_ok_insert a b e :
  entries_ok (a ++ b) -> Forall (fun x => slot_of x < slot_of e)%Z a -> Forall (fun x => slot_of e < slot_of x)%Z b ->
  entry_ok e -> entries_ok (a ++ e :: b).
Proof.
  intros [Hs Hsl Hv] Ha Hb (H1 & H2 & H3). apply Forall_app in Hsl as [? ?], Hv as [? ?].
  split; [|apply Forall_app_2; [done|by constructor]|apply Forall_app_2; [done|by constructor]].
  rewrite map_app in Hs |- *. apply StronglySorted_app in Hs as (Hx & Hsa & Hsb). simpl.
  apply StronglySorted_app. split_and!; [|done|].
  - intros x y [x' [-> Hx']]%list_elem_of_fmap [->|Hy]%elem_of_cons.
    + rewrite Forall_forall in Ha. auto.
    + apply Hx; [apply list_elem_of_fmap; by exists x'|done].
  - constructor; [done|]. apply Forall_forall. intros y [y' [-> Hy']]%list_elem_of_fmap. rewrite Forall_forall in Hb. auto.
Qed.

Lemma entries_ok_remove a b e : entries_ok (a ++ e :: b) -> entries_ok (a ++ b).
Proof.
  intros [Hs Hsl Hv]. apply Forall_app in Hsl as [? [_ ?]%Forall_cons], Hv as [? [_ ?]%Forall_cons].
  split; [|by apply Forall_app_2|by apply Forall_app_2].
  rewrite map_app in Hs |- *. apply StronglySorted_app in Hs as (Hx & Hsa & Hsb). simpl in Hsb. inversion Hsb; subst.
  apply StronglySorted_app. split_and!; [|done|done]. intros x y Hx' Hy'. apply Hx; [done|by right].
Qed.

Lemma entries_ok_around a b e :
  entries_ok (a ++ e :: b) -> Forall (fun x => slot_of x < slot_of e)%Z a /\ Forall (fun x => slot_of e < slot_of x)%Z b.
Proof.
  intros [Hs _ _]. rewrite map_app in Hs. apply StronglySorted_app in Hs as (Hx & _ & Hsb). simpl in Hsb. inversion Hsb as [|?? _ Hf]; subst.
  split; apply Forall_forall; intros x Hin.
  - apply Hx; [apply list_elem_of_fmap; by exists x|left].
  - rewrite Forall_forall in Hf. apply Hf, list_elem_of_fmap. by exists x.
Qed.

Lemma flat_at gs k g : gs !! k = Some g -> flat gs = flat (take k gs) ++ entries g ++ flat (drop (S k) gs).
Proof. intros Hk. rewrite <- (take_drop_middle gs k g Hk) at 1. by rewrite flat_app, flat_cons. Qed.

Lemma map_fst_insert g n p o : group_ok g -> map fst (take n (entries g) ++ (p, o) :: drop n (entries g)) = list_insert_at g.1 n p.
Proof.
  intros Hg. rewrite map_app. cbn [map fst]. unfold list_insert_at. rewrite <- firstn_map, <- skipn_map, entries_fst; done.
Qed.

Lemma entries_snd g : group_ok g -> map snd (entries g) = g.2.
Proof. intros H. unfold entries. apply snd_zip. rewrite (go_ordinals _ H). lia. Qed.

Lemma map_snd_insert g n p o : group_ok g -> map snd (take n (entries g) ++ (p, o) :: drop n (entries g)) = list_insert_at g.2 n o.
Proof.
  intros Hg. rewrite map_app. cbn [map snd]. unfold list_insert_at. rewrite <- firstn_map, <- skipn_map, entries_snd; done.
Qed.

(** What an edit reads of the block that can hold a slot. *)
Lemma block_for_slot l gs slot :
  pl_ok words l gs -> (exists x, x ∈ flat gs /\ slot <= slot_of x)%Z ->
  exists k g, partition_point (pl_blocks l) (fun b => b_last b <? slot)%Z = Ok k /\ gs !! k = Some g /\ group_ok g /\
    k < length (pl_blocks l) /\ length (pl_blocks l) = length gs /\ decode_block l k = Ok g.1 /\ block_ordinals l k = Ok g.2 /\
    (slot <= last_slot g)%Z /\ Forall (fun e => slot_of e < slot)%Z (flat (take k gs)) /\
    Forall (fun e => slot < slot_of e)%Z (flat (drop (S k) gs)).
Proof.
  intros H (x & Hx & Hle). pose proof (po_repr _ _ _ H) as Hr. pose proof (lr_blocks _ _ Hr) as Hb.
  destruct (below_split l gs slot Hr) as (H1 & H2 & H3). set (k := length (take_below last_slot slot gs)) in *.
  destruct (gs !! k) as [g|] eqn:Hk.
  2:{ specialize (H2 eq_refl). rewrite Forall_forall in H2. specialize (H2 x Hx). simpl in H2. lia. }
  exists k, g. destruct (decode_block_ok l gs k g Hb Hk) as (b & Hbk & _ & Hd & _ & Ho & _).
  destruct (H3 g eq_refl). split_and!; try done.
  - by apply block_at_slot.
  - pose proof (br_groups _ _ Hb) as Hg. rewrite Forall_lookup in Hg. eauto.
  - by eapply lookup_lt_Some.
  - apply (blocks_at_length 0), Hb.
  - unfold block_ordinals. by rewrite Hbk.
Qed.

Lemma list_repr_counts l gs a b c : list_repr l gs -> list_repr (set_counts l a b c) gs.
Proof. intros [[] ?]. by repeat split. Qed.

Lemma Forall_keys (P : Posting -> Prop) es : Forall P (map fst es) -> Forall (fun x : Posting * Z => P x.1) es.
Proof. intros HP. apply Forall_forall. intros x Hx. rewrite Forall_forall in HP. apply HP, list_elem_of_fmap. by exists x. Qed.

Lemma pl_insert_ok l gs e :
  pl_ok words l gs -> entry_ok e -> (forall x, x ∈ flat gs -> slot_of x <> slot_of e) ->
  (exists x, x ∈ flat gs /\ slot_of e <= slot_of x)%Z -> (pl_count l + 1 < U32)%Z ->
  exists l' es, pl_insert words l e.1 e.2 = Ok l' /\ models words l' es /\ es ≡ₚ e :: flat gs.
Proof.
  intros H He Hnew Hex Hsz. destruct (block_for_slot l gs (slot_of e) H Hex) as (k & g & Hpp & Hk & Hg & Hkl & Hlen & Hd & Ho & Hlast & Hlo & Hhi).
  unfold pl_insert. change (e.1.1) with (slot_of e). rewrite Hpp. cbn [obind]. rewrite Hd. cbn [obind].
  pose proof (flat_at gs k g Hk) as Hflat.
  assert (Hin : forall x, x ∈ entries g -> x ∈ flat gs) by (intros x Hx; rewrite Hflat; apply elem_of_app; right; apply elem_of_app; by left).
  destruct (search_slot_ok g.1 (slot_of e) (go_sorted _ Hg)) as (r & -> & Hr). cbn [obind]. destruct r as [i|n].
  { exfalso. destruct Hr as (p & Hp & Hps). pose proof (entries_fst g Hg) as Hf. rewrite <- Hf, list_lookup_fmap in Hp.
    destruct (entries g !! i) as [x|] eqn:Hx; [|done]. simplify_eq/=. apply (Hnew x); [|done].
    apply Hin. by eapply list_elem_of_lookup_2. }
  destruct Hr as (Hn & Hlow & Hhigh). rewrite Ho. cbn [obind].
  set (es0 := take n (entries g) ++ e :: drop n (entries g)).
  replace (list_insert_at g.1 n e.1) with (map fst es0) by (unfold es0; destruct e; by apply map_fst_insert).
  replace (list_insert_at g.2 n e.2) with (map snd es0) by (unfold es0; destruct e; by apply map_snd_insert).
  assert (Hwhole : flat (take k gs) ++ es0 ++ flat (drop (S k) gs) =
    (flat (take k gs) ++ take n (entries g)) ++ e :: (drop n (entries g) ++ flat (drop (S k) gs))).
  { unfold es0. by rewrite <- !app_assoc. }
  assert (Hsplit : flat gs = (flat (take k gs) ++ take n (entries g)) ++ (drop n (entries g) ++ flat (drop (S k) gs))).
  { rewrite Hflat. rewrite <- app_assoc, (app_assoc (take n _)). by rewrite take_drop. }
  assert (Heok : entries_ok (flat (take k gs) ++ es0 ++ flat (drop (S k) gs))).
  { rewrite Hwhole. apply entries_ok_insert; [rewrite <- Hsplit; apply (repr_entries_ok l), H| | |done].
    - apply Forall_app_2; [done|]. apply (Forall_keys (fun p => p.1 < slot_of e)%Z). rewrite <- firstn_map. by rewrite entries_fst.
    - apply Forall_app_2; [|done]. apply (Forall_keys (fun p => slot_of e < p.1)%Z). rewrite <- skipn_map. by rewrite entries_fst. }
  assert (Hl0 : length es0 = length g.1 + 1).
  { unfold es0. rewrite length_app. cbn [length]. rewrite length_take, length_drop, entries_length by done. lia. }
  destruct (edit_block_ok l gs k g es0) as (l' & gs' & -> & Hrep & Hfl & Hsum & Hbo & Hpk & Hc1 & Hc2 & Hc3); [done|done| |done| |].
  { pose proof (go_length _ Hg). lia. }
  { intros Hs. pose proof (po_packed _ _ _ H k g Hk Hs). lia. }
  cbn [obind]. rewrite Hc1, Hc2, Hc3. unfold checked_add.
  assert (Hperm : flat gs' ≡ₚ e :: flat gs).
  { rewrite Hfl, Hwhole, Hsplit. by rewrite <- Permutation_middle. }
  assert (Hpos : positive (map fst (flat gs')) = (is_positive e.1.2 + positive (map fst (flat gs)))%Z).
  { rewrite (Permutation_map fst Hperm). cbn [map]. by rewrite positive_cons. }
  pose proof (Permutation_length Hperm) as Hlp. cbn [length] in Hlp.
  pose proof (positive_bound (map fst (flat gs'))) as Hpb. rewrite length_map in Hpb.
  pose proof (po_count _ _ _ H) as Hcnt. pose proof (po_positive _ _ _ H) as Hpos0.
  rewrite !(proj2 (Z.ltb_lt _ _)) by lia. cbn [expect obind]. eexists _, (flat gs'). split; [done|]. split; [|done].
  exists gs'. split; [|done]. split; try done; cbn [set_counts pl_count pl_positive_count pl_last].
  - by apply list_repr_counts.
  - lia.
  - lia.
  - rewrite (po_last _ _ _ H), Hfl, Hwhole, Hsplit. rewrite !map_app. cbn [map].
    assert (Hne : map fst (drop n (entries g)) ++ map fst (flat (drop (S k) gs)) <> []).
    { intros Hz. apply app_eq_nil in Hz as [Hz1 Hz2].
      destruct Hex as (x & Hx & Hxle). rewrite Hsplit in Hx. apply elem_of_app in Hx as [Hx|Hx].
      - rewrite Hwhole in Heok. apply entries_ok_around in Heok.
        destruct Heok as [Hlt _]. rewrite Forall_forall in Hlt. specialize (Hlt x Hx). simpl in Hlt. lia.
      - apply map_eq_nil in Hz1, Hz2. rewrite Hz1, Hz2 in Hx. by apply elem_of_nil in Hx. }
    rewrite last_or_zero_app by done. rewrite <- map_app in Hne |- *.
    match goal with |- _ = last_or_zero (?x ++ e.1 :: ?y) => rewrite (last_or_zero_app x (e.1 :: y)) by done; change (e.1 :: y) with ([e.1] ++ y) end.
    by rewrite last_or_zero_app.
Qed.

(** ** Removing and updating *)

Lemma sorted_NoDup (zs : list Z) : StronglySorted Z.lt zs -> NoDup zs.
Proof.
  induction 1 as [|z zs Hs IH Hf]; constructor; [|done]. intros Hin. rewrite Forall_forall in Hf. specialize (Hf z Hin). lia.
Qed.

Lemma slot_unique es i j x y :
  entries_ok es -> es !! i = Some x -> es !! j = Some y -> slot_of x = slot_of y -> i = j.
Proof.
  intros H Hx Hy Hxy. eapply (NoDup_lookup (map slot_of es)); [apply sorted_NoDup, H| |];
    rewrite list_lookup_fmap; [by rewrite Hx|rewrite Hy; simpl; by rewrite Hxy].
Qed.

Lemma search_entry es e :
  entries_ok es -> e ∈ es -> exists i, search_slot (map fst es) (slot_of e) = Ok (inl i) /\ es !! i = Some e.
Proof.
  intros H He. destruct (search_slot_ok (map fst es) (slot_of e)) as (r & -> & Hr); [rewrite map_map; apply H|].
  apply list_elem_of_lookup in He as [j Hj]. destruct r as [i|n].
  - destruct Hr as (p & Hp & Hps). rewrite list_lookup_fmap in Hp. destruct (es !! i) as [x|] eqn:Hx; [|done]. simplify_eq/=.
    exists i. split; [done|]. by rewrite (slot_unique es i j x e H Hx Hj Hps) in Hx |- *.
  - destruct Hr as (Hn & Hlo & Hhi). exfalso. assert (Hm : map fst es !! j = Some e.1) by (by rewrite list_lookup_fmap, Hj).
    destruct (decide (j < n)) as [Hlt|Hge].
    + rewrite Forall_lookup in Hlo. assert (e.1.1 < slot_of e)%Z; [|unfold slot_of in *; lia].
      apply (Hlo j). by rewrite lookup_take_lt.
    + rewrite Forall_lookup in Hhi. assert (slot_of e < e.1.1)%Z; [|unfold slot_of in *; lia].
      apply (Hhi (j - n)). rewrite lookup_drop. by replace (n + (j - n)) with j by lia.
Qed.

Lemma remove_at_map {A B} (f : A -> B) l i : map f (list_remove_at l i) = list_remove_at (map f l) i.
Proof. unfold list_remove_at. by rewrite map_app, <- firstn_map, <- skipn_map. Qed.

Lemma remove_at_split {A} (l : list A) i x :
  l !! i = Some x -> l = take i l ++ x :: drop (i + 1) l /\ list_remove_at l i = take i l ++ drop (i + 1) l.
Proof. intros Hi. split; [|done]. rewrite Nat.add_1_r. by rewrite take_drop_middle. Qed.

Lemma collect_ordinals_ok l gs fuel c r :
  list_repr l gs -> cursor_at gs c r -> length r < fuel -> collect_ordinals l fuel c = Ok (map snd r).
Proof.
  intros Hl. revert c r. induction fuel as [|fuel IH]; intros c r Hc Hf; [lia|]. cbn [collect_ordinals].
  rewrite (peek_ok l gs Hl c r Hc). cbn [obind]. destruct r as [|e r]; cbn [head fmap option_fmap option_map]; [done|].
  rewrite (ordinal_ok l gs Hl c e r Hc). cbn [obind].
  destruct (cursor_next_ok l gs Hl c (e :: r) Hc) as (c' & -> & Hc'). cbn [obind].
  rewrite (IH c' r Hc') by (simpl in Hf; lia). done.
Qed.

(** The block that holds an entry, and its place there. *)
Lemma entry_block l gs e :
  pl_ok words l gs -> e ∈ flat gs ->
  exists k g i, block_of l (slot_of e) = Ok (k, g.1) /\ gs !! k = Some g /\ group_ok g /\ length (pl_blocks l) = length gs /\
    block_ordinals l k = Ok g.2 /\ search_slot g.1 (slot_of e) = Ok (inl i) /\ entries g !! i = Some e.
Proof.
  intros H He. destruct (block_for_slot l gs (slot_of e) H) as (k & g & Hpp & Hk & Hg & Hkl & Hlen & Hd & Ho & Hlast & Hlo & Hhi).
  { exists e. split; [done|lia]. }
  assert (Hin : e ∈ entries g).
  { rewrite (flat_at gs k g Hk) in He. apply elem_of_app in He as [He|[He|He]%elem_of_app]; [|done|].
    - rewrite Forall_forall in Hlo. specialize (Hlo e He). simpl in Hlo. lia.
    - rewrite Forall_forall in Hhi. specialize (Hhi e He). simpl in Hhi. lia. }
  destruct (search_entry (entries g) e (group_entries_ok g Hg) Hin) as (i & Hs & Hi).
  rewrite entries_fst in Hs by done. exists k, g, i. split_and!; try done.
  unfold block_of. rewrite Hpp. cbn [obind]. rewrite (proj2 (Nat.ltb_lt _ _)) by done. by rewrite Hd.
Qed.

Lemma flat_nil gs : Forall group_ok gs -> flat gs = [] -> gs = [].
Proof.
  intros Hg Hf. destruct gs as [|g gs]; [done|]. inversion Hg as [|?? Hg1 _]; subst. rewrite flat_cons in Hf.
  apply app_eq_nil in Hf as [Hf _]. pose proof (entries_length g Hg1) as Hl. rewrite Hf in Hl.
  destruct (go_nonempty _ Hg1). by apply nil_length_inv.
Qed.

Lemma list_repr_empty l : list_repr (touch (set_blocks l [] [])) [].
Proof. split; [|constructor]. split; [constructor|done|done]. Qed.

Lemma remove_repack_ok l gs e :
  pl_ok words l gs -> e ∈ flat gs ->
  exists l' es, (let* postings := decode l in
    let* r := search_slot postings (slot_of e) in
    let* index := found r in
    let* c := cursor_new l in
    let* ordinals := collect_ordinals l (S (posting_total l)) c in
    encode_with_ordinals words l (list_remove_at postings index) (list_remove_at ordinals index)) = Ok l' /\
    models words l' es /\ flat gs ≡ₚ e :: es.
Proof.
  intros H He. pose proof (po_repr _ _ _ H) as Hr. pose proof (repr_entries_ok l gs Hr) as Heok.
  rewrite (decode_ok l gs Hr). cbn [obind]. destruct (search_entry (flat gs) e Heok He) as (i & -> & Hi). cbn [obind found].
  destruct (cursor_new_ok l gs Hr) as (c & -> & Hc). cbn [obind].
  rewrite (collect_ordinals_ok l gs _ c (flat gs) Hr Hc) by (rewrite (flat_length l gs Hr); lia). cbn [obind].
  destruct (remove_at_split _ _ _ Hi) as [Hsp Hrem]. rewrite <- !remove_at_map.
  assert (Hperm : flat gs ≡ₚ e :: list_remove_at (flat gs) i).
  { rewrite Hrem. rewrite Hsp at 1. by rewrite <- Permutation_middle. }
  destruct (encode_ok l (list_remove_at (flat gs) i) (map snd (list_remove_at (flat gs) i))) as (l' & -> & Hm).
  - rewrite Hrem. eapply entries_ok_remove. rewrite <- Hsp. done.
  - by left.
  - pose proof (Permutation_length Hperm) as Hl. cbn [length] in Hl. pose proof (po_count _ _ _ H). pose proof (po_small _ _ _ H). lia.
  - eauto.
Qed.

Lemma pl_remove_ok l gs e :
  pl_ok words l gs -> e ∈ flat gs ->
  exists l' es, pl_remove words l (slot_of e) = Ok l' /\ models words l' es /\ flat gs ≡ₚ e :: es.
Proof.
  intros H He. destruct (entry_block l gs e H He) as (k & g & i & Hb & Hk & Hg & Hlen & Ho & Hs & Hi).
  pose proof (repr_entries_ok l gs (po_repr _ _ _ H)) as Heok.
  unfold pl_remove. rewrite Hb. cbn [obind].
  destruct ((length g.1 <=? MIN_BLOCK_LEN) && (k + 1 <? length (pl_blocks l))) eqn:E; [by apply remove_repack_ok|].
  rewrite Hs. cbn [obind found]. pose proof (entries_fst g Hg) as Hfst.
  assert (Hp : g.1 !! i = Some e.1) by (rewrite <- Hfst, list_lookup_fmap, Hi; done). rewrite Hp. cbn [expect obind].
  rewrite Ho. cbn [obind]. destruct (remove_at_split _ _ _ Hi) as [Hsp Hrem].
  set (es0 := list_remove_at (entries g) i) in *.
  replace (list_remove_at g.1 i) with (map fst es0) by (unfold es0; rewrite remove_at_map; by rewrite Hfst).
  replace (list_remove_at g.2 i) with (map snd es0) by (unfold es0; rewrite remove_at_map; by rewrite entries_snd).
  pose proof (flat_at gs k g Hk) as Hflat.
  assert (Hbig : flat gs = (flat (take k gs) ++ take i (entries g)) ++ e :: (drop (i + 1) (entries g) ++ flat (drop (S k) gs))).
  { rewrite Hflat. rewrite Hsp at 1. by rewrite <- !app_assoc. }
  assert (Hsmall : flat (take k gs) ++ es0 ++ flat (drop (S k) gs) =
    (flat (take k gs) ++ take i (entries g)) ++ (drop (i + 1) (entries g) ++ flat (drop (S k) gs))).
  { rewrite Hrem. by rewrite <- !app_assoc. }
  assert (Hl0 : S (length es0) = length g.1).
  { apply lookup_lt_Some in Hp as Hlt. rewrite Hrem, length_app, length_take, length_drop, entries_length by done. lia. }
  destruct (edit_block_ok l gs k g es0) as (l' & gs' & -> & Hrep & Hfl & Hsum & Hbo & Hpk & Hc1 & Hc2 & Hc3); [done|done| | | |].
  { pose proof (go_length _ Hg). lia. }
  { rewrite Hsmall. eapply entries_ok_remove. rewrite <- Hbig. done. }
  { intros Hs2. apply andb_false_iff in E as [E|E]; bool_to_prop; lia. }
  assert (Hperm : flat gs ≡ₚ e :: flat gs') by (rewrite Hfl, Hsmall, Hbig; by rewrite <- Permutation_middle).
  cbn [obind]. rewrite Hc1, Hc2. unfold checked_sub.
  assert (Hpos : positive (map fst (flat gs)) = (is_positive e.1.2 + positive (map fst (flat gs')))%Z).
  { rewrite (Permutation_map fst Hperm). cbn [map]. by rewrite positive_cons. }
  pose proof (Permutation_length Hperm) as Hlp. cbn [length] in Hlp.
  pose proof (positive_bound (map fst (flat gs'))) as Hpb. rewrite length_map in Hpb.
  pose proof (po_count _ _ _ H) as Hcnt. pose proof (po_positive _ _ _ H) as Hpos0. pose proof (po_small _ _ _ H).
  rewrite !(proj2 (Z.leb_le _ _)) by lia. cbn [expect obind]. eexists _, (flat gs'). split; [done|]. split; [|done].
  rewrite (last_block_slot l' gs' Hrep). destruct (pl_count l - 1 =? 0)%Z eqn:Ez; bool_to_prop.
  - assert (Hnil : flat gs' = []) by (apply nil_length_inv; lia).
    exists []. split; [|done]. rewrite Hnil in *. split; simpl; try done; try lia.
    + apply (list_repr_empty (set_counts l' _ _ _)).
    + apply (touch_summary_ok (set_blocks (set_counts l' _ _ _) [] [])).
    + simpl in Hpos. lia.
  - exists gs'. split; [|done]. split; try done; cbn [set_counts pl_count pl_positive_count pl_last]; try lia. by apply list_repr_counts.
Qed.

Lemma insert_at_map {A B} (f : A -> B) (l : list A) i x : map f (<[i := x]> l) = <[i := f x]> (map f l).
Proof. apply list_fmap_insert. Qed.

Lemma update_split {A} (l : list A) i x y :
  l !! i = Some x -> l = take i l ++ x :: drop (S i) l /\ <[i := y]> l = take i l ++ y :: drop (S i) l.
Proof.
  intros Hi. split; [by rewrite take_drop_middle|]. apply insert_take_drop. by eapply lookup_lt_Some.
Qed.

Lemma entries_ok_update a b e e' :
  entries_ok (a ++ e :: b) -> entry_ok e' -> slot_of e' = slot_of e -> entries_ok (a ++ e' :: b).
Proof.
  intros H He' Hs. destruct (entries_ok_around a b e H). apply entries_ok_insert; [by eapply entries_ok_remove| | |done]; by rewrite Hs.
Qed.

Lemma pl_set_entry_ok l gs e frequency ordinal :
  pl_ok words l gs -> e ∈ flat gs -> is_u32 frequency -> (forall n, ordinal = Some n -> is_u32 n) ->
  let e' := ((slot_of e, frequency), default e.2 ordinal) in
  exists l' es r, pl_set_entry words l (slot_of e) frequency ordinal = Ok l' /\ models words l' es /\
    flat gs ≡ₚ e :: r /\ es ≡ₚ e' :: r.
Proof.
  intros H He Hf Hn e'. destruct (entry_block l gs e H He) as (k & g & i & Hb & Hk & Hg & Hlen & Ho & Hs & Hi).
  pose proof (repr_entries_ok l gs (po_repr _ _ _ H)) as Heok. pose proof (entries_fst g Hg) as Hfst.
  unfold pl_set_entry. rewrite Hb. cbn [obind]. rewrite Hs. cbn [obind found]. rewrite Ho. cbn [obind].
  assert (Hp : g.1 !! i = Some e.1) by (rewrite <- Hfst, list_lookup_fmap, Hi; done).
  assert (Ho2 : g.2 !! i = Some e.2) by (rewrite <- (entries_snd g Hg), list_lookup_fmap, Hi; done).
  rewrite Hp, Ho2. cbn [expect obind].
  destruct (update_split _ _ _ e' Hi) as [Hsp Hup]. pose proof (flat_at gs k g Hk) as Hflat.
  set (r := (flat (take k gs) ++ take i (entries g)) ++ (drop (S i) (entries g) ++ flat (drop (S k) gs))).
  assert (Hbig : forall x, flat (take k gs) ++ (take i (entries g) ++ x :: drop (S i) (entries g)) ++ flat (drop (S k) gs) =
    (flat (take k gs) ++ take i (entries g)) ++ x :: (drop (S i) (entries g) ++ flat (drop (S k) gs))) by (intros x; by rewrite <- !app_assoc).
  assert (Hold : flat gs ≡ₚ e :: r) by (rewrite Hflat; rewrite Hsp at 1; rewrite Hbig; by rewrite <- Permutation_middle).
  destruct ((frequency =? e.1.2)%Z && match ordinal with None => true | Some n => (n =? e.2)%Z end) eqn:E.
  { exists l, (flat gs), r. split_and!; [done|by exists gs|done|]. replace e' with e; [done|].
    apply andb_true_iff in E as [E1 E2]. bool_to_prop. unfold e'. destruct e as [[s f] o]. cbn in *. subst f.
    destruct ordinal as [n|]; simpl; [bool_to_prop; by subst|done]. }
  assert (Heu : entry_ok e').
  { destruct (repr_entries_ok l gs (po_repr _ _ _ H)) as [_ Hsl Hv]. rewrite Forall_forall in Hsl, Hv.
    specialize (Hsl e He). specialize (Hv e He). split; [done|]. split; [done|]. unfold e'. simpl.
    destruct ordinal as [n|]; simpl; [by apply Hn|apply Hv]. }
  pose proof (po_positive _ _ _ H) as Hpos0. pose proof (po_count _ _ _ H) as Hcnt.
  assert (Hpos : positive (map fst (flat gs)) = (is_positive e.1.2 + positive (map fst r))%Z).
  { rewrite (Permutation_map fst Hold). cbn [map]. by rewrite positive_cons. }
  pose proof (positive_bound (map fst r)) as Hpb.
  unfold checked_sub. rewrite (proj2 (Z.leb_le _ _)) by lia. cbn [expect obind].
  set (es0 := <[i := e']> (entries g)).
  replace (<[i := (e.1.1, frequency)]> g.1) with (map fst es0) by (unfold es0; rewrite insert_at_map, Hfst; done).
  replace (match ordinal with Some n => <[i := n]> g.2 | None => g.2 end) with (map snd es0).
  2:{ unfold es0. rewrite insert_at_map, entries_snd by done. unfold e'. simpl. destruct ordinal; simpl; [done|]. by apply list_insert_id. }
  set (l1 := set_counts l (pl_count l) (pl_positive_count l - is_positive e.1.2 + is_positive frequency)%Z (pl_last l)).
  assert (Hl0 : length es0 = length g.1) by (unfold es0; rewrite length_insert; by apply entries_length).
  assert (Hnewok : entries_ok (flat (take k gs) ++ es0 ++ flat (drop (S k) gs))).
  { unfold es0. rewrite Hup, Hbig. apply (entries_ok_update _ _ e); [|done|done]. by rewrite <- Hbig, <- Hsp, <- Hflat. }
  destruct (rewrite_block_ok l1 gs k g es0) as (l' & Hrw & Hr & Hsum & Hbo & Hc1 & Hc2 & Hc3).
  { destruct (lr_blocks _ _ (po_repr _ _ _ H)). by split. }
  { apply H. } { done. }
  { apply entries_ok_app in Hnewok as [_ Hx]. by apply entries_ok_app in Hx as [? _]. }
  { pose proof (go_length _ Hg). lia. }
  set (hs := groups_of (length es0) (rewrite_size (length es0)) es0) in *.
  assert (Hfl : flat (take k gs ++ hs ++ drop (S k) gs) = flat (take k gs) ++ es0 ++ flat (drop (S k) gs)).
  { rewrite !flat_app. f_equal. f_equal. apply groups_of_flat; [|done]. apply rewrite_size_ok. pose proof (go_length _ Hg). lia. }
  assert (Hperm : flat (take k gs ++ hs ++ drop (S k) gs) ≡ₚ e' :: r).
  { rewrite Hfl. unfold es0. rewrite Hup, Hbig. by rewrite <- Permutation_middle. }
  exists l', (flat (take k gs ++ hs ++ drop (S k) gs)), r. split_and!; [done| |done|done].
  exists (take k gs ++ hs ++ drop (S k) gs). split; [|done]. split; try done.
  - split; [done|]. rewrite Hfl. apply Hnewok.
  - apply (packed_edit gs k g); [apply H|done|pose proof (go_length _ Hg); lia|]. intros Hsk. rewrite Hl0. by apply (po_packed _ _ _ H k g).
  - rewrite Hc1. cbn [l1 set_counts pl_count]. rewrite Hcnt. f_equal.
    rewrite (Permutation_length Hperm), (Permutation_length Hold). done.
  - rewrite Hc1. apply H.
  - rewrite Hc2. cbn [l1 set_counts pl_positive_count]. rewrite (Permutation_map fst Hperm). cbn [map]. rewrite positive_cons. unfold e'. simpl. lia.
  - rewrite Hc3. cbn [l1 set_counts pl_last]. rewrite (po_last _ _ _ H), Hfl. unfold es0. rewrite Hup, Hbig.
    rewrite Hflat at 1. rewrite Hsp at 1. rewrite Hbig, !map_app. cbn [map]. rewrite !last_or_zero_app by done.
    unfold last_or_zero. destruct (map fst (drop (S i) (entries g) ++ flat (drop (S k) gs))) as [|x y] eqn:Ex; cbn [last]; [done|].
    destruct (last (x :: y)) eqn:El; [done|]. by apply last_None in El.
Qed.

Lemma elem_flat gs j h x : gs !! j = Some h -> x ∈ entries h -> x ∈ flat gs.
Proof. intros Hj Hx. rewrite (flat_at gs j h Hj). apply elem_of_app. right. apply elem_of_app. by left. Qed.

Lemma bounds_ok_ext words' b g :
  (forall p, p ∈ g.1 -> words' p.1 = words p.1) -> bounds_ok words b g -> bounds_ok words' b g.
Proof.
  intros Hext [Hc Hm Hf]. split; [|done|done]. unfold covers in *. rewrite Forall_forall in Hc |- *.
  intros p Hp. rewrite (Hext p Hp). by apply Hc.
Qed.

Definition unbounded (b : Block) : Block :=
  {| b_offset := b_offset b; b_first := b_first b; b_last := b_last b; b_count := b_count b;
     b_doc_bits := b_doc_bits b; b_frequency_bits := b_frequency_bits b; b_ordinal_bits := b_ordinal_bits b;
     b_max_frequency := b_max_frequency b; b_min_words := 0; b_frontier := None |}.

Lemma unbounded_headers off gs bs k b :
  blocks_at off gs bs -> bs !! k = Some b -> blocks_at off gs (<[k := unbounded b]> bs).
Proof.
  revert off bs k. induction gs as [|g gs IH]; intros off [|b0 bs] k H Hk; try done.
  destruct H as [Hh H]. destruct k as [|k]; simplify_eq/=.
  - split; [|done]. unfold header_of in *. rewrite Hh. done.
  - split; [done|]. by apply IH.
Qed.

(** After the length of one document changed, the bounds of its block are dropped and those of
    the other blocks still hold. *)
Lemma pl_invalidate_ok words' l gs e :
  pl_ok words l gs -> e ∈ flat gs -> (forall s, 0 <= words' s)%Z -> (forall s, s <> slot_of e -> words' s = words s) ->
  exists l', pl_invalidate_length l (slot_of e) = Ok l' /\ models words' l' (flat gs).
Proof.
  intros H He Hpos Hsame.
  destruct (block_for_slot l gs (slot_of e) H) as (k & g & Hpp & Hk & Hg & Hkl & Hlen & _ & _ & _ & Hlo & Hhi);
    [exists e; split; [done|lia]|].
  pose proof (po_repr _ _ _ H) as [Hbr Hsort]. destruct (blocks_repr_split l gs k g Hbr Hk) as (b & Hbk & _).
  unfold pl_invalidate_length. rewrite Hpp. cbn [obind]. rewrite Hbk. cbn [expect obind]. fold (unbounded b).
  eexists. split; [done|]. exists gs. split; [|done]. pose proof (po_bounds _ _ _ H) as Hbo.
  split; try apply H; [| |]; cbn [touch set_blocks pl_blocks].
  - split; [|done]. destruct Hbr as [Hgs Hd Hbl]. split; [done|done|]. by apply unbounded_headers.
  - apply (touch_summary_ok (set_blocks l _ _)).
  - apply Forall2_same_length_lookup. split; [by rewrite length_insert|]. intros j x h Hx Hh.
    destruct (decide (j = k)) as [->|Hne].
    + rewrite list_lookup_insert_eq in Hx by done. simplify_eq. destruct (Forall2_lookup_lr _ _ _ _ _ _ Hbo Hbk Hk) as [Hc _ _].
      split; cbn [unbounded b_min_words b_frontier]; [|lia|done]. unfold covers in *.
      eapply Forall_impl; [exact Hc|]. cbn [unbounded b_max_frequency b_min_words b_frontier]. intros p (Hp & _ & _).
      split; [done|]. split; [apply Hpos|by right].
    + rewrite list_lookup_insert_ne in Hx by done.
      apply bounds_ok_ext; [|exact (Forall2_lookup_lr _ _ _ _ _ _ Hbo Hx Hh)].
      intros p Hp. apply Hsame. assert (Hhok : group_ok h) by (pose proof (br_groups _ _ Hbr) as Hgs; rewrite Forall_lookup in Hgs; eauto).
      rewrite <- (entries_fst h Hhok) in Hp. apply list_elem_of_fmap in Hp as (x' & -> & Hx').
      destruct (decide (j < k)) as [Hlt|Hge].
      * assert (Hin : x' ∈ flat (take k gs)) by (apply (elem_flat _ j h); [by rewrite lookup_take_lt|done]).
        rewrite Forall_forall in Hlo. specialize (Hlo x' Hin). unfold slot_of in *. simpl in Hlo. lia.
      * assert (Hin : x' ∈ flat (drop (S k) gs)).
        { apply (elem_flat _ (j - S k) h); [|done]. rewrite lookup_drop. by replace (S k + (j - S k)) with j by lia. }
        rewrite Forall_forall in Hhi. specialize (Hhi x' Hin). unfold slot_of in *. simpl in Hhi. lia.
Qed.

(** ** Merging a run into the list *)

Definition slot_lt (a b : Posting * Z) : Prop := (slot_of a < slot_of b)%Z.
#[local] Instance slot_lt_dec : RelDecision slot_lt.
Proof. intros a b. unfold slot_lt. apply _. Defined.

Definition apart (a b : list (Posting * Z)) : Prop := forall x y, x ∈ a -> y ∈ b -> slot_of x <> slot_of y.

Lemma merge_sorted_ok a b : apart a b -> merge_sorted (map fst a) (map fst b) = Ok (map fst (list_merge slot_lt a b)).
Proof.
  revert b. induction a as [|x a IHa]; intros b Hd; [by destruct b|].
  induction b as [|y b IHb]; [done|]. rewrite list_merge_cons.
  change (merge_sorted (map fst (x :: a)) (map fst (y :: b))) with
    (match (x.1.1 ?= y.1.1)%Z with
     | Lt => let* m := merge_sorted (map fst a) (map fst (y :: b)) in Ok (x.1 :: m)
     | Gt => let* m := merge_sorted (map fst (x :: a)) (map fst b) in Ok (y.1 :: m)
     | Eq => Panic
     end).
  pose proof (Hd x y ltac:(left) ltac:(left)) as Hxy. unfold slot_of in Hxy.
  destruct (x.1.1 ?= y.1.1)%Z eqn:E.
  - apply Z.compare_eq in E. done.
  - apply Z.compare_lt_iff in E. rewrite decide_True by done. rewrite IHa; [done|].
    intros p q Hp Hq. apply Hd; [by right|done].
  - apply Z.compare_gt_iff in E. rewrite decide_False by (unfold slot_lt, slot_of; lia). rewrite IHb; [done|].
    intros p q Hp Hq. apply Hd; [done|by right].
Qed.

Lemma merge_entries_ok a b :
  entries_ok a -> entries_ok b -> apart a b -> entries_ok (list_merge slot_lt a b).
Proof.
  intros Ha Hb Hd. pose proof (merge_Permutation slot_lt a b) as Hp. split.
  - destruct Ha as [Ha _ _], Hb as [Hb _ _]. clear Hp. revert b Hb Hd.
    induction a as [|x a IHa]; intros b; [by destruct b|]. simpl in Ha. inversion Ha as [|?? Ha1 Ha2]; subst.
    induction b as [|y b IHb]; intros Hb Hd; [done|]. pose proof Hb as Hb0. simpl in Hb. inversion Hb as [|?? Hb1 Hb2]; subst.
    rewrite list_merge_cons. rewrite Forall_forall in Ha2, Hb2.
    pose proof (Hd x y ltac:(left) ltac:(left)) as Hxy. case_decide as E; unfold slot_lt in E; simpl; constructor.
    + apply IHa; [done|done|]. intros p q Hp Hq. apply Hd; [by right|done].
    + apply Forall_forall. intros s [z [-> Hz]]%list_elem_of_fmap. rewrite merge_Permutation in Hz.
      apply elem_of_app in Hz as [Hz|[->|Hz]%elem_of_cons]; [apply Ha2, list_elem_of_fmap; by exists z|done|].
      assert (slot_of y < slot_of z)%Z by (apply Hb2, list_elem_of_fmap; by exists z). lia.
    + apply IHb; [done|]. intros p q Hp Hq. apply Hd; [done|by right].
    + apply Forall_forall. intros s [z [-> Hz]]%list_elem_of_fmap. rewrite merge_Permutation in Hz.
      apply elem_of_app in Hz as [[->|Hz]%elem_of_cons|Hz]; [lia| |apply Hb2, list_elem_of_fmap; by exists z].
      assert (slot_of x < slot_of z)%Z by (apply Ha2, list_elem_of_fmap; by exists z). lia.
  - rewrite Hp. apply Forall_app_2; [apply Ha|apply Hb].
  - rewrite Hp. apply Forall_app_2; [apply Ha|apply Hb].
Qed.

(** The ordinals read along the merge are those of the merged entries; the cursor may still
    stand on the last entry it gave. *)
Lemma merge_ordinals_ok l gs new ordinals n r next passed c :
  list_repr l gs -> ordinals_of new ordinals -> apart r (drop next new) ->
  StronglySorted Z.lt (map slot_of r) ->
  (forall x y, x ∈ passed -> y ∈ r -> slot_of x < slot_of y)%Z ->
  length r + length (drop next new) <= n -> cursor_at gs c (passed ++ r) ->
  merge_ordinals l (map fst (list_merge slot_lt r (drop next new))) (map fst new) ordinals next c =
    Ok (map snd (list_merge slot_lt r (drop next new))).
Proof.
  intros Hl Ho. revert r next passed c. induction n as [|n IH]; intros r next passed c Hd Hs Hpass Hn Hc.
  { destruct r; [|simpl in Hn; lia]. destruct (drop next new); [done|simpl in Hn; lia]. }
  assert (Hold : forall x r', r = x :: r' -> match map fst new !! next with Some p => (p.1 =? slot_of x)%Z | None => false end = false ->
    forall M, (forall c', cursor_at gs c' ([x] ++ r') -> merge_ordinals l (map fst M) (map fst new) ordinals next c' = Ok (map snd M)) ->
    merge_ordinals l (map fst (x :: M)) (map fst new) ordinals next c = Ok (map snd (x :: M))).
  { intros x r' -> Hno M HM. destruct x as [[s f] o]. cbn [map fst merge_ordinals]. change (slot_of (s, f, o)) with s in Hno. rewrite Hno.
    destruct (advance_ok l gs Hl c (passed ++ (s, f, o) :: r') s Hc) as (c' & Hadv & Hc').
    rewrite drop_below_app in Hadv, Hc'.
    2,3: apply Forall_forall; intros z Hz; apply (Hpass z (s, f, o) Hz); left.
    rewrite drop_below_id in Hadv, Hc' by (intros z [= <-]; unfold slot_of; simpl; lia).
    cbn [head fmap option_fmap option_map fst] in Hadv. rewrite Hadv. cbn [obind]. cbn [fst]. rewrite Z.eqb_refl.
    rewrite (ordinal_ok l gs Hl c' (s, f, o) r' Hc'). cbn [obind snd]. rewrite (HM c' Hc'). done. }
  assert (Hnew : forall y, new !! next = Some y ->
    forall M, merge_ordinals l (map fst M) (map fst new) ordinals (next + 1) c = Ok (map snd M) ->
    merge_ordinals l (map fst (y :: M)) (map fst new) ordinals next c = Ok (map snd (y :: M))).
  { intros y Hy M HM. destruct y as [[s f] o]. cbn [map fst merge_ordinals]. rewrite list_lookup_fmap, Hy.
    cbn [fmap option_fmap option_map fst]. rewrite Z.eqb_refl, HM. cbn [obind]. do 2 f_equal.
    destruct Ho as [->|[-> Hz]]; [rewrite list_lookup_fmap, Hy; done|]. rewrite Forall_lookup in Hz. specialize (Hz _ _ Hy). simpl in *. done. }
  destruct (drop next new) as [|y d] eqn:Edrop.
  - rewrite list_merge_nil_r in *. destruct r as [|x r]; [done|]. apply (Hold x r eq_refl).
    + rewrite list_lookup_fmap. rewrite (lookup_ge_None_2 new); [done|]. apply (f_equal length) in Edrop. rewrite length_drop in Edrop. simpl in Edrop. lia.
    + intros c' Hc'. simpl in Hs, Hn. inversion Hs as [|?? Hs1 Hs2]; subst.
      specialize (IH r next [x] c'). rewrite Edrop, list_merge_nil_r in IH. apply IH; [|done| |simpl; lia|done].
      * intros p q Hp Hq. by apply elem_of_nil in Hq.
      * intros p q ->%list_elem_of_singleton Hq. rewrite Forall_forall in Hs2. apply Hs2, list_elem_of_fmap. by exists q.
  - assert (Hy : new !! next = Some y) by (rewrite <- (Nat.add_0_r next), <- lookup_drop, Edrop; done).
    assert (Hd1 : drop (next + 1) new = d) by (rewrite Nat.add_1_r; pose proof (drop_S _ _ _ Hy) as Hx; rewrite Edrop in Hx; by simplify_eq).
    destruct r as [|x r].
    { rewrite list_merge_nil_l. apply (Hnew y Hy). specialize (IH [] (next + 1) passed c). rewrite Hd1, list_merge_nil_l in IH.
      apply IH; [|done| |simpl in *; lia|done]; intros p q; [intros Hp; by apply elem_of_nil in Hp|intros _ Hq; by apply elem_of_nil in Hq]. }
    rewrite list_merge_cons. pose proof (Hd x y ltac:(left) ltac:(left)) as Hxy. case_decide as E.
    + apply (Hold x r eq_refl).
      * rewrite list_lookup_fmap, Hy. simpl. apply Z.eqb_neq. unfold slot_of in *. congruence.
      * intros c' Hc'. simpl in Hs, Hn. inversion Hs as [|?? Hs1 Hs2]; subst. rewrite <- Edrop. apply (IH r next [x] c'); rewrite ?Edrop; [|done| |simpl in *; lia|done].
        -- intros p q Hp Hq. apply Hd; [by right|done].
        -- intros p q ->%list_elem_of_singleton Hq. rewrite Forall_forall in Hs2. apply Hs2, list_elem_of_fmap. by exists q.
    + apply (Hnew y Hy). rewrite <- Hd1. apply (IH (x :: r) (next + 1) passed c); rewrite ?Hd1; [|done|done|simpl in *; lia|done].
      intros p q Hp Hq. apply Hd; [done|by right].
Qed.

Lemma merge_run_ok l gs new ordinals :
  pl_ok words l gs -> entries_ok new -> ordinals_of new ordinals -> apart (flat gs) new ->
  (Z.of_nat (length (flat gs) + length new) < U32)%Z ->
  exists l' es, (let* decoded := decode l in
    let* merged := merge_sorted decoded (map fst new) in
    let* c := cursor_new l in
    let* merged_ords := merge_ordinals l merged (map fst new) ordinals 0 c in
    encode_with_ordinals words l merged merged_ords) = Ok l' /\ models words l' es /\ es ≡ₚ flat gs ++ new.
Proof.
  intros H Hn Ho Hd Hsz. pose proof (po_repr _ _ _ H) as Hr. pose proof (repr_entries_ok l gs Hr) as Hes.
  rewrite (decode_ok l gs Hr). cbn [obind]. rewrite merge_sorted_ok by done. cbn [obind].
  destruct (cursor_new_ok l gs Hr) as (c & -> & Hc). cbn [obind].
  pose proof (merge_ordinals_ok l gs new ordinals (length (flat gs) + length new) (flat gs) 0 [] c Hr Ho) as Hm.
  rewrite drop_0 in Hm. rewrite Hm; [|done|apply Hes|intros x y Hx; by apply elem_of_nil in Hx|done|done]. cbn [obind].
  pose proof (merge_Permutation slot_lt (flat gs) new) as Hp.
  destruct (encode_ok l (list_merge slot_lt (flat gs) new) (map snd (list_merge slot_lt (flat gs) new))) as (l' & -> & Hl').
  - by apply merge_entries_ok.
  - by left.
  - rewrite Hp, length_app. done.
  - eauto.
Qed.

(** ** Appending after the last slot *)

Lemma block_points_ok b g :
  bounds_ok words b g -> group_ok g -> header_of (b_offset b) g b ->
  length (block_points b) <= length g.1 /\ Forall point_ok (block_points b) /\
  forall p, p ∈ g.1 -> p.2 <> 0%Z -> exists q, q ∈ block_points b /\ dominates q (p.2, words p.1).
Proof.
  intros [Hc Hm Hf] Hg Hh. unfold block_points, covers in *. rewrite Forall_forall in Hc.
  destruct (b_frontier b) as [pts|] eqn:E.
  - destruct (Hf pts eq_refl). split_and!; [done|done|]. intros p Hp Hnz. destruct (Hc p Hp) as (_ & _ & [?|?]); done.
  - destruct g.1 as [|p0 ps] eqn:Eg; [by destruct (go_nonempty _ Hg)|]. split_and!.
    + simpl. lia.
    + constructor; [|constructor]. destruct (Hc p0 ltac:(left)) as (_ & Hmw & _). specialize (Hwords p0.1).
      unfold point_ok. simpl. rewrite Hh. cbn [header b_max_frequency]. split; [|rewrite Hh in Hm, Hmw; cbn [header b_min_words] in *; lia].
      apply (list_max_bound (U32 - 1)); [done|]. pose proof (go_frequencies _ Hg) as Hfr. eapply Forall_impl; [exact Hfr|]. unfold is_u32. simpl. lia.
    + intros p Hp Hnz. exists (b_max_frequency b, b_min_words b). split; [left|]. destruct (Hc p Hp) as (H1 & H2 & _). split; done.
Qed.

Lemma extend_bounds_ok b g new off :
  bounds_ok words b g -> group_ok g -> header_of (b_offset b) g b ->
  group_ok (grp (entries g ++ new)) ->
  exists fr, frontier (block_points b ++ points_of words (map fst new)) = Ok fr /\
    bounds_ok words (header off (grp (entries g ++ new)) (Z.min (least_length words (map fst new)) (b_min_words b)) fr) (grp (entries g ++ new)).
Proof.
  intros Hb Hg Hh Hnew. destruct (block_points_ok b g Hb Hg Hh) as (Hlen & Hpok & Hdom).
  assert (Hfst : (grp (entries g ++ new)).1 = g.1 ++ map fst new) by (unfold grp; cbn [fst]; by rewrite map_app, entries_fst).
  assert (Hfreq : Forall is_u32 (map snd (map fst new))).
  { pose proof (go_frequencies _ Hnew) as Hf. rewrite Hfst, map_app in Hf. by apply Forall_app in Hf as [_ ?]. }
  pose proof (points_of_ok words (map fst new) Hwords Hfreq) as Hpn.
  destruct (frontier_spec (block_points b ++ points_of words (map fst new))) as (fr & Hfr & Hspec).
  { pose proof (go_length _ Hnew) as Hl. rewrite Hfst, length_app in Hl. unfold points_of. rewrite length_app, length_map. lia. }
  { by apply Forall_app_2. }
  exists fr. split; [done|]. split; cbn [header b_min_words b_frontier].
  - unfold covers. apply Forall_forall. intros p Hp. cbn [header b_max_frequency b_min_words b_frontier]. split.
    { apply list_max_ge, list_elem_of_fmap. by exists p. }
    assert (Hpos : is_u32 p.2).
    { pose proof (go_frequencies _ Hnew) as Hf. rewrite Forall_forall in Hf. apply Hf, list_elem_of_fmap. by exists p. }
    unfold is_u32 in Hpos. rewrite Hfst in Hp. apply elem_of_app in Hp as [Hp|Hp].
    + destruct Hb as [Hc _ _]. unfold covers in Hc. rewrite Forall_forall in Hc. destruct (Hc p Hp) as (_ & Hmw & _). split; [lia|].
      destruct (decide (p.2 = 0%Z)) as [|Hnz]; [by left|right]. destruct fr as [pts|]; [|done].
      destruct (Hdom p Hp Hnz) as (q & Hq & Hqp). destruct Hspec as (_ & _ & _ & Hd). specialize (Hwords p.1).
      destruct (Hd q) as (q' & Hq' & Hqq); [apply elem_of_app; by left| | |].
      * unfold dominates in Hqp. simpl in Hqp. lia.
      * unfold dominates in Hqp. simpl in Hqp. lia.
      * exists q'. split; [done|]. unfold dominates in *. simpl in *. lia.
    + split; [pose proof (least_length_le words _ _ Hp); lia|]. destruct (decide (p.2 = 0%Z)) as [|Hnz]; [by left|right].
      destruct fr as [pts|]; [|done]. destruct Hspec as (_ & _ & _ & Hd). apply (Hd (p.2, words p.1)); [|simpl; lia|simpl; apply Hwords].
      apply elem_of_app. right. apply list_elem_of_fmap. by exists p.
  - pose proof (least_length_bound words (map fst new) Hwords). pose proof (bo_min_words _ _ _ Hb). lia.
  - intros pts ->. destruct Hspec as (Hl & _ & Hin & _). rewrite Hfst, length_app. unfold points_of in Hl. rewrite length_app, length_map in Hl.
    split; [lia|]. apply Forall_forall. intros q Hq. specialize (Hin q Hq). rewrite Forall_forall in Hpok, Hpn. apply elem_of_app in Hin as [?|?]; auto.
Qed.

Lemma blocks_repr_snoc l gs g :
  blocks_repr l (gs ++ [g]) ->
  exists bs b, pl_blocks l = bs ++ [b] /\ length bs = length gs /\ header_of (length (encoded gs)) g b /\ group_ok g /\
    pl_data l = encoded gs ++ enc_group g /\ decode_values l b = Ok g.1 /\ decode_ordinals l b = Ok g.2 /\
    blocks_repr (set_blocks l (take (b_offset b) (pl_data l)) (take (length (pl_blocks l) - 1) (pl_blocks l))) gs.
Proof.
  intros H. pose proof H as [Hg Hd Hb]. apply blocks_at_app in Hb as (b1 & b2 & Hbl & H1 & H2).
  apply blocks_at_cons in H2 as (b & b3 & -> & Hh & H3). destruct b3; [|done]. rewrite Nat.add_0_l in Hh.
  pose proof (blocks_at_length _ _ _ H1) as Hl1. apply Forall_app in Hg as [Hgs [Hg1 _]%Forall_cons].
  assert (Hdata : pl_data l = encoded gs ++ enc_group g) by (rewrite Hd, encoded_app; unfold encoded; simpl; by rewrite app_nil_r).
  assert (Hk : (gs ++ [g]) !! length gs = Some g) by (by apply list_lookup_middle).
  destruct (decode_block_ok l (gs ++ [g]) (length gs) g H Hk) as (b' & Hb' & _ & _ & Hv & Ho & _).
  rewrite Hbl, list_lookup_middle in Hb' by done. injection Hb' as <-.
  exists b1, b. split_and!; try done. split; cbn [set_blocks pl_data pl_blocks]; [done| |].
  - rewrite Hdata. replace (b_offset b) with (length (encoded gs)) by (by rewrite Hh). apply take_app_length.
  - rewrite Hbl, length_app. simpl. rewrite take_app_length' by lia. done.
Qed.

Lemma packed_snoc gs g h : packed (gs ++ [g]) -> packed (gs ++ [h]).
Proof.
  intros Hp i x Hi Hlt. rewrite length_app in Hlt. simpl in Hlt. apply lookup_app_Some in Hi as [Hi|[Hge Hi]].
  - apply (Hp i x); [by apply lookup_app_l_Some|rewrite length_app; simpl; lia].
  - apply lookup_lt_Some in Hi. simpl in Hi. lia.
Qed.

Lemma top_up_ok l gs new ordinals :
  pl_ok words l gs -> entries_ok (flat gs ++ new) -> new <> [] -> ordinals_of new ordinals ->
  exists l1 gs1 start, top_up words l (map fst new) ordinals = Ok (l1, start) /\ start <= length new /\
    blocks_repr l1 gs1 /\ flat gs1 = flat gs ++ take start new /\ Forall2 (bounds_ok words) (pl_blocks l1) gs1 /\
    summary_ok l1 /\ packed gs1 /\ (start < length new -> forall g, last gs1 = Some g -> MIN_BLOCK_LEN <= length g.1) /\
    pl_count l1 = pl_count l /\ pl_positive_count l1 = pl_positive_count l /\ pl_last l1 = pl_last l.
Proof.
  intros H He Hne Ho. pose proof (lr_blocks _ _ (po_repr _ _ _ H)) as Hb. unfold top_up.
  destruct gs as [|g gs _] using rev_ind.
  { assert (Hnil : pl_blocks l = []) by (destruct Hb as [_ _ Hb]; by destruct (pl_blocks l)).
    rewrite Hnil. cbn [last]. exists l, [], 0. split_and!; try done; try apply H; lia. }
  destruct (blocks_repr_snoc l gs g Hb) as (bs & b & Hbl & Hl & Hh & Hg & Hdata & Hdv & Hdo & Hrest).
  assert (Hlast : last (pl_blocks l) = Some b) by (rewrite Hbl; apply last_snoc). rewrite Hlast.
  assert (Hcount : b_count b = length g.1) by (by rewrite Hh). rewrite Hcount.
  destruct (length g.1 <? BLOCK_LEN) eqn:Efull; bool_to_prop.
  2:{ exists l, (gs ++ [g]), 0. rewrite take_0, app_nil_r. split_and!; try done; try apply H; [lia|].
      intros _ g' Hg'. rewrite last_snoc in Hg'. simplify_eq. change MIN_BLOCK_LEN with 32. change BLOCK_LEN with 128 in Efull. lia. }
  rewrite Hdv. cbn [obind]. rewrite Hdo. cbn [obind]. rewrite length_map.
  set (t := Nat.min (BLOCK_LEN - length g.1) (length new)). set (tk := take t new).
  assert (Htk : length tk = t) by (unfold tk; rewrite length_take; lia).
  replace (take t (map fst new)) with (map fst tk) by (unfold tk; by rewrite firstn_map).
  assert (Hords : (if Nat.eqb (length ordinals) 0 then replicate t 0%Z else take t ordinals) = map snd tk).
  { destruct Ho as [->|[-> Hz]].
    - rewrite length_map. destruct new; [done|]. cbn [length Nat.eqb]. unfold tk. by rewrite firstn_map.
    - cbn [length Nat.eqb]. rewrite zeros_replicate by (by apply Forall_take). by rewrite Htk. }
  rewrite Hords.
  assert (Hsub : entries_ok (entries g ++ tk)).
  { rewrite flat_app, <- app_assoc in He. apply entries_ok_app in He as [_ He]. rewrite flat_cons in He. change (flat []) with (@nil (Posting * Z)) in He. rewrite app_nil_r in He.
    unfold tk. rewrite <- (take_drop t new), app_assoc in He. by apply entries_ok_app in He as [? _]. }
  assert (Hgok : group_ok (grp (entries g ++ tk))).
  { apply grp_ok; [done| |].
    - intros Hn. apply app_eq_nil in Hn as [Hn _]. apply (f_equal length) in Hn. rewrite entries_length in Hn by done. destruct (go_nonempty _ Hg). by apply nil_length_inv.
    - rewrite length_app, entries_length, Htk by done. lia. }
  assert (Hbo : bounds_ok words b g).
  { pose proof (po_bounds _ _ _ H) as Hall. rewrite Hbl in Hall. apply Forall2_app_inv in Hall as [_ Hx]; [|done]. by inversion Hx. }
  set (l0 := set_blocks l (take (b_offset b) (pl_data l)) (take (length (pl_blocks l) - 1) (pl_blocks l))) in *.
  assert (Hh' : header_of (b_offset b) g b) by (replace (b_offset b) with (length (encoded gs)) by (by rewrite Hh); done).
  destruct (extend_bounds_ok b g tk (length (pl_data l0)) Hbo Hg Hh' Hgok) as (fr & Hfr & Hbo').
  rewrite Hfr. cbn [obind].
  replace (g.1 ++ map fst tk) with (grp (entries g ++ tk)).1 by (unfold grp; cbn [fst]; by rewrite map_app, entries_fst).
  replace (g.2 ++ map snd tk) with (grp (entries g ++ tk)).2 by (unfold grp; cbn [snd]; by rewrite map_app, entries_snd).
  destruct (append_block_ok l0 gs (grp (entries g ++ tk)) (grp (entries g ++ tk)).2
    (Z.min (least_length words (map fst tk)) (b_min_words b)) fr Hrest Hgok (or_introl eq_refl))
    as (l1 & -> & H1 & Hsum & Hbl1 & Hc1 & Hc2 & Hc3). cbn [obind].
  exists l1, (gs ++ [grp (entries g ++ tk)]), t. split_and!; try done; [lia| | | |].
  - rewrite !flat_app, !flat_cons, entries_grp. change (flat []) with (@nil (Posting * Z)). rewrite !app_nil_r, <- app_assoc. done.
  - rewrite Hbl1. apply Forall2_app; [|by constructor]. pose proof (po_bounds _ _ _ H) as Hall. rewrite Hbl in Hall.
    apply Forall2_app_inv in Hall as [Hx _]; [|done]. unfold l0. cbn [set_blocks pl_blocks]. rewrite Hbl, length_app. simpl. by rewrite take_app_length' by lia.
  - eapply packed_snoc. apply H.
  - intros Hlt g' Hg'. rewrite last_snoc in Hg'. simplify_eq. unfold grp. cbn [fst]. rewrite length_map, length_app, entries_length, Htk by done.
    change MIN_BLOCK_LEN with 32. change BLOCK_LEN with 128 in *. lia.
Qed.

Lemma packed_app gs hs :
  packed gs -> (hs <> [] -> forall g, last gs = Some g -> MIN_BLOCK_LEN <= length g.1) -> packed hs -> packed (gs ++ hs).
Proof.
  intros Hg Hl Hh i x Hi Hlt. rewrite length_app in Hlt. apply lookup_app_Some in Hi as [Hi|[Hge Hi]].
  - destruct (decide (S i < length gs)); [by apply (Hg i x)|]. apply Hl; [intros ->; simpl in Hlt; lia|].
    rewrite last_lookup. pose proof (lookup_lt_Some _ _ _ Hi). by replace (Nat.pred (length gs)) with i by lia.
  - apply (Hh (i - length gs) x Hi). lia.
Qed.

Lemma append_tail_ok l gs new ordinals :
  pl_ok words l gs -> entries_ok (flat gs ++ new) -> new <> [] -> ordinals_of new ordinals ->
  (Z.of_nat (length (flat gs) + length new) < U32)%Z ->
  exists l', (let* (l, start) := top_up words l (map fst new) ordinals in
    let* l := append_chunks words (length (map fst new)) l BLOCK_LEN (drop start (map fst new)) (ordinals_or_none ordinals) start in
    let* count := to_u32 (pl_count l + Z.of_nat (length (map fst new))) in
    let* positive_ := expect (checked_add U32 (pl_positive_count l) (positive (map fst new))) in
    Ok (set_counts l count positive_ (last_or_zero (map fst new)))) = Ok l' /\ models words l' (flat gs ++ new).
Proof.
  intros H He Hne Ho Hsz.
  destruct (top_up_ok l gs new ordinals H He Hne Ho) as (l1 & gs1 & st & -> & Hst & Hr1 & Hf1 & Hb1 & Hs1 & Hp1 & Hfull & Hc1 & Hc2 & Hc3).
  cbn [obind]. rewrite length_map. replace (drop st (map fst new)) with (map fst (drop st new)) by (by rewrite skipn_map).
  assert (Hdok : entries_ok (drop st new)) by (apply entries_ok_drop; by apply entries_ok_app in He as [_ ?]).
  assert (Htl : length (take st new) = st) by (rewrite length_take; lia).
  destruct (append_chunks_ok words Hwords (length new) l1 gs1 BLOCK_LEN (drop st new) (ordinals_or_none ordinals) st)
    as (l2 & bs & -> & Hr & Hsum & Hsame & Hbl & Hb & Hd1 & Hd2 & Hd3); [done|done|vm_compute; lia|rewrite length_drop; lia| |].
  { intros a b Hab. pose proof (ordinals_or_none_ok (drop st new) ordinals (take st new) a b) as Hx.
    rewrite take_drop, Htl in Hx. by apply Hx. }
  cbn [obind]. set (hs := groups_of (length new) BLOCK_LEN (drop st new)) in *.
  assert (Hflat : flat (gs1 ++ hs) = flat gs ++ new).
  { rewrite flat_app, Hf1. unfold hs. rewrite groups_of_flat; [|vm_compute; lia|rewrite length_drop; lia]. by rewrite <- app_assoc, take_drop. }
  pose proof (po_count _ _ _ H) as Hcnt. pose proof (po_positive _ _ _ H) as Hpos.
  pose proof (positive_bound (map fst (flat gs))) as Hpb1. pose proof (positive_bound (map fst new)) as Hpb2. rewrite length_map in Hpb1, Hpb2.
  unfold to_u32, checked_add. rewrite Hd1, Hd2, Hc1, Hc2. rewrite !(proj2 (Z.ltb_lt _ _)) by lia. cbn [expect obind].
  eexists. split; [done|]. exists (gs1 ++ hs). split; [|done].
  split; rewrite ?Hflat; cbn [set_counts pl_count pl_positive_count pl_last].
  - apply list_repr_counts. split; [done|]. rewrite Hflat. apply He.
  - destruct Hsum as [Hnil|Hsum]; [|exact Hsum]. rewrite (Hsame Hnil). exact Hs1.
  - cbn [set_counts pl_blocks]. rewrite Hbl. by apply Forall2_app.
  - apply packed_app; [done| |apply groups_packed]. intros Hhs. apply Hfull.
    destruct (decide (st < length new)) as [|Hge]; [done|]. exfalso. apply Hhs. unfold hs. rewrite drop_ge by lia. by destruct (length new).
  - rewrite length_app. lia.
  - lia.
  - rewrite map_app, positive_app. lia.
  - rewrite map_app. rewrite last_or_zero_app; [done|]. by destruct new.
Qed.

Lemma last_slot_flat gs :
  flat gs <> [] -> exists x, x ∈ flat gs /\ slot_of x = last_or_zero (map fst (flat gs)) /\
    (entries_ok (flat gs) -> forall y, y ∈ flat gs -> slot_of y <= slot_of x)%Z.
Proof.
  intros Hne. destruct (flat gs) as [|x es _] using rev_ind; [done|].
  exists x. split_and!.
  - apply elem_of_app. right. left.
  - rewrite map_app, last_or_zero_app by done. done.
  - intros Hok y [Hy|Hy]%elem_of_app; [|apply list_elem_of_singleton in Hy as ->; lia].
    destruct (entries_ok_around es [] x Hok) as [Hlt _]. rewrite Forall_forall in Hlt. specialize (Hlt y Hy). simpl in Hlt. lia.
Qed.

(** Adding a run of new slots, wherever it falls. *)
Lemma append_run_ok l gs new ordinals :
  pl_ok words l gs -> entries_ok new -> ordinals_of new ordinals -> apart (flat gs) new ->
  (Z.of_nat (length (flat gs) + length new) < U32)%Z ->
  exists l' es, append_run_with_ordinals words l (map fst new) ordinals = Ok l' /\ models words l' es /\ es ≡ₚ flat gs ++ new.
Proof.
  intros H Hn Ho Hd Hsz. unfold append_run_with_ordinals. rewrite ordinals_of_length by done.
  destruct new as [|e new]; cbn [map].
  { exists l, (flat gs). rewrite app_nil_r. split_and!; [done|by exists gs|done]. }
  change (fst e :: map fst new) with (map fst (e :: new)) in *.
  pose proof (repr_entries_ok l gs (po_repr _ _ _ H)) as Hes. pose proof (po_count _ _ _ H) as Hcnt.
  assert (He : entry_ok e) by (destruct Hn as [_ Hsl Hv]; apply Forall_cons in Hsl as [? _], Hv as [? _]; done).
  destruct ((0 <? pl_count l)%Z && (e.1.1 <=? pl_last l)%Z) eqn:E.
  - apply andb_true_iff in E as [E1 E2]. bool_to_prop.
    assert (Hnf : flat gs <> []) by (intros Hz; rewrite Hz in Hcnt; simpl in Hcnt; lia).
    destruct (last_slot_flat gs Hnf) as (x & Hx & Hxl & _). destruct new as [|e2 new].
    + cbn [map]. assert (Hord : default 0%Z (head ordinals) = e.2).
      { destruct Ho as [->|[-> Hz]]; [done|]. apply Forall_cons in Hz as [Hz _]. simpl in *. done. }
      rewrite Hord. destruct (pl_insert_ok l gs e H He) as (l' & es & Hins & Hm & Hp).
      * intros y Hy. apply Hd; [done|left].
      * exists x. split; [done|]. rewrite Hxl, <- (po_last _ _ _ H). exact E2.
      * simpl in Hsz. lia.
      * exists l', es. split_and!; [done|done|]. rewrite Hp. by rewrite <- Permutation_cons_append.
    + cbn [map]. change (fst e :: fst e2 :: map fst new) with (map fst (e :: e2 :: new)). by apply merge_run_ok.
  - assert (Hlow : forall x, x ∈ flat gs -> (slot_of x < slot_of e)%Z).
    { intros x Hx. assert (Hnf : flat gs <> []) by (intros Hz; rewrite Hz in Hx; by apply elem_of_nil in Hx).
      destruct (last_slot_flat gs Hnf) as (y & Hy & Hyl & Hmax). specialize (Hmax Hes x Hx). rewrite <- (po_last _ _ _ H) in Hyl.
      apply andb_false_iff in E as [E|E]; bool_to_prop; [|unfold slot_of in *; lia].
      exfalso. apply Hnf, nil_length_inv. lia. }
    destruct (append_tail_ok l gs (e :: new) ordinals H) as (l' & Hrun & Hm); [|done|done|done|].
    + destruct Hes as [Hs1 Hs2 Hs3], Hn as [Hn1 Hn2 Hn3]. split; [|by apply Forall_app_2|by apply Forall_app_2].
      rewrite map_app. apply StronglySorted_app. split_and!; [|done|done].
      intros a b [x [-> Hx]]%list_elem_of_fmap [y [-> Hy]]%list_elem_of_fmap. specialize (Hlow x Hx).
      apply elem_of_cons in Hy as [->|Hy]; [done|]. simpl in Hn1. inversion Hn1 as [|?? _ Hf]; subst.
      rewrite Forall_forall in Hf. specialize (Hf (slot_of y) ltac:(apply list_elem_of_fmap; by exists y)). lia.
    + exists l', (flat gs ++ e :: new). split_and!; [|done|done]. destruct new; exact Hrun.
Qed.
End EditSpec.

(** ** Lengths that do not matter *)

Lemma append_chunks_words words words' fuel l size ps ordinals_at start :
  (forall p, p ∈ ps -> words' p.1 = words p.1) ->
  append_chunks words' fuel l size ps ordinals_at start = append_chunks words fuel l size ps ordinals_at start.
Proof.
  revert l ps start. induction fuel as [|fuel IH]; intros l ps start Hw; [done|]. cbn [append_chunks].
  destruct ps as [|p0 ps0] eqn:Eps; [done|]. rewrite <- Eps in *. clear Eps p0 ps0.
  assert (Htake : forall p, p ∈ take size ps -> words' p.1 = words p.1) by (intros p Hp; eapply Hw, subseteq_take, Hp).
  assert (Hpt : points_of words' (take size ps) = points_of words (take size ps)).
  { apply map_ext_in. intros p Hp. f_equal. apply Htake. by apply list_elem_of_In. }
  assert (Hln : least_length words' (take size ps) = least_length words (take size ps)).
  { unfold least_length. replace (lengths words' (take size ps)) with (lengths words (take size ps)); [done|].
    apply map_ext_in. intros p Hp. symmetry. apply Htake. by apply list_elem_of_In. }
  rewrite Hpt, Hln. destruct (ordinals_at _ _); [|done|done]. cbn [obind]. destruct (frontier _); [|done|done]. cbn [obind].
  destruct (append_block _ _ _ _ _); [|done|done]. cbn [obind]. apply IH. intros p Hp. eapply Hw, subseteq_drop, Hp.
Qed.

Lemma removed_slots es i e p :
  entries_ok es -> es !! i = Some e -> p ∈ map fst (list_remove_at es i) -> p.1 <> slot_of e.
Proof.
  intros He Hi Hp. destruct (remove_at_split _ _ _ Hi) as [Hsp Hrem]. rewrite Hrem in Hp.
  apply list_elem_of_fmap in Hp as (x & -> & Hx). pose proof (sorted_NoDup _ (eo_sorted _ He)) as Hnd.
  rewrite Hsp, map_app, map_cons in Hnd. apply NoDup_app in Hnd as (_ & H1 & H2). apply NoDup_cons in H2 as [H2 _].
  intros Hs. apply elem_of_app in Hx as [Hx|Hx].
  - apply (H1 (slot_of x)); [apply list_elem_of_fmap; by exists x|]. change (slot_of x = slot_of e) in Hs. rewrite Hs. left.
  - apply H2. change (slot_of x = slot_of e) in Hs. rewrite <- Hs. apply list_elem_of_fmap. by exists x.
Qed.

(** Removing a posting reads the lengths of the other postings only. *)
Lemma pl_remove_words words words' l gs e :
  pl_ok words l gs -> e ∈ flat gs -> (forall s, s <> slot_of e -> words' s = words s) ->
  pl_remove words' l (slot_of e) = pl_remove words l (slot_of e).
Proof.
  intros H He Hw. destruct (entry_block words l gs e H He) as (k & g & i & Hb & Hk & Hg & Hlen & Ho & Hs & Hi).
  pose proof (po_repr _ _ _ H) as Hr. pose proof (repr_entries_ok l gs Hr) as Heok.
  unfold pl_remove. rewrite Hb. cbn [obind]. destruct (_ && _).
  - rewrite (decode_ok l gs Hr). cbn [obind]. destruct (search_entry (flat gs) e Heok He) as (j & -> & Hj). cbn [obind found].
    destruct (cursor_new l); [|done|done]. cbn [obind]. destruct (collect_ordinals _ _ _); [|done|done]. cbn [obind].
    unfold encode_with_ordinals. destruct (_ || _); [|done]. rewrite (append_chunks_words words words'); [done|].
    intros p Hp. apply Hw. rewrite <- remove_at_map in Hp. by eapply removed_slots.
  - rewrite Hs. cbn [obind found]. destruct (g.1 !! i) as [p0|]; [|done]. cbn [expect obind]. rewrite Ho. cbn [obind].
    replace (rewrite_block words' l k (list_remove_at g.1 i) (list_remove_at g.2 i))
      with (rewrite_block words l k (list_remove_at g.1 i) (list_remove_at g.2 i)); [done|].
    unfold rewrite_block. destruct (pl_blocks l !! k); [|done]. cbn [expect obind].
    rewrite (append_chunks_words words words'); [done|]. intros p Hp. apply Hw.
    rewrite <- (entries_fst g Hg), <- remove_at_map in Hp. eapply removed_slots; [|done|done]. by apply group_entries_ok.
Qed.
