(* ===== verification/PostingRuns.v ===== *)
(** * Histories of posting lists

    What every reachable [PostingList] guarantees: after any sequence of runs added, postings
    removed, entries changed and document lengths invalidated, the list is the map the edits
    describe, its bounds hold for every posting, and its cursors walk the map in slot order. *)

From S2P Require Import Prelude Words BitPack Search Positions Terms Postings Cursor PostingEdit.

(** ** The reference: a map from slots to (frequency, ordinal) *)

Abbreviation slot_map := (gmap Z (Z * Z)).

Definition to_pair (e : Posting * Z) : Z * (Z * Z) := (slot_of e, (e.1.2, e.2)).
Definition to_map (es : list (Posting * Z)) : slot_map := list_to_map (map to_pair es).

Inductive edit : Type :=
| ERun (new : list (Posting * Z)) (ordinals : list Z)
| ERemove (slot : Z)
| ESet (slot frequency : Z) (ordinal : option Z)
| ELength (slot words : Z)
(** Reads that fill a cell of the summary: the list's maxima and the frontiers of its runs. *)
| EMaxima
| ESummary.

Definition set_words (words : Z -> Z) (slot w : Z) : Z -> Z := fun s => if decide (s = slot) then w else words s.

(** An edit or a caching read of a list under the current document lengths. *)
Definition pl_edit (words : Z -> Z) (l : PostingList) (o : edit) : outcome PostingList :=
  match o with
  | ERun new ordinals => append_run_with_ordinals words l (map fst new) ordinals
  | ERemove slot => pl_remove words l slot
  | ESet slot f ordinal => pl_set_entry words l slot f ordinal
  | ELength slot _ => pl_invalidate_length l slot
  | EMaxima => Ok (maxima l).1
  | ESummary => Ok (summary l).1
  end.

Definition next_words (words : Z -> Z) (o : edit) : Z -> Z :=
  match o with ELength slot w => set_words words slot w | _ => words end.

Definition map_edit (m : slot_map) (o : edit) : slot_map :=
  match o with
  | ERun new _ => to_map new ∪ m
  | ERemove slot => delete slot m
  | ESet slot f ordinal => alter (fun v => (f, default v.2 ordinal)) slot m
  | ELength _ _ | EMaxima | ESummary => m
  end.

Fixpoint pl_edits (words : Z -> Z) (l : PostingList) (os : list edit) : outcome PostingList :=
  match os with
  | [] => Ok l
  | o :: rest => let* l := pl_edit words l o in pl_edits (next_words words o) l rest
  end.

Definition final_words (words : Z -> Z) (os : list edit) : Z -> Z := foldl next_words words os.
Definition final_map (os : list edit) : slot_map := foldl map_edit ∅ os.

(** What the callers keep to: runs are ascending and new, removed and changed slots are there,
    values are 32-bit and the list stays below 2^32 postings. *)
Definition edit_allowed (m : slot_map) (o : edit) : Prop :=
  match o with
  | ERun new ordinals => entries_ok new /\ ordinals_of new ordinals /\
      Forall (fun e => m !! slot_of e = None) new /\ (Z.of_nat (size m + length new) < U32)%Z
  | ERemove slot => is_Some (m !! slot)
  | ESet slot f ordinal => is_Some (m !! slot) /\ is_u32 f /\ match ordinal with Some n => is_u32 n | None => True end
  | ELength slot w => is_Some (m !! slot) /\ (0 <= w < U32_MAX)%Z
  | EMaxima | ESummary => True
  end.

Fixpoint edits_allowed (m : slot_map) (os : list edit) : Prop :=
  match os with
  | [] => True
  | o :: rest => edit_allowed m o /\ edits_allowed (map_edit m o) rest
  end.

(** ** Entries as a map *)

Definition distinct (es : list (Posting * Z)) : Prop := NoDup (map slot_of es).

Lemma entries_distinct es : entries_ok es -> distinct es.
Proof. intros H. apply sorted_NoDup, H. Qed.

Lemma pair_keys es : (map to_pair es).*1 = map slot_of es.
Proof. change ((map to_pair es).*1) with (map fst (map to_pair es)). by rewrite map_map. Qed.

Lemma to_map_Some es s v :
  distinct es -> to_map es !! s = Some v <-> exists e, e ∈ es /\ to_pair e = (s, v).
Proof.
  intros Hd. unfold to_map. rewrite <- elem_of_list_to_map by (by rewrite pair_keys).
  rewrite list_elem_of_fmap. naive_solver.
Qed.

Lemma to_map_perm es es' : distinct es -> es ≡ₚ es' -> to_map es = to_map es'.
Proof.
  intros Hd Hp. unfold to_map. apply list_to_map_proper; [by rewrite pair_keys|]. by apply (Permutation_map to_pair).
Qed.

Lemma distinct_perm es es' : es ≡ₚ es' -> distinct es -> distinct es'.
Proof. intros Hp. unfold distinct. by rewrite (Permutation_map slot_of Hp). Qed.

Lemma to_map_app a b : to_map (a ++ b) = to_map a ∪ to_map b.
Proof. unfold to_map. by rewrite map_app, list_to_map_app. Qed.

Lemma to_map_cons e es : to_map (e :: es) = <[slot_of e := (e.1.2, e.2)]> (to_map es).
Proof. done. Qed.

Lemma to_map_size es : distinct es -> size (to_map es) = length es.
Proof.
  intros Hd. unfold to_map. rewrite map_size_list_to_map by (by rewrite pair_keys). by rewrite length_map.
Qed.

Lemma to_map_None es e : to_map es !! slot_of e = None -> forall x, x ∈ es -> slot_of x <> slot_of e.
Proof.
  intros Hn x Hx Hs. unfold to_map in Hn. apply not_elem_of_list_to_map_2 in Hn. apply Hn.
  rewrite pair_keys. apply list_elem_of_fmap. by exists x.
Qed.

(** ** Every edit *)

Lemma models_default words : models words pl_default [].
Proof.
  exists []. split; [|done]. split; try done.
  - split; [|constructor]. split; [constructor|done|done].
  - unfold summary_ok. simpl. vm_compute. lia.
Qed.

Lemma models_entries words l es : models words l es -> entries_ok es.
Proof. intros (gs & H & <-). exact (repr_entries_ok l gs (po_repr _ _ _ H)). Qed.

(** Filling a cell of the summary with what it caches. *)
Lemma models_set_summary words l es s :
  models words l es -> pl_summary l <> None ->
  (forall v, s_maxima s = Some v -> v = maxima_of (pl_blocks l)) -> (forall v, s_runs s = Some v -> v = summary_runs (pl_blocks l)) ->
  models words (set_summary l s) es.
Proof.
  intros (gs & H & Hes) Hs Hv Hw. exists gs. split; [|done].
  pose proof (po_repr _ _ _ H) as [Hb Hl]. split; try apply H.
  - split; [|exact Hl]. destruct Hb. by split.
  - pose proof (po_summary _ _ _ H) as Hsum. unfold summary_ok in *. cbn [set_summary pl_summary pl_blocks].
    destruct (pl_summary l); [|done]. destruct Hsum as [Hlong _]. done.
Qed.

Lemma maxima_models words l es : models words l es -> models words (maxima l).1 es.
Proof.
  intros Hm. unfold maxima. destruct (pl_summary l) as [s|] eqn:Es; [|done]. destruct (s_maxima s) eqn:Ev; [done|].
  apply models_set_summary; [done|congruence|by intros v [= <-]|]. destruct Hm as (gs & H & _). pose proof (po_summary _ _ _ H) as Hsum.
  unfold summary_ok in Hsum. rewrite Es in Hsum. apply Hsum.
Qed.

Lemma summary_models words l es : models words l es -> models words (summary l).1 es.
Proof.
  intros Hm. unfold summary. destruct (pl_summary l) as [s|] eqn:Es; [|done]. destruct (s_runs s) eqn:Ev; [done|].
  apply models_set_summary; [done|congruence| |by intros v [= <-]]. destruct Hm as (gs & H & _). pose proof (po_summary _ _ _ H) as Hsum.
  unfold summary_ok in Hsum. rewrite Es in Hsum. apply Hsum.
Qed.

Lemma edit_ok words l es o :
  words_small words -> models words l es -> edit_allowed (to_map es) o ->
  exists l' es', pl_edit words l o = Ok l' /\ models (next_words words o) l' es' /\ to_map es' = map_edit (to_map es) o.
Proof.
  intros Hw Hm Ho. pose proof (entries_distinct es (models_entries _ _ _ Hm)) as Hd.
  pose proof (maxima_models _ _ _ Hm) as Hmax. pose proof (summary_models _ _ _ Hm) as Hsum. destruct Hm as (gs & H & Hes).
  destruct o as [new ordinals|slot|slot f ordinal|slot w| |]; cbn [pl_edit next_words map_edit edit_allowed] in *.
  - destruct Ho as (Hn & Hor & Hnew & Hsz). rewrite to_map_size in Hsz by done. rewrite <- Hes in *.
    destruct (append_run_ok words Hw l gs new ordinals H Hn Hor) as (l' & es' & Hrun & Hm' & Hp); [|done|].
    { intros x y Hx Hy. rewrite Forall_forall in Hnew. exact (to_map_None _ _ (Hnew y Hy) x Hx). }
    exists l', es'. split_and!; [done|done|].
    pose proof (entries_distinct _ (models_entries _ _ _ Hm')) as Hd'.
    rewrite (to_map_perm es' (new ++ flat gs) Hd'); [by rewrite to_map_app|]. rewrite Hp. apply Permutation_app_comm.
  - destruct Ho as [v Hv]. apply to_map_Some in Hv as (e & He & Hp); [|done]. injection Hp as Hs Hv. rewrite <- Hs, <- Hes in *.
    destruct (pl_remove_ok words Hw l gs e H He) as (l' & es' & Hrun & Hm' & Hperm). exists l', es'. split_and!; [done|done|].
    rewrite (to_map_perm _ _ Hd Hperm), to_map_cons, delete_insert_id; [done|].
    apply not_elem_of_list_to_map_1. rewrite pair_keys. apply (distinct_perm _ _ Hperm) in Hd. by apply NoDup_cons in Hd as [? _].
  - destruct Ho as ([v Hv] & Hf & Hon). apply to_map_Some in Hv as (e & He & Hp); [|done]. injection Hp as Hs Hv. rewrite <- Hs, <- Hes in *.
    destruct (pl_set_entry_ok words Hw l gs e f ordinal H He Hf) as (l' & es' & r & Hrun & Hm' & Hold & Hnew).
    { intros n ->. done. }
    exists l', es'. split_and!; [done|done|]. pose proof (entries_distinct _ (models_entries _ _ _ Hm')) as Hd'.
    rewrite (to_map_perm _ _ Hd Hold), (to_map_perm _ _ Hd' Hnew), !to_map_cons. rewrite alter_insert_eq. done.
  - destruct Ho as ([v Hv] & Hww). apply to_map_Some in Hv as (e & He & Hp); [|done]. injection Hp as Hs Hv. rewrite <- Hs, <- Hes in *.
    destruct (pl_invalidate_ok words (set_words words (slot_of e) w) l gs e H He) as (l' & Hrun & Hm').
    + intros s. unfold set_words. case_decide; [lia|apply Hw].
    + intros s Hne. unfold set_words. by rewrite decide_False.
    + exists l', (flat gs). split_and!; done.
  - exists (maxima l).1, es. done.
  - exists (summary l).1, es. done.
Qed.

Lemma next_words_small words m o : words_small words -> edit_allowed m o -> words_small (next_words words o).
Proof.
  intros Hw Ho. destruct o; try done. intros s. cbn [next_words]. unfold set_words. case_decide; [|apply Hw].
  destruct Ho as [_ ?]. lia.
Qed.

Lemma edits_ok words l es os :
  words_small words -> models words l es -> edits_allowed (to_map es) os ->
  exists l' es', pl_edits words l os = Ok l' /\ models (final_words words os) l' es' /\
    to_map es' = foldl map_edit (to_map es) os.
Proof.
  revert words l es. induction os as [|o os IH]; intros words l es Hw Hm Ha; [exists l, es; done|].
  destruct Ha as [Ho Ha]. destruct (edit_ok words l es o Hw Hm Ho) as (l1 & es1 & Hrun & Hm1 & He1).
  cbn [pl_edits]. rewrite Hrun. cbn [obind]. rewrite <- He1 in Ha.
  destruct (IH (next_words words o) l1 es1) as (l2 & es2 & Hrun2 & Hm2 & He2); [by eapply next_words_small|done|done|].
  exists l2, es2. split_and!; [done|done|]. rewrite He2. cbn [foldl]. by rewrite He1.
Qed.

(** ** What a reachable list guarantees *)

Definition reached (words : Z -> Z) (os : list edit) (l : PostingList) : Prop :=
  words_small words /\ edits_allowed ∅ os /\ pl_edits words pl_default os = Ok l.

Lemma reached_models words os l :
  reached words os l -> exists es, models (final_words words os) l es /\ to_map es = final_map os.
Proof.
  intros (Hw & Ha & Hrun).
  destruct (edits_ok words pl_default [] os Hw (models_default words) Ha) as (l' & es & Hrun' & Hm & He).
  rewrite Hrun in Hrun'. simplify_eq. eauto.
Qed.

Lemma map_entries es s f :
  distinct es -> ((s, f) ∈ map fst es <-> exists o, to_map es !! s = Some (f, o)).
Proof.
  intros Hd. rewrite list_elem_of_fmap. split.
  - intros ([[s' f'] o] & [= -> ->] & He). exists o. apply to_map_Some; [done|]. by exists (s', f', o).
  - intros [o Ho]. apply to_map_Some in Ho as ([[s' f'] o'] & He & Hp); [|done].
    unfold to_pair, slot_of in Hp. simplify_eq/=. by exists (s, f, o).
Qed.

Lemma models_for_each words l es : models words l es -> pl_for_each l = Ok (map fst es).
Proof.
  intros (gs & H & Hes). pose proof (lr_blocks _ _ (po_repr _ _ _ H)) as Hb. rewrite (pl_for_each_ok l gs Hb), <- Hes. f_equal.
  pose proof (br_groups _ _ Hb) as Hg. clear - Hg. induction Hg as [|g gs Hg Hgs IH]; [done|]. simpl. by rewrite flat_cons, map_app, entries_fst, IH.
Qed.

(** C4: a posting list is the map of its edits.  Any sequence of runs added anywhere (in order,
    out of order, one posting or many), removals, entry changes, length invalidations and caching
    reads runs without a panic, and the list then iterates, by its block loop and by its cursor alike, over
    exactly the slots and frequencies of the map, in ascending slot order, with its two counts
    equal to the number of postings and of postings with a positive frequency; and every block
    but the last is at least a quarter full. *)
Theorem posting_list_refines_map words os :
  words_small words -> edits_allowed ∅ os ->
  exists l ps, pl_edits words pl_default os = Ok l /\
    decode l = Ok ps /\ pl_for_each l = Ok ps /\
    StronglySorted Z.lt (map fst ps) /\
    (forall s f, (s, f) ∈ ps <-> exists o, final_map os !! s = Some (f, o)) /\
    pl_count l = Z.of_nat (length ps) /\ pl_positive_count l = positive ps /\
    (forall i b, pl_blocks l !! i = Some b -> S i < length (pl_blocks l) -> MIN_BLOCK_LEN <= b_count b).
Proof.
  intros Hw Ha. destruct (edits_ok words pl_default [] os Hw (models_default words) Ha) as (l & es & Hrun & Hm & He).
  pose proof (models_entries _ _ _ Hm) as Hok. pose proof (models_for_each _ _ _ Hm) as Hfe. destruct Hm as (gs & H & Hes).
  pose proof (po_repr _ _ _ H) as Hr. pose proof (lr_blocks _ _ Hr) as Hb.
  exists l, (map fst es). rewrite <- Hes in *. split_and!.
  - done.
  - by apply decode_ok.
  - exact Hfe.
  - rewrite map_map. apply Hok.
  - intros s f. rewrite map_entries by (by apply entries_distinct). unfold final_map. by rewrite He.
  - rewrite length_map. apply H.
  - apply H.
  - intros i b Hi Hlt. pose proof (blocks_at_length _ _ _ (br_headers _ _ Hb)) as Hlen.
    destruct (lookup_lt_is_Some_2 gs i) as [g Hgi]; [lia|].
    destruct (blocks_repr_split l gs i g Hb Hgi) as (b' & Hb' & Hh & _). simplify_eq. rewrite Hh. cbn [header b_count].
    apply (po_packed _ _ _ H i g Hgi). lia.
Qed.

(** *** Bounds *)

Lemma foldl_maxima blocks f w :
  let m := foldl (fun fw b => (Z.max fw.1 (b_max_frequency b), Z.min fw.2 (b_min_words b))) (f, w) blocks in
  (f <= m.1 /\ m.2 <= w /\ forall b, b ∈ blocks -> b_max_frequency b <= m.1 /\ m.2 <= b_min_words b)%Z.
Proof.
  revert f w. induction blocks as [|b blocks IH]; intros f w; simpl.
  - split_and!; [lia|lia|]. intros b Hb. by apply elem_of_nil in Hb.
  - destruct (IH (Z.max f (b_max_frequency b)) (Z.min w (b_min_words b))) as (H1 & H2 & H3). split_and!; [lia|lia|].
    intros x [->|Hx]%elem_of_cons; [lia|auto].
Qed.

Lemma runs_of_elem n blocks i b :
  length blocks <= n -> blocks !! i = Some b -> exists run, runs_of n blocks !! (i / SUPER_LEN) = Some run /\ b ∈ run.
Proof.
  revert blocks i. induction n as [|n IH]; intros blocks i Hn Hi; [destruct blocks; [done|simpl in Hn; lia]|].
  destruct blocks as [|b0 blocks]; [done|]. cbn [runs_of]. set (bs := b0 :: blocks) in *.
  pose proof (Nat.div_mod_eq i SUPER_LEN) as Hdm. pose proof (Nat.mod_upper_bound i SUPER_LEN ltac:(done)) as Hmod.
  change SUPER_LEN with 32 in *. destruct (decide (i < 32)) as [Hlt|Hge].
  - rewrite Nat.div_small by done. exists (take 32 bs). split; [done|]. apply (list_elem_of_lookup_2 _ i). by rewrite lookup_take_lt.
  - destruct (IH (drop 32 bs) (i - 32)) as (run & Hrun & Hin).
    + rewrite length_drop. unfold bs in *. simpl in *. lia.
    + rewrite lookup_drop. by replace (32 + (i - 32)) with i by lia.
    + exists run. split; [|done]. replace i with (1 * 32 + (i - 32)) by lia. rewrite Nat.div_add_l by done. done.
Qed.

(** Every posting of a list is in one of its blocks. *)
Lemma posting_block words l es e :
  models words l es -> e ∈ es -> exists i b ps, pl_blocks l !! i = Some b /\ decode_values l b = Ok ps /\ e.1 ∈ ps.
Proof.
  intros (gs & H & <-) He. pose proof (lr_blocks _ _ (po_repr _ _ _ H)) as Hb.
  apply list_elem_of_In, in_concat in He as (x & Hx & He). apply in_map_iff in Hx as (g & <- & (i & Hi)%list_elem_of_In%list_elem_of_lookup).
  destruct (decode_block_ok l gs i g Hb Hi) as (b & Hbi & _ & _ & Hv & _). exists i, b, g.1. split_and!; [done|done|].
  rewrite <- (entries_fst g) by (eapply Forall_lookup_1; [exact (br_groups _ _ Hb)|exact Hi]). apply list_elem_of_fmap. exists e. split; [done|]. by apply list_elem_of_In.
Qed.

(** A list of [SUMMARY_MIN_BLOCKS] full blocks of postings or more has a summary. *)
Lemma long_summary words l es : models words l es -> BLOCK_LEN * SUMMARY_MIN_BLOCKS <= length es -> is_Some (summary l).2.
Proof.
  intros (gs & H & <-) Hn. pose proof (lr_blocks _ _ (po_repr _ _ _ H)) as Hb. pose proof (blocks_at_length _ _ _ (br_headers _ _ Hb)) as Hlen.
  assert (Hle : length (flat gs) <= BLOCK_LEN * length gs).
  { pose proof (br_groups _ _ Hb) as Hg. clear -Hg. induction Hg as [|g gs Hg Hgs IH]; [simpl; lia|].
    rewrite flat_cons, length_app. cbn [length]. rewrite <- (length_map fst), (entries_fst g Hg). pose proof (go_length _ Hg). lia. }
  pose proof (po_summary _ _ _ H) as Hs. unfold summary_ok in Hs. unfold summary. destruct (pl_summary l) as [s|].
  - destruct (s_runs s); by eexists.
  - change SUMMARY_MIN_BLOCKS with 64 in *. change BLOCK_LEN with 128 in *. lia.
Qed.

(** C33: the bounds a search prunes by hold.  After any history of edits and of reads that fill
    the caches of a long list (its maxima and the frontiers of its runs), for every posting of a
    block under the current document lengths: its frequency and length are within the block's
    bounds and, when the block has a frontier, a point of the frontier dominates it; the list's
    cached maxima bound it; and in a long list the cached frontier of the block's run has a point
    that dominates it.  A cell filled before an edit never serves stale bounds after it. *)
Theorem posting_bounds_hold words os l :
  reached words os l ->
  forall i b ps p, pl_blocks l !! i = Some b -> decode_values l b = Ok ps -> p ∈ ps ->
    let length_ := final_words words os p.1 in
    (p.2 <= b_max_frequency b)%Z /\ (b_min_words b <= length_)%Z /\
    ((0 < p.2)%Z -> exists q, q ∈ block_points b /\ dominates q (p.2, length_)) /\
    (p.2 <= (maxima l).2.1)%Z /\ ((maxima l).2.2 <= length_)%Z /\
    (forall runs, (summary l).2 = Some runs -> (0 < p.2)%Z ->
       exists front q, runs !! (i / SUPER_LEN) = Some front /\ q ∈ front /\ dominates q (p.2, length_)).
Proof.
  intros Hreach i b ps p Hi Hdec Hp length_. destruct (reached_models words os l Hreach) as (es & (gs & H & _) & _).
  pose proof (lr_blocks _ _ (po_repr _ _ _ H)) as Hb. pose proof (blocks_at_length _ _ _ (br_headers _ _ Hb)) as Hlen.
  destruct (lookup_lt_is_Some_2 gs i) as [g Hg]; [rewrite <- Hlen; by eapply lookup_lt_Some|].
  destruct (decode_block_ok l gs i g Hb Hg) as (b' & Hb' & Hh & _ & Hv & _). simplify_eq.
  rewrite Hdec in Hv. injection Hv as ->.
  pose proof (Forall2_lookup_lr _ _ _ _ _ _ (po_bounds _ _ _ H) Hi Hg) as [Hc _ _]. unfold covers in Hc. rewrite Forall_forall in Hc.
  destruct (Hc p Hp) as (H1 & H2 & H3). fold length_ in H2, H3.
  assert (Hdom : (0 < p.2)%Z -> exists q, q ∈ block_points b /\ dominates q (p.2, length_)).
  { intros Hpos. unfold block_points. destruct (b_frontier b) as [pts|]; [destruct H3; [lia|done]|].
    exists (b_max_frequency b, b_min_words b). split; [left|done]. }
  pose proof (po_summary _ _ _ H) as Hsum. unfold summary_ok in Hsum.
  assert (Hmax : (maxima l).2 = maxima_of (pl_blocks l)).
  { unfold maxima. destruct (pl_summary l) as [s|]; [|done]. destruct (s_maxima s) as [v|] eqn:Es; [|done]. by apply Hsum. }
  destruct (foldl_maxima (pl_blocks l) 0 U32_MAX) as (_ & _ & Hall). fold (maxima_of (pl_blocks l)) in Hall.
  destruct (Hall b) as [Hm1 Hm2]; [by eapply list_elem_of_lookup_2|]. split_and!; try done; try (rewrite Hmax; lia).
  intros runs Hruns Hpos. destruct (Hdom Hpos) as (q & Hq & Hqd).
  assert (Hr : runs = summary_runs (pl_blocks l)).
  { unfold summary in Hruns. destruct (pl_summary l) as [s|]; [|done]. destruct (s_runs s) as [v|] eqn:Es; simplify_eq/=; [|done]. by apply Hsum. }
  subst runs. destruct (runs_of_elem (length (pl_blocks l)) (pl_blocks l) i b) as (run & Hrun & Hin); [done|done|].
  exists (pareto (concat (map block_points run))).
  destruct (pareto_spec (concat (map block_points run))) as (_ & _ & Hpar). destruct (Hpar q) as (q' & Hq' & Hd').
  { apply list_elem_of_In, in_concat. exists (block_points b). rewrite <- !list_elem_of_In. split; [|done]. apply list_elem_of_fmap. by exists b. }
  exists q'. split_and!; [|done|unfold dominates in *; lia]. unfold summary_runs. by rewrite list_lookup_fmap, Hrun.
Qed.

(** *** Cursors *)

Inductive move : Type := MNext | MAdvance (target : Z).

Definition cursor_move (l : PostingList) (c : PostingCursor) (o : move) : outcome (PostingCursor * option Posting) :=
  match o with MNext => cursor_next l c | MAdvance t => advance l c t end.

(** The postings a cursor gives along a list of moves, with the ordinal at the cursor after each. *)
Fixpoint cursor_moves (l : PostingList) (c : PostingCursor) (os : list move) : outcome (list (option Posting * option Z)) :=
  match os with
  | [] => Ok []
  | o :: rest =>
      let* (c, p) := cursor_move l c o in
      let* here := peek c in
      let* ordinal := match here with Some _ => let* n := cursor_ordinal l c in Ok (Some n) | None => Ok None end in
      let* ps := cursor_moves l c rest in
      Ok ((p, ordinal) :: ps)
  end.

(** The same moves on the plain ascending entries. *)
Fixpoint entry_moves (es : list (Posting * Z)) (os : list move) : list (option Posting * option Z) :=
  match os with
  | [] => []
  | o :: rest =>
      let es' := match o with MNext => tail es | MAdvance t => drop_below slot_of t es end in
      let p := match o with MNext => fst <$> head es | MAdvance _ => fst <$> head es' end in
      (p, snd <$> head es') :: entry_moves es' rest
  end.

Lemma cursor_moves_ok l gs c r os :
  list_repr l gs -> cursor_at gs c r -> cursor_moves l c os = Ok (entry_moves r os).
Proof.
  intros Hl. revert c r. induction os as [|o os IH]; intros c r Hc; [done|]. cbn [cursor_moves entry_moves].
  assert (Hmove : let r' := match o with MNext => tail r | MAdvance t => drop_below slot_of t r end in
    exists c', cursor_move l c o = Ok (c', match o with MNext => fst <$> head r | MAdvance _ => fst <$> head r' end) /\ cursor_at gs c' r').
  { destruct o as [|t]; [by apply cursor_next_ok|by apply advance_ok]. }
  cbn zeta in Hmove. destruct Hmove as (c' & -> & Hc'). cbn [obind].
  set (r' := match o with MNext => tail r | MAdvance t => drop_below slot_of t r end) in *.
  rewrite (peek_ok l gs Hl c' r' Hc'). cbn [obind]. rewrite (IH c' r' Hc').
  destruct r' as [|e r']; cbn [head fmap option_fmap option_map obind]; [done|].
  by rewrite (ordinal_ok l gs Hl c' e r' Hc').
Qed.

(** C34: cursors are exact.  On any reachable list a fresh cursor, moved by any sequence of [next]
    and [advance], gives what the same moves give on the ascending entries of the map: [advance]
    stops at the first posting at or after its target, however many blocks it skips, with the
    ordinal stored for that posting. *)
Theorem cursor_moves_exact words os l moves :
  reached words os l ->
  exists c es, cursor_new l = Ok c /\ StronglySorted Z.lt (map slot_of es) /\ to_map es = final_map os /\
    cursor_moves l c moves = Ok (entry_moves es moves).
Proof.
  intros Hreach. destruct (reached_models words os l Hreach) as (es & (gs & H & Hes) & Hm).
  pose proof (po_repr _ _ _ H) as Hr. destruct (cursor_new_ok l gs Hr) as (c & Hc & Hat).
  exists c, es. split_and!; [done| |done|].
  - rewrite <- Hes. apply (repr_entries_ok l gs Hr).
  - rewrite <- Hes. by apply (cursor_moves_ok l gs).
Qed.

(** ** A concrete history *)

Definition toy_words (s : Z) : Z := 10.
Definition toy_run : list (Posting * Z) := map (fun i => ((3 * Z.of_nat i, 1 + Z.of_nat i mod 3), 0)%Z) (seq 1 130).
Definition toy_edits : list edit :=
  [ERun toy_run []; ERun [((4, 200), 7)]%Z [7%Z]; ERemove 6; ESet 9 0 (Some 3%Z); ELength 12 5].

Lemma toy_words_small : words_small toy_words.
Proof. intros s. unfold toy_words, U32_MAX, U32. lia. Qed.

Lemma entries_ok_dec es :
  bool_decide (Forall (fun e => is_u64 (slot_of e)) es /\ Forall (fun e => is_u32 e.1.2 /\ is_u32 e.2) es) = true ->
  ascending (map slot_of es) = true -> entries_ok es.
Proof. intros [H1 H2]%bool_decide_eq_true H3. split; [by apply ascending_Sorted|done|done]. Qed.

Lemma toy_edits_allowed : edits_allowed ∅ toy_edits.
Proof.
  unfold toy_edits. cbn [edits_allowed edit_allowed]. split_and!; try done; try (vm_compute; eauto; fail).
  - by apply entries_ok_dec; vm_compute.
  - right. split; [done|]. by_decide.
  - by_decide.
  - by apply entries_ok_dec; vm_compute.
Qed.

Definition toy_list : PostingList :=
  match pl_edits toy_words pl_default toy_edits with Ok l => l | _ => pl_default end.

Lemma toy_reached : reached toy_words toy_edits toy_list.
Proof. split; [exact toy_words_small|]. split; [exact toy_edits_allowed|]. vm_compute. reflexivity. Qed.

Lemma posting_list_refines_map_witness :
  exists l ps, pl_edits toy_words pl_default toy_edits = Ok l /\ decode l = Ok ps /\
    pl_count l = Z.of_nat (length ps) /\ (4, 200)%Z ∈ ps /\ ((6, 3)%Z ∉ ps).
Proof.
  destruct (posting_list_refines_map toy_words toy_edits toy_words_small toy_edits_allowed)
    as (l & ps & H1 & H2 & _ & _ & H5 & H6 & _).
  exists l, ps. split; [exact H1|]. split; [exact H2|]. split; [exact H6|]. split.
  - apply H5. exists 7%Z. vm_compute. reflexivity.
  - intros Hin. apply H5 in Hin as [o Ho]. vm_compute in Ho. discriminate Ho.
Defined.

(** A list long enough for a summary, read so that both its cells are filled, then edited: a
    posting with a higher frequency than any before comes in and its document shrinks. *)
Definition long_run (n : nat) : list (Posting * Z) := map (fun i => ((3 * Z.of_nat i, 1 + Z.of_nat i mod 3), 0)%Z) (seq 1 n).
Definition long_length : nat := BLOCK_LEN * SUMMARY_MIN_BLOCKS.
Definition cached_edits (run : list (Posting * Z)) : list edit :=
  [ERun run []; EMaxima; ESummary; ERun [((4, 200), 7)]%Z [7%Z]; EMaxima; ESummary; ELength 4 5].
Definition long_edits : list edit := cached_edits (long_run long_length).

Lemma long_length_small : (Z.of_nat long_length < 10000)%Z.
Proof. vm_compute. reflexivity. Qed.

Lemma long_run_ok n : (Z.of_nat n < 10000)%Z -> entries_ok (long_run n).
Proof.
  intros Hn. unfold long_run. split.
  - rewrite map_map. unfold slot_of. cbn [fst]. generalize 1. induction n as [|n IH]; intros k; cbn [seq map]; [constructor|].
    apply SSorted_cons; [apply IH; lia|]. apply Forall_forall. intros x (i & -> & Hi%elem_of_seq)%list_elem_of_fmap. lia.
  - apply Forall_fmap, Forall_forall. intros i Hi%elem_of_seq. unfold slot_of, is_u64, U64. cbn [fst compose]. lia.
  - apply Forall_fmap, Forall_forall. intros i Hi%elem_of_seq. unfold is_u32, U32. cbn [fst snd compose].
    pose proof (Z.mod_pos_bound (Z.of_nat i) 3). lia.
Qed.

Lemma cached_edits_allowed run :
  entries_ok run -> Forall (fun e => e.2 = 0%Z) run -> (4%Z ∉ map slot_of run) -> (Z.of_nat (length run) < 10000)%Z ->
  edits_allowed ∅ (cached_edits run).
Proof.
  intros Hok Hz H4 Hl. unfold cached_edits. cbn [edits_allowed edit_allowed map_edit]. rewrite (right_id_L ∅ (∪)).
  assert (Hn : to_map run !! 4%Z = None) by (apply not_elem_of_list_to_map_1; by rewrite pair_keys). split_and!; try done.
  - by right.
  - apply Forall_forall. intros e _. apply lookup_empty.
  - rewrite map_size_empty. unfold U32. lia.
  - by apply entries_ok_dec; vm_compute.
  - by left.
  - by repeat constructor.
  - rewrite to_map_size by (by apply entries_distinct). cbn [length]. unfold U32. lia.
  - exists (200, 7)%Z. by apply lookup_union_Some_l.
Qed.

Lemma cached_entries run m es :
  distinct es -> to_map es = foldl map_edit m (cached_edits run) -> entries_ok run -> ((4, 200), 7)%Z ∈ es /\ length run <= length es.
Proof.
  intros Hd He Hok. cbn [cached_edits foldl map_edit] in He. split.
  - assert (H4 : to_map es !! 4%Z = Some (200, 7)%Z) by (rewrite He; by apply lookup_union_Some_l).
    apply to_map_Some in H4 as ([[s f] o] & Hin & Hp); [|done]. unfold to_pair, slot_of in Hp. cbn [fst snd] in Hp. by injection Hp as -> -> ->.
  - rewrite <- (to_map_size _ Hd), <- (to_map_size run) by (by apply entries_distinct). rewrite He, <- !size_dom. apply subseteq_size.
    rewrite !dom_union_L. set_solver.
Qed.

Lemma long_edits_allowed : edits_allowed ∅ long_edits.
Proof.
  apply cached_edits_allowed; [apply long_run_ok, long_length_small| | |].
  - apply Forall_fmap, Forall_forall. intros i _. reflexivity.
  - unfold long_run. rewrite map_map. intros (i & Hi & _)%list_elem_of_fmap. unfold slot_of in Hi. cbn [fst] in Hi. lia.
  - unfold long_run. rewrite length_map, length_seq. exact long_length_small.
Qed.

Lemma posting_bounds_hold_witness :
  exists l, reached toy_words long_edits l /\ is_Some (summary l).2 /\
    (200 <= (maxima l).2.1)%Z /\ ((maxima l).2.2 <= 5)%Z /\
    exists front q, front ∈ default [] (summary l).2 /\ q ∈ front /\ dominates q (200, 5)%Z.
Proof.
  destruct (edits_ok toy_words pl_default [] long_edits toy_words_small (models_default _) long_edits_allowed) as (l & es & Hrun & Hm & He).
  assert (Hr : reached toy_words long_edits l) by (split; [exact toy_words_small|]; split; [exact long_edits_allowed|exact Hrun]).
  destruct (cached_entries _ _ es (entries_distinct _ (models_entries _ _ _ Hm)) He) as [Hin Hsize].
  { apply long_run_ok, long_length_small. }
  destruct (posting_block _ _ _ _ Hm Hin) as (i & b & ps & Hb & Hdec & Hp).
  assert (Hlong : is_Some (summary l).2).
  { apply (long_summary _ _ _ Hm). etransitivity; [|exact Hsize]. unfold long_run. rewrite length_map, length_seq. reflexivity. }
  destruct (posting_bounds_hold toy_words long_edits l Hr i b ps (4, 200)%Z Hb Hdec Hp) as (_ & _ & _ & H1 & H2 & H3).
  exists l. split; [exact Hr|]. split; [exact Hlong|]. split; [exact H1|]. split; [exact H2|].
  destruct Hlong as [runs Hruns]. destruct (H3 runs Hruns) as (front & q & Hf & Hq & Hdq); [reflexivity|].
  exists front, q. rewrite Hruns. split; [exact (list_elem_of_lookup_2 _ _ _ Hf)|]. split; [exact Hq|exact Hdq].
Defined.

Lemma cursor_moves_exact_witness :
  reached toy_words toy_edits toy_list /\
  exists c es, cursor_new toy_list = Ok c /\ to_map es = final_map toy_edits /\
    cursor_moves toy_list c [MAdvance 5; MNext; MAdvance 380] = Ok (entry_moves es [MAdvance 5; MNext; MAdvance 380]).
Proof.
  split; [exact toy_reached|].
  destruct (cursor_moves_exact toy_words toy_edits toy_list [MAdvance 5; MNext; MAdvance 380] toy_reached)
    as (c & es & H1 & _ & H3 & H4).
  exists c, es. split; [exact H1|]. split; [exact H3|exact H4].
Defined.
