(* ===== verification/CheckpointLists.v ===== *)
(** * Posting lists of a checkpoint

    The varint encoding of posting lists in a checkpoint file ([pack_checkpoint], [Postings] of
    [src/core/documents/postings.rs]): written once, read by a checked decoder when a store is
    rebuilt and by an unchecked one, eight postings at a time, when a query is answered. *)

From S2P Require Import Prelude Words BitPack Search Positions Terms Postings Cursor PostingEdit PostingRuns.

(** ** Writing *)

(** The closure of [pack_checkpoint]; [previous] is [None] at the first posting. *)
Fixpoint pack_postings (previous : option Z) (ps : list Posting) : outcome (list Z) :=
  match ps with
  | [] => Ok []
  | (slot, frequency) :: rest =>
      let* gap := match previous with None => Ok slot | Some p => expect (checked_sub slot p) end in
      let one := if (frequency =? 1)%Z then 0%Z else 1%Z in
      let word := Z.lor (wrap U64 (Z.shiftl gap 1)) one in
      let* tail := pack_postings (Some slot) rest in
      Ok (put_varint word ++ (if (frequency =? 1)%Z then [] else put_varint frequency) ++ tail)
  end.

Definition pack_checkpoint (l : PostingList) : outcome (list Z) :=
  let* ps := pl_for_each l in pack_postings None ps.

(** ** Varints *)

(** The loop of [get_varint] after its first byte, over the shifts left. *)
Fixpoint get_varint_loop (shifts : list Z) (bytes : list Z) (at_ : nat) (value : Z) : outcome (Z * nat) :=
  match shifts with
  | [] => Panic
  | shift :: rest =>
      let* b := expect (bytes !! at_) in
      let value := Z.lor value (wrap U64 (Z.shiftl (Z.land b 0x7f) shift)) in
      if (Z.land b 0x80 =? 0)%Z then Ok (value, S at_) else get_varint_loop rest bytes (S at_) value
  end.

Definition get_varint (bytes : list Z) (at_ : nat) : outcome (Z * nat) :=
  let* first := expect (bytes !! at_) in
  if (first <? 0x80)%Z then Ok (first, S at_)
  else get_varint_loop [7; 14; 21; 28; 35; 42; 49; 56; 63]%Z bytes (S at_) (Z.land first 0x7f).

Fixpoint checked_varint_loop (shifts : list Z) (bytes : list Z) (at_ : nat) (value : Z) : outcome (Z * nat) :=
  match shifts with
  | [] => Err "posting varint overflow"
  | shift :: rest =>
      let* b := ok_or (bytes !! at_) "posting list ends inside a varint" in
      let value := Z.lor value (wrap U64 (Z.shiftl (Z.land b 0x7f) shift)) in
      if (Z.land b 0x80 =? 0)%Z then Ok (value, S at_) else checked_varint_loop rest bytes (S at_) value
  end.

Definition checked_varint (bytes : list Z) (at_ : nat) : outcome (Z * nat) := checked_varint_loop varint_shifts bytes at_ 0.

(** ** The checked decoder *)

Section TryEach.
Context {S_ : Type} (f : S_ -> Z -> Z -> S_ * bool).

(** [try_for_each]; the closure's captured state is passed along. *)
Fixpoint try_each (count : nat) (bytes : list Z) (at_ : nat) (slot : Z) (s : S_) : outcome S_ :=
  match count with
  | O => ensure Nat.eqb at_ (length bytes) else "posting list has trailing bytes"; Ok s
  | S count =>
      let* (word, at_) := checked_varint bytes at_ in
      let* (frequency, at_) :=
        if (Z.land word 1 =? 0)%Z then Ok (1%Z, at_)
        else let* (frequency, at_) := checked_varint bytes at_ in
             ensure negb (frequency =? 1)%Z else "packed posting frequency"; Ok (frequency, at_) in
      let* slot := ok_or (checked_add U64 slot (Z.shiftr word 1)) "posting slot overflow" in
      let* frequency := (ensure (frequency <? U32)%Z else "out of range"; Ok frequency) in
      let '(s, continue) := f s slot frequency in
      if continue : bool then try_each count bytes at_ slot s else Ok s
  end.
End TryEach.

Definition try_for_each {S_} (f : S_ -> Z -> Z -> S_ * bool) (bytes : list Z) (count : Z) (s : S_) : outcome S_ :=
  try_each f (Z.to_nat count) bytes 0 0 s.

(** The closure that collects the postings. *)
Definition collect_posting (acc : list Posting) (slot frequency : Z) : list Posting * bool := (acc ++ [(slot, frequency)], true).

(** The postings in order. *)
Definition try_list (bytes : list Z) (count : Z) : outcome (list Posting) :=
  try_for_each collect_posting bytes count [].

(** ** The unchecked decoder *)

(** [u64::trailing_zeros] of a nonzero word. *)
Fixpoint trailing_zeros (n : nat) (z : Z) : nat :=
  match n with O => 0 | S n => if Z.odd z then 0 else S (trailing_zeros n (Z.div2 z)) end.

(** [for byte in 0..clean]. *)
Fixpoint clean_postings (word : Z) (js : list nat) (slot : Z) : outcome (list Posting * Z) :=
  match js with
  | [] => Ok ([], slot)
  | j :: rest =>
      let* slot := expect (checked_add U64 slot (Z.land (Z.shiftr word (8 * Z.of_nat j + 1)) 0x7f)) in
      let* (ps, last) := clean_postings word rest slot in
      Ok ((slot, 1%Z) :: ps, last)
  end.

Definition clean_count (word : Z) : nat :=
  let flags := Z.land word 0x8181818181818181 in
  if (flags =? 0)%Z then 8 else trailing_zeros 64 flags / 8.

(** One posting by its varints. *)
Definition slow_posting (bytes : list Z) (at_ : nat) (slot : Z) : outcome (Posting * nat) :=
  let* (word, at_) := get_varint bytes at_ in
  let* slot := expect (checked_add U64 slot (Z.shiftr word 1)) in
  let* (frequency, at_) := if (Z.land word 1 =? 0)%Z then Ok (1%Z, at_) else get_varint bytes at_ in
  Ok ((slot, wrap U32 frequency), at_).

Fixpoint for_each_loop (fuel left : nat) (bytes : list Z) (at_ : nat) (slot : Z) : outcome (list Posting) :=
  match fuel, left with
  | _, O => Ok []
  | O, _ => Ok []
  | S fuel, S _ =>
      let clean := if 8 <=? left then match get_range bytes at_ (at_ + 8) with
                   | Some w => Some (from_le_bytes w, clean_count (from_le_bytes w)) | None => None end else None in
      let* (ps, slot, at_, left, skip) :=
        match clean with
        | Some (word, n) =>
            let* (ps, slot) := clean_postings word (seq 0 n) slot in
            Ok (ps, slot, at_ + n, left - n, Nat.eqb n 8)
        | None => Ok ([], slot, at_, left, false)
        end in
      if skip : bool then let* rest := for_each_loop fuel left bytes at_ slot in Ok (ps ++ rest)
      else
        let* (p, at_) := slow_posting bytes at_ slot in
        let* rest := for_each_loop fuel (left - 1) bytes at_ p.1 in
        Ok (ps ++ p :: rest)
  end.

Definition for_each (bytes : list Z) (count : Z) : outcome (list Posting) := for_each_loop (Z.to_nat count) (Z.to_nat count) bytes 0 0.

(** ** Varints agree *)

Lemma small_byte b : is_u8 b -> (b <? 0x80)%Z = (Z.land b 0x80 =? 0)%Z.
Proof. intros Hb. unfold is_u8 in Hb. rewrite land_128 by lia. destruct (Z.leb_spec 128 b), (Z.ltb_spec b 0x80); lia || done. Qed.

Lemma get_loop_checked shifts bytes at_ value r :
  checked_varint_loop shifts bytes at_ value = Ok r -> get_varint_loop shifts bytes at_ value = Ok r.
Proof.
  revert at_ value. induction shifts as [|sh shifts IH]; intros at_ value H; [done|]. cbn [checked_varint_loop get_varint_loop] in *.
  destruct (bytes !! at_) as [b|]; [|done]. cbn [ok_or expect obind] in *. destruct (_ =? 0)%Z; [done|by apply IH].
Qed.

Lemma get_varint_checked bytes at_ r : bytes_ok bytes -> checked_varint bytes at_ = Ok r -> get_varint bytes at_ = Ok r.
Proof.
  intros Hb H. unfold checked_varint, varint_shifts in H. cbn [checked_varint_loop] in H. unfold get_varint.
  destruct (bytes !! at_) as [b|] eqn:E; [|done]. cbn [ok_or expect obind] in *. unfold bytes_ok in Hb. rewrite Forall_lookup in Hb. pose proof (Hb _ _ E) as Hu.
  rewrite (small_byte b Hu). rewrite Z.shiftl_0_r, Z.lor_0_l in H.
  assert (Hw : wrap U64 (Z.land b 0x7f) = Z.land b 0x7f).
  { apply wrap_small. change 0x7f%Z with (2 ^ 7 - 1)%Z. rewrite land_ones_mod by lia. pose proof (Z.mod_pos_bound b (2 ^ 7) ltac:(lia)). unfold U64. lia. }
  rewrite Hw in H. destruct (Z.land b 0x80 =? 0)%Z eqn:E0; [|by apply get_loop_checked].
  rewrite <- H. do 2 f_equal. symmetry. apply land_7f. rewrite <- small_byte in E0 by done. apply Z.ltb_lt in E0. unfold is_u8 in Hu. lia.
Qed.

(** What the journal's reader accepts, the list's does. *)
Lemma checked_loop_reader shifts value p e v :
  varint_loop shifts value (mid p e) = Ok v -> checked_varint_loop shifts (p ++ e) (length p) value = Ok (v.1, at_ v.2).
Proof.
  revert value p e. induction shifts as [|sh shifts IH]; intros value p e H; [done|]. destruct e as [|b e].
  - cbn [varint_loop] in H. unfold rbind in H. destruct (rbyte_mid_nil p) as [x Hx]. rewrite Hx in H. done.
  - cbn [varint_loop] in H. unfold rbind in H. rewrite rbyte_mid in H. cbn [obind] in H. cbn [checked_varint_loop].
    rewrite list_lookup_middle by done. cbn [ok_or obind]. destruct (_ || _); [|done].
    destruct (Z.land b 0x80 =? 0)%Z.
    + injection H as <-. cbn [fst snd mid at_]. rewrite length_app, Nat.add_1_r. done.
    + specialize (IH _ _ _ H). rewrite <- app_assoc, length_app, Nat.add_1_r in IH. exact IH.
Qed.

Lemma checked_varint_put p v s : is_u64 v -> checked_varint (p ++ put_varint v ++ s) (length p) = Ok (v, length p + length (put_varint v)).
Proof.
  intros Hv. pose proof (varint_parses v Hv p s) as H. apply checked_loop_reader in H. unfold checked_varint. cbn [fst snd mid at_] in H. by rewrite length_app in H.
Qed.

(** ** Bits of a word *)

Lemma from_le_bits l j b i :
  bytes_ok l -> l !! j = Some b -> (0 <= i < 8)%Z -> Z.testbit (from_le_bytes l) (8 * Z.of_nat j + i) = Z.testbit b i.
Proof.
  intros Hl. revert j. induction Hl as [|x l Hx Hl IH]; intros j Hj Hi; [done|]. cbn [from_le_bytes]. rewrite Z.lor_spec. destruct j as [|j]; simpl in Hj.
  - injection Hj as ->. rewrite Z.shiftl_spec by lia. rewrite (Z.testbit_neg_r _ (_ - 8)) by lia. rewrite orb_false_r. f_equal; lia.
  - unfold is_u8 in Hx. rewrite Z.shiftl_spec by lia. replace (8 * Z.of_nat (S j) + i - 8)%Z with (8 * Z.of_nat j + i)%Z by lia. rewrite (IH j Hj Hi).
    rewrite (Z.bits_above_log2 x) by (destruct (decide (x = 0)%Z) as [->|]; [simpl; lia|]; pose proof (Z.log2_lt_pow2 x 8); lia). done.
Qed.

Lemma trailing_zeros_bits n z i : i < trailing_zeros n z -> Z.testbit z (Z.of_nat i) = false.
Proof.
  revert z i. induction n as [|n IH]; intros z i Hi; cbn [trailing_zeros] in Hi; [lia|]. destruct (Z.odd z) eqn:E; [lia|]. destruct i as [|i].
  - by rewrite Z.bit0_odd.
  - rewrite Nat2Z.inj_succ, <- Z.div2_bits by lia. apply IH. rewrite <- Z.div2_div. lia.
Qed.

Lemma trailing_zeros_le n z : trailing_zeros n z <= n.
Proof. revert z. induction n as [|n IH]; intros z; simpl; [done|]. destruct (Z.odd z); [lia|]. specialize (IH (Z.div2 z)). lia. Qed.

Lemma clean_count_le word : clean_count word <= 8.
Proof. unfold clean_count. destruct (_ =? 0)%Z; [done|]. pose proof (trailing_zeros_le 64 (Z.land word 0x8181818181818181)). apply Nat.Div0.div_le_upper_bound. lia. Qed.

(** The flag bits of the bytes before the first flagged one are clear. *)
Lemma clean_flags word i : i < 8 * clean_count word -> Z.testbit (Z.land word 0x8181818181818181) (Z.of_nat i) = false.
Proof.
  unfold clean_count. destruct (Z.eqb_spec (Z.land word 0x8181818181818181) 0) as [->|_]; [intros _; apply Z.bits_0|].
  intros Hi. apply (trailing_zeros_bits 64). pose proof (Nat.Div0.mul_div_le (trailing_zeros 64 (Z.land word 0x8181818181818181)) 8). lia.
Qed.

Lemma mask_bits j : j < 8 -> Z.testbit 0x8181818181818181 (8 * Z.of_nat j) = true /\ Z.testbit 0x8181818181818181 (8 * Z.of_nat j + 7) = true.
Proof. intros Hj. do 8 (destruct j as [|j]; [done|]). lia. Qed.

Lemma clean_byte l j b :
  bytes_ok l -> length l = 8 -> j < clean_count (from_le_bytes l) -> l !! j = Some b ->
  (0 <= b < 128)%Z /\ Z.odd b = false /\ Z.land (Z.shiftr (from_le_bytes l) (8 * Z.of_nat j + 1)) 0x7f = Z.shiftr b 1.
Proof.
  intros Hl Hlen Hj Hb. pose proof (clean_count_le (from_le_bytes l)) as H8. pose proof (mask_bits j ltac:(lia)) as [M0 M7].
  assert (Hu : is_u8 b) by (unfold bytes_ok in Hl; rewrite Forall_lookup in Hl; by eapply Hl). unfold is_u8 in Hu.
  assert (Hbit : forall i, (i = 0 \/ i = 7)%Z -> Z.testbit b i = false).
  { intros i Hi. rewrite <- (from_le_bits l j b i Hl Hb) by lia. pose proof (clean_flags (from_le_bytes l) (8 * j + Z.to_nat i) ltac:(lia)) as Hc.
    rewrite Z.land_spec in Hc. replace (Z.of_nat (8 * j + Z.to_nat i)) with (8 * Z.of_nat j + i)%Z in Hc by lia.
    destruct Hi as [-> | ->]; [rewrite Z.add_0_r in *; rewrite M0 in Hc|rewrite M7 in Hc]; by rewrite andb_true_r in Hc. }
  split_and!.
  - lia.
  - destruct (decide (b < 128)%Z) as [?|Hge]; [done|]. pose proof (Hbit 7%Z ltac:(lia)) as H7. rewrite Z.testbit_false in H7 by lia.
    change (2 ^ 7)%Z with 128%Z in H7. assert (b / 128 = 1)%Z as Hd by (symmetry; apply (Z.div_unique b 128 1 (b - 128)); lia). rewrite Hd in H7. done.
  - rewrite <- Z.bit0_odd. apply Hbit. lia.
  - apply Z.bits_inj'. intros i Hi. rewrite Z.land_spec, Z.shiftr_spec, Z.shiftr_spec by lia. change 0x7f%Z with (Z.ones 7).
    destruct (decide (i < 7)%Z).
    + rewrite Z.ones_spec_low by lia. rewrite andb_true_r. replace (i + (8 * Z.of_nat j + 1))%Z with (8 * Z.of_nat j + (i + 1))%Z by lia. apply from_le_bits; [done|done|lia].
    + rewrite Z.ones_spec_high by lia. rewrite andb_false_r. symmetry. destruct (decide (b = 0)%Z) as [->|]; [apply Z.bits_0|].
      apply Z.bits_above_log2; [lia|]. pose proof (Z.log2_lt_pow2 b 8). lia.
Qed.

(** ** The decoders agree *)

(** One posting after the other, by varints. *)
Fixpoint slow_list (n : nat) (bytes : list Z) (at_ : nat) (slot : Z) : outcome (list Posting * nat) :=
  match n with
  | O => Ok ([], at_)
  | S n => let* (p, at_) := slow_posting bytes at_ slot in let* (ps, e) := slow_list n bytes at_ p.1 in Ok (p :: ps, e)
  end.

Lemma slow_list_app n m bytes at_ slot ps e :
  slow_list (n + m) bytes at_ slot = Ok (ps, e) ->
  exists ps1 ps2 at1 slot1, ps = ps1 ++ ps2 /\ slow_list n bytes at_ slot = Ok (ps1, at1) /\ slow_list m bytes at1 slot1 = Ok (ps2, e) /\
    slot1 = List.last (map fst ps1) slot.
Proof.
  revert at_ slot ps. induction n as [|n IH]; intros at_ slot ps H; [by exists [], ps, at_, slot|]. cbn [Nat.add slow_list] in *.
  destruct (slow_posting bytes at_ slot) as [[p at1]| |]; try done. cbn [obind] in *.
  destruct (slow_list (n + m) bytes at1 p.1) as [[qs e']| |] eqn:E; try done. cbn [obind] in H. injection H as <- <-.
  destruct (IH _ _ _ E) as (ps1 & ps2 & at2 & slot2 & -> & -> & H2 & Hs). cbn [obind]. exists (p :: ps1), ps2, at2, slot2. split_and!; [done|done|done|].
  rewrite Hs. cbn [map]. destruct (map fst ps1) as [|y l] eqn:El; [done|]. cbn [List.last]. clear. revert y. induction l as [|z l IHl]; intros y; [done|]. cbn [List.last]. apply IHl.
Qed.

Lemma land_1 z : Z.land z 1 = (z mod 2)%Z.
Proof. exact (Z.land_ones z 1 ltac:(lia)). Qed.

Lemma even_word b : (0 <= b)%Z -> Z.odd b = false -> Z.land b 1 = 0%Z.
Proof. intros Hb Ho. by rewrite land_1, Zmod_odd, Ho. Qed.

(** A clean byte is one posting. *)
Lemma slow_clean bytes at_ slot b p at1 :
  bytes !! at_ = Some b -> (0 <= b < 128)%Z -> Z.odd b = false -> slow_posting bytes at_ slot = Ok (p, at1) ->
  p = ((slot + Z.shiftr b 1)%Z, 1%Z) /\ at1 = S at_ /\ checked_add U64 slot (Z.shiftr b 1) = Some (slot + Z.shiftr b 1)%Z.
Proof.
  intros Hb Hlt Ho. unfold slow_posting, get_varint. rewrite Hb. cbn [expect obind]. rewrite (proj2 (Z.ltb_lt b 0x80)) by lia. cbn [obind].
  unfold checked_add. destruct (_ <? U64)%Z; [|done]. cbn [expect obind]. rewrite even_word by (done || lia). cbn [obind].
  intros [= <- <-]. done.
Qed.

Lemma clean_postings_ok word bytes n k at_ slot ps at1 :
  (forall j, k <= j < k + n -> exists b, bytes !! (at_ + (j - k)) = Some b /\ (0 <= b < 128)%Z /\ Z.odd b = false /\
     Z.land (Z.shiftr word (8 * Z.of_nat j + 1)) 0x7f = Z.shiftr b 1) ->
  slow_list n bytes at_ slot = Ok (ps, at1) ->
  clean_postings word (seq k n) slot = Ok (ps, List.last (map fst ps) slot) /\ at1 = at_ + n.
Proof.
  revert k at_ slot ps at1. induction n as [|n IH]; intros k at_ slot ps at1 Hj H.
  { injection H as <- <-. split; [done|lia]. }
  cbn [slow_list] in H. destruct (Hj k) as (b & Hb & Hlt & Ho & Hw); [lia|]. rewrite Nat.sub_diag, Nat.add_0_r in Hb.
  destruct (slow_posting bytes at_ slot) as [[p a]| |] eqn:E; try done. cbn [obind] in H.
  destruct (slow_clean _ _ _ _ _ _ Hb Hlt Ho E) as (-> & -> & Hadd). cbn [fst] in H.
  destruct (slow_list n bytes (S at_) (slot + Z.shiftr b 1)%Z) as [[qs e]| |] eqn:E2; try done. cbn [obind] in H. injection H as <- <-.
  eapply IH in E2 as [Hc He].
  2: { instantiate (1 := S k). intros j Hr. destruct (Hj j) as (b' & Hb' & Hrest); [lia|]. exists b'. split; [|done]. rewrite <- Hb'. f_equal. lia. }
  cbn [seq clean_postings]. rewrite Hw, Hadd. cbn [expect obind]. rewrite Hc. cbn [obind]. split; [|lia]. do 2 f_equal.
  cbn [map fst]. destruct (map fst qs) as [|y l]; [done|]. cbn [List.last]. clear. revert y. induction l as [|z l IHl]; intros y; [done|]. cbn [List.last]. apply IHl.
Qed.

Lemma for_each_slow fuel left bytes at_ slot ps e :
  bytes_ok bytes -> left <= fuel -> slow_list left bytes at_ slot = Ok (ps, e) -> for_each_loop fuel left bytes at_ slot = Ok ps.
Proof.
  intros Hb. revert left at_ slot ps. induction fuel as [|fuel IH]; intros left at_ slot ps Hf H.
  { destruct left; [|lia]. by injection H as <- _. }
  destruct left as [|l]; [by injection H as <- _|]. set (left := S l) in *.
  assert (Hslow : forall left at_ slot ps, 0 < left -> left <= S fuel -> slow_list left bytes at_ slot = Ok (ps, e) ->
    exists p at1 rest, slow_posting bytes at_ slot = Ok (p, at1) /\ for_each_loop fuel (left - 1) bytes at1 p.1 = Ok rest /\ ps = p :: rest).
  { clear - IH. intros [|l] at_ slot ps Hp Hf H; [lia|]. cbn [slow_list] in H. destruct (slow_posting bytes at_ slot) as [[p at1]| |]; try done. cbn [obind] in H.
    destruct (slow_list l bytes at1 p.1) as [[qs e']| |] eqn:E; try done. cbn [obind] in H. injection H as <- <-. exists p, at1, qs. split_and!; [done| |done].
    replace (S l - 1) with l by lia. apply IH; [lia|done]. }
  cbn [for_each_loop]. fold left. destruct (8 <=? left) eqn:E8; [apply Nat.leb_le in E8|].
  2: { cbn [obind]. destruct (Hslow left at_ slot ps) as (p & at1 & rest & -> & Hr & ->); [lia|done|done|]. cbn [obind]. by rewrite Hr. }
  destruct (get_range bytes at_ (at_ + 8)) as [w|] eqn:Ew.
  2: { cbn [obind]. destruct (Hslow left at_ slot ps) as (p & at1 & rest & -> & Hr & ->); [lia|done|done|]. cbn [obind]. by rewrite Hr. }
  unfold get_range in Ew. destruct (_ && _) eqn:El; [|done]. bool_to_prop. injection Ew as <-. replace (at_ + 8 - at_) with 8 in * by lia.
  set (w := take 8 (drop at_ bytes)). set (n := clean_count (from_le_bytes w)). pose proof (clean_count_le (from_le_bytes w)) as Hn. fold n in Hn.
  assert (Hwl : length w = 8) by (unfold w; rewrite length_take, length_drop; lia).
  assert (Hwb : bytes_ok w) by (unfold w, bytes_ok; by apply Forall_take, Forall_drop).
  replace left with (n + (left - n)) in H by lia. apply slow_list_app in H as (ps1 & ps2 & at1 & slot1 & -> & HL1 & HL2 & Hs1).
  destruct (clean_postings_ok (from_le_bytes w) bytes n 0 at_ slot ps1 at1) as [Hc ->]; [|done|].
  { intros j Hj. destruct (lookup_lt_is_Some_2 w j) as [b Hbj]; [lia|]. exists b. rewrite Nat.sub_0_r.
    destruct (clean_byte w j b Hwb Hwl ltac:(fold n; lia) Hbj) as (B1 & B2 & B3). split_and!; try done; [|lia|lia].
    unfold w in Hbj. rewrite lookup_take_lt, lookup_drop in Hbj by lia. done. }
  rewrite Hc. cbn [obind]. rewrite <- Hs1. destruct (Nat.eqb_spec n 8) as [E|E].
  - rewrite (IH (left - n) _ _ _ ltac:(lia) HL2). done.
  - destruct (Hslow (left - n) _ _ _ ltac:(lia) ltac:(lia) HL2) as (p & at2 & rest & -> & Hr & ->). cbn [obind]. by rewrite Hr.
Qed.

Lemma checked_loop_nonneg shifts bytes at_ value r : (0 <= value)%Z -> checked_varint_loop shifts bytes at_ value = Ok r -> (0 <= r.1)%Z.
Proof.
  revert at_ value. induction shifts as [|sh shifts IH]; intros at_ value Hv H; [done|]. cbn [checked_varint_loop] in H.
  destruct (bytes !! at_) as [b|]; [|done]. cbn [ok_or obind] in H.
  assert (0 <= Z.lor value (wrap U64 (Z.shiftl (Z.land b 0x7f) sh)))%Z as Hn.
  { apply Z.lor_nonneg. split; [done|]. unfold wrap. apply Z.mod_pos_bound. done. }
  destruct (_ =? 0)%Z; [by injection H as <-|by apply (IH _ _ Hn H)].
Qed.

Lemma try_each_slow n bytes at_ slot acc out :
  bytes_ok bytes -> try_each collect_posting n bytes at_ slot acc = Ok out ->
  exists ps, out = acc ++ ps /\ slow_list n bytes at_ slot = Ok (ps, length bytes).
Proof.
  intros Hb. revert at_ slot acc. induction n as [|n IH]; intros at_ slot acc H.
  { cbn [try_each] in H. destruct (Nat.eqb_spec at_ (length bytes)) as [->|]; [|done]. injection H as <-. exists []. by rewrite app_nil_r. }
  cbn [try_each] in H. destruct (checked_varint bytes at_) as [[word a]| |] eqn:Ew; try done. cbn [obind] in H.
  cbn [slow_list]. unfold slow_posting. rewrite (get_varint_checked _ _ _ Hb Ew). cbn [obind].
  destruct (Z.land word 1 =? 0)%Z.
  - cbn [obind] in H. destruct (checked_add U64 slot (Z.shiftr word 1)) as [slot'|]; [|done]. cbn [ok_or expect obind] in *.
    cbn [fst]. destruct (IH _ _ _ H) as (ps & -> & ->). cbn [obind]. eexists. rewrite <- app_assoc. done.
  - destruct (checked_varint bytes a) as [[frequency a']| |] eqn:Ef; try done. cbn [obind] in H.
    destruct (negb _); [|done]. cbn [obind] in H. destruct (checked_add U64 slot (Z.shiftr word 1)) as [slot'|]; [|done]. cbn [ok_or expect obind] in *.
    destruct (Z.ltb_spec frequency U32) as [Hlt|]; [|done]. cbn [obind] in H. rewrite (get_varint_checked _ _ _ Hb Ef). cbn [obind].
    apply checked_loop_nonneg in Ef; [|done]. cbn [fst] in Ef. rewrite (wrap_small U32 frequency) by lia.
    cbn [fst]. destruct (IH _ _ _ H) as (ps & -> & ->). cbn [obind]. eexists. rewrite <- app_assoc. done.
Qed.

(** A posting list the checked decoder accepts is read by the unchecked one without a panic,
    eight postings at a time where it can, to the same postings. *)
Theorem unchecked_reads_checked bytes count ps :
  bytes_ok bytes -> try_list bytes count = Ok ps -> for_each bytes count = Ok ps.
Proof.
  intros Hb H. destruct (try_each_slow _ _ _ _ _ _ Hb H) as (qs & -> & Hs). by eapply for_each_slow.
Qed.

Lemma unchecked_reads_checked_witness :
  let bytes := [2; 4; 6; 8; 2; 2; 4; 6; 3; 5; 2; 129; 1; 9]%Z in
  exists ps, length ps = 11 /\ for_each bytes 11 = Ok ps.
Proof.
  intros bytes. destruct (try_list bytes 11) as [ps| |] eqn:E; [|vm_compute in E; discriminate..]. exists ps. split.
  - vm_compute in E. injection E as <-. reflexivity.
  - apply (unchecked_reads_checked bytes 11 ps); [|exact E]. unfold bytes_ok, is_u8. repeat constructor; lia.
Defined.

(** ** What is written is read *)

Definition packed_word (gap frequency : Z) : Z := (2 * gap + if frequency =? 1 then 0 else 1)%Z.

Lemma word_bits gap frequency :
  (0 <= gap < 2 ^ 63)%Z ->
  let word := Z.lor (wrap U64 (Z.shiftl gap 1)) (if (frequency =? 1)%Z then 0 else 1)%Z in
  word = packed_word gap frequency /\ is_u64 word /\ Z.shiftr word 1 = gap /\ (Z.land word 1 =? 0)%Z = (frequency =? 1)%Z.
Proof.
  intros Hg word. assert (Hs : wrap U64 (Z.shiftl gap 1) = (2 * gap)%Z).
  { rewrite Z.shiftl_mul_pow2 by lia. rewrite wrap_small; unfold U64; lia. }
  assert (Hw : word = packed_word gap frequency).
  { unfold word, packed_word. rewrite Hs. destruct (frequency =? 1)%Z; [rewrite Z.lor_0_r; lia|].
    assert (Z.land (2 * gap) 1 = 0)%Z as H0 by (rewrite land_1, Z.mul_comm; apply Z.mod_mul; lia).
    by rewrite <- Z.lxor_lor, <- Z.add_nocarry_lxor. }
  rewrite Hw. unfold packed_word. rewrite land_1.
  rewrite Z.shiftr_div_pow2 by lia. change (2 ^ 1)%Z with 2%Z. unfold is_u64, U64.
  destruct (frequency =? 1)%Z; (split_and!; [done|lia|lia| |(apply Z.eqb_eq || apply Z.eqb_neq)]; Z.to_euclidean_division_equations; lia).
Qed.

(** The slots ascend from [from]. *)
Fixpoint ascending (from : Z) (ps : list Posting) : Prop :=
  match ps with [] => True | (s, f) :: rest => (from <= s < 2 ^ 63)%Z /\ is_u32 f /\ ascending s rest end.

Definition start (previous : option Z) : Z := match previous with Some p => p | None => 0%Z end.

Lemma pack_postings_step previous s f ps :
  (0 <= start previous <= s)%Z ->
  pack_postings previous ((s, f) :: ps) =
    let* tail := pack_postings (Some s) ps in
    Ok (put_varint (Z.lor (wrap U64 (Z.shiftl (s - start previous) 1)) (if (f =? 1)%Z then 0 else 1)%Z) ++
        (if (f =? 1)%Z then [] else put_varint f) ++ tail).
Proof.
  intros Hs. cbn [pack_postings]. destruct previous as [p|]; cbn [start] in *.
  - unfold checked_sub. rewrite (proj2 (Z.leb_le p s)) by lia. done.
  - by rewrite Z.sub_0_r.
Qed.

Lemma pack_postings_reads previous ps before acc :
  (0 <= start previous)%Z -> ascending (start previous) ps ->
  exists bytes, pack_postings previous ps = Ok bytes /\ bytes_ok bytes /\
    try_each collect_posting (length ps) (before ++ bytes) (length before) (start previous) acc = Ok (acc ++ ps).
Proof.
  revert previous before acc. induction ps as [|[s f] ps IH]; intros previous before acc H0 Ha.
  { exists []. split_and!; [done|constructor|]. cbn [length try_each]. rewrite app_nil_r, Nat.eqb_refl. by rewrite app_nil_r. }
  destruct Ha as (Hs & Hf & Ha). rewrite pack_postings_step by lia.
  destruct (word_bits (s - start previous) f) as (_ & Hw & Hgap & Hflag); [lia|]. set (word := Z.lor _ _) in *.
  set (extra := if (f =? 1)%Z then [] else put_varint f).
  destruct (IH (Some s) (before ++ put_varint word ++ extra) (acc ++ [(s, f)])) as (bytes & -> & Hb & Ht); [cbn; lia|done|].
  cbn [obind]. eexists. split; [done|]. split.
  { apply Forall_app_2; [apply put_varint_ok|apply Forall_app_2; [|done]]. unfold extra. destruct (_ =? 1)%Z; [constructor|apply put_varint_ok]. }
  cbn [length try_each]. rewrite checked_varint_put by done. cbn [obind]. rewrite Hflag, Hgap.
  assert (Hadd : checked_add U64 (start previous) (s - start previous) = Some s).
  { unfold checked_add. replace (start previous + (s - start previous))%Z with s by lia. rewrite (proj2 (Z.ltb_lt s U64)); [done|unfold U64; lia]. }
  assert (Hu : (f <? U32)%Z = true) by (apply Z.ltb_lt; unfold is_u32 in Hf; lia).
  cbn [start] in Ht. rewrite <- app_assoc in Ht. rewrite !length_app, <- !app_assoc in Ht.
  unfold extra in *. destruct (f =? 1)%Z eqn:E1.
  - apply Z.eqb_eq in E1 as ->. cbn [obind]. rewrite Hadd. cbn [ok_or obind collect_posting]. rewrite Nat.add_0_r in Ht. exact Ht.
  - pose proof (checked_varint_put (before ++ put_varint word) f bytes) as Hc. rewrite length_app, <- app_assoc in Hc.
    rewrite Hc by (unfold is_u32, is_u64, U32, U64 in *; lia). cbn [obind]. rewrite E1. cbn [negb obind]. rewrite Hadd. cbn [ok_or obind].
    rewrite Hu. cbn [obind collect_posting]. rewrite Nat.add_assoc in Ht. exact Ht.
Qed.

Lemma ascending_sorted from ps :
  StronglySorted Z.lt (map fst ps) -> Forall (fun p => (from <= p.1 < 2 ^ 63)%Z /\ is_u32 p.2) ps -> ascending from ps.
Proof.
  revert from. induction ps as [|[s f] ps IH]; intros from Hs Hf; [done|]. cbn [map fst] in Hs. inversion Hs as [|?? Hs' Hlt]; subst.
  apply Forall_cons in Hf as [[Hr Hu] Hf]. cbn [fst snd] in Hr, Hu. split; [lia|]. split; [exact Hu|]. apply IH; [done|].
  rewrite Forall_forall in Hf |- *. rewrite Forall_forall in Hlt. intros p Hp. destruct (Hf p Hp) as [Hb ?]. split; [|done].
  specialize (Hlt p.1 ltac:(apply list_elem_of_fmap; by exists p)). cbn [fst] in *. lia.
Qed.

(** A list is packed, and both decoders read it back. *)
Lemma models_packs words l es :
  models words l es -> (forall e, e ∈ es -> slot_of e < 2 ^ 63)%Z ->
  exists bytes, pack_checkpoint l = Ok bytes /\ bytes_ok bytes /\
    try_list bytes (pl_count l) = Ok (map fst es) /\ for_each bytes (pl_count l) = Ok (map fst es).
Proof.
  intros Hm Hmax. pose proof (models_for_each _ _ _ Hm) as Hfe. destruct (models_entries _ _ _ Hm) as [Hs Hsl Hv].
  assert (Ha : ascending 0 (map fst es)).
  { apply ascending_sorted; [by rewrite map_map|]. apply Forall_fmap, Forall_forall. intros e Hin. cbn.
    rewrite Forall_forall in Hsl, Hv. specialize (Hsl e Hin). specialize (Hv e Hin). specialize (Hmax e Hin). unfold is_u64, slot_of in *.
    split; [lia|apply Hv]. }
  destruct (pack_postings_reads None (map fst es) [] [] ltac:(done) Ha) as (bytes & Hp & Hb & Ht). exists bytes.
  assert (Hl : try_list bytes (pl_count l) = Ok (map fst es)).
  { unfold try_list, try_for_each. replace (Z.to_nat (pl_count l)) with (length (map fst es)); [done|].
    destruct Hm as (gs & H & <-). rewrite length_map. destruct H. lia. }
  split_and!; [unfold pack_checkpoint; by rewrite Hfe|done|done|].
  destruct (try_each_slow _ _ _ _ _ _ Hb Hl) as (qs & -> & Hq). by eapply for_each_slow.
Qed.

(** A posting list written to a checkpoint is read back.  Whatever edits made the list, the
    postings it holds are packed without a panic, and both decoders of the packed bytes, given
    the list's count, return exactly those postings: the slots and frequencies of the map the
    edits build, in slot order. *)
Theorem checkpoint_list_roundtrip words os l :
  reached words os l -> (forall s v, final_map os !! s = Some v -> s < 2 ^ 63)%Z ->
  exists bytes ps, pack_checkpoint l = Ok bytes /\
    try_list bytes (pl_count l) = Ok ps /\ for_each bytes (pl_count l) = Ok ps /\
    StronglySorted Z.lt (map fst ps) /\
    (forall s f, (s, f) ∈ ps <-> exists o, final_map os !! s = Some (f, o)).
Proof.
  intros Hr Hmax. destruct (reached_models words os l Hr) as (es & Hm & He). pose proof (models_entries _ _ _ Hm) as Hok.
  pose proof (entries_distinct _ Hok) as Hd. destruct (models_packs _ _ _ Hm) as (bytes & Hp & _ & Ht & Hf).
  { intros e Hin. apply (Hmax _ (e.1.2, e.2)). rewrite <- He. apply to_map_Some; [done|]. exists e. by destruct e as [[??]?]. }
  exists bytes, (map fst es). split_and!; [done|done|done|rewrite map_map; apply Hok|].
  intros s f. rewrite map_entries by done. by rewrite He.
Qed.

Lemma checkpoint_list_roundtrip_witness :
  reached toy_words toy_edits toy_list /\
  exists bytes ps, pack_checkpoint toy_list = Ok bytes /\ try_list bytes (pl_count toy_list) = Ok ps /\ (4, 200)%Z ∈ ps.
Proof.
  split; [exact toy_reached|]. destruct (checkpoint_list_roundtrip toy_words toy_edits toy_list toy_reached) as (bytes & ps & Hp & Ht & _ & _ & Hin).
  { intros s v H. assert (Hall : map_Forall (fun k _ => (k < 2 ^ 63)%Z) (final_map toy_edits)) by by_decide. exact (Hall s v H). }
  exists bytes, ps. split; [exact Hp|]. split; [exact Ht|]. apply Hin. exists 7%Z. vm_compute. reflexivity.
Defined.

(** The tenth byte of a varint contributes one bit; the checked decoder drops its others, where
    the journal's reader refuses them. *)
Lemma overlong_varint_accepted :
  let bytes := replicate 9 0x80%Z ++ [0x7e]%Z in
  checked_varint bytes 0 = Ok (0%Z, 10) /\ exists e, varint (mid [] bytes) = Err e.
Proof. split; [reflexivity|]. eexists. vm_compute. reflexivity. Qed.
