(* ===== verification/Lists.v ===== *)
(** * The inverted index of one term form

    [PostingLists] of [src/core/documents/postings.rs] and [replace_postings] of
    [src/core/documents/index.rs]: a dictionary from terms to list ids, the lists, and the free
    ids.  The index is written against an interface of the dictionary ([TermIndex]); the sorted
    base with an overlay of [TermDict] implements it.  It refines a map from terms to the slots
    that hold them. *)

From S2P Require Import Prelude Words BitPack Search Positions Terms TermDict Postings Cursor PostingEdit PostingRuns.

(** ** The dictionary interface *)

Class TermIndex (D : Type) : Type := {
  ti_default : D;
  ti_get : D -> list Z -> outcome (option Z);
  ti_insert : D -> list Z -> Z -> outcome D;
  ti_insert_many : D -> list (list Z * Z) -> outcome D;
  ti_remove : D -> list Z -> outcome (D * option Z);
  ti_ok : D -> term_map -> Prop;
  ti_default_ok : ti_ok ti_default ∅;
  ti_get_ok : forall d m k, ti_ok d m -> ti_get d k = Ok (m !! k);
  ti_insert_ok : forall d m k id, ti_ok d m -> m !! k = None -> id <> NONE -> (text_size (<[k := id]> m) < U32)%Z ->
    exists d', ti_insert d k id = Ok d' /\ ti_ok d' (<[k := id]> m);
  ti_insert_many_ok : forall d m ts, ti_ok d m -> fresh_terms m ts -> (text_size (list_to_map ts ∪ m) < U32)%Z ->
    exists d', ti_insert_many d ts = Ok d' /\ ti_ok d' (list_to_map ts ∪ m);
  ti_remove_ok : forall d m k, ti_ok d m -> (text_size m < U32)%Z ->
    exists d', ti_remove d k = Ok (d', m !! k) /\ ti_ok d' (delete k m) }.

#[global] Instance term_dictionary_index : TermIndex TermDictionary := {|
  ti_default := td_default; ti_get := td_get; ti_insert := td_insert; ti_insert_many := insert_many;
  ti_remove := td_remove; ti_ok := dict_ok; ti_default_ok := dict_ok_default; ti_get_ok := td_get_ok;
  ti_insert_ok := td_insert_ok; ti_insert_many_ok := insert_many_ok; ti_remove_ok := td_remove_ok |}.

Record PostingLists (D : Type) := mkLists { pls_dictionary : D; pls_lists : list PostingList; pls_free : list Z }.
Arguments mkLists {D}.
Arguments pls_dictionary {D}.
Arguments pls_lists {D}.
Arguments pls_free {D}.

(** [words.get(slot).copied().unwrap_or(0)]. *)
Definition words_at (ws : list Z) (slot : Z) : Z := default 0%Z (ws !! Z.to_nat slot).

Section Lists.
Context {D : Type} {dict : TermIndex D}.

Definition pls_default : PostingLists D := {| pls_dictionary := ti_default; pls_lists := []; pls_free := [] |}.

Definition set_lists (s : PostingLists D) (lists : list PostingList) : PostingLists D :=
  {| pls_dictionary := pls_dictionary s; pls_lists := lists; pls_free := pls_free s |}.

Definition set_dictionary (s : PostingLists D) (d : D) : PostingLists D :=
  {| pls_dictionary := d; pls_lists := pls_lists s; pls_free := pls_free s |}.

(** [&mut self.lists[id as usize]] changed by [f]. *)
Definition on_list (s : PostingLists D) (id : Z) (f : PostingList -> outcome PostingList) : outcome (PostingLists D) :=
  let* l := expect (pls_lists s !! Z.to_nat id) in
  let* l := f l in
  Ok (set_lists s (<[Z.to_nat id := l]> (pls_lists s))).

Definition pls_get (s : PostingLists D) (term : list Z) : outcome (option PostingList) :=
  let* id := ti_get (pls_dictionary s) term in
  match id with
  | None => Ok None
  | Some id => let* l := expect (pls_lists s !! Z.to_nat id) in Ok (Some l)
  end.

Definition allocate_list (s : PostingLists D) : outcome (PostingLists D * Z) :=
  match last (pls_free s) with
  | Some id => Ok ({| pls_dictionary := pls_dictionary s; pls_lists := pls_lists s;
                      pls_free := take (length (pls_free s) - 1) (pls_free s) |}, id)
  | None =>
      let s := set_lists s (pls_lists s ++ [pl_default]) in
      let* id := to_u32 (Z.of_nat (length (pls_lists s) - 1)) in
      Ok (s, id)
  end.

Definition insert_with_ordinal (s : PostingLists D) (term : list Z) (slot frequency ordinal : Z) (ws : list Z)
    : outcome (PostingLists D) :=
  let* known := ti_get (pls_dictionary s) term in
  let* (s, id) :=
    match known with
    | Some id => Ok (s, id)
    | None =>
        let* (s, id) := allocate_list s in
        let* d := ti_insert (pls_dictionary s) term id in
        Ok (set_dictionary s d, id)
    end in
  on_list s id (fun l => append_run_with_ordinals (words_at ws) l [(slot, frequency)] [ordinal]).

Definition pls_remove (s : PostingLists D) (term : list Z) (slot : Z) (ws : list Z) : outcome (PostingLists D) :=
  let* known := ti_get (pls_dictionary s) term in
  let* id := expect known in
  let* l := expect (pls_lists s !! Z.to_nat id) in
  let* l := pl_remove (words_at ws) l slot in
  if (pl_count l =? 0)%Z then
    let* (d, _) := ti_remove (pls_dictionary s) term in
    Ok {| pls_dictionary := d; pls_lists := <[Z.to_nat id := pl_default]> (pls_lists s); pls_free := pls_free s ++ [id] |}
  else Ok (set_lists s (<[Z.to_nat id := l]> (pls_lists s))).

Definition pls_invalidate_length (s : PostingLists D) (term : list Z) (slot : Z) : outcome (PostingLists D) :=
  let* known := ti_get (pls_dictionary s) term in
  let* id := expect known in
  on_list s id (fun l => pl_invalidate_length l slot).

Definition pls_set_entry (s : PostingLists D) (term : list Z) (slot frequency : Z) (ordinal : option Z) (ws : list Z)
    : outcome (PostingLists D) :=
  let* known := ti_get (pls_dictionary s) term in
  let* id := expect known in
  on_list s id (fun l => pl_set_entry (words_at ws) l slot frequency ordinal).

(** [TermRun]: its term, postings and ordinals. *)
Record TermRun := mkRun { tr_term : list Z; tr_postings : list Posting; tr_ordinals : list Z }.

Fixpoint insert_runs_loop (s : PostingLists D) (runs : list (TermRun * option Z)) (new_terms : list (list Z * Z))
    (ws : list Z) : outcome (PostingLists D * list (list Z * Z)) :=
  match runs with
  | [] => Ok (s, new_terms)
  | (run, known) :: rest =>
      let* (s, id, new_terms) :=
        match known with
        | Some id => Ok (s, id, new_terms)
        | None => let* (s, id) := allocate_list s in Ok (s, id, new_terms ++ [(tr_term run, id)])
        end in
      let* s := on_list s id (fun l => append_run_with_ordinals (words_at ws) l (tr_postings run) (tr_ordinals run)) in
      insert_runs_loop s rest new_terms ws
  end.

(** The ids are looked up before any list changes; the new terms enter the dictionary together. *)
Definition insert_runs_with_lengths (s : PostingLists D) (runs : list TermRun) (ws : list Z) : outcome (PostingLists D) :=
  match runs with
  | [] => Ok s
  | _ =>
      let* ids := omap_list (fun run => ti_get (pls_dictionary s) (tr_term run)) runs in
      let* (s, new_terms) := insert_runs_loop s (zip runs ids) [] ws in
      let* d := ti_insert_many (pls_dictionary s) new_terms in
      Ok (set_dictionary s d)
  end.
End Lists.

(** ** Lists under other lengths *)

(** Bounds stay valid when lengths grow or do not change. *)
Lemma models_mono words words' l es :
  (forall e, e ∈ es -> words (slot_of e) <= words' (slot_of e))%Z -> models words l es -> models words' l es.
Proof.
  intros Hle (gs & H & <-). exists gs. split; [|done]. destruct H as [Hr Hs Hb Hp Hc Hsm Hpo Hl]. split; try done.
  assert (Hle' : forall g, g ∈ gs -> forall p, p ∈ g.1 -> (words p.1 <= words' p.1)%Z).
  { intros g Hg p Hp'. pose proof (br_groups _ _ (lr_blocks _ _ Hr)) as Hgs. rewrite Forall_forall in Hgs.
    rewrite <- (entries_fst g (Hgs g Hg)) in Hp'. apply list_elem_of_fmap in Hp' as (e & -> & He).
    apply list_elem_of_lookup in Hg as [i Hi]. exact (Hle e (elem_flat gs i g e Hi He)). }
  clear -Hb Hle'. induction Hb as [|b g bs gs Hb _ IH]; constructor; [|apply IH; intros; apply (Hle' g0); [by right|done]].
  destruct Hb as [Hc Hm Hf]. split; [|done|done]. unfold covers in *. rewrite Forall_forall in Hc |- *. intros p Hp.
  pose proof (Hle' g ltac:(left) p Hp) as Hw. destruct (Hc p Hp) as (H1 & H2 & H3). split_and!; [done|lia|].
  destruct H3 as [?|H3]; [by left|right]. destruct (b_frontier b) as [pts|]; [|done].
  destruct H3 as (q & Hq & Hd). exists q. split; [done|]. unfold dominates in *. simpl in *. lia.
Qed.

Lemma models_count words l es : models words l es -> pl_count l = Z.of_nat (length es).
Proof. intros (gs & H & <-). apply H. Qed.

(** ** The invariant *)

Abbreviation index_map := (gmap (list Z) slot_map).

(** A term, its new entries and the ordinals given for them. *)
Abbreviation term_entries := (list Z * list (Posting * Z) * list Z)%type.

(** The size of the terms' text. *)
Definition index_text (M : index_map) : Z := text_size ((fun _ => 0%Z) <$> M).

Lemma text_size_keys (m : term_map) : text_size m = text_size ((fun _ => 0%Z) <$> m).
Proof.
  unfold text_size. rewrite map_to_list_fmap. unfold text_len. do 3 f_equal.
  change (map fst (prod_map id (fun _ => 0%Z) <$> map_to_list m)) with (map fst (map (prod_map id (fun _ : Z => 0%Z)) (map_to_list m))).
  rewrite map_map. apply map_ext. by intros [].
Qed.

Lemma same_dom_None (m : term_map) (M : index_map) k : dom m = dom M -> (m !! k = None <-> M !! k = None).
Proof. intros Hd. by rewrite <- !not_elem_of_dom, Hd. Qed.

Lemma text_size_dom (m : term_map) (M : index_map) : dom m = dom M -> text_size m = index_text M.
Proof.
  intros Hd. rewrite text_size_keys. unfold index_text. f_equal. apply map_eq. intros k. rewrite !lookup_fmap.
  pose proof (same_dom_None m M k Hd). destruct (m !! k), (M !! k); naive_solver.
Qed.

(** The lists and free ids hold the postings [M] of the terms [m]; [words term] are the lengths
    the bounds of the term's list hold for. *)
Record core_ok (words : list Z -> Z -> Z) (lists : list PostingList) (free : list Z) (m : term_map) (M : index_map) : Prop := {
  lo_dom : dom m = dom M;
  lo_live : forall t id, m !! t = Some id -> (0 <= id < Z.of_nat (length lists))%Z /\
    exists l es, lists !! Z.to_nat id = Some l /\ models (words t) l es /\ es <> [] /\ M !! t = Some (to_map es);
  lo_inj : forall t t' id, m !! t = Some id -> m !! t' = Some id -> t = t';
  lo_free : Forall (fun id => (0 <= id < Z.of_nat (length lists))%Z /\ lists !! Z.to_nat id = Some pl_default /\
    forall t, m !! t <> Some id) free;
  lo_free_once : NoDup free;
  lo_total : size m + length free = length lists;
  lo_small : (Z.of_nat (length lists) <= NONE)%Z }.

Lemma core_None words lists free m M t : core_ok words lists free m M -> (m !! t = None <-> M !! t = None).
Proof. intros H. apply same_dom_None, H. Qed.

Lemma core_Some words lists free m M t sm :
  core_ok words lists free m M -> M !! t = Some sm ->
  exists id l es, m !! t = Some id /\ lists !! Z.to_nat id = Some l /\ models (words t) l es /\ es <> [] /\ sm = to_map es.
Proof.
  intros H HM. destruct (m !! t) as [id|] eqn:Hm; [|apply (core_None _ _ _ _ _ _ H) in Hm; congruence].
  destruct (lo_live _ _ _ _ _ H t id Hm) as (_ & l & es & Hl & Hmod & Hne & HM'). exists id, l, es. split_and!; congruence.
Qed.

(** The lengths a term's bounds hold for, changed for one term. *)
Definition set_term (words : list Z -> Z -> Z) (t : list Z) (w : Z -> Z) : list Z -> Z -> Z :=
  fun t' => if decide (t' = t) then w else words t'.

Lemma set_term_eq words t w : set_term words t w t = w.
Proof. unfold set_term. by rewrite decide_True. Qed.

(** The postings of a term, none when it is absent. *)
Definition at_term (M : index_map) (t : list Z) : slot_map := default ∅ (M !! t).

(** The list of a live term replaced by another nonempty one. *)
Lemma update_list_ok words lists free m M t id l' es' w' :
  core_ok words lists free m M -> m !! t = Some id -> models w' l' es' -> es' <> [] ->
  core_ok (set_term words t w') (<[Z.to_nat id := l']> lists) free m (<[t := to_map es']> M).
Proof.
  intros H Hid Hm Hne. pose proof H as [H2 H3 H4 H5 H6 H7 H8].
  destruct (H3 t id Hid) as (Hrange & l & es & Hl & _ & _ & HM).
  split; try done; rewrite ?length_insert; try done.
  - rewrite dom_insert_lookup_L; [done|]. by exists (to_map es).
  - intros t' id' Hid'. destruct (H3 t' id' Hid') as (Hrange' & l0 & es0 & Hl0 & Hm0 & Hne0 & HM0). split; [done|].
    unfold set_term. case_decide as Ht.
    + subst t'. rewrite Hid in Hid'. injection Hid' as <-. exists l', es'. rewrite lookup_insert_eq.
      rewrite list_lookup_insert_eq by lia. done.
    + exists l0, es0. rewrite lookup_insert_ne by done. rewrite list_lookup_insert_ne; [done|].
      intros Heq. apply Ht. apply (H4 t' t id); [|done]. rewrite Hid'. f_equal. lia.
  - eapply Forall_impl; [exact H5|]. intros i (Hi1 & Hi2 & Hi3). split; [done|]. split; [|done].
    rewrite list_lookup_insert_ne; [done|]. intros Heq. apply (Hi3 t). rewrite Hid. f_equal. lia.
Qed.

Lemma core_ok_words words words' lists free m M :
  (forall t sm, M !! t = Some sm -> forall k v, sm !! k = Some v -> words t k <= words' t k)%Z ->
  core_ok words lists free m M -> core_ok words' lists free m M.
Proof.
  intros Hw H. pose proof H as [H2 H3 H4 H5 H6 H7 H8]. split; try done.
  intros t id Hid. destruct (H3 t id Hid) as (Hr & l & es & Hl & Hm & Hne & HM). split; [done|]. exists l, es. split_and!; try done.
  apply (models_mono (words t)); [|done]. intros e He. apply (Hw t (to_map es) HM _ (e.1.2, e.2)).
  apply to_map_Some; [by eapply entries_distinct, models_entries|]. by exists e.
Qed.

(** The list of a term that leaves the index. *)
Lemma free_list_ok words lists free m M t id w :
  core_ok words lists free m M -> m !! t = Some id ->
  core_ok (set_term words t w) (<[Z.to_nat id := pl_default]> lists) (free ++ [id]) (delete t m) (delete t M).
Proof.
  intros H Hid. pose proof H as [H2 H3 H4 H5 H6 H7 H8]. destruct (H3 t id Hid) as (Hrange & _).
  assert (Hother : forall t' id', delete t m !! t' = Some id' -> t' <> t /\ m !! t' = Some id' /\ id' <> id).
  { intros t' id' Hd. apply lookup_delete_Some in Hd as [Hne Hd]. split_and!; [by apply not_eq_sym|done|]. intros ->. apply Hne. by apply (H4 t t' id). }
  split; rewrite ?length_insert.
  - by rewrite !dom_delete_L, H2.
  - intros t' id' Hd. destruct (Hother _ _ Hd) as (Hne & Hm & Hni). destruct (H3 t' id' Hm) as (Hr' & l & es & Hl & Hmod & Hrest).
    split; [done|]. exists l, es. unfold set_term. rewrite decide_False, lookup_delete_ne, list_lookup_insert_ne by (done || lia). done.
  - intros t1 t2 id' (_ & Hd1 & _)%Hother (_ & Hd2 & _)%Hother. by apply (H4 t1 t2 id').
  - apply Forall_app. split.
    + eapply Forall_impl; [exact H5|]. intros i (Hi1 & Hi2 & Hi3). assert (i <> id) by (intros ->; by apply (Hi3 t)).
      split; [done|]. split; [by rewrite list_lookup_insert_ne by lia|]. intros t' (_ & Hd & _)%Hother. by apply (Hi3 t').
    + constructor; [|constructor]. split; [done|]. split; [by rewrite list_lookup_insert_eq by lia|].
      intros t' Hd. by destruct (Hother _ _ Hd) as (_ & _ & []).
  - apply NoDup_app. split_and!; [done| |repeat constructor; by intros ?%elem_of_nil].
    intros i Hi ->%list_elem_of_singleton. rewrite Forall_forall in H5. destruct (H5 _ Hi) as (_ & _ & Hno). by apply (Hno t).
  - rewrite length_app. simpl. rewrite map_size_delete, Hid. simpl.
    assert (0 < size m). { destruct (size m) eqn:E; [|lia]. apply map_size_empty_inv in E. by rewrite E in Hid. } lia.
  - done.
Qed.

(** A term added under an unused id. *)
Lemma fresh_list_ok words lists0 free0 m M t lists free id :
  core_ok words lists0 free0 m M -> m !! t = None ->
  (0 <= id < Z.of_nat (length lists))%Z -> (forall t', m !! t' <> Some id) -> (id ∉ free) ->
  (forall i, i < length lists0 -> lists !! i = lists0 !! i) ->
  (forall i, i ∈ free -> i ∈ free0) -> NoDup free -> length lists0 <= length lists ->
  S (size m + length free) = length lists -> (Z.of_nat (length lists) <= NONE)%Z ->
  forall l' es', models (words t) l' es' -> es' <> [] ->
  core_ok words (<[Z.to_nat id := l']> lists) free (<[t := id]> m) (<[t := to_map es']> M).
Proof.
  intros H Ht Hr Hnew Hnf Hsame Hsub Hnd Hge Htot Hsm l' es' Hm Hne. pose proof H as [H2 H3 H4 H5 H6 H7 H8].
  split; rewrite ?length_insert; try done.
  - by rewrite !dom_insert_L, H2.
  - intros t' id' Hid'. destruct (decide (t' = t)) as [->|Hne'].
    + rewrite lookup_insert_eq in Hid'. injection Hid' as <-. split; [done|]. exists l', es'.
      rewrite lookup_insert_eq, list_lookup_insert_eq by lia. done.
    + rewrite lookup_insert_ne in Hid' by done. destruct (H3 t' id' Hid') as (Hr' & l & es & Hl & Hrest). split; [lia|].
      exists l, es. rewrite lookup_insert_ne by done. rewrite list_lookup_insert_ne.
      * rewrite Hsame; [done|lia].
      * intros Heq. apply (Hnew t'). rewrite Hid'. f_equal. lia.
  - intros t1 t2 id' Ht1 Ht2. destruct (decide (t1 = t)) as [->|N1], (decide (t2 = t)) as [->|N2]; try done.
    + rewrite lookup_insert_eq in Ht1. rewrite lookup_insert_ne in Ht2 by done. simplify_eq. by destruct (Hnew t2).
    + rewrite lookup_insert_eq in Ht2. rewrite lookup_insert_ne in Ht1 by done. simplify_eq. by destruct (Hnew t1).
    + rewrite lookup_insert_ne in Ht1, Ht2 by done. by apply (H4 t1 t2 id').
  - apply Forall_forall. intros i Hi. rewrite Forall_forall in H5. destruct (H5 i (Hsub i Hi)) as (Hi1 & Hi2 & Hi3).
    assert (Hii : i <> id) by (intros ->; done). split; [lia|]. split.
    + rewrite list_lookup_insert_ne by lia. rewrite Hsame; [done|lia].
    + intros t'. destruct (decide (t' = t)) as [->|]; [rewrite lookup_insert_eq; congruence|rewrite lookup_insert_ne by done; apply Hi3].
  - rewrite map_size_insert_None by done. lia.
Qed.

Section ListsSpec.
Context {D : Type} {dict : TermIndex D}.

Definition lists_ok (words : list Z -> Z -> Z) (s : PostingLists D) (m : term_map) (M : index_map) : Prop :=
  ti_ok (pls_dictionary s) m /\ core_ok words (pls_lists s) (pls_free s) m M.

Definition represents (words : list Z -> Z -> Z) (s : PostingLists D) (M : index_map) : Prop :=
  exists m, lists_ok words s m M.

Lemma represents_default words : represents words pls_default ∅.
Proof. exists ∅. split; [apply ti_default_ok|]. split; simpl; try done; constructor. Qed.

Lemma ok_get words s m M t : lists_ok words s m M -> ti_get (pls_dictionary s) t = Ok (m !! t).
Proof. intros [H _]. by apply ti_get_ok. Qed.

(** A fresh list for an absent term. *)
Lemma allocate_ok words (s : PostingLists D) m M t :
  core_ok words (pls_lists s) (pls_free s) m M -> m !! t = None -> (Z.of_nat (size m) < NONE)%Z ->
  exists s' id, allocate_list s = Ok (s', id) /\ pls_dictionary s' = pls_dictionary s /\ id <> NONE /\
    pls_lists s' !! Z.to_nat id = Some pl_default /\
    forall l' es', models (words t) l' es' -> es' <> [] ->
      core_ok words (<[Z.to_nat id := l']> (pls_lists s')) (pls_free s') (<[t := id]> m) (<[t := to_map es']> M).
Proof.
  intros H Ht Hsz. pose proof H as [H2 H3 H4 H5 H6 H7 H8].
  pose proof (fun lists free id => fresh_list_ok words _ _ m M t lists free id H Ht) as Hcore.
  unfold allocate_list. destruct (last (pls_free s)) as [id|] eqn:El.
  - destruct (pls_free s) as [|f0 fr _] eqn:Ef using rev_ind; [done|]. rewrite last_snoc in El. injection El as ->.
    pose proof H5 as H5'. apply Forall_app in H5 as [_ [(Hi1 & Hi2 & Hi3) _]%Forall_cons]. apply NoDup_app in H6 as (Hn1 & Hn2 & _).
    rewrite length_app in *. cbn [length] in *. eexists _, id. split; [done|]. cbn [pls_dictionary pls_lists pls_free].
    rewrite take_app_length' by lia. split_and!; [done|lia|done|]. apply Hcore; try done; try lia.
    + intros Hin. apply (Hn2 id Hin). left.
    + intros i Hi. apply elem_of_app. by left.
  - apply last_None in El. rewrite El in *. simpl in H7. cbn [set_lists pls_lists]. rewrite length_app. cbn [length].
    unfold to_u32. rewrite (proj2 (Z.ltb_lt _ _)) by (unfold NONE in *; lia). cbn [obind].
    eexists _, _. split; [done|]. cbn [set_lists pls_dictionary pls_lists pls_free]. rewrite Nat2Z.id.
    replace (length (pls_lists s) + 1 - 1) with (length (pls_lists s)) by lia. split_and!; [done|lia|by rewrite list_lookup_middle|].
    intros l' es' Hm Hne. rewrite <- (Nat2Z.id (length (pls_lists s))) at 1. rewrite El. apply Hcore; try done.
    + rewrite length_app. simpl. lia.
    + intros t' Hbad. destruct (H3 t' _ Hbad) as [Hr _]. lia.
    + intros Hin. by apply elem_of_nil in Hin.
    + intros i Hi. by rewrite lookup_app_l.
    + rewrite length_app. lia.
    + rewrite length_app. simpl. lia.
    + rewrite length_app. simpl. lia.
Qed.

(** Lengths that only grew since the bounds of [t] were taken. *)
Definition grown (words : list Z -> Z -> Z) (M : index_map) (t : list Z) (w : Z -> Z) : Prop :=
  forall k v, at_term M t !! k = Some v -> (words t k <= w k)%Z.

Lemma at_term_Some M t sm : M !! t = Some sm -> at_term M t = sm.
Proof. unfold at_term. by intros ->. Qed.

Lemma grown_ok words lists free m M t w :
  grown words M t w -> core_ok words lists free m M -> core_ok (set_term words t w) lists free m M.
Proof.
  intros Hg. apply core_ok_words. intros t' sm Hsm k v Hk. unfold set_term. case_decide as Ht; [|lia]. subst t'.
  apply (Hg k v). by rewrite (at_term_Some _ _ _ Hsm).
Qed.

Lemma union_nonempty (a b : slot_map) : b <> ∅ -> a ∪ b <> ∅.
Proof. intros Hb. destruct (map_choose b Hb) as (k & v & Hk). intros He. apply (f_equal (lookup k)) in He.
  rewrite lookup_union_r, Hk in He; [done|]. destruct (a !! k) eqn:Ha; [|done]. rewrite (lookup_union_Some_l _ _ _ _ Ha) in He. done. Qed.

Lemma to_map_nil es : to_map es = ∅ <-> es = [].
Proof.
  split; [|by intros ->]. destruct es as [|e es]; [done|]. rewrite to_map_cons. intros He. by apply insert_non_empty in He.
Qed.

(** A run added to the list of a known term. *)
Lemma run_known words (s : PostingLists D) m M t id new ordinals w :
  core_ok words (pls_lists s) (pls_free s) m M -> m !! t = Some id -> words_small w -> grown words M t w ->
  edit_allowed (at_term M t) (ERun new ordinals) ->
  exists s', on_list s id (fun l => append_run_with_ordinals w l (map fst new) ordinals) = Ok s' /\
    pls_dictionary s' = pls_dictionary s /\
    core_ok (set_term words t w) (pls_lists s') (pls_free s') m (<[t := to_map new ∪ at_term M t]> M).
Proof.
  intros H Hid Hw Hg Ha. apply (grown_ok _ _ _ _ _ _ _ Hg) in H.
  destruct (lo_live _ _ _ _ _ H t id Hid) as (Hr & l & es & Hl & Hm & Hne & HM). rewrite set_term_eq in Hm.
  rewrite (at_term_Some _ _ _ HM) in *. destruct (edit_ok w l es (ERun new ordinals) Hw Hm Ha) as (l' & es' & Hrun & Hm' & He).
  unfold on_list. rewrite Hl. cbn [expect obind]. cbn [pl_edit] in Hrun. rewrite Hrun. cbn [obind].
  eexists. split; [done|]. split; [done|]. cbn [set_lists pls_lists pls_free map_edit next_words] in *. rewrite <- He.
  apply (core_ok_words (set_term (set_term words t w) t w)).
  { intros t' sm _ k v _. unfold set_term. case_decide; lia. }
  apply update_list_ok; try done. intros ->. change (to_map []) with (∅ : slot_map) in He. symmetry in He. revert He.
  apply union_nonempty. by rewrite to_map_nil.
Qed.

(** A run added to the list of a new term. *)
Lemma run_new words (s : PostingLists D) m M t new ordinals w :
  core_ok words (pls_lists s) (pls_free s) m M -> m !! t = None -> (Z.of_nat (size m) < NONE)%Z -> words_small w ->
  new <> [] -> edit_allowed ∅ (ERun new ordinals) ->
  exists s1 id s', allocate_list s = Ok (s1, id) /\ id <> NONE /\
    on_list s1 id (fun l => append_run_with_ordinals w l (map fst new) ordinals) = Ok s' /\
    pls_dictionary s1 = pls_dictionary s /\ pls_dictionary s' = pls_dictionary s /\
    core_ok (set_term words t w) (pls_lists s') (pls_free s') (<[t := id]> m) (<[t := to_map new ∪ at_term M t]> M).
Proof.
  intros H Ht Hsz Hw Hnew Ha. assert (HM : M !! t = None) by by apply (core_None _ _ _ _ _ t H).
  apply (grown_ok _ _ _ _ _ t w) in H; [|intros k v; unfold at_term; by rewrite HM].
  destruct (allocate_ok _ s m M t H Ht Hsz) as (s1 & id & Hal & Hd & Hid & Hl & Hcore).
  destruct (edit_ok w pl_default [] (ERun new ordinals) Hw (models_default w) Ha) as (l' & es' & Hrun & Hm' & He).
  cbn [pl_edit map_edit next_words] in *. change (to_map []) with (∅ : slot_map) in He. rewrite (right_id_L ∅ (∪)) in He.
  unfold on_list. eexists s1, id, _. rewrite Hl. cbn [expect obind]. rewrite Hrun. cbn [obind].
  split_and!; try done. cbn [set_lists pls_lists pls_free]. unfold at_term. rewrite HM. cbn [default]. rewrite (right_id_L ∅ (∪)), <- He.
  apply Hcore; [by rewrite set_term_eq|]. rewrite <- to_map_nil, He. by rewrite to_map_nil.
Qed.

Lemma on_list_dictionary (s : PostingLists D) d id f s' :
  on_list s id f = Ok s' -> on_list (set_dictionary s d) id f = Ok (set_dictionary s' d).
Proof.
  unfold on_list. cbn [set_dictionary pls_lists]. destruct (pls_lists s !! Z.to_nat id); [|done]. cbn [expect obind].
  destruct (f _); [|done|done]. cbn [obind]. by intros [= <-].
Qed.

(** ** Every operation *)

Definition index_put (M : index_map) (t : list Z) (slot : Z) (v : Z * Z) : index_map :=
  <[t := <[slot := v]> (at_term M t)]> M.

(** A term whose last posting goes leaves the index. *)
Definition index_drop (M : index_map) (t : list Z) (slot : Z) : index_map :=
  let rest := delete slot (at_term M t) in
  if decide (rest = ∅) then delete t M else <[t := rest]> M.

Definition index_set (M : index_map) (t : list Z) (slot frequency : Z) (ordinal : option Z) : index_map :=
  <[t := alter (fun v => (frequency, default v.2 ordinal)) slot (at_term M t)]> M.

Lemma same_dom_size (m : term_map) (M : index_map) : dom m = dom M -> size m = size M.
Proof. intros Hd. by rewrite <- !size_dom, Hd. Qed.

Lemma single_run slot f o M t :
  entry_ok (slot, f, o) -> at_term M t !! slot = None -> (Z.of_nat (size (at_term M t)) + 1 < U32)%Z ->
  edit_allowed (at_term M t) (ERun [(slot, f, o)] [o]).
Proof.
  intros (H1 & H2 & H3) Hn Hsz. cbn [edit_allowed]. split_and!; [|by left|by constructor|cbn [length]; lia].
  split; [apply SSorted_cons; [apply SSorted_nil|constructor]|by constructor|by constructor].
Qed.

(** [insert_with_ordinal] adds the posting. *)
Lemma insert_with_ordinal_ok words (s : PostingLists D) M t slot f o ws :
  represents words s M -> words_small (words_at ws) -> grown words M t (words_at ws) ->
  entry_ok (slot, f, o) -> at_term M t !! slot = None -> (Z.of_nat (size (at_term M t)) + 1 < U32)%Z ->
  (Z.of_nat (size M) < NONE)%Z -> (index_text (index_put M t slot (f, o)) < U32)%Z ->
  exists s', insert_with_ordinal s t slot f o ws = Ok s' /\
    represents (set_term words t (words_at ws)) s' (index_put M t slot (f, o)).
Proof.
  intros (m & Hd & Hc) Hw Hg He Hn Hsz HM Htext. pose proof (single_run slot f o M t He Hn Hsz) as Ha.
  assert (Hput : index_put M t slot (f, o) = <[t := to_map [(slot, f, o)] ∪ at_term M t]> M).
  { unfold index_put. f_equal. rewrite to_map_cons. change (to_map []) with (∅ : slot_map).
    rewrite <- insert_union_l. by rewrite (left_id_L ∅ (∪)). }
  rewrite Hput in *. unfold insert_with_ordinal. rewrite (ti_get_ok _ _ _ Hd). cbn [obind].
  pose proof (same_dom_size m M (lo_dom _ _ _ _ _ Hc)) as Hsize.
  destruct (m !! t) as [id|] eqn:Hid; cbn [obind].
  - destruct (run_known words s m M t id [(slot, f, o)] [o] (words_at ws) Hc Hid Hw Hg Ha) as (s' & Hrun & Hd' & Hc').
    exists s'. split; [exact Hrun|]. exists m. split; [by rewrite Hd'|done].
  - assert (HMt : M !! t = None) by by apply (core_None _ _ _ _ _ t Hc).
    assert (Ha' : edit_allowed ∅ (ERun [(slot, f, o)] [o])) by (unfold at_term in Ha; by rewrite HMt in Ha).
    destruct (run_new words s m M t [(slot, f, o)] [o] (words_at ws) Hc Hid ltac:(by rewrite Hsize) Hw ltac:(done) Ha')
      as (s1 & id & s' & Hal & Hne & Hrun & Hd1 & Hd2 & Hc').
    rewrite Hal. cbn [obind]. rewrite Hd1.
    destruct (ti_insert_ok _ _ t id Hd Hid Hne) as (d' & Hi & Hd').
    { by rewrite (text_size_dom _ _ (lo_dom _ _ _ _ _ Hc')). }
    rewrite Hi. cbn [obind]. exists (set_dictionary s' d'). split; [exact (on_list_dictionary s1 d' id _ s' Hrun)|]. exists (<[t := id]> m). split; [done|]. done.
Qed.

(** The list of a posting that is there. *)
Lemma posting_list words s M t slot v :
  represents words s M -> at_term M t !! slot = Some v ->
  exists m id l es, lists_ok words s m M /\ m !! t = Some id /\ pls_lists s !! Z.to_nat id = Some l /\
    models (words t) l es /\ es <> [] /\ at_term M t = to_map es.
Proof.
  intros (m & Hok) Hv. destruct (M !! t) as [sm|] eqn:HM; [|unfold at_term in Hv; by rewrite HM in Hv].
  destruct (core_Some _ _ _ _ _ t sm (proj2 Hok) HM) as (id & l & es & Hid & Hl & Hm & Hne & Hsm).
  exists m, id, l, es. split_and!; try done. rewrite (at_term_Some _ _ _ HM). done.
Qed.

Lemma changed_list_ok words s m M t id l' es' w' :
  lists_ok words s m M -> m !! t = Some id -> models w' l' es' -> es' <> [] ->
  represents (set_term words t w') (set_lists s (<[Z.to_nat id := l']> (pls_lists s))) (<[t := to_map es']> M).
Proof. intros [Hd Hc] Hid Hm Hne. exists m. split; [done|]. by apply update_list_ok. Qed.

Lemma models_entry (words : Z -> Z) l es slot v :
  models words l es -> to_map es !! slot = Some v -> exists gs e, pl_ok words l gs /\ flat gs = es /\ e ∈ flat gs /\ slot_of e = slot.
Proof.
  intros Hm Hv. pose proof (entries_distinct _ (models_entries _ _ _ Hm)) as Hd. apply to_map_Some in Hv as (e & He & Hp); [|done].
  destruct Hm as (gs & H & <-). injection Hp as Hs _. eauto 10.
Qed.

(** [remove] takes the posting away whatever length its own slot now has. *)
Lemma pls_remove_ok words (s : PostingLists D) M t slot v ws :
  represents words s M -> words_small (words t) -> words_small (words_at ws) -> at_term M t !! slot = Some v ->
  (forall k, k <> slot -> words_at ws k = words t k) -> (index_text M < U32)%Z ->
  exists s', pls_remove s t slot ws = Ok s' /\ represents (set_term words t (words_at ws)) s' (index_drop M t slot).
Proof.
  intros Hr Hw Hws Hv Hsame Htext. destruct (posting_list _ _ _ _ _ _ Hr Hv) as (m & id & l & es & Hok & Hid & Hl & Hm & Hne & Hat).
  pose proof Hok as [Hd Hc]. rewrite Hat in Hv.
  destruct (models_entry _ _ _ _ _ Hm Hv) as (gs & e & Hpl & Hes & He & <-).
  destruct (edit_ok (words t) l es (ERemove (slot_of e)) Hw Hm) as (l' & es' & Hrun & Hm' & Hmap); [by exists v|].
  cbn [pl_edit map_edit next_words] in *.
  unfold pls_remove. rewrite (ti_get_ok _ _ _ Hd), Hid. cbn [obind expect]. rewrite Hl. cbn [expect obind].
  rewrite (pl_remove_words (words t) (words_at ws) l gs e Hpl He Hsame), Hrun. cbn [obind].
  rewrite (models_count _ _ _ Hm'). unfold index_drop. rewrite Hat, <- Hmap.
  destruct (Z.of_nat (length es') =? 0)%Z eqn:Ez; bool_to_prop.
  - assert (Hnil : es' = []) by (apply nil_length_inv; lia). rewrite Hnil. change (to_map []) with (∅ : slot_map). rewrite decide_True by done.
    destruct (ti_remove_ok _ _ t Hd) as (d' & -> & Hd'); [by rewrite (text_size_dom _ _ (lo_dom _ _ _ _ _ Hc))|].
    cbn [obind]. eexists. split; [done|]. exists (delete t m). split; [done|]. cbn [pls_lists pls_free].
    by apply free_list_ok.
  - assert (Hnn : es' <> []) by (intros ->; simpl in Ez; lia). rewrite decide_False by (by rewrite to_map_nil).
    eexists. split; [done|]. apply (changed_list_ok words s m); try done.
    apply (models_mono (words t)); [|done]. intros x Hx.
    destruct (decide (slot_of x = slot_of e)) as [Heq|Hneq]; [|rewrite Hsame by done; lia].
    pose proof (entries_distinct _ (models_entries _ _ _ Hm')) as Hdist.
    assert (Hbad : to_map es' !! slot_of x = Some (x.1.2, x.2)) by (apply to_map_Some; [done|]; by exists x).
    rewrite Hmap, Heq, lookup_delete_eq in Hbad. done.
Qed.

(** [set_entry] changes the posting. *)
Lemma pls_set_entry_ok words (s : PostingLists D) M t slot f ordinal v ws :
  represents words s M -> words_small (words_at ws) -> grown words M t (words_at ws) -> at_term M t !! slot = Some v ->
  is_u32 f -> match ordinal with Some n => is_u32 n | None => True end ->
  exists s', pls_set_entry s t slot f ordinal ws = Ok s' /\
    represents (set_term words t (words_at ws)) s' (index_set M t slot f ordinal).
Proof.
  intros Hr Hw Hg Hv Hf Ho. destruct (posting_list _ _ _ _ _ _ Hr Hv) as (m & id & l & es & Hok & Hid & Hl & Hm & Hne & Hat).
  assert (Hm0 : models (words_at ws) l es).
  { apply (models_mono (words t)); [|done]. intros e He. apply (Hg _ (e.1.2, e.2)). rewrite Hat.
    apply to_map_Some; [by eapply entries_distinct, models_entries|]. by exists e. }
  rewrite Hat in Hv. destruct (edit_ok (words_at ws) l es (ESet slot f ordinal) Hw Hm0) as (l' & es' & Hrun & Hm' & Hmap); [split; [by exists v|done]|].
  cbn [pl_edit map_edit next_words] in *. unfold pls_set_entry, on_list.
  rewrite (ti_get_ok _ _ _ (proj1 Hok)), Hid. cbn [obind expect]. rewrite Hl. cbn [expect obind]. rewrite Hrun. cbn [obind].
  eexists. split; [done|]. unfold index_set. rewrite Hat, <- Hmap. apply (changed_list_ok words s m); try done.
  intros ->. apply Hne, to_map_nil. change (to_map []) with (∅ : slot_map) in Hmap. apply map_empty. intros k.
  apply (f_equal (lookup k)) in Hmap. rewrite lookup_empty, lookup_alter in Hmap. case_decide; subst; destruct (to_map es !! k); done.
Qed.

(** [invalidate_length] makes a term's bounds hold for any new length of the slot. *)
Lemma pls_invalidate_ok words (s : PostingLists D) M t slot v w :
  represents words s M -> at_term M t !! slot = Some v -> (forall k, 0 <= w k)%Z ->
  (forall k, k <> slot -> w k = words t k) ->
  exists s', pls_invalidate_length s t slot = Ok s' /\ represents (set_term words t w) s' M.
Proof.
  intros Hr Hv Hpos Hsame. destruct (posting_list _ _ _ _ _ _ Hr Hv) as (m & id & l & es & Hok & Hid & Hl & Hm & Hne & Hat).
  rewrite Hat in Hv. destruct (models_entry _ _ _ _ _ Hm Hv) as (gs & e & Hpl & Hes & He & Hsl). rewrite <- Hsl in *.
  destruct (pl_invalidate_ok (words t) w l gs e Hpl He Hpos Hsame) as (l' & Hrun & Hm').
  unfold pls_invalidate_length, on_list. rewrite (ti_get_ok _ _ _ (proj1 Hok)), Hid. cbn [obind expect]. rewrite Hl. cbn [expect obind].
  rewrite Hrun. cbn [obind]. eexists. split; [done|].
  replace M with (<[t := to_map es]> M); [apply (changed_list_ok words s m); try done; by rewrite <- Hes|].
  apply insert_id. destruct (core_None _ _ _ _ _ t (proj2 Hok)) as [_ Hnone]. unfold at_term in Hat.
  destruct (M !! t) as [sm|] eqn:HM; [by rewrite <- Hat|]. rewrite Hnone in Hid; done.
Qed.

(** ** Many runs at once *)

Definition to_run (r : term_entries) : TermRun := {| tr_term := r.1.1; tr_postings := map fst r.1.2; tr_ordinals := r.2 |}.

Definition add_run (M : index_map) (r : term_entries) : index_map := <[r.1.1 := to_map r.1.2 ∪ at_term M r.1.1]> M.
Definition add_runs (M : index_map) (rs : list term_entries) : index_map := foldl add_run M rs.

Definition run_terms (rs : list term_entries) : list (list Z) := map (fun r => r.1.1) rs.

Definition set_terms (words : list Z -> Z -> Z) (ts : list (list Z)) (w : Z -> Z) : list Z -> Z -> Z :=
  foldl (fun words t => set_term words t w) words ts.

Definition run_allowed (words : list Z -> Z -> Z) (M : index_map) (w : Z -> Z) (r : term_entries) : Prop :=
  r.1.2 <> [] /\ edit_allowed (at_term M r.1.1) (ERun r.1.2 r.2) /\ grown words M r.1.1 w.

Lemma at_term_insert_ne M t t' sm : t <> t' -> at_term (<[t := sm]> M) t' = at_term M t'.
Proof. intros Hne. unfold at_term. by rewrite lookup_insert_ne. Qed.

Lemma run_allowed_other words M w t sm r :
  r.1.1 <> t -> run_allowed words M w r -> run_allowed (set_term words t w) (<[t := sm]> M) w r.
Proof.
  intros Hne (H1 & H2 & H3). split; [done|]. rewrite at_term_insert_ne by done. split; [done|].
  intros k v. rewrite at_term_insert_ne by done. unfold set_term. rewrite decide_False by done. apply H3.
Qed.

Lemma runs_allowed_step words M w (r : term_entries) rs :
  NoDup (run_terms (r :: rs)) -> Forall (run_allowed words M w) rs ->
  Forall (run_allowed (set_term words r.1.1 w) (add_run M r) w) rs.
Proof.
  intros Hnd Hf. apply NoDup_cons in Hnd as [Hnin _]. rewrite Forall_forall in Hf |- *. intros r' Hr'.
  apply run_allowed_other; [|by apply Hf]. intros Heq. apply Hnin. rewrite <- Heq. apply list_elem_of_fmap. by exists r'.
Qed.

Lemma snoc_map (acc : list (list Z * Z)) t id : t ∉ map fst acc ->
  (list_to_map (acc ++ [(t, id)]) : term_map) = <[t := id]> (list_to_map acc).
Proof.
  intros Hn. rewrite (list_to_map_snoc (M := gmap (list Z))); [done|]. exact Hn.
Qed.

Lemma fresh_snoc (m0 : term_map) acc t id :
  fresh_terms m0 acc -> t ∉ map fst acc -> m0 !! t = None -> id <> NONE -> fresh_terms m0 (acc ++ [(t, id)]).
Proof.
  intros [Hnd Hf] Hn Hm Hid. split.
  - rewrite map_app. apply NoDup_app. split_and!; [done| |repeat constructor; by intros ?%elem_of_nil].
    intros k Hk ->%list_elem_of_singleton. done.
  - apply Forall_app. split; [done|]. by repeat constructor.
Qed.

Lemma size_add_runs M rs : size M <= size (add_runs M rs).
Proof.
  rewrite <- !size_dom. apply subseteq_size. revert M. induction rs as [|r rs IH]; intros M; [done|].
  etransitivity; [|apply IH]. unfold add_run. rewrite dom_insert_L. set_solver.
Qed.

Lemma insert_runs_loop_ok words (s : PostingLists D) m0 acc M rs ws :
  core_ok words (pls_lists s) (pls_free s) (list_to_map acc ∪ m0) M -> fresh_terms m0 acc ->
  words_small (words_at ws) -> NoDup (run_terms rs) -> (forall t, t ∈ run_terms rs -> t ∉ map fst acc) ->
  Forall (run_allowed words M (words_at ws)) rs -> (Z.of_nat (size (add_runs M rs)) <= NONE)%Z ->
  exists s' acc', insert_runs_loop s (zip (map to_run rs) (map (fun r => m0 !! r.1.1) rs)) acc ws = Ok (s', acc') /\
    pls_dictionary s' = pls_dictionary s /\ fresh_terms m0 acc' /\
    core_ok (set_terms words (run_terms rs) (words_at ws)) (pls_lists s') (pls_free s') (list_to_map acc' ∪ m0) (add_runs M rs).
Proof.
  revert words s acc M. induction rs as [|r rs IH]; intros words s acc M Hc Hfr Hw Hnd Hacc Hall Hsz; [by exists s, acc|].
  inversion Hall as [|?? (Hne & Ha & Hg) Hall']; subst. pose proof (runs_allowed_step words M (words_at ws) r rs Hnd Hall') as Hnext.
  pose proof Hnd as Hnd0. apply NoDup_cons in Hnd0 as [Hnin Hnd']. cbn [map zip zip_with insert_runs_loop].
  assert (Htn : r.1.1 ∉ map fst acc) by (apply Hacc; left).
  assert (Hla : (list_to_map acc : term_map) !! r.1.1 = None) by (by apply not_elem_of_list_to_map_1).
  pose proof (same_dom_size _ _ (lo_dom _ _ _ _ _ Hc)) as Hsize.
  change (add_runs M (r :: rs)) with (add_runs (add_run M r) rs) in *.
  destruct (m0 !! r.1.1) as [id|] eqn:Hm0; cbn [obind].
  - assert (Hid : (list_to_map acc ∪ m0) !! r.1.1 = Some id) by (by rewrite lookup_union_r).
    destruct (run_known words s _ M r.1.1 id r.1.2 r.2 (words_at ws) Hc Hid Hw Hg Ha) as (s1 & Hrun & Hd1 & Hc1).
    cbn [to_run tr_postings tr_ordinals]. rewrite Hrun. cbn [obind].
    destruct (IH _ s1 acc _ Hc1 Hfr Hw Hnd') as (s' & acc' & Hl & Hd' & Hfr' & Hc'); [|done|done|].
    { intros t Ht. apply Hacc. by right. }
    exists s', acc'. split_and!; [done|by rewrite Hd'|done|done].
  - assert (Hid : (list_to_map acc ∪ m0) !! r.1.1 = None) by (by rewrite lookup_union_r).
    assert (Ha' : edit_allowed ∅ (ERun r.1.2 r.2)).
    { unfold at_term in Ha. by rewrite (proj1 (core_None _ _ _ _ _ _ Hc) Hid) in Ha. }
    assert (Hroom : (Z.of_nat (size (list_to_map acc ∪ m0)) < NONE)%Z).
    { rewrite Hsize. pose proof (size_add_runs (add_run M r) rs) as Hle. unfold add_run at 1 in Hle.
      rewrite map_size_insert_None in Hle by (by apply (core_None _ _ _ _ _ _ Hc)). lia. }
    destruct (run_new words s _ M r.1.1 r.1.2 r.2 (words_at ws) Hc Hid Hroom Hw Hne Ha') as (s1 & id & s2 & Hal & Hidn & Hrun & Hd1 & Hd2 & Hc1).
    rewrite Hal. cbn [obind to_run tr_postings tr_ordinals tr_term]. rewrite Hrun. cbn [obind].
    rewrite insert_union_l, <- snoc_map in Hc1 by done.
    destruct (IH _ s2 (acc ++ [(r.1.1, id)]) _ Hc1) as (s' & acc' & Hl & Hd' & Hfr' & Hc'); try done.
    + by apply fresh_snoc.
    + intros t Ht. rewrite map_app, elem_of_app. intros [Hin|Hin%list_elem_of_singleton]; [|by subst t].
      apply (Hacc t); [by right|done].
    + exists s', acc'. split_and!; [done|by rewrite Hd', Hd2|done|done].
Qed.

Lemma omap_get words (s : PostingLists D) m M (rs : list term_entries) : lists_ok words s m M ->
  omap_list (fun run => ti_get (pls_dictionary s) (tr_term run)) (map to_run rs) = Ok (map (fun r => m !! r.1.1) rs).
Proof.
  intros [Hd _]. induction rs as [|r rs IH]; [done|]. cbn [map omap_list]. rewrite (ti_get_ok _ _ _ Hd). cbn [obind to_run tr_term].
  by rewrite IH.
Qed.

(** [insert_runs_with_lengths] adds every run. *)
Lemma insert_runs_ok words (s : PostingLists D) M rs ws :
  represents words s M -> words_small (words_at ws) -> NoDup (run_terms rs) ->
  Forall (run_allowed words M (words_at ws)) rs -> (Z.of_nat (size (add_runs M rs)) <= NONE)%Z ->
  (index_text (add_runs M rs) < U32)%Z ->
  exists s', insert_runs_with_lengths s (map to_run rs) ws = Ok s' /\
    represents (set_terms words (run_terms rs) (words_at ws)) s' (add_runs M rs).
Proof.
  intros (m & Hok) Hw Hnd Hall Hsz Htext. destruct rs as [|r rs]; [exists s; split; [done|by exists m]|].
  cbn [map insert_runs_with_lengths]. change (to_run r :: map to_run rs) with (map to_run (r :: rs)).
  rewrite (omap_get words s m M _ Hok). cbn [obind]. destruct Hok as [Hd Hc].
  destruct (insert_runs_loop_ok words s m [] M (r :: rs) ws) as (s' & acc & -> & Hd' & Hfr & Hc'); try done.
  - change (list_to_map []) with (∅ : term_map). by rewrite (left_id_L ∅ (∪)).
  - by repeat constructor.
  - intros t _. by intros ?%elem_of_nil.
  - cbn [obind]. rewrite Hd'. destruct (ti_insert_many_ok _ _ acc Hd Hfr) as (d' & -> & Hd2).
    { by rewrite (text_size_dom _ _ (lo_dom _ _ _ _ _ Hc')). }
    cbn [obind]. eexists. split; [done|]. by exists (list_to_map acc ∪ m).
Qed.
End ListsSpec.
