(* ===== verification/ImageDict.v ===== *)
(** * The term dictionary of a checkpoint

    The dictionary sections of a checkpoint file ([src/core/documents/image.rs]): terms in byte
    order in blocks of [BLOCK] front-coded entries, a table of blocks, and the posting bytes of
    every term.  [encode_form] writes one posting form, [check_dictionary] checks one on opening,
    [image_postings] answers a query by a binary search over blocks, [walk] is the
    sequential walk of [hydrate_excluding]. *)

From S2P Require Import Prelude Words BitPack Search Positions Terms FrameDict TermDict Postings Cursor PostingEdit PostingRuns CheckpointLists Lists.

Definition BLOCK : nat := 32.

Definition u32_at (bytes : list Z) (at_ : nat) : outcome Z :=
  let* w := slice bytes at_ (at_ + 4) in Ok (from_le_bytes w).

(** A [Result] that is [expect]ed: an error is a panic. *)
Definition unwrap {A} (m : outcome A) : outcome A := match m with Ok a => Ok a | _ => Panic end.

(** ** Writing *)

(** [PostingLists::sorted_terms]. *)
Definition sorted_terms (s : PostingLists TermDictionary) : outcome (list Z * list Z * list PostingList) :=
  let* (bytes, offsets, ids) := live_terms (pls_dictionary s) in
  let* lists := omap_list (fun id => expect (pls_lists s !! Z.to_nat id)) ids in
  Ok (bytes, offsets, lists).

(** [&terms[offsets[i] as usize..offsets[i + 1] as usize]]. *)
Definition sorted_term (terms offsets : list Z) (i : nat) : outcome (list Z) :=
  let* a := expect (offsets !! i) in
  let* b := expect (offsets !! (i + 1)) in
  slice terms (Z.to_nat a) (Z.to_nat b).

Definition list_is_empty (l : PostingList) : bool := (pl_count l =? 0)%Z.

(** [(0..i).rev().find(|&j| !lists[j].is_empty())]. *)
Fixpoint find_previous (lists : list PostingList) (i : nat) : outcome nat :=
  match i with
  | O => Panic
  | S j => let* l := expect (lists !! j) in if list_is_empty l then find_previous lists j else Ok j
  end.

Definition previous_term (terms offsets : list Z) (lists : list PostingList) (i : nat) : outcome (list Z) :=
  let* j := find_previous lists i in sorted_term terms offsets j.

(** What the loop over the lists of one form has written so far. *)
Record Written := mkWritten { wr_dict : list Z; wr_blocks : list Z; wr_postings : list Z; wr_count : nat }.

(** One turn of the loop; [None] is the early return of [encode]. *)
Definition encode_entry (terms offsets : list Z) (lists : list PostingList) (i : nat) (list_ : PostingList) (w : Written)
    : outcome (option Written) :=
  if list_is_empty list_ then Ok (Some w)
  else
    let* term := sorted_term terms offsets i in
    let first := Nat.eqb (wr_count w mod BLOCK) 0 in
    if first && negb ((Z.of_nat (length (wr_dict w)) <? U32)%Z && (Z.of_nat (length (wr_postings w)) <? U32)%Z) then Ok None
    else
      let* prefix := if first then Ok 0 else let* previous := previous_term terms offsets lists i in Ok (common_prefix previous term) in
      let* suffix := slice term prefix (length term) in
      let* packed := pack_checkpoint list_ in
      Ok (Some {|
        wr_dict := wr_dict w ++ put_varint (Z.of_nat prefix) ++ put_bytes suffix ++ put_varint (pl_count list_) ++ put_varint (Z.of_nat (length packed));
        wr_blocks := wr_blocks w ++ if first then to_le_bytes 4 (Z.of_nat (length (wr_dict w))) ++ to_le_bytes 4 (Z.of_nat (length (wr_postings w))) else [];
        wr_postings := wr_postings w ++ packed;
        wr_count := S (wr_count w) |}).

Fixpoint encode_entries (terms offsets : list Z) (all : list PostingList) (i : nat) (lists : list PostingList) (w : Written)
    : outcome (option Written) :=
  match lists with
  | [] => Ok (Some w)
  | l :: rest =>
      let* w := encode_entry terms offsets all i l w in
      match w with None => Ok None | Some w => encode_entries terms offsets all (S i) rest w end
  end.

(** The dictionary and blocks of one form; its postings follow [postings]. *)
Definition encode_form (s : PostingLists TermDictionary) (postings : list Z) : outcome (option Written) :=
  let* (terms, offsets, lists) := sorted_terms s in
  encode_entries terms offsets lists 0 lists {| wr_dict := []; wr_blocks := []; wr_postings := postings; wr_count := 0 |}.

(** ** Checking *)

Definition dict_position : read nat := fun r => Ok (position r, r).

(** The loop of [check_dictionary] from entry [i] on, [n] entries left. *)
Fixpoint check_entries (n i : nat) (blocks : list Z) (postings : Z) (previous : list Z) (posting_at : option Z) : read unit :=
  match n with
  | O => rret tt
  | S n =>
      position <- dict_position ;
      posting_at <- rlift (if Nat.eqb (i mod BLOCK) 0 then
          let* at_ := u32_at blocks (i / BLOCK * 8) in
          ensure (at_ =? Z.of_nat position)%Z else "checkpoint block offset" ;
          let* start := u32_at blocks (i / BLOCK * 8 + 4) in
          ensure (match posting_at with None => true | Some at_ => (at_ =? start)%Z end) else "checkpoint block postings" ;
          Ok (Some start)
        else Ok posting_at) ;
      prefix <- varint ;
      suffix <- rbytes ;
      check ((prefix <=? Z.of_nat (length previous))%Z && (negb (Nat.eqb (i mod BLOCK) 0) || (prefix =? 0)%Z)) else "checkpoint term prefix" ;
      let term := take (Z.to_nat prefix) previous ++ suffix in
      check (utf8_valid term && (Nat.eqb i 0 || bool_decide (blt previous term))) else "checkpoint terms out of order" ;
      count <- varint ;
      len <- varint ;
      check ((0 <? count)%Z && (count <=? len)%Z && (count <? U32)%Z) else "checkpoint posting count" ;
      at_ <- rlift (expect posting_at) ;
      check (match checked_add USIZE at_ len with Some end_ => (end_ <=? postings)%Z | None => false end) else "checkpoint posting range" ;
      check_entries n (S i) blocks postings term (Some (at_ + len)%Z)
  end.

(** [postings] is the length of the posting section. *)
Definition check_dictionary (terms : nat) (dict blocks : list Z) (postings : Z) : outcome unit :=
  ensure (Nat.eqb (length blocks) (div_ceil terms BLOCK * 8)) else "checkpoint block table size" ;
  let* (_, r) := check_entries terms 0 blocks postings [] None (reader_new dict) in
  ensure (is_empty r) else "checkpoint dictionary has trailing bytes" ; Ok tt.

(** ** Answering a query *)

Section Query.
Context (terms : nat) (dict blocks postings : list Z).

(** [Reader::new(&dict[u32_at(blocks, block * 8) as usize..])]. *)
Definition block_reader (block : nat) : outcome Reader :=
  let* at_ := u32_at blocks (block * 8) in
  let* d := slice dict (Z.to_nat at_) (length dict) in Ok (reader_new d).

Definition first_term (block : nat) : outcome (list Z) :=
  let* r := block_reader block in
  let* (_, r) := unwrap (varint r) in
  let* (term, _) := unwrap (rbytes r) in Ok term.

(** [while hi - lo > 1]; a round at least halves the range less one. *)
Fixpoint find_block (fuel : nat) (target : list Z) (lo hi : nat) : outcome nat :=
  if 1 <? hi - lo then
    match fuel with
    | O => Panic
    | S fuel =>
        let mid := lo + (hi - lo) / 2 in
        let* t := first_term mid in
        match bcmp t target with Gt => find_block fuel target lo mid | _ => find_block fuel target mid hi end
    end
  else Ok lo.

(** [for _ in 0..entries]. *)
Fixpoint scan_block (n : nat) (target : list Z) (r : Reader) (current : list Z) (at_ : Z) : outcome (option (list Z * Z)) :=
  match n with
  | O => Ok None
  | S n =>
      let* (prefix, r) := unwrap (varint r) in
      let* (suffix, r) := unwrap (rbytes r) in
      let current := take (Z.to_nat prefix) current ++ suffix in
      let* (count, r) := unwrap (varint r) in
      let* (len, r) := unwrap (varint r) in
      match bcmp current target with
      | Eq => let* bytes := slice postings (Z.to_nat at_) (Z.to_nat (at_ + len)) in Ok (Some (bytes, wrap U32 count))
      | Gt => Ok None
      | Lt => scan_block n target r current (at_ + len)
      end
  end.

(** [ServingImage::postings]. *)
Definition image_postings (target : list Z) : outcome (option (list Z * Z)) :=
  if Nat.eqb terms 0 then Ok None
  else
    let* block := find_block (length blocks) target 0 (length blocks / 8) in
    let* rest := expect (checked_sub (Z.of_nat terms) (Z.of_nat (block * BLOCK))) in
    let* r := block_reader block in
    let* at_ := u32_at blocks (block * 8 + 4) in
    scan_block (Nat.min (Z.to_nat rest) BLOCK) target r [] at_.

(** The walk of [hydrate_excluding] over one form, [act] being what it does with a term, its
    count and its posting bytes. *)
Section Walk.
Context {St : Type} (act : St -> list Z -> Z -> list Z -> outcome St).

Fixpoint walk_loop (n : nat) (r : Reader) (term : list Z) (at_ : Z) (s : St) : outcome St :=
  match n with
  | O => Ok s
  | S n =>
      let* (prefix, r) := varint r in
      let* (suffix, r) := rbytes r in
      let term := take (Z.to_nat prefix) term ++ suffix in
      let* (count, r) := number U32 r in
      let* (len, r) := varint r in
      let* bytes := slice postings (Z.to_nat at_) (Z.to_nat (at_ + len)) in
      let* s := act s term count bytes in
      walk_loop n r term (at_ + len) s
  end.

Definition walk (s : St) : outcome St :=
  let* at_ := if Nat.eqb terms 0 then Ok 0%Z else let* b := slice blocks 0 8 in u32_at b 4 in
  walk_loop terms (reader_new dict) [] at_ s.
End Walk.
End Query.

(** ** Reads that depend only on what they consume *)

Definition local_read {A} (m : read A) : Prop :=
  forall p s a r, m (mid p s) = Ok (a, r) -> exists e s', s = e ++ s' /\ r = mid (p ++ e) s' /\ parses m e a.

Lemma rret_local {A} (a : A) : local_read (rret a).
Proof. intros p s ? ? [= <- <-]. exists [], s. rewrite app_nil_r. split_and!; [done|done|apply rret_parses]. Qed.

Lemma rfail_local {A} e : local_read (@rfail A e).
Proof. by intros p s ? ?. Qed.

Lemma rbind_local {A B} (m : read A) (k : A -> read B) : local_read m -> (forall a, local_read (k a)) -> local_read (rbind m k).
Proof.
  intros Hm Hk p s b r H. unfold rbind in H. destruct (m (mid p s)) as [[a r1]| |] eqn:E; try done. cbn [obind] in H.
  destruct (Hm _ _ _ _ E) as (e1 & s1 & -> & -> & P1). destruct (Hk a _ _ _ _ H) as (e2 & s2 & -> & -> & P2).
  exists (e1 ++ e2), s2. rewrite !app_assoc. split_and!; [done|done|]. by eapply rbind_parses.
Qed.

Lemma rcheck_local {A} (b : bool) e (m : read A) : local_read m -> local_read (if b then m else rfail e).
Proof. destruct b; auto using rfail_local. Qed.

Lemma rtake_local n : local_read (rtake n).
Proof.
  intros p s a r H. unfold rtake in H. rewrite remaining_mid in H. destruct (Nat.leb_spec n (length s)) as [Hn|]; [|done].
  rewrite slice_Ok in H by (cbn [mid data at_]; rewrite ?length_app; lia). cbn [obind mid data at_] in H.
  rewrite drop_app_length in H. replace (length p + n - length p) with n in H by lia. injection H as <- <-.
  exists (take n s), (drop n s). rewrite take_drop. split_and!; [done| |].
  - unfold mid. rewrite <- app_assoc, take_drop, length_app, length_take, Nat.min_l by done. done.
  - pose proof (rtake_parses (take n s)) as P. rewrite length_take, Nat.min_l in P by done. done.
Qed.

Lemma rbyte_local : local_read rbyte.
Proof. apply rbind_local; [apply rtake_local|]. intros [|b l]; [by intros p s a r|apply rret_local]. Qed.

Lemma varint_local : local_read varint.
Proof.
  unfold varint. generalize 0%Z. induction varint_shifts as [|sh shifts IH]; intros v; cbn [varint_loop]; [apply rfail_local|].
  apply rbind_local; [apply rbyte_local|]. intros b. apply rcheck_local. destruct (_ =? 0)%Z; [apply rret_local|apply IH].
Qed.

Lemma number_local bound : local_read (number bound).
Proof. apply rbind_local; [apply varint_local|]. intros v. apply rcheck_local, rret_local. Qed.

Lemma rbytes_local : local_read rbytes.
Proof. apply rbind_local; [apply number_local|]. intros v. apply rtake_local. Qed.

(** ** The entries a dictionary stands for *)

Record Entry := mkEntry { en_term : list Z; en_count : Z; en_at : Z; en_len : Z }.

Definition entry_parses (e : list Z) (prefix : Z) (suffix : list Z) (count len : Z) : Prop :=
  exists e1 e2 e3 e4, e = e1 ++ e2 ++ e3 ++ e4 /\
    parses varint e1 prefix /\ parses rbytes e2 suffix /\ parses varint e3 count /\ parses varint e4 len.

(** The block table, at the first entry of a block, has its offset and its first posting byte. *)
Definition starts_block (blocks : list Z) (i pos : nat) (at_ : Z) : Prop :=
  i mod BLOCK = 0 -> u32_at blocks (i / BLOCK * 8) = Ok (Z.of_nat pos) /\ u32_at blocks (i / BLOCK * 8 + 4) = Ok at_.

(** [dict_entries blocks size i pos previous at_ s es]: the bytes [s], at offset [pos], hold the
    entries [es], the first being entry [i], after the term [previous], with postings from [at_] on
    inside [size] bytes. *)
Inductive dict_entries (blocks : list Z) (size : Z) : nat -> nat -> list Z -> Z -> list Z -> list Entry -> Prop :=
| eo_nil i pos previous at_ : dict_entries blocks size i pos previous at_ [] []
| eo_cons i pos previous at_ e prefix suffix count len s es :
    entry_parses e prefix suffix count len ->
    (0 <= prefix <= Z.of_nat (length previous))%Z -> (i mod BLOCK = 0 -> prefix = 0%Z) ->
    utf8_valid (take (Z.to_nat prefix) previous ++ suffix) = true ->
    (i = 0 \/ blt previous (take (Z.to_nat prefix) previous ++ suffix)) ->
    (0 < count < U32)%Z -> (count <= len)%Z -> (0 <= at_)%Z -> (at_ + len <= size)%Z -> starts_block blocks i pos at_ ->
    dict_entries blocks size (S i) (pos + length e) (take (Z.to_nat prefix) previous ++ suffix) (at_ + len) s es ->
    dict_entries blocks size i pos previous at_ (e ++ s) (mkEntry (take (Z.to_nat prefix) previous ++ suffix) count at_ len :: es).

Lemma entries_drop blocks size i pos previous at_ s es j :
  dict_entries blocks size i pos previous at_ s es -> j < length es ->
  exists s1 s2 previous' at', s = s1 ++ s2 /\ dict_entries blocks size (i + j) (pos + length s1) previous' at' s2 (drop j es).
Proof.
  intros He. revert j. induction He as [|i pos previous at_ e prefix suffix count len s es Hp Hpl H0 Hu Hlt Hc Hl Ha Hs Hb He IH]; intros j Hj; [simpl in Hj; lia|].
  destruct j as [|j].
  - exists [], (e ++ s), previous, at_. rewrite !Nat.add_0_r. split; [done|]. by constructor.
  - destruct (IH j) as (s1 & s2 & pr & a & -> & H1); [simpl in Hj; lia|]. exists (e ++ s1), s2, pr, a.
    rewrite <- app_assoc, length_app, Nat.add_assoc, <- Nat.add_succ_comm. done.
Qed.

Lemma entries_head blocks size i pos previous at_ s e es :
  dict_entries blocks size i pos previous at_ s (e :: es) -> en_at e = at_ /\ starts_block blocks i pos at_.
Proof. by inversion 1. Qed.

Lemma u32_at_bound blocks at_ z : bytes_ok blocks -> u32_at blocks at_ = Ok z -> is_u32 z.
Proof.
  intros Hb H. unfold u32_at, slice in H. destruct (_ && _) eqn:E; [|done]. bool_to_prop. injection H as <-.
  pose proof (from_le_bytes_bound (take (at_ + 4 - at_) (drop at_ blocks))) as Hf. replace (at_ + 4 - at_) with 4 in * by lia.
  rewrite length_take, length_drop, Nat.min_l in Hf by lia. apply Hf. by apply Forall_take, Forall_drop.
Qed.

Lemma check_entries_sound n i blocks size previous posting_at p s r :
  bytes_ok blocks -> (forall a, posting_at = Some a -> 0 <= a)%Z ->
  check_entries n i blocks size previous posting_at (mid p s) = Ok (tt, r) ->
  exists s1 s2 at_ es, s = s1 ++ s2 /\ r = mid (p ++ s1) s2 /\ length es = n /\
    dict_entries blocks size i (length p) previous at_ s1 es /\ (0 < n -> match posting_at with Some a => a = at_ | None => True end).
Proof.
  intros Hb. revert i previous posting_at p s. induction n as [|n IH]; intros i previous posting_at p s Hpa H.
  { injection H as <-. exists [], s, 0%Z, []. rewrite app_nil_r. split_and!; try done; [apply eo_nil|lia]. }
  cbn [check_entries] in H. unfold rbind at 1, dict_position in H. cbn [obind] in H. unfold rbind at 1 in H. apply obind_ok in H as ([pa r0] & Hr0 & H).
  unfold rlift at 1 in Hr0. apply obind_ok in Hr0 as (pa' & Hpa' & [= -> <-]).
  unfold rbind at 1 in H. apply obind_ok in H as ([prefix r1] & Hr1 & H). pose proof (varint_loop_nonneg _ _ _ _ _ (Z.le_refl 0) Hr1) as Hpre0. apply varint_local in Hr1 as (e1 & s1 & -> & -> & P1).
  unfold rbind at 1 in H. apply obind_ok in H as ([suffix r2] & Hr2 & H). apply rbytes_local in Hr2 as (e2 & s2 & -> & -> & P2).
  destruct (_ && _) eqn:Epre in H; [|done]. cbv zeta in H. destruct (_ && _) eqn:Eterm in H; [|done].
  unfold rbind at 1 in H. apply obind_ok in H as ([count r3] & Hr3 & H). apply varint_local in Hr3 as (e3 & s3 & -> & -> & P3).
  unfold rbind at 1 in H. apply obind_ok in H as ([len r4] & Hr4 & H). apply varint_local in Hr4 as (e4 & s4 & -> & -> & P4).
  destruct (_ && _) eqn:Ecount in H; [|done]. unfold rbind at 1 in H. apply obind_ok in H as ([at_ r5] & Hr5 & H).
  unfold rlift in Hr5. apply obind_ok in Hr5 as (at' & Hat & [= -> <-]). unfold expect in Hat. destruct pa as [a|]; [|done]. injection Hat as ->.
  unfold checked_add in H. destruct (_ <? USIZE)%Z eqn:Ead; [|done]. destruct (_ <=? size)%Z eqn:Esz in H; [|done]. bool_to_prop.
  assert (Hat0 : (0 <= at_)%Z /\ match posting_at with Some a => a = at_ | None => True end /\
    starts_block blocks i (length p) at_).
  { destruct (Nat.eqb_spec (i mod BLOCK) 0) as [E0|E0].
    - inv_ok. bool_to_prop. unfold position, mid in *. cbn in *. pose proof (u32_at_bound _ _ _ Hb Ha0) as Hu. unfold is_u32 in Hu.
      split_and!; [lia| |intros _; subst; by split]. destruct posting_at as [a1|]; [bool_to_prop; done|done].
    - injection Hpa' as ->. split_and!; [by apply Hpa|done|intros ?; done]. }
  destruct Hat0 as (Hat0 & Hsame & Hblk).
  apply IH in H as (t1 & t2 & a' & es & -> & -> & Hlen & He & Ha'); [|intros ? [= <-]; lia].
  assert (Hcont : dict_entries blocks size (S i) (length p + length (e1 ++ e2 ++ e3 ++ e4)) (take (Z.to_nat prefix) previous ++ suffix) (at_ + len) t1 es).
  { rewrite !length_app in *. rewrite !Nat.add_assoc in *. destruct n as [|n]; [|rewrite (Ha' ltac:(lia)); done]. destruct es; [|done]. inversion He; subst. constructor. }
  exists ((e1 ++ e2 ++ e3 ++ e4) ++ t1), t2, at_, (mkEntry (take (Z.to_nat prefix) previous ++ suffix) count at_ len :: es).
  assert (Hall : dict_entries blocks size i (length p) previous at_ ((e1 ++ e2 ++ e3 ++ e4) ++ t1) (mkEntry (take (Z.to_nat prefix) previous ++ suffix) count at_ len :: es)).
  { apply eo_cons; try done; try lia; [by exists e1, e2, e3, e4| |].
    - intros Hm. rewrite (proj2 (Nat.eqb_eq _ _) Hm) in *. cbn [negb orb] in *. by bool_to_prop.
    - match goal with H : (i =? 0) || _ = true |- _ => apply orb_true_iff in H as [H|H]; bool_to_prop; auto end. }
  split_and!; [by rewrite <- !app_assoc|by rewrite <- !app_assoc|cbn; lia|done|done].
Qed.

(** A dictionary that holds the entries [es], over [size] posting bytes. *)
Record dict_holds (terms : nat) (dict blocks : list Z) (size : Z) (es : list Entry) : Prop := {
  dh_entries : exists at_, dict_entries blocks size 0 0 [] at_ dict es;
  dh_terms : length es = terms;
  dh_table : length blocks = div_ceil terms BLOCK * 8 }.

Lemma check_dictionary_sound terms dict blocks size :
  bytes_ok blocks -> check_dictionary terms dict blocks size = Ok tt -> exists es, dict_holds terms dict blocks size es.
Proof.
  intros Hb H. unfold check_dictionary in H. destruct (Nat.eqb_spec (length blocks) (div_ceil terms BLOCK * 8)) as [Ht|]; [|done].
  apply obind_ok in H as ([[] r] & Hc & H). rewrite reader_new_mid in Hc. apply check_entries_sound in Hc as (s1 & s2 & at_ & es & Hs & -> & Hn & He & _); [|done|done].
  cbn [app] in *. rewrite is_empty_mid in H. destruct s2; [|done]. rewrite app_nil_r in Hs. subst. exists es. split; eauto.
Qed.

(** ** Facts of the entries *)

Lemma entries_sorted blocks size i pos previous at_ s es :
  dict_entries blocks size i pos previous at_ s es -> bsorted (map en_term es) /\ (i <> 0 -> Forall (blt previous) (map en_term es)).
Proof.
  induction 1 as [|i pos previous at_ e prefix suffix count len s es Hp Hpl H0 Hu Hlt Hc Hl Ha Hs Hb He [IHs IHf]]; [split; [constructor|by constructor]|].
  cbn [map en_term]. specialize (IHf ltac:(lia)). split; [by constructor|]. intros Hi. destruct Hlt as [|Hlt]; [done|]. constructor; [done|].
  eapply Forall_impl; [exact IHf|]. intros x Hx. by etrans.
Qed.

Definition dict_entry_ok (size : Z) (e : Entry) : Prop :=
  (0 < en_count e < U32)%Z /\ (0 <= en_at e)%Z /\ (en_count e <= en_len e)%Z /\ (en_at e + en_len e <= size)%Z /\ utf8_valid (en_term e) = true.

Lemma entries_ok_all blocks size i pos previous at_ s es : dict_entries blocks size i pos previous at_ s es -> Forall (dict_entry_ok size) es.
Proof. induction 1; [constructor|]. constructor; [|done]. unfold dict_entry_ok. cbn [en_term en_count en_at en_len]. split_and!; try done; lia. Qed.

Definition entry_bytes (postings : list Z) (e : Entry) : list Z := take (Z.to_nat (en_len e)) (drop (Z.to_nat (en_at e)) postings).

Lemma entry_slice postings e : dict_entry_ok (Z.of_nat (length postings)) e ->
  slice postings (Z.to_nat (en_at e)) (Z.to_nat (en_at e + en_len e)) = Ok (entry_bytes postings e).
Proof. intros (? & ? & ? & ? & _). rewrite slice_Ok by lia. unfold entry_bytes. do 2 f_equal. lia. Qed.

(** What a query for [target] is answered with. *)
Definition answer (postings : list Z) (es : list Entry) (target : list Z) : option (list Z * Z) :=
  match List.find (fun e => bool_decide (en_term e = target)) es with
  | Some e => Some (entry_bytes postings e, en_count e)
  | None => None
  end.

Lemma answer_None postings es target : Forall (fun e => en_term e <> target) es -> answer postings es target = None.
Proof. unfold answer. induction 1 as [|e es He Hes IH]; [done|]. cbn [List.find]. by rewrite bool_decide_eq_false_2. Qed.

Lemma answer_app postings es1 es2 target :
  Forall (fun e => en_term e <> target) es1 -> answer postings (es1 ++ es2) target = answer postings es2 target.
Proof. unfold answer. induction 1 as [|e es He Hes IH]; [done|]. cbn [app List.find]. by rewrite bool_decide_eq_false_2. Qed.

Lemma answer_app_l postings es1 es2 target :
  Forall (fun e => en_term e <> target) es2 -> answer postings (es1 ++ es2) target = answer postings es1 target.
Proof.
  intros H. unfold answer. induction es1 as [|e es IH]; cbn [app List.find]; [by apply answer_None|]. by destruct (bool_decide _).
Qed.

Lemma above_ne es t target : Forall (blt t) (map en_term es) -> bcmp t target <> Lt -> Forall (fun e => en_term e <> target) es.
Proof.
  intros Hf Ht. rewrite Forall_forall in Hf. apply Forall_forall. intros e He <-. apply Ht. apply Hf, list_elem_of_fmap. by exists e.
Qed.

(** ** Reading entries one by one *)

Lemma entry_reads e prefix suffix count len p s :
  entry_parses e prefix suffix count len ->
  exists r1 r2 r3, varint (mid p (e ++ s)) = Ok (prefix, r1) /\ rbytes r1 = Ok (suffix, r2) /\ varint r2 = Ok (count, r3) /\
    varint r3 = Ok (len, mid (p ++ e) s).
Proof.
  intros (e1 & e2 & e3 & e4 & -> & P1 & P2 & P3 & P4). rewrite <- !app_assoc. do 3 eexists. split_and!; [apply P1|apply P2|apply P3|].
  rewrite P4. by rewrite <- !app_assoc.
Qed.

Lemma scan_block_ok blocks postings target n i pos previous at_ p s es current :
  dict_entries blocks (Z.of_nat (length postings)) i pos previous at_ s es -> n <= length es -> (current = previous \/ i mod BLOCK = 0) ->
  scan_block postings n target (mid p s) current at_ = Ok (answer postings (take n es) target).
Proof.
  intros He. revert n p current. induction He as [|i pos previous at_ e prefix suffix count len s es Hp Hpl H0 Hu Hlt Hc Hl Ha Hs Hb He IH]; intros n p current Hn Hcur.
  { simpl in Hn. by destruct n; [|lia]. }
  destruct n as [|n]; [done|]. cbn [scan_block]. destruct (entry_reads _ _ _ _ _ p s Hp) as (r1 & r2 & r3 & -> & E2 & E3 & E4).
  cbn [unwrap obind]. rewrite E2. cbn [unwrap obind]. rewrite E3. cbn [unwrap obind]. rewrite E4. cbn [unwrap obind].
  assert (Hterm : take (Z.to_nat prefix) current ++ suffix = take (Z.to_nat prefix) previous ++ suffix).
  { destruct Hcur as [->|Hi]; [done|]. by rewrite (H0 Hi). }
  rewrite Hterm. set (term := take (Z.to_nat prefix) previous ++ suffix) in *. cbn [take]. unfold answer. cbn [List.find en_term].
  pose proof (entries_sorted _ _ _ _ _ _ _ _ He) as [_ Hf]. specialize (Hf ltac:(lia)).
  destruct (bcmp term target) eqn:Ec.
  - apply bcmp_eq in Ec as <-. rewrite bool_decide_eq_true_2 by done.
    assert (Hok : dict_entry_ok (Z.of_nat (length postings)) (mkEntry term count at_ len)) by (unfold dict_entry_ok; cbn [en_term en_count en_at en_len]; split_and!; try done; lia).
    pose proof (entry_slice _ _ Hok) as Hsl. cbn [en_at en_len] in Hsl. rewrite Hsl. cbn [obind en_count]. rewrite wrap_small by lia. done.
  - rewrite bool_decide_eq_false_2 by (intros ->; by rewrite bcmp_refl in Ec). apply IH; [simpl in Hn; lia|by left].
  - rewrite bool_decide_eq_false_2 by (intros ->; by rewrite bcmp_refl in Ec). symmetry. f_equal. apply answer_None.
    apply Forall_take. apply (above_ne _ term); [done|by rewrite Ec].
Qed.

(** ** The block search *)

Section Search.
Context (dict blocks postings : list Z) (es : list Entry).
Context (H : dict_holds (length es) dict blocks (Z.of_nat (length postings)) es).

Lemma dict_block_at b : b * BLOCK < length es ->
  exists s2 pos previous at_, block_reader dict blocks b = Ok (mid [] s2) /\ u32_at blocks (b * 8 + 4) = Ok at_ /\
    dict_entries blocks (Z.of_nat (length postings)) (b * BLOCK) pos previous at_ s2 (drop (b * BLOCK) es).
Proof.
  intros Hb. destruct (dh_entries _ _ _ _ _ H) as [at0 He]. destruct (entries_drop _ _ _ _ _ _ _ _ _ He Hb) as (s1 & s2 & previous & at_ & -> & Hd).
  destruct (lookup_lt_is_Some_2 es (b * BLOCK) Hb) as [x Hx]. rewrite (drop_S _ _ _ Hx) in *. cbn [Nat.add] in Hd.
  pose proof (entries_head _ _ _ _ _ _ _ _ _ Hd) as [_ Hbp]. destruct Hbp as [H1 H2]; [by rewrite Nat.Div0.mod_mul|]. rewrite Nat.div_mul in * by done.
  exists s2, (length s1), previous, at_. split_and!; [|done|done].
  unfold block_reader. rewrite H1. cbn [obind]. rewrite Nat2Z.id, slice_Ok by (rewrite length_app; lia). cbn [obind].
  rewrite drop_app_length, take_ge by (rewrite length_app; lia). done.
Qed.

Lemma first_term_ok b e : es !! (b * BLOCK) = Some e -> first_term dict blocks b = Ok (en_term e).
Proof.
  intros He. destruct (dict_block_at b) as (s2 & pos & previous & at_ & Hr & _ & Hs); [by eapply lookup_lt_Some|].
  unfold first_term. rewrite Hr. cbn [obind]. rewrite (drop_S _ _ _ He) in Hs.
  inversion Hs as [|? ? ? ? e' prefix suffix count len s ? Hp Hpl H0 ]; subst. cbn [en_term].
  destruct (entry_reads _ _ _ _ _ [] s Hp) as (r1 & r2 & r3 & -> & E2 & _). cbn [unwrap obind]. rewrite E2. cbn [unwrap obind].
  rewrite H0 by (by rewrite Nat.Div0.mod_mul). done.
Qed.

Lemma es_sorted : bsorted (map en_term es).
Proof. destruct H as [[at_ He] _ _]. by apply entries_sorted in He as [? _]. Qed.

(** Block [b] starts at or before every entry from it on, and after every entry before it. *)
Lemma find_block_ok target fuel lo hi :
  lo < hi -> hi <= div_ceil (length es) BLOCK -> hi - lo <= fuel ->
  (forall e, e ∈ take (lo * BLOCK) es -> en_term e <> target) -> (forall e, e ∈ drop (hi * BLOCK) es -> en_term e <> target) ->
  exists b, find_block dict blocks fuel target lo hi = Ok b /\ b * BLOCK < length es /\
    (forall e, e ∈ take (b * BLOCK) es -> en_term e <> target) /\ (forall e, e ∈ drop ((b + 1) * BLOCK) es -> en_term e <> target).
Proof.
  revert lo hi. induction fuel as [|fuel IH]; intros lo hi Hlt Hhi Hf Hlo Hup; [lia|].
  assert (Hin : forall b, b < hi -> b * BLOCK < length es).
  { intros b Hb. unfold div_ceil in Hhi. change BLOCK with 32 in *. pose proof (Nat.div_mod_eq (length es + 32 - 1) 32).
    pose proof (Nat.mod_upper_bound (length es + 32 - 1) 32). lia. }
  cbn [find_block]. destruct (Nat.ltb_spec 1 (hi - lo)) as [H1|H1].
  2: { exists lo. assert (hi = lo + 1) as -> by lia. split_and!; [done|by apply Hin|done|done]. }
  set (m := lo + (hi - lo) / 2). assert (Hm : lo < m < hi).
  { pose proof (Nat.div_mod_eq (hi - lo) 2). pose proof (Nat.mod_upper_bound (hi - lo) 2). lia. }
  destruct (lookup_lt_is_Some_2 es (m * BLOCK)) as [e He]; [apply Hin; lia|]. rewrite (first_term_ok m e He). cbn [obind].
  pose proof es_sorted as Hs. assert (Hte : map en_term es !! (m * BLOCK) = Some (en_term e)) by (rewrite list_lookup_fmap, He; done).
  assert (Hbelow : bcmp (en_term e) target <> Gt -> forall x, x ∈ take (m * BLOCK) es -> en_term x <> target).
  { intros Hc x [k Hk]%list_elem_of_lookup_1 <-. apply lookup_take_Some in Hk as [Hk Hlk]. apply Hc, bcmp_gt.
    eapply (bsorted_lookup_lt _ k); [done|done| |done]. by rewrite list_lookup_fmap, Hk. }
  destruct (bcmp (en_term e) target) eqn:Ec.
  - apply IH; [lia|lia|lia|by apply Hbelow|done].
  - apply IH; [lia|lia|lia|by apply Hbelow|done].
  - apply IH; [lia|lia|lia|done|]. intros x [k Hk]%list_elem_of_lookup_1 <-. rewrite lookup_drop in Hk.
    destruct k as [|k]; [rewrite Nat.add_0_r in Hk; simplify_eq; by rewrite bcmp_refl in Ec|].
    apply bcmp_gt in Ec. apply (irreflexivity blt (en_term x)). etrans; [exact Ec|].
    eapply (bsorted_lookup_lt _ (m * BLOCK) (m * BLOCK + S k)); [done|lia|done|]. by rewrite list_lookup_fmap, Hk.
Qed.

Lemma image_postings_ok target : image_postings (length es) dict blocks postings target = Ok (answer postings es target).
Proof.
  unfold image_postings. destruct (Nat.eqb_spec (length es) 0) as [E0|E0]; [by destruct es|].
  pose proof (dh_table _ _ _ _ _ H) as Ht. rewrite Ht. rewrite Nat.div_mul by done.
  assert (Hc : 0 < div_ceil (length es) BLOCK).
  { unfold div_ceil. change BLOCK with 32. apply Nat.div_str_pos. lia. }
  destruct (find_block_ok target (div_ceil (length es) BLOCK * 8) 0 (div_ceil (length es) BLOCK)) as (b & -> & Hb & Hlo & Hup); [done|done|lia| | |].
  { intros e He. cbn in He. by apply elem_of_nil in He. }
  { intros e He. rewrite drop_ge in He by (apply div_ceil_mul_ge; unfold BLOCK; lia). by apply elem_of_nil in He. }
  cbn [obind]. unfold checked_sub. rewrite (proj2 (Z.leb_le _ _)) by lia. cbn [expect obind].
  destruct (dict_block_at b Hb) as (s2 & pos & previous & at_ & -> & -> & Hs). cbn [obind].
  set (n := Nat.min _ BLOCK). assert (Hn : n <= length es - b * BLOCK) by (unfold n; lia).
  rewrite (scan_block_ok _ _ target n _ _ _ _ [] _ _ [] Hs); [|rewrite length_drop; lia|right; by rewrite Nat.Div0.mod_mul].
  f_equal. rewrite <- (take_drop (b * BLOCK) es) at 2. rewrite (answer_app _ (take (b * BLOCK) es)) by (by apply Forall_forall).
  rewrite <- (take_drop n (drop (b * BLOCK) es)) at 2. symmetry. apply answer_app_l. apply Forall_forall. intros e He. apply Hup.
  rewrite drop_drop in He. unfold n in He. destruct (Nat.le_gt_cases BLOCK (Z.to_nat (Z.of_nat (length es) - Z.of_nat (b * BLOCK)))) as [Hle|Hgt].
  - rewrite Nat.min_r in He by done. replace ((b + 1) * BLOCK) with (b * BLOCK + BLOCK) by lia. done.
  - rewrite drop_ge in He by lia. by apply elem_of_nil in He.
Qed.

(** The walk does [act] with every entry in order. *)
Fixpoint act_all {St} (act : St -> list Z -> Z -> list Z -> outcome St) (l : list Entry) (s : St) : outcome St :=
  match l with
  | [] => Ok s
  | e :: l => let* s := act s (en_term e) (en_count e) (entry_bytes postings e) in act_all act l s
  end.

Lemma walk_loop_ok {St} (act : St -> list Z -> Z -> list Z -> outcome St) i pos previous at_ p b l s :
  dict_entries blocks (Z.of_nat (length postings)) i pos previous at_ b l -> walk_loop postings act (length l) (mid p b) previous at_ s = act_all act l s.
Proof.
  intros He. revert p s. induction He as [|i pos previous at_ e prefix suffix count len b l Hp Hpl H0 Hu Hlt Hc Hl Ha Hs Hb He IH]; intros p s; [done|].
  cbn [length walk_loop act_all en_term en_count]. destruct (entry_reads _ _ _ _ _ p b Hp) as (r1 & r2 & r3 & -> & E2 & E3 & E4).
  cbn [obind]. rewrite E2. cbn [obind]. unfold number, rbind. rewrite E3. cbn [obind]. rewrite (proj2 (Z.ltb_lt count U32)) by lia.
  unfold rret. cbn [obind]. rewrite E4. cbn [obind]. set (x := mkEntry _ count at_ len).
  assert (Hok : dict_entry_ok (Z.of_nat (length postings)) x) by (unfold dict_entry_ok; cbn [x en_term en_count en_at en_len]; split_and!; try done; lia).
  pose proof (entry_slice _ _ Hok) as Hsl. cbn [x en_at en_len] in Hsl. rewrite Hsl. cbn [obind]. destruct (act s _ count _); cbn [obind]; [apply IH|done|done].
Qed.

Lemma walk_ok {St} (act : St -> list Z -> Z -> list Z -> outcome St) s :
  walk (length es) dict blocks postings act s = act_all act es s.
Proof.
  unfold walk. destruct H as [[at0 He] Ht Hl]. destruct (Nat.eqb_spec (length es) 0) as [E0|E0]; [by destruct es|].
  assert (Hc : 0 < div_ceil (length es) BLOCK) by (unfold div_ceil; change BLOCK with 32; apply Nat.div_str_pos; lia).
  rewrite slice_Ok by lia. change (take (8 - 0) (drop 0 blocks)) with (take 8 blocks).
  assert (H2 : u32_at blocks 4 = Ok at0).
  { destruct es as [|x l]; [simpl in E0; lia|]. apply entries_head in He as [_ Hb]. by destruct (Hb eq_refl). }
  assert (Hu : u32_at (take 8 blocks) 4 = Ok at0).
  { rewrite <- H2. unfold u32_at. rewrite !slice_Ok by (rewrite ?length_take; lia). cbn [obind]. do 2 f_equal. rewrite !take_drop_commute, take_take. done. }
  cbn [obind]. rewrite Hu. cbn [obind]. rewrite reader_new_mid. by apply (walk_loop_ok act 0 0).
Qed.
End Search.

(** ** The check is complete *)

Lemma check_entries_complete blocks size i pos previous at_ s es p rest posting_at :
  dict_entries blocks size i pos previous at_ s es -> pos = length p -> (size < USIZE)%Z ->
  (posting_at = Some at_ \/ (posting_at = None /\ i mod BLOCK = 0)) ->
  check_entries (length es) i blocks size previous posting_at (mid p (s ++ rest)) = Ok (tt, mid (p ++ s) rest).
Proof.
  intros He. revert p posting_at. induction He as [|i pos previous at_ e prefix suffix count len s es Hp Hpl H0 Hu Hlt Hc Hl Ha Hs Hb He IH]; intros p posting_at Hpos Hsz Hpa.
  { cbn [length check_entries app]. by rewrite app_nil_r. }
  cbn [length check_entries]. unfold rbind at 1, dict_position. cbn [obind].
  assert (Hat : rlift (if Nat.eqb (i mod BLOCK) 0 then
          let* at_ := u32_at blocks (i / BLOCK * 8) in
          ensure (at_ =? Z.of_nat (position (mid p ((e ++ s) ++ rest))))%Z else "checkpoint block offset" ;
          let* start := u32_at blocks (i / BLOCK * 8 + 4) in
          ensure (match posting_at with None => true | Some at_ => (at_ =? start)%Z end) else "checkpoint block postings" ;
          Ok (Some start)
        else Ok posting_at) (mid p ((e ++ s) ++ rest)) = Ok (Some at_, mid p ((e ++ s) ++ rest))).
  { unfold rlift. destruct (Nat.eqb_spec (i mod BLOCK) 0) as [E|E].
    - destruct (Hb E) as [-> ->]. cbn [obind]. unfold position, mid. rewrite Hpos. cbn [Words.at_]. rewrite Z.eqb_refl.
      destruct Hpa as [->|[-> _]]; [by rewrite Z.eqb_refl|done].
    - by destruct Hpa as [->|[_ ?]]. }
  unfold rbind at 1. rewrite Hat. cbn [obind]. rewrite <- app_assoc. destruct (entry_reads _ _ _ _ _ p (s ++ rest) Hp) as (r1 & r2 & r3 & E1 & E2 & E3 & E4).
  unfold rbind at 1. rewrite E1. cbn [obind]. unfold rbind at 1. rewrite E2. cbn [obind].
  assert (Hg : (prefix <=? Z.of_nat (length previous))%Z && (negb (Nat.eqb (i mod BLOCK) 0) || (prefix =? 0)%Z) = true).
  { rewrite (proj2 (Z.leb_le _ _)) by lia. destruct (Nat.eqb_spec (i mod BLOCK) 0) as [E|E]; [by rewrite (H0 E)|done]. }
  rewrite Hg. cbv zeta. rewrite Hu. assert (Ho : Nat.eqb i 0 || bool_decide (blt previous (take (Z.to_nat prefix) previous ++ suffix)) = true).
  { destruct Hlt as [->|Hlt]; [done|]. rewrite bool_decide_eq_true_2 by done. by rewrite orb_true_r. }
  rewrite Ho. cbn [andb]. unfold rbind at 1. rewrite E3. cbn [obind]. unfold rbind at 1. rewrite E4. cbn [obind].
  rewrite (proj2 (Z.ltb_lt 0 count)), (proj2 (Z.leb_le count len)), (proj2 (Z.ltb_lt count U32)) by lia. cbn [andb].
  unfold rbind at 1, rlift. cbn [expect obind]. unfold checked_add. rewrite (proj2 (Z.ltb_lt (at_ + len) USIZE)), (proj2 (Z.leb_le (at_ + len) size)) by lia.
  rewrite (app_assoc p e s). apply IH; [rewrite length_app; lia|done|by left].
Qed.

Lemma check_dictionary_complete terms dict blocks size es :
  dict_holds terms dict blocks size es -> (size < USIZE)%Z -> check_dictionary terms dict blocks size = Ok tt.
Proof.
  intros [[at_ He] <- Ht] Hsz. unfold check_dictionary. rewrite Ht, Nat.eqb_refl, reader_new_mid.
  rewrite <- (app_nil_r dict) at 1. rewrite (check_entries_complete _ _ _ _ _ _ _ _ [] [] None He); [|done|done|by right].
  cbn [obind app]. by rewrite is_empty_mid.
Qed.

(** ** Any dictionary that opens *)

(** What the walk over the dictionary collects. *)
Definition collect_entry (acc : list (list Z * Z * list Z)) (term : list Z) (count : Z) (bytes : list Z) : outcome (list (list Z * Z * list Z)) :=
  Ok (acc ++ [(term, count, bytes)]).

Definition find_entry (l : list (list Z * Z * list Z)) (target : list Z) : option (list Z * Z) :=
  match List.find (fun x => bool_decide (x.1.1 = target)) l with Some (_, count, bytes) => Some (bytes, count) | None => None end.

Lemma collect_all postings es acc :
  act_all postings collect_entry es acc = Ok (acc ++ map (fun e => (en_term e, en_count e, entry_bytes postings e)) es).
Proof.
  revert acc. induction es as [|e es IH]; intros acc; [by rewrite app_nil_r|]. cbn [act_all collect_entry obind map].
  rewrite IH, <- app_assoc. done.
Qed.

Lemma find_answer postings es target :
  find_entry (map (fun e => (en_term e, en_count e, entry_bytes postings e)) es) target = answer postings es target.
Proof.
  unfold find_entry, answer. induction es as [|e es IH]; [done|]. cbn [map List.find fst]. by destruct (bool_decide _).
Qed.

(** A dictionary of any bytes that passes the check of opening answers every query without a
    panic, and its two readers agree: the block search of a query finds a term exactly when the
    sequential walk of a rebuild meets it, with the same count and posting bytes; the terms the
    walk meets are strictly ascending UTF-8, and each has as many posting bytes as postings or
    more. *)
Theorem opened_dictionary_answers terms dict blocks postings :
  bytes_ok blocks -> check_dictionary terms dict blocks (Z.of_nat (length postings)) = Ok tt ->
  exists es, walk terms dict blocks postings collect_entry [] = Ok es /\ length es = terms /\
    bsorted (map (fun x => x.1.1) es) /\
    Forall (fun x => utf8_valid x.1.1 = true /\ (0 < x.1.2 <= Z.of_nat (length x.2))%Z) es /\
    forall target, image_postings terms dict blocks postings target = Ok (find_entry es target).
Proof.
  intros Hb H. apply check_dictionary_sound in H as [es H]; [|done]. destruct (dh_terms _ _ _ _ _ H).
  exists (map (fun e => (en_term e, en_count e, entry_bytes postings e)) es). rewrite (walk_ok _ _ _ _ H), collect_all, length_map, map_map. split_and!; [done|done| | |].
  - apply (es_sorted _ _ _ _ H).
  - destruct H as [[at_ He] _ _]. apply entries_ok_all in He. apply Forall_fmap. eapply Forall_impl; [exact He|].
    intros e (H1 & H2 & H3 & H4 & H5). cbn. split; [done|]. unfold entry_bytes. rewrite length_take, length_drop. lia.
  - intros target. rewrite find_answer. apply (image_postings_ok _ _ _ _ H).
Qed.

Lemma opened_dictionary_answers_witness :
  let dict := [0; 1; 97; 1; 1; 0; 2; 98; 99; 1; 1]%Z in let blocks := [0; 0; 0; 0; 0; 0; 0; 0]%Z in let postings := [2; 4]%Z in
  exists es, walk 2 dict blocks postings collect_entry [] = Ok es /\ length es = 2 /\
    image_postings 2 dict blocks postings [98; 99]%Z = Ok (Some ([4], 1)%Z).
Proof.
  intros dict blocks postings. destruct (opened_dictionary_answers 2 dict blocks postings) as (es & Hw & Hl & _ & _ & Ha).
  - unfold bytes_ok, is_u8. repeat constructor; lia.
  - vm_compute. reflexivity.
  - exists es. split; [exact Hw|]. split; [exact Hl|]. rewrite Ha. vm_compute in Hw. injection Hw as <-. vm_compute. reflexivity.
Defined.

(** C39: Opening checks where the posting bytes of a term are, not what they are: a dictionary
    passes the check, and the list a query is answered with makes the unchecked decoder panic. *)
Theorem opened_postings_unchecked :
  let dict := [0; 1; 97; 1; 1]%Z in let blocks := [0; 0; 0; 0; 0; 0; 0; 0]%Z in let postings := [128]%Z in
  check_dictionary 1 dict blocks 1 = Ok tt /\ image_postings 1 dict blocks postings [97]%Z = Ok (Some (postings, 1%Z)) /\
  for_each postings 1 = Panic.
Proof. vm_compute. repeat split; reflexivity. Qed.
