(* ===== verification/ImageWrite.v ===== *)
(** * Writing the term dictionary of a checkpoint

    What [encode] of [src/core/documents/image.rs] writes for one posting form passes the check of
    opening and answers every term with the postings of the index it was written from. *)

From S2P Require Import Prelude Words BitPack Search Positions Terms FrameDict TermDict Postings Cursor PostingEdit PostingRuns CheckpointLists Lists ImageDict.

(** ** Front coding *)

(** One term as it is written: its text, count and posting bytes. *)
Abbreviation written_term := (list Z * Z * list Z)%type.

Definition prefix_of (i : nat) (previous term : list Z) : nat := if Nat.eqb (i mod BLOCK) 0 then 0 else common_prefix previous term.

Definition entry_code (i : nat) (previous : list Z) (x : written_term) : list Z :=
  let prefix := prefix_of i previous x.1.1 in
  put_varint (Z.of_nat prefix) ++ put_bytes (drop prefix x.1.1) ++ put_varint x.1.2 ++ put_varint (Z.of_nat (length x.2)).

Fixpoint dict_code (i : nat) (previous : list Z) (xs : list written_term) : list Z :=
  match xs with [] => [] | x :: xs => entry_code i previous x ++ dict_code (S i) x.1.1 xs end.

Fixpoint entries_at (at_ : Z) (xs : list written_term) : list Entry :=
  match xs with [] => [] | x :: xs => mkEntry x.1.1 x.1.2 at_ (Z.of_nat (length x.2)) :: entries_at (at_ + Z.of_nat (length x.2)) xs end.

Definition posting_code (xs : list written_term) : list Z := concat (map snd xs).

(** The first entries of the blocks. *)
Fixpoint block_code (i pos at_ : nat) (previous : list Z) (xs : list written_term) : list Z :=
  match xs with
  | [] => []
  | x :: xs =>
      (if Nat.eqb (i mod BLOCK) 0 then to_le_bytes 4 (Z.of_nat pos) ++ to_le_bytes 4 (Z.of_nat at_) else []) ++
      block_code (S i) (pos + length (entry_code i previous x)) (at_ + length x.2) x.1.1 xs
  end.

(** Whether every block starts within the first 2^32 dictionary and posting bytes. *)
Fixpoint blocks_fit (i pos at_ : nat) (previous : list Z) (xs : list written_term) : bool :=
  match xs with
  | [] => true
  | x :: xs =>
      (negb (Nat.eqb (i mod BLOCK) 0) || ((Z.of_nat pos <? U32)%Z && (Z.of_nat at_ <? U32)%Z)) &&
      blocks_fit (S i) (pos + length (entry_code i previous x)) (at_ + length x.2) x.1.1 xs
  end.

Lemma blocks_fit_small xs i pos at_ previous :
  (Z.of_nat (pos + length (dict_code i previous xs)) < U32)%Z -> (Z.of_nat (at_ + length (posting_code xs)) < U32)%Z ->
  blocks_fit i pos at_ previous xs = true.
Proof.
  revert i pos at_ previous. induction xs as [|x xs IH]; intros i pos at_ previous Hp Ha; [done|]. unfold posting_code in *.
  cbn [dict_code blocks_fit map concat] in *. rewrite !length_app in *. rewrite IH by lia.
  rewrite (proj2 (Z.ltb_lt (Z.of_nat pos) U32)), (proj2 (Z.ltb_lt (Z.of_nat at_) U32)) by lia. by rewrite orb_true_r.
Qed.

(** A term that can be written. *)
Definition writable (x : written_term) : Prop :=
  utf8_valid x.1.1 = true /\ (Z.of_nat (length x.1.1) < U32)%Z /\ (0 < x.1.2 < U32)%Z /\ (x.1.2 <= Z.of_nat (length x.2))%Z.

Lemma entry_code_parses i previous x :
  writable x -> (Z.of_nat (length x.2) < U64)%Z ->
  entry_parses (entry_code i previous x) (Z.of_nat (prefix_of i previous x.1.1)) (drop (prefix_of i previous x.1.1) x.1.1) x.1.2 (Z.of_nat (length x.2)) /\
  take (prefix_of i previous x.1.1) previous ++ drop (prefix_of i previous x.1.1) x.1.1 = x.1.1 /\ prefix_of i previous x.1.1 <= length previous.
Proof.
  intros (Hu & Ht & Hc & Hl) Hp. assert (Hpre : prefix_of i previous x.1.1 <= length previous /\ prefix_of i previous x.1.1 <= length x.1.1 /\
    take (prefix_of i previous x.1.1) previous = take (prefix_of i previous x.1.1) x.1.1).
  { unfold prefix_of. destruct (_ =? 0); [split_and!; [lia|lia|done]|]. apply common_prefix_take. }
  destruct Hpre as (H1 & H2 & H3). split_and!; [|by rewrite H3, take_drop|done]. unfold entry_code. do 4 eexists. split; [done|].
  unfold U32, U64 in *. split_and!; [apply varint_parses|apply rbytes_parses|apply varint_parses|apply varint_parses]; unfold is_u64, U64, USIZE; rewrite ?length_drop; lia.
Qed.

Lemma u32_at_written pre v post :
  is_u32 v -> u32_at (pre ++ to_le_bytes 4 v ++ post) (length pre) = Ok v.
Proof.
  intros Hv. unfold u32_at. rewrite slice_Ok by (rewrite ?length_app, ?to_le_bytes_length; lia). cbn [obind].
  replace (length pre + 4 - length pre) with (length (to_le_bytes 4 v)) by (rewrite to_le_bytes_length; lia).
  rewrite drop_app_length, take_app_length. f_equal. apply from_to_le_bytes. exact Hv.
Qed.

Lemma div_ceil_step i : div_ceil (S i) BLOCK * 8 = div_ceil i BLOCK * 8 + (if Nat.eqb (i mod BLOCK) 0 then 8 else 0).
Proof.
  unfold div_ceil. change BLOCK with 32. pose proof (Nat.div_mod_eq (S i + 32 - 1) 32). pose proof (Nat.div_mod_eq (i + 32 - 1) 32). pose proof (Nat.div_mod_eq i 32).
  pose proof (Nat.mod_upper_bound (S i + 32 - 1) 32). pose proof (Nat.mod_upper_bound (i + 32 - 1) 32). pose proof (Nat.mod_upper_bound i 32).
  destruct (Nat.eqb_spec (i mod 32) 0); lia.
Qed.

Lemma div_ceil_block i : i mod BLOCK = 0 -> i / BLOCK * 8 = div_ceil i BLOCK * 8.
Proof.
  intros Hi. unfold div_ceil. change BLOCK with 32 in *. pose proof (Nat.div_mod_eq (i + 32 - 1) 32). pose proof (Nat.div_mod_eq i 32).
  pose proof (Nat.mod_upper_bound (i + 32 - 1) 32). lia.
Qed.

Definition strictly_after (i : nat) (previous : list Z) (xs : list written_term) : Prop :=
  bsorted (map (fun x => x.1.1) xs) /\ (i = 0 \/ Forall (blt previous) (map (fun x => x.1.1) xs)).

Lemma dict_code_entries size xs i pos previous at_ done_ :
  Forall writable xs -> strictly_after i previous xs -> length done_ = div_ceil i BLOCK * 8 ->
  (Z.of_nat (at_ + length (posting_code xs)) <= size)%Z -> (size < U64)%Z ->
  blocks_fit i pos at_ previous xs = true ->
  dict_entries (done_ ++ block_code i pos at_ previous xs) size i pos previous (Z.of_nat at_) (dict_code i previous xs) (entries_at (Z.of_nat at_) xs) /\
  length (done_ ++ block_code i pos at_ previous xs) = div_ceil (i + length xs) BLOCK * 8.
Proof.
  revert i pos previous at_ done_. induction xs as [|x xs IH]; intros i pos previous at_ done_ Hw Hafter Hd Hsz Hmax Hfit.
  { cbn [dict_code entries_at block_code]. rewrite app_nil_r, Nat.add_0_r. split; [constructor|done]. }
  apply Forall_cons in Hw as [Hx Hw]. destruct Hafter as [Hs Hprev]. cbn [map] in Hs. inversion Hs as [|?? Hs' Hf]; subst.
  unfold posting_code in *. cbn [dict_code entries_at block_code map concat blocks_fit] in *. rewrite !length_app in Hsz. apply andb_true_iff in Hfit as [Hfit0 Hfit].
  destruct (entry_code_parses i previous x Hx) as (Hp & Hterm & Hple); [unfold U64 in *; lia|].
  set (blk := if Nat.eqb (i mod BLOCK) 0 then _ else _).
  assert (Hblk : length (done_ ++ blk) = div_ceil (S i) BLOCK * 8).
  { rewrite div_ceil_step, length_app, Hd. unfold blk. destruct (_ =? 0); [|done]. rewrite length_app, !to_le_bytes_length. done. }
  rewrite (app_assoc done_ blk). destruct (IH (S i) (pos + length (entry_code i previous x)) x.1.1 (at_ + length x.2) (done_ ++ blk)) as [IH1 IH2];
    [done|split; [done|by right]|done|lia|done|done|].
  rewrite <- Nat2Z.inj_add. split; [|rewrite IH2; f_equal; f_equal; cbn [length]; lia].
  assert (Hgo := eo_cons (( done_ ++ blk) ++ block_code (S i) (pos + length (entry_code i previous x)) (at_ + length x.2) x.1.1 xs) size i pos previous (Z.of_nat at_)
    (entry_code i previous x) (Z.of_nat (prefix_of i previous x.1.1)) (drop (prefix_of i previous x.1.1) x.1.1) x.1.2 (Z.of_nat (length x.2))
    (dict_code (S i) x.1.1 xs) (entries_at (Z.of_nat (at_ + length x.2)) xs)).
  rewrite Nat2Z.id, Hterm in Hgo. destruct Hx as (Hu & Ht & Hc & Hl). apply Hgo; try done; try lia.
  - intros E. unfold prefix_of. by rewrite (proj2 (Nat.eqb_eq _ _) E).
  - destruct Hprev as [->|Hprev]; [by left|right]. by apply Forall_cons in Hprev as [? _].
  - intros E. unfold blk. rewrite (proj2 (Nat.eqb_eq _ _) E) in *. cbn [negb orb] in Hfit0. bool_to_prop. rewrite (div_ceil_block i E), <- Hd. split.
    + rewrite <- !app_assoc. apply u32_at_written. unfold is_u32. lia.
    + rewrite (app_assoc done_ (to_le_bytes 4 (Z.of_nat pos))), <- !app_assoc.
      replace (length done_ + 4) with (length (done_ ++ to_le_bytes 4 (Z.of_nat pos))) by (rewrite length_app, to_le_bytes_length; done).
      rewrite (app_assoc done_ (to_le_bytes 4 (Z.of_nat pos))). apply u32_at_written. unfold is_u32. lia.
  - by rewrite <- Nat2Z.inj_add.
Qed.

(** ** The writer's loop *)

(** A list and what is written of it. *)
Definition packs (x : written_term * PostingList) : Prop :=
  pack_checkpoint x.2 = Ok x.1.2 /\ pl_count x.2 = x.1.1.2 /\ (0 < pl_count x.2)%Z.

Abbreviation term_of := (fun x : written_term * PostingList => x.1.1.1).

Lemma sorted_term_bounds keys i t : keys !! i = Some t -> sorted_term (concat keys) (bounds keys) i = Ok t.
Proof. exact (base_term_encode keys [] 0 [] i t). Qed.

Lemma packs_nonempty x : packs x -> list_is_empty x.2 = false.
Proof. intros (_ & _ & H). unfold list_is_empty. apply Z.eqb_neq. lia. Qed.

(** The term before the one written, the empty text at the start. *)
Definition last_term (done_ : list (written_term * PostingList)) : list Z := match last done_ with Some x => term_of x | None => [] end.

Lemma previous_term_ok done_ x rest :
  Forall packs (done_ ++ x :: rest) ->
  previous_term (concat (map term_of (done_ ++ x :: rest))) (bounds (map term_of (done_ ++ x :: rest))) (map snd (done_ ++ x :: rest)) (S (length done_)) = Ok (term_of x).
Proof.
  intros Hp. unfold previous_term. cbn [find_previous]. rewrite list_lookup_fmap, list_lookup_middle by done. cbn [fmap option_fmap option_map expect obind].
  rewrite packs_nonempty by (apply Forall_app in Hp as [_ Hp]; by inversion Hp). cbn [obind].
  apply sorted_term_bounds. by rewrite list_lookup_fmap, list_lookup_middle.
Qed.

Lemma encode_entries_ok done_ rest w :
  Forall packs (done_ ++ rest) -> wr_count w = length done_ ->
  let all := done_ ++ rest in let keys := map term_of all in let previous := last_term done_ in
  encode_entries (concat keys) (bounds keys) (map snd all) (length done_) (map snd rest) w =
    Ok (if blocks_fit (length done_) (length (wr_dict w)) (length (wr_postings w)) previous (map fst rest) then
          Some {| wr_dict := wr_dict w ++ dict_code (length done_) previous (map fst rest);
                  wr_blocks := wr_blocks w ++ block_code (length done_) (length (wr_dict w)) (length (wr_postings w)) previous (map fst rest);
                  wr_postings := wr_postings w ++ posting_code (map fst rest); wr_count := length all |}
        else None).
Proof.
  revert done_ w. induction rest as [|x rest IH]; intros done_ w Hp Hn.
  { cbn. rewrite !app_nil_r. destruct w as [a b c d]. cbn in *. by subst d. }
  intros all keys previous. cbn [map encode_entries]. unfold encode_entry.
  assert (Hx : packs x) by (apply Forall_app in Hp as [_ Hp]; by inversion Hp). rewrite (packs_nonempty x Hx).
  assert (Ht : sorted_term (concat keys) (bounds keys) (length done_) = Ok (term_of x)).
  { apply sorted_term_bounds. unfold keys, all. by rewrite list_lookup_fmap, list_lookup_middle. }
  rewrite Ht, Hn. cbn [obind]. cbn [blocks_fit].
  assert (Hpre : (if Nat.eqb (length done_ mod BLOCK) 0 then Ok 0 else
      let* pr := previous_term (concat keys) (bounds keys) (map snd all) (length done_) in Ok (common_prefix pr (term_of x))) =
      Ok (prefix_of (length done_) previous (term_of x))).
  { unfold prefix_of. destruct (Nat.eqb_spec (length done_ mod BLOCK) 0) as [|E]; [done|].
    destruct (last done_) as [y|] eqn:Hy; [|apply last_None in Hy; subst done_; done]. apply last_Some in Hy as [d ->].
    assert (previous = term_of y) as -> by (unfold previous, last_term; by rewrite last_snoc).
    pose proof (previous_term_ok d y (x :: rest)) as Hprev. rewrite (cons_middle y), (app_assoc d [y]) in Hprev. unfold keys, all.
    rewrite length_app, Nat.add_1_r, Hprev by done. done. }
  destruct (Nat.eqb (length done_ mod BLOCK) 0 && negb _) eqn:Enone.
  { apply andb_true_iff in Enone as [E1 E2]. rewrite E1. apply negb_true_iff in E2. rewrite E2. done. }
  rewrite Hpre. cbn [obind]. assert (Hsl : slice (term_of x) (prefix_of (length done_) previous (term_of x)) (length (term_of x)) =
    Ok (drop (prefix_of (length done_) previous (term_of x)) (term_of x))).
  { assert (Hle : prefix_of (length done_) previous (term_of x) <= length (term_of x)).
    { unfold prefix_of. destruct (_ =? 0); [lia|]. apply common_prefix_take. }
    rewrite slice_Ok by lia. rewrite take_ge; [done|]. rewrite length_drop. lia. }
  rewrite Hsl. cbn [obind]. destruct Hx as (Hpk & Hc & _). rewrite Hpk. cbn [obind].
  set (w1 := mkWritten _ _ _ _). assert (Hall : all = (done_ ++ [x]) ++ rest) by (unfold all; by rewrite <- app_assoc).
  assert (Hd1 : wr_dict w1 = wr_dict w ++ entry_code (length done_) previous x.1) by (unfold w1, entry_code; cbn; by rewrite Hc).
  specialize (IH (done_ ++ [x]) w1). cbv zeta in IH. rewrite <- !app_assoc in IH. cbn [app] in IH. fold all in IH.
  assert (Hprev : last_term (done_ ++ [x]) = term_of x) by (unfold last_term; by rewrite last_snoc).
  rewrite Hprev, length_app, Nat.add_1_r in IH. fold keys in IH. rewrite (IH Hp eq_refl), Hd1. cbn [wr_postings w1]. rewrite !length_app.
  assert (Hfit : negb (length done_ mod BLOCK =? 0) || ((Z.of_nat (length (wr_dict w)) <? U32) && (Z.of_nat (length (wr_postings w)) <? U32))%Z = true).
  { destruct (length done_ mod BLOCK =? 0); [|done]. cbn [andb] in Enone. by apply negb_false_iff in Enone. }
  rewrite Hfit. cbn [andb].
  match goal with |- Ok (if ?a then _ else _) = Ok (if ?b then _ else _) => change a with b; destruct b; [|done] end. unfold posting_code. cbn [dict_code block_code map concat].
  unfold w1. cbn [wr_blocks]. by rewrite <- !app_assoc.
Qed.

(** ** The lists of an index in term order *)

Section Form.
Context (words : list Z -> Z -> Z) (s : PostingLists TermDictionary) (M : index_map).
Context (Hrep : represents words s M) (Htext : (index_text M < U32)%Z) (Hslots : forall t sm slot, M !! t = Some sm -> is_Some (sm !! slot) -> (slot < 2 ^ 63)%Z).

(** What a list and its term are to the index. *)
Definition listed (x : written_term * PostingList) : Prop :=
  packs x /\ pls_get s (term_of x) = Ok (Some x.2) /\ bytes_ok x.1.2 /\
  try_list x.1.2 (pl_count x.2) = pl_for_each x.2 /\ for_each x.1.2 (pl_count x.2) = pl_for_each x.2 /\
  (pl_count x.2 < U32)%Z /\ (pl_count x.2 <= Z.of_nat (length x.1.2))%Z /\
  exists es, models (words (term_of x)) x.2 es /\ M !! term_of x = Some (to_map es).

Lemma pack_postings_length previous ps bytes : pack_postings previous ps = Ok bytes -> length ps <= length bytes.
Proof.
  revert previous bytes. induction ps as [|[sl f] ps IH]; intros previous bytes H; [cbn; lia|]. cbn [pack_postings] in H. inv_ok.
  specialize (IH _ _ Ha0). rewrite !length_app. cbn [length]. pose proof (put_varint_nonempty (Z.lor (wrap U64 (Z.shiftl a 1)) (if (f =? 1)%Z then 0 else 1)%Z)). lia.
Qed.

Lemma index_list m t id : lists_ok words s m M -> m !! t = Some id ->
  exists l bytes, pls_lists s !! Z.to_nat id = Some l /\ listed (t, pl_count l, bytes, l).
Proof.
  intros [Hti Hcore] Hm. destruct (lo_live _ _ _ _ _ Hcore t id Hm) as (_ & l & es & Hl & Hmod & Hne & HM).
  destruct (models_packs _ _ _ Hmod) as (bytes & Hp & Hb & Ht & Hf).
  { intros e He. apply (Hslots t (to_map es)); [done|]. exists (e.1.2, e.2). apply to_map_Some; [by apply entries_distinct, (models_entries _ _ _ Hmod)|].
    exists e. by destruct e as [[??]?]. }
  exists l, bytes. split; [done|]. pose proof (models_count _ _ _ Hmod) as Hc. pose proof (models_for_each _ _ _ Hmod) as Hfe.
  assert (Hpos : (0 < pl_count l)%Z) by (destruct es; [done|]; cbn in Hc; lia).
  assert (Hlen : (pl_count l <= Z.of_nat (length bytes))%Z).
  { unfold pack_checkpoint in Hp. rewrite Hfe in Hp. apply pack_postings_length in Hp. rewrite length_map in Hp. lia. }
  unfold listed, packs. cbn [fst snd]. split_and!; try done; [| | | |by exists es].
  - unfold pls_get. rewrite (ti_get_ok _ _ _ Hti), Hm. cbn [obind]. by rewrite Hl.
  - by rewrite Hfe.
  - by rewrite Hfe.
  - by destruct Hmod as (gs & [] & _).
Qed.

Lemma index_lists m (l : list (list Z * Z)) : lists_ok words s m M -> Forall (fun e => m !! e.1 = Some e.2) l ->
  exists xs, omap_list (fun id => expect (pls_lists s !! Z.to_nat id)) (map snd l) = Ok (map snd xs) /\ map term_of xs = map fst l /\ Forall listed xs.
Proof.
  intros Hok. induction 1 as [|[t id] l He Hl IH]; [by exists []|]. destruct IH as (xs & H1 & H2 & H3).
  destruct (index_list m t id Hok He) as (pl & bytes & Hg & Hx). exists ((t, pl_count pl, bytes, pl) :: xs). cbn [map omap_list snd].
  rewrite Hg. cbn [expect obind]. rewrite H1, H2. split_and!; [done|done|by constructor].
Qed.

Lemma sorted_terms_ok :
  exists xs, sorted_terms s = Ok (concat (map term_of xs), bounds (map term_of xs), map snd xs) /\ bsorted (map term_of xs) /\ Forall listed xs /\
    (forall t, (t ∈ map term_of xs) \/ ((t ∉ map term_of xs) /\ M !! t = None /\ pls_get s t = Ok None)).
Proof.
  destruct Hrep as [m [Hti Hcore]]. destruct (live_terms_ok _ m Hti) as (l & Hl & Hs & Hm & Hnd).
  { rewrite (text_size_dom m M); [done|apply Hcore]. }
  destruct (index_lists m l) as (xs & Ho & Hk & Hx); [by split| |].
  { apply Forall_forall. intros [t id] He. rewrite Hm. by apply elem_of_list_to_map_1. }
  exists xs. rewrite Hk. split_and!; [|done|done|].
  - unfold sorted_terms. rewrite Hl. unfold TermDict.encode. cbn [obind]. by rewrite Ho.
  - intros t. destruct (m !! t) as [id|] eqn:E.
    + left. rewrite Hm in E. apply elem_of_list_to_map_2 in E. apply list_elem_of_fmap. by exists (t, id).
    + right. split; [rewrite Hm in E; by apply not_elem_of_list_to_map_2|]. split; [by apply (core_None _ _ _ _ _ _ Hcore)|]. unfold pls_get. by rewrite (ti_get_ok _ _ _ Hti), E.
Qed.
End Form.

(** ** Queries over what was written *)

Lemma answer_written xs pre after t :
  answer (pre ++ posting_code xs ++ after) (entries_at (Z.of_nat (length pre)) xs) t = find_entry xs t.
Proof.
  revert pre. induction xs as [|[[u c] bytes] xs IH]; intros pre; [done|]. unfold answer, find_entry. cbn [entries_at List.find en_term fst snd].
  destruct (bool_decide (u = t)) eqn:E.
  - unfold entry_bytes, posting_code. cbn [en_len en_at en_count map concat snd]. rewrite !Nat2Z.id, drop_app_length, <- app_assoc, take_app_length. done.
  - specialize (IH (pre ++ bytes)). unfold posting_code in *. cbn [map concat snd] in *. rewrite length_app, Nat2Z.inj_add in IH. rewrite <- !app_assoc in *. exact IH.
Qed.

Lemma find_entry_In xs t : (exists x, x ∈ xs /\ x.1.1 = t) -> exists x, x ∈ xs /\ x.1.1 = t /\ find_entry xs t = Some (x.2, x.1.2).
Proof.
  intros (x & Hx & Ht). unfold find_entry. destruct (List.find _ xs) as [[[u c] b]|] eqn:E.
  - apply List.find_some in E as [Hin Hu]. bool_to_prop. exists (u, c, b). split_and!; [by apply list_elem_of_In|done|done].
  - apply list_elem_of_In in Hx. pose proof (List.find_none _ _ E x Hx) as Hn. by apply bool_decide_eq_false in Hn.
Qed.

Lemma find_entry_not_In xs t : (t ∉ map (fun x => x.1.1) xs) -> find_entry xs t = None.
Proof.
  intros Hn. unfold find_entry. destruct (List.find _ xs) as [[[u c] b]|] eqn:E; [|done].
  apply List.find_some in E as [Hin Hu]. bool_to_prop. destruct Hn. apply list_elem_of_fmap. exists (u, c, b). split; [done|by apply list_elem_of_In].
Qed.

Lemma encode_form_ok s before xs :
  Forall packs xs -> sorted_terms s = Ok (concat (map term_of xs), bounds (map term_of xs), map snd xs) ->
  encode_form s before =
    Ok (if blocks_fit 0 0 (length before) [] (map fst xs) then
          Some {| wr_dict := dict_code 0 [] (map fst xs); wr_blocks := block_code 0 0 (length before) [] (map fst xs);
                  wr_postings := before ++ posting_code (map fst xs); wr_count := length xs |}
        else None).
Proof. intros Hp Hs. unfold encode_form. rewrite Hs. cbn [obind]. exact (encode_entries_ok [] xs (mkWritten [] [] before 0) Hp eq_refl). Qed.

(** An index whose terms and slots a checkpoint can hold. *)
Record form_ok (words : list Z -> Z -> Z) (s : PostingLists TermDictionary) (M : index_map) : Prop := {
  fo_rep : represents words s M;
  fo_text : (index_text M < U32)%Z;
  fo_utf8 : forall t, is_Some (M !! t) -> utf8_valid t = true /\ (Z.of_nat (length t) < U32)%Z;
  fo_slots : forall t sm slot, M !! t = Some sm -> is_Some (sm !! slot) -> (slot < 2 ^ 63)%Z }.

Lemma written_form_holds words s M before xs after :
  form_ok words s M -> Forall (listed words s M) xs -> bsorted (map term_of xs) -> blocks_fit 0 0 (length before) [] (map fst xs) = true ->
  let postings := (before ++ posting_code (map fst xs)) ++ after in (Z.of_nat (length postings) < U64)%Z ->
  dict_holds (length xs) (dict_code 0 [] (map fst xs)) (block_code 0 0 (length before) [] (map fst xs)) (Z.of_nat (length postings))
    (entries_at (Z.of_nat (length before)) (map fst xs)).
Proof.
  intros Hok Hx Hs Hfit postings Hsz.
  assert (Hw : Forall writable (map fst xs)).
  { apply Forall_fmap. eapply Forall_impl; [exact Hx|]. intros x ((Hp & Hc & H0) & _ & _ & _ & _ & Hu & Hl & es & _ & HM). cbn.
    destruct (fo_utf8 _ _ _ Hok (term_of x)) as [U1 U2]; [by eexists|]. unfold writable. rewrite <- Hc. split_and!; try done. }
  destruct (dict_code_entries (Z.of_nat (length postings)) (map fst xs) 0 0 [] (length before) []) as [H1 H2];
    [done|split; [by rewrite map_map|by left]|done| |done|done|].
  { unfold postings. rewrite !length_app. lia. }
  cbn [app] in *. rewrite length_map in H2. split; [by eexists| |done].
  clear. generalize (Z.of_nat (length before)). induction xs as [|x xs IH]; intros z; [done|]. cbn. by rewrite IH.
Qed.

Lemma dict_code_length i previous xs : length xs <= length (dict_code i previous xs).
Proof.
  revert i previous. induction xs as [|x xs IH]; intros i previous; [done|]. cbn [dict_code length]. specialize (IH (S i) x.1.1).
  unfold entry_code. rewrite !length_app. pose proof (put_varint_nonempty x.1.2). lia.
Qed.

Lemma form_written words s M before :
  form_ok words s M ->
  exists xs r, encode_form s before = Ok r /\ Forall (listed words s M) xs /\ bsorted (map term_of xs) /\
  match r with
  | None => (U32 <= Z.of_nat (length (dict_code 0 [] (map fst xs))) \/ U32 <= Z.of_nat (length (before ++ posting_code (map fst xs))))%Z
  | Some w => exists mine, wr_postings w = before ++ mine /\ wr_count w <= length (wr_dict w) /\
      forall after, let postings := wr_postings w ++ after in (Z.of_nat (length postings) < U64)%Z ->
        check_dictionary (wr_count w) (wr_dict w) (wr_blocks w) (Z.of_nat (length postings)) = Ok tt /\
        forall t, match pls_get s t with
          | Ok (Some l) => exists bytes, image_postings (wr_count w) (wr_dict w) (wr_blocks w) postings t = Ok (Some (bytes, pl_count l)) /\
              for_each bytes (pl_count l) = pl_for_each l
          | Ok None => image_postings (wr_count w) (wr_dict w) (wr_blocks w) postings t = Ok None
          | _ => False
          end
  end.
Proof.
  intros Hok. destruct (sorted_terms_ok words s M) as (xs & Hst & Hs & Hx & Hall); [apply Hok|apply Hok|apply Hok|].
  assert (Hp : Forall packs xs) by (eapply Forall_impl; [exact Hx|]; intros x Hl; apply Hl).
  exists xs. rewrite (encode_form_ok s before xs Hp Hst). eexists. split; [done|]. split; [done|]. split; [done|]. destruct (blocks_fit _ _ _ _ _) eqn:Hfit.
  - exists (posting_code (map fst xs)). split; [done|]. cbn [wr_postings wr_count wr_dict wr_blocks].
    split; [rewrite <- (length_map fst xs); apply dict_code_length|].
    intros after. set (postings := (before ++ posting_code (map fst xs)) ++ after). intros Hsz.
    pose proof (written_form_holds words s M before xs after Hok Hx Hs Hfit Hsz) as Hh. fold postings in Hh.
    split; [by eapply check_dictionary_complete|]. intros t.
    pose proof (dh_terms _ _ _ _ _ Hh) as Hn. rewrite <- Hn in Hh |- *. pose proof (image_postings_ok _ _ _ _ Hh t) as Hq.
    unfold postings in Hq. rewrite <- app_assoc, answer_written in Hq. rewrite app_assoc in Hq. fold postings in Hq. rewrite Hq.
    destruct (Hall t) as [Ht|(Ht & _ & ->)].
    + apply list_elem_of_fmap in Ht as (x & -> & Hin). destruct (find_entry_In (map fst xs) (term_of x)) as (y & Hy & Hyt & ->).
      { exists x.1. split; [apply list_elem_of_fmap; by exists x|done]. }
      apply list_elem_of_fmap in Hy as (z & -> & Hz). rewrite Forall_forall in Hx. destruct (Hx z Hz) as ((_ & Hc & _) & Hg & _ & _ & Hf & _).
      rewrite <- Hyt, Hg. exists z.1.2. split; [by rewrite Hc|done].
    + rewrite find_entry_not_In; [done|]. by rewrite map_map.
  - destruct (Z.le_gt_cases U32 (Z.of_nat (length (dict_code 0 [] (map fst xs))))) as [|H1]; [by left|].
    destruct (Z.le_gt_cases U32 (Z.of_nat (length (before ++ posting_code (map fst xs))))) as [|H2]; [by right|].
    rewrite length_app in H2. rewrite blocks_fit_small in Hfit by lia. done.
Qed.

(** Ranking from a checkpoint is ranking from the store that wrote it, one posting form at a
    time.  The dictionary written for an index, after the posting bytes [before] and followed by
    [after], passes the check of opening, and every term is answered as the live index answers
    it: with a list that decodes to the same slots and frequencies, or with none.  Nothing is
    written only when the dictionary or the posting bytes reach 2^32 bytes. *)
Theorem written_form_answers words s M before :
  form_ok words s M ->
  exists xs r, encode_form s before = Ok r /\ Forall (listed words s M) xs /\
  match r with
  | None => (U32 <= Z.of_nat (length (dict_code 0 [] (map fst xs))) \/ U32 <= Z.of_nat (length (before ++ posting_code (map fst xs))))%Z
  | Some w => exists mine, wr_postings w = before ++ mine /\
      forall after, let postings := wr_postings w ++ after in (Z.of_nat (length postings) < U64)%Z ->
        check_dictionary (wr_count w) (wr_dict w) (wr_blocks w) (Z.of_nat (length postings)) = Ok tt /\
        forall t, match pls_get s t with
          | Ok (Some l) => exists bytes, image_postings (wr_count w) (wr_dict w) (wr_blocks w) postings t = Ok (Some (bytes, pl_count l)) /\
              for_each bytes (pl_count l) = pl_for_each l
          | Ok None => image_postings (wr_count w) (wr_dict w) (wr_blocks w) postings t = Ok None
          | _ => False
          end
  end.
Proof.
  intros Hok. destruct (form_written words s M before Hok) as (xs & r & Hr & Hx & _ & H). exists xs, r. split_and!; [done|done|].
  destruct r as [w|]; [|done]. destruct H as (mine & Hw & _ & H). by exists mine.
Qed.

(** ** An index of one term *)

Definition toy_term : list Z := [97; 98]%Z.
Definition toy_form : PostingLists TermDictionary :=
  match insert_with_ordinal pls_default toy_term 0 2 0 [4%Z] with Ok s => s | _ => pls_default end.
Definition toy_form_map : index_map := index_put ∅ toy_term 0 (2, 0)%Z.

Lemma toy_form_ok : form_ok (set_term (fun _ _ => 0%Z) toy_term (words_at [4%Z])) toy_form toy_form_map.
Proof.
  destruct (insert_with_ordinal_ok (fun _ _ => 0%Z) pls_default ∅ toy_term 0 2 0 [4%Z]) as (s' & Hs & Hr).
  - apply represents_default.
  - intros k. unfold words_at. destruct (Z.to_nat k) as [|n]; vm_compute; (split; [discriminate|reflexivity]).
  - intros k v Hk. change (at_term ∅ toy_term) with (∅ : slot_map) in Hk. by rewrite lookup_empty in Hk.
  - vm_compute. repeat split; discriminate || reflexivity.
  - reflexivity.
  - vm_compute. reflexivity.
  - vm_compute. reflexivity.
  - vm_compute. reflexivity.
  - assert (toy_form = s') as -> by (unfold toy_form; by rewrite Hs). split.
    + exact Hr.
    + vm_compute. reflexivity.
    + intros t [sm Ht]. unfold toy_form_map, index_put in Ht. apply lookup_insert_Some in Ht as [[<- _]|[_ Ht]]; [|by rewrite lookup_empty in Ht].
      split; vm_compute; reflexivity.
    + intros t sm slot Ht [v Hv]. unfold toy_form_map, index_put in Ht. apply lookup_insert_Some in Ht as [[_ <-]|[_ Ht]]; [|by rewrite lookup_empty in Ht].
      change (at_term ∅ toy_term) with (∅ : slot_map) in Hv. apply lookup_insert_Some in Hv as [[<- _]|[_ Hv]]; [vm_compute; reflexivity|by rewrite lookup_empty in Hv].
Qed.

Lemma written_form_answers_witness :
  exists w, encode_form toy_form [7%Z] = Ok (Some w) /\
    check_dictionary (wr_count w) (wr_dict w) (wr_blocks w) (Z.of_nat (length (wr_postings w ++ []))) = Ok tt.
Proof.
  destruct (written_form_answers _ _ _ [7%Z] toy_form_ok) as (xs & r & Hr & _ & H). destruct r as [w|]; [|vm_compute in Hr; discriminate Hr].
  exists w. split; [exact Hr|]. destruct H as (mine & Hw & H). apply (H []). vm_compute in Hr. injection Hr as <-. vm_compute. reflexivity.
Defined.
