(* ===== verification/Image.v ===== *)
(** * The checkpoint file

    [ServingImage] of [src/core/documents/image.rs]: the header and its sections, the checks of
    opening, and what is read afterwards: document ids and their order, slots, records.  The two
    term dictionaries are in [ImageDict]. *)

From S2P Require Import Prelude Words BitPack Search Positions Terms FrameDict TextSegment Binary TermDict Postings Cursor PostingEdit PostingRuns CheckpointLists Lists ImageDict.

(** ** Layout *)

(** ["HMSCKP\x00\x01"]. *)
Definition IMAGE_MAGIC : list Z := [72; 77; 83; 67; 75; 80; 0; 1]%Z.
Definition HEADER_WORDS : nat := 40.
Definition IMAGE_HEADER_LEN : nat := 8 + 8 * HEADER_WORDS.

Definition H_CRC : nat := 0.
Definition H_GENERATION : nat := 1.
Definition H_DIMENSIONS : nat := 2.
Definition H_SLOTS : nat := 8.
Definition H_CHUNKS : nat := 9.
Definition H_WORDS : nat := 10.
Definition H_DOCS : nat := 11.
Definition H_TERMS : nat := 12.
Definition H_SECTIONS : nat := 14.

Inductive ImageSection : Type := Dict0 | Blocks0 | Dict1 | Blocks1 | Postings_ | Slots | IdOffsets | Ids | DocOffsets | Docs.

(** [section as usize]. *)
Definition section_index (s : ImageSection) : nat :=
  match s with Dict0 => 0 | Blocks0 => 1 | Dict1 => 2 | Blocks1 => 3 | Postings_ => 4 | Slots => 5 | IdOffsets => 6 | Ids => 7 | DocOffsets => 8 | Docs => 9 end.
Definition SECTIONS : nat := 10.

Definition SLOT_BYTES : nat := 12.
Definition FREE : Z := U32 - 1.
Definition TEXT_NONE : Z := 0.
Definition TEXT_INLINE : Z := 2.
Definition OWN_ID : Z := 1.
Definition STEMMED : Z := 2.
Definition CRC_START : nat := 16.

Definition word (bytes : list Z) (index : nat) : outcome Z :=
  let at_ := 8 + 8 * index in
  let* w := slice bytes at_ (at_ + 8) in Ok (from_le_bytes w).

(** [binding] and [recorded_crc]; [as u32]. *)
Definition binding (header : list Z) : outcome (Z * Z) :=
  let* g := word header H_GENERATION in let* d := word header H_DIMENSIONS in Ok (wrap U32 g, d).
Definition recorded_crc (header : list Z) : outcome Z := let* w := word header H_CRC in Ok (wrap U32 w).

(** ** Opening *)

(** [Dictionary]: the ranges of its sections and its number of terms. *)
Record Dictionary := mkDictionary { di_dict : nat * nat; di_blocks : nat * nat; di_terms : nat }.

Record ServingImage := mkImage {
  im_bytes : list Z; im_slots : Z; im_chunks : Z; im_words : Z; im_docs : Z; im_dimensions : Z;
  im_dictionaries : Dictionary * Dictionary; im_sections : list (nat * nat) }.

(** The loop over the sections; [end_] is where the next one has to start. *)
Fixpoint read_sections (bytes : list Z) (i n : nat) (end_ : Z) : outcome (list (nat * nat) * Z) :=
  match n with
  | O => Ok ([], end_)
  | S n =>
      let* at_ := word bytes (H_SECTIONS + 2 * i) in
      let* len := word bytes (H_SECTIONS + 2 * i + 1) in
      ensure ((at_ =? end_)%Z && match checked_add USIZE at_ len with Some e => (e <=? Z.of_nat (length bytes))%Z | None => false end)
        else "checkpoint section out of range" ;
      let* (rest, end_) := read_sections bytes (S i) n (at_ + len) in
      Ok ((Z.to_nat at_, Z.to_nat len) :: rest, end_)
  end.

Definition section (im : ServingImage) (s : ImageSection) : outcome (list Z) :=
  let* (at_, len) := expect (im_sections im !! section_index s) in
  slice (im_bytes im) at_ (at_ + len).

(** The offsets [offsets[i..]] ascend from [previous] and end inside [size]. *)
Fixpoint check_offsets (offsets : list Z) (size : Z) (n i : nat) (previous : Z) : outcome Z :=
  match n with
  | O => Ok previous
  | S n =>
      let* at_ := u32_at offsets (4 * i) in
      ensure ((previous <=? at_)%Z && (at_ <=? size)%Z && ((0 <? i) || (at_ =? 0)%Z)) else "checkpoint document offsets" ;
      check_offsets offsets size n (S i) at_
  end.

Definition check_table (im : ServingImage) (offsets data : ImageSection) : outcome unit :=
  let* offsets := section im offsets in
  let* data := section im data in
  ensure (match checked_add USIZE (im_docs im) 1 with
          | Some entries => match checked_mul USIZE entries 4 with Some n => (n =? Z.of_nat (length offsets))%Z | None => false end
          | None => false end) else "checkpoint document table size" ;
  let* previous := check_offsets offsets (Z.of_nat (length data)) (Z.to_nat (im_docs im) + 1) 0 0 in
  ensure (previous =? Z.of_nat (length data))%Z else "checkpoint document offsets" ; Ok tt.

Definition span (im : ServingImage) (offsets : ImageSection) (i : nat) : outcome (nat * nat) :=
  let* table := section im offsets in
  let* a := u32_at table (4 * i) in
  let* b := u32_at table (4 * i + 4) in Ok (Z.to_nat a, Z.to_nat b).

(** [id.is_empty()], [id.len() <= u16::MAX], [id.contains('\0')]. *)
Definition id_allowed (id : list Z) : bool :=
  negb (bool_decide (id = [])) && (Z.of_nat (length id) <? U16)%Z && negb (bool_decide (0%Z ∈ id)).

Fixpoint check_ids (im : ServingImage) (ids : list Z) (n i : nat) (previous : option (list Z)) : outcome unit :=
  match n with
  | O => Ok tt
  | S n =>
      let* (start, end_) := span im IdOffsets i in
      ensure (is_char_boundary ids start && is_char_boundary ids end_) else "checkpoint id boundary" ;
      let* id := slice ids start end_ in
      ensure (match previous with None => true | Some p => bool_decide (blt p id) end) else "checkpoint ids out of order" ;
      ensure (id_allowed id) else "checkpoint document id" ;
      check_ids im ids n (S i) (Some id)
  end.

Definition check_documents (im : ServingImage) : outcome unit :=
  let* _ := check_table im IdOffsets Ids in
  let* _ := check_table im DocOffsets Docs in
  let* ids := section im Ids in
  ensure (utf8_valid ids) else "checkpoint ids" ;
  check_ids im ids (Z.to_nat (im_docs im)) 0 None.

Fixpoint count_used (table : list Z) (docs : Z) (n slot : nat) (used : Z) : outcome Z :=
  match n with
  | O => Ok used
  | S n =>
      let* ordinal := u32_at table (slot * SLOT_BYTES + 4) in
      ensure ((ordinal =? FREE)%Z || (ordinal <? docs)%Z) else "checkpoint slot owner" ;
      count_used table docs n (S slot) (used + if (ordinal =? FREE)%Z then 0 else 1)
  end.

Definition check_slots (im : ServingImage) : outcome unit :=
  let* table := section im Slots in
  ensure (match checked_mul USIZE (im_slots im) (Z.of_nat SLOT_BYTES) with Some n => (n =? Z.of_nat (length table))%Z | None => false end)
    else "checkpoint slot table size" ;
  let* used := count_used table (im_docs im) (Z.to_nat (im_slots im)) 0 0 in
  ensure ((used =? im_chunks im)%Z && (im_chunks im <=? im_slots im)%Z) else "checkpoint chunk count" ; Ok tt.

(** [check_dictionary]; the second form's sections are [Dict1] and [Blocks1]. *)
Definition image_dictionary (im : ServingImage) (form : bool) : outcome Dictionary :=
  let ds := if form then Dict1 else Dict0 in
  let bs := if form then Blocks1 else Blocks0 in
  let* terms := word (im_bytes im) (H_TERMS + if form then 1 else 0) in
  let* dict := section im ds in
  let* blocks := section im bs in
  let* postings := section im Postings_ in
  let* _ := check_dictionary (Z.to_nat terms) dict blocks (Z.of_nat (length postings)) in
  let* d := expect (im_sections im !! section_index ds) in
  let* b := expect (im_sections im !! section_index bs) in
  Ok {| di_dict := d; di_blocks := b; di_terms := Z.to_nat terms |}.

Definition no_dictionary : Dictionary := {| di_dict := (0, 0); di_blocks := (0, 0); di_terms := 0 |}.

Definition image_new (bytes : list Z) : outcome ServingImage :=
  ensure ((IMAGE_HEADER_LEN <=? length bytes) && bool_decide (take 8 bytes = IMAGE_MAGIC)) else "not a document checkpoint of this version" ;
  let* (sections, end_) := read_sections bytes 0 SECTIONS (Z.of_nat IMAGE_HEADER_LEN) in
  ensure (end_ =? Z.of_nat (length bytes))%Z else "checkpoint has trailing bytes" ;
  let* slots := word bytes H_SLOTS in
  let* chunks := word bytes H_CHUNKS in
  let* words := word bytes H_WORDS in
  let* docs := word bytes H_DOCS in
  let* dimensions := word bytes H_DIMENSIONS in
  let im := {| im_bytes := bytes; im_slots := slots; im_chunks := chunks; im_words := words; im_docs := docs;
               im_dimensions := dimensions; im_dictionaries := (no_dictionary, no_dictionary); im_sections := sections |} in
  let* _ := check_documents im in
  let* _ := check_slots im in
  let* zero := image_dictionary im false in
  let* one := image_dictionary im true in
  Ok {| im_bytes := bytes; im_slots := slots; im_chunks := chunks; im_words := words; im_docs := docs;
        im_dimensions := dimensions; im_dictionaries := (zero, one); im_sections := sections |}.

(** ** Reading an open checkpoint *)

Definition image_id (im : ServingImage) (ordinal : nat) : outcome (list Z) :=
  let* (start, end_) := span im IdOffsets ordinal in
  let* ids := section im Ids in
  let* id := slice ids start end_ in
  if utf8_valid id then Ok id else Panic.

(** [while lo < hi] of [lower_bound]. *)
Fixpoint lower_bound_loop (im : ServingImage) (fuel : nat) (id : list Z) (lo hi : nat) : outcome nat :=
  if lo <? hi then
    match fuel with
    | O => Panic
    | S fuel =>
        let mid := lo + (hi - lo) / 2 in
        let* t := image_id im mid in
        if bool_decide (blt t id) then lower_bound_loop im fuel id (mid + 1) hi else lower_bound_loop im fuel id lo mid
    end
  else Ok lo.

Definition lower_bound (im : ServingImage) (id : list Z) : outcome nat :=
  lower_bound_loop im (Z.to_nat (im_docs im)) id 0 (Z.to_nat (im_docs im)).

Definition ordinal (im : ServingImage) (id : list Z) : outcome (option nat) :=
  let* at_ := lower_bound im id in
  if at_ <? Z.to_nat (im_docs im) then
    let* t := image_id im at_ in Ok (if bool_decide (t = id) then Some at_ else None)
  else Ok None.

(** Word count, document ordinal and chunk index of a slot. *)
Definition image_slot (im : ServingImage) (slot : nat) : outcome (Z * Z * Z) :=
  let* table := section im Slots in
  let at_ := slot * SLOT_BYTES in
  let* words := u32_at table at_ in
  let* ordinal := u32_at table (at_ + 4) in
  let* index := u32_at table (at_ + 8) in Ok (words, ordinal, index).

Definition image_slot_owner (im : ServingImage) (slot : nat) : outcome (option nat) :=
  let* (_, ordinal, _) := image_slot im slot in
  Ok (if (ordinal =? FREE)%Z then None else Some (Z.to_nat ordinal)).

(** [slot_order]: the id and chunk index ranking ties are broken by. *)
Definition image_slot_order (im : ServingImage) (slot : nat) : outcome (list Z * Z) :=
  let* (_, ordinal, index) := image_slot im slot in
  if (ordinal =? FREE)%Z then Ok ([], index)
  else let* id := image_id im (Z.to_nat ordinal) in Ok (id, index).

(** [postings] of a form; the sections are read by the ranges recorded at opening. *)
Definition image_list (im : ServingImage) (form : bool) (term : list Z) : outcome (option (list Z * Z)) :=
  let d := if form then (im_dictionaries im).2 else (im_dictionaries im).1 in
  if Nat.eqb (di_terms d) 0 then Ok None
  else
    let* dict := slice (im_bytes im) (di_dict d).1 ((di_dict d).1 + (di_dict d).2) in
    let* blocks := slice (im_bytes im) (di_blocks d).1 ((di_blocks d).1 + (di_blocks d).2) in
    let* postings := section im Postings_ in
    image_postings (di_terms d) dict blocks postings term.

(** *** Records *)

Section Records.
Context {V : Type} (from_slice : list Z -> outcome V) (is_object : V -> bool).

Record RecordChunk := mkRecordChunk {
  rc_id : option (list Z); rc_stemmed : bool; rc_start : Z; rc_end : Z; rc_text : option (list Z) }.

Record ImageRecord := mkRecord {
  re_version : list Z; re_source : option (list Z); re_metadata : V; re_chunks : list RecordChunk }.

Definition record_chunk (_ : unit) : read (RecordChunk * unit) :=
  flags <- rbyte ;
  check (Z.land flags (Z.lxor 255 (Z.lor OWN_ID STEMMED)) =? 0)%Z else "checkpoint chunk flags" ;
  id <- read_option (has flags OWN_ID) rstr ;
  check (match id with None => true | Some id => id_allowed id end) else "checkpoint chunk id" ;
  start_byte <- number U32 ;
  end_byte <- number U32 ;
  check ((start_byte <? end_byte)%Z && (end_byte <=? MAX_DOCUMENT_BYTES)%Z) else "checkpoint chunk byte span" ;
  kind <- rbyte ;
  text <- (if (kind =? TEXT_NONE)%Z then rret None
           else if (kind =? TEXT_INLINE)%Z then (t <- rstr ; rret (Some t))
           else rfail "checkpoint text kind") ;
  check (match text with None => true | Some t => (Z.of_nat (length t) =? end_byte - start_byte)%Z end) else "checkpoint chunk text length" ;
  rret ({| rc_id := id; rc_stemmed := has flags STEMMED; rc_start := start_byte; rc_end := end_byte; rc_text := text |}, tt).

Definition record_source : read (option (list Z)) :=
  flag <- rbyte ;
  if (flag =? 0)%Z then rret None
  else if (flag =? 1)%Z then (uri <- rstr ; rret (Some uri))
  else rfail "checkpoint source flag".

(** The reads of [record], to the end of its bytes. *)
Definition read_record : read ImageRecord :=
  version <- rstr ;
  check ((1 <=? length version) && (length version <=? 1024)) else "checkpoint version length" ;
  source <- record_source ;
  check (match source with None => true | Some uri => Z.of_nat (length uri) <=? 8192 end)%Z else "checkpoint source URI length" ;
  bytes <- rbytes ;
  check (Z.of_nat (length bytes) <=? 64 * 1024)%Z else "checkpoint metadata exceeds 64 KiB" ;
  metadata <- rlift (from_slice bytes) ;
  check (is_object metadata) else "checkpoint metadata must be an object" ;
  n <- count 4 ;
  check ((1 <=? Z.of_nat n) && (Z.of_nat n <=? 4096))%Z else "checkpoint document chunk count" ;
  chunks <- rrepeat n record_chunk tt ;
  (fun r => if is_empty r then Ok ({| re_version := version; re_source := source; re_metadata := metadata; re_chunks := chunks |}, r)
            else Err "checkpoint record has trailing bytes").

Definition image_record (im : ServingImage) (ordinal : nat) : outcome ImageRecord :=
  let* (start, end_) := span im DocOffsets ordinal in
  let* docs := section im Docs in
  let* bytes := slice docs start end_ in
  let* (record, _) := read_record (reader_new bytes) in Ok record.

(** [stored_chunk]: a lexical-only chunk as the live store holds it. *)
Definition stored_chunk (im : ServingImage) (document : list Z) (index : nat) (chunk : RecordChunk) (text : option (list Z))
    (terms : StoredTerms) (word_count : Z) : outcome StoredChunk :=
  let* id := match rc_id chunk with Some id => Ok id | None => chunk_id document (Z.of_nat index) end in
  Ok {| c_id := id; c_text := text; c_text_at := None; c_start_byte := rc_start chunk; c_end_byte := rc_end chunk;
        c_vector := {| hv_dim := im_dimensions im; hv_indices := [] |}; c_embedding := None; c_terms := terms;
        c_word_count := word_count; c_stemmed := rc_stemmed chunk; c_vector_state := Lexical |}.

Fixpoint result_chunks (im : ServingImage) (id : list Z) (index : nat) (words : Z) (i : nat) (chunks : list RecordChunk) : outcome (list StoredChunk) :=
  match chunks with
  | [] => Ok []
  | c :: rest =>
      let mine := Nat.eqb i index in
      let* x := stored_chunk im id i c (if mine then rc_text c else None) {| t_terms := None; t_positions := None |} (if mine then words else 0%Z) in
      let* xs := result_chunks im id index words (S i) rest in Ok (x :: xs)
  end.

(** [chunk]: the document and chunk index in a slot, with only that chunk's text. *)
Definition image_chunk (im : ServingImage) (slot : nat) : outcome (StoredDocument V * nat) :=
  let* (words, ordinal, index) := image_slot im slot in
  ensure negb (ordinal =? FREE)%Z else "checkpoint slot is free" ;
  let* id := image_id im (Z.to_nat ordinal) in
  let* record := image_record im (Z.to_nat ordinal) in
  ensure (index <? Z.of_nat (length (re_chunks record)))%Z else "checkpoint chunk index" ;
  let* chunks := result_chunks im id (Z.to_nat index) words 0 (re_chunks record) in
  Ok ({| doc_id := id; doc_source_uri := re_source record; doc_version := re_version record;
         doc_metadata := re_metadata record; doc_chunks := chunks |}, Z.to_nat index).

(** *** What a listing shows of a document *)

Record DocumentInfo := mkInfo { in_id : list Z; in_source_uri : option (list Z); in_version : list Z; in_metadata : V; in_chunk_count : nat }.

Record DocumentChunkRecord := mkChunkRecord {
  dc_revision : list Z; dc_document : DocumentInfo; dc_index : nat; dc_id : list Z; dc_start_byte : Z; dc_end_byte : Z; dc_text : option (list Z) }.

(** [info] of a stored document. *)
Definition info (d : StoredDocument V) : DocumentInfo :=
  {| in_id := doc_id d; in_source_uri := doc_source_uri d; in_version := doc_version d; in_metadata := doc_metadata d;
     in_chunk_count := length (doc_chunks d) |}.

Definition image_info (im : ServingImage) (ordinal : nat) (record : ImageRecord) : outcome DocumentInfo :=
  let* id := image_id im ordinal in
  Ok {| in_id := id; in_source_uri := re_source record; in_version := re_version record; in_metadata := re_metadata record;
        in_chunk_count := length (re_chunks record) |}.

Definition image_document_info (im : ServingImage) (ordinal : nat) : outcome DocumentInfo :=
  let* record := image_record im ordinal in image_info im ordinal record.

(** [document_chunk]; [revision] is shown in decimal. *)
Definition image_document_chunk (im : ServingImage) (ordinal index : nat) (revision : Z) : outcome (option DocumentChunkRecord) :=
  let* record := image_record im ordinal in
  match re_chunks record !! index with
  | None => Ok None
  | Some chunk =>
      ensure (match rc_text chunk with None => true | Some t => Z.of_nat (length t) <=? MAX_DOCUMENT_BYTES end)%Z else "stored chunk exceeds read limit" ;
      let* id := match rc_id chunk with
                 | Some id => Ok id
                 | None => let* document := image_id im ordinal in chunk_id document (Z.of_nat index)
                 end in
      let* shown := decimal revision in
      let* info := image_info im ordinal record in
      Ok (Some {| dc_revision := shown; dc_document := info; dc_index := index; dc_id := id; dc_start_byte := rc_start chunk;
                  dc_end_byte := rc_end chunk; dc_text := rc_text chunk |})
  end.
End Records.
