(* ===== verification/ImageOpen.v ===== *)
(** * Opening a checkpoint

    Whatever the bytes of a checkpoint file, when [ServingImage::new] accepts them, the reads that
    follow do not panic: document ids, the search for one, slots, both term dictionaries, records. *)

From S2P Require Import Prelude Words BitPack Search Positions Terms FrameDict TextSegment Binary TermDict Postings Cursor PostingEdit PostingRuns CheckpointLists Lists Journal Hostile ImageDict Image.

(** ** Cutting UTF-8 at character boundaries *)

Definition at_boundary (l : list Z) : Prop := match l with [] => True | b :: _ => cont b = false end.

Lemma within_cont lo hi b : (0x80 <= lo)%Z -> (hi <= 0xBF)%Z -> within lo hi b = true -> cont b = true.
Proof. intros H1 H2 H. unfold within, cont in *. bool_to_prop. apply andb_true_iff. split; apply Z.leb_le; lia. Qed.

Lemma utf8_split a b : utf8_valid (a ++ b) = true -> at_boundary b -> utf8_valid a = true /\ utf8_valid b = true.
Proof.
  intros H Hb. remember (length a) as n eqn:Hn. assert (Hle : length a <= n) by lia. clear Hn. revert a Hle H.
  induction n as [|n IH]; intros a Hle H; [destruct a; [done|simpl in Hle; lia]|].
  assert (Hhead : forall c r, b = c :: r -> cont c = true -> False) by (intros c r -> Hc; simpl in Hb; congruence).
  destruct a as [|x a]; [done|]. cbn [app utf8_valid length] in *. fold utf8_valid in *.
  destruct (within 0 _ x); [apply IH; [lia|done]|].
  destruct a as [|y a]; cbn [app length] in *.
  { exfalso. destruct b as [|c r]; [done|]. apply (Hhead c r eq_refl). destruct (within _ _ x); [by apply andb_true_iff in H as [? _]|].
    destruct r as [|d r]; [done|]. match goal with H : context [if ?e then _ else _] |- _ => destruct e eqn:E in H end.
    - rewrite !orb_true_iff, !andb_true_iff in E. destruct E as [[[[_ E]|[_ E]]|[_ E]]|[_ E]]; try done; (eapply within_cont; [| |exact E]; lia).
    - destruct r as [|e r]; [done|]. rewrite !andb_true_iff, !orb_true_iff, !andb_true_iff in H. destruct H as [[[[[[_ E1]|[_ E1]]|[_ E1]] _] _] _]; try done; (eapply within_cont; [| |exact E1]; lia). }
  destruct (within _ _ x); [apply andb_true_iff in H as [-> H]; by apply IH; [lia|]|].
  destruct a as [|z a]; cbn [app length] in *.
  { exfalso. destruct b as [|c r]; [done|]. apply (Hhead c r eq_refl). match goal with H : context [if ?e then _ else _] |- _ => destruct e eqn:E in H end.
    - by apply andb_true_iff in H as [? _].
    - destruct r as [|e r]; [done|]. rewrite !andb_true_iff in H. by destruct H as [[[_ ?] _] _]. }
  match goal with |- context [if ?c then _ else _] => destruct c end; [apply andb_true_iff in H as [-> H]; by apply IH; [lia|]|].
  destruct a as [|w a]; cbn [app length] in *.
  { exfalso. destruct b as [|c r]; [done|]. apply (Hhead c r eq_refl). rewrite !andb_true_iff in H. by destruct H as [[_ ?] _]. }
  apply andb_true_iff in H as [-> H]. apply IH; [lia|done].
Qed.

Lemma boundary_drop l i : i <> 0 -> is_char_boundary l i = true -> i <= length l -> at_boundary (drop i l).
Proof.
  intros Hi Hb Hle. unfold is_char_boundary in Hb. destruct (Nat.eqb_spec i 0); [done|]. destruct (l !! i) as [b|] eqn:E.
  - rewrite (drop_S _ _ _ E). simpl. by apply negb_true_iff in Hb.
  - apply lookup_ge_None in E. by rewrite drop_ge.
Qed.

Lemma utf8_slice l a b :
  utf8_valid l = true -> is_char_boundary l a = true -> is_char_boundary l b = true -> a <= b -> b <= length l ->
  utf8_valid (take (b - a) (drop a l)) = true.
Proof.
  intros Hl Ha Hb Hab Hbl. assert (Hd : utf8_valid (drop a l) = true).
  { destruct (decide (a = 0)) as [->|]; [done|]. rewrite <- (take_drop a l) in Hl. apply utf8_split in Hl; [by destruct Hl|]. apply boundary_drop; [done|done|lia]. }
  destruct (decide (a = b)) as [->|]; [by rewrite Nat.sub_diag|].
  rewrite <- (take_drop (b - a) (drop a l)) in Hd. apply utf8_split in Hd; [by destruct Hd|].
  rewrite drop_drop. replace (a + (b - a)) with b by lia. apply boundary_drop; [lia|done|done].
Qed.

(** ** What opening established *)

Lemma slice_word_bound bytes a n w :
  bytes_ok bytes -> slice bytes a (a + n) = Ok w -> (0 <= from_le_bytes w < 2 ^ (8 * Z.of_nat n))%Z.
Proof.
  intros Hb H. unfold slice in H. destruct (_ && _) eqn:E; [|done]. bool_to_prop. replace (a + n - a) with n in H by lia. injection H as <-.
  pose proof (from_le_bytes_bound (take n (drop a bytes))) as Hf. rewrite length_take, length_drop, Nat.min_l in Hf by lia.
  apply Hf. by apply Forall_take, Forall_drop.
Qed.

Lemma word_bound bytes i z : bytes_ok bytes -> word bytes i = Ok z -> is_u64 z.
Proof. intros Hb H. unfold word in H. apply obind_ok in H as (w & Hw & [= <-]). exact (slice_word_bound _ _ 8 _ Hb Hw). Qed.

Lemma read_sections_ok bytes i n end_ l e :
  read_sections bytes i n end_ = Ok (l, e) -> bytes_ok bytes ->
  length l = n /\ Forall (fun x => x.1 + x.2 <= length bytes) l.
Proof.
  intros H Hb. revert i end_ l e H. induction n as [|n IH]; intros i end_ l e H; [injection H as <- <-; split; [done|constructor]|].
  cbn [read_sections] in H. apply obind_ok in H as (at_ & Hat & H). apply obind_ok in H as (len & Hlen & H).
  destruct (_ && _) eqn:E; [|done]. apply obind_ok in H as ([rest e'] & Hr & H). injection H as <- <-. destruct (IH _ _ _ _ Hr) as [Hn Hf].
  apply word_bound in Hat, Hlen; [|done|done]. unfold is_u64 in *. bool_to_prop. unfold checked_add in *. destruct (_ <? USIZE)%Z; [|done]. bool_to_prop.
  split; [cbn; lia|]. constructor; [cbn [fst snd]; lia|done].
Qed.

Definition good_sections (im : ServingImage) : Prop :=
  length (im_sections im) = SECTIONS /\ Forall (fun x => x.1 + x.2 <= length (im_bytes im)) (im_sections im).

Lemma section_ok im s : good_sections im -> bytes_ok (im_bytes im) ->
  exists b a n, section im s = Ok b /\ bytes_ok b /\ im_sections im !! section_index s = Some (a, n) /\ slice (im_bytes im) a (a + n) = Ok b.
Proof.
  intros [Hl Hf] Hb. unfold section. destruct (lookup_lt_is_Some_2 (im_sections im) (section_index s)) as [[a n] Hx]; [rewrite Hl; destruct s; unfold SECTIONS; cbn; lia|].
  rewrite Hx. cbn [expect obind]. rewrite Forall_lookup in Hf. specialize (Hf _ _ Hx). cbn [fst snd] in Hf. rewrite slice_Ok by lia.
  do 3 eexists. split_and!; [done| |done|by rewrite slice_Ok by lia]. by apply Forall_take, Forall_drop.
Qed.

Lemma u32_at_Ok bytes at_ : at_ + 4 <= length bytes -> bytes_ok bytes -> exists z, u32_at bytes at_ = Ok z /\ is_u32 z.
Proof.
  intros H Hb. destruct (u32_at bytes at_) as [z| |] eqn:E; [exists z; split; [done|by eapply u32_at_bound]|..];
    (unfold u32_at in E; rewrite slice_Ok in E by lia; done).
Qed.

(** Offsets that passed the check. *)
Lemma check_offsets_ok offsets size n i previous last :
  bytes_ok offsets -> check_offsets offsets size n i previous = Ok last ->
  (previous <= last)%Z /\ ((previous <= size)%Z -> (last <= size)%Z) /\
  (forall j, j < n -> exists z, u32_at offsets (4 * (i + j)) = Ok z /\ (previous <= z <= last)%Z /\ (z <= size)%Z /\
     (S j < n -> exists z', u32_at offsets (4 * (i + j) + 4) = Ok z' /\ (z <= z')%Z /\ (z' <= size)%Z)).
Proof.
  intros Hb. revert i previous. induction n as [|n IH]; intros i previous H; [injection H as <-; split_and!; [lia|done|intros; lia]|].
  cbn [check_offsets] in H. apply obind_ok in H as (z & Hz & H). destruct (_ && _ && _) eqn:E; [|done]. bool_to_prop.
  destruct (IH _ _ H) as (I1 & I2 & I3). split_and!; [lia|by intros; apply I2|]. intros [|j] Hj.
  - rewrite Nat.add_0_r. exists z. split_and!; [done|lia|lia|done|]. intros Hn. destruct (I3 0 ltac:(lia)) as (z' & Hz' & Hr & Hs & _).
    exists z'. split_and!; [|lia|done]. rewrite <- Hz'. f_equal. lia.
  - destruct (I3 j ltac:(lia)) as (w & Hw & Hr & Hs & Hn). exists w. replace (i + S j) with (S i + j) by lia. split_and!; [done|lia|lia|done|].
    intros Hlt. apply Hn. lia.
Qed.

Lemma check_table_ok im os ds :
  good_sections im -> bytes_ok (im_bytes im) -> is_u64 (im_docs im) -> check_table im os ds = Ok tt ->
  exists data, section im ds = Ok data /\ forall i, i < Z.to_nat (im_docs im) -> exists a b, span im os i = Ok (a, b) /\ a <= b <= length data.
Proof.
  intros Hg Hb Hd H. unfold check_table in H. destruct (section_ok im os Hg Hb) as (offsets & _ & _ & Ho & Hob & _).
  destruct (section_ok im ds Hg Hb) as (data & _ & _ & Hda & _). rewrite Ho, Hda in H. cbn [obind] in H. match type of H with (if ?b then _ else _) = _ => destruct b; [|done] end.
  apply obind_ok in H as (last & Hc & H). exists data. split; [done|]. intros i Hi.
  destruct (check_offsets_ok _ _ _ _ _ _ Hob Hc) as (_ & _ & Hall). destruct (Hall i ltac:(lia)) as (z & Hz & Hr & Hs & Hn).
  destruct (Hn ltac:(lia)) as (z' & Hz' & Hle & Hs'). unfold span. rewrite Ho. cbn [obind]. cbn [Nat.add] in Hz, Hz'. rewrite Hz. cbn [obind]. rewrite Hz'. cbn [obind].
  do 2 eexists. split; [done|]. lia.
Qed.

(** Ids that passed the check. *)
Lemma check_ids_ok im ids n i previous :
  check_ids im ids n i previous = Ok tt ->
  exists l, length l = n /\ bsorted l /\ (forall p, previous = Some p -> Forall (blt p) l) /\
    forall j id, l !! j = Some id -> id_allowed id = true /\
      exists a b, span im IdOffsets (i + j) = Ok (a, b) /\ slice ids a b = Ok id /\ is_char_boundary ids a = true /\ is_char_boundary ids b = true.
Proof.
  revert i previous. induction n as [|n IH]; intros i previous H; [by exists []; split_and!; [|constructor|constructor|]|].
  cbn [check_ids] in H. apply obind_ok in H as ([a b] & Hs & H). destruct (_ && _) eqn:Eb; [|done]. bool_to_prop. apply obind_ok in H as (id & Hid & H).
  match type of H with (if ?b then _ else _) = _ => destruct b eqn:Ep; [|done] end. destruct (id_allowed id) eqn:Ea; [|done]. destruct (IH _ _ H) as (l & Hl & Hsort & Hprev & Hall).
  exists (id :: l). specialize (Hprev id eq_refl). split_and!; [cbn; lia|by constructor| |].
  - intros p ->. bool_to_prop. constructor; [done|]. eapply Forall_impl; [exact Hprev|]. intros x Hx. by etrans.
  - intros [|j] id' Hj; [injection Hj as <-; rewrite Nat.add_0_r; split; [done|]; by exists a, b|].
    simpl in Hj. replace (i + S j) with (S i + j) by lia. by apply Hall.
Qed.

Lemma count_used_ok table docs n slot used r :
  count_used table docs n slot used = Ok r ->
  forall j, j < n -> exists o, u32_at table ((slot + j) * SLOT_BYTES + 4) = Ok o /\ (o = FREE \/ (o < docs)%Z).
Proof.
  revert slot used. induction n as [|n IH]; intros slot used H j Hj; [lia|]. cbn [count_used] in H. apply obind_ok in H as (o & Ho & H).
  destruct (_ || _) eqn:E; [|done]. destruct j as [|j].
  - rewrite Nat.add_0_r. exists o. split; [done|]. apply orb_true_iff in E as [E|E]; bool_to_prop; auto.
  - replace (slot + S j) with (S slot + j) by lia. apply (IH _ _ H). lia.
Qed.


(** A form's dictionary holds entries over the posting section. *)
Definition form_opened (im : ServingImage) (form : bool) : Prop :=
  let d := if form then (im_dictionaries im).2 else (im_dictionaries im).1 in
  exists dict blocks postings es,
    slice (im_bytes im) (di_dict d).1 ((di_dict d).1 + (di_dict d).2) = Ok dict /\
    slice (im_bytes im) (di_blocks d).1 ((di_blocks d).1 + (di_blocks d).2) = Ok blocks /\
    section im Postings_ = Ok postings /\ dict_holds (di_terms d) dict blocks (Z.of_nat (length postings)) es.

(** The facts the reads rely on; [ids] are the documents in order. *)
Record opened (im : ServingImage) (ids : list (list Z)) : Prop := {
  op_bytes : bytes_ok (im_bytes im);
  op_sections : good_sections im;
  op_docs : im_docs im = Z.of_nat (length ids);
  op_sorted : bsorted ids;
  op_ids : forall i id, ids !! i = Some id -> image_id im i = Ok id /\ id_allowed id = true;
  op_spans : forall i, i < length ids -> exists a b docs, span im DocOffsets i = Ok (a, b) /\ section im Docs = Ok docs /\ a <= b <= length docs;
  op_slots : forall slot, slot < Z.to_nat (im_slots im) -> exists w o c, image_slot im slot = Ok (w, o, c) /\ is_u32 w /\ is_u32 c /\
    (o = FREE \/ (0 <= o < Z.of_nat (length ids))%Z);
  op_forms : forall form, form_opened im form }.

Lemma image_dictionary_ok im form d :
  good_sections im -> bytes_ok (im_bytes im) -> image_dictionary im form = Ok d ->
  exists dict blocks postings es,
    slice (im_bytes im) (di_dict d).1 ((di_dict d).1 + (di_dict d).2) = Ok dict /\
    slice (im_bytes im) (di_blocks d).1 ((di_blocks d).1 + (di_blocks d).2) = Ok blocks /\
    section im Postings_ = Ok postings /\ dict_holds (di_terms d) dict blocks (Z.of_nat (length postings)) es.
Proof.
  intros Hg Hb H. unfold image_dictionary in H. apply obind_ok in H as (terms & Hw & H).
  destruct (section_ok im (if form then Dict1 else Dict0) Hg Hb) as (dict & a1 & n1 & Hd & Hdb & Hs1 & Hl1).
  destruct (section_ok im (if form then Blocks1 else Blocks0) Hg Hb) as (blocks & a2 & n2 & Hbl & Hbb & Hs2 & Hl2).
  destruct (section_ok im Postings_ Hg Hb) as (postings & a3 & n3 & Hp & _). rewrite Hd, Hbl, Hp in H. cbn [obind] in H.
  apply obind_ok in H as ([] & Hc & H). rewrite Hs1, Hs2 in H. cbn [expect obind] in H. injection H as <-. cbn [di_dict di_blocks di_terms fst snd].
  destruct (check_dictionary_sound _ _ _ _ Hbb Hc) as [es Hes]. by exists dict, blocks, postings, es.
Qed.

Lemma slot_read im table slot :
  section im Slots = Ok table -> bytes_ok table -> (slot + 1) * SLOT_BYTES <= length table ->
  exists w o c, image_slot im slot = Ok (w, o, c) /\ is_u32 w /\ is_u32 o /\ is_u32 c /\ u32_at table (slot * SLOT_BYTES + 4) = Ok o.
Proof.
  intros Ht Hb Hl. unfold SLOT_BYTES in *. unfold image_slot. rewrite Ht. cbn [obind]. unfold SLOT_BYTES.
  destruct (u32_at_Ok table (slot * 12)) as (w & -> & Hw); [lia|done|]. destruct (u32_at_Ok table (slot * 12 + 4)) as (o & Ho & Hou); [lia|done|].
  destruct (u32_at_Ok table (slot * 12 + 8)) as (c & Hc & Hcu); [lia|done|]. rewrite Ho, Hc. cbn [obind]. by exists w, o, c.
Qed.

Lemma check_slots_ok im slot :
  good_sections im -> bytes_ok (im_bytes im) -> is_u64 (im_slots im) -> check_slots im = Ok tt -> slot < Z.to_nat (im_slots im) ->
  exists w o c, image_slot im slot = Ok (w, o, c) /\ is_u32 w /\ is_u32 c /\ (o = FREE \/ (0 <= o < im_docs im)%Z).
Proof.
  intros Hg Hb Hu H Hs. unfold check_slots in H. destruct (section_ok im Slots Hg Hb) as (table & _ & _ & Ht & Htb & _). rewrite Ht in H. cbn [obind] in H.
  match type of H with (if ?b then _ else _) = _ => destruct b eqn:E; [|done] end. unfold checked_mul in E. destruct (_ <? USIZE)%Z; [|done]. bool_to_prop.
  apply obind_ok in H as (used & Hc & H). destruct (slot_read im table slot Ht Htb) as (w & o & c & Hr & Hw & Ho & Hcu & Hat).
  { unfold SLOT_BYTES, is_u64 in *. lia. }
  destruct (count_used_ok _ _ _ _ _ _ Hc slot Hs) as (o' & Ho' & Hcase). rewrite Nat.add_0_l in Ho'. rewrite Hat in Ho'. injection Ho' as <-.
  exists w, o, c. split_and!; try done. destruct Hcase as [|]; [by left|right]. unfold is_u32 in Ho. lia.
Qed.

Lemma image_new_opened bytes im : bytes_ok bytes -> image_new bytes = Ok im -> exists ids, opened im ids /\ im_bytes im = bytes.
Proof.
  intros Hb H. unfold image_new in H. destruct (_ && _); [|done]. apply obind_ok in H as ([sections e] & Hs & H). destruct (_ =? _)%Z; [|done].
  apply obind_ok in H as (slots & Hslots & H). apply obind_ok in H as (chunks & Hchunks & H). apply obind_ok in H as (words & Hwords & H).
  apply obind_ok in H as (docs & Hdocs & H). apply obind_ok in H as (dims & Hdims & H). set (im0 := mkImage _ _ _ _ _ _ _ _) in H.
  apply obind_ok in H as ([] & Hcd & H). apply obind_ok in H as ([] & Hcs & H). apply obind_ok in H as (zero & Hz & H). apply obind_ok in H as (one & Ho & H).
  apply word_bound in Hslots, Hdocs; [|done|done].
  assert (Hg : good_sections im0) by (destruct (read_sections_ok _ _ _ _ _ _ Hs Hb); by split).
  unfold check_documents in Hcd. apply obind_ok in Hcd as ([] & Ht1 & Hcd). apply obind_ok in Hcd as ([] & Ht2 & Hcd). apply obind_ok in Hcd as (idb & Hidb & Hcd).
  destruct (utf8_valid idb) eqn:Hutf; [|done]. destruct (check_table_ok im0 _ _ Hg Hb Hdocs Ht1) as (data1 & Hd1 & Hsp1). rewrite Hidb in Hd1. injection Hd1 as <-.
  destruct (check_table_ok im0 _ _ Hg Hb Hdocs Ht2) as (data2 & Hd2 & Hsp2).
  destruct (check_ids_ok _ _ _ _ _ Hcd) as (ids & Hlen & Hsort & _ & Hids). exists ids. injection H as <-. split; [|done].
  unfold is_u64 in Hdocs. cbn [im_docs im0] in *. split; cbn [im_bytes im_docs im_slots]; try done.
  - lia.
  - intros i id Hi. destruct (Hids i id Hi) as (Ha & a & b & Hsp & Hsl & B1 & B2). split; [|done]. cbn [Nat.add] in Hsp.
    unfold image_id. change (span (mkImage _ _ _ _ _ _ _ _) IdOffsets i) with (span im0 IdOffsets i). rewrite Hsp. cbn [obind].
    change (section (mkImage _ _ _ _ _ _ _ _) Ids) with (section im0 Ids). rewrite Hidb. cbn [obind]. rewrite Hsl. cbn [obind].
    destruct (Hsp1 i) as (a' & b' & Hsp' & Hr); [apply lookup_lt_Some in Hi; lia|]. rewrite Hsp in Hsp'. injection Hsp' as <- <-.
    rewrite slice_Ok in Hsl by lia. injection Hsl as <-. rewrite utf8_slice by (done || lia). done.
  - intros i Hi. destruct (Hsp2 i ltac:(lia)) as (a & b & Hsp & Hr). by exists a, b, data2.
  - intros slot Hsl. rewrite Hlen. destruct (check_slots_ok im0 slot Hg Hb Hslots Hcs Hsl) as (w & o & c & Hr & H1 & H2 & H3).
    exists w, o, c. split_and!; try done. destruct H3; [by left|right]. cbn [im_docs im0] in *. lia.
  - intros form. unfold form_opened. cbn [im_dictionaries]. destruct form; cbn [fst snd]; [exact (image_dictionary_ok im0 true one Hg Hb Ho)|exact (image_dictionary_ok im0 false zero Hg Hb Hz)].
Qed.

(** ** Finding a document *)

Section Find.
Context (im : ServingImage) (ids : list (list Z)).
Context (Hdocs : im_docs im = Z.of_nat (length ids)) (Hsort : bsorted ids) (Hids : forall i id, ids !! i = Some id -> image_id im i = Ok id).

Lemma lower_bound_loop_ok id fuel lo hi :
  lo <= hi -> hi <= length ids -> hi - lo <= fuel ->
  (forall i x, i < lo -> ids !! i = Some x -> blt x id) -> (forall i x, hi <= i -> ids !! i = Some x -> ~ blt x id) ->
  exists p, lower_bound_loop im fuel id lo hi = Ok p /\ p <= length ids /\
    (forall i x, i < p -> ids !! i = Some x -> blt x id) /\ (forall i x, p <= i -> ids !! i = Some x -> ~ blt x id).
Proof.
  revert lo hi. induction fuel as [|fuel IH]; intros lo hi Hle Hhi Hf Hlo Hup; cbn [lower_bound_loop].
  { destruct (Nat.ltb_spec lo hi); [lia|]. assert (lo = hi) as <- by lia. by exists lo. }
  destruct (Nat.ltb_spec lo hi) as [Hlt|]; [|assert (lo = hi) as <- by lia; by exists lo].
  set (m := lo + (hi - lo) / 2). assert (Hm : lo <= m < hi).
  { pose proof (Nat.div_mod_eq (hi - lo) 2). pose proof (Nat.mod_upper_bound (hi - lo) 2). lia. }
  destruct (lookup_lt_is_Some_2 ids m) as [x Hx]; [lia|]. rewrite (Hids m x Hx). cbn [obind].
  case_bool_decide as Hc.
  - apply IH; [lia|lia|lia| |done]. intros i y Hi Hy. destruct (decide (i = m)) as [->|]; [by simplify_eq|].
    etrans; [|exact Hc]. eapply (bsorted_lookup_lt _ i m); [done|lia|done|done].
  - apply IH; [lia|lia|lia|done|]. intros i y Hi Hy Hlt'. apply Hc. destruct (decide (i = m)) as [->|]; [by simplify_eq|].
    etrans; [|exact Hlt']. eapply (bsorted_lookup_lt _ m i); [done|lia|done|done].
Qed.

Lemma lower_bound_ok id :
  exists p, lower_bound im id = Ok p /\ p <= length ids /\
    (forall i x, i < p -> ids !! i = Some x -> blt x id) /\ (forall i x, p <= i -> ids !! i = Some x -> ~ blt x id).
Proof.
  unfold lower_bound. rewrite Hdocs, Nat2Z.id. apply lower_bound_loop_ok; [lia|lia|lia|intros; lia|].
  intros i x Hi Hx. apply lookup_lt_Some in Hx. lia.
Qed.

Lemma find_ordinal id : exists r, ordinal im id = Ok r /\ forall o, r = Some o <-> ids !! o = Some id.
Proof.
  unfold ordinal. destruct (lower_bound_ok id) as (p & -> & Hp & Hlo & Hup). cbn [obind]. rewrite Hdocs, Nat2Z.id.
  assert (Hone : forall o, ids !! o = Some id -> o = p).
  { intros o Ho. destruct (Nat.lt_trichotomy o p) as [Hlt|[->|Hlt]]; [|done|].
    - pose proof (Hlo o id Hlt Ho) as Hb. by apply (irreflexivity blt) in Hb.
    - destruct (lookup_lt_is_Some_2 ids p) as [x Hx]; [apply lookup_lt_Some in Ho; lia|]. exfalso. apply (Hup p x ltac:(lia) Hx).
      eapply (bsorted_lookup_lt _ p o); [done|lia|done|done]. }
  destruct (Nat.ltb_spec p (length ids)) as [Hlt|Hge].
  - destruct (lookup_lt_is_Some_2 ids p Hlt) as [x Hx]. rewrite (Hids p x Hx). cbn [obind]. eexists. split; [done|]. intros o.
    case_bool_decide as E; [subst x|]; (split; [intros [=]; by subst|intros Ho; pose proof (Hone o Ho); subst; congruence]).
  - eexists. split; [done|]. intros o. split; [done|]. intros Ho. pose proof (Hone o Ho) as ->. apply lookup_lt_Some in Ho. lia.
Qed.
End Find.

Section Reads.
Context (im : ServingImage) (ids : list (list Z)).
Context (H : opened im ids).

Lemma opened_ordinal id : exists r, ordinal im id = Ok r /\ forall o, r = Some o <-> ids !! o = Some id.
Proof. apply find_ordinal; [apply H|apply H|]. intros i x Hx. by destruct (op_ids _ _ H i x Hx). Qed.

Lemma image_list_safe form term : no_panic (image_list im form term) /\ forall e, image_list im form term <> Err e.
Proof.
  destruct (op_forms _ _ H form) as (dict & blocks & postings & es & H1 & H2 & H3 & Hh). unfold image_list. set (d := if form then _ else _) in *.
  destruct (Nat.eqb_spec (di_terms d) 0); [done|]. rewrite H1, H2, H3. cbn [obind]. pose proof (dh_terms _ _ _ _ _ Hh) as Hn. rewrite <- Hn in *.
  by rewrite (image_postings_ok _ _ _ _ Hh).
Qed.
End Reads.

(** ** Records of any bytes *)

(** The bounds of ingest, which a record that is read obeys. *)
Definition chunk_bounds (c : RecordChunk) : Prop :=
  (0 <= rc_start c < rc_end c)%Z /\ (rc_end c <= MAX_DOCUMENT_BYTES)%Z /\
  match rc_text c with Some t => Z.of_nat (length t) = (rc_end c - rc_start c)%Z | None => True end /\
  match rc_id c with Some id => id_allowed id = true | None => True end.

Definition record_bounds {V} (is_object : V -> bool) (r : ImageRecord (V := V)) : Prop :=
  1 <= length (re_version r) <= 1024 /\ match re_source r with Some uri => (Z.of_nat (length uri) <= 8192)%Z | None => True end /\
  is_object (re_metadata r) = true /\ (1 <= Z.of_nat (length (re_chunks r)) <= 4096)%Z /\ Forall chunk_bounds (re_chunks r).

Lemma yields_read_option {A} (P : A -> Prop) (b : bool) (m : read A) :
  yields P m -> yields (fun o => match o with Some a => P a | None => True end) (read_option b m).
Proof. intros Hm. destruct b; cbn [read_option]; [|by apply yields_ret]. eapply yields_bind; [exact Hm|]. intros a Ha. by apply yields_ret. Qed.

Lemma yields_record_chunk u : yields (fun p => chunk_bounds p.1 /\ True) (record_chunk u).
Proof.
  unfold record_chunk. eapply yields_bind; [apply yields_byte|]. intros flags _. apply yields_check. intros _.
  eapply yields_bind; [apply yields_read_option, yields_str|]. intros id _. apply yields_check. intros Hid.
  eapply yields_bind; [apply yields_number|]. intros s Hs. eapply yields_bind; [apply yields_number|]. intros e He.
  apply yields_check. intros Hse. bool_to_prop. eapply yields_bind; [apply yields_byte|]. intros kind _.
  eapply (yields_bind (fun _ => True)).
  { destruct (_ =? TEXT_NONE)%Z; [by apply yields_ret|]. destruct (_ =? TEXT_INLINE)%Z; [|done].
    eapply yields_bind; [apply yields_str|]. intros t _. by apply yields_ret. }
  intros text _. apply yields_check. intros Ht. apply yields_ret. split; [|done]. unfold chunk_bounds. cbn [rc_start rc_end rc_text rc_id fst].
  cbn beta in Hs. split_and!; [lia|lia|lia| |by destruct id]. destruct text; [by bool_to_prop|done].
Qed.

Lemma yields_record {V} (from_slice : list Z -> outcome V) is_object :
  (forall b, no_panic (from_slice b)) -> yields (record_bounds is_object) (read_record from_slice is_object).
Proof.
  intros Hf. unfold read_record. eapply yields_bind; [apply yields_str|]. intros version _. apply yields_check. intros Hv. bool_to_prop.
  eapply (yields_bind (fun _ => True)).
  { eapply yields_bind; [apply yields_byte|]. intros flag _. destruct (_ =? 0)%Z; [by apply yields_ret|]. destruct (_ =? 1)%Z; [|done].
    eapply yields_bind; [apply yields_str|]. intros t _. by apply yields_ret. }
  intros source _. apply yields_check. intros Hs. eapply yields_bind; [apply yields_bytes|]. intros b _. apply yields_check. intros _.
  eapply (yields_bind (fun _ => True)); [by apply yields_lift|]. intros metadata _. apply yields_check. intros Hm.
  eapply yields_bind; [apply yields_count|]. intros n _. apply yields_check. intros Hn. bool_to_prop.
  eapply yields_bind; [apply (yields_repeat (fun _ _ => True) chunk_bounds)|].
  { intros k s _. apply yields_record_chunk. }
  { done. }
  intros chunks [Hl Hc] r Hr. destruct (is_empty r); [|done]. split; [done|]. intros ?? [= <- <-]. split; [done|].
  unfold record_bounds. cbn [re_version re_source re_metadata re_chunks]. rewrite Hl. split_and!; try done; try lia. destruct source; [by bool_to_prop|done].
Qed.

Section Record.
Context {V : Type} (from_slice : list Z -> outcome V) (is_object : V -> bool) (Hjson : forall b, no_panic (from_slice b)).
Context (im : ServingImage) (ids : list (list Z)) (H : opened im ids).

Lemma image_record_safe o :
  o < length ids -> no_panic (image_record from_slice is_object im o) /\
    forall r, image_record from_slice is_object im o = Ok r -> record_bounds is_object r.
Proof.
  intros Ho. destruct (op_spans _ _ H o Ho) as (a & b & docs & Hsp & Hs & Hr). unfold image_record. rewrite Hsp. cbn [obind]. rewrite Hs. cbn [obind].
  rewrite slice_Ok by lia. cbn [obind]. set (bytes := take (b - a) (drop a docs)).
  destruct (section_ok im Docs (op_sections _ _ H) (op_bytes _ _ H)) as (docs' & _ & _ & Hs' & Hb & _). rewrite Hs in Hs'. injection Hs' as <-.
  destruct (yields_record from_slice is_object Hjson (reader_new bytes)) as [Hp Hok].
  { split; [unfold reader_ok, reader_new; cbn; lia|]. by apply Forall_take, Forall_drop. }
  destruct (read_record from_slice is_object (reader_new bytes)) as [[r r']| |] eqn:E; cbn [obind]; [|done|done]. split; [done|].
  intros ? [= <-]. by destruct (Hok r r' eq_refl).
Qed.

Lemma chunk_id_total document i : (Z.of_nat (length document) < U64)%Z -> is_u64 i -> exists x, chunk_id document i = Ok x.
Proof using.
  intros Hd Hi. unfold chunk_id, chunk_id_parts. destruct (decimal_ok (Z.of_nat (length document))) as [ds ->]; [unfold is_u64; lia|].
  destruct (decimal_ok i Hi) as [os ->]. by eexists.
Qed.

Lemma result_chunks_safe id index words i chunks :
  (Z.of_nat (length id) < U64)%Z -> (Z.of_nat (i + length chunks) < U64)%Z ->
  exists cs, result_chunks im id index words i chunks = Ok cs /\ length cs = length chunks.
Proof.
  revert i. induction chunks as [|c chunks IH]; intros i Hid Hi; [by exists []|]. cbn [result_chunks]. unfold stored_chunk. cbn [length] in Hi.
  assert (Hc : exists x, match rc_id c with Some id => Ok id | None => chunk_id id (Z.of_nat i) end = Ok x).
  { destruct (rc_id c); [by eexists|]. apply chunk_id_total; [done|unfold is_u64; lia]. }
  destruct Hc as [x ->]. cbn [obind]. destruct (IH (S i) Hid) as (cs & -> & Hl); [lia|]. cbn [obind]. eexists. split; [done|]. cbn. by rewrite Hl.
Qed.

Lemma opened_id o : o < length ids -> exists id, image_id im o = Ok id /\ (Z.of_nat (length id) < U16)%Z.
Proof using H.
  intros Ho. destruct (lookup_lt_is_Some_2 ids o Ho) as [id Hid]. destruct (op_ids _ _ H _ _ Hid) as [Hi Ha]. exists id. split; [done|]. unfold id_allowed in Ha. by bool_to_prop.
Qed.

Lemma image_info_safe o index revision : o < length ids -> is_u64 revision ->
  no_panic (image_document_info from_slice is_object im o) /\ no_panic (image_document_chunk from_slice is_object im o index revision).
Proof.
  intros Ho Hrev. destruct (image_record_safe o Ho) as [Hp Hb]. destruct (opened_id o Ho) as (id & Hid & Hl). unfold image_document_info, image_document_chunk, image_info.
  destruct (image_record _ _ _ _) as [r| |] eqn:Er; cbn [obind]; [|done|done]. rewrite Hid. cbn [obind]. split; [done|].
  destruct (re_chunks r !! index) as [c|] eqn:Ec; [|done]. apply lookup_lt_Some in Ec. destruct (Hb r eq_refl) as (_ & _ & _ & Hn & _).
  match goal with |- no_panic (if ?b then _ else _) => destruct b; [|done] end. destruct (decimal_ok revision Hrev) as [ds ->].
  destruct (rc_id c); [done|]. destruct (chunk_id_total id (Z.of_nat index)) as [x ->]; [unfold U16, U64 in *; lia|unfold is_u64, U64; lia|done].
Qed.

Lemma image_chunk_safe slot : slot < Z.to_nat (im_slots im) -> no_panic (image_chunk from_slice is_object im slot).
Proof.
  intros Hs. destruct (op_slots _ _ H slot Hs) as (w & o & c & Hr & Hw & Hc & Ho). unfold image_chunk. rewrite Hr. cbn [obind].
  destruct (Z.eqb_spec o FREE) as [|Hne]; [done|]. cbn [negb]. destruct Ho as [|Ho]; [done|].
  destruct (lookup_lt_is_Some_2 ids (Z.to_nat o)) as [id Hid]; [lia|]. destruct (op_ids _ _ H _ _ Hid) as [-> Ha]. cbn [obind].
  destruct (image_record_safe (Z.to_nat o) ltac:(lia)) as [Hp Hb]. destruct (image_record _ _ _ _) as [r| |] eqn:Er; cbn [obind]; [|done|done].
  destruct (_ <? _)%Z; [|done]. destruct (Hb r eq_refl) as (_ & _ & _ & Hn & _).
  destruct (result_chunks_safe id (Z.to_nat c) w 0 (re_chunks r)) as (cs & -> & _); [|unfold U64; lia|done].
  unfold id_allowed in Ha. bool_to_prop. unfold U16, U64 in *. lia.
Qed.
End Record.

(** C40: Directory, slot and record reads of a checkpoint of any bytes that opens.  Its documents
    have ids within the limits of ingest, strictly ascending; finding an id never fails, and finds
    exactly the document with it; every slot is free or owned by one of the documents; a record, a
    listing of it, one of its chunks or a slot's chunk is read or refused with an error, never with
    a panic, within the bounds of ingest when it is read; and the posting bytes of a term of either
    form are located or refused without a panic.  Decoding those posting bytes is not covered: it
    can panic ([opened_postings_unchecked]).  Nothing is assumed of the JSON parser but that it
    returns. *)
Theorem opened_image_reads {V} (from_slice : list Z -> outcome V) is_object bytes im :
  (forall b, no_panic (from_slice b)) -> bytes_ok bytes -> image_new bytes = Ok im ->
  exists ids, im_docs im = Z.of_nat (length ids) /\ bsorted ids /\
    (forall o id, ids !! o = Some id -> image_id im o = Ok id /\ id_allowed id = true) /\
    (forall id, exists r, ordinal im id = Ok r /\ forall o, r = Some o <-> ids !! o = Some id) /\
    (forall slot, slot < Z.to_nat (im_slots im) ->
       (exists r, image_slot_owner im slot = Ok r /\ forall o, r = Some o -> o < length ids) /\
       (exists x, image_slot_order im slot = Ok x) /\ no_panic (image_chunk from_slice is_object im slot)) /\
    (forall form term, no_panic (image_list im form term)) /\
    (forall o, o < length ids -> no_panic (image_record from_slice is_object im o) /\
       (forall r, image_record from_slice is_object im o = Ok r -> record_bounds is_object r) /\
       no_panic (image_document_info from_slice is_object im o) /\
       forall index revision, is_u64 revision -> no_panic (image_document_chunk from_slice is_object im o index revision)).
Proof.
  intros Hj Hb H. destruct (image_new_opened bytes im Hb H) as (ids & Ho & _). exists ids. split_and!.
  - apply Ho.
  - apply Ho.
  - apply Ho.
  - intros id. by apply opened_ordinal.
  - intros slot Hs. destruct (op_slots _ _ Ho slot Hs) as (w & o & c & Hr & _ & _ & Hc). split_and!.
    + unfold image_slot_owner. rewrite Hr. cbn [obind]. eexists. split; [done|]. intros p. destruct (Z.eqb_spec o FREE); [done|]. intros [= <-]. destruct Hc; [done|lia].
    + unfold image_slot_order. rewrite Hr. cbn [obind]. destruct (Z.eqb_spec o FREE); [by eexists|]. destruct Hc as [|Hc]; [done|].
      destruct (lookup_lt_is_Some_2 ids (Z.to_nat o)) as [id Hid]; [lia|]. destruct (op_ids _ _ Ho _ _ Hid) as [-> _]. by eexists.
    + by eapply image_chunk_safe.
  - intros form term. by eapply image_list_safe.
  - intros o Hlt. destruct (image_record_safe from_slice is_object Hj im ids Ho o Hlt) as [H1 H2]. split_and!; [done|done| |].
    + by destruct (image_info_safe from_slice is_object Hj im ids Ho o 0 0 Hlt).
    + intros index revision Hrev. by destruct (image_info_safe from_slice is_object Hj im ids Ho o index revision Hlt Hrev).
Qed.

(** ** A checkpoint of one document with one chunk *)

Definition toy_header : list Z :=
  let at_ := Z.of_nat IMAGE_HEADER_LEN in
  [0; 0; 64; 0; 0; 0; 0; 0; 1; 1; 3; 1; 0; 0;
   at_; 0; at_; 0; at_; 0; at_; 0; at_; 0; at_; 12; at_ + 12; 8; at_ + 20; 1; at_ + 21; 8; at_ + 29; 0; 0; 0; 0; 0; 0; 0]%Z.

Definition toy_image : list Z :=
  IMAGE_MAGIC ++ concat (map (to_le_bytes 8) toy_header) ++
  (to_le_bytes 4 3 ++ to_le_bytes 4 0 ++ to_le_bytes 4 0) ++ (to_le_bytes 4 0 ++ to_le_bytes 4 1) ++ [97%Z] ++ (to_le_bytes 4 0 ++ to_le_bytes 4 0).

Lemma opened_image_reads_witness :
  exists im, image_new toy_image = Ok im /\ ordinal im [97]%Z = Ok (Some 0) /\ ordinal im [98]%Z = Ok None.
Proof.
  destruct (image_new toy_image) as [im| |] eqn:E; [|vm_compute in E; discriminate E..].
  destruct (opened_image_reads (fun _ => Err "no metadata" : outcome unit) (fun _ => true) toy_image im) as (ids & _ & _ & Hid & Ho & _ & _ & _).
  - done.
  - apply (bool_decide_unpack _). vm_compute. exact I.
  - exact E.
  - exists im. split; [reflexivity|]. destruct (Ho [97]%Z) as (r & Hr & _), (Ho [98]%Z) as (q & Hq & _). rewrite Hr, Hq.
    vm_compute in E. injection E as <-. vm_compute in Hr, Hq. injection Hr as <-. injection Hq as <-. split; reflexivity.
Defined.
