(* ===== verification/Bulk.v ===== *)
(** * Bulk indexing

    [index_chunks] of [src/core/documents/postings.rs]: chunks are scanned in ranges, one per
    thread, into maps per term form and hash bucket; the maps of a bucket are merged in range
    order into one run per term; the runs enter the lists in bucket and term order.  Whatever the
    number of threads, the result is the index of the chunks. *)

From S2P Require Import Prelude Words BitPack Search Positions Terms Binary TermDict Postings Cursor PostingEdit PostingRuns Lists Indexing.

Definition MERGE_BUCKETS : nat := 16.
Definition PARALLEL_CHUNKS : nat := 64.
Definition MIN_RANGE : nat := 32.

Abbreviation RunMap := (gmap (list Z) TermRun).

(** FNV-1a over the term's bytes. *)
Definition bucket_of (term : list Z) (buckets : nat) : nat :=
  let hash := foldl (fun hash byte => wrap U64 (Z.lxor hash byte * 0x100000001b3)) 0xcbf29ce484222325%Z term in
  Z.to_nat (hash mod Z.of_nat buckets).

Definition bucket_for (term : list Z) (buckets : nat) : nat := if Nat.eqb buckets 1 then 0 else bucket_of term buckets.

Definition is_nil {A} (l : list A) : bool := match l with [] => true | _ => false end.

(** One posting added to a term's run; ordinals start with the first positional chunk. *)
Definition run_push (run : TermRun) (slot frequency ordinal : Z) : TermRun :=
  let ordinals := tr_ordinals run in
  let ordinals := if (0 <? ordinal)%Z && is_nil ordinals then resize (length (tr_postings run)) 0%Z ordinals else ordinals in
  let ordinals := if (0 <? ordinal)%Z || negb (is_nil ordinals) then ordinals ++ [ordinal] else ordinals in
  {| tr_term := tr_term run; tr_postings := tr_postings run ++ [(slot, frequency)]; tr_ordinals := ordinals |}.

Abbreviation form_maps := (list RunMap * list RunMap)%type.

Definition maps_of (maps : form_maps) (stemmed : bool) : list RunMap := if stemmed then maps.2 else maps.1.
Definition set_maps (maps : form_maps) (stemmed : bool) (m : list RunMap) : form_maps :=
  if stemmed then (maps.1, m) else (m, maps.2).

(** A term of a chunk. *)
Definition scan_term (buckets : nat) (maps : form_maps) (slot : Z) (c : StoredChunk) (e : nat * (list Z * Z)) : outcome form_maps :=
  let term := e.2.1 in
  let form := maps_of maps (c_stemmed c) in
  let bucket := bucket_for term buckets in
  let* m := expect (form !! bucket) in
  let run := default {| tr_term := term; tr_postings := []; tr_ordinals := [] |} (m !! term) in
  let run := run_push run slot e.2.2 (ordinal_at c e.1) in
  Ok (set_maps maps (c_stemmed c) (<[bucket := <[term := run]> m]> form)).

Fixpoint scan_terms (buckets : nat) (maps : form_maps) (slot : Z) (c : StoredChunk) (es : list (nat * (list Z * Z))) : outcome form_maps :=
  match es with
  | [] => Ok maps
  | e :: rest => let* maps := scan_term buckets maps slot c e in scan_terms buckets maps slot c rest
  end.

Fixpoint scan_chunks (buckets : nat) (maps : form_maps) (range : list (Z * StoredChunk)) : outcome form_maps :=
  match range with
  | [] => Ok maps
  | (slot, c) :: rest =>
      let* es := t_entries (c_terms c) in
      let* maps := scan_terms buckets maps slot c (enumerate es) in
      scan_chunks buckets maps rest
  end.

Definition scan_range (buckets : nat) (range : list (Z * StoredChunk)) : outcome form_maps :=
  scan_chunks buckets (replicate buckets ∅, replicate buckets ∅) range.

(** The later range's run of a term after the earlier one's. *)
Definition run_append (previous run : TermRun) : TermRun :=
  let ordinals :=
    if negb (is_nil (tr_ordinals previous)) || negb (is_nil (tr_ordinals run)) then
      resize (length (tr_postings previous) + length (tr_postings run)) 0%Z
        (resize (length (tr_postings previous)) 0%Z (tr_ordinals previous) ++ tr_ordinals run)
    else tr_ordinals previous in
  {| tr_term := tr_term previous; tr_postings := tr_postings previous ++ tr_postings run; tr_ordinals := ordinals |}.

Definition merge_run (merged : RunMap) (e : list Z * TermRun) : RunMap :=
  match merged !! e.1 with
  | Some previous => <[e.1 := run_append previous e.2]> merged
  | None => <[e.1 := e.2]> merged
  end.

Definition merge_map (merged map : RunMap) : RunMap := foldl merge_run merged (map_to_list map).

Definition run_le (a b : TermRun) : Prop := bcmp (tr_term a) (tr_term b) <> Gt.
#[global] Instance run_le_dec a b : Decision (run_le a b) := not_dec _.

Definition merge_bucket (maps : list RunMap) : list TermRun :=
  match maps with
  | [] => []
  | merged :: rest => merge_sort run_le (map snd (map_to_list (foldl merge_map merged rest)))
  end.

(** [par_chunks]. *)
Fixpoint chunks_of {A} (fuel n : nat) (l : list A) : list (list A) :=
  match fuel, l with
  | S fuel, _ :: _ => take n l :: chunks_of fuel n (drop n l)
  | _, _ => []
  end.

(** Every range's map of one (form, bucket) goes to that bucket's list. *)
Definition by_bucket (buckets : nat) (partials : list form_maps) : list (list RunMap) :=
  foldl (fun acc p => zip_with (fun ms m => ms ++ [m]) acc (p.1 ++ p.2)) (replicate (2 * buckets) []) partials.

Section Bulk.
Context {D : Type} {dict : TermIndex D}.

Definition index_chunks (threads : nat) (ps : PostingLists D * PostingLists D) (chunks : list (Z * StoredChunk)) (ws : list Z)
    : outcome (PostingLists D * PostingLists D) :=
  match chunks with
  | [] => Ok ps
  | _ =>
      let buckets := if length chunks <? PARALLEL_CHUNKS then 1 else MERGE_BUCKETS in
      let range := Nat.max (div_ceil (length chunks) (Nat.max threads 1)) MIN_RANGE in
      let* partials := omap_list (scan_range buckets) (chunks_of (length chunks) range chunks) in
      let merged := map merge_bucket (by_bucket buckets partials) in
      let* unstemmed := insert_runs_with_lengths ps.1 (concat (take buckets merged)) ws in
      let* stemmed := insert_runs_with_lengths ps.2 (concat (take buckets (drop buckets merged))) ws in
      Ok (unstemmed, stemmed)
  end.
End Bulk.

(** ** Runs as entries *)

(** A scanned posting: its slot, its chunk and its place among the chunk's terms. *)
Abbreviation pair := (Z * StoredChunk * (nat * (list Z * Z)))%type.

Definition pair_entry (p : pair) : Posting * Z := (p.1.1, p.2.2.2, ordinal_at p.1.2 p.2.1).

(** The entries of a term of one form, in the order scanned. *)
Definition pair_entries (f : bool) (t : list Z) (ps : list pair) : list (Posting * Z) :=
  map pair_entry (filter (fun p => c_stemmed p.1.2 = f /\ p.2.2.1 = t) ps).

Definition run_ok (t : list Z) (es : list (Posting * Z)) (run : TermRun) : Prop :=
  tr_term run = t /\ tr_postings run = map fst es /\ ordinals_of es (tr_ordinals run).

Lemma pair_entries_app f t a b : pair_entries f t (a ++ b) = pair_entries f t a ++ pair_entries f t b.
Proof. unfold pair_entries. by rewrite filter_app, map_app. Qed.

Lemma ordinal_nonneg c i : (0 <= ordinal_at c i)%Z.
Proof. unfold ordinal_at. destruct (t_positions _); [|lia]. apply Z.mod_pos_bound. done. Qed.

Lemma resize_zeros es : Forall (fun e : Posting * Z => e.2 = 0%Z) es -> resize (length es) 0%Z ([] : list Z) = map snd es.
Proof. rewrite resize_nil. induction 1 as [|e es He _ IH]; [done|]. simpl. by rewrite He, IH. Qed.

Lemma run_push_ok t es run slot f o :
  run_ok t es run -> (0 <= o)%Z -> run_ok t (es ++ [(slot, f, o)]) (run_push run slot f o).
Proof.
  intros (Ht & Hp & Ho) Hpos. split_and!; [done|cbn [run_push tr_postings]; by rewrite Hp, map_app|].
  cbn [run_push tr_ordinals]. rewrite Hp, length_map. unfold ordinals_of. rewrite map_app, Forall_app.
  destruct (0 <? o)%Z eqn:E; bool_to_prop; cbn [andb orb].
  - left. f_equal. destruct Ho as [->|[-> Hz]]; [|by apply resize_zeros]. destruct es; [done|]. done.
  - assert (o = 0%Z) as -> by lia. destruct Ho as [->|[-> Hz]].
    + destruct es as [|e es]; [right; by repeat constructor|by left].
    + right. split_and!; [done|done|by repeat constructor].
Qed.

Lemma run_append_ok t es es' run run' :
  run_ok t es run -> run_ok t es' run' -> run_ok t (es ++ es') (run_append run run').
Proof.
  intros (Ht & Hp & Ho) (Ht' & Hp' & Ho'). split_and!; [done|cbn [run_append tr_postings]; by rewrite Hp, Hp', map_app|].
  cbn [run_append tr_ordinals]. rewrite Hp, Hp', !length_map. unfold ordinals_of in *. rewrite map_app, Forall_app.
  assert (Hall : forall (a b : list Z), a = map snd es -> (b = map snd es' \/ b = [] /\ Forall (fun e => e.2 = 0%Z) es') ->
    resize (length es + length es') 0%Z (a ++ b) = map snd es ++ map snd es').
  { intros a b -> Hb. rewrite resize_app_ge by (rewrite length_map; lia). f_equal. rewrite length_map.
    replace (length es + length es' - length es) with (length es') by lia. destruct Hb as [->|[-> Hz]]; [|by apply resize_zeros].
    apply resize_all_alt. by rewrite length_map. }
  assert (Hfirst : resize (length es) 0%Z (tr_ordinals run) = map snd es).
  { destruct Ho as [->|[-> Hz]]; [|by apply resize_zeros]. apply resize_all_alt. by rewrite length_map. }
  destruct (is_nil (tr_ordinals run)) eqn:E1; cbn [negb orb]; [destruct (is_nil (tr_ordinals run')) eqn:E2; cbn [negb]|]; [|by left; apply Hall|by left; apply Hall].
  destruct (tr_ordinals run); [|done]. destruct (tr_ordinals run'); [|done]. right. split; [done|].
  assert (Hz : forall (xs : list (Posting * Z)), ([] = map snd xs \/ [] = ([] : list Z) /\ Forall (fun e => e.2 = 0%Z) xs) -> Forall (fun e => e.2 = 0%Z) xs).
  { intros xs [Hx|[_ Hx]]; [|done]. by destruct xs. }
  split; by apply Hz.
Qed.

(** ** Maps of runs *)

(** The map of one bucket holds exactly the runs of its terms. *)
Definition map_ok (f : bool) (buckets b : nat) (ps : list pair) (m : RunMap) : Prop :=
  forall t, match m !! t with
            | Some run => bucket_for t buckets = b /\ pair_entries f t ps <> [] /\ run_ok t (pair_entries f t ps) run
            | None => bucket_for t buckets <> b \/ pair_entries f t ps = []
            end.

Definition maps_ok (f : bool) (buckets : nat) (ps : list pair) (maps : list RunMap) : Prop :=
  length maps = buckets /\ forall b m, maps !! b = Some m -> map_ok f buckets b ps m.

Definition scanned (buckets : nat) (ps : list pair) (maps : form_maps) : Prop :=
  forall f, maps_ok f buckets ps (maps_of maps f).

Lemma bucket_lt t buckets : 0 < buckets -> bucket_for t buckets < buckets.
Proof.
  intros Hb. unfold bucket_for. destruct (Nat.eqb buckets 1) eqn:E; [done|]. unfold bucket_of.
  set (h := foldl _ _ _). pose proof (Z.mod_pos_bound h (Z.of_nat buckets)). lia.
Qed.

Lemma scanned_nil buckets : scanned buckets [] (replicate buckets ∅, replicate buckets ∅).
Proof.
  intros f. assert (Hm : maps_of (replicate buckets ∅, replicate buckets ∅) f = replicate buckets (∅ : RunMap)) by (by destruct f).
  rewrite Hm. split; [by rewrite length_replicate|]. intros b m Hb t. apply lookup_replicate in Hb as [-> _].
  rewrite lookup_empty. by right.
Qed.

Lemma pair_entries_snoc f t ps (p : pair) :
  pair_entries f t (ps ++ [p]) = pair_entries f t ps ++ if decide (c_stemmed p.1.2 = f /\ p.2.2.1 = t) then [pair_entry p] else [].
Proof. rewrite pair_entries_app. f_equal. unfold pair_entries. rewrite filter_cons, filter_nil. by case_decide. Qed.

Lemma map_ok_same f buckets b ps (p : pair) m :
  (c_stemmed p.1.2 = f -> bucket_for p.2.2.1 buckets <> b) -> map_ok f buckets b ps m -> map_ok f buckets b (ps ++ [p]) m.
Proof.
  intros Hne H t. specialize (H t). rewrite pair_entries_snoc. case_decide as Hd; [|by rewrite app_nil_r].
  destruct Hd as [Hf <-]. specialize (Hne Hf). destruct (m !! p.2.2.1); [naive_solver|by left].
Qed.

Lemma scan_term_ok buckets ps maps slot c e :
  0 < buckets -> scanned buckets ps maps ->
  exists maps', scan_term buckets maps slot c e = Ok maps' /\ scanned buckets (ps ++ [(slot, c, e)]) maps'.
Proof.
  intros Hb H. unfold scan_term. set (f := c_stemmed c). set (t := e.2.1). set (b := bucket_for t buckets).
  destruct (H f) as [Hlen Hmaps]. destruct (lookup_lt_is_Some_2 (maps_of maps f) b) as [m Hm]; [rewrite Hlen; by apply bucket_lt|].
  rewrite Hm. cbn [expect obind]. eexists. split; [done|]. intros g. destruct (decide (g = f)) as [->|Hg].
  - replace (maps_of (set_maps maps f _) f) with (<[b := <[t := run_push (default {| tr_term := t; tr_postings := []; tr_ordinals := [] |} (m !! t)) slot e.2.2 (ordinal_at c e.1)]> m]> (maps_of maps f)) by (by destruct f).
    split; [by rewrite length_insert|]. intros b' m' Hb'. destruct (decide (b' = b)) as [->|Hbb].
    + rewrite list_lookup_insert_eq in Hb' by (apply lookup_lt_Some in Hm; lia). injection Hb' as <-.
      intros t'. rewrite pair_entries_snoc. cbn [fst snd]. fold f t. destruct (decide (t' = t)) as [->|Ht].
      * rewrite lookup_insert_eq, decide_True by done. split_and!; [done|by destruct (pair_entries f t ps)|].
        apply run_push_ok; [|apply ordinal_nonneg]. pose proof (Hmaps b m Hm t) as Hmt. destruct (m !! t) as [run|]; [apply Hmt|].
        destruct Hmt as [Hmt|Hmt]; [done|]. rewrite Hmt. split_and!; [done|done|by left].
      * rewrite lookup_insert_ne by done. rewrite decide_False by naive_solver. rewrite app_nil_r. apply (Hmaps b m Hm).
    + rewrite list_lookup_insert_ne in Hb' by done. apply map_ok_same; [by intros _ ?|by apply Hmaps].
  - replace (maps_of (set_maps maps f _) g) with (maps_of maps g) by (by destruct f, g).
    split; [apply H|]. intros b' m' Hb'. apply map_ok_same; [cbn [fst snd]; intros ?; by destruct Hg|by apply H].
Qed.

Definition term_pairs (slot : Z) (c : StoredChunk) (es : list (nat * (list Z * Z))) : list pair := map (fun e => (slot, c, e)) es.

Lemma scan_terms_ok buckets ps maps slot c es :
  0 < buckets -> scanned buckets ps maps ->
  exists maps', scan_terms buckets maps slot c es = Ok maps' /\ scanned buckets (ps ++ term_pairs slot c es) maps'.
Proof.
  intros Hb. revert ps maps. induction es as [|e es IH]; intros ps maps H; [exists maps; by rewrite app_nil_r|].
  cbn [scan_terms]. destruct (scan_term_ok buckets ps maps slot c e Hb H) as (m1 & -> & H1). cbn [obind].
  destruct (IH _ _ H1) as (m2 & -> & H2). exists m2. split; [done|]. by rewrite <- app_assoc in H2.
Qed.

(** A chunk to index: its slot, the chunk, and its terms. *)
Abbreviation item := (Z * StoredChunk * list (list Z * Z))%type.

Definition item_ok (it : item) : Prop := chunk_terms it.1.2 it.2 /\ is_u64 it.1.1.
Definition item_chunk (it : item) : Z * StoredChunk := it.1.
Definition item_pairs (it : item) : list pair := term_pairs it.1.1 it.1.2 (enumerate it.2).
Definition all_pairs (its : list item) : list pair := concat (map item_pairs its).

Lemma scan_chunks_ok buckets ps maps its :
  0 < buckets -> scanned buckets ps maps -> Forall item_ok its ->
  exists maps', scan_chunks buckets maps (map item_chunk its) = Ok maps' /\ scanned buckets (ps ++ all_pairs its) maps'.
Proof.
  intros Hb. revert ps maps. induction its as [|[[slot c] es] its IH]; intros ps maps H Hits; [exists maps; by rewrite app_nil_r|].
  inversion Hits as [|?? [Hc _] Hits']; subst. cbn [map item_chunk fst scan_chunks]. rewrite (t_entries_repr _ es) by apply Hc. cbn [obind].
  destruct (scan_terms_ok buckets ps maps slot c (enumerate es) Hb H) as (m1 & -> & H1). cbn [obind].
  destruct (IH _ _ H1 Hits') as (m2 & -> & H2). exists m2. split; [done|]. by rewrite <- app_assoc in H2.
Qed.

Lemma scan_range_ok buckets its :
  0 < buckets -> Forall item_ok its ->
  exists maps, scan_range buckets (map item_chunk its) = Ok maps /\ scanned buckets (all_pairs its) maps.
Proof. intros Hb Hits. by apply (scan_chunks_ok buckets [] _ its Hb (scanned_nil buckets)). Qed.

(** ** Merging *)

Lemma merge_run_lookup merged t run t' :
  merge_run merged (t, run) !! t' =
    if decide (t' = t) then Some (match merged !! t with Some previous => run_append previous run | None => run end) else merged !! t'.
Proof.
  unfold merge_run. cbn [fst snd]. case_decide as Ht; [subst|]; destruct (merged !! t) eqn:E; by rewrite ?lookup_insert_eq, ?lookup_insert_ne.
Qed.

Lemma merge_map_lookup merged m t :
  merge_map merged m !! t =
    match m !! t with
    | Some run => Some (match merged !! t with Some previous => run_append previous run | None => run end)
    | None => merged !! t
    end.
Proof.
  unfold merge_map. rewrite <- (list_to_map_to_list m) at 2. pose proof (NoDup_fst_map_to_list m) as Hnd. revert Hnd.
  generalize (map_to_list m) as l. intros l. revert merged. induction l as [|[t0 run] l IH]; intros merged Hnd; [simpl; by rewrite lookup_empty|].
  apply NoDup_cons in Hnd as [Hn Hnd]. cbn [foldl]. rewrite IH, merge_run_lookup by done. cbn [list_to_map foldr fst snd].
  destruct (decide (t = t0)) as [->|Ht].
  - rewrite lookup_insert_eq. by rewrite (not_elem_of_list_to_map_1 l t0).
  - by rewrite lookup_insert_ne.
Qed.

Lemma merge_map_ok f buckets b ps ps' merged m :
  map_ok f buckets b ps merged -> map_ok f buckets b ps' m -> map_ok f buckets b (ps ++ ps') (merge_map merged m).
Proof.
  intros H H' t. specialize (H t). specialize (H' t). rewrite merge_map_lookup, pair_entries_app.
  destruct (m !! t) as [run|], (merged !! t) as [previous|].
  - destruct H as (H1 & H2 & H3), H' as (_ & _ & H4). split_and!; [done|by destruct (pair_entries f t ps)|by apply run_append_ok].
  - destruct H' as (H1 & H2 & H3). destruct H as [H|H]; [done|]. rewrite H. done.
  - destruct H as (H1 & H2 & H3). destruct H' as [H'|H']; [done|]. by rewrite H', app_nil_r.
  - destruct H as [H|H], H' as [H'|H']; auto. right. by rewrite H, H'.
Qed.

Lemma foldl_merge_ok f buckets b pss maps ps merged :
  map_ok f buckets b ps merged -> Forall2 (map_ok f buckets b) pss maps ->
  map_ok f buckets b (ps ++ concat pss) (foldl merge_map merged maps).
Proof.
  intros H Hf. revert ps merged H. induction Hf as [|ps' m pss maps Hm _ IH]; intros ps merged H; [by rewrite app_nil_r|].
  cbn [concat foldl]. rewrite app_assoc. apply IH. by apply merge_map_ok.
Qed.

(** The runs of a bucket: the terms of the bucket that occur, each once, with all its entries. *)
Record runs_ok (f : bool) (ps : list pair) (mine : list Z -> Prop) (rs : list term_entries) : Prop := {
  ro_terms : NoDup (run_terms rs);
  ro_entries : Forall (fun r => mine r.1.1 /\ r.1.2 = pair_entries f r.1.1 ps /\ r.1.2 <> [] /\ ordinals_of r.1.2 r.2) rs;
  ro_all : forall t, mine t -> pair_entries f t ps <> [] -> t ∈ run_terms rs }.

Lemma merge_bucket_ok f buckets b pss maps :
  Forall2 (map_ok f buckets b) pss maps ->
  exists rs, merge_bucket maps = map to_run rs /\ runs_ok f (concat pss) (fun t => bucket_for t buckets = b) rs.
Proof.
  intros Hf. destruct Hf as [|ps m pss maps Hm Hf].
  { exists []. split; [done|]. split; [constructor|done|]. intros t _ []. done. }
  cbn [merge_bucket concat]. pose proof (foldl_merge_ok f buckets b pss maps ps m Hm Hf) as Hall.
  set (merged := foldl merge_map m maps) in *. set (all := ps ++ concat pss) in *.
  set (runs := merge_sort run_le (map snd (map_to_list merged))).
  assert (Hperm : runs ≡ₚ map snd (map_to_list merged)) by apply merge_sort_Permutation.
  assert (Hterm : map tr_term (map snd (map_to_list merged)) = (map_to_list merged).*1).
  { rewrite map_map. apply map_ext_in. intros [t run] Hin. cbn [fst snd]. apply list_elem_of_In, elem_of_map_to_list in Hin.
    pose proof (Hall t) as Ht. rewrite Hin in Ht. apply Ht. }
  assert (Hruns : forall run, run ∈ runs <-> merged !! tr_term run = Some run).
  { intros run. rewrite Hperm, list_elem_of_fmap. split.
    - intros ([t run'] & -> & Hin). apply elem_of_map_to_list in Hin. pose proof (Hall t) as Ht. rewrite Hin in Ht.
      cbn [snd]. by destruct Ht as (_ & _ & -> & _).
    - intros Hin. exists (tr_term run, run). split; [done|]. by apply elem_of_map_to_list. }
  exists (map (fun run => (tr_term run, pair_entries f (tr_term run) all, tr_ordinals run)) runs). split; [|split].
  - rewrite map_map. symmetry. rewrite <- (map_id runs) at 2. apply map_ext_in. intros run Hin. apply list_elem_of_In, Hruns in Hin.
    pose proof (Hall (tr_term run)) as Ht. rewrite Hin in Ht. destruct Ht as (_ & _ & _ & Hp & _). unfold to_run. cbn [fst snd].
    rewrite <- Hp. by destruct run.
  - unfold run_terms. rewrite map_map. change (NoDup (map tr_term runs)). rewrite (Permutation_map tr_term Hperm), Hterm. apply NoDup_fst_map_to_list.
  - apply Forall_forall. intros r (run & -> & Hin)%list_elem_of_fmap. apply Hruns in Hin. cbn [fst snd].
    pose proof (Hall (tr_term run)) as Ht. rewrite Hin in Ht. destruct Ht as (H1 & H2 & _ & _ & H3). done.
  - intros t Hb Hne. unfold run_terms. rewrite map_map. cbn [fst snd]. pose proof (Hall t) as Ht.
    destruct (merged !! t) as [run|] eqn:E; [|naive_solver]. destruct Ht as (_ & _ & Htt & _). apply list_elem_of_fmap.
    exists run. split; [done|]. apply Hruns. by rewrite Htt.
Qed.

(** Buckets one after another. *)
Lemma concat_runs_ok f ps (L : list (list TermRun)) (mine : nat -> list Z -> Prop) :
  (forall b b' t, mine b t -> mine b' t -> b = b') ->
  (forall b runs, L !! b = Some runs -> exists rs, runs = map to_run rs /\ runs_ok f ps (mine b) rs) ->
  exists rs, concat L = map to_run rs /\ runs_ok f ps (fun t => exists b, b < length L /\ mine b t) rs.
Proof.
  revert mine. induction L as [|runs L IH]; intros mine Hdis HL.
  { exists []. split; [done|]. split; [constructor|done|]. intros t (b & Hb & _). simpl in Hb. lia. }
  destruct (HL 0 runs eq_refl) as (r0 & -> & H0). destruct (IH (fun b => mine (S b))) as (r1 & Hr1 & H1).
  { intros b b' t Hb Hb'. specialize (Hdis _ _ t Hb Hb'). lia. }
  { intros b runs Hb. apply (HL (S b) runs Hb). }
  exists (r0 ++ r1). cbn [concat]. rewrite Hr1, map_app. split; [done|]. destruct H0 as [N0 E0 A0], H1 as [N1 E1 A1].
  assert (Ht0 : forall t, t ∈ run_terms r0 -> mine 0 t).
  { intros t (r & -> & Hr)%list_elem_of_fmap. rewrite Forall_forall in E0. apply (E0 r Hr). }
  assert (Ht1 : forall t, t ∈ run_terms r1 -> exists b, b < length L /\ mine (S b) t).
  { intros t (r & -> & Hr)%list_elem_of_fmap. rewrite Forall_forall in E1. apply (E1 r Hr). }
  split.
  - unfold run_terms. rewrite map_app. apply NoDup_app. split_and!; [done| |done]. intros t Hin0 Hin1.
    destruct (Ht1 t Hin1) as (b & _ & Hb). by specialize (Hdis _ _ _ (Ht0 t Hin0) Hb).
  - apply Forall_app. split; (eapply Forall_impl; [eassumption|]); intros r [Hm Hr]; (split; [|done]); cbn [length].
    + exists 0. split; [lia|done].
    + destruct Hm as (b & Hb & Hm). exists (S b). split; [lia|done].
  - intros t (b & Hb & Hm) Hne. unfold run_terms. rewrite map_app. apply elem_of_app. cbn [length] in Hb.
    destruct b as [|b]; [left; by apply A0|right; apply A1; [|done]]. exists b. split; [lia|done].
Qed.

(** ** Ranges and buckets *)

Lemma chunks_of_concat {A} fuel n (l : list A) : 0 < n -> length l <= fuel -> concat (chunks_of fuel n l) = l.
Proof.
  intros Hn. revert l. induction fuel as [|fuel IH]; intros l Hf; [by destruct l; [|simpl in Hf; lia]|].
  destruct l as [|a l]; [done|]. cbn [chunks_of concat]. rewrite IH; [apply take_drop|]. rewrite length_drop. cbn [length] in *. lia.
Qed.

Lemma chunks_of_map {A B} (g : A -> B) fuel n l : chunks_of fuel n (map g l) = map (map g) (chunks_of fuel n l).
Proof.
  revert l. induction fuel as [|fuel IH]; intros l; [done|]. destruct l as [|a l]; [done|]. cbn [chunks_of map].
  change (g a :: map g l) with (map g (a :: l)). by rewrite firstn_map, skipn_map, IH.
Qed.

Lemma scan_ranges_ok buckets ranges :
  0 < buckets -> Forall (Forall item_ok) ranges ->
  exists partials, omap_list (scan_range buckets) (map (map item_chunk) ranges) = Ok partials /\
    Forall2 (scanned buckets) (map all_pairs ranges) partials.
Proof.
  intros Hb. induction 1 as [|its ranges Hits _ (partials & IH & HF)]; [by exists []|]. cbn [map omap_list].
  destruct (scan_range_ok buckets its Hb Hits) as (m & -> & Hm). cbn [obind]. rewrite IH. cbn [obind]. eexists. split; [done|]. by constructor.
Qed.

Lemma all_pairs_concat ranges : concat (map all_pairs ranges) = all_pairs (concat ranges).
Proof.
  unfold all_pairs. induction ranges as [|its ranges IH]; [done|]. cbn [map concat]. by rewrite IH, map_app, concat_app.
Qed.

Lemma by_bucket_fold n partials acc i a :
  length acc = n -> Forall (fun p : form_maps => length (p.1 ++ p.2) = n) partials -> acc !! i = Some a ->
  foldl (fun acc p => zip_with (fun ms m => ms ++ [m]) acc (p.1 ++ p.2)) acc partials !! i =
    Some (a ++ omap (fun p => (p.1 ++ p.2) !! i) partials).
Proof.
  intros Hacc Hp. revert acc a Hacc. induction Hp as [|p partials Hl _ IH]; intros acc a Hacc Ha; [by rewrite app_nil_r|].
  cbn [foldl]. apply lookup_lt_Some in Ha as Hlt. destruct (lookup_lt_is_Some_2 (p.1 ++ p.2) i) as [m Hm]; [lia|].
  rewrite (IH _ (a ++ [m])); [|by rewrite length_zip_with, Hacc, Hl, Nat.min_id|by rewrite lookup_zip_with, Ha; simpl; rewrite Hm].
  simpl. rewrite Hm. by rewrite <- app_assoc.
Qed.

Lemma by_bucket_length n partials acc :
  length acc = n -> Forall (fun p : form_maps => length (p.1 ++ p.2) = n) partials ->
  length (foldl (fun acc p => zip_with (fun ms m => ms ++ [m]) acc (p.1 ++ p.2)) acc partials) = n.
Proof.
  intros Hacc Hp. revert acc Hacc. induction Hp as [|p partials Hl _ IH]; intros acc Hacc; [done|]. cbn [foldl].
  apply IH. by rewrite length_zip_with, Hacc, Hl, Nat.min_id.
Qed.

Definition form_index (f : bool) (buckets b : nat) : nat := (if f then buckets else 0) + b.

Lemma scanned_length buckets ps p : scanned buckets ps p -> length (p.1 ++ p.2) = 2 * buckets.
Proof. intros H. rewrite length_app. destruct (H false) as [H0 _], (H true) as [H1 _]. simpl in *. lia. Qed.

Lemma scanned_lookup buckets ps p f b :
  scanned buckets ps p -> b < buckets ->
  exists m, (p.1 ++ p.2) !! form_index f buckets b = Some m /\ map_ok f buckets b ps m.
Proof.
  intros H Hb. destruct (H f) as [Hl Hm]. destruct (lookup_lt_is_Some_2 (maps_of p f) b) as [m Hbm]; [lia|].
  exists m. split; [|by apply Hm]. destruct (H false) as [H0 _]. simpl in H0. unfold form_index. destruct f; simpl in *.
  - rewrite lookup_app_r by lia. by replace (buckets + b - length p.1) with b by lia.
  - by rewrite lookup_app_l by lia.
Qed.

(** The maps that reach a bucket's merge. *)
Lemma by_bucket_ok buckets pss partials f b :
  Forall2 (scanned buckets) pss partials -> b < buckets ->
  exists maps, by_bucket buckets partials !! form_index f buckets b = Some maps /\ Forall2 (map_ok f buckets b) pss maps.
Proof.
  intros HF Hb. assert (Hlen : Forall (fun p : form_maps => length (p.1 ++ p.2) = 2 * buckets) partials).
  { apply Forall_forall. intros p Hp. apply list_elem_of_lookup in Hp as [i Hi].
    destruct (Forall2_lookup_r _ _ _ _ _ HF Hi) as (ps & _ & Hs). by eapply scanned_length. }
  unfold by_bucket. rewrite (by_bucket_fold (2 * buckets) partials (replicate (2 * buckets) []) _ []);
    [|by rewrite length_replicate|done|].
  - eexists. split; [done|]. rewrite app_nil_l. clear Hlen. induction HF as [|ps p pss partials Hs _ IH]; [constructor|].
    destruct (scanned_lookup buckets ps p f b Hs Hb) as (m & Hm & Hok). simpl. rewrite Hm. by constructor.
  - apply lookup_replicate. split; [done|]. unfold form_index. destruct f; lia.
Qed.

(** The runs of one form, in bucket and term order. *)
Lemma form_runs_ok buckets pss partials (f : bool) :
  0 < buckets -> Forall2 (scanned buckets) pss partials ->
  exists rs, concat (take buckets (drop (if f then buckets else 0) (map merge_bucket (by_bucket buckets partials)))) = map to_run rs /\
    runs_ok f (concat pss) (fun _ => True) rs.
Proof.
  intros Hb HF. match goal with |- context [concat (take ?n ?l)] => set (L := take n l) end.
  assert (HL : forall b runs, L !! b = Some runs -> b < buckets /\ exists maps, by_bucket buckets partials !! form_index f buckets b = Some maps /\ runs = merge_bucket maps).
  { intros b runs Hl. apply lookup_take_Some in Hl as [Hl Hlt]. split; [done|]. rewrite lookup_drop, list_lookup_fmap in Hl.
    fold (form_index f buckets b) in Hl. destruct (by_bucket buckets partials !! form_index f buckets b); [|done]. injection Hl as <-. eauto. }
  destruct (concat_runs_ok f (concat pss) L (fun b t => bucket_for t buckets = b)) as (rs & Hrs & [Hn He Ha]).
  { intros b b' t <- <-. done. }
  { intros b runs Hl. destruct (HL b runs Hl) as (Hlt & maps & Hmaps & ->).
    destruct (by_bucket_ok buckets pss partials f b HF Hlt) as (maps' & Hmaps' & Hok). rewrite Hmaps in Hmaps'. injection Hmaps' as <-.
    by apply merge_bucket_ok. }
  exists rs. split; [done|]. split; [done| |].
  - eapply Forall_impl; [exact He|]. intros r [_ Hr]. done.
  - intros t _ Hne. apply Ha; [|done]. exists (bucket_for t buckets). split; [|done]. pose proof (bucket_lt t buckets Hb) as Hlt.
    destruct (by_bucket_ok buckets pss partials f (bucket_for t buckets) HF Hlt) as (maps & Hmaps & _).
    apply (lookup_lt_is_Some_1 L). exists (merge_bucket maps). unfold L. rewrite lookup_take_lt by done.
    rewrite lookup_drop, list_lookup_fmap. fold (form_index f buckets (bucket_for t buckets)). by rewrite Hmaps.
Qed.

(** ** The index of the chunks *)

(** The entry a chunk contributes to a term. *)
Definition item_entry (f : bool) (t : list Z) (it : item) : option (Posting * Z) :=
  if eqb it.1.2.(c_stemmed) f then (fun v => (it.1.1, v.1, v.2)) <$> column it.1.2 it.2 !! t else None.

Lemma filter_pairs f t slot c (l : list (nat * (list Z * Z))) :
  NoDup (map (fun e => e.2.1) l) ->
  map pair_entry (filter (fun p : pair => c_stemmed p.1.2 = f /\ p.2.2.1 = t) (term_pairs slot c l)) =
    if eqb (c_stemmed c) f then match old_at l t with Some (i, fr) => [(slot, fr, ordinal_at c i)] | None => [] end else [].
Proof.
  induction l as [|[i [k fr]] l IH]; intros Hnd; [by destruct (eqb _ _)|]. cbn [map] in Hnd. apply NoDup_cons in Hnd as [Hn Hnd].
  unfold term_pairs. cbn [map]. fold (term_pairs slot c l). rewrite filter_cons, old_at_cons. cbn [fst snd] in *.
  specialize (IH Hnd). destruct (eqb (c_stemmed c) f) eqn:E.
  - apply eqb_prop in E. destruct (decide (k = t)) as [->|Hk].
    + rewrite decide_True by done. cbn [map]. rewrite IH. replace (old_at l t) with (@None (nat * Z)); [done|].
      symmetry. unfold old_at. rewrite fmap_None, list_find_None, Forall_forall. intros x Hx Hk. apply Hn. rewrite <- Hk.
      apply list_elem_of_fmap. by exists x.
    + rewrite decide_False by naive_solver. exact IH.
  - apply eqb_false_iff in E. rewrite decide_False by naive_solver. exact IH.
Qed.

Lemma item_pairs_entries f t it : item_ok it -> pair_entries f t (item_pairs it) = match item_entry f t it with Some e => [e] | None => [] end.
Proof.
  intros [Hc _]. unfold pair_entries, item_pairs, item_entry. rewrite filter_pairs.
  - destruct (eqb _ _); [|done]. rewrite (column_old_at _ _ _ Hc). by destruct (old_at _ _) as [[]|].
  - rewrite enumerate_keys. by eapply column_NoDup.
Qed.

Lemma all_pairs_entries f t its : Forall item_ok its -> pair_entries f t (all_pairs its) = omap (item_entry f t) its.
Proof.
  induction 1 as [|it its Hit _ IH]; [done|]. unfold all_pairs in *. cbn [map concat]. rewrite pair_entries_app, IH, item_pairs_entries by done.
  simpl. by destruct (item_entry f t it).
Qed.

Lemma item_entry_Some f t it e :
  item_ok it -> item_entry f t it = Some e -> slot_of e = it.1.1 /\ is_u32 e.1.2 /\ is_u32 e.2 /\ c_stemmed it.1.2 = f /\ column it.1.2 it.2 !! t = Some (e.1.2, e.2).
Proof.
  intros [Hc Hs] He. unfold item_entry in He. destruct (eqb _ _) eqn:E; [|done]. apply eqb_prop in E.
  apply fmap_Some in He as (v & Hv & ->). cbn [slot_of fst snd]. pose proof Hv as Hv'. apply column_Some in Hv' as (i & Hi & Ho); [|done].
  pose proof (chunk_entries_ok _ _ it.1.1 Hc Hs) as Hall. rewrite Forall_forall in Hall.
  destruct (Hall (i, (t, v.1))) as (_ & H1 & H2); [apply elem_of_lookup_imap; by exists i, (t, v.1)|].
  cbn [fst snd] in *. rewrite <- Ho in H2. split_and!; try done. by destruct v.
Qed.

Definition item_slot (it : item) : Z := it.1.1.
Definition item_view (it : item) : Z * view := (it.1.1, view_of it.1.2 it.2).

Lemma omap_entries_ok f t its :
  Forall item_ok its -> StronglySorted Z.lt (map item_slot its) -> entries_ok (omap (item_entry f t) its).
Proof.
  intros Hits Hs. induction Hits as [|it its Hit Hits IH]; [repeat constructor|]. cbn [map] in Hs. inversion Hs as [|?? Hs' Hlt]; subst.
  specialize (IH Hs'). simpl. destruct (item_entry f t it) as [e|] eqn:E; [|done].
  destruct (item_entry_Some f t it e Hit E) as (Hsl & H1 & H2 & _). destruct IH as [I1 I2 I3]. split.
  - cbn [map]. constructor; [done|]. apply Forall_forall. intros z (x & -> & Hx)%list_elem_of_fmap.
    apply list_elem_of_omap in Hx as (it' & Hin & He'). rewrite Forall_forall in Hits. rewrite Forall_forall in Hlt.
    destruct (item_entry_Some f t it' x (Hits _ Hin) He') as (-> & _). rewrite Hsl. apply Hlt. apply list_elem_of_fmap. by exists it'.
  - constructor; [rewrite Hsl; apply Hit|done].
  - by constructor.
Qed.

Lemma items_NoDup its : StronglySorted Z.lt (map item_slot its) -> NoDup (map item_view its).*1.
Proof. intros Hs. change ((map item_view its).*1) with (map fst (map item_view its)). rewrite map_map. by apply sorted_NoDup. Qed.

(** What the new chunks add to a term. *)
Lemma entries_look f t its s :
  Forall item_ok its -> StronglySorted Z.lt (map item_slot its) ->
  to_map (omap (item_entry f t) its) !! s = look (list_to_map (map item_view its)) f t s.
Proof.
  intros Hits Hs. pose proof (entries_distinct _ (omap_entries_ok f t its Hits Hs)) as Hd. apply option_eq. intros v.
  rewrite to_map_Some by done. unfold look. rewrite Forall_forall in Hits. split.
  - intros (e & He & Hp). apply list_elem_of_omap in He as (it & Hin & He).
    destruct (item_entry_Some f t it e (Hits _ Hin) He) as (Hsl & _ & _ & Hf & Hcol). unfold to_pair in Hp. injection Hp as Hs' Hv.
    assert (Hl : (list_to_map (map item_view its) : chunk_map) !! s = Some (view_of it.1.2 it.2)).
    { apply elem_of_list_to_map; [by apply items_NoDup|]. apply list_elem_of_fmap. exists it. split; [|done]. unfold item_view. congruence. }
    rewrite Hl. cbn [fst snd view_of]. rewrite Hf, eqb_reflx. congruence.
  - destruct (list_to_map (map item_view its) !! s) as [w|] eqn:El; [|done]. apply elem_of_list_to_map_2, list_elem_of_fmap in El as (it & Hit & Hin).
    unfold item_view in Hit. injection Hit as -> ->. cbn [fst snd view_of]. destruct (eqb (c_stemmed it.1.2) f) eqn:E; [|done]. intros Hv.
    exists (it.1.1, v.1, v.2). split; [|unfold to_pair, slot_of; cbn [fst snd]; by destruct v].
    apply list_elem_of_omap. exists it. split; [done|]. unfold item_entry. by rewrite E, Hv.
Qed.

Lemma look_union C C' f t s : look (C ∪ C') f t s = match C !! s with Some _ => look C f t s | None => look C' f t s end.
Proof.
  unfold look. destruct (C !! s) as [v|] eqn:E; [by rewrite (lookup_union_Some_l _ _ _ _ E)|]. by rewrite lookup_union_r.
Qed.

Lemma add_runs_at M rs t :
  NoDup (run_terms rs) ->
  at_term (add_runs M rs) t = match list_find (fun r : term_entries => r.1.1 = t) rs with
                              | Some (_, r) => to_map r.1.2 ∪ at_term M t
                              | None => at_term M t
                              end.
Proof.
  revert M. induction rs as [|r rs IH]; intros M Hnd; [done|]. unfold run_terms in Hnd. cbn [map] in Hnd. apply NoDup_cons in Hnd as [Hn Hnd].
  change (add_runs M (r :: rs)) with (add_runs (add_run M r) rs). rewrite IH by done. cbn [list_find]. case_decide as Ht.
  - subst t. replace (list_find (fun r0 : term_entries => r0.1.1 = r.1.1) rs) with (@None (nat * term_entries)).
    + unfold add_run, at_term at 1. by rewrite lookup_insert_eq.
    + symmetry. rewrite list_find_None, Forall_forall. intros x Hx Hk. apply Hn. rewrite <- Hk. apply list_elem_of_fmap. by exists x.
  - unfold add_run. rewrite !at_term_insert_ne by done. by destruct (list_find _ rs) as [[]|].
Qed.

Lemma no_empty_add_runs M rs :
  no_empty M -> Forall (fun r : term_entries => r.1.2 <> []) rs -> no_empty (add_runs M rs).
Proof.
  intros H Hf. revert M H. induction Hf as [|r rs Hr _ IH]; intros M H; [done|].
  apply IH. intros t sm. unfold add_run. destruct (decide (t = r.1.1)) as [->|Ht].
  - rewrite lookup_insert_eq. intros [= <-]. intros He. apply Hr, to_map_nil. apply map_empty. intros k.
    apply (f_equal (lookup k)) in He. rewrite lookup_empty in He. destruct (to_map r.1.2 !! k) eqn:E; [|done].
    by rewrite (lookup_union_Some_l _ _ _ _ E) in He.
  - rewrite lookup_insert_ne by done. apply H.
Qed.

Section BulkSpec.
Context {D : Type} {dict : TermIndex D}.
Context (words : Z -> Z) (ws : list Z) (C : chunk_map) (its : list item).
Context (Hits : Forall item_ok its) (Hsorted : StronglySorted Z.lt (map item_slot its)).
Context (Hfresh : Forall (fun it => C !! item_slot it = None) its).
Context (Hws : words_small (words_at ws)) (Hold : forall k, is_Some (C !! k) -> (words k <= words_at ws k)%Z).
Context (Hsize : (Z.of_nat (size C + length its) < U32)%Z).

#[local] Abbreviation C' := (list_to_map (map item_view its) ∪ C : chunk_map).
#[local] Abbreviation added f t := (pair_entries f t (all_pairs its)).

Lemma added_look f t s : to_map (added f t) !! s = look (list_to_map (map item_view its)) f t s.
Proof. rewrite all_pairs_entries by done. by apply entries_look. Qed.

Lemma added_entries f t : entries_ok (added f t).
Proof. rewrite all_pairs_entries by done. by apply omap_entries_ok. Qed.

Lemma added_fresh f t : Forall (fun e => at_term (index_of C f) t !! slot_of e = None) (added f t).
Proof.
  rewrite all_pairs_entries by done. apply Forall_forall. intros e (it & Hin & He)%list_elem_of_omap. rewrite Forall_forall in Hits.
  destruct (item_entry_Some f t it e (Hits _ Hin) He) as (-> & _). rewrite index_of_lookup. unfold look.
  rewrite Forall_forall in Hfresh. by rewrite (Hfresh _ Hin : C !! it.1.1 = None).
Qed.

Lemma added_length f t : length (added f t) <= length its.
Proof.
  rewrite all_pairs_entries by done. generalize its as l. induction l as [|it l IH]; [done|]. unfold omap in *. cbn [list_omap length].
  destruct (item_entry f t it); cbn [length]; lia.
Qed.

Lemma runs_index rs f :
  runs_ok f (all_pairs its) (fun _ => True) rs -> add_runs (index_of C f) rs = index_of C' f.
Proof.
  intros [Hn He Ha]. apply index_of_eq.
  { apply no_empty_add_runs; [apply index_of_no_empty|]. eapply Forall_impl; [exact He|]. intros r (_ & _ & Hr & _). done. }
  intros t s. rewrite (add_runs_at _ _ _ Hn), look_union.
  assert (Hl : forall m : slot_map, m = to_map (added f t) -> (m ∪ at_term (index_of C f) t) !! s =
    match (list_to_map (map item_view its) : chunk_map) !! s with
    | Some _ => look (list_to_map (map item_view its)) f t s | None => look C f t s end).
  { intros m ->. destruct (to_map (added f t) !! s) as [v|] eqn:Ev.
    - rewrite (lookup_union_Some_l _ _ _ _ Ev). rewrite <- Ev, added_look in *. unfold look in Ev |- *. by destruct (list_to_map _ !! s).
    - rewrite lookup_union_r, index_of_lookup by done. rewrite added_look in Ev.
      destruct (list_to_map (map item_view its) !! s) as [w|] eqn:Ew; [|done]. rewrite Ev.
      apply elem_of_list_to_map_2, list_elem_of_fmap in Ew as (it & Hit & Hin). rewrite Forall_forall in Hfresh.
      unfold look. replace s with (item_slot it) by (unfold item_view in Hit; by injection Hit). by rewrite (Hfresh _ Hin). }
  destruct (list_find (fun r : term_entries => r.1.1 = t) rs) as [[i r]|] eqn:Ef.
  - apply list_find_Some in Ef as (Hi & <- & _). rewrite Forall_forall in He. destruct (He r) as (_ & Hr & _); [by eapply list_elem_of_lookup_2|].
    apply Hl. by rewrite Hr.
  - rewrite <- (Hl ∅); [by rewrite (left_id_L ∅ (∪))|]. symmetry. apply to_map_nil.
    destruct (added f t) as [|e l] eqn:Ea; [done|]. exfalso. specialize (Ha t I). rewrite Ea in Ha.
    apply list_elem_of_fmap in Ha as (r & Ht & Hr); [|done]. apply list_find_None in Ef. rewrite Forall_forall in Ef. by apply (Ef r Hr).
Qed.

Lemma form_insert_ok (s : PostingLists D) rs f :
  represents (fun _ => words) s (index_of C f) -> runs_ok f (all_pairs its) (fun _ => True) rs -> index_small C' f ->
  exists s', insert_runs_with_lengths s (map to_run rs) ws = Ok s' /\ represents (fun _ => words_at ws) s' (index_of C' f).
Proof.
  intros Hr Hrs [Htext Hsz]. pose proof (runs_index rs f Hrs) as Hidx. destruct Hrs as [Hn He Ha].
  assert (Hgrow : forall t k v, at_term (index_of C f) t !! k = Some v -> (words k <= words_at ws k)%Z).
  { intros t k v. rewrite index_of_lookup. unfold look. intros Hk. apply Hold. by destruct (C !! k). }
  destruct (insert_runs_ok (fun _ => words) s (index_of C f) rs ws Hr Hws Hn) as (s' & -> & Hr').
  - apply Forall_forall. intros r Hin. rewrite Forall_forall in He. destruct (He r Hin) as (_ & Hes & Hne & Hord).
    split; [done|]. split; [|intros k v Hk; by eapply Hgrow]. split_and!; [|done| |]; rewrite Hes.
    + apply added_entries.
    + apply added_fresh.
    + pose proof (added_length f r.1.1). pose proof (at_term_size C f r.1.1). lia.
  - rewrite Hidx. lia.
  - by rewrite Hidx.
  - exists s'. split; [done|]. rewrite Hidx in Hr'. eapply represents_mono; [|exact Hr']. intros t k v Hk. rewrite set_terms_at.
    case_decide as Ht; [lia|]. apply (Hgrow t k v). rewrite <- Hidx, (add_runs_at _ _ _ Hn) in Hk.
    destruct (list_find (fun r : term_entries => r.1.1 = t) rs) as [[i r]|] eqn:Ef; [|done].
    apply list_find_Some in Ef as (Hi & <- & _). destruct Ht. apply list_elem_of_fmap. exists r. split; [done|]. by eapply list_elem_of_lookup_2.
Qed.

(** [index_chunks] adds the chunks, whatever the number of threads. *)
Lemma index_chunks_ok threads (ps : PostingLists D * PostingLists D) :
  indexes words ps C -> (forall f, index_small C' f) ->
  exists ps', index_chunks threads ps (map item_chunk its) ws = Ok ps' /\ indexes (words_at ws) ps' C'.
Proof.
  intros Hi Hsm. assert (Hcase : its = [] \/ exists it l, its = it :: l) by (destruct its; eauto).
  destruct Hcase as [Hnil|(it & l & Eits)].
  { exists ps. rewrite Hnil. split; [done|]. intros f. change (list_to_map (map item_view [])) with (∅ : chunk_map). rewrite (left_id_L ∅ (∪)).
    eapply represents_mono; [|apply Hi]. intros t k v. rewrite index_of_lookup. unfold look. intros Hk. apply Hold. by destruct (C !! k). }
  unfold index_chunks. replace (map item_chunk its) with (item_chunk it :: map item_chunk l) at 1 by (by rewrite Eits).
  cbv beta iota. set (buckets := if length (map item_chunk its) <? PARALLEL_CHUNKS then 1 else MERGE_BUCKETS).
  set (range := Nat.max _ MIN_RANGE). rewrite length_map, chunks_of_map.
  assert (Hb : 0 < buckets) by (unfold buckets; destruct (_ <? _); vm_compute; lia).
  assert (Hrange : 0 < range) by (unfold range; change MIN_RANGE with 32; lia).
  assert (Hcat : concat (chunks_of (length its) range its) = its) by (by apply chunks_of_concat).
  destruct (scan_ranges_ok buckets (chunks_of (length its) range its) Hb) as (partials & -> & HF).
  { apply Forall_forall. intros r Hr. apply Forall_forall. intros x Hx. rewrite Forall_forall in Hits. apply Hits. rewrite <- Hcat.
    apply list_elem_of_In, in_concat. exists r. split; by apply list_elem_of_In. }
  cbn [obind]. assert (Hpss : concat (map all_pairs (chunks_of (length its) range its)) = all_pairs its) by (by rewrite all_pairs_concat, Hcat).
  destruct (form_runs_ok buckets _ partials false Hb HF) as (r0 & Hr0 & Hok0).
  destruct (form_runs_ok buckets _ partials true Hb HF) as (r1 & Hr1 & Hok1). rewrite Hpss in Hok0, Hok1.
  rewrite drop_0 in Hr0. rewrite Hr0, Hr1.
  destruct (form_insert_ok ps.1 r0 false (Hi false) Hok0 (Hsm false)) as (s0 & -> & H0). cbn [obind].
  destruct (form_insert_ok ps.2 r1 true (Hi true) Hok1 (Hsm true)) as (s1 & -> & H1). cbn [obind].
  exists (s0, s1). split; [by rewrite Eits|]. intros []; [exact H1|exact H0].
Qed.
End BulkSpec.
