(* ===== verification/IndexRuns.v ===== *)
(** * Histories of the lexical index

    Any sequence of bulk additions, replacements and removals of chunks leaves the two inverted
    indexes holding exactly the postings of the chunks that are there. *)

From S2P Require Import Prelude Words BitPack Search Positions Terms Binary TermDict Postings Cursor PostingEdit PostingRuns Lists Indexing Bulk.

(** ** Chunks by slot *)

Abbreviation slot_chunks := (gmap Z (StoredChunk * list (list Z * Z))).

Definition views (R : slot_chunks) : chunk_map := (fun ce => view_of ce.1 ce.2) <$> R.

(** The lengths array gives the length of every chunk that is there. *)
Definition lengths_ok (ws : list Z) (R : slot_chunks) : Prop :=
  words_small (words_at ws) /\ map_Forall (fun k ce => words_at ws k = c_word_count ce.1) R.

Definition lengths_of (R : slot_chunks) (k : Z) : Z := default 0%Z ((fun ce => c_word_count ce.1) <$> R !! k).

Inductive index_op : Type :=
| IBulk (its : list item) (ws : list Z)
| IReplace (slot : Z) (new : StoredChunk) (news : list (list Z * Z)) (ws : list Z)
| IRemove (slot : Z) (ws : list Z).

(** The chunks after an operation. *)
Definition chunks_step (R : slot_chunks) (o : index_op) : slot_chunks :=
  match o with
  | IBulk its _ => list_to_map (map (fun it => (it.1.1, (it.1.2, it.2))) its) ∪ R
  | IReplace slot new news _ => <[slot := (new, news)]> R
  | IRemove slot _ => delete slot R
  end.

Definition all_small (R : slot_chunks) : Prop :=
  index_small (views R) false /\ index_small (views R) true /\ (Z.of_nat (size R) + 1 < U32)%Z.

Definition op_ok (R : slot_chunks) (o : index_op) : Prop :=
  all_small (chunks_step R o) /\
  match o with
  | IBulk its ws => Forall item_ok its /\ StronglySorted Z.lt (map item_slot its) /\
      Forall (fun it => R !! item_slot it = None) its /\ lengths_ok ws (chunks_step R o)
  | IReplace slot new news ws => is_Some (R !! slot) /\ chunk_terms new news /\ lengths_ok ws (chunks_step R o)
  | IRemove slot ws => is_Some (R !! slot) /\ lengths_ok ws R
  end.

Fixpoint ops_ok (R : slot_chunks) (os : list index_op) : Prop :=
  match os with [] => True | o :: rest => op_ok R o /\ ops_ok (chunks_step R o) rest end.

Definition final_chunks (os : list index_op) : slot_chunks := foldl chunks_step ∅ os.

Section Runs.
Context {D : Type} {dict : TermIndex D}.
Abbreviation forms := (PostingLists D * PostingLists D)%type.

(** The code of an operation; [R] tells which chunk a slot holds. *)
Definition index_step (threads : nat) (R : slot_chunks) (ps : forms) (o : index_op) : outcome forms :=
  match o with
  | IBulk its ws => index_chunks threads ps (map item_chunk its) ws
  | IReplace slot new _ ws => let* old := expect (R !! slot) in replace_postings ps old.1 new slot ws
  | IRemove slot ws => let* old := expect (R !! slot) in remove_postings ps old.1 slot ws
  end.

Fixpoint index_steps (threads : nat) (R : slot_chunks) (ps : forms) (os : list index_op) : outcome forms :=
  match os with
  | [] => Ok ps
  | o :: rest => let* ps := index_step threads R ps o in index_steps threads (chunks_step R o) ps rest
  end.

(** ** One operation *)

Record state_ok (R : slot_chunks) (ps : forms) : Prop := {
  so_chunks : map_Forall (fun k ce => chunk_terms ce.1 ce.2 /\ is_u64 k) R;
  so_small : all_small R;
  so_lengths : words_small (lengths_of R);
  so_index : indexes (lengths_of R) ps (views R) }.

Lemma indexes_words words words' (ps : forms) C :
  (forall k, is_Some (C !! k) -> (words k <= words' k)%Z) -> indexes words ps C -> indexes words' ps C.
Proof.
  intros Hw Hi f. eapply represents_mono; [|apply Hi]. intros t k v. rewrite index_of_lookup. unfold look.
  intros Hk. apply Hw. by destruct (C !! k).
Qed.

Lemma views_insert R k ce : views (<[k := ce]> R) = <[k := view_of ce.1 ce.2]> (views R).
Proof. unfold views. by rewrite fmap_insert. Qed.

Lemma views_delete R k : views (delete k R) = delete k (views R).
Proof. unfold views. by rewrite fmap_delete. Qed.

Lemma views_is_Some R k : is_Some (views R !! k) <-> is_Some (R !! k).
Proof. unfold views. rewrite lookup_fmap. by rewrite fmap_is_Some. Qed.

Lemma views_bulk its R :
  views (list_to_map (map (fun it : item => (it.1.1, (it.1.2, it.2))) its) ∪ R) = list_to_map (map item_view its) ∪ views R.
Proof.
  unfold views. rewrite map_fmap_union. f_equal. rewrite <- list_to_map_fmap. f_equal.
  induction its as [|[[s c] es] its IH]; [done|]. simpl. by f_equal.
Qed.

Lemma lengths_agree ws R k : lengths_ok ws R -> is_Some (R !! k) -> words_at ws k = lengths_of R k.
Proof. intros [_ Hl] [ce Hk]. unfold lengths_of. rewrite Hk. exact (Hl _ _ Hk). Qed.

Lemma lengths_small ws R : lengths_ok ws R -> words_small (lengths_of R).
Proof.
  intros [Hs Hl] k. unfold lengths_of. destruct (R !! k) as [ce|] eqn:E; [|done]. simpl. rewrite <- (Hl _ _ E). apply Hs.
Qed.

(** The index for the array's lengths is the index for the chunks' own. *)
Lemma indexes_lengths ws R (ps : forms) :
  lengths_ok ws R -> indexes (words_at ws) ps (views R) -> indexes (lengths_of R) ps (views R).
Proof.
  intros Hl. apply indexes_words. intros k Hk. rewrite views_is_Some in Hk. rewrite (lengths_agree ws R k Hl Hk). lia.
Qed.

Lemma size_views R : size (views R) = size R.
Proof. unfold views. apply map_size_fmap. Qed.

Lemma bulk_step_ok threads R (ps : forms) its ws :
  state_ok R ps -> op_ok R (IBulk its ws) ->
  exists ps', index_step threads R ps (IBulk its ws) = Ok ps' /\ state_ok (chunks_step R (IBulk its ws)) ps'.
Proof.
  intros [Hc Hsm Hlen Hi] (Hsm' & Hits & Hsorted & Hfresh & Hl). cbn [index_step].
  set (R' := chunks_step R (IBulk its ws)) in *.
  assert (Hview : views R' = list_to_map (map item_view its) ∪ views R) by apply views_bulk.
  assert (Hnone : forall k, is_Some (R !! k) -> R' !! k = R !! k).
  { intros k Hk. unfold R'. cbn [chunks_step]. apply lookup_union_r, not_elem_of_list_to_map_1.
    intros (e & -> & Hin)%list_elem_of_fmap. apply list_elem_of_fmap in Hin as (it & -> & Hin). rewrite Forall_forall in Hfresh.
    pose proof (Hfresh it Hin) as Hn. unfold item_slot in Hn. cbn [fst] in Hk. rewrite Hn in Hk. by destruct Hk. }
  destruct (index_chunks_ok (lengths_of R) ws (views R) its Hits Hsorted) with (threads := threads) (ps := ps) as (ps' & -> & Hi').
  - eapply Forall_impl; [exact Hfresh|]. intros it Hn. cbv beta in *. unfold views. by rewrite lookup_fmap, Hn.
  - apply Hl.
  - intros k Hk. rewrite views_is_Some in Hk. assert (Hk' : is_Some (R' !! k)) by (by rewrite Hnone).
    rewrite (lengths_agree ws R' k Hl Hk'). unfold lengths_of. rewrite Hnone by done. lia.
  - rewrite size_views. destruct Hsm' as (_ & _ & Hsz). assert (Hd : size R' = length its + size R); [|lia].
    unfold R'. cbn [chunks_step]. rewrite map_size_disj_union.
    + f_equal. rewrite map_size_list_to_map; [by rewrite length_map|]. change (NoDup (map fst (map (fun it : item => (it.1.1, (it.1.2, it.2))) its))).
      rewrite map_map. by apply sorted_NoDup.
    + apply map_disjoint_spec. intros k x y Hx Hy. apply elem_of_list_to_map_2, list_elem_of_fmap in Hx as (it & [= -> ->] & Hin).
      rewrite Forall_forall in Hfresh. pose proof (Hfresh it Hin). unfold item_slot in *. congruence.
  - done.
  - rewrite <- Hview. destruct Hsm' as (H0 & H1 & _). by intros [].
  - exists ps'. split; [done|]. rewrite <- Hview in Hi'. split; [|done|by eapply lengths_small|by eapply indexes_lengths].
    intros k ce Hk. unfold R' in Hk. cbn [chunks_step] in Hk. apply lookup_union_Some_raw in Hk as [Hk|[_ Hk]]; [|by apply Hc].
    apply elem_of_list_to_map_2, list_elem_of_fmap in Hk as (it & [= -> ->] & Hin). rewrite Forall_forall in Hits. apply (Hits it Hin).
Qed.

Lemma replace_step_ok threads R (ps : forms) slot new news ws :
  state_ok R ps -> op_ok R (IReplace slot new news ws) ->
  exists ps', index_step threads R ps (IReplace slot new news ws) = Ok ps' /\ state_ok (chunks_step R (IReplace slot new news ws)) ps'.
Proof.
  intros [Hc Hsm Hlen Hi] (Hsm' & [[old olds] Hold] & Hn & Hl). cbn [index_step]. rewrite Hold. cbn [expect obind fst].
  cbn [chunks_step] in *. destruct (Hc slot _ Hold) as [Ho Hslot]. cbn [fst snd] in Ho.
  assert (Hw : words_at ws slot = c_word_count new).
  { rewrite (lengths_agree ws _ slot Hl) by (by rewrite lookup_insert_eq). unfold lengths_of. by rewrite lookup_insert_eq. }
  set (words := fun k => if decide (k = slot) then c_word_count old else words_at ws k).
  assert (Hlo : lengths_of R slot = c_word_count old) by (unfold lengths_of; by rewrite Hold).
  assert (Hiw : indexes words ps (views R)).
  { eapply indexes_words; [|exact Hi]. intros k Hk. rewrite views_is_Some in Hk. unfold words. case_decide as Hs; [subst; lia|].
    rewrite (lengths_agree ws (<[slot := (new, news)]> R) k Hl) by (by rewrite lookup_insert_ne).
    unfold lengths_of. rewrite lookup_insert_ne by done. lia. }
  destruct (replace_postings_ok words ps (views R) old new olds news slot ws) as (ps' & -> & Hi'); try done.
  - unfold views. by rewrite lookup_fmap, Hold.
  - intros k. unfold words. case_decide; [rewrite <- Hlo; apply Hlen|apply Hl].
  - apply Hl.
  - intros k Hk. unfold words. by rewrite decide_False.
  - intros Hle. unfold words. rewrite decide_True by done. lia.
  - rewrite size_views. apply Hsm.
  - destruct Hsm as ([] & [] & _). by destruct (c_stemmed old).
  - destruct Hsm' as (H0 & H1 & _). rewrite views_insert in H0, H1. by destruct (c_stemmed new).
  - exists ps'. split; [done|]. pose proof (views_insert R slot (new, news)) as Hv. cbn [fst snd] in Hv. rewrite <- Hv in Hi'. split; [|done|by eapply lengths_small|by eapply indexes_lengths].
    apply map_Forall_insert_2; [done|]. intros k ce Hk. by apply Hc.
Qed.

Lemma remove_step_ok threads R (ps : forms) slot ws :
  state_ok R ps -> op_ok R (IRemove slot ws) ->
  exists ps', index_step threads R ps (IRemove slot ws) = Ok ps' /\ state_ok (chunks_step R (IRemove slot ws)) ps'.
Proof.
  intros [Hc Hsm Hlen Hi] (Hsm' & [[old olds] Hold] & Hl). cbn [index_step]. rewrite Hold. cbn [expect obind fst].
  destruct (Hc slot _ Hold) as [Ho Hslot]. cbn [fst snd] in Ho.
  destruct (remove_postings_ok (words_at ws) ps (views R) old olds slot ws) as (ps' & -> & Hi'); try done.
  - eapply indexes_words; [|exact Hi]. intros k Hk. rewrite views_is_Some in Hk. rewrite (lengths_agree ws R k Hl Hk). lia.
  - unfold views. by rewrite lookup_fmap, Hold.
  - apply Hl.
  - destruct Hsm as ([] & [] & _). by destruct (c_stemmed old).
  - exists ps'. split; [done|]. cbn [chunks_step] in *. rewrite <- views_delete in Hi'.
    assert (Hl' : lengths_ok ws (delete slot R)).
    { destruct Hl as [Hs Hf]. split; [done|]. intros k ce [_ Hk]%lookup_delete_Some. by apply Hf. }
    split; [|done|by eapply lengths_small|by eapply indexes_lengths]. intros k ce [_ Hk]%lookup_delete_Some. by apply Hc.
Qed.

Lemma index_steps_ok threads R (ps : forms) os :
  state_ok R ps -> ops_ok R os ->
  exists ps', index_steps threads R ps os = Ok ps' /\ state_ok (foldl chunks_step R os) ps'.
Proof.
  revert R ps. induction os as [|o os IH]; intros R ps Hs Ho; [by exists ps|]. destruct Ho as [Ho Hos]. cbn [index_steps].
  assert (Hstep : exists ps1, index_step threads R ps o = Ok ps1 /\ state_ok (chunks_step R o) ps1).
  { destruct o; [by apply bulk_step_ok|by apply replace_step_ok|by apply remove_step_ok]. }
  destruct Hstep as (ps1 & -> & Hs1). cbn [obind]. by apply IH.
Qed.

(** ** Lookups *)

(** What the index answers for a term of one form. *)
Definition term_answer (ps : forms) (f : bool) (t : list Z) : outcome (list Posting) :=
  let* l := pls_get (form ps f) t in
  match l with Some l => decode l | None => Ok [] end.

Lemma represents_answer words (s : PostingLists D) M t :
  represents words s M ->
  exists qs, (let* l := pls_get s t in match l with Some l => decode l | None => Ok [] end) = Ok qs /\
    StronglySorted Z.lt (map fst qs) /\ forall k fr, (k, fr) ∈ qs <-> exists o, at_term M t !! k = Some (fr, o).
Proof.
  intros (m & Hd & Hc). unfold pls_get. rewrite (ti_get_ok _ _ _ Hd). cbn [obind].
  destruct (m !! t) as [id|] eqn:Hid.
  - destruct (lo_live _ _ _ _ _ Hc t id Hid) as (_ & l & es & Hl & Hm & _ & HM). rewrite Hl. cbn [expect obind].
    pose proof (models_entries _ _ _ Hm) as He. destruct Hm as (gs & Hpl & <-).
    exists (map fst (flat gs)). split_and!.
    + apply decode_ok, Hpl.
    + rewrite map_map. apply He.
    + intros k fr. rewrite (at_term_Some _ _ _ HM). apply map_entries. by apply entries_distinct.
  - exists []. split_and!; [done|constructor|]. intros k fr. rewrite elem_of_nil.
    unfold at_term. rewrite (proj1 (core_None _ _ _ _ _ t Hc) Hid). split; [done|]. by intros [o Ho].
Qed.

Lemma state_default : state_ok ∅ (pls_default, pls_default).
Proof.
  split; [done|split_and!; by vm_compute|done|]. intros f.
  replace (index_of (views ∅) f) with (∅ : index_map) by done. destruct f; apply represents_default.
Qed.
End Runs.

(** C5: the index is the chunks it holds.  Starting empty, any sequence of bulk additions of new
    slots, replacements of a slot's chunk and removals runs without a panic, on any number of
    threads, and afterwards every term of either form answers with exactly the slots whose chunk
    has the term, in ascending order with the chunk's frequency. *)
Theorem index_refines_chunks threads os :
  ops_ok ∅ os ->
  exists ps, index_steps (D := TermDictionary) threads ∅ (pls_default, pls_default) os = Ok ps /\
    forall f t, exists qs, term_answer ps f t = Ok qs /\ StronglySorted Z.lt (map fst qs) /\
      forall k fr, (k, fr) ∈ qs <-> exists o, look (views (final_chunks os)) f t k = Some (fr, o).
Proof.
  intros Ho. destruct (index_steps_ok threads ∅ (pls_default, pls_default) os state_default Ho) as (ps & Hrun & Hs).
  exists ps. split; [done|]. intros f t. destruct (represents_answer _ _ _ t (so_index _ _ Hs f)) as (qs & Hq & Hsort & Hin).
  exists qs. split_and!; [done|done|]. intros k fr. rewrite Hin. by setoid_rewrite index_of_lookup.
Qed.

Definition toy_chunk (entries : list (list Z * Z)) (stemmed : bool) (words : Z) : StoredChunk :=
  {| c_id := []; c_text := None; c_text_at := None; c_start_byte := 0; c_end_byte := 0;
     c_vector := {| hv_dim := 64; hv_indices := [] |}; c_embedding := None;
     c_terms := {| t_terms := Some (Tree entries); t_positions := None |};
     c_word_count := words; c_stemmed := stemmed; c_vector_state := Encoded |}.

Definition cats : list (list Z * Z) := [([99], 2); ([100], 1)]%Z.
Definition dogs : list (list Z * Z) := [([98], 1); ([100], 5)]%Z.

Definition toy_index_ops : list index_op :=
  [IBulk [(0, toy_chunk cats true 3, cats); (1, toy_chunk dogs true 6, dogs); (2, toy_chunk cats false 3, cats)] [3; 6; 3];
   IReplace 0 (toy_chunk dogs true 2) dogs [2; 6; 3];
   IRemove 1 [2; 6; 3]]%Z.

Lemma toy_lengths (ws : list Z) : Forall (fun w => 0 <= w < U32_MAX)%Z ws -> words_small (words_at ws).
Proof.
  intros Hf k. unfold words_at. destruct (ws !! Z.to_nat k) eqn:E; [|simpl; vm_compute; split; [discriminate|reflexivity]].
  rewrite Forall_lookup in Hf. exact (Hf _ _ E).
Qed.

Lemma toy_chunk_terms e st w :
  strings_ok (map fst e) -> Terms.entries_ok e -> (Z.of_nat (length e) < U32 - 1)%Z -> chunk_terms (toy_chunk e st w) e.
Proof. intros Ht He Hl. split; [split; [reflexivity|exact Ht]|exact He|exact Hl]. Qed.

Lemma toy_entries_ok : Terms.entries_ok cats /\ Terms.entries_ok dogs.
Proof. split; (split; [by_decide|by_decide]). Qed.

Lemma toy_index_ops_ok : ops_ok ∅ toy_index_ops.
Proof.
  destruct toy_entries_ok as [Hc Hd].
  assert (Hall : forall l, l ∈ [[3; 6; 3]; [2; 6; 3]]%Z -> words_small (words_at l)).
  { intros l Hl. apply toy_lengths. revert l Hl. apply (Forall_forall (fun l => Forall (fun w => 0 <= w < U32_MAX)%Z l)). by_decide. }
  unfold toy_index_ops. cbn [ops_ok]. split; [|split; [|split; [|exact I]]].
  - split; [by_decide|]. split_and!; [|by_decide|by_decide|split; [by apply Hall; left|by_decide]].
    repeat constructor; try (by_decide); try (by apply toy_chunk_terms; [|vm_compute; reflexivity]); try exact Hc; try exact Hd.
  - split; [by_decide|]. split_and!; [by_decide|apply toy_chunk_terms; [by_decide|done..]|split; [apply Hall; right; left|by_decide]].
  - split; [by_decide|]. split; [by_decide|split; [apply Hall; right; left|by_decide]].
Qed.

Lemma index_refines_chunks_witness :
  ops_ok ∅ toy_index_ops /\
  exists ps, index_steps (D := TermDictionary) 4 ∅ (pls_default, pls_default) toy_index_ops = Ok ps /\
    exists qs, term_answer ps true [100]%Z = Ok qs /\ ((0, 5)%Z ∈ qs) /\ ((1, 5)%Z ∉ qs).
Proof.
  split; [exact toy_index_ops_ok|].
  destruct (index_refines_chunks 4 toy_index_ops toy_index_ops_ok) as (ps & Hrun & Hall).
  exists ps. split; [exact Hrun|]. destruct (Hall true [100]%Z) as (qs & Hq & _ & Hin). exists qs. split; [exact Hq|]. split.
  - apply Hin. exists 0%Z. vm_compute. reflexivity.
  - intros Hb. apply Hin in Hb as [o Ho]. vm_compute in Ho. discriminate Ho.
Defined.
