(* ===== verification/Filters.v ===== *)
(** * Document filters

    The filter indexes of [src/core/documents/index.rs]: documents by source and by scalar
    metadata ([insert_filters], [remove_filters], [remove_secondary], [metadata_candidates],
    [candidate_ids]) and the exact match of [src/core/documents.rs] ([matches_document]) they
    narrow.  No document that matches the options is lost by taking candidates. *)

From S2P Require Import Prelude Words Positions Terms Binary.

(** ** JSON values *)

(** The scalars [scalar_key] tells apart: null, booleans, strings, integers. *)
Inductive scalar : Type :=
| SNull
| SBool (b : bool)
| SString (s : list Z)
| SInteger (text : list Z).

(** [serde_json::Value]: its object entries ([as_object], keys are distinct) and which scalar it
    is, the integers with their decimal text; floats, arrays and objects are no scalar. *)
Class Json (V : Type) := {
  json_eq :: EqDecision V;
  as_object : V -> option (list (list Z * V));
  as_scalar : V -> option scalar;
  object_keys : forall v es, as_object v = Some es -> NoDup (map fst es) }.

Section Filters.
Context {V : Type} {json : Json V}.
Abbreviation Doc := (StoredDocument V).

(** ["true"] and ["false"]. *)
Definition bool_text (b : bool) : list Z := if b then [116; 114; 117; 101]%Z else [102; 97; 108; 115; 101]%Z.

(** [scalar_key]: a tag byte ([n], [b], [s], [i]) and the text. *)
Definition scalar_key (v : V) : option (list Z) :=
  match as_scalar v with
  | Some SNull => Some [110]%Z
  | Some (SBool b) => Some (98%Z :: bool_text b)
  | Some (SString s) => Some (115%Z :: s)
  | Some (SInteger t) => Some (105%Z :: t)
  | None => None
  end.

Abbreviation id_sets K := (gmap K (gset (list Z))).

Record FilterIndex := mkFilters { f_sources : id_sets (list Z); f_metadata : id_sets (list Z * list Z) }.

Definition filters_default : FilterIndex := {| f_sources := ∅; f_metadata := ∅ |}.

(** [map.entry(key).or_default().insert(id)]. *)
Definition add_secondary {K} `{Countable K} (m : id_sets K) (key : K) (id : list Z) : id_sets K :=
  <[key := {[ id ]} ∪ default ∅ (m !! key)]> m.

Definition remove_secondary {K} `{Countable K} (m : id_sets K) (key : K) (id : list Z) : outcome (id_sets K) :=
  let* posting := expect (m !! key) in
  if decide (id ∈ posting) then
    let posting := posting ∖ {[ id ]} in
    Ok (if decide (posting = ∅) then delete key m else <[key := posting]> m)
  else Panic.

(** The (key, scalar) pairs of a document's metadata. *)
Definition metadata_keys (v : V) : list (list Z * list Z) :=
  omap (fun e => pair e.1 <$> scalar_key e.2) (default [] (as_object v)).

Definition insert_filters (f : FilterIndex) (d : Doc) : FilterIndex :=
  {| f_sources := match doc_source_uri d with Some uri => add_secondary (f_sources f) uri (doc_id d) | None => f_sources f end;
     f_metadata := foldl (fun m k => add_secondary m k (doc_id d)) (f_metadata f) (metadata_keys (doc_metadata d)) |}.

Fixpoint remove_all {K} `{Countable K} (m : id_sets K) (keys : list K) (id : list Z) : outcome (id_sets K) :=
  match keys with
  | [] => Ok m
  | key :: rest => let* m := remove_secondary m key id in remove_all m rest id
  end.

Definition remove_filters (f : FilterIndex) (d : Doc) : outcome FilterIndex :=
  let* sources := match doc_source_uri d with Some uri => remove_secondary (f_sources f) uri (doc_id d) | None => Ok (f_sources f) end in
  let* metadata := remove_all (f_metadata f) (metadata_keys (doc_metadata d)) (doc_id d) in
  Ok {| f_sources := sources; f_metadata := metadata |}.

(** [SearchOptions], the fields that filter. *)
Record SearchOptions := mkOptions {
  o_filter : option V; o_source_uri : option (list Z); o_document_ids : option (list (list Z)) }.

(** [smallest.is_none_or(|best| ids.len() < best.len())]. *)
Definition smaller (n : nat) (best : option (gset (list Z))) : bool :=
  match best with Some b => n <? size b | None => true end.

Fixpoint metadata_loop (f : FilterIndex) (entries : list (list Z * V)) (smallest : option (gset (list Z)))
    : option (gset (list Z)) :=
  match entries with
  | [] => smallest
  | (key, value) :: rest =>
      match scalar_key value with
      | Some k =>
          match f_metadata f !! (key, k) with
          | None => Some ∅
          | Some ids => metadata_loop f rest (if smaller (size ids) smallest then Some ids else smallest)
          end
      | None => metadata_loop f rest smallest
      end
  end.

Definition metadata_candidates (f : FilterIndex) (filter : option V) : option (gset (list Z)) :=
  metadata_loop f (default [] (filter ≫= as_object)) None.

(** The candidates, [None] for every document; the vector lists the set in ascending order. *)
Definition candidate_ids (f : FilterIndex) (documents : gmap (list Z) Doc) (o : SearchOptions) : option (gset (list Z)) :=
  let smallest := metadata_candidates f (o_filter o) in
  let by_source (k : option (gset (list Z)) -> option (gset (list Z))) :=
    match o_source_uri o with
    | Some uri =>
        match f_sources f !! uri with
        | None => Some ∅
        | Some ids => k (if smaller (size ids) smallest then Some ids else smallest)
        end
    | None => k smallest
    end in
  by_source (fun smallest =>
    match o_document_ids o with
    | Some ids =>
        if smaller (length ids) smallest
        then Some (filter (fun id => is_Some (documents !! id)) (list_to_set ids : gset (list Z)))
        else smallest
    | None => smallest
    end).

(** [metadata.get(key)]. *)
Definition json_get (v : V) (key : list Z) : option V :=
  match as_object v with
  | Some es => snd <$> (snd <$> list_find (fun e : list Z * V => e.1 = key) es)
  | None => None
  end.

Definition matches_metadata (metadata : V) (filter : option V) : bool :=
  match filter ≫= as_object with
  | Some es => forallb (fun e : list Z * V => bool_decide (json_get metadata e.1 = Some e.2)) es
  | None => true
  end.

Definition matches_document_metadata (d : Doc) (o : SearchOptions) : bool :=
  match o_source_uri o with Some uri => bool_decide (doc_source_uri d = Some uri) | None => true end &&
  matches_metadata (doc_metadata d) (o_filter o).

Definition matches_document (d : Doc) (o : SearchOptions) : bool :=
  match o_document_ids o with Some ids => bool_decide (doc_id d ∈ ids) | None => true end &&
  matches_document_metadata d o.

(** ** The filter indexes of a set of documents *)

Definition keyed {K} `{Countable K} (m : id_sets K) (key : K) : gset (list Z) := default ∅ (m !! key).
Definition no_empty_sets {K} `{Countable K} (m : id_sets K) : Prop := forall key ids, m !! key = Some ids -> ids <> ∅.

Record filters_ok (f : FilterIndex) (documents : gmap (list Z) Doc) : Prop := {
  fo_sources : forall uri id, id ∈ keyed (f_sources f) uri <-> exists d, documents !! id = Some d /\ doc_source_uri d = Some uri;
  fo_metadata : forall key id, id ∈ keyed (f_metadata f) key <-> exists d, documents !! id = Some d /\ key ∈ metadata_keys (doc_metadata d);
  fo_sources_set : no_empty_sets (f_sources f);
  fo_metadata_set : no_empty_sets (f_metadata f) }.

Lemma keyed_add {K} `{Countable K} (m : id_sets K) key id key' id' :
  id' ∈ keyed (add_secondary m key id) key' <-> (key' = key /\ id' = id) \/ id' ∈ keyed m key'.
Proof.
  unfold keyed, add_secondary. destruct (decide (key' = key)) as [->|Hk].
  - rewrite lookup_insert_eq. simpl. set_solver.
  - rewrite lookup_insert_ne by done. naive_solver.
Qed.

Lemma add_no_empty {K} `{Countable K} (m : id_sets K) key id : no_empty_sets m -> no_empty_sets (add_secondary m key id).
Proof.
  intros Hm key' ids. unfold add_secondary. destruct (decide (key' = key)) as [->|Hk].
  - rewrite lookup_insert_eq. intros [= <-]. set_solver.
  - rewrite lookup_insert_ne by done. apply Hm.
Qed.

Lemma remove_secondary_ok {K} `{Countable K} (m : id_sets K) key id :
  no_empty_sets m -> id ∈ keyed m key ->
  exists m', remove_secondary m key id = Ok m' /\ no_empty_sets m' /\
    forall key' id', id' ∈ keyed m' key' <-> id' ∈ keyed m key' /\ (key' <> key \/ id' <> id).
Proof.
  intros Hm Hin. unfold remove_secondary. unfold keyed in Hin. destruct (m !! key) as [ids|] eqn:Ek; [|set_solver]. simpl in Hin.
  cbn [expect obind]. rewrite decide_True by done. eexists. split; [done|]. destruct (decide (ids ∖ {[id]} = ∅)) as [He|He]; split.
  - intros key' ids' [_ Hl]%lookup_delete_Some. by eapply Hm.
  - intros key' id'. unfold keyed. destruct (decide (key' = key)) as [->|Hk].
    + rewrite lookup_delete_eq, Ek. simpl. set_solver.
    + rewrite lookup_delete_ne by done. naive_solver.
  - intros key' ids'. destruct (decide (key' = key)) as [->|Hk]; [rewrite lookup_insert_eq; by intros [= <-]|].
    rewrite lookup_insert_ne by done. apply Hm.
  - intros key' id'. unfold keyed. destruct (decide (key' = key)) as [->|Hk].
    + rewrite lookup_insert_eq, Ek. simpl. set_solver.
    + rewrite lookup_insert_ne by done. naive_solver.
Qed.

Lemma foldl_add {K} `{Countable K} (m : id_sets K) keys id :
  no_empty_sets m -> let m' := foldl (fun m k => add_secondary m k id) m keys in
  no_empty_sets m' /\ forall key' id', id' ∈ keyed m' key' <-> (key' ∈ keys /\ id' = id) \/ id' ∈ keyed m key'.
Proof.
  revert m. induction keys as [|key keys IH]; intros m Hm; [split; [done|]; simpl; intros; rewrite elem_of_nil; tauto|].
  destruct (IH (add_secondary m key id) (add_no_empty _ _ _ Hm)) as [H1 H2]. split; [done|]. intros key' id'. cbn [foldl].
  rewrite H2, keyed_add, elem_of_cons. naive_solver.
Qed.

Lemma remove_all_ok {K} `{Countable K} (m : id_sets K) keys id :
  no_empty_sets m -> NoDup keys -> (forall key, key ∈ keys -> id ∈ keyed m key) ->
  exists m', remove_all m keys id = Ok m' /\ no_empty_sets m' /\
    forall key' id', id' ∈ keyed m' key' <-> id' ∈ keyed m key' /\ ((key' ∉ keys) \/ id' <> id).
Proof.
  revert m. induction keys as [|key keys IH]; intros m Hm Hnd Hin.
  { exists m. split_and!; [done|done|]. intros. rewrite elem_of_nil. tauto. }
  apply NoDup_cons in Hnd as [Hn Hnd]. cbn [remove_all].
  destruct (remove_secondary_ok m key id Hm) as (m1 & -> & Hm1 & Hk1); [apply Hin; left|]. cbn [obind].
  destruct (IH m1 Hm1 Hnd) as (m2 & -> & Hm2 & Hk2).
  { intros key' Hkey'. apply Hk1. split; [apply Hin; by right|]. left. by intros ->. }
  exists m2. split_and!; [done|done|]. intros key' id'. rewrite Hk2, Hk1, elem_of_cons. destruct (decide (id' = id)); naive_solver.
Qed.

Lemma metadata_keys_NoDup (v : V) : NoDup (metadata_keys v).
Proof.
  unfold metadata_keys. destruct (as_object v) as [es|] eqn:E; [|constructor]. simpl. pose proof (object_keys v es E) as Hnd. clear E.
  induction es as [|[k x] es IH]; [constructor|]. cbn [map fst] in Hnd. apply NoDup_cons in Hnd as [Hn Hnd]. simpl.
  destruct (scalar_key x) as [s|]; simpl; [|by apply IH]. apply NoDup_cons. split; [|by apply IH].
  intros ([k' x'] & Hin & Hs)%list_elem_of_omap. apply fmap_Some in Hs as (s' & _ & [= -> ->]). apply Hn, list_elem_of_fmap. by exists (k', x').
Qed.

Lemma filters_ok_default : filters_ok filters_default ∅.
Proof.
  split; [| |done|done]; intros k id; unfold keyed; cbn [filters_default f_sources f_metadata]; rewrite lookup_empty; simpl;
    (split; [set_solver|]); intros (d & Hd & _); by rewrite lookup_empty in Hd.
Qed.

(** Adding an absent document. *)
Lemma insert_filters_ok f documents (d : Doc) :
  filters_ok f documents -> documents !! doc_id d = None -> filters_ok (insert_filters f d) (<[doc_id d := d]> documents).
Proof.
  intros [H1 H2 H3 H4] Hn. destruct (foldl_add (f_metadata f) (metadata_keys (doc_metadata d)) (doc_id d) H4) as [Hm Hk].
  assert (Hold : forall id (P : Doc -> Prop), (exists d', documents !! id = Some d' /\ P d') ->
    exists d', <[doc_id d := d]> documents !! id = Some d' /\ P d').
  { intros id P (d' & Hd & HP). exists d'. split; [|done]. rewrite lookup_insert_ne; [done|]. intros <-. congruence. }
  assert (Hnew : forall id (P : Doc -> Prop), (exists d', <[doc_id d := d]> documents !! id = Some d' /\ P d') ->
    (id = doc_id d /\ P d) \/ exists d', documents !! id = Some d' /\ P d').
  { intros id P (d' & Hd & HP). apply lookup_insert_Some in Hd as [[<- <-]|[_ Hd]]; [by left|right; eauto]. }
  split; cbn [insert_filters f_sources f_metadata]; [| |destruct (doc_source_uri d); [by apply add_no_empty|done]|done].
  - intros uri id. destruct (doc_source_uri d) as [u|] eqn:Eu.
    + rewrite keyed_add, H1. split; [intros [[-> ->]|Hd]; [exists d; by rewrite lookup_insert_eq|by apply Hold]|].
      intros [[-> HP]|Hd]%Hnew; [left; split; [congruence|done]|by right].
    + rewrite H1. split; [apply Hold|]. intros [[-> HP]|Hd]%Hnew; [congruence|done].
  - intros key id. rewrite Hk, H2. split; [intros [[Hin ->]|Hd]; [exists d; by rewrite lookup_insert_eq|by apply Hold]|].
    intros [[-> HP]|Hd]%Hnew; [by left|by right].
Qed.

(** Removing a stored document. *)
Lemma remove_filters_ok f documents (d : Doc) :
  filters_ok f documents -> documents !! doc_id d = Some d ->
  exists f', remove_filters f d = Ok f' /\ filters_ok f' (delete (doc_id d) documents).
Proof.
  intros [H1 H2 H3 H4] Hd. unfold remove_filters.
  assert (Hsrc : exists s, match doc_source_uri d with Some uri => remove_secondary (f_sources f) uri (doc_id d) | None => Ok (f_sources f) end = Ok s /\
    no_empty_sets s /\ forall uri id, id ∈ keyed s uri <-> id ∈ keyed (f_sources f) uri /\ (doc_source_uri d <> Some uri \/ id <> doc_id d)).
  { destruct (doc_source_uri d) as [u|] eqn:Eu.
    - destruct (remove_secondary_ok (f_sources f) u (doc_id d) H3) as (s & -> & Hs & Hk); [apply H1; eauto|].
      exists s. split_and!; [done|done|]. intros uri id. rewrite Hk. naive_solver.
    - exists (f_sources f). naive_solver. }
  destruct Hsrc as (s & -> & Hs & Hks). cbn [obind].
  destruct (remove_all_ok (f_metadata f) (metadata_keys (doc_metadata d)) (doc_id d) H4 (metadata_keys_NoDup _)) as (m & -> & Hm & Hkm).
  { intros key Hkey. apply H2. eauto. }
  cbn [obind]. eexists. split; [done|]. split; cbn [f_sources f_metadata]; [| |done|done].
  - intros uri id. rewrite Hks, H1. setoid_rewrite lookup_delete_Some. split.
    + intros [(d' & Hd' & Hu) Hne]. exists d'. split_and!; [|done|done]. intros <-. simplify_eq. naive_solver.
    + intros (d' & [Hne Hd'] & Hu). split; [eauto|]. right. congruence.
  - intros key id. rewrite Hkm, H2. setoid_rewrite lookup_delete_Some. split.
    + intros [(d' & Hd' & Hu) Hne]. exists d'. split_and!; [|done|done]. intros <-. simplify_eq. naive_solver.
    + intros (d' & [Hne Hd'] & Hu). split; [eauto|]. right. congruence.
Qed.

(** ** Candidates *)

Definition loses_none (ids : option (gset (list Z))) (id : list Z) : Prop :=
  match ids with Some ids => id ∈ ids | None => True end.

Lemma json_get_key (v x : V) key k :
  json_get v key = Some x -> scalar_key x = Some k -> (key, k) ∈ metadata_keys v.
Proof.
  intros Hg Hk. unfold json_get in Hg. unfold metadata_keys. destruct (as_object v) as [es|]; [|done]. simpl.
  apply fmap_Some in Hg as ([key' x'] & Hf & ->). apply fmap_Some in Hf as ([i [key'' x'']] & Hf & [= -> ->]).
  apply list_find_Some in Hf as (Hi & Hkey & _). simpl in Hkey. subst. apply list_elem_of_omap.
  exists (key, x''). split; [by eapply list_elem_of_lookup_2|]. cbn [fst snd] in *. by rewrite Hk.
Qed.

Lemma metadata_loop_ok f documents id d es smallest :
  filters_ok f documents -> documents !! id = Some d ->
  Forall (fun e : list Z * V => json_get (doc_metadata d) e.1 = Some e.2) es -> loses_none smallest id ->
  loses_none (metadata_loop f es smallest) id.
Proof.
  intros Hf Hd Hes. revert smallest. induction Hes as [|[key x] es He Hes IH]; intros smallest Hs; [done|]. cbn [metadata_loop fst snd] in *.
  destruct (scalar_key x) as [k|] eqn:Ek; [|by apply IH].
  assert (Hin : id ∈ keyed (f_metadata f) (key, k)).
  { apply (fo_metadata _ _ Hf). exists d. split; [done|]. by eapply json_get_key. }
  unfold keyed in Hin. destruct (f_metadata f !! (key, k)) as [ids|]; [|set_solver]. apply IH. by destruct (smaller _ _).
Qed.

Lemma metadata_loop_stored f documents es smallest :
  filters_ok f documents -> (forall ids, smallest = Some ids -> ids ⊆ dom documents) ->
  forall ids, metadata_loop f es smallest = Some ids -> ids ⊆ dom documents.
Proof.
  intros Hf. revert smallest. induction es as [|[key x] es IH]; intros smallest Hs ids; [apply Hs|]. cbn [metadata_loop].
  destruct (scalar_key x) as [k|]; [|by apply IH]. destruct (f_metadata f !! (key, k)) as [ids'|] eqn:E; [|intros [= <-]; set_solver].
  apply IH. intros ids''. destruct (smaller _ _); [|apply Hs]. intros [= <-] id Hin. apply elem_of_dom.
  destruct (proj1 (fo_metadata _ _ Hf (key, k) id)) as (d & Hd & _); [unfold keyed; by rewrite E|]. by exists d.
Qed.

(** The candidates of a reachable filter index. *)
Lemma candidates_ok f documents o :
  filters_ok f documents -> (forall id d, documents !! id = Some d -> doc_id d = id) ->
  (forall id d, documents !! id = Some d -> matches_document d o = true -> loses_none (candidate_ids f documents o) id) /\
  (forall ids, candidate_ids f documents o = Some ids -> ids ⊆ dom documents).
Proof.
  intros Hf Hids. split.
  - intros id d Hd Hm. unfold matches_document, matches_document_metadata, matches_metadata in Hm.
    apply andb_true_iff in Hm as [Hmi Hm]. apply andb_true_iff in Hm as [Hms Hmm].
    assert (H0 : loses_none (metadata_candidates f (o_filter o)) id).
    { unfold metadata_candidates. eapply metadata_loop_ok; [done|done| |done]. destruct (o_filter o ≫= as_object) as [es|]; [|constructor].
      simpl. apply Forall_forall. intros e He. rewrite forallb_forall in Hmm. apply list_elem_of_In in He.
      exact (bool_decide_eq_true_1 _ (Hmm _ He)). }
    unfold candidate_ids. set (smallest := metadata_candidates f (o_filter o)) in *. clearbody smallest.
    assert (Hlast : forall best, loses_none best id -> loses_none (match o_document_ids o with
      | Some ids => if smaller (length ids) best then Some (filter (fun id => is_Some (documents !! id)) (list_to_set ids : gset (list Z))) else best
      | None => best end) id).
    { intros best Hb. destruct (o_document_ids o) as [ids|]; [|done]. destruct (smaller _ _); [|done]. cbn [loses_none].
      apply bool_decide_eq_true in Hmi. rewrite (Hids _ _ Hd) in Hmi. apply elem_of_filter. split; [by exists d|]. by apply elem_of_list_to_set. }
    destruct (o_source_uri o) as [uri|]; [|by apply Hlast]. apply bool_decide_eq_true in Hms.
    assert (Hin : id ∈ keyed (f_sources f) uri) by (apply (fo_sources _ _ Hf); eauto). unfold keyed in Hin.
    destruct (f_sources f !! uri) as [ids|]; [|set_solver]. apply Hlast. by destruct (smaller _ _).
  - intros ids. unfold candidate_ids.
    assert (H0 : forall best, metadata_candidates f (o_filter o) = Some best -> best ⊆ dom documents).
    { unfold metadata_candidates. by apply metadata_loop_stored. }
    set (smallest := metadata_candidates f (o_filter o)) in *. clearbody smallest.
    assert (Hlast : forall best, (forall b, best = Some b -> b ⊆ dom documents) -> (match o_document_ids o with
      | Some ids => if smaller (length ids) best then Some (filter (fun id => is_Some (documents !! id)) (list_to_set ids : gset (list Z))) else best
      | None => best end) = Some ids -> ids ⊆ dom documents).
    { intros best Hb. destruct (o_document_ids o) as [dids|]; [|apply Hb]. destruct (smaller _ _); [|apply Hb].
      intros [= <-] x [Hx _]%elem_of_filter. by apply elem_of_dom. }
    destruct (o_source_uri o) as [uri|]; [|by apply Hlast]. destruct (f_sources f !! uri) as [sids|] eqn:E; [|intros [= <-]; set_solver].
    apply Hlast. intros b. destruct (smaller _ _); [|apply H0]. intros [= <-] x Hx. apply elem_of_dom.
    destruct (proj1 (fo_sources _ _ Hf uri x)) as (d & Hd & _); [unfold keyed; by rewrite E|]. by exists d.
Qed.

(** ** Histories *)

Inductive filter_op : Type := FAdd (d : Doc) | FRemove (d : Doc).

Definition filter_step (f : FilterIndex) (o : filter_op) : outcome FilterIndex :=
  match o with FAdd d => Ok (insert_filters f d) | FRemove d => remove_filters f d end.

Fixpoint filter_steps (f : FilterIndex) (os : list filter_op) : outcome FilterIndex :=
  match os with [] => Ok f | o :: rest => let* f := filter_step f o in filter_steps f rest end.

Definition documents_step (m : gmap (list Z) Doc) (o : filter_op) : gmap (list Z) Doc :=
  match o with FAdd d => <[doc_id d := d]> m | FRemove d => delete (doc_id d) m end.

Fixpoint filter_ops_ok (m : gmap (list Z) Doc) (os : list filter_op) : Prop :=
  match os with
  | [] => True
  | o :: rest => match o with FAdd d => m !! doc_id d = None | FRemove d => m !! doc_id d = Some d end /\
      filter_ops_ok (documents_step m o) rest
  end.

Lemma filter_steps_ok f m os :
  filters_ok f m -> (forall id d, m !! id = Some d -> doc_id d = id) -> filter_ops_ok m os ->
  exists f', filter_steps f os = Ok f' /\ filters_ok f' (foldl documents_step m os) /\
    forall id d, foldl documents_step m os !! id = Some d -> doc_id d = id.
Proof.
  revert f m. induction os as [|o os IH]; intros f m Hf Hid Ho; [by exists f|]. destruct Ho as [Ho Hos]. cbn [filter_steps foldl].
  destruct o as [d|d]; cbn [filter_step documents_step] in *.
  - cbn [obind]. apply IH; [by apply insert_filters_ok| |done]. intros id d' [[<- <-]|[_ Hd]]%lookup_insert_Some; [done|by apply Hid].
  - destruct (remove_filters_ok f m d Hf Ho) as (f1 & -> & Hf1). cbn [obind]. apply IH; [done| |done].
    intros id d' [_ Hd]%lookup_delete_Some. by apply Hid.
Qed.

(** C37: filters lose nothing.  After any sequence of documents added and removed, the filter
    indexes never panic, and for any search options every stored document the exact match
    accepts is among the candidates, while candidates are always stored documents. *)
Theorem candidates_complete os :
  filter_ops_ok ∅ os ->
  exists f, filter_steps filters_default os = Ok f /\
    let documents := foldl documents_step ∅ os in
    forall o, (forall id d, documents !! id = Some d -> matches_document d o = true ->
        match candidate_ids f documents o with Some ids => id ∈ ids | None => True end) /\
      (forall ids, candidate_ids f documents o = Some ids -> ids ⊆ dom documents).
Proof.
  intros Ho. destruct (filter_steps_ok filters_default ∅ os filters_ok_default) as (f & Hrun & Hf & Hid); [by intros|done|].
  exists f. split; [done|]. intros documents o. by apply candidates_ok.
Qed.
End Filters.

(** A JSON library of strings and flat objects. *)
Inductive toy_json : Type := JString (s : list Z) | JObject (es : list (list Z * list Z)).
#[global] Instance toy_json_eq : EqDecision toy_json.
Proof. solve_decision. Defined.

#[global, refine] Instance toy_json_lib : Json toy_json := {|
  as_object v := match v with
    | JObject es => if decide (NoDup (map fst es)) then Some (map (fun e => (e.1, JString e.2)) es) else Some []
    | _ => None end;
  as_scalar v := match v with JString s => Some (SString s) | _ => None end |}.
Proof.
  intros [s|es] es' H; [discriminate H|]. destruct (decide (NoDup (map fst es))) as [Hn|]; injection H as <-; [|constructor].
  rewrite map_map. exact Hn.
Defined.

Definition toy_doc (id uri colour : list Z) : StoredDocument toy_json :=
  {| doc_id := id; doc_source_uri := Some uri; doc_version := []; doc_metadata := JObject [([99], colour)]%Z; doc_chunks := [] |}.

Definition toy_filter_ops : list filter_op :=
  [FAdd (toy_doc [1] [7] [2]); FAdd (toy_doc [2] [7] [3]); FAdd (toy_doc [3] [8] [2]); FRemove (toy_doc [2] [7] [3])]%Z.

Lemma candidates_complete_witness :
  filter_ops_ok ∅ toy_filter_ops /\
  exists f, filter_steps filters_default toy_filter_ops = Ok f /\
    match candidate_ids f (foldl documents_step ∅ toy_filter_ops)
        {| o_filter := Some (JObject [([99], [2])]); o_source_uri := Some [7]; o_document_ids := None |}%Z with
    | Some ids => ([1] : list Z)%Z ∈ ids | None => True end.
Proof.
  assert (H : filter_ops_ok ∅ toy_filter_ops) by (cbn [filter_ops_ok toy_filter_ops]; repeat split; vm_compute; reflexivity).
  split; [exact H|]. destruct (candidates_complete toy_filter_ops H) as (f & Hrun & Hall). exists f. split; [exact Hrun|].
  destruct (Hall {| o_filter := Some (JObject [([99], [2])]); o_source_uri := Some [7]; o_document_ids := None |}%Z) as [Hin _].
  refine (Hin [1]%Z (toy_doc [1] [7] [2])%Z _ _); vm_compute; reflexivity.
Defined.
