(* ===== verification/Share.v ===== *)
(** * Sharing a term dictionary

    [StoredTerms::share_documents] of [src/core/documents/packed_terms.rs]: documents inserted
    together keep their terms as ids into one sorted dictionary.  The chunks keep their terms,
    frequencies and positions. *)

From S2P Require Import Prelude Words BitPack Search Positions Terms FrameDict Binary Journal.

Definition is_whole_document (t : StoredTerms) : bool :=
  match t_positions t with Some p => (p_version p =? DOCUMENT_VERSION)%Z | None => false end.

Definition with_terms (c : StoredChunk) (t : StoredTerms) : StoredChunk :=
  {| c_id := c_id c; c_text := c_text c; c_text_at := c_text_at c; c_start_byte := c_start_byte c; c_end_byte := c_end_byte c;
     c_vector := c_vector c; c_embedding := c_embedding c; c_terms := t; c_word_count := c_word_count c;
     c_stemmed := c_stemmed c; c_vector_state := c_vector_state c |}.

Definition with_chunks {V} (d : StoredDocument V) (chunks : list StoredChunk) : StoredDocument V :=
  {| doc_id := doc_id d; doc_source_uri := doc_source_uri d; doc_version := doc_version d; doc_metadata := doc_metadata d;
     doc_chunks := chunks |}.

(** [matches!(c.terms.terms, None | Some(TermData::Shared(_)))]. *)
Definition is_shared (c : StoredChunk) : bool :=
  match t_terms (c_terms c) with None | Some (Shared _) => true | _ => false end.

Section Share.
Context {V : Type}.
Abbreviation Doc := (StoredDocument V).

(** One chunk; [ids] are those not yet consumed. *)
Definition share_chunk (d : SharedDictionary) (c : StoredChunk) (ids : list Z) : outcome (StoredChunk * list Z) :=
  let count := t_len (c_terms c) in
  let* es := t_entries (c_terms c) in
  let* own := slice ids 0 count in
  let* shared := from_dictionary d own (map snd es) in
  Ok (with_terms c {| t_terms := t_terms shared; t_positions := t_positions (c_terms c) |}, drop count ids).

Fixpoint share_chunks (d : SharedDictionary) (cs : list StoredChunk) (ids : list Z) : outcome (list StoredChunk * list Z) :=
  match cs with
  | [] => Ok ([], ids)
  | c :: rest =>
      let* (c, ids) := share_chunk d c ids in
      let* (cs, ids) := share_chunks d rest ids in
      Ok (c :: cs, ids)
  end.

Fixpoint share_loop (d : SharedDictionary) (docs : list Doc) (ids : list Z) : outcome (list Doc * list Z) :=
  match docs with
  | [] => Ok ([], ids)
  | doc :: rest =>
      let* (cs, ids) := share_chunks d (doc_chunks doc) ids in
      let* (docs, ids) := share_loop d rest ids in
      Ok (with_chunks doc cs :: docs, ids)
  end.

Definition share_documents (docs : list Doc) : outcome (list Doc) :=
  if forallb (fun d => forallb is_shared (doc_chunks d)) docs then Ok docs
  else
    let* keys := document_keys docs in
    let ft := frame_terms_new keys in
    let* d := dictionary_new (ft_sorted ft) in
    let* (docs, ids) := share_loop d docs (map Z.of_nat (ft_ids ft)) in
    match ids with [] => Ok docs | _ => Panic end.
End Share.

(** ** The terms stay *)

Definition entries_of (c : StoredChunk) : list (list Z * Z) :=
  match t_entries (c_terms c) with Ok l => l | _ => [] end.

Definition terms_ok (c : StoredChunk) : Prop :=
  repr (t_terms (c_terms c)) (entries_of c) /\ Terms.entries_ok (entries_of c).

(** The same chunk with its terms in another layout. *)
Definition same_content (c c' : StoredChunk) : Prop :=
  c' = with_terms c (c_terms c') /\ t_positions (c_terms c') = t_positions (c_terms c) /\
  entries_of c' = entries_of c /\ repr (t_terms (c_terms c')) (entries_of c).

Definition same_document {V} (d d' : StoredDocument V) : Prop :=
  d' = with_chunks d (doc_chunks d') /\ Forall2 same_content (doc_chunks d) (doc_chunks d').

Lemma same_content_refl c : terms_ok c -> same_content c c.
Proof. intros [Hr _]. split_and!; try done. by destruct c. Qed.

Lemma repr_entries_of c l : repr (t_terms (c_terms c)) l -> entries_of c = l.
Proof. intros Hr. unfold entries_of. by rewrite (t_entries_repr _ l). Qed.

Definition chunk_keys (c : StoredChunk) : list (list Z) := map fst (entries_of c).

Section ShareSpec.
Context {V : Type}.
Abbreviation Doc := (StoredDocument V).

Definition doc_keys (docs : list Doc) : list (list Z) := concat (map chunk_keys (concat (map doc_chunks docs))).

Lemma document_keys_terms (docs : list Doc) :
  Forall terms_ok (concat (map doc_chunks docs)) -> document_keys docs = Ok (doc_keys docs).
Proof.
  intros Hf. unfold document_keys, doc_keys. rewrite (omap_list_ok _ chunk_keys); [done|]. intros c Hc.
  rewrite Forall_forall in Hf. destruct (Hf c Hc) as [Hr _]. unfold t_keys. by rewrite (t_entries_repr _ _ Hr).
Qed.

Section Dictionary.
Context (words : list (list Z)) (Hwords : bsorted words) (Htexts : strings_ok words) (Hcount : (Z.of_nat (length words) < U32)%Z).
#[local] Abbreviation d := {| d_text := concat words; d_starts := starts_of words |}.

(** Ids of the keys of a table. *)
Definition ids_for (ids : list Z) (keys : list (list Z)) : Prop :=
  Forall2 (fun id k => (0 <= id)%Z /\ words !! Z.to_nat id = Some k) ids keys.

Lemma ids_for_sorted ids keys : ids_for ids keys -> bsorted keys -> ids_ok words ids.
Proof.
  intros Hids Hs. split.
  - revert Hs. induction Hids as [|id k ids keys [Hp Hk] Hids IH]; intros Hs; [constructor|]. inversion Hs as [|?? Hs' Hlt]; subst.
    apply SSorted_cons; [by apply IH|]. apply Forall_lookup. intros i id' Hi. destruct (Forall2_lookup_l _ _ _ _ _ Hids Hi) as (k' & Hk' & Hp' & Hw').
    rewrite Forall_lookup in Hlt. specialize (Hlt i k' Hk').
    destruct (Z.lt_trichotomy id id') as [?|[->|Hgt]]; [done| |].
    + rewrite Hk in Hw'. injection Hw' as ->. by apply irreflexivity in Hlt; [|apply _].
    + assert (Hbad : blt k' k) by (apply (bsorted_lookup_lt words (Z.to_nat id') (Z.to_nat id)); [done|lia|done|done]).
      assert (Hr : blt k k) by (by etransitivity). by apply irreflexivity in Hr; [|apply _].
  - apply Forall_lookup. intros i id Hi. destruct (Forall2_lookup_l _ _ _ _ _ Hids Hi) as (k & _ & Hp & Hw). apply lookup_lt_Some in Hw. lia.
Qed.

Lemma ids_for_words ids keys : ids_for ids keys -> map (fun i => default [] (words !! Z.to_nat i)) ids = keys.
Proof. induction 1 as [|id k ids keys [_ Hk] _ IH]; [done|]. simpl. by rewrite Hk, IH. Qed.

Lemma share_chunk_ok c ids rest :
  terms_ok c -> ids_for ids (chunk_keys c) ->
  exists c', share_chunk d c (ids ++ rest) = Ok (c', rest) /\ same_content c c'.
Proof.
  intros [Hr He] Hids. unfold share_chunk. pose proof (Forall2_length _ _ _ Hids) as Hlen. unfold chunk_keys in Hlen. rewrite length_map in Hlen.
  rewrite (t_len_repr _ _ Hr), (t_entries_repr _ _ Hr). cbn [obind]. rewrite <- Hlen.
  rewrite slice_Ok by (rewrite ?length_app; lia). rewrite Nat.sub_0_r, drop_0, take_app_length. cbn [obind].
  destruct (from_dictionary_repr words ids (map snd (entries_of c)) d eq_refl) as (t & -> & Hp & Ht).
  - done.
  - eapply ids_for_sorted; [done|apply He].
  - done.
  - by rewrite length_map.
  - apply He.
  - cbn [obind]. rewrite (ids_for_words _ _ Hids) in Ht. unfold chunk_keys in Ht.
    replace (zip (map fst (entries_of c)) (map snd (entries_of c))) with (entries_of c) in Ht.
    + eexists. rewrite drop_app_length. split; [done|]. split_and!; [done|done|by apply repr_entries_of|done].
    + clear. induction (entries_of c) as [|[] l IH]; [done|]. simpl. by f_equal.
Qed.

Lemma share_chunks_ok cs ids rest :
  Forall terms_ok cs -> ids_for ids (concat (map chunk_keys cs)) ->
  exists cs', share_chunks d cs (ids ++ rest) = Ok (cs', rest) /\ Forall2 same_content cs cs'.
Proof.
  intros Hf. revert ids. induction Hf as [|c cs Hc Hf IH]; intros ids Hids.
  { cbn in Hids. inversion Hids; subst. exists []. split; [done|constructor]. }
  cbn [map concat] in Hids. apply Forall2_app_inv_r in Hids as (i1 & i2 & H1 & H2 & ->). cbn [share_chunks]. rewrite <- app_assoc.
  destruct (share_chunk_ok c i1 (i2 ++ rest) Hc H1) as (c' & -> & Hs). cbn [obind].
  destruct (IH i2 H2) as (cs' & -> & Hs'). cbn [obind]. eexists. split; [done|]. by constructor.
Qed.

Lemma share_loop_ok (docs : list Doc) ids rest :
  Forall terms_ok (concat (map doc_chunks docs)) -> ids_for ids (doc_keys docs) ->
  exists docs', share_loop d docs (ids ++ rest) = Ok (docs', rest) /\ Forall2 same_document docs docs'.
Proof.
  revert ids. induction docs as [|doc docs IH]; intros ids Hf Hids.
  { cbn in Hids. inversion Hids; subst. exists []. split; [done|constructor]. }
  cbn [map concat] in Hf. apply Forall_app in Hf as [Hf1 Hf2]. unfold doc_keys in Hids. cbn [map concat] in Hids.
  rewrite map_app, concat_app in Hids. apply Forall2_app_inv_r in Hids as (i1 & i2 & H1 & H2 & ->). cbn [share_loop]. rewrite <- app_assoc.
  destruct (share_chunks_ok _ i1 (i2 ++ rest) Hf1 H1) as (cs' & -> & Hs). cbn [obind].
  destruct (IH i2 Hf2 H2) as (docs' & -> & Hs'). cbn [obind]. eexists. split; [done|]. constructor; [|done]. by split.
Qed.
End Dictionary.

(** The dictionary of the documents fits 32-bit offsets. *)
Definition dictionary_fits (docs : list Doc) : Prop :=
  (Z.of_nat (length (doc_keys docs)) < U32)%Z /\ (Z.of_nat (length (concat (doc_keys docs))) < U32)%Z.

Lemma perm_concat_length {A} (l k : list (list A)) : l ≡ₚ k -> length (concat l) = length (concat k).
Proof. induction 1; simpl; rewrite ?length_app; lia. Qed.

Lemma submseteq_concat_length {A} (l k : list (list A)) : l ⊆+ k -> length (concat l) <= length (concat k).
Proof.
  intros Hs. destruct (submseteq_Permutation _ _ Hs) as [r Hr]. rewrite (perm_concat_length _ _ Hr), concat_app, length_app. lia.
Qed.

Lemma same_document_refl (d : Doc) : Forall terms_ok (doc_chunks d) -> same_document d d.
Proof. intros Hf. split; [by destruct d|]. apply Forall_Forall2_diag. eapply Forall_impl; [exact Hf|]. apply same_content_refl. Qed.

(** Sharing keeps every document's content. *)
Lemma share_documents_ok (docs : list Doc) :
  Forall terms_ok (concat (map doc_chunks docs)) -> dictionary_fits docs ->
  exists docs', share_documents docs = Ok docs' /\ Forall2 same_document docs docs'.
Proof.
  intros Hf [Hk Ht]. unfold share_documents. destruct (forallb _ docs).
  { exists docs. split; [done|]. apply Forall_Forall2_diag, Forall_forall. intros doc Hin. apply same_document_refl.
    apply Forall_forall. intros c Hc. rewrite Forall_forall in Hf. apply Hf, list_elem_of_In, in_concat.
    exists (doc_chunks doc). split; [|by apply list_elem_of_In]. apply in_map. by apply list_elem_of_In. }
  rewrite (document_keys_terms docs Hf). cbn [obind]. destruct (frame_terms_new_spec (doc_keys docs)) as (Hs & Hin & Hids).
  set (ft := frame_terms_new (doc_keys docs)) in *.
  assert (Hsub : ft_sorted ft ⊆+ doc_keys docs) by (apply NoDup_submseteq; [by apply bsorted_NoDup|done]).
  pose proof (submseteq_length _ _ Hsub) as Hlen. pose proof (submseteq_concat_length _ _ Hsub) as Htext.
  assert (Hu : strings_ok (ft_sorted ft)).
  { apply Forall_forall. intros k Hkin. apply Hin, list_elem_of_In, in_concat in Hkin as (ks & Hks & Hkin).
    apply in_map_iff in Hks as (c & <- & Hc). rewrite Forall_forall in Hf. destruct (Hf c) as [Hr _]; [by apply list_elem_of_In|].
    exact (proj1 (List.Forall_forall _ _) (repr_texts _ _ Hr) k Hkin). }
  unfold dictionary_new. rewrite dictionary_parts_ok by lia. cbn [obind].
  destruct (share_loop_ok (ft_sorted ft) Hs Hu ltac:(lia) docs (map Z.of_nat (ft_ids ft)) [] Hf) as (docs' & Hrun & Hsame).
  { apply Forall2_fmap_l. eapply Forall2_impl; [exact Hids|]. intros id k Hid. simpl. rewrite Nat2Z.id. split; [lia|done]. }
  rewrite app_nil_r in Hrun. rewrite Hrun. cbn [obind]. eauto.
Qed.
End ShareSpec.
