(* ===== verification/SlotTable.v ===== *)
(** * Slots of the document store

    The slot bookkeeping of [DocumentStore] in [src/core/documents/index.rs]: which chunk owns
    each slot, each slot's word count and position record, the free slots, and the running
    totals.  [install_new], [replace_shared] and [remove_with] change it chunk by chunk. *)

From S2P Require Import Prelude Words BitPack Search Positions Terms Binary Share TermDict Postings Cursor PostingEdit PostingRuns Lists Indexing Bulk IndexRuns.

Section Table.
Context {V : Type} `{!EqDecision (StoredDocument V)}.
Abbreviation Doc := (StoredDocument V).
Abbreviation owner := (Doc * nat)%type.

Record SlotTable := mkTable {
  st_slot_count : Z;
  st_owners : list (option owner);
  st_words : list Z;
  st_positions : list (option Positions);
  st_free : list Z;  (* a BTreeSet: ascending *)
  st_chunks : Z;
  st_total_words : Z;
  st_nonpositional : Z;
  st_embedded : Z;
  st_pending : Z;
  st_lexical : Z }.

Definition table_default : SlotTable :=
  {| st_slot_count := 0; st_owners := []; st_words := []; st_positions := []; st_free := []; st_chunks := 0;
     st_total_words := 0; st_nonpositional := 0; st_embedded := 0; st_pending := 0; st_lexical := 0 |}.

Definition slot_words (count : Z) : outcome Z := to_u32 count.

Definition nonpositional (c : StoredChunk) : Z := match t_positions (c_terms c) with Some _ => 0 | None => 1 end.
Definition embedded (c : StoredChunk) : Z := match c_embedding c with Some _ => 1 | None => 0 end.
Definition pending (c : StoredChunk) : Z := match c_vector_state c with Pending => 1 | _ => 0 end.
Definition lexical (c : StoredChunk) : Z := match c_vector_state c with Lexical => 1 | _ => 0 end.

(** [count_vector_state] on the pair of counters. *)
Definition count_vector_state (counters : Z * Z) (state : VectorState) (added : bool) : outcome (Z * Z) :=
  let next n := if added then checked_add U64 n 1 else checked_sub n 1 in
  match state with
  | Encoded => Ok counters
  | Pending => let* n := expect (next counters.1) in Ok (n, counters.2)
  | Lexical => let* n := expect (next counters.2) in Ok (counters.1, n)
  end.

(** [shift_vector_states]: signed deltas, checked. *)
Definition shift_vector_states (counters : Z * Z) (pending lexical : Z) : outcome (Z * Z) :=
  let shift n delta := if (0 <=? n + delta)%Z && (n + delta <? U64)%Z then Ok (n + delta)%Z else Panic in
  let* p := shift counters.1 pending in
  let* l := shift counters.2 lexical in
  Ok (p, l).

Definition set_position_source (sources : list (option Positions)) (slot_count slot : Z) (positions : option Positions)
    : outcome (list (option Positions)) :=
  if bool_decide (positions = None) && is_nil sources then Ok sources
  else
    let sources := resize (Z.to_nat slot_count) None sources in
    let* _ := expect (sources !! Z.to_nat slot) in
    Ok (<[Z.to_nat slot := positions]> sources).

Definition trim_position_sources (t : SlotTable) : SlotTable :=
  {| st_slot_count := st_slot_count t; st_owners := st_owners t; st_words := st_words t;
     st_positions := if (st_nonpositional t =? st_chunks t)%Z then [] else take (Z.to_nat (st_slot_count t)) (st_positions t);
     st_free := st_free t; st_chunks := st_chunks t; st_total_words := st_total_words t;
     st_nonpositional := st_nonpositional t; st_embedded := st_embedded t; st_pending := st_pending t; st_lexical := st_lexical t |}.

(** [free.pop_first()], or a new slot at the end: slot count, owners, word counts, free, slot. *)
Definition claim_slot (t : SlotTable) : outcome (Z * list (option owner) * list Z * list Z * Z) :=
  match st_free t with
  | slot :: rest => Ok (st_slot_count t, st_owners t, st_words t, rest, slot)
  | [] =>
      let slot := st_slot_count t in
      let* count := expect (checked_add U64 slot 1) in
      Ok (count, st_owners t ++ [None], st_words t ++ [0%Z], [], slot)
  end.

(** The body of [install_new]'s chunk loop. *)
Definition insert_chunk (t : SlotTable) (d : Doc) (index : nat) (c : StoredChunk) : outcome (SlotTable * Z) :=
  let* (p, l) := count_vector_state (st_pending t, st_lexical t) (c_vector_state c) true in
  let* e := match c_embedding c with Some _ => expect (checked_add U64 (st_embedded t) 1) | None => Ok (st_embedded t) end in
  let* (count, owners, words, free, slot) := claim_slot t in
  let* previous := expect (owners !! Z.to_nat slot) in
  let* _ := match previous with Some _ => Panic | None => Ok tt end in
  let* w := slot_words (c_word_count c) in
  let* _ := expect (words !! Z.to_nat slot) in
  let* positions := set_position_source (st_positions t) count slot (t_positions (c_terms c)) in
  let* chunks := expect (checked_add U64 (st_chunks t) 1) in
  let* total := expect (checked_add U64 (st_total_words t) (c_word_count c)) in
  Ok ({| st_slot_count := count; st_owners := <[Z.to_nat slot := Some (d, index)]> owners;
         st_words := <[Z.to_nat slot := w]> words; st_positions := positions; st_free := free;
         st_chunks := chunks; st_total_words := total; st_nonpositional := st_nonpositional t + nonpositional c;
         st_embedded := e; st_pending := p; st_lexical := l |}, slot).

(** The body of [replace_shared]'s chunk loop, the postings apart; the vector states are shifted
    at the end. *)
Definition replace_chunk (t : SlotTable) (previous d : Doc) (index : nat) (old new : StoredChunk) (slot : Z) : outcome SlotTable :=
  let* o := expect (st_owners t !! Z.to_nat slot) in
  let* o := expect o in
  let* _ := if decide (o.1 = previous) then Ok tt else Panic in
  let* _ := if Nat.eqb o.2 index then Ok tt else Panic in
  let* n := expect (checked_sub (st_nonpositional t) (nonpositional old)) in
  let* n := expect (checked_add U64 n (nonpositional new)) in
  let* w := slot_words (c_word_count new) in
  let* _ := expect (st_words t !! Z.to_nat slot) in
  let* positions := set_position_source (st_positions t) (st_slot_count t) slot (t_positions (c_terms new)) in
  let* total := expect (checked_sub (st_total_words t) (c_word_count old)) in
  let* total := expect (checked_add U64 total (c_word_count new)) in
  let* e := expect (checked_sub (st_embedded t) (embedded old)) in
  let* e := expect (checked_add U64 e (embedded new)) in
  Ok {| st_slot_count := st_slot_count t; st_owners := <[Z.to_nat slot := Some (d, index)]> (st_owners t);
        st_words := <[Z.to_nat slot := w]> (st_words t); st_positions := positions; st_free := st_free t;
        st_chunks := st_chunks t; st_total_words := total; st_nonpositional := n; st_embedded := e;
        st_pending := st_pending t; st_lexical := st_lexical t |}.

Definition with_states (t : SlotTable) (states : Z * Z) : SlotTable :=
  {| st_slot_count := st_slot_count t; st_owners := st_owners t; st_words := st_words t; st_positions := st_positions t;
     st_free := st_free t; st_chunks := st_chunks t; st_total_words := st_total_words t;
     st_nonpositional := st_nonpositional t; st_embedded := st_embedded t; st_pending := states.1; st_lexical := states.2 |}.

(** [BTreeSet::insert] and [BTreeSet::remove] of the free slots. *)
Fixpoint free_insert (free : list Z) (slot : Z) : list Z * bool :=
  match free with
  | [] => ([slot], true)
  | s :: rest =>
      if (slot <? s)%Z then (slot :: free, true)
      else if (slot =? s)%Z then (free, false)
      else let '(r, fresh) := free_insert rest slot in (s :: r, fresh)
  end.

Definition free_remove (free : list Z) (slot : Z) : list Z * bool :=
  (filter (fun s => s <> slot) free, bool_decide (slot ∈ free)).

(** The body of [remove_with]'s chunk loop, the postings apart. *)
Definition release_chunk (t : SlotTable) (id : list Z) (index : nat) (c : StoredChunk) (slot : Z) : outcome SlotTable :=
  let* n := expect (checked_sub (st_nonpositional t) (nonpositional c)) in
  let* (p, l) := count_vector_state (st_pending t, st_lexical t) (c_vector_state c) false in
  let* e := match c_embedding c with Some _ => expect (checked_sub (st_embedded t) 1) | None => Ok (st_embedded t) end in
  let* o := expect (st_owners t !! Z.to_nat slot) in
  let* o := expect o in
  let* _ := if decide (doc_id o.1 = id) then Ok tt else Panic in
  let* _ := if Nat.eqb o.2 index then Ok tt else Panic in
  let positions := <[Z.to_nat slot := None]> (st_positions t) in
  let* chunks := expect (checked_sub (st_chunks t) 1) in
  let* total := expect (checked_sub (st_total_words t) (c_word_count c)) in
  let '(free, fresh) := free_insert (st_free t) slot in
  let* _ := if fresh : bool then Ok tt else Panic in
  Ok {| st_slot_count := st_slot_count t; st_owners := <[Z.to_nat slot := None]> (st_owners t);
        st_words := st_words t; st_positions := positions; st_free := free; st_chunks := chunks;
        st_total_words := total; st_nonpositional := n; st_embedded := e; st_pending := p; st_lexical := l |}.

(** [while self.slot_count > 0 && self.free.remove(&(self.slot_count - 1)) { .. }]. *)
Fixpoint trim_loop (fuel : nat) (count : Z) (free : list Z) : Z * list Z :=
  match fuel with
  | O => (count, free)
  | S fuel =>
      if (0 <? count)%Z then
        let '(rest, removed) := free_remove free (count - 1) in
        if removed : bool then trim_loop fuel (count - 1) rest else (count, rest)
      else (count, free)
  end.

(** The end of [remove_with]'s bookkeeping: free slots at the end go, with their entries. *)
Definition trim_slots (t : SlotTable) : SlotTable :=
  let '(count, free) := trim_loop (Z.to_nat (st_slot_count t)) (st_slot_count t) (st_free t) in
  trim_position_sources
    {| st_slot_count := count; st_owners := take (Z.to_nat count) (st_owners t); st_words := take (Z.to_nat count) (st_words t);
       st_positions := st_positions t; st_free := free; st_chunks := st_chunks t; st_total_words := st_total_words t;
       st_nonpositional := st_nonpositional t; st_embedded := st_embedded t; st_pending := st_pending t; st_lexical := st_lexical t |}.
End Table.
Arguments SlotTable : clear implicits.

(** ** Owned chunks *)

(** A chunk the index can hold. *)
Definition chunk_fits (c : StoredChunk) : Prop :=
  chunk_terms c (entries_of c) /\ (0 <= c_word_count c < U32_MAX)%Z.

Section TableSpec.
Context {V : Type} `{!EqDecision (StoredDocument V)}.
Abbreviation Doc := (StoredDocument V).
Abbreviation owner := (Doc * nat)%type.

Definition owner_chunk (o : owner) : option StoredChunk := doc_chunks o.1 !! o.2.

Definition slot_chunk (os : list (option owner)) (k : Z) : option StoredChunk :=
  if decide (0 <= k)%Z then o ← os !! Z.to_nat k; o ← o; owner_chunk o else None.

Definition owner_entry (o : option owner) : option (StoredChunk * list (list Z * Z)) :=
  match o with Some o => (fun c => (c, entries_of c)) <$> owner_chunk o | None => None end.

(** The chunks by slot, with their terms. *)
Definition owned (os : list (option owner)) : slot_chunks :=
  omap (M := gmap Z) owner_entry (map_seqZ (M := gmap Z (option owner)) 0 os).

Lemma lookup_owned os k : owned os !! k = (fun c => (c, entries_of c)) <$> slot_chunk os k.
Proof.
  unfold owned, slot_chunk. rewrite lookup_omap, lookup_map_seqZ. rewrite Z.sub_0_r. case_guard as Hk; simpl; [|done].
  by destruct (os !! Z.to_nat k) as [[o|]|].
Qed.

Lemma slot_chunk_insert os n o k :
  n < length os -> slot_chunk (<[n := o]> os) k = if decide (k = Z.of_nat n) then o ≫= owner_chunk else slot_chunk os k.
Proof.
  intros Hn. unfold slot_chunk. case_decide as Hk.
  - destruct (decide (k = Z.of_nat n)) as [->|Hne].
    + rewrite Nat2Z.id, list_lookup_insert_eq by done. by destruct o.
    + rewrite list_lookup_insert_ne by lia. done.
  - rewrite decide_False by lia. done.
Qed.

Lemma owned_insert os n o c :
  n < length os -> owner_chunk o = Some c -> owned (<[n := Some o]> os) = <[Z.of_nat n := (c, entries_of c)]> (owned os).
Proof.
  intros Hn Hc. apply map_eq. intros k. rewrite lookup_owned, slot_chunk_insert by done. case_decide as Hk.
  - subst. rewrite lookup_insert_eq. simpl. by rewrite Hc.
  - rewrite lookup_insert_ne by done. by rewrite lookup_owned.
Qed.

Lemma owned_clear os n : n < length os -> owned (<[n := None]> os) = delete (Z.of_nat n) (owned os).
Proof.
  intros Hn. apply map_eq. intros k. rewrite lookup_owned, slot_chunk_insert by done. case_decide as Hk.
  - subst. by rewrite lookup_delete_eq.
  - rewrite lookup_delete_ne by done. by rewrite lookup_owned.
Qed.

Lemma owned_snoc os : owned (os ++ [None]) = owned os.
Proof.
  apply map_eq. intros k. rewrite !lookup_owned. f_equal. unfold slot_chunk. case_decide; [|done].
  destruct (decide (Z.to_nat k < length os)); [by rewrite lookup_app_l|].
  rewrite (lookup_ge_None_2 os) by lia. rewrite lookup_app_r by lia. by destruct (Z.to_nat k - length os).
Qed.

(** ** Totals *)

Definition weight (g : StoredChunk -> Z) (o : option owner) : Z :=
  match o ≫= owner_chunk with Some c => g c | None => 0%Z end.

Definition total (g : StoredChunk -> Z) (os : list (option owner)) : Z := foldr (fun o acc => weight g o + acc)%Z 0%Z os.

Lemma total_insert g os n o o' :
  os !! n = Some o -> total g (<[n := o']> os) = (total g os - weight g o + weight g o')%Z.
Proof.
  revert n. induction os as [|a os IH]; intros [|n] Hn; simpl in *; [done|done|simplify_eq; lia|]. rewrite (IH n Hn). lia.
Qed.

Lemma total_app g a b : total g (a ++ b) = (total g a + total g b)%Z.
Proof. induction a as [|o a IH]; simpl; [done|]. rewrite IH. lia. Qed.

Lemma total_snoc g os : total g (os ++ [None]) = total g os.
Proof. rewrite total_app. simpl. unfold weight. simpl. lia. Qed.

Lemma total_nonneg g os : (forall c, 0 <= g c)%Z -> (0 <= total g os)%Z.
Proof. intros Hg. induction os as [|o os IH]; simpl; [lia|]. unfold weight. destruct (o ≫= owner_chunk) as [c|]; [specialize (Hg c)|]; lia. Qed.

Lemma total_lookup g os n o : (forall c, 0 <= g c)%Z -> os !! n = Some o -> (weight g o <= total g os)%Z.
Proof.
  intros Hg. revert n. induction os as [|a os IH]; intros [|n] Hn; simpl in *; [done|done| |].
  - simplify_eq. pose proof (total_nonneg g os Hg). lia.
  - specialize (IH n Hn). unfold weight at 2. destruct (a ≫= owner_chunk) as [c|]; [specialize (Hg c)|]; lia.
Qed.

Lemma total_bound g os : (forall c, 0 <= g c <= 1)%Z -> (total g os <= Z.of_nat (length os))%Z.
Proof.
  intros Hg. induction os as [|o os IH]; simpl; [done|]. unfold weight. destruct (o ≫= owner_chunk) as [c|]; [specialize (Hg c)|]; lia.
Qed.

Definition one (c : StoredChunk) : Z := 1.

Lemma small_weights c : (0 <= one c <= 1 /\ 0 <= nonpositional c <= 1 /\ 0 <= embedded c <= 1 /\ 0 <= pending c <= 1 /\ 0 <= lexical c <= 1)%Z.
Proof.
  unfold one, nonpositional, embedded, pending, lexical.
  destruct (t_positions _), (c_embedding c), (c_vector_state c); lia.
Qed.

(** ** The invariant *)

(** The position records: none at all, or one entry per slot. *)
Definition sources_ok (t : SlotTable V) : Prop := st_positions t = [] \/ Z.of_nat (length (st_positions t)) = st_slot_count t.

(** No position records are kept while no chunk has positions. *)
Definition released (t : SlotTable V) : Prop := st_nonpositional t = st_chunks t -> st_positions t = [].

Record table_ok (t : SlotTable V) : Prop := {
  tk_count : st_slot_count t = Z.of_nat (length (st_owners t));
  tk_room : (st_slot_count t < U32)%Z;
  tk_words : length (st_words t) = length (st_owners t);
  tk_owners : Forall (fun o => forall x, o = Some x -> exists c, owner_chunk x = Some c /\ chunk_fits c) (st_owners t);
  tk_free_sorted : StronglySorted Z.lt (st_free t);
  tk_free : forall s, s ∈ st_free t <-> (0 <= s)%Z /\ st_owners t !! Z.to_nat s = Some None;
  tk_lengths : forall k c, slot_chunk (st_owners t) k = Some c -> words_at (st_words t) k = c_word_count c;
  tk_small : words_small (words_at (st_words t));
  tk_positions : forall k c, slot_chunk (st_owners t) k = Some c -> default None (st_positions t !! Z.to_nat k) = t_positions (c_terms c);
  tk_sources : sources_ok t;
  tk_chunks : st_chunks t = total one (st_owners t);
  tk_total : st_total_words t = total c_word_count (st_owners t);
  tk_nonpositional : st_nonpositional t = total nonpositional (st_owners t);
  tk_embedded : st_embedded t = total embedded (st_owners t);
  tk_pending : st_pending t = total pending (st_owners t);
  tk_lexical : st_lexical t = total lexical (st_owners t) }.

Lemma slot_chunk_Some os k c :
  slot_chunk os k = Some c -> (0 <= k)%Z /\ exists o, os !! Z.to_nat k = Some (Some o) /\ owner_chunk o = Some c.
Proof.
  unfold slot_chunk. case_decide; [|done]. destruct (os !! Z.to_nat k) as [[o|]|] eqn:E; simpl; [|done|done].
  intros Hc. split; [done|]. by exists o.
Qed.

Lemma table_default_ok : table_ok table_default.
Proof.
  split; simpl; try done.
  - constructor.
  - intros s. split; [by intros ?%elem_of_nil|]. by intros [_ ?].
  - intros k c (_ & o & Ho & _)%slot_chunk_Some. done.
  - intros k c (_ & o & Ho & _)%slot_chunk_Some. done.
  - by left.
Qed.

Lemma table_slot_bound t n : table_ok t -> n < length (st_owners t) -> is_u64 (Z.of_nat n).
Proof. intros H Hn. pose proof (tk_count _ H). pose proof (tk_room _ H). unfold is_u64, U64, U32 in *. lia. Qed.

Lemma table_lengths_ok t : table_ok t -> lengths_ok (st_words t) (owned (st_owners t)).
Proof.
  intros H. split; [apply H|]. intros k ce Hk. rewrite lookup_owned in Hk. apply fmap_Some in Hk as (c & Hc & ->).
  by apply (tk_lengths _ H).
Qed.

Lemma owner_fits t n x : table_ok t -> st_owners t !! n = Some (Some x) -> exists c, owner_chunk x = Some c /\ chunk_fits c.
Proof. intros H Hn. pose proof (tk_owners _ H) as Ho. rewrite Forall_lookup in Ho. by apply (Ho n (Some x) Hn). Qed.

Lemma checked_add_ok a b : (a + b < U64)%Z -> checked_add U64 a b = Some (a + b)%Z.
Proof. intros H. unfold checked_add. by rewrite (proj2 (Z.ltb_lt _ _)). Qed.

Lemma checked_sub_ok a b : (b <= a)%Z -> checked_sub a b = Some (a - b)%Z.
Proof. intros H. unfold checked_sub. by rewrite (proj2 (Z.leb_le _ _)). Qed.

Lemma U32_U64 : (U32 < U64)%Z. Proof. reflexivity. Qed.

(** One slot given another owner, or none. *)
Lemma table_set (t t' : SlotTable V) n o o' :
  table_ok t -> st_owners t !! n = Some o -> (forall x, o' = Some x -> exists c, owner_chunk x = Some c /\ chunk_fits c) ->
  st_slot_count t' = st_slot_count t -> st_owners t' = <[n := o']> (st_owners t) ->
  length (st_words t') = length (st_words t) -> words_small (words_at (st_words t')) ->
  (forall k, k <> Z.of_nat n -> (0 <= k)%Z -> words_at (st_words t') k = words_at (st_words t) k) ->
  (forall k, k <> n -> k < length (st_owners t) -> default None (st_positions t' !! k) = default None (st_positions t !! k)) ->
  (forall c, o' ≫= owner_chunk = Some c ->
     words_at (st_words t') (Z.of_nat n) = c_word_count c /\ default None (st_positions t' !! n) = t_positions (c_terms c)) -> sources_ok t' ->
  StronglySorted Z.lt (st_free t') ->
  (forall s, s ∈ st_free t' <-> (s = Z.of_nat n /\ o' = None) \/ (s <> Z.of_nat n /\ s ∈ st_free t)) ->
  st_chunks t' = (st_chunks t - weight one o + weight one o')%Z ->
  st_total_words t' = (st_total_words t - weight c_word_count o + weight c_word_count o')%Z ->
  st_nonpositional t' = (st_nonpositional t - weight nonpositional o + weight nonpositional o')%Z ->
  st_embedded t' = (st_embedded t - weight embedded o + weight embedded o')%Z ->
  st_pending t' = (st_pending t - weight pending o + weight pending o')%Z ->
  st_lexical t' = (st_lexical t - weight lexical o + weight lexical o')%Z ->
  table_ok t'.
Proof.
  intros H Hn Hfit Hcount Howners Hwl Hws Hwk Hpk Hat Hso Hfs Hf E1 E2 E3 E4 E5 E6. apply lookup_lt_Some in Hn as Hlt.
  split; rewrite ?Howners, ?length_insert, ?Hcount, ?Hwl; try apply H; try done.
  - apply Forall_insert; [apply H|done].
  - intros s. rewrite Hf. pose proof (tk_free _ H s) as Hs. destruct (decide (s = Z.of_nat n)) as [->|Hne].
    + rewrite Nat2Z.id, list_lookup_insert_eq by done. split; [intros [[_ ->]|[? _]]; [split; [lia|done]|done]|intros [_ [= ->]]; by left].
    + split; [intros [[? _]|[_ Hin]]; [done|]|].
      * apply Hs in Hin as [Hp Hl]. split; [done|]. rewrite list_lookup_insert_ne; [done|lia].
      * intros [Hp Hl]. right. split; [done|]. apply Hs. split; [done|]. rewrite list_lookup_insert_ne in Hl; [done|lia].
  - intros k c. rewrite slot_chunk_insert by done. case_decide as Hk; [subst; intros Hc; by apply Hat|].
    intros Hc. destruct (slot_chunk_Some _ _ _ Hc) as (Hp & _). rewrite Hwk by done. by apply (tk_lengths _ H).
  - intros k c. rewrite slot_chunk_insert by done. case_decide as Hk; [subst; rewrite Nat2Z.id; intros Hc; by apply Hat|].
    intros Hc. destruct (slot_chunk_Some _ _ _ Hc) as (Hp & x & Hx & _). apply lookup_lt_Some in Hx. rewrite Hpk by lia. by apply (tk_positions _ H).
  - rewrite (total_insert _ _ n o) by done. by rewrite E1, (tk_chunks _ H).
  - rewrite (total_insert _ _ n o) by done. by rewrite E2, (tk_total _ H).
  - rewrite (total_insert _ _ n o) by done. by rewrite E3, (tk_nonpositional _ H).
  - rewrite (total_insert _ _ n o) by done. by rewrite E4, (tk_embedded _ H).
  - rewrite (total_insert _ _ n o) by done. by rewrite E5, (tk_pending _ H).
  - rewrite (total_insert _ _ n o) by done. by rewrite E6, (tk_lexical _ H).
Qed.


Lemma set_position_source_ok sources (count : Z) n positions :
  (Z.of_nat n < count)%Z -> exists sources', set_position_source sources count (Z.of_nat n) positions = Ok sources' /\
    default None (sources' !! n) = positions /\
    (forall k, k <> n -> k < Z.to_nat count -> default None (sources' !! k) = default None (sources !! k)) /\
    ((sources' = [] /\ positions = None /\ sources = []) \/ Z.of_nat (length sources') = count) /\
    (positions = None -> sources = [] -> sources' = []).
Proof.
  intros Hn. unfold set_position_source. destruct (bool_decide (positions = None) && is_nil sources) eqn:E.
  - apply andb_true_iff in E as [E1 E2]. apply bool_decide_eq_true in E1 as ->. destruct sources; [|done]. exists []. split_and!; [done|done|done|by left|done].
  - rewrite Nat2Z.id. set (r := resize (Z.to_nat count) None sources).
    assert (Hlen : length r = Z.to_nat count) by (unfold r; by rewrite length_resize).
    destruct (lookup_lt_is_Some_2 r n) as [x Hx]; [lia|]. rewrite Hx. cbn [expect obind]. eexists. split; [done|]. split_and!; [| |right; rewrite length_insert; lia|by intros -> ->].
    + rewrite list_lookup_insert_eq by lia. done.
    + intros k Hk Hlt. rewrite list_lookup_insert_ne by done. unfold r. destruct (decide (k < length sources)) as [Hs|Hs].
      * by rewrite lookup_resize.
      * rewrite (lookup_ge_None_2 sources) by lia. by rewrite lookup_resize_new by lia.
Qed.

Definition grown_sources (ps : list (option Positions)) : list (option Positions) := if is_nil ps then [] else ps ++ [None].

(** A slot appended to the table, and to the position records if there are any. *)
Definition grown_table (t : SlotTable V) : SlotTable V :=
  {| st_slot_count := st_slot_count t + 1; st_owners := st_owners t ++ [None]; st_words := st_words t ++ [0%Z];
     st_positions := grown_sources (st_positions t); st_free := [st_slot_count t]; st_chunks := st_chunks t; st_total_words := st_total_words t;
     st_nonpositional := st_nonpositional t; st_embedded := st_embedded t; st_pending := st_pending t; st_lexical := st_lexical t |}.

Lemma slot_chunk_snoc os k : slot_chunk (os ++ [None]) k = slot_chunk os k.
Proof.
  unfold slot_chunk. case_decide; [|done]. destruct (decide (Z.to_nat k < length os)); [by rewrite lookup_app_l|].
  rewrite (lookup_ge_None_2 os) by lia. rewrite lookup_app_r by lia. by destruct (Z.to_nat k - length os).
Qed.

Lemma words_at_snoc ws k : words_at (ws ++ [0%Z]) k = words_at ws k.
Proof.
  unfold words_at. destruct (decide (Z.to_nat k < length ws)); [by rewrite lookup_app_l|].
  rewrite (lookup_ge_None_2 ws) by lia. rewrite lookup_app_r by lia. by destruct (Z.to_nat k - length ws).
Qed.

Lemma grown_positions (ps : list (option Positions)) k :
  default None (grown_sources ps !! k) = default None (ps !! k).
Proof.
  destruct ps as [|p ps]; [done|]. unfold grown_sources. cbn [is_nil]. set (l := p :: ps). destruct (decide (k < length l)); [by rewrite lookup_app_l|].
  rewrite (lookup_ge_None_2 l) by lia. rewrite lookup_app_r by lia. by destruct (k - length l).
Qed.

Lemma grown_table_ok t : table_ok t -> st_free t = [] -> (st_slot_count t + 1 < U32)%Z -> table_ok (grown_table t).
Proof.
  intros H Hf Hroom. pose proof (tk_count _ H) as Hc.
  split; cbn [grown_table st_slot_count st_owners st_words st_positions st_free st_chunks st_total_words st_nonpositional st_embedded st_pending st_lexical];
    rewrite ?total_snoc; try apply H; try done.
  - rewrite length_app. simpl. lia.
  - rewrite !length_app. f_equal. apply H.
  - apply Forall_app. split; [apply H|]. by repeat constructor.
  - apply SSorted_cons; [apply SSorted_nil|constructor].
  - intros s. rewrite list_elem_of_singleton. split.
    + intros ->. split; [lia|]. rewrite Hc, Nat2Z.id. by rewrite list_lookup_middle.
    + intros [Hp Hl]. apply lookup_app_Some in Hl as [Hl|[Hge Hl]].
      * assert (Hin : s ∈ st_free t) by (by apply (tk_free _ H)). rewrite Hf in Hin. by apply elem_of_nil in Hin.
      * apply list_lookup_singleton_Some in Hl as [Hl _]. lia.
  - intros k c. rewrite slot_chunk_snoc, words_at_snoc. apply H.
  - intros k. rewrite words_at_snoc. apply H.
  - intros k c. rewrite slot_chunk_snoc, grown_positions. apply H.
  - unfold sources_ok. cbn [grown_table st_positions st_slot_count]. destruct (tk_sources _ H) as [->|Hs]; [by left|].
    unfold grown_sources. destruct (st_positions t); [by left|right]. cbn [is_nil]. rewrite length_app. cbn [length] in *. lia.
Qed.

Lemma weight_none g : weight g (None : option owner) = 0%Z.
Proof. done. Qed.

Lemma weight_owner g (x : owner) c : owner_chunk x = Some c -> weight g (Some x) = g c.
Proof. intros Hc. unfold weight. simpl. by rewrite Hc. Qed.

(** With no free slot, every slot holds a chunk. *)
Lemma full_table t : table_ok t -> st_free t = [] -> st_slot_count t = st_chunks t.
Proof.
  intros H Hf. rewrite (tk_count _ H), (tk_chunks _ H). pose proof (tk_owners _ H) as Ho.
  assert (Hall : Forall (fun o => exists x c, o = Some x /\ owner_chunk x = Some c) (st_owners t)).
  { apply Forall_lookup. intros n o Hn. destruct o as [x|].
    - destruct (owner_fits t n x H Hn) as (c & Hc & _). eauto.
    - assert (Hin : Z.of_nat n ∈ st_free t) by (apply (tk_free _ H); rewrite Nat2Z.id; split; [lia|done]). rewrite Hf in Hin. by apply elem_of_nil in Hin. }
  induction Hall as [|o l (x & c & -> & Hc) _ IH]; [done|]. cbn [length total foldr]. rewrite (weight_owner _ _ c Hc). fold (total one l).
  inversion Ho; subst. unfold one at 1. rewrite <- IH by done. lia.
Qed.

(** The free slots are the slots no chunk owns. *)
Lemma free_count os (free : list Z) :
  NoDup free -> (forall s, s ∈ free <-> (0 <= s)%Z /\ os !! Z.to_nat s = Some None) ->
  Forall (fun o => forall x, o = Some x -> exists c, owner_chunk x = Some c /\ chunk_fits c) os ->
  (Z.of_nat (length free) + total one os = Z.of_nat (length os))%Z.
Proof.
  revert free. induction os as [|o os IH] using rev_ind; intros free Hnd Hf Ho.
  { destruct free as [|s free]; [done|]. destruct (proj1 (Hf s) ltac:(left)) as [_ ?]. done. }
  apply Forall_app in Ho as [Ho Hlast]. apply Forall_cons in Hlast as [Hlast _]. rewrite total_app, length_app. simpl. set (n := Z.of_nat (length os)).
  assert (Hold : forall s, s <> n -> (0 <= s)%Z -> (os ++ [o]) !! Z.to_nat s = os !! Z.to_nat s).
  { intros s Hs Hp. unfold n in Hs. destruct (decide (Z.to_nat s < length os)); [by rewrite lookup_app_l|]. rewrite !lookup_ge_None_2; [done|lia|rewrite length_app; simpl; lia]. }
  assert (Hn : os !! Z.to_nat n = None) by (apply lookup_ge_None_2; unfold n; lia).
  assert (Hat : (os ++ [o]) !! Z.to_nat n = Some o) by (unfold n; rewrite Nat2Z.id; by apply list_lookup_middle).
  destruct o as [x|].
  - destruct (Hlast x eq_refl) as (c & Hc & _). rewrite (weight_owner one x c Hc). change (one c) with 1%Z. assert (Hrest : (Z.of_nat (length free) + total one os = Z.of_nat (length os))%Z); [|lia]. apply IH; [done| |done].
    intros s. rewrite Hf. destruct (decide (s = n)) as [->|Hs]; [rewrite Hat, Hn; naive_solver|]. split; (intros [Hp Hl]; split; [done|]); rewrite Hold in * by done; done.
  - rewrite weight_none. assert (Hin : n ∈ free) by (apply Hf; split; [unfold n; lia|done]).
    destruct (proj1 (elem_of_Permutation _ _) Hin) as [rest Hp]. rewrite Hp in Hnd. apply NoDup_cons in Hnd as [Hnr Hnd].
    rewrite (Permutation_length Hp). cbn [length]. assert (Hrest : (Z.of_nat (length rest) + total one os = Z.of_nat (length os))%Z); [|lia].
    apply IH; [done| |done]. intros s. specialize (Hf s). rewrite Hp, elem_of_cons in Hf. destruct (decide (s = n)) as [->|Hs]; [rewrite Hn; naive_solver|].
    split; [intros Hs'; destruct (proj1 Hf (or_intror Hs')) as [Hpos Hl]; by rewrite Hold in Hl|].
    intros [Hpos Hl]. rewrite <- Hold in Hl by done. by destruct (proj2 Hf (conj Hpos Hl)).
Qed.

(** At most half of a large table is free. *)
Definition compact (t : SlotTable V) : Prop := (st_slot_count t <= Z.max 1024 (2 * st_chunks t))%Z.

(** [claim_slot] gives the smallest free slot of the table, grown if there is none. *)
Lemma claim_slot_ok t :
  table_ok t -> (st_chunks t + 1 < U32)%Z ->
  exists t1 n rest, claim_slot t = Ok (st_slot_count t1, st_owners t1, st_words t1, rest, Z.of_nat n) /\
    st_free t1 = Z.of_nat n :: rest /\ table_ok t1 /\ (t1 = t \/ t1 = grown_table t).
Proof.
  intros H Hroom. unfold claim_slot. destruct (st_free t) as [|s rest] eqn:Ef.
  - pose proof (full_table t H Ef) as Hfull. rewrite checked_add_ok by (pose proof U32_U64; lia). cbn [expect obind]. exists (grown_table t), (length (st_owners t)), [].
    split_and!; [|cbn [grown_table st_free]; by rewrite (tk_count _ H)|apply grown_table_ok; [done|done|lia]|by right].
    cbn [grown_table st_slot_count st_owners st_words]. by rewrite <- (tk_count _ H).
  - exists t, (Z.to_nat s), rest. destruct (proj1 (tk_free _ H s)) as [Hp _]; [rewrite Ef; left|].
    rewrite Z2Nat.id by done. split_and!; [done|done|done|by left].
Qed.

Lemma words_at_insert ws n w k :
  n < length ws -> (0 <= k)%Z -> words_at (<[n := w]> ws) k = if decide (k = Z.of_nat n) then w else words_at ws k.
Proof.
  intros Hn Hk. unfold words_at. case_decide as Hd.
  - subst. by rewrite Nat2Z.id, list_lookup_insert_eq.
  - rewrite list_lookup_insert_ne; [done|lia].
Qed.

Lemma words_small_insert ws n w : words_small (words_at ws) -> (0 <= w < U32_MAX)%Z -> words_small (words_at (<[n := w]> ws)).
Proof.
  intros Hs Hw k. unfold words_at. destruct (decide (n < length ws)) as [Hn|Hn]; [|rewrite list_insert_ge by lia; apply Hs].
  destruct (decide (Z.to_nat k = n)) as [<-|Hk]; [by rewrite list_lookup_insert_eq|]. rewrite list_lookup_insert_ne by done. apply Hs.
Qed.

Lemma slot_words_ok c : chunk_fits c -> slot_words (c_word_count c) = Ok (c_word_count c).
Proof. intros [_ Hw]. unfold slot_words, to_u32. rewrite (proj2 (Z.ltb_lt _ _)); [done|]. unfold U32_MAX in Hw. lia. Qed.

Lemma count_added p l c :
  (p + 1 < U64)%Z -> (l + 1 < U64)%Z -> count_vector_state (p, l) (c_vector_state c) true = Ok (p + pending c, l + lexical c)%Z.
Proof.
  intros Hp Hl. unfold count_vector_state, pending, lexical. destruct (c_vector_state c); cbn [fst snd].
  - do 2 f_equal; lia.
  - rewrite checked_add_ok by done. cbn [expect obind]. do 2 f_equal; lia.
  - rewrite checked_add_ok by done. cbn [expect obind]. do 2 f_equal; lia.
Qed.

Lemma count_removed p l c :
  (pending c <= p)%Z -> (lexical c <= l)%Z -> count_vector_state (p, l) (c_vector_state c) false = Ok (p - pending c, l - lexical c)%Z.
Proof.
  unfold count_vector_state, pending, lexical. intros Hp Hl. destruct (c_vector_state c); cbn [fst snd].
  - do 2 f_equal; lia.
  - rewrite checked_sub_ok by done. cbn [expect obind]. do 2 f_equal; lia.
  - rewrite checked_sub_ok by done. cbn [expect obind]. do 2 f_equal; lia.
Qed.

(** The totals of a table are below its slot count. *)
Lemma table_totals t : table_ok t ->
  (0 <= st_chunks t < U32 /\ 0 <= st_nonpositional t < U32 /\ 0 <= st_embedded t < U32 /\ 0 <= st_pending t < U32 /\ 0 <= st_lexical t < U32)%Z.
Proof.
  intros H. pose proof (tk_count _ H) as Hc. pose proof (tk_room _ H) as Hr.
  rewrite (tk_chunks _ H), (tk_nonpositional _ H), (tk_embedded _ H), (tk_pending _ H), (tk_lexical _ H).
  assert (Hb : forall g, (forall c, 0 <= g c <= 1)%Z -> (0 <= total g (st_owners t) < U32)%Z).
  { intros g Hg. pose proof (total_bound g (st_owners t) Hg). pose proof (total_nonneg g (st_owners t) (fun c => proj1 (Hg c))). lia. }
  split_and!; apply Hb; intros c; apply small_weights.
Qed.

Lemma total_sub g h os : total (fun c => g c - h c)%Z os = (total g os - total h os)%Z.
Proof. induction os as [|o os IH]; simpl; [done|]. rewrite IH. unfold weight. destruct (o ≫= owner_chunk); lia. Qed.

Lemma nonpositional_le t : table_ok t -> (st_nonpositional t <= st_chunks t)%Z.
Proof.
  intros H. rewrite (tk_nonpositional _ H), (tk_chunks _ H).
  assert (Hn : (0 <= total (fun c => one c - nonpositional c)%Z (st_owners t))%Z); [|rewrite total_sub in Hn; lia].
  apply total_nonneg. intros c. pose proof (small_weights c). unfold one in *. lia.
Qed.

(** A chunk given a slot. *)
Lemma insert_chunk_ok t d i c :
  table_ok t -> doc_chunks d !! i = Some c -> chunk_fits c -> (st_chunks t + 1 < U32)%Z ->
  (st_total_words t + c_word_count c < U64)%Z ->
  exists t' n, insert_chunk t d i c = Ok (t', Z.of_nat n) /\ table_ok t' /\
    ((n < length (st_owners t) /\ st_owners t' = <[n := Some (d, i)]> (st_owners t)) \/
     (n = length (st_owners t) /\ st_owners t' = st_owners t ++ [Some (d, i)])) /\
    n < length (st_owners t') /\ (n < length (st_owners t) -> st_owners t !! n = Some None) /\
    Forall (fun s => Z.of_nat n < s)%Z (st_free t') /\ (st_slot_count t' <= st_slot_count t + 1)%Z /\
    (forall s, s ∈ st_free t' -> s ∈ st_free t) /\ (Z.of_nat n ∈ st_free t \/ Z.of_nat n = st_slot_count t) /\
    (st_slot_count t <= st_slot_count t')%Z /\
    st_total_words t' = (st_total_words t + c_word_count c)%Z /\
    st_chunks t' = (st_chunks t + 1)%Z /\ (st_slot_count t' = st_slot_count t \/ st_slot_count t' = st_chunks t') /\
    (released t -> released t').
Proof.
  intros H Hi Hfit Hroom Htotal. pose proof (table_totals t H) as Hb. pose proof U32_U64 as HU. pose proof (small_weights c) as Hsw.
  unfold insert_chunk. rewrite count_added by lia. cbn [obind].
  replace (match c_embedding c with Some _ => _ | None => _ end) with (Ok (st_embedded t + embedded c)%Z : outcome Z).
  2: { unfold embedded. destruct (c_embedding c); [rewrite checked_add_ok by lia; done|]. f_equal. lia. }
  cbn [obind]. destruct (claim_slot_ok t H Hroom) as (t1 & n & rest & -> & Hfree & H1 & Ht1). cbn [obind].
  destruct (proj1 (tk_free _ H1 (Z.of_nat n))) as [_ Hno]; [rewrite Hfree; left|]. rewrite Nat2Z.id in *.
  rewrite Hno. cbn [expect obind]. rewrite (slot_words_ok c Hfit). cbn [obind].
  apply lookup_lt_Some in Hno as Hlt. destruct (lookup_lt_is_Some_2 (st_words t1) n) as [w0 Hw0]; [rewrite (tk_words _ H1); done|].
  rewrite Hw0. cbn [expect obind]. pose proof (tk_count _ H1) as Hc1.
  destruct (set_position_source_ok (st_positions t) (st_slot_count t1) n (t_positions (c_terms c))) as (ps & -> & Hps & Hpo & Hso & Hnil); [lia|].
  cbn [obind]. rewrite !checked_add_ok by lia. cbn [expect obind].
  assert (Hsame : (forall k, default None (st_positions t1 !! k) = default None (st_positions t !! k)) /\ st_chunks t1 = st_chunks t /\ st_total_words t1 = st_total_words t /\
    st_nonpositional t1 = st_nonpositional t /\ st_embedded t1 = st_embedded t /\ st_pending t1 = st_pending t /\ st_lexical t1 = st_lexical t) by (destruct Ht1 as [->| ->]; split_and!; try done; intros k; apply grown_positions).
  destruct Hsame as (S1 & S2 & S3 & S4 & S5 & S6 & S7). pose proof (tk_free_sorted _ H1) as Hss. rewrite Hfree in Hss.
  inversion Hss as [|?? Hss' Hlow]; subst. assert (Hown : owner_chunk (d, i) = Some c) by done.
  set (t' := {| st_slot_count := _ |}). assert (Hok : table_ok t').
  { unfold t'. apply (table_set t1 _ n None (Some (d, i)) H1 Hno);
      cbn [st_slot_count st_owners st_words st_positions st_free st_chunks st_total_words st_nonpositional st_embedded st_pending st_lexical];
      rewrite ?S2, ?S3, ?S4, ?S5, ?S6, ?S7, ?weight_none, ?(weight_owner _ _ c Hown); try done; try (unfold one; lia).
    + intros x [= <-]. eauto.
    + by rewrite length_insert.
    + apply words_small_insert; [apply H1|apply Hfit].
    + intros k Hk Hp. rewrite words_at_insert by (rewrite ?(tk_words _ H1); done). by rewrite decide_False.
    + intros k Hk Hkl. rewrite S1. apply Hpo; [done|]. rewrite Hc1. lia.
    + intros c' Hc'. simpl in Hc'. rewrite Hown in Hc'. injection Hc' as <-. rewrite words_at_insert by (rewrite ?(tk_words _ H1); (done || lia)).
      by rewrite decide_True.
    + destruct Hso as [[-> _]|?]; [by left|by right].
    + intros s. rewrite Hfree, elem_of_cons. rewrite Forall_forall in Hlow. split.
      * intros Hin. right. specialize (Hlow s Hin). split; [lia|by right].
      * intros [[_ ?]|[Hne [?|Hin]]]; [done|done|done]. }
  assert (Hlast : st_slot_count t' = st_slot_count t \/ st_slot_count t' = st_chunks t').
  { destruct Ht1 as [->| ->]; [by left|right]. apply full_table; [done|]. cbn [grown_table st_free] in Hfree. by injection Hfree as _ <-. }
  exists t', n. split; [done|]. split; [done|]. unfold t' in Hlast |- *. split_and!.
  - cbn [st_owners]. destruct Ht1 as [->| ->]; [by left|right]. cbn [grown_table st_free st_owners] in *. injection Hfree as Hfree _.
    pose proof (tk_count _ H) as Hc. assert (n = length (st_owners t)) as -> by lia. split; [done|]. by rewrite insert_app_r_alt, Nat.sub_diag by lia.
  - cbn [st_owners]. by rewrite length_insert.
  - intros Hn'. destruct Ht1 as [->| ->]; [done|]. cbn [grown_table st_owners] in Hno. by rewrite lookup_app_l in Hno.
  - exact Hlow.
  - cbn [st_slot_count]. destruct Ht1 as [->| ->]; simpl; lia.
  - intros s Hs. cbn [st_free] in Hs. destruct Ht1 as [->| ->]; [rewrite Hfree; by right|]. cbn [grown_table st_free] in Hfree. injection Hfree as _ <-. by apply elem_of_nil in Hs.
  - destruct Ht1 as [->| ->]; [left; rewrite Hfree; left|right]. cbn [grown_table st_free] in Hfree. by injection Hfree as ->.
  - cbn [st_slot_count]. destruct Ht1 as [->| ->]; simpl; lia.
  - done.
  - done.
  - done.
  - intros Hr. unfold released in *. cbn [st_nonpositional st_chunks st_positions]. intros Heq. unfold nonpositional in Heq.
    pose proof (nonpositional_le t H). destruct (t_positions (c_terms c)) eqn:Ep; [lia|]. apply Hnil; [done|]. apply Hr. lia.
Qed.

Lemma weight_le t n x c (g : StoredChunk -> Z) :
  table_ok t -> st_owners t !! n = Some (Some x) -> owner_chunk x = Some c -> (forall c, 0 <= g c)%Z -> (g c <= total g (st_owners t))%Z.
Proof. intros H Hn Hc Hg. rewrite <- (weight_owner g x c Hc). by eapply total_lookup. Qed.

(** The total number of words of chunks the store holds. *)
Lemma words_weight t n x c :
  table_ok t -> st_owners t !! n = Some (Some x) -> owner_chunk x = Some c -> (c_word_count c <= st_total_words t)%Z.
Proof.
  intros H Hn Hc. rewrite (tk_total _ H). pose proof (tk_owners _ H) as Ho. revert n Hn Ho. generalize (st_owners t) as os.
  assert (Hpos : forall os, Forall (fun o => forall x : owner, o = Some x -> exists c, owner_chunk x = Some c /\ chunk_fits c) os -> (0 <= total c_word_count os)%Z).
  { induction 1 as [|o os Ho _ IH]; simpl; [lia|]. unfold weight. destruct o as [y|]; simpl; [|lia].
    destruct (Ho y eq_refl) as (c' & -> & _ & Hw). lia. }
  induction os as [|o os IH]; intros [|n] Hn Ho; simpl in *; try done; apply Forall_cons in Ho as [Ho Hos].
  - injection Hn as ->. rewrite (weight_owner _ _ c Hc). specialize (Hpos os Hos). lia.
  - specialize (IH n Hn Hos). unfold weight. destruct o as [y|]; simpl; [|lia]. destruct (Ho y eq_refl) as (c' & -> & _ & Hw). lia.
Qed.

(** A chunk replaced in its slot; the vector states of the table itself are shifted later. *)
Lemma replace_chunk_ok t s previous d i old new n :
  table_ok t -> st_owners t !! n = Some (Some (previous, i)) -> doc_chunks previous !! i = Some old ->
  doc_chunks d !! i = Some new -> chunk_fits new -> (st_total_words t + c_word_count new < U64)%Z ->
  exists t', replace_chunk (with_states t s) previous d i old new (Z.of_nat n) = Ok (with_states t' s) /\ table_ok t' /\
    st_owners t' = <[n := Some (d, i)]> (st_owners t) /\ st_slot_count t' = st_slot_count t /\
    st_words t' = <[n := c_word_count new]> (st_words t) /\
    st_total_words t' = (st_total_words t - c_word_count old + c_word_count new)%Z /\
    st_pending t' = (st_pending t - pending old + pending new)%Z /\ st_lexical t' = (st_lexical t - lexical old + lexical new)%Z.
Proof.
  intros H Hn Hold Hnew Hfit Htotal. pose proof (table_totals t H) as Hb. pose proof U32_U64 as HU.
  pose proof (small_weights old) as Hso. pose proof (small_weights new) as Hsn.
  assert (Hco : owner_chunk (previous, i) = Some old) by done. assert (Hcn : owner_chunk (d, i) = Some new) by done.
  pose proof (words_weight t n _ old H Hn Hco) as Hww.
  destruct (owner_fits t n _ H Hn) as (old' & Hold' & _ & Hwo). rewrite Hco in Hold'. injection Hold' as <-.
  assert (Hnp : (nonpositional old <= st_nonpositional t)%Z).
  { rewrite (tk_nonpositional _ H). by eapply (weight_le t n); [| | |intros c; apply small_weights]. }
  assert (Hem : (embedded old <= st_embedded t)%Z).
  { rewrite (tk_embedded _ H). by eapply (weight_le t n); [| | |intros c; apply small_weights]. }
  unfold replace_chunk. cbn [with_states st_owners st_nonpositional st_words st_positions st_slot_count st_total_words st_embedded st_free st_chunks st_pending st_lexical].
  rewrite Nat2Z.id, Hn. cbn [expect obind fst snd]. rewrite decide_True by done. cbn [obind]. rewrite Nat.eqb_refl. cbn [obind].
  rewrite checked_sub_ok by lia. cbn [expect obind]. rewrite checked_add_ok by lia. cbn [expect obind].
  rewrite (slot_words_ok new Hfit). cbn [obind]. apply lookup_lt_Some in Hn as Hlt.
  destruct (lookup_lt_is_Some_2 (st_words t) n) as [w0 Hw0]; [rewrite (tk_words _ H); done|]. rewrite Hw0. cbn [expect obind].
  destruct (set_position_source_ok (st_positions t) (st_slot_count t) n (t_positions (c_terms new))) as (ps & -> & Hps & Hpo & Hso' & _); [rewrite (tk_count _ H); lia|].
  cbn [obind]. rewrite checked_sub_ok by lia. cbn [expect obind]. rewrite checked_add_ok by lia. cbn [expect obind].
  rewrite checked_sub_ok by lia. cbn [expect obind]. rewrite checked_add_ok by lia. cbn [expect obind].
  exists {| st_slot_count := st_slot_count t; st_owners := <[n := Some (d, i)]> (st_owners t); st_words := <[n := c_word_count new]> (st_words t);
     st_positions := ps; st_free := st_free t; st_chunks := st_chunks t; st_total_words := (st_total_words t - c_word_count old + c_word_count new)%Z;
     st_nonpositional := (st_nonpositional t - nonpositional old + nonpositional new)%Z; st_embedded := (st_embedded t - embedded old + embedded new)%Z;
     st_pending := (st_pending t - pending old + pending new)%Z; st_lexical := (st_lexical t - lexical old + lexical new)%Z |}.
  split; [done|]. split; [|done].
  apply (table_set t _ n (Some (previous, i)) (Some (d, i)) H Hn);
    cbn [st_slot_count st_owners st_words st_positions st_free st_chunks st_total_words st_nonpositional st_embedded st_pending st_lexical];
    rewrite ?(weight_owner _ _ old Hco), ?(weight_owner _ _ new Hcn); try done; try (unfold one; lia).
  - intros x [= <-]. eauto.
  - by rewrite length_insert.
  - apply words_small_insert; [apply H|apply Hfit].
  - intros k Hk Hp. rewrite words_at_insert by (rewrite ?(tk_words _ H); done). by rewrite decide_False.
  - intros k Hk Hkl. apply Hpo; [done|]. rewrite (tk_count _ H). lia.
  - intros c Hc. simpl in Hc. rewrite Hcn in Hc. injection Hc as <-. rewrite words_at_insert by (rewrite ?(tk_words _ H); (done || lia)). by rewrite decide_True.
  - destruct Hso' as [[-> _]|?]; [by left|by right].
  - apply H.
  - intros s'. split; [|intros [[_ ?]|[_ ?]]; done]. intros Hin. right. split; [|done]. intros ->.
    apply (tk_free _ H) in Hin as [_ Hno]. rewrite Nat2Z.id, Hn in Hno. done.
Qed.

Lemma free_insert_ok free slot :
  StronglySorted Z.lt free -> slot ∉ free ->
  exists l, free_insert free slot = (l, true) /\ StronglySorted Z.lt l /\ forall s, s ∈ l <-> s = slot \/ s ∈ free.
Proof.
  induction free as [|x free IH]; intros Hs Hn; cbn [free_insert].
  { exists [slot]. split_and!; [done|apply SSorted_cons; [apply SSorted_nil|constructor]|]. intros s. by rewrite list_elem_of_singleton, elem_of_nil, (right_id _ _). }
  apply not_elem_of_cons in Hn as [Hne Hn]. inversion Hs as [|?? Hs' Hlow]; subst. destruct (slot <? x)%Z eqn:E; bool_to_prop.
  - exists (slot :: x :: free). split_and!; [done| |intros s; by rewrite elem_of_cons]. apply SSorted_cons; [done|].
    apply Forall_cons. split; [done|]. eapply Forall_impl; [exact Hlow|]. intros y Hy. lia.
  - rewrite (proj2 (Z.eqb_neq slot x)) by done. destruct (IH Hs' Hn) as (l & -> & Hl & Hin). exists (x :: l). split_and!; [done| |].
    + apply SSorted_cons; [done|]. apply Forall_forall. intros y Hy. apply Hin in Hy as [->|Hy]; [lia|]. rewrite Forall_forall in Hlow. by apply Hlow.
    + intros s. rewrite !elem_of_cons, Hin. tauto.
Qed.

(** A slot given back. *)
Lemma release_chunk_ok t d i c n :
  table_ok t -> st_owners t !! n = Some (Some (d, i)) -> doc_chunks d !! i = Some c ->
  exists t', release_chunk t (doc_id d) i c (Z.of_nat n) = Ok t' /\ table_ok t' /\
    st_owners t' = <[n := None]> (st_owners t) /\ st_words t' = st_words t /\ st_slot_count t' = st_slot_count t /\
    st_total_words t' = (st_total_words t - c_word_count c)%Z.
Proof.
  intros H Hn Hi. assert (Hc : owner_chunk (d, i) = Some c) by done. pose proof (words_weight t n _ c H Hn Hc) as Hww.
  pose proof (small_weights c) as Hsw.
  assert (Hle : forall g, (forall c, 0 <= g c <= 1)%Z -> (g c <= total g (st_owners t))%Z).
  { intros g Hg. eapply (weight_le t n); [done|done|done|]. intros c'. apply Hg. }
  assert (H1 : (one c <= st_chunks t)%Z) by (rewrite (tk_chunks _ H); apply Hle; intros; apply small_weights).
  assert (H2 : (nonpositional c <= st_nonpositional t)%Z) by (rewrite (tk_nonpositional _ H); apply Hle; intros; apply small_weights).
  assert (H3 : (embedded c <= st_embedded t)%Z) by (rewrite (tk_embedded _ H); apply Hle; intros; apply small_weights).
  assert (H4 : (pending c <= st_pending t)%Z) by (rewrite (tk_pending _ H); apply Hle; intros; apply small_weights).
  assert (H5 : (lexical c <= st_lexical t)%Z) by (rewrite (tk_lexical _ H); apply Hle; intros; apply small_weights).
  unfold release_chunk. rewrite checked_sub_ok by lia. cbn [expect obind]. rewrite count_removed by done. cbn [obind].
  replace (match c_embedding c with Some _ => _ | None => _ end) with (Ok (st_embedded t - embedded c)%Z : outcome Z).
  2: { unfold embedded in *. destruct (c_embedding c); [rewrite checked_sub_ok by lia; done|]. f_equal. lia. }
  cbn [obind]. rewrite Nat2Z.id, Hn. cbn [expect obind fst snd]. rewrite decide_True by done. cbn [obind]. rewrite Nat.eqb_refl. cbn [obind].
  unfold one in H1. rewrite checked_sub_ok by lia. cbn [expect obind]. rewrite checked_sub_ok by lia. cbn [expect obind].
  destruct (free_insert_ok (st_free t) (Z.of_nat n)) as (free & -> & Hfs & Hfin); [apply H| |].
  { intros Hin. apply (tk_free _ H) in Hin as [_ Hno]. rewrite Nat2Z.id, Hn in Hno. done. }
  cbn [obind]. eexists. split; [done|]. split; [|done].
  apply (table_set t _ n (Some (d, i)) None H Hn);
    cbn [st_slot_count st_owners st_words st_positions st_free st_chunks st_total_words st_nonpositional st_embedded st_pending st_lexical];
    rewrite ?(weight_owner _ _ c Hc), ?weight_none; try done; try (unfold one; lia).
  - apply H.
  - intros k Hk Hkl. by rewrite list_lookup_insert_ne.
  - unfold sources_ok. cbn [st_positions st_slot_count]. rewrite length_insert. destruct (tk_sources _ H) as [->|?]; [by left|by right].
  - intros s. rewrite Hfin. destruct (decide (s = Z.of_nat n)); naive_solver.
Qed.

(** ** Trimming *)

Lemma sorted_filter (P : Z -> Prop) `{!forall z, Decision (P z)} l : StronglySorted Z.lt l -> StronglySorted Z.lt (filter P l).
Proof.
  induction 1 as [|z l Hs IH Hf]; [constructor|]. rewrite filter_cons. case_decide; [|done]. apply SSorted_cons; [done|].
  apply Forall_forall. intros y [_ Hy]%list_elem_of_filter. rewrite Forall_forall in Hf. by apply Hf.
Qed.

Lemma trim_loop_ok fuel count free :
  (0 <= count)%Z -> Z.to_nat count <= fuel -> StronglySorted Z.lt free -> (forall s, s ∈ free -> s < count)%Z ->
  exists count' free', trim_loop fuel count free = (count', free') /\ (0 <= count' <= count)%Z /\ StronglySorted Z.lt free' /\
    (forall s, s ∈ free' <-> s ∈ free /\ (s < count')%Z) /\ (forall s, count' <= s < count -> s ∈ free)%Z.
Proof.
  revert count free. induction fuel as [|fuel IH]; intros count free Hc Hf Hs Hlt; cbn [trim_loop].
  { exists count, free. split_and!; try done; try lia. intros s. split; [|by intros []]. intros Hin. split; [done|by apply Hlt]. }
  destruct (0 <? count)%Z eqn:E; bool_to_prop.
  - unfold free_remove. case_bool_decide as Hin.
    + assert (Hsort : StronglySorted Z.lt (filter (fun s => s <> (count - 1)%Z) free)) by (by apply sorted_filter).
      destruct (IH (count - 1)%Z (filter (fun s => s <> (count - 1)%Z) free)) as (c' & f' & -> & Hb & Hs' & Hin' & Hall); [lia|lia|done| |].
      { intros s [Hne Hs']%list_elem_of_filter. specialize (Hlt s Hs'). lia. }
      exists c', f'. split_and!; [done|lia|lia|done| |].
      * intros s. rewrite Hin', list_elem_of_filter. split; [naive_solver|]. intros [H1 H2]. split_and!; [lia|done|done].
      * intros s Hr. destruct (decide (s = count - 1)%Z) as [->|]; [done|]. assert (Hx : s ∈ filter (fun s => s <> (count - 1)%Z) free) by (apply Hall; lia).
        by apply list_elem_of_filter in Hx as [_ Hx].
    + replace (filter (fun s => s <> (count - 1)%Z) free) with free.
      * exists count, free. split_and!; try done; try lia. intros s. split; [|by intros []]. intros Hx. split; [done|by apply Hlt].
      * clear -Hin. induction free as [|x l IH]; [done|]. apply not_elem_of_cons in Hin as [Hne Hin]. rewrite filter_cons, decide_True by congruence.
        f_equal. by apply IH.
  - assert (count = 0%Z) as -> by lia. exists 0%Z, free. split_and!; try done; try lia. intros s. split; [|by intros []].
    intros Hx. specialize (Hlt s Hx). split; [done|lia].
Qed.

(** When every chunk is counted as non-positional, none has positions. *)
Lemma none_positional t k c :
  table_ok t -> st_nonpositional t = st_chunks t -> slot_chunk (st_owners t) k = Some c -> t_positions (c_terms c) = None.
Proof.
  intros H Heq Hk. destruct (slot_chunk_Some _ _ _ Hk) as (_ & o & Ho & Hc).
  assert (Hle : (one c - nonpositional c <= 0)%Z).
  { replace 0%Z with (total (fun c => one c - nonpositional c)%Z (st_owners t)).
    - eapply (weight_le t _ o c (fun c => one c - nonpositional c)%Z); try done. intros c'. pose proof (small_weights c'). unfold one in *. lia.
    - rewrite total_sub, <- (tk_chunks _ H), <- (tk_nonpositional _ H). lia. }
  unfold one, nonpositional in Hle. destruct (t_positions _); [lia|done].
Qed.

(** The position records are exactly as long as the table, or there are none. *)
Lemma sources_length t :
  table_ok t -> released t ->
  length (st_positions t) = if (st_nonpositional t =? st_chunks t)%Z then 0 else length (st_owners t).
Proof.
  intros H Hr. destruct (_ =? _)%Z eqn:E; bool_to_prop; [by rewrite Hr|].
  destruct (tk_sources _ H) as [Hn|Hs]; [|rewrite (tk_count _ H) in Hs; lia]. destruct E.
  rewrite (tk_nonpositional _ H), (tk_chunks _ H). pose proof (tk_positions _ H) as Hp. rewrite Hn in Hp.
  assert (Hw : Forall (fun o => weight nonpositional o = weight one o) (st_owners t)).
  { apply Forall_lookup. intros n o Ho. unfold weight. destruct (o ≫= owner_chunk) as [c|] eqn:Ec; [|done].
    specialize (Hp (Z.of_nat n) c). unfold slot_chunk in Hp. rewrite decide_True, Nat2Z.id, Ho in Hp by lia.
    unfold nonpositional, one. by rewrite <- (Hp Ec). }
  clear -Hw. induction Hw as [|o l Ho _ IH]; [done|]. simpl. by rewrite Ho, IH.
Qed.

Lemma trim_position_ok t : table_ok t -> table_ok (trim_position_sources t).
Proof.
  intros H. split; try apply H; unfold sources_ok; cbn [trim_position_sources st_owners st_positions st_slot_count].
  - intros k c Hk. destruct (_ =? _)%Z eqn:E; bool_to_prop; [by rewrite (none_positional t k c)|].
    destruct (slot_chunk_Some _ _ _ Hk) as (Hp & o & Ho & Hc). apply lookup_lt_Some in Ho. rewrite lookup_take_lt by (rewrite (tk_count _ H); lia).
    by apply (tk_positions _ H).
  - destruct (_ =? _)%Z; [by left|]. destruct (tk_sources _ H) as [->|Hs]; [left; by rewrite take_nil|right]. rewrite length_take. lia.
Qed.

Lemma trim_released (t : SlotTable V) : released (trim_position_sources t).
Proof. intros H. cbn [trim_position_sources st_nonpositional st_chunks] in H. cbn [trim_position_sources st_positions]. by rewrite H, Z.eqb_refl. Qed.

Lemma trim_slots_released (t : SlotTable V) : released (trim_slots t).
Proof. unfold trim_slots. destruct (trim_loop _ _ _). apply trim_released. Qed.

Lemma slot_chunk_take os n k :
  (forall m, n <= m -> m < length os -> os !! m = Some None) -> slot_chunk (take n os) k = slot_chunk os k.
Proof.
  intros Hnone. unfold slot_chunk. case_decide; [|done]. destruct (decide (Z.to_nat k < n)) as [Hk|Hk]; [by rewrite lookup_take_lt|].
  rewrite lookup_take_ge by lia. destruct (decide (Z.to_nat k < length os)) as [Hl|Hl]; [by rewrite Hnone by lia|].
  by rewrite lookup_ge_None_2 by lia.
Qed.

Lemma total_take g os n : (forall m, n <= m -> m < length os -> os !! m = Some None) -> total g (take n os) = total g os.
Proof.
  intros Hnone. rewrite <- (take_drop n os) at 2. rewrite total_app.
  assert (Hz : total g (drop n os) = 0%Z); [|lia].
  assert (Hall : Forall (fun o => o = None) (drop n os)).
  { apply Forall_lookup. intros i o Hi. rewrite lookup_drop in Hi. pose proof (lookup_lt_Some _ _ _ Hi). rewrite Hnone in Hi by lia. by injection Hi. }
  induction Hall as [|o l -> _ IH]; [done|]. simpl. rewrite IH. done.
Qed.

Lemma trim_position_take (t : SlotTable V) ps :
  trim_position_sources {| st_slot_count := st_slot_count t; st_owners := st_owners t; st_words := st_words t; st_positions := ps;
    st_free := st_free t; st_chunks := st_chunks t; st_total_words := st_total_words t; st_nonpositional := st_nonpositional t;
    st_embedded := st_embedded t; st_pending := st_pending t; st_lexical := st_lexical t |} =
  trim_position_sources {| st_slot_count := st_slot_count t; st_owners := st_owners t; st_words := st_words t;
    st_positions := take (Z.to_nat (st_slot_count t)) ps; st_free := st_free t; st_chunks := st_chunks t;
    st_total_words := st_total_words t; st_nonpositional := st_nonpositional t;
    st_embedded := st_embedded t; st_pending := st_pending t; st_lexical := st_lexical t |}.
Proof. unfold trim_position_sources. cbn. by rewrite take_take, Nat.min_id. Qed.

(** Trimming drops free slots at the end and nothing else. *)
Lemma trim_slots_ok t :
  table_ok t ->
  exists n, table_ok (trim_slots t) /\ st_owners (trim_slots t) = take n (st_owners t) /\
    (forall m, n <= m -> m < length (st_owners t) -> st_owners t !! m = Some None) /\
    st_words (trim_slots t) = take n (st_words t) /\ (st_slot_count (trim_slots t) <= st_slot_count t)%Z /\
    st_total_words (trim_slots t) = st_total_words t.
Proof.
  intros H. pose proof (tk_count _ H) as Hc. unfold trim_slots.
  destruct (trim_loop_ok (Z.to_nat (st_slot_count t)) (st_slot_count t) (st_free t)) as (count & free & -> & Hb & Hs & Hin & Hall); [lia|done|apply H| |].
  { intros s Hs. apply (tk_free _ H) in Hs as [Hp Hs]. apply lookup_lt_Some in Hs. lia. }
  assert (Hnone : forall m, Z.to_nat count <= m -> m < length (st_owners t) -> st_owners t !! m = Some None).
  { intros m H1 H2. destruct (proj1 (tk_free _ H (Z.of_nat m))) as [_ Hno]; [apply Hall; lia|]. by rewrite Nat2Z.id in Hno. }
  exists (Z.to_nat count). split; [|split_and!; try done; cbn [trim_position_sources st_slot_count]; lia].
  match goal with |- table_ok (trim_position_sources ?u) => rewrite (trim_position_take u (st_positions t) : trim_position_sources u = _) end.
  apply trim_position_ok.
  split; cbn [st_slot_count st_owners st_words st_positions st_free st_chunks st_total_words st_nonpositional st_embedded st_pending st_lexical];
    rewrite ?total_take by done; try apply H; try done.
  - rewrite length_take. lia.
  - pose proof (tk_room _ H). lia.
  - by rewrite !length_take, (tk_words _ H).
  - apply Forall_take, H.
  - intros s. rewrite Hin, (tk_free _ H). split.
    + intros [[Hp Hno] Hlt]. split; [done|]. by rewrite lookup_take_lt by lia.
    + intros [Hp Hno]. apply lookup_take_Some in Hno as [Hno Hlt]. split; [done|lia].
  - intros k c Hk. rewrite slot_chunk_take in Hk by done. destruct (slot_chunk_Some _ _ _ Hk) as (Hp & o & Ho & _).
    rewrite <- (tk_lengths _ H k c Hk). unfold words_at. f_equal. apply lookup_take_lt.
    destruct (decide (Z.to_nat k < Z.to_nat count)); [done|]. pose proof (lookup_lt_Some _ _ _ Ho). rewrite Hnone in Ho by lia. done.
  - intros k. unfold words_at. destruct (take (Z.to_nat count) (st_words t) !! Z.to_nat k) as [w|] eqn:E; [|done].
    apply lookup_take_Some in E as [E _]. pose proof (tk_small _ H k) as Hw. unfold words_at in Hw. by rewrite E in Hw.
  - intros k c Hk. rewrite slot_chunk_take in Hk by done. destruct (slot_chunk_Some _ _ _ Hk) as (Hp & o & Ho & _).
    rewrite <- (tk_positions _ H k c Hk). f_equal. apply lookup_take_lt.
    destruct (decide (Z.to_nat k < Z.to_nat count)); [done|]. pose proof (lookup_lt_Some _ _ _ Ho). rewrite Hnone in Ho by lia. done.
  - unfold sources_ok. cbn [st_positions st_slot_count]. destruct (tk_sources _ H) as [->|Hso]; [left; by rewrite take_nil|right].
    rewrite length_take. lia.
Qed.

Lemma owned_take os n : (forall m, n <= m -> m < length os -> os !! m = Some None) -> owned (take n os) = owned os.
Proof. intros Hn. apply map_eq. intros k. by rewrite !lookup_owned, slot_chunk_take. Qed.
End TableSpec.
