(* ===== verification/Store.v ===== *)
(** * The document store

    [DocumentStore] of [src/core/documents/index.rs]: documents by id over the slot table, the
    lexical index, the filter indexes, the dense-change log, the text segment and the checkpoint
    under it.  [insert_batch] installs new documents in bulk and replaces stored ones;
    [remove_with] takes a document out and rebuilds the store when most slots are free. *)

From S2P Require Import Prelude Words BitPack Search Positions Terms TextSegment Binary Share TermDict Postings Cursor PostingEdit PostingRuns Lists Indexing Bulk IndexRuns Filters SlotTable.

(** ** The checkpoint under a store *)

(** [overlay::Base], as the store uses it: the ordinal of a live checkpoint document, and
    marking one dead.  A killed document is no longer live and the others stay. *)
Class Checkpoint (B : Type) := {
  base_live : B -> list Z -> option nat;
  base_kill : B -> nat -> outcome B;
  base_good : B -> Prop;
  base_kill_ok : forall b id o, base_good b -> base_live b id = Some o ->
    exists b', base_kill b o = Ok b' /\ base_good b' /\ base_live b' id = None /\
      forall id', id' <> id -> base_live b' id' = base_live b id' }.

Definition MAX_BATCH_ITEMS : nat := 4096.
Definition MAX_DELTA_DOCUMENTS : nat := 128.
Definition MAX_DELTA_CHUNKS : Z := 1024.
Definition MAX_DELTA_ID_BYTES : Z := 64 * 1024.

(** [Result::expect]. *)
Definition expect_ok {A} (m : outcome A) : outcome A := match m with Err _ => Panic | m => m end.

(** Documents can be compared, as their addresses can in the code. *)
#[global] Instance offsets_eq : EqDecision Offsets. Proof. solve_decision. Defined.
#[global] Instance positions_eq : EqDecision Positions. Proof. solve_decision. Defined.
#[global] Instance dictionary_eq : EqDecision SharedDictionary. Proof. solve_decision. Defined.
#[global] Instance frequencies_eq : EqDecision SharedFrequencies. Proof. solve_decision. Defined.
#[global] Instance packed_eq : EqDecision PackedTerms. Proof. solve_decision. Defined.
#[global] Instance shared_eq : EqDecision SharedTerms. Proof. solve_decision. Defined.
#[global] Instance term_data_eq : EqDecision TermData. Proof. solve_decision. Defined.
#[global] Instance stored_terms_eq : EqDecision StoredTerms. Proof. solve_decision. Defined.
#[global] Instance vector_state_eq : EqDecision VectorState. Proof. solve_decision. Defined.
#[global] Instance hvec_eq : EqDecision EntangledHVec. Proof. solve_decision. Defined.
#[global] Instance stored_chunk_eq : EqDecision StoredChunk. Proof. solve_decision. Defined.
#[global] Instance stored_document_eq {V} `{!EqDecision V} : EqDecision (StoredDocument V). Proof. solve_decision. Defined.

Section Store.
Context {V : Type} {json : Json V} `{!EqDecision (StoredDocument V)}.
Context {D : Type} {dict : TermIndex D} {B : Type} {checkpoint : Checkpoint B}.
(** [rayon::current_num_threads()], [crc32fast::hash], the segment's cipher, and the nonce drawn
    for a record at an offset. *)
Context (threads : nat) (crc32 : list Z -> Z) (cipher : option Aead) (nonce_at : Z -> list Z).
Abbreviation Doc := (StoredDocument V).
Abbreviation forms := (PostingLists D * PostingLists D)%type.

(** [DenseChange]; the previous owner's address stands for the document. *)
Record DenseChange := mkDense { dc_chunks : Z; dc_previous : option Doc }.

Record DocumentStore := mkStore {
  ds_documents : gmap (list Z) Doc;
  ds_postings : forms;
  ds_slots : gmap (list Z) (list Z);
  ds_table : SlotTable V;
  ds_multichunk : gset (list Z);
  ds_embedded : gset (list Z);
  ds_filters : FilterIndex;
  ds_generation : Z;
  ds_dense : option Z;  (* the generation the dense index was trained at *)
  ds_changes : gmap (list Z) DenseChange;
  ds_text : option TextSegment;
  ds_base : option B }.

Definition store_default : DocumentStore :=
  {| ds_documents := ∅; ds_postings := (pls_default, pls_default); ds_slots := ∅; ds_table := table_default;
     ds_multichunk := ∅; ds_embedded := ∅; ds_filters := filters_default; ds_generation := 0; ds_dense := None;
     ds_changes := ∅; ds_text := None; ds_base := None |}.

Definition set_documents (s : DocumentStore) (x : gmap (list Z) Doc) : DocumentStore :=
  mkStore x (ds_postings s) (ds_slots s) (ds_table s) (ds_multichunk s) (ds_embedded s) (ds_filters s) (ds_generation s) (ds_dense s) (ds_changes s) (ds_text s) (ds_base s).
Definition set_postings (s : DocumentStore) (x : forms) : DocumentStore :=
  mkStore (ds_documents s) x (ds_slots s) (ds_table s) (ds_multichunk s) (ds_embedded s) (ds_filters s) (ds_generation s) (ds_dense s) (ds_changes s) (ds_text s) (ds_base s).
Definition set_slots (s : DocumentStore) (x : gmap (list Z) (list Z)) : DocumentStore :=
  mkStore (ds_documents s) (ds_postings s) x (ds_table s) (ds_multichunk s) (ds_embedded s) (ds_filters s) (ds_generation s) (ds_dense s) (ds_changes s) (ds_text s) (ds_base s).
Definition set_table (s : DocumentStore) (x : SlotTable V) : DocumentStore :=
  mkStore (ds_documents s) (ds_postings s) (ds_slots s) x (ds_multichunk s) (ds_embedded s) (ds_filters s) (ds_generation s) (ds_dense s) (ds_changes s) (ds_text s) (ds_base s).
Definition set_multichunk (s : DocumentStore) (x : gset (list Z)) : DocumentStore :=
  mkStore (ds_documents s) (ds_postings s) (ds_slots s) (ds_table s) x (ds_embedded s) (ds_filters s) (ds_generation s) (ds_dense s) (ds_changes s) (ds_text s) (ds_base s).
Definition set_embedded (s : DocumentStore) (x : gset (list Z)) : DocumentStore :=
  mkStore (ds_documents s) (ds_postings s) (ds_slots s) (ds_table s) (ds_multichunk s) x (ds_filters s) (ds_generation s) (ds_dense s) (ds_changes s) (ds_text s) (ds_base s).
Definition set_filters (s : DocumentStore) (x : FilterIndex) : DocumentStore :=
  mkStore (ds_documents s) (ds_postings s) (ds_slots s) (ds_table s) (ds_multichunk s) (ds_embedded s) x (ds_generation s) (ds_dense s) (ds_changes s) (ds_text s) (ds_base s).
Definition set_generation (s : DocumentStore) (x : Z) : DocumentStore :=
  mkStore (ds_documents s) (ds_postings s) (ds_slots s) (ds_table s) (ds_multichunk s) (ds_embedded s) (ds_filters s) x (ds_dense s) (ds_changes s) (ds_text s) (ds_base s).
Definition set_dense (s : DocumentStore) (x : option Z) (y : gmap (list Z) DenseChange) : DocumentStore :=
  mkStore (ds_documents s) (ds_postings s) (ds_slots s) (ds_table s) (ds_multichunk s) (ds_embedded s) (ds_filters s) (ds_generation s) x y (ds_text s) (ds_base s).
Definition set_text (s : DocumentStore) (x : option TextSegment) : DocumentStore :=
  mkStore (ds_documents s) (ds_postings s) (ds_slots s) (ds_table s) (ds_multichunk s) (ds_embedded s) (ds_filters s) (ds_generation s) (ds_dense s) (ds_changes s) x (ds_base s).
Definition set_base (s : DocumentStore) (x : option B) : DocumentStore :=
  mkStore (ds_documents s) (ds_postings s) (ds_slots s) (ds_table s) (ds_multichunk s) (ds_embedded s) (ds_filters s) (ds_generation s) (ds_dense s) (ds_changes s) (ds_text s) x.

(** ** Small steps *)

Definition advance_generation (s : DocumentStore) (by_ : Z) : outcome DocumentStore :=
  let* g := expect (checked_add U64 (ds_generation s) by_) in Ok (set_generation s g).

(** [contains_key]: stored here, or live in the checkpoint. *)
Definition store_contains (s : DocumentStore) (id : list Z) : bool :=
  bool_decide (is_Some (ds_documents s !! id)) ||
  match ds_base s with Some b => bool_decide (is_Some (base_live b id)) | None => false end.

Definition kill_base (s : DocumentStore) (id : list Z) : outcome (DocumentStore * bool) :=
  match ds_base s with
  | None => Ok (s, false)
  | Some b =>
      match base_live b id with
      | None => Ok (s, false)
      | Some ordinal =>
          let* b := base_kill b ordinal in
          let* s := advance_generation (set_base s (Some b)) 1 in
          Ok (s, true)
      end
  end.

Definition sum_chunks (m : gmap (list Z) DenseChange) : Z := map_fold (fun _ c n => dc_chunks c + n)%Z 0%Z m.
Definition sum_ids (m : gmap (list Z) DenseChange) : Z := map_fold (fun id _ n => Z.of_nat (length id) + n)%Z 0%Z m.

Definition track_dense_change (s : DocumentStore) (id : list Z) (chunks : Z) (previous : option Doc) : DocumentStore :=
  match ds_dense s with
  | None => s
  | Some g =>
      let m := ds_changes s in
      let known := bool_decide (is_Some (m !! id)) in
      let documents := size m + (if known then 0 else 1) in
      let rows := (sum_chunks m - default 0 (dc_chunks <$> m !! id))%Z in
      let bytes := (sum_ids m + (if known then 0 else Z.of_nat (length id)))%Z in
      if (MAX_DELTA_DOCUMENTS <? documents) || (Z.max 0 (MAX_DELTA_CHUNKS - rows) <? chunks)%Z || (MAX_DELTA_ID_BYTES <? bytes)%Z
      then set_dense s None ∅
      else match m !! id with
           | Some c => set_dense s (Some g) (<[id := {| dc_chunks := chunks; dc_previous := dc_previous c |}]> m)
           | None => set_dense s (Some g) (<[id := {| dc_chunks := chunks; dc_previous := previous |}]> m)
           end
  end.

Definition has_embedding (d : Doc) : bool := existsb (fun c => match c_embedding c with Some _ => true | None => false end) (doc_chunks d).

(** ** Text *)

(** [try_text_of]. *)
Definition try_text_of (segment : option TextSegment) (c : StoredChunk) : outcome (option (list Z)) :=
  match c_text c, c_text_at c with
  | Some text, _ => Ok (Some text)
  | None, Some loc =>
      let* ts := ok_or segment "chunk text moved to a segment the store no longer has" in
      let* text := segment_read crc32 cipher ts loc in Ok (Some text)
  | None, None => Ok None
  end.

Definition moved_text (c : StoredChunk) (loc : location) : StoredChunk :=
  {| c_id := c_id c; c_text := None; c_text_at := Some loc; c_start_byte := c_start_byte c; c_end_byte := c_end_byte c;
     c_vector := c_vector c; c_embedding := c_embedding c; c_terms := c_terms c; c_word_count := c_word_count c;
     c_stemmed := c_stemmed c; c_vector_state := c_vector_state c |}.

Fixpoint strip_chunks (segment : TextSegment) (cs : list StoredChunk) : outcome (TextSegment * list StoredChunk) :=
  match cs with
  | [] => Ok (segment, [])
  | c :: rest =>
      let* (segment, c) :=
        match c_text c with
        | Some text =>
            let* (loc, segment) := expect_ok (segment_append crc32 cipher segment (nonce_at (ts_len segment)) text) in
            Ok (segment, moved_text c loc)
        | None => Ok (segment, c)
        end in
      let* (segment, rest) := strip_chunks segment rest in
      Ok (segment, c :: rest)
  end.

(** [stripped]. *)
Definition stripped (text : option TextSegment) (d : Doc) : outcome (option TextSegment * Doc) :=
  match text with
  | None => Ok (text, d)
  | Some segment =>
      if forallb (fun c => match c_text c with None => true | Some _ => false end) (doc_chunks d) then Ok (text, d)
      else let* (segment, cs) := strip_chunks segment (doc_chunks d) in Ok (Some segment, with_chunks d cs)
  end.

Fixpoint scrub_spans (segment : TextSegment) (new : Doc) (spans : list location) : outcome TextSegment :=
  match spans with
  | [] => Ok segment
  | span :: rest =>
      let* segment :=
        if forallb (fun c => bool_decide (c_text_at c <> Some span)) (doc_chunks new)
        then expect_ok (segment_scrub segment span.1.1 span.1.2) else Ok segment in
      scrub_spans segment new rest
  end.

(** [scrub_replaced]. *)
Definition scrub_replaced (text : option TextSegment) (old new : Doc) : outcome (option TextSegment) :=
  match text with
  | None => Ok None
  | Some segment => let* segment := scrub_spans segment new (omap c_text_at (doc_chunks old)) in Ok (Some segment)
  end.

(** ** Installing new documents *)

(** The chunks of one document: the table, the slots in chunk order. *)
Fixpoint insert_chunks (t : SlotTable V) (d : Doc) (index : nat) (cs : list StoredChunk) : outcome (SlotTable V * list Z) :=
  match cs with
  | [] => Ok (t, [])
  | c :: rest =>
      let* (t, slot) := insert_chunk t d index c in
      let* (t, slots) := insert_chunks t d (S index) rest in
      Ok (t, slot :: slots)
  end.

(** A document entered, the postings apart; the chunks to index are returned. *)
Definition install_document (s : DocumentStore) (d : Doc) : outcome (DocumentStore * list (Z * StoredChunk)) :=
  let* (t, slots) := insert_chunks (ds_table s) d 0 (doc_chunks d) in
  let s := set_table s t in
  let s := if 1 <? length (doc_chunks d) then set_multichunk s ({[ doc_id d ]} ∪ ds_multichunk s) else s in
  let s := set_slots s (<[doc_id d := slots]> (ds_slots s)) in
  let* s := if has_embedding d then
              if decide (doc_id d ∈ ds_embedded s) then Panic else Ok (set_embedded s ({[ doc_id d ]} ∪ ds_embedded s))
            else Ok s in
  Ok (set_filters s (insert_filters (ds_filters s) d), zip slots (doc_chunks d)).

Fixpoint install_documents (s : DocumentStore) (ds : list Doc) : outcome (DocumentStore * list (Z * StoredChunk)) :=
  match ds with
  | [] => Ok (s, [])
  | d :: rest =>
      let* (s, indexed) := install_document s d in
      let* (s, later) := install_documents s rest in
      Ok (s, indexed ++ later)
  end.

Definition enter_document (s : DocumentStore) (d : Doc) : DocumentStore :=
  let s := track_dense_change s (doc_id d) (Z.of_nat (length (doc_chunks d))) None in
  set_documents s (<[doc_id d := d]> (ds_documents s)).

Definition install_new (s : DocumentStore) (group : list Doc) : outcome DocumentStore :=
  match group with
  | [] => Ok s
  | _ =>
      let* (s, indexed) := install_documents s group in
      let* ps := index_chunks threads (ds_postings s) indexed (st_words (ds_table s)) in
      let* s := advance_generation (set_postings s ps) (Z.of_nat (length group)) in
      Ok (foldl enter_document s group)
  end.

(** ** Replacing in place *)

(** The chunk loop of [replace_shared]. *)
Fixpoint replace_chunks (t : SlotTable V) (ps : forms) (previous d : Doc) (index : nat)
    (chunks : list (StoredChunk * StoredChunk * Z)) : outcome (SlotTable V * forms) :=
  match chunks with
  | [] => Ok (t, ps)
  | (old, new, slot) :: rest =>
      let* t := replace_chunk t previous d index old new slot in
      let* ps := replace_postings ps old new slot (st_words t) in
      replace_chunks t ps previous d (S index) rest
  end.

Definition replace_embedded (s : DocumentStore) (id : list Z) (old new : bool) : outcome DocumentStore :=
  if old && negb new then
    if decide (id ∈ ds_embedded s) then Ok (set_embedded s (ds_embedded s ∖ {[ id ]})) else Panic
  else if negb old && new then
    if decide (id ∈ ds_embedded s) then Panic else Ok (set_embedded s ({[ id ]} ∪ ds_embedded s))
  else Ok s.

Definition replace_shared (s : DocumentStore) (id : list Z) (previous d : Doc) : outcome DocumentStore :=
  let* f := remove_filters (ds_filters s) previous in
  let s := set_filters s (insert_filters f d) in
  let* slots := expect (ds_slots s !! id) in
  if negb (Nat.eqb (length slots) (length (doc_chunks d))) then Panic else
  let triples := zip (zip (doc_chunks previous) (doc_chunks d)) slots in
  let* (t, ps) := replace_chunks (ds_table s) (ds_postings s) previous d 0 triples in
  let pending_delta := foldr (fun x n => pending x.1.2 - pending x.1.1 + n)%Z 0%Z triples in
  let lexical_delta := foldr (fun x n => lexical x.1.2 - lexical x.1.1 + n)%Z 0%Z triples in
  let* states := shift_vector_states (st_pending t, st_lexical t) pending_delta lexical_delta in
  let s := set_postings (set_table s (trim_position_sources (with_states t states))) ps in
  let* s := replace_embedded s id (existsb (fun x => (0 <? embedded x.1.1)%Z) triples) (existsb (fun x => (0 <? embedded x.1.2)%Z) triples) in
  let* s := advance_generation s 1 in
  let s := track_dense_change s id (Z.of_nat (length (doc_chunks d))) (Some previous) in
  let* text := scrub_replaced (ds_text s) previous d in
  Ok (set_documents (set_text s text) (<[id := d]> (ds_documents s))).

(** ** Removing *)

(** The chunk loop of [remove_with]. *)
Fixpoint remove_chunks (t : SlotTable V) (ps : forms) (id : list Z) (indexed : bool) (index : nat) (chunks : list (StoredChunk * Z))
    : outcome (SlotTable V * forms) :=
  match chunks with
  | [] => Ok (t, ps)
  | (c, slot) :: rest =>
      let* ps := if indexed then remove_postings ps c slot (st_words t) else Ok ps in
      let* t := release_chunk t id index c slot in
      remove_chunks t ps id indexed (S index) rest
  end.

Definition id_le (a b : list Z * Doc) : Prop := bcmp a.1 b.1 <> Gt.
#[global] Instance id_le_dec a b : Decision (id_le a b) := not_dec _.

(** [documents.into_values()]: in id order. *)
Definition document_list (s : DocumentStore) : list Doc := map snd (merge_sort id_le (map_to_list (ds_documents s))).

(** A rebuild is due. *)
Definition sparse (t : SlotTable V) : bool :=
  (1024 <? st_slot_count t)%Z && (st_slot_count t / 2 <? Z.of_nat (length (st_free t)))%Z.

(** The rebuild keeps the generation, the text segment and the encode gate. *)
Definition rebuild_from (s : DocumentStore) : DocumentStore := set_text (set_generation store_default (ds_generation s)) (ds_text s).

(** [remove_with] of the store's own document [d], up to the rebuild. *)
Definition remove_entry (s : DocumentStore) (id : list Z) (d : Doc) (indexed : bool) : outcome DocumentStore :=
  let s := set_documents s (delete id (ds_documents s)) in
  let s := set_multichunk s (ds_multichunk s ∖ {[ id ]}) in
  let* s := advance_generation s 1 in
  let s := track_dense_change s id 0 (Some d) in
  let* s := if has_embedding d then
              if decide (id ∈ ds_embedded s) then Ok (set_embedded s (ds_embedded s ∖ {[ id ]})) else Panic
            else Ok s in
  let* f := remove_filters (ds_filters s) d in
  let s := set_filters s f in
  let* slots := expect (ds_slots s !! id) in
  let s := set_slots s (delete id (ds_slots s)) in
  if negb (Nat.eqb (length slots) (length (doc_chunks d))) then Panic else
  let* (t, ps) := remove_chunks (ds_table s) (ds_postings s) id indexed 0 (zip (doc_chunks d) slots) in
  Ok (set_postings (set_table s (trim_slots t)) ps).

(** [remove_with]; [insert] is [insert_batch], called by the rebuild. *)
Definition remove_by (insert : DocumentStore -> list Doc -> outcome DocumentStore) (s : DocumentStore) (id : list Z) (indexed : bool)
    : outcome (DocumentStore * option Doc) :=
  match ds_documents s !! id with
  | None => let* (s, _) := kill_base s id in Ok (s, None)
  | Some d =>
      let* s := remove_entry s id d indexed in
      let* s := if sparse (ds_table s) then insert (rebuild_from s) (document_list s) else Ok s in
      Ok (s, Some d)
  end.

(** ** Batches *)

(** Dictionary sharing of a group of whole documents. *)
Definition share_group (ds : list Doc) : outcome (list Doc) :=
  if forallb (fun d => forallb (fun c => is_whole_document (c_terms c)) (doc_chunks d)) ds then share_documents ds else Ok ds.

Fixpoint prepare_each (s : DocumentStore) (ds : list Doc) : outcome (DocumentStore * list Doc) :=
  match ds with
  | [] => Ok (s, [])
  | d :: rest =>
      let* (s, _) := kill_base s (doc_id d) in
      let* (text, d) := stripped (ds_text s) d in
      let* (s, rest) := prepare_each (set_text s text) rest in
      Ok (s, d :: rest)
  end.

(** [replace]. *)
Definition replace_by (insert : DocumentStore -> list Doc -> outcome DocumentStore) (s : DocumentStore) (d : Doc) : outcome DocumentStore :=
  let in_place := match ds_documents s !! doc_id d with
                  | Some old => if Nat.eqb (length (doc_chunks old)) (length (doc_chunks d)) then Some old else None
                  | None => None end in
  match in_place with
  | Some previous => replace_shared s (doc_id d) previous d
  | None =>
      let* (s, old) := remove_by insert s (doc_id d) true in
      let* s := match old with
                | Some old => let* text := scrub_replaced (ds_text s) old d in Ok (set_text s text)
                | None => Ok s end in
      install_new s [d]
  end.

(** The grouping loop: runs of new, distinct documents are installed together. *)
Fixpoint group_loop (insert : DocumentStore -> list Doc -> outcome DocumentStore) (s : DocumentStore) (ds group : list Doc) (grouped : gset (list Z))
    : outcome DocumentStore :=
  match ds with
  | [] => install_new s group
  | d :: rest =>
      let* (s, group, grouped) :=
        if decide (doc_id d ∈ grouped) then
          let* s := install_new s group in Ok (s, [], {[ doc_id d ]})
        else Ok (s, group, {[ doc_id d ]} ∪ grouped) in
      if decide (is_Some (ds_documents s !! doc_id d)) then
        let* s := install_new s group in
        let* s := replace_by insert s d in
        group_loop insert s rest [] grouped
      else group_loop insert s rest (group ++ [d]) grouped
  end.

Definition insert_by (insert : DocumentStore -> list Doc -> outcome DocumentStore) (s : DocumentStore) (ds : list Doc) : outcome DocumentStore :=
  let* groups := omap_list share_group (chunks_of (length ds) MAX_BATCH_ITEMS ds) in
  let* (s, ds) := prepare_each s (concat groups) in
  group_loop insert s ds [] ∅.

(** [insert_batch] and [remove_with] call each other through [replace] and the rebuild.  A rebuild
    starts from an empty store and distinct ids, so it never replaces: two levels are enough. *)
Fixpoint insert_batch_at (depth : nat) (s : DocumentStore) (ds : list Doc) : outcome DocumentStore :=
  match depth with O => Panic | S depth => insert_by (insert_batch_at depth) s ds end.

Definition insert_batch : DocumentStore -> list Doc -> outcome DocumentStore := insert_batch_at 2.
Definition remove_with : DocumentStore -> list Z -> bool -> outcome (DocumentStore * option Doc) := remove_by (insert_batch_at 1).
Definition store_remove (s : DocumentStore) (id : list Z) : outcome (DocumentStore * option Doc) := remove_with s id true.
Definition store_insert (s : DocumentStore) (id : list Z) (d : Doc) : outcome DocumentStore :=
  if decide (id = doc_id d) then insert_batch s [d] else Panic.
End Store.
Arguments DocumentStore : clear implicits.

(** ** Ordered documents *)

Section Ordered.
Context {V : Type} `{!EqDecision (StoredDocument V)}.
Abbreviation Doc := (StoredDocument V).

(** The documents of a map in id order. *)
Definition ordered (M : gmap (list Z) Doc) : list (list Z * Doc) := merge_sort id_le (map_to_list M).

Lemma ordered_perm M : ordered M ≡ₚ map_to_list M.
Proof. apply merge_sort_Permutation. Qed.

Lemma ordered_elem M id d : (id, d) ∈ ordered M <-> M !! id = Some d.
Proof. rewrite ordered_perm. apply elem_of_map_to_list. Qed.

Lemma ordered_NoDup M : NoDup (map fst (ordered M)).
Proof. change (NoDup ((ordered M).*1)). rewrite ordered_perm. apply NoDup_fst_map_to_list. Qed.

Lemma ordered_sorted M : bsorted (map fst (ordered M)).
Proof. exact (keys_sorted M). Qed.

Lemma ordered_unique M l : bsorted (map fst l) -> l ≡ₚ map_to_list M -> l = ordered M.
Proof. intros Hl Hp. apply sorted_unique; [done|apply ordered_sorted|]. by rewrite ordered_perm. Qed.
End Ordered.
