(* ===== verification/Overlay.v ===== *)
(** * A store over a checkpoint

    [Base] and [Overlaid] of [src/core/documents/overlay.rs]: which checkpoint documents are dead,
    kept as bits per document and per slot with running counts.  A kill finds the slots of a
    document in a table built once by counting sort. *)

From S2P Require Import Prelude Words BitPack Search Positions Terms TextSegment Binary Share TermDict Postings Cursor PostingEdit PostingRuns Lists Indexing Bulk IndexRuns Filters SlotTable Store.

(** Sums over the slots a test selects. *)
Definition wsum (p : nat -> bool) (g : nat -> Z) (l : list nat) : Z := foldr (fun s n => (if p s then g s else 0) + n)%Z 0%Z l.

(** What the overlay reads of a checkpoint ([ServingImage]), and what its construction checked. *)
Class Image (I : Type) := {
  document_total : I -> nat;
  slot_total : I -> nat;
  image_lower_bound : I -> list Z -> nat;
  image_ordinal : I -> list Z -> option nat;
  slot_owner : I -> nat -> option nat;
  image_slot_words : I -> nat -> Z;
  image_chunks : I -> Z;
  image_words : I -> Z;
  image_good : I -> Prop;
  image_ordinal_bound : forall i id o, image_good i -> image_ordinal i id = Some o -> o < document_total i;
  image_ordinal_inj : forall i id id' o, image_good i -> image_ordinal i id = Some o -> image_ordinal i id' = Some o -> id = id';
  slot_owner_bound : forall i s o, image_good i -> s < slot_total i -> slot_owner i s = Some o -> o < document_total i;
  slot_total_bound : forall i, image_good i -> (Z.of_nat (slot_total i) < U32)%Z;
  slot_words_bound : forall i s, image_good i -> s < slot_total i -> (0 <= image_slot_words i s)%Z;
  image_chunks_ok : forall i, image_good i ->
    image_chunks i = wsum (fun s => bool_decide (is_Some (slot_owner i s))) (fun _ => 1%Z) (seq 0 (slot_total i));
  image_words_ok : forall i, image_good i ->
    image_words i = wsum (fun s => bool_decide (is_Some (slot_owner i s))) (image_slot_words i) (seq 0 (slot_total i));
  image_words_bound : forall i, image_good i -> (image_words i < U64)%Z;
  document_total_bound : forall i, image_good i -> (Z.of_nat (document_total i) < U64)%Z }.

(** [bits[i / 64] & (1 << (i % 64)) != 0]. *)
Definition bit (bits : list Z) (i : nat) : outcome bool :=
  let* w := expect (bits !! (i / 64)) in
  Ok (negb (Z.land w (Z.shiftl 1 (Z.of_nat (i mod 64))) =? 0)%Z).

(** [bits[i / 64] |= 1 << (i % 64)]. *)
Definition set_bit (bits : list Z) (i : nat) : outcome (list Z) :=
  let* w := expect (bits !! (i / 64)) in
  Ok (<[i / 64 := Z.lor w (Z.shiftl 1 (Z.of_nat (i mod 64)))]> bits).

Section Overlay.
Context {I : Type} {image : Image I}.

Record Base := mkBase {
  b_image : I;
  b_dead_slots : list Z;
  b_dead_documents : list Z;
  b_dead_document_count : Z;
  b_dead_chunks : Z;
  b_dead_words : Z;
  b_document_slots : option (list Z * list Z) }.

Definition base_new (i : I) : Base :=
  {| b_image := i; b_dead_slots := replicate (div_ceil (slot_total i) 64) 0%Z;
     b_dead_documents := replicate (div_ceil (document_total i) 64) 0%Z;
     b_dead_document_count := 0; b_dead_chunks := 0; b_dead_words := 0; b_document_slots := None |}.

Definition intact (b : Base) : bool := (b_dead_document_count b =? 0)%Z.

Definition live (b : Base) (id : list Z) : outcome (option nat) :=
  match image_ordinal (b_image b) id with
  | None => Ok None
  | Some o => let* d := bit (b_dead_documents b) o in Ok (if d : bool then None else Some o)
  end.

(** [usize] subtraction: a panic below zero. *)
Definition live_documents (b : Base) : outcome Z :=
  expect (checked_sub (Z.of_nat (document_total (b_image b))) (b_dead_document_count b)).

Fixpoint filter_bits (want : bool) (bits : list Z) (os : list nat) : outcome (list nat) :=
  match os with
  | [] => Ok []
  | o :: rest =>
      let* d := bit bits o in
      let* rest := filter_bits want bits rest in
      Ok (if eqb d want then o :: rest else rest)
  end.

Definition live_ordinals_from (b : Base) (from : option (list Z)) : outcome (list nat) :=
  let start := match from with Some id => image_lower_bound (b_image b) id | None => 0 end in
  filter_bits false (b_dead_documents b) (seq start (document_total (b_image b) - start)).

Definition slot_dead (b : Base) (slot : nat) : outcome bool := bit (b_dead_slots b) slot.

Definition dead_ordinals (b : Base) : outcome (list nat) := filter_bits true (b_dead_documents b) (seq 0 (document_total (b_image b))).

Definition live_chunks (b : Base) : outcome Z := expect (checked_sub (image_chunks (b_image b)) (b_dead_chunks b)).
Definition live_words (b : Base) : outcome Z := expect (checked_sub (image_words (b_image b)) (b_dead_words b)).

(** ** Slots by document *)

(** [for slot in ..: offsets[owner + 1] += 1]. *)
Fixpoint count_owners (i : I) (offsets : list Z) (slots : list nat) : outcome (list Z) :=
  match slots with
  | [] => Ok offsets
  | s :: rest =>
      let* offsets := match slot_owner i s with
                      | Some o => let* n := expect (offsets !! (o + 1)) in
                                  let* n := expect (checked_add U32 n 1) in Ok (<[o + 1 := n]> offsets)
                      | None => Ok offsets end in
      count_owners i offsets rest
  end.

(** [for i in 0..documents: offsets[i + 1] += offsets[i]]. *)
Fixpoint sum_offsets (offsets : list Z) (is_ : list nat) : outcome (list Z) :=
  match is_ with
  | [] => Ok offsets
  | i :: rest =>
      let* a := expect (offsets !! (i + 1)) in
      let* b := expect (offsets !! i) in
      let* n := expect (checked_add U32 a b) in
      sum_offsets (<[i + 1 := n]> offsets) rest
  end.

(** [for slot in ..: slots[next[owner]] = slot; next[owner] += 1]. *)
Fixpoint place_slots (i : I) (next slots : list Z) (todo : list nat) : outcome (list Z) :=
  match todo with
  | [] => Ok slots
  | s :: rest =>
      match slot_owner i s with
      | Some o =>
          let* at_ := expect (next !! o) in
          let* _ := expect (slots !! Z.to_nat at_) in
          let* n := expect (checked_add U32 at_ 1) in
          place_slots i (<[o := n]> next) (<[Z.to_nat at_ := wrap U32 (Z.of_nat s)]> slots) rest
      | None => place_slots i next slots rest
      end
  end.

Definition document_slots (i : I) : outcome (list Z * list Z) :=
  let documents := document_total i in
  let* offsets := count_owners i (replicate (documents + 1) 0%Z) (seq 0 (slot_total i)) in
  let* offsets := sum_offsets offsets (seq 0 documents) in
  let* total := expect (offsets !! documents) in
  let* slots := place_slots i offsets (replicate (Z.to_nat total) 0%Z) (seq 0 (slot_total i)) in
  Ok (offsets, slots).

(** The slot loop of [kill]: dead slots, chunks and words. *)
Fixpoint kill_slots (i : I) (dead : list Z) (chunks words : Z) (slots : list Z) : outcome (list Z * Z * Z) :=
  match slots with
  | [] => Ok (dead, chunks, words)
  | s :: rest =>
      let* dead := set_bit dead (Z.to_nat s) in
      let* chunks := expect (checked_add U64 chunks 1) in
      let* words := expect (checked_add U64 words (image_slot_words i (Z.to_nat s))) in
      kill_slots i dead chunks words rest
  end.

Definition kill (b : Base) (ordinal : nat) : outcome Base :=
  let i := b_image b in
  let* (offsets, slots) := match b_document_slots b with Some t => Ok t | None => document_slots i end in
  let* from := expect (offsets !! ordinal) in
  let* until := expect (offsets !! (ordinal + 1)) in
  let* own := slice slots (Z.to_nat from) (Z.to_nat until) in
  let* (dead, chunks, words) := kill_slots i (b_dead_slots b) (b_dead_chunks b) (b_dead_words b) own in
  let* documents := set_bit (b_dead_documents b) ordinal in
  let* count := expect (checked_add U64 (b_dead_document_count b) 1) in
  Ok {| b_image := i; b_dead_slots := dead; b_dead_documents := documents; b_dead_document_count := count;
        b_dead_chunks := chunks; b_dead_words := words; b_document_slots := Some (offsets, slots) |}.

(** ** The two sources as one *)

Section Overlaid.
Context {V D B : Type} {dict : TermIndex D}.
Context (image_postings : I -> bool -> list Z -> option (list Posting)).
Abbreviation Store := (DocumentStore V D B).

Definition overlaid_slot_count (b : Base) (s : Store) : Z := Z.of_nat (slot_total (b_image b)) + st_slot_count (ds_table s).

Definition overlaid_chunk_count (b : Base) (s : Store) : outcome Z :=
  let* n := live_chunks b in expect (checked_add U64 n (st_chunks (ds_table s))).

Definition overlaid_word_count (b : Base) (s : Store) : outcome Z :=
  let* n := live_words b in expect (checked_add U64 n (st_total_words (ds_table s))).



Definition overlaid_slot_words (b : Base) (s : Store) (slot : Z) : outcome Z :=
  match checked_sub slot (Z.of_nat (slot_total (b_image b))) with
  | None => Ok (image_slot_words (b_image b) (Z.to_nat slot))
  | Some slot => expect (st_words (ds_table s) !! Z.to_nat slot)
  end.
End Overlaid.
End Overlay.
Arguments Base : clear implicits.

(** ** Bits *)

Lemma land_bit w k : (0 <= k)%Z -> negb (Z.land w (Z.shiftl 1 k) =? 0)%Z = Z.testbit w k.
Proof.
  intros Hk. rewrite Z.shiftl_1_l. destruct (Z.testbit w k) eqn:E.
  - apply negb_true_iff, Z.eqb_neq. intros H0. assert (Hb : Z.testbit (Z.land w (2 ^ k)) k = true) by (rewrite Z.land_spec, E, Z.pow2_bits_true; done).
    by rewrite H0, Z.bits_0 in Hb.
  - apply negb_false_iff, Z.eqb_eq. apply Z.bits_inj'. intros n Hn. rewrite Z.land_spec, Z.bits_0, Z.pow2_bits_eqb by done.
    destruct (Z.eqb_spec k n) as [->|]; [by rewrite E|by rewrite andb_false_r].
Qed.

(** The bits of [0 .. n) are [p]. *)
Definition bits_ok (bits : list Z) (n : nat) (p : nat -> bool) : Prop :=
  length bits = div_ceil n 64 /\ forall i, i < n -> bit bits i = Ok (p i).

Lemma div_64 i n : i < n -> i / 64 < div_ceil n 64.
Proof. intros Hi. unfold div_ceil. apply Nat.Div0.div_lt_upper_bound. pose proof (Nat.div_mod_eq (n + 64 - 1) 64). pose proof (Nat.mod_upper_bound (n + 64 - 1) 64). lia. Qed.

Lemma bits_new n : bits_ok (replicate (div_ceil n 64) 0%Z) n (fun _ => false).
Proof.
  split; [apply length_replicate|]. intros i Hi. unfold bit. rewrite lookup_replicate_2 by (by apply div_64). cbn [expect obind].
  by rewrite land_bit, Z.bits_0 by lia.
Qed.

Lemma set_bit_ok bits n p i :
  bits_ok bits n p -> i < n -> exists bits', set_bit bits i = Ok bits' /\ bits_ok bits' n (fun j => (j =? i) || p j).
Proof.
  intros [Hlen Hb] Hi. unfold set_bit. destruct (lookup_lt_is_Some_2 bits (i / 64)) as [w Hw]; [rewrite Hlen; by apply div_64|].
  rewrite Hw. cbn [expect obind]. eexists. split; [done|]. split; [by rewrite length_insert|]. intros j Hj. specialize (Hb j Hj). unfold bit in *.
  destruct (decide (j / 64 = i / 64)) as [E|E].
  - rewrite E in *. rewrite Hw in Hb. rewrite list_lookup_insert_eq by (by eapply lookup_lt_Some). cbn [expect obind] in *. f_equal.
    rewrite !land_bit in * by lia. rewrite Z.lor_spec, Z.shiftl_1_l, Z.pow2_bits_eqb by lia. injection Hb as <-.
    pose proof (Nat.div_mod_eq i 64). pose proof (Nat.div_mod_eq j 64).
    destruct (Nat.eqb_spec j i) as [->|Hne]; [rewrite Z.eqb_refl; by rewrite orb_true_r|].
    destruct (Z.eqb_spec (Z.of_nat (i mod 64)) (Z.of_nat (j mod 64))) as [E'|_]; [lia|]. by rewrite orb_false_r.
  - rewrite list_lookup_insert_ne by done. destruct (Nat.eqb_spec j i) as [->|]; [done|]. done.
Qed.

Lemma filter_bits_ok want bits n p os :
  bits_ok bits n p -> Forall (fun o => o < n) os -> filter_bits want bits os = Ok (filter (fun o => p o = want) os).
Proof.
  intros [_ Hb]. induction 1 as [|o os Ho _ IH]; [done|]. cbn [filter_bits]. rewrite (Hb o Ho). cbn [obind]. rewrite IH. cbn [obind].
  rewrite filter_cons. destruct (eqb (p o) want) eqn:E; [apply eqb_prop in E; by rewrite decide_True|].
  apply eqb_false_iff in E. by rewrite decide_False.
Qed.

(** ** Sums *)

Lemma wsum_or p q g l : (forall s, p s = true -> q s = true -> False) -> wsum (fun s => p s || q s) g l = (wsum p g l + wsum q g l)%Z.
Proof.
  intros Hd. induction l as [|s l IH]; [done|]. simpl. rewrite IH. specialize (Hd s). destruct (p s), (q s); simpl; lia || (exfalso; by apply Hd).
Qed.

Lemma wsum_ext p q g l : (forall s, s ∈ l -> p s = q s) -> wsum p g l = wsum q g l.
Proof. intros H. induction l as [|s l IH]; [done|]. simpl. rewrite (H s) by left. rewrite IH; [done|]. intros s' Hs. apply H. by right. Qed.

Lemma wsum_app p g a b : wsum p g (a ++ b) = (wsum p g a + wsum p g b)%Z.
Proof. induction a as [|s a IH]; simpl; [done|]. rewrite IH. lia. Qed.

Lemma wsum_le p q g l : Forall (fun s => 0 <= g s)%Z l -> (forall s, p s = true -> q s = true) -> (0 <= wsum p g l <= wsum q g l)%Z.
Proof.
  intros Hg Hpq. induction Hg as [|s l Hs _ IH]; [done|]. simpl. specialize (Hpq s). destruct (p s), (q s); lia || by specialize (Hpq eq_refl).
Qed.

Lemma wsum_filter p g l : wsum (fun _ => true) g (filter (fun s => p s = true) l) = wsum p g l.
Proof.
  induction l as [|s l IH]; [done|]. rewrite filter_cons. destruct (p s) eqn:E; [rewrite decide_True by done|rewrite decide_False by congruence]; simpl; rewrite E, IH; done.
Qed.

Lemma wsum_one_length l : wsum (fun _ => true) (fun _ => 1%Z) l = Z.of_nat (length l).
Proof. induction l as [|s l IH]; [done|]. cbn [wsum foldr length]. unfold wsum in IH. rewrite IH. lia. Qed.

Lemma wsum_single n o : o < n -> wsum (fun j => j =? o) (fun _ => 1%Z) (seq 0 n) = 1%Z.
Proof.
  intros Ho. replace n with (o + S (n - o - 1)) by lia. rewrite seq_app, wsum_app. cbn [seq wsum foldr]. rewrite Nat.add_0_l, Nat.eqb_refl.
  rewrite (wsum_ext _ (fun _ => false)); [|intros s Hs; apply elem_of_seq in Hs; apply Nat.eqb_neq; lia].
  fold (wsum (fun j => j =? o) (fun _ => 1%Z) (seq (S o) (n - o - 1))).
  rewrite (wsum_ext _ (fun _ => false) _ (seq (S o) _)); [|intros s Hs; apply elem_of_seq in Hs; apply Nat.eqb_neq; lia].
  assert (H0 : forall l, wsum (fun _ => false) (fun _ => 1%Z) l = 0%Z) by (induction l; simpl; auto). by rewrite !H0.
Qed.

(** ** The counting sort *)

Section Sort.
Context {I : Type} {image : Image I} (i : I) (Hgood : image_good i).
Abbreviation docs := (document_total i).
Abbreviation all := (seq 0 (slot_total i)).

Definition owned_by (o s : nat) : bool := bool_decide (slot_owner i s = Some o).
Definition owned_below (j s : nat) : bool := match slot_owner i s with Some o => o <? j | None => false end.
Definition cnt (o : nat) (l : list nat) : Z := wsum (owned_by o) (fun _ => 1%Z) l.
Definition before (j : nat) : Z := wsum (owned_below j) (fun _ => 1%Z) all.
Definition own_slots (o : nat) : list nat := filter (fun s => owned_by o s = true) all.

(** An array by its entries. *)
Definition array (l : list Z) (n : nat) (f : nat -> Z) : Prop := length l = n /\ forall j, j < n -> l !! j = Some (f j).

Lemma array_insert l n f j x : array l n f -> j < n -> array (<[j := x]> l) n (fun k => if k =? j then x else f k).
Proof.
  intros [Hl Hf] Hj. split; [by rewrite length_insert|]. intros k Hk. destruct (Nat.eqb_spec k j) as [->|Hne].
  - apply list_lookup_insert_eq. lia.
  - rewrite list_lookup_insert_ne by done. by apply Hf.
Qed.

Lemma array_ext l n f g : (forall j, j < n -> f j = g j) -> array l n f -> array l n g.
Proof. intros H [Hl Hf]. split; [done|]. intros j Hj. by rewrite <- H, Hf. Qed.

Lemma cnt_cons o s l : cnt o (s :: l) = ((if owned_by o s then 1 else 0) + cnt o l)%Z.
Proof. done. Qed.

Lemma cnt_bound o l : (0 <= cnt o l <= Z.of_nat (length l))%Z.
Proof. rewrite <- wsum_one_length. apply wsum_le; [apply Forall_forall; lia|done]. Qed.

Lemma before_bound j : (0 <= before j <= Z.of_nat (slot_total i))%Z.
Proof.
  replace (Z.of_nat (slot_total i)) with (wsum (fun _ => true) (fun _ => 1%Z) all) by (by rewrite wsum_one_length, length_seq).
  apply wsum_le; [apply Forall_forall; lia|done].
Qed.

Lemma before_S j : before (S j) = (before j + cnt j all)%Z.
Proof.
  unfold before, cnt. rewrite <- wsum_or.
  - apply wsum_ext. intros s _. unfold owned_below, owned_by. destruct (slot_owner i s) as [o|]; [|done].
    destruct (decide (o = j)) as [->|Hne].
    + rewrite bool_decide_eq_true_2 by done. rewrite orb_true_r. apply Nat.ltb_lt. lia.
    + rewrite bool_decide_eq_false_2 by congruence. rewrite orb_false_r. destruct (Nat.ltb_spec o (S j)), (Nat.ltb_spec o j); lia || done.
  - intros s. unfold owned_below, owned_by. intros H1 H2%bool_decide_eq_true. rewrite H2 in H1. apply Nat.ltb_lt in H1. lia.
Qed.

Lemma before_0 : before 0 = 0%Z.
Proof. unfold before. rewrite (wsum_ext _ (fun _ => false)); [by induction all|]. intros s _. unfold owned_below. by destruct (slot_owner i s). Qed.

Lemma before_mono j k : j <= k -> (before j <= before k)%Z.
Proof. induction 1 as [|k _ IH]; [done|]. rewrite before_S. pose proof (cnt_bound k all). lia. Qed.

Lemma seq_owner s o : s ∈ all -> slot_owner i s = Some o -> o < docs.
Proof. intros Hs. apply (slot_owner_bound i s o Hgood). apply elem_of_seq in Hs. lia. Qed.

Lemma count_owners_ok l offs f :
  (forall s, s ∈ l -> s ∈ all) -> array offs (docs + 1) f -> (forall j, 0 <= f j /\ f j + Z.of_nat (length l) < U32)%Z ->
  exists offs', count_owners i offs l = Ok offs' /\ array offs' (docs + 1) (fun j => f j + match j with O => 0 | S o => cnt o l end)%Z.
Proof.
  revert offs f. induction l as [|s l IH]; intros offs f Hin Ha Hb.
  { exists offs. split; [done|]. eapply array_ext; [|exact Ha]. intros [|j] _; cbn; lia. }
  assert (Hrest : forall x, x ∈ l -> x ∈ all) by (intros x Hx; apply Hin; by right).
  cbn [count_owners]. destruct (slot_owner i s) as [o|] eqn:Ho.
  - pose proof (seq_owner s o (Hin s ltac:(left)) Ho) as Hlt. pose proof Ha as [_ Hf]. rewrite (Hf (o + 1)) by lia. cbn [expect obind].
    unfold checked_add. destruct (Hb (o + 1)) as [B1 B2]. cbn [length] in B2. rewrite (proj2 (Z.ltb_lt _ _)) by lia. cbn [expect obind].
    destruct (IH _ _ Hrest (array_insert _ _ _ (o + 1) (f (o + 1)%nat + 1)%Z Ha ltac:(lia))) as (offs' & -> & Ha').
    { intros j. specialize (Hb j). cbn [length] in Hb. destruct (Nat.eqb_spec j (o + 1)) as [->|]; lia. }
    exists offs'. split; [done|]. eapply array_ext; [|exact Ha']. intros [|j] _; [by destruct (Nat.eqb_spec 0 (o + 1)); [lia|]|].
    cbv beta. rewrite cnt_cons. unfold owned_by. rewrite Ho. destruct (Nat.eqb_spec (S j) (o + 1)) as [E|E].
    + assert (j = o) as -> by lia. rewrite bool_decide_eq_true_2 by done. rewrite Nat.add_1_r. lia.
    + rewrite bool_decide_eq_false_2 by (intros [= ->]; lia). lia.
  - cbn [obind]. destruct (IH offs f Hrest Ha) as (offs' & -> & Ha'); [intros j; specialize (Hb j); cbn [length] in Hb; lia|].
    exists offs'. split; [done|]. eapply array_ext; [|exact Ha']. intros [|j] _; [done|]. rewrite cnt_cons. unfold owned_by. rewrite Ho.
    rewrite bool_decide_eq_false_2 by done. lia.
Qed.

Lemma sum_offsets_ok n a offs :
  a + n = docs -> array offs (docs + 1) (fun j => if j <=? a then before j else cnt (j - 1) all) ->
  exists offs', sum_offsets offs (seq a n) = Ok offs' /\ array offs' (docs + 1) before.
Proof.
  revert a offs. induction n as [|n IH]; intros a offs Hn Ha.
  { exists offs. split; [done|]. eapply array_ext; [|exact Ha]. intros j Hj. cbv beta. by rewrite (proj2 (Nat.leb_le j a)) by lia. }
  cbn [seq sum_offsets]. pose proof Ha as [_ Hf]. rewrite (Hf (a + 1)) by lia. rewrite (Hf a) by lia. cbn [expect obind].
  rewrite (proj2 (Nat.leb_gt (a + 1) a)) by lia. rewrite Nat.leb_refl, Nat.add_sub. pose proof (before_S a) as HS. pose proof (before_bound (S a)).
  pose proof (slot_total_bound i Hgood). unfold checked_add. rewrite (proj2 (Z.ltb_lt _ _)) by lia. cbn [expect obind].
  apply IH; [lia|]. eapply array_ext; [|apply array_insert; [exact Ha|lia]]. intros j Hj. cbv beta. destruct (Nat.eqb_spec j (a + 1)) as [->|Hne].
  - rewrite (proj2 (Nat.leb_le (a + 1) (S a))) by lia. rewrite Nat.add_1_r. lia.
  - destruct (Nat.leb_spec j a), (Nat.leb_spec j (S a)); lia || done.
Qed.

(** The slots [done_] are placed. *)
Record placed (done_ : list nat) (next slots : list Z) : Prop := {
  pl_next : array next (docs + 1) (fun o => before o + cnt o done_)%Z;
  pl_length : length slots = Z.to_nat (before docs);
  pl_slots : forall o k s, o < docs -> filter (fun s => owned_by o s = true) done_ !! k = Some s ->
      slots !! (Z.to_nat (before o) + k) = Some (Z.of_nat s) }.

Lemma cnt_length o l : cnt o l = Z.of_nat (length (filter (fun s => owned_by o s = true) l)).
Proof. unfold cnt. by rewrite <- wsum_filter, wsum_one_length. Qed.

Lemma place_slots_ok rest done_ next slots :
  done_ ++ rest = all -> placed done_ next slots ->
  exists slots', place_slots i next slots rest = Ok slots' /\ exists next', placed all next' slots'.
Proof.
  revert done_ next slots. induction rest as [|s rest IH]; intros done_ next slots Hall Hp.
  { rewrite app_nil_r in Hall. subst. exists slots. eauto. }
  assert (Hs : s ∈ all) by (rewrite <- Hall; apply elem_of_app; right; left).
  assert (Hnext : (done_ ++ [s]) ++ rest = all) by (by rewrite <- app_assoc).
  pose proof Hp as [[Hln Hn] Hl Hsl]. cbn [place_slots]. destruct (slot_owner i s) as [o|] eqn:Ho.
  - pose proof (seq_owner s o Hs Ho) as Hlt. rewrite (Hn o) by lia. cbn [expect obind]. pose proof (before_bound o) as B0. pose proof (cnt_bound o done_) as C0.
    assert (Hown : owned_by o s = true) by (by apply bool_decide_eq_true).
    assert (Hroom : (before o + cnt o done_ < before (S o))%Z).
    { rewrite before_S. rewrite <- Hall. unfold cnt. rewrite wsum_app. cbn [wsum foldr]. rewrite Hown. pose proof (cnt_bound o rest). unfold cnt, wsum in *. lia. }
    pose proof (before_mono (S o) docs Hlt) as Hm. pose proof (before_bound docs) as Bd. pose proof (slot_total_bound i Hgood) as HU.
    destruct (lookup_lt_is_Some_2 slots (Z.to_nat (before o + cnt o done_))) as [x ->]; [lia|]. cbn [expect obind].
    unfold checked_add. rewrite (proj2 (Z.ltb_lt _ _)) by lia. cbn [expect obind].
    assert (Hsl32 : wrap U32 (Z.of_nat s) = Z.of_nat s) by (apply wrap_small; apply elem_of_seq in Hs; lia). rewrite Hsl32.
    apply (IH (done_ ++ [s])); [done|]. split; [|by rewrite length_insert|].
    + eapply array_ext; [|apply array_insert; [exact (pl_next _ _ _ Hp)|lia]]. intros j Hj. cbv beta. unfold cnt at 3. rewrite wsum_app. cbn [wsum foldr]. fold (cnt j done_).
      destruct (Nat.eqb_spec j o) as [->|Hne]; [rewrite Hown; lia|]. assert (owned_by j s = false) as -> by (apply bool_decide_eq_false; congruence). lia.
    + intros o' k s' Ho' Hk. rewrite filter_app in Hk. apply lookup_app_Some in Hk as [Hk|[Hge Hk]].
      * rewrite list_lookup_insert_ne; [by apply Hsl|]. pose proof (lookup_lt_Some _ _ _ Hk) as Hk'. pose proof (cnt_length o' done_) as Ec. pose proof (before_bound o').
        destruct (decide (o' = o)) as [->|Hne]; [lia|]. destruct (decide (o' < o)) as [Hlo|Hhi].
        -- pose proof (before_mono (S o') o ltac:(lia)) as H1. rewrite before_S, <- Hall in H1. unfold cnt in H1. rewrite wsum_app in H1. fold (cnt o' done_) in H1.
           fold (cnt o' (s :: rest)) in H1. pose proof (cnt_bound o' (s :: rest)). lia.
        -- pose proof (before_mono (S o) o' ltac:(lia)). lia.
      * rewrite filter_cons in Hk. destruct (decide (owned_by o' s = true)) as [Hb|Hb]; [|done]. apply list_lookup_singleton_Some in Hk as [Hk <-].
        apply bool_decide_eq_true in Hb. assert (o' = o) as -> by congruence. pose proof (cnt_length o done_) as Ec. 
        replace (Z.to_nat (before o) + k) with (Z.to_nat (before o + cnt o done_)) by lia. apply list_lookup_insert_eq. lia.
  - apply (IH (done_ ++ [s])); [done|]. split; [|done|].
    + eapply array_ext; [|exact (pl_next _ _ _ Hp)]. intros j Hj. cbv beta. unfold cnt at 2. rewrite wsum_app. cbn [wsum foldr]. fold (cnt j done_).
      assert (owned_by j s = false) as -> by (apply bool_decide_eq_false; congruence). lia.
    + intros o' k s' Ho' Hk. rewrite filter_app, filter_cons in Hk. destruct (decide (owned_by o' s = true)) as [Hb%bool_decide_eq_true|_]; [congruence|].
      rewrite app_nil_r in Hk. by apply Hsl.
Qed.

(** The table gives each document its slots. *)
Definition table_good (t : list Z * list Z) : Prop :=
  forall o, o < docs -> exists a b, t.1 !! o = Some a /\ t.1 !! (o + 1) = Some b /\
    slice t.2 (Z.to_nat a) (Z.to_nat b) = Ok (map Z.of_nat (own_slots o)).

Lemma document_slots_ok : exists t, document_slots i = Ok t /\ table_good t.
Proof.
  unfold document_slots. pose proof (slot_total_bound i Hgood) as HU.
  assert (H0 : array (replicate (docs + 1) 0%Z) (docs + 1) (fun _ => 0%Z)) by (split; [apply length_replicate|intros j Hj; by apply lookup_replicate_2]).
  destruct (count_owners_ok all (replicate (docs + 1) 0%Z) (fun _ => 0%Z)) as (offs & -> & Ha); [done|done|intros j; rewrite length_seq; lia|]. cbn [obind].
  destruct (sum_offsets_ok docs 0 offs) as (offs' & -> & Ha'); [done| |].
  { eapply array_ext; [|exact Ha]. intros [|j] Hj; cbn [Nat.leb]; [by rewrite before_0|]. cbn [Nat.sub]. rewrite Nat.sub_0_r. lia. }
  cbn [obind]. pose proof Ha' as [Hl Hf]. rewrite (Hf docs) by lia. cbn [expect obind].
  destruct (place_slots_ok all [] offs' (replicate (Z.to_nat (before docs)) 0%Z)) as (slots & -> & next & [_ Hlen Hsl]); [done| |].
  { split; [|apply length_replicate|done]. eapply array_ext; [|exact Ha']. intros j Hj. unfold cnt. cbn. lia. }
  cbn [obind]. eexists. split; [done|]. intros o Ho. exists (before o), (before (S o)). cbn [fst snd]. rewrite Nat.add_1_r in *.
  rewrite (Hf o), (Hf (S o)) by lia. split_and!; [done|done|]. pose proof (before_S o) as HS. rewrite cnt_length in HS. fold (own_slots o) in HS.
  pose proof (before_bound o). pose proof (before_mono (S o) docs Ho). rewrite slice_Ok by lia. f_equal. apply list_eq_same_length with (length (own_slots o)).
  - by rewrite length_map.
  - rewrite length_take, length_drop. lia.
  - intros k x y Hk Hx Hy. rewrite lookup_take_lt, lookup_drop in Hx by lia. rewrite list_lookup_fmap in Hy. apply fmap_Some in Hy as (s & Hy & ->).
    rewrite (Hsl o k s Ho Hy) in Hx. by injection Hx.
Qed.
End Sort.

(** ** Kills *)

Section Kills.
Context {I : Type} {image : Image I}.

(** One more dead document. *)
Definition also (o : nat) (dead : nat -> bool) (j : nat) : bool := (j =? o) || dead j.

(** The slots of dead documents. *)
Definition slot_in (i : I) (dead : nat -> bool) (s : nat) : bool := match slot_owner i s with Some o => dead o | None => false end.

Record base_ok (b : Base I) (dead : nat -> bool) : Prop := {
  bo_good : image_good (b_image b);
  bo_documents : bits_ok (b_dead_documents b) (document_total (b_image b)) dead;
  bo_slots : bits_ok (b_dead_slots b) (slot_total (b_image b)) (slot_in (b_image b) dead);
  bo_count : b_dead_document_count b = wsum dead (fun _ => 1%Z) (seq 0 (document_total (b_image b)));
  bo_chunks : b_dead_chunks b = wsum (slot_in (b_image b) dead) (fun _ => 1%Z) (seq 0 (slot_total (b_image b)));
  bo_words : b_dead_words b = wsum (slot_in (b_image b) dead) (image_slot_words (b_image b)) (seq 0 (slot_total (b_image b)));
  bo_table : forall t, b_document_slots b = Some t -> table_good (b_image b) t }.

Lemma bits_ext bits n p q : (forall j, j < n -> p j = q j) -> bits_ok bits n p -> bits_ok bits n q.
Proof. intros H [Hl Hb]. split; [done|]. intros j Hj. by rewrite <- H, Hb. Qed.

Lemma slot_in_ext i p q s : (forall o, p o = q o) -> slot_in i p s = slot_in i q s.
Proof. intros H. unfold slot_in. by destruct (slot_owner i s). Qed.

Lemma base_ok_ext b p q : (forall o, p o = q o) -> base_ok b p -> base_ok b q.
Proof.
  intros H [H1 H2 H3 H4 H5 H6 H7]. split; try done.
  - eapply bits_ext; [|exact H2]. by intros j _.
  - eapply bits_ext; [|exact H3]. intros j _. by apply slot_in_ext.
  - rewrite H4. by apply wsum_ext.
  - rewrite H5. apply wsum_ext. intros s _. by apply slot_in_ext.
  - rewrite H6. apply wsum_ext. intros s _. by apply slot_in_ext.
Qed.

(** What a subtraction leaves. *)
Lemma checked_rest p q r g l :
  (forall s, q s = p s || r s) -> (forall s, p s = true -> r s = true -> False) -> Forall (fun s => 0 <= g s)%Z l ->
  expect (checked_sub (wsum q g l) (wsum p g l)) = Ok (wsum r g l).
Proof.
  intros Hq Hd Hg. rewrite (wsum_ext q (fun s => p s || r s)) by auto. rewrite wsum_or by done. pose proof (wsum_le r r g l Hg ltac:(auto)).
  rewrite checked_sub_ok by lia. simpl. f_equal. lia.
Qed.

Lemma wsum_none g l : wsum (fun _ => false) g l = 0%Z.
Proof. by induction l. Qed.

Lemma base_new_ok i : image_good i -> base_ok (base_new i) (fun _ => false).
Proof.
  intros Hg. assert (Hs : forall s, slot_in i (fun _ => false) s = false) by (intros s; unfold slot_in; by destruct (slot_owner i s)).
  split; cbn [base_new b_image b_dead_documents b_dead_slots b_dead_document_count b_dead_chunks b_dead_words b_document_slots]; try done.
  - apply bits_new.
  - eapply bits_ext; [|apply bits_new]. intros j _. by rewrite Hs.
  - by rewrite wsum_none.
  - rewrite (wsum_ext _ (fun _ => false)); [by rewrite wsum_none|done].
  - rewrite (wsum_ext _ (fun _ => false)); [by rewrite wsum_none|done].
Qed.

Lemma kill_slots_ok i l dead chunks words p n :
  bits_ok dead n p -> Forall (fun s => s < n /\ (0 <= image_slot_words i s)%Z) l ->
  (chunks + Z.of_nat (length l) < U64)%Z -> (words + wsum (fun _ => true) (image_slot_words i) l < U64)%Z ->
  exists dead', kill_slots i dead chunks words (map Z.of_nat l) = Ok (dead', (chunks + Z.of_nat (length l))%Z, (words + wsum (fun _ => true) (image_slot_words i) l)%Z) /\
    bits_ok dead' n (fun s => bool_decide (s ∈ l) || p s).
Proof.
  intros Hb Hf. revert dead chunks words p Hb. induction Hf as [|s l [Hs Hw] Hf IH]; intros dead chunks words p Hb Hc Hws.
  { exists dead. split; [simpl; f_equal; f_equal; [f_equal|]; lia|]. eapply bits_ext; [|exact Hb]. intros j _. by rewrite bool_decide_eq_false_2 by set_solver. }
  cbn [map kill_slots length] in *. rewrite Nat2Z.id. destruct (set_bit_ok dead n p s Hb Hs) as (d1 & -> & Hb1). cbn [obind].
  change (wsum (fun _ => true) (image_slot_words i) (s :: l)) with (image_slot_words i s + wsum (fun _ => true) (image_slot_words i) l)%Z in *.
  assert (Hpos : (0 <= wsum (fun _ => true) (image_slot_words i) l)%Z).
  { apply (wsum_le (fun _ => true) (fun _ => true)); [|done]. eapply Forall_impl; [exact Hf|]. by intros x [_ Hx]. }
  rewrite !checked_add_ok by lia. cbn [expect obind]. destruct (IH d1 (chunks + 1)%Z (words + image_slot_words i s)%Z _ Hb1) as (d2 & -> & Hb2); [lia|lia|].
  exists d2. split; [do 2 f_equal; [f_equal|]; lia|]. eapply bits_ext; [|exact Hb2]. intros j _. cbv beta. rewrite orb_assoc. f_equal.
  pose proof (elem_of_cons l j s). destruct (Nat.eqb_spec j s); case_bool_decide; case_bool_decide; naive_solver.
Qed.

(** A kill of a live document. *)
Lemma kill_ok b dead o :
  base_ok b dead -> o < document_total (b_image b) -> dead o = false ->
  exists b', kill b o = Ok b' /\ b_image b' = b_image b /\ base_ok b' (also o dead).
Proof.
  intros [Hg Hd Hs Hc Hch Hw Ht] Ho Hlive. unfold kill. set (i := b_image b) in *.
  assert (Htab : exists t, match b_document_slots b with Some t => Ok t | None => document_slots i end = Ok t /\ table_good i t).
  { destruct (b_document_slots b) as [t|]; [exists t; split; [done|by apply Ht]|by apply document_slots_ok]. }
  destruct Htab as ([offs slots] & -> & Htab). cbn [obind]. destruct (Htab o Ho) as (a & e & Ha & He & Hsl). cbn [fst snd] in *.
  rewrite Ha, He. cbn [expect obind]. rewrite Hsl. cbn [obind]. set (all := seq 0 (slot_total i)) in *.
  assert (Hown : forall s, s ∈ own_slots i o <-> slot_owner i s = Some o /\ s ∈ all).
  { intros s. unfold own_slots. rewrite list_elem_of_filter. unfold owned_by. by rewrite bool_decide_eq_true. }
  assert (Hsplit : forall g, wsum (slot_in i (also o dead)) g all = (wsum (slot_in i dead) g all + wsum (fun _ => true) g (own_slots i o))%Z).
  { intros g. unfold own_slots. rewrite wsum_filter, <- wsum_or.
    - apply wsum_ext. intros s _. unfold slot_in, owned_by, also. destruct (slot_owner i s) as [o'|]; [|done]. rewrite orb_comm. f_equal.
      destruct (Nat.eqb_spec o' o) as [->|]; [by rewrite bool_decide_eq_true_2|by rewrite bool_decide_eq_false_2 by congruence].
    - intros s H1 H2%bool_decide_eq_true. unfold slot_in in H1. rewrite H2 in H1. congruence. }
  assert (Hnn : Forall (fun s => 0 <= image_slot_words i s)%Z all) by (apply Forall_forall; intros s Hs'; apply elem_of_seq in Hs'; apply slot_words_bound; [done|lia]).
  assert (Hle : forall g, Forall (fun s => 0 <= g s)%Z all -> (wsum (slot_in i (also o dead)) g all <=
      wsum (fun s => bool_decide (is_Some (slot_owner i s))) g all)%Z).
  { intros g Hg'. apply wsum_le; [done|]. intros s. unfold slot_in. destruct (slot_owner i s); [|done]. intros _. by apply bool_decide_eq_true. }
  pose proof (Hle (fun _ => 1%Z) ltac:(apply Forall_forall; lia)) as L1. pose proof (Hle _ Hnn) as L2.
  pose proof (image_chunks_ok i Hg) as Eic. pose proof (image_words_ok i Hg) as Eiw. fold all in Eic, Eiw. rewrite <- Eic in L1. rewrite <- Eiw in L2. pose proof (image_words_bound i Hg). pose proof (slot_total_bound i Hg).
  assert (Hcb : (image_chunks i <= Z.of_nat (slot_total i))%Z).
  { rewrite Eic. replace (Z.of_nat (slot_total i)) with (wsum (fun _ => true) (fun _ => 1%Z) all) by (unfold all; by rewrite wsum_one_length, length_seq). apply wsum_le; [apply Forall_forall; lia|done]. }
  rewrite Hsplit in L1, L2. rewrite wsum_one_length in L1. pose proof U32_U64.
  destruct (kill_slots_ok i (own_slots i o) (b_dead_slots b) (b_dead_chunks b) (b_dead_words b) _ _ Hs) as (dead' & -> & Hs').
  { apply Forall_forall. intros s [_ Hin]%Hown. split; [apply elem_of_seq in Hin; lia|]. rewrite Forall_forall in Hnn. by apply Hnn. }
  { lia. }
  { lia. }
  cbn [obind]. destruct (set_bit_ok _ _ _ o Hd Ho) as (docs' & -> & Hd'). cbn [obind].
  pose proof (document_total_bound i Hg). assert (Hcnt : (wsum (also o dead) (fun _ => 1%Z) (seq 0 (document_total i)) = b_dead_document_count b + 1)%Z).
  { unfold also. rewrite wsum_or; [rewrite wsum_single by done; lia|]. intros j ->%Nat.eqb_eq. congruence. }
  assert (Hcd : (wsum (also o dead) (fun _ => 1%Z) (seq 0 (document_total i)) <= Z.of_nat (document_total i))%Z).
  { replace (Z.of_nat (document_total i)) with (wsum (fun _ => true) (fun _ => 1%Z) (seq 0 (document_total i))) by (by rewrite wsum_one_length, length_seq). apply wsum_le; [apply Forall_forall; lia|done]. }
  rewrite checked_add_ok by lia. cbn [expect obind]. eexists. split_and!; [done|done|].
  split; cbn [b_image b_dead_slots b_dead_documents b_dead_document_count b_dead_chunks b_dead_words b_document_slots]; try done.
  - eapply bits_ext; [|exact Hs']. intros s Hslt. cbv beta. unfold slot_in, also. pose proof (Hown s) as Hos.
    assert (Hin : s ∈ all) by (apply elem_of_seq; lia).
    destruct (slot_owner i s) as [o'|]; [|rewrite bool_decide_eq_false_2; [done|naive_solver]]. f_equal.
    destruct (Nat.eqb_spec o' o) as [->|]; [apply bool_decide_eq_true_2; by apply Hos|apply bool_decide_eq_false_2; naive_solver].
  - rewrite Hsplit, wsum_one_length. lia.
  - rewrite Hsplit. lia.
  - by intros t [= <-].
Qed.

Lemma live_ok b dead id :
  base_ok b dead -> live b id = Ok (o ← image_ordinal (b_image b) id; if dead o then None else Some o).
Proof.
  intros H. unfold live. destruct (image_ordinal (b_image b) id) as [o|] eqn:E; [|done]. destruct (bo_documents _ _ H) as [_ Hb].
  rewrite (Hb o) by (eapply image_ordinal_bound; [apply H|exact E]). done.
Qed.

Fixpoint kills (b : Base I) (os : list nat) : outcome (Base I) :=
  match os with [] => Ok b | o :: rest => let* b := kill b o in kills b rest end.

Lemma kills_ok os b dead :
  base_ok b dead -> NoDup os -> Forall (fun o => o < document_total (b_image b) /\ dead o = false) os ->
  exists b', kills b os = Ok b' /\ b_image b' = b_image b /\ base_ok b' (fun o => bool_decide (o ∈ os) || dead o).
Proof.
  revert b dead. induction os as [|o os IH]; intros b dead Hb Hnd Hf.
  { exists b. split_and!; [done|done|]. eapply base_ok_ext; [|exact Hb]. intros o. by rewrite bool_decide_eq_false_2 by set_solver. }
  apply NoDup_cons in Hnd as [Hn Hnd]. apply Forall_cons in Hf as [[Ho Hd] Hf]. cbn [kills].
  destruct (kill_ok b dead o Hb Ho Hd) as (b1 & -> & E1 & Hb1). cbn [obind]. destruct (IH b1 _ Hb1 Hnd) as (b' & -> & E2 & Hb').
  { rewrite E1. apply Forall_forall. intros o' Ho'. rewrite Forall_forall in Hf. destruct (Hf o' Ho') as [L1 L2]. split; [done|]. unfold also.
    rewrite L2, orb_false_r. apply Nat.eqb_neq. by intros ->. }
  exists b'. split_and!; [done|congruence|].
  eapply base_ok_ext; [|exact Hb']. intros j. unfold also. rewrite orb_assoc. f_equal. pose proof (elem_of_cons os j o).
  destruct (Nat.eqb_spec j o); case_bool_decide; case_bool_decide; naive_solver.
Qed.

#[global, refine] Instance base_checkpoint : Checkpoint (Base I) := {|
  base_live b id := match live b id with Ok o => o | _ => None end;
  base_kill := kill;
  base_good b := exists dead, base_ok b dead |}.
Proof.
  intros b id o [dead Hb] Hl. rewrite (live_ok b dead id Hb) in Hl. destruct (image_ordinal (b_image b) id) as [o'|] eqn:E; [|done]. simpl in Hl.
  destruct (dead o') eqn:Ed; [done|]. injection Hl as ->.
  destruct (kill_ok b dead o Hb) as (b' & Hk & Ei & Hb'); [eapply image_ordinal_bound; [apply Hb|exact E]|done|].
  exists b'. split_and!; [done|by eexists| |].
  - rewrite (live_ok b' _ id Hb'), Ei, E. simpl. unfold also. by rewrite Nat.eqb_refl.
  - intros id' Hne. rewrite (live_ok b' _ id' Hb'), (live_ok b dead id' Hb), Ei. destruct (image_ordinal (b_image b) id') as [o2|] eqn:E2; [|done]. simpl.
    unfold also. destruct (Nat.eqb_spec o2 o) as [->|]; [|done]. exfalso. apply Hne. symmetry. eapply image_ordinal_inj; [apply Hb|exact E|exact E2].
Defined.

(** The overlay counts what is live.  Whatever distinct documents of a checkpoint are killed,
    in whatever order, nothing panics; a document is live exactly if it was not killed, a slot is
    dead exactly if its document was, and the live document, chunk and word counts are the
    counts over the documents and slots that are left. *)
Theorem checkpoint_kills i os :
  image_good i -> NoDup os -> Forall (fun o => o < document_total i) os ->
  exists b, kills (base_new i) os = Ok b /\
    (forall id, live b id = Ok (o ← image_ordinal i id; if decide (o ∈ os) then None else Some o)) /\
    (forall s, s < slot_total i -> slot_dead b s = Ok (slot_in i (fun o => bool_decide (o ∈ os)) s)) /\
    dead_ordinals b = Ok (filter (fun o => bool_decide (o ∈ os) = true) (seq 0 (document_total i))) /\
    live_documents b = Ok (wsum (fun o => negb (bool_decide (o ∈ os))) (fun _ => 1%Z) (seq 0 (document_total i))) /\
    live_chunks b = Ok (wsum (slot_in i (fun o => negb (bool_decide (o ∈ os)))) (fun _ => 1%Z) (seq 0 (slot_total i))) /\
    live_words b = Ok (wsum (slot_in i (fun o => negb (bool_decide (o ∈ os)))) (image_slot_words i) (seq 0 (slot_total i))).
Proof.
  intros Hg Hnd Hf. destruct (kills_ok os (base_new i) _ (base_new_ok i Hg) Hnd) as (b & Hrun & Ei & Hb).
  { eapply Forall_impl; [exact Hf|]. by intros o Ho. }
  cbn [base_new b_image] in Ei. exists b. split; [done|]. pose proof Hb as [_ H2 H3 H4 H5 H6 _]. rewrite Ei in *.
  assert (He : forall o, bool_decide (o ∈ os) || false = bool_decide (o ∈ os)) by (intros o; apply orb_false_r).
  assert (Hs : forall s, slot_in i (fun o => bool_decide (o ∈ os) || false) s = slot_in i (fun o => bool_decide (o ∈ os)) s).
  { intros s. by apply slot_in_ext. }
  assert (Hrest : (forall s, bool_decide (is_Some (slot_owner i s)) = slot_in i (fun o => bool_decide (o ∈ os)) s || slot_in i (fun o => negb (bool_decide (o ∈ os))) s) /\
    forall s, slot_in i (fun o => bool_decide (o ∈ os)) s = true -> slot_in i (fun o => negb (bool_decide (o ∈ os))) s = true -> False).
  { split; intros s; unfold slot_in; destruct (slot_owner i s) as [o|]; try done; by destruct (bool_decide (o ∈ os)). }
  split_and!.
  - intros id. rewrite (live_ok b _ id Hb), Ei. destruct (image_ordinal i id) as [o|]; [|done]. simpl. rewrite He. by case_bool_decide; case_decide.
  - intros s Hlt. unfold slot_dead. destruct H3 as [_ H3]. by rewrite (H3 s Hlt), Hs.
  - unfold dead_ordinals. rewrite Ei, (filter_bits_ok true _ _ _ _ H2); [|apply Forall_forall; intros o Ho; apply elem_of_seq in Ho; lia].
    f_equal. apply list_filter_iff. intros o. by rewrite He.
  - unfold live_documents. rewrite H4, Ei, (wsum_ext _ _ _ _ (fun o _ => He o)).
    replace (Z.of_nat (document_total i)) with (wsum (fun _ => true) (fun _ => 1%Z) (seq 0 (document_total i))) by (by rewrite wsum_one_length, length_seq).
    apply checked_rest; [intros o; by destruct (bool_decide _)|intros o; by destruct (bool_decide _)|apply Forall_forall; lia].
  - unfold live_chunks. rewrite H5, Ei, (wsum_ext _ _ _ _ (fun s _ => Hs s)), image_chunks_ok by done.
    apply checked_rest; [apply Hrest|apply Hrest|apply Forall_forall; lia].
  - unfold live_words. rewrite H6, Ei, (wsum_ext _ _ _ _ (fun s _ => Hs s)), image_words_ok by done.
    apply checked_rest; [apply Hrest|apply Hrest|]. apply Forall_forall. intros s Hin. apply elem_of_seq in Hin. apply slot_words_bound; [done|lia].
Qed.
End Kills.

(** ** Postings of both *)



Section Both.
Context {I : Type} {image : Image I} {V D B : Type} {dict : TermIndex D}.
Context (image_postings : I -> bool -> list Z -> option (list Posting)).

End Both.

(** ** A checkpoint in memory *)

Record flat_image := mkFlat { fi_ids : list (list Z); fi_slots : list (option nat * Z) }.

Definition flat_owner (i : flat_image) (s : nat) : option nat := e ← fi_slots i !! s; e.1.
Definition flat_words (i : flat_image) (s : nat) : Z := default 0%Z (snd <$> fi_slots i !! s).
Definition flat_sum (i : flat_image) (g : nat -> Z) : Z :=
  wsum (fun s => bool_decide (is_Some (flat_owner i s))) g (seq 0 (length (fi_slots i))).

Definition flat_good (i : flat_image) : Prop :=
  Forall (fun e : option nat * Z => match e.1 with Some o => o < length (fi_ids i) | None => True end /\ (0 <= e.2)%Z) (fi_slots i) /\
  (Z.of_nat (length (fi_slots i)) < U32)%Z /\ (flat_sum i (flat_words i) < U64)%Z /\ (Z.of_nat (length (fi_ids i)) < U64)%Z.

#[global, refine] Instance flat_image_image : Image flat_image := {|
  document_total i := length (fi_ids i);
  slot_total i := length (fi_slots i);
  image_lower_bound i id := length (filter (fun x => bcmp x id = Lt) (fi_ids i));
  image_ordinal i id := fst <$> list_find (fun x => x = id) (fi_ids i);
  slot_owner := flat_owner;
  image_slot_words := flat_words;
  image_chunks i := flat_sum i (fun _ => 1%Z);
  image_words i := flat_sum i (flat_words i);
  image_good := flat_good |}.
Proof.
  - intros i id o _ H. apply fmap_Some in H as ([o' x] & H & ->). apply list_find_Some in H as (H & _). by apply lookup_lt_Some in H.
  - intros i id id' o _ H H'. apply fmap_Some in H as ([o1 x1] & H & ->). apply fmap_Some in H' as ([o2 x2] & H' & E). simpl in E. subst.
    apply list_find_Some in H as (H & -> & _). apply list_find_Some in H' as (H' & -> & _). congruence.
  - intros i s o [Hf _] _ H. unfold flat_owner in H. apply bind_Some in H as (e & He & H). rewrite Forall_lookup in Hf. destruct (Hf _ _ He) as [Ho _]. by rewrite H in Ho.
  - intros i (_ & H & _). exact H.
  - intros i s [Hf _] Hs. unfold flat_words. destruct (fi_slots i !! s) as [e|] eqn:E; [|done]. rewrite Forall_lookup in Hf. by apply (Hf _ _ E).
  - done.
  - done.
  - intros i (_ & _ & H & _). exact H.
  - intros i (_ & _ & _ & H). exact H.
Defined.

Definition toy_image : flat_image := {| fi_ids := [[1]; [2]; [3]]%Z; fi_slots := [(Some 1, 5%Z); (None, 0%Z); (Some 0, 7%Z); (Some 1, 2%Z); (Some 2, 4%Z)] |}.

Lemma toy_image_good : image_good toy_image.
Proof. split; [|by_decide]. repeat constructor; simpl; lia. Qed.

Lemma checkpoint_kills_witness :
  image_good toy_image /\ exists b, kills (base_new toy_image) [1; 2] = Ok b /\ live_chunks b = Ok 1%Z /\ live_words b = Ok 7%Z /\ live b [2]%Z = Ok None.
Proof.
  split; [exact toy_image_good|]. destruct (checkpoint_kills toy_image [1; 2] toy_image_good) as (b & Hrun & Hl & _ & _ & _ & Hc & Hw); [by_decide|by_decide|].
  exists b. split; [exact Hrun|]. split; [rewrite Hc; vm_compute; reflexivity|]. split; [rewrite Hw; vm_compute; reflexivity|].
  rewrite Hl. vm_compute. reflexivity.
Defined.
