(* ===== verification/Capacity.v ===== *)
(** * Room in the store

    The sums a store's capacity is stated in, over slots, documents and batches, and why they
    bound the index: chunks, words, keys and key bytes within 32 or 64 bits. *)

From S2P Require Import Prelude Words BitPack Search Positions Terms Binary Share TermDict Postings Cursor PostingEdit PostingRuns Lists Indexing Bulk IndexRuns SlotTable.

Definition key_count (c : StoredChunk) : Z := Z.of_nat (length (chunk_keys c)).
Definition key_text (c : StoredChunk) : Z := Z.of_nat (length (concat (chunk_keys c))).

(** A sum of a chunk weight over something, as a function of the weight. *)
Abbreviation sums := ((StoredChunk -> Z) -> Z).

Record within (T : sums) : Prop := {
  wi_chunks : (T one + 1 < U32)%Z;
  wi_words : (T c_word_count < U64)%Z;
  wi_keys : (T key_count < NONE)%Z;
  wi_text : (T key_text < U32)%Z }.

(** A weight no chunk that fits makes negative. *)
Definition positive (g : StoredChunk -> Z) : Prop := forall c, chunk_fits c -> (0 <= g c)%Z.

Lemma positive_one : positive one. Proof. intros c _. done. Qed.
Lemma positive_words : positive c_word_count. Proof. intros c [_ Hw]. lia. Qed.
Lemma positive_keys : positive key_count. Proof. intros c _. unfold key_count. lia. Qed.
Lemma positive_text : positive key_text. Proof. intros c _. unfold key_text. lia. Qed.
#[export] Hint Resolve positive_one positive_words positive_keys positive_text : warm.

Lemma within_le (T T' : sums) : (forall g, positive g -> T g <= T' g)%Z -> within T' -> within T.
Proof.
  intros Hle [H1 H2 H3 H4]. pose proof (Hle _ positive_one). pose proof (Hle _ positive_words).
  pose proof (Hle _ positive_keys). pose proof (Hle _ positive_text). split; lia.
Qed.

(** Sums over chunks, documents and maps of documents. *)
Definition chunk_sum (g : StoredChunk -> Z) (cs : list StoredChunk) : Z := foldr (fun c n => g c + n)%Z 0%Z cs.

Lemma chunk_sum_app g a b : chunk_sum g (a ++ b) = (chunk_sum g a + chunk_sum g b)%Z.
Proof. induction a as [|c a IH]; simpl; [done|]. rewrite IH. lia. Qed.

Lemma chunk_sum_nonneg g cs : positive g -> Forall chunk_fits cs -> (0 <= chunk_sum g cs)%Z.
Proof. intros Hg. induction 1 as [|c cs Hc _ IH]; simpl; [done|]. specialize (Hg c Hc). lia. Qed.

Lemma chunk_sum_same g cs cs' :
  (forall c c', same_content c c' -> g c' = g c) -> Forall2 same_content cs cs' -> chunk_sum g cs' = chunk_sum g cs.
Proof. intros Hg. induction 1 as [|c c' cs cs' Hc _ IH]; simpl; [done|]. by rewrite (Hg c c' Hc), IH. Qed.

Section Sums.
Context {V : Type} `{!EqDecision (StoredDocument V)}.
Abbreviation Doc := (StoredDocument V).
Abbreviation owner := (Doc * nat)%type.

Definition doc_sum (g : StoredChunk -> Z) (d : Doc) : Z := chunk_sum g (doc_chunks d).
Definition list_sum (g : StoredChunk -> Z) (ds : list Doc) : Z := foldr (fun d n => doc_sum g d + n)%Z 0%Z ds.
Definition docs_total (g : StoredChunk -> Z) (M : gmap (list Z) Doc) : Z := list_sum g (map snd (map_to_list M)).

Definition doc_fits (d : Doc) : Prop := Forall chunk_fits (doc_chunks d).

Lemma list_sum_app g a b : list_sum g (a ++ b) = (list_sum g a + list_sum g b)%Z.
Proof. induction a as [|d a IH]; simpl; [done|]. rewrite IH. lia. Qed.

Lemma list_sum_perm g a b : a ≡ₚ b -> list_sum g a = list_sum g b.
Proof. induction 1; simpl; lia. Qed.

Lemma list_sum_concat g ds : list_sum g ds = chunk_sum g (concat (map doc_chunks ds)).
Proof. induction ds as [|d ds IH]; [done|]. cbn [map concat list_sum foldr]. rewrite chunk_sum_app. unfold list_sum in IH. by rewrite IH. Qed.

Lemma list_sum_nonneg g ds : positive g -> Forall doc_fits ds -> (0 <= list_sum g ds)%Z.
Proof. intros Hg. induction 1 as [|d ds Hd _ IH]; simpl; [done|]. pose proof (chunk_sum_nonneg g _ Hg Hd). unfold doc_sum. lia. Qed.

Lemma docs_total_insert g M id d : M !! id = None -> docs_total g (<[id := d]> M) = (docs_total g M + doc_sum g d)%Z.
Proof.
  intros Hn. unfold docs_total. rewrite (list_sum_perm g _ (map snd ((id, d) :: map_to_list M))); [simpl; lia|].
  apply (fmap_Permutation snd). by apply map_to_list_insert.
Qed.

Lemma docs_total_delete g M id d : M !! id = Some d -> docs_total g (delete id M) = (docs_total g M - doc_sum g d)%Z.
Proof.
  intros Hd. rewrite <- (insert_delete_id M id d Hd) at 2. rewrite docs_total_insert by apply lookup_delete_eq. lia.
Qed.

Lemma docs_total_replace g M id d d' :
  M !! id = Some d -> docs_total g (<[id := d']> M) = (docs_total g M - doc_sum g d + doc_sum g d')%Z.
Proof.
  intros Hd. rewrite <- insert_delete_eq, docs_total_insert by apply lookup_delete_eq. by rewrite (docs_total_delete g M id d).
Qed.

(** ** The slots *)

Definition owner_keys (o : option owner) : list (list Z) :=
  match o ≫= owner_chunk with Some c => chunk_keys c | None => [] end.

Lemma total_keys (os : list (option owner)) : total key_count os = Z.of_nat (length (concat (map owner_keys os))).
Proof.
  induction os as [|o os IH]; [done|]. cbn [map concat total foldr]. fold (total key_count os). rewrite IH, length_app.
  unfold weight, owner_keys at 2. destruct (o ≫= owner_chunk) as [c|]; unfold key_count; simpl; lia.
Qed.

Lemma total_text (os : list (option owner)) : total key_text os = Z.of_nat (length (concat (concat (map owner_keys os)))).
Proof.
  induction os as [|o os IH]; [done|]. cbn [map concat total foldr]. fold (total key_text os). rewrite IH, concat_app, length_app.
  unfold weight, owner_keys at 2. destruct (o ≫= owner_chunk) as [c|]; unfold key_text; simpl; lia.
Qed.

Lemma owned_step (os : list (option owner)) o : owned (os ++ [o]) = match o ≫= owner_chunk with
  Some c => <[Z.of_nat (length os) := (c, entries_of c)]> (owned os) | None => owned os end.
Proof.
  apply map_eq. intros k. rewrite lookup_owned. unfold slot_chunk at 1.
  assert (Hother : (0 <= k)%Z -> k <> Z.of_nat (length os) -> (os ++ [o]) !! Z.to_nat k = os !! Z.to_nat k).
  { intros Hk Hne. destruct (decide (Z.to_nat k < length os)); [by rewrite lookup_app_l|].
    rewrite !lookup_ge_None_2; [done|lia|rewrite length_app; simpl; lia]. }
  destruct (decide (k = Z.of_nat (length os))) as [->|Hne].
  - rewrite decide_True by lia. rewrite Nat2Z.id, list_lookup_middle by done. simpl.
    assert (Hnone : owned os !! Z.of_nat (length os) = None).
    { rewrite lookup_owned. unfold slot_chunk. rewrite decide_True by lia. by rewrite Nat2Z.id, lookup_ge_None_2. }
    destruct o as [o|]; simpl; [|by rewrite Hnone]. destruct (owner_chunk o) as [c|]; simpl; [by rewrite lookup_insert_eq|by rewrite Hnone].
  - assert (Ho : owned (os ++ [o]) !! k = owned os !! k).
    { rewrite !lookup_owned. unfold slot_chunk. case_decide; [|done]. by rewrite Hother. }
    rewrite lookup_owned in Ho. unfold slot_chunk at 1 in Ho. rewrite Ho.
    destruct (o ≫= owner_chunk); [by rewrite lookup_insert_ne|done].
Qed.

Lemma owned_size (os : list (option owner)) : (Z.of_nat (size (owned os)) <= total one os)%Z.
Proof.
  induction os as [|o os IH] using rev_ind; [done|]. rewrite owned_step, total_app. simpl. unfold weight.
  destruct (o ≫= owner_chunk) as [c|]; [|lia]. rewrite map_size_insert.
  change (one c) with 1%Z. destruct (owned os !! _); simpl; lia.
Qed.

Lemma owned_keys (os : list (option owner)) k c e t : owned os !! k = Some (c, e) -> t ∈ map fst e -> t ∈ concat (map owner_keys os).
Proof.
  rewrite lookup_owned. intros (c' & Hc & [= -> ->])%fmap_Some Ht. apply slot_chunk_Some in Hc as (_ & o & Ho & Hc).
  apply list_elem_of_In, in_concat. exists (owner_keys (Some o)). split.
  - apply in_map. by eapply list_elem_of_In, list_elem_of_lookup_2.
  - unfold owner_keys. simpl. rewrite Hc. by apply list_elem_of_In.
Qed.

Lemma index_terms (os : list (option owner)) f t :
  Forall (fun o => forall x, o = Some x -> exists c, owner_chunk x = Some c /\ chunk_fits c) os ->
  t ∈ dom (index_of (views (owned os)) f) -> t ∈ concat (map owner_keys os).
Proof.
  intros Hf Ht. assert (Hk : exists k v, look (views (owned os)) f t k = Some v).
  { apply elem_of_dom in Ht as [sm Hsm]. pose proof (index_of_no_empty (views (owned os)) f t sm Hsm) as Hne.
    destruct (map_choose sm Hne) as (k & v & Hv). exists k, v. rewrite <- index_of_lookup. unfold at_term. by rewrite Hsm. }
  destruct Hk as (k & v & Hk). unfold look, views in Hk. rewrite lookup_fmap in Hk.
  destruct (owned os !! k) as [[c e]|] eqn:E; [|done]. simpl in Hk. destruct (eqb (c_stemmed c) f); [|done].
  eapply owned_keys; [exact E|]. rewrite lookup_owned in E. apply fmap_Some in E as (c' & Hc & [= <- ->]).
  apply slot_chunk_Some in Hc as (_ & o & Ho & Hc). rewrite Forall_lookup in Hf. destruct (Hf _ _ Ho o eq_refl) as (c1 & Hc1 & Hfit & _).
  simplify_eq. apply (column_Some _ _ t v Hfit) in Hk as (i & Hi & _). apply list_elem_of_fmap. eexists. split; [|by eapply list_elem_of_lookup_2]. done.
Qed.
(** Slots within the bounds make a small index. *)
Lemma owned_small (os : list (option owner)) :
  Forall (fun o => forall x, o = Some x -> exists c, owner_chunk x = Some c /\ chunk_fits c) os ->
  within (fun g => total g os) -> all_small (owned os).
Proof.
  intros Hf [H1 H2 H3 H4].
  assert (Hsm : forall f, index_small (views (owned os)) f).
  { intros f. set (M := index_of (views (owned os)) f).
    assert (Hsub : map fst (map_to_list M) ⊆+ concat (map owner_keys os)).
    { apply NoDup_submseteq; [apply NoDup_fst_map_to_list|]. intros t Ht. eapply index_terms; [done|].
      apply list_elem_of_fmap in Ht as ([t' sm] & -> & Hin). apply elem_of_map_to_list in Hin. by apply elem_of_dom_2 in Hin. }
    pose proof (submseteq_length _ _ Hsub) as Hl. pose proof (submseteq_concat_length _ _ Hsub) as Ht. rewrite length_map, length_map_to_list in Hl.
    rewrite total_keys in H3. rewrite total_text in H4. split; [|fold M; lia].
    fold M. unfold index_text, text_size, text_len. rewrite map_to_list_fmap.
    assert (Hfst : forall l : list (list Z * gmap Z (Z * Z)), map fst (prod_map id (fun _ => 0%Z) <$> l) = map fst l); [|rewrite Hfst; lia].
    intros l. induction l as [|[k v] l IH]; [done|]. rewrite fmap_cons. cbn [map]. by rewrite IH. }
  pose proof (owned_size os). split_and!; [apply Hsm|apply Hsm|lia].
Qed.
End Sums.
