(* ===== verification/StoreSpec.v ===== *)
(** * Correctness of the store's installs, replacements and removals

    Every owned slot belongs to one chunk of one stored document and every chunk has its slot;
    the counters are the sums over the documents, the filter indexes and the posting lists are
    those of the documents.  Installing, replacing in place and removing keep this. *)

From S2P Require Import Prelude Words BitPack Search Positions Terms TextSegment Binary Share TermDict Postings Cursor PostingEdit PostingRuns Lists Indexing Bulk IndexRuns Filters SlotTable Store Capacity.

(** ** Ascending slots *)

Definition ascends (k : Z) (l : list Z) (k' : Z) : Prop := StronglySorted Z.lt (k :: l) /\ Forall (fun s => s <= k')%Z (k :: l).

Lemma ascends_nil k : ascends k [] k.
Proof. split; [apply SSorted_cons; [apply SSorted_nil|constructor]|by repeat constructor]. Qed.

Lemma ascends_one k s : (k < s)%Z -> ascends k [s] s.
Proof.
  intros Hk. split; [|repeat constructor; lia]. apply SSorted_cons; [apply SSorted_cons; [apply SSorted_nil|constructor]|by repeat constructor].
Qed.

Lemma ascends_app k a k' b k'' : ascends k a k' -> ascends k' b k'' -> ascends k (a ++ b) k''.
Proof.
  intros [Hs Hf] [Hs' Hf']. inversion Hs as [|?? Hs1 Hk]; subst. inversion Hs' as [|?? Hs2 Hk']; subst.
  apply Forall_cons in Hf as [Hkk Hf]. apply Forall_cons in Hf' as [Hkk' Hf']. split.
  - apply SSorted_cons.
    + apply StronglySorted_app_2; [|done|done]. intros x y Hx Hy. rewrite Forall_forall in Hf. rewrite Forall_forall in Hk'. specialize (Hf x Hx). specialize (Hk' y Hy). lia.
    + apply Forall_app. split; [done|]. eapply Forall_impl; [exact Hk'|]. cbv beta. lia.
  - apply Forall_cons. split; [lia|]. apply Forall_app. split; [|done]. eapply Forall_impl; [exact Hf|]. cbv beta. lia.
Qed.

Section Spec.
Context {V : Type} {json : Json V} `{!EqDecision (StoredDocument V)}.
Abbreviation Doc := (StoredDocument V).
Abbreviation owner := (Doc * nat)%type.
Abbreviation docs := (gmap (list Z) Doc).

(** ** Slots and documents *)

Record linked (os : list (option owner)) (M : docs) (S : gmap (list Z) (list Z)) : Prop := {
  ln_ids : forall id d, M !! id = Some d -> doc_id d = id;
  ln_dom : dom S = dom M;
  ln_slots : forall id d ss, M !! id = Some d -> S !! id = Some ss -> length ss = length (doc_chunks d) /\
      forall i s, ss !! i = Some s -> (0 <= s)%Z /\ os !! Z.to_nat s = Some (Some (d, i));
  ln_owners : forall n d i, os !! n = Some (Some (d, i)) -> M !! doc_id d = Some d /\
      exists ss, S !! doc_id d = Some ss /\ ss !! i = Some (Z.of_nat n) }.

(** Each chunk of each document has its own slot. *)
Lemma linked_distinct os M S :
  linked os M S -> forall id id' ss ss' i i' k, S !! id = Some ss -> ss !! i = Some k -> S !! id' = Some ss' -> ss' !! i' = Some k -> id = id' /\ i = i'.
Proof.
  intros Hl id id' ss ss' i i' k Hs Hi Hs' Hi'. assert (Hdoc : forall x y, S !! x = Some y -> exists d, M !! x = Some d).
  { intros x y Hx. apply elem_of_dom_2 in Hx. rewrite (ln_dom _ _ _ Hl) in Hx. by apply elem_of_dom in Hx. }
  destruct (Hdoc _ _ Hs) as [d Hd]. destruct (Hdoc _ _ Hs') as [d' Hd'].
  destruct (ln_slots _ _ _ Hl id d ss Hd Hs) as [_ Ha]. destruct (ln_slots _ _ _ Hl id' d' ss' Hd' Hs') as [_ Hb].
  destruct (Ha i k Hi) as [_ Ea]. destruct (Hb i' k Hi') as [_ Eb]. rewrite Ea in Eb. injection Eb as <- <-.
  split; [|done]. rewrite <- (ln_ids _ _ _ Hl _ _ Hd). by apply (ln_ids _ _ _ Hl).
Qed.

(** The next slots are above [k]. *)
Definition above (k : Z) (t : SlotTable V) : Prop := Forall (fun s => k < s)%Z (st_free t) /\ (k < st_slot_count t)%Z.

Definition items_of (slots : list Z) (cs : list StoredChunk) : list item := zip_with (fun s c => ((s, c), entries_of c)) slots cs.

Definition item_map (its : list item) : slot_chunks := list_to_map (map (fun it : item => (it.1.1, (it.1.2, it.2))) its).

(** The owners after the chunks [i..] of [d] took the slots [ns]. *)
Definition takes (os os' : list (option owner)) (d : Doc) (i : nat) (ns : list nat) : Prop :=
  (forall j n, ns !! j = Some n -> os' !! n = Some (Some (d, i + j)) /\ (os !! n = None \/ os !! n = Some None)) /\
  forall n, n ∉ ns -> os' !! n = os !! n.

(** A slot given to a chunk. *)
Lemma slot_given (os os' : list (option owner)) n x c :
  owner_chunk x = Some c -> (os !! n = Some None /\ os' = <[n := Some x]> os) \/ (n = length os /\ os' = os ++ [Some x]) ->
  os' !! n = Some (Some x) /\ (forall m, m <> n -> os' !! m = os !! m) /\ (os !! n = None \/ os !! n = Some None) /\
  owned os' = <[Z.of_nat n := (c, entries_of c)]> (owned os) /\ forall g, total g os' = (total g os + g c)%Z.
Proof.
  intros Hx [[Hn ->]|[-> ->]].
  - apply lookup_lt_Some in Hn as Hl. split_and!; [by apply list_lookup_insert_eq|intros m Hm; by rewrite list_lookup_insert_ne|by right|by apply owned_insert|].
    intros g. rewrite (total_insert g os n None (Some x) Hn). rewrite (weight_owner g x c Hx), weight_none. lia.
  - split_and!; [by apply list_lookup_middle| |left; by apply lookup_ge_None_2| |].
    + intros m Hm. destruct (decide (m < length os)); [by rewrite lookup_app_l|]. rewrite !lookup_ge_None_2; [done|lia|rewrite length_app; simpl; lia].
    + rewrite owned_step. simpl. by rewrite Hx.
    + intros g. rewrite total_app. simpl. rewrite (weight_owner g x c Hx). lia.
Qed.

Lemma takes_cons os os1 os' d i n ns :
  os1 !! n = Some (Some (d, i)) -> (forall m, m <> n -> os1 !! m = os !! m) -> (os !! n = None \/ os !! n = Some None) ->
  n ∉ ns -> takes os1 os' d (S i) ns -> takes os os' d i (n :: ns).
Proof.
  intros Hat Hne Hno Hn [H1 H2]. split.
  - intros [|j] m Hj; simpl in Hj.
    + injection Hj as <-. rewrite H2, Nat.add_0_r by done. done.
    + destruct (H1 j m Hj) as [Ho Hm]. rewrite <- Nat.add_succ_comm. split; [done|]. rewrite <- Hne; [done|]. intros ->. rewrite Hat in Hm. naive_solver.
  - intros m Hm. apply not_elem_of_cons in Hm as [Hmn Hm]. by rewrite H2, Hne.
Qed.

Lemma item_map_cons s c slots cs R :
  s ∉ slots -> item_map (items_of (s :: slots) (c :: cs)) ∪ R = item_map (items_of slots cs) ∪ <[s := (c, entries_of c)]> R.
Proof.
  intros Hs. unfold items_of at 1. cbn [zip_with]. fold (items_of slots cs). set (its := items_of slots cs).
  assert (Hn : item_map its !! s = None).
  { apply not_elem_of_list_to_map_1. intros Hin. apply Hs. apply list_elem_of_fmap in Hin as ([k ce] & -> & Hin).
    apply list_elem_of_fmap in Hin as (it & [= -> ->] & Hin). apply elem_of_zip_with in Hin as (s' & c' & -> & Hin). by destruct Hin. }
  change (item_map (((s, c), entries_of c) :: its)) with (<[s := (c, entries_of c)]> (item_map its)).
  by rewrite <- insert_union_l, insert_union_r.
Qed.

Lemma insert_chunks_ok (d : Doc) i cs t k :
  table_ok t -> cs = drop i (doc_chunks d) -> Forall chunk_fits cs ->
  within (fun g => total g (st_owners t) + chunk_sum g cs)%Z -> above k t -> (-1 <= k)%Z ->
  exists t' ns k', insert_chunks t d i cs = Ok (t', map Z.of_nat ns) /\ table_ok t' /\ length ns = length cs /\
    takes (st_owners t) (st_owners t') d i ns /\ above k' t' /\ ascends k (map Z.of_nat ns) k' /\
    owned (st_owners t') = item_map (items_of (map Z.of_nat ns) cs) ∪ owned (st_owners t) /\
    (forall g, total g (st_owners t') = total g (st_owners t) + chunk_sum g cs)%Z /\ (compact t -> compact t') /\
    (released t -> released t').
Proof.
  intros Ht Hcs Hf. revert i t k Ht Hcs. induction Hf as [|c cs Hc Hf IH]; intros i t k Ht Hcs Hw Hk Hpos.
  { exists t, [], k. split_and!; try done; [by apply ascends_nil| |intros g; simpl; lia].
    unfold item_map. simpl. by rewrite (left_id_L ∅ (∪)). }
  assert (Hi : doc_chunks d !! i = Some c) by (rewrite <- (Nat.add_0_r i), <- lookup_drop, <- Hcs; done).
  assert (Hcs' : cs = drop (S i) (doc_chunks d)) by (rewrite <- (Nat.add_1_r i), <- drop_drop, <- Hcs; done).
  pose proof Hw as [W1 W2 _ _]. cbn [chunk_sum foldr] in W1, W2. fold (chunk_sum one cs) in W1. fold (chunk_sum c_word_count cs) in W2.
  pose proof (chunk_sum_nonneg one cs positive_one Hf). pose proof (chunk_sum_nonneg _ cs positive_words Hf). change (one c) with 1%Z in W1.
  destruct (insert_chunk_ok t d i c Ht Hi Hc) as (t1 & n & Hrun & Ht1 & Hos & Hn & Hfree & Habove & _ & Hsub & Hslot & Hcount & _ & Hch & Hlast & Hrel);
    [rewrite (tk_chunks _ Ht); lia|rewrite (tk_total _ Ht); lia|].
  assert (Hkn : (k < Z.of_nat n)%Z).
  { destruct Hk as [Hk1 Hk2]. destruct Hslot as [Hs| ->]; [|done]. rewrite Forall_forall in Hk1. by apply Hk1. }
  destruct (slot_given (st_owners t) (st_owners t1) n (d, i) c Hi) as (Hat & Hne & Hno & Hown & Htot).
  { destruct Hos as [[Hlt Ho]|Ho]; [left|by right]. split; [by apply Hfree|done]. }
  cbn [insert_chunks]. rewrite Hrun. cbn [obind].
  destruct (IH (S i) t1 (Z.of_nat n) Ht1 Hcs') as (t' & ns & k' & -> & Ht' & Hlen & Htk & Hk' & Hasc & Hmap & Htot' & Hcp & Hrl); [|split|lia|].
  - eapply within_le; [|exact Hw]. intros g _. cbn [chunk_sum foldr]. fold (chunk_sum g cs). rewrite Htot. lia.
  - done.
  - rewrite (tk_count _ Ht1). lia.
  - cbn [obind]. exists t', (n :: ns), k'.
    assert (Hn' : Z.of_nat n ∉ map Z.of_nat ns).
    { destruct Hasc as [Hs _]. inversion Hs as [|?? _ Hlow]; subst. intros Hin. rewrite Forall_forall in Hlow. specialize (Hlow _ Hin). lia. }
    split_and!; try done.
    + simpl. by rewrite Hlen.
    + eapply takes_cons; [exact Hat|exact Hne|exact Hno| |exact Htk]. intros Hin. apply Hn'. by apply list_elem_of_fmap_2.
    + apply (ascends_app k [Z.of_nat n] (Z.of_nat n)); [by apply ascends_one|done].
    + cbn [map]. by rewrite item_map_cons, Hmap, Hown.
    + intros g. rewrite Htot', Htot. simpl. lia.
    + intros Hc0. apply Hcp. pose proof (table_totals t Ht) as [Hb _]. unfold compact in *. lia.
    + auto.
Qed.

(** The items of a run of slots: well-formed, new and ascending. *)
Record run_ok (os os' : list (option owner)) (k : Z) (its : list item) (k' : Z) : Prop := {
  ru_items : Forall item_ok its;
  ru_slots : ascends k (map item_slot its) k';
  ru_fresh : Forall (fun it => owned os !! item_slot it = None) its;
  ru_owned : owned os' = item_map its ∪ owned os }.

Lemma items_slots slots cs : length slots = length cs -> map item_slot (items_of slots cs) = slots.
Proof. revert cs. induction slots as [|s l IH]; intros [|c cs] Hl; try done. simpl in *. by rewrite IH by lia. Qed.

Lemma items_chunks slots cs : map item_chunk (items_of slots cs) = zip slots cs.
Proof. revert cs. induction slots as [|s l IH]; intros [|c cs]; try done. simpl. by rewrite IH. Qed.

Lemma owned_free (os : list (option owner)) n : os !! n = None \/ os !! n = Some None -> owned os !! Z.of_nat n = None.
Proof. intros Hn. rewrite lookup_owned. unfold slot_chunk. rewrite decide_True by lia. rewrite Nat2Z.id. by destruct Hn as [-> | ->]. Qed.

Lemma chunks_run (d : Doc) t t' k k' ns :
  table_ok t' -> doc_fits d -> length ns = length (doc_chunks d) -> takes (st_owners t) (st_owners t') d 0 ns ->
  ascends k (map Z.of_nat ns) k' -> owned (st_owners t') = item_map (items_of (map Z.of_nat ns) (doc_chunks d)) ∪ owned (st_owners t) ->
  run_ok (st_owners t) (st_owners t') k (items_of (map Z.of_nat ns) (doc_chunks d)) k'.
Proof.
  intros Ht Hfit Hlen [H1 _] Hasc Hown.
  assert (Hin : forall it, it ∈ items_of (map Z.of_nat ns) (doc_chunks d) -> exists i n c, ns !! i = Some n /\ doc_chunks d !! i = Some c /\ it = ((Z.of_nat n, c), entries_of c)).
  { intros it Hin. apply elem_of_lookup_zip_with_1 in Hin as (i & s & c & -> & Hs & Hc). rewrite list_lookup_fmap in Hs.
    apply fmap_Some in Hs as (n & Hn & ->). eauto 10. }
  split; [|by rewrite items_slots by (by rewrite length_map)| |done].
  - apply Forall_forall. intros it Hit. destruct (Hin it Hit) as (i & n & c & Hn & Hc & ->). destruct (H1 i n Hn) as [Ho _].
    unfold doc_fits in Hfit. rewrite Forall_lookup in Hfit. split; [apply (Hfit i c Hc)|]. eapply table_slot_bound; [exact Ht|]. by eapply lookup_lt_Some.
  - apply Forall_forall. intros it Hit. destruct (Hin it Hit) as (i & n & c & Hn & Hc & ->). apply owned_free. by apply (H1 i n Hn).
Qed.

Lemma run_app os os1 os2 k a k1 b k2 : run_ok os os1 k a k1 -> run_ok os1 os2 k1 b k2 -> run_ok os os2 k (a ++ b) k2.
Proof.
  intros [A1 A2 A3 A4] [B1 B2 B3 B4].
  assert (Hdisj : forall x y, x ∈ a -> y ∈ b -> (item_slot x < item_slot y)%Z).
  { intros x y Hx Hy. destruct A2 as [_ A2]. destruct B2 as [B2 _]. inversion B2 as [|?? _ Hlow]; subst. apply Forall_cons in A2 as [_ A2].
    rewrite Forall_forall in A2. rewrite Forall_forall in Hlow. pose proof (A2 _ (list_elem_of_fmap_2 item_slot _ _ Hx)).
    pose proof (Hlow _ (list_elem_of_fmap_2 item_slot _ _ Hy)). lia. }
  split.
  - by apply Forall_app.
  - rewrite map_app. by eapply ascends_app.
  - apply Forall_app. split; [done|]. apply Forall_forall. intros y Hy. rewrite Forall_forall in B3. pose proof (B3 y Hy) as Hn. rewrite A4 in Hn.
    by apply lookup_union_None in Hn as [_ Hn].
  - rewrite B4, A4, (assoc_L (∪)). f_equal. unfold item_map. rewrite map_app, list_to_map_app. apply map_union_comm, map_disjoint_spec.
    intros s x y Hx Hy. apply elem_of_list_to_map_2, list_elem_of_fmap in Hx as (i1 & [= -> ->] & H1). apply elem_of_list_to_map_2, list_elem_of_fmap in Hy as (i2 & [= Hs _] & H2).
    pose proof (Hdisj i2 i1 H2 H1). unfold item_slot in *. lia.
Qed.
End Spec.

(** ** Installing *)

Section Install.
Context {V : Type} {json : Json V} `{!EqDecision (StoredDocument V)}.
Context {D : Type} {dict : TermIndex D} {B : Type} {checkpoint : Checkpoint B}.
Context (threads : nat).
Abbreviation Doc := (StoredDocument V).
Abbreviation docs := (gmap (list Z) Doc).
Abbreviation Store := (DocumentStore V D B).

(** Everything but the postings and the document map. *)
Record dir_ok (s : Store) (M : docs) : Prop := {
  dk_table : table_ok (ds_table s);
  dk_released : released (ds_table s);
  dk_linked : linked (st_owners (ds_table s)) M (ds_slots s);
  dk_multi : forall id, id ∈ ds_multichunk s <-> exists d, M !! id = Some d /\ 1 < length (doc_chunks d);
  dk_embedded : forall id, id ∈ ds_embedded s <-> exists d, M !! id = Some d /\ has_embedding d = true;
  dk_filters : filters_ok (ds_filters s) M;
  dk_totals : forall g, total g (st_owners (ds_table s)) = docs_total g M;
  dk_fits : map_Forall (fun _ d => doc_fits d) M }.

Record store_ok (s : Store) : Prop := {
  sk_dir : dir_ok s (ds_documents s);
  sk_postings : state_ok (owned (st_owners (ds_table s))) (ds_postings s);
  sk_base : ds_base s = None;
  sk_text : ds_text s = None }.

(** What a checkpoint is written from: the documents, their slots and their postings, wherever the
    text of the chunks is. *)
Record store_indexed (s : Store) : Prop := {
  si_dir : dir_ok s (ds_documents s);
  si_postings : state_ok (owned (st_owners (ds_table s))) (ds_postings s) }.

Lemma store_ok_indexed (s : Store) : store_ok s -> store_indexed s.
Proof. intros [H1 H2 _ _]. by split. Qed.

(** The fields the directory steps leave alone. *)
Definition same_rest (s s' : Store) : Prop :=
  ds_documents s' = ds_documents s /\ ds_postings s' = ds_postings s /\ ds_generation s' = ds_generation s /\
  ds_dense s' = ds_dense s /\ ds_changes s' = ds_changes s /\ ds_text s' = ds_text s /\ ds_base s' = ds_base s.

Lemma linked_insert (os os' : list (option (Doc * nat))) M S (d : Doc) ns :
  linked os M S -> M !! doc_id d = None -> length ns = length (doc_chunks d) -> takes os os' d 0 ns ->
  linked os' (<[doc_id d := d]> M) (<[doc_id d := map Z.of_nat ns]> S).
Proof.
  intros [H1 H2 H3 H4] Hn Hlen [T1 T2]. split.
  - intros id d' [[<- <-]|[_ Hd]]%lookup_insert_Some; [done|by apply H1].
  - by rewrite !dom_insert_L, H2.
  - intros id d' ss [[<- <-]|[Hne Hd]]%lookup_insert_Some Hs.
    + rewrite lookup_insert_eq in Hs. injection Hs as <-. rewrite length_map. split; [done|]. intros i s Hi. rewrite list_lookup_fmap in Hi.
      apply fmap_Some in Hi as (n & Hi & ->). split; [lia|]. rewrite Nat2Z.id. by apply (T1 i n Hi).
    + rewrite lookup_insert_ne in Hs by done. destruct (H3 id d' ss Hd Hs) as [Hl Hi]. split; [done|]. intros i s Hs'.
      destruct (Hi i s Hs') as [Hp Ho]. split; [done|]. rewrite T2; [done|]. intros (j & Hj)%list_elem_of_lookup. destruct (T1 j _ Hj) as [_ [?|?]]; congruence.
  - intros n d' i Ho. destruct (decide (n ∈ ns)) as [(j & Hj)%list_elem_of_lookup|Hns].
    + destruct (T1 j n Hj) as [Ho' _]. rewrite Ho' in Ho. injection Ho as <- <-. rewrite !lookup_insert_eq. split; [done|]. eexists. split; [done|].
      by rewrite list_lookup_fmap, Hj.
    + rewrite T2 in Ho by done. destruct (H4 n d' i Ho) as (Hd & ss & Hs & Hi). assert (doc_id d' <> doc_id d) by congruence.
      rewrite !lookup_insert_ne by done. eauto.
Qed.

Lemma install_document_ok (s : Store) M d k :
  dir_ok s M -> M !! doc_id d = None -> doc_fits d -> within (fun g => docs_total g M + doc_sum g d)%Z ->
  above k (ds_table s) -> (-1 <= k)%Z ->
  exists s' its k', install_document s d = Ok (s', map item_chunk its) /\ dir_ok s' (<[doc_id d := d]> M) /\ same_rest s s' /\
    above k' (ds_table s') /\ run_ok (st_owners (ds_table s)) (st_owners (ds_table s')) k its k' /\
    (compact (ds_table s) -> compact (ds_table s')).
Proof.
  intros [H1 Hrel H2 H3 H4 H5 H6 H7] Hn Hfit Hw Hk Hpos. unfold install_document.
  destruct (insert_chunks_ok d 0 (doc_chunks d) (ds_table s) k H1) as (t' & ns & k' & -> & Ht' & Hlen & Htk & Hk' & Hasc & Hown & Htot & Hcp & Hrl); try done.
  { eapply within_le; [|exact Hw]. intros g _. rewrite H6. unfold doc_sum. lia. }
  cbn [obind]. set (s1 := if 1 <? length (doc_chunks d) then _ else _). rewrite <- items_chunks.
  assert (Hemb : doc_id d ∉ ds_embedded s) by (intros Hin; apply H4 in Hin as (d' & Hd & _); congruence).
  assert (Hs1 : ds_embedded s1 = ds_embedded s /\ ds_slots s1 = ds_slots s /\ ds_filters s1 = ds_filters s /\ ds_table s1 = t' /\ same_rest s s1 /\
    forall id, id ∈ ds_multichunk s1 <-> (id = doc_id d /\ 1 < length (doc_chunks d)) \/ id ∈ ds_multichunk s).
  { unfold s1. destruct (Nat.ltb_spec 1 (length (doc_chunks d))); (split_and!; [done..|]); intros id; simpl; [set_solver|naive_solver lia]. }
  destruct Hs1 as (E1 & E2 & E3 & E4 & E5 & E6). cbn [set_slots ds_embedded]. rewrite E1.
  set (s2 := set_slots s1 _).
  assert (Hs2 : exists s3, (if has_embedding d then if decide (doc_id d ∈ ds_embedded s) then Panic else Ok (set_embedded s2 ({[ doc_id d ]} ∪ ds_embedded s)) else Ok s2) = Ok s3 /\
    (forall id, id ∈ ds_embedded s3 <-> (id = doc_id d /\ has_embedding d = true) \/ id ∈ ds_embedded s) /\
    ds_multichunk s3 = ds_multichunk s1 /\ ds_slots s3 = ds_slots s2 /\ ds_filters s3 = ds_filters s /\ ds_table s3 = t' /\ same_rest s s3).
  { destruct (has_embedding d); [rewrite decide_False by done|]; (eexists; split; [done|]); (split_and!; try done); intros id; unfold s2; simpl; rewrite ?E1; set_solver. }
  destruct Hs2 as (s3 & -> & F1 & F2 & F3 & F4 & F5 & F6). cbn [obind]. eexists _, _, k'. split; [done|].
  split; [|split; [exact F6|cbn [set_filters ds_table]; rewrite F5; split_and!; [done|by apply chunks_run|done]]].
  assert (Hgen : forall id (P : Doc -> Prop) (Q : Prop), (Q <-> (id = doc_id d /\ P d) \/ exists d', M !! id = Some d' /\ P d') ->
    Q <-> exists d', <[doc_id d := d]> M !! id = Some d' /\ P d').
  { intros id P Q ->. setoid_rewrite lookup_insert_Some. split; [intros [[-> HP]|(d' & Hd & HP)]; [eauto|]|naive_solver].
    exists d'. split; [|done]. right. split; [congruence|done]. }
  split; cbn [set_filters ds_table ds_slots ds_multichunk ds_embedded ds_filters]; rewrite ?F5, ?F2, ?F3, ?F4; try done; [by apply Hrl|..].
  - unfold s2. cbn [set_slots ds_slots]. rewrite E2. by eapply linked_insert.
  - intros id. apply (Hgen id (fun d => 1 < length (doc_chunks d))). by rewrite E6, H3.
  - intros id. apply (Hgen id (fun d => has_embedding d = true)). by rewrite F1, H4.
  - by apply insert_filters_ok.
  - intros g. by rewrite Htot, H6, docs_total_insert.
  - by apply map_Forall_insert_2.
Qed.

Definition put_docs (M : docs) (ds : list Doc) : docs := foldl (fun M d => <[doc_id d := d]> M) M ds.

Lemma same_rest_trans s s1 s2 : same_rest s s1 -> same_rest s1 s2 -> same_rest s s2.
Proof. unfold same_rest. intuition congruence. Qed.

Definition all_new (M : docs) (ds : list Doc) : Prop := NoDup (map doc_id ds) /\ Forall (fun d => M !! doc_id d = None) ds.

Lemma all_new_cons M d ds : all_new M (d :: ds) -> M !! doc_id d = None /\ all_new (<[doc_id d := d]> M) ds.
Proof.
  intros [Hnd Hf]. cbn [map] in Hnd. apply NoDup_cons in Hnd as [Hn Hnd]. apply Forall_cons in Hf as [Hd Hf]. split; [done|]. split; [done|].
  apply Forall_forall. intros d' Hin. rewrite Forall_forall in Hf. rewrite lookup_insert_ne; [by apply Hf|].
  intros E. apply Hn. rewrite E. by apply list_elem_of_fmap_2.
Qed.

Lemma run_nil (os : list (option (Doc * nat))) k : run_ok os os k [] k.
Proof. split; [constructor|apply ascends_nil|constructor|]. unfold item_map. simpl. by rewrite (left_id_L ∅ (∪)). Qed.

Lemma run_low (os os' : list (option (Doc * nat))) k its k' : run_ok os os' k its k' -> (k <= k')%Z.
Proof. intros [_ [_ H] _ _]. by apply Forall_cons in H as [H _]. Qed.

Lemma install_documents_ok ds (s : Store) M k :
  dir_ok s M -> all_new M ds -> Forall doc_fits ds -> within (fun g => docs_total g M + list_sum g ds)%Z ->
  above k (ds_table s) -> (-1 <= k)%Z ->
  exists s' its k', install_documents s ds = Ok (s', map item_chunk its) /\ dir_ok s' (put_docs M ds) /\ same_rest s s' /\
    run_ok (st_owners (ds_table s)) (st_owners (ds_table s')) k its k' /\ (compact (ds_table s) -> compact (ds_table s')).
Proof.
  revert s M k. induction ds as [|d ds IH]; intros s M k Hs Hn Hf Hw Hk Hpos.
  { exists s, [], k. split_and!; try done. apply run_nil. }
  apply all_new_cons in Hn as [Hd Hn]. apply Forall_cons in Hf as [Hfd Hf]. cbn [list_sum foldr] in Hw. cbn [install_documents].
  destruct (install_document_ok s M d k Hs Hd Hfd) as (s1 & its1 & k1 & -> & Hs1 & Hr1 & Hk1 & Hrun1 & Hcp1); try done.
  { eapply within_le; [|exact Hw]. intros g Hg. cbv beta. pose proof (list_sum_nonneg g ds Hg Hf). unfold list_sum in *. lia. }
  cbn [obind]. pose proof (run_low _ _ _ _ _ Hrun1).
  destruct (IH s1 _ k1 Hs1 Hn Hf) as (s2 & its2 & k2 & -> & Hs2 & Hr2 & Hrun2 & Hcp2); [|done|lia|].
  { eapply within_le; [|exact Hw]. intros g _. cbv beta. rewrite docs_total_insert by done. unfold list_sum. lia. }
  cbn [obind]. exists s2, (its1 ++ its2), k2. rewrite map_app. split_and!; [done|done|by eapply same_rest_trans|by eapply run_app|by auto].
Qed.

(** The dense-change log is apart. *)
Definition same_but_dense (s s' : Store) : Prop :=
  ds_documents s' = ds_documents s /\ ds_postings s' = ds_postings s /\ ds_slots s' = ds_slots s /\ ds_table s' = ds_table s /\
  ds_multichunk s' = ds_multichunk s /\ ds_embedded s' = ds_embedded s /\ ds_filters s' = ds_filters s /\
  ds_generation s' = ds_generation s /\ ds_text s' = ds_text s /\ ds_base s' = ds_base s.

Lemma track_same (s : Store) id n previous : same_but_dense s (track_dense_change s id n previous).
Proof. unfold track_dense_change. destruct (ds_dense s); [|done]. destruct (_ || _); [done|]. by destruct (ds_changes s !! id). Qed.

Lemma enter_documents_ok ds (s : Store) :
  same_but_dense (set_documents s (put_docs (ds_documents s) ds)) (foldl enter_document s ds).
Proof.
  revert s. induction ds as [|d ds IH]; intros s; [done|]. cbn [foldl put_docs]. specialize (IH (enter_document s d)).
  pose proof (track_same s (doc_id d) (Z.of_nat (length (doc_chunks d))) None) as Ht. unfold enter_document, same_but_dense in *.
  cbn [set_documents ds_documents ds_postings ds_slots ds_table ds_multichunk ds_embedded ds_filters ds_generation ds_text ds_base] in *.
  destruct Ht as (T1 & ?). rewrite T1 in *. intuition congruence.
Qed.

Lemma dir_ok_same (s s' : Store) M :
  dir_ok s M -> ds_slots s' = ds_slots s -> ds_table s' = ds_table s -> ds_multichunk s' = ds_multichunk s ->
  ds_embedded s' = ds_embedded s -> ds_filters s' = ds_filters s -> dir_ok s' M.
Proof. intros [] E1 E2 E3 E4 E5. split; rewrite ?E1, ?E2, ?E3, ?E4, ?E5; done. Qed.

Lemma above_start (t : SlotTable V) : table_ok t -> above (-1) t.
Proof.
  intros Ht. split; [|rewrite (tk_count _ Ht); lia]. apply Forall_forall. intros s Hs. apply (tk_free _ Ht) in Hs as [Hs _]. lia.
Qed.

Lemma dir_within (s : Store) M : dir_ok s M -> within (fun g => docs_total g M) -> all_small (owned (st_owners (ds_table s))).
Proof.
  intros Hd Hw. apply owned_small; [apply Hd|]. eapply within_le; [|exact Hw]. intros g _. cbv beta. by rewrite (dk_totals _ _ Hd).
Qed.

Lemma docs_total_put g M ds : all_new M ds -> docs_total g (put_docs M ds) = (docs_total g M + list_sum g ds)%Z.
Proof.
  revert M. induction ds as [|d ds IH]; intros M Hn; [simpl; lia|]. apply all_new_cons in Hn as [Hd Hn]. cbn [put_docs foldl].
  unfold put_docs in IH. rewrite (IH _ Hn), docs_total_insert by done. simpl. lia.
Qed.

Lemma install_new_ok (s : Store) ds :
  store_ok s -> all_new (ds_documents s) ds -> Forall doc_fits ds ->
  within (fun g => docs_total g (ds_documents s) + list_sum g ds)%Z -> (ds_generation s + Z.of_nat (length ds) < U64)%Z ->
  exists s', install_new threads s ds = Ok s' /\ store_ok s' /\ ds_documents s' = put_docs (ds_documents s) ds /\
    ds_generation s' = (ds_generation s + Z.of_nat (length ds))%Z /\ (compact (ds_table s) -> compact (ds_table s')).
Proof.
  intros Hs Hn Hf Hw Hg. destruct (decide (ds = [])) as [->|Hne].
  { exists s. split_and!; try done. simpl. lia. }
  assert (Hgoal : install_new threads s ds = let* (s, indexed) := install_documents s ds in
      let* ps := index_chunks threads (ds_postings s) indexed (st_words (ds_table s)) in
      let* s := advance_generation (set_postings s ps) (Z.of_nat (length ds)) in Ok (foldl enter_document s ds)) by (by destruct ds).
  rewrite Hgoal. clear Hgoal Hne. destruct Hs as [Hdir Hst Hbase Htext].
  destruct (install_documents_ok ds s _ (-1) Hdir Hn Hf Hw) as (s1 & its & k' & -> & Hdir1 & Hrest & Hrun & Hcp); [by apply above_start, Hdir|done|].
  cbn [obind]. destruct Hrest as (R1 & R2 & R3 & _ & _ & R6 & R7). rewrite R2. set (ws := st_words (ds_table s1)).
  destruct Hrun as [Hits Hasc Hfresh Hown].
  assert (Hop : op_ok (owned (st_owners (ds_table s))) (IBulk its ws)).
  { assert (Hstep : chunks_step (owned (st_owners (ds_table s))) (IBulk its ws) = owned (st_owners (ds_table s1))) by (by rewrite Hown).
    split; [rewrite Hstep; eapply dir_within; [exact Hdir1|]|].
    - eapply within_le; [|exact Hw]. intros g _. cbv beta. rewrite docs_total_put by done. lia.
    - split_and!; [done| |done|]; [|rewrite Hstep; apply table_lengths_ok, Hdir1]. destruct Hasc as [Hasc _]. by inversion Hasc. }
  destruct (bulk_step_ok threads _ _ _ _ Hst Hop) as (ps & Hps & Hst'). cbn [index_step] in Hps. rewrite Hps. cbn [obind].
  unfold advance_generation. cbn [set_postings ds_generation]. rewrite R3, checked_add_ok by done. cbn [expect obind]. eexists. split; [done|].
  set (s2 := set_generation _ _). destruct (enter_documents_ok ds s2) as (E1 & E2 & E3 & E4 & E5 & E6 & E7 & E8 & E9 & E10).
  cbn [s2 set_documents set_generation set_postings ds_documents ds_postings ds_slots ds_table ds_multichunk ds_embedded ds_filters ds_generation ds_text ds_base] in *.
  rewrite R1 in E1. split_and!; [|done|done|by rewrite E4]. split; rewrite ?E1, ?E2, ?E4, ?E9, ?E10, ?R6, ?R7; try done.
  - by eapply dir_ok_same.
  - cbn [chunks_step] in Hst'. fold (item_map its) in Hst'. by rewrite Hown.
Qed.
End Install.
