(* ===== verification/StoreEdits.v ===== *)
(** * Replacing and removing a stored document

    [replace_shared] and the bookkeeping of [remove_with] keep the store's invariant: the chunks
    of one document change owner, or give their slots back, one by one. *)

From S2P Require Import Prelude Words BitPack Search Positions Terms TextSegment Binary Share TermDict Postings Cursor PostingEdit PostingRuns Lists Indexing Bulk IndexRuns Filters SlotTable Store Capacity StoreSpec.

Section Edits.
Context {V : Type} {json : Json V} `{!EqDecision (StoredDocument V)}.
Context {D : Type} {dict : TermIndex D} {B : Type} {checkpoint : Checkpoint B}.
Context (threads : nat).
Abbreviation Doc := (StoredDocument V).
Abbreviation owner := (Doc * nat)%type.
Abbreviation docs := (gmap (list Z) Doc).
Abbreviation Store := (DocumentStore V D B).
Abbreviation forms := (PostingLists D * PostingLists D)%type.

(** The slots [ss] belong to the chunks [i..] of [d]. *)
Definition holds (os : list (option owner)) (ss : list Z) (i : nat) (d : Doc) : Prop :=
  forall j s, ss !! j = Some s -> (0 <= s)%Z /\ os !! Z.to_nat s = Some (Some (d, i + j)).

(** The slots [ss] get the owners [f i], [f (i + 1)] and so on. *)
Definition gives (os os' : list (option owner)) (ss : list Z) (i : nat) (f : nat -> option owner) : Prop :=
  (forall j s, ss !! j = Some s -> os' !! Z.to_nat s = Some (f (i + j))) /\ forall n, Z.of_nat n ∉ ss -> os' !! n = os !! n.

Lemma holds_cons os s ss i d :
  holds os (s :: ss) i d ->
  exists n, s = Z.of_nat n /\ os !! n = Some (Some (d, i)) /\ (s ∉ ss) /\ forall o, holds (<[n := o]> os) ss (S i) d.
Proof.
  intros H. destruct (H 0 s eq_refl) as [Hp Ho]. rewrite Nat.add_0_r in Ho. exists (Z.to_nat s). rewrite Z2Nat.id by done.
  assert (Hne : forall j s', ss !! j = Some s' -> s' <> s).
  { intros j s' Hj ->. destruct (H (S j) s Hj) as [_ Ho']. rewrite Ho in Ho'. injection Ho' as Ho'. lia. }
  split_and!; try done.
  - intros (j & Hj)%list_elem_of_lookup. by apply (Hne j s Hj).
  - intros o j s' Hj. destruct (H (S j) s' Hj) as [Hp' Ho']. split; [done|]. rewrite list_lookup_insert_ne by (pose proof (Hne j s' Hj); lia).
    by rewrite <- Nat.add_succ_comm in Ho'.
Qed.

Lemma gives_cons (os os' : list (option owner)) n ss i f :
  n < length os -> Z.of_nat n ∉ ss -> gives (<[n := f i]> os) os' ss (S i) f -> gives os os' (Z.of_nat n :: ss) i f.
Proof.
  intros Hn Hns [H1 H2]. split.
  - intros [|j] s Hj; simpl in Hj.
    + injection Hj as <-. rewrite Nat2Z.id, H2, Nat.add_0_r by done. by apply list_lookup_insert_eq.
    + rewrite <- Nat.add_succ_comm. by apply H1.
  - intros m Hm. apply not_elem_of_cons in Hm as [Hmn Hm]. rewrite H2 by done. apply list_lookup_insert_ne. lia.
Qed.

Lemma gives_nil (os : list (option owner)) i f : gives os os [] i f.
Proof. by split. Qed.

Lemma drop_cons_lookup {A} (l : list A) i x r : x :: r = drop i l -> l !! i = Some x /\ r = drop (S i) l.
Proof.
  intros H. split; [by rewrite <- (Nat.add_0_r i), <- lookup_drop, <- H|]. by rewrite <- (Nat.add_1_r i), <- drop_drop, <- H.
Qed.

Definition delta (g : StoredChunk -> Z) (x : StoredChunk * StoredChunk * Z) : Z := g x.1.2 - g x.1.1.
Definition chunk_deltas (g : StoredChunk -> Z) (xs : list (StoredChunk * StoredChunk * Z)) : Z := foldr (fun x n => delta g x + n)%Z 0%Z xs.

Lemma chunk_deltas_sum g olds news ss :
  length olds = length ss -> length news = length ss -> chunk_deltas g (zip (zip olds news) ss) = (chunk_sum g news - chunk_sum g olds)%Z.
Proof.
  revert olds news. induction ss as [|s ss IH]; intros [|o olds] [|n news] H1 H2; try done. simpl in *. rewrite IH by lia. unfold delta. simpl. lia.
Qed.

Lemma chunk_sum_one cs : chunk_sum one cs = Z.of_nat (length cs).
Proof. induction cs as [|c cs IH]; [done|]. cbn [chunk_sum foldr length]. unfold chunk_sum in IH. rewrite IH. unfold one. lia. Qed.

(** The chunk loop of a replacement. *)
Lemma replace_chunks_ok (previous d : Doc) st ss i olds news t (ps : forms) :
  olds = drop i (doc_chunks previous) -> news = drop i (doc_chunks d) -> length olds = length ss -> length news = length ss ->
  Forall chunk_fits olds -> Forall chunk_fits news ->
  table_ok t -> holds (st_owners t) ss i previous -> state_ok (owned (st_owners t)) ps ->
  within (fun g => total g (st_owners t) + chunk_sum g news)%Z ->
  exists t' ps', replace_chunks (with_states t st) ps previous d i (zip (zip olds news) ss) = Ok (with_states t' st, ps') /\
    table_ok t' /\ state_ok (owned (st_owners t')) ps' /\ gives (st_owners t) (st_owners t') ss i (fun j => Some (d, j)) /\
    (forall g, total g (st_owners t') = total g (st_owners t) + chunk_deltas g (zip (zip olds news) ss))%Z /\ st_slot_count t' = st_slot_count t.
Proof.
  revert i olds news t ps. induction ss as [|s ss IH]; intros i [|old olds] [|new news] t ps E1 E2 L1 L2 F1 F2 Ht Hh Hst Hw; try done.
  { exists t, ps. split_and!; try done. intros g. simpl. lia. }
  apply drop_cons_lookup in E1 as [Ho E1]. apply drop_cons_lookup in E2 as [Hn E2]. apply Forall_cons in F1 as [Fo F1]. apply Forall_cons in F2 as [Fn F2].
  apply holds_cons in Hh as (n & -> & Hat & Hns & Hh). injection L1 as L1. injection L2 as L2.
  assert (Hsum : forall g, chunk_sum g (new :: news) = (g new + chunk_sum g news)%Z) by done.
  pose proof (wi_words _ Hw) as W2. cbv beta in W2. rewrite Hsum in W2. pose proof (chunk_sum_nonneg _ news positive_words F2).
  destruct (replace_chunk_ok t st previous d i old new n Ht Hat Ho Hn Fn) as (t1 & Hrun & Ht1 & Hos & Hcount & _ & _ & _ & _);
    [rewrite (tk_total _ Ht); lia|]. cbn [zip zip_with replace_chunks]. rewrite Hrun. cbn [obind]. change (st_words (with_states t1 st)) with (st_words t1).
  assert (Htot : forall g, total g (st_owners t1) = (total g (st_owners t) - g old + g new)%Z).
  { intros g. rewrite Hos, (total_insert g _ n (Some (previous, i)) _ Hat). by rewrite (weight_owner g (previous, i) old Ho), (weight_owner g (d, i) new Hn). }
  assert (Hw1 : within (fun g => total g (st_owners t1) + chunk_sum g news)%Z).
  { eapply within_le; [|exact Hw]. intros g Hg. cbv beta. rewrite Htot, Hsum. specialize (Hg old Fo). lia. }
  apply lookup_lt_Some in Hat as Hlt.
  assert (Hown : owned (st_owners t1) = <[Z.of_nat n := (new, entries_of new)]> (owned (st_owners t))) by (rewrite Hos; by apply owned_insert).
  assert (Hold : owned (st_owners t) !! Z.of_nat n = Some (old, entries_of old)).
  { rewrite lookup_owned. unfold slot_chunk. rewrite decide_True by lia. rewrite Nat2Z.id, Hat. simpl. unfold owner_chunk. simpl. by rewrite Ho. }
  assert (Hop : op_ok (owned (st_owners t)) (IReplace (Z.of_nat n) new (entries_of new) (st_words t1))).
  { split; cbn [chunks_step]; rewrite <- Hown.
    - apply owned_small; [apply Ht1|]. eapply within_le; [|exact Hw1]. intros g Hg. cbv beta. pose proof (chunk_sum_nonneg g news Hg F2). lia.
    - split_and!; [by eauto|apply Fn|by apply table_lengths_ok]. }
  destruct (replace_step_ok threads _ _ _ _ _ _ Hst Hop) as (ps1 & Hps & Hst1). cbn [index_step] in Hps. rewrite Hold in Hps. cbn [expect obind fst] in Hps.
  rewrite Hps. cbn [obind]. cbn [chunks_step] in Hst1. rewrite <- Hown in Hst1.
  destruct (IH (S i) olds news t1 ps1 E1 E2 L1 L2 F1 F2 Ht1) as (t' & ps' & -> & Ht' & Hst' & Hg & Htot' & Hcount'); [rewrite Hos; apply Hh|done|done|].
  exists t', ps'. split_and!; try done; [| |congruence].
  - apply gives_cons; [done|done|]. by rewrite <- Hos.
  - intros g. rewrite Htot', Htot. cbn [chunk_deltas foldr zip zip_with]. fold (chunk_deltas g (zip (zip olds news) ss)). unfold delta. cbn [fst snd]. lia.
Qed.

(** ** Links *)

Lemma slot_elsewhere os M S id (p : Doc) ss n d' i :
  linked os M S -> M !! id = Some p -> S !! id = Some ss -> os !! n = Some (Some (d', i)) -> Z.of_nat n ∈ ss <-> doc_id d' = id.
Proof.
  intros [H1 H2 H3 H4] Hp Hss Ho. destruct (H3 id p ss Hp Hss) as [_ Hs]. split.
  - intros (j & Hj)%list_elem_of_lookup. destruct (Hs j _ Hj) as [_ Ho']. rewrite Nat2Z.id, Ho in Ho'. injection Ho' as -> _. by apply H1.
  - intros Hid. destruct (H4 n d' i Ho) as (Hd & ss' & Hss' & Hi). rewrite Hid in Hss'. rewrite Hss in Hss'. injection Hss' as <-. by eapply list_elem_of_lookup_2.
Qed.

Lemma linked_holds os M S id (d : Doc) ss :
  linked os M S -> M !! id = Some d -> S !! id = Some ss -> holds os ss 0 d /\ length ss = length (doc_chunks d).
Proof. intros [_ _ H3 _] Hd Hs. by destruct (H3 id d ss Hd Hs). Qed.

Lemma linked_replace os os' M S (p d : Doc) ss :
  linked os M S -> M !! doc_id d = Some p -> S !! doc_id d = Some ss -> length ss = length (doc_chunks d) ->
  gives os os' ss 0 (fun j => Some (d, j)) -> linked os' (<[doc_id d := d]> M) S.
Proof.
  intros Hl Hp Hss Hlen [G1 G2]. pose proof Hl as [H1 H2 H3 H4]. destruct (linked_holds _ _ _ _ _ _ Hl Hp Hss) as [Hh _]. split.
  - intros id d' [[<- <-]|[_ Hd]]%lookup_insert_Some; [done|by apply H1].
  - rewrite H2, dom_insert_L. apply elem_of_dom_2 in Hp. set_solver.
  - intros id d' ss' [[<- <-]|[Hne Hd]]%lookup_insert_Some Hs.
    + rewrite Hss in Hs. injection Hs as <-. split; [done|]. intros i s Hi. split; [by apply (Hh i s Hi)|by apply (G1 i s Hi)].
    + destruct (H3 id d' ss' Hd Hs) as [Hl' Hi]. split; [done|]. intros i s Hs'. destruct (Hi i s Hs') as [Hpos Ho]. split; [done|].
      rewrite G2; [done|]. rewrite Z2Nat.id by done. intros Hin. rewrite <- (Z2Nat.id s Hpos) in Hin.
      apply (slot_elsewhere _ _ _ _ _ _ _ _ _ Hl Hp Hss Ho) in Hin. apply Hne. rewrite <- Hin. by apply H1.
  - intros n d' i Ho. destruct (decide (Z.of_nat n ∈ ss)) as [Hin|Hns].
    + apply list_elem_of_lookup in Hin as (j & Hj). pose proof (G1 j _ Hj) as Ho'. rewrite Nat2Z.id, Ho in Ho'. injection Ho' as -> ->.
      rewrite lookup_insert_eq. eauto.
    + rewrite G2 in Ho by done. destruct (H4 n d' i Ho) as (Hd & ss' & Hs & Hi). rewrite lookup_insert_ne; [eauto|].
      intros E. apply Hns. by apply (slot_elsewhere _ _ _ _ _ _ _ _ _ Hl Hp Hss Ho).
Qed.

Lemma linked_remove os os' M S id (p : Doc) ss :
  linked os M S -> M !! id = Some p -> S !! id = Some ss -> gives os os' ss 0 (fun _ => None) ->
  linked os' (delete id M) (delete id S).
Proof.
  intros Hl Hp Hss [G1 G2]. pose proof Hl as [H1 H2 H3 H4]. split.
  - intros id' d' [_ Hd]%lookup_delete_Some. by apply H1.
  - by rewrite !dom_delete_L, H2.
  - intros id' d' ss' [Hne Hd]%lookup_delete_Some Hs. rewrite lookup_delete_ne in Hs by done.
    destruct (H3 id' d' ss' Hd Hs) as [Hl' Hi]. split; [done|]. intros i s Hs'. destruct (Hi i s Hs') as [Hpos Ho]. split; [done|].
    rewrite G2; [done|]. rewrite Z2Nat.id by done. intros Hin. rewrite <- (Z2Nat.id s Hpos) in Hin.
    apply (slot_elsewhere _ _ _ _ _ _ _ _ _ Hl Hp Hss Ho) in Hin. apply Hne. rewrite <- Hin. by apply H1.
  - intros n d' i Ho. assert (Hns : Z.of_nat n ∉ ss).
    { intros Hin. apply list_elem_of_lookup in Hin as (j & Hj). pose proof (G1 j _ Hj) as Ho'. by rewrite Nat2Z.id, Ho in Ho'. }
    rewrite G2 in Ho by done. destruct (H4 n d' i Ho) as (Hd & ss' & Hs & Hi).
    assert (Hne : id <> doc_id d') by (intros E; apply Hns; by apply (slot_elsewhere _ _ _ _ _ _ _ _ _ Hl Hp Hss Ho)).
    rewrite !lookup_delete_ne by done. eauto.
Qed.

Lemma dir_slots (s : Store) M id d :
  dir_ok s M -> M !! id = Some d -> exists ss, ds_slots s !! id = Some ss /\ holds (st_owners (ds_table s)) ss 0 d /\ length ss = length (doc_chunks d).
Proof.
  intros Hd Hm. assert (Hin : id ∈ dom (ds_slots s)) by (rewrite (ln_dom _ _ _ (dk_linked _ _ Hd)); by apply elem_of_dom_2 in Hm).
  apply elem_of_dom in Hin as [ss Hss]. exists ss. split; [done|]. by eapply linked_holds; [apply Hd| |].
Qed.

(** ** Replacing in place *)

Lemma with_states_id (t : SlotTable V) : with_states t (st_pending t, st_lexical t) = t.
Proof. by destruct t. Qed.

Lemma embedded_any (cs : list StoredChunk) :
  existsb (fun c => match c_embedding c with Some _ => true | None => false end) cs = existsb (fun c => (0 <? embedded c)%Z) cs.
Proof. induction cs as [|c cs IH]; [done|]. simpl. rewrite IH. unfold embedded. by destruct (c_embedding c). Qed.

Lemma existsb_zip {A E F} (f : A -> bool) (g : E -> bool) (a : list A) (e : list E) (l : list F) :
  length a = length l -> length e = length l ->
  existsb (fun x => f x.1.1) (zip (zip a e) l) = existsb f a /\ existsb (fun x => g x.1.2) (zip (zip a e) l) = existsb g e.
Proof.
  revert a e. induction l as [|y l IH]; intros [|x a] [|z e] H1 H2; try done. destruct (IH a e) as [E1 E2]; [simpl in *; lia..|].
  simpl. by rewrite E1, E2.
Qed.

Lemma replace_embedded_ok (s : Store) (M : docs) id (p d : Doc) :
  (forall i, i ∈ ds_embedded s <-> exists d : Doc, M !! i = Some d /\ has_embedding d = true) -> M !! id = Some p ->
  exists s', replace_embedded s id (has_embedding p) (has_embedding d) = Ok s' /\ s' = set_embedded s (ds_embedded s') /\
    forall i, i ∈ ds_embedded s' <-> exists d', <[id := d]> M !! i = Some d' /\ has_embedding d' = true.
Proof.
  intros He Hp. assert (Hp' : id ∈ ds_embedded s <-> has_embedding p = true) by (rewrite He, Hp; naive_solver).
  assert (Hi : forall i, i <> id -> i ∈ ds_embedded s <-> exists d', <[id := d]> M !! i = Some d' /\ has_embedding d' = true).
  { intros i Hne. rewrite He. by rewrite lookup_insert_ne. }
  assert (Hid : forall b, b <-> has_embedding d = true -> b <-> exists d', <[id := d]> M !! id = Some d' /\ has_embedding d' = true).
  { intros b ->. rewrite lookup_insert_eq. naive_solver. }
  unfold replace_embedded. destruct (has_embedding p), (has_embedding d); cbn [andb negb].
  - exists s. split_and!; [done|by destruct s|]. intros i. destruct (decide (i = id)) as [->|Hne]; [|by apply Hi]. apply Hid. by rewrite Hp'.
  - rewrite decide_True by (by apply Hp'). eexists. split_and!; [done|done|]. intros i. cbn [set_embedded ds_embedded].
    destruct (decide (i = id)) as [->|Hne]; [apply Hid; set_solver|]. rewrite <- Hi by done. set_solver.
  - rewrite decide_False by (by rewrite Hp'). eexists. split_and!; [done|done|]. intros i. cbn [set_embedded ds_embedded].
    destruct (decide (i = id)) as [->|Hne]; [apply Hid; set_solver|]. rewrite <- Hi by done. set_solver.
  - exists s. split_and!; [done|by destruct s|]. intros i. destruct (decide (i = id)) as [->|Hne]; [|by apply Hi]. apply Hid. by rewrite Hp'.
Qed.

Lemma pending_states (t : SlotTable V) st' :
  table_ok t -> st' = (st_pending t, st_lexical t) -> forall p l dp dl, (st_pending t = p + dp)%Z -> (st_lexical t = l + dl)%Z ->
  shift_vector_states (p, l) dp dl = Ok st'.
Proof.
  intros Ht -> p l dp dl Hp Hl. pose proof (table_totals t Ht) as (_ & _ & _ & T1 & T2). pose proof U32_U64.
  unfold shift_vector_states. cbn [fst snd]. rewrite <- Hp, <- Hl.
  assert (Hb : forall x, (0 <= x < U32)%Z -> ((0 <=? x)%Z && (x <? U64)%Z) = true) by (intros x Hx; apply andb_true_iff; split; [apply Z.leb_le|apply Z.ltb_lt]; lia).
  by rewrite !Hb.
Qed.

Lemma replace_shared_ok (s : Store) (p d : Doc) :
  store_ok s -> ds_documents s !! doc_id d = Some p -> length (doc_chunks p) = length (doc_chunks d) -> doc_fits d ->
  within (fun g => docs_total g (ds_documents s) + doc_sum g d)%Z -> (ds_generation s + 1 < U64)%Z ->
  exists s', replace_shared s (doc_id d) p d = Ok s' /\ store_ok s' /\ ds_documents s' = <[doc_id d := d]> (ds_documents s) /\
    ds_generation s' = (ds_generation s + 1)%Z /\ (compact (ds_table s) -> compact (ds_table s')).
Proof.
  intros [Hdir Hst Hbase Htext] Hp Hlen Hfit Hw Hg. pose proof (ln_ids _ _ _ (dk_linked _ _ Hdir) _ _ Hp) as Hid.
  pose proof (dk_fits _ _ Hdir _ _ Hp) as Hpf. cbv beta in Hpf. unfold replace_shared.
  destruct (remove_filters_ok (ds_filters s) (ds_documents s) p) as (f & -> & Hf); [apply Hdir|by rewrite Hid|]. cbn [obind]. rewrite Hid in Hf.
  assert (Hf' : filters_ok (insert_filters f d) (<[doc_id d := d]> (ds_documents s))).
  { rewrite <- insert_delete_eq. apply insert_filters_ok; [done|apply lookup_delete_eq]. }
  cbn [set_filters ds_slots ds_table ds_postings]. destruct (dir_slots s _ _ _ Hdir Hp) as (ss & Hss & Hh & Hl). rewrite Hss. cbn [expect obind].
  rewrite (proj2 (Nat.eqb_eq _ _)) by congruence. cbn [negb]. set (xs := zip (zip (doc_chunks p) (doc_chunks d)) ss).
  destruct (replace_chunks_ok p d (st_pending (ds_table s), st_lexical (ds_table s)) ss 0 (doc_chunks p) (doc_chunks d) (ds_table s) (ds_postings s))
    as (t' & ps' & Hrun & Ht' & Hst' & Hgives & Htot & Hcount); try done; [congruence|apply Hdir| |].
  { eapply within_le; [|exact Hw]. intros g _. cbv beta. rewrite (dk_totals _ _ Hdir). unfold doc_sum. lia. }
  rewrite with_states_id in Hrun. fold xs in Hrun, Htot. rewrite Hrun. cbn [obind]. change (st_pending (with_states t' ?st)) with st.1. change (st_lexical (with_states t' ?st)) with st.2. cbn [fst snd].
  change (foldr (fun x n => pending x.1.2 - pending x.1.1 + n)%Z 0%Z xs) with (chunk_deltas pending xs).
  change (foldr (fun x n => lexical x.1.2 - lexical x.1.1 + n)%Z 0%Z xs) with (chunk_deltas lexical xs).
  pose proof (dk_table _ _ Hdir) as Ht.
  rewrite (pending_states t' _ Ht' eq_refl) by (rewrite ?(tk_pending _ Ht'), ?(tk_lexical _ Ht'), ?(tk_pending _ Ht), ?(tk_lexical _ Ht); apply Htot).
  cbn [obind]. change (with_states (with_states t' ?a) ?b) with (with_states t' b). rewrite with_states_id.
  destruct (existsb_zip (fun c => 0 <? embedded c)%Z (fun c => 0 <? embedded c)%Z (doc_chunks p) (doc_chunks d) ss) as [X1 X2]; [congruence..|].
  fold xs in X1, X2. rewrite X1, X2.
  rewrite <- !embedded_any. fold (has_embedding p) (has_embedding d). set (s1 := set_postings _ _).
  destruct (replace_embedded_ok s1 (ds_documents s) (doc_id d) p d) as (s2 & -> & Es2 & Hemb); [apply Hdir|done|]. cbn [obind].
  unfold advance_generation. assert (Hg2 : ds_generation s2 = ds_generation s) by (by rewrite Es2). rewrite Hg2, checked_add_ok by done. cbn [expect obind].
  set (s3 := set_generation s2 _). pose proof (track_same s3 (doc_id d) (Z.of_nat (length (doc_chunks d))) (Some p)) as (E1 & E2 & E3 & E4 & E5 & E6 & E7 & E8 & E9 & E10).
  rewrite E1, E9. assert (Ht3 : ds_text s3 = None) by (unfold s3; cbn [set_generation ds_text]; by rewrite Es2). rewrite Ht3. cbn [scrub_replaced obind].
  eexists. split; [done|]. assert (Hd3 : ds_documents s3 = ds_documents s) by (unfold s3; cbn [set_generation ds_documents]; by rewrite Es2).
  cbn [set_documents set_text ds_documents ds_generation]. assert (Htab : ds_table s3 = trim_position_sources t') by (unfold s3; cbn [set_generation ds_table]; by rewrite Es2).
  rewrite Hd3, E8. split_and!; [|done|done|].
  2: { cbn [set_documents set_text ds_table]. rewrite E4, Htab. unfold compact. cbn [trim_position_sources st_slot_count st_chunks].
    rewrite (tk_chunks _ Ht'), Htot, <- (tk_chunks _ Ht), Hcount. unfold xs. rewrite chunk_deltas_sum, !chunk_sum_one by congruence. lia. }
  split; cbn [set_documents set_text ds_documents ds_table ds_postings ds_base ds_text]; rewrite ?E2, ?E4, ?E10, ?Htab, ?Hd3; [|unfold s3; cbn [set_generation ds_postings ds_base]; by rewrite Es2..|done].
  split; cbn [set_documents set_text ds_table ds_slots ds_multichunk ds_embedded ds_filters]; rewrite ?E3, ?E4, ?E5, ?E6, ?E7, ?Htab;
    unfold s3; cbn [set_generation ds_slots ds_multichunk ds_embedded ds_filters]; try done.
  - by apply trim_position_ok.
  - apply trim_released.
  - rewrite Es2. eapply linked_replace; [apply Hdir|done|done|congruence|done].
  - intros id. rewrite Es2. cbn [s1 set_embedded set_postings set_table set_filters ds_multichunk]. rewrite (dk_multi _ _ Hdir).
    destruct (decide (id = doc_id d)) as [->|Hne]; [|by rewrite lookup_insert_ne]. rewrite lookup_insert_eq, Hp. naive_solver congruence.
  - by rewrite Es2.
  - intros g. cbn [trim_position_sources st_owners]. rewrite Htot, (dk_totals _ _ Hdir), (docs_total_replace g _ _ p) by done.
    unfold xs. rewrite chunk_deltas_sum by congruence. unfold doc_sum. lia.
  - apply map_Forall_insert_2; [done|apply Hdir].
Qed.

(** ** Removing *)

Lemma remove_chunks_ok (d : Doc) ss i cs t (ps : forms) :
  cs = drop i (doc_chunks d) -> length cs = length ss -> Forall chunk_fits cs ->
  table_ok t -> holds (st_owners t) ss i d -> state_ok (owned (st_owners t)) ps -> within (fun g => total g (st_owners t)) ->
  exists t' ps', remove_chunks t ps (doc_id d) true i (zip cs ss) = Ok (t', ps') /\ table_ok t' /\
    state_ok (owned (st_owners t')) ps' /\ gives (st_owners t) (st_owners t') ss i (fun _ => None) /\
    (forall g, total g (st_owners t') = total g (st_owners t) - chunk_sum g cs)%Z.
Proof.
  revert i cs t ps. induction ss as [|s ss IH]; intros i [|c cs] t ps E L F Ht Hh Hst Hw; try done.
  { exists t, ps. split_and!; [done..|apply gives_nil|]. intros g. simpl. lia. }
  apply drop_cons_lookup in E as [Hc E]. apply Forall_cons in F as [Fc F]. injection L as L.
  apply holds_cons in Hh as (n & -> & Hat & Hns & Hh). apply lookup_lt_Some in Hat as Hlt. cbn [zip zip_with remove_chunks].
  destruct (release_chunk_ok t d i c n Ht Hat Hc) as (t1 & Hrun & Ht1 & Hos & _ & _ & _).
  assert (Htot : forall g, total g (st_owners t1) = (total g (st_owners t) - g c)%Z).
  { intros g. rewrite Hos, (total_insert g _ n (Some (d, i)) _ Hat). rewrite (weight_owner g (d, i) c Hc), weight_none. lia. }
  assert (Hw1 : within (fun g => total g (st_owners t1))).
  { eapply within_le; [|exact Hw]. intros g Hg. cbv beta. rewrite Htot. specialize (Hg c Fc). lia. }
  assert (Hown : owned (st_owners t1) = delete (Z.of_nat n) (owned (st_owners t))) by (rewrite Hos; by apply owned_clear).
  assert (Hold : owned (st_owners t) !! Z.of_nat n = Some (c, entries_of c)).
  { rewrite lookup_owned. unfold slot_chunk. rewrite decide_True by lia. rewrite Nat2Z.id, Hat. simpl. unfold owner_chunk. simpl. by rewrite Hc. }
  assert (Hop : op_ok (owned (st_owners t)) (IRemove (Z.of_nat n) (st_words t))).
  { split; cbn [chunks_step]; [rewrite <- Hown; apply owned_small; [apply Ht1|done]|]. split; [by eauto|by apply table_lengths_ok]. }
  destruct (remove_step_ok threads _ _ _ _ Hst Hop) as (ps1 & Hps & Hst1). cbn [index_step] in Hps. rewrite Hold in Hps. cbn [expect obind fst] in Hps.
  rewrite Hps. cbn [obind]. rewrite Hrun. cbn [obind chunks_step] in *. rewrite <- Hown in Hst1.
  destruct (IH (S i) cs t1 ps1 E L F Ht1) as (t' & ps' & -> & Ht' & Hst' & Hg & Htot'); [rewrite Hos; apply Hh|done|done|].
  exists t', ps'. split_and!; try done.
  - apply gives_cons; [done|done|]. by rewrite <- Hos.
  - intros g. rewrite Htot', Htot. cbn [chunk_sum foldr]. fold (chunk_sum g cs). lia.
Qed.

Lemma dense_compact (t : SlotTable V) : table_ok t -> sparse t = false -> compact t.
Proof.
  intros Ht Hs. pose proof (free_count _ _ (sorted_NoDup _ (tk_free_sorted _ Ht)) (tk_free _ Ht) (tk_owners _ Ht)) as Hf.
  rewrite <- (tk_count _ Ht), <- (tk_chunks _ Ht) in Hf. unfold sparse in Hs. unfold compact.
  apply andb_false_iff in Hs as [Hs|Hs]; apply Z.ltb_ge in Hs; [lia|]. pose proof (Z.mul_div_le (st_slot_count t) 2 ltac:(lia)). lia.
Qed.

(** The lookups past the end are as good as free. *)
Lemma linked_take (os : list (option owner)) (M : docs) S n :
  (forall m, n <= m -> m < length os -> os !! m = Some None) -> linked os M S -> linked (take n os) M S.
Proof.
  intros Hn [H1 H2 H3 H4]. split; [done|done| |].
  - intros id d ss Hd Hs. destruct (H3 id d ss Hd Hs) as [Hl Hi]. split; [done|]. intros i s Hs'. destruct (Hi i s Hs') as [Hp Ho]. split; [done|].
    destruct (decide (Z.to_nat s < n)); [by rewrite lookup_take_lt|]. pose proof (lookup_lt_Some _ _ _ Ho). rewrite Hn in Ho by lia. done.
  - intros m d i Hm. apply lookup_take_Some in Hm as [Hm _]. by apply H4.
Qed.

Lemma removed_set (X : gset (list Z)) (M : docs) id (P : Doc -> Prop) :
  (forall i, i ∈ X <-> exists d, M !! i = Some d /\ P d) ->
  forall i, i ∈ X ∖ {[ id ]} <-> exists d, delete id M !! i = Some d /\ P d.
Proof.
  intros H i. rewrite elem_of_difference, elem_of_singleton, H. setoid_rewrite lookup_delete_Some. naive_solver.
Qed.

(** A removal up to the rebuild. *)
Lemma remove_core (s : Store) id (d : Doc) :
  store_ok s -> ds_documents s !! id = Some d -> within (fun g => docs_total g (ds_documents s)) -> (ds_generation s + 1 < U64)%Z ->
  exists s1, store_ok s1 /\ ds_documents s1 = delete id (ds_documents s) /\ ds_generation s1 = (ds_generation s + 1)%Z /\
    remove_entry s id d true = Ok s1.
Proof.
  intros [Hdir Hst Hbase Htext] Hd Hw Hg. pose proof (ln_ids _ _ _ (dk_linked _ _ Hdir) _ _ Hd) as Hid.
  pose proof (dk_fits _ _ Hdir _ _ Hd) as Hfit. cbv beta in Hfit. unfold remove_entry.
  unfold advance_generation. cbn [set_multichunk set_documents ds_generation]. rewrite checked_add_ok by done. cbn [expect obind].
  set (s0 := set_generation _ _). destruct (track_same s0 id 0 (Some d)) as (E1 & E2 & E3 & E4 & E5 & E6 & E7 & E8 & E9 & E10).
  set (s2 := track_dense_change _ _ _ _) in *.
  cbn [s0 set_generation set_multichunk set_documents ds_documents ds_postings ds_slots ds_table ds_multichunk ds_embedded ds_filters ds_generation ds_text ds_base] in *.
  assert (Hemb : exists s3, (if has_embedding d then if decide (id ∈ ds_embedded s2) then Ok (set_embedded s2 (ds_embedded s2 ∖ {[ id ]})) else Panic else Ok s2) = Ok s3 /\
    s3 = set_embedded s2 (ds_embedded s3) /\ forall i, i ∈ ds_embedded s3 <-> exists d', delete id (ds_documents s) !! i = Some d' /\ has_embedding d' = true).
  { pose proof (removed_set _ _ id _ (dk_embedded _ _ Hdir)) as Hr. rewrite E6. destruct (has_embedding d) eqn:He.
    - rewrite decide_True by (apply (dk_embedded _ _ Hdir); eauto). eexists. split_and!; [done|done|done].
    - exists s2. split_and!; [done|by destruct s2|]. rewrite E6. intros i. rewrite <- Hr, elem_of_difference, elem_of_singleton.
      split; [|by intros [? _]]. intros Hi. split; [done|]. intros ->. apply (dk_embedded _ _ Hdir) in Hi as (d' & Hd' & He'). congruence. }
  destruct Hemb as (s3 & -> & E11 & Hemb). cbn [obind]. rewrite E11. cbn [set_embedded ds_filters]. rewrite E7.
  destruct (remove_filters_ok (ds_filters s) (ds_documents s) d) as (f & -> & Hf); [apply Hdir|by rewrite Hid|]. cbn [obind]. rewrite Hid in Hf.
  cbn [set_filters set_embedded ds_slots]. rewrite E3. destruct (dir_slots s _ _ _ Hdir Hd) as (ss & Hss & Hh & Hl). rewrite Hss. cbn [expect obind].
  rewrite (proj2 (Nat.eqb_eq _ _)) by congruence. cbn [negb set_slots set_filters set_embedded ds_table ds_postings]. rewrite E4, E2.
  destruct (remove_chunks_ok d ss 0 (doc_chunks d) (ds_table s) (ds_postings s)) as (t' & ps' & Hrun & Ht' & Hst' & Hgives & Htot); try done; [apply Hdir| |].
  { eapply within_le; [|exact Hw]. intros g _. cbv beta. by rewrite (dk_totals _ _ Hdir). }
  rewrite <- Hid, Hrun, Hid. cbn [obind]. set (s4 := set_postings _ _).
  destruct (trim_slots_ok t' Ht') as (n & Htt & Hto & Hnone & _ & _ & _).
  assert (Htab : ds_table s4 = trim_slots t') by done. assert (Hdoc : ds_documents s4 = delete id (ds_documents s)) by done.
  exists s4. split_and!; [|done|done|done]. split; rewrite ?Htab, ?Hdoc, ?Hto; [|by rewrite owned_take|by rewrite <- Hbase, <- E10|by rewrite <- Htext, <- E9].
  split; rewrite ?Htab, ?Hto; try done.
  - apply trim_slots_released.
  - apply linked_take; [done|]. change (ds_slots s4) with (delete id (ds_slots s)). eapply linked_remove; [apply Hdir|done|done|done].
  - change (ds_multichunk s4) with (ds_multichunk s2). rewrite E5. apply (removed_set _ _ id _ (dk_multi _ _ Hdir)).
  - intros g. rewrite total_take, Htot, (dk_totals _ _ Hdir), (docs_total_delete g _ _ d) by done. done.
  - by apply map_Forall_delete, Hdir.
Qed.
End Edits.
