(* ===== verification/StoreRuns.v ===== *)
(** * Histories of the store

    Any sequence of batches and removals keeps exactly the documents of the reference map: the
    last document inserted under each id and not removed since.  Sharing a dictionary changes the
    layout of a document's terms and nothing else, so stored documents are compared up to it. *)

From S2P Require Import Prelude Words BitPack Search Positions Terms TextSegment Binary Share TermDict Postings Cursor PostingEdit PostingRuns Lists Indexing Bulk IndexRuns Filters SlotTable Store Capacity StoreSpec StoreEdits.

(** ** The same content *)

Lemma same_content_trans a b c : same_content a b -> same_content b c -> same_content a c.
Proof.
  intros (A1 & A2 & A3 & A4) (B1 & B2 & B3 & B4). split_and!.
  - rewrite B1 at 1. rewrite A1. done.
  - congruence.
  - congruence.
  - by rewrite <- A3.
Qed.

Lemma same_content_fits c c' : same_content c c' -> chunk_fits c -> chunk_fits c'.
Proof.
  intros (E1 & E2 & E3 & E4) [[H1 H2 H3] Hw]. split; [|by rewrite E1]. rewrite E3. by split.
Qed.

(** A weight the term layout does not change. *)
Definition stable (g : StoredChunk -> Z) : Prop := forall c c', same_content c c' -> g c' = g c.

Lemma stable_one : stable one. Proof. by intros c c' _. Qed.
Lemma stable_words : stable c_word_count. Proof. intros c c' (E & _). by rewrite E. Qed.
Lemma stable_keys : stable key_count. Proof. intros c c' (_ & _ & E & _). unfold key_count, chunk_keys. by rewrite E. Qed.
Lemma stable_text : stable key_text. Proof. intros c c' (_ & _ & E & _). unfold key_text, chunk_keys. by rewrite E. Qed.
Lemma stable_nonpositional : stable nonpositional. Proof. intros c c' (_ & E & _). unfold nonpositional. by rewrite E. Qed.
Lemma stable_embedded : stable embedded. Proof. intros c c' (E & _). unfold embedded. by rewrite E. Qed.
Lemma stable_pending : stable pending. Proof. intros c c' (E & _). unfold pending. by rewrite E. Qed.
Lemma stable_lexical : stable lexical. Proof. intros c c' (E & _). unfold lexical. by rewrite E. Qed.
#[export] Hint Resolve stable_one stable_words stable_keys stable_text stable_nonpositional stable_embedded stable_pending stable_lexical : warm.

Lemma within_stable (T T' : sums) : (forall g, stable g -> positive g -> T g <= T' g)%Z -> within T' -> within T.
Proof.
  intros Hle [H1 H2 H3 H4]. pose proof (Hle _ stable_one positive_one). pose proof (Hle _ stable_words positive_words).
  pose proof (Hle _ stable_keys positive_keys). pose proof (Hle _ stable_text positive_text). split; lia.
Qed.

Section Related.
Context {V : Type} `{!EqDecision (StoredDocument V)}.
Abbreviation Doc := (StoredDocument V).
Abbreviation docs := (gmap (list Z) Doc).

Lemma same_document_trans (a b c : Doc) : same_document a b -> same_document b c -> same_document a c.
Proof.
  intros [A1 A2] [B1 B2]. split; [rewrite B1 at 1; rewrite A1; done|]. clear A1 B1. revert B2. generalize (doc_chunks c).
  induction A2 as [|x y a' b' Hxy _ IH]; intros l Hl; inversion Hl as [|? z ? l' Hyz Hl']; subst; constructor; [by eapply same_content_trans|by apply IH].
Qed.

Lemma same_document_id (a b : Doc) : same_document a b -> doc_id b = doc_id a.
Proof. intros [-> _]. done. Qed.

Lemma same_document_fits (a b : Doc) : same_document a b -> doc_fits a -> doc_fits b.
Proof.
  intros [_ H2]. unfold doc_fits. induction H2 as [|c c' cs cs' Hc _ IH]; [done|]. intros [Hf Hfs]%Forall_cons. constructor; [by eapply same_content_fits|by apply IH].
Qed.

Lemma doc_fits_terms (d : Doc) : doc_fits d -> Forall terms_ok (doc_chunks d).
Proof. intros Hf. eapply Forall_impl; [exact Hf|]. intros c [[H1 H2 _] _]. by split. Qed.

Lemma fits_same (d : Doc) : doc_fits d -> same_document d d.
Proof. intros Hf. by apply same_document_refl, doc_fits_terms. Qed.

Lemma doc_sum_same g (a b : Doc) : stable g -> same_document a b -> doc_sum g b = doc_sum g a.
Proof. intros Hg [_ H]. by apply chunk_sum_same. Qed.

Lemma list_sum_same g (a b : list Doc) : stable g -> Forall2 same_document a b -> list_sum g b = list_sum g a.
Proof. intros Hg. induction 1 as [|x y a b Hxy _ IH]; [done|]. simpl. by rewrite (doc_sum_same g x y Hg Hxy), IH. Qed.

(** Stored documents against the reference. *)
Definition related (R M : docs) : Prop := forall id, option_Forall2 same_document (R !! id) (M !! id).

Lemma related_dom R M : related R M -> dom M = dom R.
Proof. intros H. apply set_eq. intros id. rewrite !elem_of_dom. specialize (H id). by destruct H. Qed.

Lemma related_size R M : related R M -> size M = size R.
Proof. intros H. by rewrite <- !size_dom, (related_dom R M H). Qed.

Lemma related_refl M : map_Forall (fun _ d => doc_fits d) M -> related M M.
Proof. intros Hf id. destruct (M !! id) as [d|] eqn:E; constructor. apply fits_same. exact (Hf _ _ E). Qed.

Lemma related_trans A M C : related A M -> related M C -> related A C.
Proof.
  intros H1 H2 id. specialize (H1 id). specialize (H2 id). destruct H1 as [a b H1|]; inversion H2; subst; constructor. by eapply same_document_trans.
Qed.

Lemma related_insert R M d d' : related R M -> same_document d d' -> related (<[doc_id d := d]> R) (<[doc_id d' := d']> M).
Proof.
  intros H Hd id. rewrite (same_document_id _ _ Hd). destruct (decide (id = doc_id d)) as [->|Hne]; [rewrite !lookup_insert_eq; by constructor|].
  rewrite !lookup_insert_ne by done. apply H.
Qed.

Lemma related_delete R M id : related R M -> related (delete id R) (delete id M).
Proof.
  intros H id'. destruct (decide (id' = id)) as [->|Hne]; [rewrite !lookup_delete_eq; constructor|]. rewrite !lookup_delete_ne by done. apply H.
Qed.

Lemma related_put R M ds ds' : related R M -> Forall2 same_document ds ds' -> related (put_docs R ds) (put_docs M ds').
Proof. intros H Hd. revert R M H. induction Hd as [|d d' ds ds' Hdd _ IH]; intros R M H; [done|]. cbn [put_docs foldl]. by apply IH, related_insert. Qed.

Lemma fits_same_all (ds : list Doc) : Forall doc_fits ds -> Forall2 same_document ds ds.
Proof. intros Hf. apply Forall_Forall2_diag. eapply Forall_impl; [exact Hf|]. apply fits_same. Qed.

Lemma docs_total_related g R M : stable g -> related R M -> docs_total g M = docs_total g R.
Proof.
  intros Hg. revert M. induction R as [|id d R Hn IH] using map_ind; intros M H.
  - assert (M = ∅) as ->; [|done]. apply dom_empty_inv_L. by rewrite (related_dom _ _ H), dom_empty_L.
  - pose proof (H id) as Hid. rewrite lookup_insert_eq in Hid. inversion Hid as [? d' Hd E1 E2|]; subst. symmetry in E2.
    rewrite <- (insert_delete_id M id d' E2), !docs_total_insert; [|done|apply lookup_delete_eq].
    rewrite (doc_sum_same g d d' Hg Hd). f_equal. apply IH. rewrite <- (delete_insert_id R id d) by done. by apply related_delete.
Qed.

Lemma put_docs_size (M : docs) ds : size (put_docs M ds) <= size M + length ds.
Proof.
  revert M. induction ds as [|d ds IH]; intros M; simpl; [lia|]. specialize (IH (<[doc_id d := d]> M)). unfold put_docs in *.
  rewrite map_size_insert in IH. destruct (M !! doc_id d); simpl in IH; lia.
Qed.

Lemma put_docs_is_Some (M : docs) ds id : is_Some (M !! id) -> is_Some (put_docs M ds !! id).
Proof.
  revert M. induction ds as [|d ds IH]; intros M Hm; [done|]. cbn [put_docs foldl]. apply IH.
  destruct (decide (id = doc_id d)) as [->|Hne]; [by rewrite lookup_insert_eq|by rewrite lookup_insert_ne].
Qed.

Lemma put_docs_app (M : docs) a b : put_docs M (a ++ b) = put_docs (put_docs M a) b.
Proof. apply foldl_app. Qed.

Lemma put_docs_le (g : StoredChunk -> Z) (M : docs) (ds : list Doc) :
  positive g -> map_Forall (fun _ d => doc_fits d) M -> Forall doc_fits ds -> (docs_total g (put_docs M ds) <= docs_total g M + list_sum g ds)%Z.
Proof.
  intros Hg. revert M. induction ds as [|d ds IH]; intros M Hm Hf; [simpl; lia|]. apply Forall_cons in Hf as [Hd Hf]. cbn [put_docs foldl].
  pose proof (IH (<[doc_id d := d]> M) ltac:(by apply map_Forall_insert_2) Hf) as Hle. unfold put_docs in Hle. simpl.
  destruct (M !! doc_id d) as [p|] eqn:E.
  - rewrite (docs_total_replace g M _ p) in Hle by done. pose proof (chunk_sum_nonneg g _ Hg (Hm _ _ E)). unfold doc_sum in *. lia.
  - rewrite docs_total_insert in Hle by done. lia.
Qed.
End Related.

(** ** Batches *)

Section Batches.
Context {V : Type} {json : Json V} `{!EqDecision (StoredDocument V)}.
Context {D : Type} {dict : TermIndex D} {B : Type} {checkpoint : Checkpoint B}.
Context (threads : nat) (crc32 : list Z -> Z) (cipher : option Aead) (nonce_at : Z -> list Z).
Abbreviation Doc := (StoredDocument V).
Abbreviation docs := (gmap (list Z) Doc).
Abbreviation Store := (DocumentStore V D B).

(** The store a rebuild starts from. *)
Definition empty_at (g : Z) : Store := set_text (set_generation store_default g) None.

Lemma empty_at_ok g : store_ok (empty_at g).
Proof.
  split; [|apply state_default|done|done]. split; try done.
  - apply table_default_ok.
  - intros id. split; [set_solver|]. by intros (d & Hd & _).
  - intros id. split; [set_solver|]. by intros (d & Hd & _).
  - apply filters_ok_default.
Qed.

(** What a rebuild asks of its insertion of distinct documents. *)
Definition rebuilds (insert : Store -> list Doc -> outcome Store) : Prop :=
  forall g ds, all_new ∅ ds -> Forall doc_fits ds -> within (fun w => list_sum w ds) -> (g + Z.of_nat (length ds) < U64)%Z ->
  exists s', insert (empty_at g) ds = Ok s' /\ store_ok s' /\ related (put_docs ∅ ds) (ds_documents s') /\
    ds_generation s' = (g + Z.of_nat (length ds))%Z /\ compact (ds_table s').

Lemma put_docs_perm (l : list (list Z * Doc)) :
  NoDup (map fst l) -> Forall (fun e => doc_id e.2 = e.1) l -> put_docs ∅ (map snd l) = list_to_map l.
Proof.
  intros Hnd Hf. assert (Hgen : forall M : docs, put_docs M (map snd l) = list_to_map l ∪ M).
  { induction l as [|[id d] l IH]; intros M; [cbn; by rewrite (left_id_L ∅ (∪))|]. cbn [map] in Hnd. apply NoDup_cons in Hnd as [Hn Hnd].
    apply Forall_cons in Hf as [Hd Hf]. cbn [map put_docs foldl snd fst] in *. unfold put_docs in IH. rewrite Hd, (IH Hnd Hf).
    change (list_to_map ((id, d) :: l)) with (<[id := d]> (list_to_map l : docs)). rewrite <- insert_union_l, insert_union_r; [done|].
    by apply not_elem_of_list_to_map_1. }
  by rewrite Hgen, (right_id_L ∅ (∪)).
Qed.

Lemma document_list_ok (s : Store) :
  store_ok s -> all_new ∅ (document_list s) /\ Forall doc_fits (document_list s) /\ put_docs ∅ (document_list s) = ds_documents s /\
    (forall g, list_sum g (document_list s) = docs_total g (ds_documents s)) /\ length (document_list s) = size (ds_documents s).
Proof.
  intros Hs. unfold document_list. set (l := merge_sort id_le _).
  assert (Hp : l ≡ₚ map_to_list (ds_documents s)) by apply merge_sort_Permutation.
  assert (Hnd : NoDup (map fst l)) by (rewrite Hp; apply NoDup_fst_map_to_list).
  assert (Hin : forall e, e ∈ l -> ds_documents s !! e.1 = Some e.2).
  { intros [id d] He. rewrite Hp in He. by apply elem_of_map_to_list in He. }
  assert (Hid : Forall (fun e => doc_id e.2 = e.1) l).
  { apply Forall_forall. intros e He. by apply (ln_ids _ _ _ (dk_linked _ _ (sk_dir _ Hs))), Hin. }
  split_and!.
  - split; [|apply Forall_forall; intros; apply lookup_empty]. rewrite map_map. replace (map (fun x => doc_id x.2) l) with (map fst l); [done|].
    apply map_ext_in. intros e He. rewrite Forall_forall in Hid. symmetry. by apply Hid, list_elem_of_In.
  - apply Forall_forall. intros d (e & -> & He)%list_elem_of_fmap. exact (dk_fits _ _ (sk_dir _ Hs) _ _ (Hin e He)).
  - rewrite put_docs_perm by done. rewrite (list_to_map_proper l (map_to_list (ds_documents s))) by done. apply list_to_map_to_list.
  - intros g. unfold docs_total. apply list_sum_perm. by rewrite Hp.
  - by rewrite length_map, Hp, length_map_to_list.
Qed.

Section Rebuild.
Context (insert : Store -> list Doc -> outcome Store) (Hinsert : rebuilds insert).

Lemma remove_ok (s : Store) id (d : Doc) :
  store_ok s -> ds_documents s !! id = Some d -> within (fun g => docs_total g (ds_documents s)) ->
  (ds_generation s + 1 + Z.of_nat (size (ds_documents s)) < U64)%Z ->
  exists s', remove_by insert s id true = Ok (s', Some d) /\ store_ok s' /\ related (delete id (ds_documents s)) (ds_documents s') /\
    (ds_generation s <= ds_generation s' <= ds_generation s + 1 + Z.of_nat (size (ds_documents s)))%Z /\ compact (ds_table s').
Proof.
  intros Hs Hd Hw Hg. destruct (remove_core threads s id d Hs Hd Hw) as (s1 & Hs1 & E1 & E2 & Hrun); [lia|]. unfold remove_by. rewrite Hd, Hrun. cbn [obind].
  assert (Hle : size (delete id (ds_documents s)) <= size (ds_documents s)) by (rewrite map_size_delete, Hd; simpl; lia).
  destruct (sparse (ds_table s1)) eqn:Hsp; cbn [obind].
  - destruct (document_list_ok s1 Hs1) as (L1 & L2 & L3 & L4 & L5). rewrite E1 in *.
    unfold rebuild_from. rewrite (sk_text _ Hs1). fold (empty_at (ds_generation s1)).
    destruct (Hinsert (ds_generation s1) (document_list s1) L1 L2) as (s' & -> & Hs' & Hr & Hgen & Hcp).
    + eapply within_le; [|exact Hw]. intros g Hpos. cbv beta. rewrite L4, (docs_total_delete g _ _ d) by done.
      pose proof (chunk_sum_nonneg g _ Hpos (dk_fits _ _ (sk_dir _ Hs) _ _ Hd)). unfold doc_sum. lia.
    + rewrite E2, L5. lia.
    + cbn [obind]. exists s'. rewrite L3 in Hr. split_and!; [done|done|done|lia|lia|done].
  - exists s1. rewrite E1. split_and!; [done|done| |lia|lia|by apply dense_compact; [apply Hs1|]]. apply related_refl. rewrite <- E1. apply Hs1.
Qed.

Lemma replace_ok (s : Store) (d p : Doc) :
  store_ok s -> ds_documents s !! doc_id d = Some p -> doc_fits d ->
  within (fun g => docs_total g (ds_documents s) + doc_sum g d)%Z ->
  (ds_generation s + 2 + Z.of_nat (size (ds_documents s)) < U64)%Z ->
  exists s', replace_by threads insert s d = Ok s' /\ store_ok s' /\ related (<[doc_id d := d]> (ds_documents s)) (ds_documents s') /\
    (ds_generation s <= ds_generation s' <= ds_generation s + 2 + Z.of_nat (size (ds_documents s)))%Z /\
    (compact (ds_table s) -> compact (ds_table s')).
Proof.
  intros Hs Hp Hfit Hw Hg. pose proof (dk_fits _ _ (sk_dir _ Hs)) as Hall. unfold replace_by. rewrite Hp.
  destruct (Nat.eqb_spec (length (doc_chunks p)) (length (doc_chunks d))) as [Hl|Hl].
  - destruct (replace_shared_ok threads s p d Hs Hp Hl Hfit Hw) as (s' & -> & Hs' & E1 & E2 & Hcp); [lia|]. exists s'. rewrite E1.
    split_and!; [done|done|by apply related_refl, map_Forall_insert_2|lia|lia|done].
  - destruct (remove_ok s (doc_id d) p Hs Hp) as (s1 & -> & Hs1 & Hr & Hg1 & Hcp1); [|lia|].
    { eapply within_le; [|exact Hw]. intros g Hpos. cbv beta. pose proof (chunk_sum_nonneg g _ Hpos Hfit). unfold doc_sum. lia. }
    cbn [obind]. rewrite (sk_text _ Hs1). cbn [scrub_replaced obind].
    assert (Es : set_text s1 None = s1) by (pose proof (sk_text _ Hs1); destruct s1; simpl in *; by subst). rewrite Es.
    pose proof (Hr (doc_id d)) as Hn. rewrite lookup_delete_eq in Hn. inversion Hn as [|E]; subst. symmetry in E.
    destruct (install_new_ok threads s1 [d] Hs1) as (s2 & -> & Hs2 & E1 & E2 & Hcp2).
    + split; [cbn [map]; apply NoDup_singleton|]. by repeat constructor.
    + by repeat constructor.
    + eapply within_stable; [|exact Hw]. intros g Hst Hpos. cbv beta. rewrite (docs_total_related g _ _ Hst Hr), (docs_total_delete g _ _ p) by done.
      pose proof (chunk_sum_nonneg g _ Hpos (Hall _ _ Hp)). unfold doc_sum in *. simpl. unfold doc_sum. lia.
    + simpl. lia.
    + exists s2. rewrite E1. cbn [put_docs foldl]. split_and!; [done|done| |simpl in E2; lia|simpl in E2; lia|by auto].
      rewrite <- insert_delete_eq. apply related_insert; [done|by apply fits_same].
Qed.

(** The grouping loop on the documents [ds]; [N] bounds the documents stored on the way. *)
Definition loop_ok (ds : list Doc) (N : nat) : Prop :=
  forall (s : Store) (R : docs) (group : list Doc) (grouped : gset (list Z)),
  store_ok s -> related R (ds_documents s) -> all_new (ds_documents s) group -> (forall d, d ∈ group -> doc_id d ∈ grouped) ->
  Forall doc_fits group -> Forall doc_fits ds ->
  within (fun g => docs_total g (ds_documents s) + list_sum g group + list_sum g ds)%Z ->
  size (ds_documents s) + length group + length ds <= N ->
  (ds_generation s + Z.of_nat (length group) + Z.of_nat (length ds * (N + 2)) < U64)%Z ->
  exists s', group_loop threads insert s ds group grouped = Ok s' /\ store_ok s' /\
    related (put_docs R (group ++ ds)) (ds_documents s') /\
    (ds_generation s <= ds_generation s' <= ds_generation s + Z.of_nat (length group) + Z.of_nat (length ds * (N + 2)))%Z /\
    (compact (ds_table s) -> compact (ds_table s')).

(** The group goes in. *)
Lemma flush_group (s : Store) (R : docs) (group : list Doc) :
  store_ok s -> related R (ds_documents s) -> all_new (ds_documents s) group -> Forall doc_fits group ->
  within (fun g => docs_total g (ds_documents s) + list_sum g group)%Z -> (ds_generation s + Z.of_nat (length group) < U64)%Z ->
  exists s1, install_new threads s group = Ok s1 /\ store_ok s1 /\ related (put_docs R group) (ds_documents s1) /\
    ds_documents s1 = put_docs (ds_documents s) group /\ ds_generation s1 = (ds_generation s + Z.of_nat (length group))%Z /\
    (compact (ds_table s) -> compact (ds_table s1)).
Proof.
  intros Hs Hr Hnew Hfg Hw Hg. destruct (install_new_ok threads s group Hs Hnew Hfg Hw Hg) as (s1 & Hrun & Hs1 & E1 & E2 & Hcp).
  exists s1. split_and!; [done|done| |done|done|done]. rewrite E1. apply related_put; [done|by apply fits_same_all].
Qed.

(** A stored document is replaced once the group is in. *)
Lemma replace_then (d : Doc) (ds : list Doc) (N : nat) (s1 : Store) (R1 : docs) (grp : gset (list Z)) :
  loop_ok ds N -> doc_fits d -> Forall doc_fits ds -> store_ok s1 -> related R1 (ds_documents s1) -> is_Some (ds_documents s1 !! doc_id d) ->
  within (fun g => docs_total g (ds_documents s1) + list_sum g (d :: ds))%Z -> size (ds_documents s1) + length (d :: ds) <= N ->
  (ds_generation s1 + Z.of_nat (length (d :: ds) * (N + 2)) < U64)%Z ->
  exists s', (let* s := replace_by threads insert s1 d in group_loop threads insert s ds [] grp) = Ok s' /\ store_ok s' /\
    related (put_docs R1 (d :: ds)) (ds_documents s') /\
    (ds_generation s1 <= ds_generation s' <= ds_generation s1 + Z.of_nat (length (d :: ds) * (N + 2)))%Z /\
    (compact (ds_table s1) -> compact (ds_table s')).
Proof.
  intros IH Hd Hfd Hs1 Hr1 [p Hp] Hw1 HN1 Hg1. pose proof (dk_fits _ _ (sk_dir _ Hs1)) as Hall. cbn [length] in HN1, Hg1.
  destruct (replace_ok s1 d p Hs1 Hp Hd) as (s2 & -> & Hs2 & Hr2 & Hg2 & Hcp2); [|lia|].
  { eapply within_le; [|exact Hw1]. intros g Hpos. cbv beta. pose proof (list_sum_nonneg g ds Hpos Hfd). simpl. lia. }
  cbn [obind]. pose proof (related_size _ _ Hr2) as Hsz. rewrite map_size_insert, Hp in Hsz. cbn in Hsz. unfold Datatypes.id, id in Hsz.
  destruct (IH s2 (<[doc_id d := d]> R1) [] grp Hs2) as (s' & -> & Hs' & Hr' & Hg' & Hcp'); try done.
  - eapply related_trans; [|exact Hr2]. apply related_insert; [done|by apply fits_same].
  - by split; constructor.
  - by intros d' Hd'%elem_of_nil.
  - eapply within_stable; [|exact Hw1]. intros g Hst Hpos. cbv beta. rewrite (docs_total_related g _ _ Hst Hr2), (docs_total_replace g _ _ p) by done.
    pose proof (chunk_sum_nonneg g _ Hpos (Hall _ _ Hp)). unfold doc_sum in *. simpl. unfold doc_sum. lia.
  - simpl. lia.
  - simpl. lia.
  - exists s'. split_and!; [done|done|done|lia| |by auto]. cbn [length] in *. lia.
Qed.

Lemma group_loop_ok (ds : list Doc) (N : nat) : loop_ok ds N.
Proof.
  induction ds as [|d ds IH]; intros s R group grouped Hs Hr Hnew Hgr Hfg Hfd Hw HN Hg.
  { cbn [group_loop]. simpl in Hg, Hw. destruct (flush_group s R group Hs Hr Hnew Hfg) as (s' & Hrun & Hs' & Hr' & _ & E & Hcp); [|lia|].
    - eapply within_le; [|exact Hw]. intros g _. cbv beta. lia.
    - exists s'. rewrite app_nil_r. split_and!; [done|done|done|lia|simpl; lia|done]. }
  apply Forall_cons in Hfd as [Hd Hfd]. cbn [group_loop].
  destruct (flush_group s R group Hs Hr Hnew Hfg) as (s1 & Hrun1 & Hs1 & Hr1 & E1 & E2 & Hcp1); [|simpl in Hg; lia|].
  { eapply within_le; [|exact Hw]. intros g Hpos. cbv beta. pose proof (list_sum_nonneg g (d :: ds) Hpos ltac:(by constructor)). lia. }
  assert (Hw1 : within (fun g => docs_total g (ds_documents s1) + list_sum g (d :: ds))%Z).
  { eapply within_le; [|exact Hw]. intros g _. cbv beta. rewrite E1, docs_total_put by done. lia. }
  assert (HN1 : size (ds_documents s1) + length (d :: ds) <= N) by (rewrite E1; pose proof (put_docs_size (ds_documents s) group); lia).
  rewrite put_docs_app. case_decide as Hdup.
  - rewrite Hrun1. cbn [obind]. case_decide as Hst.
    + destruct (replace_then d ds N s1 (put_docs R group) {[ doc_id d ]} IH Hd Hfd Hs1 Hr1 Hst Hw1 HN1 ltac:(lia)) as (s' & Hrun & Hs' & Hr' & Hg' & Hcp').
      cbn [install_new obind]. rewrite Hrun. exists s'. split_and!; [done|done|done|lia|lia|by auto].
    + destruct (IH s1 (put_docs R group) [d] {[ doc_id d ]} Hs1 Hr1) as (s' & Hrun & Hs' & Hr' & Hg' & Hcp').
      * split; [cbn [map]; apply NoDup_singleton|]. apply Forall_singleton. by apply eq_None_not_Some.
      * intros d' ->%list_elem_of_singleton. set_solver.
      * by apply Forall_singleton.
      * done.
      * eapply within_le; [|exact Hw1]. intros g _. cbv beta. simpl. lia.
      * simpl in *. lia.
      * simpl in *. lia.
      * change ([] ++ [d]) with [d]. rewrite Hrun. exists s'. simpl in *. split_and!; [done|done|done|lia|lia|by auto].
  - cbn [obind]. case_decide as Hst.
    + rewrite Hrun1. cbn [obind].
      assert (Hst1 : is_Some (ds_documents s1 !! doc_id d)) by (rewrite E1; by apply put_docs_is_Some).
      destruct (replace_then d ds N s1 (put_docs R group) ({[ doc_id d ]} ∪ grouped) IH Hd Hfd Hs1 Hr1 Hst1 Hw1 HN1 ltac:(lia)) as (s' & Hrun & Hs' & Hr' & Hg' & Hcp').
      rewrite Hrun. exists s'. split_and!; [done|done|done|lia|lia|by auto].
    + destruct (IH s R (group ++ [d]) ({[ doc_id d ]} ∪ grouped) Hs Hr) as (s' & Hrun & Hs' & Hr' & Hg' & Hcp').
      * destruct Hnew as [Hnd Hf]. split.
        -- rewrite map_app. apply NoDup_app. split_and!; [done| |apply NoDup_singleton]. intros i (d' & -> & Hd')%list_elem_of_fmap Hi.
           apply list_elem_of_singleton in Hi. apply Hdup. rewrite <- Hi. by apply Hgr.
        -- apply Forall_app. split; [done|]. apply Forall_singleton. by apply eq_None_not_Some.
      * intros d' [Hd'| ->%list_elem_of_singleton]%elem_of_app; [specialize (Hgr d' Hd')|]; set_solver.
      * apply Forall_app. split; [done|]. by apply Forall_singleton.
      * done.
      * eapply within_le; [|exact Hw]. intros g _. cbv beta. rewrite list_sum_app. simpl. lia.
      * rewrite length_app. simpl in *. lia.
      * rewrite length_app. simpl in *. lia.
      * rewrite Hrun. rewrite <- app_assoc, put_docs_app in Hr'. rewrite length_app in Hg'. exists s'. simpl in *. split_and!; [done|done|done|lia|lia|by auto].
Qed.
End Rebuild.

(** ** Sharing *)

Lemma doc_keys_sums (ds : list Doc) :
  Z.of_nat (length (doc_keys ds)) = list_sum key_count ds /\ Z.of_nat (length (concat (doc_keys ds))) = list_sum key_text ds.
Proof.
  rewrite !list_sum_concat. unfold doc_keys. induction (concat (map doc_chunks ds)) as [|c cs [IH1 IH2]]; [done|].
  cbn [map concat chunk_sum foldr]. rewrite concat_app, !length_app. unfold chunk_sum in *. unfold key_count at 1, key_text at 1. lia.
Qed.

Lemma share_group_ok (ds : list Doc) :
  Forall doc_fits ds -> within (fun g => list_sum g ds) -> exists ds', share_group ds = Ok ds' /\ Forall2 same_document ds ds'.
Proof.
  intros Hf [_ _ W3 W4]. unfold share_group. destruct (forallb _ ds); [|exists ds; split; [done|by apply fits_same_all]].
  destruct (doc_keys_sums ds) as [K1 K2]. apply share_documents_ok.
  - apply Forall_concat, Forall_fmap. eapply Forall_impl; [exact Hf|]. intros d Hd. by apply doc_fits_terms.
  - split; unfold NONE in *; lia.
Qed.

Lemma share_groups_ok (gs : list (list Doc)) :
  Forall (Forall doc_fits) gs -> within (fun g => list_sum g (concat gs)) ->
  exists gs', omap_list share_group gs = Ok gs' /\ Forall2 same_document (concat gs) (concat gs').
Proof.
  induction 1 as [|g gs Hg Hgs IH]; intros Hw; [by exists []|]. cbn [concat] in Hw.
  assert (Hrest : Forall doc_fits (concat gs)) by (by apply Forall_concat).
  destruct (share_group_ok g Hg) as (g' & Hrun & Hsame).
  { eapply within_le; [|exact Hw]. intros w Hpos. cbv beta. rewrite list_sum_app. pose proof (list_sum_nonneg w _ Hpos Hrest). lia. }
  destruct IH as (gs' & Hruns & Hsames).
  { eapply within_le; [|exact Hw]. intros w Hpos. cbv beta. rewrite list_sum_app. pose proof (list_sum_nonneg w _ Hpos Hg). lia. }
  exists (g' :: gs'). cbn [omap_list concat]. rewrite Hrun. cbn [obind]. rewrite Hruns. split; [done|]. by apply Forall2_app.
Qed.

Lemma prepare_each_ok (s : Store) (ds : list Doc) :
  ds_base s = None -> ds_text s = None -> prepare_each crc32 cipher nonce_at s ds = Ok (s, ds).
Proof.
  intros Hb Ht. assert (Es : set_text s None = s) by (destruct s; simpl in *; by subst).
  induction ds as [|d ds IH]; [done|]. cbn [prepare_each]. unfold kill_base. rewrite Hb. cbn [obind]. rewrite Ht. cbn [stripped obind].
  by rewrite Es, IH.
Qed.

Abbreviation insert_by_ := (insert_by threads crc32 cipher nonce_at).

(** The documents of a batch after sharing. *)
Lemma insert_by_shared insert (s : Store) (ds : list Doc) :
  store_ok s -> Forall doc_fits ds -> within (fun g => list_sum g ds) ->
  exists ds', Forall2 same_document ds ds' /\ insert_by_ insert s ds = group_loop threads insert s ds' [] ∅.
Proof.
  intros Hs Hf Hw. unfold insert_by. assert (Hcat : concat (chunks_of (length ds) MAX_BATCH_ITEMS ds) = ds) by (apply chunks_of_concat; [apply Nat.lt_0_succ|done]).
  destruct (share_groups_ok (chunks_of (length ds) MAX_BATCH_ITEMS ds)) as (gs & -> & Hsame).
  - apply Forall_concat. by rewrite Hcat.
  - by rewrite Hcat.
  - rewrite Hcat in Hsame. cbn [obind]. rewrite prepare_each_ok by apply Hs. cbn [obind]. eauto.
Qed.

(** New documents never reach the replacement, whatever it would do. *)
Lemma group_loop_fresh (insert : Store -> list Doc -> outcome Store) (s : Store) (ds group : list Doc) (grouped : gset (list Z)) :
  all_new (ds_documents s) (group ++ ds) -> (forall id, id ∈ grouped -> id ∈ map doc_id group) ->
  group_loop threads insert s ds group grouped = install_new threads s (group ++ ds).
Proof.
  revert group grouped. induction ds as [|d ds IH]; intros group grouped Hn Hg; [by rewrite app_nil_r|]. cbn [group_loop].
  pose proof Hn as [Hnd Hf]. rewrite map_app in Hnd. apply NoDup_app in Hnd as (_ & Hdis & _). apply Forall_app in Hf as [_ Hf]. apply Forall_cons in Hf as [Hd _].
  rewrite decide_False by (intros Hin; apply (Hdis (doc_id d)); [by apply Hg|left]). cbn [obind].
  rewrite decide_False by (rewrite Hd; by intros [? ?]). rewrite IH; [by rewrite <- app_assoc|by rewrite <- app_assoc|].
  intros id. rewrite elem_of_union, elem_of_singleton, map_app, elem_of_app. intros [->|Hin]; [right; left|left; by apply Hg].
Qed.

Lemma same_documents_ids (ds ds' : list Doc) : Forall2 same_document ds ds' -> map doc_id ds' = map doc_id ds.
Proof. induction 1 as [|d d' ds ds' Hd _ IH]; [done|]. simpl. by rewrite (same_document_id _ _ Hd), IH. Qed.

Lemma same_documents_fit (ds ds' : list Doc) : Forall2 same_document ds ds' -> Forall doc_fits ds -> Forall doc_fits ds'.
Proof. induction 1 as [|d d' ds ds' Hd _ IH]; [done|]. intros [Hf Hfs]%Forall_cons. constructor; [by eapply same_document_fits|by apply IH]. Qed.

(** One level of [insert_batch] is enough for a rebuild. *)
Lemma rebuilds_at n : rebuilds (insert_batch_at threads crc32 cipher nonce_at (S n)).
Proof.
  intros g ds Hn Hf Hw Hg. cbn [insert_batch_at]. set (ins := insert_batch_at threads crc32 cipher nonce_at n).
  destruct (insert_by_shared ins (empty_at g) ds (empty_at_ok g) Hf Hw) as (ds' & Hsame & ->).
  pose proof (Forall2_length _ _ _ Hsame) as Hlen.
  assert (Hn' : all_new ∅ ds') by (split; [rewrite (same_documents_ids _ _ Hsame); apply Hn|apply Forall_forall; intros; apply lookup_empty]).
  rewrite group_loop_fresh; [|done|set_solver]. cbn [app].
  destruct (install_new_ok threads (empty_at g) ds' (empty_at_ok g) Hn') as (s' & -> & Hs' & E1 & E2 & Hcp).
  - by eapply same_documents_fit.
  - eapply within_stable; [|exact Hw]. intros w Hst _. cbv beta. rewrite (list_sum_same w _ _ Hst Hsame). change (docs_total w (ds_documents (empty_at g))) with 0%Z. lia.
  - change (ds_generation (empty_at g)) with g. lia.
  - exists s'. rewrite E1, E2. split_and!; [done|done|apply related_put; [apply related_refl, map_Forall_empty|done]| |by apply Hcp]. change (ds_generation (empty_at g)) with g. lia.
Qed.

Definition batch_bill (n m : nat) : Z := Z.of_nat (m * (n + m + 2)).

Lemma store_totals (s : Store) g : store_ok s -> positive g -> (0 <= docs_total g (ds_documents s))%Z.
Proof.
  intros Hs Hg. apply list_sum_nonneg; [done|]. apply Forall_forall. intros d ([id d'] & -> & Hin)%list_elem_of_fmap.
  apply elem_of_map_to_list in Hin. exact (dk_fits _ _ (sk_dir _ Hs) _ _ Hin).
Qed.

(** The prepared documents of a batch on top of what is stored. *)
Lemma loop_start (n : nat) (s : Store) (ds : list Doc) :
  store_ok s -> Forall doc_fits ds -> within (fun g => docs_total g (ds_documents s) + list_sum g ds)%Z ->
  (ds_generation s + batch_bill (size (ds_documents s)) (length ds) < U64)%Z ->
  exists s', group_loop threads (insert_batch_at threads crc32 cipher nonce_at (S n)) s ds [] ∅ = Ok s' /\ store_ok s' /\
    related (put_docs (ds_documents s) ds) (ds_documents s') /\
    (ds_generation s <= ds_generation s' <= ds_generation s + batch_bill (size (ds_documents s)) (length ds))%Z /\
    (compact (ds_table s) -> compact (ds_table s')).
Proof.
  intros Hs Hf Hw Hg. unfold batch_bill in *.
  destruct (group_loop_ok _ (rebuilds_at n) ds (size (ds_documents s) + length ds) s (ds_documents s) [] ∅ Hs (related_refl _ (dk_fits _ _ (sk_dir _ Hs)))) as (s' & -> & Hs' & Hr' & Hg' & Hcp).
  - by split; constructor.
  - by intros d Hd%elem_of_nil.
  - constructor.
  - done.
  - eapply within_le; [|exact Hw]. intros g _. cbv beta. simpl. lia.
  - simpl. lia.
  - simpl. lia.
  - simpl in Hg'. exists s'. split_and!; [done|done|done|lia|lia|done].
Qed.

(** A batch on top of what is stored. *)
Lemma insert_batch_ok (n : nat) (s : Store) (R : docs) (ds : list Doc) :
  store_ok s -> related R (ds_documents s) -> Forall doc_fits ds -> within (fun g => docs_total g R + list_sum g ds)%Z ->
  (ds_generation s + batch_bill (size R) (length ds) < U64)%Z ->
  exists s', insert_batch_at threads crc32 cipher nonce_at (S (S n)) s ds = Ok s' /\ store_ok s' /\ related (put_docs R ds) (ds_documents s') /\
    (ds_generation s <= ds_generation s' <= ds_generation s + batch_bill (size R) (length ds))%Z /\
    (compact (ds_table s) -> compact (ds_table s')).
Proof.
  intros Hs Hr Hf Hw Hg.
  change (insert_batch_at threads crc32 cipher nonce_at (S (S n))) with (insert_by_ (insert_batch_at threads crc32 cipher nonce_at (S n))).
  destruct (insert_by_shared (insert_batch_at threads crc32 cipher nonce_at (S n)) s ds Hs Hf) as (ds' & Hsame & ->).
  { eapply within_stable; [|exact Hw]. intros g Hst Hg'. cbv beta. rewrite <- (docs_total_related g _ _ Hst Hr). pose proof (store_totals s g Hs Hg'). lia. }
  pose proof (Forall2_length _ _ _ Hsame) as Hlen. rewrite <- (related_size _ _ Hr), Hlen in Hg |- *.
  destruct (loop_start n s ds' Hs) as (s' & -> & Hs' & Hr' & Hg' & Hcp).
  - by eapply same_documents_fit.
  - eapply within_stable; [|exact Hw]. intros g Hst _. cbv beta. by rewrite (docs_total_related g _ _ Hst Hr), (list_sum_same g _ _ Hst Hsame).
  - done.
  - exists s'. split_and!; [done|done| |lia|lia|done]. eapply related_trans; [|exact Hr']. by apply related_put.
Qed.
End Batches.
