(* ===== verification/StoreHistory.v ===== *)
(** * What the store promises

    The theorems of the store over histories of batches and removals: the documents it holds, the
    documents removals return, the postings it answers with, its counters and its candidates. *)

From S2P Require Import Prelude Words BitPack Search Positions Terms TextSegment Binary Share TermDict Postings Cursor PostingEdit PostingRuns Lists Indexing Bulk IndexRuns Filters SlotTable Store Overlay Capacity StoreSpec StoreEdits StoreRuns.

Section History.
Context {V : Type} {json : Json V} `{!EqDecision (StoredDocument V)}.
Context {D : Type} {dict : TermIndex D} {B : Type} {checkpoint : Checkpoint B}.
Context (threads : nat) (crc32 : list Z -> Z) (cipher : option Aead) (nonce_at : Z -> list Z).
Abbreviation Doc := (StoredDocument V).
Abbreviation docs := (gmap (list Z) Doc).
Abbreviation Store := (DocumentStore V D B).

Inductive store_op : Type :=
| SInsert (ds : list Doc)
| SRemove (id : list Z).

(** The store and the documents the removals returned, the last first. *)
Definition store_step (s : Store * list (option Doc)) (o : store_op) : outcome (Store * list (option Doc)) :=
  match o with
  | SInsert ds => let* s' := insert_batch threads crc32 cipher nonce_at s.1 ds in Ok (s', s.2)
  | SRemove id => let* (s', d) := store_remove threads crc32 cipher nonce_at s.1 id in Ok (s', d :: s.2)
  end.

Fixpoint store_steps (s : Store * list (option Doc)) (os : list store_op) : outcome (Store * list (option Doc)) :=
  match os with [] => Ok s | o :: rest => let* s := store_step s o in store_steps s rest end.

(** The reference: the last document of each id. *)
Definition ref_step (r : docs * list (option Doc)) (o : store_op) : docs * list (option Doc) :=
  match o with
  | SInsert ds => (put_docs r.1 ds, r.2)
  | SRemove id => (delete id r.1, r.1 !! id :: r.2)
  end.

Definition reference (os : list store_op) : docs * list (option Doc) := foldl ref_step (∅, []) os.

(** Generation steps an operation may take. *)
Definition op_bill (R : docs) (o : store_op) : Z :=
  match o with SInsert ds => batch_bill (size R) (length ds) | SRemove _ => 1 + Z.of_nat (size R) end.

(** Documents that fit, room for them, and generations left. *)
Definition store_op_ok (R : docs) (g : Z) (o : store_op) : Prop :=
  (g + op_bill R o < U64)%Z /\
  match o with
  | SInsert ds => Forall doc_fits ds /\ within (fun w => docs_total w R + list_sum w ds)%Z
  | SRemove _ => True
  end.

Fixpoint store_ops_ok (R : docs) (g : Z) (os : list store_op) : Prop :=
  match os with
  | [] => True
  | o :: rest => store_op_ok R g o /\ store_ops_ok (ref_step (R, []) o).1 (g + op_bill R o) rest
  end.

(** The store against the reference. *)
Record matches (s : Store * list (option Doc)) (r : docs * list (option Doc)) (g : Z) : Prop := {
  ma_ok : store_ok s.1;
  ma_documents : related r.1 (ds_documents s.1);
  ma_fits : map_Forall (fun _ d => doc_fits d) r.1;
  ma_within : within (fun w => docs_total w r.1);
  ma_returned : Forall2 (option_Forall2 same_document) r.2 s.2;
  ma_generation : (ds_generation s.1 <= g)%Z;
  ma_compact : compact (ds_table s.1) }.

Lemma put_docs_fits (M : docs) ds :
  map_Forall (fun _ d => doc_fits d) M -> Forall doc_fits ds -> map_Forall (fun _ d => doc_fits d) (put_docs M ds).
Proof.
  intros Hm Hf. revert M Hm. induction Hf as [|d ds Hd _ IH]; intros M Hm; [done|]. cbn [put_docs foldl]. apply IH. by apply map_Forall_insert_2.
Qed.

Lemma store_step_ok s r g o :
  matches s r g -> store_op_ok r.1 g o -> exists s', store_step s o = Ok s' /\ matches s' (ref_step r o) (g + op_bill r.1 o).
Proof.
  intros [H1 H2 H3 H4 H5 H6 H7] [Hg Ho]. pose proof (related_size _ _ H2) as Hsz. destruct s as [s outs], r as [R refs]. cbn [fst snd] in *.
  destruct o as [ds|id]; cbn [store_step ref_step op_bill fst snd] in *.
  - destruct Ho as [Hf Hw]. destruct (insert_batch_ok threads crc32 cipher nonce_at 0 s R ds H1 H2 Hf Hw) as (s' & Hrun & Hs' & Hr' & Hg' & Hcp); [lia|].
    unfold insert_batch. rewrite Hrun. cbn [obind]. eexists. split; [done|]. split; cbn [fst snd]; try done; [by apply put_docs_fits| |lia|by apply Hcp].
    eapply within_le; [|exact Hw]. intros w Hpos. cbv beta. by apply put_docs_le.
  - unfold store_remove, remove_with. pose proof (H2 id) as Hid. inversion Hid as [d d' Hdd E1 E2|E1 E2]; symmetry in E1, E2.
    + destruct (remove_ok threads _ (rebuilds_at threads crc32 cipher nonce_at 0) s id d' H1 E2) as (s' & -> & Hs' & Hr' & Hg' & Hcp).
      * eapply within_stable; [|exact H4]. intros w Hst _. cbv beta. by rewrite (docs_total_related w _ _ Hst H2).
      * lia.
      * cbn [obind]. eexists. split; [done|]. split; cbn [fst snd]; try done.
        -- eapply related_trans; [|exact Hr']. by apply related_delete.
        -- by apply map_Forall_delete.
        -- eapply within_le; [|exact H4]. intros w Hpos. cbv beta. rewrite (docs_total_delete w _ _ d) by done.
           pose proof (chunk_sum_nonneg w _ Hpos (H3 _ _ E1)). unfold doc_sum. lia.
        -- constructor; [by constructor|done].
        -- lia.
    + unfold remove_by. rewrite E2. unfold kill_base. rewrite (sk_base _ H1). cbn [obind]. rewrite delete_id by done.
      eexists. split; [done|]. split; cbn [fst snd]; try done; [|lia]. constructor; [constructor|done].
Qed.

Lemma ref_step_fst (r : docs * list (option Doc)) o : (ref_step r o).1 = (ref_step (r.1, []) o).1.
Proof. by destruct o. Qed.

Lemma store_steps_ok os s r g :
  matches s r g -> store_ops_ok r.1 g os ->
  exists s' g', store_steps s os = Ok s' /\ matches s' (foldl ref_step r os) g'.
Proof.
  revert s r g. induction os as [|o os IH]; intros s r g Hm Ho; [by exists s, g|]. destruct Ho as [Ho Hos]. cbn [store_steps foldl].
  destruct (store_step_ok s r g o Hm Ho) as (s1 & -> & Hm1). cbn [obind]. rewrite <- ref_step_fst in Hos. by eapply IH.
Qed.

(** The empty store, with [opened]'s generation. *)
Definition opened (g : Z) : Store * list (option Doc) := (set_generation store_default g, []).

Lemma opened_matches g : matches (opened g) (∅, []) g.
Proof.
  split; [apply (empty_at_ok g)|apply related_refl, map_Forall_empty|apply map_Forall_empty|by split|constructor|done|by vm_compute].
Qed.

(** ** Consequences *)

Lemma same_chunk (d d' : Doc) i c' : same_document d d' -> doc_chunks d' !! i = Some c' -> exists c, doc_chunks d !! i = Some c /\ same_content c c'.
Proof. intros [_ H] Hc. destruct (Forall2_lookup_r _ _ _ _ _ H Hc) as (c & Hc' & Hs). eauto. Qed.

Lemma same_chunk_l (d d' : Doc) i c : same_document d d' -> doc_chunks d !! i = Some c -> exists c', doc_chunks d' !! i = Some c' /\ same_content c c'.
Proof. intros [_ H] Hc. destruct (Forall2_lookup_l _ _ _ _ _ H Hc) as (c' & Hc' & Hs). eauto. Qed.

(** A posting is a term of a chunk of a document, at the chunk's slot. *)
Definition has_posting (R : docs) (S : gmap (list Z) (list Z)) (f : bool) (t : list Z) (k fr : Z) : Prop :=
  exists id d ss i c, R !! id = Some d /\ S !! id = Some ss /\ ss !! i = Some k /\ doc_chunks d !! i = Some c /\
    c_stemmed c = f /\ (t, fr) ∈ entries_of c.

Lemma look_posting s r g f t k fr :
  matches s r g -> (exists o, look (views (owned (st_owners (ds_table s.1)))) f t k = Some (fr, o)) <-> has_posting r.1 (ds_slots s.1) f t k fr.
Proof.
  intros [[Hdir _ _ _] Hrel _ _ _ _ _]. pose proof (dk_linked _ _ Hdir) as [L1 L2 L3 L4]. pose proof (dk_table _ _ Hdir) as Ht. unfold look, views. split.
  - intros (o & Hl). rewrite lookup_fmap in Hl. destruct (owned _ !! k) as [[c' e]|] eqn:E; [|done]. simpl in Hl.
    destruct (eqb (c_stemmed c') f) eqn:Ef; [|done]. apply eqb_prop in Ef.
    rewrite lookup_owned in E. apply fmap_Some in E as (c0 & Hc & [= -> ->]). apply slot_chunk_Some in Hc as (Hpos & [d' i] & Ho & Hc).
    destruct (owner_fits _ _ _ Ht Ho) as (c1 & Hc1 & Hfit & _). rewrite Hc in Hc1. injection Hc1 as <-.
    apply (column_Some _ _ t _ Hfit) in Hl as (j & Hj & _). cbn [fst] in Hj. destruct (L4 _ _ _ Ho) as (Hd & ss & Hss & Hi).
    specialize (Hrel (doc_id d')). rewrite Hd in Hrel. inversion Hrel as [d d2 Hdd E1 E2|]; subst. destruct (same_chunk _ _ _ _ Hdd Hc) as (c & Hcc & Hs & _ & He & _).
    exists (doc_id d'), d, ss, i, c. split_and!; [done|done|by rewrite Z2Nat.id in Hi|done|by rewrite Hs|]. rewrite <- He. by eapply list_elem_of_lookup_2.
  - intros (id & d & ss & i & c & Hd & Hss & Hi & Hc & Hf & Hin). specialize (Hrel id). rewrite Hd in Hrel. inversion Hrel as [d0 d' Hdd E1 E2|]; subst. symmetry in E2.
    destruct (same_chunk_l _ _ _ _ Hdd Hc) as (c' & Hcc & Hs & Hpp & He & _). destruct (L3 id d' ss E2 Hss) as [_ Hslot]. destruct (Hslot i k Hi) as [Hpos Ho].
    destruct (owner_fits _ _ _ Ht Ho) as (c1 & Hc1 & Hfit & _). unfold owner_chunk in Hc1. simpl in Hc1. rewrite Hcc in Hc1. injection Hc1 as <-.
    rewrite lookup_fmap, lookup_owned. unfold slot_chunk. rewrite decide_True by done. rewrite Ho. simpl. unfold owner_chunk. simpl. rewrite Hcc. simpl.
    assert (c_stemmed c' = c_stemmed c) as -> by (by rewrite Hs). rewrite eqb_reflx. apply list_elem_of_lookup in Hin as (j & Hj).
    exists (ordinal_at c' j). apply (column_Some _ _ t _ Hfit). exists j. by rewrite He.
Qed.

Lemma counter_total s r g w : matches s r g -> stable w -> total w (st_owners (ds_table s.1)) = docs_total w r.1.
Proof. intros [H1 H2 _ _ _ _ _] Hw. rewrite (dk_totals _ _ (sk_dir _ H1)). by apply docs_total_related. Qed.
End History.

Section Claims.
Context {V : Type} {json : Json V} `{!EqDecision (StoredDocument V)} {B : Type} {checkpoint : Checkpoint B}.
Context (threads : nat) (crc32 : list Z -> Z) (cipher : option Aead) (nonce_at : Z -> list Z).
Abbreviation Doc := (StoredDocument V).
Abbreviation run g os := (store_steps threads crc32 cipher nonce_at (opened (D := TermDictionary) g) os).

Lemma run_ok_matches g os :
  store_ops_ok ∅ g os -> exists s outs g', run g os = Ok (s, outs) /\ matches (s, outs) (reference os) g'.
Proof.
  intros Ho. destruct (store_steps_ok threads crc32 cipher nonce_at os (opened g) (∅, []) g (opened_matches g) Ho) as ([s outs] & g' & Hrun & Hm). eauto.
Qed.

(** C10: the store is its documents.  From an empty store, any sequence of batches and removals
    within capacity runs without a panic, on any number of threads and through any rebuild; the
    store then holds, for each id, the content of the last document inserted and not removed
    since, [contains_key] says so, and every removal returned the content of the document that
    was there. *)
Theorem store_refines_documents g os :
  store_ops_ok ∅ g os ->
  exists s outs, run g os = Ok (s, outs) /\ related (reference os).1 (ds_documents s) /\
    Forall2 (option_Forall2 same_document) (reference os).2 outs /\
    forall id, store_contains s id = bool_decide (is_Some ((reference os).1 !! id)).
Proof.
  intros Ho. destruct (run_ok_matches g os Ho) as (s & outs & g' & Hrun & [H1 H2 _ _ H5 _ _]). exists s, outs. split_and!; [done|done|done|].
  intros id. unfold store_contains. cbn [fst] in *. rewrite (sk_base _ H1), orb_false_r. apply bool_decide_ext. by destruct (H2 id).
Qed.

(** C11: the store finds its words.  After any such history every term of either form answers with
    exactly the slots of the chunks of the stored documents that have the term, ascending, with
    the chunk's frequency; each chunk of each document has its own slot. *)
Theorem store_answers_terms g os :
  store_ops_ok ∅ g os ->
  exists s outs, run g os = Ok (s, outs) /\
    (forall f t, exists qs, term_answer (ds_postings s) f t = Ok qs /\ StronglySorted Z.lt (map fst qs) /\
       forall k fr, (k, fr) ∈ qs <-> has_posting (reference os).1 (ds_slots s) f t k fr) /\
    (forall id d, (reference os).1 !! id = Some d -> exists ss, ds_slots s !! id = Some ss /\ length ss = length (doc_chunks d)) /\
    (forall id id' ss ss' i i' k, ds_slots s !! id = Some ss -> ss !! i = Some k -> ds_slots s !! id' = Some ss' -> ss' !! i' = Some k ->
       id = id' /\ i = i').
Proof.
  intros Ho. destruct (run_ok_matches g os Ho) as (s & outs & g' & Hrun & Hm). exists s, outs. split; [done|].
  pose proof Hm as [H1 H2 _ _ _ _ _]. cbn [fst] in *. pose proof (sk_dir _ H1) as Hdir. pose proof (dk_linked _ _ Hdir) as Hl. split_and!.
  - intros f t. destruct (represents_answer _ _ _ t (so_index _ _ (sk_postings _ H1) f)) as (qs & Hq & Hsort & Hin). exists qs. split_and!; [done|done|].
    intros k fr. rewrite Hin, <- (look_posting _ _ _ f t k fr Hm). cbn [fst]. by setoid_rewrite index_of_lookup.
  - intros id d Hd. specialize (H2 id). rewrite Hd in H2. inversion H2 as [d0 d' Hdd E1 E2|]; subst. symmetry in E2.
    destruct (dir_slots s _ _ _ Hdir E2) as (ss & Hss & _ & Hlen). exists ss. split; [done|]. destruct Hdd as [_ Hdd]. by rewrite Hlen, <- (Forall2_length _ _ _ Hdd).
  - exact (linked_distinct _ _ _ Hl).
Qed.

(** C23: the counters are sums.  After any such history the chunk, word, embedded, pending and
    lexical counters are the sums over the stored documents, and the multi-chunk and embedded
    document sets are those of the documents. *)
Theorem store_counters g os :
  store_ops_ok ∅ g os ->
  exists s outs, run g os = Ok (s, outs) /\
    let R := (reference os).1 in let t := ds_table s in
    st_chunks t = docs_total one R /\ st_total_words t = docs_total c_word_count R /\ st_nonpositional t = docs_total nonpositional R /\
    st_embedded t = docs_total embedded R /\ st_pending t = docs_total pending R /\ st_lexical t = docs_total lexical R /\
    (forall id, id ∈ ds_multichunk s <-> exists d, R !! id = Some d /\ 1 < length (doc_chunks d)) /\
    (forall id, id ∈ ds_embedded s <-> exists d, R !! id = Some d /\ has_embedding d = true).
Proof.
  intros Ho. destruct (run_ok_matches g os Ho) as (s & outs & g' & Hrun & Hm). exists s, outs. split; [done|]. cbv zeta.
  pose proof Hm as [H1 H2 _ _ _ _ _]. cbn [fst] in *. pose proof (sk_dir _ H1) as Hdir. pose proof (dk_table _ _ Hdir) as Ht.
  pose proof (fun w => counter_total _ _ _ w Hm) as Hc. cbn [fst] in Hc.
  rewrite (tk_chunks _ Ht), (tk_total _ Ht), (tk_nonpositional _ Ht), (tk_embedded _ Ht), (tk_pending _ Ht), (tk_lexical _ Ht).
  assert (Hset : forall (P : Doc -> Prop) id, (forall d d', same_document d d' -> P d <-> P d') ->
    (exists d, ds_documents s !! id = Some d /\ P d) <-> exists d, (reference os).1 !! id = Some d /\ P d).
  { intros P id HP. specialize (H2 id). destruct H2 as [d d' Hdd|]; [specialize (HP _ _ Hdd)|]; naive_solver. }
  split_and!; try (apply Hc; auto with warm); intros id.
  - rewrite (dk_multi _ _ Hdir). apply (Hset (fun d => 1 < length (doc_chunks d))). intros d d' [_ Hdd]. by rewrite (Forall2_length _ _ _ Hdd).
  - rewrite (dk_embedded _ _ Hdir). apply (Hset (fun d => has_embedding d = true)). intros d d' [_ Hdd]. unfold has_embedding.
    induction Hdd as [|c c' cs cs' [E _] _ IH]; [done|]. simpl. rewrite E. simpl. destruct (c_embedding c); [done|]. exact IH.
Qed.

(** C24: the slot table stays proportional to what is stored.  After any such history there are at
    most 1024 slots, or at most two per stored chunk; owners and word counts have one entry per
    slot, and so do the position records, which are all released as soon as no stored chunk has
    positions; every slot is free or holds a chunk; slot numbers fit 32 bits. *)
Theorem store_slots_bounded g os :
  store_ops_ok ∅ g os ->
  exists s outs, run g os = Ok (s, outs) /\
    let t := ds_table s in
    (st_slot_count t <= Z.max 1024 (2 * docs_total one (reference os).1))%Z /\ (st_slot_count t < U32)%Z /\
    Z.of_nat (length (st_owners t)) = st_slot_count t /\ length (st_words t) = length (st_owners t) /\
    length (st_positions t) = (if (docs_total nonpositional (reference os).1 =? docs_total one (reference os).1)%Z then 0 else length (st_owners t)) /\
    (Z.of_nat (length (st_free t)) + st_chunks t = st_slot_count t)%Z /\
    forall id ss k, ds_slots s !! id = Some ss -> k ∈ ss -> (0 <= k < st_slot_count t)%Z.
Proof.
  intros Ho. destruct (run_ok_matches g os Ho) as (s & outs & g' & Hrun & Hm). exists s, outs. split; [done|]. cbv zeta.
  pose proof (counter_total _ _ _ one Hm stable_one) as Hc. pose proof (counter_total _ _ _ nonpositional Hm stable_nonpositional) as Hnp. pose proof Hm as [H1 _ _ _ _ _ H7]. cbn [fst] in *. pose proof (sk_dir _ H1) as Hdir.
  pose proof (dk_table _ _ Hdir) as Ht. pose proof (tk_count _ Ht) as Hcount.
  pose proof (free_count _ _ (sorted_NoDup _ (tk_free_sorted _ Ht)) (tk_free _ Ht) (tk_owners _ Ht)) as Hf. unfold compact in H7.
  pose proof (sources_length _ Ht (dk_released _ _ Hdir)) as Hso. rewrite (tk_nonpositional _ Ht), (tk_chunks _ Ht), Hc, Hnp in Hso.
  rewrite (tk_chunks _ Ht) in H7 |- *. split_and!; [lia|apply Ht|done|apply Ht|exact Hso|lia|].
  intros id ss k Hss (i & Hi)%list_elem_of_lookup. pose proof (dk_linked _ _ Hdir) as Hl. pose proof (elem_of_dom_2 _ _ _ Hss) as Hd.
  rewrite (ln_dom _ _ _ Hl) in Hd. apply elem_of_dom in Hd as [d Hd]. destruct (ln_slots _ _ _ Hl id d ss Hd Hss) as [_ Hk].
  destruct (Hk i k Hi) as [Hp Ho']. apply lookup_lt_Some in Ho'. lia.
Qed.

(** The recursion through rebuilds ends.  Whatever the depth allowed from two on, a batch on
    a store reached by any such history returns, with the documents of the reference: a rebuild
    inserts distinct documents into an empty store and so never removes. *)
Theorem store_batch_returns g os ds :
  store_ops_ok ∅ g (os ++ [SInsert ds]) ->
  exists s outs, run g os = Ok (s, outs) /\ forall n, exists s',
    insert_batch_at threads crc32 cipher nonce_at (2 + n) s ds = Ok s' /\ related (put_docs (reference os).1 ds) (ds_documents s').
Proof.
  intros Ho. assert (Hgen : forall os (r : gmap (list Z) Doc * list (option Doc)) s0 g, store_ops_ok r.1 g (os ++ [SInsert ds]) -> matches s0 r g ->
    exists s1 g1, store_steps threads crc32 cipher nonce_at s0 os = Ok s1 /\ matches s1 (foldl ref_step r os) g1 /\ store_op_ok (foldl ref_step r os).1 g1 (SInsert ds)).
  { clear. induction os as [|o os IH]; intros r s0 g Ho Hm; [destruct Ho as [Ho _]; eauto|]. destruct Ho as [Ho Hos]. cbn [store_steps foldl].
    destruct (store_step_ok threads crc32 cipher nonce_at s0 r g o Hm Ho) as (s1 & -> & Hm1). cbn [obind]. rewrite <- ref_step_fst in Hos. by eapply IH. }
  destruct (Hgen os (∅, []) (opened (D := TermDictionary) g) g Ho (opened_matches g)) as ([s outs] & g1 & Hrun & Hm & [Hg [Hf Hw]]).
  exists s, outs. split; [done|]. intros n. destruct Hm as [H1 H2 _ _ _ H6 _]. cbn [fst op_bill] in *.
  destruct (insert_batch_ok threads crc32 cipher nonce_at n s _ ds H1 H2 Hf Hw) as (s' & Hrun' & _ & Hr' & _); [unfold reference in *; lia|]. eauto.
Qed.
End Claims.

(** ** A history *)


Definition toy_sdoc (id : list Z) (cs : list StoredChunk) : StoredDocument toy_json :=
  {| doc_id := id; doc_source_uri := None; doc_version := []; doc_metadata := JObject []; doc_chunks := cs |}.

Definition toy_history : list store_op :=
  [SInsert [toy_sdoc [1] [toy_chunk cats true 3; toy_chunk dogs true 6]; toy_sdoc [2] [toy_chunk cats false 3]];
   SInsert [toy_sdoc [1] [toy_chunk dogs true 2; toy_chunk cats true 4]];
   SRemove [2];
   SInsert [toy_sdoc [1] [toy_chunk cats true 3]; toy_sdoc [3] [toy_chunk dogs true 6]; toy_sdoc [3] [toy_chunk cats true 1]];
   SRemove [9]]%Z.

Lemma toy_chunk_fits e st w :
  strings_ok (map fst e) -> Terms.entries_ok e -> (Z.of_nat (length e) < U32 - 1)%Z -> (0 <= w < U32_MAX)%Z ->
  chunk_fits (toy_chunk e st w).
Proof. intros Ht He Hl Hw. split; [|exact Hw]. by apply toy_chunk_terms. Qed.

#[global] Instance within_dec T : Decision (within T).
Proof.
  refine (cast_if_and4 (decide (T one + 1 < U32)%Z) (decide (T c_word_count < U64)%Z) (decide (T key_count < NONE)%Z) (decide (T key_text < U32)%Z)).
  - by split.
  - by intros [].
  - by intros [].
  - by intros [].
  - by intros [].
Defined.

Lemma toy_history_ok : store_ops_ok ∅ 5 toy_history.
Proof.
  destruct toy_entries_ok as [Hc Hd].
  assert (Hf : forall e st w, e = cats \/ e = dogs -> (0 <= w < U32_MAX)%Z -> chunk_fits (toy_chunk e st w)).
  { intros e st w [-> | ->] Hw; apply toy_chunk_fits; first [done|by_decide]. }
  unfold toy_history. cbn [store_ops_ok]. unfold store_op_ok. repeat match goal with |- _ /\ _ => split end; try exact I; try by_decide;
    repeat match goal with |- Forall _ _ => constructor | |- doc_fits _ => unfold doc_fits; cbn [doc_chunks toy_sdoc] end;
    apply Hf; auto; vm_compute; split; congruence.
Qed.

(** The store over no checkpoint. *)
Abbreviation toy_run := (store_steps (V := toy_json) (B := Base flat_image) 4 (fun _ => 0%Z) None (fun _ => []) (opened (D := TermDictionary) 5)).

Lemma store_refines_documents_witness :
  store_ops_ok ∅ 5 toy_history /\
  exists s outs, toy_run toy_history = Ok (s, outs) /\ store_contains s [3]%Z = true /\ store_contains s [2]%Z = false /\ length outs = 2.
Proof.
  split; [exact toy_history_ok|].
  destruct (store_refines_documents (B := Base flat_image) 4 (fun _ => 0%Z) None (fun _ => []) 5 toy_history toy_history_ok) as (s & outs & Hrun & _ & Ho & Hc).
  exists s, outs. split; [exact Hrun|]. rewrite !Hc. split; [vm_compute; reflexivity|]. split; [vm_compute; reflexivity|].
  rewrite <- (Forall2_length _ _ _ Ho). vm_compute. reflexivity.
Defined.

Lemma store_answers_terms_witness :
  store_ops_ok ∅ 5 toy_history /\
  exists s outs, toy_run toy_history = Ok (s, outs) /\ exists qs, term_answer (ds_postings s) true [99]%Z = Ok qs /\ StronglySorted Z.lt (map fst qs).
Proof.
  split; [exact toy_history_ok|].
  destruct (store_answers_terms (B := Base flat_image) 4 (fun _ => 0%Z) None (fun _ => []) 5 toy_history toy_history_ok) as (s & outs & Hrun & Ht & _).
  exists s, outs. split; [exact Hrun|]. destruct (Ht true [99]%Z) as (qs & Hq & Hs & _). exists qs. split; [exact Hq|exact Hs].
Defined.

Lemma store_counters_witness :
  store_ops_ok ∅ 5 toy_history /\
  exists s outs, toy_run toy_history = Ok (s, outs) /\ st_chunks (ds_table s) = 2%Z /\ st_total_words (ds_table s) = 4%Z.
Proof.
  split; [exact toy_history_ok|].
  destruct (store_counters (B := Base flat_image) 4 (fun _ => 0%Z) None (fun _ => []) 5 toy_history toy_history_ok) as (s & outs & Hrun & Hc & Hw & _).
  exists s, outs. split; [exact Hrun|]. rewrite Hc, Hw. split; vm_compute; reflexivity.
Defined.

(** A chunk with position records, and a history that stores it beside a plain one, then
    replaces it with another plain one. *)
Definition placed (c : StoredChunk) : StoredChunk :=
  {| c_id := c_id c; c_text := c_text c; c_text_at := c_text_at c; c_start_byte := c_start_byte c; c_end_byte := c_end_byte c;
     c_vector := c_vector c; c_embedding := c_embedding c;
     c_terms := {| t_terms := t_terms (c_terms c); t_positions := Some {| p_version := 1; p_offsets := Byte [0; 2; 3]%Z; p_data := [0; 2; 1]%Z |} |};
     c_word_count := c_word_count c; c_stemmed := c_stemmed c; c_vector_state := c_vector_state c |}.

Lemma placed_fits c : chunk_fits c -> chunk_fits (placed c).
Proof. intros [[H1 H2 H3] H4]. split; [split|]; done. Qed.

Definition placed_history : list store_op := [SInsert [toy_sdoc [1] [placed (toy_chunk cats true 3)]; toy_sdoc [2] [toy_chunk dogs true 6]]]%Z.
Definition plain_again : list store_op := placed_history ++ [SInsert [toy_sdoc [1] [toy_chunk cats true 3]]]%Z.

Lemma plain_again_ok : store_ops_ok ∅ 5 plain_again /\ store_ops_ok ∅ 5 placed_history.
Proof.
  destruct toy_entries_ok as [Hc Hd].
  assert (Hf : forall e st w, e = cats \/ e = dogs -> (0 <= w < U32_MAX)%Z -> chunk_fits (toy_chunk e st w)).
  { intros e st w [-> | ->] Hw; apply toy_chunk_fits; first [done|by_decide]. }
  unfold plain_again, placed_history. cbn [app store_ops_ok]. unfold store_op_ok. repeat match goal with |- _ /\ _ => split end; try exact I; try by_decide;
    repeat match goal with |- Forall _ _ => constructor | |- doc_fits _ => unfold doc_fits; cbn [doc_chunks toy_sdoc] | |- chunk_fits (placed _) => apply placed_fits end;
    apply Hf; auto; vm_compute; split; congruence.
Qed.

Lemma store_slots_bounded_witness :
  (store_ops_ok ∅ 5 placed_history /\
   exists s outs, toy_run placed_history = Ok (s, outs) /\ length (st_positions (ds_table s)) = length (st_owners (ds_table s))) /\
  (store_ops_ok ∅ 5 plain_again /\
   exists s outs, toy_run plain_again = Ok (s, outs) /\ (st_slot_count (ds_table s) <= 1024)%Z /\ length (st_positions (ds_table s)) = 0).
Proof.
  destruct plain_again_ok as [H1 H2]. split; split; [exact H2| |exact H1|].
  - destruct (store_slots_bounded (B := Base flat_image) 4 (fun _ => 0%Z) None (fun _ => []) 5 placed_history H2) as (s & outs & Hrun & _ & _ & _ & _ & Hp & _).
    exists s, outs. split; [exact Hrun|exact Hp].
  - destruct (store_slots_bounded (B := Base flat_image) 4 (fun _ => 0%Z) None (fun _ => []) 5 plain_again H1) as (s & outs & Hrun & Hb & _ & _ & _ & Hp & _).
    exists s, outs. split; [exact Hrun|]. split; [etransitivity; [exact Hb|]; vm_compute; congruence|exact Hp].
Defined.

Lemma store_batch_returns_witness :
  store_ops_ok ∅ 5 ([] ++ [SInsert [toy_sdoc [3] []]])%Z /\
  exists s outs, toy_run [] = Ok (s, outs) /\ exists s', insert_batch_at 4 (fun _ => 0%Z) None (fun _ => []) 7 s [toy_sdoc [3] []]%Z = Ok s'.
Proof.
  assert (H : store_ops_ok ∅ 5 ([] ++ [SInsert [toy_sdoc [3] []]])%Z).
  { cbn [app store_ops_ok]. unfold store_op_ok. split; [|exact I]. split; [by_decide|]. split; [repeat constructor|by_decide]. }
  split; [exact H|].
  destruct (store_batch_returns (B := Base flat_image) 4 (fun _ => 0%Z) None (fun _ => []) 5 [] [toy_sdoc [3] []]%Z H) as (s & outs & Hrun & Hn).
  exists s, outs. split; [exact Hrun|]. destruct (Hn 5) as (s' & Hs & _). exists s'. exact Hs.
Defined.
