(* ===== verification/StoreCheckpoint.v ===== *)
(** * The store over a checkpoint

    A rebuild of a store that is served over a checkpoint, and lists read through the overlay. *)

From S2P Require Import Prelude Words BitPack Search Positions Terms TextSegment Binary Share TermDict Postings Cursor PostingEdit PostingRuns Lists Indexing Bulk IndexRuns Filters SlotTable Store Overlay Capacity StoreSpec StoreEdits StoreRuns StoreHistory.

Abbreviation toy_insert := (insert_batch (V := toy_json) (D := TermDictionary) (B := Base flat_image) 1 (fun _ => 0%Z) None (fun _ => [])).
Abbreviation toy_remove := (store_remove (V := toy_json) (D := TermDictionary) (B := Base flat_image) 1 (fun _ => 0%Z) None (fun _ => [])).

(** A store opened over the checkpoint of three documents, with a document of 1100 chunks and a
    document of one chunk written since. *)
Definition over_checkpoint : DocumentStore toy_json TermDictionary (Base flat_image) := set_base store_default (Some (base_new toy_image)).
Definition written : list (StoredDocument toy_json) :=
  [toy_sdoc [8] (replicate 1100 (toy_chunk [] true 1)); toy_sdoc [9] [toy_chunk cats true 3]]%Z.

Definition live_after (m : outcome (DocumentStore toy_json TermDictionary (Base flat_image) * option (StoredDocument toy_json))) : option (bool * bool) :=
  match m with Ok (s, Some _) => Some (store_contains s [1]%Z, store_contains s [9]%Z) | _ => None end.

(** C38: a rebuild forgets the checkpoint.  Over a checkpoint that holds document 1, deleting a large
    document written since triggers the rebuild, and afterwards document 1 is gone although
    nothing deleted it; the other written document is still there. *)
Theorem rebuild_drops_checkpoint :
  match toy_insert over_checkpoint written with
  | Ok s => store_contains s [1]%Z = true /\ live_after (toy_remove s [8]%Z) = Some (false, true)
  | _ => False
  end.
Proof. vm_compute. split; reflexivity. Qed.

(** ** A list read through the overlay *)



