(* ===== verification/StoreText.v ===== *)
(** * The text of a store

    What [src/core/documents/index.rs], [src/core/documents.rs] and [src/core/engine] do with the
    text segment of a [DocumentStore] besides inserting: attaching it, removing documents with
    their text, installing deferred encodings, and the canonical rebuild over a fresh segment. *)

From S2P Require Import Prelude Words BitPack Search Positions Terms TextSegment Binary Share TermDict Postings Cursor PostingEdit PostingRuns Lists Indexing Bulk IndexRuns Filters SlotTable Store.

(** [hash_u64]: the splitmix64 finalizer. *)
Definition hash_u64 (a b : Z) : Z :=
  let z := wrap U64 (wrap U64 (a * 0x9E3779B97F4A7C15) + b) in
  let z := wrap U64 (Z.lxor z (Z.shiftr z 30) * 0xBF58476D1CE4E5B9) in
  let z := wrap U64 (Z.lxor z (Z.shiftr z 27) * 0x94D049BB133111EB) in
  Z.lxor z (Z.shiftr z 31).

Definition hash_str_seed (s : list Z) (level : Z) : Z := foldl hash_u64 level s.

Definition FINGERPRINT_SEED : Z := 0x5EEDD0C5F1A60001.

Section StoreText.
Context {V : Type} {json : Json V} `{!EqDecision (StoredDocument V)}.
Context {D : Type} {dict : TermIndex D} {B : Type} {checkpoint : Checkpoint B}.
Context (threads : nat) (crc32 : list Z -> Z) (cipher : option Aead).
Abbreviation Doc := (StoredDocument V).
Abbreviation Store := (DocumentStore V D B).

(** [attach_text_segment]. *)
Definition attach_text_segment (s : Store) : outcome Store :=
  if decide (ds_documents s = ∅) then Ok (set_text s (Some (segment_create cipher))) else Panic.

(** ** Removing *)

Fixpoint scrub_all (segment : TextSegment) (spans : list location) : outcome TextSegment :=
  match spans with
  | [] => Ok segment
  | span :: rest => let* segment := segment_scrub segment span.1.1 span.1.2 in scrub_all segment rest
  end.

(** [scrub_removed]. *)
Definition scrub_removed (s : Store) (removed : option Doc) : outcome Store :=
  match removed, ds_text s with
  | Some d, Some segment => let* segment := scrub_all segment (omap c_text_at (doc_chunks d)) in Ok (set_text s (Some segment))
  | _, _ => Ok s
  end.

(** The store's part of [remove_document_from_memory]. *)
Definition remove_document (nonce_at : Z -> list Z) (s : Store) (id : list Z) : outcome Store :=
  let* (s, removed) := store_remove threads crc32 cipher nonce_at s id in
  scrub_removed s removed.

(** ** Deferred encodings *)

Fixpoint fingerprint_chunks (text : option TextSegment) (h : Z) (cs : list StoredChunk) : outcome (option Z) :=
  match cs with
  | [] => Ok (Some h)
  | c :: rest =>
      let* t := try_text_of crc32 cipher text c in
      match t with
      | None => Ok None
      | Some t =>
          let h := hash_u64 h (c_start_byte c) in
          let h := hash_u64 h (c_end_byte c) in
          fingerprint_chunks text (hash_str_seed t h) rest
      end
  end.

(** [document_fingerprint]. *)
Definition document_fingerprint (text : option TextSegment) (d : Doc) : outcome (option Z) :=
  fingerprint_chunks text (hash_str_seed (doc_version d) FINGERPRINT_SEED) (doc_chunks d).

Definition is_pending (c : StoredChunk) : bool := bool_decide (c_vector_state c = Pending).

(** The loop of [install_deferred_encoding] over the chunks. *)
Definition encode_pending (c : StoredChunk) (vector : EntangledHVec) : StoredChunk :=
  if is_pending c then
    {| c_id := c_id c; c_text := c_text c; c_text_at := c_text_at c; c_start_byte := c_start_byte c; c_end_byte := c_end_byte c;
       c_vector := vector; c_embedding := c_embedding c; c_terms := c_terms c; c_word_count := c_word_count c;
       c_stemmed := c_stemmed c; c_vector_state := Encoded |}
  else c.

(** Whether the vectors are for this content. *)
Definition applicable (text : option TextSegment) (d : Doc) (version : list Z) (fingerprint : Z) (vectors : list EntangledHVec) : outcome bool :=
  if bool_decide (doc_version d = version) && Nat.eqb (length (doc_chunks d)) (length vectors) && existsb is_pending (doc_chunks d)
  then let* f := document_fingerprint text d in Ok (bool_decide (f = Some fingerprint))
  else Ok false.

Definition encoded (d : Doc) (vectors : list EntangledHVec) : Doc := with_chunks d (zip_with encode_pending (doc_chunks d) vectors).

(** The store's part of [install_deferred_encoding]. *)
Definition install_deferred_encoding (nonce_at : Z -> list Z) (s : Store) (id version : list Z) (fingerprint : Z) (vectors : list EntangledHVec)
    : outcome Store :=
  match ds_documents s !! id with
  | None => Ok s
  | Some d =>
      let* ok := applicable (ds_text s) d version fingerprint vectors in
      if ok : bool then store_insert threads crc32 cipher nonce_at s id (encoded d vectors) else Ok s
  end.

(** ** The canonical rebuild *)

Definition inline_text (c : StoredChunk) (text : option (list Z)) : StoredChunk :=
  {| c_id := c_id c; c_text := text; c_text_at := None; c_start_byte := c_start_byte c; c_end_byte := c_end_byte c;
     c_vector := c_vector c; c_embedding := c_embedding c; c_terms := c_terms c; c_word_count := c_word_count c;
     c_stemmed := c_stemmed c; c_vector_state := c_vector_state c |}.

Definition read_back (segment : TextSegment) (c : StoredChunk) : outcome StoredChunk :=
  match c_text_at c with
  | Some loc => let* text := segment_read crc32 cipher segment loc in Ok (inline_text c (Some text))
  | None => Ok c
  end.

Definition read_document_back (segment : TextSegment) (d : Doc) : outcome Doc :=
  let* cs := omap_list (read_back segment) (doc_chunks d) in Ok (with_chunks d cs).

(** [rebuild_canonical], the renaming of the staged file apart. *)
Definition rebuild_canonical (nonce_at : Z -> list Z) (s : Store) : outcome Store :=
  ensure match ds_base s with None => true | Some _ => false end else "canonical rebuild of a store still served from its checkpoint" ;
  match ds_text s with
  | None => Ok s
  | Some old =>
      let* documents := omap_list (read_document_back old) (document_list s) in
      insert_batch threads crc32 cipher nonce_at (set_text (set_generation store_default (ds_generation s)) (Some (segment_create cipher))) documents
  end.

(** [is_deleted]: gone, or its text zeroed. *)
Definition is_deleted (s : Store) (d : Doc) : bool :=
  negb (bool_decide (is_Some (ds_documents s !! doc_id d))) ||
  match ds_text s with
  | Some segment => existsb (fun loc : location => is_scrubbed segment loc.1.1 loc.1.2) (omap c_text_at (doc_chunks d))
  | None => false
  end.
End StoreText.
