(* ===== verification/TextRecords.v ===== *)
(** * Records of a text segment and their owners

    The locations that stored chunks hold, against the records of the segment: every record that
    is still readable has an owner, and every byte of the segment is in a record.  Appending gives
    a record to a new owner, scrubbing takes the records of an owner away. *)

From S2P Require Import Prelude Words TextSegment Binary Store StoreText.

Section Records.
Context (crc32 : list Z -> Z) (cipher : option Aead) (Hlaws : forall a, cipher = Some a -> AeadLaws a).
Abbreviation seg_read := (segment_read crc32 cipher).

(** The records [live] chunks hold.  Empty records can share a location. *)
Record texts_ok (T : TextSegment) (g : ledger) (live : list location) : Prop := {
  tx_ledger : ledger_ok crc32 cipher T g;
  tx_file : Z.of_nat (length (ts_file T)) = ts_len T;
  tx_tiled : forall i, (HEADER_LEN <= i < ts_len T)%Z -> exists e, e ∈ g /\ (e.1.1.1 <= i < e.1.1.1 + e.1.1.2)%Z;
  tx_recorded : forall loc, loc ∈ live -> exists t, (loc, t) ∈ g;
  tx_intact : forall loc, loc ∈ live -> (0 < loc.1.2)%Z -> exists t, (loc, Some t) ∈ g;
  tx_unique : NoDup (filter (fun sp : Z * Z => 0 < sp.2)%Z (map fst live));
  tx_kept : forall a l c t, (a, l, c, Some t) ∈ g -> (0 < l)%Z -> (a, l) ∈ map fst live }.

(** The text at the locations is unchanged. *)
Definition reads_same (T T' : TextSegment) (live : list location) : Prop := forall loc, loc ∈ live -> seg_read T' loc = seg_read T loc.

(** So is the length of the segment. *)
Definition kept (T T' : TextSegment) (live : list location) : Prop := reads_same T T' live /\ ts_len T' = ts_len T.

Lemma reads_same_trans T1 T2 T3 live live' :
  reads_same T1 T2 live -> reads_same T2 T3 live' -> (forall loc, loc ∈ live' -> loc ∈ live) -> reads_same T1 T3 live'.
Proof. intros H1 H2 Hs loc Hl. by rewrite H2, H1 by auto. Qed.

Lemma kept_trans T1 T2 T3 live live' :
  kept T1 T2 live -> kept T2 T3 live' -> (forall loc, loc ∈ live' -> loc ∈ live) -> kept T1 T3 live'.
Proof. intros [H1 E1] [H2 E2] Hs. split; [by eapply reads_same_trans|congruence]. Qed.

Lemma kept_refl T live : kept T T live.
Proof. done. Qed.

Lemma texts_perm T g live live' : live ≡ₚ live' -> texts_ok T g live -> texts_ok T g live'.
Proof.
  intros Hp [H1 Hfl H2 H3 H3' H4 H5]. split; try done.
  - intros loc. rewrite <- Hp. apply H3.
  - intros loc. rewrite <- Hp. apply H3'.
  - by rewrite <- Hp.
  - intros a l c t. rewrite <- Hp. apply H5.
Qed.

Lemma created_texts : texts_ok (segment_create cipher) [] [].
Proof.
  split.
  - by apply (segment_create_ok crc32 cipher Hlaws).
  - done.
  - intros i Hi. cbn in Hi. lia.
  - by intros loc Hl%elem_of_nil.
  - by intros loc Hl%elem_of_nil.
  - constructor.
  - by intros a l c t Ht%elem_of_nil.
Qed.

Lemma recorded_reads T g live loc t : texts_ok T g live -> (loc, t) ∈ g -> seg_read T loc = Ok (default [] t).
Proof.
  intros [(Hs & Hg & _ & _) _ _ _ _ _ _] Hin. destruct loc as [[a l] c]. rewrite Forall_forall in Hg. by apply record_read; [done|done|apply Hg].
Qed.

Lemma recorded_span T g live loc t : texts_ok T g live -> (loc, t) ∈ g -> (HEADER_LEN <= loc.1.1 /\ 0 <= loc.1.2 /\ loc.1.1 + loc.1.2 <= ts_len T < U64)%Z.
Proof.
  intros [(Hs & Hg & _ & _) _ _ _ _ _ _] Hin. destruct loc as [[a l] c]. rewrite Forall_forall in Hg. destruct (Hg _ Hin) as [Hb _], Hs as [Hs _]. simpl. lia.
Qed.

(** An empty record reads as the empty text. *)
Lemma empty_record T g live a c t : texts_ok T g live -> (a, 0%Z, c, t) ∈ g -> default [] t = [].
Proof.
  intros [(Hs & Hg & _ & _) _ _ _ _ _ _] Hin. rewrite Forall_forall in Hg. destruct (Hg _ Hin) as [_ Ht]. destruct t as [t|]; [|done].
  destruct Ht as [(_ & _ & ->)|(_ & _ & _ & nonce & bytes & Hn & Hb & Hl & _)]; [done|]. simpl.
  eapply (sealed_nonempty cipher Hlaws nonce t a bytes); [done|done|]. apply nil_length_inv. lia.
Qed.

(** ** Appending *)

Lemma append_texts T g live nonce text loc T' :
  texts_ok T g live -> length nonce = 12 -> utf8_valid text = true -> segment_append crc32 cipher T nonce text = Ok (loc, T') ->
  texts_ok T' (g ++ [(loc, Some text)]) (loc :: live) /\ reads_same T T' live /\ seg_read T' loc = Ok text.
Proof.
  intros Hok Hn Hu Ha. pose proof Hok as [H1 Hfl H2 H3 H3' H4 H5]. pose proof (append_ledger_ok crc32 cipher Hlaws T g nonce text loc T' H1 Hn Hu Ha) as H1'.
  assert (Hloc : loc.1.1 = ts_len T /\ ts_len T' = (ts_len T + loc.1.2)%Z /\ (0 <= loc.1.2)%Z /\ Z.of_nat (length (ts_file T')) = ts_len T').
  { unfold segment_append in Ha. destruct (sealed cipher nonce text (ts_len T)) as [bytes| |]; [|done|done]. cbn [obind] in Ha.
    destruct (_ <? U32)%Z; [|done]. unfold checked_add in Ha. destruct (_ <? U64)%Z; [|done]. cbn in Ha. injection Ha as <- <-. cbn. rewrite positioned_write_length. destruct H1 as ((Hs & _) & _). unfold HEADER_LEN in Hs. split_and!; [done|done|lia|lia]. }
  destruct Hloc as (Ea & El & Hpos & Hfl').
  assert (Hok' : texts_ok T' (g ++ [(loc, Some text)]) (loc :: live)).
  { split; [done|done| | | | |].
    - intros i Hi. destruct (decide (i < ts_len T)%Z).
      + destruct (H2 i) as (e & He & Hr); [lia|]. exists e. split; [apply elem_of_app; by left|done].
      + exists (loc, Some text). split; [apply elem_of_app; right; by apply list_elem_of_singleton|]. cbn. lia.
    - intros l [->|Hl]%elem_of_cons; [exists (Some text); apply elem_of_app; right; by apply list_elem_of_singleton|].
      destruct (H3 l Hl) as [t Ht]. exists t. apply elem_of_app. by left.
    - intros l [->|Hl]%elem_of_cons Hp; [exists text; apply elem_of_app; right; by apply list_elem_of_singleton|].
      destruct (H3' l Hl Hp) as [t Ht]. exists t. apply elem_of_app. by left.
    - cbn [map]. destruct (decide (0 < loc.1.2)%Z) as [Hl|Hl]; [|by rewrite filter_cons_False].
      rewrite filter_cons_True by done. apply NoDup_cons. split; [|done]. rewrite list_elem_of_filter. intros [_ (l & El' & Hin)%list_elem_of_fmap].
      destruct (H3 l Hin) as [t Ht]. pose proof (recorded_span _ _ _ _ _ Hok Ht). rewrite <- El' in *. lia.
    - intros a l c t [Hin|[= <- <-]%list_elem_of_singleton]%elem_of_app Hl; cbn [map]; [right; by eapply H5|left]. }
  split_and!; [done| |].
  - intros l Hl. destruct (H3 l Hl) as [t Ht]. rewrite (recorded_reads _ _ _ _ _ Hok Ht). eapply recorded_reads; [exact Hok'|]. apply elem_of_app. by left.
  - change text with (default [] (Some text)) at 1. eapply recorded_reads; [exact Hok'|]. apply elem_of_app. right. by apply list_elem_of_singleton.
Qed.

(** ** Scrubbing *)

Lemma drop_empty T g loc live : texts_ok T g (loc :: live) -> ~ (0 < loc.1.2)%Z -> texts_ok T g live.
Proof.
  intros [H1 Hfl H2 H3 H3' H4 H5] Hl. split; [done|done|done| | | |].
  - intros l Hin. apply H3. by right.
  - intros l Hin. apply H3'. by right.
  - cbn [map] in H4. by rewrite filter_cons_False in H4.
  - intros a l c t Hin Hp. destruct (proj1 (elem_of_cons _ _ _) (H5 a l c t Hin Hp)) as [E|]; [|done]. rewrite <- E in Hl. done.
Qed.

Lemma scrub_texts T g loc live :
  texts_ok T g (loc :: live) -> exists T' g', segment_scrub T loc.1.1 loc.1.2 = Ok T' /\ texts_ok T' g' live /\ kept T T' live.
Proof.
  intros Hok. pose proof Hok as [H1 Hfl H2 H3 H3' H4 H5]. destruct loc as [[a l] c]. cbn [fst snd]. destruct (H3 (a, l, c)) as [t0 Ht0]; [left|].
  pose proof (recorded_span _ _ _ _ _ Hok Ht0) as Hsp. cbn in Hsp.
  assert (Hs : exists T', segment_scrub T a l = Ok T' /\ ts_len T' = ts_len T /\ length (ts_file T') = length (ts_file T)).
  { unfold segment_scrub, in_segment, checked_add. rewrite (proj2 (Z.leb_le _ _)) by lia. rewrite (proj2 (Z.ltb_lt (a + l) U64)) by lia.
    rewrite (proj2 (Z.leb_le (a + l) _)) by lia. eexists. split; [done|]. split; [done|].
    cbn. rewrite positioned_write_length, length_replicate. unfold HEADER_LEN in Hsp. lia. }
  destruct Hs as (T' & Hs & Hlen & Hfl'). pose proof (scrub_ledger_ok crc32 cipher Hlaws T g a l T' H1 ltac:(eauto) Hs) as H1'.
  exists T', (map (mark_scrubbed a l) g).
  assert (Hmark : forall x t, (x, t) ∈ g -> exists t', (x, t') ∈ map (mark_scrubbed a l) g /\ (x.1 <> (a, l) -> t' = t)).
  { intros [[a' l'] c'] t Hin. exists (mark_scrubbed a l (a', l', c', t)).2. split.
    - apply list_elem_of_fmap. exists (a', l', c', t). split; [|done]. rewrite <- (mark_scrubbed_loc a l (a', l', c', t)) at 1. by destruct (mark_scrubbed _ _ _).
    - cbn. intros Hne. destruct (_ && _) eqn:E; [|done]. apply andb_true_iff in E as [?%Z.eqb_eq ?%Z.eqb_eq]. congruence. }
  assert (Hnew : texts_ok T' (map (mark_scrubbed a l) g) live).
  { split; [done|congruence| | | | |].
    - intros i Hi. destruct (H2 i) as (e & He & Hr); [lia|]. exists (mark_scrubbed a l e). rewrite mark_scrubbed_loc. split; [by apply list_elem_of_fmap_2|done].
    - intros x Hx. destruct (H3 x) as [t Ht]; [by right|]. destruct (Hmark _ _ Ht) as (t' & Ht' & _). eauto.
    - intros x Hx Hp. destruct (H3' x) as [t Ht]; [by right|done|]. destruct (Hmark _ _ Ht) as (t' & Ht' & Heq). exists t. rewrite <- Heq; [done|]. intros E.
      cbn [map] in H4. rewrite filter_cons_True in H4 by (cbn; rewrite E in Hp; done). apply NoDup_cons in H4 as [Hn _]. apply Hn, list_elem_of_filter. cbn [fst].
      rewrite <- E. split; [done|]. by apply list_elem_of_fmap_2.
    - cbn [map] in H4. rewrite filter_cons in H4. case_decide; [|done]. by apply NoDup_cons in H4 as [_ ?].
    - intros a' l' c' t (e & E & He)%list_elem_of_fmap Hp. destruct e as [[[a1 l1] c1] t1]. cbn in E. destruct (_ && _) eqn:Eb; [done|]. injection E as -> -> -> <-.
      pose proof (H5 _ _ _ _ He Hp) as Hin. cbn [map fst] in Hin. apply elem_of_cons in Hin as [[= -> ->]|Hin]; [by rewrite !Z.eqb_refl in Eb|done]. }
  split_and!; [done|done|]. split; [|done]. intros x Hx. destruct (H3 x) as [t Ht]; [by right|]. destruct (Hmark _ _ Ht) as (t' & Ht' & Heq).
  rewrite (recorded_reads _ _ _ _ _ Hok Ht), (recorded_reads _ _ _ _ _ Hnew Ht'). destruct (decide (x.1 = (a, l))) as [E|Hne]; [|by rewrite Heq].
  destruct x as [x1 c1]. cbn in E. subst x1. destruct (decide (0 < l)%Z) as [Hl|Hl].
  - exfalso. cbn [map] in H4. rewrite filter_cons_True in H4 by done. apply NoDup_cons in H4 as [Hn _]. apply Hn, list_elem_of_filter.
    split; [done|]. by apply (list_elem_of_fmap_2 fst _ (a, l, c1)).
  - assert (l = 0%Z) as -> by lia. by rewrite (empty_record _ _ _ _ _ _ Hok Ht), (empty_record _ _ _ _ _ _ Hnew Ht').
Qed.

Lemma scrub_all_texts T g spans live :
  texts_ok T g (spans ++ live) -> exists T' g', scrub_all T spans = Ok T' /\ texts_ok T' g' live /\ kept T T' live.
Proof.
  revert T g. induction spans as [|sp spans IH]; intros T g Hok; [by exists T, g|]. cbn [scrub_all].
  destruct (scrub_texts _ _ _ _ Hok) as (T1 & g1 & -> & Hok1 & Hr1). cbn [obind]. destruct (IH T1 g1 Hok1) as (T' & g' & -> & Hok' & Hr').
  exists T', g'. split_and!; [done|done|]. eapply kept_trans; [exact Hr1|exact Hr'|]. intros loc Hl. apply elem_of_app. by right.
Qed.

(** ** Erasure *)

(** A byte of the segment is in a record that is held, or it is zero. *)
Lemma unowned_zero T g live i :
  texts_ok T g live -> (HEADER_LEN <= i < ts_len T)%Z ->
  (exists loc, loc ∈ live /\ (loc.1.1 <= i < loc.1.1 + loc.1.2)%Z) \/ ts_file T !! Z.to_nat i = Some 0%Z.
Proof.
  intros [(Hs & Hg & _ & _) _ H2 H3 _ H4 H5] Hi. destruct (H2 i Hi) as ([[[a l] c] t] & He & Hr). cbn in Hr. destruct t as [t|].
  - left. pose proof (H5 a l c t He ltac:(lia)) as (x & E & Hx)%list_elem_of_fmap. exists x. rewrite <- E. done.
  - right. rewrite Forall_forall in Hg. destruct (Hg _ He) as [Hb [_ Hz]]. unfold positioned_read in Hz. destruct Hs as [Hs Hf]. unfold HEADER_LEN in *.
    rewrite get_range_Some in Hz by lia. cbn [ok_or] in Hz. injection Hz as E. symmetry in E.
    assert (Hl : replicate (Z.to_nat l) 0%Z !! (Z.to_nat i - Z.to_nat a) = Some 0%Z) by (apply lookup_replicate_2; lia).
    rewrite E, lookup_take_lt, lookup_drop in Hl by lia. by replace (Z.to_nat a + (Z.to_nat i - Z.to_nat a)) with (Z.to_nat i) in Hl by lia.
Qed.
End Records.
