(* ===== verification/TextSim.v ===== *)
(** * A store with a text segment against a store without

    The text segment of a store takes no part in its slots, postings, filters and counters: every
    operation on a store with a segment does what it does on the store without, and scrubs. *)

From S2P Require Import Prelude Words BitPack Search Positions Terms FrameDict TextSegment Binary Journal Share TermDict Postings Cursor PostingEdit PostingRuns Lists Indexing Bulk IndexRuns Filters SlotTable Store Capacity StoreSpec StoreEdits StoreRuns StoreText TextRecords.

(** ** Operations that leave the segment alone *)

Section Commute.
Context {V : Type} {json : Json V} `{!EqDecision (StoredDocument V)}.
Context {D : Type} {dict : TermIndex D} {B : Type} {checkpoint : Checkpoint B}.
Context (threads : nat).
Abbreviation Doc := (StoredDocument V).
Abbreviation docs := (gmap (list Z) Doc).
Abbreviation Store := (DocumentStore V D B).

Definition on_text (x : option TextSegment) (m : outcome Store) : outcome Store := let* s := m in Ok (set_text s x).

Lemma set_text_twice (s : Store) x y : set_text (set_text s x) y = set_text s y.
Proof. done. Qed.

Lemma set_text_same (s : Store) x : ds_text s = x -> set_text s x = s.
Proof. destruct s. cbn. by intros <-. Qed.

Lemma advance_text (s : Store) n x : advance_generation (set_text s x) n = on_text x (advance_generation s n).
Proof. unfold advance_generation. cbn [set_text ds_generation]. by destruct (expect _). Qed.

Lemma track_text (s : Store) id n p x : track_dense_change (set_text s x) id n p = set_text (track_dense_change s id n p) x.
Proof. unfold track_dense_change. cbn [set_text ds_dense ds_changes]. destruct (ds_dense s); [|done]. destruct (_ || _); [done|]. by destruct (ds_changes s !! id). Qed.

Lemma install_document_text (s : Store) d x :
  install_document (set_text s x) d = let* (s', i) := install_document s d in Ok (set_text s' x, i).
Proof.
  unfold install_document. cbn [set_text ds_table]. destruct (insert_chunks _ _ _ _) as [[t slots]| |]; [|done|done]. cbn [obind].
  destruct (1 <? _); cbn; destruct (has_embedding d); cbn; try done; by case_decide.
Qed.

Lemma install_documents_text (s : Store) ds x :
  install_documents (set_text s x) ds = let* (s', i) := install_documents s ds in Ok (set_text s' x, i).
Proof.
  revert s. induction ds as [|d ds IH]; intros s; [done|]. cbn [install_documents]. rewrite install_document_text.
  destruct (install_document s d) as [[s1 i]| |]; [|done|done]. cbn [obind]. rewrite IH. by destruct (install_documents s1 ds) as [[s2 j]| |].
Qed.

Lemma enter_text (s : Store) ds x : foldl enter_document (set_text s x) ds = set_text (foldl enter_document s ds) x.
Proof.
  revert s. induction ds as [|d ds IH]; intros s; [done|]. cbn [foldl]. rewrite <- IH. f_equal. unfold enter_document. by rewrite track_text.
Qed.

Lemma install_new_text (s : Store) group x : install_new threads (set_text s x) group = on_text x (install_new threads s group).
Proof.
  unfold install_new. destruct group as [|d ds]; [done|]. rewrite install_documents_text.
  destruct (install_documents s _) as [[s1 i]| |]; [|done|done]. cbn [obind set_text ds_postings ds_table].
  destruct (index_chunks _ _ _ _) as [ps| |]; [|done|done]. cbn [obind].
  change (set_postings (set_text s1 x) ps) with (set_text (set_postings s1 ps) x). rewrite advance_text.
  destruct (advance_generation _ _) as [s2| |]; [|done|done]. cbn [obind on_text]. by rewrite enter_text.
Qed.

Lemma remove_entry_text (s : Store) id d ix x : remove_entry (set_text s x) id d ix = on_text x (remove_entry s id d ix).
Proof.
  unfold remove_entry. cbv zeta. set (s0 := set_multichunk (set_documents s (delete id (ds_documents s))) (ds_multichunk (set_documents s (delete id (ds_documents s))) ∖ {[id]})).
  transitivity (let* s' := advance_generation (set_text s0 x) 1 in
    let* s' := (let s := track_dense_change s' id 0 (Some d) in if has_embedding d then if decide (id ∈ ds_embedded s) then Ok (set_embedded s (ds_embedded s ∖ {[id]})) else Panic else Ok s) in
    let* f := remove_filters (ds_filters s') d in
    let s := set_filters s' f in
    let* slots := expect (ds_slots s !! id) in
    let s := set_slots s (delete id (ds_slots s)) in
    if negb (Nat.eqb (length slots) (length (doc_chunks d))) then Panic else
    let* (t, ps) := remove_chunks (ds_table s) (ds_postings s) id ix 0 (zip (doc_chunks d) slots) in
    Ok (set_postings (set_table s (trim_slots t)) ps)); [done|]. cbv zeta.
  rewrite advance_text. destruct (advance_generation s0 1) as [s1| |]; [|done|done]. cbn [obind on_text]. rewrite track_text. set (s2 := track_dense_change s1 _ _ _).
  assert (E : (if has_embedding d then if decide (id ∈ ds_embedded (set_text s2 x)) then Ok (set_embedded (set_text s2 x) (ds_embedded (set_text s2 x) ∖ {[id]})) else Panic else Ok (set_text s2 x)) =
    on_text x (if has_embedding d then if decide (id ∈ ds_embedded s2) then Ok (set_embedded s2 (ds_embedded s2 ∖ {[id]})) else Panic else Ok s2)).
  { destruct (has_embedding d); [|done]. cbn [set_text ds_embedded]. by case_decide. }
  rewrite E. clear E. set (m := if has_embedding d then if decide (id ∈ ds_embedded s2) then Ok (set_embedded s2 (ds_embedded s2 ∖ {[id]})) else Panic else Ok s2).
  destruct m as [s3| |]; [|done|done]. cbn [obind on_text set_text ds_filters].
  destruct (remove_filters _ _) as [f| |]; [|done|done]. cbn [obind set_filters ds_slots]. destruct (expect _) as [slots| |]; [|done|done]. cbn [obind].
  destruct (negb _); [done|]. cbn [set_slots ds_table ds_postings]. by destruct (remove_chunks _ _ _ _ _ _) as [[t ps]| |].
Qed.

(** ** The documents after an operation *)

Lemma advance_documents (s s' : Store) n : advance_generation s n = Ok s' -> ds_documents s' = ds_documents s.
Proof. unfold advance_generation. destruct (expect _); [|done|done]. cbn. by intros [= <-]. Qed.

Lemma track_documents (s : Store) id n p : ds_documents (track_dense_change s id n p) = ds_documents s.
Proof. unfold track_dense_change. destruct (ds_dense s); [|done]. destruct (_ || _); [done|]. by destruct (ds_changes s !! id). Qed.

Lemma enter_documents (s : Store) ds : ds_documents (foldl enter_document s ds) = put_docs (ds_documents s) ds.
Proof.
  revert s. induction ds as [|d ds IH]; intros s; [done|]. cbn [foldl put_docs]. rewrite IH. unfold enter_document. cbn [set_documents ds_documents].
  by rewrite track_documents.
Qed.

Lemma install_document_documents (s s' : Store) d i : install_document s d = Ok (s', i) -> ds_documents s' = ds_documents s.
Proof.
  unfold install_document. destruct (insert_chunks _ _ _ _) as [[t slots]| |]; [|done|done]. cbn [obind].
  destruct (1 <? _), (has_embedding d); cbn; try case_decide; try done; by intros [= <- _].
Qed.

Lemma install_documents_documents (s s' : Store) ds i : install_documents s ds = Ok (s', i) -> ds_documents s' = ds_documents s.
Proof.
  revert s i. induction ds as [|d ds IH]; intros s i; cbn [install_documents]; [by intros [= <- _]|].
  destruct (install_document s d) as [[s1 j]| |] eqn:E; [|done|done]. cbn [obind]. destruct (install_documents s1 ds) as [[s2 k]| |] eqn:E2; [|done|done].
  cbn. intros [= <- _]. rewrite (IH _ _ E2). by eapply install_document_documents.
Qed.

Lemma install_new_documents (s s' : Store) group : install_new threads s group = Ok s' -> ds_documents s' = put_docs (ds_documents s) group.
Proof.
  unfold install_new. destruct group as [|d ds]; [by intros [= <-]|]. destruct (install_documents s _) as [[s1 i]| |] eqn:E; [|done|done]. cbn [obind].
  destruct (index_chunks _ _ _ _) as [ps| |]; [|done|done]. cbn [obind]. destruct (advance_generation _ _) as [s2| |] eqn:E2; [|done|done]. cbn [obind].
  intros [= <-]. change (foldl enter_document (enter_document s2 d) ds) with (foldl enter_document s2 (d :: ds)). rewrite enter_documents, (advance_documents _ _ _ E2). cbn [set_postings ds_documents]. by rewrite (install_documents_documents _ _ _ _ E).
Qed.

Lemma remove_entry_documents (s s' : Store) id d ix : remove_entry s id d ix = Ok s' -> ds_documents s' = delete id (ds_documents s).
Proof.
  unfold remove_entry. destruct (advance_generation _ _) as [s1| |] eqn:E; [|done|done]. apply advance_documents in E. cbn [set_multichunk set_documents ds_documents] in E.
  cbn [obind]. pose proof (track_documents s1 id 0 (Some d)) as Et. set (s2 := track_dense_change s1 _ _ _) in *.
  assert (He : forall s3, (if has_embedding d then if decide (id ∈ ds_embedded s2) then Ok (set_embedded s2 (ds_embedded s2 ∖ {[id]})) else Panic else Ok s2) = Ok s3 ->
    ds_documents s3 = ds_documents s2).
  { intros s3. destruct (has_embedding d); [case_decide; [|done]|]; by intros [= <-]. }
  destruct (if has_embedding d then _ else _) as [s3| |]; [|done|done]. specialize (He s3 eq_refl). cbn [obind].
  destruct (remove_filters _ _) as [f| |]; [|done|done]. cbn [obind]. destruct (expect _) as [slots| |]; [|done|done]. cbn [obind].
  destruct (negb _); [done|]. destruct (remove_chunks _ _ _ _ _ _) as [[t ps]| |]; [|done|done]. cbn [obind]. intros [= <-].
  cbn [set_postings set_table set_slots set_filters ds_documents]. by rewrite He, Et, E.
Qed.

(** What does not touch the segment leaves it as it is. *)
Lemma text_kept (f : Store -> outcome Store) (s s' : Store) : (forall x, f (set_text s x) = on_text x (f s)) -> f s = Ok s' -> ds_text s' = ds_text s.
Proof. intros Hf Hs. specialize (Hf (ds_text s)). rewrite (set_text_same s _ eq_refl), Hs in Hf. cbn in Hf. injection Hf as ->. done. Qed.

Lemma replace_embedded_text (s : Store) id o n x : replace_embedded (set_text s x) id o n = on_text x (replace_embedded s id o n).
Proof. unfold replace_embedded. cbn [set_text ds_embedded]. destruct (_ && _); [by case_decide|]. destruct (_ && _); [by case_decide|done]. Qed.

(** Replacing in place scrubs last. *)
Lemma replace_shared_text (s s' : Store) id p d T T' :
  ds_text s = None -> replace_shared s id p d = Ok s' -> scrub_spans T d (omap c_text_at (doc_chunks p)) = Ok T' ->
  replace_shared (set_text s (Some T)) id p d = Ok (set_text s' (Some T')) /\ ds_documents s' = <[id := d]> (ds_documents s) /\ ds_text s' = None.
Proof.
  intros Ht Hs Hsc. unfold replace_shared in *. cbn [set_text ds_filters]. destruct (remove_filters _ _) as [f| |]; [|done|done]. cbn [obind] in *.
  cbn [set_filters set_text ds_slots] in *. destruct (expect _) as [slots| |]; [|done|done]. cbn [obind] in *. destruct (negb _); [done|].
  cbn [ds_table ds_postings] in *. destruct (replace_chunks _ _ _ _ _ _) as [[t ps]| |]; [|done|done]. cbn [obind] in *.
  destruct (shift_vector_states _ _ _) as [st| |]; [|done|done]. cbn [obind] in *.
  set (s1 := set_postings _ ps) in Hs.
  match goal with |- context [set_postings ?a ps] => change (set_postings a ps) with (set_text s1 (Some T)) end.
  assert (E1 : ds_text s1 = None /\ ds_documents s1 = ds_documents s) by done. clearbody s1.
  revert Hs. generalize (existsb (fun x : StoredChunk * StoredChunk * Z => (0 <? embedded x.1.1)%Z) (zip (zip (doc_chunks p) (doc_chunks d)) slots)) as o.
  generalize (existsb (fun x : StoredChunk * StoredChunk * Z => (0 <? embedded x.1.2)%Z) (zip (zip (doc_chunks p) (doc_chunks d)) slots)) as n. intros n o Hs.
  rewrite replace_embedded_text. destruct (replace_embedded s1 id o n) as [s2| |] eqn:E2; [|done|done]. cbn [obind on_text] in *.
  assert (E3 : ds_documents s2 = ds_documents s1).
  { unfold replace_embedded in E2. destruct (_ && _); [case_decide; [|done]|destruct (_ && _); [case_decide; [done|]|]]; by injection E2 as <-. }
  pose proof (text_kept (fun s => replace_embedded s id o n) s1 s2 (replace_embedded_text s1 id o n) E2) as E3t.
  rewrite advance_text. destruct (advance_generation s2 1) as [s3| |] eqn:E4; [|done|done]. cbn [obind on_text] in *. rewrite track_text.
  pose proof (advance_documents _ _ _ E4) as E5. pose proof (text_kept (fun s => advance_generation s 1) s2 s3 (fun x => advance_text s2 1 x) E4) as E5t.
  pose proof (track_documents s3 id (Z.of_nat (length (doc_chunks d))) (Some p)) as E6.
  assert (E6t : ds_text (track_dense_change s3 id (Z.of_nat (length (doc_chunks d))) (Some p)) = ds_text s3).
  { pose proof (track_text s3 id (Z.of_nat (length (doc_chunks d))) (Some p) (ds_text s3)) as E. rewrite (set_text_same s3 _ eq_refl) in E. rewrite E. done. }
  set (s4 := track_dense_change _ _ _ _) in *. rewrite E6t, E5t, E3t, (proj1 E1) in Hs. cbn [scrub_replaced obind] in Hs. injection Hs as <-.
  cbn [set_text ds_text scrub_replaced ds_documents set_documents]. rewrite Hsc. cbn [obind]. split; [done|]. split; [|done]. cbn. by rewrite E6, E5, E3, (proj2 E1).
Qed.
End Commute.

(** ** The locations documents hold *)

Section Places.
Context {V : Type}.
Abbreviation Doc := (StoredDocument V).
Abbreviation docs := (gmap (list Z) Doc).

Definition places (c : StoredChunk) : option (list Z) * option location := (c_text c, c_text_at c).

(** The same text, inline and in the segment. *)
Definition same_place (d d' : Doc) : Prop := doc_id d' = doc_id d /\ map places (doc_chunks d') = map places (doc_chunks d).

Definition locs (d : Doc) : list location := omap c_text_at (doc_chunks d).
Definition all_locs (ds : list Doc) : list location := concat (map locs ds).
Definition live (M : docs) : list location := all_locs (map snd (map_to_list M)).

(** Text only in the segment. *)
Definition unwritten (d : Doc) : Prop := Forall (fun c => c_text c = None) (doc_chunks d).
Definition tidy (M : docs) : Prop := map_Forall (fun id d => doc_id d = id /\ unwritten d) M.

Lemma locs_places (d : Doc) : locs d = omap snd (map places (doc_chunks d)).
Proof. unfold locs. induction (doc_chunks d) as [|c cs IH]; [done|]. cbn. by rewrite IH. Qed.

Lemma unwritten_places (d : Doc) : unwritten d <-> Forall (fun p : option (list Z) * option location => p.1 = None) (map places (doc_chunks d)).
Proof. unfold unwritten. by rewrite Forall_map. Qed.

Lemma same_place_refl (d : Doc) : same_place d d. Proof. done. Qed.

Lemma same_place_trans (a b c : Doc) : same_place a b -> same_place b c -> same_place a c.
Proof. intros [A1 A2] [B1 B2]. split; congruence. Qed.

Lemma same_place_locs (d d' : Doc) : same_place d d' -> locs d' = locs d.
Proof. intros [_ E]. by rewrite !locs_places, E. Qed.

Lemma same_place_unwritten (d d' : Doc) : same_place d d' -> unwritten d -> unwritten d'.
Proof. intros [_ E]. by rewrite !unwritten_places, E. Qed.

Lemma same_document_place (d d' : Doc) : same_document d d' -> same_place d d'.
Proof.
  intros [E1 E2]. split; [by rewrite E1|]. clear E1. induction E2 as [|c c' cs cs' (E & _) _ IH]; [done|]. cbn [map]. rewrite IH.
  assert (places c' = places c) as -> by (unfold places; by rewrite E). done.
Qed.

Definition same_places (M M' : docs) : Prop := forall id, option_Forall2 same_place (M !! id) (M' !! id).

Lemma live_perm (M : docs) l : map_to_list M ≡ₚ l -> live M ≡ₚ all_locs (map snd l).
Proof. intros H. unfold live, all_locs. by rewrite H. Qed.

Lemma live_insert (M : docs) id d : M !! id = None -> live (<[id := d]> M) ≡ₚ locs d ++ live M.
Proof. intros Hn. by rewrite (live_perm _ _ (map_to_list_insert M id d Hn)). Qed.

Lemma live_delete (M : docs) id d : M !! id = Some d -> live M ≡ₚ locs d ++ live (delete id M).
Proof. intros Hd. rewrite <- (insert_delete_id M id d Hd) at 1. apply live_insert, lookup_delete_eq. Qed.

Lemma live_replace (M : docs) id d : live (<[id := d]> M) ≡ₚ locs d ++ live (delete id M).
Proof. rewrite <- insert_delete_eq. apply live_insert, lookup_delete_eq. Qed.

Lemma live_put (M : docs) ds : all_new M ds -> live (put_docs M ds) ≡ₚ live M ++ all_locs ds.
Proof.
  revert M. induction ds as [|d ds IH]; intros M Hn; [by rewrite app_nil_r|]. apply all_new_cons in Hn as [Hd Hn]. cbn [put_docs foldl].
  rewrite (IH _ Hn), (live_insert _ _ _ Hd). unfold all_locs. cbn [map concat]. rewrite (Permutation_app_comm (locs d)). by rewrite app_assoc.
Qed.

Lemma live_same (M M' : docs) : same_places M M' -> live M' ≡ₚ live M.
Proof.
  revert M'. induction M as [|id d M Hn IH] using map_ind; intros M' H.
  - assert (M' = ∅) as ->; [|done]. apply map_empty. intros id. specialize (H id). rewrite lookup_empty in H. by inversion H.
  - pose proof (H id) as Hid. rewrite lookup_insert_eq in Hid. inversion Hid as [? d' Hd E1 E2|]; subst. symmetry in E2.
    rewrite (live_delete M' id d' E2), (live_insert M id d Hn), (same_place_locs d d' Hd). f_equiv. apply IH.
    intros id'. destruct (decide (id' = id)) as [->|Hne]; [rewrite lookup_delete_eq, Hn; constructor|]. specialize (H id').
    by rewrite lookup_insert_ne in H; [rewrite lookup_delete_ne|].
Qed.

Lemma tidy_same (M M' : docs) : same_places M M' -> tidy M -> tidy M'.
Proof.
  intros H Ht id d' Hd'. specialize (H id). rewrite Hd' in H. inversion H as [d ? Hd E|]; subst. symmetry in E. destruct (Ht _ _ E) as [<- Hu].
  split; [apply Hd|by eapply same_place_unwritten].
Qed.

Lemma tidy_put (M : docs) ds : tidy M -> Forall unwritten ds -> tidy (put_docs M ds).
Proof. intros Ht Hf. revert M Ht. induction Hf as [|d ds Hd _ IH]; intros M Ht; [done|]. cbn [put_docs foldl]. apply IH. by apply map_Forall_insert_2. Qed.

Lemma same_places_put (M M' : docs) ds ds' : same_places M M' -> Forall2 same_place ds ds' -> same_places (put_docs M ds) (put_docs M' ds').
Proof.
  intros H Hd. revert M M' H. induction Hd as [|d d' ds ds' Hdd _ IH]; intros M M' H; [done|]. cbn [put_docs foldl]. apply IH. intros id.
  rewrite (proj1 Hdd). destruct (decide (id = doc_id d)) as [->|Hne]; [rewrite !lookup_insert_eq; by constructor|]. rewrite !lookup_insert_ne by done. apply H.
Qed.

Lemma same_places_refl (M : docs) : same_places M M.
Proof. intros id. by destruct (M !! id); constructor. Qed.

Lemma same_places_delete (M M' : docs) id : same_places M M' -> same_places (delete id M) (delete id M').
Proof. intros H id'. destruct (decide (id' = id)) as [->|Hne]; [rewrite !lookup_delete_eq; constructor|]. rewrite !lookup_delete_ne by done. apply H. Qed.

(** ** Sharing keeps them *)

Lemma share_chunks_places d cs ids cs' r : share_chunks d cs ids = Ok (cs', r) -> map places cs' = map places cs.
Proof.
  revert ids cs' r. induction cs as [|c cs IH]; intros ids cs' r; cbn [share_chunks]; [by intros [= <- _]|].
  destruct (share_chunk d c ids) as [[c1 i1]| |] eqn:E; [|done|done]. cbn [obind]. destruct (share_chunks d cs i1) as [[cs1 i2]| |] eqn:E2; [|done|done].
  cbn. intros [= <- _]. cbn [map]. rewrite (IH _ _ _ E2). f_equal. unfold share_chunk in E. destruct (t_entries _); [|done|done]. cbn [obind] in E.
  destruct (slice _ _ _); [|done|done]. cbn [obind] in E. destruct (from_dictionary _ _ _); [|done|done]. cbn in E. by injection E as <- _.
Qed.

Lemma share_loop_places d (ds : list Doc) ids ds' r : share_loop d ds ids = Ok (ds', r) -> Forall2 same_place ds ds'.
Proof.
  revert ids ds' r. induction ds as [|x ds IH]; intros ids ds' r; cbn [share_loop]; [intros [= <- _]; constructor|].
  destruct (share_chunks d _ ids) as [[cs i1]| |] eqn:E; [|done|done]. cbn [obind]. destruct (share_loop d ds i1) as [[ds1 i2]| |] eqn:E2; [|done|done].
  cbn. intros [= <- _]. constructor; [|by eapply IH]. split; [done|]. by eapply share_chunks_places.
Qed.

Lemma same_place_diag (ds : list Doc) : Forall2 same_place ds ds.
Proof. by apply Forall_Forall2_diag, Forall_true. Qed.

Lemma share_group_places (ds ds' : list Doc) : share_group ds = Ok ds' -> Forall2 same_place ds ds'.
Proof.
  unfold share_group, share_documents. destruct (forallb _ ds); [|intros [= <-]; apply same_place_diag].
  destruct (forallb _ ds); [intros [= <-]; apply same_place_diag|]. destruct (document_keys ds); [|done|done]. cbn [obind].
  destruct (dictionary_new _) as [d| |]; [|done|done]. cbn [obind]. destruct (share_loop d ds _) as [[ds1 i]| |] eqn:E; [|done|done]. cbn [obind].
  destruct i; [|done]. intros [= <-]. by eapply share_loop_places.
Qed.

Lemma share_groups_places (gs gs' : list (list Doc)) : omap_list share_group gs = Ok gs' -> Forall2 same_place (concat gs) (concat gs').
Proof.
  revert gs'. induction gs as [|g gs IH]; intros gs'; cbn [omap_list]; [intros [= <-]; constructor|].
  destruct (share_group g) as [g'| |] eqn:E; [|done|done]. cbn [obind]. destruct (omap_list _ gs) as [gs1| |]; [|done|done]. cbn. intros [= <-].
  cbn [concat]. apply Forall2_app; [by apply share_group_places|by apply IH].
Qed.
End Places.
