(* ===== verification/TextEdits.v ===== *)
(** * Edits of a store with a text segment

    Every edit of a store with a segment does what it does on the store without one, gives each
    stored text a record of its own and scrubs the records no stored document holds any more. *)

From S2P Require Import Prelude Words BitPack Search Positions Terms FrameDict TextSegment Binary Journal Share TermDict Postings Cursor PostingEdit PostingRuns Lists Indexing Bulk IndexRuns Filters SlotTable Store Capacity StoreSpec StoreEdits StoreRuns StoreText TextRecords TextSim.

(** ** Scrubbing what a replacement drops *)

Section Scrub.
Context {V : Type}.
Context (crc32 : list Z -> Z) (cipher : option Aead) (Hlaws : forall a, cipher = Some a -> AeadLaws a).
Abbreviation Doc := (StoredDocument V).

Lemma not_held (d : Doc) span : forallb (fun c => bool_decide (c_text_at c <> Some span)) (doc_chunks d) = true <-> span ∉ locs d.
Proof.
  rewrite forallb_forall. unfold locs. rewrite list_elem_of_omap. split.
  - intros H (c & Hc & E). apply list_elem_of_In in Hc. specialize (H c Hc). by apply bool_decide_eq_true in H.
  - intros H c Hc. apply bool_decide_eq_true. intros E. apply H. exists c. split; [by apply list_elem_of_In|done].
Qed.

(** The new document has records of its own. *)
Lemma scrub_spans_texts T g (d : Doc) spans rest :
  texts_ok crc32 cipher T g (spans ++ locs d ++ rest) ->
  exists T' g', scrub_spans T d spans = Ok T' /\ texts_ok crc32 cipher T' g' (locs d ++ rest) /\ kept crc32 cipher T T' (locs d ++ rest).
Proof using Hlaws.
  revert T g. induction spans as [|sp spans IH]; intros T g Hok; [by exists T, g|]. cbn [scrub_spans app] in *.
  destruct (forallb _ _) eqn:Hf.
  - destruct (scrub_texts crc32 cipher Hlaws _ _ _ _ Hok) as (T1 & g1 & -> & Hok1 & Hr1). cbn [expect_ok obind].
    destruct (IH T1 g1 Hok1) as (T' & g' & -> & Hok' & Hr'). exists T', g'. split_and!; [done|done|].
    eapply kept_trans; [exact Hr1|exact Hr'|]. intros loc Hl. apply elem_of_app. by right.
  - cbn [obind]. apply (IH T g). apply drop_empty with sp; [done|]. intros Hp.
    assert (Hin : sp ∈ locs d). { destruct (decide (sp ∈ locs d)) as [|Hn]; [done|]. apply not_held in Hn. congruence. }
    pose proof (tx_unique _ _ _ _ _ Hok) as Hu. cbn [map] in Hu. rewrite filter_cons_True in Hu by done. apply NoDup_cons in Hu as [Hu _].
    apply Hu, list_elem_of_filter. split; [done|]. apply list_elem_of_fmap_2. apply elem_of_app. right. apply elem_of_app. by left.
Qed.

(** The new document keeps the records of the old one. *)
Lemma scrub_spans_same T (d : Doc) spans : (forall sp, sp ∈ spans -> sp ∈ locs d) -> scrub_spans T d spans = Ok T.
Proof.
  induction spans as [|sp spans IH]; intros H; [done|]. cbn [scrub_spans]. destruct (forallb _ _) eqn:Hf.
  - apply not_held in Hf. exfalso. apply Hf, H. left.
  - cbn [obind]. apply IH. intros x Hx. apply H. by right.
Qed.
End Scrub.

Section Edits.
Context {V : Type} {json : Json V} `{!EqDecision (StoredDocument V)}.
Context {D : Type} {dict : TermIndex D} {B : Type} {checkpoint : Checkpoint B}.
Context (threads : nat) (crc32 : list Z -> Z) (cipher : option Aead) (nonce_at : Z -> list Z).
Abbreviation Doc := (StoredDocument V).
Abbreviation docs := (gmap (list Z) Doc).
Abbreviation Store := (DocumentStore V D B).

(** ** Rebuilds *)

Definition rebuilds_text (insert : Store -> list Doc -> outcome Store) : Prop :=
  forall g T ds s', NoDup (map doc_id ds) -> Forall unwritten ds -> insert (empty_at g) ds = Ok s' ->
    insert (set_text (empty_at g) (Some T)) ds = Ok (set_text s' (Some T)) /\ ds_text s' = None /\ same_places (put_docs ∅ ds) (ds_documents s').

Lemma stripped_unwritten (x : option TextSegment) (d : Doc) : unwritten d -> stripped crc32 cipher nonce_at x d = Ok (x, d).
Proof.
  intros Hu. unfold stripped. destruct x as [T|]; [|done]. rewrite (proj2 (forallb_forall _ _)); [done|]. intros c Hc.
  unfold unwritten in Hu. rewrite Forall_forall in Hu. apply list_elem_of_In in Hc. by rewrite (Hu c Hc).
Qed.

Lemma prepare_unwritten (s : Store) (ds : list Doc) : ds_base s = None -> Forall unwritten ds -> prepare_each crc32 cipher nonce_at s ds = Ok (s, ds).
Proof.
  intros Hb Hf. induction Hf as [|d ds Hd _ IH]; [done|]. cbn [prepare_each]. unfold kill_base. rewrite Hb. cbn [obind].
  rewrite stripped_unwritten by done. cbn [obind]. rewrite (set_text_same s _ eq_refl), IH. done.
Qed.

Lemma same_place_ids (ds ds' : list Doc) : Forall2 same_place ds ds' -> map doc_id ds' = map doc_id ds.
Proof. induction 1 as [|d d' ds ds' [E _] _ IH]; [done|]. cbn. by rewrite E, IH. Qed.

Lemma same_place_all_unwritten (ds ds' : list Doc) : Forall2 same_place ds ds' -> Forall unwritten ds -> Forall unwritten ds'.
Proof. induction 1 as [|d d' ds ds' E _ IH]; [done|]. intros [Hd Hf]%Forall_cons. constructor; [by eapply same_place_unwritten|by apply IH]. Qed.

Lemma rebuilds_text_at n : rebuilds_text (insert_batch_at threads crc32 cipher nonce_at (S n)).
Proof.
  intros g T ds s' Hnd Hu. cbn [insert_batch_at]. set (ins := insert_batch_at threads crc32 cipher nonce_at n). unfold insert_by.
  destruct (omap_list share_group _) as [gs| |] eqn:E; [|done|done]. apply share_groups_places in E.
  rewrite chunks_of_concat in E by (first [apply Nat.lt_0_succ|done]). cbn [obind].
  pose proof (same_place_all_unwritten _ _ E Hu) as Hu'. rewrite !prepare_unwritten by done. cbn [obind].
  assert (Hn' : all_new (∅ : docs) (concat gs)) by (split; [by rewrite (same_place_ids _ _ E)|apply Forall_forall; intros; apply lookup_empty]).
  rewrite !group_loop_fresh by (first [done|set_solver]). cbn [app]. intros Hs. rewrite install_new_text, Hs. cbn [on_text obind]. split_and!; [done| |].
  - by apply (text_kept (fun s => install_new threads s (concat gs)) (empty_at g) s' (fun x => install_new_text threads _ _ x) Hs).
  - rewrite (install_new_documents threads _ _ _ Hs). apply same_places_put; [apply same_places_refl|done].
Qed.

Lemma document_list_tidy (s : Store) :
  tidy (ds_documents s) -> NoDup (map doc_id (document_list s)) /\ Forall unwritten (document_list s) /\ put_docs ∅ (document_list s) = ds_documents s.
Proof.
  intros Ht. unfold document_list. set (l := merge_sort id_le _). assert (Hp : l ≡ₚ map_to_list (ds_documents s)) by apply merge_sort_Permutation.
  assert (Hnd : NoDup (map fst l)) by (rewrite Hp; apply NoDup_fst_map_to_list).
  assert (Hin : forall e, e ∈ l -> doc_id e.2 = e.1 /\ unwritten e.2).
  { intros [id d] He. rewrite Hp in He. apply elem_of_map_to_list in He. exact (Ht _ _ He). }
  split_and!.
  - rewrite map_map. replace (map (fun x => doc_id x.2) l) with (map fst l); [done|]. apply map_ext_in. intros e He. apply list_elem_of_In in He. by destruct (Hin e He).
  - apply Forall_forall. intros d (e & -> & He)%list_elem_of_fmap. by apply Hin.
  - rewrite put_docs_perm; [|done|]. { rewrite (list_to_map_proper l (map_to_list (ds_documents s))) by done. apply list_to_map_to_list. }
    apply Forall_forall. intros e He. by apply Hin.
Qed.

(** The group goes in. *)
Lemma flush_text (s s1 : Store) group rest T g :
  ds_text s = None -> tidy (ds_documents s) -> all_new (ds_documents s) group -> Forall unwritten group ->
  texts_ok crc32 cipher T g (live (ds_documents s) ++ all_locs group ++ rest) -> install_new threads s group = Ok s1 ->
  install_new threads (set_text s (Some T)) group = Ok (set_text s1 (Some T)) /\ ds_text s1 = None /\ tidy (ds_documents s1) /\
  texts_ok crc32 cipher T g (live (ds_documents s1) ++ rest) /\ live (ds_documents s1) ++ rest ≡ₚ live (ds_documents s) ++ all_locs group ++ rest.
Proof.
  intros Ht Htidy Hnew Hu Hok Hs. rewrite install_new_text, Hs. pose proof (install_new_documents threads _ _ _ Hs) as Ed.
  assert (Hp : live (ds_documents s1) ++ rest ≡ₚ live (ds_documents s) ++ all_locs group ++ rest) by (rewrite Ed, (live_put _ _ Hnew); by rewrite app_assoc).
  split_and!; [done| |rewrite Ed; by apply tidy_put|by eapply texts_perm|done].
  by rewrite (text_kept (fun s => install_new threads s group) s s1 (fun x => install_new_text threads _ _ x) Hs).
Qed.

Section Rebuild.
Context (insert : Store -> list Doc -> outcome Store) (Hinsert : rebuilds_text insert).

Lemma remove_text (s s' : Store) id d r T ix :
  ds_text s = None -> tidy (ds_documents s) -> ds_documents s !! id = Some d -> remove_by insert s id ix = Ok (s', r) ->
  r = Some d /\ remove_by insert (set_text s (Some T)) id ix = Ok (set_text s' (Some T), Some d) /\ ds_text s' = None /\
  same_places (delete id (ds_documents s)) (ds_documents s').
Proof using Hinsert.
  intros Ht Htidy Hd. unfold remove_by. cbn [set_text ds_documents]. rewrite Hd.
  change (mkStore _ _ _ _ _ _ _ _ _ _ (Some T) _) with (set_text s (Some T)). rewrite remove_entry_text.
  destruct (remove_entry s id d ix) as [s1| |] eqn:E; [|done|done]. cbn [on_text obind].
  pose proof (remove_entry_documents _ _ _ _ _ E) as Ed.
  pose proof (text_kept (fun s => remove_entry s id d ix) s s1 (fun x => remove_entry_text _ _ _ _ x) E) as Et.
  cbn [set_text ds_table]. destruct (sparse (ds_table s1)) eqn:Hsp.
  - assert (Htidy1 : tidy (ds_documents s1)) by (rewrite Ed; by apply map_Forall_delete).
    destruct (document_list_tidy s1 Htidy1) as (L1 & L2 & L3).
    assert (R1 : rebuild_from s1 = empty_at (ds_generation s1)) by (unfold rebuild_from, empty_at; by rewrite Et, Ht).
    destruct (insert (rebuild_from s1) (document_list s1)) as [s2| |] eqn:E2; [|done|done]. cbn [obind]. intros [= <- <-].
    rewrite R1 in E2. destruct (Hinsert _ T _ _ L1 L2 E2) as (H1 & H2 & H3).
    change (rebuild_from (set_text s1 (Some T))) with (set_text (empty_at (ds_generation s1)) (Some T) : Store).
    change (document_list (set_text s1 (Some T))) with (document_list s1).
    rewrite L3, Ed in H3. split; [done|]. split; [|done]. unfold rebuild_from. cbn [set_text ds_generation ds_text]. rewrite H1. done.
  - cbn [obind]. intros [= <- <-]. split_and!; [done|done|by rewrite Et|]. rewrite Ed. apply same_places_refl.
Qed.

(** The store after a replacement: its documents hold what the reference's hold. *)
Lemma replace_text (s s' : Store) (p d : Doc) T T' :
  ds_text s = None -> tidy (ds_documents s) -> ds_documents s !! doc_id d = Some p -> replace_by threads insert s d = Ok s' ->
  scrub_spans T d (locs p) = Ok T' ->
  replace_by threads insert (set_text s (Some T)) d = Ok (set_text s' (Some T')) /\ ds_text s' = None /\
  same_places (<[doc_id d := d]> (ds_documents s)) (ds_documents s').
Proof using Hinsert.
  intros Ht Htidy Hp Hs Hsc. unfold replace_by in *. cbn [set_text ds_documents]. rewrite Hp in *.
  change (mkStore _ _ _ _ _ _ _ _ _ _ (Some T) _) with (set_text s (Some T)). destruct (Nat.eqb _ _).
  - destruct (replace_shared_text s s' (doc_id d) p d T T' Ht Hs Hsc) as (-> & E1 & E2). split_and!; [done|done|]. rewrite E1. apply same_places_refl.
  - destruct (remove_by insert s (doc_id d) true) as [[s1 r]| |] eqn:E; [|done|done].
    destruct (remove_text s s1 (doc_id d) p r T true Ht Htidy Hp E) as (-> & -> & E1 & E2). cbn [obind] in *. rewrite E1 in Hs. cbn [scrub_replaced obind] in Hs.
    rewrite (set_text_same s1 None E1) in Hs. cbn [set_text ds_text scrub_replaced]. unfold locs in Hsc. rewrite Hsc. cbn [obind].
    change (mkStore _ _ _ _ _ _ _ _ _ _ (Some T) _) with (set_text s1 (Some T)).
    change (set_text (set_text s1 (Some T)) (Some T')) with (set_text s1 (Some T')). rewrite install_new_text, Hs. cbn [on_text obind]. split_and!; [done| |].
    + by rewrite (text_kept (fun s => install_new threads s [d]) s1 s' (fun x => install_new_text threads _ _ x) Hs).
    + rewrite (install_new_documents threads _ _ _ Hs). rewrite <- insert_delete_eq. apply (same_places_put _ _ [d] [d]); [done|apply same_place_diag].
Qed.

(** One replacement, with the records of the new document already written. *)
Lemma replace_fresh (Hlaws : forall a, cipher = Some a -> AeadLaws a) (s s' : Store) (p d : Doc) T g rest :
  ds_text s = None -> tidy (ds_documents s) -> unwritten d -> ds_documents s !! doc_id d = Some p -> replace_by threads insert s d = Ok s' ->
  texts_ok crc32 cipher T g (live (ds_documents s) ++ locs d ++ rest) ->
  exists T' g', replace_by threads insert (set_text s (Some T)) d = Ok (set_text s' (Some T')) /\ ds_text s' = None /\ tidy (ds_documents s') /\
    texts_ok crc32 cipher T' g' (live (ds_documents s') ++ rest) /\ kept crc32 cipher T T' (live (ds_documents s') ++ rest) /\
    live (ds_documents s') ≡ₚ locs d ++ live (delete (doc_id d) (ds_documents s)).
Proof using Hinsert.
  intros Ht Htidy Hu Hp Hs Hok. pose proof (live_delete _ _ _ Hp) as Hl.
  destruct (scrub_spans_texts crc32 cipher Hlaws T g d (locs p) (live (delete (doc_id d) (ds_documents s)) ++ rest)) as (T' & g' & Hsc & Hok' & Hr').
  { eapply texts_perm; [|exact Hok]. rewrite Hl. solve_Permutation. }
  destruct (replace_text s s' p d T T' Ht Htidy Hp Hs Hsc) as (H1 & H2 & H3). exists T', g'.
  assert (Hlive : live (ds_documents s') ≡ₚ locs d ++ live (delete (doc_id d) (ds_documents s))) by (by rewrite (live_same _ _ H3), live_replace).
  assert (Hperm : locs d ++ live (delete (doc_id d) (ds_documents s)) ++ rest ≡ₚ live (ds_documents s') ++ rest) by (rewrite Hlive; solve_Permutation).
  split_and!; [done|done| |by eapply texts_perm|split; [intros loc Hin; apply Hr'; by rewrite Hperm|apply Hr']|done].
  eapply tidy_same; [exact H3|]. apply map_Forall_insert_2; done.
Qed.

(** The run with a segment does what the run without does, from the text [T] and the records [L]. *)
Definition simulates (T : TextSegment) (L : list location) (m mT : outcome Store) : Prop :=
  forall s', m = Ok s' -> exists T' g', mT = Ok (set_text s' (Some T')) /\ ds_text s' = None /\ tidy (ds_documents s') /\
    texts_ok crc32 cipher T' g' (live (ds_documents s')) /\ kept crc32 cipher T T' (live (ds_documents s')) /\
    (forall loc, loc ∈ live (ds_documents s') -> loc ∈ L).

Definition loop_text (ds : list Doc) : Prop :=
  forall (s : Store) (group : list Doc) (grouped : gset (list Z)) T g,
  ds_text s = None -> tidy (ds_documents s) -> all_new (ds_documents s) group -> (forall d, d ∈ group -> doc_id d ∈ grouped) ->
  Forall unwritten group -> Forall unwritten ds -> texts_ok crc32 cipher T g (live (ds_documents s) ++ all_locs group ++ all_locs ds) ->
  simulates T (live (ds_documents s) ++ all_locs group ++ all_locs ds)
    (group_loop threads insert s ds group grouped) (group_loop threads insert (set_text s (Some T)) ds group grouped).

Lemma simulates_weaken T L L' m mT : simulates T L m mT -> (forall loc, loc ∈ L -> loc ∈ L') -> simulates T L' m mT.
Proof. intros H Hs s' Hm. destruct (H s' Hm) as (T' & g' & H1 & H2 & H3 & H4 & H5 & H6). exists T', g'. split_and!; try done. auto. Qed.

(** A stored document is replaced once the group is in. *)
Lemma replace_then_text (Hlaws : forall a, cipher = Some a -> AeadLaws a) (d : Doc) (ds : list Doc) (s1 : Store) (grp : gset (list Z)) T g :
  loop_text ds -> ds_text s1 = None -> tidy (ds_documents s1) -> unwritten d -> Forall unwritten ds -> is_Some (ds_documents s1 !! doc_id d) ->
  texts_ok crc32 cipher T g (live (ds_documents s1) ++ locs d ++ all_locs ds) ->
  simulates T (live (ds_documents s1) ++ locs d ++ all_locs ds)
    (let* s := replace_by threads insert s1 d in group_loop threads insert s ds [] grp)
    (let* s := replace_by threads insert (set_text s1 (Some T)) d in group_loop threads insert s ds [] grp).
Proof using Hinsert.
  intros IH F1 F2 Hd Hu [p Hp] F3 s' Hs. destruct (replace_by threads insert s1 d) as [s2| |] eqn:E2; [|done|done]. cbn [obind] in Hs.
  destruct (replace_fresh Hlaws s1 s2 p d T g (all_locs ds) F1 F2 Hd Hp E2 F3) as (T2 & g2 & -> & R2 & R3 & R4 & R5 & R6). cbn [obind].
  destruct (IH s2 [] grp T2 g2 R2 R3) with s' as (T' & g' & I1 & I2 & I3 & I4 & I5 & I6); [by split; constructor|by intros x Hx%elem_of_nil|constructor|done|done|done|].
  exists T', g'. split_and!; [done|done|done|done| |].
  - eapply kept_trans; [exact R5|exact I5|exact I6].
  - intros loc Hl. apply I6 in Hl. cbn [all_locs map concat app] in Hl. rewrite (live_delete _ _ _ Hp). rewrite R6 in Hl. rewrite !elem_of_app in *. tauto.
Qed.

(** The grouping loop on documents whose records are written. *)
Lemma group_loop_text (Hlaws : forall a, cipher = Some a -> AeadLaws a) (ds : list Doc) : loop_text ds.
Proof using Hinsert.
  induction ds as [|d ds IH]; intros s group grouped T g Ht Htidy Hnew Hgr Hug Hu Hok s' Hs; cbn [group_loop] in *.
  { destruct (flush_text s s' group [] T g Ht Htidy Hnew Hug) as (-> & H1 & H2 & H3 & H4); [done|done|]. rewrite app_nil_r in H3. exists T, g.
    split_and!; [done|done|done|done|done|]. intros loc Hl. cbn [all_locs map concat]. rewrite <- H4. by rewrite app_nil_r. }
  apply Forall_cons in Hu as [Hd Hu]. change (all_locs (d :: ds)) with (locs d ++ all_locs ds) in *.
  destruct (decide (doc_id d ∈ grouped)) as [Hin|Hin]; [|cbn [obind] in *; case_decide as Hst].
  - destruct (install_new threads s group) as [s1| |] eqn:E1; [|done|done]. cbn [obind] in Hs.
    destruct (flush_text s s1 group (locs d ++ all_locs ds) T g Ht Htidy Hnew Hug Hok E1) as (-> & F1 & F2 & F3 & F4). cbn [obind set_text ds_documents].
    change (mkStore _ _ _ _ _ _ _ _ _ _ (Some T) _) with (set_text s1 (Some T)). case_decide as Hst; cbn [obind install_new] in *.
    + apply (simulates_weaken _ _ _ _ _ (replace_then_text Hlaws d ds s1 {[doc_id d]} T g IH F1 F2 Hd Hu Hst F3)); [|done]. intros loc. by rewrite F4.
    + eapply (simulates_weaken _ _ _ _ _ (IH s1 [d] {[doc_id d]} T g F1 F2 _ _ _ Hu _)); [|exact Hs]. intros loc. cbn [all_locs map concat]. by rewrite app_nil_r, F4.
      Unshelve.
      * split; [apply NoDup_singleton|]. apply Forall_singleton. by apply eq_None_not_Some.
      * intros x ->%list_elem_of_singleton. set_solver.
      * by apply Forall_singleton.
      * cbn [all_locs map concat]. by rewrite app_nil_r.
  - cbn [set_text ds_documents]. change (mkStore _ _ _ _ _ _ _ _ _ _ (Some T) _) with (set_text s (Some T)). rewrite decide_True by done.
    destruct (install_new threads s group) as [s1| |] eqn:E1; [|done|done]. cbn [obind] in Hs.
    destruct (flush_text s s1 group (locs d ++ all_locs ds) T g Ht Htidy Hnew Hug Hok E1) as (-> & F1 & F2 & F3 & F4). cbn [obind].
    assert (Hst1 : is_Some (ds_documents s1 !! doc_id d)) by (rewrite (install_new_documents threads _ _ _ E1); by apply put_docs_is_Some).
    apply (simulates_weaken _ _ _ _ _ (replace_then_text Hlaws d ds s1 ({[doc_id d]} ∪ grouped) T g IH F1 F2 Hd Hu Hst1 F3)); [|done]. intros loc. by rewrite F4.
  - cbn [set_text ds_documents]. change (mkStore _ _ _ _ _ _ _ _ _ _ (Some T) _) with (set_text s (Some T)). rewrite decide_False by done.
    assert (Hl : all_locs (group ++ [d]) ++ all_locs ds = all_locs group ++ locs d ++ all_locs ds).
    { unfold all_locs. rewrite map_app, concat_app. cbn [map concat]. by rewrite app_nil_r, <- app_assoc. }
    eapply (simulates_weaken _ _ _ _ _ (IH s (group ++ [d]) ({[doc_id d]} ∪ grouped) T g Ht Htidy _ _ _ Hu _)); [|exact Hs]. intros loc. by rewrite Hl.
    Unshelve.
    + destruct Hnew as [Hnd Hf]. split.
      * rewrite map_app. apply NoDup_app. split_and!; [done| |apply NoDup_singleton]. intros i (x & -> & Hx)%list_elem_of_fmap Hi.
        apply list_elem_of_singleton in Hi. apply Hin. rewrite <- Hi. by apply Hgr.
      * apply Forall_app. split; [done|]. apply Forall_singleton. by apply eq_None_not_Some.
    + intros x [Hx| ->%list_elem_of_singleton]%elem_of_app; [specialize (Hgr x Hx)|]; set_solver.
    + apply Forall_app. split; [done|]. by apply Forall_singleton.
    + by rewrite Hl.
Qed.
End Rebuild.
End Edits.
