(* ===== verification/TextStrip.v ===== *)
(** * Text moved into a segment and read back

    [resolved] is a document with its text read back; moving the text of new documents into the
    segment gives each chunk a record that reads back as its text. *)

From S2P Require Import Prelude Words BitPack Search Positions Terms FrameDict TextSegment Binary Journal Share TermDict Postings Cursor PostingEdit PostingRuns Lists Indexing Bulk IndexRuns Filters SlotTable Store Capacity StoreSpec StoreEdits StoreRuns StoreText TextRecords TextSim TextEdits.

(** ** Text read back *)

Section Resolved.
Context {V : Type} `{!EqDecision (StoredDocument V)}.
Context (crc32 : list Z -> Z) (cipher : option Aead).
Abbreviation Doc := (StoredDocument V).
Abbreviation docs := (gmap (list Z) Doc).

Definition resolved_chunk (T : TextSegment) (c : StoredChunk) : StoredChunk :=
  match c_text_at c with
  | Some loc => inline_text c (match segment_read crc32 cipher T loc with Ok t => Some t | _ => None end)
  | None => c
  end.

(** The document with its text inline. *)
Definition resolved (T : TextSegment) (d : Doc) : Doc := with_chunks d (map (resolved_chunk T) (doc_chunks d)).

Lemma resolved_same T T' (d : Doc) : reads_same crc32 cipher T T' (locs d) -> resolved T' d = resolved T d.
Proof.
  intros H. unfold resolved. f_equal. apply map_ext_in. intros c Hc%list_elem_of_In. unfold resolved_chunk. destruct (c_text_at c) as [loc|] eqn:E; [|done].
  rewrite H; [done|]. unfold locs. apply list_elem_of_omap. eauto.
Qed.

Lemma live_elem (M : docs) id d loc : M !! id = Some d -> loc ∈ locs d -> loc ∈ live M.
Proof. intros Hd Hl. rewrite (live_delete _ _ _ Hd). apply elem_of_app. by left. Qed.

Lemma live_owner (M : docs) loc : loc ∈ live M -> exists id d, M !! id = Some d /\ loc ∈ locs d.
Proof.
  unfold live, all_locs. rewrite list_elem_of_In, in_concat. intros (l & Hl & Hin). apply in_map_iff in Hl as (d & <- & Hd).
  apply in_map_iff in Hd as ([id d'] & <- & Hd). apply list_elem_of_In, elem_of_map_to_list in Hd. exists id, d'. split; [done|by apply list_elem_of_In].
Qed.

Lemma resolved_map_same (T T' : TextSegment) (M : docs) : reads_same crc32 cipher T T' (live M) -> resolved T' <$> M = resolved T <$> M.
Proof.
  intros H. apply map_fmap_ext. intros id d Hd. apply resolved_same. intros loc Hl. apply H. by eapply live_elem.
Qed.

(** Reading back does not touch the terms. *)
Lemma inline_content c c' t : same_content c c' -> same_content (inline_text c t) (inline_text c' t).
Proof. intros (E & H). split; [|exact H]. by rewrite E. Qed.

Lemma resolved_chunk_content (T : TextSegment) c c' : same_content c c' -> same_content (resolved_chunk T c) (resolved_chunk T c').
Proof.
  intros Hc. pose proof Hc as (E & _). unfold resolved_chunk. assert (c_text_at c' = c_text_at c) as -> by (by rewrite E).
  destruct (c_text_at c); [by apply inline_content|done].
Qed.

Lemma resolved_document (T : TextSegment) (d d' : Doc) : same_document d d' -> same_document (resolved T d) (resolved T d').
Proof.
  intros [E H]. split; [by rewrite E|]. cbn [resolved with_chunks doc_chunks]. clear E.
  induction H as [|c c' cs cs' Hc _ IH]; constructor; [by apply resolved_chunk_content|done].
Qed.

Lemma related_resolved (T : TextSegment) (R M : docs) : related R M -> related (resolved T <$> R) (resolved T <$> M).
Proof. intros H id. rewrite !lookup_fmap. destruct (H id); constructor. by apply resolved_document. Qed.

Lemma resolved_put (T : TextSegment) (M : docs) ds : resolved T <$> put_docs M ds = put_docs (resolved T <$> M) (map (resolved T) ds).
Proof. revert M. induction ds as [|d ds IH]; intros M; [done|]. cbn [put_docs foldl map]. unfold put_docs in IH. rewrite IH, fmap_insert. done. Qed.

(** A weight text does not change. *)
Definition textless (g : StoredChunk -> Z) : Prop := forall c t, g (inline_text c t) = g c.

Lemma textless_one : textless one. Proof. done. Qed.
Lemma textless_words : textless c_word_count. Proof. done. Qed.
Lemma textless_keys : textless key_count. Proof. done. Qed.
Lemma textless_text : textless key_text. Proof. done. Qed.

Lemma within_textless (S S' : sums) : (forall g, stable g -> textless g -> positive g -> S g <= S' g)%Z -> within S' -> within S.
Proof.
  intros Hle [H1 H2 H3 H4]. pose proof (Hle _ stable_one textless_one positive_one). pose proof (Hle _ stable_words textless_words positive_words).
  pose proof (Hle _ stable_keys textless_keys positive_keys). pose proof (Hle _ stable_text textless_text positive_text). split; lia.
Qed.

Lemma resolved_sum (g : StoredChunk -> Z) (T : TextSegment) (d : Doc) : textless g -> doc_sum g (resolved T d) = doc_sum g d.
Proof.
  intros Hg. unfold doc_sum. cbn [resolved with_chunks doc_chunks]. induction (doc_chunks d) as [|c cs IH]; [done|]. cbn [map chunk_sum foldr].
  unfold chunk_sum in IH. rewrite IH. f_equal. unfold resolved_chunk. destruct (c_text_at c); [apply Hg|done].
Qed.

Lemma resolved_list_sum (g : StoredChunk -> Z) (T : TextSegment) (ds : list Doc) : textless g -> list_sum g (map (resolved T) ds) = list_sum g ds.
Proof. intros Hg. induction ds as [|d ds IH]; [done|]. cbn [map list_sum foldr]. unfold list_sum in IH. by rewrite IH, resolved_sum. Qed.

Lemma resolved_total (g : StoredChunk -> Z) (T : TextSegment) (M : docs) : textless g -> docs_total g (resolved T <$> M) = docs_total g M.
Proof.
  intros Hg. unfold docs_total. rewrite map_to_list_fmap, <- (resolved_list_sum g T (map snd (map_to_list M)) Hg). f_equal.
  change (prod_map _ _ <$> map_to_list M) with (map (prod_map id (resolved T)) (map_to_list M)). rewrite !map_map. by apply map_ext.
Qed.

Lemma inline_fits c t : chunk_fits (inline_text c t) <-> chunk_fits c.
Proof. split; intros [[H1 H2 H3] H4]; (split; [split|]); done. Qed.

Lemma resolved_fits (T : TextSegment) (d : Doc) : doc_fits (resolved T d) <-> doc_fits d.
Proof.
  unfold doc_fits. cbn [resolved with_chunks doc_chunks]. rewrite Forall_map. apply Forall_iff. intros c. unfold resolved_chunk.
  destruct (c_text_at c); [apply inline_fits|done].
Qed.
End Resolved.

(** ** Moving text into the segment *)

(** AES-256-GCM encrypts every message of less than 4 GiB. *)
Definition seals (cipher : option Aead) : Prop :=
  forall a nonce msg aad, cipher = Some a -> length nonce = 12 -> (Z.of_nat (length msg) < U32)%Z -> is_Some (aead_encrypt a nonce msg aad).

(** The bytes a chunk's record takes at most: its text, a nonce and a tag. *)
Definition record_bytes (c : StoredChunk) : Z := match c_text c with Some t => Z.of_nat (length t) + 28 | None => 0 end.

(** Inline text that fits a record. *)
Definition chunk_fresh (c : StoredChunk) : Prop :=
  c_text_at c = None /\ (record_bytes c < U32)%Z /\ match c_text c with Some t => utf8_valid t = true | None => True end.

Definition fresh {V} (d : StoredDocument V) : Prop := Forall chunk_fresh (doc_chunks d).

Lemma record_bytes_nonneg c : (0 <= record_bytes c)%Z.
Proof. unfold record_bytes. destruct (c_text c); lia. Qed.

Lemma stable_bytes : stable record_bytes. Proof. intros c c' (E & _). unfold record_bytes. by rewrite E. Qed.

Lemma same_content_fresh c c' : same_content c c' -> chunk_fresh c -> chunk_fresh c'.
Proof. intros Hc. unfold chunk_fresh. rewrite (stable_bytes c c' Hc). destruct Hc as (E & _). by rewrite E. Qed.

Lemma same_document_fresh {V} (d d' : StoredDocument V) : same_document d d' -> fresh d -> fresh d'.
Proof. intros [_ H]. unfold fresh. induction H as [|c c' cs cs' Hc _ IH]; [done|]. intros [Hf Hfs]%Forall_cons. constructor; [by eapply same_content_fresh|by apply IH]. Qed.

Section Strip.
Context {V : Type} {json : Json V} `{!EqDecision (StoredDocument V)}.
Context {D : Type} {dict : TermIndex D} {B : Type} {checkpoint : Checkpoint B}.
Context (crc32 : list Z -> Z) (cipher : option Aead) (nonce_at : Z -> list Z).
Context (Hlaws : forall a, cipher = Some a -> AeadLaws a) (Hseals : seals cipher) (Hnonce : forall at_, length (nonce_at at_) = 12).
Abbreviation Doc := (StoredDocument V).
Abbreviation Store := (DocumentStore V D B).
#[local] Abbreviation texts := (texts_ok crc32 cipher).
#[local] Abbreviation same := (reads_same crc32 cipher).
#[local] Abbreviation resolve := (resolved crc32 cipher).

Lemma append_fits T g live nonce t :
  texts T g live -> length nonce = 12 -> (Z.of_nat (length t) + 28 < U32)%Z -> (ts_len T + (Z.of_nat (length t) + 28) < U64)%Z ->
  exists loc T', segment_append crc32 cipher T nonce t = Ok (loc, T') /\ (ts_len T' <= ts_len T + (Z.of_nat (length t) + 28))%Z.
Proof using Hlaws Hseals.
  intros [((Hlen & _) & _) _ _ _ _ _ _] Hn Ht Hroom. unfold HEADER_LEN in Hlen.
  assert (Hs : exists bytes, sealed cipher nonce t (ts_len T) = Ok bytes /\ length bytes <= length t + 28).
  { unfold sealed. destruct cipher as [a|] eqn:Ec; [|exists t; split; [done|lia]]. destruct (Hseals a nonce t (to_le_bytes 8 (ts_len T)) eq_refl Hn) as [c Hc]; [lia|].
    assert (He : encrypt_with_aad a nonce t (to_le_bytes 8 (ts_len T)) = Ok (nonce ++ c)) by (unfold encrypt_with_aad; by rewrite Hc).
    rewrite He. eexists. split; [done|]. pose proof (Hlaws a eq_refl) as Hl. rewrite length_app, Hn. pose proof (aead_length _ _ _ _ Hc). lia. }
  destruct Hs as (bytes & Hs & Hl). unfold segment_append. rewrite Hs. cbn [obind]. rewrite (proj2 (Z.ltb_lt _ _)) by lia.
  rewrite checked_add_ok by lia. cbn [expect obind]. eexists _, _. split; [done|]. cbn. lia.
Qed.

Lemma moved_resolved T c loc t :
  c_text c = Some t -> c_text_at c = None -> segment_read crc32 cipher T loc = Ok t -> resolved_chunk crc32 cipher T (moved_text c loc) = c.
Proof. intros Ht Ha Hr. unfold resolved_chunk. cbn [moved_text c_text_at]. rewrite Hr. destruct c. cbn in *. by subst. Qed.

Lemma resolved_chunk_same T T' cs :
  same T T' (omap c_text_at cs) -> map (resolved_chunk crc32 cipher T') cs = map (resolved_chunk crc32 cipher T) cs.
Proof.
  intros H. apply map_ext_in. intros c Hc%list_elem_of_In. unfold resolved_chunk. destruct (c_text_at c) as [loc|] eqn:E; [|done].
  rewrite H; [done|]. apply list_elem_of_omap. eauto.
Qed.

Lemma strip_chunks_ok cs T g live :
  texts T g live -> Forall chunk_fresh cs -> (ts_len T + chunk_sum record_bytes cs < U64)%Z ->
  exists T' g' cs', strip_chunks crc32 cipher nonce_at T cs = Ok (T', cs') /\ texts T' g' (omap c_text_at cs' ++ live) /\ same T T' live /\
    Forall (fun c => c_text c = None) cs' /\ map (resolved_chunk crc32 cipher T') cs' = cs /\ (ts_len T' <= ts_len T + chunk_sum record_bytes cs)%Z.
Proof using Hlaws Hseals Hnonce.
  intros Hok Hf. revert T g live Hok. induction Hf as [|c cs (Ha & Hb & Hu) Hf IH]; intros T g live Hok Hroom.
  { exists T, g, []. split_and!; try done. cbn. lia. }
  cbn [strip_chunks chunk_sum foldr] in *. fold (chunk_sum record_bytes cs) in *.
  assert (Hsum : (0 <= chunk_sum record_bytes cs)%Z).
  { clear. induction cs as [|c cs IH]; [done|]. cbn. pose proof (record_bytes_nonneg c). unfold chunk_sum in IH. lia. }
  destruct (c_text c) as [t|] eqn:Et.
  - assert (Er : record_bytes c = (Z.of_nat (length t) + 28)%Z) by (unfold record_bytes; by rewrite Et). rewrite Er in *.
    destruct (append_fits T g live (nonce_at (ts_len T)) t Hok (Hnonce _)) as (loc & T1 & Happ & Hl1); [lia|lia|]. rewrite Happ. cbn [expect_ok obind].
    destruct (append_texts crc32 cipher Hlaws T g live _ t loc T1 Hok (Hnonce _) Hu Happ) as (Hok1 & Hs1 & Hr1).
    destruct (IH T1 _ (loc :: live) Hok1) as (T' & g' & cs' & -> & Hok' & Hs' & Hn' & Hm' & Hl'); [lia|]. cbn [obind].
    exists T', g', (moved_text c loc :: cs'). split_and!; [done| | |by constructor| |lia].
    + eapply texts_perm; [|exact Hok']. cbn. symmetry. apply Permutation_middle.
    + eapply reads_same_trans; [exact Hs1|intros l Hl; apply Hs'; by right|done].
    + cbn [map]. rewrite Hm'. f_equal. apply (moved_resolved _ _ _ t); [done|done|]. rewrite <- Hr1. apply Hs'. left.
  - cbn [obind]. pose proof (record_bytes_nonneg c). destruct (IH T g live Hok) as (T' & g' & cs' & -> & Hok' & Hs' & Hn' & Hm' & Hl'); [lia|]. cbn [obind].
    exists T', g', (c :: cs'). split_and!; [done|cbn; by rewrite Ha|done|by constructor| |lia].
    cbn [map]. rewrite Hm'. f_equal. unfold resolved_chunk. by rewrite Ha.
Qed.

Lemma resolved_inline T (d : Doc) : fresh d -> resolve T d = d.
Proof.
  intros Hf. unfold resolved. destruct d as [i u v m cs]. cbn [doc_chunks with_chunks] in *. unfold with_chunks, fresh in *. cbn in *. f_equal.
  induction Hf as [|c cs (Ha & _) _ IH]; [done|]. cbn. rewrite IH. unfold resolved_chunk. by rewrite Ha.
Qed.

Lemma stripped_ok (d : Doc) T g live :
  texts T g live -> fresh d -> (ts_len T + doc_sum record_bytes d < U64)%Z ->
  exists T' g' d', stripped crc32 cipher nonce_at (Some T) d = Ok (Some T', d') /\ texts T' g' (locs d' ++ live) /\ same T T' live /\
    unwritten d' /\ resolve T' d' = d /\ (ts_len T' <= ts_len T + doc_sum record_bytes d)%Z.
Proof using Hlaws Hseals Hnonce.
  intros Hok Hf Hroom. unfold stripped. destruct (forallb _ _) eqn:E.
  - assert (Hu : unwritten d). { apply Forall_forall. intros c Hc%list_elem_of_In. rewrite forallb_forall in E. specialize (E c Hc). by destruct (c_text c). }
    exists T, g, d. assert (Hl : locs d = []).
    { unfold locs. unfold fresh in Hf. clear - Hf. induction Hf as [|c cs (Ha & _) _ IH]; [done|]. cbn. by rewrite Ha. }
    rewrite Hl. split_and!; [done|done|done|done|by apply resolved_inline|].
    assert (0 <= doc_sum record_bytes d)%Z; [|lia]. unfold doc_sum. clear. induction (doc_chunks d) as [|c cs IH]; [done|]. cbn. pose proof (record_bytes_nonneg c).
    unfold chunk_sum in IH. lia.
  - destruct (strip_chunks_ok _ T g live Hok Hf Hroom) as (T' & g' & cs' & -> & Hok' & Hs' & Hn' & Hm' & Hl'). cbn [obind].
    exists T', g', (with_chunks d cs'). split_and!; [done|done|done|done| |done]. unfold resolved. cbn [with_chunks doc_chunks]. rewrite Hm'. by destruct d.
Qed.

Lemma bytes_nonneg (ds : list Doc) : (0 <= list_sum record_bytes ds)%Z.
Proof.
  rewrite list_sum_concat. induction (concat (map doc_chunks ds)) as [|c cs IH]; [done|]. cbn. pose proof (record_bytes_nonneg c). unfold chunk_sum in IH. lia.
Qed.

Lemma prepare_ok (ds : list Doc) (s : Store) T g live :
  ds_base s = None -> texts T g live -> Forall fresh ds -> (ts_len T + list_sum record_bytes ds < U64)%Z ->
  exists T' g' ds', prepare_each crc32 cipher nonce_at (set_text s (Some T)) ds = Ok (set_text s (Some T'), ds') /\ texts T' g' (all_locs ds' ++ live) /\
    same T T' live /\ Forall unwritten ds' /\ map (resolve T') ds' = ds /\ (ts_len T' <= ts_len T + list_sum record_bytes ds)%Z.
Proof using Hlaws Hseals Hnonce.
  intros Hb Hok Hf. revert T g live Hok. induction Hf as [|d ds Hd Hf IH]; intros T g live Hok Hroom.
  { exists T, g, []. split_and!; try done. cbn. lia. }
  cbn [prepare_each list_sum foldr] in *. fold (list_sum record_bytes ds) in *. unfold kill_base. cbn [set_text ds_base]. rewrite Hb. cbn [obind].
  change (ds_text (set_text s (Some T))) with (Some T). pose proof (bytes_nonneg ds).
  destruct (stripped_ok d T g live Hok Hd) as (T1 & g1 & d' & -> & Hok1 & Hs1 & Hu1 & Hr1 & Hl1); [lia|]. cbn [obind].
  rewrite set_text_twice.
  destruct (IH T1 g1 (locs d' ++ live) Hok1) as (T' & g' & ds' & -> & Hok' & Hs' & Hu' & Hm' & Hl'); [lia|]. cbn [obind].
  exists T', g', (d' :: ds'). split_and!; [done| | |by constructor| |lia].
  - eapply texts_perm; [|exact Hok']. unfold all_locs. cbn [map concat]. solve_Permutation.
  - eapply reads_same_trans; [exact Hs1|intros l Hl; apply Hs'; apply elem_of_app; by right|done].
  - cbn [map]. rewrite Hm'. f_equal. rewrite <- Hr1. apply resolved_same. intros l Hl. apply Hs', elem_of_app. by left.
Qed.
End Strip.

(** ** Deferred encodings of read-back documents *)

Section Encoded.
Context {V : Type} `{!EqDecision (StoredDocument V)}.
Context (crc32 : list Z -> Z) (cipher : option Aead).
Abbreviation Doc := (StoredDocument V).

(** Every text in the segment can be read. *)
Definition readable_text (T : TextSegment) (d : Doc) : Prop := forall loc, loc ∈ locs d -> exists t, segment_read crc32 cipher T loc = Ok t.

Lemma fingerprint_resolved T h cs :
  Forall (fun c => c_text c = None) cs -> (forall c loc, c ∈ cs -> c_text_at c = Some loc -> exists t, segment_read crc32 cipher T loc = Ok t) ->
  fingerprint_chunks crc32 cipher (Some T) h cs = fingerprint_chunks crc32 cipher None h (map (resolved_chunk crc32 cipher T) cs).
Proof.
  intros Hu. revert h. induction Hu as [|c cs Hc Hu IH]; intros h Hr; [done|]. cbn [map fingerprint_chunks].
  assert (IH' : forall h, fingerprint_chunks crc32 cipher (Some T) h cs = fingerprint_chunks crc32 cipher None h (map (resolved_chunk crc32 cipher T) cs)).
  { intros h'. apply IH. intros x loc Hx. apply Hr. by right. }
  destruct (c_text_at c) as [loc|] eqn:E.
  - destruct (Hr c loc) as [t Ht]; [left|done|]. assert (resolved_chunk crc32 cipher T c = inline_text c (Some t)) as -> by (unfold resolved_chunk; by rewrite E, Ht).
    unfold try_text_of. rewrite Hc, E. cbn [ok_or obind]. rewrite Ht. apply IH'.
  - assert (resolved_chunk crc32 cipher T c = c) as -> by (unfold resolved_chunk; by rewrite E). unfold try_text_of. by rewrite Hc, E.
Qed.

Lemma fingerprint_same x h cs cs' : Forall2 same_content cs cs' -> fingerprint_chunks crc32 cipher x h cs' = fingerprint_chunks crc32 cipher x h cs.
Proof.
  intros H. revert h. induction H as [|c c' cs cs' (E & _) _ IH]; intros h; [done|]. cbn [fingerprint_chunks].
  assert (try_text_of crc32 cipher x c' = try_text_of crc32 cipher x c) as -> by (rewrite E; done).
  assert (c_start_byte c' = c_start_byte c) as -> by (by rewrite E). assert (c_end_byte c' = c_end_byte c) as -> by (by rewrite E).
  destruct (try_text_of _ _ _ _) as [[t|]| |]; [|done|done|done]. cbn [obind]. apply IH.
Qed.

(** Whether vectors apply is read off the content. *)
Lemma applicable_resolved T (d m : Doc) version f vs :
  same_document d (resolved crc32 cipher T m) -> unwritten m -> readable_text T m ->
  applicable crc32 cipher (Some T) m version f vs = applicable crc32 cipher None d version f vs.
Proof.
  intros [E1 E2] Hu Hr. unfold applicable, document_fingerprint. pose proof (f_equal doc_version E1) as Ev. cbn in Ev. rewrite Ev.
  cbn [resolved with_chunks doc_chunks] in E2. pose proof (Forall2_length _ _ _ E2) as Hl. rewrite length_map in Hl. rewrite Hl.
  assert (Hp : existsb is_pending (doc_chunks m) = existsb is_pending (doc_chunks d)).
  { clear - E2. revert E2. generalize (doc_chunks d). induction (doc_chunks m) as [|c cs IH]; intros l E2; inversion E2 as [|c0 ? l0 ? (E & _) Hl]; subst; [done|].
    cbn [existsb]. rewrite <- (IH _ Hl). f_equal. unfold is_pending. assert (c_vector_state c = c_vector_state c0) as ->; [|done].
    pose proof (f_equal c_vector_state E) as Es. cbn in Es. rewrite <- Es. unfold resolved_chunk. by destruct (c_text_at c). }
  rewrite Hp. destruct (_ && _); [|done]. rewrite fingerprint_resolved; [by rewrite (fingerprint_same _ _ _ _ E2)|done|].
  intros c loc Hc Ha. apply Hr. apply list_elem_of_omap. eauto.
Qed.

Lemma fingerprint_inline h cs : Forall chunk_fresh cs -> exists f, fingerprint_chunks crc32 cipher None h cs = Ok f.
Proof.
  intros Hf. revert h. induction Hf as [|c cs (Ha & _) _ IH]; intros h; cbn [fingerprint_chunks]; [eauto|]. unfold try_text_of. rewrite Ha.
  destruct (c_text c) as [t|]; cbn [obind]; [apply IH|eauto].
Qed.

Lemma applicable_inline (d : Doc) version f vs : fresh d -> exists b, applicable crc32 cipher None d version f vs = Ok b.
Proof.
  intros Hf. unfold applicable, document_fingerprint. destruct (_ && _); [|eauto].
  destruct (fingerprint_inline (hash_str_seed (doc_version d) FINGERPRINT_SEED) _ Hf) as [x ->]. cbn. eauto.
Qed.

Lemma applicable_length x (d : Doc) version f vs : applicable crc32 cipher x d version f vs = Ok true -> length (doc_chunks d) = length vs.
Proof. unfold applicable. destruct (_ && _) eqn:E; [|done]. intros _. apply andb_true_iff in E as [[_ E%Nat.eqb_eq]%andb_true_iff _]. done. Qed.

Lemma encode_resolved_chunk T c v : resolved_chunk crc32 cipher T (encode_pending c v) = encode_pending (resolved_chunk crc32 cipher T c) v.
Proof.
  unfold resolved_chunk. assert (c_text_at (encode_pending c v) = c_text_at c) as -> by (unfold encode_pending; by destruct (is_pending c)).
  destruct (c_text_at c) as [loc|]; [|done]. unfold encode_pending. change (is_pending (inline_text c _)) with (is_pending c). by destruct (is_pending c).
Qed.

Lemma encoded_resolved T (d : Doc) vs : resolved crc32 cipher T (encoded d vs) = encoded (resolved crc32 cipher T d) vs.
Proof.
  unfold encoded, resolved, with_chunks. cbn. f_equal. revert vs. induction (doc_chunks d) as [|c cs IH]; intros [|v vs]; [done..|].
  cbn. by rewrite IH, encode_resolved_chunk.
Qed.

Lemma encode_content c c' v : same_content c c' -> same_content (encode_pending c v) (encode_pending c' v).
Proof.
  intros Hc. pose proof Hc as (E & H). unfold encode_pending, is_pending. assert (c_vector_state c' = c_vector_state c) as -> by (by rewrite E).
  destruct (bool_decide _); [|done]. split; [|exact H]. by rewrite E.
Qed.

Lemma encoded_document (d d' : Doc) vs : same_document d d' -> same_document (encoded d vs) (encoded d' vs).
Proof.
  intros [E H]. split; [by rewrite E|]. unfold encoded. cbn [with_chunks doc_chunks]. clear E. revert vs.
  induction H as [|c c' cs cs' Hc _ IH]; intros [|v vs]; constructor; [by apply encode_content|apply IH].
Qed.

Lemma encode_places c v : places (encode_pending c v) = places c.
Proof. unfold encode_pending. by destruct (is_pending c). Qed.

Lemma encoded_place (d : Doc) vs : length (doc_chunks d) = length vs -> same_place d (encoded d vs).
Proof.
  intros Hl. split; [done|]. unfold encoded. cbn [with_chunks doc_chunks]. revert vs Hl. induction (doc_chunks d) as [|c cs IH]; intros [|v vs] Hl; try done.
  cbn [zip_with map] in *. by rewrite IH, encode_places by (cbn in Hl; lia).
Qed.

Lemma encode_fits c v : chunk_fits c -> chunk_fits (encode_pending c v).
Proof. unfold encode_pending. destruct (is_pending c); [|done]. intros [[H1 H2 H3] H4]. split; [split|]; done. Qed.

Lemma encoded_fits (d : Doc) vs : doc_fits d -> doc_fits (encoded d vs).
Proof.
  unfold doc_fits, encoded. cbn [with_chunks doc_chunks]. intros H. revert vs. induction H as [|c cs Hc _ IH]; intros [|v vs]; constructor; [by apply encode_fits|apply IH].
Qed.

Lemma encode_fresh c v : chunk_fresh c -> chunk_fresh (encode_pending c v).
Proof. unfold encode_pending. by destruct (is_pending c). Qed.

Lemma encoded_fresh (d : Doc) vs : fresh d -> fresh (encoded d vs).
Proof.
  unfold fresh, encoded. cbn [with_chunks doc_chunks]. intros H. revert vs. induction H as [|c cs Hc _ IH]; intros [|v vs]; constructor; [by apply encode_fresh|apply IH].
Qed.
End Encoded.
