(* ===== verification/TextHistory.v ===== *)
(** * Histories of a store with a text segment

    Batches, deletions, deferred encodings and canonical rebuilds keep the text of every stored
    document readable through the segment, and leave no byte of any other text in it. *)

From S2P Require Import Prelude Words BitPack Search Positions Terms FrameDict TextSegment Binary Journal Share TermDict Postings Cursor PostingEdit PostingRuns Lists Indexing Bulk IndexRuns Filters SlotTable Store Overlay Capacity StoreSpec StoreEdits StoreRuns StoreHistory StoreText TextRecords TextSim TextEdits TextStrip.

Section Steps.
Context {V : Type} {json : Json V} `{!EqDecision (StoredDocument V)}.
Context {D : Type} {dict : TermIndex D} {B : Type} {checkpoint : Checkpoint B}.
Context (threads : nat) (crc32 : list Z -> Z) (cipher : option Aead).
Context (Hlaws : forall a, cipher = Some a -> AeadLaws a) (Hseals : seals cipher).
Abbreviation Doc := (StoredDocument V).
Abbreviation docs := (gmap (list Z) Doc).
Abbreviation Store := (DocumentStore V D B).
Abbreviation resolve := (resolved crc32 cipher).

(** A store without its segment, and the segment, against the reference; [g] bounds the
    generation and [t] the length of the segment. *)
Record holds_text (s : Store) (T : TextSegment) (R : docs) (g t : Z) : Prop := {
  ht_ok : store_ok s;
  ht_tidy : tidy (ds_documents s);
  ht_texts : exists l, texts_ok crc32 cipher T l (live (ds_documents s));
  ht_documents : related R (resolve T <$> ds_documents s);
  ht_generation : (ds_generation s <= g)%Z;
  ht_length : (ts_len T <= t)%Z }.

(** The outcome is a store that holds the reference. *)
Definition reaches (K : Store -> TextSegment -> Prop) (m : outcome Store) (R : docs) (g t : Z) : Prop :=
  exists s T, m = Ok (set_text s (Some T)) /\ K s T /\ holds_text s T R g t.

(** The records held before and after are untouched. *)
Definition steady (s : Store) (T : TextSegment) (s' : Store) (T' : TextSegment) : Prop :=
  forall loc, loc ∈ live (ds_documents s) -> loc ∈ live (ds_documents s') -> segment_read crc32 cipher T' loc = segment_read crc32 cipher T loc.

Lemma reference_total (w : StoredChunk -> Z) (s : Store) (T : TextSegment) (R : docs) : stable w -> textless w -> related R (resolve T <$> ds_documents s) -> docs_total w (ds_documents s) = docs_total w R.
Proof. intros Hs Ht Hr. by rewrite <- (resolved_total crc32 cipher w T _ Ht), (docs_total_related w _ _ Hs Hr). Qed.

Lemma reference_size (s : Store) (T : TextSegment) (R : docs) : related R (resolve T <$> ds_documents s) -> size (ds_documents s) = size R.
Proof. intros Hr. rewrite <- (related_size _ _ Hr). by rewrite map_size_fmap. Qed.

Section Batch.
Context (nonce_at : Z -> list Z) (Hnonce : forall at_, length (nonce_at at_) = 12).

(** A batch: the documents are shared, their text moved, and installed. *)
Lemma insert_text (s : Store) (T : TextSegment) (R : docs) (g t : Z) (ds : list Doc) :
  holds_text s T R g t -> Forall doc_fits ds -> Forall fresh ds -> within (fun w => docs_total w R + list_sum w ds)%Z ->
  (g + batch_bill (size R) (length ds) < U64)%Z -> (t + list_sum record_bytes ds < U64)%Z ->
  reaches (steady s T) (insert_batch threads crc32 cipher nonce_at (set_text s (Some T)) ds) (put_docs R ds) (g + batch_bill (size R) (length ds)) (t + list_sum record_bytes ds).
Proof using Hlaws Hseals Hnonce.
  intros [Hs Htidy [l Hok] Hr Hg0 Ht0] Hf Hfr Hw Hg Hroom. unfold insert_batch.
  change (insert_batch_at threads crc32 cipher nonce_at 2) with (insert_by threads crc32 cipher nonce_at (insert_batch_at threads crc32 cipher nonce_at 1)).
  unfold insert_by. assert (Hcat : concat (chunks_of (length ds) MAX_BATCH_ITEMS ds) = ds) by (apply chunks_of_concat; [apply Nat.lt_0_succ|done]).
  destruct (share_groups_ok (chunks_of (length ds) MAX_BATCH_ITEMS ds)) as (gs & -> & Hsame).
  { apply Forall_concat. by rewrite Hcat. }
  { rewrite Hcat. eapply within_textless; [|exact Hw]. intros w Hst Ht Hp. cbv beta. rewrite <- (reference_total w s T R Hst Ht Hr). pose proof (store_totals s w Hs Hp). lia. }
  rewrite Hcat in Hsame. cbn [obind]. set (ds1 := concat gs) in *. pose proof (Forall2_length _ _ _ Hsame) as Hlen.
  pose proof (list_sum_same record_bytes _ _ stable_bytes Hsame) as Hbytes.
  assert (Hfr1 : Forall fresh ds1). { clear - Hsame Hfr. induction Hsame as [|d d' a b Hd _ IH]; [done|]. apply Forall_cons in Hfr as [Hd' Hfr]. constructor; [by eapply same_document_fresh|by apply IH]. }
  destruct (prepare_ok crc32 cipher nonce_at Hlaws Hseals Hnonce ds1 s T l (live (ds_documents s)) (sk_base _ Hs) Hok Hfr1) as (T1 & l1 & ds2 & -> & Hok1 & Hs1 & Hu & Hm & Hl1); [lia|].
  cbn [obind]. pose proof (f_equal length Hm) as Hlen2. rewrite length_map in Hlen2.
  assert (Hf2 : Forall doc_fits ds2).
  { pose proof (same_documents_fit _ _ Hsame Hf) as Hf1. rewrite <- Hm in Hf1. rewrite Forall_map in Hf1. eapply Forall_impl; [exact Hf1|]. intros d. apply resolved_fits. }
  destruct (loop_start threads crc32 cipher nonce_at 0 s ds2 Hs Hf2) as (s' & Hrun & Hs' & Hr' & Hg' & _).
  { eapply within_textless; [|exact Hw]. intros w Hst Ht _. cbv beta. rewrite (reference_total w s T R Hst Ht Hr).
    rewrite <- (resolved_list_sum crc32 cipher w T1 ds2 Ht), Hm, (list_sum_same w _ _ Hst Hsame). done. }
  { rewrite (reference_size s T R Hr), Hlen2, <- Hlen. lia. }
  rewrite (reference_size s T R Hr), Hlen2, <- Hlen in Hg'.
  destruct (group_loop_text threads crc32 cipher _ (rebuilds_text_at threads crc32 cipher nonce_at 0) Hlaws ds2 s [] ∅ T1 l1 (sk_text _ Hs) Htidy) with s'
    as (T' & l' & Hrun' & _ & Htidy' & Hok' & [Hs2 Hlen'] & _); [by split; constructor|by intros x Hx%elem_of_nil|constructor|done| |done|].
  { eapply texts_perm; [|exact Hok1]. cbn. by rewrite Permutation_app_comm. }
  exists s', T'. split; [done|]. split; [intros loc L1 L2; by rewrite Hs2, Hs1|]. split; [done|done|eauto| |lia|lia].
  rewrite (resolved_map_same crc32 cipher T1 T' _ Hs2). eapply related_trans; [|by apply related_resolved].
  rewrite resolved_put, (resolved_map_same crc32 cipher T T1 _ Hs1), Hm. by apply related_put.
Qed.

(** A deletion: the document leaves the store and its text the segment. *)
Lemma delete_text (s : Store) (T : TextSegment) (R : docs) (g t : Z) (id : list Z) :
  holds_text s T R g t -> within (fun w => docs_total w R) -> (g + (1 + Z.of_nat (size R)) < U64)%Z ->
  reaches (steady s T) (remove_document threads crc32 cipher nonce_at (set_text s (Some T)) id) (delete id R) (g + (1 + Z.of_nat (size R))) t.
Proof using Hlaws.
  intros [Hs Htidy [l Hok] Hr Hg0 Ht0] Hw Hg. pose proof (reference_size s T R Hr) as Hsz. unfold remove_document, store_remove, remove_with.
  destruct (ds_documents s !! id) as [d|] eqn:Hd.
  - destruct (remove_ok threads _ (rebuilds_at threads crc32 cipher nonce_at 0) s id d Hs Hd) as (s' & Hrun & Hs' & Hr' & Hg' & _).
    { eapply within_textless; [|exact Hw]. intros w Hst Ht _. cbv beta. by rewrite (reference_total w s T R Hst Ht Hr). }
    { lia. }
    destruct (remove_text _ (rebuilds_text_at threads crc32 cipher nonce_at 0) s s' id d _ T true (sk_text _ Hs) Htidy Hd Hrun) as (_ & -> & _ & Hsp). cbn [obind].
    cbn [scrub_removed set_text ds_text].
    destruct (scrub_all_texts crc32 cipher Hlaws T l (locs d) (live (delete id (ds_documents s)))) as (T' & l' & Hsc & Hok' & [Hs1 Hlen]).
    { eapply texts_perm; [|exact Hok]. by apply live_delete. }
    unfold locs in Hsc. rewrite Hsc. cbn [obind]. exists s', T'. split; [done|]. pose proof (live_same _ _ Hsp) as Hl.
    split; [intros loc _ Hin; apply Hs1; by rewrite <- Hl|]. split; [done| | | |lia|lia].
    + eapply tidy_same; [exact Hsp|]. by apply map_Forall_delete.
    + exists l'. by eapply texts_perm.
    + rewrite (resolved_map_same crc32 cipher T T' (ds_documents s')) by (intros loc; rewrite Hl; apply Hs1).
      eapply related_trans; [|by apply related_resolved]. rewrite fmap_delete. by apply related_delete.
  - unfold remove_by. change (ds_documents (set_text s (Some T))) with (ds_documents s). rewrite Hd. unfold kill_base.
    change (ds_base (set_text s (Some T))) with (ds_base s). rewrite (sk_base _ Hs). cbn [obind scrub_removed].
    assert (Hn : R !! id = None). { specialize (Hr id). rewrite lookup_fmap, Hd in Hr. by inversion Hr. }
    exists s, T. split; [done|]. split; [done|]. rewrite delete_id by done. split; [done|done|eauto|done|lia|done].
Qed.

(** A deferred encoding on the reference. *)
Definition ref_encode (R : docs) (id version : list Z) (fingerprint : Z) (vectors : list EntangledHVec) : docs :=
  match R !! id with
  | Some d => match applicable crc32 cipher None d version fingerprint vectors with Ok true => <[id := encoded d vectors]> R | _ => R end
  | None => R
  end.

(** The store's document put back with other vectors: it keeps its records. *)
Lemma reinsert_text (s : Store) (T : TextSegment) (R : docs) (g t : Z) (d m e : Doc) :
  holds_text s T R g t -> ds_documents s !! doc_id m = Some m -> same_place m e -> doc_fits e -> same_document d (resolve T e) ->
  within (fun w => docs_total w R + doc_sum w d)%Z -> (g + batch_bill (size R) 1 < U64)%Z ->
  reaches (steady s T) (insert_batch threads crc32 cipher nonce_at (set_text s (Some T)) [e]) (<[doc_id m := d]> R) (g + batch_bill (size R) 1) t.
Proof using.
  clear Hlaws Hseals Hnonce.
  intros [Hs Htidy [l Hok] Hr Hg0 Ht0] Hm Hsame Hfit Hd Hw Hg. destruct (Htidy _ _ Hm) as [_ Hu].
  assert (Hsum : forall w, stable w -> textless w -> doc_sum w e = doc_sum w d).
  { intros w Hst Ht. rewrite <- (resolved_sum crc32 cipher w T e Ht). by apply doc_sum_same. }
  unfold insert_batch. change (insert_batch_at threads crc32 cipher nonce_at 2) with (insert_by threads crc32 cipher nonce_at (insert_batch_at threads crc32 cipher nonce_at 1)).
  unfold insert_by. destruct (share_groups_ok (chunks_of (length [e]) MAX_BATCH_ITEMS [e])) as (gs & -> & Hse).
  { cbn. by repeat constructor. }
  { cbn [chunks_of length]. eapply within_textless; [|exact Hw]. intros w Hst Ht Hp. cbn. rewrite (Hsum w Hst Ht). rewrite <- (reference_total w s T R Hst Ht Hr).
    pose proof (store_totals s w Hs Hp). lia. }
  cbn [obind]. change (concat (chunks_of (length [e]) MAX_BATCH_ITEMS [e])) with [e] in Hse.
  apply Forall2_cons_inv_l in Hse as (e1 & rest & He1 & Hrest & ->). apply Forall2_nil_inv_l in Hrest as ->.
  pose proof (same_place_trans _ _ _ Hsame (same_document_place _ _ He1)) as Hsp. pose proof (same_place_unwritten _ _ Hsp Hu) as Hu1.
  rewrite prepare_unwritten by (first [apply Hs|by repeat constructor]). cbn [obind].
  destruct (loop_start threads crc32 cipher nonce_at 0 s [e1] Hs) as (s' & Hrun & Hs' & Hr' & Hg' & _).
  { constructor; [by eapply same_document_fits|constructor]. }
  { eapply within_textless; [|exact Hw]. intros w Hst Ht _. cbn. rewrite (reference_total w s T R Hst Ht Hr), (doc_sum_same w _ _ Hst He1), (Hsum w Hst Ht). lia. }
  { rewrite (reference_size s T R Hr). cbn [length] in *. lia. }
  rewrite (reference_size s T R Hr) in Hg'. cbn [length] in Hg'.
  assert (Eid : doc_id e1 = doc_id m) by apply Hsp. assert (Hst : is_Some (ds_documents s !! doc_id e1)) by (rewrite Eid; eauto).
  cbn [group_loop] in Hrun |- *. rewrite decide_False in Hrun |- * by set_solver. cbn [obind] in Hrun |- *.
  change (ds_documents (set_text s (Some T))) with (ds_documents s). rewrite decide_True in Hrun |- * by done. cbn [install_new obind] in Hrun |- *.
  destruct (replace_by threads _ s e1) as [s2| |] eqn:E; [|done|done]. cbn [obind] in Hrun. injection Hrun as ->.
  assert (Hkeep : scrub_spans T e1 (locs m) = Ok T) by (apply scrub_spans_same; intros sp; by rewrite (same_place_locs _ _ Hsp)).
  destruct (replace_text threads _ (rebuilds_text_at threads crc32 cipher nonce_at 0) s s' m e1 T T (sk_text _ Hs) Htidy) as (-> & _ & Hpl); [by rewrite Eid|done|done|].
  cbn [obind]. exists s', T. split; [done|].
  assert (Hl : live (ds_documents s') ≡ₚ live (ds_documents s)).
  { rewrite (live_same _ _ Hpl), live_replace, Eid, (live_delete _ _ _ Hm). by rewrite (same_place_locs _ _ Hsp). }
  split; [done|]. split; [done| |exists l; by eapply texts_perm| |lia|done].
  - eapply tidy_same; [exact Hpl|]. by apply map_Forall_insert_2.
  - eapply related_trans; [|apply related_resolved; exact Hr']. cbn [put_docs foldl]. rewrite fmap_insert, Eid.
    assert (Hdd : same_document d (resolve T e1)) by (eapply same_document_trans; [exact Hd|by apply resolved_document]).
    assert (Ed : doc_id d = doc_id m) by (rewrite <- (same_document_id _ _ Hdd); exact Eid).
    pose proof (related_insert R (resolve T <$> ds_documents s) d (resolve T e1) Hr Hdd) as Hi. cbn [resolved with_chunks doc_id] in Hi. by rewrite Ed, Eid in Hi.
Qed.

Lemma encode_text (s : Store) (T : TextSegment) (R : docs) (g t : Z) (id version : list Z) (f : Z) (vs : list EntangledHVec) :
  holds_text s T R g t -> map_Forall (fun _ d => fresh d) R ->
  (forall d, R !! id = Some d -> within (fun w => docs_total w R + doc_sum w (encoded d vs))%Z) -> (g + batch_bill (size R) 1 < U64)%Z ->
  reaches (steady s T) (install_deferred_encoding threads crc32 cipher nonce_at (set_text s (Some T)) id version f vs) (ref_encode R id version f vs) (g + batch_bill (size R) 1) t.
Proof using Hlaws.
  clear Hseals Hnonce.
  intros Hh Hfr Hw Hg. pose proof Hh as [Hs Htidy [l Hok] Hr Hg0 Ht0]. unfold install_deferred_encoding, ref_encode.
  change (ds_documents (set_text s (Some T))) with (ds_documents s). change (ds_text (set_text s (Some T))) with (Some T).
  assert (Hsame : reaches (steady s T) (Ok (set_text s (Some T))) R (g + batch_bill (size R) 1) t).
  { exists s, T. split; [done|]. split; [done|]. split; [done|done|eauto|done|unfold batch_bill; lia|done]. }
  pose proof (Hr id) as Hid. rewrite lookup_fmap in Hid. destruct (ds_documents s !! id) as [m|] eqn:Hm, (R !! id) as [d|] eqn:E1; inversion Hid as [? ? Hd|]; subst; [|done].
  destruct (Htidy _ _ Hm) as [Eid Hu].
  assert (Hread : readable_text crc32 cipher T m).
  { intros loc Hl. destruct (tx_recorded _ _ _ _ _ Hok loc) as [x Hx]; [by eapply live_elem|]. eexists. by eapply recorded_reads. }
  rewrite (applicable_resolved crc32 cipher T d m version f vs Hd Hu Hread).
  destruct (applicable_inline crc32 cipher d version f vs (Hfr _ _ E1)) as [b Hb]. rewrite Hb. cbn [obind]. destruct b; [|done].
  pose proof (applicable_length _ _ _ _ _ _ _ Hb) as Hl. destruct Hd as [Hd1 Hd2]. pose proof (Forall2_length _ _ _ Hd2) as Hl2.
  cbn [resolved with_chunks doc_chunks] in Hl2. rewrite length_map in Hl2.
  unfold store_insert. rewrite decide_True by done. rewrite <- Eid in *. apply (reinsert_text s T R g t (encoded d vs) m (encoded m vs)); try done.
  - by apply encoded_place; rewrite <- Hl2.
  - apply encoded_fits. exact (dk_fits _ _ (sk_dir _ Hs) _ _ Hm).
  - rewrite encoded_resolved. by apply encoded_document.
  - by apply Hw.
Qed.

(** The canonical rebuild: every document read back and inserted over a fresh segment. *)
Lemma rebuild_text (s : Store) (T : TextSegment) (R : docs) (g t : Z) :
  holds_text s T R g t -> map_Forall (fun _ d => fresh d) R -> within (fun w => docs_total w R) ->
  (g + batch_bill 0 (size R) < U64)%Z -> (HEADER_LEN + docs_total record_bytes R < U64)%Z ->
  reaches (fun _ _ => True) (rebuild_canonical threads crc32 cipher nonce_at (set_text s (Some T))) R (g + batch_bill 0 (size R)) (HEADER_LEN + docs_total record_bytes R).
Proof using Hlaws Hseals Hnonce.
  intros Hh Hfr Hw Hg Hroom. pose proof Hh as [Hs Htidy [l Hok] Hr Hg0 Ht0]. unfold rebuild_canonical.
  change (ds_base (set_text s (Some T))) with (ds_base s). rewrite (sk_base _ Hs). change (ds_text (set_text s (Some T))) with (Some T).
  change (document_list (set_text s (Some T))) with (document_list s). destruct (document_list_ok s Hs) as (L1 & L2 & L3 & L4 & L5).
  assert (Hread : omap_list (read_document_back crc32 cipher T) (document_list s) = Ok (map (resolve T) (document_list s))).
  { apply omap_list_ok. intros d (e & -> & He)%list_elem_of_fmap. unfold read_document_back.
    assert (Hd : ds_documents s !! e.1 = Some e.2) by (rewrite merge_sort_Permutation in He; destruct e; by apply elem_of_map_to_list).
    rewrite (omap_list_ok _ (resolved_chunk crc32 cipher T)); [done|]. intros c Hc. unfold read_back, resolved_chunk. destruct (c_text_at c) as [loc|] eqn:E; [|done].
    destruct (tx_recorded _ _ _ _ _ Hok loc) as [x Hx]; [eapply live_elem; [exact Hd|apply list_elem_of_omap; eauto]|].
    by rewrite (recorded_reads crc32 cipher Hlaws _ _ _ _ _ Hok Hx). }
  rewrite Hread. cbn [obind]. set (ds := map (resolve T) (document_list s)).
  assert (Hput : related R (put_docs ∅ ds)).
  { unfold ds. rewrite <- (fmap_empty (resolve T) : _ = (∅ : docs)), <- resolved_put, L3. done. }
  assert (Hlen : length ds = size R) by (unfold ds; by rewrite length_map, L5, (reference_size s T R Hr)).
  assert (Hbytes : list_sum record_bytes ds = docs_total record_bytes R).
  { rewrite <- (docs_total_related record_bytes _ _ stable_bytes Hr). unfold ds, docs_total, document_list. rewrite map_to_list_fmap.
    change (prod_map _ _ <$> map_to_list _) with (map (prod_map id (resolve T)) (map_to_list (ds_documents s))). rewrite !map_map. apply list_sum_perm.
    apply Permutation_map. apply merge_sort_Permutation. }
  change (set_text (set_generation store_default (ds_generation (set_text s (Some T)))) (Some (segment_create cipher))) with (set_text (empty_at (ds_generation s)) (Some (segment_create cipher)) : Store).
  destruct (insert_text (empty_at (ds_generation s)) (segment_create cipher) ∅ g HEADER_LEN ds) as (s' & T' & -> & _ & Hh').
  - split; [apply empty_at_ok|apply map_Forall_empty|exists []; by apply created_texts| |done|done].
    intros i. rewrite lookup_fmap. change (ds_documents (empty_at (ds_generation s))) with (∅ : docs). rewrite !lookup_empty. constructor.
  - unfold ds. rewrite Forall_map. eapply Forall_impl; [exact L2|]. intros d. apply resolved_fits.
  - unfold ds. apply Forall_forall. intros d (m & -> & Hm)%list_elem_of_fmap. assert (Hin : exists id, ds_documents s !! id = Some m).
    { apply list_elem_of_fmap in Hm as (e & -> & He). rewrite merge_sort_Permutation in He. destruct e. exists l0. by apply elem_of_map_to_list. }
    destruct Hin as [i Hi]. pose proof (Hr i) as Hri. rewrite lookup_fmap, Hi in Hri. inversion Hri as [d0 ? Hd0 E|]; subst.
    eapply same_document_fresh; [exact Hd0|]. by eapply (Hfr i).
  - eapply within_textless; [|exact Hw]. intros w Hst Ht _. cbv beta. change (docs_total w ∅) with 0%Z. unfold ds. rewrite resolved_list_sum by done.
    rewrite L4, (reference_total w s T R Hst Ht Hr). lia.
  - rewrite Hlen. done.
  - rewrite Hbytes. done.
  - rewrite Hlen, Hbytes in Hh'. exists s', T'. split; [done|]. split; [done|]. destruct Hh' as [A1 A2 A3 A4 A5 A6]. split; try done. by eapply related_trans.
Qed.
End Batch.
End Steps.

(** ** Histories *)

Section TextHistory.
Context {V : Type} {json : Json V} `{!EqDecision (StoredDocument V)} {B : Type} {checkpoint : Checkpoint B}.
Context (threads : nat) (crc32 : list Z -> Z) (cipher : option Aead).
Abbreviation Doc := (StoredDocument V).
Abbreviation docs := (gmap (list Z) Doc).
Abbreviation Store := (DocumentStore V TermDictionary B).

(** What the engine does to a store with a segment; each operation draws its own nonces. *)
Inductive text_op : Type :=
| TInsert (nonce_at : Z -> list Z) (ds : list Doc)
| TDelete (nonce_at : Z -> list Z) (id : list Z)
| TEncode (nonce_at : Z -> list Z) (id version : list Z) (fingerprint : Z) (vectors : list EntangledHVec)
| TRebuild (nonce_at : Z -> list Z).

Definition text_step (s : Store) (o : text_op) : outcome Store :=
  match o with
  | TInsert nonce_at ds => insert_batch threads crc32 cipher nonce_at s ds
  | TDelete nonce_at id => remove_document threads crc32 cipher nonce_at s id
  | TEncode nonce_at id version f vs => install_deferred_encoding threads crc32 cipher nonce_at s id version f vs
  | TRebuild nonce_at => rebuild_canonical threads crc32 cipher nonce_at s
  end.

Fixpoint text_steps (s : Store) (os : list text_op) : outcome Store :=
  match os with [] => Ok s | o :: rest => let* s := text_step s o in text_steps s rest end.

(** From an empty store with a new segment. *)
Definition text_run (g : Z) (os : list text_op) : outcome Store :=
  let* s := attach_text_segment cipher (set_generation store_default g) in text_steps s os.

(** The reference: documents with their text inline. *)
Definition text_ref (R : docs) (o : text_op) : docs :=
  match o with
  | TInsert _ ds => put_docs R ds
  | TDelete _ id => delete id R
  | TEncode _ id version f vs => ref_encode crc32 cipher R id version f vs
  | TRebuild _ => R
  end.

Definition text_reference (os : list text_op) : docs := foldl text_ref ∅ os.

(** Generations an operation may take, and the longest segment it leaves. *)
Definition text_bill (R : docs) (o : text_op) : Z :=
  match o with
  | TInsert _ ds => batch_bill (size R) (length ds)
  | TDelete _ _ => 1 + Z.of_nat (size R)
  | TEncode _ _ _ _ _ => batch_bill (size R) 1
  | TRebuild _ => batch_bill 0 (size R)
  end.

Definition text_length (R : docs) (t : Z) (o : text_op) : Z :=
  match o with
  | TInsert _ ds => t + list_sum record_bytes ds
  | TRebuild _ => HEADER_LEN + docs_total record_bytes R
  | _ => t
  end.

(** Nonces of 12 bytes, documents that fit with inline text, and room for them. *)
Definition text_op_ok (R : docs) (g t : Z) (o : text_op) : Prop :=
  (g + text_bill R o < U64)%Z /\ (text_length R t o < U64)%Z /\
  match o with
  | TInsert nonce_at ds => (forall a, length (nonce_at a) = 12) /\ Forall doc_fits ds /\ Forall fresh ds /\ within (fun w => docs_total w R + list_sum w ds)%Z
  | TDelete nonce_at _ => True
  | TEncode nonce_at id _ _ vs => forall d, R !! id = Some d -> within (fun w => docs_total w R + doc_sum w (encoded d vs))%Z
  | TRebuild nonce_at => forall a, length (nonce_at a) = 12
  end.

Fixpoint text_ops_ok (R : docs) (g t : Z) (os : list text_op) : Prop :=
  match os with
  | [] => True
  | o :: rest => text_op_ok R g t o /\ text_ops_ok (text_ref R o) (g + text_bill R o) (text_length R t o) rest
  end.

Definition reference_ok (R : docs) : Prop := map_Forall (fun _ d => doc_fits d /\ fresh d) R /\ within (fun w => docs_total w R).

Lemma text_ref_ok (R : docs) (g t : Z) (o : text_op) : reference_ok R -> text_op_ok R g t o -> reference_ok (text_ref R o).
Proof.
  intros [Hf Hw] (_ & _ & Ho). assert (Hfits : map_Forall (fun _ d => doc_fits d) R) by (eapply map_Forall_impl; [exact Hf|]; by intros ? ? [? _]).
  destruct o as [nonce ds|nonce id|nonce id version f vs|nonce]; cbn [text_ref].
  - destruct Ho as (_ & H1 & H2 & H3). split.
    + clear - Hf H1 H2. revert R Hf. induction H1 as [|d ds Hd _ IH]; intros R Hf; [done|]. apply Forall_cons in H2 as [H2 H2']. cbn [put_docs foldl]. apply IH; [done|]. by apply map_Forall_insert_2.
    + eapply within_le; [|exact H3]. intros w Hp. cbv beta. by apply put_docs_le.
  - split; [by apply map_Forall_delete|]. destruct (R !! id) as [d|] eqn:E; [|by rewrite delete_id]. eapply within_le; [|exact Hw]. intros w Hp. cbv beta.
    rewrite (docs_total_delete w _ _ d) by done. pose proof (chunk_sum_nonneg w _ Hp (Hfits _ _ E)). unfold doc_sum. lia.
  - unfold ref_encode. destruct (R !! id) as [d|] eqn:E; [|done]. destruct (applicable _ _ _ _ _ _ _) as [[]| |]; [|done|done|done]. destruct (Hf _ _ E) as [Hd1 Hd2]. split.
    + apply map_Forall_insert_2; [|done]. split; [by apply encoded_fits|by apply encoded_fresh].
    + eapply within_le; [|exact (Ho d eq_refl)]. intros w Hp. cbv beta. rewrite (docs_total_replace w R id d) by done.
      pose proof (chunk_sum_nonneg w _ Hp (Hfits _ _ E)). unfold doc_sum. lia.
  - done.
Qed.

Context (Hlaws : forall a, cipher = Some a -> AeadLaws a) (Hseals : seals cipher).

Lemma text_step_ok (s : Store) (T : TextSegment) (R : docs) (g t : Z) (o : text_op) :
  holds_text crc32 cipher s T R g t -> reference_ok R -> text_op_ok R g t o ->
  reaches crc32 cipher (match o with TRebuild _ => fun _ _ => True | _ => steady crc32 cipher s T end) (text_step (set_text s (Some T)) o) (text_ref R o) (g + text_bill R o) (text_length R t o).
Proof using Hlaws Hseals.
  intros Hh [Hf Hw] (Hg & Ht & Ho). assert (Hfresh : map_Forall (fun _ d => fresh d) R) by (eapply map_Forall_impl; [exact Hf|]; by intros ? ? [_ ?]).
  destruct o as [nonce ds|nonce id|nonce id version f vs|nonce]; cbn [text_step text_ref text_bill text_length] in *.
  - destruct Ho as (Hn & H1 & H2 & H3). by apply insert_text.
  - by apply delete_text.
  - by apply encode_text.
  - by apply (rebuild_text threads crc32 cipher Hlaws Hseals nonce Ho s T R g t).
Qed.

Lemma text_steps_ok (os : list text_op) (s : Store) (T : TextSegment) (R : docs) (g t : Z) :
  holds_text crc32 cipher s T R g t -> reference_ok R -> text_ops_ok R g t os ->
  exists g' t', reaches crc32 cipher (fun _ _ => True) (text_steps (set_text s (Some T)) os) (foldl text_ref R os) g' t'.
Proof using Hlaws Hseals.
  revert s T R g t. induction os as [|o os IH]; intros s T R g t Hh Hr Ho; [exists g, t; by exists s, T|]. destruct Ho as [Ho Hos]. cbn [text_steps foldl].
  destruct (text_step_ok s T R g t o Hh Hr Ho) as (s1 & T1 & -> & _ & Hh1). cbn [obind]. eapply IH; [exact Hh1|by eapply text_ref_ok|done].
Qed.

Lemma text_run_ok (g : Z) (os : list text_op) :
  text_ops_ok ∅ g HEADER_LEN os -> exists g' t', reaches crc32 cipher (fun _ _ => True) (text_run g os) (text_reference os) g' t'.
Proof using Hlaws Hseals.
  intros Ho. unfold text_run, attach_text_segment. change (ds_documents (set_generation store_default g)) with (∅ : docs). rewrite decide_True by done. cbn [obind].
  change (set_text (set_generation store_default g) (Some (segment_create cipher))) with (set_text (empty_at g) (Some (segment_create cipher)) : Store).
  apply (text_steps_ok os (empty_at g) (segment_create cipher) ∅ g HEADER_LEN); [|by split; [apply map_Forall_empty|]|done].
  split; [apply empty_at_ok|apply map_Forall_empty|exists []; by apply created_texts| |done|done].
  intros i. rewrite lookup_fmap. change (ds_documents (empty_at g)) with (∅ : docs). rewrite !lookup_empty. constructor.
Qed.

(** C12: a store that keeps text in a segment keeps its documents.  From an empty store with a new
    segment, plain or encrypted, any sequence of batches, deletions, deferred encodings and
    canonical rebuilds within capacity runs without an error or a panic; the store then holds, for
    each id, the content of the last document inserted and not deleted since, with the vectors
    installed since, and reading the segment gives every chunk exactly its text. *)
Theorem text_store_refines (g : Z) (os : list text_op) :
  text_ops_ok ∅ g HEADER_LEN os ->
  exists s T, text_run g os = Ok s /\ ds_text s = Some T /\
    related (text_reference os) (resolved crc32 cipher T <$> ds_documents s) /\
    (forall id d, ds_documents s !! id = Some d -> Forall (fun c => c_text c = None) (doc_chunks d) /\
       forall c loc, c ∈ doc_chunks d -> c_text_at c = Some loc -> exists t, segment_read crc32 cipher T loc = Ok t).
Proof using Hlaws Hseals.
  intros Ho. destruct (text_run_ok g os Ho) as (g' & t' & s & T & Hrun & _ & [H1 H2 [l H3] H4 _ _]). exists (set_text s (Some T)), T. split_and!; [done|done|done|].
  intros id d Hd. split; [by apply (H2 id d)|]. intros c loc Hc Ha.
  destruct (tx_recorded _ _ _ _ _ H3 loc) as [x Hx]; [eapply live_elem; [exact Hd|apply list_elem_of_omap; eauto]|]. eexists. by eapply recorded_reads.
Qed.

(** C13: deleted and replaced text is gone.  After any such history every byte of the segment file
    behind its header that is not in the record of a chunk of a stored document is zero. *)
Theorem stale_text_is_zero (g : Z) (os : list text_op) :
  text_ops_ok ∅ g HEADER_LEN os ->
  exists s T, text_run g os = Ok s /\ ds_text s = Some T /\
    forall i, (HEADER_LEN <= Z.of_nat i < Z.of_nat (length (ts_file T)))%Z ->
      (exists id d c a l k, ds_documents s !! id = Some d /\ c ∈ doc_chunks d /\ c_text_at c = Some (a, l, k) /\ a <= Z.of_nat i < a + l)%Z \/
      ts_file T !! i = Some 0%Z.
Proof using Hlaws Hseals.
  intros Ho. destruct (text_run_ok g os Ho) as (g' & t' & s & T & Hrun & _ & [H1 H2 [l H3] H4 _ _]). exists (set_text s (Some T)), T. split_and!; [done|done|].
  intros i Hi. rewrite (tx_file _ _ _ _ _ H3) in Hi. destruct (unowned_zero _ _ _ _ _ _ H3 Hi) as [([[a n] k] & Hl & Hr)|Hz]; [left|right; by rewrite Nat2Z.id in Hz].
  destruct (live_owner _ _ Hl) as (id & d & Hd & (c & Hc & Ha)%list_elem_of_omap). exists id, d, c, a, n, k. done.
Qed.
End TextHistory.

(** ** A history, encrypted *)

Definition awaiting (c : StoredChunk) : StoredChunk :=
  {| c_id := c_id c; c_text := c_text c; c_text_at := c_text_at c; c_start_byte := c_start_byte c; c_end_byte := c_end_byte c;
     c_vector := c_vector c; c_embedding := c_embedding c; c_terms := c_terms c; c_word_count := c_word_count c;
     c_stemmed := c_stemmed c; c_vector_state := Pending |}.

Definition toy_text (e : list (list Z * Z)) (w : Z) (t : list Z) : StoredChunk := inline_text (toy_chunk e true w) (Some t).
Definition toy_nonce (n : Z) : Z -> list Z := fun _ => replicate 12 n.

(** Two documents; the vectors of the second arrive, the first is replaced and then deleted; rebuilt. *)
Definition toy_text_history : list text_op :=
  [TInsert (toy_nonce 7) [toy_sdoc [1] [toy_text cats 3 [99; 97; 116]; toy_text dogs 6 [100; 111; 103]]; toy_sdoc [2] [awaiting (toy_text cats 3 [104; 111; 116])]];
   TEncode (toy_nonce 8) [2] [] 14193039753790900744 [{| hv_dim := 64; hv_indices := [5] |}];
   TInsert (toy_nonce 9) [toy_sdoc [1] [toy_text dogs 6 [100; 111; 103]]];
   TDelete (toy_nonce 9) [1];
   TRebuild (toy_nonce 3)]%Z.

Lemma toy_seals : seals (Some toy_aead).
Proof. intros a nonce msg aad [= <-] _ _. done. Qed.

Lemma toy_aead_lawful a : Some toy_aead = Some a -> AeadLaws a.
Proof. intros [= <-]. exact toy_aead_laws. Qed.

Lemma toy_text_fits e w t : e = cats \/ e = dogs -> (0 <= w < U32_MAX)%Z -> chunk_fits (toy_text e w t).
Proof. destruct toy_entries_ok as [Hc Hd]. intros [-> | ->] Hw; apply inline_fits, toy_chunk_fits; first [done|by_decide]. Qed.

Lemma awaiting_fits c : chunk_fits c -> chunk_fits (awaiting c).
Proof. intros [[H1 H2 H3] H4]. split; [split|]; done. Qed.

(** Both documents deleted. *)
Definition toy_deletions : list text_op := take 1 toy_text_history ++ [TDelete (toy_nonce 0) [2]; TDelete (toy_nonce 0) [1]]%Z.

Ltac text_ops :=
  cbn [app take text_ops_ok]; unfold text_op_ok; repeat match goal with |- _ /\ _ => split end; try exact I; try by_decide; try (by intros a);
  repeat match goal with |- Forall _ _ => constructor | |- doc_fits _ => unfold doc_fits; cbn [doc_chunks toy_sdoc] | |- fresh _ => unfold fresh; cbn [doc_chunks toy_sdoc] end;
  try (apply toy_text_fits; [auto|vm_compute; split; congruence]); try (apply awaiting_fits, toy_text_fits; [auto|vm_compute; split; congruence]);
  try (split; [done|split; [vm_compute; reflexivity|vm_compute; reflexivity]]).

Lemma toy_text_history_ok : text_ops_ok (fun _ => 0%Z) (Some toy_aead) ∅ 5 HEADER_LEN toy_text_history.
Proof. unfold toy_text_history. text_ops. intros d Hd. vm_compute in Hd. injection Hd as <-. by_decide. Qed.

Lemma toy_deletions_ok : text_ops_ok (fun _ => 0%Z) (Some toy_aead) ∅ 5 HEADER_LEN toy_deletions.
Proof. unfold toy_deletions, toy_text_history. text_ops. Qed.

Abbreviation toy_text_run := (text_run (V := toy_json) (B := Base flat_image) 4 (fun _ => 0%Z) (Some toy_aead) 5).

Lemma text_store_refines_witness :
  text_ops_ok (fun _ => 0%Z) (Some toy_aead) ∅ 5 HEADER_LEN toy_text_history /\
  exists s T, toy_text_run toy_text_history = Ok s /\ ds_text s = Some T /\ ds_documents s !! [1]%Z = None /\
    exists d, resolved (fun _ => 0%Z) (Some toy_aead) T <$> ds_documents s !! [2]%Z = Some d /\ map c_text (doc_chunks d) = [Some [104; 111; 116]]%Z.
Proof.
  split; [exact toy_text_history_ok|].
  destruct (text_store_refines (B := Base flat_image) 4 (fun _ => 0%Z) (Some toy_aead) toy_aead_lawful toy_seals 5 toy_text_history toy_text_history_ok) as (s & T & Hrun & HT & Hr & _).
  exists s, T. split; [exact Hrun|]. split; [exact HT|]. set (R := text_reference _ _ _) in Hr.
  assert (E1 : R !! [1]%Z = None) by (vm_compute; reflexivity). assert (E2 : (fun d => map c_text (doc_chunks d)) <$> R !! [2]%Z = Some [Some [104; 111; 116]]%Z) by (vm_compute; reflexivity).
  clearbody R. split.
  - specialize (Hr [1]%Z). rewrite lookup_fmap, E1 in Hr. destruct (ds_documents s !! [1]%Z) as [d|]; [inversion Hr|reflexivity].
  - specialize (Hr [2]%Z). rewrite lookup_fmap in Hr. inversion Hr as [d0 d1 [Hd1 Hd2] E3 E4|E3 E4]; [|rewrite <- E3 in E2; discriminate E2].
    rewrite <- E3 in E2. injection E2 as E2. exists d1. split; [reflexivity|]. rewrite <- E2. clear - Hd2. induction Hd2 as [|c c' cs cs' (Hc & _) _ IH]; [reflexivity|].
    cbn [map]. rewrite IH. f_equal. rewrite Hc. reflexivity.
Defined.

Lemma stale_text_is_zero_witness :
  text_ops_ok (fun _ => 0%Z) (Some toy_aead) ∅ 5 HEADER_LEN toy_deletions /\
  exists s T, toy_text_run toy_deletions = Ok s /\ ds_text s = Some T /\ ts_file T !! 40 = Some 0%Z.
Proof.
  split; [exact toy_deletions_ok|].
  destruct (stale_text_is_zero (B := Base flat_image) 4 (fun _ => 0%Z) (Some toy_aead) toy_aead_lawful toy_seals 5 toy_deletions toy_deletions_ok) as (s & T & Hrun & HT & Hz).
  exists s, T. split; [exact Hrun|]. split; [exact HT|].
  destruct (Hz 40) as [(id & d & c & a & l & k & Hd & _)|E]; [|exfalso; revert Hd|exact E]; vm_compute in Hrun; injection Hrun as <-; [|clear; destruct id as [|[] []]; vm_compute; discriminate].
  vm_compute in HT. injection HT as <-. vm_compute. split; congruence.
Defined.
