(* ===== verification/ImageEncode.v ===== *)
(** * Writing a checkpoint

    [encode] of [src/core/documents/image.rs]: a document store as the bytes of a checkpoint. *)

From S2P Require Import Prelude Words BitPack Search Positions Terms FrameDict TextSegment Binary Share TermDict Postings Cursor PostingEdit PostingRuns CheckpointLists Lists Indexing Bulk IndexRuns Filters SlotTable Store ImageDict Image.

Section Encode.
Context {V : Type} {json : Json V} `{!EqDecision (StoredDocument V)}.
Context {B : Type}.
Context (to_vec : V -> outcome (list Z)) (crc32 : list Z -> Z) (cipher : option Aead).
Abbreviation Doc := (StoredDocument V).
Abbreviation Store := (DocumentStore V TermDictionary B).

Definition lexical_only (c : StoredChunk) : bool :=
  bool_decide (c_vector_state c = Lexical) && bool_decide (c_embedding c = None) &&
  bool_decide (hv_indices (c_vector c) = []) && bool_decide (t_positions (c_terms c) = None).

(** [BTreeMap::iter]: the documents in id order. *)
Definition documents_in_order (s : Store) : list (list Z * Doc) := merge_sort id_le (map_to_list (ds_documents s)).

Definition image_representable (s : Store) : bool :=
  (st_nonpositional (ds_table s) =? st_chunks (ds_table s))%Z &&
  forallb (fun x => forallb lexical_only (doc_chunks x.2)) (documents_in_order s).

Definition encode_chunk (segment : option TextSegment) (document : list Z) (index : nat) (c : StoredChunk) : outcome (list Z) :=
  let* derived := is_chunk_id (c_id c) document (Z.of_nat index) in
  let flags := Z.lor (if derived then 0 else OWN_ID)%Z (if c_stemmed c then STEMMED else 0)%Z in
  let* text := try_text_of crc32 cipher segment c in
  Ok ([flags] ++ (if derived : bool then [] else put_bytes (c_id c)) ++ put_varint (c_start_byte c) ++ put_varint (c_end_byte c) ++
      match text with Some t => [TEXT_INLINE] ++ put_bytes t | None => [TEXT_NONE] end).

Fixpoint encode_chunks (segment : option TextSegment) (document : list Z) (index : nat) (cs : list StoredChunk) : outcome (list Z) :=
  match cs with
  | [] => Ok []
  | c :: cs =>
      let* a := encode_chunk segment document index c in
      let* b := encode_chunks segment document (S index) cs in Ok (a ++ b)
  end.

Definition encode_document (segment : option TextSegment) (d : Doc) : outcome (list Z) :=
  let* metadata := to_vec (doc_metadata d) in
  let* chunks := encode_chunks segment (doc_id d) 0 (doc_chunks d) in
  Ok (put_bytes (doc_version d) ++ put_source (doc_source_uri d) ++ put_bytes metadata ++ put_varint (Z.of_nat (length (doc_chunks d))) ++ chunks).

(** [owners[slot] = (ordinal, chunk)] for a document's slots. *)
Fixpoint place_owners (owners : list (Z * Z)) (ordinal : Z) (chunk : nat) (slots : list Z) : outcome (list (Z * Z)) :=
  match slots with
  | [] => Ok owners
  | slot :: slots =>
      ensure (Z.of_nat chunk <? U32)%Z else "chunk index" ;
      let* _ := expect (owners !! Z.to_nat slot) in
      place_owners (<[Z.to_nat slot := (ordinal, Z.of_nat chunk)]> owners) ordinal (S chunk) slots
  end.

(** The sections built while walking the documents. *)
Record DocTables := mkTables { dt_owners : list (Z * Z); dt_ids : list Z; dt_id_offsets : list Z; dt_docs : list Z; dt_doc_offsets : list Z }.

Definition fits_u32 (bytes : list Z) : bool := (Z.of_nat (length bytes) <? U32)%Z.
Definition offset_of (bytes : list Z) : list Z := to_le_bytes 4 (Z.of_nat (length bytes)).

(** The loop over the documents; [None] is the early return of [encode]. *)
Fixpoint encode_documents (s : Store) (ordinal : nat) (docs : list (list Z * Doc)) (t : DocTables) : outcome (option DocTables) :=
  match docs with
  | [] => Ok (Some t)
  | (id, d) :: docs =>
      ensure (Z.of_nat ordinal <? U32)%Z else "checkpoint document count" ;
      let* slots := ok_or (ds_slots s !! id) "document without slots" in
      ensure (Nat.eqb (length slots) (length (doc_chunks d))) else "document slots and chunks disagree" ;
      let* owners := place_owners (dt_owners t) (Z.of_nat ordinal) 0 slots in
      if negb (fits_u32 (dt_ids t) && fits_u32 (dt_docs t)) then Ok None
      else
        let* record := encode_document (ds_text s) d in
        encode_documents s (S ordinal) docs {|
          dt_owners := owners; dt_ids := dt_ids t ++ id; dt_id_offsets := dt_id_offsets t ++ offset_of (dt_ids t);
          dt_docs := dt_docs t ++ record; dt_doc_offsets := dt_doc_offsets t ++ offset_of (dt_docs t) |}
  end.

(** One row of the slot table; [slot_word_count] indexes the word counts. *)
Fixpoint slot_rows (words : list Z) (slot : nat) (owners : list (Z * Z)) : outcome (list Z) :=
  match owners with
  | [] => Ok []
  | (ordinal, chunk) :: rest =>
      let* w := expect (words !! slot) in
      let* rows := slot_rows words (S slot) rest in
      Ok (to_le_bytes 4 w ++ to_le_bytes 4 ordinal ++ to_le_bytes 4 chunk ++ rows)
  end.

(** [(at, len)] of every section, from [at_] on. *)
Fixpoint section_words (at_ : Z) (sections : list (list Z)) : list Z :=
  match sections with
  | [] => []
  | x :: rest => at_ :: Z.of_nat (length x) :: section_words (at_ + Z.of_nat (length x)) rest
  end.

(** The header words: the CRC word is written last. *)
Definition image_header_words (generation dimensions : Z) (s : Store) (terms0 terms1 : nat) (sections : list (list Z)) : list Z :=
  [0; generation; dimensions; 0; 0; 0; 0; 0; st_slot_count (ds_table s); st_chunks (ds_table s); st_total_words (ds_table s);
   Z.of_nat (size (ds_documents s)); Z.of_nat terms0; Z.of_nat terms1]%Z ++
  section_words (Z.of_nat IMAGE_HEADER_LEN) sections ++ replicate (HEADER_WORDS - H_SECTIONS - 2 * SECTIONS) 0%Z.

Definition image_file (words : list Z) (sections : list (list Z)) : list Z :=
  let out := IMAGE_MAGIC ++ concat (map (to_le_bytes 8) words) ++ concat sections in
  splice out 8 (to_le_bytes 8 (crc32 (drop CRC_START out))).

Definition image_encode (s : Store) (generation dimensions : Z) : outcome (option (list Z)) :=
  if negb (image_representable s) then Ok None
  else
    let* zero := encode_form (ds_postings s).1 [] in
    match zero with
    | None => Ok None
    | Some zero =>
        let* one := encode_form (ds_postings s).2 (wr_postings zero) in
        match one with
        | None => Ok None
        | Some one =>
            if negb (fits_u32 (wr_postings one)) then Ok None
            else
              let* tables := encode_documents s 0 (documents_in_order s) {|
                dt_owners := replicate (Z.to_nat (st_slot_count (ds_table s))) (FREE, 0%Z);
                dt_ids := []; dt_id_offsets := []; dt_docs := []; dt_doc_offsets := [] |} in
              match tables with
              | None => Ok None
              | Some t =>
                  if negb (fits_u32 (dt_ids t) && fits_u32 (dt_docs t)) then Ok None
                  else
                    let* rows := slot_rows (st_words (ds_table s)) 0 (dt_owners t) in
                    let sections := [wr_dict zero; wr_blocks zero; wr_dict one; wr_blocks one; wr_postings one; rows;
                      dt_id_offsets t ++ offset_of (dt_ids t); dt_ids t; dt_doc_offsets t ++ offset_of (dt_docs t); dt_docs t] in
                    Ok (Some (image_file (image_header_words generation dimensions s (wr_count zero) (wr_count one) sections) sections))
              end
        end
    end.
End Encode.
