(* ===== verification/ImageLayout.v ===== *)
(** * The layout of a checkpoint file

    Header words, sections and tables of fixed-width rows, read back from what [encode] of
    [src/core/documents/image.rs] lays out. *)

From S2P Require Import Prelude Words BitPack Search Positions Terms FrameDict TextSegment Binary Share TermDict Postings Cursor PostingEdit PostingRuns CheckpointLists Lists Indexing Bulk IndexRuns Filters SlotTable Store Journal Hostile ImageDict Image ImageOpen ImageWrite ImageEncode.

(** ** Rows of one width *)

Lemma concat_rows_take (n : nat) (rows : list (list Z)) i :
  Forall (fun r => length r = n) rows -> i <= length rows -> length (concat (take i rows)) = n * i.
Proof.
  intros Hr. revert i. induction Hr as [|r rows Hr Hrs IH]; intros i Hi; [cbn in Hi; assert (i = 0) as -> by lia; cbn; lia|].
  destruct i as [|i]; [cbn; lia|]. cbn [take concat]. rewrite length_app, IH by (cbn in Hi; lia). lia.
Qed.

Lemma row_at (n : nat) (rows : list (list Z)) i r rest :
  Forall (fun r => length r = n) rows -> rows !! i = Some r -> take n (drop (n * i) (concat rows ++ rest)) = r.
Proof.
  intros Hr Hi. pose proof (lookup_lt_Some _ _ _ Hi) as Hlt.
  assert (Hsplit : concat rows ++ rest = concat (take i rows) ++ r ++ concat (drop (S i) rows) ++ rest).
  { rewrite <- (take_drop_middle rows i r Hi) at 1. rewrite concat_app. cbn [concat]. by rewrite <- !app_assoc. }
  rewrite Hsplit. rewrite <- (concat_rows_take n rows i Hr) by lia. rewrite drop_app_length.
  rewrite Forall_lookup in Hr. rewrite <- (Hr i r Hi). apply take_app_length.
Qed.

Lemma rows_length (n : nat) (rows : list (list Z)) : Forall (fun r => length r = n) rows -> length (concat rows) = n * length rows.
Proof. intros Hr. rewrite <- (concat_rows_take n rows (length rows) Hr) by lia. by rewrite take_ge. Qed.

Lemma words_rows k ws : Forall (fun r => length r = k) (map (to_le_bytes k) ws).
Proof. apply Forall_fmap, Forall_forall. intros w _. apply to_le_bytes_length. Qed.

(** A table of 32-bit words. *)
Lemma u32_table ws i w rest : ws !! i = Some w -> is_u32 w -> u32_at (concat (map (to_le_bytes 4) ws) ++ rest) (4 * i) = Ok w.
Proof.
  intros Hi Hw. unfold u32_at. pose proof (rows_length 4 _ (words_rows 4 ws)) as Hl. rewrite length_map in Hl. apply lookup_lt_Some in Hi as Hlt.
  rewrite slice_Ok by (rewrite ?length_app; lia). cbn [obind]. replace (4 * i + 4 - 4 * i) with 4 by lia.
  rewrite (row_at 4 _ i (to_le_bytes 4 w)); [by rewrite from_to_le_bytes|apply words_rows|by rewrite list_lookup_fmap, Hi].
Qed.

(** ** Sections *)

Fixpoint ranges (at_ : nat) (sections : list (list Z)) : list (nat * nat) :=
  match sections with [] => [] | x :: rest => (at_, length x) :: ranges (at_ + length x) rest end.

Lemma ranges_lookup at_ sections i x :
  sections !! i = Some x -> ranges at_ sections !! i = Some (at_ + length (concat (take i sections)), length x).
Proof.
  revert at_ i. induction sections as [|y sections IH]; intros at_ i Hi; [done|]. destruct i as [|i]; cbn in *; [injection Hi as ->; by rewrite Nat.add_0_r|].
  rewrite (IH _ _ Hi), length_app. do 2 f_equal. lia.
Qed.

Lemma ranges_length at_ sections : length (ranges at_ sections) = length sections.
Proof. revert at_. induction sections as [|x l IH]; intros at_; [done|]. cbn. by rewrite IH. Qed.

Lemma section_words_length at_ sections : length (section_words at_ sections) = 2 * length sections.
Proof. revert at_. induction sections as [|x l IH]; intros at_; [done|]. cbn [section_words length]. rewrite IH. lia. Qed.

Lemma read_sections_written bytes sections i at_ :
  (forall k w, section_words (Z.of_nat at_) sections !! k = Some w -> word bytes (H_SECTIONS + 2 * i + k) = Ok w) ->
  at_ + length (concat sections) <= length bytes -> (Z.of_nat (length bytes) < USIZE)%Z ->
  read_sections bytes i (length sections) (Z.of_nat at_) = Ok (ranges at_ sections, Z.of_nat (at_ + length (concat sections))).
Proof.
  revert i at_. induction sections as [|x sections IH]; intros i at_ Hw Hl Hb; [cbn; by rewrite Nat.add_0_r|].
  cbn [length read_sections section_words ranges concat] in *. rewrite length_app in *.
  pose proof (Hw 0 _ eq_refl) as H0. rewrite Nat.add_0_r in H0. rewrite H0. cbn [obind]. rewrite (Hw 1 _ eq_refl). cbn [obind]. rewrite Z.eqb_refl.
  unfold checked_add. rewrite (proj2 (Z.ltb_lt _ USIZE)) by lia. rewrite (proj2 (Z.leb_le _ _)) by lia. cbn [andb]. rewrite <- Nat2Z.inj_add.
  rewrite IH; [|intros k w Hk; replace (H_SECTIONS + 2 * S i + k) with (H_SECTIONS + 2 * i + S (S k)) by lia; apply Hw; by rewrite Nat2Z.inj_add in Hk|lia|done].
  cbn [obind]. rewrite !Nat2Z.id. do 2 f_equal. f_equal. lia.
Qed.

(** ** The file *)

Section File.
Context (crc32 : list Z -> Z) (words : list Z) (sections : list (list Z)).
Context (Hwords : length words = HEADER_WORDS) (Hu64 : Forall is_u64 words).
Abbreviation file := (image_file crc32 words sections).

Definition plain_file : list Z := IMAGE_MAGIC ++ concat (map (to_le_bytes 8) words) ++ concat sections.

Lemma plain_length : length plain_file = IMAGE_HEADER_LEN + length (concat sections).
Proof.
  unfold plain_file. rewrite !length_app, (rows_length 8 _ (words_rows 8 words)), length_map, Hwords. unfold IMAGE_HEADER_LEN, HEADER_WORDS. cbn [length IMAGE_MAGIC]. lia.
Qed.

Lemma file_length : length file = IMAGE_HEADER_LEN + length (concat sections).
Proof.
  unfold image_file. fold plain_file. rewrite splice_length; [apply plain_length|]. rewrite to_le_bytes_length, plain_length. unfold IMAGE_HEADER_LEN, HEADER_WORDS. lia.
Qed.

Lemma file_drop n : CRC_START <= n -> n <= length file -> drop n file = drop n plain_file.
Proof.
  intros Hn Hl. rewrite file_length in Hl. unfold image_file. fold plain_file. apply drop_splice; rewrite ?to_le_bytes_length, ?plain_length; unfold CRC_START, IMAGE_HEADER_LEN, HEADER_WORDS in *; lia.
Qed.

Lemma file_magic : take 8 file = IMAGE_MAGIC.
Proof.
  unfold image_file. fold plain_file. rewrite take_splice by (rewrite plain_length; unfold IMAGE_HEADER_LEN, HEADER_WORDS; lia).
  unfold plain_file. rewrite take_app_le by done. done.
Qed.

Lemma file_word i w : i <> 0 -> words !! i = Some w -> word file i = Ok w.
Proof.
  intros Hi Hw. pose proof (lookup_lt_Some _ _ _ Hw) as Hlt. rewrite Hwords in Hlt. unfold word.
  assert (Hle : 8 + 8 * i + 8 <= length file) by (rewrite file_length; unfold IMAGE_HEADER_LEN, HEADER_WORDS in *; lia).
  rewrite slice_Ok by lia. cbn [obind]. rewrite file_drop by (unfold CRC_START; lia). replace (8 + 8 * i + 8 - (8 + 8 * i)) with 8 by lia.
  unfold plain_file. rewrite drop_app_ge by (cbn; lia). replace (8 + 8 * i - length IMAGE_MAGIC) with (8 * i) by (change (length IMAGE_MAGIC) with 8; lia).
  rewrite (row_at 8 _ i (to_le_bytes 8 w)); [|apply words_rows|by rewrite list_lookup_fmap, Hw].
  rewrite from_to_le_bytes; [done|]. rewrite Forall_lookup in Hu64. exact (Hu64 _ _ Hw).
Qed.

Lemma file_section i x :
  sections !! i = Some x -> let a := IMAGE_HEADER_LEN + length (concat (take i sections)) in slice file a (a + length x) = Ok x.
Proof.
  intros Hi a. unfold a. clear a.
  assert (Hsplit : concat sections = concat (take i sections) ++ x ++ concat (drop (S i) sections)).
  { rewrite <- (take_drop_middle sections i x Hi) at 1. by rewrite concat_app. }
  assert (Hle : IMAGE_HEADER_LEN + length (concat (take i sections)) + length x <= length file).
  { rewrite file_length, Hsplit, !length_app. lia. }
  rewrite slice_Ok by lia. rewrite file_drop by (unfold CRC_START, IMAGE_HEADER_LEN, HEADER_WORDS in *; lia). replace (_ + _ + _ - _) with (length x) by lia.
  assert (Hhead : length (IMAGE_MAGIC ++ concat (map (to_le_bytes 8) words)) = IMAGE_HEADER_LEN).
  { rewrite length_app, (rows_length 8 _ (words_rows 8 words)), length_map, Hwords. done. }
  unfold plain_file. rewrite app_assoc, Hsplit, app_assoc, <- Hhead, <- length_app, drop_app_length, take_app_length. done.
Qed.

(** An image over the file, with any counts. *)
Lemma written_section im s x :
  im_bytes im = file -> im_sections im = ranges IMAGE_HEADER_LEN sections -> sections !! section_index s = Some x -> section im s = Ok x.
Proof.
  intros Hb Hs Hx. unfold section. rewrite Hs, (ranges_lookup _ _ _ _ Hx). cbn [expect obind]. rewrite Hb.
  by apply file_section.
Qed.
End File.
