(* ===== verification/ImageStore.v ===== *)
(** * A store and its checkpoint

    What [encode] of [src/core/documents/image.rs] writes opens, and every read of the open
    checkpoint is the read of the store that was written: documents in id order, slots with their
    owners and word counts, both term forms, records. *)

From S2P Require Import Prelude Words BitPack Search Positions Terms FrameDict TextSegment Binary Share TermDict Postings Cursor PostingEdit PostingRuns CheckpointLists Lists Indexing Bulk IndexRuns Filters SlotTable Store Journal Hostile ImageDict Image ImageOpen ImageWrite ImageEncode ImageLayout.

(** ** Tables of offsets *)

(** The offset table of concatenated texts. *)
Definition offset_table (l : list (list Z)) : list Z := concat (map (to_le_bytes 4) (bounds l)).

Lemma offset_table_snoc l x : offset_table (l ++ [x]) = offset_table l ++ offset_of (concat l ++ x).
Proof. unfold offset_table, offset_of. rewrite bounds_snoc, map_app, concat_app. cbn [map concat]. by rewrite app_nil_r. Qed.

Lemma bounds_lookup (l : list (list Z)) i : i <= length l -> bounds l !! i = Some (Z.of_nat (length (concat (take i l)))).
Proof. intros Hi. unfold bounds. rewrite list_lookup_fmap, lookup_seq_lt by lia. done. Qed.

Lemma concat_take_le {A} (l : list (list A)) i : length (concat (take i l)) <= length (concat l).
Proof. rewrite <- (take_drop i l) at 2. rewrite concat_app, length_app. lia. Qed.

Lemma concat_take_S {A} (l : list (list A)) i x : l !! i = Some x -> length (concat (take (S i) l)) = length (concat (take i l)) + length x.
Proof. intros Hi. rewrite (take_S_r _ _ _ Hi), concat_app, length_app. cbn. by rewrite app_nil_r. Qed.

Lemma offset_table_at l i : i <= length l -> (Z.of_nat (length (concat l)) < U32)%Z -> u32_at (offset_table l) (4 * i) = Ok (Z.of_nat (length (concat (take i l)))).
Proof.
  intros Hi Hs. unfold offset_table. rewrite <- (app_nil_r (concat _)). apply u32_table; [by apply bounds_lookup|].
  pose proof (concat_take_le l i). unfold is_u32. lia.
Qed.

Lemma offset_table_length l : length (offset_table l) = 4 * (length l + 1).
Proof. unfold offset_table. rewrite (rows_length 4 _ (words_rows 4 _)), length_map. unfold bounds. by rewrite length_map, length_seq. Qed.

Lemma check_offsets_written l n i previous :
  (Z.of_nat (length (concat l)) < U32)%Z -> i + n = length l + 1 -> (0 < n -> (previous <= Z.of_nat (length (concat (take i l))))%Z) ->
  check_offsets (offset_table l) (Z.of_nat (length (concat l))) n i previous = Ok (if decide (n = 0) then previous else Z.of_nat (length (concat l))).
Proof.
  intros Hs. revert i previous. induction n as [|n IH]; intros i previous Hi Hp; [done|]. cbn [check_offsets].
  rewrite offset_table_at by lia. cbn [obind]. pose proof (concat_take_le l i).
  rewrite (proj2 (Z.leb_le previous _)), (proj2 (Z.leb_le (Z.of_nat (length (concat (take i l)))) _)) by lia.
  assert ((0 <? i) || (Z.of_nat (length (concat (take i l))) =? 0)%Z = true) as -> by (destruct i; done). cbn [andb].
  rewrite IH by (lia || (intros; destruct (l !! i) as [x|] eqn:E; [rewrite (concat_take_S _ _ _ E); lia|apply lookup_ge_None in E; lia])).
  rewrite (decide_False (P := S n = 0)) by lia. case_decide; [|done]. assert (i = length l) as -> by lia. by rewrite take_ge.
Qed.

Section Tables.
Context (im : ServingImage) (l : list (list Z)) (os ds : ImageSection).
Context (Ho : section im os = Ok (offset_table l)) (Hd : section im ds = Ok (concat l)) (Hn : im_docs im = Z.of_nat (length l)).
Context (Hs : (Z.of_nat (length (concat l)) < U32)%Z) (Hl : (Z.of_nat (length l) < U32)%Z).

Lemma check_table_written : check_table im os ds = Ok tt.
Proof using Ho Hd Hn Hs Hl.
  unfold check_table. rewrite Ho, Hd, Hn. cbn [obind]. unfold checked_add, checked_mul, USIZE, U32 in *.
  rewrite (proj2 (Z.ltb_lt (Z.of_nat (length l) + 1) _)), (proj2 (Z.ltb_lt ((Z.of_nat (length l) + 1) * 4) _)) by lia.
  rewrite offset_table_length, (proj2 (Z.eqb_eq _ (Z.of_nat (4 * (length l + 1))))) by lia. rewrite Nat2Z.id.
  rewrite check_offsets_written by (unfold U32; cbn; lia). cbn [obind]. rewrite decide_False by lia. by rewrite Z.eqb_refl.
Qed.

Lemma span_written i x : l !! i = Some x -> span im os i = Ok (length (concat (take i l)), length (concat (take i l)) + length x).
Proof using Ho Hs.
  intros Hi. apply lookup_lt_Some in Hi as Hlt. unfold span. rewrite Ho. cbn [obind]. rewrite offset_table_at by (lia || done). cbn [obind].
  replace (4 * i + 4) with (4 * S i) by lia. rewrite offset_table_at by (lia || done). cbn [obind]. rewrite !Nat2Z.id. do 2 f_equal. by apply concat_take_S.
Qed.

Lemma slice_written i x : l !! i = Some x -> slice (concat l) (length (concat (take i l))) (length (concat (take i l)) + length x) = Ok x.
Proof.
  intros Hi. assert (Hsplit : concat l = concat (take i l) ++ x ++ concat (drop (S i) l)).
  { rewrite <- (take_drop_middle l i x Hi) at 1. by rewrite concat_app. }
  rewrite Hsplit at 1. rewrite slice_Ok by (rewrite ?length_app; lia). replace (_ + _ - _) with (length x) by lia. by rewrite drop_app_length, take_app_length.
Qed.
End Tables.

(** ** Ids *)

Lemma boundary_written (l : list (list Z)) i :
  Forall (fun x => utf8_valid x = true /\ x <> []) l -> i <= length l -> is_char_boundary (concat l) (length (concat (take i l))) = true.
Proof.
  intros Hf Hi. unfold is_char_boundary. destruct (Nat.eqb_spec (length (concat (take i l))) 0); [done|].
  destruct (l !! i) as [x|] eqn:E.
  - assert (Hsplit : concat l = concat (take i l) ++ x ++ concat (drop (S i) l)).
    { rewrite <- (take_drop_middle l i x E) at 1. by rewrite concat_app. }
    rewrite Forall_lookup in Hf. destruct (Hf i x E) as [Hu Hne]. destruct x as [|b x]; [done|]. rewrite Hsplit. cbn [app]. rewrite list_lookup_middle by done.
    by rewrite (utf8_head b x Hu).
  - apply lookup_ge_None in E. rewrite take_ge by lia. rewrite lookup_ge_None_2 by lia. apply Nat.eqb_refl.
Qed.

Lemma check_ids_written im l :
  section im IdOffsets = Ok (offset_table l) -> (Z.of_nat (length (concat l)) < U32)%Z ->
  Forall (fun x => utf8_valid x = true /\ x <> []) l -> bsorted l -> Forall (fun x => id_allowed x = true) l ->
  forall n i previous, i + n = length l -> match previous with None => True | Some p => forall x, l !! i = Some x -> blt p x end ->
  check_ids im (concat l) n i previous = Ok tt.
Proof.
  intros Ho Hs Hu Hsort Ha n. induction n as [|n IH]; intros i previous Hi Hp; [done|]. cbn [check_ids].
  destruct (lookup_lt_is_Some_2 l i) as [x Hx]; [lia|]. rewrite (span_written im l IdOffsets Ho Hs i x Hx). cbn [obind].
  rewrite boundary_written by (done || lia). rewrite <- (concat_take_S _ _ _ Hx), boundary_written by (done || lia). cbn [andb].
  rewrite (concat_take_S _ _ _ Hx), slice_written by done. cbn [obind].
  assert (Hprev : match previous with None => true | Some p => bool_decide (blt p x) end = true) by (destruct previous; [apply bool_decide_eq_true_2, Hp; done|done]).
  rewrite Hprev. rewrite Forall_lookup in Ha. rewrite (Ha i x Hx). apply IH; [lia|]. intros y Hy. by eapply (bsorted_lookup_lt _ i (S i)); [|lia|..].
Qed.

Lemma image_id_written im l i x :
  section im IdOffsets = Ok (offset_table l) -> section im Ids = Ok (concat l) -> (Z.of_nat (length (concat l)) < U32)%Z ->
  l !! i = Some x -> utf8_valid x = true -> image_id im i = Ok x.
Proof.
  intros Ho Hd Hs Hx Hu. unfold image_id. rewrite (span_written im l IdOffsets Ho Hs i x Hx). cbn [obind]. rewrite Hd. cbn [obind].
  rewrite slice_written by done. cbn [obind]. by rewrite Hu.
Qed.

(** ** Slots *)

Definition slot_row (x : Z * (Z * Z)) : list Z := [x.1; x.2.1; x.2.2].

Lemma slot_rows_ok words slot owners :
  slot + length owners <= length words ->
  slot_rows words slot owners = Ok (concat (map (to_le_bytes 4) (concat (map slot_row (zip (drop slot words) owners))))).
Proof.
  revert slot. induction owners as [|[o c] owners IH]; intros slot Hl; [by rewrite zip_with_nil_r|]. cbn [slot_rows length] in *.
  destruct (lookup_lt_is_Some_2 words slot) as [w Hw]; [lia|]. rewrite Hw. cbn [expect obind]. rewrite IH by lia. cbn [obind].
  rewrite (drop_S _ _ _ Hw). cbn [zip_with map concat slot_row fst snd app]. rewrite !app_assoc. done.
Qed.

(** The slot table. *)
Definition slot_table (words : list Z) (owners : list (Z * Z)) : list Z := concat (map (to_le_bytes 4) (concat (map slot_row (zip words owners)))).

Lemma slot_rows_table words owners : length owners <= length words -> slot_rows words 0 owners = Ok (slot_table words owners).
Proof. exact (slot_rows_ok words 0 owners). Qed.

Lemma slot_fields words owners slot w o c :
  words !! slot = Some w -> owners !! slot = Some (o, c) -> is_u32 w -> is_u32 o -> is_u32 c ->
  let table := slot_table words owners in let at_ := slot * SLOT_BYTES in
  u32_at table at_ = Ok w /\ u32_at table (at_ + 4) = Ok o /\ u32_at table (at_ + 8) = Ok c.
Proof.
  intros Hw Ho H1 H2 H3 table at_. unfold table, at_, slot_table, SLOT_BYTES. clear table at_. set (ws := concat (map slot_row (zip words owners))).
  assert (Hrow : take 3 (drop (3 * slot) ws) = [w; o; c]).
  { unfold ws. rewrite <- (app_nil_r (concat _)). apply row_at; [apply Forall_fmap, Forall_forall; done|].
    rewrite list_lookup_fmap, lookup_zip_with, Hw. cbn. by rewrite Ho. }
  assert (Hat : forall j z, [w; o; c] !! j = Some z -> ws !! (3 * slot + j) = Some z).
  { intros j z Hj. rewrite <- Hrow in Hj. apply lookup_take_Some in Hj as [Hj _]. by rewrite lookup_drop in Hj. }
  rewrite <- (app_nil_r (concat _)). replace (slot * 12) with (4 * (3 * slot + 0)) by lia. split_and!.
  - apply u32_table; [by apply Hat|done].
  - replace (4 * (3 * slot + 0) + 4) with (4 * (3 * slot + 1)) by lia. apply u32_table; [by apply Hat|done].
  - replace (4 * (3 * slot + 0) + 8) with (4 * (3 * slot + 2)) by lia. apply u32_table; [by apply Hat|done].
Qed.

Lemma slot_table_length words owners : length words = length owners -> length (slot_table words owners) = length owners * SLOT_BYTES.
Proof.
  intros Hl. unfold slot_table, SLOT_BYTES. rewrite (rows_length 4 _ (words_rows 4 _)), length_map, (rows_length 3) by (apply Forall_fmap, Forall_forall; done).
  rewrite length_map, length_zip_with, Hl. lia.
Qed.

Lemma slot_written im words owners slot w o c :
  section im Slots = Ok (slot_table words owners) ->
  words !! slot = Some w -> owners !! slot = Some (o, c) -> is_u32 w -> is_u32 o -> is_u32 c -> image_slot im slot = Ok (w, o, c).
Proof.
  intros Hs Hw Ho H1 H2 H3. unfold image_slot. rewrite Hs. cbn [obind]. destruct (slot_fields _ _ _ _ _ _ Hw Ho H1 H2 H3) as (-> & -> & ->). done.
Qed.

(** The owned slots. *)
Definition used_slots (owners : list (Z * Z)) : Z := foldr (fun x acc => (if (x.1 =? FREE)%Z then 0 else 1) + acc)%Z 0%Z owners.

Lemma count_used_written table docs owners n slot used :
  (forall i o c, owners !! i = Some (o, c) -> u32_at table (i * SLOT_BYTES + 4) = Ok o) ->
  Forall (fun x => x.1 = FREE \/ (x.1 < docs)%Z) owners -> slot + n = length owners ->
  count_used table docs n slot used = Ok (used + used_slots (drop slot owners))%Z.
Proof.
  intros Hat Hf. revert slot used. induction n as [|n IH]; intros slot used Hn.
  { rewrite drop_ge by lia. cbn. by rewrite Z.add_0_r. }
  cbn [count_used]. destruct (lookup_lt_is_Some_2 owners slot) as [[o c] Hx]; [lia|]. rewrite (Hat _ _ _ Hx). cbn [obind].
  rewrite Forall_lookup in Hf. pose proof (Hf _ _ Hx) as Ho. cbn [fst] in Ho.
  assert ((o =? FREE)%Z || (o <? docs)%Z = true) as -> by (apply orb_true_iff; destruct Ho; [left; by apply Z.eqb_eq|right; by apply Z.ltb_lt]).
  rewrite IH by lia. rewrite (drop_S _ _ _ Hx). cbn [used_slots foldr fst]. f_equal. unfold used_slots. lia.
Qed.

(** ** Records *)

Section RecordCodec.
Context {V : Type} (to_vec : V -> outcome (list Z)) (from_slice : list Z -> outcome V) (is_object : V -> bool).
Context (crc32 : list Z -> Z) (cipher : option Aead) (segment : option TextSegment).

(** What a chunk's record says; [derived] is whether its id is the default one. *)
Definition chunk_record_of (derived : bool) (text : option (list Z)) (c : StoredChunk) : RecordChunk :=
  {| rc_id := if derived then None else Some (c_id c); rc_stemmed := c_stemmed c; rc_start := c_start_byte c; rc_end := c_end_byte c; rc_text := text |}.

(** A chunk within the bounds of ingest. *)
Record chunk_recordable (c : StoredChunk) (text : option (list Z)) : Prop := {
  cf_text : try_text_of crc32 cipher segment c = Ok text;
  cf_utf8 : match text with Some t => utf8_valid t = true /\ Z.of_nat (length t) = (c_end_byte c - c_start_byte c)%Z | None => True end;
  cf_span : (0 <= c_start_byte c < c_end_byte c)%Z /\ (c_end_byte c <= MAX_DOCUMENT_BYTES)%Z;
  cf_id : utf8_valid (c_id c) = true /\ id_allowed (c_id c) = true }.

Definition default_id (d : list Z) (i : nat) (c : StoredChunk) : bool :=
  match is_chunk_id (c_id c) d (Z.of_nat i) with Ok b => b | _ => false end.

Lemma default_id_ok (d : list Z) i c :
  (Z.of_nat (length d) < U64)%Z -> (Z.of_nat i < U64)%Z ->
  is_chunk_id (c_id c) d (Z.of_nat i) = Ok (default_id d i c) /\ (default_id d i c = true -> chunk_id d (Z.of_nat i) = Ok (c_id c)).
Proof.
  intros H1 H2. unfold default_id. destruct (is_chunk_id_spec (c_id c) d (Z.of_nat i)) as (x & Hx & Hd); [unfold is_u64; lia..|].
  rewrite Hd. split; [done|]. intros E. by rewrite (bool_decide_eq_true_1 _ E).
Qed.

Lemma flags_read (derived stemmed : bool) :
  let flags := Z.lor (if derived then 0 else OWN_ID) (if stemmed then STEMMED else 0) in
  Z.land flags (Z.lxor 255 (Z.lor OWN_ID STEMMED)) = 0%Z /\ has flags OWN_ID = negb derived /\ has flags STEMMED = stemmed.
Proof. by destruct derived, stemmed. Qed.

Lemma id_allowed_small id : id_allowed id = true -> (Z.of_nat (length id) < U16)%Z.
Proof. unfold id_allowed. intros H. by bool_to_prop. Qed.

Lemma encode_chunk_parses d i c text :
  (Z.of_nat (length d) < U64)%Z -> (Z.of_nat i < U64)%Z -> chunk_recordable c text ->
  exists bytes, encode_chunk crc32 cipher segment d i c = Ok bytes /\ 4 <= length bytes /\
    parses (record_chunk tt) bytes (chunk_record_of (default_id d i c) text c, tt).
Proof.
  intros Hd Hi [Ht Hu [Hs He] [Hidu Hida]]. unfold encode_chunk. destruct (default_id_ok d i c Hd Hi) as [-> _]. set (derived := default_id d i c).
  cbn [obind]. rewrite Ht. cbn [obind]. eexists. split; [done|]. destruct (flags_read derived (c_stemmed c)) as (F1 & F2 & F3). set (flags := Z.lor _ _) in *.
  unfold MAX_DOCUMENT_BYTES in *. split.
  { rewrite !length_app. pose proof (put_varint_nonempty (c_start_byte c)). pose proof (put_varint_nonempty (c_end_byte c)).
    destruct text; [rewrite length_app|]; cbn [length]; lia. }
  unfold record_chunk. eapply rbind_parses; [apply rbyte_parses|]. apply parses_guard; [by apply Z.eqb_eq|].
  assert (Hnum : forall z, (0 <= z <= 8 * 1024 * 1024)%Z -> parses (number U32) (put_varint z) z).
  { intros z Hz. apply number_parses; unfold is_u64, U32, U64; lia. }
  eapply (rbind_parses (read_option (has flags OWN_ID) rstr) _ _ _ (if derived then None else Some (c_id c))).
  { rewrite F2. destruct derived; cbn [negb read_option]; [apply rret_parses|]. eapply rbind_parses_end; [|apply rret_parses].
    apply rstr_parses; [apply id_allowed_small in Hida; unfold U16, USIZE in *; lia|done]. }
  apply parses_guard; [by destruct derived|]. eapply rbind_parses; [apply Hnum; lia|]. eapply rbind_parses; [apply Hnum; lia|].
  apply parses_guard; [apply andb_true_iff; split; [apply Z.ltb_lt|apply Z.leb_le]; unfold MAX_DOCUMENT_BYTES; lia|].
  assert (Hrest : forall e, parses (if match text with None => true | Some t => (Z.of_nat (length t) =? c_end_byte c - c_start_byte c)%Z end
     then rret (mkRecordChunk (if derived then None else Some (c_id c)) (has flags STEMMED) (c_start_byte c) (c_end_byte c) text, tt) else rfail e) []
     (chunk_record_of derived text c, tt)).
  { intros e. apply parses_guard; [destruct text; [apply Z.eqb_eq; by destruct Hu|done]|]. rewrite F3. apply rret_parses. }
  destruct text as [t|].
  - eapply rbind_parses; [apply rbyte_parses|]. change (TEXT_INLINE =? TEXT_NONE)%Z with false. change (TEXT_INLINE =? TEXT_INLINE)%Z with true. cbv iota.
    eapply (rbind_parses_end _ _ _ (Some t)); [|apply Hrest]. eapply rbind_parses_end; [|apply rret_parses]. destruct Hu as [Hu Hlen].
    apply rstr_parses; [unfold USIZE; lia|done].
  - eapply rbind_parses_end; [apply rbyte_parses|]. change (TEXT_NONE =? TEXT_NONE)%Z with true. cbv iota.
    apply (rbind_parses_end (rret None) _ [] None); [apply rret_parses|exact (Hrest "checkpoint chunk text length")].
Qed.

(** The records of the chunks from index [i] on. *)
Fixpoint chunk_records_of (d : list Z) (i : nat) (cs : list (StoredChunk * option (list Z))) : list RecordChunk :=
  match cs with [] => [] | x :: cs => chunk_record_of (default_id d i x.1) x.2 x.1 :: chunk_records_of d (S i) cs end.

Lemma chunk_records_length d i cs : length (chunk_records_of d i cs) = length cs.
Proof. revert i. induction cs as [|x cs IH]; intros i; [done|]. cbn. by rewrite IH. Qed.

Lemma chunk_records_lookup (d : list Z) i cs j :
  chunk_records_of d i cs !! j = (fun x => chunk_record_of (default_id d (i + j) x.1) x.2 x.1) <$> cs !! j.
Proof.
  revert i j. induction cs as [|x cs IH]; intros i [|j]; cbn; [done|done|by rewrite Nat.add_0_r|]. rewrite IH. by replace (S i + j) with (i + S j) by lia.
Qed.

Lemma encode_chunks_parses d i cs :
  (Z.of_nat (length d) < U64)%Z -> (Z.of_nat (i + length cs) < U64)%Z -> Forall (fun x => chunk_recordable x.1 x.2) cs ->
  exists bytes, encode_chunks crc32 cipher segment d i (map fst cs) = Ok bytes /\ 4 * length cs <= length bytes /\
    parses (rrepeat (length cs) record_chunk tt) bytes (chunk_records_of d i cs).
Proof.
  intros Hd. revert i. induction cs as [|[c text] cs IH]; intros i Hi Hf; [exists []; split_and!; [done|done|apply rret_parses]|].
  apply Forall_cons in Hf as [Hc Hf]. cbn [map encode_chunks fst length] in *. destruct (encode_chunk_parses d i c text Hd ltac:(lia) Hc) as (a & -> & Ha & Pa).
  destruct (IH (S i) ltac:(lia) Hf) as (b & -> & Hb & Pb). cbn [obind]. exists (a ++ b). split_and!; [done|rewrite length_app; lia|].
  cbn [rrepeat chunk_records_of]. eapply rbind_parses; [exact Pa|]. cbv iota beta. eapply rbind_parses_end; [exact Pb|apply rret_parses].
Qed.

(** A document within the bounds of ingest, with the texts of its chunks. *)
Record doc_recordable (d : StoredDocument V) (texts : list (option (list Z))) : Prop := {
  dr_id : (Z.of_nat (length (doc_id d)) < U64)%Z;
  dr_version : utf8_valid (doc_version d) = true /\ 1 <= length (doc_version d) <= 1024;
  dr_source : match doc_source_uri d with Some uri => utf8_valid uri = true /\ (Z.of_nat (length uri) <= 8192)%Z | None => True end;
  dr_metadata : exists bytes, to_vec (doc_metadata d) = Ok bytes /\ (Z.of_nat (length bytes) <= 64 * 1024)%Z /\
    from_slice bytes = Ok (doc_metadata d) /\ is_object (doc_metadata d) = true;
  dr_texts : length texts = length (doc_chunks d);
  dr_chunks : Forall (fun x => chunk_recordable x.1 x.2) (zip (doc_chunks d) texts);
  dr_count : (1 <= Z.of_nat (length (doc_chunks d)) <= 4096)%Z }.

Definition record_of (d : StoredDocument V) (texts : list (option (list Z))) : ImageRecord :=
  {| re_version := doc_version d; re_source := doc_source_uri d; re_metadata := doc_metadata d;
     re_chunks := chunk_records_of (doc_id d) 0 (zip (doc_chunks d) texts) |}.

Lemma encode_document_reads d texts :
  doc_recordable d texts ->
  exists bytes, encode_document to_vec crc32 cipher segment d = Ok bytes /\
    read_record from_slice is_object (reader_new bytes) = Ok (record_of d texts, mid bytes []).
Proof.
  intros [Hid [Hvu Hv] Hsrc (mb & Hm & Hml & Hmf & Hmo) Htl Hcs Hn]. unfold encode_document. rewrite Hm. cbn [obind].
  assert (Hfst : map fst (zip (doc_chunks d) texts) = doc_chunks d) by (apply fst_zip; lia).
  assert (Hzl : length (zip (doc_chunks d) texts) = length (doc_chunks d)) by (rewrite length_zip_with; lia).
  destruct (encode_chunks_parses (doc_id d) 0 (zip (doc_chunks d) texts) Hid ltac:(rewrite Hzl; unfold U64; lia) Hcs) as (cb & Hcb & Hcl & Hcp).
  rewrite Hfst in Hcb. rewrite Hcb. cbn [obind]. eexists. split; [done|].
  assert (Psrc : parses record_source (put_source (doc_source_uri d)) (doc_source_uri d)).
  { unfold record_source, put_source. destruct (doc_source_uri d) as [uri|].
    - eapply rbind_parses; [apply rbyte_parses|]. cbv iota. change (1 =? 0)%Z with false. change (1 =? 1)%Z with true. cbv iota.
      eapply rbind_parses_end; [|apply rret_parses]. destruct Hsrc. apply rstr_parses; [unfold USIZE; lia|done].
    - eapply rbind_parses_end; [apply rbyte_parses|apply rret_parses]. }
  rewrite reader_new_mid. unfold read_record.
  unfold rbind at 1. rewrite rstr_parses by (done || (unfold USIZE; lia)). cbn [obind].
  rewrite (proj2 (Nat.leb_le 1 _)), (proj2 (Nat.leb_le _ 1024)) by lia. cbn [andb].
  unfold rbind at 1. rewrite Psrc. cbn [obind].
  assert (Hsl : match doc_source_uri d with Some uri => (Z.of_nat (length uri) <=? 8192)%Z | None => true end = true) by (destruct (doc_source_uri d); [apply Z.leb_le; lia|done]).
  rewrite Hsl. unfold rbind at 1. rewrite rbytes_parses by (unfold USIZE; lia). cbn [obind]. rewrite (proj2 (Z.leb_le _ (64 * 1024)%Z)) by lia.
  unfold rbind at 1. unfold rlift at 1. rewrite Hmf. cbn [obind]. rewrite Hmo. unfold rbind at 1.
  rewrite count_parses by (unfold USIZE; cbn [Nat.max]; lia). cbn [obind].
  rewrite (proj2 (Z.leb_le 1 _)), (proj2 (Z.leb_le _ 4096)) by lia. cbn [andb]. unfold rbind at 1. rewrite Hzl in Hcp. rewrite <- (app_nil_r cb) at 1. rewrite Hcp. cbn [obind].
  rewrite is_empty_mid. unfold record_of. by rewrite <- !app_assoc.
Qed.
End RecordCodec.
