(* ===== verification/ImageRoundtrip.v ===== *)
(** * Ranking from a checkpoint is ranking from the store that wrote it

    The document loop of [encode] ([src/core/documents/image.rs]) over a store, and the composition of
    all its sections: the checkpoint of a store opens and reads as the store. *)

From S2P Require Import Prelude Words BitPack Search Positions Terms FrameDict TextSegment Binary Share TermDict Postings Cursor PostingEdit PostingRuns CheckpointLists Lists Indexing Bulk IndexRuns Filters SlotTable Store Capacity StoreSpec Journal Hostile ImageDict Image ImageOpen ImageWrite ImageEncode ImageLayout ImageStore.

Section Owners.

Lemma place_owners_ok (owners : list (Z * Z)) (ordinal : Z) (chunk : nat) (slots : list Z) :
  NoDup slots -> Forall (fun s => (0 <= s)%Z /\ Z.to_nat s < length owners) slots -> (Z.of_nat (chunk + length slots) < U32)%Z ->
  exists owners', place_owners owners ordinal chunk slots = Ok owners' /\ length owners' = length owners /\
    (forall i s, slots !! i = Some s -> owners' !! Z.to_nat s = Some (ordinal, Z.of_nat (chunk + i))) /\
    (forall n, (Z.of_nat n ∉ slots) -> owners' !! n = owners !! n).
Proof.
  revert owners chunk. induction slots as [|s slots IH]; intros owners chunk Hnd Hf Hc; [by exists owners|].
  apply NoDup_cons in Hnd as [Hs Hnd]. apply Forall_cons in Hf as [[Hs0 Hsl] Hf]. cbn [place_owners length] in *.
  rewrite (proj2 (Z.ltb_lt (Z.of_nat chunk) U32)) by lia. destruct (lookup_lt_is_Some_2 owners (Z.to_nat s) ltac:(lia)) as [x Hx]. rewrite Hx. cbn [expect obind].
  destruct (IH (<[Z.to_nat s := (ordinal, Z.of_nat chunk)]> owners) (S chunk) Hnd) as (owners' & Hp & Hl & H1 & H2).
  { by setoid_rewrite length_insert. }
  { lia. }
  rewrite length_insert in Hl. exists owners'. split_and!; [done|done| |].
  - intros [|i] s' Hi; cbn in Hi.
    + injection Hi as <-. rewrite H2 by (by rewrite Z2Nat.id). rewrite list_lookup_insert_eq by lia. by rewrite Nat.add_0_r.
    + rewrite (H1 i s' Hi). do 2 f_equal. lia.
  - intros n Hn. apply not_elem_of_cons in Hn as [Hne Hn]. rewrite H2 by done. apply list_lookup_insert_ne. lia.
Qed.
End Owners.

Lemma text_size_key (m : term_map) k v : m !! k = Some v -> (Z.of_nat (length k) <= text_size m)%Z.
Proof.
  intros Hk%elem_of_map_to_list. unfold text_size. induction (map_to_list m) as [|e l IH]; [by apply elem_of_nil in Hk|].
  rewrite text_len_cons. pose proof (text_len_nonneg l). apply elem_of_cons in Hk as [<-|Hk]; [cbn [fst]; lia|]. specialize (IH Hk). lia.
Qed.

Section Documents.
Context {V : Type} {json : Json V} `{!EqDecision (StoredDocument V)} {B : Type} {checkpoint : Checkpoint B}.
Context (to_vec : V -> outcome (list Z)) (from_slice : list Z -> outcome V) (is_object : V -> bool) (crc32 : list Z -> Z) (cipher : option Aead).
Abbreviation Doc := (StoredDocument V).
Abbreviation owner := (Doc * nat)%type.
Abbreviation Store := (DocumentStore V TermDictionary B).
Context (s : Store) (Hs : store_indexed s) (text : StoredChunk -> option (list Z)).

Abbreviation L := (documents_in_order s).
Abbreviation os := (st_owners (ds_table s)).

Lemma L_perm : L ≡ₚ map_to_list (ds_documents s).
Proof using. apply ordered_perm. Qed.

Lemma L_NoDup : NoDup (map fst L).
Proof using. apply ordered_NoDup. Qed.

Lemma L_sorted : bsorted (map fst L).
Proof using. apply ordered_sorted. Qed.

Lemma L_elem id d : (id, d) ∈ L <-> ds_documents s !! id = Some d.
Proof using. apply ordered_elem. Qed.

Lemma L_length : length L = size (ds_documents s).
Proof using. rewrite L_perm. apply length_map_to_list. Qed.

(** A document of the store, its id and its slots. *)
Lemma L_doc o id d : L !! o = Some (id, d) ->
  doc_id d = id /\ exists ss, ds_slots s !! id = Some ss /\ length ss = length (doc_chunks d) /\ NoDup ss /\
    Forall (fun x => (0 <= x)%Z /\ Z.to_nat x < length os) ss /\ forall i x, ss !! i = Some x <-> (0 <= x)%Z /\ os !! Z.to_nat x = Some (Some (d, i)).
Proof using Hs.
  intros Ho. apply list_elem_of_lookup_2, L_elem in Ho as Hd. destruct (dk_linked _ _ (si_dir _ Hs)) as [Lid Ldom Lslots Lown].
  pose proof (Lid _ _ Hd) as Hid. split; [done|].
  assert (Hss : is_Some (ds_slots s !! id)) by (apply elem_of_dom; rewrite Ldom; apply elem_of_dom; by eexists). destruct Hss as [ss Hss].
  destruct (Lslots id d ss Hd Hss) as [Hlen Hi]. exists ss. split_and!; [done|done| | |].
  - apply NoDup_alt. intros i j x Hix Hjx. destruct (Hi i x Hix) as [_ H1], (Hi j x Hjx) as [_ H2]. congruence.
  - apply Forall_lookup. intros i x Hx. destruct (Hi i x Hx) as [H0 H1]. split; [done|]. apply lookup_lt_Some in H1. done.
  - intros i x. split; [apply Hi|]. intros [H0 H1]. destruct (Lown _ _ _ H1) as (_ & ss' & Hss' & Hx). rewrite Hid, Hss in Hss'. injection Hss' as <-. rewrite Hx. f_equal. lia.
Qed.

(** The owners written once the first [k] documents are placed. *)
Definition placed (k : nat) (owners : list (Z * Z)) : Prop :=
  length owners = length os /\
  forall n, n < length os ->
    (exists o id d i, o < k /\ L !! o = Some (id, d) /\ os !! n = Some (Some (d, i)) /\ owners !! n = Some (Z.of_nat o, Z.of_nat i)) \/
    (owners !! n = Some (FREE, 0%Z) /\ forall o id d i, L !! o = Some (id, d) -> os !! n = Some (Some (d, i)) -> k <= o).

Lemma L_index o o' id id' d : L !! o = Some (id, d) -> L !! o' = Some (id', d) -> o = o'.
Proof using Hs.
  intros H1 H2. destruct (L_doc _ _ _ H1) as [E1 _], (L_doc _ _ _ H2) as [E2 _]. assert (id = id') as <- by congruence.
  eapply (NoDup_lookup (map fst L)); [apply L_NoDup|by rewrite list_lookup_fmap, H1|by rewrite list_lookup_fmap, H2].
Qed.

Lemma placed_step k owners id d ss :
  placed k owners -> L !! k = Some (id, d) -> ds_slots s !! id = Some ss -> (Z.of_nat (length (doc_chunks d)) < U32)%Z ->
  exists owners', place_owners owners (Z.of_nat k) 0 ss = Ok owners' /\ placed (S k) owners'.
Proof using Hs.
  intros [Hl Hp] Hk Hss Hc. destruct (L_doc _ _ _ Hk) as (Hid & ss' & Hss' & Hlen & Hnd & Hr & Hi). rewrite Hss in Hss'. injection Hss' as <-.
  destruct (place_owners_ok owners (Z.of_nat k) 0 ss Hnd) as (owners' & Hrun & Hl' & H1 & H2); [by rewrite Hl|lia|]. exists owners'. split; [done|].
  split; [lia|]. intros n Hn. destruct (decide (Z.of_nat n ∈ ss)) as [Hin|Hout].
  - apply list_elem_of_lookup in Hin as [i Hx]. apply Hi in Hx as Ho. destruct Ho as [_ Ho]. rewrite Nat2Z.id in Ho. left.
    exists k, id, d, i. split_and!; [lia|done|done|]. specialize (H1 i _ Hx). by rewrite Nat2Z.id in H1.
  - rewrite H2 by done. destruct (Hp n Hn) as [(o & id' & d' & i & Ho & Ho' & Hos & Hw)|[Hw Hno]].
    + left. exists o, id', d', i. split_and!; [lia|done|done|done].
    + right. split; [done|]. intros o id' d' i Ho Hos. specialize (Hno o id' d' i Ho Hos). destruct (decide (o = k)) as [->|]; [|lia].
      rewrite Hk in Ho. injection Ho as <- <-. exfalso. apply Hout. eapply list_elem_of_lookup_2. apply Hi. split; [lia|]. by rewrite Nat2Z.id.
Qed.

(** *** The document loop *)

(** The texts of a document's chunks, wherever [text] finds them. *)
Definition texts_of (d : Doc) : list (option (list Z)) := map text (doc_chunks d).
Definition record_bytes (d : Doc) : list Z := match encode_document to_vec crc32 cipher (ds_text s) d with Ok b => b | _ => [] end.
Definition ids : list (list Z) := map fst L.
Definition records : list (list Z) := map (fun x => record_bytes x.2) L.

Context (Hrec : forall id d, ds_documents s !! id = Some d -> doc_recordable to_vec from_slice is_object crc32 cipher (ds_text s) d (texts_of d)).
Context (Hcount : (Z.of_nat (size (ds_documents s)) < U32)%Z).

Lemma record_bytes_ok o id d : L !! o = Some (id, d) ->
  encode_document to_vec crc32 cipher (ds_text s) d = Ok (record_bytes d) /\
  read_record from_slice is_object (reader_new (record_bytes d)) = Ok (record_of d (texts_of d), mid (record_bytes d) []) /\
  (1 <= Z.of_nat (length (doc_chunks d)) <= 4096)%Z.
Proof using Hrec.
  intros Ho. apply list_elem_of_lookup_2, L_elem in Ho as Hd. pose proof (Hrec _ _ Hd) as Hr.
  destruct (encode_document_reads _ _ _ _ _ _ d (texts_of d) Hr) as (b & Hb & Hread). unfold record_bytes. rewrite Hb. split_and!; [done|done|..]; apply Hr.
Qed.

(** The tables after [k] documents. *)
Record tables_at (k : nat) (t : DocTables) : Prop := {
  ta_owners : placed k (dt_owners t);
  ta_ids : dt_ids t = concat (take k ids);
  ta_id_offsets : dt_id_offsets t ++ offset_of (dt_ids t) = offset_table (take k ids);
  ta_docs : dt_docs t = concat (take k records);
  ta_doc_offsets : dt_doc_offsets t ++ offset_of (dt_docs t) = offset_table (take k records) }.

Definition tables_large : Prop := (U32 <= Z.of_nat (length (concat ids)) \/ U32 <= Z.of_nat (length (concat records)))%Z.

Lemma encode_documents_ok k t docs :
  docs = drop k L -> k <= length L -> tables_at k t ->
  exists r, encode_documents to_vec crc32 cipher s k docs t = Ok r /\
    match r with None => tables_large | Some t' => tables_at (length L) t' end.
Proof using Hs Hrec Hcount.
  revert k t. induction docs as [|[id d] docs IH]; intros k t Hd Hk Ht.
  { exists (Some t). split; [done|]. replace (length L) with k; [done|]. symmetry in Hd. apply (f_equal length) in Hd. rewrite length_drop in Hd. cbn in Hd. lia. }
  assert (Hlk : L !! k = Some (id, d)) by (rewrite <- (Nat.add_0_r k), <- lookup_drop, <- Hd; done).
  assert (Hkl : k < length L) by (by eapply lookup_lt_Some). pose proof L_length as HL.
  destruct (L_doc _ _ _ Hlk) as (Hid & ss & Hss & Hlen & _). destruct (record_bytes_ok _ _ _ Hlk) as (Hb & _ & Hc).
  cbn [encode_documents]. rewrite (proj2 (Z.ltb_lt (Z.of_nat k) U32)) by lia. rewrite Hss. cbn [ok_or obind]. rewrite Hlen, Nat.eqb_refl.
  destruct (placed_step k _ id d ss (ta_owners _ _ Ht) Hlk Hss) as (owners' & -> & Hp); [unfold U32; lia|]. cbn [obind].
  assert (Hidk : ids !! k = Some id) by (unfold ids; by rewrite list_lookup_fmap, Hlk).
  assert (Hrk : records !! k = Some (record_bytes d)) by (unfold records; by rewrite list_lookup_fmap, Hlk).
  destruct (negb _) eqn:E.
  - eexists. split; [done|]. cbn beta iota. apply negb_true_iff, andb_false_iff in E. unfold fits_u32 in E. rewrite (ta_ids _ _ Ht), (ta_docs _ _ Ht) in E.
    pose proof (concat_take_le ids k). pose proof (concat_take_le records k). unfold tables_large. destruct E as [E|E]; bool_to_prop; [left|right]; lia.
  - rewrite Hb. cbn [obind]. apply IH; [rewrite (drop_S _ _ _ Hlk) in Hd; by injection Hd|lia|]. destruct Ht as [_ T1 T2 T3 T4]. split; cbn [dt_owners dt_ids dt_id_offsets dt_docs dt_doc_offsets].
    + done.
    + rewrite (take_S_r _ _ _ Hidk), concat_app, T1. cbn. by rewrite app_nil_r.
    + rewrite (take_S_r _ _ _ Hidk), offset_table_snoc, <- T2, T1. done.
    + rewrite (take_S_r _ _ _ Hrk), concat_app, T3. cbn. by rewrite app_nil_r.
    + rewrite (take_S_r _ _ _ Hrk), offset_table_snoc, <- T4, T3. done.
Qed.

Lemma tables_start : tables_at 0 {| dt_owners := replicate (Z.to_nat (st_slot_count (ds_table s))) (FREE, 0%Z); dt_ids := []; dt_id_offsets := []; dt_docs := []; dt_doc_offsets := [] |}.
Proof using Hs.
  pose proof (dk_table _ _ (si_dir _ Hs)) as Ht. split; try done. cbn [dt_owners]. rewrite (tk_count _ Ht), Nat2Z.id. split; [apply length_replicate|].
  intros n Hn. right. split; [by apply lookup_replicate_2|]. intros; lia.
Qed.

(** *** The forms *)

Context (Hutf8 : forall id d c t fr, ds_documents s !! id = Some d -> c ∈ doc_chunks d -> (t, fr) ∈ entries_of c -> utf8_valid t = true).

Abbreviation R := (owned os).

Lemma owned_entry k c e : R !! k = Some (c, e) -> (0 <= k < U32)%Z /\ e = entries_of c /\ exists id d, ds_documents s !! id = Some d /\ c ∈ doc_chunks d.
Proof using Hs.
  intros H. rewrite lookup_owned in H. apply fmap_Some in H as (c0 & Hc & [= -> ->]). apply slot_chunk_Some in Hc as (Hpos & [d i] & Ho & Hc).
  destruct (dk_linked _ _ (si_dir _ Hs)) as [_ _ _ Lown]. pose proof (dk_table _ _ (si_dir _ Hs)) as Ht. destruct (Lown _ _ _ Ho) as [Hd _].
  pose proof (lookup_lt_Some _ _ _ Ho). pose proof (tk_count _ Ht). pose proof (tk_room _ Ht). split_and!; [lia|lia|done|]. exists (doc_id d), d. split; [done|].
  unfold owner_chunk in Hc. by eapply list_elem_of_lookup_2.
Qed.

Lemma store_form_ok f : form_ok (fun _ => lengths_of R) (form (ds_postings s) f) (index_of (views R) f).
Proof using Hs Hutf8.
  destruct (si_postings _ Hs) as [Hch Hsm Hle Hix]. assert (Htext : (index_text (index_of (views R) f) < U32)%Z) by (destruct Hsm as (S0 & S1 & _), f; [apply S1|apply S0]).
  assert (Hlook : forall t sm k, index_of (views R) f !! t = Some sm -> is_Some (sm !! k) -> (0 <= k < U32)%Z /\ utf8_valid t = true).
  { intros t sm k Ht [v Hv]. rewrite <- (at_term_Some _ _ _ Ht) in Hv. rewrite index_of_lookup in Hv. unfold look, views in Hv. rewrite lookup_fmap in Hv.
    destruct (R !! k) as [[c e]|] eqn:E; [|done]. destruct (owned_entry _ _ _ E) as (Hk & -> & id & d & Hd & Hc). split; [done|]. cbn in Hv.
    destruct (eqb _ _); [|done]. destruct (Hch _ _ E) as [Hct _]. cbn [fst snd] in Hct. destruct v as [fr o].
    apply (column_Some _ _ t _ Hct) in Hv as (j & Hj & _). cbn [fst] in Hj. eapply (Hutf8 id d c t fr); [done|done|]. by eapply list_elem_of_lookup_2. }
  split.
  - apply Hix.
  - done.
  - intros t [sm Ht]. split.
    + destruct (map_choose sm) as (k & v & Hk); [by apply (index_of_no_empty _ _ _ _ Ht)|]. by eapply (Hlook t sm k); [|eexists].
    + eapply Z.le_lt_trans; [|exact Htext]. unfold index_text. apply (text_size_key _ t 0%Z). by rewrite lookup_fmap, Ht.
  - intros t sm k Ht Hk. destruct (Hlook t sm k Ht Hk). unfold U32 in *. lia.
Qed.
End Documents.
