(* ===== verification/ImageServes.v ===== *)
(** * Serving from the checkpoint of a store

    The checkpoint [encode] of [src/core/documents/image.rs] writes for a store opens, and serves
    what the store serves. *)

From S2P Require Import Prelude Words BitPack Search Positions Terms FrameDict TextSegment Binary Share TermDict Postings Cursor PostingEdit PostingRuns CheckpointLists Lists Indexing Bulk IndexRuns Filters SlotTable Store Overlay Capacity StoreSpec StoreEdits StoreRuns StoreHistory StoreText TextRecords TextSim TextEdits TextStrip TextHistory Journal Hostile ImageDict Image ImageOpen ImageWrite ImageEncode ImageLayout ImageStore ImageRoundtrip.

(** ** The header of a store *)

Lemma section_words_u64 at_ l : (0 <= at_)%Z -> (at_ + Z.of_nat (length (concat l)) < U64)%Z -> Forall is_u64 (section_words at_ l).
Proof.
  revert at_. induction l as [|x l IH]; intros at_ H0 H1; [done|]. cbn [concat section_words] in *. rewrite length_app in H1.
  constructor; [unfold is_u64; lia|]. constructor; [unfold is_u64; lia|]. apply IH; lia.
Qed.

Section Header.
Context {V : Type} `{!EqDecision (StoredDocument V)} {B : Type}.
Abbreviation Store := (DocumentStore V TermDictionary B).
Context (crc32 : list Z -> Z) (s : Store) (generation dimensions : Z) (terms0 terms1 : nat) (sections : list (list Z)).
Context (Hsections : length sections = SECTIONS).

Abbreviation words := (image_header_words generation dimensions s terms0 terms1 sections).
Abbreviation file := (image_file crc32 words sections).

Definition counts : list Z :=
  [0; generation; dimensions; 0; 0; 0; 0; 0; st_slot_count (ds_table s); st_chunks (ds_table s); st_total_words (ds_table s);
   Z.of_nat (size (ds_documents s)); Z.of_nat terms0; Z.of_nat terms1]%Z.

Lemma header_length : length words = HEADER_WORDS.
Proof using Hsections. unfold image_header_words. rewrite !length_app, section_words_length, length_replicate, Hsections. done. Qed.

Lemma header_count i w : counts !! i = Some w -> words !! i = Some w.
Proof using. intros Hi. unfold image_header_words. fold counts. by apply lookup_app_l_Some. Qed.

Lemma header_section k w : section_words (Z.of_nat IMAGE_HEADER_LEN) sections !! k = Some w -> words !! (H_SECTIONS + k) = Some w.
Proof using.
  intros Hk. unfold image_header_words. fold counts. rewrite lookup_app_r by apply Nat.le_add_r. change (length counts) with H_SECTIONS. rewrite Nat.add_sub_swap, Nat.sub_diag by done.
  by apply lookup_app_l_Some.
Qed.

Context (Hu64 : Forall is_u64 counts) (Hlen : (Z.of_nat (length file) < U64)%Z).

Lemma header_u64 : Forall is_u64 words.
Proof using Hsections Hu64 Hlen.
  unfold image_header_words. fold counts. apply Forall_app_2; [done|]. apply Forall_app_2.
  - apply section_words_u64; [lia|]. rewrite (file_length crc32 words sections header_length) in Hlen. lia.
  - apply Forall_replicate. unfold is_u64, U64. lia.
Qed.

(** An image over the file. *)
Definition image_over (dictionaries : Dictionary * Dictionary) : ServingImage :=
  {| im_bytes := file; im_slots := st_slot_count (ds_table s); im_chunks := st_chunks (ds_table s); im_words := st_total_words (ds_table s);
     im_docs := Z.of_nat (size (ds_documents s)); im_dimensions := dimensions; im_dictionaries := dictionaries;
     im_sections := ranges IMAGE_HEADER_LEN sections |}.

Lemma section_over ds k x : sections !! section_index k = Some x -> section (image_over ds) k = Ok x.
Proof using Hsections. intros Hx. by apply (written_section crc32 words sections header_length). Qed.

Definition range_of (k : ImageSection) : nat * nat := default (0, 0) (ranges IMAGE_HEADER_LEN sections !! section_index k).

Lemma range_slice k x : sections !! section_index k = Some x -> slice file (range_of k).1 ((range_of k).1 + (range_of k).2) = Ok x.
Proof using Hsections.
  intros Hx. unfold range_of. rewrite (ranges_lookup _ _ _ _ Hx). cbn [default fst snd]. by apply (file_section crc32 words sections header_length).
Qed.

Definition dictionary_over (form : bool) : Dictionary :=
  {| di_dict := range_of (if form then Dict1 else Dict0); di_blocks := range_of (if form then Blocks1 else Blocks0);
     di_terms := if form then terms1 else terms0 |}.

Definition opened_over : ServingImage := image_over (dictionary_over false, dictionary_over true).

Lemma word_over i w : i <> 0 -> words !! i = Some w -> word file i = Ok w.
Proof using Hsections Hu64 Hlen. apply (file_word crc32 words sections header_length header_u64). Qed.

Lemma dictionary_written ds (form : bool) (dict blocks postings : list Z) :
  sections !! section_index (if form then Dict1 else Dict0) = Some dict -> sections !! section_index (if form then Blocks1 else Blocks0) = Some blocks ->
  sections !! section_index Postings_ = Some postings ->
  check_dictionary (if form then terms1 else terms0) dict blocks (Z.of_nat (length postings)) = Ok tt ->
  image_dictionary (image_over ds) form = Ok (dictionary_over form).
Proof using Hsections Hu64 Hlen.
  intros Hd Hb Hp Hc. unfold image_dictionary. cbn [im_bytes image_over].
  assert (Hw : word file (H_TERMS + (if form then 1 else 0)) = Ok (Z.of_nat (if form then terms1 else terms0))).
  { apply word_over; [by destruct form|]. apply header_count. by destruct form. }
  rewrite Hw.
  cbn [obind]. rewrite (section_over ds _ _ Hd), (section_over ds _ _ Hb), (section_over ds _ _ Hp). cbn [obind]. rewrite Nat2Z.id, Hc. cbn [obind].
  cbn [im_sections image_over]. unfold dictionary_over, range_of. by rewrite (ranges_lookup _ _ _ _ Hd), (ranges_lookup _ _ _ _ Hb).
Qed.

Lemma image_new_written :
  check_documents (image_over (no_dictionary, no_dictionary)) = Ok tt -> check_slots (image_over (no_dictionary, no_dictionary)) = Ok tt ->
  (forall form, image_dictionary (image_over (no_dictionary, no_dictionary)) form = Ok (dictionary_over form)) ->
  image_new file = Ok opened_over.
Proof using Hsections Hu64 Hlen.
  intros Hd Hs Hf. unfold image_new. pose proof (file_length crc32 words sections header_length) as Hl.
  rewrite (proj2 (Nat.leb_le _ _)) by lia. rewrite bool_decide_eq_true_2 by (apply file_magic, header_length). cbn [andb].
  rewrite <- Hsections. rewrite (read_sections_written file sections 0 IMAGE_HEADER_LEN).
  2: { intros k w Hk. apply word_over; [done|]. by apply header_section. }
  2: { lia. }
  2: { exact Hlen. }
  cbn [obind]. rewrite Hl, Z.eqb_refl.
  rewrite (word_over H_SLOTS (st_slot_count (ds_table s)) ltac:(done) (header_count H_SLOTS (st_slot_count (ds_table s)) eq_refl)). cbn [obind].
  rewrite (word_over H_CHUNKS (st_chunks (ds_table s)) ltac:(done) (header_count H_CHUNKS (st_chunks (ds_table s)) eq_refl)). cbn [obind].
  rewrite (word_over H_WORDS (st_total_words (ds_table s)) ltac:(done) (header_count H_WORDS (st_total_words (ds_table s)) eq_refl)). cbn [obind].
  rewrite (word_over H_DOCS (Z.of_nat (size (ds_documents s))) ltac:(done) (header_count H_DOCS (Z.of_nat (size (ds_documents s))) eq_refl)). cbn [obind].
  rewrite (word_over H_DIMENSIONS dimensions ltac:(done) (header_count H_DIMENSIONS dimensions eq_refl)). cbn [obind].
  fold (image_over (no_dictionary, no_dictionary)). rewrite Hd, Hs, !Hf. done.
Qed.
End Header.

(** ** What an image serves of a store *)

Section Serve.
Context {V : Type} {json : Json V} `{!EqDecision (StoredDocument V)} {B : Type} {checkpoint : Checkpoint B}.
Context (to_vec : V -> outcome (list Z)) (from_slice : list Z -> outcome V) (is_object : V -> bool) (crc32 : list Z -> Z) (cipher : option Aead).
Abbreviation Doc := (StoredDocument V).
Abbreviation Store := (DocumentStore V TermDictionary B).
Context (text : StoredChunk -> option (list Z)).

(** What a search result shows of a chunk. *)
Definition shown (c x : StoredChunk) : Prop :=
  c_id x = c_id c /\ c_start_byte x = c_start_byte c /\ c_end_byte x = c_end_byte c /\ c_stemmed x = c_stemmed c.

(** A chunk of a live document as a listing shows it; [revision] in decimal. *)
Definition chunk_shown (d : Doc) (index : nat) (revision : list Z) : option (DocumentChunkRecord (V := V)) :=
  (fun c => {| dc_revision := revision; dc_document := info d; dc_index := index; dc_id := c_id c; dc_start_byte := c_start_byte c;
               dc_end_byte := c_end_byte c; dc_text := text c |}) <$> doc_chunks d !! index.

(** The reads of an image agree with the store [s]. *)
Record serves (s : Store) (im : ServingImage) : Prop := {
  sv_slots : im_slots im = st_slot_count (ds_table s);
  sv_chunks : im_chunks im = st_chunks (ds_table s);
  sv_words : im_words im = st_total_words (ds_table s);
  sv_docs : im_docs im = Z.of_nat (size (ds_documents s));
  sv_ids : forall o id, ids s !! o = Some id -> image_id im o = Ok id;
  sv_document : forall id, exists r, ordinal im id = Ok r /\
    match r with
    | None => ds_documents s !! id = None
    | Some o => exists d, ds_documents s !! id = Some d /\ image_id im o = Ok id /\
        image_record from_slice is_object im o = Ok (record_of d (texts_of text d)) /\
        image_document_info from_slice is_object im o = Ok (info d) /\
        forall index revision shown, decimal revision = Ok shown ->
          image_document_chunk from_slice is_object im o index revision = Ok (chunk_shown d index shown)
    end;
  sv_free : forall n, st_owners (ds_table s) !! n = Some None ->
    exists w c, st_words (ds_table s) !! n = Some w /\ image_slot im n = Ok (w, FREE, c) /\ image_slot_owner im n = Ok None;
  sv_slot : forall n d i, st_owners (ds_table s) !! n = Some (Some (d, i)) ->
    exists o w, st_words (ds_table s) !! n = Some w /\ image_slot im n = Ok (w, Z.of_nat o, Z.of_nat i) /\
      image_slot_owner im n = Ok (Some o) /\ ids s !! o = Some (doc_id d) /\ image_slot_order im n = Ok (doc_id d, Z.of_nat i);
  sv_chunk : forall n d i c, st_owners (ds_table s) !! n = Some (Some (d, i)) -> doc_chunks d !! i = Some c ->
    exists d' x, image_chunk from_slice is_object im n = Ok (d', i) /\ doc_id d' = doc_id d /\ doc_source_uri d' = doc_source_uri d /\
      doc_version d' = doc_version d /\ doc_metadata d' = doc_metadata d /\ length (doc_chunks d') = length (doc_chunks d) /\
      doc_chunks d' !! i = Some x /\ shown c x /\ c_text x = text c /\ c_word_count x = c_word_count c;
  sv_list : forall (f : bool) t, match pls_get (form (ds_postings s) f) t with
    | Ok (Some l) => exists bytes, image_list im f t = Ok (Some (bytes, pl_count l)) /\ for_each bytes (pl_count l) = pl_for_each l
    | Ok None => image_list im f t = Ok None
    | _ => False
    end }.

Lemma result_chunks_written (d : list Z) (im : ServingImage) (index : nat) (words : Z) (cs : list (StoredChunk * option (list Z))) i :
  (Z.of_nat (length d) < U64)%Z -> (Z.of_nat (i + length cs) < U64)%Z ->
  exists out, result_chunks im d index words i (chunk_records_of d i cs) = Ok out /\ length out = length cs /\
    forall j c t, cs !! j = Some (c, t) -> exists x, out !! j = Some x /\ shown c x /\
      (i + j = index -> c_text x = t /\ c_word_count x = words).
Proof using.
  intros Hd. revert i. induction cs as [|[c t] cs IH]; intros i Hi; [by exists []|]. cbn [chunk_records_of result_chunks length fst snd] in *.
  destruct (IH (S i) ltac:(lia)) as (out & Hout & Hl & Hsh). destruct (default_id_ok d i c Hd ltac:(lia)) as [_ Hdef].
  set (mine := Nat.eqb i index).
  assert (Hid : match rc_id (chunk_record_of (default_id d i c) t c) with Some id => Ok id | None => chunk_id d (Z.of_nat i) end = Ok (c_id c)).
  { cbn [rc_id chunk_record_of]. destruct (default_id d i c); [by apply Hdef|done]. }
  unfold stored_chunk. rewrite Hid. cbn [obind]. rewrite Hout. cbn [obind]. eexists. split; [done|]. split; [cbn; lia|].
  intros [|j] c' t' Hj; cbn in Hj.
  - injection Hj as <- <-. eexists. split; [done|]. split; [done|]. intros E. rewrite Nat.add_0_r in E. cbn [c_text c_word_count rc_text chunk_record_of].
    unfold mine. by rewrite (proj2 (Nat.eqb_eq _ _) E).
  - destruct (Hsh j c' t' Hj) as (x & Hx & Hs & He). exists x. split_and!; [done|apply Hs..|]. intros E. apply He. lia.
Qed.

(** *** Slots *)

Section Slots.
Context (s : Store) (Hs : store_indexed s) (Hcount : (Z.of_nat (size (ds_documents s)) < U32)%Z).
Context (owners : list (Z * Z)) (Hp : placed s (length (documents_in_order s)) owners).
Abbreviation L := (documents_in_order s).
Abbreviation os := (st_owners (ds_table s)).

Lemma placed_free n : os !! n = Some None -> owners !! n = Some (FREE, 0%Z).
Proof using Hp.
  intros Hn. pose proof (lookup_lt_Some _ _ _ Hn) as Hlt. destruct Hp as [_ H]. destruct (H n Hlt) as [(o & id & d & i & _ & _ & Ho & _)|[Hf _]]; [congruence|done].
Qed.

Lemma owner_in_order n d i : os !! n = Some (Some (d, i)) -> exists o, L !! o = Some (doc_id d, d).
Proof using Hs.
  intros Hn. destruct (dk_linked _ _ (si_dir _ Hs)) as [_ _ _ Lown]. destruct (Lown _ _ _ Hn) as [Hd _].
  apply list_elem_of_lookup. by apply L_elem.
Qed.

Lemma placed_owned n d i : os !! n = Some (Some (d, i)) ->
  exists o, L !! o = Some (doc_id d, d) /\ owners !! n = Some (Z.of_nat o, Z.of_nat i).
Proof using Hp Hs.
  intros Hn. pose proof (lookup_lt_Some _ _ _ Hn) as Hlt. destruct Hp as [_ H]. destruct (H n Hlt) as [(o & id & d' & i' & _ & Ho & Hos & Hw)|[_ Hno]].
  - rewrite Hn in Hos. injection Hos as <- <-. exists o. destruct (L_doc s Hs _ _ _ Ho) as [-> _]. done.
  - exfalso. destruct (owner_in_order n d i Hn) as [o Ho]. pose proof (Hno o _ d i Ho Hn). apply lookup_lt_Some in Ho. lia.
Qed.

Lemma ordinal_small o id d : L !! o = Some (id, d) -> (Z.of_nat o < Z.of_nat (size (ds_documents s)))%Z /\ Z.of_nat o <> FREE.
Proof using Hcount. intros Ho. apply lookup_lt_Some in Ho. rewrite L_length in Ho. unfold FREE. lia. Qed.

Lemma placed_range : Forall (fun x => x.1 = FREE \/ (x.1 < Z.of_nat (size (ds_documents s)))%Z) owners.
Proof using Hp Hs Hcount.
  apply Forall_lookup. intros n x Hx. pose proof (lookup_lt_Some _ _ _ Hx) as Hlt. destruct Hp as [Hl _]. rewrite Hl in Hlt.
  destruct (lookup_lt_is_Some_2 os n Hlt) as [[[d i]|] Hn].
  - right. destruct (placed_owned _ _ _ Hn) as (o & Ho & Hw). rewrite Hx in Hw. injection Hw as ->. by destruct (ordinal_small o (doc_id d) d Ho).
  - left. pose proof (placed_free _ Hn) as Hw. rewrite Hx in Hw. by injection Hw as ->.
Qed.

Lemma used_total (l : list (option (Doc * nat))) ws :
  Forall2 (fun o x => weight one o = if (x.1 =? FREE)%Z then 0 else 1)%Z l ws -> used_slots ws = total one l.
Proof using. unfold used_slots, total. induction 1 as [|o x l ws H1 H2 IH]; cbn [foldr]; [done|]. by rewrite H1, IH. Qed.

Lemma placed_used : used_slots owners = st_chunks (ds_table s).
Proof using Hp Hs Hcount.
  pose proof (dk_table _ _ (si_dir _ Hs)) as Ht. rewrite (tk_chunks _ Ht). apply used_total. destruct Hp as [Hl _].
  apply Forall2_same_length_lookup. split; [done|]. intros n o x Hn Hx. destruct o as [[d i]|].
  - destruct (placed_owned _ _ _ Hn) as (o & Ho & Hw). rewrite Hx in Hw. injection Hw as ->. cbn [fst].
    destruct (ordinal_small o (doc_id d) d Ho) as [_ Hne]. apply Z.eqb_neq in Hne as ->.
    pose proof (tk_owners _ Ht) as Hown. rewrite Forall_lookup in Hown. destruct (Hown _ _ Hn _ eq_refl) as (c & Hc & _). unfold weight. change (Some (d, i) ≫= owner_chunk) with (owner_chunk (d, i)). by rewrite Hc.
  - pose proof (placed_free _ Hn) as Hw. rewrite Hx in Hw. by injection Hw as ->.
Qed.
End Slots.

Lemma total_words_small (os : list (option (Doc * nat))) :
  Forall (fun o => forall x, o = Some x -> exists c, owner_chunk x = Some c /\ chunk_fits c) os ->
  (0 <= total c_word_count os <= Z.of_nat (length os) * U32_MAX)%Z.
Proof using.
  unfold total. induction 1 as [|o os Ho Hos IH]; cbn [foldr length]; [lia|].
  assert (0 <= weight c_word_count o <= U32_MAX)%Z; [|lia]. destruct o as [x|]; [|done]. destruct (Ho x eq_refl) as (c & Hc & _ & Hw).
  unfold weight. change (Some x ≫= owner_chunk) with (owner_chunk x). rewrite Hc. lia.
Qed.
End Serve.

Lemma total_one_le {V} (os : list (option (StoredDocument V * nat))) : (total one os <= Z.of_nat (length os))%Z.
Proof.
  unfold total. induction os as [|o os IH]; cbn [foldr length]; [lia|]. assert (weight one o <= 1)%Z; [|lia]. unfold weight, one. by destruct (o ≫= owner_chunk).
Qed.

(** ** Opening what was written *)

Section Open.
Context {V : Type} {json : Json V} `{!EqDecision (StoredDocument V)} {B : Type} {checkpoint : Checkpoint B}.
Context (to_vec : V -> outcome (list Z)) (from_slice : list Z -> outcome V) (is_object : V -> bool) (crc32 : list Z -> Z) (cipher : option Aead).
Abbreviation Doc := (StoredDocument V).
Abbreviation Store := (DocumentStore V TermDictionary B).
Context (s : Store) (Hs : store_indexed s) (text : StoredChunk -> option (list Z)) (generation dimensions : Z).
Abbreviation L := (documents_in_order s).
Abbreviation table := (ds_table s).
Abbreviation os := (st_owners table).

Lemma table_word n w : st_words table !! n = Some w -> is_u32 w.
Proof using Hs.
  intros Hw. pose proof (tk_small _ (dk_table _ _ (si_dir _ Hs)) (Z.of_nat n)) as H. unfold words_at in H. rewrite Nat2Z.id, Hw in H. cbn in H. unfold is_u32, U32_MAX in *. lia.
Qed.

(** A store within the bounds of ingest: its texts and ids can be read back. *)
Record store_recordable : Prop := {
  sr_documents : forall id d, ds_documents s !! id = Some d -> doc_recordable to_vec from_slice is_object crc32 cipher (ds_text s) d (texts_of text d);
  sr_ids : forall id d, ds_documents s !! id = Some d -> utf8_valid id = true /\ id_allowed id = true;
  sr_terms : forall id d c t fr, ds_documents s !! id = Some d -> c ∈ doc_chunks d -> (t, fr) ∈ entries_of c -> utf8_valid t = true;
  sr_count : (Z.of_nat (size (ds_documents s)) < U32)%Z }.

Context (Hr : store_recordable).
Context (zero one : Written) (t : DocTables) (Ht : tables_at to_vec crc32 cipher s (length L) t).
Abbreviation sections := [wr_dict zero; wr_blocks zero; wr_dict one; wr_blocks one; wr_postings one; slot_table (st_words table) (dt_owners t);
  offset_table (ids s); concat (ids s); offset_table (records to_vec crc32 cipher s); concat (records to_vec crc32 cipher s)].
Abbreviation over := (image_over crc32 s generation dimensions (wr_count zero) (wr_count one) sections).
Context (Hids : (Z.of_nat (length (concat (ids s))) < U32)%Z) (Hdocs : (Z.of_nat (length (concat (records to_vec crc32 cipher s))) < U32)%Z).

Lemma sec ds k x : sections !! section_index k = Some x -> section (over ds) k = Ok x.
Proof using. apply section_over. done. Qed.

Lemma ids_lookup o id : ids s !! o = Some id <-> exists d, L !! o = Some (id, d).
Proof using.
  unfold ids. rewrite list_lookup_fmap. destruct (L !! o) as [[id' d]|]; cbn; split.
  - intros [= <-]. by exists d.
  - intros (d' & [= <- <-]). done.
  - done.
  - by intros (d & ?).
Qed.

Lemma ids_ok o id : ids s !! o = Some id -> utf8_valid id = true /\ id_allowed id = true.
Proof using Hr. intros [d Hd]%ids_lookup. apply list_elem_of_lookup_2, L_elem in Hd. by eapply (sr_ids Hr). Qed.

Lemma ids_length : length (ids s) = size (ds_documents s).
Proof using. unfold ids. by rewrite length_map, L_length. Qed.

Lemma records_length : length (records to_vec crc32 cipher s) = size (ds_documents s).
Proof using. unfold records. by rewrite length_map, L_length. Qed.

Lemma ids_nonempty : Forall (fun x => utf8_valid x = true /\ x <> []) (ids s).
Proof using Hr.
  apply Forall_lookup. intros i x Hx. destruct (ids_ok i x Hx) as [Hu Ha]. split; [done|]. intros ->. done.
Qed.

Lemma documents_pass ds : check_documents (over ds) = Ok tt.
Proof using Hr Hids Hdocs.
  pose proof (sr_count Hr) as Hc. unfold check_documents.
  rewrite (check_table_written (over ds) (ids s) IdOffsets Ids);
    [|by apply sec|by apply sec|by rewrite ids_length|done|by rewrite ids_length]. cbn [obind].
  rewrite (check_table_written (over ds) (records to_vec crc32 cipher s) DocOffsets Docs);
    [|by apply sec|by apply sec|by rewrite records_length|done|by rewrite records_length]. cbn [obind].
  rewrite (sec ds Ids _ eq_refl). cbn [obind].
  rewrite utf8_valid_concat by (eapply Forall_impl; [exact ids_nonempty|]; by intros ? []). cbn [im_docs image_over]. rewrite Nat2Z.id.
  apply (check_ids_written (over ds) (ids s)); [by apply sec|done|exact ids_nonempty|apply L_sorted| |by rewrite ids_length|done].
  apply Forall_lookup. intros i x Hx. by destruct (ids_ok i x Hx).
Qed.

Lemma slot_entry n x : os !! n = Some x ->
  exists w o c, st_words table !! n = Some w /\ dt_owners t !! n = Some (o, c) /\ is_u32 w /\ is_u32 o /\ is_u32 c /\
    match x with
    | None => o = FREE
    | Some (d, i) => exists k, L !! k = Some (doc_id d, d) /\ o = Z.of_nat k /\ o <> FREE /\ c = Z.of_nat i
    end.
Proof using Hs Hr Ht.
  intros Hn. pose proof (dk_table _ _ (si_dir _ Hs)) as Htab. pose proof (lookup_lt_Some _ _ _ Hn) as Hlt. rewrite <- (tk_words _ Htab) in Hlt.
  destruct (lookup_lt_is_Some_2 _ _ Hlt) as [w Hw]. exists w. pose proof (table_word _ _ Hw) as Hwu.
  pose proof (ta_owners _ _ _ _ _ _ Ht) as Hp. pose proof (sr_count Hr) as Hc. destruct x as [[d i]|].
  - destruct (placed_owned s Hs _ Hp _ _ _ Hn) as (k & Hk & Ho). destruct (ordinal_small s Hc _ _ _ Hk) as [Hk1 Hk2].
    destruct (record_bytes_ok _ _ _ _ _ _ _ (sr_documents Hr) _ _ _ Hk) as (_ & _ & Hcs).
    assert (i < length (doc_chunks d)) by (pose proof (tk_owners _ Htab) as Hf; rewrite Forall_lookup in Hf; destruct (Hf _ _ Hn _ eq_refl) as (c & Hci & _); by apply lookup_lt_Some in Hci).
    eexists _, _. split_and!; [done|exact Ho|done|unfold is_u32, U32 in *; lia..|]. by exists k.
  - eexists _, _. split_and!; [done|by apply (placed_free s _ Hp)|done..].
Qed.

Lemma slots_pass ds : check_slots (over ds) = Ok tt.
Proof using Hs Hr Ht.
  pose proof (dk_table _ _ (si_dir _ Hs)) as Htab. pose proof (ta_owners _ _ _ _ _ _ Ht) as Hp. unfold check_slots. rewrite (sec ds Slots _ eq_refl). cbn [obind].
  assert (Hl : length (dt_owners t) = length os) by apply Hp. assert (Hwl : length (st_words table) = length (dt_owners t)) by (rewrite Hl; apply Htab).
  cbn [im_slots im_docs im_chunks image_over]. rewrite slot_table_length by done. rewrite (tk_count _ Htab). pose proof (tk_room _ Htab) as Hroom. rewrite (tk_count _ Htab) in Hroom.
  unfold checked_mul, SLOT_BYTES, USIZE, U32 in *. rewrite (proj2 (Z.ltb_lt _ _)) by lia. rewrite Hl, (proj2 (Z.eqb_eq _ _)) by lia. rewrite Nat2Z.id, <- Hl.
  rewrite (count_used_written _ _ (dt_owners t)); [|..|lia].
  - cbn [obind]. change (drop 0 (dt_owners t)) with (dt_owners t). rewrite Z.add_0_l, (placed_used s Hs (sr_count Hr) _ Hp), Z.eqb_refl.
    pose proof (total_one_le os). rewrite (tk_chunks _ Htab), (proj2 (Z.leb_le _ _)) by lia. done.
  - intros n o c Ho. pose proof (lookup_lt_Some _ _ _ Ho) as Hlt. rewrite Hl in Hlt. destruct (lookup_lt_is_Some_2 os n Hlt) as [x Hx].
    destruct (slot_entry n x Hx) as (w & o' & c' & Hw & Ho' & U1 & U2 & U3 & _). rewrite Ho in Ho'. injection Ho' as <- <-. by eapply slot_fields.
  - exact (placed_range s Hs (sr_count Hr) _ Hp).
Qed.

(** What a form's dictionary answers over the posting section. *)
Definition form_served (w : Written) (f : bool) : Prop :=
  check_dictionary (wr_count w) (wr_dict w) (wr_blocks w) (Z.of_nat (length (wr_postings one))) = Ok tt /\
  forall term, match pls_get (form (ds_postings s) f) term with
    | Ok (Some l) => exists bytes, image_postings (wr_count w) (wr_dict w) (wr_blocks w) (wr_postings one) term = Ok (Some (bytes, pl_count l)) /\
        for_each bytes (pl_count l) = pl_for_each l
    | Ok None => image_postings (wr_count w) (wr_dict w) (wr_blocks w) (wr_postings one) term = Ok None
    | _ => False
    end.

Abbreviation opened_image := (opened_over crc32 s generation dimensions (wr_count zero) (wr_count one) sections).

Lemma list_over f term :
  image_list opened_image f term =
    let w := if f then one else zero in image_postings (wr_count w) (wr_dict w) (wr_blocks w) (wr_postings one) term.
Proof using.
  unfold image_list. cbn [im_dictionaries opened_over image_over fst snd im_bytes].
  assert (Hd : (if f then dictionary_over (wr_count zero) (wr_count one) sections true else dictionary_over (wr_count zero) (wr_count one) sections false) =
    dictionary_over (wr_count zero) (wr_count one) sections f) by (by destruct f). rewrite Hd. cbn [di_terms di_dict di_blocks dictionary_over].
  rewrite (range_slice crc32 s generation dimensions _ _ sections eq_refl _ (wr_dict (if f then one else zero))) by (by destruct f).
  rewrite (range_slice crc32 s generation dimensions _ _ sections eq_refl _ (wr_blocks (if f then one else zero))) by (by destruct f).
  unfold opened_over. rewrite (sec _ Postings_ _ eq_refl). cbn [obind]. unfold image_postings. destruct f; cbn zeta; by destruct (_ =? 0).
Qed.

Lemma id_over ds o id : ids s !! o = Some id -> image_id (over ds) o = Ok id.
Proof using Hr Hids. intros Ho. eapply (image_id_written _ (ids s)); [by apply sec|by apply sec|done|done|]. by destruct (ids_ok o id Ho). Qed.

Lemma record_over ds o id d : L !! o = Some (id, d) -> image_record from_slice is_object (over ds) o = Ok (record_of d (texts_of text d)).
Proof using Hr Hdocs.
  intros Ho. destruct (record_bytes_ok _ _ _ _ _ _ _ (sr_documents Hr) _ _ _ Ho) as (_ & Hread & _). unfold image_record.
  assert (Hrec : records to_vec crc32 cipher s !! o = Some (record_bytes to_vec crc32 cipher s d)) by (unfold records; by rewrite list_lookup_fmap, Ho).
  rewrite (span_written (over ds) (records to_vec crc32 cipher s) DocOffsets (sec ds DocOffsets (offset_table (records to_vec crc32 cipher s)) eq_refl) Hdocs _ _ Hrec). cbn [obind].
  rewrite (sec ds Docs _ eq_refl). cbn [obind]. rewrite (slice_written _ _ _ Hrec). cbn [obind]. by rewrite Hread.
Qed.

Lemma slot_over ds n d i : os !! n = Some (Some (d, i)) ->
  exists k w, L !! k = Some (doc_id d, d) /\ st_words table !! n = Some w /\ image_slot (over ds) n = Ok (w, Z.of_nat k, Z.of_nat i) /\ (Z.of_nat k =? FREE)%Z = false.
Proof using Hs Hr Ht.
  intros Hn. destruct (slot_entry n _ Hn) as (w & o & c & Hw & Ho & U1 & U2 & U3 & k & Hk & -> & Hne & ->). exists k, w. split_and!; [done|done| |by apply Z.eqb_neq].
  by eapply slot_written; [apply sec|..].
Qed.

Lemma info_over ds o id d : L !! o = Some (id, d) -> image_document_info from_slice is_object (over ds) o = Ok (info d).
Proof using Hs Hr Hids Hdocs.
  intros Ho. destruct (L_doc s Hs _ _ _ Ho) as [Hid _]. unfold image_document_info, image_info. rewrite (record_over _ _ _ _ Ho). cbn [obind].
  rewrite (id_over _ _ id) by (apply ids_lookup; by exists d). cbn [obind]. unfold info, record_of. cbn [re_source re_version re_metadata re_chunks].
  rewrite chunk_records_length, length_zip_with. unfold texts_of. rewrite length_map, Nat.min_id, Hid. done.
Qed.

Lemma document_chunk_over ds o id d index revision shown : L !! o = Some (id, d) -> decimal revision = Ok shown ->
  image_document_chunk from_slice is_object (over ds) o index revision = Ok (chunk_shown text d index shown).
Proof using Hs Hr Hids Hdocs.
  intros Ho Hrev. destruct (L_doc s Hs _ _ _ Ho) as [Hid _]. pose proof (info_over ds _ _ _ Ho) as Hinfo. unfold image_document_info in Hinfo.
  unfold image_document_chunk, chunk_shown. rewrite (record_over _ _ _ _ Ho) in *. cbn [obind record_of re_chunks] in *.
  assert (Hz : zip (doc_chunks d) (texts_of text d) !! index = (fun c => (c, text c)) <$> doc_chunks d !! index).
  { unfold texts_of. rewrite lookup_zip_with, list_lookup_fmap. by destruct (doc_chunks d !! index). }
  rewrite chunk_records_lookup, Hz. destruct (doc_chunks d !! index) as [c|] eqn:Ec; cbn [fmap option_fmap option_map]; [|done]. cbn [chunk_record_of rc_text rc_id rc_start rc_end fst snd].
  assert (Hido : ids s !! o = Some id) by (apply ids_lookup; by exists d). pose proof (list_elem_of_lookup_2 _ _ _ Ho) as Hd. apply L_elem in Hd.
  destruct (sr_documents Hr _ _ Hd) as [_ _ _ _ _ Hcs Hn]. rewrite Forall_lookup in Hcs. destruct (Hcs index (c, text c)) as [_ Htx [Hsp He] _]; [by rewrite Hz|]. cbn [fst snd] in *.
  assert (Hfit : match text c with None => true | Some t => Z.of_nat (length t) <=? MAX_DOCUMENT_BYTES end%Z = true).
  { destruct (text c); [|done]. apply Z.leb_le. lia. }
  rewrite Hfit, Hrev, Hinfo. rewrite (id_over _ _ _ Hido). cbn [obind Nat.add].
  destruct (default_id_ok (doc_id d) index c) as [_ Hdef].
  { rewrite Hid. destruct (ids_ok _ _ Hido) as [_ Ha%id_allowed_small]. unfold U16, U64 in *. lia. }
  { apply lookup_lt_Some in Ec. unfold U64. lia. }
  destruct (default_id (doc_id d) index c); [|done]. rewrite <- Hid, (Hdef eq_refl). done.
Qed.

Lemma document_over id : exists r, ordinal opened_image id = Ok r /\
  match r with
  | None => ds_documents s !! id = None
  | Some o => exists d, ds_documents s !! id = Some d /\ image_id opened_image o = Ok id /\
      image_record from_slice is_object opened_image o = Ok (record_of d (texts_of text d)) /\
      image_document_info from_slice is_object opened_image o = Ok (info d) /\
      forall index revision shown, decimal revision = Ok shown ->
        image_document_chunk from_slice is_object opened_image o index revision = Ok (chunk_shown text d index shown)
  end.
Proof using Hs Hr Hids Hdocs.
  destruct (find_ordinal opened_image (ids s)) with (id := id) as (r & Hord & Hi); [by rewrite ids_length|apply L_sorted|apply id_over|].
  exists r. split; [done|]. destruct r as [o|].
  - pose proof (proj1 (Hi o) eq_refl) as Ho. pose proof Ho as [d Hd]%ids_lookup. exists d. split_and!; [|by apply id_over|by eapply record_over|by eapply info_over|intros; by eapply document_chunk_over].
    apply L_elem. by eapply list_elem_of_lookup_2.
  - destruct (ds_documents s !! id) as [d|] eqn:E; [|done]. apply L_elem, list_elem_of_lookup in E as [o Ho].
    assert (Hno : ids s !! o = Some id) by (apply ids_lookup; by exists d). by apply Hi in Hno.
Qed.

Lemma chunk_over n d i c : os !! n = Some (Some (d, i)) -> doc_chunks d !! i = Some c ->
  exists d' x, image_chunk from_slice is_object opened_image n = Ok (d', i) /\ doc_id d' = doc_id d /\ doc_source_uri d' = doc_source_uri d /\
    doc_version d' = doc_version d /\ doc_metadata d' = doc_metadata d /\ length (doc_chunks d') = length (doc_chunks d) /\
    doc_chunks d' !! i = Some x /\ shown c x /\ c_text x = text c /\ c_word_count x = c_word_count c.
Proof using Hs Hr Ht Hids Hdocs.
  intros Hn Hc. destruct (slot_over (dictionary_over (wr_count zero) (wr_count one) sections false, dictionary_over (wr_count zero) (wr_count one) sections true) n d i Hn) as (k & w & Hk & Hw & Hslot & Hfree).
  destruct (record_bytes_ok _ _ _ _ _ _ _ (sr_documents Hr) _ _ _ Hk) as (_ & _ & Hlen4).
  assert (Hid : ids s !! k = Some (doc_id d)) by (apply ids_lookup; by exists d). destruct (ids_ok _ _ Hid) as [_ Hall%id_allowed_small].
  set (cs := zip (doc_chunks d) (texts_of text d)). assert (Hcs : length cs = length (doc_chunks d)) by (unfold cs, texts_of; rewrite length_zip_with, length_map; lia).
  destruct (result_chunks_written (doc_id d) opened_image i w cs 0) as (out & Hout & Hol & Hsh); [unfold U16, U64 in *; lia|unfold U64; lia|].
  destruct (Hsh i c (text c)) as (x & Hx & Hxs & Hxt).
  { unfold cs, texts_of. rewrite lookup_zip_with, Hc. cbn. by rewrite list_lookup_fmap, Hc. }
  destruct (Hxt eq_refl) as [Hx1 Hx2]. unfold image_chunk, opened_over. rewrite Hslot. cbn [obind]. rewrite Hfree. cbn [negb]. rewrite Nat2Z.id, (id_over _ _ _ Hid). cbn [obind].
  rewrite (record_over _ _ _ _ Hk). cbn [obind record_of re_chunks]. rewrite chunk_records_length. fold cs. rewrite Hcs. pose proof (lookup_lt_Some _ _ _ Hc).
  rewrite (proj2 (Z.ltb_lt _ _)) by lia. rewrite Nat2Z.id. unfold opened_over in Hout. rewrite Hout. cbn [obind]. eexists _, x. split; [done|].
  cbn [doc_id doc_source_uri doc_version doc_metadata doc_chunks record_of re_source re_version re_metadata]. rewrite Hol. split_and!; try done; try apply Hxs.
  rewrite Hx2. pose proof (dk_table _ _ (si_dir _ Hs)) as Htab.
  pose proof (tk_lengths _ Htab (Z.of_nat n) c) as Hl. unfold words_at in Hl. rewrite Nat2Z.id, Hw in Hl. apply Hl.
  unfold slot_chunk. rewrite decide_True by lia. rewrite Nat2Z.id, Hn. exact Hc.
Qed.

Context (F0 : form_served zero false) (F1 : form_served one true).
Context (Hc0 : wr_count zero <= length (wr_dict zero)) (Hc1 : wr_count one <= length (wr_dict one)).
Context (Hgen : is_u64 generation) (Hdim : is_u64 dimensions).
Abbreviation file := (image_file crc32 (image_header_words generation dimensions s (wr_count zero) (wr_count one) sections) sections).
Context (Hlen : (Z.of_nat (length file) < U64)%Z).

Lemma counts_u64 : Forall is_u64 (counts s generation dimensions (wr_count zero) (wr_count one)).
Proof using Hs Hr Hgen Hdim Hlen Hc0 Hc1.
  pose proof (dk_table _ _ (si_dir _ Hs)) as Htab. pose proof (sr_count Hr) as Hn. pose proof (tk_room _ Htab) as Hroom.
  rewrite (file_length crc32 _ sections) in Hlen by (by apply header_length). cbn [concat] in Hlen. rewrite !length_app in Hlen.
  pose proof (total_words_small os (tk_owners _ Htab)) as Hw. pose proof (total_one_le os) as H1. pose proof (total_nonneg SlotTable.one os ltac:(done)) as H2.
  rewrite <- (tk_total _ Htab) in Hw. rewrite <- (tk_chunks _ Htab) in H1, H2. rewrite <- (tk_count _ Htab) in Hw, H1.
  assert (0 <= st_slot_count table)%Z by (rewrite (tk_count _ Htab); lia). unfold counts. unfold U32_MAX, U32, U64 in *.
  repeat (apply Forall_cons; split); try apply Forall_nil_2; try done; unfold is_u64, U64; lia.
Qed.

Lemma opens : image_new file = Ok opened_image.
Proof using Hs Hr Ht Hids Hdocs F0 F1 Hc0 Hc1 Hgen Hdim Hlen.
  apply image_new_written; [done|exact counts_u64|done|apply documents_pass|apply slots_pass|]. intros f.
  apply (dictionary_written _ _ _ _ _ _ sections eq_refl counts_u64 Hlen _ f (wr_dict (if f then one else zero)) (wr_blocks (if f then one else zero)) (wr_postings one)); [by destruct f..|].
  destruct f; [apply F1|apply F0].
Qed.

Lemma opened_serves : serves from_slice is_object text s opened_image.
Proof using Hs Hr Ht Hids Hdocs F0 F1.
  split; try done.
  - apply id_over.
  - exact document_over.
  - intros n Hn. destruct (slot_entry n _ Hn) as (w & o & c & Hw & Ho & U1 & U2 & U3 & ->). exists w, c. unfold image_slot_owner.
    rewrite (slot_written _ (st_words table) (dt_owners t) n w FREE c) by (done || by apply sec). cbn [obind]. by rewrite Z.eqb_refl.
  - intros n d i Hn. destruct (slot_over (dictionary_over (wr_count zero) (wr_count one) sections false, dictionary_over (wr_count zero) (wr_count one) sections true) n d i Hn) as (k & w & Hk & Hw & Hslot & Hfree).
    assert (Hid : ids s !! k = Some (doc_id d)) by (apply ids_lookup; by exists d). exists k, w.
    unfold image_slot_owner, image_slot_order, opened_over. rewrite Hslot. cbn [obind]. rewrite Hfree, Nat2Z.id, (id_over _ _ _ Hid). done.
  - exact chunk_over.
  - intros f term. rewrite list_over. cbn zeta. destruct f; [exact (proj2 F1 term)|exact (proj2 F0 term)].
Qed.
End Open.

(** ** The checkpoint of a store *)

Section Checkpoint.
Context {V : Type} {json : Json V} `{!EqDecision (StoredDocument V)} {B : Type} {checkpoint : Checkpoint B}.
Context (to_vec : V -> outcome (list Z)) (from_slice : list Z -> outcome V) (is_object : V -> bool) (crc32 : list Z -> Z) (cipher : option Aead).
Abbreviation Store := (DocumentStore V TermDictionary B).

(** A form whose dictionary or posting bytes reach 2^32; [before] are the posting bytes written already. *)
Definition form_large (s : Store) (f : bool) (before : list Z) : Prop :=
  let R := owned (st_owners (ds_table s)) in
  exists xs, Forall (listed (fun _ => lengths_of R) (form (ds_postings s) f) (index_of (views R) f)) xs /\ bsorted (map term_of xs) /\
    (U32 <= Z.of_nat (length (dict_code 0 [] (map fst xs))) \/ U32 <= Z.of_nat (length (before ++ posting_code (map fst xs))))%Z.

(** A store with a section that reaches 2^32 bytes. *)
Definition oversized (s : Store) : Prop :=
  form_large s false [] \/ tables_large to_vec crc32 cipher s \/
  exists zero, encode_form (ds_postings s).1 [] = Ok (Some zero) /\
    (form_large s true (wr_postings zero) \/
     exists one, encode_form (ds_postings s).2 (wr_postings zero) = Ok (Some one) /\ (U32 <= Z.of_nat (length (wr_postings one)))%Z).

(** A form is written, or is large. *)
Lemma store_form_written (s : Store) text (f : bool) before : store_indexed s -> store_recordable to_vec from_slice is_object crc32 cipher s text ->
  exists r, encode_form (form (ds_postings s) f) before = Ok r /\
  match r with
  | None => form_large s f before
  | Some w => wr_count w <= length (wr_dict w) /\ (exists mine, wr_postings w = before ++ mine) /\
      forall after one, wr_postings one = wr_postings w ++ after -> (Z.of_nat (length (wr_postings one)) < U64)%Z -> form_served s one w f
  end.
Proof using.
  intros Hs Hr. destruct (form_written _ _ _ before (store_form_ok s Hs (sr_terms _ _ _ _ _ _ _ Hr) f)) as (xs & r & Hw & Hx & Hsort & H).
  exists r. split; [done|]. destruct r as [w|]; [|by exists xs]. destruct H as (mine & Hm & Hc & H). split_and!; [done|by exists mine|].
  intros after one Ho Hl. rewrite Ho in Hl. specialize (H after Hl). unfold form_served. by rewrite Ho.
Qed.

(** The checkpoint of a store whose texts are [text]. *)
Lemma checkpoint_written (s : Store) text generation dimensions :
  store_indexed s -> store_recordable to_vec from_slice is_object crc32 cipher s text -> is_u64 generation -> is_u64 dimensions ->
  exists r, image_encode to_vec crc32 cipher s generation dimensions = Ok r /\
  match r with
  | None => image_representable s = false \/ oversized s
  | Some bytes => (Z.of_nat (length bytes) < U64)%Z -> exists im, image_new bytes = Ok im /\ im_dimensions im = dimensions /\ serves from_slice is_object text s im
  end.
Proof using.
  intros Hs Hr Hg Hd. unfold image_encode. destruct (image_representable s); [|by exists None; auto]. cbn [negb].
  destruct (store_form_written s text false [] Hs Hr) as (r0 & E0 & H0). cbn [form] in E0. rewrite E0. cbn [obind].
  destruct r0 as [zero|]; [|exists None; split; [done|]; right; by left]. destruct H0 as (C0 & _ & F0).
  destruct (store_form_written s text true (wr_postings zero) Hs Hr) as (r1 & E1 & H1). cbn [form] in E1. rewrite E1. cbn [obind].
  destruct r1 as [one|]; [|exists None; split; [done|]; right; right; right; exists zero; auto]. destruct H1 as (C1 & [mine Hmine] & F1).
  unfold fits_u32 at 1. destruct (Z.ltb_spec (Z.of_nat (length (wr_postings one))) U32) as [Hpl|Hpl]; cbn [negb];
    [|exists None; split; [done|]; right; right; right; exists zero; split; [done|]; right; by exists one].
  destruct (encode_documents_ok to_vec from_slice is_object crc32 cipher s Hs text (sr_documents _ _ _ _ _ _ _ Hr) (sr_count _ _ _ _ _ _ _ Hr) 0 _ (documents_in_order s) eq_refl (Nat.le_0_l _) (tables_start to_vec crc32 cipher s Hs)) as (rt & -> & Ht).
  cbn [obind]. destruct rt as [t|]; [|exists None; split; [done|]; right; right; by left].
  pose proof Ht as [Hp T1 T2 T3 T4]. rewrite L_length, <- (ids_length s), take_ge in T1, T2 by lia. rewrite L_length, <- (records_length to_vec crc32 cipher s), take_ge in T3, T4 by lia.
  rewrite T2, T4, T1, T3. unfold fits_u32.
  destruct (Z.ltb_spec (Z.of_nat (length (concat (ids s)))) U32) as [Hi|Hi]; [|by exists None; split; [done|]; right; right; left; left].
  destruct (Z.ltb_spec (Z.of_nat (length (concat (records to_vec crc32 cipher s)))) U32) as [Hdl|Hdl]; [|by exists None; split; [done|]; right; right; left; right].
  cbn [andb negb]. rewrite slot_rows_table by (destruct Hp as [-> _]; rewrite (tk_words _ (dk_table _ _ (si_dir _ Hs))); lia). cbn [obind]. eexists. split; [done|]. cbn beta iota.
  intros Hlen. assert (Hpl' : (Z.of_nat (length (wr_postings one)) < U64)%Z) by (unfold U32, U64 in *; lia).
  pose proof (F0 mine one Hmine Hpl') as G0. pose proof (F1 [] one ltac:(by rewrite app_nil_r) Hpl') as G1.
  eexists. split; [eapply opens; eassumption|]. split; [done|]. eapply opened_serves; eassumption.
Qed.

(** ** Stores with a text segment *)

Abbreviation Doc := (StoredDocument V).
Abbreviation docs := (gmap (list Z) Doc).

(** A document as it was put in, its text inline, within the bounds of ingest. *)
Definition put_recordable (id : list Z) (d : Doc) : Prop :=
  utf8_valid id = true /\ id_allowed id = true /\ doc_recordable to_vec from_slice is_object crc32 cipher None d (texts_of c_text d).

(** The text of a stored chunk, read from the segment. *)
Definition segment_text (T : TextSegment) (c : StoredChunk) : option (list Z) := c_text (resolved_chunk crc32 cipher T c).

Lemma resolved_shape T c : c_id (resolved_chunk crc32 cipher T c) = c_id c /\
  c_start_byte (resolved_chunk crc32 cipher T c) = c_start_byte c /\ c_end_byte (resolved_chunk crc32 cipher T c) = c_end_byte c.
Proof using. unfold resolved_chunk. by destruct (c_text_at c). Qed.

Lemma segment_text_read T c :
  c_text c = None -> (forall loc, c_text_at c = Some loc -> exists t, segment_read crc32 cipher T loc = Ok t) ->
  try_text_of crc32 cipher (Some T) c = Ok (segment_text T c).
Proof using.
  intros Hn Hr. unfold try_text_of, segment_text, resolved_chunk. rewrite Hn. destruct (c_text_at c) as [loc|]; [|by rewrite Hn].
  destruct (Hr loc eq_refl) as [t Ht]. cbn [ok_or obind]. by rewrite Ht.
Qed.

(** A stored document is within the bounds if the one put in is. *)
Lemma recordable_stored T (p d : Doc) :
  same_document p (resolved crc32 cipher T d) -> doc_recordable to_vec from_slice is_object crc32 cipher None p (texts_of c_text p) ->
  (forall c, c ∈ doc_chunks d -> try_text_of crc32 cipher (Some T) c = Ok (segment_text T c)) ->
  doc_recordable to_vec from_slice is_object crc32 cipher (Some T) d (texts_of (segment_text T) d).
Proof using.
  intros [E Hc] [H1 H2 H3 H4 _ H6 H7] Ht. cbn [resolved with_chunks doc_chunks] in Hc.
  injection E as Ei Es Ev Em. pose proof (Forall2_length _ _ _ Hc) as Hl. rewrite length_map in Hl.
  split; rewrite ?Ei, ?Es, ?Ev, ?Em, <- ?Hl; try done; [by unfold texts_of; rewrite length_map|].
  apply Forall_lookup. intros i [c t] Hi. unfold texts_of in Hi. rewrite lookup_zip_with in Hi.
  destruct (doc_chunks d !! i) as [c0|] eqn:Ec; [|done]. cbn [mbind option_bind] in Hi. rewrite list_lookup_fmap, Ec in Hi. injection Hi as <- <-.
  destruct (Forall2_lookup_r _ _ _ i (resolved_chunk crc32 cipher T c0) Hc) as (cp & Hp & [Eq _]); [by rewrite list_lookup_fmap, Ec|].
  rewrite Forall_lookup in H6. destruct (H6 i (cp, c_text cp)) as [_ U Sp I].
  { unfold texts_of. by rewrite lookup_zip_with, Hp, list_lookup_fmap, Hp. }
  destruct (resolved_shape T c0) as (R1 & R2 & R3). cbn [fst snd] in *.
  assert (E0 : c_text (resolved_chunk crc32 cipher T c0) = c_text cp /\ c_id (resolved_chunk crc32 cipher T c0) = c_id cp /\
    c_start_byte (resolved_chunk crc32 cipher T c0) = c_start_byte cp /\ c_end_byte (resolved_chunk crc32 cipher T c0) = c_end_byte cp) by (by rewrite Eq).
  destruct E0 as (E1 & E2 & E3 & E4). rewrite R1 in E2. rewrite R2 in E3. rewrite R3 in E4. unfold segment_text in *.
  split; cbn [fst snd]; rewrite ?E1, ?E2, ?E3, ?E4; try done. rewrite <- E1. apply Ht. by eapply list_elem_of_lookup_2.
Qed.

Lemma indexed_terms (s : Store) id d c t fr :
  store_indexed s -> ds_documents s !! id = Some d -> c ∈ doc_chunks d -> (t, fr) ∈ entries_of c -> utf8_valid t = true.
Proof using.
  intros Hs Hd Hc Ht. pose proof (dk_fits _ _ (si_dir _ Hs) _ _ Hd) as Hf. unfold doc_fits in Hf. rewrite Forall_forall in Hf.
  destruct (Hf c Hc) as [[Hr _ _] _]. apply repr_texts in Hr. unfold strings_ok in Hr. rewrite Forall_forall in Hr.
  apply Hr. apply list_elem_of_fmap. by exists (t, fr).
Qed.

(** The store a history of documents within the bounds leaves can be written. *)
Lemma text_store_recordable threads g os :
  (forall a, cipher = Some a -> AeadLaws a) -> seals cipher ->
  text_ops_ok crc32 cipher ∅ g HEADER_LEN os -> map_Forall put_recordable (text_reference crc32 cipher os) ->
  (Z.of_nat (size (text_reference crc32 cipher os)) < U32)%Z ->
  exists (s : Store) T, text_run threads crc32 cipher g os = Ok s /\ ds_text s = Some T /\
    related (text_reference crc32 cipher os) (resolved crc32 cipher T <$> ds_documents s) /\ store_indexed s /\
    store_recordable to_vec from_slice is_object crc32 cipher s (segment_text T).
Proof using.
  intros Hlaws Hseals Ho Hput Hsize.
  destruct (text_run_ok threads crc32 cipher Hlaws Hseals g os Ho) as (g' & t' & s & T & Hrun & _ & [H1 H2 [l H3] H4 _ _]).
  assert (Hs : store_indexed (set_text s (Some T))) by (destruct (store_ok_indexed _ H1) as [[] ?]; by split).
  exists (set_text s (Some T)), T. split_and!; [done|done|done|done|].
  assert (Hdoc : forall id d, ds_documents s !! id = Some d -> exists p, text_reference crc32 cipher os !! id = Some p /\ same_document p (resolved crc32 cipher T d)).
  { intros id d Hd'. specialize (H4 id). rewrite lookup_fmap, Hd' in H4. inversion H4; subst; eauto. }
  split.
  - intros id d Hd'. destruct (Hdoc id d Hd') as (p & Hp & Hsame). destruct (Hput _ _ Hp) as (_ & _ & Hrec).
    eapply recordable_stored; [exact Hsame|exact Hrec|]. intros c Hc. destruct (H2 id d Hd') as [_ Hun]. unfold unwritten in Hun. rewrite Forall_forall in Hun.
    apply segment_text_read; [by apply Hun|]. intros loc Ha.
    destruct (tx_recorded _ _ _ _ _ H3 loc) as [x Hx]; [eapply live_elem; [exact Hd'|apply list_elem_of_omap; eauto]|]. eexists. by eapply recorded_reads.
  - intros id d Hd'. destruct (Hdoc id d Hd') as (p & Hp & _). by destruct (Hput _ _ Hp) as (? & ? & _).
  - intros id d c t fr Hd' Hc Ht. by eapply indexed_terms.
  - change (ds_documents (set_text s (Some T))) with (ds_documents s). by rewrite (reference_size _ _ _ _ _ H4).
Qed.

(** C25: Serving from a checkpoint is serving from the store that wrote it.  Take any history of
    batches, deletions, deferred encodings and canonical rebuilds of a store that keeps its text
    in a segment, plain or encrypted, over documents within the bounds of ingest.  Writing the
    checkpoint of the store it leaves reads every text back from the segment and never fails: it
    writes a file, or nothing, and nothing only when a chunk carries a vector or positions or a
    section reaches 2^32 bytes.  The file written opens, and the open checkpoint serves the
    store: the same counts; every document found by its id, none other, with the record of the
    live document; every slot free, or owned by the same document and chunk with the same word
    count and the same tie-break order, and shown with the same id, span and metadata and the
    text put in; and every term of both forms answered with the same postings. *)
Theorem checkpoint_serves_store threads g os generation dimensions :
  (forall a, cipher = Some a -> AeadLaws a) -> seals cipher ->
  text_ops_ok crc32 cipher ∅ g HEADER_LEN os -> map_Forall put_recordable (text_reference crc32 cipher os) ->
  (Z.of_nat (size (text_reference crc32 cipher os)) < U32)%Z -> is_u64 generation -> is_u64 dimensions ->
  exists (s : Store) T r, text_run threads crc32 cipher g os = Ok s /\ ds_text s = Some T /\
  related (text_reference crc32 cipher os) (resolved crc32 cipher T <$> ds_documents s) /\
  image_encode to_vec crc32 cipher s generation dimensions = Ok r /\
  match r with
  | None => image_representable s = false \/ oversized s
  | Some bytes => (Z.of_nat (length bytes) < U64)%Z ->
      exists im, image_new bytes = Ok im /\ im_dimensions im = dimensions /\ serves from_slice is_object (segment_text T) s im
  end.
Proof using.
  intros Hlaws Hseals Ho Hput Hsize Hg Hd. destruct (text_store_recordable threads g os Hlaws Hseals Ho Hput Hsize) as (s & T & Hrun & HT & Hrel & Hs & Hrec).
  destruct (checkpoint_written s (segment_text T) generation dimensions Hs Hrec Hg Hd) as (r & Hr & H). by exists s, T, r.
Qed.
End Checkpoint.

(** ** The checkpoint of a store of one document, its text encrypted in a segment *)

Definition served_chunk : StoredChunk :=
  {| c_id := [99]%Z; c_text := Some [99; 97; 116]%Z; c_text_at := None; c_start_byte := 0; c_end_byte := 3;
     c_vector := {| hv_dim := 64; hv_indices := [] |}; c_embedding := None;
     c_terms := {| t_terms := Some (Tree cats); t_positions := None |}; c_word_count := 3; c_stemmed := true; c_vector_state := Lexical |}.
Definition served_document : StoredDocument toy_json :=
  {| doc_id := [97]%Z; doc_source_uri := None; doc_version := [49]%Z; doc_metadata := JObject []; doc_chunks := [served_chunk] |}.
Definition served_history : list (text_op (V := toy_json)) := [TInsert (toy_nonce 7) [served_document]].

Abbreviation toy_encode := (image_encode (V := toy_json) (fun _ => Ok [123; 125]%Z) (fun _ => 0%Z) (Some toy_aead)).
Abbreviation toy_parse := (fun _ : list Z => Ok (JObject [])).

Lemma served_history_ok : text_ops_ok (fun _ => 0%Z) (Some toy_aead) ∅ 5 HEADER_LEN served_history.
Proof.
  unfold served_history. text_ops.
  split; [split; [split; [reflexivity|by_decide]|apply toy_entries_ok|reflexivity]|vm_compute; split; congruence].
Qed.

Lemma served_put : map_Forall (put_recordable (fun _ => Ok [123; 125]%Z) toy_parse (fun _ => true) (fun _ => 0%Z) (Some toy_aead))
  (text_reference (fun _ => 0%Z) (Some toy_aead) served_history).
Proof.
  apply map_Forall_insert_2; [|apply map_Forall_empty]. split; [reflexivity|]. split; [reflexivity|]. split.
  - vm_compute. congruence.
  - by_decide.
  - exact I.
  - exists [123; 125]%Z. split; [reflexivity|]. split; [vm_compute; congruence|]. split; vm_compute; reflexivity.
  - reflexivity.
  - constructor; [|constructor]. split; [vm_compute; reflexivity|by_decide|by_decide|by_decide].
  - by_decide.
Qed.

(** The store and its segment. *)
Section Served.
Context {B : Type} {checkpoint : Checkpoint B}.

Definition served_store : DocumentStore toy_json TermDictionary B :=
  match text_run 4 (fun _ => 0%Z) (Some toy_aead) 5 served_history with Ok s => s | _ => store_default end.
Definition served_text : StoredChunk -> option (list Z) :=
  segment_text (fun _ => 0%Z) (Some toy_aead) (default (segment_create None) (ds_text served_store)).

Lemma served_store_ok : store_indexed served_store /\
  store_recordable (fun _ => Ok [123; 125]%Z) toy_parse (fun _ => true) (fun _ => 0%Z) (Some toy_aead) served_store served_text.
Proof.
  destruct (text_store_recordable (B := B) _ _ _ _ _ 4 5 served_history toy_aead_lawful toy_seals served_history_ok served_put) as (s & T & H1 & H2 & _ & H3 & H4);
    [vm_compute; reflexivity|]. unfold served_text, served_store. rewrite H1, H2. done.
Qed.

(** The installed document; its terms are shared and its text is in the segment. *)
Definition installed : StoredDocument toy_json := match documents_in_order served_store with [(_, d)] => d | _ => served_document end.
End Served.

Lemma checkpoint_serves_store_witness :
  exists s T bytes im, text_run (B := Base flat_image) 4 (fun _ => 0%Z) (Some toy_aead) 5 served_history = Ok s /\ ds_text s = Some T /\
    toy_encode s 0 64 = Ok (Some bytes) /\ image_new bytes = Ok im /\ im_words im = 3%Z /\
    exists o d, ordinal im [97]%Z = Ok (Some o) /\ map c_text (doc_chunks d) = [None] /\
      image_record toy_parse (fun _ => true) im o = Ok (record_of d [Some [99; 97; 116]%Z]).
Proof.
  destruct (checkpoint_serves_store (B := Base flat_image) (fun _ => Ok [123; 125]%Z) toy_parse (fun _ => true) (fun _ => 0%Z) (Some toy_aead) 4 5 served_history 0 64
    toy_aead_lawful toy_seals served_history_ok served_put) as (s & T & r & Hrun & HT & _ & Hr & H); [vm_compute; reflexivity|by_decide|by_decide|].
  assert (Hs : Ok s = Ok (match text_run (B := Base flat_image) 4 (fun _ => 0%Z) (Some toy_aead) 5 served_history with Ok s => s | _ => store_default end)) by (by rewrite Hrun).
  destruct r as [bytes|]; [|injection Hs as ->; vm_compute in Hr; discriminate Hr]. exists s, T, bytes. destruct H as (im & Ho & _ & Hv).
  - injection Hs as ->. vm_compute in Hr. injection Hr as <-. vm_compute. reflexivity.
  - exists im. split; [exact Hrun|]. split; [exact HT|]. split; [exact Hr|]. split; [exact Ho|].
    split; [rewrite (sv_words _ _ _ _ _ Hv); injection Hs as ->; vm_compute; reflexivity|].
    destruct (sv_document _ _ _ _ _ Hv [97]%Z) as ([o|] & Hord & Hd); [|exfalso; injection Hs as ->; vm_compute in Hd; discriminate Hd].
    destruct Hd as (d & Hd & _ & Hrec & _). exists o, d. split; [exact Hord|]. injection Hs as ->. vm_compute in Hd, HT. injection Hd as <-. injection HT as <-.
    split; [reflexivity|exact Hrec].
Defined.
