(* ===== verification/ImageBase.v ===== *)
(** * A checkpoint file under a store

    [ServingImage] of [src/core/documents/image.rs] as the checkpoint of [Base]
    ([src/core/documents/overlay.rs]): the reads [Base] makes of it, and that the checkpoint a
    store wrote promises what [Base] relies on. *)

From S2P Require Import Prelude Words BitPack Search Positions Terms FrameDict TextSegment Binary Share TermDict Postings Cursor PostingEdit PostingRuns CheckpointLists Lists Indexing Bulk IndexRuns Filters SlotTable Store Overlay Capacity StoreSpec StoreEdits StoreRuns StoreHistory Journal Hostile ImageDict Image ImageOpen ImageWrite ImageEncode ImageLayout ImageStore ImageRoundtrip ImageServes.

(** The reads that [Base] makes; opening a file rules their failures out. *)
Definition found {A} (default : A) (m : outcome A) : A := match m with Ok a => a | _ => default end.

Definition base_owner (im : ServingImage) (slot : nat) : option nat := found None (image_slot_owner im slot).
Definition base_words (im : ServingImage) (slot : nat) : Z := found 0%Z (let* (w, _, _) := image_slot im slot in Ok w).
Definition base_sum (im : ServingImage) (g : nat -> Z) : Z :=
  wsum (fun n => bool_decide (is_Some (base_owner im n))) g (seq 0 (Z.to_nat (im_slots im))).

(** What [Base] relies on. *)
Record file_good (im : ServingImage) : Prop := {
  fg_ordinal : forall id o, ordinal im id = Ok (Some o) -> o < Z.to_nat (im_docs im) /\ image_id im o = Ok id;
  fg_owner : forall n o, n < Z.to_nat (im_slots im) -> base_owner im n = Some o -> o < Z.to_nat (im_docs im);
  fg_slots : (Z.of_nat (Z.to_nat (im_slots im)) < U32)%Z;
  fg_words : forall n, n < Z.to_nat (im_slots im) -> (0 <= base_words im n)%Z;
  fg_chunk_count : im_chunks im = base_sum im (fun _ => 1%Z);
  fg_word_count : im_words im = base_sum im (base_words im);
  fg_word_bound : (im_words im < U64)%Z;
  fg_docs : (Z.of_nat (Z.to_nat (im_docs im)) < U64)%Z }.

#[global, refine] Instance serving_image : Image ServingImage := {|
  document_total im := Z.to_nat (im_docs im);
  slot_total im := Z.to_nat (im_slots im);
  image_lower_bound im id := found 0 (lower_bound im id);
  image_ordinal im id := found None (ordinal im id);
  slot_owner := base_owner;
  image_slot_words := base_words;
  image_chunks := im_chunks;
  image_words := im_words;
  image_good := file_good |}.
Proof.
  - intros im id o Hg H. destruct (ordinal im id) as [r| |] eqn:E; [|done|done]. cbn in H. subst r. by destruct (fg_ordinal _ Hg _ _ E).
  - intros im id id' o Hg H H'. destruct (ordinal im id) as [r| |] eqn:E; [|done|done]. destruct (ordinal im id') as [r'| |] eqn:E'; [|done|done]. cbn in H, H'. subst.
    destruct (fg_ordinal _ Hg _ _ E) as [_ H1], (fg_ordinal _ Hg _ _ E') as [_ H2]. congruence.
  - intros im n o Hg. by apply fg_owner.
  - intros im Hg. by apply fg_slots.
  - intros im n Hg. by apply fg_words.
  - intros im Hg. by apply fg_chunk_count.
  - intros im Hg. by apply fg_word_count.
  - intros im Hg. by apply fg_word_bound.
  - intros im Hg. by apply fg_docs.
Defined.

Lemma wsum_seq_total {V} (g : StoredChunk -> Z) (p : nat -> bool) (w : nat -> Z) (os : list (option (StoredDocument V * nat))) k :
  (forall n o, os !! n = Some o -> (if p (k + n) then w (k + n) else 0%Z) = weight g o) -> wsum p w (seq k (length os)) = total g os.
Proof.
  unfold wsum, total. revert k. induction os as [|o os IH]; intros k H; [done|]. cbn [length seq foldr]. rewrite IH.
  - rewrite <- (H 0 o eq_refl), Nat.add_0_r. done.
  - intros n x Hx. replace (S k + n) with (k + S n) by lia. by apply H.
Qed.

Lemma ordinal_found im id o : ordinal im id = Ok (Some o) -> o < Z.to_nat (im_docs im) /\ image_id im o = Ok id.
Proof.
  unfold ordinal. intros H. apply obind_ok in H as (p & _ & H). destruct (Nat.ltb_spec p (Z.to_nat (im_docs im))); [|done].
  apply obind_ok in H as (t & Ht & H). case_bool_decide; [|done]. injection H as <-. by subst.
Qed.

Section Good.
Context {V : Type} {json : Json V} `{!EqDecision (StoredDocument V)} {B : Type} {checkpoint : Checkpoint B}.
Context (from_slice : list Z -> outcome V) (is_object : V -> bool).
Abbreviation Store := (DocumentStore V TermDictionary B).
Context (s : Store) (im : ServingImage) (Hs : store_indexed s) (text : StoredChunk -> option (list Z)) (Hv : serves from_slice is_object text s im) (Hcount : (Z.of_nat (size (ds_documents s)) < U32)%Z).
Abbreviation os := (st_owners (ds_table s)).

Lemma slots_length : Z.to_nat (im_slots im) = length os.
Proof using Hs Hv. rewrite (sv_slots _ _ _ _ _ Hv), (tk_count _ (dk_table _ _ (si_dir _ Hs))). apply Nat2Z.id. Qed.

Lemma owner_served n x : os !! n = Some x ->
  match x with
  | None => base_owner im n = None /\ (0 <= base_words im n)%Z
  | Some (d, i) => exists o c, base_owner im n = Some o /\ ids s !! o = Some (doc_id d) /\ doc_chunks d !! i = Some c /\ base_words im n = c_word_count c /\ chunk_fits c
  end.
Proof using Hs Hv.
  intros Hn. unfold base_owner, base_words. destruct x as [[d i]|].
  - destruct (sv_slot _ _ _ _ _ Hv _ _ _ Hn) as (o & w & Hw & Hslot & -> & Hid & _). rewrite Hslot. pose proof (dk_table _ _ (si_dir _ Hs)) as Ht.
    pose proof (tk_owners _ Ht) as Hf. rewrite Forall_lookup in Hf. destruct (Hf _ _ Hn _ eq_refl) as (c & Hc & Hfit). exists o, c. split_and!; try done.
    cbn. assert (Hsc : slot_chunk os (Z.of_nat n) = Some c) by (unfold slot_chunk; rewrite decide_True by lia; rewrite Nat2Z.id, Hn; exact Hc).
    pose proof (tk_lengths _ Ht _ _ Hsc) as Hl. unfold words_at in Hl. by rewrite Nat2Z.id, Hw in Hl.
  - destruct (sv_free _ _ _ _ _ Hv _ Hn) as (w & c & Hw & -> & ->). split; [done|]. cbn. apply (table_word s Hs) in Hw. apply Hw.
Qed.

Lemma served_sum g w :
  (forall n x c, os !! n = Some (Some x) -> owner_chunk x = Some c -> w n = g c) -> base_sum im w = total g os.
Proof using Hs Hv.
  intros Hw. unfold base_sum. rewrite slots_length. apply wsum_seq_total. intros n x Hn. cbn [Nat.add]. pose proof (owner_served n x Hn) as Ho.
  destruct x as [[d i]|]; [|by destruct Ho as [-> _]].
  destruct Ho as (o & c & -> & _ & Hc & _ & _). rewrite bool_decide_eq_true_2 by done. unfold weight. change (Some (d, i) ≫= owner_chunk) with (owner_chunk (d, i)).
  unfold owner_chunk. cbn [fst snd]. rewrite Hc. by apply (Hw n (d, i)).
Qed.

(** The checkpoint of a store is what [Base] relies on. *)
Lemma serves_good : file_good im.
Proof using Hs Hv Hcount.
  pose proof (dk_table _ _ (si_dir _ Hs)) as Ht. pose proof (tk_room _ Ht) as Hroom. pose proof (tk_count _ Ht) as Hcnt.
  pose proof (total_words_small os (tk_owners _ Ht)) as Htw. split.
  - intros id o. apply ordinal_found.
  - intros n o Hn Ho. rewrite slots_length in Hn. destruct (lookup_lt_is_Some_2 _ _ Hn) as [x Hx]. pose proof (owner_served n x Hx) as H.
    destruct x as [[d i]|]; [|by destruct H; congruence]. destruct H as (o' & c & Ho' & Hid & _). rewrite Ho in Ho'. injection Ho' as <-.
    apply lookup_lt_Some in Hid. rewrite ids_length in Hid. rewrite (sv_docs _ _ _ _ _ Hv). lia.
  - rewrite slots_length. lia.
  - intros n Hn. rewrite slots_length in Hn. destruct (lookup_lt_is_Some_2 _ _ Hn) as [x Hx]. pose proof (owner_served n x Hx) as H.
    destruct x as [[d i]|].
    + destruct H as (_ & c & _ & _ & _ & -> & _ & Hw). lia.
    + by destruct H.
  - rewrite (sv_chunks _ _ _ _ _ Hv), (tk_chunks _ Ht). symmetry. by apply served_sum.
  - rewrite (sv_words _ _ _ _ _ Hv), (tk_total _ Ht). symmetry. apply served_sum. intros n [d i] c Hn Hc.
    pose proof (owner_served _ _ Hn) as (_ & c' & _ & _ & Hc' & Hw & _). unfold owner_chunk in Hc. cbn in Hc. rewrite Hc in Hc'. by injection Hc' as <-.
  - rewrite (sv_words _ _ _ _ _ Hv), (tk_total _ Ht). unfold U32_MAX, U32, U64 in *. lia.
  - rewrite (sv_docs _ _ _ _ _ Hv), Nat2Z.id. unfold U32, U64 in *. lia.
Qed.
End Good.
