(* ===== verification/Listing.v ===== *)
(** * Listing the documents of a store

    [src/core/documents/listing.rs]: a document's identity and metadata by id, and the documents
    in id order from a given id on, over the live store and the live documents of the checkpoint
    under it. *)

From S2P Require Import Prelude Words BitPack Search Positions Terms FrameDict TextSegment Binary Share TermDict Postings Cursor PostingEdit PostingRuns CheckpointLists Lists Indexing Bulk IndexRuns Filters SlotTable Store Overlay Capacity StoreSpec StoreEdits StoreRuns StoreHistory Journal Hostile ImageDict Image ImageOpen ImageWrite ImageEncode ImageLayout ImageStore ImageRoundtrip ImageServes ImageBase.

Section Listing.
Context {V : Type} `{!EqDecision (StoredDocument V)}.
Context (from_slice : list Z -> outcome V) (is_object : V -> bool) (crc32 : list Z -> Z) (cipher : option Aead).
Abbreviation Doc := (StoredDocument V).
Abbreviation Store := (DocumentStore V TermDictionary (Base ServingImage)).
Abbreviation Info := (DocumentInfo (V := V)).

(** [documents.range((start, Unbounded))]. *)
Definition at_or_after (from : option (list Z)) (id : list Z) : bool :=
  match from with None => true | Some f => negb (bool_decide (bcmp id f = Lt)) end.
Definition range_from (from : option (list Z)) (l : list (list Z * Doc)) : list (list Z * Doc) := List.filter (fun x => at_or_after from x.1) l.

Definition get_info (s : Store) (id : list Z) : outcome (option Info) :=
  match ds_documents s !! id with
  | Some d => Ok (Some (info d))
  | None =>
      match ds_base s with
      | None => Ok None
      | Some b =>
          let* live := live b id in
          match live with
          | None => Ok None
          | Some o => let* i := unwrap (image_document_info from_slice is_object (b_image b) o) in Ok (Some i)
          end
      end
  end.

(** [while result.len() < limit]; the two sides have no id in common. *)
Fixpoint list_loop (im : ServingImage) (limit : nat) (checkpoint : list nat) (live : list (list Z * Doc)) : outcome (list Info) :=
  match limit with
  | O => Ok []
  | S limit =>
      let from_live d live := let* rest := list_loop im limit checkpoint live in Ok (info d :: rest) in
      let from_checkpoint o checkpoint :=
        let* i := unwrap (image_document_info from_slice is_object im o) in
        let* rest := list_loop im limit checkpoint live in Ok (i :: rest) in
      match checkpoint, live with
      | [], [] => Ok []
      | [], (_, d) :: live => from_live d live
      | o :: checkpoint, [] => from_checkpoint o checkpoint
      | o :: checkpoint, (id, d) :: live =>
          let* t := image_id im o in
          match bcmp t id with
          | Lt => from_checkpoint o checkpoint
          | Gt => from_live d live
          | Eq => Panic
          end
      end
  end.

Definition list_info (s : Store) (from : option (list Z)) (limit : nat) : outcome (list Info) :=
  let live := range_from from (documents_in_order s) in
  match ds_base s with
  | None => Ok (map (fun x => info x.2) (take limit live))
  | Some b =>
      let* checkpoint := live_ordinals_from b from in
      list_loop (b_image b) limit checkpoint live
  end.

(** [count]. *)
Definition document_count (s : Store) : outcome Z :=
  let* n := match ds_base s with None => Ok 0%Z | Some b => live_documents b end in
  expect (checked_add USIZE (Z.of_nat (size (ds_documents s))) n).

(** *** Whole records, of live documents only *)

Record DocumentRecord := mkDocumentRecord {
  dr_id : list Z; dr_source_uri : option (list Z); dr_doc_version : list Z; dr_doc_metadata : V; dr_text : option (list Z); dr_chunk_count : nat }.

Definition text_of (segment : option TextSegment) (c : StoredChunk) : outcome (option (list Z)) := unwrap (try_text_of crc32 cipher segment c).

Definition document_record (segment : option TextSegment) (d : Doc) : outcome DocumentRecord :=
  let* text := match head (doc_chunks d) with None => Ok None | Some c => text_of segment c end in
  Ok {| dr_id := doc_id d; dr_source_uri := doc_source_uri d; dr_doc_version := doc_version d; dr_doc_metadata := doc_metadata d;
        dr_text := text; dr_chunk_count := length (doc_chunks d) |}.

Definition get_record (s : Store) (id : list Z) : outcome (option DocumentRecord) :=
  match ds_documents s !! id with
  | None => Ok None
  | Some d => let* r := document_record (ds_text s) d in Ok (Some r)
  end.

Definition list_records (s : Store) (from : option (list Z)) (limit : nat) : outcome (list DocumentRecord) :=
  omap_list (fun x => document_record (ds_text s) x.2) (take limit (range_from from (documents_in_order s))).
End Listing.

(** ** What a listing shows *)

Section Spec.
Context {V : Type} {json : Json V} `{!EqDecision (StoredDocument V)}.
Context (from_slice : list Z -> outcome V) (is_object : V -> bool).
Abbreviation Doc := (StoredDocument V).
Abbreviation Store := (DocumentStore V TermDictionary (Base ServingImage)).

(** A list with its indexes. *)
Definition numbered {A} (l : list A) : list (nat * A) := imap (fun i x => (i, x)) l.

(** The documents of [s0] that are not dead, with their ordinals. *)
Definition alive (dead : nat -> bool) (s0 : Store) : list (nat * (list Z * Doc)) :=
  List.filter (fun x => negb (dead x.1)) (numbered (documents_in_order s0)).

(** [M] are the live documents of the checkpoint under [s]: the checkpoint a store [s0] wrote,
    less the documents marked dead. *)
Definition checkpointed (s : Store) (M : gmap (list Z) Doc) : Prop :=
  match ds_base s with
  | None => M = ∅
  | Some b => exists s0 text dead, store_indexed s0 /\ (Z.of_nat (size (ds_documents s0)) < U32)%Z /\ serves from_slice is_object text s0 (b_image b) /\
      base_ok b dead /\ M = list_to_map (map snd (alive dead s0))
  end.

Lemma filter_suffix {A} (P : A -> bool) (l : list A) p :
  (forall i x, l !! i = Some x -> P x = bool_decide (p <= i)) -> List.filter P l = drop p l.
Proof using.
  revert p. induction l as [|x l IH]; intros p H; [by destruct p|]. cbn [List.filter]. rewrite (H 0 x eq_refl). destruct p as [|p]; cbn [drop].
  - rewrite bool_decide_eq_true_2 by lia. f_equal. rewrite (IH 0); [by rewrite drop_0|]. intros i y Hy. rewrite (H (S i) y Hy). by rewrite !bool_decide_eq_true_2 by lia.
  - rewrite bool_decide_eq_false_2 by lia. apply IH. intros i y Hy. rewrite (H (S i) y Hy). apply bool_decide_ext. lia.
Qed.

Lemma filter_swap {A} (P Q : A -> bool) (l : list A) : List.filter P (List.filter Q l) = List.filter Q (List.filter P l).
Proof using.
  induction l as [|x l IH]; [done|]. cbn [List.filter]. destruct (P x) eqn:EP, (Q x) eqn:EQ; cbn [List.filter]; rewrite ?EP, ?EQ, IH; done.
Qed.

Lemma filter_map_fst {A} (f : nat -> bool) (l : list (nat * A)) : filter (fun o => f o = false) (map fst l) = map fst (List.filter (fun x => negb (f x.1)) l).
Proof using.
  induction l as [|x l IH]; [done|]. cbn [map List.filter]. rewrite filter_cons, IH. by destruct (f x.1).
Qed.

Lemma imap_pair_fst {A} (l : list A) k : map fst (imap (fun i x => (k + i, x)) l) = seq k (length l).
Proof using.
  revert k. induction l as [|x l IH]; intros k; [done|]. cbn. rewrite Nat.add_0_r. f_equal. rewrite <- IH. f_equal. apply imap_ext. intros i y _. cbn. f_equal. lia.
Qed.

Section Checkpoint.
Context (b : Base ServingImage) (s0 : Store) (dead : nat -> bool).
Context (Hs0 : store_indexed s0) (text : StoredChunk -> option (list Z)) (Hv : serves from_slice is_object text s0 (b_image b)) (Hb : base_ok b dead).
Abbreviation im := (b_image b).
Abbreviation L := (documents_in_order s0).

Lemma numbered_lookup i x : numbered L !! i = Some x -> x.1 = i /\ L !! i = Some x.2.
Proof using. unfold numbered. rewrite list_lookup_imap. intros (y & Hy & ->)%fmap_Some. done. Qed.

Lemma served_docs : im_docs im = Z.of_nat (length (ids s0)).
Proof using Hv. rewrite (sv_docs _ _ _ _ _ Hv), ids_length. done. Qed.

Lemma served_lower_bound id : exists p, lower_bound im id = Ok p /\ p <= length L /\
  forall i x, L !! i = Some x -> negb (bool_decide (bcmp x.1 id = Lt)) = bool_decide (p <= i).
Proof using Hv.
  destruct (lower_bound_ok im (ids s0) served_docs (L_sorted s0) (sv_ids _ _ _ _ _ Hv) id) as (p & Hp & Hle & H1 & H2). exists p.
  rewrite ids_length, <- L_length in Hle. split_and!; [done|done|]. intros i [x d] Hx.
  assert (Hi : ids s0 !! i = Some x) by (apply ids_lookup; by exists d). cbn [fst]. destruct (decide (p <= i)).
  - rewrite bool_decide_eq_false_2 by (by apply (H2 i x)). by rewrite bool_decide_eq_true_2.
  - rewrite bool_decide_eq_true_2 by (apply (H1 i x); [lia|done]). by rewrite bool_decide_eq_false_2.
Qed.

(** The live ordinals from an id on. *)
Lemma live_ordinals from : live_ordinals_from b from = Ok (map fst (List.filter (fun x => at_or_after from x.2.1) (alive dead s0))).
Proof using Hv Hb.
  assert (Hsplit : exists p, match from with Some id => image_lower_bound im id | None => 0 end = p /\ p <= length L /\
    List.filter (fun x => at_or_after from x.2.1) (numbered L) = drop p (numbered L)).
  { destruct from as [id|].
    - destruct (served_lower_bound id) as (p & Hp & Hle & Hx). exists p. split_and!; [cbn; by rewrite Hp|done|]. apply filter_suffix.
      intros i x Hi. apply numbered_lookup in Hi as [_ Hi]. by apply Hx.
    - exists 0. split_and!; [done|lia|]. apply filter_suffix. intros i x _. done. }
  destruct Hsplit as (p & Hp & Hle & Hf). unfold live_ordinals_from. rewrite Hp.
  assert (Ht : document_total im = length L) by (cbn; rewrite served_docs, Nat2Z.id, ids_length, L_length; done). rewrite Ht.
  assert (Hseq : seq p (length L - p) = map fst (drop p (numbered L))).
  { rewrite fmap_drop. change (fst <$> numbered L) with (map fst (imap (fun i x => (0 + i, x)) L)). rewrite imap_pair_fst, drop_seq. done. }
  rewrite (filter_bits_ok false _ _ _ _ (bo_documents _ _ Hb)); [|apply Forall_forall; intros o Ho; apply elem_of_seq in Ho; lia].
  rewrite Hseq, filter_map_fst, <- Hf. unfold alive. by rewrite filter_swap.
Qed.

Lemma numbered_elem {A} (l : list A) o x : (o, x) ∈ numbered l -> l !! o = Some x.
Proof using.
  intros Hin. apply list_elem_of_lookup in Hin as [i Hi]. unfold numbered in Hi. rewrite list_lookup_imap in Hi. apply fmap_Some in Hi as (y & Hy & [= -> ->]). done.
Qed.

Lemma served_entry o id d : L !! o = Some (id, d) ->
  ordinal im id = Ok (Some o) /\ image_id im o = Ok id /\ image_document_info from_slice is_object im o = Ok (info d).
Proof using Hs0 Hv.
  intros Ho. assert (Hid : ids s0 !! o = Some id) by (apply ids_lookup; by exists d). pose proof (sv_ids _ _ _ _ _ Hv _ _ Hid) as Hi.
  pose proof (list_elem_of_lookup_2 _ _ _ Ho) as Hd. apply L_elem in Hd.
  destruct (sv_document _ _ _ _ _ Hv id) as ([o'|] & Hord & Hm); [|congruence]. destruct Hm as (d' & Hd' & _ & _ & Hinfo & _).
  pose proof (ordinal_found _ _ _ Hord) as [Hlt Hid']. rewrite served_docs, Nat2Z.id in Hlt. destruct (lookup_lt_is_Some_2 _ _ Hlt) as [id' Ho'].
  pose proof (sv_ids _ _ _ _ _ Hv _ _ Ho') as Hid2. assert (o' = o) as ->.
  { eapply (NoDup_lookup (ids s0)); [apply L_NoDup|exact Ho'|]. congruence. }
  split_and!; [done|done|congruence].
Qed.

(** An entry of the checkpoint is read as its document. *)
Definition entry_reads (x : nat * (list Z * Doc)) : Prop :=
  image_id im x.1 = Ok x.2.1 /\ image_document_info from_slice is_object im x.1 = Ok (info x.2.2).

Lemma alive_reads : Forall entry_reads (alive dead s0).
Proof using Hs0 Hv.
  apply Forall_forall. intros [o [id d]] Hx. apply list_elem_of_In, filter_In in Hx as [Hx _]. apply list_elem_of_In, numbered_elem in Hx.
  destruct (served_entry _ _ _ Hx) as (_ & H1 & H2). by split.
Qed.

Lemma list_loop_ok limit C live :
  Forall entry_reads C -> (forall k, k ∈ map fst (map snd C) -> k ∉ map fst live) ->
  list_loop from_slice is_object im limit (map fst C) live = Ok (map (fun x => info x.2) (take limit (list_merge key_lt (map snd C) live))).
Proof using Hs0 Hv Hb.
  revert C live. induction limit as [|limit IH]; intros C live HC Hd; [by rewrite take_0|]. destruct C as [|[o [k d]] C], live as [|[id e] live]; cbn [map list_loop fst snd].
  - done.
  - pose proof (IH [] live HC ltac:(set_solver)) as H. cbn [map] in H. rewrite H. by destruct live.
  - apply Forall_cons in HC as [[H1 H2] HC]. cbn [fst snd] in *. rewrite H2. cbn [unwrap obind]. rewrite (IH C []) by (done || set_solver). cbn [obind]. by destruct C.
  - pose proof HC as [[H1 H2] HC']%Forall_cons. cbn [fst snd] in *. rewrite H1. cbn [obind]. rewrite list_merge_cons.
    destruct (bcmp k id) eqn:E.
    + apply bcmp_eq in E as ->. exfalso. apply (Hd id); cbn; [left|left].
    + rewrite decide_True by (unfold key_lt, blt; by cbn [fst]). rewrite H2. cbn [unwrap obind]. rewrite (IH C ((id, e) :: live)); [done|done|]. intros x Hx. apply Hd. by right.
    + rewrite decide_False by (unfold key_lt, blt; cbn [fst]; by rewrite E). pose proof (IH ((o, (k, d)) :: C) live HC) as H. cbn [map fst snd] in H. rewrite H; [done|]. intros x Hx Hx'. apply (Hd x Hx). by right.
Qed.

Abbreviation M := (list_to_map (map snd (alive dead s0)) : gmap (list Z) Doc).

Lemma alive_sorted : bsorted (map fst (map snd (alive dead s0))).
Proof using.
  unfold alive. assert (Hn : map snd (numbered L) = L).
  { apply list_eq. intros i. unfold numbered. rewrite list_lookup_fmap, list_lookup_imap. by destruct (L !! i). }
  pose proof (L_sorted s0) as Hs. rewrite <- Hn in Hs at 1. revert Hs. generalize (numbered L). intros l. induction l as [|x l IH]; intros Hs; [done|].
  cbn [map List.filter] in *. apply bsorted_cons in Hs as [Hf Hs]. destruct (negb (dead x.1)); [|by apply IH]. cbn [map]. apply bsorted_cons. split; [|by apply IH].
  rewrite Forall_forall in Hf |- *. intros k Hk. apply Hf. apply list_elem_of_fmap in Hk as (y & -> & Hy). apply list_elem_of_fmap in Hy as (z & -> & Hz).
  apply list_elem_of_In, filter_In in Hz as [Hz _]. apply list_elem_of_In in Hz. by apply list_elem_of_fmap_2, list_elem_of_fmap_2.
Qed.

Lemma M_perm : map_to_list M ≡ₚ map snd (alive dead s0).
Proof using. apply map_to_list_to_map. apply bsorted_NoDup, alive_sorted. Qed.

Lemma M_lookup id d : M !! id = Some d <-> exists o, L !! o = Some (id, d) /\ dead o = false.
Proof using.
  rewrite <- elem_of_map_to_list, M_perm, list_elem_of_fmap. split.
  - intros ([o x] & -> & Hx). apply list_elem_of_In, filter_In in Hx as [Hx Hd]. apply list_elem_of_In, numbered_elem in Hx. exists o. split; [done|]. by apply negb_true_iff.
  - intros (o & Ho & Hd). exists (o, (id, d)). split; [done|]. apply list_elem_of_In, filter_In. split; [|by apply negb_true_iff]. apply list_elem_of_In, list_elem_of_lookup.
    exists o. unfold numbered. by rewrite list_lookup_imap, Ho.
Qed.

Lemma live_entry id : live b id = Ok (o ← found None (ordinal im id); if dead o then None else Some o).
Proof using Hb. exact (live_ok b dead id Hb). Qed.

Lemma live_info id :
  (let* l := live b id in match l with None => Ok None | Some o => let* i := unwrap (image_document_info from_slice is_object im o) in Ok (Some i) end)
  = Ok (info <$> M !! id).
Proof using Hs0 Hv Hb.
  rewrite live_entry. cbn [obind]. destruct (sv_document _ _ _ _ _ Hv id) as ([o|] & Hord & Hm); rewrite Hord; cbn.
  - destruct Hm as (d & Hd & _ & _ & Hinfo & _). apply L_elem, list_elem_of_lookup in Hd as [o' Ho'].
    destruct (served_entry _ _ _ Ho') as (Hord' & _ & _). rewrite Hord in Hord'. injection Hord' as <-. destruct (dead o) eqn:E.
    + destruct (M !! id) as [d'|] eqn:EM; [|done]. apply M_lookup in EM as (o' & Ho & Hdead). assert (o = o') as <-; [|congruence].
      eapply (NoDup_lookup (map fst L)); [apply L_NoDup|by rewrite list_lookup_fmap, Ho'|by rewrite list_lookup_fmap, Ho].
    + rewrite (proj2 (M_lookup id d)) by (by exists o). by rewrite Hinfo.
  - destruct (M !! id) as [d'|] eqn:EM; [|done]. apply M_lookup in EM as (o' & Ho & _). apply list_elem_of_lookup_2, L_elem in Ho. congruence.
Qed.

Lemma live_count : live_documents b = Ok (Z.of_nat (size M)).
Proof using Hv Hb.
  unfold live_documents. rewrite (bo_count _ _ Hb). assert (Ht : document_total im = length L) by (cbn; rewrite served_docs, Nat2Z.id, ids_length, L_length; done).
  rewrite Ht. rewrite <- (length_seq (length L) 0) at 1. rewrite <- wsum_one_length, (checked_rest _ _ (fun o => negb (dead o)));
    [|intros o; by destruct (dead o)|intros o; by destruct (dead o)|apply Forall_forall; lia]. f_equal. rewrite <- wsum_filter, wsum_one_length. f_equal.
  rewrite <- length_map_to_list, M_perm, length_map. rewrite <- (length_map fst (alive dead s0)). unfold alive. rewrite <- filter_map_fst.
  change (map fst (numbered L)) with (map fst (imap (fun i x => (0 + i, x)) L)). rewrite imap_pair_fst. f_equal. apply list_filter_iff. intros o. by destruct (dead o).
Qed.
End Checkpoint.

Lemma listing_sorted {A} (P : list Z -> bool) (l : list (list Z * A)) : bsorted (map fst l) -> bsorted (map fst (List.filter (fun x => P x.1) l)).
Proof using.
  induction l as [|x l IH]; intros Hs; [done|]. cbn [map List.filter] in *. apply bsorted_cons in Hs as [Hf Hs]. destruct (P x.1); [|by apply IH].
  cbn [map]. apply bsorted_cons. split; [|by apply IH]. rewrite Forall_forall in Hf |- *. intros k Hk. apply Hf.
  apply list_elem_of_fmap in Hk as (y & -> & Hy). apply list_elem_of_In, filter_In in Hy as [Hy _]. apply list_elem_of_In in Hy. by apply list_elem_of_fmap_2.
Qed.

Lemma filter_map_snd {A B} (P : B -> bool) (l : list (A * B)) : map snd (List.filter (fun x => P x.2) l) = List.filter P (map snd l).
Proof using. induction l as [|x l IH]; [done|]. cbn [map List.filter]. destruct (P x.2); cbn [map]; by rewrite IH. Qed.

(** The page merges both sides. *)
Lemma merged_range dead s0 (s : Store) from :
  ds_documents s ##ₘ list_to_map (map snd (alive dead s0)) ->
  list_merge key_lt (map snd (List.filter (fun x => at_or_after from x.2.1) (alive dead s0))) (range_from from (documents_in_order s)) =
  range_from from (ordered (ds_documents s ∪ list_to_map (map snd (alive dead s0)))).
Proof.
  intros Hd. set (C := map snd (alive dead s0)). assert (HC : map snd (List.filter (fun x => at_or_after from x.2.1) (alive dead s0)) = List.filter (fun x => at_or_after from x.1) C).
  { exact (filter_map_snd (fun x => at_or_after from x.1) (alive dead s0)). }
  rewrite HC. unfold range_from.
  assert (Helem : forall (l : list (list Z * Doc)) x, x ∈ List.filter (fun x => at_or_after from x.1) l <-> x ∈ l /\ at_or_after from x.1 = true).
  { intros l x. by rewrite !list_elem_of_In, filter_In. }
  assert (HM : forall k d, (k, d) ∈ C <-> (list_to_map C : gmap (list Z) Doc) !! k = Some d).
  { intros k d. rewrite <- elem_of_map_to_list. unfold C. by rewrite (M_perm s0 dead). }
  apply sorted_ext; [apply list_merge_sorted| |].
  - apply listing_sorted, alive_sorted.
  - apply listing_sorted, L_sorted.
  - intros k (x & -> & Hx)%list_elem_of_fmap (y & Hk & Hy)%list_elem_of_fmap. apply Helem in Hx as [Hx _], Hy as [Hy _]. destruct x as [k d], y as [k' e]. cbn in Hk. subst k'.
    apply HM in Hx. apply L_elem in Hy. cbn [fst] in *. by eapply (map_disjoint_spec _ _).
  - apply listing_sorted, ordered_sorted.
  - intros [k d]. rewrite merge_Permutation, elem_of_app, !Helem, ordered_elem, HM. rewrite (L_elem s).
    rewrite lookup_union_Some by done. tauto.
Qed.

Lemma listing_ok (s : Store) M :
  checkpointed s M -> ds_documents s ##ₘ M -> (Z.of_nat (size (ds_documents s ∪ M)) < USIZE)%Z ->
  (forall from limit, list_info from_slice is_object s from limit =
     Ok (map (fun x => info x.2) (take limit (range_from from (ordered (ds_documents s ∪ M)))))) /\
  (forall id, get_info from_slice is_object s id = Ok (info <$> (ds_documents s ∪ M) !! id)) /\
  document_count s = Ok (Z.of_nat (size (ds_documents s ∪ M))).
Proof.
  intros Hc Hd Hsize. unfold checkpointed in Hc. unfold list_info, get_info, document_count. rewrite map_size_disj_union in * by done. destruct (ds_base s) as [b|].
  - destruct Hc as (s0 & text & dead & Hs0 & _ & Hv & Hb & ->). split_and!.
    + intros from limit. rewrite (live_ordinals b s0 dead text Hv Hb). cbn [obind]. rewrite (list_loop_ok b s0 dead Hs0 text Hv Hb); [by rewrite merged_range| |].
      * apply Forall_forall. intros x Hx. apply list_elem_of_In, filter_In in Hx as [Hx _]. pose proof (alive_reads b s0 dead Hs0 text Hv) as Hr.
        rewrite Forall_forall in Hr. apply Hr. by apply list_elem_of_In.
      * intros k (x & -> & Hx)%list_elem_of_fmap (y & Hk & Hy)%list_elem_of_fmap.
        apply list_elem_of_fmap in Hx as ([o [k d]] & -> & Hx). apply list_elem_of_In, filter_In in Hx as [Hx _]. apply list_elem_of_In in Hx.
        destruct y as [k' e]. cbn [fst snd] in *. subst k'. apply list_elem_of_In, filter_In in Hy as [Hy _]. apply list_elem_of_In, L_elem in Hy.
        eapply (proj1 (map_disjoint_spec _ _) Hd); [exact Hy|]. apply elem_of_map_to_list. rewrite (M_perm s0 dead). by apply (list_elem_of_fmap_2 snd _ (o, (k, d))).
    + intros id. rewrite (live_info b s0 dead Hs0 text Hv Hb). rewrite lookup_union. destruct (ds_documents s !! id), (list_to_map _ !! id); done.
    + rewrite (live_count b s0 dead text Hv Hb). cbn [obind]. unfold checked_add. rewrite (proj2 (Z.ltb_lt _ _)) by lia. cbn. f_equal. lia.
  - subst M. rewrite map_union_empty. split_and!; [done| |].
    + intros id. by destruct (ds_documents s !! id).
    + cbn [obind]. rewrite map_size_empty in *. unfold checked_add. rewrite (proj2 (Z.ltb_lt _ _)) by lia. cbn. f_equal. lia.
Qed.
(** C27: A listing shows the documents of the store and of the checkpoint under it as one.  With
    [M] the live documents of the checkpoint, and no id both in [M] and in the store: a page of a
    listing is the first [limit] documents, in id order, of both together with an id at or after
    the one asked for; a document is found by its id on whichever side it is; and the count is
    that of both together.  Nothing panics: neither the merge nor the decoding of a record. *)
Theorem listing_refines (s : Store) M :
  checkpointed s M -> ds_documents s ##ₘ M -> (Z.of_nat (size (ds_documents s ∪ M)) < USIZE)%Z ->
  (forall from limit, list_info from_slice is_object s from limit =
     Ok (map (fun x => info x.2) (take limit (range_from from (ordered (ds_documents s ∪ M)))))) /\
  (forall id, get_info from_slice is_object s id = Ok (info <$> (ds_documents s ∪ M) !! id)) /\
  document_count s = Ok (Z.of_nat (size (ds_documents s ∪ M))).
Proof. apply listing_ok. Qed.
End Spec.

(** ** A store of one document over the checkpoint of another *)

Definition later_document : StoredDocument toy_json :=
  {| doc_id := [98]%Z; doc_source_uri := None; doc_version := [50]%Z; doc_metadata := JObject []; doc_chunks := [served_chunk] |}.

Definition two_sided (im : ServingImage) : DocumentStore toy_json TermDictionary (Base ServingImage) :=
  match insert_batch 4 (fun _ => 0%Z) None (fun _ => []) (store_default (B := Base ServingImage)) [later_document] with
  | Ok s => set_base s (Some (base_new im))
  | _ => store_default
  end.

(** What the checkpoint holds. *)
Definition checkpoint_side : gmap (list Z) (StoredDocument toy_json) := list_to_map (map snd (alive (fun _ => false) served_store)).

Lemma toy_checkpoint : exists im, serves toy_parse (fun _ => true) (served_text (B := Base ServingImage)) (served_store (B := Base ServingImage)) im.
Proof.
  destruct (checkpoint_written (fun _ => Ok [123; 125]%Z) toy_parse (fun _ => true) (fun _ => 0%Z) (Some toy_aead) (served_store (B := Base ServingImage)) _ 0 64 (proj1 served_store_ok) (proj2 served_store_ok))
    as (r & Hr & H); [by_decide|by_decide|]. destruct r as [bytes|]; [|vm_compute in Hr; discriminate Hr]. destruct H as (im & _ & _ & Hv); [|by exists im].
  vm_compute in Hr. injection Hr as <-. vm_compute. reflexivity.
Qed.

Lemma two_sided_documents im : map_to_list (ds_documents (two_sided im)) = [([98]%Z, default later_document (ds_documents (two_sided im) !! [98]%Z))].
Proof. vm_compute. reflexivity. Qed.

Lemma checkpoint_side_documents : map_to_list checkpoint_side = [([97]%Z, installed (B := Base ServingImage))].
Proof. vm_compute. reflexivity. Qed.

Lemma two_sided_ok im : serves toy_parse (fun _ => true) (served_text (B := Base ServingImage)) (served_store (B := Base ServingImage)) im ->
  checkpointed toy_parse (fun _ => true) (two_sided im) checkpoint_side /\ ds_documents (two_sided im) ##ₘ checkpoint_side /\
  size (ds_documents (two_sided im) ∪ checkpoint_side) = 2.
Proof.
  intros Hv. assert (Hd : ds_documents (two_sided im) ##ₘ checkpoint_side).
  { apply map_disjoint_spec. intros i x y Hx Hy. apply elem_of_map_to_list in Hx, Hy. rewrite two_sided_documents in Hx. rewrite checkpoint_side_documents in Hy.
    apply list_elem_of_singleton in Hx, Hy. congruence. }
  split_and!; [|done|].
  - exists served_store, served_text, (fun _ => false). split_and!; [apply served_store_ok|by vm_compute|exact Hv| |done]. apply base_new_ok.
    eapply (serves_good toy_parse (fun _ => true) (served_store (B := Base ServingImage))); [apply served_store_ok|exact Hv|by vm_compute].
  - rewrite map_size_disj_union by done. rewrite <- !length_map_to_list, two_sided_documents, checkpoint_side_documents. done.
Qed.

Lemma listing_refines_witness :
  exists im page, list_info toy_parse (fun _ => true) (two_sided im) None 10 = Ok page /\ map in_id page = [[97]; [98]]%Z /\
    document_count (two_sided im) = Ok 2%Z.
Proof.
  destruct toy_checkpoint as [im Hv]. destruct (two_sided_ok im Hv) as (Hc & Hd & Hsz).
  destruct (listing_refines toy_parse (fun _ => true) (two_sided im) checkpoint_side Hc Hd) as (Hl & _ & Hn); [rewrite Hsz; vm_compute; reflexivity|].
  exists im. eexists. split; [apply Hl|]. split; [vm_compute; reflexivity|]. rewrite Hn, Hsz. reflexivity.
Defined.
