(* ===== verification/Paging.v ===== *)
(** * Walking a store page by page

    The document listing of the HTTP server ([src/bin/warm-server/documents.rs]): pages of an
    ordered listing, each resumed after the last id of the page before. *)

From S2P Require Import Prelude Words BitPack Search Positions Terms FrameDict TextSegment Binary Share TermDict Postings Cursor PostingEdit PostingRuns CheckpointLists Lists Indexing Bulk IndexRuns Filters SlotTable Store Overlay Capacity StoreSpec StoreEdits StoreRuns StoreHistory Journal Hostile ImageDict Image ImageOpen ImageWrite ImageEncode ImageLayout ImageStore ImageRoundtrip ImageServes ImageBase Listing.

(** [format!("{id}\0")]. *)
Definition resume_after (id : list Z) : list Z := id ++ [0%Z].

(** [str::starts_with]. *)
Fixpoint starts_with (prefix id : list Z) : bool :=
  match prefix, id with
  | [], _ => true
  | p :: prefix, x :: id => (p =? x)%Z && starts_with prefix id
  | _ :: _, [] => false
  end.

(** ** The server's listing *)

Section Server.
Context {V : Type} `{!EqDecision (StoredDocument V)}.
Context (from_slice : list Z -> outcome V) (is_object : V -> bool).
Abbreviation Store := (DocumentStore V TermDictionary (Base ServingImage)).

(** [ListedDocument] and [DocumentPage]. *)
Record DocumentPage := mkPage { pg_documents : list (list Z * V); pg_next_cursor : option (list Z); pg_count : Z }.

(** [list_documents], once the request is admitted. *)
Definition server_page (s : Store) (after : option (list Z)) (limit : option nat) : outcome DocumentPage :=
  let limit := default 100 limit in
  ensure ((1 <=? limit) && (limit <=? 1000)) else "limit must be 1..=1000" ;
  let from := resume_after <$> after in
  let* page := list_info from_slice is_object s from (limit + 1) in
  let more := limit <? length page in
  let page := take limit page in
  let next := if more then in_id <$> last page else None in
  let* count := document_count s in
  Ok {| pg_documents := map (fun r => (in_id r, in_metadata r)) page; pg_next_cursor := next; pg_count := count |}.

(** The pages of [n] documents: at least one, the last not full only if it must be. *)
Definition pages (n limit : nat) : nat := Nat.max 1 ((n + limit - 1) / limit).

(** A client following the cursors, allowed [fuel] requests. *)
Fixpoint follow (fuel : nat) (s : Store) (limit : nat) (after : option (list Z)) : outcome (list (list Z * V)) :=
  match fuel with
  | O => Err "more requests than pages"
  | S fuel =>
      let* p := server_page s after (Some limit) in
      match pg_next_cursor p with
      | None => Ok (pg_documents p)
      | Some cursor => let* rest := follow fuel s limit (Some cursor) in Ok (pg_documents p ++ rest)
      end
  end.
End Server.

(** ** Order of ids *)

Lemma after_resume x y : Forall (Z.le 0) y -> bcmp y (resume_after x) <> Lt <-> blt x y.
Proof.
  unfold blt, resume_after. revert y. induction x as [|a x IH]; intros y Hy; (destruct y as [|c y]; [cbn; split; congruence|]); apply Forall_cons in Hy as [Hc Hy]; cbn.
  - destruct (Z.compare_spec c 0); [by destruct y|lia|done].
  - rewrite (Z.compare_antisym c a). destruct (Z.compare_spec c a); cbn; [by apply IH|split; congruence|done].
Qed.

Lemma before_resume c : blt c (resume_after c).
Proof. unfold blt, resume_after. induction c as [|a c IH]; [done|]. cbn. by rewrite Z.compare_refl. Qed.

Lemma starts_with_app p r : starts_with p (p ++ r) = true.
Proof. induction p as [|x p IH]; [done|]. cbn. by rewrite Z.eqb_refl. Qed.

Lemma starts_with_split p x : starts_with p x = true -> exists r, x = p ++ r.
Proof.
  revert x. induction p as [|a p IH]; intros x H; [by exists x|]. destruct x as [|c x]; [done|]. cbn in H. apply andb_true_iff in H as [Hc H]. apply Z.eqb_eq in Hc as ->.
  destruct (IH x H) as [r ->]. by exists r.
Qed.

(** The ids with a prefix are a run of the ids from it on. *)
Lemma prefix_run p x y : bcmp x p <> Lt -> blt x y -> starts_with p y = true -> starts_with p x = true.
Proof.
  unfold blt. intros Hx Hy [r ->]%starts_with_split. revert x Hx Hy. induction p as [|a p IH]; intros x Hx Hy; [done|]. destruct x as [|c x]; [done|]. cbn in *.
  destruct (Z.compare_spec c a); [|done|done]. subst. rewrite Z.eqb_refl. by apply IH.
Qed.

Lemma prefix_ends {A} p (x : list Z * A) (l : list (list Z * A)) :
  Forall (fun y => blt x.1 y.1) l -> bcmp x.1 p <> Lt -> starts_with p x.1 = false -> Forall (fun y => starts_with p y.1 = false) l.
Proof.
  intros Hf Hx Hp. eapply Forall_impl; [exact Hf|]. intros y Hy. destruct (starts_with p y.1) eqn:E; [|done]. by rewrite (prefix_run _ _ _ Hx Hy E) in Hp.
Qed.

Lemma prefix_at_or_after p x : starts_with p x = true -> bcmp x p <> Lt.
Proof.
  intros [r ->]%starts_with_split. induction p as [|a p IH]; [by destruct r|]. cbn. by rewrite Z.compare_refl.
Qed.

(** The part of an ordered list from an id on is a suffix. *)
Lemma range_suffix {V} (l : list (list Z * StoredDocument V)) from : bsorted (map fst l) -> exists p, range_from from l = drop p l.
Proof.
  intros Hs. unfold range_from. induction l as [|x l IH]; [by exists 0|]. cbn [map List.filter] in *. apply bsorted_cons in Hs as [Hf Hs].
  destruct (at_or_after from x.1) eqn:E; [exists 0|destruct (IH Hs) as [p Hp]; by exists (S p)]. rewrite drop_0. f_equal. rewrite <- (drop_0 l) at 2. apply filter_suffix.
  intros i y Hy. rewrite bool_decide_eq_true_2 by lia. unfold at_or_after in *. destruct from as [f|]; [|done]. apply negb_true_iff, bool_decide_eq_false in E.
  apply negb_true_iff, bool_decide_eq_false. intros Hlt. apply E. rewrite Forall_forall in Hf.
  exact (transitivity (R := blt) (Hf _ (list_elem_of_fmap_2 fst _ _ (list_elem_of_lookup_2 _ _ _ Hy))) Hlt).
Qed.

Lemma filter_both {A} (P Q : A -> bool) (l : list A) : List.filter P (List.filter Q l) = List.filter (fun x => Q x && P x) l.
Proof. induction l as [|x l IH]; [done|]. cbn [List.filter]. destruct (Q x); cbn [List.filter andb]; [destruct (P x); by rewrite IH|done]. Qed.

(** The part of an ordered list after one of its ids. *)
Lemma range_after {V} (l : list (list Z * StoredDocument V)) i c d :
  bsorted (map fst l) -> Forall (fun x => Forall (Z.le 0) x.1) l -> l !! i = Some (c, d) -> range_from (Some (resume_after c)) l = drop (S i) l.
Proof.
  intros Hs Hb Hi. unfold range_from. apply filter_suffix. intros j [y e] Hj. cbn [fst]. rewrite Forall_lookup in Hb. pose proof (Hb _ _ Hj) as Hy. cbn in Hy.
  assert (Hij : forall k x, l !! k = Some x -> map fst l !! k = Some x.1) by (intros k x Hk; by rewrite list_lookup_fmap, Hk).
  unfold at_or_after. destruct (decide (S i <= j)) as [Hlt|Hge].
  - rewrite (bool_decide_eq_true_2 _ Hlt). rewrite bool_decide_eq_false_2; [done|]. apply (after_resume c y Hy). by eapply (bsorted_lookup_lt _ i j); [done|lia|apply (Hij _ _ Hi)|apply (Hij _ _ Hj)].
  - rewrite (bool_decide_eq_false_2 _ Hge). apply negb_false_iff, bool_decide_eq_true, dec_stable. intros Hn%(after_resume c y Hy). apply (irreflexivity blt c).
    destruct (decide (j = i)) as [->|]; [simplify_eq; done|]. etrans; [exact Hn|]. by eapply (bsorted_lookup_lt _ j i); [done|lia|apply (Hij _ _ Hj)|apply (Hij _ _ Hi)].
Qed.

(** ** Following the cursors *)

Section Follow.
Context {V : Type} {json : Json V} `{!EqDecision (StoredDocument V)}.
Context (from_slice : list Z -> outcome V) (is_object : V -> bool).
Abbreviation Doc := (StoredDocument V).
Abbreviation Store := (DocumentStore V TermDictionary (Base ServingImage)).

(** Documents are kept under their ids, which are bytes. *)
Definition keyed (A : gmap (list Z) Doc) : Prop := map_Forall (fun id d => doc_id d = id /\ Forall (Z.le 0) id) A.

Definition listed_pair (x : list Z * Doc) : list Z * V := (x.1, doc_metadata x.2).

Lemma ordered_keyed (A : gmap (list Z) Doc) : keyed A -> Forall (fun x => doc_id x.2 = x.1 /\ Forall (Z.le 0) x.1) (ordered A).
Proof using. intros HA. apply Forall_forall. intros [id d] Hx%ordered_elem. exact (HA _ _ Hx). Qed.

Lemma take_last {X} (l : list X) n x : last (take n l) = Some x -> n < length l -> l !! (n - 1) = Some x /\ 0 < n.
Proof using.
  intros H Hn. destruct n as [|n]; [by rewrite take_0 in H|]. rewrite last_lookup in H. rewrite length_take, Nat.min_l in H by lia. cbn [Nat.pred] in H.
  apply lookup_take_Some in H as [H _]. replace (S n - 1) with n by lia. split; [done|lia].
Qed.

Lemma pages_enough n limit : 0 < limit -> n <= pages n limit * limit.
Proof using.
  intros Hl. unfold pages. pose proof (Nat.div_mod (n + limit - 1) limit). pose proof (Nat.mod_upper_bound (n + limit - 1) limit). nia.
Qed.

Section Walk.
Context (s : Store) (A : gmap (list Z) Doc) (limit : nat) (HA : keyed A) (Hlim : 1 <= limit <= 1000).
Context (Hlist : forall from n, list_info from_slice is_object s from n = Ok (map (fun x => info x.2) (take n (range_from from (ordered A))))).
Context (Hcount : document_count s = Ok (Z.of_nat (size A))).

Lemma page_ok after p :
  range_from (resume_after <$> after) (ordered A) = drop p (ordered A) ->
  exists page, server_page from_slice is_object s after (Some limit) = Ok page /\ pg_count page = Z.of_nat (size A) /\
    pg_documents page = map listed_pair (take limit (drop p (ordered A))) /\
    match pg_next_cursor page with
    | None => length (drop p (ordered A)) <= limit
    | Some c => limit < length (drop p (ordered A)) /\ range_from (Some (resume_after c)) (ordered A) = drop (p + limit) (ordered A)
    end.
Proof using HA Hlim Hlist Hcount.
  intros Hr. unfold server_page. cbv zeta. change (default 100 (Some limit)) with limit. rewrite (proj2 (Nat.leb_le 1 limit)), (proj2 (Nat.leb_le limit 1000)) by lia. cbn [andb].
  rewrite Hlist, Hr. cbn [obind]. rewrite Hcount. cbn [obind]. eexists. split; [done|]. cbn [pg_count pg_documents pg_next_cursor].
  pose proof (ordered_keyed A HA) as HK. set (R := drop p (ordered A)). assert (HR : Forall (fun x => doc_id x.2 = x.1 /\ Forall (Z.le 0) x.1) R) by (by apply Forall_drop).
  assert (Htt : take limit (map (fun x : list Z * Doc => info x.2) (take (limit + 1) R)) = map (fun x => info x.2) (take limit R)).
  { change (map ?f ?l) with (f <$> l). rewrite <- fmap_take, take_take, Nat.min_l by lia. done. }
  rewrite Htt. split_and!; [done| |].
  - rewrite map_map. apply map_ext_in. intros x Hx%list_elem_of_In. unfold listed_pair. cbn. apply elem_of_take in Hx as (j & Hj & _).
    rewrite Forall_lookup in HR. destruct (HR _ _ Hj) as [-> _]. done.
  - rewrite length_map, length_take. destruct (Nat.ltb_spec limit (Nat.min (limit + 1) (length R))); [|lia].
    assert (Hlt : limit < length R) by lia. change (map ?f ?l) with (f <$> l). rewrite fmap_last. destruct (last (take limit R)) as [[c d]|] eqn:El.
    + apply take_last in El as [El _]; [|done]. cbn. rewrite Forall_lookup in HR. destruct (HR _ _ El) as [Hid Hb]. cbn in Hid. rewrite Hid. split; [done|].
      unfold R in El. rewrite lookup_drop in El. rewrite (range_after _ (p + (limit - 1)) c d); [f_equal; lia|apply ordered_sorted| |done].
      eapply Forall_impl; [exact HK|]. by intros x [].
    + apply last_None in El. apply (f_equal length) in El. rewrite length_take in El. cbn in El. lia.
Qed.

Lemma follow_ok fuel after p :
  range_from (resume_after <$> after) (ordered A) = drop p (ordered A) -> 1 <= fuel -> length (drop p (ordered A)) <= fuel * limit ->
  follow from_slice is_object fuel s limit after = Ok (map listed_pair (drop p (ordered A))).
Proof using HA Hlim Hlist Hcount.
  revert after p. induction fuel as [|fuel IH]; intros after p Hr H1 Hf; [lia|]. cbn [follow]. destruct (page_ok after p Hr) as (page & -> & _ & Hd & Hn). cbn [obind].
  rewrite Hd. destruct (pg_next_cursor page) as [c|].
  - destruct Hn as [Hlt Hc]. rewrite (IH (Some c) (p + limit)) by (done || (rewrite !length_drop in *; nia)). cbn [obind]. rewrite <- map_app. do 2 f_equal.
    rewrite <- drop_drop. apply take_drop.
  - by rewrite take_ge.
Qed.
End Walk.

(** C28: Every document is eventually listed, once.  A client of the server's document listing
    that follows the cursors from the first page on, with any page size the server accepts, ends
    within one request per full page and one for the rest (one in all if there are no documents),
    with no request that returns nothing after the last document; what it has seen are the
    documents of the store and of the checkpoint under it together, each once, in id order; every
    page reports their number. *)
Theorem cursors_list_everything (s : Store) M limit :
  checkpointed from_slice is_object s M -> ds_documents s ##ₘ M -> (Z.of_nat (size (ds_documents s ∪ M)) < USIZE)%Z ->
  keyed (ds_documents s ∪ M) -> 1 <= limit <= 1000 ->
  follow from_slice is_object (pages (size (ds_documents s ∪ M)) limit) s limit None = Ok (map listed_pair (ordered (ds_documents s ∪ M))) /\
  forall after page, server_page from_slice is_object s after (Some limit) = Ok page -> pg_count page = Z.of_nat (size (ds_documents s ∪ M)).
Proof.
  intros Hc Hd Hsz HA Hlim. destruct (listing_ok _ _ s M Hc Hd Hsz) as (Hlist & _ & Hcount). split.
  - rewrite (follow_ok s _ limit HA Hlim Hlist Hcount _ None 0); [by rewrite drop_0|apply filter_suffix; intros; done|unfold pages; lia|].
    rewrite drop_0, ordered_perm, length_map_to_list. apply pages_enough. lia.
  - intros after page H. unfold server_page in H. rewrite Hlist, Hcount in H. destruct (_ && _); [|done]. cbn [obind] in H. by injection H as <-.
Qed.
End Follow.

Lemma two_sided_keyed im : serves toy_parse (fun _ => true) (served_text (B := Base ServingImage)) (served_store (B := Base ServingImage)) im -> keyed (ds_documents (two_sided im) ∪ checkpoint_side).
Proof.
  intros Hv id d [Hd|Hd]%lookup_union_Some; [| |by apply two_sided_ok]; apply elem_of_map_to_list in Hd.
  - rewrite two_sided_documents in Hd. apply list_elem_of_singleton in Hd as [= -> ->]. by_decide.
  - rewrite checkpoint_side_documents in Hd. apply list_elem_of_singleton in Hd as [= -> ->]. by_decide.
Qed.

Lemma cursors_list_everything_witness :
  exists im seen, follow toy_parse (fun _ => true) 2 (two_sided im) 1 None = Ok seen /\ map fst seen = [[97]; [98]]%Z.
Proof.
  destruct toy_checkpoint as [im Hv]. destruct (two_sided_ok im Hv) as (Hc & Hd & Hsz).
  destruct (cursors_list_everything toy_parse (fun _ => true) (two_sided im) checkpoint_side 1 Hc Hd) as [Hf _];
    [rewrite Hsz; vm_compute; reflexivity|by apply two_sided_keyed|lia|].
  rewrite Hsz in Hf. exists im. eexists. split; [exact Hf|]. vm_compute. reflexivity.
Defined.
