(* ===== verification/Memories.v ===== *)
(** * Memories of the MCP server

    [src/bin/warm-mcp/store.rs]: a memory is a stored document with reserved metadata keys; [list]
    and the prefix scan of [forget] walk the documents in batches. *)

From S2P Require Import Prelude Words BitPack Search Positions Terms FrameDict TextSegment Binary Share TermDict Postings Cursor PostingEdit PostingRuns CheckpointLists Lists Indexing Bulk IndexRuns Filters SlotTable Store Overlay Capacity StoreSpec StoreEdits StoreRuns StoreHistory Journal Hostile ImageDict Image ImageOpen ImageWrite ImageEncode ImageLayout ImageStore ImageRoundtrip ImageServes ImageBase Listing Paging.

(** The reserved keys: ["hms."] and a name. *)
Definition RESERVED : list Z := [104; 109; 115; 46]%Z.
Definition K_CREATED : list Z := RESERVED ++ [99; 114; 101; 97; 116; 101; 100]%Z.
Definition K_UPDATED : list Z := RESERVED ++ [117; 112; 100; 97; 116; 101; 100]%Z.
Definition K_TITLE : list Z := RESERVED ++ [116; 105; 116; 108; 101]%Z.
Definition K_TAGS : list Z := RESERVED ++ [116; 97; 103; 115]%Z.
Definition K_LEAD : list Z := RESERVED ++ [108; 101; 97; 100]%Z.
Definition K_TRAIL : list Z := RESERVED ++ [116; 114; 97; 105; 108]%Z.
Definition K_BLANK : list Z := RESERVED ++ [98; 108; 97; 110; 107]%Z.

Section Memories.
Context {V : Type} {json : Json V} `{!EqDecision (StoredDocument V)}.
Context (crc32 : list Z -> Z) (cipher : option Aead).
(** [Value::as_array], and [Value::as_f64] cast to [i64]. *)
Context (as_array : V -> option (list V)) (as_millis : V -> option Z).
Abbreviation Store := (DocumentStore V TermDictionary (Base ServingImage)).
Abbreviation Record_ := (DocumentRecord (V := V)).

(** *** Memories *)

(** [Option::and_then]. *)
Definition and_then {A C} (o : option A) (f : A -> option C) : option C := match o with Some a => f a | None => None end.

(** [Map::get]; [Value::as_str]; [Value::as_bool]. *)
Definition map_get (meta : list (list Z * V)) (key : list Z) : option V := snd <$> List.find (fun e => bool_decide (e.1 = key)) meta.
Definition as_str (v : V) : option (list Z) := match as_scalar v with Some (SString t) => Some t | _ => None end.
Definition as_bool (v : V) : option bool := match as_scalar v with Some (SBool b) => Some b | _ => None end.

Record Memory := mkMemory {
  me_id : list Z; me_text : list Z; me_bytes : nat; me_title : option (list Z); me_tags : list (list Z); me_metadata : list (list Z * V);
  me_created_at : Z; me_updated_at : Z; me_version : list Z }.

Definition ms_of (meta : list (list Z * V)) (key : list Z) : Z := match and_then (map_get meta key) as_millis with Some v => v | None => 0%Z end.

Definition memory_from (id : list Z) (text : option (list Z)) (metadata : V) (version : list Z) : Memory :=
  let meta := default [] (as_object metadata) in
  let text := match and_then (map_get meta K_BLANK) as_str with
              | Some blank => blank
              | None => default [] (and_then (map_get meta K_LEAD) as_str) ++ default [] text ++ default [] (and_then (map_get meta K_TRAIL) as_str)
              end in
  {| me_id := id; me_text := text; me_bytes := length text; me_title := and_then (map_get meta K_TITLE) as_str;
     me_tags := match and_then (map_get meta K_TAGS) as_array with Some a => omap as_str a | None => [] end;
     me_metadata := List.filter (fun e => negb (starts_with RESERVED e.1)) meta;
     me_created_at := ms_of meta K_CREATED; me_updated_at := ms_of meta K_UPDATED; me_version := version |}.

Definition record_memory (r : Record_) : Memory := memory_from (dr_id r) (dr_text r) (dr_doc_metadata r) (dr_doc_version r).

(** *** Listing *)

(** ["hms.tag."]. *)
Definition TAG_PREFIX : list Z := [104; 109; 115; 46; 116; 97; 103; 46]%Z.
Definition SCAN_PAGE : nat := 256.

Record ListReq := mkListReq { lq_prefix : option (list Z); lq_tag : option (list Z); lq_cursor : option (list Z); lq_limit : nat }.
Record MemoryPage := mkMemoryPage { mp_memories : list Memory; mp_next_cursor : option (list Z) }.

Definition tag_matches (tag : option (list Z)) (metadata : V) : bool :=
  match tag with
  | None => true
  | Some t => bool_decide (match as_object metadata with Some meta => and_then (map_get meta (TAG_PREFIX ++ t)) as_bool | None => None end = Some true)
  end.

(** The loop over a batch: the page it returns, or the memories so far. *)
Fixpoint memory_batch (req : ListReq) (memories : list Memory) (batch : list Record_) : MemoryPage + list Memory :=
  match batch with
  | [] => inr memories
  | record :: rest =>
      if negb (starts_with (default [] (lq_prefix req)) (dr_id record)) then inl {| mp_memories := memories; mp_next_cursor := None |}
      else if negb (tag_matches (lq_tag req) (dr_doc_metadata record)) then memory_batch req memories rest
      else if Nat.eqb (length memories) (lq_limit req) then inl {| mp_memories := memories; mp_next_cursor := me_id <$> last memories |}
      else memory_batch req (memories ++ [record_memory record]) rest
  end.

Fixpoint memory_scan (fuel : nat) (s : Store) (req : ListReq) (from : list Z) (memories : list Memory) : outcome MemoryPage :=
  match fuel with
  | O => Panic
  | S fuel =>
      let* batch := list_records crc32 cipher s (Some from) SCAN_PAGE in
      let exhausted := length batch <? SCAN_PAGE in
      match memory_batch req memories batch with
      | inl page => Ok page
      | inr memories =>
          match last batch with
          | Some last => if negb exhausted then memory_scan fuel s req (resume_after (dr_id last)) memories
                         else Ok {| mp_memories := memories; mp_next_cursor := None |}
          | None => Ok {| mp_memories := memories; mp_next_cursor := None |}
          end
      end
  end.

(** [list]: starts at the later of the prefix and the successor of the cursor. *)
Definition memory_list (s : Store) (req : ListReq) : outcome MemoryPage :=
  let prefix := default [] (lq_prefix req) in
  let from := match lq_cursor req with
              | Some cursor => if bool_decide (bcmp cursor prefix = Lt) then prefix else resume_after cursor
              | None => prefix
              end in
  memory_scan (S (size (ds_documents s))) s req from [].

(** The prefix scan of [forget] over a batch: [true] is [break 'scan]. *)
Fixpoint forget_batch (max_forget : nat) (prefix : list Z) (found : list (list Z)) (batch : list Record_) : outcome (bool * list (list Z)) :=
  match batch with
  | [] => Ok (false, found)
  | record :: rest =>
      if negb (starts_with prefix (dr_id record)) then Ok (true, found)
      else
        ensure negb (max_forget <=? length found) else "too_many" ;
        forget_batch max_forget prefix (found ++ [dr_id record]) rest
  end.

Fixpoint forget_scan (fuel : nat) (s : Store) (max_forget : nat) (prefix from : list Z) (found : list (list Z)) : outcome (list (list Z)) :=
  match fuel with
  | O => Panic
  | S fuel =>
      let* batch := list_records crc32 cipher s (Some from) SCAN_PAGE in
      let* (stop, found) := forget_batch max_forget prefix found batch in
      if stop : bool then Ok found
      else
        match last batch with
        | Some last => if Nat.eqb (length batch) SCAN_PAGE then forget_scan fuel s max_forget prefix (resume_after (dr_id last)) found else Ok found
        | None => Ok found
        end
  end.

(** The ids [forget] deletes. *)
Definition forget_ids (s : Store) (max_forget : nat) (req_ids : list (list Z)) (prefix : option (list Z)) : outcome (list (list Z)) :=
  match prefix with
  | None => Ok req_ids
  | Some prefix => forget_scan (S (size (ds_documents s))) s max_forget prefix prefix req_ids
  end.
End Memories.


(** ** What a scan finds *)

Section Scans.
Context {V : Type} {json : Json V} `{!EqDecision (StoredDocument V)}.
Context (crc32 : list Z -> Z) (cipher : option Aead) (as_array : V -> option (list V)) (as_millis : V -> option Z).
Abbreviation Doc := (StoredDocument V).
Abbreviation Store := (DocumentStore V TermDictionary (Base ServingImage)).
Context (s : Store).
Abbreviation O := (ordered (ds_documents s)).

(** Every first chunk's text can be read. *)
Definition readable : Prop := map_Forall (fun _ d => exists r, document_record crc32 cipher (ds_text s) d = Ok r) (ds_documents s).

(** The record of a document. *)
Definition record_of_doc (d : Doc) : DocumentRecord :=
  match document_record crc32 cipher (ds_text s) d with
  | Ok r => r
  | _ => {| dr_id := doc_id d; dr_source_uri := None; dr_doc_version := []; dr_doc_metadata := doc_metadata d; dr_text := None; dr_chunk_count := 0 |}
  end.

Lemma record_of_doc_fields d : dr_id (record_of_doc d) = doc_id d /\ dr_doc_metadata (record_of_doc d) = doc_metadata d.
Proof using.
  unfold record_of_doc. destruct (document_record crc32 cipher (ds_text s) d) as [r| |] eqn:E; [|done|done]. unfold document_record in E. apply obind_ok in E as (t & _ & E). by injection E as <-.
Qed.

Abbreviation rec := (fun x : list Z * Doc => record_of_doc x.2).
Context (Hread : readable) (Hkey : keyed (ds_documents s)).

Lemma rec_id x : x ∈ O -> dr_id (rec x) = x.1.
Proof using Hkey. destruct x as [id d]. intros Hx%ordered_elem. cbn. destruct (record_of_doc_fields d) as [-> _]. by destruct (Hkey _ _ Hx). Qed.

Lemma list_records_ok from n : list_records crc32 cipher s from n = Ok (map rec (take n (range_from from O))).
Proof using Hread.
  unfold list_records. change (documents_in_order s) with O.
  assert (Hin : forall x, x ∈ take n (range_from from O) -> document_record crc32 cipher (ds_text s) x.2 = Ok (rec x)).
  { intros [id d] (j & Hj & _)%elem_of_take. apply list_elem_of_lookup_2 in Hj. apply list_elem_of_In, filter_In in Hj as [Hj _]. apply list_elem_of_In, ordered_elem in Hj.
    unfold record_of_doc. cbn [snd]. destruct (Hread _ _ Hj) as [r ->]. done. }
  revert Hin. generalize (take n (range_from from O)). intros l Hin. induction l as [|x l IH]; [done|]. cbn [omap_list map]. rewrite (Hin x) by left. cbn [obind].
  rewrite IH; [done|]. intros y Hy. apply Hin. by right.
Qed.

(** One batch after another is one batch. *)
Lemma memory_batch_app req m (a b : list (DocumentRecord (V := V))) :
  memory_batch as_array as_millis req m (a ++ b) =
    match memory_batch as_array as_millis req m a with inl page => inl page | inr m => memory_batch as_array as_millis req m b end.
Proof using.
  revert m. induction a as [|r a IH]; intros m; [done|]. cbn [app memory_batch]. destruct (negb (starts_with _ _)); [done|]. destruct (negb (tag_matches _ _)); [apply IH|]. destruct (_ =? _); [done|apply IH].
Qed.

(** The page of a whole scan. *)
Definition scanned (r : MemoryPage + list Memory) : MemoryPage (V := V) := match r with inl page => page | inr m => {| mp_memories := m; mp_next_cursor := None |} end.

Lemma next_batch from p n : range_from (Some from) O = drop p O -> 0 < n -> n <= length (drop p O) ->
  exists x, last (map rec (take n (drop p O))) = Some (rec x) /\ dr_id (rec x) = x.1 /\ range_from (Some (resume_after x.1)) O = drop (p + n) O.
Proof using Hkey.
  intros Hr Hn Hl. destruct (lookup_lt_is_Some_2 (drop p O) (n - 1)) as [[c d] Hx]; [lia|]. exists (c, d).
  change (map ?f ?l) with (f <$> l). rewrite fmap_last, last_lookup, length_take, Nat.min_l by lia. rewrite lookup_take_lt by lia.
  replace (Nat.pred n) with (n - 1) by lia. rewrite Hx. rewrite lookup_drop in Hx. split_and!; [done|apply rec_id; by eapply list_elem_of_lookup_2|].
  cbn [fst]. rewrite (range_after O (p + (n - 1)) c d); [f_equal; lia|apply ordered_sorted| |done]. eapply Forall_impl; [exact (ordered_keyed _ Hkey)|]. by intros x [].
Qed.

Lemma memory_scan_ok fuel req from m p :
  range_from (Some from) O = drop p O -> length (drop p O) < fuel ->
  memory_scan crc32 cipher as_array as_millis fuel s req from m = Ok (scanned (memory_batch as_array as_millis req m (map rec (drop p O)))).
Proof using Hread Hkey.
  revert from m p. induction fuel as [|fuel IH]; intros from m p Hr Hf; [lia|]. cbn [memory_scan]. rewrite list_records_ok, Hr. cbn [obind].
  rewrite length_map, length_take. pose proof (take_drop SCAN_PAGE (drop p O)) as Hsplit. replace (map rec (drop p O)) with (map rec (take SCAN_PAGE (drop p O) ++ drop SCAN_PAGE (drop p O))) by (by rewrite Hsplit). rewrite map_app, memory_batch_app.
  destruct (memory_batch as_array as_millis req m (map rec (take SCAN_PAGE (drop p O)))) as [page|m'] eqn:E; [done|].
  destruct (Nat.ltb_spec (Nat.min SCAN_PAGE (length (drop p O))) SCAN_PAGE) as [Hlt|Hge].
  - rewrite (drop_ge (drop p O)) by lia. cbn [map memory_batch scanned negb]. by destruct (last _).
  - destruct (next_batch from p SCAN_PAGE Hr) as (x & Hx & Hid & Hnext); [unfold SCAN_PAGE; lia|lia|]. rewrite Hx. cbn [negb]. rewrite Hid.
    rewrite (IH _ _ (p + SCAN_PAGE)); [by rewrite drop_drop|done|]. rewrite length_drop in *. unfold SCAN_PAGE in *. lia.
Qed.

(** *** The listing *)

Section Wanted.
Context (req : ListReq).
Abbreviation prefix := (default [] (lq_prefix req)).
Abbreviation memory := (fun x : list Z * Doc => record_memory as_array as_millis (rec x)).

Definition matching (x : list Z * Doc) : bool := starts_with prefix x.1 && tag_matches (lq_tag req) (doc_metadata x.2).

Definition page_of (ms : list Memory) : MemoryPage (V := V) :=
  {| mp_memories := take (lq_limit req) ms;
     mp_next_cursor := if lq_limit req <? length ms then me_id <$> last (take (lq_limit req) ms) else None |}.

Lemma unmatched (x : list Z * Doc) (l : list (list Z * Doc)) :
  Forall (fun y => blt x.1 y.1) l -> bcmp x.1 prefix <> Lt -> starts_with prefix x.1 = false -> List.filter matching l = [].
Proof using.
  intros Hf Hx Hp. pose proof (prefix_ends _ _ _ Hf Hx Hp) as Hn. unfold matching. induction Hn as [|y l Hy Hl IH]; [done|]. cbn [List.filter]. apply Forall_cons in Hf as [_ Hf].
  rewrite Hy. by apply IH.
Qed.

Lemma memory_batch_spec (l : list (list Z * Doc)) m :
  bsorted (map fst l) -> Forall (fun x => x ∈ O /\ bcmp x.1 prefix <> Lt) l -> length m <= lq_limit req ->
  scanned (memory_batch as_array as_millis req m (map rec l)) = page_of (m ++ map memory (List.filter matching l)).
Proof using Hkey.
  revert m. induction l as [|x l IH]; intros m Hs Hl Hm.
  { cbn. rewrite app_nil_r. unfold page_of. rewrite take_ge by lia. by rewrite (proj2 (Nat.ltb_ge _ _)) by lia. }
  cbn [map] in Hs. apply bsorted_cons in Hs as [Hf Hs]. apply Forall_cons in Hl as [[Hx Hxp] Hl]. cbn [map memory_batch List.filter].
  destruct (record_of_doc_fields x.2) as [_ Hmeta]. rewrite (rec_id x Hx), Hmeta. unfold matching at 1. destruct (starts_with prefix x.1) eqn:Ep; cbn [negb andb].
  - destruct (tag_matches (lq_tag req) (doc_metadata x.2)); cbn [negb]; [|by apply IH]. cbn [map]. destruct (Nat.eqb_spec (length m) (lq_limit req)) as [El|El].
    + cbn [scanned]. unfold page_of. rewrite take_app_length' by done. rewrite length_app. cbn [length]. by rewrite (proj2 (Nat.ltb_lt _ _)) by lia.
    + rewrite IH by (done || (rewrite length_app; cbn; lia)). by rewrite <- app_assoc.
  - rewrite (unmatched x l); [|by apply (proj1 (Forall_fmap _ _ _)) in Hf|done|done]. cbn [map scanned]. rewrite app_nil_r. unfold page_of. rewrite take_ge by lia.
    by rewrite (proj2 (Nat.ltb_ge _ _)) by lia.
Qed.

(** The documents asked for: past the cursor, with the prefix and the tag. *)
Definition wanted (x : list Z * Doc) : bool :=
  match lq_cursor req with Some c => bool_decide (blt c x.1) | None => true end && matching x.

Definition scan_start : list Z :=
  match lq_cursor req with Some cursor => if bool_decide (bcmp cursor prefix = Lt) then prefix else resume_after cursor | None => prefix end.

Lemma start_matching (x : list Z * Doc) : Forall (Z.le 0) x.1 -> at_or_after (Some scan_start) x.1 && matching x = wanted x.
Proof using.
  intros Hb. unfold wanted, scan_start, at_or_after. destruct (matching x) eqn:Em; [|by rewrite !andb_false_r]. rewrite !andb_true_r.
  apply andb_true_iff in Em as [Hp _]. pose proof (prefix_at_or_after _ _ Hp) as Hpx. destruct (lq_cursor req) as [c|]; [|by rewrite bool_decide_eq_false_2].
  destruct (decide (bcmp c prefix = Lt)) as [Hc|Hc]; [rewrite (bool_decide_eq_true_2 _ Hc)|rewrite (bool_decide_eq_false_2 _ Hc)].
  - rewrite bool_decide_eq_false_2 by done. cbn. symmetry. apply bool_decide_eq_true. unfold blt. destruct (bcmp prefix x.1) eqn:E.
    + apply bcmp_eq in E. by rewrite <- E.
    + by apply (transitivity (R := blt) (y := prefix)).
    + apply bcmp_gt in E. done.
  - destruct (decide (blt c x.1)) as [Hlt|Hge].
    + rewrite (bool_decide_eq_true_2 _ Hlt). apply negb_true_iff, bool_decide_eq_false. by apply after_resume.
    + rewrite (bool_decide_eq_false_2 _ Hge). apply negb_false_iff, bool_decide_eq_true, dec_stable. intros H%after_resume; done.
Qed.

Lemma start_after x : bcmp x scan_start <> Lt -> bcmp x prefix <> Lt.
Proof using.
  unfold scan_start. destruct (lq_cursor req) as [c|]; [|done]. case_bool_decide as Hc; [done|]. intros Hx Hlt. apply Hx.
  assert (Hpc : blt prefix (resume_after c)).
  { pose proof (before_resume c) as Hc'. destruct (bcmp prefix c) eqn:E; [apply bcmp_eq in E; by rewrite E|by transitivity c|by apply bcmp_gt in E]. }
  exact (transitivity (R := blt) Hlt Hpc).
Qed.

Lemma memory_list_ok : memory_list crc32 cipher as_array as_millis s req = Ok (page_of (map memory (List.filter wanted O))).
Proof using Hread Hkey.
  pose proof (ordered_keyed _ Hkey) as HK. pose proof (ordered_sorted (ds_documents s)) as HS. rewrite Forall_forall in HK.
  destruct (range_suffix O (Some scan_start) HS) as [p Hp].
  unfold memory_list. fold scan_start. rewrite (memory_scan_ok _ _ _ _ p Hp); [|rewrite length_drop, ordered_perm, length_map_to_list; lia]. f_equal.
  rewrite <- Hp, memory_batch_spec; [|by apply listing_sorted| |cbn; lia].
  - cbn [app]. do 2 f_equal. unfold range_from. rewrite filter_both. apply List.filter_ext_in. intros x Hx%list_elem_of_In. apply start_matching. by destruct (HK x Hx).
  - apply Forall_forall. intros x Hx. apply list_elem_of_In, filter_In in Hx as [Hx Ha]. apply list_elem_of_In in Hx. split; [done|].
    apply start_after. by apply negb_true_iff, bool_decide_eq_false in Ha.
Qed.
End Wanted.

(** *** The prefix scan *)

Section Forget.
Context (max_forget : nat) (prefix : list Z).

Lemma forget_batch_app found (a b : list (DocumentRecord (V := V))) :
  forget_batch max_forget prefix found (a ++ b) =
    let* (stop, found) := forget_batch max_forget prefix found a in if stop : bool then Ok (true, found) else forget_batch max_forget prefix found b.
Proof using.
  revert found. induction a as [|r a IH]; intros found; [done|]. cbn [app forget_batch]. destruct (negb (starts_with _ _)); [done|]. destruct (negb _); [apply IH|done].
Qed.

Lemma forget_scan_ok fuel from found p :
  range_from (Some from) O = drop p O -> length (drop p O) < fuel ->
  forget_scan crc32 cipher fuel s max_forget prefix from found = let* (_, found) := forget_batch max_forget prefix found (map rec (drop p O)) in Ok found.
Proof using Hread Hkey.
  revert from found p. induction fuel as [|fuel IH]; intros from found p Hr Hf; [lia|]. cbn [forget_scan]. rewrite list_records_ok, Hr. cbn [obind].
  pose proof (take_drop SCAN_PAGE (drop p O)) as Hsplit. replace (map rec (drop p O)) with (map rec (take SCAN_PAGE (drop p O) ++ drop SCAN_PAGE (drop p O))) by (by rewrite Hsplit).
  rewrite map_app, forget_batch_app. destruct (forget_batch max_forget prefix found (map rec (take SCAN_PAGE (drop p O)))) as [[[] f]| |] eqn:E; [done| |done|done]. cbn [obind].
  rewrite length_map, length_take. destruct (Nat.eqb_spec (Nat.min SCAN_PAGE (length (drop p O))) SCAN_PAGE) as [Heq|Hne].
  - destruct (next_batch from p SCAN_PAGE Hr) as (x & Hx & Hid & Hnext); [unfold SCAN_PAGE; lia|lia|]. rewrite Hx, Hid.
    rewrite (IH _ _ (p + SCAN_PAGE)); [by rewrite drop_drop|done|]. rewrite length_drop in *. unfold SCAN_PAGE in *. lia.
  - rewrite (drop_ge (drop p O)) by lia. cbn [map forget_batch obind]. by destruct (last _).
Qed.

(** The ids with the prefix. *)
Definition prefixed (l : list (list Z * Doc)) : list (list Z) := map fst (List.filter (fun x => starts_with prefix x.1) l).

Definition forget_result (found P : list (list Z)) : outcome (list (list Z)) :=
  if bool_decide (P = []) || (length found + length P <=? max_forget) then Ok (found ++ P) else Err "too_many".

Lemma forget_batch_spec (l : list (list Z * Doc)) found :
  bsorted (map fst l) -> Forall (fun x => x ∈ O /\ bcmp x.1 prefix <> Lt) l ->
  (let* (_, found) := forget_batch max_forget prefix found (map rec l) in Ok found) = forget_result found (prefixed l).
Proof using Hkey.
  revert found. induction l as [|x l IH]; intros found Hs Hl; [cbn; by rewrite app_nil_r|].
  cbn [map] in Hs. apply bsorted_cons in Hs as [Hf Hs]. apply Forall_cons in Hl as [[Hx Hxp] Hl]. cbn [map forget_batch]. rewrite (rec_id x Hx).
  unfold prefixed. cbn [List.filter]. destruct (starts_with prefix x.1) eqn:Ep; cbn [negb map].
  - unfold forget_result. cbn [length]. rewrite bool_decide_eq_false_2 by done. cbn [orb]. destruct (Nat.leb_spec max_forget (length found)) as [Hge|Hlt]; cbn [negb].
    + by rewrite (proj2 (Nat.leb_gt _ _)) by lia.
    + rewrite IH by done. unfold forget_result. fold (prefixed l). rewrite length_app, <- app_assoc. cbn [length app].
      replace (length found + 1 + length (prefixed l)) with (length found + S (length (prefixed l))) by lia.
      destruct (Nat.leb_spec (length found + S (length (prefixed l))) max_forget); [by rewrite orb_true_r|]. rewrite orb_false_r. case_bool_decide as E; [|done]. rewrite E in *. cbn in *. lia.
  - assert (Hnil : List.filter (fun y : list Z * Doc => starts_with prefix y.1) l = []).
    { apply (proj1 (Forall_fmap _ _ _)) in Hf. pose proof (prefix_ends _ _ _ Hf Hxp Ep) as Hn. clear -Hn. induction Hn as [|y l Hy Hl IH]; [done|]. cbn [List.filter]. by rewrite Hy. }
    rewrite Hnil. cbn. by rewrite app_nil_r.
Qed.
End Forget.

(** C29: The scans of the MCP server find exactly what they are asked for, whatever the batches.
    [list] returns the first [limit] memories, in id order, of the documents past the cursor
    that have the prefix and the tag, and a cursor exactly when there are more of them: the id of
    the last memory returned.  The prefix scan of [forget] adds the ids with the prefix, all of
    them and in order, or fails when they and the ids named exceed the limit. *)
Theorem memory_scans_exact (req : ListReq) max_forget named prefix :
  let found := map (fun x => record_memory as_array as_millis (record_of_doc x.2)) (List.filter (wanted req) O) in
  memory_list crc32 cipher as_array as_millis s req =
    Ok {| mp_memories := take (lq_limit req) found;
          mp_next_cursor := if lq_limit req <? length found then me_id <$> last (take (lq_limit req) found) else None |} /\
  forget_ids crc32 cipher s max_forget named (Some prefix) =
    let P := map fst (List.filter (fun x => starts_with prefix x.1) O) in
    if bool_decide (P = []) || (length named + length P <=? max_forget) then Ok (named ++ P) else Err "too_many".
Proof using Hread Hkey.
  split; [apply memory_list_ok|]. pose proof (ordered_sorted (ds_documents s)) as HS. destruct (range_suffix O (Some prefix) HS) as [p Hp].
  unfold forget_ids. rewrite (forget_scan_ok _ _ _ _ _ p Hp) by (rewrite length_drop, ordered_perm, length_map_to_list; lia). rewrite <- Hp.
  rewrite forget_batch_spec; [|by apply listing_sorted|].
  - unfold forget_result, prefixed, range_from. rewrite filter_both. rewrite (List.filter_ext_in _ (fun x => starts_with prefix x.1)); [done|]. intros x _. cbn.
    destruct (starts_with prefix x.1) eqn:E; [|by rewrite andb_false_r]. by rewrite bool_decide_eq_false_2 by (by apply prefix_at_or_after).
  - apply Forall_forall. intros x Hx. apply list_elem_of_In, filter_In in Hx as [Hx Ha]. apply list_elem_of_In in Hx. split; [done|].
    by apply negb_true_iff, bool_decide_eq_false in Ha.
Qed.
End Scans.

(** ** A scan of one memory *)

Definition plain_store : DocumentStore toy_json TermDictionary (Base ServingImage) := served_store.

Lemma plain_documents id d : ds_documents plain_store !! id = Some d -> id = [97]%Z /\ d = installed (B := Base ServingImage).
Proof.
  intros H%L_elem. assert (E : documents_in_order plain_store = [([97]%Z, installed (B := Base ServingImage))]) by (vm_compute; reflexivity).
  rewrite E in H. apply list_elem_of_singleton in H. split; [exact (f_equal fst H)|exact (f_equal snd H)].
Qed.

Lemma memory_scans_exact_witness :
  exists page, memory_list (fun _ => 0%Z) (Some toy_aead) (fun _ => None) (fun _ => None) plain_store (mkListReq (Some [97]%Z) None None 5) = Ok page /\
    map me_id (mp_memories page) = [[97]]%Z /\ mp_next_cursor page = None /\
    forget_ids (fun _ => 0%Z) (Some toy_aead) plain_store 1 [] (Some [97]%Z) = Ok [[97]]%Z.
Proof.
  destruct (memory_scans_exact (fun _ => 0%Z) (Some toy_aead) (fun _ => None) (fun _ => None) plain_store) with (req := mkListReq (Some [97]%Z) None None 5) (max_forget := 1) (named := [] : list (list Z)) (prefix := [97]%Z)
    as [Hl Hf].
  - intros id d [-> ->]%plain_documents. eexists. vm_compute. reflexivity.
  - intros id d [-> ->]%plain_documents. by_decide.
  - eexists. split; [exact Hl|]. split; [vm_compute; reflexivity|]. split; [vm_compute; reflexivity|]. rewrite Hf. vm_compute. reflexivity.
Defined.
