(* ===== verification/ChunkRead.v ===== *)
(** * Reading a chunk outside the locks

    [capture_chunk] and [CapturedChunkRead] of [src/core/documents/listing.rs] with
    [read_document_chunk] of [src/core/engine/document_api.rs]: the chunk is captured under the
    locks, its text read from the segment while writers go on, and the read kept only if the
    document and the segment are still the ones captured.  A read returns what the store held at
    the capture, whatever the writers did in between. *)

From stdpp Require Import relations.
From S2P Require Import Prelude Words BitPack Search Positions Terms FrameDict TextSegment Binary Share TermDict Postings Cursor PostingEdit PostingRuns CheckpointLists Lists Indexing Bulk IndexRuns Filters SlotTable Store Overlay Capacity StoreSpec StoreEdits StoreRuns StoreHistory Journal Hostile ImageDict Image ImageOpen ImageWrite ImageEncode ImageLayout ImageStore ImageRoundtrip ImageServes ImageBase StoreText TextRecords TextSim TextEdits TextStrip TextHistory.

(** [TextSegment::read] while others write: [checked] is the segment at the bounds and scrub checks,
    [reading] at the read of the bytes. *)
Definition segment_read_at (crc32 : list Z -> Z) (cipher : option Aead) (checked reading : TextSegment) (loc : location) : outcome (list Z) :=
  let '(at_, len, checksum) := loc in
  ensure (in_segment checked at_ len) else "chunk text location outside the text segment" ;
  ensure (HEADER_LEN <=? at_)%Z else "chunk text location inside the segment header" ;
  if is_scrubbed checked at_ len then Ok []
  else
    let* bytes := positioned_read (ts_file reading) (Z.to_nat len) (Z.to_nat at_) in
    let* bytes := match cipher with
                  | Some c => decrypt_with_aad c bytes (to_le_bytes 8 at_)
                  | None => Ok bytes
                  end in
    ensure (crc32 bytes =? checksum)%Z else "chunk text checksum mismatch" ;
    ensure (utf8_valid bytes) else "chunk text is not UTF-8" ;
    Ok bytes.

Section ChunkRead.
Context {V : Type} {json : Json V} `{!EqDecision (StoredDocument V)}.
Context (crc32 : list Z -> Z) (cipher : option Aead) (from_slice : list Z -> outcome V) (is_object : V -> bool).
Abbreviation Doc := (StoredDocument V).
Abbreviation Store := (DocumentStore V TermDictionary (Base ServingImage)).
Abbreviation ChunkRecord := (DocumentChunkRecord (V := V)).

(** What readers and writers share.  An [Arc] is the number of its allocation: [w_arcs] of the
    document stored under an id, [w_segment] of the store's segment; [w_segments] are the contents
    of every segment a reader may still hold. *)
Record World := mkWorld {
  w_store : Store; w_arcs : list Z -> nat; w_segment : nat; w_segments : nat -> TextSegment; w_next : nat; w_revision : Z }.

Record CapturedChunkRead := mkCaptured {
  cr_record : ChunkRecord; cr_segment : option (nat * location); cr_document : option (nat * list Z) }.

Definition within_limit (text : option (list Z)) : bool :=
  match text with None => true | Some t => (Z.of_nat (length t) <=? MAX_DOCUMENT_BYTES)%Z end.

(** The segment and location of a chunk whose text is not inline. *)
Definition capture_segment (w : World) (c : StoredChunk) : outcome (option (nat * location)) :=
  match c_text c, c_text_at c with
  | None, Some loc =>
      ensure (loc.1.2 <=? MAX_DOCUMENT_BYTES + 12 + 16)%Z else "stored chunk exceeds read limit" ;
      let* _ := ok_or (ds_text (w_store w)) "stored chunk has no text segment" in
      Ok (Some (w_segment w, loc))
  | _, _ => Ok None
  end.

Definition capture_chunk (w : World) (id : list Z) (index : nat) : outcome (option CapturedChunkRead) :=
  match ds_documents (w_store w) !! id with
  | Some d =>
      match doc_chunks d !! index with
      | None => Ok None
      | Some c =>
          ensure (within_limit (c_text c)) else "stored chunk exceeds read limit" ;
          let* segment := capture_segment w c in
          let* revision := decimal (w_revision w) in
          Ok (Some {| cr_record := {| dc_revision := revision; dc_document := info d; dc_index := index; dc_id := c_id c;
                                      dc_start_byte := c_start_byte c; dc_end_byte := c_end_byte c; dc_text := c_text c |};
                      cr_segment := segment;
                      cr_document := match segment with Some _ => Some (w_arcs w id, doc_id d) | None => None end |})
      end
  | None =>
      match ds_base (w_store w) with
      | None => Ok None
      | Some b =>
          let* o := Overlay.live b id in
          match o with
          | None => Ok None
          | Some o =>
              let* record := image_document_chunk from_slice is_object (b_image b) o index (w_revision w) in
              Ok ((fun r => {| cr_record := r; cr_segment := None; cr_document := None |}) <$> record)
          end
      end
  end.

Definition with_text (r : ChunkRecord) (text : list Z) : ChunkRecord :=
  {| dc_revision := dc_revision r; dc_document := dc_document r; dc_index := dc_index r; dc_id := dc_id r;
     dc_start_byte := dc_start_byte r; dc_end_byte := dc_end_byte r; dc_text := Some text |}.

(** [CapturedChunkRead::read]. *)
Definition captured_read (c : CapturedChunkRead) (checked reading : World) : outcome ChunkRecord :=
  let* r := match cr_segment c with
            | Some (segment, loc) =>
                let* text := segment_read_at crc32 cipher (w_segments checked segment) (w_segments reading segment) loc in
                ensure (Z.of_nat (length text) <=? MAX_DOCUMENT_BYTES)%Z else "stored chunk exceeds read limit" ;
                Ok (with_text (cr_record c) text)
            | None => Ok (cr_record c)
            end in
  ensure match dc_text r with
         | None => true
         | Some t => (dc_start_byte r <=? dc_end_byte r)%Z && (Z.of_nat (length t) =? dc_end_byte r - dc_start_byte r)%Z
         end else "stored chunk text length disagrees with its byte span" ;
  Ok r.

(** [ChunkReadIdentity::is_current]. *)
Definition is_current (c : CapturedChunkRead) (w : World) : bool :=
  match cr_document c with
  | None => true
  | Some (arc, id) =>
      (bool_decide (is_Some (ds_documents (w_store w) !! id)) && Nat.eqb arc (w_arcs w id)) &&
      match cr_segment c, ds_text (w_store w) with
      | Some (old, _), Some _ => Nat.eqb old (w_segment w)
      | None, None => true
      | _, _ => false
      end
  end.

(** One attempt: the worlds at the capture, at the two steps of the read and at the recheck. *)
Record Round := mkRound { r_capture : World; r_checked : World; r_reading : World; r_recheck : World }.

Definition CHANGED : string := "document changed repeatedly while reading; retry".

Fixpoint attempts (id : list Z) (index : nat) (rounds : list Round) : outcome (option ChunkRecord) :=
  match rounds with
  | [] => Err CHANGED
  | r :: rest =>
      let* captured := capture_chunk (r_capture r) id index in
      match captured with
      | None => Ok None
      | Some c =>
          match captured_read c (r_checked r) (r_reading r) with
          | Panic => Panic
          | result => if is_current c (r_recheck r) then let* record := result in Ok (Some record) else attempts id index rest
          end
      end
  end.

(** [read_document_chunk]. *)
Definition read_document_chunk (id : list Z) (index : nat) (a b c : Round) : outcome (option ChunkRecord) :=
  ensure (id_allowed id) else "IDs must contain 1..=65535 UTF-8 bytes and no null characters" ;
  attempts id index [a; b; c].
End ChunkRead.

(** ** Writers *)

Section Writers.
Context {V : Type} {json : Json V} `{!EqDecision (StoredDocument V)}.
Context (threads : nat) (crc32 : list Z -> Z) (cipher : option Aead).
Abbreviation Doc := (StoredDocument V).
Abbreviation docs := (gmap (list Z) Doc).

(** The documents with their text, and the bounds of the history so far. *)
Record Ghost := mkGhost { h_ref : docs; h_gen : Z; h_len : Z }.

(** Text that spans its bytes, within the limit of a read. *)
Definition spans_ok (d : Doc) : Prop :=
  Forall (fun c => match c_text c with
                   | Some t => Z.of_nat (length t) = (c_end_byte c - c_start_byte c)%Z /\ (Z.of_nat (length t) <= MAX_DOCUMENT_BYTES)%Z
                   | None => True end) (doc_chunks d).

Definition op_spans (o : text_op (V := V)) : Prop := match o with TInsert _ ds => Forall spans_ok ds | _ => True end.

(** A writer's operation: stored documents keep their allocation only unchanged, a canonical
    rebuild allocates a segment, and allocations are not reused. *)
Inductive world_step : World (V := V) * Ghost -> World (V := V) * Ghost -> Prop :=
| writer_step w h o s T arcs segment next revision :
    text_op_ok (h_ref h) (h_gen h) (h_len h) o -> op_spans o ->
    text_step threads crc32 cipher (w_store w) o = Ok s -> ds_text s = Some T ->
    (forall id d, ds_documents s !! id = Some d ->
       (arcs id = w_arcs w id /\ ds_documents (w_store w) !! id = Some d) \/ w_next w <= arcs id < next) ->
    match o with TRebuild _ => w_next w <= segment | _ => segment = w_segment w end -> segment < next -> w_next w <= next -> is_u64 revision ->
    world_step (w, h)
      ({| w_store := s; w_arcs := arcs; w_segment := segment; w_segments := fun n => if Nat.eqb n segment then T else w_segments w n;
          w_next := next; w_revision := revision |},
       {| h_ref := text_ref crc32 cipher (h_ref h) o; h_gen := h_gen h + text_bill (h_ref h) o; h_len := text_length (h_ref h) (h_len h) o |}).

Record world_ok (x : World (V := V) * Ghost) : Prop := {
  wo_state : exists s T, w_store x.1 = set_text s (Some T) /\ w_segments x.1 (w_segment x.1) = T /\ holds_text crc32 cipher s T (h_ref x.2) (h_gen x.2) (h_len x.2);
  wo_reference : reference_ok (h_ref x.2);
  wo_spans : map_Forall (fun _ d => spans_ok d) (h_ref x.2);
  wo_arcs : forall id d, ds_documents (w_store x.1) !! id = Some d -> w_arcs x.1 id < w_next x.1;
  wo_segment : w_segment x.1 < w_next x.1;
  wo_revision : is_u64 (w_revision x.1) }.

Context (Hlaws : forall a, cipher = Some a -> AeadLaws a) (Hseals : seals cipher).

Lemma text_ref_spans (R : docs) (o : text_op) : map_Forall (fun _ d => spans_ok d) R -> op_spans o -> map_Forall (fun _ d => spans_ok d) (text_ref crc32 cipher R o).
Proof using.
  intros HR Ho. destruct o as [nonce ds|nonce id|nonce id version f vs|nonce]; cbn [text_ref op_spans] in *.
  - revert R HR. induction Ho as [|d ds Hd _ IH]; intros R HR; [done|]. cbn [put_docs foldl]. apply IH. by apply map_Forall_insert_2.
  - by apply map_Forall_delete.
  - unfold ref_encode. destruct (R !! id) as [d|] eqn:E; [|done]. destruct (applicable _ _ _ _ _ _ _) as [[]| |]; [|done|done|done].
    apply map_Forall_insert_2; [|done]. pose proof (HR _ _ E) as Hd. cbv beta in Hd. unfold spans_ok, encoded in *. cbn [with_chunks doc_chunks]. clear - Hd. revert vs.
    induction Hd as [|c cs Hc _ IH]; intros [|v vs]; constructor; [|apply IH]. unfold encode_pending. by destruct (is_pending c).
  - done.
Qed.

Lemma step_ok x y : world_ok x -> world_step x y -> world_ok y.
Proof using Hlaws Hseals.
  intros [(s0 & T0 & Es & Et & Hh) Hr Hsp Harc Hseg Hrev] Hstep. destruct Hstep as [w h o s T arcs segment next revision Ho Hos Hrun HT Hnew Hsegn Hsl Hn Hrv].
  cbn [fst snd] in *. rewrite Es in Hrun. destruct (text_step_ok threads crc32 cipher Hlaws Hseals s0 T0 _ _ _ o Hh Hr Ho) as (s1 & T1 & Hrun1 & _ & Hh1).
  rewrite Hrun1 in Hrun. injection Hrun as <-. cbn in HT. injection HT as <-. split; cbn [fst snd w_store w_segments w_segment w_arcs w_next w_revision h_ref h_gen h_len]; try done.
  - exists s1, T1. by rewrite Nat.eqb_refl.
  - by eapply text_ref_ok.
  - by apply text_ref_spans.
  - intros id d Hd. destruct (Hnew id d Hd) as [[-> Hd0]|]; [|lia]. specialize (Harc id d Hd0). lia.
Qed.

Lemma steps_ok x y : world_ok x -> rtc world_step x y -> world_ok y.
Proof using Hlaws Hseals. intros Hx H. induction H as [|x y z Hs _ IH]; [done|]. apply IH. by eapply step_ok. Qed.

Lemma steps_next x y : rtc world_step x y -> w_next x.1 <= w_next y.1.
Proof using. induction 1 as [|x y z Hs _ IH]; [done|]. destruct Hs. cbn in *. lia. Qed.

(** The document [d] under [id] at address [arc], and the segment. *)
Definition holding (id : list Z) (d : Doc) (arc segment : nat) (x : World (V := V) * Ghost) : Prop :=
  ds_documents (w_store x.1) !! id = Some d /\ w_arcs x.1 id = arc /\ w_segment x.1 = segment.

(** What is held after a step, at addresses from before, was held before; its text is the same. *)
Lemma holding_before id d arc segment x y :
  world_ok x -> world_step x y -> holding id d arc segment y -> arc < w_next x.1 -> segment < w_next x.1 ->
  holding id d arc segment x /\ forall loc, loc ∈ locs d ->
    segment_read crc32 cipher (w_segments y.1 segment) loc = segment_read crc32 cipher (w_segments x.1 segment) loc.
Proof using Hlaws Hseals.
  intros [(s0 & T0 & Es & Et & Hh) Hr Hsp Harc Hseg Hrev] Hstep (Hd & Ha & Hs) Harc' Hseg'.
  destruct Hstep as [w h o s T arcs sg next revision Ho Hos Hrun HT Hnew Hsegn Hsl Hn Hrv]. unfold holding. cbn [fst snd w_store w_arcs w_segment w_segments w_next] in *. subst arc segment.
  destruct (Hnew id d Hd) as [[Ea Hd0]|Hf]; [|lia].
  rewrite Es in Hrun. destruct (text_step_ok threads crc32 cipher Hlaws Hseals s0 T0 _ _ _ o Hh Hr Ho) as (s1 & T1 & Hrun1 & Hk & Hh1).
  rewrite Hrun1 in Hrun. injection Hrun as <-. cbn in HT. injection HT as <-. rewrite Nat.eqb_refl.
  assert (Hsteady : sg = w_segment w /\ steady crc32 cipher s0 T0 s1 T1) by (destruct o; try done; lia). destruct Hsteady as [-> Hsteady].
  split; [done|]. intros loc Hl. rewrite Et. apply Hsteady; eapply live_elem; try exact Hl; [|exact Hd]. rewrite Es in Hd0. exact Hd0.
Qed.

Lemma holding_since id d arc segment x y :
  world_ok x -> rtc world_step x y -> holding id d arc segment y -> arc < w_next x.1 -> segment < w_next x.1 ->
  holding id d arc segment x /\ forall loc, loc ∈ locs d ->
    segment_read crc32 cipher (w_segments y.1 segment) loc = segment_read crc32 cipher (w_segments x.1 segment) loc.
Proof using Hlaws Hseals.
  intros Hx H. revert Hx. induction H as [|x y z Hs Hrest IH]; intros Hx Hz Ha Hg; [done|].
  pose proof (steps_next x y (rtc_once _ _ Hs)) as Hn. destruct (IH (step_ok _ _ Hx Hs) Hz ltac:(lia) ltac:(lia)) as [Hy Hr].
  destruct (holding_before _ _ _ _ _ _ Hx Hs Hy Ha Hg) as [Hx' Hr']. split; [done|]. intros loc Hl. by rewrite Hr, Hr'.
Qed.
End Writers.

(** ** A read between writers *)

Lemma decrypt_no_panic a encrypted aad : decrypt_with_aad a encrypted aad <> Panic.
Proof.
  unfold decrypt_with_aad. destruct (Nat.ltb_spec (length encrypted) 12); [done|]. cbn [negb]. rewrite !slice_Ok by lia. cbn [obind]. by destruct (aead_decrypt _ _ _ _).
Qed.

Lemma read_at_no_panic crc32 cipher T T' loc : segment_read_at crc32 cipher T T' loc <> Panic.
Proof.
  destruct loc as [[a l] k]. unfold segment_read_at. destruct (in_segment _ _ _); [|done]. destruct (_ <=? _)%Z; [|done]. destruct (is_scrubbed _ _ _); [done|].
  unfold positioned_read. destruct (get_range _ _ _) as [bytes|]; [|done]. cbn [ok_or obind]. destruct cipher as [c|].
  - pose proof (decrypt_no_panic c bytes (to_le_bytes 8 a)) as Hp. destruct (decrypt_with_aad _ _ _); [|done|done]. cbn [obind]. destruct (_ =? _)%Z; [|done]. by destruct (utf8_valid _).
  - cbn [obind]. destruct (_ =? _)%Z; [|done]. by destruct (utf8_valid _).
Qed.

Lemma intact_unscrubbed crc32 cipher T g L loc : texts_ok crc32 cipher T g L -> loc ∈ L -> (0 < loc.1.2)%Z -> is_scrubbed T loc.1.1 loc.1.2 = false.
Proof.
  intros Hok Hl Hp. destruct (tx_intact _ _ _ _ _ Hok loc Hl Hp) as [t Ht]. destruct (tx_ledger _ _ _ _ _ Hok) as (_ & Hg & _). rewrite Forall_forall in Hg.
  pose proof (Hg _ Ht) as Hr. destruct loc as [[a l] k]. destruct Hr as [_ [(-> & _)|(Hn & _)]]; [done|]. unfold is_scrubbed. by apply bool_decide_eq_false.
Qed.

(** A record held throughout is read as if in one step. *)
Lemma read_at_same crc32 cipher T1 g1 L1 T2 g2 L2 loc :
  texts_ok crc32 cipher T1 g1 L1 -> texts_ok crc32 cipher T2 g2 L2 -> loc ∈ L1 -> loc ∈ L2 ->
  segment_read crc32 cipher T2 loc = segment_read crc32 cipher T1 loc -> segment_read_at crc32 cipher T1 T2 loc = segment_read crc32 cipher T1 loc.
Proof.
  intros H1 H2 L1' L2' Hs. destruct (tx_recorded _ _ _ _ _ H1 loc L1') as [t1 R1]. destruct (tx_recorded _ _ _ _ _ H2 loc L2') as [t2 R2].
  pose proof (recorded_span _ _ _ _ _ _ _ H1 R1) as S1. pose proof (recorded_span _ _ _ _ _ _ _ H2 R2) as S2.
  assert (Hin : forall T, (loc.1.1 + loc.1.2 <= ts_len T < U64)%Z -> in_segment T loc.1.1 loc.1.2 = true).
  { intros T HT. unfold in_segment. rewrite checked_add_ok by lia. apply Z.leb_le. lia. }
  pose proof (Hin T1 ltac:(lia)) as I1. pose proof (Hin T2 ltac:(lia)) as I2.
  destruct (decide (0 < loc.1.2)%Z) as [Hp|Hp].
  - rewrite <- Hs. pose proof (intact_unscrubbed _ _ _ _ _ _ H1 L1' Hp) as U1. pose proof (intact_unscrubbed _ _ _ _ _ _ H2 L2' Hp) as U2.
    destruct loc as [[a l] k]. cbn [fst snd] in *. unfold segment_read_at, segment_read. by rewrite I1, I2, U1, U2.
  - destruct loc as [[a l] k]. cbn [fst snd] in *. assert (l = 0%Z) as -> by lia. unfold segment_read_at, segment_read. rewrite I1. destruct (_ <=? _)%Z; [|done].
    destruct (is_scrubbed T1 a 0); [done|]. pose proof (tx_file _ _ _ _ _ H1). pose proof (tx_file _ _ _ _ _ H2). unfold positioned_read, HEADER_LEN in *.
    rewrite !get_range_Some by lia. rewrite Nat.add_0_r, Nat.sub_diag. done.
Qed.

(** A held record is at most 28 bytes longer than its text. *)
Lemma record_length crc32 cipher (Hlaws : forall a, cipher = Some a -> AeadLaws a) T g L loc t :
  texts_ok crc32 cipher T g L -> loc ∈ L -> segment_read crc32 cipher T loc = Ok t -> (loc.1.2 <= Z.of_nat (length t) + 28)%Z.
Proof.
  intros Hok Hl Hr. destruct (decide (0 < loc.1.2)%Z) as [Hp|Hp]; [|lia]. destruct (tx_intact _ _ _ _ _ Hok loc Hl Hp) as [t' Ht].
  rewrite (recorded_reads _ _ Hlaws _ _ _ _ _ Hok Ht) in Hr. cbn in Hr. injection Hr as <-. destruct (tx_ledger _ _ _ _ _ Hok) as (_ & Hg & _).
  rewrite Forall_forall in Hg. pose proof (Hg _ Ht) as Hrec. destruct loc as [[a l] k]. destruct Hrec as [_ [(-> & _)|(_ & _ & _ & nonce & bytes & Hn & Hb & <- & _)]]; [done|].
  cbn [fst snd] in *. unfold sealed in Hb. destruct cipher as [c|]; [|injection Hb as ->; lia]. pose proof (Hlaws c eq_refl) as Hc.
  apply decrypt_encrypt in Hb as [_ Hlen]; [|done|done]. lia.
Qed.

Section Reads.
Context {V : Type} {json : Json V} `{!EqDecision (StoredDocument V)}.
Context (threads : nat) (crc32 : list Z -> Z) (cipher : option Aead) (from_slice : list Z -> outcome V) (is_object : V -> bool).
Context (Hlaws : forall a, cipher = Some a -> AeadLaws a) (Hseals : seals cipher).
Abbreviation Doc := (StoredDocument V).
Abbreviation docs := (gmap (list Z) Doc).
Abbreviation state := (World (V := V) * Ghost (V := V))%type.
Abbreviation step := (world_step threads crc32 cipher).

(** The chunk of the reference, as a read shows it. *)
Definition chunk_of (R : docs) (id : list Z) (index : nat) (revision : list Z) : option (DocumentChunkRecord (V := V)) :=
  match R !! id with Some d => chunk_shown c_text d index revision | None => None end.

Lemma chunk_shown_same (d d' : Doc) index revision : same_document d d' -> chunk_shown c_text d' index revision = chunk_shown c_text d index revision.
Proof using.
  intros [E H]. unfold chunk_shown, info. pose proof (Forall2_length _ _ _ H) as Hl. pose proof (f_equal doc_id E) as E1. pose proof (f_equal doc_source_uri E) as E2.
  pose proof (f_equal doc_version E) as E3. pose proof (f_equal doc_metadata E) as E4. cbn [with_chunks doc_id doc_source_uri doc_version doc_metadata] in *.
  rewrite <- Hl, E1, E2, E3, E4. destruct (doc_chunks d !! index) as [c|] eqn:Ec.
  - destruct (Forall2_lookup_l _ _ _ _ _ H Ec) as (c' & -> & (Ec' & _)). cbn. by rewrite Ec'.
  - rewrite lookup_ge_None in Ec. by rewrite lookup_ge_None_2 by lia.
Qed.

(** One attempt, with the references at its moments. *)
Record Timed := mkTimed { t_capture : state; t_checked : state; t_reading : state; t_recheck : state }.
Definition round_of (t : Timed) : Round := {| r_capture := (t_capture t).1; r_checked := (t_checked t).1; r_reading := (t_reading t).1; r_recheck := (t_recheck t).1 |}.

(** The moments of the attempts, in order from [x]. *)
Fixpoint schedule (x : state) (ts : list Timed) : Prop :=
  match ts with
  | [] => True
  | t :: rest => rtc step x (t_capture t) /\ rtc step (t_capture t) (t_checked t) /\ rtc step (t_checked t) (t_reading t) /\
      rtc step (t_reading t) (t_recheck t) /\ schedule (t_recheck t) rest
  end.

(** The document or the segment is no longer the one captured. *)
Definition changed (id : list Z) (t : Timed) : Prop :=
  ds_documents (w_store (t_recheck t).1) !! id = None \/ w_arcs (t_recheck t).1 id <> w_arcs (t_capture t).1 id \/
  w_segment (t_recheck t).1 <> w_segment (t_capture t).1.

Lemma held_texts (x : state) : world_ok crc32 cipher x ->
  exists s T g, w_store x.1 = set_text s (Some T) /\ w_segments x.1 (w_segment x.1) = T /\ texts_ok crc32 cipher T g (TextSim.live (ds_documents (w_store x.1))) /\
    store_ok s /\ tidy (ds_documents (w_store x.1)) /\ related (h_ref x.2) (resolved crc32 cipher T <$> ds_documents (w_store x.1)).
Proof using. intros [(s & T & Es & Et & [H1 H2 [g H3] H4 _ _]) _ _ _ _ _]. exists s, T, g. rewrite Es. done. Qed.

(** The text of a captured record, read while the document stays. *)
Lemma held_read (t : Timed) id (m : Doc) loc :
  world_ok crc32 cipher (t_capture t) -> rtc step (t_capture t) (t_checked t) -> rtc step (t_checked t) (t_reading t) -> rtc step (t_reading t) (t_recheck t) ->
  ds_documents (w_store (t_capture t).1) !! id = Some m -> loc ∈ locs m -> ~ changed id t ->
  segment_read_at crc32 cipher (w_segments (t_checked t).1 (w_segment (t_capture t).1)) (w_segments (t_reading t).1 (w_segment (t_capture t).1)) loc =
  segment_read crc32 cipher (w_segments (t_capture t).1 (w_segment (t_capture t).1)) loc.
Proof using Hlaws Hseals.
  clear from_slice is_object. intros H0 S1 S2 S3 Hm Hloc Hch. pose proof (steps_ok _ _ _ Hlaws Hseals _ _ H0 S1) as H1. pose proof (steps_ok _ _ _ Hlaws Hseals _ _ H1 S2) as H2.
  pose proof (wo_arcs _ _ _ H0 _ _ Hm) as Ha. pose proof (wo_segment _ _ _ H0) as Hg. set (arc := w_arcs (t_capture t).1 id) in *. set (sg := w_segment (t_capture t).1) in *.
  pose proof (steps_next _ _ _ _ _ S1) as N1. pose proof (steps_next _ _ _ _ _ S2) as N2.
  assert (Hz : exists d, holding id d arc sg (t_recheck t)).
  { unfold changed in Hch. destruct (ds_documents (w_store (t_recheck t).1) !! id) as [d|] eqn:E; [|tauto]. exists d. split_and!; [done| |]; apply dec_stable; tauto. }
  destruct Hz as [d Hz]. destruct (holding_since _ _ _ Hlaws Hseals _ _ _ _ _ _ H2 S3 Hz ltac:(lia) ltac:(lia)) as [Hy Ry].
  destruct (holding_since _ _ _ Hlaws Hseals _ _ _ _ _ _ H1 S2 Hy ltac:(lia) ltac:(lia)) as [Hc Rc].
  destruct (holding_since _ _ _ Hlaws Hseals _ _ _ _ _ _ H0 S1 Hc ltac:(lia) ltac:(lia)) as [Hx Rx].
  destruct Hx as (Hx & _ & _). rewrite Hm in Hx. injection Hx as <-.
  destruct (held_texts _ H1) as (s1 & T1 & g1 & _ & E1 & X1 & _). destruct (held_texts _ H2) as (s2 & T2 & g2 & _ & E2 & X2 & _).
  destruct Hc as (Dc & _ & Sc). destruct Hy as (Dy & _ & Sy). rewrite Sc in E1. rewrite Sy in E2. rewrite E1, E2 in *. rewrite <- (Rx loc Hloc).
  eapply read_at_same; [exact X1|exact X2|by eapply live_elem|by eapply live_elem|]. by apply Rc.
Qed.

(** What a capture gives. *)
Lemma capture_ok (x : state) id index :
  world_ok crc32 cipher x -> exists revision, decimal (w_revision x.1) = Ok revision /\
  match capture_chunk from_slice is_object x.1 id index with
  | Ok None => chunk_of (h_ref x.2) id index revision = None
  | Ok (Some c) => exists m, ds_documents (w_store x.1) !! id = Some m /\ doc_id m = id /\ dc_text (cr_record c) = None /\
      match cr_segment c with
      | Some (segment, loc) => segment = w_segment x.1 /\ cr_document c = Some (w_arcs x.1 id, id) /\ loc ∈ locs m /\
          exists text, segment_read crc32 cipher (w_segments x.1 (w_segment x.1)) loc = Ok text /\
            chunk_of (h_ref x.2) id index revision = Some (with_text (cr_record c) text)
      | None => cr_document c = None /\ chunk_of (h_ref x.2) id index revision = Some (cr_record c)
      end
  | _ => False
  end.
Proof using Hlaws.
  intros Hx. pose proof Hx as [_ _ Hsp _ _ Hrev]. destruct (decimal_ok _ Hrev) as [revision Hdec]. exists revision. split; [done|].
  destruct (held_texts _ Hx) as (s & T & g & Es & Et & Htx & Hs & Htidy & Hrel). pose proof (Hrel id) as Hid. rewrite lookup_fmap in Hid. unfold capture_chunk, chunk_of.
  destruct (ds_documents (w_store x.1) !! id) as [m|] eqn:Hm, (h_ref x.2 !! id) as [d|] eqn:Hd; inversion Hid as [? ? Hsame|]; subst.
  2:{ rewrite Es. cbn [set_text ds_base]. by rewrite (sk_base _ Hs). }
  destruct (Htidy _ _ Hm) as [Em Hu]. set (T := w_segments x.1 (w_segment x.1)) in *.
  assert (Hshown : chunk_shown c_text d index revision = (fun c => {| dc_revision := revision; dc_document := info m; dc_index := index; dc_id := c_id c;
    dc_start_byte := c_start_byte c; dc_end_byte := c_end_byte c; dc_text := c_text (resolved_chunk crc32 cipher T c) |}) <$> doc_chunks m !! index).
  { rewrite <- (chunk_shown_same _ _ index revision Hsame). unfold chunk_shown, resolved. cbn [with_chunks doc_chunks].
    rewrite (list_lookup_fmap (resolved_chunk crc32 cipher T)). destruct (doc_chunks m !! index) as [c|]; [|done]. cbn. unfold info. cbn. rewrite length_map.
    unfold resolved_chunk. by destruct (c_text_at c). }
  rewrite Hshown. clear Hshown. destruct (doc_chunks m !! index) as [c|] eqn:Hc; [|done]. cbn [fmap option_fmap option_map].
  pose proof (proj1 (Forall_lookup _ _) Hu _ _ Hc) as Hct. cbv beta in Hct. rewrite Hct. cbn [within_limit]. unfold capture_segment. rewrite Hct, Hdec.
  unfold resolved_chunk. destruct (c_text_at c) as [loc|] eqn:Ha; cbn [obind cr_segment cr_record cr_document dc_text]; [|exists m; by rewrite Hct].
  assert (Hl : loc ∈ locs m). { apply list_elem_of_omap. exists c. split; [by eapply list_elem_of_lookup_2|done]. }
  assert (Hlive : loc ∈ TextSim.live (ds_documents (w_store x.1))) by (by eapply live_elem).
  destruct (tx_recorded _ _ _ _ _ Htx loc Hlive) as [tx Hrec]. pose proof (recorded_reads _ _ Hlaws _ _ _ _ _ Htx Hrec) as Hread.
  assert (Hlim : (loc.1.2 <= MAX_DOCUMENT_BYTES + 12 + 16)%Z).
  { pose proof (record_length _ _ Hlaws _ _ _ _ _ Htx Hlive Hread) as Hlen. pose proof (Hsp _ _ Hd) as Hspd. cbv beta in Hspd. unfold spans_ok in Hspd. destruct Hsame as [_ Hcs].
    cbn [resolved with_chunks doc_chunks] in Hcs. assert (Hc' : map (resolved_chunk crc32 cipher T) (doc_chunks m) !! index = Some (inline_text c (Some (default [] tx)))).
    { rewrite (list_lookup_fmap (resolved_chunk crc32 cipher T)), Hc. cbn. unfold resolved_chunk. by rewrite Ha, Hread. }
    destruct (Forall2_lookup_r _ _ _ _ _ Hcs Hc') as (c0 & Hc0 & (E0 & _)). pose proof (proj1 (Forall_lookup _ _) Hspd _ _ Hc0) as H0. cbv beta in H0.
    pose proof (f_equal c_text E0) as Et0. cbn in Et0. rewrite <- Et0 in H0. lia. }
  rewrite (proj2 (Z.leb_le _ _) Hlim). rewrite Es. cbn [set_text ds_text ok_or obind cr_segment cr_record cr_document dc_text]. exists m. split_and!; [done|done|done|done|by rewrite Em|done|].
  exists (default [] tx). split; [done|]. rewrite Hread. done.
Qed.

Lemma chunk_of_spans (R : docs) id index revision r :
  map_Forall (fun _ d => spans_ok d) R -> chunk_of R id index revision = Some r ->
  match dc_text r with
  | Some t => Z.of_nat (length t) = (dc_end_byte r - dc_start_byte r)%Z /\ (Z.of_nat (length t) <= MAX_DOCUMENT_BYTES)%Z
  | None => True end.
Proof using.
  intros HR. unfold chunk_of, chunk_shown. destruct (R !! id) as [d|] eqn:Hd; [|done]. destruct (doc_chunks d !! index) as [c|] eqn:Hc; [|done]. intros [= <-].
  cbn [dc_text dc_end_byte dc_start_byte]. exact (proj1 (Forall_lookup _ _) (HR _ _ Hd) _ _ Hc).
Qed.

(** One attempt: what it captured, and what its read is worth. *)
Lemma round_ok (t : Timed) id index :
  world_ok crc32 cipher (t_capture t) -> rtc step (t_capture t) (t_checked t) -> rtc step (t_checked t) (t_reading t) -> rtc step (t_reading t) (t_recheck t) ->
  exists revision, decimal (w_revision (t_capture t).1) = Ok revision /\
  match capture_chunk from_slice is_object (t_capture t).1 id index with
  | Ok None => chunk_of (h_ref (t_capture t).2) id index revision = None
  | Ok (Some c) => captured_read crc32 cipher c (t_checked t).1 (t_reading t).1 <> Panic /\
      if is_current c (t_recheck t).1
      then exists r, captured_read crc32 cipher c (t_checked t).1 (t_reading t).1 = Ok r /\ chunk_of (h_ref (t_capture t).2) id index revision = Some r
      else changed id t
  | _ => False
  end.
Proof using Hlaws Hseals.
  intros H0 S1 S2 S3. destruct (capture_ok (t_capture t) id index H0) as (revision & Hdec & Hcap). exists revision. split; [done|].
  destruct (capture_chunk _ _ _ _ _) as [[c|]| |]; [|done|done|done]. destruct Hcap as (m & Hm & Em & Hnone & Hcap). split.
  { unfold captured_read. destruct (cr_segment c) as [[sg loc]|].
    - pose proof (read_at_no_panic crc32 cipher (w_segments (t_checked t).1 sg) (w_segments (t_reading t).1 sg) loc) as Hp.
      destruct (segment_read_at _ _ _ _ _); [|done|done]. cbn [obind]. destruct (_ <=? _)%Z; [|done]. cbn [obind]. match goal with |- (if ?b then _ else _) <> _ => by destruct b end.
    - cbn [obind]. match goal with |- (if ?b then _ else _) <> _ => by destruct b end. }
  destruct (is_current c (t_recheck t).1) eqn:Hcur; unfold is_current in Hcur; unfold captured_read; destruct (cr_segment c) as [[sg loc]|].
  - destruct Hcap as (-> & Hdoc & Hloc & text & Hread & Hof). rewrite Hdoc in Hcur.
    assert (Hch : ~ changed id t).
    { apply andb_true_iff in Hcur as [[Hs%bool_decide_eq_true Ha%Nat.eqb_eq]%andb_true_iff Hsg]. destruct (ds_text _); [|done]. apply Nat.eqb_eq in Hsg.
      destruct Hs as [d Hs]. unfold changed. rewrite Hs. intros [?|[?|?]]; [done|by rewrite Ha in *|by rewrite Hsg in *]. }
    rewrite (held_read t id m loc H0 S1 S2 S3 Hm Hloc Hch), Hread. cbn [obind]. pose proof (chunk_of_spans _ _ _ _ _ (wo_spans _ _ _ H0) Hof) as Hsp.
    cbn [with_text dc_text dc_start_byte dc_end_byte] in Hsp. rewrite (proj2 (Z.leb_le _ _)) by lia. cbn [obind with_text dc_text dc_start_byte dc_end_byte].
    rewrite (proj2 (Z.leb_le (dc_start_byte _) _)), (proj2 (Z.eqb_eq _ _)) by lia. eauto.
  - destruct Hcap as [_ Hof]. cbn [obind]. rewrite Hnone. eauto.
  - destruct Hcap as (-> & Hdoc & _). rewrite Hdoc in Hcur. unfold changed. destruct (ds_documents (w_store (t_recheck t).1) !! id) as [d|] eqn:Hd; [|by left]. right.
    rewrite bool_decide_eq_true_2 in Hcur by eauto. destruct (Nat.eqb_spec (w_arcs (t_capture t).1 id) (w_arcs (t_recheck t).1 id)) as [Ha|Ha]; [|left; congruence]. right.
    pose proof (steps_ok _ _ _ Hlaws Hseals _ _ (steps_ok _ _ _ Hlaws Hseals _ _ (steps_ok _ _ _ Hlaws Hseals _ _ H0 S1) S2) S3) as H3.
    destruct (held_texts _ H3) as (s & T & g & Es & _). rewrite Es in Hcur. cbn [set_text ds_text] in Hcur. cbn [andb] in Hcur. apply Nat.eqb_neq in Hcur. congruence.
  - destruct Hcap as [Hdoc _]. by rewrite Hdoc in Hcur.
Qed.

Lemma attempts_ok id index ts x :
  world_ok crc32 cipher x -> schedule x ts ->
  match attempts crc32 cipher from_slice is_object id index (map round_of ts) with
  | Ok (Some r) => exists t revision, t ∈ ts /\ decimal (w_revision (t_capture t).1) = Ok revision /\ chunk_of (h_ref (t_capture t).2) id index revision = Some r
  | Ok None => exists t revision, t ∈ ts /\ decimal (w_revision (t_capture t).1) = Ok revision /\ chunk_of (h_ref (t_capture t).2) id index revision = None
  | Err e => e = CHANGED /\ Forall (changed id) ts
  | Panic => False
  end.
Proof using Hlaws Hseals.
  revert x. induction ts as [|t ts IH]; intros x Hx Hsch; [done|]. destruct Hsch as (S0 & S1 & S2 & S3 & Hrest). cbn [map attempts].
  change (r_capture (round_of t)) with (t_capture t).1. change (r_checked (round_of t)) with (t_checked t).1.
  change (r_reading (round_of t)) with (t_reading t).1. change (r_recheck (round_of t)) with (t_recheck t).1.
  pose proof (steps_ok _ _ _ Hlaws Hseals _ _ Hx S0) as H0. destruct (round_ok t id index H0 S1 S2 S3) as (revision & Hdec & Hround).
  pose proof (steps_ok _ _ _ Hlaws Hseals _ _ (steps_ok _ _ _ Hlaws Hseals _ _ (steps_ok _ _ _ Hlaws Hseals _ _ H0 S1) S2) S3) as H3. specialize (IH _ H3 Hrest).
  destruct (capture_chunk _ _ _ _ _) as [[c|]| |]; cbn [obind]; [|exists t, revision; split; [left|done]|done|done]. destruct Hround as [Hnp Hround].
  destruct (is_current c (t_recheck t).1).
  - destruct Hround as (r & -> & Hr). cbn [obind]. exists t, revision. split; [left|done].
  - assert (Hlift : match attempts crc32 cipher from_slice is_object id index (map round_of ts) with
      | Ok (Some r) => exists t0 revision, t0 ∈ t :: ts /\ decimal (w_revision (t_capture t0).1) = Ok revision /\ chunk_of (h_ref (t_capture t0).2) id index revision = Some r
      | Ok None => exists t0 revision, t0 ∈ t :: ts /\ decimal (w_revision (t_capture t0).1) = Ok revision /\ chunk_of (h_ref (t_capture t0).2) id index revision = None
      | Err e => e = CHANGED /\ Forall (changed id) (t :: ts)
      | Panic => False end).
    { destruct (attempts _ _ _ _ _ _ _) as [[r|]|e|]; [|..|done]; [destruct IH as (t0 & rv & Hin & H); exists t0, rv; split; [by right|done]..|]. destruct IH as [-> Hf]. split; [done|by constructor]. }
    destruct (captured_read _ _ _ _ _); [exact Hlift|exact Hlift|done].
Qed.

(** C14: reads outside the locks are consistent.  Whatever batches, deletions, deferred encodings and
    canonical rebuilds run between the moments of a read (and between its scrub check and the read
    of its bytes), reading a chunk never panics and fails only when, in each of its three attempts,
    the document was replaced or deleted or the segment rebuilt before the recheck; otherwise it
    returns the chunk the store held at a capture, its text included, or nothing when there was
    none. *)
Theorem chunk_read_consistent (x : state) (a b c : Timed) (id : list Z) (index : nat) :
  world_ok crc32 cipher x -> schedule x [a; b; c] -> id_allowed id = true ->
  match read_document_chunk crc32 cipher from_slice is_object id index (round_of a) (round_of b) (round_of c) with
  | Ok record => exists t revision, t ∈ [a; b; c] /\ decimal (w_revision (t_capture t).1) = Ok revision /\
      chunk_of (h_ref (t_capture t).2) id index revision = record
  | Err e => e = CHANGED /\ changed id a /\ changed id b /\ changed id c
  | Panic => False
  end.
Proof using Hlaws Hseals.
  intros Hx Hs Hid. unfold read_document_chunk. rewrite Hid. pose proof (attempts_ok id index [a; b; c] x Hx Hs) as H. cbn [map] in H.
  destruct (attempts _ _ _ _ _ _ _) as [[r|]|e|]; [done|done| |done]. destruct H as [-> Hf]. split; [done|]. inversion Hf as [|? ? H1 Hf1]; subst. inversion Hf1 as [|? ? H2 Hf2]; subst.
  inversion Hf2; subst. done.
Qed.
End Reads.

(** ** A read across a replacement *)

Section Toy.
Abbreviation toy_state := (World (V := toy_json) * Ghost (V := toy_json))%type.
#[local] Abbreviation toy_cipher := (Some toy_aead).
#[local] Abbreviation toy_crc := (fun _ : list Z => 0%Z).

Definition toy_start : toy_state :=
  ({| w_store := set_text (empty_at 5) (Some (segment_create toy_cipher)); w_arcs := fun _ => 0; w_segment := 0;
      w_segments := fun _ => segment_create toy_cipher; w_next := 1; w_revision := 7 |},
   {| h_ref := ∅; h_gen := 5; h_len := HEADER_LEN |}).

(** A batch that gives every document a new allocation. *)
Definition toy_insert (x : toy_state) (ds : list (StoredDocument toy_json)) : toy_state :=
  let o := TInsert (toy_nonce 7) ds in
  let s := match text_step 4 toy_crc toy_cipher (w_store x.1) o with Ok s => s | _ => w_store x.1 end in
  let T := default (segment_create toy_cipher) (ds_text s) in
  ({| w_store := s; w_arcs := fun _ => w_next x.1; w_segment := w_segment x.1;
      w_segments := fun n => if Nat.eqb n (w_segment x.1) then T else w_segments x.1 n; w_next := S (w_next x.1); w_revision := 8 |},
   {| h_ref := text_ref toy_crc toy_cipher (h_ref x.2) o; h_gen := h_gen x.2 + text_bill (h_ref x.2) o; h_len := text_length (h_ref x.2) (h_len x.2) o |}).

Definition spanned (t : list Z) : StoredDocument toy_json :=
  let c := toy_text cats 3 t in
  toy_sdoc [2]%Z [{| c_id := c_id c; c_text := c_text c; c_text_at := c_text_at c; c_start_byte := 0; c_end_byte := Z.of_nat (length t);
    c_vector := c_vector c; c_embedding := c_embedding c; c_terms := c_terms c; c_word_count := c_word_count c; c_stemmed := c_stemmed c; c_vector_state := c_vector_state c |}].

Definition hot : list Z := [104; 111; 116]%Z.
Definition cat : list Z := [99; 97; 116]%Z.
Definition toy_before : toy_state := toy_insert toy_start [spanned hot].
Definition toy_after : toy_state := toy_insert toy_before [spanned cat].

Lemma toy_start_ok : world_ok toy_crc toy_cipher toy_start.
Proof.
  split; try done; cbn [toy_start fst snd w_store w_segment w_segments h_ref h_gen h_len w_arcs w_next w_revision].
  - exists (empty_at 5), (segment_create toy_cipher). split; [done|]. split; [done|].
    split; [apply empty_at_ok|apply map_Forall_empty|exists []; apply created_texts, toy_aead_lawful| |done|done].
    intros i. rewrite lookup_fmap. change (ds_documents (empty_at 5)) with (∅ : gmap (list Z) (StoredDocument toy_json)). rewrite !lookup_empty. constructor.
  - lia.
Qed.

Lemma spanned_fits t : chunk_fits (default (toy_text cats 3 t) (head (doc_chunks (spanned t)))).
Proof. pose proof (toy_text_fits cats 3 t ltac:(by left) ltac:(vm_compute; split; congruence)) as [[H1 H2 H3] H4]. split; [split|]; done. Qed.

Lemma toy_insert_step (x : toy_state) (t : list Z) :
  (h_gen x.2 + text_bill (h_ref x.2) (TInsert (toy_nonce 7) [spanned t]) < U64)%Z -> (text_length (h_ref x.2) (h_len x.2) (TInsert (toy_nonce 7) [spanned t]) < U64)%Z ->
  within (fun w => docs_total w (h_ref x.2) + list_sum w [spanned t])%Z -> utf8_valid t = true -> (Z.of_nat (length t) < 100)%Z ->
  (exists s T, text_step 4 toy_crc toy_cipher (w_store x.1) (TInsert (toy_nonce 7) [spanned t]) = Ok s /\ ds_text s = Some T) -> w_segment x.1 < w_next x.1 ->
  world_step 4 toy_crc toy_cipher x (toy_insert x [spanned t]).
Proof.
  intros Hg Hl Hw Hu Hlen (s & T & Hs & HT) Hseg. unfold toy_insert. destruct x as [w h]. cbn [fst snd] in *. rewrite Hs, HT. cbn [default]. apply writer_step; try done; try lia.
  - split; [done|]. split; [done|]. split; [done|]. split; [|split; [|done]]; (constructor; [|constructor]).
    + constructor; [|constructor]. exact (spanned_fits t).
    + constructor; [|constructor]. split; [done|]. split; [|done]. unfold record_bytes. cbn. unfold U32. lia.
  - constructor; [|constructor]. constructor; [|constructor]. cbn. unfold MAX_DOCUMENT_BYTES. lia.
Qed.

Lemma toy_steps : world_step 4 toy_crc toy_cipher toy_start toy_before /\ world_step 4 toy_crc toy_cipher toy_before toy_after.
Proof.
  split; apply toy_insert_step; try (vm_compute; reflexivity); try by_decide; try (vm_compute; lia);
    (eexists _, _; split; [vm_compute; reflexivity|vm_compute; reflexivity]).
Qed.

(** Captured before the replacement and read after it, then captured again. *)
Definition toy_crossed : Timed := {| t_capture := toy_before; t_checked := toy_before; t_reading := toy_after; t_recheck := toy_after |}.
Definition toy_settled : Timed := {| t_capture := toy_after; t_checked := toy_after; t_reading := toy_after; t_recheck := toy_after |}.

Lemma chunk_read_consistent_witness :
  schedule 4 toy_crc toy_cipher toy_before [toy_crossed; toy_settled; toy_settled] /\
  exists r, read_document_chunk toy_crc toy_cipher toy_parse (fun _ => true) [2]%Z 0 (round_of toy_crossed) (round_of toy_settled) (round_of toy_settled) = Ok (Some r) /\
    (dc_text r = Some hot \/ dc_text r = Some cat).
Proof.
  assert (Hs : schedule 4 toy_crc toy_cipher toy_before [toy_crossed; toy_settled; toy_settled]).
  { repeat split; try apply rtc_refl. apply rtc_once, toy_steps. }
  split; [exact Hs|].
  assert (Hok : world_ok toy_crc toy_cipher toy_before) by (eapply (step_ok 4 toy_crc toy_cipher toy_aead_lawful toy_seals); [exact toy_start_ok|apply toy_steps]).
  pose proof (chunk_read_consistent 4 toy_crc toy_cipher toy_parse (fun _ => true) toy_aead_lawful toy_seals toy_before toy_crossed toy_settled toy_settled [2]%Z 0 Hok Hs eq_refl) as H.
  destruct (read_document_chunk _ _ _ _ _ _ _ _ _) as [o|e|]; [|exfalso|exfalso; exact H].
  - destruct H as (t & revision & Ht & Hrev & Hof).
    assert (Hd : exists x, (x = hot \/ x = cat) /\ h_ref (t_capture t).2 !! [2]%Z = Some (spanned x)).
    { apply elem_of_cons in Ht as [->|Ht]; [exists hot; split; [by left|vm_compute; reflexivity]|]. exists cat. split; [by right|].
      apply elem_of_cons in Ht as [->|Ht]; [vm_compute; reflexivity|]. apply elem_of_cons in Ht as [->|Ht]; [vm_compute; reflexivity|]. by apply elem_of_nil in Ht. }
    destruct Hd as (x & Hx & Hd). unfold chunk_of in Hof. rewrite Hd in Hof. cbn in Hof. rewrite <- Hof. eexists. split; [reflexivity|]. cbn. destruct Hx as [-> | ->]; auto.
  - destruct H as (_ & _ & Hb & _). destruct Hb as [Hb|[Hb|Hb]]; [vm_compute in Hb; discriminate Hb|apply Hb; reflexivity|apply Hb; reflexivity].
Defined.
End Toy.
