(* ===== verification/Chars.v ===== *)
(** * Characters and words of a text

    [str::chars], [char::is_whitespace] and [char::is_alphanumeric] of the standard library as the
    engine uses them, and [tokens] of [src/core/documents/positions.rs]: the words of a text are
    its maximal runs of alphanumeric characters, lowercased and, for the stemmed form, stemmed.
    The Unicode tables of letters and digits, lowercasing and the Snowball stemmer are parameters
    ([Analyzer]) with what the source relies on about ASCII. *)

From S2P Require Import Prelude Words.

(** ** Characters *)

(** [text.chars().next()] and its length in bytes. *)
Definition next_char (l : list Z) : option (Z * nat) :=
  match l with
  | [] => None
  | a :: r =>
      if (a <? 0x80)%Z then Some (a, 1)
      else match r with
      | [] => None
      | b :: r =>
          let b := Z.land b 0x3F in
          if (a <? 0xE0)%Z then Some (Z.lor (Z.shiftl (Z.land a 0x1F) 6) b, 2)
          else match r with
          | [] => None
          | c :: r =>
              let c := Z.lor (Z.shiftl b 6) (Z.land c 0x3F) in
              if (a <? 0xF0)%Z then Some (Z.lor (Z.shiftl (Z.land a 0x0F) 12) c, 3)
              else match r with
              | [] => None
              | d :: _ => Some (Z.lor (Z.shiftl (Z.land a 0x07) 18) (Z.lor (Z.shiftl c 6) (Z.land d 0x3F)), 4)
              end
          end
      end
  end.

(** [str::chars], each character with its bytes. *)
Fixpoint char_list (fuel : nat) (l : list Z) : list (list Z * Z) :=
  match fuel, next_char l with
  | S fuel, Some (c, n) => (take n l, c) :: char_list fuel (drop n l)
  | _, _ => []
  end.

Definition chars (l : list Z) : list (list Z * Z) := char_list (length l) l.

(** The bytes of one character. *)
Record is_char (a : list Z) (c : Z) : Prop := {
  ch_next : forall r, next_char (a ++ r) = Some (c, length a);
  ch_valid : utf8_valid a = true;
  ch_ascii : (a = [c] /\ (0 <= c < 0x80)%Z) \/ (2 <= length a /\ Forall (fun b => (0x80 <= b < 0x100)%Z) a);
  ch_bound : exists h t, a = h :: t /\ cont h = false /\ Forall (fun b => cont b = true) t }.

Lemma is_char_pos a c : is_char a c -> 0 < length a.
Proof. intros [_ _ _ (h & t & -> & _)]. simpl. lia. Qed.

Lemma cont_false b : (b < 0x80 \/ 0xBF < b)%Z -> cont b = false.
Proof. intros [H|H]; unfold cont; [rewrite (proj2 (Z.leb_gt _ _)) by lia; done|]. rewrite (proj2 (Z.leb_gt b _)) by lia. apply andb_false_r. Qed.

Lemma within_spec lo hi b : within lo hi b = true <-> (lo <= b <= hi)%Z.
Proof. unfold within. rewrite andb_true_iff, !Z.leb_le. lia. Qed.

Lemma cont_spec b : cont b = true <-> (0x80 <= b <= 0xBF)%Z.
Proof. apply within_spec. Qed.

(** The three widths of a character outside ASCII. *)
Lemma is_char_wide a (t : list Z) c :
  (0xC0 <= a < 0x100)%Z -> Forall (fun b => cont b = true) t -> t <> [] -> utf8_valid (a :: t) = true ->
  (forall r, next_char (a :: t ++ r) = Some (c, S (length t))) -> is_char (a :: t) c.
Proof.
  intros Ha Ht Hn Hv Hc. split; [exact Hc|done| |].
  - right. split; [destruct t; [done|simpl; lia]|]. constructor; [lia|]. eapply Forall_impl; [exact Ht|]. intros b Hb%cont_spec. lia.
  - exists a, t. split; [done|]. split; [apply cont_false; lia|done].
Qed.

(** A valid text is empty or a character and a valid text. *)
Lemma utf8_uncons l : utf8_valid l = true -> l = [] \/ exists a c r, l = a ++ r /\ is_char a c /\ utf8_valid r = true.
Proof.
  destruct l as [|a l]; [by left|]. intros H. right. cbn [utf8_valid] in H. destruct (within 0 0x7F a) eqn:E1.
  { exists [a], a, l. split; [done|]. split; [|done]. pose proof (proj1 (within_spec _ _ _) E1). split.
    - intros r. cbn. by rewrite (proj2 (Z.ltb_lt _ _)) by lia.
    - cbn [utf8_valid]. by rewrite E1.
    - left. split; [done|lia].
    - exists a, []. split; [done|]. split; [apply cont_false; lia|constructor]. }
  destruct l as [|b l]; [done|]. destruct (within 0xC2 0xDF a) eqn:E2.
  { pose proof (proj1 (within_spec _ _ _) E2). apply andb_true_iff in H as [Hb H]. exists [a; b]. eexists _, l. split; [done|]. split; [|exact H].
    apply is_char_wide; [lia|by repeat constructor|done|cbn [utf8_valid]; by rewrite E1, E2, Hb|].
    intros r. cbn. rewrite (proj2 (Z.ltb_ge _ _)), (proj2 (Z.ltb_lt _ _)) by lia. reflexivity. }
  destruct l as [|c l]; [done|]. match type of H with (if ?x then _ else _) = true => destruct x eqn:E3 end.
  { apply andb_true_iff in H as [Hc H]. exists [a; b; c]. eexists _, l. split; [done|]. split; [|exact H].
    assert ((0xE0 <= a <= 0xEF)%Z /\ cont b = true) as [Ha Hb].
    { rewrite !orb_true_iff, !andb_true_iff, !within_spec, !cont_spec in E3. rewrite cont_spec. lia. }
    apply is_char_wide; [lia|by repeat constructor|done|cbn [utf8_valid]; by rewrite E1, E2, E3, Hc|].
    intros r. cbn. rewrite (proj2 (Z.ltb_ge _ 0x80)), (proj2 (Z.ltb_ge _ 0xE0)), (proj2 (Z.ltb_lt _ _)) by lia. reflexivity. }
  destruct l as [|d l]; [done|]. rewrite !andb_true_iff in H. destruct H as [[[E4 Hc] Hd] H].
  exists [a; b; c; d]. eexists _, l. split; [done|]. split; [|exact H].
  assert ((0xF0 <= a <= 0xF4)%Z /\ cont b = true) as [Ha Hb].
  { rewrite !orb_true_iff, !andb_true_iff, !within_spec, !cont_spec in E4. rewrite cont_spec. lia. }
  apply is_char_wide; [lia|by repeat constructor|done|cbn [utf8_valid]; by rewrite E1, E2, E3, E4, Hc, Hd|].
  intros r. cbn. rewrite (proj2 (Z.ltb_ge _ 0x80)), (proj2 (Z.ltb_ge _ 0xE0)), (proj2 (Z.ltb_ge _ 0xF0)) by lia. reflexivity.
Qed.

Lemma utf8_rest a c r : is_char a c -> utf8_valid (a ++ r) = true -> utf8_valid r = true.
Proof.
  intros Ha Hv. destruct (utf8_uncons _ Hv) as [E|(a' & c' & r' & E & Ha' & Hr')]; [by destruct (is_char_pos a c Ha), a|].
  assert (r = r') as ->; [|done]. pose proof (ch_next a c Ha r) as N. rewrite E, (ch_next a' c' Ha') in N. injection N as _ N. by apply app_inj_1 in E as [_ ?].
Qed.

(** Induction over the characters of a valid text. *)
Lemma utf8_ind (P : list Z -> Prop) :
  P [] -> (forall a c r, is_char a c -> utf8_valid r = true -> P r -> P (a ++ r)) -> forall l, utf8_valid l = true -> P l.
Proof.
  intros H0 Hs l. remember (length l) as n eqn:Hn. revert l Hn. induction n as [n IH] using lt_wf_ind. intros l Hn Hv.
  destruct (utf8_uncons l Hv) as [->|(a & c & r & -> & Ha & Hr)]; [done|]. apply (Hs a c); [done|done|]. pose proof (is_char_pos a c Ha).
  eapply IH; [|reflexivity|done]. rewrite Hn, length_app. lia.
Qed.

Lemma chars_fuel a c r fuel : is_char a c -> length (a ++ r) <= fuel -> char_list fuel (a ++ r) = (a, c) :: char_list (fuel - 1) r.
Proof.
  intros Ha Hf. pose proof (is_char_pos a c Ha). rewrite length_app in Hf. destruct fuel as [|fuel]; [lia|]. cbn [char_list]. rewrite (ch_next a c Ha).
  by rewrite take_app_length, drop_app_length, Nat.sub_1_r.
Qed.

Lemma char_list_enough l : utf8_valid l = true -> forall f g, length l <= f -> length l <= g -> char_list f l = char_list g l.
Proof.
  intros Hl. pattern l. revert l Hl. apply utf8_ind; [by intros [] []|]. intros a c r Ha Hr IH f g Hf Hg. pose proof (is_char_pos a c Ha).
  rewrite !(chars_fuel a c r) by done. f_equal. rewrite length_app in *. apply IH; lia.
Qed.

Lemma chars_cons a c r : is_char a c -> utf8_valid r = true -> chars (a ++ r) = (a, c) :: chars r.
Proof.
  intros Ha Hr. unfold chars. rewrite (chars_fuel a c r) by done. f_equal. pose proof (is_char_pos a c Ha). apply char_list_enough; [done| |done]. rewrite length_app. lia.
Qed.

Lemma utf8_bytes l : utf8_valid l = true -> bytes_ok l.
Proof.
  intros Hl. pattern l. revert l Hl. apply utf8_ind; [constructor|]. intros a c r Ha _ IH. apply Forall_app. split; [|done].
  destruct (ch_ascii a c Ha) as [[-> Hc]|[_ Hb]]; [constructor; [|constructor]; unfold is_u8; lia|]. eapply Forall_impl; [exact Hb|]. unfold is_u8. intros b ?. lia.
Qed.

(** Characters start at boundaries. *)
Lemma boundary_char pre a c r : is_char a c -> is_char_boundary (pre ++ a ++ r) (length pre) = true.
Proof.
  intros [_ _ _ (h & t & -> & Hh & _)]. unfold is_char_boundary. destruct (Nat.eqb_spec (length pre) 0); [done|]. cbn [app]. rewrite list_lookup_middle by done. by rewrite Hh.
Qed.

Lemma chars_are text : utf8_valid text = true -> Forall (fun x => is_char x.1 x.2) (chars text).
Proof.
  intros Hv. pattern text. revert text Hv. apply utf8_ind; [constructor|]. intros a c r Ha Hr IH. rewrite (chars_cons a c) by done. by constructor.
Qed.

Lemma chars_valid cs : Forall (fun x => is_char x.1 x.2) cs -> utf8_valid (concat (map fst cs)) = true.
Proof. induction 1 as [|x cs Hx _ IH]; [done|]. cbn [map concat]. apply utf8_valid_app; [by eapply ch_valid|done]. Qed.

(** ** Classes of characters *)

(** [u8::is_ascii_alphanumeric] and [u8::make_ascii_lowercase]. *)
Definition is_ascii_alphanumeric (b : Z) : bool := within 48 57 b || within 65 90 b || within 97 122 b.
Definition to_ascii_lowercase (b : Z) : Z := if within 65 90 b then Z.lor b 0x20 else b.
Definition is_ascii (text : list Z) : bool := forallb (fun b => (b <? 0x80)%Z) text.

(** [char::is_whitespace]: Unicode White_Space. *)
Definition is_whitespace (c : Z) : bool :=
  within 9 13 c || (c =? 32)%Z || (c =? 0x85)%Z || (c =? 0xA0)%Z || (c =? 0x1680)%Z || within 0x2000 0x200A c
  || (c =? 0x2028)%Z || (c =? 0x2029)%Z || (c =? 0x202F)%Z || (c =? 0x205F)%Z || (c =? 0x3000)%Z.

(** [char::is_alphanumeric], [str::to_lowercase] and [Stemmer::stem]. *)
Class Analyzer := { is_alphanumeric : Z -> bool; to_lowercase : list Z -> list Z; stem_word : list Z -> list Z }.

Class AnalyzerLaws {A : Analyzer} : Prop := {
  alphanumeric_ascii : forall c, (0 <= c < 0x80)%Z -> is_alphanumeric c = is_ascii_alphanumeric c;
  lowercase_ascii : forall word, Forall (fun b => (0 <= b < 0x80)%Z) word -> to_lowercase word = map to_ascii_lowercase word;
  lowercase_valid : forall word, utf8_valid word = true -> utf8_valid (to_lowercase word) = true;
  stem_valid : forall word, utf8_valid word = true -> utf8_valid (stem_word word) = true }.
Arguments AnalyzerLaws : clear implicits.

(** ** Lines *)

Fixpoint until_newline (text : list Z) : list Z * bool :=
  match text with
  | [] => ([], false)
  | b :: r => if (b =? 10)%Z then ([], true) else let '(line, found) := until_newline r in (b :: line, found)
  end.

(** [text.lines().next().unwrap_or_default()]: up to ["\n"], without a ["\r"] before it. *)
Definition first_line (text : list Z) : list Z :=
  let '(line, found) := until_newline text in
  if found && bool_decide (last line = Some 13%Z) then take (length line - 1) line else line.

(** An ASCII byte is a character of its own. *)
Lemma utf8_split_ascii p b r : (0 <= b < 0x80)%Z -> utf8_valid (p ++ b :: r) = true -> utf8_valid p = true /\ utf8_valid r = true.
Proof.
  intros Hb. remember (length p) as n eqn:Hn. revert p Hn. induction n as [n IH] using lt_wf_ind. intros p Hn Hv.
  destruct (utf8_uncons _ Hv) as [E|(a & c & r' & E & Ha & Hr')]; [by destruct p|]. pose proof (is_char_pos a c Ha).
  destruct p as [|x p].
  { destruct (ch_ascii a c Ha) as [[-> _]|[Hl Hw]]; [by injection E as -> ->|]. destruct a as [|y a]; [simpl in *; lia|]. injection E as -> _. apply Forall_cons in Hw as [Hw _]. lia. }
  assert (Hle : length a <= length (x :: p)).
  { destruct (decide (length a <= length (x :: p))) as [|Hgt]; [done|]. exfalso. destruct (ch_ascii a c Ha) as [[-> _]|[Hl Hw]]; [simpl in *; lia|].
    assert (Hin : a !! length (x :: p) = Some b).
    { rewrite <- (lookup_app_l a r') by lia. rewrite <- E. by rewrite lookup_app_r, Nat.sub_diag by lia. }
    rewrite Forall_lookup in Hw. specialize (Hw _ _ Hin). lia. }
  assert (exists p', x :: p = a ++ p' /\ p' ++ b :: r = r') as (p' & Ep & Er).
  { exists (drop (length a) (x :: p)). pose proof (f_equal (take (length a)) E) as E1. pose proof (f_equal (drop (length a)) E) as E2.
    rewrite take_app_le, take_app_length in E1 by done. rewrite drop_app_le, drop_app_length in E2 by done. split; [|done]. rewrite <- E1 at 1. by rewrite take_drop. }
  destruct (IH (length p')) with (p := p') as [H1 H2]; [rewrite Hn, Ep, length_app; lia|done|by rewrite Er|].
  split; [|done]. rewrite Ep. apply utf8_valid_app; [by eapply ch_valid|done].
Qed.

Lemma until_newline_spec text :
  match until_newline text with (line, true) => exists r, text = line ++ 10%Z :: r | (line, false) => text = line end.
Proof.
  induction text as [|b text IH]; [done|]. cbn [until_newline]. destruct (Z.eqb_spec b 10) as [->|]; [by exists text|].
  destruct (until_newline text) as [line []]; [destruct IH as [r ->]; by exists r|by rewrite IH].
Qed.

(** A first line is the text, or ends where an ASCII separator follows. *)
Lemma first_line_split text :
  utf8_valid text = true ->
  first_line text = text \/ exists b r, (b = 10 \/ b = 13)%Z /\ text = first_line text ++ b :: r /\ utf8_valid (first_line text) = true /\ utf8_valid r = true.
Proof.
  intros Hv. pose proof (until_newline_spec text) as H. unfold first_line. destruct (until_newline text) as [line []]; [right|by left]. destruct H as [r ->].
  cbn [andb]. case_bool_decide as Hl.
  - apply last_Some in Hl as [l ->]. rewrite length_app, take_app_le by (simpl; lia). rewrite take_ge by (simpl; lia). rewrite <- app_assoc in *.
    destruct (utf8_split_ascii l 13 (10%Z :: r)) as [H1 H2]; [lia|done|]. exists 13%Z, (10%Z :: r). auto.
  - destruct (utf8_split_ascii line 10 r) as [H1 H2]; [lia|done|]. exists 10%Z, r. auto.
Qed.

(** ** Words *)

Section Words.
Context `{A : Analyzer}.

(** [str::split], dropping empty pieces. *)
Fixpoint split_loop (cs : list (list Z * Z)) (piece : list Z) : list (list Z) :=
  match cs with
  | [] => [piece]
  | (a, c) :: cs => if is_alphanumeric c then split_loop cs (piece ++ a) else piece :: split_loop cs []
  end.

Definition split_words (text : list Z) : list (list Z) := filter (fun w => w <> []) (split_loop (chars text) []).

(** [tokens] of positions.rs. *)
Definition token (stem : bool) (word : list Z) : list Z :=
  let lower := to_lowercase word in if stem then stem_word lower else lower.
Definition tokens (text : list Z) (stem : bool) : list (list Z) := map (token stem) (split_words text).

(** Runs of alphanumeric characters, and texts that do not start with one. *)
Inductive run : list Z -> Prop :=
| run_nil : run []
| run_cons a c w : is_char a c -> is_alphanumeric c = true -> run w -> run (a ++ w).

Definition ends_word (r : list Z) : Prop := r = [] \/ exists a c r', r = a ++ r' /\ is_char a c /\ is_alphanumeric c = false.

Lemma run_valid w : run w -> utf8_valid w = true.
Proof. induction 1; [done|]. apply utf8_valid_app; [by eapply ch_valid|done]. Qed.

Lemma split_run w r piece : run w -> utf8_valid r = true -> split_loop (chars (w ++ r)) piece = split_loop (chars r) (piece ++ w).
Proof.
  intros Hw Hr. revert piece. induction Hw as [|a c w Ha Hc Hw IH]; intros piece; [by rewrite app_nil_r|].
  rewrite <- app_assoc, (chars_cons a c) by first [done | apply utf8_valid_app; [by apply run_valid|done]]. cbn [split_loop]. rewrite Hc, IH. by rewrite app_assoc.
Qed.

(** A separator is skipped and a maximal run is a word. *)
Lemma split_words_skip a c r : is_char a c -> is_alphanumeric c = false -> utf8_valid r = true -> split_words (a ++ r) = split_words r.
Proof. intros Ha Hc Hr. unfold split_words. rewrite (chars_cons a c) by done. cbn [split_loop]. rewrite Hc. by rewrite filter_cons_False by naive_solver. Qed.

Lemma split_words_run w r : run w -> w <> [] -> utf8_valid r = true -> ends_word r -> split_words (w ++ r) = w :: split_words r.
Proof.
  intros Hw Hn Hr [->|(a & c & r' & -> & Ha & Hc)].
  - unfold split_words. rewrite split_run by done. change (split_loop (chars []) ([] ++ w)) with [w]. change (split_loop (chars []) []) with [[] : list Z].
    by rewrite filter_cons_True, filter_cons_False by naive_solver.
  - assert (Hr' : utf8_valid r' = true) by by eapply utf8_rest.
    unfold split_words. rewrite split_run by done. rewrite (chars_cons a c) by done. cbn [split_loop app]. rewrite Hc. cbn [split_loop].
    rewrite filter_cons_True by done. by f_equal.
Qed.

(** Words on both sides of a separator. *)
Lemma split_words_app l a c r :
  is_char a c -> is_alphanumeric c = false -> utf8_valid l = true -> utf8_valid r = true -> split_words (l ++ a ++ r) = split_words l ++ split_words r.
Proof.
  intros Ha Hc Hl Hr. unfold split_words. rewrite <- filter_app. f_equal. generalize ([] : list Z) at 1 2. pattern l. revert l Hl. apply utf8_ind.
  - intros piece. rewrite app_nil_l, (chars_cons a c) by done. cbn [split_loop]. by rewrite Hc.
  - intros a' c' l Ha' Hl IH piece. rewrite <- app_assoc, (chars_cons a' c'), (chars_cons a' c' l) by first [done | apply utf8_valid_app; [done|apply utf8_valid_app; [by eapply ch_valid|done]]].
    cbn [split_loop]. destruct (is_alphanumeric c'); [apply IH|]. by rewrite IH.
Qed.

(** A valid text starts with a separator, is empty or starts with a word. *)
Lemma word_first r : utf8_valid r = true -> exists w r', r = w ++ r' /\ run w /\ utf8_valid r' = true /\ ends_word r'.
Proof.
  intros Hr. pattern r. revert r Hr. apply utf8_ind.
  - exists [], []. split; [done|]. split; [constructor|]. split; [done|by left].
  - intros a c r Ha Hr (w & r' & -> & Hw & Hr' & He). destruct (is_alphanumeric c) eqn:Hc.
    + exists (a ++ w), r'. split; [by rewrite app_assoc|]. split; [by econstructor|done].
    + exists [], (a ++ w ++ r'). split; [done|]. split; [constructor|]. split; [by apply utf8_valid_app; [by eapply ch_valid|]|]. right. by exists a, c, (w ++ r').
Qed.

(** Induction over separators and words. *)
Lemma words_ind (P : list Z -> Prop) :
  P [] -> (forall a c r, is_char a c -> is_alphanumeric c = false -> utf8_valid r = true -> P r -> P (a ++ r)) ->
  (forall w r, run w -> w <> [] -> utf8_valid r = true -> ends_word r -> P r -> P (w ++ r)) -> forall l, utf8_valid l = true -> P l.
Proof.
  intros H0 Hs Hw l. remember (length l) as n eqn:Hn. revert l Hn. induction n as [n IH] using lt_wf_ind. intros l Hn Hv.
  destruct (word_first l Hv) as (w & r & -> & Hr & Hv' & He). rewrite length_app in Hn. destruct w as [|b w].
  - destruct He as [->|(a & c & r' & -> & Ha & Hc)]; [done|]. pose proof (is_char_pos a c Ha). cbn [app] in *. rewrite length_app in Hn.
    assert (Hr' : utf8_valid r' = true) by by eapply utf8_rest.
    apply (Hs a c); [done|done|done|]. eapply IH; [|reflexivity|done]. cbn [length] in Hn. lia.
  - apply Hw; [done|done|done|done|]. eapply IH; [|reflexivity|done]. cbn [length] in Hn. lia.
Qed.

Lemma split_words_runs text : utf8_valid text = true -> Forall (fun w => run w /\ w <> []) (split_words text).
Proof.
  intros Hv. pattern text. revert text Hv. apply words_ind; [constructor| |].
  - intros a c r Ha Hc Hr IH. by rewrite (split_words_skip a c).
  - intros w r Hw Hn Hr He IH. rewrite split_words_run by done. by constructor.
Qed.

Lemma split_words_length text : utf8_valid text = true -> length (split_words text) <= length text.
Proof.
  intros Hv. pattern text. revert text Hv. apply words_ind; [simpl; lia| |].
  - intros a c r Ha Hc Hr IH. rewrite (split_words_skip a c), length_app by done. lia.
  - intros w r Hw Hn Hr He IH. rewrite split_words_run, length_app by done. cbn [length]. destruct w; [done|]. cbn [length]. lia.
Qed.
End Words.
