(* ===== verification/Interner.v ===== *)
(** * Counting the terms of a chunk

    The word interner of [src/core/documents.rs]: words map to term ids through a cache that is
    kept across chunks, counts accumulate in an array by term id, and a chunk's term table and word
    positions are read off it.  Every chunk gets exactly the table of the reference analysis
    ([terms] and [Positions::from_text]), whatever the interner has seen before. *)

From S2P Require Import Prelude Words BitPack Search Positions Terms FrameDict Chars.

(** ** The word cache *)

Definition STEM_MEMO_CAPACITY : Z := Z.shiftl 1 18.

Record WordMap := mkWordMap { wm_short : gmap Z nat; wm_long : gmap (list Z) nat }.

(** [u128::from_le_bytes] of the word padded with zeros. *)
Definition short_key (word : list Z) : option Z :=
  if length word <=? 16 then Some (from_le_bytes (word ++ replicate (16 - length word) 0%Z)) else None.

Definition wm_get (m : WordMap) (word : list Z) : option nat :=
  match short_key word with Some key => wm_short m !! key | None => wm_long m !! word end.

Definition wm_insert (m : WordMap) (word : list Z) (id : nat) : WordMap :=
  match short_key word with
  | Some key => {| wm_short := <[key := id]> (wm_short m); wm_long := wm_long m |}
  | None => {| wm_short := wm_short m; wm_long := <[word := id]> (wm_long m) |}
  end.

Definition wm_len (m : WordMap) : Z := Z.of_nat (size (wm_short m) + size (wm_long m)).

(** ** The interner *)

(** The buffer [lower] is cleared before each use and left out. *)
Record Interner := mkInterner {
  in_words : WordMap; in_ids : gmap (list Z) nat; in_terms : list (list Z); in_keys : list Z;
  in_counts : list Z; in_counted : list nat; in_sequence : list nat; in_record : bool; in_unstemmed : bool }.

(** [Interner { unstemmed, ..default() }]. *)
Definition interner_new (unstemmed : bool) : Interner :=
  mkInterner {| wm_short := ∅; wm_long := ∅ |} ∅ [] [] [] [] [] false unstemmed.

Definition with_words (i : Interner) (words : WordMap) : Interner :=
  mkInterner words (in_ids i) (in_terms i) (in_keys i) (in_counts i) (in_counted i) (in_sequence i) (in_record i) (in_unstemmed i).
Definition with_counts (i : Interner) (counts : list Z) (counted : list nat) : Interner :=
  mkInterner (in_words i) (in_ids i) (in_terms i) (in_keys i) counts counted (in_sequence i) (in_record i) (in_unstemmed i).
Definition with_sequence (i : Interner) (sequence : list nat) (record : bool) : Interner :=
  mkInterner (in_words i) (in_ids i) (in_terms i) (in_keys i) (in_counts i) (in_counted i) sequence record (in_unstemmed i).

(** [u64::from_be_bytes] of the first eight bytes, padded with zeros. *)
Definition prefix_key (term : list Z) : Z :=
  from_le_bytes (rev (take 8 term ++ replicate (8 - length (take 8 term)) 0%Z)).

(** A term not seen before. *)
Definition new_term (i : Interner) (term : list Z) : outcome (Interner * nat) :=
  let id := length (in_terms i) in
  if (Z.of_nat id <? U32)%Z then
    Ok (mkInterner (in_words i) (<[term := id]> (in_ids i)) (in_terms i ++ [term]) (in_keys i ++ [prefix_key term])
          (in_counts i ++ [0%Z]) (in_counted i) (in_sequence i) (in_record i) (in_unstemmed i), id)
  else Panic.

Section Interner.
Context `{A : Analyzer}.

Definition term_id (i : Interner) (word : list Z) (ascii : bool) : outcome (Interner * nat) :=
  match wm_get (in_words i) word with
  | Some id => Ok (i, id)
  | None =>
      let lower := if ascii then map to_ascii_lowercase word else to_lowercase word in
      let term := if in_unstemmed i then lower else stem_word lower in
      let* (i, id) := match in_ids i !! term with Some id => Ok (i, id) | None => new_term i term end in
      Ok (with_words i (wm_insert (in_words i) word id), id)
  end.

(** [text[at..].chars().next().expect("char boundary")]. *)
Definition char_at (text : list Z) (at_ : nat) : outcome (Z * nat) :=
  if is_char_boundary text at_ then expect (next_char (drop at_ text)) else Panic.

(** Whether the character at [at_] is alphanumeric, its length, and whether it is ASCII. *)
Definition classify (text : list Z) (at_ : nat) : outcome (bool * nat * bool) :=
  let* b := expect (text !! at_) in
  if (b <? 0x80)%Z then Ok (is_ascii_alphanumeric b, 1, true)
  else let* (c, n) := char_at text at_ in Ok (is_alphanumeric c, n, false).

(** The end of the word at [at_]. *)
Fixpoint word_end (fuel : nat) (text : list Z) (at_ : nat) (ascii : bool) : outcome (nat * bool) :=
  if at_ <? length text then
    match fuel with
    | O => Panic
    | S fuel =>
        let* (alphanumeric, n, one) := classify text at_ in
        if alphanumeric then word_end fuel text (at_ + n) (ascii && one) else Ok (at_, ascii)
    end
  else Ok (at_, ascii).

Definition count_word (i : Interner) (id : nat) (weight : Z) : outcome Interner :=
  let i := if in_record i then with_sequence i (in_sequence i ++ [id]) true else i in
  let* count := expect (in_counts i !! id) in
  Ok (with_counts i (<[id := wrap U32 (count + weight)]> (in_counts i))
        (if (count =? 0)%Z then in_counted i ++ [id] else in_counted i)).

Fixpoint count_loop (fuel : nat) (i : Interner) (text : list Z) (weight : Z) (at_ : nat) (counted : Z) : outcome (Interner * Z) :=
  if at_ <? length text then
    match fuel with
    | O => Panic
    | S fuel =>
        let* (alphanumeric, n, _) := classify text at_ in
        if alphanumeric then
          let* (end_, ascii) := word_end (length text) text at_ true in
          let* word := str_slice text at_ end_ in
          let* (i, id) := term_id i word ascii in
          let* i := count_word i id weight in
          count_loop fuel i text weight end_ (counted + weight)
        else count_loop fuel i text weight (at_ + n) counted
    end
  else Ok (i, counted).

Definition count (i : Interner) (text : list Z) (weight : Z) : outcome (Interner * Z) :=
  count_loop (length text) i text weight 0 0.

(** The order of [counted]: by key, then by bytes. *)
Definition term_order (i : Interner) (a b : nat) : Prop :=
  match (default 0 (in_keys i !! a) ?= default 0 (in_keys i !! b))%Z with
  | Lt => True
  | Eq => bcmp (default [] (in_terms i !! a)) (default [] (in_terms i !! b)) <> Gt
  | Gt => False
  end.
#[global] Instance term_order_dec i : RelDecision (term_order i).
Proof. intros a b. unfold term_order. destruct (_ ?= _)%Z; apply _. Defined.

(** [StoredTerms::from_sorted_refs]. *)
Definition from_sorted_refs (count bytes : Z) (entries : list (list Z * Z)) : outcome StoredTerms :=
  if (count =? 0)%Z then Ok terms_default
  else if negb (can_pack count bytes) then from_sorted entries
  else
    let* (text, starts) := dictionary_parts (map fst entries) [] [] in
    Ok {| t_terms := Some (Packed {| k_text := text; k_starts := starts; k_frequencies := map snd entries |}); t_positions := None |}.

(** [counts[id] = rank]. *)
Fixpoint rank_counts (counted : list nat) (rank : Z) (counts : list Z) : outcome (list Z) :=
  match counted with
  | [] => Ok counts
  | id :: rest => let* _ := expect (counts !! id) in rank_counts rest (rank + 1) (<[id := rank]> counts)
  end.

(** [counts[id] = 0]. *)
Fixpoint clear_counts (counted : list nat) (counts : list Z) : outcome (list Z) :=
  match counted with
  | [] => Ok counts
  | id :: rest => let* _ := expect (counts !! id) in clear_counts rest (<[id := 0%Z]> counts)
  end.

Definition entry_of (i : Interner) (id : nat) : outcome (list Z * Z) :=
  let* term := expect (in_terms i !! id) in let* count := expect (in_counts i !! id) in Ok (term, count).

(** The table, the counts and the sequence a chunk ends with. *)
Definition finish (i : Interner) (positions : option bool) : outcome (StoredTerms * list Z * list nat) :=
  let counted := merge_sort (term_order i) (in_counted i) in
  let* entries := omap_list (entry_of i) counted in
  let bytes := foldr (fun e n => (Z.of_nat (length e.1) + n)%Z) 0%Z entries in
  let* table := from_sorted_refs (Z.of_nat (length counted)) bytes entries in
  match positions with
  | None => Ok (table, in_counts i, in_sequence i)
  | Some whole_document =>
      let* counts := rank_counts counted 0 (in_counts i) in
      let* ranks := omap_list (fun id => expect (counts !! id)) (in_sequence i) in
      let* p := from_ranks (map Z.to_nat ranks) (length counted) whole_document in
      Ok ({| t_terms := t_terms table; t_positions := Some p |}, counts, [])
  end.

Definition chunk_terms (i : Interner) (text : list Z) (title_weight : Z) (stem : bool) (positions : option bool)
    : outcome (Interner * (StoredTerms * Z)) :=
  let i := if (STEM_MEMO_CAPACITY <=? wm_len (in_words i))%Z || eqb (in_unstemmed i) stem then interner_new (negb stem) else i in
  let i := with_sequence i [] (match positions with Some _ => true | None => false end) in
  let* (i, words) := count i text 1 in
  let i := with_sequence i (in_sequence i) false in
  let* (i, words) :=
    if (1 <? title_weight)%Z
    then let* (i, more) := count i (first_line text) (title_weight - 1) in Ok (i, (words + more)%Z)
    else Ok (i, words) in
  let counted := merge_sort (term_order i) (in_counted i) in
  let* (table, counts, sequence) := finish i positions in
  let* counts := clear_counts counted counts in
  Ok (with_counts (with_sequence i sequence false) counts [], (table, words)).

(** ** The reference analysis *)

(** [terms]: the words of a text, lowercased and stemmed, counted and sorted. *)
Definition term_of_word (stem : bool) (word : list Z) : list Z :=
  let lower := if is_ascii word then map to_ascii_lowercase word else to_lowercase word in
  if stem then stem_word lower else lower.

Definition count_terms (words : list (list Z)) : gmap (list Z) Z :=
  foldl (fun m t => <[t := match m !! t with Some n => wrap U32 (n + 1) | None => 1%Z end]> m) ∅ words.

Definition terms (text : list Z) (stem : bool) : list (list Z * Z) :=
  merge_sort key_le (map_to_list (count_terms (map (term_of_word stem) (split_words text)))).

(** With the terms of the first line counted [title_weight] times in total. *)
Definition weighted_terms (text : list Z) (title_weight : Z) (stem : bool) : list (list Z * Z) :=
  let m : gmap (list Z) Z := list_to_map (terms text stem) in
  let m := if (1 <? title_weight)%Z
           then foldl (fun m e => <[e.1 := (default 0 (m !! e.1) + e.2 * (title_weight - 1))%Z]> m) m (terms (first_line text) stem)
           else m in
  merge_sort key_le (map_to_list m).

(** The table of [Positions::from_text]. *)
Fixpoint position_table (ts : list (list Z)) (position : Z) (table : gmap (list Z) (list Z)) : gmap (list Z) (list Z) :=
  match ts with
  | [] => table
  | t :: ts => position_table ts (position + 1) (<[t := default [] (table !! t) ++ [wrap U32 position]]> table)
  end.

Fixpoint text_data (keys : list (list Z)) (table : gmap (list Z) (list Z)) (data offsets : list Z) : outcome (list Z * list Z) :=
  match keys with
  | [] => Ok (data, offsets)
  | word :: keys =>
      let* positions := expect (table !! word) in
      let data := data ++ put_gaps 0 positions in
      if (Z.of_nat (length data) <? U32)%Z then text_data keys table data (offsets ++ [Z.of_nat (length data)]) else Panic
  end.

Definition from_text (text : list Z) (stem : bool) (table : StoredTerms) (whole_document : bool) : outcome Positions :=
  let* keys := t_keys table in
  let* (data, offsets) := text_data keys (position_table (tokens text stem) 0 ∅) [] [0%Z] in
  Ok {| p_version := if whole_document then DOCUMENT_VERSION else VERSION; p_offsets := offsets_from offsets; p_data := data |}.

Definition analysis (text : list Z) (title_weight : Z) (stem : bool) (positions : option bool) : outcome (StoredTerms * Z) :=
  let entries := weighted_terms text title_weight stem in
  let* table := from_sorted entries in
  let* p := match positions with
            | None => Ok None
            | Some whole_document => let* p := from_text text stem table whole_document in Ok (Some p)
            end in
  Ok ({| t_terms := t_terms table; t_positions := p |}, foldr (fun e n => (e.2 + n)%Z) 0%Z entries).
End Interner.

(** ** The word cache as a map *)

(** Bytes of words: no NUL. *)
Definition word_ok (w : list Z) : Prop := Forall (fun b => (0 < b < 0x100)%Z) w.

Lemma padded_inj w w' n n' : word_ok w -> word_ok w' -> w ++ replicate n 0%Z = w' ++ replicate n' 0%Z -> w = w'.
Proof.
  intros Hw. revert w'. induction Hw as [|b w Hb Hw IH]; intros w' Hw' E.
  - destruct w' as [|b' w']; [done|]. apply Forall_cons in Hw' as [Hb' _]. destruct n; [done|]. injection E as E _. lia.
  - destruct Hw' as [|b' w' Hb' Hw']; [destruct n'; [done|injection E as E _; lia]|]. injection E as -> E. f_equal. by apply IH.
Qed.

Lemma word_ok_bytes w : word_ok w -> bytes_ok w.
Proof. intros H. eapply Forall_impl; [exact H|]. unfold is_u8. intros b ?. lia. Qed.

Lemma short_key_inj w w' k : word_ok w -> word_ok w' -> short_key w = Some k -> short_key w' = Some k -> w = w'.
Proof.
  unfold short_key. intros Hw Hw'. destruct (length w <=? 16) eqn:E; [|done]. destruct (length w' <=? 16) eqn:E'; [|done]. bool_to_prop. intros [= <-] [= H].
  apply (padded_inj w w' (16 - length w) (16 - length w') Hw Hw').
  assert (G : forall v, word_ok v -> length v <= 16 -> to_le_bytes 16 (from_le_bytes (v ++ replicate (16 - length v) 0%Z)) = v ++ replicate (16 - length v) 0%Z).
  { intros v Hv Hl. assert (Hp : bytes_ok (v ++ replicate (16 - length v) 0%Z)) by (apply Forall_app; split; [by apply word_ok_bytes|apply Forall_replicate; unfold is_u8; lia]).
    pose proof (to_from_le_bytes _ Hp) as P. rewrite length_app, length_replicate in P. by replace (length v + (16 - length v)) with 16 in P by lia. }
  rewrite <- (G w Hw E), <- (G w' Hw' E'). by f_equal.
Qed.

Lemma wm_get_insert m w w' id : word_ok w -> word_ok w' -> wm_get (wm_insert m w' id) w = if decide (w = w') then Some id else wm_get m w.
Proof.
  intros Hw Hw'. unfold wm_get, wm_insert. destruct (short_key w) as [k|] eqn:E, (short_key w') as [k'|] eqn:E'; cbn [wm_short wm_long].
  - destruct (decide (k = k')) as [->|Hn].
    + rewrite lookup_insert_eq. by rewrite decide_True by (by eapply short_key_inj).
    + rewrite lookup_insert_ne by done. rewrite decide_False; [done|]. intros ->. congruence.
  - rewrite decide_False; [done|]. intros ->. congruence.
  - rewrite decide_False; [done|]. intros ->. congruence.
  - destruct (decide (w = w')) as [->|Hn]; [apply lookup_insert_eq|by apply lookup_insert_ne].
Qed.

Lemma wm_len_insert m w id : (wm_len (wm_insert m w id) <= wm_len m + 1)%Z /\ (wm_get m w = None -> wm_len (wm_insert m w id) = wm_len m + 1)%Z.
Proof.
  unfold wm_len, wm_insert, wm_get. destruct (short_key w) as [k|]; cbn [wm_short wm_long].
  - rewrite map_size_insert. destruct (wm_short m !! k); simpl; split; intros; [lia|done|lia|lia].
  - rewrite map_size_insert. destruct (wm_long m !! w); simpl; split; intros; [lia|done|lia|lia].
Qed.

(** ** The order of terms *)

Lemma be_cmp x y :
  bytes_ok x -> bytes_ok y -> length x = length y -> (from_le_bytes (rev x) ?= from_le_bytes (rev y))%Z = bcmp x y.
Proof.
  intros Hx. revert y. induction Hx as [|a x Ha Hx IH]; intros y Hy E; destruct Hy as [|b y Hb Hy]; try done. injection E as E. cbn [rev bcmp].
  rewrite !from_le_bytes_app by by apply Forall_rev. rewrite <- (IH y) by done. rewrite !length_rev, E.
  pose proof (from_le_bytes_bound (rev x) ltac:(by apply Forall_rev)) as Bx. pose proof (from_le_bytes_bound (rev y) ltac:(by apply Forall_rev)) as By.
  rewrite length_rev, E in Bx. rewrite length_rev in By.
  replace (2 ^ (8 * Z.of_nat (length y)))%Z with (pw (8 * length y)) in * by (unfold pw; f_equal; lia).
  cbn [from_le_bytes]. rewrite !Z.shiftl_0_l, !Z.lor_0_r. unfold is_u8 in *. generalize dependent (pw (8 * length y)). intros K Bx By.
  destruct (Z.compare_spec a b) as [->|H|H].
  - destruct (Z.compare_spec (from_le_bytes (rev x)) (from_le_bytes (rev y))) as [H|H|H]; [apply Z.compare_eq_iff|apply Z.compare_lt_iff|apply Z.compare_gt_iff]; lia.
  - apply Z.compare_lt_iff. nia.
  - apply Z.compare_gt_iff. nia.
Qed.
Definition pad (n : nat) (l : list Z) : list Z := take n l ++ replicate (n - length (take n l)) 0%Z.

Lemma pad_ok n l : bytes_ok l -> bytes_ok (pad n l) /\ length (pad n l) = n.
Proof.
  intros Hl. unfold pad. split; [apply Forall_app; split; [by apply Forall_take|apply Forall_replicate; unfold is_u8; lia]|].
  rewrite length_app, length_replicate, length_take. lia.
Qed.

Lemma pad_lt n a b : bytes_ok a -> bytes_ok b -> bcmp (pad n a) (pad n b) = Lt -> bcmp a b = Lt.
Proof.
  revert a b. induction n as [|n IH]; intros a b Ha Hb E; [done|]. destruct Ha as [|x a Hx Ha], Hb as [|y b Hy Hb].
  - by rewrite bcmp_refl in E.
  - done.
  - assert (E0 : pad (S n) [] = 0%Z :: pad n []) by (unfold pad; rewrite !take_nil; simpl; by rewrite Nat.sub_0_r). rewrite E0 in E. change (pad (S n) (x :: a)) with (x :: pad n a) in E. cbn [bcmp] in E. unfold is_u8 in Hx.
    destruct (Z.compare_spec x 0) as [->|H|H]; [|lia|done]. apply IH in E; [by destruct a|done|constructor].
  - change (bcmp (x :: pad n a) (y :: pad n b) = Lt) in E. cbn [bcmp] in *. destruct (x ?= y)%Z; [by apply IH|done|done].
Qed.

Lemma prefix_key_cmp a b :
  bytes_ok a -> bytes_ok b ->
  match (prefix_key a ?= prefix_key b)%Z with Lt => bcmp a b = Lt | Gt => bcmp a b = Gt | Eq => True end.
Proof.
  intros Ha Hb. destruct (pad_ok 8 a Ha) as [Pa La], (pad_ok 8 b Hb) as [Pb Lb]. unfold prefix_key. fold (pad 8 a) (pad 8 b). rewrite be_cmp by (try done; congruence).
  destruct (bcmp (pad 8 a) (pad 8 b)) eqn:E; [done|by eapply pad_lt|]. apply bcmp_gt. eapply pad_lt; [done|done|]. by apply bcmp_gt.
Qed.

(** ** Weights *)

Definition Log := list (list Z * Z).

Fixpoint weight_of (log : Log) (t : list Z) : Z :=
  match log with [] => 0 | e :: log => (if decide (e.1 = t) then e.2 else 0) + weight_of log t end%Z.

Fixpoint total (log : Log) : Z := match log with [] => 0 | e :: log => e.2 + total log end%Z.

Definition positive (log : Log) : Prop := Forall (fun e : list Z * Z => (0 < e.2)%Z) log.

Definition weighted (w : Z) (ts : list (list Z)) : Log := map (fun t => (t, w)) ts.

Lemma weight_of_app a b t : weight_of (a ++ b) t = (weight_of a t + weight_of b t)%Z.
Proof. induction a; simpl; lia. Qed.

Lemma log_total_app a b : total (a ++ b) = (total a + total b)%Z.
Proof. induction a; simpl; lia. Qed.

Lemma weight_of_bounds log t : positive log -> (0 <= weight_of log t <= total log)%Z.
Proof. induction 1; simpl; [lia|]. case_decide; lia. Qed.

Lemma weight_of_pos log t : positive log -> (0 < weight_of log t)%Z <-> t ∈ map fst log.
Proof.
  induction 1 as [|e log He Hl IH]; cbn [weight_of map]; [split; [lia|by intros ?%elem_of_nil]|]. pose proof (weight_of_bounds log t Hl). rewrite elem_of_cons.
  case_decide as E; split; intros; [by left|lia|right; apply IH; lia|]. destruct H0 as [->|H0]; [done|]. apply IH in H0. lia.
Qed.

Lemma weighted_positive w ts : (0 < w)%Z -> positive (weighted w ts).
Proof. intros Hw. apply Forall_forall. intros e [t [-> _]]%list_elem_of_fmap. done. Qed.

Lemma weighted_total w ts : total (weighted w ts) = (w * Z.of_nat (length ts))%Z.
Proof. induction ts as [|t ts IH]; cbn [weighted map total length] in *; [lia|]. unfold weighted in IH. rewrite IH. cbn [snd]. lia. Qed.

Lemma weighted_scale w ts t : weight_of (weighted w ts) t = (w * weight_of (weighted 1 ts) t)%Z.
Proof. induction ts as [|u ts IH]; cbn [weighted map weight_of fst snd]; [lia|]. unfold weighted in IH. rewrite IH. case_decide; lia. Qed.

Lemma weighted_fst w ts : map fst (weighted w ts) = ts.
Proof. unfold weighted. rewrite map_map. apply map_id. Qed.

(** ** Counting *)

Section Counting.
Context `{A : Analyzer} {L : AnalyzerLaws A}.

(** The form an interner holds its terms in. *)
Abbreviation stems i := (negb (in_unstemmed i)).

Record interner_ok (i : Interner) : Prop := {
  io_ids : forall t id, in_ids i !! t = Some id <-> in_terms i !! id = Some t;
  io_valid : Forall (fun t => utf8_valid t = true) (in_terms i);
  io_keys : in_keys i = map prefix_key (in_terms i);
  io_counts : length (in_counts i) = length (in_terms i);
  io_words : forall w id, word_ok w -> wm_get (in_words i) w = Some id -> in_terms i !! id = Some (token (stems i) w);
  io_size : (Z.of_nat (length (in_terms i)) <= wm_len (in_words i))%Z }.

(** The counts are the weights of a log. *)
Record counting (i : Interner) (log : Log) : Prop := {
  co_counts : forall id t, in_terms i !! id = Some t -> in_counts i !! id = Some (weight_of log t);
  co_known : forall t, t ∈ map fst log -> t ∈ in_terms i;
  co_counted : forall id, id ∈ in_counted i <-> exists t, in_terms i !! id = Some t /\ (0 < weight_of log t)%Z;
  co_nodup : NoDup (in_counted i) }.

(** [i'] is [i] after counting the terms [ts] with weight [w]. *)
Record after (i : Interner) (w : Z) (ts : list (list Z)) (i' : Interner) : Prop := {
  af_ok : interner_ok i';
  af_form : in_unstemmed i' = in_unstemmed i;
  af_record : in_record i' = in_record i;
  af_terms : in_terms i `prefix_of` in_terms i';
  af_size : (wm_len (in_words i') <= wm_len (in_words i) + Z.of_nat (length ts))%Z;
  af_sequence : exists ids, in_sequence i' = in_sequence i ++ (if in_record i then ids else []) /\
    Forall2 (fun id t => in_terms i' !! id = Some t) ids ts;
  af_counting : forall log, positive log -> counting i log -> (total (log ++ weighted w ts) < U32)%Z -> counting i' (log ++ weighted w ts) }.

Lemma after_nil i w : interner_ok i -> after i w [] i.
Proof using. intros H. split; try done; [simpl; lia|exists []; split; [by destruct (in_record i); rewrite app_nil_r|constructor]|]. intros log _ Hc _. cbn. by rewrite app_nil_r. Qed.

Lemma after_app i w ts1 i1 ts2 i2 : (0 < w)%Z -> after i w ts1 i1 -> after i1 w ts2 i2 -> after i w (ts1 ++ ts2) i2.
Proof using.
  intros Hw [A1 A2 A3 A4 A5 A6 A7] [B1 B2 B3 B4 B5 B6 B7]. split; [done|congruence|congruence|by etrans|rewrite length_app; lia| |].
  - destruct A6 as (ids1 & E1 & F1), B6 as (ids2 & E2 & F2). exists (ids1 ++ ids2). split.
    + rewrite E2, E1, A3, <- app_assoc. by destruct (in_record i).
    + apply Forall2_app; [|done]. eapply Forall2_impl; [exact F1|]. intros id t Hid. cbn. eapply prefix_lookup_Some; [exact Hid|exact B4].
  - intros log Hp Hc Ht. unfold weighted in *. rewrite map_app, app_assoc in *. fold (weighted w ts1) (weighted w ts2) in *.
    assert (P : positive (log ++ weighted w ts1)) by (apply Forall_app; split; [done|by apply weighted_positive]).
    apply B7; [done| |done]. apply A7; [done..|]. rewrite log_total_app, (weighted_total w ts2) in Ht. lia.
Qed.

(** Lowercasing as the caller's flag says. *)
Lemma lower_token i word ascii :
  word_ok word -> (ascii = true -> is_ascii word = true) ->
  (if in_unstemmed i then (if ascii then map to_ascii_lowercase word else to_lowercase word)
   else stem_word (if ascii then map to_ascii_lowercase word else to_lowercase word)) = token (stems i) word.
Proof using L.
  intros Hw Ha. unfold token. destruct ascii; [rewrite lowercase_ascii|by destruct (in_unstemmed i)].
  - by destruct (in_unstemmed i).
  - specialize (Ha eq_refl). unfold is_ascii in Ha. rewrite forallb_forall in Ha. apply Forall_forall. intros b Hb. pose proof (Ha b (proj1 (list_elem_of_In _ _) Hb)) as H. unfold word_ok in Hw. rewrite Forall_forall in Hw. specialize (Hw b Hb). bool_to_prop. lia.
Qed.

Lemma token_valid stem word : utf8_valid word = true -> utf8_valid (token stem word) = true.
Proof using L. intros H. unfold token. destruct stem; [apply stem_valid|]; by apply lowercase_valid. Qed.

(** What looking a word up does to the interner. *)
Record looked_up (i : Interner) (t : list Z) (i' : Interner) (id : nat) : Prop := {
  lu_ok : interner_ok i';
  lu_id : in_terms i' !! id = Some t;
  lu_form : in_unstemmed i' = in_unstemmed i;
  lu_record : in_record i' = in_record i;
  lu_sequence : in_sequence i' = in_sequence i;
  lu_terms : in_terms i `prefix_of` in_terms i';
  lu_size : (wm_len (in_words i') <= wm_len (in_words i) + 1)%Z;
  lu_counting : forall log, positive log -> counting i log -> counting i' log }.

(** A word whose term is known. *)
Lemma known_word i word id :
  interner_ok i -> word_ok word -> wm_get (in_words i) word = None -> in_terms i !! id = Some (token (stems i) word) ->
  looked_up i (token (stems i) word) (with_words i (wm_insert (in_words i) word id)) id.
Proof using.
  intros [H1 Hval H2 H3 H4 H5] Hw Hg Hid. destruct (wm_len_insert (in_words i) word id) as [Hl Hl']. specialize (Hl' Hg).
  split; try done; [split; try done; cbn [with_words in_words in_terms in_unstemmed]; [|lia]|intros log _ [C1 C2 C3 C4]; by split].
  intros w k Hwk E. rewrite wm_get_insert in E by done. destruct (decide (w = word)) as [->|]; [by injection E as <-|by apply H4].
Qed.

(** A term not seen before. *)
Lemma new_word i word :
  interner_ok i -> word_ok word -> utf8_valid word = true -> wm_get (in_words i) word = None -> in_ids i !! token (stems i) word = None -> (wm_len (in_words i) < U32)%Z ->
  exists i' id, new_term i (token (stems i) word) = Ok (i', id) /\ looked_up i (token (stems i) word) (with_words i' (wm_insert (in_words i') word id)) id.
Proof using L.
  intros [H1 Hval H2 H3 H4 H5] Hw Hv Hg Hn Hlt. unfold new_term. rewrite (proj2 (Z.ltb_lt _ _)) by lia. eexists _, _. split; [reflexivity|].
  destruct (wm_len_insert (in_words i) word (length (in_terms i))) as [Hl Hl']. specialize (Hl' Hg).
  set (t := token (stems i) word) in *. assert (Ht : t ∉ in_terms i) by (intros [k Hk]%list_elem_of_lookup; apply H1 in Hk; congruence).
  split; cbn [with_words in_words in_ids in_terms in_keys in_counts in_counted in_sequence in_record in_unstemmed]; try done; [split; cbn [with_words in_words in_ids in_terms in_keys in_counts in_unstemmed]| | |].
  - intros u id. destruct (decide (u = t)) as [->|Hu].
    + rewrite lookup_insert_eq. split; [intros [= <-]; apply list_lookup_middle; lia|]. intros E. f_equal.
      apply lookup_app_Some in E as [E|[Hge E]]; [exfalso; apply Ht; by eapply list_elem_of_lookup_2|]. apply list_lookup_singleton_Some in E as [E _]. lia.
    + rewrite lookup_insert_ne, H1 by done. split; [by apply lookup_app_l_Some|]. intros E. apply lookup_app_Some in E as [E|[_ E]]; [done|].
      apply list_lookup_singleton_Some in E as [_ E]. congruence.
  - apply Forall_app. split; [done|]. constructor; [by apply token_valid|constructor].
  - by rewrite H2, map_app.
  - rewrite !length_app. simpl. lia.
  - intros w k Hwk E. rewrite wm_get_insert in E by done. destruct (decide (w = word)) as [->|]; [injection E as <-; by apply list_lookup_middle|].
    apply lookup_app_l_Some. by apply H4.
  - rewrite length_app. simpl. lia.
  - by apply list_lookup_middle.
  - by apply prefix_app_r.
  - intros log Hp [C1 C2 C3 C4]. assert (Hz : weight_of log t = 0%Z).
    { pose proof (weight_of_bounds log t Hp). destruct (decide (t ∈ map fst log)) as [Hin|Hin]; [by apply C2 in Hin|]. rewrite <- weight_of_pos in Hin by done. lia. }
    split; cbn [with_words in_terms in_counts in_counted]; [| | |done].
    + intros id u E. apply lookup_app_Some in E as [E|[Hge E]]; [by apply lookup_app_l_Some, C1|]. apply list_lookup_singleton_Some in E as [E1 E2]. subst u.
      rewrite Hz. apply list_lookup_middle. lia.
    + intros u Hu. apply elem_of_app. left. by apply C2.
    + intros id. rewrite C3. split; intros (u & E & Hpos); exists u; (split; [|done]); [by apply lookup_app_l_Some|].
      apply lookup_app_Some in E as [E|[Hge E]]; [done|]. apply list_lookup_singleton_Some in E as [E1 E2]. subst u. lia.
Qed.

Lemma term_id_ok i word ascii :
  interner_ok i -> word_ok word -> utf8_valid word = true -> (ascii = true -> is_ascii word = true) -> (wm_len (in_words i) < U32)%Z ->
  exists i' id, term_id i word ascii = Ok (i', id) /\ looked_up i (token (stems i) word) i' id.
Proof using L.
  intros Hok Hw Hv Ha Hlt. unfold term_id. destruct (wm_get (in_words i) word) as [id|] eqn:Hg.
  - exists i, id. split; [done|]. split; try done; [by apply (io_words i Hok)|lia].
  - cbv zeta. rewrite (lower_token i word ascii Hw Ha). destruct (in_ids i !! _) as [id|] eqn:E; cbn [obind].
    + eexists _, id. split; [reflexivity|]. apply known_word; [done..|]. by apply (io_ids i Hok).
    + destruct (new_word i word Hok Hw Hv Hg E Hlt) as (i' & id & -> & H). cbn [obind]. by eexists _, id.
Qed.

Lemma count_word_ok i t i' id w :
  (0 < w)%Z -> looked_up i t i' id -> exists i2, count_word i' id w = Ok i2 /\ after i w [t] i2.
Proof using.
  intros Hw [H1 Hid Hf Hr Hs Ht Hl Hc]. unfold count_word. assert (is_Some (in_counts i' !! id)) as [n Hn].
  { apply lookup_lt_is_Some_2. rewrite (io_counts i' H1). by eapply lookup_lt_Some. }
  assert (E : in_counts (if in_record i' then with_sequence i' (in_sequence i' ++ [id]) true else i') = in_counts i') by by destruct (in_record i').
  rewrite E, Hn. cbn [expect obind]. eexists. split; [reflexivity|]. destruct H1 as [G1 Gv G2 G3 G4 G5].
  split; cbn [with_counts in_unstemmed in_record in_sequence in_terms in_words].
  - split; destruct (in_record i'); cbn; rewrite ?length_insert; done.
  - by destruct (in_record i').
  - rewrite <- Hr. by destruct (in_record i') eqn:?.
  - by destruct (in_record i').
  - cbn [length]. destruct (in_record i'); cbn; lia.
  - exists [id]. rewrite <- Hr. split; [destruct (in_record i'); cbn; by rewrite ?Hs, ?app_nil_r|]. constructor; [by destruct (in_record i')|constructor].
  - intros log Hp Hcl Ht0. specialize (Hc log Hp Hcl) as [C1 C2 C3 C4]. assert (n = weight_of log t) as -> by (specialize (C1 id t Hid); congruence).
    rewrite log_total_app in Ht0. cbn [weighted map total fst snd] in *. pose proof (weight_of_bounds log t Hp).
    assert (Et : in_terms (if in_record i' then with_sequence i' (in_sequence i' ++ [id]) true else i') = in_terms i') by by destruct (in_record i').
    assert (Ec : in_counted (if in_record i' then with_sequence i' (in_sequence i' ++ [id]) true else i') = in_counted i') by by destruct (in_record i').
    assert (Hlt : id < length (in_counts i')) by by eapply lookup_lt_Some.
    assert (Hinj : forall k u, in_terms i' !! k = Some u -> u = t -> k = id) by (intros k u Hk ->; apply G1 in Hk, Hid; congruence).
    split; cbn [with_counts in_terms in_counts in_counted]; rewrite ?Et, ?Ec, ?E.
    + intros k u Hk. rewrite weight_of_app. cbn [weight_of fst snd]. destruct (decide (k = id)) as [->|Hne].
      * assert (u = t) as -> by congruence. rewrite list_lookup_insert_eq by done. rewrite decide_True by done. rewrite wrap_small by lia. f_equal. lia.
      * rewrite list_lookup_insert_ne, (C1 k u Hk) by done. rewrite decide_False by (intros ->; by apply Hne, (Hinj k u)). f_equal. lia.
    + intros u. rewrite map_app, elem_of_app. cbn [map fst]. rewrite list_elem_of_singleton. intros [Hu| ->]; [by apply C2|by eapply list_elem_of_lookup_2].
    + intros k. assert (Hk : k ∈ (if (weight_of log t =? 0)%Z then in_counted i' ++ [id] else in_counted i') <-> k ∈ in_counted i' \/ k = id).
      { destruct (Z.eqb_spec (weight_of log t) 0) as [Ez|Ez]; [by rewrite elem_of_app, list_elem_of_singleton|]. split; [by left|]. intros [Hk| ->]; [done|]. apply C3. exists t. split; [done|lia]. }
      rewrite Hk, C3. split.
      * intros [(u & Hu & Hpos)| ->]; [exists u|exists t]; (split; [done|]); rewrite weight_of_app; cbn [weight_of fst snd]; [case_decide; lia|]. rewrite decide_True by done. lia.
      * intros (u & Hu & Hpos). rewrite weight_of_app in Hpos. cbn [weight_of fst snd] in Hpos. case_decide as D; [right; by apply (Hinj k u)|]. left. exists u. split; [done|lia].
    + destruct (Z.eqb_spec (weight_of log t) 0) as [Ez|Ez]; [|done]. apply NoDup_app. split; [done|]. split; [|apply NoDup_singleton].
      intros k Hk ->%list_elem_of_singleton. apply C3 in Hk as (u & Hu & Hpos). assert (u = t) as -> by congruence. lia.
Qed.

(** *** Scanning *)

Lemma classify_ok pre a c r :
  is_char a c -> classify (pre ++ a ++ r) (length pre) = Ok (is_alphanumeric c, length a, is_ascii a).
Proof using L.
  intros Ha. pose proof (boundary_char pre a c r Ha) as Hb. pose proof (ch_next a c Ha r) as Hn. pose proof (is_char_pos a c Ha). unfold classify.
  destruct a as [|h t]; [simpl in *; lia|]. cbn [app]. rewrite list_lookup_middle by done. cbn [expect obind]. destruct (ch_ascii _ c Ha) as [[E Hc]|[Hl Hw]].
  - injection E as -> ->. rewrite (proj2 (Z.ltb_lt _ _)) by lia. rewrite alphanumeric_ascii by done. cbn. by rewrite (proj2 (Z.ltb_lt _ _)) by lia.
  - apply Forall_cons in Hw as [Hh _]. rewrite (proj2 (Z.ltb_ge _ _)) by lia. unfold char_at. cbn [app] in Hb, Hn. rewrite Hb, drop_app_length, Hn. cbn.
    by rewrite (proj2 (Z.ltb_ge _ _)) by lia.
Qed.

Lemma is_ascii_app a b : is_ascii (a ++ b) = is_ascii a && is_ascii b.
Proof using. apply forallb_app. Qed.

Lemma word_end_ok pre w r fuel ascii :
  run w -> ends_word r -> length (w ++ r) <= fuel ->
  word_end fuel (pre ++ w ++ r) (length pre) ascii = Ok (length pre + length w, ascii && is_ascii w).
Proof using L.
  intros Hw Hr. revert pre fuel ascii. induction Hw as [|a c w Ha Hc Hw IH]; intros pre fuel ascii Hf.
  - rewrite app_nil_l, Nat.add_0_r, andb_true_r. destruct Hr as [->|(a & c & r' & -> & Ha & Hc)].
    + rewrite app_nil_r. destruct fuel; cbn [word_end]; by rewrite Nat.ltb_irrefl.
    + pose proof (is_char_pos a c Ha). cbn [app] in Hf. rewrite length_app in Hf. destruct fuel as [|fuel]; [lia|]. cbn [word_end].
      rewrite (proj2 (Nat.ltb_lt _ _)) by (rewrite !length_app; lia). rewrite (classify_ok pre a c) by done. cbn [obind]. by rewrite Hc.
  - pose proof (is_char_pos a c Ha). rewrite !length_app in Hf. destruct fuel as [|fuel]; [lia|]. rewrite <- app_assoc. cbn [word_end].
    rewrite (proj2 (Nat.ltb_lt _ _)) by (rewrite !length_app; lia). rewrite (classify_ok pre a c) by done. cbn [obind]. rewrite Hc.
    rewrite <- length_app, (app_assoc pre a). rewrite IH by (rewrite length_app; lia). rewrite is_ascii_app, andb_assoc, !length_app. do 2 f_equal. lia.
Qed.

Lemma run_word_ok w : run w -> word_ok w.
Proof using L.
  induction 1 as [|a c w Ha Hc Hw IH]; [constructor|]. apply Forall_app. split; [|done]. destruct (ch_ascii a c Ha) as [[-> Hr]|[_ Hb]].
  - constructor; [|constructor]. rewrite alphanumeric_ascii in Hc by done. unfold is_ascii_alphanumeric in Hc. rewrite !orb_true_iff, !within_spec in Hc. lia.
  - eapply Forall_impl; [exact Hb|]. cbn. lia.
Qed.

Lemma count_loop_ok text w l :
  (0 < w)%Z -> utf8_valid l = true -> forall pre fuel i n, text = pre ++ l -> length l <= fuel -> interner_ok i -> (wm_len (in_words i) + Z.of_nat (length l) < U32)%Z ->
  exists i', count_loop fuel i text w (length pre) n = Ok (i', (n + w * Z.of_nat (length (split_words l)))%Z) /\ after i w (tokens l (stems i)) i'.
Proof using L.
  intros Hw. remember (length l) as m eqn:Hm. revert l Hm. induction m as [m IH] using lt_wf_ind. intros l Hm Hv pre fuel i n -> Hf Hok Hlt.
  destruct (utf8_uncons l Hv) as [->|(a & c & r & -> & Ha & Hr)].
  { exists i. split; [|by apply after_nil]. rewrite app_nil_r. destruct fuel; cbn [count_loop]; rewrite Nat.ltb_irrefl; do 2 f_equal; simpl; lia. }
  pose proof (is_char_pos a c Ha). rewrite length_app in *. destruct fuel as [|fuel]; [lia|]. cbn [count_loop].
  rewrite (proj2 (Nat.ltb_lt _ _)) by (rewrite !length_app; lia). rewrite (classify_ok pre a c) by done. cbn [obind]. destruct (is_alphanumeric c) eqn:Hc.
  - destruct (word_first r Hr) as (w0 & r' & -> & Hw0 & Hr' & He). assert (Hrun : run (a ++ w0)) by by econstructor. rewrite length_app in *.
    rewrite (app_assoc a w0 r') in *. set (word := a ++ w0) in *. assert (Hwl : length word = length a + length w0) by apply length_app.
    rewrite (word_end_ok pre word r') by (try done; rewrite ?length_app; lia). cbn [obind andb].
    unfold str_slice. rewrite (boundary_valid pre (word ++ r')), <- length_app, (app_assoc pre word r'), (boundary_valid (pre ++ word) r') by done.
    cbn [andb]. rewrite slice_Ok by (rewrite ?length_app; lia). rewrite <- app_assoc, drop_app_length, (length_app pre word), Nat.add_comm, Nat.add_sub, take_app_length. cbn [obind].
    destruct (term_id_ok i word (is_ascii word)) as (i1 & id & -> & Hlu); [done|by apply run_word_ok|by apply run_valid|done|lia|]. cbn [obind].
    destruct (count_word_ok i _ i1 id w Hw Hlu) as (i2 & -> & Haf). cbn [obind]. pose proof (af_size _ _ _ _ Haf) as Hs2. cbn [length] in Hs2.
    destruct (IH (length r')) with (l := r') (pre := pre ++ word) (fuel := fuel) (i := i2) (n := (n + w)%Z) as (i' & E & Haf');
      [lia|done|done|by rewrite app_assoc|lia|by eapply af_ok|lia|].
    exists i'. rewrite (Nat.add_comm (length word)), <- (length_app pre word), E. rewrite split_words_run by (try done; intros E0; apply (f_equal length) in E0; simpl in E0; lia).
    split; [do 2 f_equal; cbn [length]; lia|]. unfold tokens. rewrite split_words_run by (try done; intros E0; apply (f_equal length) in E0; simpl in E0; lia).
    cbn [map]. change (token (stems i) word :: map (token (stems i)) (split_words r')) with ([token (stems i) word] ++ tokens r' (stems i)).
    eapply after_app; [done|exact Haf|]. by rewrite (af_form _ _ _ _ Haf) in Haf'.
  - destruct (IH (length r)) with (l := r) (pre := pre ++ a) (fuel := fuel) (i := i) (n := n) as (i' & E & Haf'); [lia|done|done|by rewrite app_assoc|lia|done|lia|].
    exists i'. rewrite <- length_app, E. unfold tokens. by rewrite (split_words_skip a c) by done.
Qed.

Lemma count_ok i text w :
  (0 < w)%Z -> utf8_valid text = true -> interner_ok i -> (wm_len (in_words i) + Z.of_nat (length text) < U32)%Z ->
  exists i', count i text w = Ok (i', (w * Z.of_nat (length (split_words text)))%Z) /\ after i w (tokens text (stems i)) i'.
Proof using L. intros Hw Hv Hok Hlt. exact (count_loop_ok text w text Hw Hv [] (length text) i 0%Z eq_refl (Nat.le_refl _) Hok Hlt). Qed.
End Counting.
