(* ===== verification/Analysis.v ===== *)
(** * The interner computes the reference analysis

    For any text of a document and any history of the interner, [chunk_terms] returns the table,
    the positions and the word count of the reference analysis: the counts by term id are the
    counts of the hash map, the order by eight-byte keys is the order of the terms, and the
    positions built from ranks are byte for byte those of [Positions::from_text]. *)

From S2P Require Import Prelude Words BitPack Search Positions Terms FrameDict Chars Interner.

(** ** Sums over distinct terms *)

Definition sum_weights (log : Log) (ks : list (list Z)) : Z := foldr (fun k n => (weight_of log k + n)%Z) 0%Z ks.

Lemma sum_weights_cons e log ks : NoDup ks -> e.1 ∈ ks -> sum_weights (e :: log) ks = (e.2 + sum_weights log ks)%Z.
Proof.
  intros Hnd Hin. assert (G : forall ks, NoDup ks -> sum_weights (e :: log) ks = ((if decide (e.1 ∈ ks) then e.2 else 0) + sum_weights log ks)%Z).
  { clear. induction 1 as [|k ks Hk _ IH]; [by rewrite decide_False by apply not_elem_of_nil|]. change (sum_weights (e :: log) (k :: ks)) with (weight_of (e :: log) k + sum_weights (e :: log) ks)%Z.
    change (sum_weights log (k :: ks)) with (weight_of log k + sum_weights log ks)%Z. cbn [weight_of]. rewrite IH.
    destruct (decide (e.1 = k)) as [<-|Hne]; [rewrite decide_False, decide_True by (done || left); lia|].
    destruct (decide (e.1 ∈ ks)) as [Hi|Hi]; [rewrite decide_True by (by right); lia|]. rewrite decide_False; [lia|]. by intros [?|?]%elem_of_cons. }
  rewrite G by done. by rewrite decide_True.
Qed.

Lemma sum_weights_total log ks : NoDup ks -> (forall t, t ∈ map fst log -> t ∈ ks) -> sum_weights log ks = total log.
Proof.
  intros Hnd. induction log as [|e log IH]; intros Hin; cbn [total].
  - clear. induction ks as [|k ks IH]; [done|]. change (sum_weights [] (k :: ks)) with (0 + sum_weights [] ks)%Z. lia.
  - rewrite sum_weights_cons; [|done|apply Hin; left]. rewrite IH; [done|]. intros t Ht. apply Hin. by right.
Qed.

(** ** Counting in a hash map *)

Lemma count_terms_snoc ts t :
  count_terms (ts ++ [t]) = <[t := match count_terms ts !! t with Some n => wrap U32 (n + 1) | None => 1%Z end]> (count_terms ts).
Proof. unfold count_terms. by rewrite foldl_app. Qed.

(** The maps whose entries are the positive weights of a log. *)
Definition weighs (m : gmap (list Z) Z) (log : Log) : Prop := forall t n, m !! t = Some n <-> n = weight_of log t /\ (0 < n)%Z.

Lemma weighs_default m log t : positive log -> weighs m log -> default 0%Z (m !! t) = weight_of log t.
Proof.
  intros Hp Hm. pose proof (weight_of_bounds log t Hp). destruct (m !! t) as [n|] eqn:E; [by apply Hm in E as [-> _]|]. cbn.
  destruct (decide (0 < weight_of log t)%Z) as [H0|H0]; [|lia]. pose proof (proj2 (Hm t _) (conj eq_refl H0)). congruence.
Qed.

Lemma weighs_insert m log t w : positive log -> (0 < w)%Z -> weighs m log -> weighs (<[t := (default 0 (m !! t) + w)%Z]> m) (log ++ [(t, w)]).
Proof.
  intros Hp Hw Hm u n. rewrite weight_of_app. cbn [weight_of fst snd]. rewrite (weighs_default m log t Hp Hm). pose proof (weight_of_bounds log t Hp).
  destruct (decide (t = u)) as [->|Hne]; [rewrite lookup_insert_eq; split; [intros [= <-]; lia|intros [-> _]; f_equal; lia]|].
  rewrite lookup_insert_ne, (Hm u n) by done. split; intros [-> ?]; split; lia.
Qed.

Lemma count_terms_ok ts : (Z.of_nat (length ts) < U32)%Z -> weighs (count_terms ts) (weighted 1 ts).
Proof.
  induction ts as [|t ts IH] using rev_ind; intros Hl.
  - intros u n. cbn. rewrite lookup_empty. split; [done|lia].
  - rewrite length_app in Hl. cbn [length] in Hl. specialize (IH ltac:(lia)). rewrite count_terms_snoc. unfold weighted. rewrite map_app. cbn [map].
    pose proof (weighs_insert (count_terms ts) (weighted 1 ts) t 1 (weighted_positive 1 ts ltac:(lia)) ltac:(lia) IH) as H.
    assert (E : (match count_terms ts !! t with Some n => wrap U32 (n + 1) | None => 1 end = default 0 (count_terms ts !! t) + 1)%Z); [|by rewrite E].
    destruct (count_terms ts !! t) as [n|] eqn:En; [|done]. apply IH in En as [-> _].
    pose proof (weight_of_bounds (weighted 1 ts) t (weighted_positive 1 ts ltac:(lia))) as B. rewrite weighted_total in B. cbn. apply wrap_small. lia.
Qed.

(** Adding the weighted entries of a second text. *)
Lemma weighs_fold m log (es : list (list Z * Z)) w :
  positive log -> weighs m log -> (0 < w)%Z -> Forall (fun e : list Z * Z => (0 < e.2)%Z) es ->
  weighs (foldl (fun m e => <[e.1 := (default 0 (m !! e.1) + e.2 * w)%Z]> m) m es) (log ++ map (fun e => (e.1, (e.2 * w)%Z)) es).
Proof.
  intros Hp Hm Hw Hes. revert m log Hp Hm. induction Hes as [|e es He Hes IH]; intros m log Hp Hm; cbn [foldl map]; [by rewrite app_nil_r|].
  rewrite cons_middle, app_assoc. apply IH; [|by apply weighs_insert; [done|nia|]]. apply Forall_app. split; [done|]. constructor; [cbn; nia|constructor].
Qed.

(** Distinct entries that carry the weights of a log weigh as the log. *)
Lemma weight_of_entries log (es : list (list Z * Z)) w t :
  positive log -> NoDup (map fst es) -> (forall k n, (k, n) ∈ es <-> n = weight_of log k /\ (0 < n)%Z) ->
  weight_of (map (fun e => (e.1, (e.2 * w)%Z)) es) t = (w * weight_of log t)%Z.
Proof.
  intros Hp Hnd Hes. assert (G : forall es : list (list Z * Z), NoDup (map fst es) -> weight_of (map (fun e => (e.1, (e.2 * w)%Z)) es) t = (w * default 0 ((list_to_map es : gmap (list Z) Z) !! t))%Z).
  { clear. induction es as [|[k n] es IH]; intros Hnd; cbn [map weight_of fst snd] in *; [rewrite list_to_map_nil, lookup_empty; cbn; lia|]. apply NoDup_cons in Hnd as [Hk Hnd].
    rewrite IH by done. rewrite list_to_map_cons. destruct (decide (k = t)) as [->|Hne]; [|rewrite lookup_insert_ne by done; lia]. rewrite lookup_insert_eq.
    rewrite not_elem_of_list_to_map_1 by done. cbn. lia. }
  rewrite G by done. f_equal. pose proof (weight_of_bounds log t Hp). destruct ((list_to_map es : gmap (list Z) Z) !! t) as [n|] eqn:E; cbn.
  - apply elem_of_list_to_map in E; [|done]. by apply Hes in E as [-> _].
  - apply not_elem_of_list_to_map_2 in E. destruct (decide (0 < weight_of log t)%Z) as [H0|H0]; [|lia]. exfalso. apply E. apply list_elem_of_fmap. exists (t, weight_of log t). split; [done|]. by apply Hes.
Qed.

(** ** The reference, as weights *)

Section Reference.
Context `{A : Analyzer} {L : AnalyzerLaws A}.

(** The words of a chunk and of its title, with their weights. *)
Definition log_of (text : list Z) (title_weight : Z) (stem : bool) : Log :=
  weighted 1 (tokens text stem) ++ (if (1 <? title_weight)%Z then weighted (title_weight - 1) (tokens (first_line text) stem) else []).

Lemma log_of_positive text w stem : positive (log_of text w stem).
Proof using. unfold log_of. apply Forall_app. split; [apply weighted_positive; lia|]. destruct (Z.ltb_spec 1 w); [apply weighted_positive; lia|constructor]. Qed.

Lemma term_of_word_token stem word : word_ok word -> term_of_word stem word = token stem word.
Proof using L.
  intros Hw. unfold term_of_word, token. destruct (is_ascii word) eqn:E; [|done]. rewrite lowercase_ascii; [done|].
  unfold is_ascii in E. rewrite forallb_forall in E. unfold word_ok in Hw. rewrite Forall_forall in *. intros b Hb.
  specialize (E b (proj1 (list_elem_of_In _ _) Hb)). specialize (Hw b Hb). bool_to_prop. lia.
Qed.

Lemma terms_tokens text stem : utf8_valid text = true -> map (term_of_word stem) (split_words text) = tokens text stem.
Proof using L.
  intros Hv. apply map_ext_Forall. eapply Forall_impl; [by apply split_words_runs|]. intros w [Hw _]. by apply term_of_word_token, run_word_ok.
Qed.

Lemma tokens_length text stem : utf8_valid text = true -> length (tokens text stem) <= length text.
Proof using. intros Hv. unfold tokens. rewrite length_map. by apply split_words_length. Qed.

(** The entries of a text. *)
Lemma terms_spec text stem :
  utf8_valid text = true -> (Z.of_nat (length text) < U32)%Z ->
  bsorted (map fst (terms text stem)) /\ (forall t n, (t, n) ∈ terms text stem <-> n = weight_of (weighted 1 (tokens text stem)) t /\ (0 < n)%Z).
Proof using L.
  intros Hv Hl. unfold terms. rewrite terms_tokens by done. split; [apply keys_sorted|]. intros t n. rewrite keys_elem. apply count_terms_ok.
  pose proof (tokens_length text stem Hv). lia.
Qed.

Lemma first_line_valid text : utf8_valid text = true -> utf8_valid (first_line text) = true /\ length (first_line text) <= length text.
Proof using.
  intros Hv. destruct (first_line_split text Hv) as [->|(b & r & _ & E & H & _)]; [done|]. split; [done|]. rewrite E at 2. rewrite length_app. lia.
Qed.

(** The words of the title are words of the text. *)
Lemma title_tokens text stem t : utf8_valid text = true -> t ∈ tokens (first_line text) stem -> t ∈ tokens text stem.
Proof using L.
  intros Hv Ht. destruct (first_line_split text Hv) as [E|(b & r & Hb & E & H1 & H2)]; [by rewrite E in Ht|].
  assert (is_char [b] b /\ is_alphanumeric b = false) as [Hc Ha].
  { split; [|rewrite alphanumeric_ascii by lia; destruct Hb as [-> | ->]; reflexivity]. destruct (utf8_uncons [b]) as [?|(a & c & r' & E' & Hac & _)]; [destruct Hb as [-> | ->]; reflexivity|done|].
    destruct (ch_ascii a c Hac) as [[-> _]|[Hl2 _]]; [by injection E' as -> _|]. apply (f_equal length) in E'. rewrite length_app in E'. simpl in E'. lia. }
  rewrite E. unfold tokens. change (b :: r) with ([b] ++ r). rewrite (split_words_app _ [b] b) by done. rewrite map_app, elem_of_app. by left.
Qed.

Lemma weighted_terms_spec text w stem :
  utf8_valid text = true -> (Z.of_nat (length text) < U32)%Z ->
  bsorted (map fst (weighted_terms text w stem)) /\
  (forall t n, (t, n) ∈ weighted_terms text w stem <-> n = weight_of (log_of text w stem) t /\ (0 < n)%Z).
Proof using L.
  intros Hv Hl. destruct (terms_spec text stem Hv Hl) as [S1 E1]. destruct (first_line_valid text Hv) as [Hv2 Hl2].
  destruct (terms_spec (first_line text) stem Hv2 ltac:(lia)) as [S2 E2]. unfold weighted_terms. split; [apply keys_sorted|]. intros t n. rewrite keys_elem.
  assert (Hm : weighs (list_to_map (terms text stem)) (weighted 1 (tokens text stem))).
  { intros u k. rewrite <- E1. symmetry. apply elem_of_list_to_map. by apply bsorted_NoDup. }
  unfold log_of. destruct (Z.ltb_spec 1 w) as [Hw|Hw]; [|rewrite app_nil_r; apply Hm].
  pose proof (weighs_fold _ _ (terms (first_line text) stem) (w - 1) (weighted_positive 1 _ ltac:(lia)) Hm ltac:(lia)) as F.
  assert (Hpos : Forall (fun e : list Z * Z => (0 < e.2)%Z) (terms (first_line text) stem)) by (apply Forall_forall; intros [u k] Hu; by apply E2 in Hu as [_ ?]).
  rewrite (F Hpos t n), !weight_of_app. rewrite (weight_of_entries (weighted 1 (tokens (first_line text) stem)));
    [|apply weighted_positive; lia|by apply bsorted_NoDup|exact E2]. by rewrite (weighted_scale (w - 1)).
Qed.
End Reference.

(** ** Reading the counts off *)

Section Finish.
Context `{A : Analyzer} {L : AnalyzerLaws A}.
Context (i : Interner) (log : Log) (Hok : interner_ok i) (Hpos : positive log) (Hcount : counting i log).

Lemma in_terms_NoDup : NoDup (in_terms i).
Proof using Hok. apply NoDup_alt. intros a b t Ha Hb. apply (io_ids i Hok) in Ha, Hb. congruence. Qed.

Lemma term_order_le a b : term_order i a b <-> term_le (in_terms i) a b.
Proof using Hok L.
  unfold term_order, term_le, term_at. set (T := fun k => default [] (in_terms i !! k)). fold (T a) (T b).
  assert (K : forall k, default 0%Z (in_keys i !! k) = prefix_key (T k)) by (intros k; rewrite (io_keys i Hok), list_lookup_fmap; unfold T; by destruct (in_terms i !! k)).
  assert (B : forall k, bytes_ok (T k)).
  { intros k. unfold T. destruct (in_terms i !! k) as [t|] eqn:E; [|constructor]. apply utf8_bytes. pose proof (io_valid i Hok) as V. rewrite Forall_lookup in V. by apply (V k). }
  rewrite !K. pose proof (prefix_key_cmp (T a) (T b) (B a) (B b)). destruct (_ ?= _)%Z; [done|by split; [intros _; congruence|]|by split; [|congruence]].
Qed.

(** The ids of [counted] in the order of their terms. *)
Abbreviation sorted := (merge_sort (term_order i) (in_counted i)).

Lemma sorted_perm : sorted ≡ₚ in_counted i.
Proof using. apply merge_sort_Permutation. Qed.

Lemma counted_NoDup : NoDup sorted.
Proof using Hcount. rewrite sorted_perm. apply (co_nodup i log Hcount). Qed.

Lemma sorted_elem id : id ∈ sorted <-> exists t, in_terms i !! id = Some t /\ (0 < weight_of log t)%Z.
Proof using Hcount. rewrite sorted_perm. apply (co_counted i log Hcount). Qed.

Lemma sorted_terms : bsorted (map (term_at (in_terms i)) sorted).
Proof using Hok Hcount L.
  apply sorted_terms_bsorted; [apply in_terms_NoDup| |apply counted_NoDup|].
  - apply Forall_forall. intros id (t & Ht & _)%sorted_elem. by eapply lookup_lt_Some.
  - assert (S : StronglySorted (term_order i) sorted).
    { apply StronglySorted_merge_sort.
      - intros a b c. rewrite !term_order_le. apply transitivity.
      - intros a b. rewrite !term_order_le. apply term_le_total. }
    revert S. generalize sorted. induction 1 as [|a l S IH F]; constructor; [done|]. eapply Forall_impl; [exact F|]. intros b. apply term_order_le.
Qed.

Definition entry (id : nat) : list Z * Z := (term_at (in_terms i) id, weight_of log (term_at (in_terms i) id)).

Lemma entries_ok : omap_list (entry_of i) sorted = Ok (map entry sorted).
Proof using Hcount.
  apply omap_list_ok. intros id (t & Ht & _)%sorted_elem. unfold entry_of, entry, term_at. rewrite Ht. cbn [expect obind default]. by rewrite (co_counts i log Hcount id t Ht).
Qed.

Lemma entries_elem t n : (t, n) ∈ map entry sorted <-> n = weight_of log t /\ (0 < n)%Z.
Proof using Hcount Hpos.
  rewrite list_elem_of_fmap. split.
  - intros (id & E & (u & Hu & Hp)%sorted_elem). unfold entry, term_at in E. rewrite Hu in E. cbn in E. injection E as -> ->. done.
  - intros [-> Hp]. assert (Ht : t ∈ map fst log) by by apply weight_of_pos. apply (co_known i log Hcount) in Ht as [id Hid]%list_elem_of_lookup.
    exists id. split; [unfold entry, term_at; by rewrite Hid|]. apply sorted_elem. by exists t.
Qed.

Lemma counted_entries_sorted : bsorted (map fst (map entry sorted)).
Proof using Hok Hcount L. rewrite map_map. apply sorted_terms. Qed.

Lemma entries_texts : strings_ok (map fst (map entry sorted)).
Proof using Hok Hcount.
  apply Forall_map, Forall_map, Forall_forall. intros id (t & Ht & _)%sorted_elem. unfold entry, term_at. rewrite Ht. exact (Forall_lookup_1 _ _ _ _ (io_valid i Hok) Ht).
Qed.

Lemma entries_unique es : bsorted (map fst es) -> (forall t n, (t, n) ∈ es <-> n = weight_of log t /\ (0 < n)%Z) -> es = map entry sorted.
Proof using Hok Hcount Hpos L.
  intros Hs He. apply sorted_ext; [done|apply counted_entries_sorted|]. intros [t n]. by rewrite He, entries_elem.
Qed.

Lemma entries_sum : foldr (fun e n => (e.2 + n)%Z) 0%Z (map entry sorted) = total log.
Proof using Hok Hcount Hpos L.
  rewrite <- (sum_weights_total log (map (term_at (in_terms i)) sorted)).
  - generalize sorted. induction l as [|id l IH]; [done|]. cbn [map foldr]. rewrite IH. done.
  - apply bsorted_NoDup, sorted_terms.
  - intros t Ht. assert (Hp : (0 < weight_of log t)%Z) by by apply weight_of_pos. pose proof (proj2 (entries_elem t _) (conj eq_refl Hp)) as He.
    apply list_elem_of_fmap in He as (id & E & Hid). injection E as E _. rewrite E. apply list_elem_of_fmap. by exists id.
Qed.
End Finish.

Lemma bytes_of_entries (es : list (list Z * Z)) :
  foldr (fun e n => (Z.of_nat (length e.1) + n)%Z) 0%Z es = Z.of_nat (length (concat (map fst es))).
Proof. induction es as [|e es IH]; [done|]. cbn [foldr map concat]. rewrite IH, length_app. lia. Qed.

Lemma from_sorted_refs_ok (es : list (list Z * Z)) :
  from_sorted_refs (Z.of_nat (length es)) (Z.of_nat (length (concat (map fst es)))) es = from_sorted es.
Proof.
  unfold from_sorted_refs. destruct es as [|e es]; [done|]. rewrite (proj2 (Z.eqb_neq _ _)) by (cbn [length]; lia).
  destruct (can_pack _ _) eqn:E; [|done]. cbn [negb]. unfold from_sorted. by rewrite E.
Qed.

(** ** Ranks and clearing *)

Lemma rank_counts_ok K r counts :
  NoDup K -> Forall (fun id => id < length counts) K ->
  exists counts', rank_counts K r counts = Ok counts' /\ length counts' = length counts /\
    (forall j id, K !! j = Some id -> counts' !! id = Some (r + Z.of_nat j)%Z) /\ (forall id, id ∉ K -> counts' !! id = counts !! id).
Proof.
  intros Hnd. revert r counts. induction Hnd as [|id K Hid _ IH]; intros r counts Hf; cbn [rank_counts]; [by exists counts|].
  apply Forall_cons in Hf as [Hlt Hf]. destruct (lookup_lt_is_Some_2 counts id Hlt) as [n ->]. cbn [expect obind].
  destruct (IH (r + 1)%Z (<[id := r]> counts)) as (c & -> & Hl & H1 & H2); [by rewrite length_insert|]. rewrite length_insert in Hl.
  exists c. split; [done|]. split; [done|]. split.
  - intros [|j] k Hk; cbn in Hk; [injection Hk as <-; rewrite H2, list_lookup_insert_eq by done; f_equal; lia|]. rewrite (H1 j k Hk). f_equal. lia.
  - intros k [Hne Hk]%not_elem_of_cons. by rewrite H2, list_lookup_insert_ne by done.
Qed.

Lemma clear_counts_ok K counts :
  Forall (fun id => id < length counts) K ->
  exists counts', clear_counts K counts = Ok counts' /\ length counts' = length counts /\
    (forall id, id ∈ K -> counts' !! id = Some 0%Z) /\ (forall id, id ∉ K -> counts' !! id = counts !! id).
Proof.
  revert counts. induction K as [|id K IH]; intros counts Hf; cbn [clear_counts]; [exists counts; split_and!; [done|done|by intros ? ?%elem_of_nil|done]|].
  apply Forall_cons in Hf as [Hlt Hf]. destruct (lookup_lt_is_Some_2 counts id Hlt) as [n ->]. cbn [expect obind].
  destruct (IH (<[id := 0%Z]> counts)) as (c & -> & Hl & H1 & H2); [by rewrite length_insert|]. rewrite length_insert in Hl.
  exists c. split; [done|]. split; [done|]. split.
  - intros k [->|Hk]%elem_of_cons; [|by apply H1]. destruct (decide (id ∈ K)); [by apply H1|]. by rewrite H2, list_lookup_insert_eq.
  - intros k [Hne Hk]%not_elem_of_cons. by rewrite H2, list_lookup_insert_ne by done.
Qed.

(** ** Positions from ranks and from the text *)

Lemma put_gaps_length previous l : length (put_gaps previous l) <= 11 * length l.
Proof. revert previous. induction l as [|p l IH]; intros previous; cbn [put_gaps length]; [lia|]. rewrite length_app. pose proof (put_varint_length (p - previous)). specialize (IH p). lia. Qed.

Lemma term_data_length ranks n : length (term_data ranks n) <= 11 * upto ranks n.
Proof.
  induction n as [|n IH]; [done|]. rewrite term_data_S, upto_S, length_app. pose proof (put_gaps_length 0 (map Z.of_nat (block ranks n))) as P. rewrite length_map in P. lia.
Qed.

(** The positions the table records for the word of a rank. *)
Lemma position_table_ok (keys : list (list Z)) ranks ts j t (k : nat) table :
  NoDup keys -> Forall2 (fun (r : nat) (u : list Z) => keys !! r = Some u) ranks ts -> keys !! j = Some t -> (Z.of_nat (k + length ts) < U32)%Z ->
  position_table ts (Z.of_nat k) table !! t =
  match occurrences j k ranks with [] => table !! t | ps => Some (default [] (table !! t) ++ map Z.of_nat ps) end.
Proof.
  intros Hnd Hf Hj. revert k table. induction Hf as [|r u ranks ts Hr Hf IH]; intros k table Hk; [done|]. cbn [position_table occurrences length] in *.
  replace (Z.of_nat k + 1)%Z with (Z.of_nat (S k)) by lia. rewrite IH by lia. rewrite (wrap_small U32 (Z.of_nat k)) by lia.
  destruct (Nat.eqb_spec r j) as [->|Hne].
  - assert (u = t) as -> by congruence. rewrite lookup_insert_eq. destruct (occurrences j (S k) ranks) as [|p ps]; [done|]. cbn [from_option id map]. by rewrite <- app_assoc.
  - rewrite lookup_insert_ne; [done|]. intros ->. apply Hne. by eapply NoDup_lookup.
Qed.

Lemma text_data_ok table ranks (keys : list (list Z)) n k :
  k + n = length keys -> (Z.of_nat (length (term_data ranks (length keys))) < U32)%Z ->
  (forall j t, keys !! j = Some t -> table !! t = Some (map Z.of_nat (block ranks j))) ->
  text_data (drop k keys) table (term_data ranks k) (map (fun j => Z.of_nat (length (term_data ranks j))) (seq 0 (S k)))
  = Ok (term_data ranks (length keys), map (fun j => Z.of_nat (length (term_data ranks j))) (seq 0 (S (length keys)))).
Proof.
  intros Hk Hlen Ht. revert k Hk. induction n as [|n IH]; intros k Hk.
  - rewrite drop_ge by lia. by replace (length keys) with k by lia.
  - destruct (lookup_lt_is_Some_2 keys k ltac:(lia)) as [t E]. rewrite (drop_S _ _ _ E). cbn [text_data]. rewrite (Ht k t E). cbn [expect obind]. rewrite <- term_data_S.
    rewrite (proj2 (Z.ltb_lt _ _)) by (pose proof (term_data_mono ranks (S k) (length keys) ltac:(lia)); lia).
    specialize (IH (S k) ltac:(lia)). rewrite (seq_S (S k)), map_app in IH. apply IH.
Qed.

(** The positions of a text, by the ranks of its words. *)
Lemma from_text_ranks `{A : Analyzer} text stem table whole (keys : list (list Z)) ranks :
  NoDup keys -> t_keys table = Ok keys -> Forall2 (fun (r : nat) t => keys !! r = Some t) ranks (tokens text stem) ->
  (forall t, t ∈ keys -> t ∈ tokens text stem) -> (11 * Z.of_nat (length (tokens text stem)) < U32)%Z ->
  exists p, from_ranks ranks (length keys) whole = Ok p /\ from_text text stem table whole = Ok p.
Proof.
  intros Hnd Ek Hf Hin Hsmall.
  assert (Hrange : Forall (fun r => r < length keys) ranks).
  { apply Forall_forall. intros r [k Hk]%list_elem_of_lookup. destruct (Forall2_lookup_l _ _ _ _ _ Hf Hk) as (t & _ & Ht). by eapply lookup_lt_Some. }
  pose proof (Forall2_length _ _ _ Hf) as Hrl. pose proof (term_data_length ranks (length keys)) as Hdl. rewrite (upto_all ranks (length keys) Hrange) in Hdl.
  rewrite from_ranks_ok by (try done; lia). eexists. split; [reflexivity|]. unfold from_text. rewrite Ek. cbn [obind].
  pose proof (text_data_ok (position_table (tokens text stem) 0 ∅) ranks keys (length keys) 0 eq_refl) as T. rewrite drop_0 in T. cbn [seq map] in T.
  change (term_data ranks 0) with (@nil Z) in T. cbn [length] in T. change (Z.of_nat 0) with 0%Z in T. rewrite T; [done|lia|].
  intros j t Hj. change 0%Z with (Z.of_nat 0). rewrite (position_table_ok keys ranks (tokens text stem) j t 0 ∅) by (try done; lia).
  fold (block ranks j). pose proof (Hin t (list_elem_of_lookup_2 _ _ _ Hj)) as Ht.
  apply list_elem_of_lookup in Ht as [k Hk]. destruct (Forall2_lookup_r _ _ _ _ _ Hf Hk) as (r & Hrk & Hr'). assert (r = j) as -> by by eapply NoDup_lookup.
  assert (Hb : k ∈ block ranks j) by (apply occurrences_spec; rewrite Nat.sub_0_r; split; [lia|done]).
  destruct (block ranks j) as [|x ps]; [by apply elem_of_nil in Hb|]. by rewrite lookup_empty.
Qed.

Section Positions.
Context `{A : Analyzer} {L : AnalyzerLaws A}.
Context (i : Interner) (log : Log) (Hok : interner_ok i) (Hpos : positive log) (Hcount : counting i log).
Context (text : list Z) (stem : bool).
Context (Hseq : Forall2 (fun id t => in_terms i !! id = Some t) (in_sequence i) (tokens text stem)).
Context (Hknown : forall t, t ∈ tokens text stem <-> t ∈ map fst log).
Context (Hsmall : (11 * Z.of_nat (length (tokens text stem)) < U32)%Z).
Abbreviation sorted := (merge_sort (term_order i) (in_counted i)).

Lemma sorted_range : Forall (fun id => id < length (in_counts i)) sorted.
Proof using Hok Hcount.
  apply Forall_forall. intros id (t & Ht & _)%(sorted_elem i log Hcount). rewrite (io_counts i Hok). by eapply lookup_lt_Some.
Qed.

(** The rank of every word. *)
Lemma sequence_ranks (counts : list Z) :
  (forall j id, sorted !! j = Some id -> counts !! id = Some (Z.of_nat j)) ->
  exists ranks, omap_list (fun id => expect (counts !! id)) (in_sequence i) = Ok (map Z.of_nat ranks) /\
    Forall2 (fun (r : nat) t => map (term_at (in_terms i)) sorted !! r = Some t) ranks (tokens text stem).
Proof using Hcount Hpos Hseq Hknown.
  intros Hc. assert (Hk : Forall (fun t => t ∈ map fst log) (tokens text stem)) by (apply Forall_forall; intros t Ht; by apply Hknown). clear Hknown Hsmall. revert Hk.
  induction Hseq as [|id t ids ts Hid Hrest IH]; intros Hk; [by exists []|]. apply Forall_cons in Hk as [Ht Hk]. destruct (IH Hrest Hk) as (ranks & E & F). cbn [omap_list].
  assert (id ∈ sorted) as [j Hj]%list_elem_of_lookup by (apply (sorted_elem i log Hcount); exists t; split; [done|by apply weight_of_pos]).
  rewrite (Hc j id Hj). cbn [expect obind]. rewrite E. cbn [obind]. exists (j :: ranks). split; [done|]. constructor; [|done].
  rewrite list_lookup_fmap, Hj. cbn. unfold term_at. by rewrite Hid.
Qed.

Lemma from_ranks_text table ranks whole :
  repr (t_terms table) (map (entry i log) sorted) ->
  Forall2 (fun (r : nat) t => map (term_at (in_terms i)) sorted !! r = Some t) ranks (tokens text stem) ->
  exists p, from_ranks ranks (length sorted) whole = Ok p /\ from_text text stem table whole = Ok p.
Proof using Hok Hcount Hpos L Hknown Hsmall.
  intros Hr Hf. rewrite <- (length_map (term_at (in_terms i)) sorted). apply from_text_ranks; [by apply bsorted_NoDup, (sorted_terms i log)| |done| |done].
  - unfold t_keys. rewrite (t_entries_repr _ _ Hr). cbn [obind]. by rewrite map_map.
  - intros t (id & -> & Hid)%list_elem_of_fmap. apply Hknown, weight_of_pos; [done|]. apply (sorted_elem i log Hcount) in Hid as (u & Hu & Hp). unfold term_at. by rewrite Hu.
Qed.
End Positions.

(** ** One chunk *)

Section Chunk.
Context `{A : Analyzer} {L : AnalyzerLaws A}.

(** Between chunks every count is zero. *)
Definition idle (i : Interner) : Prop := interner_ok i /\ counting i [].

Lemma idle_new unstemmed : idle (interner_new unstemmed).
Proof using.
  split; split; try done; cbn [interner_new in_ids in_terms in_words in_counted].
  - intros w id _. unfold wm_get. cbn [wm_short wm_long]. destruct (short_key w); by rewrite lookup_empty.
  - intros id. split; [by intros ?%elem_of_nil|]. intros (t & Ht & _). by rewrite lookup_nil in Ht.
  - constructor.
Qed.

Lemma with_sequence_ok i s r : interner_ok i -> interner_ok (with_sequence i s r).
Proof using. by intros [H1 Hv H2 H3 H4 H5]; split. Qed.

Lemma with_sequence_counting i s r log : counting i log -> counting (with_sequence i s r) log.
Proof using. by intros [H1 H2 H3 H4]; split. Qed.

Lemma finish_ok i log text stem positions :
  interner_ok i -> positive log -> counting i log -> (forall t, t ∈ tokens text stem <-> t ∈ map fst log) -> (11 * Z.of_nat (length (tokens text stem)) < U32)%Z ->
  (match positions with Some _ => Forall2 (fun id t => in_terms i !! id = Some t) (in_sequence i) (tokens text stem) | None => True end) ->
  exists table counts sequence,
    finish i positions = Ok (table, counts, sequence) /\ length counts = length (in_counts i) /\
    (forall id, id ∉ merge_sort (term_order i) (in_counted i) -> counts !! id = in_counts i !! id) /\
    (forall es, bsorted (map fst es) -> (forall t n, (t, n) ∈ es <-> n = weight_of log t /\ (0 < n)%Z) ->
       (let* base := from_sorted es in
        let* p := match positions with None => Ok None | Some whole => let* p := from_text text stem base whole in Ok (Some p) end in
        Ok ({| t_terms := t_terms base; t_positions := p |}, foldr (fun e n => (e.2 + n)%Z) 0%Z es)) = Ok (table, total log)).
Proof using L.
  intros Hok Hp Hc Hk Hs Hseq. unfold finish. cbv zeta. rewrite (entries_ok i log Hc). cbn [obind]. rewrite bytes_of_entries.
  set (es := map (entry i log) _). assert (El : Z.of_nat (length (merge_sort (term_order i) (in_counted i))) = Z.of_nat (length es)) by (unfold es; by rewrite length_map).
  rewrite El, from_sorted_refs_ok. destruct (from_sorted_repr es (entries_texts i log Hok Hc)) as (base & Eb & Hr & Hnone). rewrite Eb. cbn [obind].
  assert (Hun : forall es', bsorted (map fst es') -> (forall t n, (t, n) ∈ es' <-> n = weight_of log t /\ (0 < n)%Z) -> es' = es) by by apply entries_unique.
  pose proof (entries_sum i log Hok Hp Hc) as Hsum. fold es in Hsum. destruct positions as [whole|].
  - destruct (rank_counts_ok _ 0 (in_counts i) (counted_NoDup i log Hc) (sorted_range i log Hok Hc)) as (counts & -> & Hl & H1 & H2). cbn [obind].
    destruct (sequence_ranks i log Hp Hc text stem Hseq Hk counts H1) as (ranks & -> & Hf). cbn [obind]. rewrite map_map.
    rewrite (map_ext _ (fun x => x)), map_id by (intros; apply Nat2Z.id).
    destruct (from_ranks_text i log Hok Hp Hc text stem Hk Hs base ranks whole Hr Hf) as (p & -> & Ep). cbn [obind].
    eexists _, _, _. split; [reflexivity|]. split; [done|]. split; [done|]. intros es' S' E'. rewrite (Hun es' S' E'), Eb. cbn [obind]. rewrite Ep. cbn [obind]. by rewrite Hsum.
  - eexists _, _, _. split; [reflexivity|]. split; [done|]. split; [done|]. intros es' S' E'. rewrite (Hun es' S' E'), Eb. cbn [obind]. rewrite Hsum. destruct base as [b ps]. cbn in Hnone |- *. by subst.
Qed.

(** Clearing makes the interner idle again. *)
Lemma cleared_idle i log counts sequence :
  interner_ok i -> positive log -> counting i log -> length counts = length (in_counts i) ->
  (forall id, id ∉ merge_sort (term_order i) (in_counted i) -> counts !! id = in_counts i !! id) ->
  exists counts', clear_counts (merge_sort (term_order i) (in_counted i)) counts = Ok counts' /\ idle (with_counts (with_sequence i sequence false) counts' []).
Proof using.
  intros Hok Hp Hc Hl Hs. pose proof (sorted_range i log Hok Hc) as Hr. rewrite <- Hl in Hr. destruct (clear_counts_ok _ counts Hr) as (c & -> & Hcl & H1 & H2).
  exists c. split; [done|]. split; [destruct Hok as [G1 Gv G2 G3 G4 G5]; split; cbn; try done; congruence|]. split; cbn.
  - intros id t Ht. destruct (decide (id ∈ merge_sort (term_order i) (in_counted i))) as [Hin|Hin]; [by apply H1|]. rewrite H2, Hs by done.
    rewrite (co_counts i log Hc id t Ht). f_equal. pose proof (weight_of_bounds log t Hp). destruct (decide (0 < weight_of log t)%Z); [|lia].
    exfalso. apply Hin, (sorted_elem i log Hc). by exists t.
  - by intros t ?%elem_of_nil.
  - intros id. split; [by intros ?%elem_of_nil|]. intros (t & _ & ?). lia.
  - constructor.
Qed.

(** The text of a chunk, at most a document. *)
Definition text_fits (text : list Z) (title_weight : Z) : Prop :=
  utf8_valid text = true /\ (Z.of_nat (length text) <= 8 * 1024 * 1024)%Z /\ (title_weight <= 16)%Z.

(** One chunk: the reference analysis, and an idle interner. *)
Lemma chunk_terms_ok i text w stem positions :
  idle i -> text_fits text w ->
  exists i' r, chunk_terms i text w stem positions = Ok (i', r) /\ analysis text w stem positions = Ok r /\ idle i'.
Proof using L.
  intros Hi (Hv & Hlen & Hw). unfold chunk_terms.
  set (i0 := if _ || _ then interner_new (negb stem) else i).
  assert (H0 : idle i0 /\ negb (in_unstemmed i0) = stem /\ (wm_len (in_words i0) < STEM_MEMO_CAPACITY)%Z).
  { unfold i0. destruct (STEM_MEMO_CAPACITY <=? wm_len (in_words i))%Z eqn:E; cbn [orb]; [split; [apply idle_new|split; [apply negb_involutive|done]]|].
    destruct (eqb (in_unstemmed i) stem) eqn:E2; [split; [apply idle_new|split; [apply negb_involutive|done]]|]. bool_to_prop. split; [done|]. split; [|done].
    by destruct (in_unstemmed i), stem. }
  clearbody i0. destruct H0 as ([Hok0 Hc0] & Hform & Hsize). unfold STEM_MEMO_CAPACITY in Hsize. change (Z.shiftl 1 18) with 262144%Z in Hsize.
  set (rec := match positions with Some _ => true | None => false end).
  destruct (count_ok (with_sequence i0 [] rec) text 1) as (i1 & -> & A1); [lia|done|by apply with_sequence_ok|cbn; unfold U32; lia|]. cbn [obind].
  change (in_unstemmed (with_sequence i0 [] rec)) with (in_unstemmed i0) in A1. rewrite Hform in A1.
  destruct (first_line_valid text Hv) as [Hv2 Hl2]. pose proof (tokens_length text stem Hv) as Ht1. pose proof (tokens_length _ stem Hv2) as Ht2.
  destruct A1 as [B1 B2 B3 B4 B5 B6 B7]. cbn [with_sequence in_unstemmed in_record in_terms in_words in_sequence] in *.
  specialize (B7 [] ltac:(constructor) (with_sequence_counting _ _ _ _ Hc0) ltac:(cbn [app]; rewrite weighted_total; unfold U32; lia)). cbn [app] in B7.
  assert (H1 : exists i2, (if (1 <? w)%Z then let* (i, more) := count (with_sequence i1 (in_sequence i1) false) (first_line text) (w - 1) in
       Ok (i, (1 * Z.of_nat (length (split_words text)) + more)%Z) else Ok (with_sequence i1 (in_sequence i1) false, (1 * Z.of_nat (length (split_words text)))%Z))
     = Ok (i2, total (log_of text w stem)) /\ interner_ok i2 /\ in_sequence i2 = in_sequence i1 /\ in_terms i1 `prefix_of` in_terms i2 /\ counting i2 (log_of text w stem)).
  { unfold log_of. destruct (Z.ltb_spec 1 w) as [Hw1|Hw1].
    - destruct (count_ok (with_sequence i1 (in_sequence i1) false) (first_line text) (w - 1)) as (i2 & -> & A2); [lia|done|by apply with_sequence_ok|cbn; unfold U32; lia|]. cbn [obind].
      cbn [with_sequence in_unstemmed] in A2. rewrite B2, Hform in A2. destruct A2 as [C1 C2 C3 C4 C5 C6 C7]. cbn [with_sequence in_unstemmed in_record in_terms in_words in_sequence] in *.
      exists i2. split; [do 2 f_equal; rewrite log_total_app, !weighted_total; unfold tokens; rewrite !length_map; lia|]. split; [done|]. destruct C6 as (ids & -> & _).
      split; [apply app_nil_r|]. split; [done|]. apply C7; [apply weighted_positive; lia|by apply with_sequence_counting|]. rewrite log_total_app, !weighted_total. unfold U32. nia.
    - eexists. split; [do 2 f_equal; rewrite app_nil_r, weighted_total; unfold tokens; rewrite length_map; lia|]. split; [by apply with_sequence_ok|]. split; [done|]. split; [done|].
      rewrite app_nil_r. by apply with_sequence_counting. }
  destruct H1 as (i2 & E2 & Hok2 & Hseq2 & Hpre2 & Hc2). rewrite E2. cbn [obind]. pose proof (log_of_positive text w stem) as Hp.
  destruct (finish_ok i2 (log_of text w stem) text stem positions) as (table & counts & sequence & -> & Hcl & Hcs & Href); [done|done|done| |unfold U32; lia| |].
  - intros t. unfold log_of. rewrite map_app, weighted_fst, elem_of_app. split; [by left|]. intros [Ht|Ht]; [done|]. destruct (1 <? w)%Z; [|by apply elem_of_nil in Ht].
    rewrite weighted_fst in Ht. by apply title_tokens.
  - unfold rec in *. destruct positions; [|done]. destruct B6 as (ids & E & F). cbn [app] in E. rewrite Hseq2, E. eapply Forall2_impl; [exact F|]. intros id t Hid. cbn.
    eapply prefix_lookup_Some; [exact Hid|exact Hpre2].
  - cbn [obind]. destruct (cleared_idle i2 (log_of text w stem) counts sequence Hok2 Hp Hc2 Hcl Hcs) as (counts' & -> & Hidle). cbn [obind].
    eexists _, _. split; [reflexivity|]. split; [|done]. unfold analysis. destruct (weighted_terms_spec text w stem Hv ltac:(unfold U32; lia)) as [S E]. exact (Href _ S E).
Qed.
End Chunk.

(** ** What an analysis holds *)

Section Holds.
Context `{A : Analyzer} {L : AnalyzerLaws A}.

Lemma log_of_total text w stem : text_fits text w -> (total (log_of text w stem) <= 16 * Z.of_nat (length text))%Z.
Proof using.
  intros (Hv & Hl & Hw). destruct (first_line_valid text Hv) as [Hv2 Hl2]. pose proof (tokens_length text stem Hv). pose proof (tokens_length _ stem Hv2).
  unfold log_of. rewrite log_total_app, weighted_total. destruct (Z.ltb_spec 1 w); [rewrite weighted_total; nia|cbn; lia].
Qed.

Lemma log_of_keys text w stem t : utf8_valid text = true -> t ∈ map fst (log_of text w stem) <-> t ∈ tokens text stem.
Proof using L.
  intros Hv. unfold log_of. rewrite map_app, weighted_fst, elem_of_app. split; [|by left]. intros [?|Ht]; [done|]. destruct (1 <? w)%Z; [|by apply elem_of_nil in Ht].
  rewrite weighted_fst in Ht. by apply title_tokens.
Qed.

(** The keys of the table are the words of the text, with positive counts. *)
Lemma weighted_keys text w stem t : utf8_valid text = true -> (Z.of_nat (length text) < U32)%Z -> t ∈ map fst (weighted_terms text w stem) <-> t ∈ tokens text stem.
Proof using L.
  intros Hv Hl. destruct (weighted_terms_spec text w stem Hv Hl) as [_ He]. pose proof (log_of_positive text w stem) as Hp.
  rewrite <- (log_of_keys text w stem t Hv), <- (weight_of_pos (log_of text w stem) t Hp), list_elem_of_fmap. split.
  - intros ([u k] & -> & Hu). apply He in Hu as [-> Hk]. exact Hk.
  - intros Hk. exists (t, weight_of (log_of text w stem) t). split; [done|]. by apply He.
Qed.

Lemma weighted_positive_counts text w stem : text_fits text w -> Forall (fun e : list Z * Z => (0 < e.2 < U32)%Z) (weighted_terms text w stem).
Proof using L.
  intros Hfit. pose proof Hfit as (Hv & Hl & _). destruct (weighted_terms_spec text w stem Hv ltac:(unfold U32; lia)) as [_ He]. apply Forall_forall. intros [t n] Hn. apply He in Hn as [-> Hn].
  pose proof (weight_of_bounds (log_of text w stem) t (log_of_positive text w stem)). pose proof (log_of_total text w stem Hfit). cbn. unfold U32. lia.
Qed.

(** The entries of the table, and the words counted. *)
Lemma weighted_texts text w stem : utf8_valid text = true -> (Z.of_nat (length text) < U32)%Z -> strings_ok (map fst (weighted_terms text w stem)).
Proof using L.
  intros Hv Hl. apply Forall_forall. intros t Ht%weighted_keys; [|done|done]. apply list_elem_of_fmap in Ht as (u & -> & Hu). apply token_valid, run_valid.
  pose proof (split_words_runs text Hv) as Hr. rewrite Forall_forall in Hr. by apply Hr.
Qed.

Lemma analysis_holds text w stem positions table n :
  text_fits text w -> analysis text w stem positions = Ok (table, n) ->
  repr (t_terms table) (weighted_terms text w stem) /\ n = total (log_of text w stem) /\
  Terms.entries_ok (weighted_terms text w stem) /\ length (weighted_terms text w stem) <= length text /\
  match positions with
  | Some whole => exists p, t_positions table = Some p /\ p_version p = if whole then DOCUMENT_VERSION else VERSION
  | None => t_positions table = None
  end.
Proof using L.
  intros Hfit E. pose proof Hfit as (Hv & Hl & _). destruct (weighted_terms_spec text w stem Hv ltac:(unfold U32; lia)) as [Hs He]. pose proof (log_of_positive text w stem) as Hp.
  pose proof (log_of_total text w stem Hfit) as Ht. assert (Hnd : NoDup (map fst (weighted_terms text w stem))) by by apply bsorted_NoDup.
  assert (Hkeys : forall t, t ∈ map fst (weighted_terms text w stem) <-> t ∈ tokens text stem) by (intros t; apply weighted_keys; [done|unfold U32; lia]).
  unfold analysis in E. destruct (from_sorted_repr (weighted_terms text w stem) (weighted_texts text w stem Hv ltac:(unfold U32; lia))) as (base & Eb & Hr & Hnone). rewrite Eb in E. cbn [obind] in E. apply obind_ok in E as (p & Ep & E).
  injection E as <- <-. cbn [t_terms t_positions]. split; [done|]. split.
  { rewrite <- (sum_weights_total (log_of text w stem) (map fst (weighted_terms text w stem)) Hnd) by (intros t Ht'; apply Hkeys; unfold log_of in Ht'; rewrite map_app, weighted_fst in Ht'; apply elem_of_app in Ht' as [?|Ht']; [done|]; destruct (1 <? w)%Z; [rewrite weighted_fst in Ht'; by apply title_tokens|by apply elem_of_nil in Ht']).
    clear - He. assert (F : Forall (fun e : list Z * Z => e.2 = weight_of (log_of text w stem) e.1) (weighted_terms text w stem)) by (apply Forall_forall; intros [t k] Hk; by apply He in Hk as [? _]).
    revert F. generalize (weighted_terms text w stem). induction 1 as [|e l E _ IH]; [done|]. cbn [foldr map]. rewrite IH, E. done. }
  split; [split; [done|]; apply Forall_forall; intros k ([t k'] & -> & Hk)%list_elem_of_fmap; apply He in Hk as [-> Hk]; cbn; pose proof (weight_of_bounds (log_of text w stem) t Hp); unfold is_u32, U32; lia|].
  split.
  - rewrite <- (length_map fst). transitivity (length (tokens text stem)); [|by apply tokens_length]. apply submseteq_length, NoDup_submseteq; [done|].
    intros t Ht'. by apply Hkeys.
  - destruct positions as [whole|]; [|by injection Ep as <-]. apply obind_ok in Ep as (q & Eq & Ep). injection Ep as <-. exists q. split; [done|].
    unfold from_text in Eq. apply obind_ok in Eq as (keys & _ & Eq). apply obind_ok in Eq as ([data offsets] & _ & Eq). by injection Eq as <-.
Qed.
End Holds.

(** ** Any sequence of chunks *)

(** One call of [analyze_chunk]. *)
Record Request := mkRequest { rq_text : list Z; rq_title_weight : Z; rq_stem : bool; rq_positions : option bool }.

Section Requests.
Context `{A : Analyzer} {L : AnalyzerLaws A}.

(** The chunks of a thread, through the interner it keeps. *)
Fixpoint analyze_all (i : Interner) (rs : list Request) : outcome (list (StoredTerms * Z)) :=
  match rs with
  | [] => Ok []
  | r :: rs =>
      let* (i, result) := chunk_terms i (rq_text r) (rq_title_weight r) (rq_stem r) (rq_positions r) in
      let* results := analyze_all i rs in Ok (result :: results)
  end.

Definition reference_all (rs : list Request) : outcome (list (StoredTerms * Z)) :=
  omap_list (fun r => analysis (rq_text r) (rq_title_weight r) (rq_stem r) (rq_positions r)) rs.

Lemma analyze_all_ok i rs :
  idle i -> Forall (fun r => text_fits (rq_text r) (rq_title_weight r)) rs -> exists results, analyze_all i rs = Ok results /\ reference_all rs = Ok results.
Proof using L.
  intros Hi Hf. revert i Hi. induction Hf as [|r rs Hr _ IH]; intros i Hi; [by exists []|]. unfold reference_all. cbn [analyze_all omap_list].
  destruct (chunk_terms_ok i _ _ (rq_stem r) (rq_positions r) Hi Hr) as (i' & x & -> & -> & Hi'). cbn [obind].
  destruct (IH i' Hi') as (xs & -> & E). fold (reference_all rs). rewrite E. by exists (x :: xs).
Qed.

(** C7: the interner changes nothing.  For any sequence of chunks of at most 8 MiB, in either form,
    with or without positions and with any title weight up to 16, an interner kept across all of
    them (its word cache, its term ids and its resets included) returns without a panic, for every
    chunk, exactly the term table, positions and word count of the reference analysis of that chunk
    alone: words counted in a map and sorted, and positions by word. *)
Theorem interned_analysis_exact (rs : list Request) :
  Forall (fun r => text_fits (rq_text r) (rq_title_weight r)) rs ->
  exists results, analyze_all (interner_new false) rs = Ok results /\ reference_all rs = Ok results.
Proof using L. apply analyze_all_ok, idle_new. Qed.
End Requests.

(** ** A concrete analyzer *)

(** ASCII letters and digits, and a stemmer that drops a final s. *)
#[local] Instance toy_analyzer : Analyzer := {|
  is_alphanumeric := is_ascii_alphanumeric;
  to_lowercase := fun w => if is_ascii w && forallb (fun b => (0 <=? b)%Z) w then map to_ascii_lowercase w else w;
  stem_word := fun w => if bool_decide (last w = Some 115%Z) then take (length w - 1) w else w |}.

Lemma ascii_valid w : Forall (fun b => (0 <= b < 0x80)%Z) w -> utf8_valid w = true.
Proof. induction 1 as [|b w Hb _ IH]; [done|]. cbn [utf8_valid]. by rewrite (proj2 (within_spec 0 0x7F b)) by lia. Qed.

#[local] Instance toy_analyzer_laws : AnalyzerLaws toy_analyzer.
Proof.
  split; [done| | |]; cbn [to_lowercase stem_word toy_analyzer].
  - intros w Hw. assert (is_ascii w && forallb (fun b => (0 <=? b)%Z) w = true) as ->; [|done]. unfold is_ascii. rewrite andb_true_iff, !forallb_forall. rewrite Forall_forall in Hw.
    split; intros b Hb%list_elem_of_In; specialize (Hw b Hb); [apply Z.ltb_lt|apply Z.leb_le]; lia.
  - intros w Hw. destruct (is_ascii w && _) eqn:E; [|done]. apply andb_true_iff in E as [E1 E2]. unfold is_ascii in E1. rewrite forallb_forall in E1, E2. apply ascii_valid, Forall_forall.
    intros c (b & -> & Hb)%list_elem_of_fmap. apply list_elem_of_In in Hb. specialize (E1 b Hb). specialize (E2 b Hb). bool_to_prop. unfold to_ascii_lowercase.
    destruct (within 65 90 b) eqn:Eb; [|lia]. apply within_spec in Eb. assert (Z.lor b 32 = b + 32)%Z as ->; [|lia].
    rewrite Z.add_comm. assert (G : forall n : nat, n < 26 -> Z.lor (65 + Z.of_nat n) 32 = (32 + (65 + Z.of_nat n))%Z) by (intros n Hn; do 26 (destruct n; [reflexivity|]); lia).
    specialize (G (Z.to_nat (b - 65)) ltac:(lia)). by replace (65 + Z.of_nat (Z.to_nat (b - 65)))%Z with b in G by lia.
  - intros w Hw. case_bool_decide as E; [|done]. apply last_Some in E as [l ->]. rewrite length_app, take_app_le, take_ge by (simpl; lia).
    by destruct (utf8_split_ascii l 115 []) as [? _]; [lia|exact Hw|].
Qed.

(** "Cats.\ncat dogs", its first line counted twice, twice over. *)
Definition toy_request : Request :=
  {| rq_text := [67; 97; 116; 115; 46; 10; 99; 97; 116; 32; 100; 111; 103; 115]%Z; rq_title_weight := 2; rq_stem := true; rq_positions := Some false |}.

Lemma interned_analysis_exact_witness :
  exists x y, analyze_all (interner_new false) [toy_request; toy_request] = Ok [x; y] /\ x = y /\
    t_entries x.1 = Ok [([99; 97; 116], 3); ([100; 111; 103], 1)]%Z /\ x.2 = 4%Z.
Proof.
  destruct (interned_analysis_exact [toy_request; toy_request]) as (results & E & R).
  - assert (H : text_fits (rq_text toy_request) (rq_title_weight toy_request)) by (split; [reflexivity|]; split; vm_compute; congruence). by repeat constructor.
  - vm_compute in R. injection R as <-. eexists _, _. split; [exact E|]. split; [reflexivity|]. split; reflexivity.
Defined.
