(* ===== verification/Chunking.v ===== *)
(** * Cutting a document into chunks

    [chunk_spans] of [src/core/documents.rs]: a text is cut into windows of [chunk_words] words that
    overlap by [overlap_words], words being runs of characters that are not whitespace.  The byte
    path for ASCII texts and the character path agree; the windows cover every word, lie on
    character boundaries within the limits, and the loop ends. *)

From S2P Require Import Prelude Words Positions Chars.

Definition MAX_CHUNK_BYTES : Z := 64 * 1024.

(** ** Words *)

(** The boundaries of words: a character's index and whether it is whitespace. *)
Fixpoint byte_marks (i : nat) (text : list Z) : list (nat * bool) :=
  match text with
  | [] => []
  | b :: r => (i, (b =? 32)%Z || within 9 13 b) :: byte_marks (S i) r
  end.

(** [char_indices]. *)
Fixpoint char_marks (i : nat) (cs : list (list Z * Z)) : list (nat * bool) :=
  match cs with
  | [] => []
  | (a, c) :: r => (i, is_whitespace c) :: char_marks (i + length a) r
  end.

(** The closure [boundary] over all of them, and the last word. *)
Fixpoint word_loop (marks : list (nat * bool)) (start : option nat) (words : list (nat * nat)) (len : nat) : list (nat * nat) :=
  match marks with
  | [] => match start with Some s => words ++ [(s, len)] | None => words end
  | (i, true) :: r => match start with Some s => word_loop r None (words ++ [(s, i)]) len | None => word_loop r None words len end
  | (i, false) :: r => word_loop r (match start with Some s => Some s | None => Some i end) words len
  end.

Definition word_spans (text : list Z) : list (nat * nat) :=
  word_loop (if is_ascii text then byte_marks 0 text else char_marks 0 (chars text)) None [] (length text).

(** ** Windows *)

Fixpoint chunk_loop (fuel : nat) (words : list (nat * nat)) (size overlap word : nat) (chunks : list (Z * Z)) : outcome (list (Z * Z)) :=
  if word <? length words then
    match fuel with
    | O => Panic
    | S fuel =>
        ensure (length chunks <? 4096) else "document exceeds 4096 chunks; increase chunkWords" ;
        let end_word := (word + size) `min` length words in
        let* first := expect (words !! word) in
        let* last := expect (words !! (end_word - 1)) in
        let* bytes := expect (checked_sub (Z.of_nat last.2) (Z.of_nat first.1)) in
        ensure (bytes <=? MAX_CHUNK_BYTES)%Z else "chunk exceeds 64 KiB; reduce chunkWords or split long tokens" ;
        let chunks := chunks ++ [(wrap U32 (Z.of_nat first.1), wrap U32 (Z.of_nat last.2))] in
        if Nat.eqb end_word (length words) then Ok chunks
        else chunk_loop fuel words size overlap (word + (size - overlap)) chunks
    end
  else Ok chunks.

(** [validate_document_source]. *)
Definition validate_document_source (id text : list Z) : outcome unit :=
  ensure (negb (bool_decide (id = [])) && (Z.of_nat (length id) <=? 4096)%Z && negb (bool_decide (0%Z ∈ id))) else "document id must contain 1..=4096 bytes" ;
  ensure (Z.of_nat (length text) <=? MAX_DOCUMENT_BYTES)%Z else "document exceeds 8 MiB" ;
  Ok tt.

Definition chunk_spans (id text : list Z) (chunk_words overlap_words : option Z) : outcome (list (Z * Z)) :=
  let* _ := validate_document_source id text in
  let size := Z.to_nat (default 256%Z chunk_words) in
  let overlap := Z.to_nat (default (Z.of_nat (32 `min` (size - 1))) overlap_words) in
  ensure ((1 <=? size) && (size <=? 4096) && (overlap <? size)) else "chunkWords must be 1..=4096 and overlapWords smaller than chunkWords" ;
  let words := word_spans text in
  ensure (negb (bool_decide (words = []))) else "document must contain text" ;
  chunk_loop (length words) words size overlap 0 [].

(** ** Both paths find the same words *)

(** Words of a list of characters at an offset, without accumulators. *)
Fixpoint spans_of (cs : list (list Z * Z)) (i : nat) (start : option nat) : list (nat * nat) :=
  match cs with
  | [] => match start with Some s => [(s, i)] | None => [] end
  | (a, c) :: r =>
      if is_whitespace c then match start with Some s => [(s, i)] | None => [] end ++ spans_of r (i + length a) None
      else spans_of r (i + length a) (Some (default i start))
  end.

Lemma word_loop_spans cs i start words :
  word_loop (char_marks i cs) start words (i + length (concat (map fst cs))) = words ++ spans_of cs i start.
Proof.
  revert i start words. induction cs as [|[a c] cs IH]; intros i start words; cbn [char_marks word_loop spans_of map concat fst].
  - rewrite Nat.add_0_r. destruct start; [done|by rewrite app_nil_r].
  - rewrite length_app, Nat.add_assoc. destruct (is_whitespace c); [|rewrite IH; by destruct start]. destruct start as [s|]; rewrite IH; [by rewrite <- app_assoc|done].
Qed.

Lemma chars_concat text : utf8_valid text = true -> concat (map fst (chars text)) = text.
Proof.
  intros Hv. pattern text. revert text Hv. apply utf8_ind; [done|]. intros a c r Ha Hr IH. rewrite (chars_cons a c) by done. cbn [map concat fst]. by rewrite IH.
Qed.

Lemma ascii_char b : (0 <= b < 0x80)%Z -> is_char [b] b.
Proof.
  intros Hb. split; [intros r; cbn; by rewrite (proj2 (Z.ltb_lt _ _)) by lia| |by left|].
  - cbn [utf8_valid]. by rewrite (proj2 (within_spec 0 0x7F b)) by lia.
  - exists b, []. split; [done|]. split; [apply cont_false; lia|constructor].
Qed.

(** On ASCII the two definitions of whitespace agree. *)
Lemma byte_marks_chars text i : utf8_valid text = true -> is_ascii text = true -> byte_marks i text = char_marks i (chars text).
Proof.
  revert i. induction text as [|b text IH]; intros i Hv Ha; [done|]. cbn [is_ascii forallb] in Ha. apply andb_true_iff in Ha as [Hb Ha]. bool_to_prop.
  assert (Hb0 : (0 <= b)%Z) by (apply utf8_bytes, Forall_cons in Hv as [Hb0 _]; unfold is_u8 in Hb0; lia).
  pose proof (ascii_char b ltac:(lia)) as Hc. assert (Hv' : utf8_valid text = true) by (eapply (utf8_rest [b]); [exact Hc|exact Hv]).
  change (b :: text) with ([b] ++ text) at 2. rewrite (chars_cons [b] b) by done. cbn [byte_marks char_marks length]. rewrite Nat.add_1_r, IH by done. do 2 f_equal.
  unfold is_whitespace. rewrite (not_true_is_false (within 0x2000 0x200A b)) by (rewrite within_spec; lia).
  rewrite (proj2 (Z.eqb_neq b 0x85)), (proj2 (Z.eqb_neq b 0xA0)), (proj2 (Z.eqb_neq b 0x1680)), (proj2 (Z.eqb_neq b 0x2028)), (proj2 (Z.eqb_neq b 0x2029)),
    (proj2 (Z.eqb_neq b 0x202F)), (proj2 (Z.eqb_neq b 0x205F)), (proj2 (Z.eqb_neq b 0x3000)), !orb_false_r by lia. apply orb_comm.
Qed.

Lemma word_spans_chars text : utf8_valid text = true -> word_spans text = spans_of (chars text) 0 None.
Proof.
  intros Hv. unfold word_spans. assert (E : (if is_ascii text then byte_marks 0 text else char_marks 0 (chars text)) = char_marks 0 (chars text)) by (destruct (is_ascii text) eqn:Ea; [by apply byte_marks_chars|done]).
  rewrite E. pose proof (word_loop_spans (chars text) 0 None []) as W. rewrite chars_concat in W by done. exact W.
Qed.

(** ** What the words are *)

(** Bytes of a list of characters. *)
Abbreviation span_len cs := (length (concat (map fst cs))).

Lemma open_span cs i s : exists e, (s, e) ∈ spans_of cs i (Some s) /\ i <= e.
Proof.
  revert i. induction cs as [|[a c] cs IH]; intros i; cbn [spans_of]; [exists i; split; [by left|lia]|]. destruct (is_whitespace c).
  - exists i. split; [by left|lia].
  - destruct (IH (i + length a)) as (e & He & Hle). exists e. split; [done|lia].
Qed.

(** Every character that is not whitespace is in a word. *)
Lemma spans_cover cs i start p a c r :
  (forall s, start = Some s -> s <= i) -> cs = p ++ (a, c) :: r -> is_whitespace c = false ->
  exists x, x ∈ spans_of cs i start /\ x.1 <= i + span_len p /\ i + span_len p + length a <= x.2.
Proof.
  intros Hst -> Hc. revert i start Hst. induction p as [|[b d] p IH]; intros i start Hst; cbn [app spans_of map concat fst length].
  - rewrite Hc. destruct (open_span r (i + length a) (default i start)) as (e & He & Hle). exists (default i start, e). split; [done|]. cbn.
    split; [destruct start as [s|]; cbn; [specialize (Hst s eq_refl)|]; lia|lia].
  - rewrite length_app, !Nat.add_assoc. destruct (is_whitespace d).
    + destruct (IH (i + length b) None) as (x & Hx & H1); [done|]. exists x. split; [apply elem_of_app; by right|done].
    + apply IH. intros s [= <-]. destruct start as [s|]; cbn; [specialize (Hst s eq_refl)|]; lia.
Qed.

(** Words are not empty, in order and within the text. *)
Lemma spans_props cs i start :
  Forall (fun x => is_char x.1 x.2) cs -> (forall s, start = Some s -> s < i) ->
  Forall (fun x => default i start <= x.1 /\ x.1 < x.2 <= i + span_len cs) (spans_of cs i start) /\
  StronglySorted (fun x y : nat * nat => x.2 <= y.1) (spans_of cs i start).
Proof.
  intros Hcs. revert i start. induction Hcs as [|[a c] cs Ha _ IH]; intros i start Hst; cbn [spans_of map concat fst length].
  - destruct start as [s|]; [specialize (Hst s eq_refl)|]; split; repeat constructor; cbn; lia.
  - pose proof (is_char_pos _ _ Ha) as Hp. cbn [fst snd] in *. rewrite length_app, !Nat.add_assoc. destruct (is_whitespace c).
    + destruct (IH (i + length a) None) as [F S]; [done|]. cbn [default from_option id] in F. destruct start as [s|]; cbn [app default from_option id].
      * specialize (Hst s eq_refl). split; constructor; [cbn; lia| |done|]; (eapply Forall_impl; [exact F|]; cbn; intros; lia).
      * split; [|done]. eapply Forall_impl; [exact F|]. cbn. intros; lia.
    + destruct (IH (i + length a) (Some (default i start))) as [F S]; [intros s [= <-]; destruct start as [s|]; cbn; [specialize (Hst s eq_refl)|]; lia|]. done.
Qed.

(** Words start and end between characters. *)
Lemma spans_boundary cs i start x :
  x ∈ spans_of cs i start ->
  (start = Some x.1 \/ exists p q, cs = p ++ q /\ x.1 = i + span_len p) /\ exists p q, cs = p ++ q /\ x.2 = i + span_len p.
Proof.
  revert i start. induction cs as [|[a c] cs IH]; intros i start Hx; cbn [spans_of] in Hx.
  - destruct start as [s|]; [|by apply elem_of_nil in Hx]. apply list_elem_of_singleton in Hx as ->. split; [by left|]. exists [], []. cbn. split; [done|lia].
  - assert (Step : forall n, (exists p q, cs = p ++ q /\ n = i + length a + span_len p) -> exists p q, (a, c) :: cs = p ++ q /\ n = i + span_len p).
    { intros n (p & q & -> & ->). exists ((a, c) :: p), q. cbn [map concat fst]. rewrite length_app. split; [done|lia]. }
    destruct (is_whitespace c).
    + apply elem_of_app in Hx as [Hx|Hx].
      * destruct start as [s|]; [|by apply elem_of_nil in Hx]. apply list_elem_of_singleton in Hx as ->. split; [by left|]. exists [], ((a, c) :: cs). cbn. split; [done|lia].
      * destruct (IH _ _ Hx) as [[?|H1] H2]; [done|]. split; [right|]; by apply Step.
    + destruct (IH _ _ Hx) as [[H1|H1] H2]; (split; [|by apply Step]); [|right; by apply Step]. injection H1 as H1. destruct start as [s|]; [left; by rewrite <- H1|]. right.
      exists [], ((a, c) :: cs). cbn in *. split; [done|lia].
Qed.

(** ** The windows *)

Section Windows.
Context (words : list (nat * nat)) (size overlap : nat).
Context (Hsize : 1 <= size) (Hoverlap : overlap < size) (Hwords : words <> []).
Context (Hin : Forall (fun x : nat * nat => x.1 < x.2) words) (Hsorted : StronglySorted (fun x y : nat * nat => x.2 <= y.1) words).
Abbreviation n := (length words).
Abbreviation stride := (size - overlap).

(** The number of windows, and the words and bytes of the [k]-th. *)
Definition windows : nat := if n <=? size then 1 else S (div_ceil (n - size) stride).
Definition window_end (k : nat) : nat := (k * stride + size) `min` n.
Definition window (k : nat) : nat * nat :=
  ((default (0, 0) (words !! (k * stride))).1, (default (0, 0) (words !! (window_end k - 1))).2).

Lemma words_pos : 0 < n.
Proof using Hwords. clear - Hwords. destruct words; [done|]. cbn. lia. Qed.

Lemma windows_start k : k < windows -> k * stride < n.
Proof using Hsize Hoverlap Hwords.
  pose proof words_pos as Hpos. unfold windows. destruct (Nat.leb_spec (n) size) as [H|H]; intros Hk; [nia|].
  assert (k <= (n - size + stride - 1) / stride) as Hk' by (unfold div_ceil in Hk; lia).
  pose proof (Nat.Div0.mul_div_le (n - size + stride - 1) stride). nia.
Qed.

Lemma windows_end k : k < windows -> (window_end k = n <-> S k = windows).
Proof using Hsize Hoverlap Hwords.
  intros Hk. unfold window_end, windows in *. destruct (Nat.leb_spec n size) as [H|H]; [split; lia|]. pose proof (div_ceil_mul_ge (n - size) stride ltac:(lia)) as Hge. split; intros E.
  - pose proof (div_ceil_le (n - size) stride k ltac:(lia) ltac:(lia)). lia.
  - assert (k = div_ceil (n - size) stride) as -> by lia. lia.
Qed.

Lemma windows_count : 1 <= windows <= n.
Proof using Hsize Hoverlap Hwords.
  pose proof words_pos as Hpos. unfold windows. destruct (Nat.leb_spec (n) size); [lia|].
  pose proof (div_ceil_le (n - size) stride (n - size) ltac:(lia) ltac:(nia)). lia.
Qed.

(** Every word is in a window. *)
Lemma windows_cover j : j < n -> exists k, k < windows /\ k * stride <= j < window_end k.
Proof using Hsize Hoverlap Hwords.
  intros Hj. pose proof windows_count. pose proof (Nat.Div0.mul_div_le j stride). pose proof (Nat.mul_succ_div_gt j stride ltac:(lia)).
  destruct (decide (j / stride < windows)) as [Hk|Hk].
  - exists (j / stride). split; [done|]. unfold window_end. nia.
  - exists (windows - 1). split; [lia|]. split; [nia|]. by rewrite (proj2 (windows_end (windows - 1) ltac:(lia))) by lia.
Qed.

Lemma word_order a b x y : a <= b -> words !! a = Some x -> words !! b = Some y -> x.1 <= y.1 /\ x.2 <= y.2 /\ x.1 < y.2.
Proof using Hin Hsorted.
  clear Hsize Hoverlap. intros Hab Ha Hb. pose proof (Forall_lookup_1 _ _ _ _ Hin Ha) as Hx. pose proof (Forall_lookup_1 _ _ _ _ Hin Hb) as Hy. cbn in *.
  destruct (decide (a = b)) as [->|Hne]; [assert (x = y) as -> by congruence; lia|].
  assert (x.2 <= y.1); [|lia]. clear Hin Hwords Hx Hy. revert a b Ha Hb Hab Hne. induction Hsorted as [|w ws Hs IH Hw]; intros [|a] [|b] Ha Hb Hab Hne; try done; try lia.
  - injection Ha as ->. by apply (Forall_lookup_1 _ _ _ _ Hw Hb).
  - apply (IH Hs a b); try done; lia.
Qed.

Lemma window_words k : k < windows -> exists x y, words !! (k * stride) = Some x /\ words !! (window_end k - 1) = Some y /\ window k = (x.1, y.2) /\ x.1 < y.2.
Proof using Hsize Hoverlap Hwords Hin Hsorted.
  intros Hk. pose proof (windows_start k Hk) as Hs. assert (Hw : k * stride <= window_end k - 1 < n) by (unfold window_end; revert Hs; generalize (k * stride); intros; lia). destruct (lookup_lt_is_Some_2 words (k * stride) ltac:(lia)) as [x Hx].
  destruct (lookup_lt_is_Some_2 words (window_end k - 1)) as [y Hy]; [lia|]. exists x, y. split; [done|]. split; [done|]. unfold window. rewrite Hx, Hy.
  split; [done|]. eapply (word_order (k * stride) (window_end k - 1)); [lia|done|done].
Qed.

Definition span_of (k : nat) : Z * Z := (wrap U32 (Z.of_nat (window k).1), wrap U32 (Z.of_nat (window k).2)).
Definition fits_chunk (k : nat) : bool := (Z.of_nat (window k).2 - Z.of_nat (window k).1 <=? MAX_CHUNK_BYTES)%Z.

(** The loop emits the windows, or refuses because of their number or of a window's bytes. *)
Lemma chunk_loop_ok m k fuel :
  k + m = windows -> 0 < m -> m <= fuel ->
  match chunk_loop fuel words size overlap (k * stride) (map span_of (seq 0 k)) with
  | Ok chunks => chunks = map span_of (seq 0 windows) /\ (k <= 4096 -> windows <= 4096) /\ forall j, k <= j < windows -> fits_chunk j = true
  | Err e => (e = "document exceeds 4096 chunks; increase chunkWords" /\ 4096 < windows)
      \/ (e = "chunk exceeds 64 KiB; reduce chunkWords or split long tokens" /\ exists j, k <= j < windows /\ fits_chunk j = false)
  | Panic => False
  end.
Proof using Hsize Hoverlap Hwords Hin Hsorted.
  revert k fuel. induction m as [|m IH]; intros k fuel Hk Hm Hf; [lia|]. destruct fuel as [|fuel]; [lia|]. assert (Hkw : k < windows) by lia.
  cbn [chunk_loop]. rewrite (proj2 (Nat.ltb_lt _ _)) by by apply windows_start. rewrite length_map, length_seq.
  destruct (Nat.ltb_spec k 4096) as [H4|H4]; [|left; split; [done|lia]]. fold (window_end k).
  destruct (window_words k Hkw) as (x & y & Hx & Hy & Hw & Hlt). rewrite Hx, Hy. cbn [expect obind]. unfold checked_sub. rewrite (proj2 (Z.leb_le _ _)) by lia. cbn [expect obind].
  assert (Hfit : fits_chunk k = (Z.of_nat y.2 - Z.of_nat x.1 <=? MAX_CHUNK_BYTES)%Z) by (unfold fits_chunk; by rewrite Hw). rewrite <- Hfit.
  destruct (fits_chunk k) eqn:Ef; [|right; split; [done|]; exists k; split; [lia|done]].
  assert (Hsp : map span_of (seq 0 k) ++ [(wrap U32 (Z.of_nat x.1), wrap U32 (Z.of_nat y.2))] = map span_of (seq 0 (S k))) by (rewrite seq_S, map_app; cbn [map Nat.add]; f_equal; unfold span_of; by rewrite Hw).
  cbv zeta. rewrite Hsp. destruct (Nat.eqb_spec (window_end k) n) as [He|He].
  - apply windows_end in He; [|done]. rewrite He. split; [done|]. split; [lia|]. intros j Hj. by replace j with k by lia.
  - assert (S k <> windows) by (intros H; by apply He, windows_end). replace (k * stride + stride) with (S k * stride) by lia.
    specialize (IH (S k) fuel ltac:(lia) ltac:(lia) ltac:(lia)). destruct (chunk_loop _ _ _ _ _ _) as [chunks|e|]; [|..|done].
    + destruct IH as (H1 & H2 & H3). split; [done|]. split; [lia|]. intros j Hj. destruct (decide (j = k)) as [->|]; [done|]. apply H3. lia.
    + destruct IH as [H1|(H1 & j & Hj & H2)]; [by left|]. right. split; [done|]. exists j. split; [lia|done].
Qed.
End Windows.

(** ** Cutting a text *)

Definition sizes (chunk_words overlap_words : option Z) : nat * nat :=
  let size := Z.to_nat (default 256%Z chunk_words) in (size, Z.to_nat (default (Z.of_nat (32 `min` (size - 1))) overlap_words)).

(** A window of the text: not empty, on character boundaries, within the limits. *)
Definition span_ok (text : list Z) (x : Z * Z) : Prop :=
  (0 <= x.1 < x.2)%Z /\ (x.2 <= Z.of_nat (length text))%Z /\ (x.2 - x.1 <= MAX_CHUNK_BYTES)%Z /\
  is_char_boundary text (Z.to_nat x.1) = true /\ is_char_boundary text (Z.to_nat x.2) = true.

(** Why a document is refused. *)
Definition refused (id text : list Z) (chunk_words overlap_words : option Z) (e : string) : Prop :=
  let '(size, overlap) := sizes chunk_words overlap_words in
  validate_document_source id text = Err e \/
  (e = "chunkWords must be 1..=4096 and overlapWords smaller than chunkWords" /\ (size < 1 \/ 4096 < size \/ size <= overlap)) \/
  (e = "document must contain text" /\ Forall (fun x => is_whitespace x.2 = true) (chars text)) \/
  (e = "document exceeds 4096 chunks; increase chunkWords" /\ 4096 < windows (word_spans text) size overlap) \/
  (e = "chunk exceeds 64 KiB; reduce chunkWords or split long tokens" /\ exists k, k < windows (word_spans text) size overlap /\ fits_chunk (word_spans text) size overlap k = false).

Lemma word_spans_ok text :
  utf8_valid text = true ->
  Forall (fun x : nat * nat => x.1 < x.2) (word_spans text) /\ StronglySorted (fun x y : nat * nat => x.2 <= y.1) (word_spans text) /\
  (forall x, x ∈ word_spans text -> x.2 <= length text /\ is_char_boundary text x.1 = true /\ is_char_boundary text x.2 = true) /\
  (forall p a c r, chars text = p ++ (a, c) :: r -> is_whitespace c = false -> exists x, x ∈ word_spans text /\ x.1 <= span_len p /\ span_len p + length a <= x.2).
Proof.
  intros Hv. rewrite (word_spans_chars text Hv). pose proof (chars_are text Hv) as Hcs. destruct (spans_props (chars text) 0 None Hcs) as [F S]; [done|].
  rewrite chars_concat in F by done. split; [eapply Forall_impl; [exact F|]; cbn; intros; lia|]. split; [done|]. split.
  - intros x Hx. rewrite Forall_forall in F. pose proof (F x Hx) as Hf. cbn in Hf. destruct (spans_boundary _ _ _ _ Hx) as [[?|H1] H2]; [done|].
    assert (B : forall n, (exists p q, chars text = p ++ q /\ n = 0 + span_len p) -> is_char_boundary text n = true).
    { intros n (p & q & E & ->). rewrite <- (chars_concat text Hv) at 1. rewrite E, map_app, concat_app. apply boundary_valid, chars_valid. rewrite E in Hcs. by apply Forall_app in Hcs as [_ ?]. }
    split; [lia|]. split; by apply B.
  - intros p a c r E Hc. destruct (spans_cover (chars text) 0 None p a c r) as (x & Hx & H1); [done|done|done|]. by exists x.
Qed.

Section Cut.
Context (text : list Z) (size overlap : nat) (Hv : utf8_valid text = true) (Hlen : (Z.of_nat (length text) <= MAX_DOCUMENT_BYTES)%Z).
Context (Hsize : 1 <= size) (Hoverlap : overlap < size) (Hwords : word_spans text <> []).
Abbreviation W := (word_spans text).
Abbreviation N := (windows W size overlap).

Lemma cut_span k :
  k < N -> exists x y, W !! (k * (size - overlap)) = Some x /\ W !! (window_end W size overlap k - 1) = Some y /\
    span_of W size overlap k = (Z.of_nat x.1, Z.of_nat y.2) /\ x.1 < y.2 /\ y.2 <= length text /\ window W size overlap k = (x.1, y.2).
Proof using Hv Hlen Hsize Hoverlap Hwords.
  intros Hk. destruct (word_spans_ok text Hv) as (Hin & Hs & Hb & _). destruct (window_words W size overlap Hsize Hoverlap Hwords Hin Hs k Hk) as (x & y & Hx & Hy & Hw & Hlt).
  destruct (Hb y (list_elem_of_lookup_2 _ _ _ Hy)) as [Hle _]. exists x, y. split; [done|]. split; [done|]. split; [|done]. unfold span_of. rewrite Hw. cbn [fst snd].
  unfold MAX_DOCUMENT_BYTES in Hlen. by rewrite !wrap_small by (unfold U32; lia).
Qed.

Lemma cut_ok : (forall k, k < N -> fits_chunk W size overlap k = true) -> Forall (span_ok text) (map (span_of W size overlap) (seq 0 N)).
Proof using Hv Hlen Hsize Hoverlap Hwords.
  intros Hf. apply Forall_forall. intros s (k & -> & Hk)%list_elem_of_fmap. apply elem_of_seq in Hk. destruct (cut_span k ltac:(lia)) as (x & y & Hx & Hy & -> & Hlt & Hle & Hw).
  specialize (Hf k ltac:(lia)). unfold fits_chunk in Hf. rewrite Hw in Hf. bool_to_prop. cbn [fst snd] in *. destruct (word_spans_ok text Hv) as (_ & _ & Hb & _).
  destruct (Hb x (list_elem_of_lookup_2 _ _ _ Hx)) as (_ & B1 & _), (Hb y (list_elem_of_lookup_2 _ _ _ Hy)) as (_ & _ & B2). unfold span_ok. cbn [fst snd]. rewrite !Nat2Z.id.
  split; [lia|]. split; [lia|]. split; [lia|done].
Qed.

Lemma cut_ascending : StronglySorted (fun x y : Z * Z => (x.1 < y.1)%Z /\ (x.2 < y.2)%Z) (map (span_of W size overlap) (seq 0 N)).
Proof using Hv Hlen Hsize Hoverlap Hwords.
  assert (G : forall j k, j < k -> k < N -> ((span_of W size overlap j).1 < (span_of W size overlap k).1)%Z /\ ((span_of W size overlap j).2 < (span_of W size overlap k).2)%Z).
  { intros j k Hjk Hk. destruct (word_spans_ok text Hv) as (Hin & Hs & _ & _).
    destruct (cut_span j ltac:(lia)) as (x & y & Hx & Hy & -> & _), (cut_span k Hk) as (x' & y' & Hx' & Hy' & -> & _). cbn [fst snd].
    assert (He : window_end W size overlap j < window_end W size overlap k).
    { pose proof (windows_end W size overlap Hsize Hoverlap Hwords j ltac:(lia)) as E. unfold window_end in *. nia. }
    assert (M : forall a b u v, a < b -> W !! a = Some u -> W !! b = Some v -> u.1 < v.1 /\ u.2 < v.2).
    { intros a b u v Hab Ha Hb. pose proof (Forall_lookup_1 _ _ _ _ Hin Ha) as Hu. pose proof (Forall_lookup_1 _ _ _ _ Hin Hb) as Hv'. cbn in *.
      assert (u.2 <= v.1); [|lia]. clear - Hs Hab Ha Hb. revert a b Hab Ha Hb. induction Hs as [|w ws Hs IH Hw]; intros [|a] [|b] Hab Ha Hb; try done; try lia.
      - injection Ha as ->. by apply (Forall_lookup_1 _ _ _ _ Hw Hb).
      - apply (IH a b); try done; lia. }
    assert (Hst : j * (size - overlap) < k * (size - overlap)) by nia. pose proof (M _ _ _ _ Hst Hx Hx').
    assert (1 <= window_end W size overlap j) by (unfold window_end; pose proof (words_pos W Hwords); generalize (j * (size - overlap)); intros; lia).
    assert (Hen : window_end W size overlap j - 1 < window_end W size overlap k - 1) by lia. pose proof (M _ _ _ _ Hen Hy Hy'). lia. }
  revert G. generalize N. intros m G. assert (H : forall a n, a + n <= m -> StronglySorted (fun x y : Z * Z => (x.1 < y.1)%Z /\ (x.2 < y.2)%Z) (map (span_of W size overlap) (seq a n))).
  { intros a n. revert a. induction n as [|n IH]; intros a Ha; cbn [seq map]; constructor; [apply IH; lia|]. apply Forall_forall. intros s (k & -> & Hk)%list_elem_of_fmap. apply elem_of_seq in Hk. apply G; lia. }
  apply H. lia.
Qed.

Lemma cut_cover p a c r :
  chars text = p ++ (a, c) :: r -> is_whitespace c = false ->
  exists s, s ∈ map (span_of W size overlap) (seq 0 N) /\ (s.1 <= Z.of_nat (span_len p))%Z /\ (Z.of_nat (span_len p + length a) <= s.2)%Z.
Proof using Hv Hlen Hsize Hoverlap Hwords.
  intros E Hc. destruct (word_spans_ok text Hv) as (Hin & Hs & _ & Hcov). destruct (Hcov p a c r E Hc) as (w & [j Hj]%list_elem_of_lookup & H1 & H2).
  destruct (windows_cover W size overlap Hsize Hoverlap Hwords j ltac:(by eapply lookup_lt_Some)) as (k & Hk & Hkj). destruct (cut_span k Hk) as (x & y & Hx & Hy & Es & _).
  exists (span_of W size overlap k). split; [apply list_elem_of_fmap; exists k; split; [done|apply elem_of_seq; lia]|]. rewrite Es. cbn [fst snd].
  pose proof (word_order W Hin Hs _ j x w (proj1 Hkj) Hx Hj).
  assert (Hjl : j <= window_end W size overlap k - 1) by lia. pose proof (word_order W Hin Hs j _ w y Hjl Hj Hy). lia.
Qed.
End Cut.

Lemma chunk_spans_ok (id text : list Z) (chunk_words overlap_words : option Z) :
  utf8_valid text = true ->
  match chunk_spans id text chunk_words overlap_words with
  | Ok spans =>
      1 <= length spans <= 4096 /\ Forall (span_ok text) spans /\ StronglySorted (fun x y : Z * Z => (x.1 < y.1)%Z /\ (x.2 < y.2)%Z) spans /\
      forall p a c r, chars text = p ++ (a, c) :: r -> is_whitespace c = false ->
        exists s, s ∈ spans /\ (s.1 <= Z.of_nat (span_len p))%Z /\ (Z.of_nat (span_len p + length a) <= s.2)%Z
  | Err e => refused id text chunk_words overlap_words e
  | Panic => False
  end.
Proof.
  intros Hv. unfold chunk_spans, refused, sizes. cbv zeta. set (size := Z.to_nat (default 256%Z chunk_words)). set (overlap := Z.to_nat (default _ overlap_words)).
  destruct (validate_document_source id text) as [u|e|] eqn:Ev; cbn [obind]; [|by left|].
  2: { unfold validate_document_source in Ev. repeat case_match; done. }
  assert (Hlen : (Z.of_nat (length text) <= MAX_DOCUMENT_BYTES)%Z) by (unfold validate_document_source in Ev; inv_ok; by bool_to_prop).
  destruct ((1 <=? size) && (size <=? 4096) && (overlap <? size)) eqn:Es; [|right; left; split; [done|]; rewrite !andb_false_iff, Nat.leb_gt, Nat.leb_gt, Nat.ltb_ge in Es; lia].
  bool_to_prop. case_bool_decide as Ew; cbn [negb].
  - right. right. left. split; [done|]. apply Forall_forall. intros [a c] (p & r & E)%list_elem_of_split. destruct (is_whitespace c) eqn:Hc; [done|]. exfalso.
    destruct (word_spans_ok text Hv) as (_ & _ & _ & Hcov). destruct (Hcov p a c r E Hc) as (x & Hx & _). rewrite Ew in Hx. by apply elem_of_nil in Hx.
  - destruct (word_spans_ok text Hv) as (Hin & Hs & _ & _). pose proof (windows_count (word_spans text) size overlap ltac:(done) ltac:(done) Ew) as Hn.
    pose proof (chunk_loop_ok (word_spans text) size overlap ltac:(done) ltac:(done) Ew Hin Hs (windows (word_spans text) size overlap) 0 (length (word_spans text)) eq_refl ltac:(lia) ltac:(lia)) as Hl.
    cbn [seq map Nat.mul] in Hl. destruct (chunk_loop _ _ _ _ _ _) as [spans|e|]; [| |done].
    + destruct Hl as (-> & H4 & Hf). rewrite length_map, length_seq. split; [lia|]. split; [apply cut_ok; try done; intros k Hk; apply Hf; lia|].
      split; [by apply cut_ascending|]. intros p a c r E Hc. by eapply cut_cover.
    + destruct Hl as [Hl|(-> & k & Hk & Hf)]; [by right; right; right; left|]. right. right. right. right. split; [done|]. exists k. split; [lia|done].
Qed.

(** C8: chunks cover the text.  Cutting a text never panics and always ends: it returns between 1
    and 4096 chunks, each of at most 64 KiB, not empty, within the text and on character boundaries,
    their starts and ends ascending, such that every character that is not whitespace is in one of
    them; or it refuses the document for one of the stated reasons (the id, the length, the sizes, a
    text of whitespace, too many windows or a window over 64 KiB). *)
Theorem chunk_spans_cover (id text : list Z) (chunk_words overlap_words : option Z) :
  utf8_valid text = true ->
  match chunk_spans id text chunk_words overlap_words with
  | Ok spans =>
      1 <= length spans <= 4096 /\ Forall (span_ok text) spans /\ StronglySorted (fun x y : Z * Z => (x.1 < y.1)%Z /\ (x.2 < y.2)%Z) spans /\
      forall p a c r, chars text = p ++ (a, c) :: r -> is_whitespace c = false ->
        exists s, s ∈ spans /\ (s.1 <= Z.of_nat (span_len p))%Z /\ (Z.of_nat (span_len p + length a) <= s.2)%Z
  | Err e => refused id text chunk_words overlap_words e
  | Panic => False
  end.
Proof. apply chunk_spans_ok. Qed.

(** "to be or not to be" in windows of three words that overlap by one. *)
Definition to_be : list Z := [116; 111; 32; 98; 101; 32; 111; 114; 32; 110; 111; 116; 32; 116; 111; 32; 98; 101]%Z.

Lemma chunk_spans_cover_witness :
  chunk_spans [100]%Z to_be (Some 3%Z) (Some 1%Z) = Ok [(0, 8); (6, 15); (13, 18)]%Z /\ Forall (span_ok to_be) [(0, 8); (6, 15); (13, 18)]%Z.
Proof.
  pose proof (chunk_spans_cover [100]%Z to_be (Some 3%Z) (Some 1%Z) eq_refl) as H.
  assert (E : chunk_spans [100]%Z to_be (Some 3%Z) (Some 1%Z) = Ok [(0, 8); (6, 15); (13, 18)]%Z) by (vm_compute; reflexivity). rewrite E in H. split; [exact E|apply H].
Defined.
