(* ===== verification/Ingest.v ===== *)
(** * Preparing a document

    [prepare_with_options] of [src/core/documents.rs]: a document input is checked, cut into chunks
    and analysed into the document the journal and the store hold.  What it returns passes the
    checks of replay ([validate_mutation] of [src/core/engine/mutation.rs], with the byte limits of
    [src/core/format/scan.rs]) and is within what the theorems about stores ask of a document. *)

From S2P Require Import Prelude Words BitPack Search Positions Terms FrameDict TextSegment Binary Share TermDict Postings Cursor PostingEdit PostingRuns CheckpointLists Lists Indexing Bulk IndexRuns Filters SlotTable Store Overlay Capacity StoreSpec StoreEdits StoreRuns StoreHistory Journal Hostile ImageDict Image ImageOpen ImageWrite ImageEncode ImageLayout ImageStore ImageRoundtrip ImageServes ImageBase StoreText TextRecords TextSim TextEdits TextStrip TextHistory ChunkRead Chars Interner Analysis Chunking.

(** ** Inputs *)

Inductive TextEncoder := MultiscaleWordsV1 | MultiscaleCappedUnionV1 | LocalEmbedV1 | MultiscaleWordsV2.
Definition is_embedding (e : TextEncoder) : bool := match e with LocalEmbedV1 => true | _ => false end.

Inductive EncodeMode := Eager | Deferred | LexicalOnly.

Record IngestOptions := mkOptions { op_encode : EncodeMode; op_unstemmed : bool; op_positions : bool; op_whole_document : bool }.

(** [valid_vector]. *)
Fixpoint rising (l : list Z) : bool :=
  match l with a :: (b :: _) as r => (a <? b)%Z && rising r | _ => true end.
Definition valid_vector (v : EntangledHVec) (dimensions : Z) : bool :=
  (hv_dim v =? dimensions)%Z && match last (hv_indices v) with Some i => (i <? dimensions)%Z | None => true end && rising (hv_indices v).

(** The floating-point side: [normalize_embedding] of a client's values, rounded to the stored
    words; [normalize_embedding] of stored words; the text encoders; [EntangledHVec::from_dense]. *)
Class Vectors := {
  float : Type;
  normalize : list float -> Z -> outcome (list Z);
  renormalize : list Z -> Z -> outcome unit;
  encode : TextEncoder -> list Z -> Z -> EntangledHVec;
  from_dense : list Z -> Z -> EntangledHVec }.

Class VectorLaws {F : Vectors} : Prop := {
  normalize_total : forall v dim, normalize v dim <> Panic;
  normalize_again : forall v dim e, normalize v dim = Ok e -> renormalize e dim = Ok tt;
  encode_valid : forall e text dim, is_embedding e = false -> valid_vector (encode e text dim) dim = true;
  from_dense_valid : forall e dim, valid_vector (from_dense e dim) dim = true }.
Arguments VectorLaws : clear implicits.

Section Ingest.
Context {V : Type} {F : Vectors} {A : Analyzer}.
(** JSON: whether a value is an object, [json!({})], and the length of an optional value as text. *)
Context (is_object : V -> bool) (empty_object : V) (json_len : option V -> Z).
Abbreviation Doc := (StoredDocument V).

Record DocumentInput := mkInput {
  di_id : list Z; di_text : list Z; di_source_uri : option (list Z); di_version : option (list Z); di_metadata : option V;
  di_chunk_words : option Z; di_overlap_words : option Z; di_store_text : option bool;
  di_embeddings : option (list (list float)); di_title_weight : option Z }.

Definition check_mode (input : DocumentInput) (encoder : TextEncoder) (mode : EncodeMode) : outcome unit :=
  let deferred := match mode with Deferred => true | _ => false end in
  ensure (negb deferred || negb (is_embedding encoder)) else "deferred encoding applies to text encoders; vectors come from embeddings" ;
  ensure (negb deferred || default true (di_store_text input)) else "deferred encoding needs the chunk text; set storeText or encode eagerly" ;
  Ok tt.

Definition chunk_spans_with (input : DocumentInput) (options : IngestOptions) : outcome (list (Z * Z)) :=
  if negb (op_whole_document options) then chunk_spans (di_id input) (di_text input) (di_chunk_words input) (di_overlap_words input)
  else
    ensure (match op_encode options with LexicalOnly => op_positions options | _ => false end) else "whole-document ingest requires lexical encoding and positions" ;
    let* _ := validate_document_source (di_id input) (di_text input) in
    ensure (existsb (fun x => negb (is_whitespace x.2)) (chars (di_text input))) else "document must contain text" ;
    Ok [(0%Z, wrap U32 (Z.of_nat (length (di_text input))))].

(** The vector of a chunk. *)
Definition chunk_vector (mode : EncodeMode) (encoder : TextEncoder) (text : list Z) (embedding : option (list Z)) (dimensions : Z) : outcome (EntangledHVec * VectorState) :=
  match mode, is_embedding encoder, embedding with
  | LexicalOnly, _, _ => Ok ({| hv_dim := dimensions; hv_indices := [] |}, Lexical)
  | Deferred, _, _ => Ok ({| hv_dim := dimensions; hv_indices := [] |}, Pending)
  | Eager, false, _ => Ok (encode encoder text dimensions, Encoded)
  | Eager, true, Some e => Ok (from_dense e dimensions, Encoded)
  | Eager, true, None => Err "the text encoder needs a dense embedding for every chunk; install a text embedder"
  end.

Section Prepare.
Context (input : DocumentInput) (dimensions : Z) (embedding_dimensions : option Z) (keys : option (list (list Z))) (encoder : TextEncoder) (options : IngestOptions).

Definition prepare_chunk (i : Interner) (index : nat) (span : Z * Z) (title_weight : Z) : outcome (Interner * StoredChunk) :=
  let* text := str_slice (di_text input) (Z.to_nat span.1) (Z.to_nat span.2) in
  let* source := match keys with None => Ok text | Some k => expect (k !! index) end in
  ensure (negb (op_positions options) || match keys with None => true | Some _ => false end) else "positions require the original chunk text as the lexical key" ;
  let* (i, (terms, word_count)) :=
    Interner.chunk_terms i source (if Nat.eqb index 0 then title_weight else 1%Z) (negb (op_unstemmed options))
      (if op_positions options then Some (op_whole_document options) else None) in
  let* embedding := match di_embeddings input with
                    | None => Ok None
                    | Some all => let* values := expect (all !! index) in let* e := normalize values (default 0%Z embedding_dimensions) in Ok (Some e)
                    end in
  let* (vector, vector_state) := chunk_vector (op_encode options) encoder text embedding dimensions in
  let* id := chunk_id (di_id input) (Z.of_nat index) in
  Ok (i, {| c_id := id; c_text := if default true (di_store_text input) then Some text else None; c_text_at := None;
            c_start_byte := span.1; c_end_byte := span.2; c_vector := vector; c_embedding := embedding; c_terms := terms;
            c_word_count := word_count; c_stemmed := negb (op_unstemmed options); c_vector_state := vector_state |}).

Fixpoint prepare_chunks (i : Interner) (index : nat) (spans : list (Z * Z)) (title_weight : Z) : outcome (Interner * list StoredChunk) :=
  match spans with
  | [] => Ok (i, [])
  | span :: spans =>
      let* (i, c) := prepare_chunk i index span title_weight in
      let* (i, cs) := prepare_chunks i (S index) spans title_weight in
      Ok (i, c :: cs)
  end.

Definition prepare_spans (i : Interner) (spans : list (Z * Z)) : outcome (Interner * Doc) :=
  let* _ := check_mode input encoder (op_encode options) in
  ensure (match keys with None => true | Some k => Nat.eqb (length k) (length spans) end) else "provide one key per chunk" ;
  ensure (match di_metadata input with None => true | Some v => is_object v end) else "metadata must be a JSON object" ;
  ensure (json_len (di_metadata input) <=? 64 * 1024)%Z else "metadata exceeds 64 KiB" ;
  ensure (match di_source_uri input with None => true | Some s => (Z.of_nat (length s) <=? 8192)%Z end) else "sourceUri exceeds 8192 bytes" ;
  ensure (match di_version input with None => true | Some s => negb (bool_decide (s = [])) && (Z.of_nat (length s) <=? 1024)%Z end) else "version requires 1..=1024 bytes" ;
  let* _ := match di_embeddings input with
            | None => Ok tt
            | Some es =>
                ensure (match embedding_dimensions with Some _ => Nat.eqb (length es) (length spans) | None => false end)
                  else "provide one embedding per chunk and configure the store embedding space" ;
                ensure (Z.of_nat (length (concat es)) <=? 1048576)%Z else "document exceeds 1048576 embedding values; split the document" ;
                Ok tt
            end in
  let title_weight := default 1%Z (di_title_weight input) in
  ensure ((1 <=? title_weight)%Z && (title_weight <=? 16)%Z) else "titleWeight must be between 1 and 16" ;
  let* (i, chunks) := prepare_chunks i 0 spans title_weight in
  Ok (i, {| doc_id := di_id input; doc_source_uri := di_source_uri input; doc_version := default [49]%Z (di_version input);
            doc_metadata := default empty_object (di_metadata input); doc_chunks := chunks |}).

Definition prepare_with_options (i : Interner) : outcome (Interner * Doc) :=
  let* _ := check_mode input encoder (op_encode options) in
  let* spans := chunk_spans_with input options in
  prepare_spans i spans.
End Prepare.

(** ** Replay *)

(** [chunk_byte_limit]. *)
Definition chunk_byte_limit (whole_document : bool) (chunk_count : nat) (start_byte : Z) (lexical : bool) : option Z :=
  if negb whole_document then Some MAX_CHUNK_BYTES
  else if lexical && Nat.eqb chunk_count 1 && (start_byte =? 0)%Z then Some MAX_DOCUMENT_BYTES else None.

(** [validate_id]. *)
Definition validate_id (id : list Z) : outcome unit :=
  ensure (id_allowed id) else "IDs must contain 1..=65535 UTF-8 bytes and no null characters" ; Ok tt.

Definition validate_chunk (dimensions : Z) (embedding_dimensions : option Z) (chunk_count : nat) (c : StoredChunk) : outcome unit :=
  let* _ := validate_id (c_id c) in
  let lexical := match c_vector_state c with Lexical => true | _ => false end in
  match chunk_byte_limit (is_whole_document (c_terms c)) chunk_count (c_start_byte c) lexical with
  | None => Err "whole-document postings require one lexical chunk"
  | Some chunk_limit =>
      ensure (valid_vector (c_vector c) dimensions && (c_start_byte c <? c_end_byte c)%Z && (c_end_byte c <=? MAX_DOCUMENT_BYTES)%Z
              && (c_end_byte c - c_start_byte c <=? chunk_limit)%Z
              && match c_text c with None => true | Some t => (Z.of_nat (length t) =? c_end_byte c - c_start_byte c)%Z end)
        else "document vector dimension mismatch" ;
      match c_embedding c with Some e => renormalize e (default 0%Z embedding_dimensions) | None => Ok tt end
  end.

(** [validate_mutation] of a document. *)
Definition validate_document (dimensions : Z) (embedding_dimensions : option Z) (d : Doc) : outcome unit :=
  let* _ := validate_id (doc_id d) in
  ensure (negb (bool_decide (doc_chunks d = [])) && (length (doc_chunks d) <=? 4096)) else "invalid document chunk count" ;
  let* _ := omap_list (validate_chunk dimensions embedding_dimensions (length (doc_chunks d))) (doc_chunks d) in
  Ok tt.
End Ingest.

(** ** Ids of chunks *)

Lemma decimal_digits room v digits ds :
  decimal_loop room v digits = Ok ds -> Forall (fun d => (48 <= d)%Z) digits -> Forall (fun d => (48 <= d)%Z) ds /\ length ds <= room + length digits.
Proof.
  revert v digits. induction room as [|room IH]; intros v digits E Hd; cbn [decimal_loop] in E; [done|].
  assert (Hd' : Forall (fun d => (48 <= d)%Z) ((48 + v mod 10)%Z :: digits)) by (constructor; [pose proof (Z.mod_pos_bound v 10); lia|done]).
  destruct (_ =? 0)%Z; [injection E as <-; split; [done|cbn [length]; lia]|]. destruct (IH _ _ E Hd') as [H1 H2]. split; [done|]. cbn [length] in H2. lia.
Qed.

Lemma chunk_id_allowed document (index : nat) :
  (Z.of_nat (length document) <= 4096)%Z -> 0%Z ∉ document -> index < 4096 ->
  exists id, chunk_id document (Z.of_nat index) = Ok id /\ id_allowed id = true.
Proof.
  intros Hl Hn Hi. unfold chunk_id, chunk_id_parts. destruct (decimal_ok (Z.of_nat (length document))) as [a Ea]; [unfold is_u64, U64; lia|].
  destruct (decimal_ok (Z.of_nat index)) as [b Eb]; [unfold is_u64, U64; lia|]. rewrite Ea, Eb. cbn [obind]. eexists. split; [reflexivity|].
  destruct (decimal_digits 20 _ [] a Ea ltac:(constructor)) as [Ha1 Ha2], (decimal_digits 20 _ [] b Eb ltac:(constructor)) as [Hb1 Hb2]. cbn [length] in *.
  assert (Hz : forall l, Forall (fun d => (48 <= d)%Z) l -> 0%Z ∉ l) by (intros l Hf H0; rewrite Forall_forall in Hf; specialize (Hf _ H0); lia).
  unfold id_allowed. rewrite (bool_decide_false (concat _ = [])) by done. rewrite (proj2 (Z.ltb_lt _ _)); [|unfold U16; cbn [concat]; rewrite !length_app; cbn [CHUNK_PREFIX COLON length]; lia].
  rewrite bool_decide_false; [done|]. cbn [concat]. rewrite !elem_of_app. pose proof (Hz a Ha1). pose proof (Hz b Hb1). intros Hin.
  destruct Hin as [Hin|[Hin|[Hin|[Hin|[Hin|[Hin|Hin]]]]]]; try done; unfold CHUNK_PREFIX, COLON in Hin; rewrite ?elem_of_cons, elem_of_nil in Hin; lia.
Qed.

(** ** What is prepared *)

Section Prepared.
Context {V : Type} {F : Vectors} {FL : VectorLaws F} {A : Analyzer} {L : AnalyzerLaws A}.
Context (is_object : V -> bool) (empty_object : V) (json_len : option V -> Z).
Context (input : DocumentInput (V := V)) (dimensions : Z) (embedding_dimensions : option Z) (keys : option (list (list Z))) (encoder : TextEncoder) (options : IngestOptions).
Context (Hvalid : utf8_valid (di_text input) = true).
Context (Hkeys : forall ks, keys = Some ks -> Forall (fun k => utf8_valid k = true /\ (Z.of_nat (length k) <= MAX_DOCUMENT_BYTES)%Z) ks).

Abbreviation whole := (op_whole_document options).
Abbreviation text_of span := (take (Z.to_nat span.2 - Z.to_nat span.1) (drop (Z.to_nat span.1) (di_text input))).

(** The lexical key of a chunk. *)
Definition source_of (k : nat) (span : Z * Z) : list Z := match keys with None => text_of span | Some ks => default [] (ks !! k) end.
Definition weight_at (k : nat) : Z := if Nat.eqb k 0 then default 1%Z (di_title_weight input) else 1%Z.

(** What a chunk holds. *)
Record holds_chunk (k : nat) (span : Z * Z) (c : StoredChunk) : Prop := {
  hc_span : (c_start_byte c, c_end_byte c) = span;
  hc_id : chunk_id (di_id input) (Z.of_nat k) = Ok (c_id c);
  hc_text : c_text c = if default true (di_store_text input) then Some (text_of span) else None;
  hc_terms : analysis (source_of k span) (weight_at k) (negb (op_unstemmed options)) (if op_positions options then Some whole else None) = Ok (c_terms c, c_word_count c);
  hc_fits : SlotTable.chunk_fits c;
  hc_fresh : chunk_fresh c;
  hc_state : op_encode options = LexicalOnly -> c_vector_state c = Lexical }.

(** The spans of a document of [n] chunks. *)
Definition span_fits (n : nat) (x : Z * Z) : Prop :=
  (0 <= x.1 < x.2)%Z /\ (x.2 <= Z.of_nat (length (di_text input)))%Z /\
  is_char_boundary (di_text input) (Z.to_nat x.1) = true /\ is_char_boundary (di_text input) (Z.to_nat x.2) = true /\
  if whole then n = 1 /\ x.1 = 0%Z /\ op_positions options = true /\ op_encode options = LexicalOnly else (x.2 - x.1 <= MAX_CHUNK_BYTES)%Z.

Lemma spans_ok_with : match chunk_spans_with input options with
  | Ok spans => validate_document_source (di_id input) (di_text input) = Ok tt /\ 1 <= length spans <= 4096 /\ Forall (span_fits (length spans)) spans
  | Err _ => True | Panic => False end.
Proof using Hvalid.
  unfold chunk_spans_with. destruct whole eqn:Ew; cbn [negb].
  - destruct (op_encode options) eqn:Em; try done. destruct (op_positions options) eqn:Ep; [|done].
    destruct (validate_document_source (di_id input) (di_text input)) as [[]|e|] eqn:Ev; cbn [obind]; [|done|unfold validate_document_source in Ev; repeat case_match; done].
    destruct (existsb _ _) eqn:Ex; [|done]. assert (Hlen : (Z.of_nat (length (di_text input)) <= MAX_DOCUMENT_BYTES)%Z) by (unfold validate_document_source in Ev; inv_ok; by bool_to_prop).
    unfold MAX_DOCUMENT_BYTES in Hlen. split; [done|]. split; [cbn; lia|]. constructor; [|constructor]. unfold span_fits. rewrite Ew, Ep, Em. cbn [fst snd length].
    rewrite wrap_small by (unfold U32; lia). rewrite Nat2Z.id. split; [|split; [lia|split; [done|split; [apply boundary_end|done]]]].
    destruct (di_text input) as [|b t]; [by apply existsb_exists in Ex as (? & [] & _)|]. cbn [length]. lia.
  - pose proof (chunk_spans_ok (di_id input) (di_text input) (di_chunk_words input) (di_overlap_words input) Hvalid) as H.
    destruct (chunk_spans _ _ _ _) as [spans|e|] eqn:E; [|done|done]. destruct H as (H1 & H2 & _). split; [|split; [done|]].
    + unfold chunk_spans in E. destruct (validate_document_source _ _) as [[]| |]; done.
    + eapply Forall_impl; [exact H2|]. intros x (B1 & B2 & B3 & B4 & B5). unfold span_fits. by rewrite Ew.
Qed.

(** The text of a span. *)
Lemma span_text n span :
  span_fits n span -> (Z.of_nat (length (di_text input)) <= MAX_DOCUMENT_BYTES)%Z ->
  str_slice (di_text input) (Z.to_nat span.1) (Z.to_nat span.2) = Ok (text_of span) /\ utf8_valid (text_of span) = true /\
  (Z.of_nat (length (text_of span)) = span.2 - span.1)%Z.
Proof using Hvalid.
  intros (H1 & H2 & B1 & B2 & _) Hl. unfold str_slice. rewrite B1, B2. cbn [andb]. rewrite slice_Ok by lia. split; [done|]. split; [apply utf8_slice; [done|done|done|lia|lia]|].
  rewrite length_take, length_drop. lia.
Qed.

Section Chunk.
Context (n : nat) (Hsource : validate_document_source (di_id input) (di_text input) = Ok tt) (Hn : n <= 4096).
Context (Hweight : (1 <= default 1 (di_title_weight input) <= 16)%Z).
Context (Hks : forall ks, keys = Some ks -> length ks = n) (Hes : forall es, di_embeddings input = Some es -> length es = n).

Lemma source_parts : (Z.of_nat (length (di_id input)) <= 4096)%Z /\ (0%Z ∉ di_id input) /\ di_id input <> [] /\ (Z.of_nat (length (di_text input)) <= MAX_DOCUMENT_BYTES)%Z.
Proof using Hsource. unfold validate_document_source in Hsource. inv_ok. by bool_to_prop. Qed.

(** The key of a chunk is there and can be analysed. *)
Lemma source_fits k span :
  k < n -> span_fits n span ->
  (match keys with None => Ok (text_of span) | Some ks => expect (ks !! k) end) = Ok (source_of k span) /\ text_fits (source_of k span) (weight_at k).
Proof using Hvalid Hkeys Hsource Hweight Hks Hn.
  intros Hk Hspan. destruct source_parts as (_ & _ & _ & Hl). destruct (span_text n span Hspan Hl) as (_ & Hv & Hlen). unfold source_of.
  assert (Hw : (weight_at k <= 16)%Z) by (unfold weight_at; destruct (Nat.eqb k 0); lia).
  destruct keys as [ks|] eqn:E.
  - destruct (lookup_lt_is_Some_2 ks k) as [x Hx]; [by rewrite (Hks ks eq_refl)|]. rewrite Hx. split; [done|]. pose proof (Hkeys ks eq_refl) as Hf. rewrite Forall_lookup in Hf.
    destruct (Hf k x Hx) as [H1 H2]. unfold MAX_DOCUMENT_BYTES in H2. by split.
  - split; [done|]. destruct Hspan as (H1 & H2 & _). unfold MAX_DOCUMENT_BYTES in Hl. split; [done|]. split; [lia|done].
Qed.

(** The vector of a chunk is valid, or the document is refused. *)
Lemma chunk_vector_ok text embedding :
  match chunk_vector (op_encode options) encoder text embedding dimensions with
  | Ok (v, st) => valid_vector v dimensions = true /\ (op_encode options = LexicalOnly -> st = Lexical)
  | Err _ => True | Panic => False end.
Proof using FL.
  unfold chunk_vector. destruct (op_encode options); [destruct (is_embedding encoder) eqn:E; [destruct embedding|]|..]; try done; split; try done.
  - apply from_dense_valid.
  - by apply encode_valid.
  - unfold valid_vector. cbn. by rewrite Z.eqb_refl.
  - unfold valid_vector. cbn. by rewrite Z.eqb_refl.
Qed.

Lemma embedding_ok k :
  k < n -> match (match di_embeddings input with
             | None => Ok None
             | Some all => let* values := expect (all !! k) in let* e := normalize values (default 0%Z embedding_dimensions) in Ok (Some e)
             end) with
  | Ok (Some e) => renormalize e (default 0%Z embedding_dimensions) = Ok tt | Ok None => True | Err _ => True | Panic => False end.
Proof using FL Hes.
  intros Hk. destruct (di_embeddings input) as [es|]; [|done]. destruct (lookup_lt_is_Some_2 es k) as [x Hx]; [by rewrite (Hes es eq_refl)|]. rewrite Hx. cbn [expect obind].
  pose proof (normalize_total x (default 0%Z embedding_dimensions)). destruct (normalize _ _) eqn:E; cbn [obind]; [by eapply normalize_again|done|done].
Qed.

Lemma prepare_chunk_ok i k span :
  idle i -> k < n -> span_fits n span ->
  match prepare_chunk input dimensions embedding_dimensions keys encoder options i k span (default 1%Z (di_title_weight input)) with
  | Ok (i', c) => idle i' /\ holds_chunk k span c /\ validate_chunk dimensions embedding_dimensions n c = Ok tt
  | Err _ => True | Panic => False end.
Proof using Hvalid Hkeys Hsource Hweight Hks Hes FL L Hn.
  intros Hi Hk Hspan. destruct source_parts as (Hid & Hz & _ & Hl). destruct (span_text n span Hspan Hl) as (Es & Hv & Hlen). destruct (source_fits k span Hk Hspan) as [Esrc Hfit].
  unfold prepare_chunk. rewrite Es. cbn [obind]. rewrite Esrc. cbn [obind]. destruct (negb (op_positions options) || _) eqn:Epos; [|done]. fold (weight_at k).
  destruct (chunk_terms_ok i (source_of k span) (weight_at k) (negb (op_unstemmed options)) (if op_positions options then Some whole else None) Hi Hfit) as (i' & [terms words] & -> & Ea & Hi'). cbn [obind].
  pose proof (embedding_ok k Hk) as Hemb. destruct (match di_embeddings input with None => Ok None | Some _ => _ end) as [embedding| |]; cbn [obind]; [|done|done].
  pose proof (chunk_vector_ok (text_of span) embedding) as Hvec. destruct (chunk_vector _ _ _ _ _) as [[vector st]| |]; cbn [obind]; [|done|done]. destruct Hvec as [Hvec Hst].
  destruct (chunk_id_allowed (di_id input) k Hid Hz ltac:(lia)) as (id & Eid & Hallow). rewrite Eid. cbn [obind]. split; [done|].
  destruct (analysis_holds _ _ _ _ _ _ Hfit Ea) as (Hr & Hwords & Hent & Hel & Hposn). pose proof Hfit as (_ & Hsl & _). pose proof (log_of_total (source_of k span) (weight_at k) (negb (op_unstemmed options)) Hfit) as Htot.
  pose proof (log_of_positive (source_of k span) (weight_at k) (negb (op_unstemmed options))) as Hlp.
  assert (Htnn : (0 <= total (log_of (source_of k span) (weight_at k) (negb (op_unstemmed options))))%Z) by (pose proof (weight_of_bounds _ [] Hlp); lia). split.
  - split; cbn [c_start_byte c_end_byte c_id c_text c_terms c_word_count c_vector_state]; try done; [by destruct span| |].
    + assert (Een : entries_of {| c_id := id; c_text := if default true (di_store_text input) then Some (text_of span) else None; c_text_at := None; c_start_byte := span.1; c_end_byte := span.2;
           c_vector := vector; c_embedding := embedding; c_terms := terms; c_word_count := words; c_stemmed := negb (op_unstemmed options); c_vector_state := st |} = weighted_terms (source_of k span) (weight_at k) (negb (op_unstemmed options)))
        by (unfold entries_of; cbn [c_terms]; by rewrite (t_entries_repr _ _ Hr)).
      split; [rewrite Een; split; [done|done|]; cbn [c_terms]; unfold U32; lia|]. cbn [c_word_count]. unfold U32_MAX, U32. lia.
    + split; [done|]. unfold TextStrip.record_bytes. cbn [c_text]. unfold MAX_DOCUMENT_BYTES in Hl. destruct Hspan as (S1 & S2 & _). destruct (default true _); [|split; [done|done]]. split; [unfold U32; lia|done].
  - unfold validate_chunk. cbn [c_id c_terms c_start_byte c_end_byte c_vector c_vector_state c_text c_embedding]. unfold validate_id. rewrite Hallow. cbn [obind].
    destruct Hspan as (S1 & S2 & _ & _ & Sw).
    assert (Elim : exists limit, chunk_byte_limit (is_whole_document terms) n span.1 (match st with Lexical => true | _ => false end) = Some limit /\ (span.2 - span.1 <= limit)%Z).
    { unfold is_whole_document, chunk_byte_limit. destruct whole eqn:Ew.
      - destruct Sw as (-> & S0 & Sp & Sm). rewrite Sp in Hposn. destruct Hposn as (p & -> & ->). rewrite (Hst Sm), S0. cbn. eexists. split; [done|]. unfold MAX_DOCUMENT_BYTES in *. lia.
      - destruct (op_positions options); [destruct Hposn as (p & -> & ->)|rewrite Hposn]; eexists; (split; [done|done]). }
    destruct Elim as (limit & -> & Hlim). rewrite Hvec, (proj2 (Z.ltb_lt _ _)), !(proj2 (Z.leb_le _ _)) by lia. cbn [andb].
    destruct (default true (di_store_text input)); [rewrite (proj2 (Z.eqb_eq _ _)) by done|]; destruct embedding; done.
Qed.

Lemma prepare_chunks_ok i k spans :
  idle i -> k + length spans = n -> Forall (span_fits n) spans ->
  match prepare_chunks input dimensions embedding_dimensions keys encoder options i k spans (default 1%Z (di_title_weight input)) with
  | Ok (i', cs) => idle i' /\ length cs = length spans /\ Forall (fun c => validate_chunk dimensions embedding_dimensions n c = Ok tt) cs /\
      forall j c, cs !! j = Some c -> exists span, spans !! j = Some span /\ holds_chunk (k + j) span c
  | Err _ => True | Panic => False end.
Proof using Hvalid Hkeys Hsource Hweight Hks Hes FL L Hn.
  intros Hi Hk Hf. revert i k Hi Hk. induction Hf as [|span spans Hspan _ IH]; intros i k Hi Hk; cbn [prepare_chunks length] in *; [split_and!; try done; constructor|].
  pose proof (prepare_chunk_ok i k span Hi ltac:(lia) Hspan) as Hc. destruct (prepare_chunk _ _ _ _ _ _ _ _ _ _) as [[i1 c]| |]; cbn [obind]; [|done|done]. destruct Hc as (Hi1 & Hc & Hval).
  specialize (IH i1 (S k) Hi1 ltac:(lia)). destruct (prepare_chunks _ _ _ _ _ _ _ _ _ _) as [[i2 cs]| |]; cbn [obind]; [|done|done]. destruct IH as (Hi2 & Hlen & Hvs & Hhold).
  split; [done|]. split; [cbn; lia|]. split; [by constructor|]. intros [|j] x Hx; cbn in Hx.
  - injection Hx as <-. exists span. rewrite Nat.add_0_r. done.
  - destruct (Hhold j x Hx) as (s & Hs & Hh). exists s. split; [done|]. by replace (k + S j) with (S k + j) by lia.
Qed.
(** The interner changes nothing but itself. *)
Lemma prepare_chunk_memo i j k span :
  idle i -> idle j -> k < n -> span_fits n span ->
  let prepare m := prepare_chunk input dimensions embedding_dimensions keys encoder options m k span (default 1%Z (di_title_weight input)) in
  match prepare i, prepare j with
  | Ok (i', c), Ok (j', c') => idle i' /\ idle j' /\ c = c' | Err e, Err e' => e = e' | Panic, Panic => True | _, _ => False end.
Proof using Hvalid Hkeys Hsource Hweight Hks L Hn.
  intros Hi Hj Hk Hspan. destruct source_parts as (_ & _ & _ & Hl). destruct (span_text n span Hspan Hl) as (Es & _ & _). destruct (source_fits k span Hk Hspan) as [Esrc Hfit].
  unfold prepare_chunk. rewrite Es. cbn [obind]. rewrite Esrc. cbn [obind]. destruct (negb (op_positions options) || _); [|done]. fold (weight_at k).
  destruct (chunk_terms_ok i (source_of k span) (weight_at k) (negb (op_unstemmed options)) (if op_positions options then Some whole else None) Hi Hfit) as (i' & [terms words] & -> & Ea & Hi').
  destruct (chunk_terms_ok j (source_of k span) (weight_at k) (negb (op_unstemmed options)) (if op_positions options then Some whole else None) Hj Hfit) as (j' & r & -> & Ea' & Hj'). rewrite Ea in Ea'. injection Ea' as <-. cbn [obind].
  destruct (match di_embeddings input with None => Ok None | Some _ => _ end); cbn [obind]; [|done|done]. destruct (chunk_vector _ _ _ _ _) as [[? ?]| |]; cbn [obind]; [|done|done]. by destruct (chunk_id _ _).
Qed.

Lemma prepare_chunks_memo i j k spans :
  idle i -> idle j -> k + length spans = n -> Forall (span_fits n) spans ->
  let prepare m := prepare_chunks input dimensions embedding_dimensions keys encoder options m k spans (default 1%Z (di_title_weight input)) in
  match prepare i, prepare j with
  | Ok (i', cs), Ok (j', cs') => cs = cs' | Err e, Err e' => e = e' | Panic, Panic => True | _, _ => False end.
Proof using Hvalid Hkeys Hsource Hweight Hks Hes L Hn.
  intros Hi Hj Hk Hf. revert i j k Hi Hj Hk. induction Hf as [|span spans Hspan _ IH]; intros i j k Hi Hj Hk; cbv beta zeta in *; cbn [prepare_chunks length] in *; [done|].
  pose proof (prepare_chunk_memo i j k span Hi Hj ltac:(lia) Hspan) as Hc. cbv beta zeta in Hc.
  destruct (prepare_chunk input dimensions embedding_dimensions keys encoder options i k span _) as [[i1 c]| |], (prepare_chunk input dimensions embedding_dimensions keys encoder options j k span _) as [[j1 c']| |]; cbn [obind]; try done. destruct Hc as (Hi1 & Hj1 & <-). cbn [obind].
  specialize (IH i1 j1 (S k) Hi1 Hj1 ltac:(lia)).
  destruct (prepare_chunks input dimensions embedding_dimensions keys encoder options i1 (S k) spans _) as [[i2 cs]| |], (prepare_chunks input dimensions embedding_dimensions keys encoder options j1 (S k) spans _) as [[j2 cs']| |]; cbn [obind]; try done. by subst.
Qed.
End Chunk.

(** The document of its chunks. *)
Definition document_with (cs : list StoredChunk) : StoredDocument V :=
  {| doc_id := di_id input; doc_source_uri := di_source_uri input; doc_version := default [49]%Z (di_version input);
     doc_metadata := default empty_object (di_metadata input); doc_chunks := cs |}.
Abbreviation prepare := (prepare_with_options is_object empty_object json_len input dimensions embedding_dimensions keys encoder options).

(** A document is refused before its chunks are made, or is its chunks. *)
Lemma prepare_parts :
  (exists e, forall i, prepare i = Err e) \/
  exists spans, chunk_spans_with input options = Ok spans /\ validate_document_source (di_id input) (di_text input) = Ok tt /\ 1 <= length spans <= 4096 /\
    Forall (span_fits (length spans)) spans /\ (1 <= default 1 (di_title_weight input) <= 16)%Z /\ (forall ks, keys = Some ks -> length ks = length spans) /\
    (forall es, di_embeddings input = Some es -> length es = length spans) /\
    forall i, prepare i = let* (i, cs) := prepare_chunks input dimensions embedding_dimensions keys encoder options i 0 spans (default 1%Z (di_title_weight input)) in Ok (i, document_with cs).
Proof using Hvalid Hkeys.
  unfold prepare_with_options. destruct (check_mode _ _ _) as [[]|e|] eqn:Em; cbn [obind]; [|left; by exists e|unfold check_mode in Em; repeat case_match; done].
  pose proof spans_ok_with as Hs. destruct (chunk_spans_with input options) as [spans|e|] eqn:Esp; cbn [obind]; [|left; by exists e|done]. destruct Hs as (Hsrc & Hn & Hspans).
  unfold prepare_spans. rewrite Em. cbn [obind]. destruct (match keys with None => true | Some k => _ end) eqn:Ek; [|left; by eexists].
  do 4 (match goal with |- context [if ?b then _ else Err _] => destruct b; [|left; by eexists] end).
  destruct (match di_embeddings input with None => Ok tt | Some es => _ end) as [[]|e|] eqn:Ee; cbn [obind]; [|left; by exists e|destruct (di_embeddings input); [repeat case_match; done|done]].
  cbv zeta. destruct ((1 <=? _)%Z && _) eqn:Ew; [|left; by eexists]. bool_to_prop. right. exists spans. split_and!; try done; [lia..|intros ks ->; by bool_to_prop|].
  intros es E. rewrite E in Ee. destruct embedding_dimensions; [|done]. destruct (Nat.eqb_spec (length es) (length spans)); [done|done].
Qed.

Lemma prepare_memo i j :
  idle i -> idle j -> match prepare i, prepare j with Ok (_, d), Ok (_, d') => d = d' | Err e, Err e' => e = e' | Panic, Panic => True | _, _ => False end.
Proof using Hvalid Hkeys L.
  intros Hi Hj. destruct prepare_parts as [[e He]|(spans & _ & Hsrc & Hn & Hspans & Hw & Hks & Hes & E)]; [by rewrite !He|]. rewrite !E.
  pose proof (prepare_chunks_memo (length spans) Hsrc (proj2 Hn) Hw Hks Hes i j 0 spans Hi Hj eq_refl Hspans) as Hc. cbv beta zeta in Hc.
  destruct (prepare_chunks _ _ _ _ _ _ i _ _ _) as [[? cs]| |], (prepare_chunks _ _ _ _ _ _ j _ _ _) as [[? cs']| |]; cbn [obind]; try done. by subst.
Qed.

(** What preparing gives. *)
Lemma prepared_document_ok (i : Interner) :
  idle i ->
  match prepare i with
  | Ok (i', d) =>
      idle i' /\ validate_document dimensions embedding_dimensions d = Ok tt /\ doc_fits d /\ fresh d /\ spans_ok d /\ doc_id d = di_id input /\
      exists spans, chunk_spans_with input options = Ok spans /\ length (doc_chunks d) = length spans /\
        forall k c, doc_chunks d !! k = Some c -> exists span, spans !! k = Some span /\ holds_chunk k span c
  | Err _ => True
  | Panic => False
  end.
Proof using Hvalid Hkeys FL L.
  intros Hi. destruct prepare_parts as [[e He]|(spans & Esp & Hsrc & Hn & Hspans & Hw & Hks & Hes & E)]; [by rewrite He|]. rewrite E.
  pose proof (prepare_chunks_ok (length spans) Hsrc (proj2 Hn) Hw Hks Hes i 0 spans Hi eq_refl Hspans) as Hc.
  destruct (prepare_chunks _ _ _ _ _ _ _ _ _ _) as [[i' cs]| |]; cbn [obind]; [|done|done]. destruct Hc as (Hi' & Hlen & Hval & Hhold). split; [done|].
  assert (Hall : forall P : StoredChunk -> Prop, (forall k span c, holds_chunk k span c -> spans !! k = Some span -> P c) -> Forall P cs).
  { intros P HP. apply Forall_forall. intros c [j Hj]%list_elem_of_lookup. destruct (Hhold j c Hj) as (span & Hs & Hh). by eapply HP. }
  pose proof (source_parts Hsrc) as (Hidl & Hz & Hne & Hl). split; [|split; [|split; [|split; [|split; [done|]]]]].
  - unfold validate_document. cbn [document_with doc_id doc_chunks]. unfold validate_id, id_allowed. rewrite (bool_decide_false (di_id input = [])), (bool_decide_false (0%Z ∈ _)) by done.
    rewrite (proj2 (Z.ltb_lt _ _)) by (unfold U16; lia). cbn [negb andb obind]. rewrite bool_decide_false by (intros ->; cbn in *; lia). rewrite (proj2 (Nat.leb_le _ _)) by lia. cbn [negb andb].
    rewrite Hlen. rewrite (omap_list_ok _ (fun _ => tt)); [done|]. rewrite Forall_forall in Hval. exact Hval.
  - apply Hall. intros k span c Hh _. apply Hh.
  - apply Hall. intros k span c Hh _. apply Hh.
  - apply Hall. intros k span c Hh Hs. rewrite (hc_text _ _ _ Hh). destruct (default true _); [|done]. rewrite Forall_lookup in Hspans. pose proof (Hspans k span Hs) as Hf.
    destruct (span_text _ span Hf Hl) as (_ & _ & Et). pose proof (hc_span _ _ _ Hh) as Es. destruct span as [a b]. injection Es as -> ->. cbn [fst snd] in *. destruct Hf as (S1 & S2 & _). cbn [fst snd] in *. lia.
  - exists spans. split; [done|]. split; [done|]. exact Hhold.
Qed.

(** C6: what is ingested can be replayed.  Preparing a document never panics, and the interner is
    ready for the next one; a document that is not refused passes the checks of replay with the
    same dimensions, is within what a store holds (terms, lengths, inline text), and its chunks are
    those of its spans: the chunk id of the index, the bytes of the span as text unless text is not
    kept, and the reference analysis of the text or of the key given for it. *)
Theorem ingested_documents_replay (i : Interner) :
  idle i ->
  match prepare_with_options is_object empty_object json_len input dimensions embedding_dimensions keys encoder options i with
  | Ok (i', d) =>
      idle i' /\ validate_document dimensions embedding_dimensions d = Ok tt /\ doc_fits d /\ fresh d /\ spans_ok d /\ doc_id d = di_id input /\
      exists spans, chunk_spans_with input options = Ok spans /\ length (doc_chunks d) = length spans /\
        forall k c, doc_chunks d !! k = Some c -> exists span, spans !! k = Some span /\ holds_chunk k span c
  | Err _ => True
  | Panic => False
  end.
Proof using Hvalid Hkeys FL L. apply prepared_document_ok. Qed.
End Prepared.

(** ** A document *)

Section Toy.
#[local] Instance toy_vectors : Vectors := {|
  float := Z;
  normalize := fun v _ => Ok v;
  renormalize := fun _ _ => Ok tt;
  encode := fun _ text dim => {| hv_dim := dim; hv_indices := if (0 <? dim)%Z then [0%Z] else [] |};
  from_dense := fun _ dim => {| hv_dim := dim; hv_indices := [] |} |}.

#[local] Instance toy_vector_laws : VectorLaws toy_vectors.
Proof.
  split; cbn; [done|done| |].
  - intros e text dim _. unfold valid_vector. cbn [hv_dim hv_indices]. rewrite Z.eqb_refl. destruct (0 <? dim)%Z eqn:E; [cbn; by rewrite E|done].
  - intros e dim. unfold valid_vector. cbn. by rewrite Z.eqb_refl.
Qed.

(** "Cats.\ncat dogs" in chunks of two words. *)
Definition toy_input : DocumentInput (V := unit) :=
  {| di_id := [100]%Z; di_text := rq_text toy_request; di_source_uri := None; di_version := None; di_metadata := None; di_chunk_words := Some 2%Z;
     di_overlap_words := Some 0%Z; di_store_text := None; di_embeddings := None; di_title_weight := Some 2%Z |}.
Definition toy_options : IngestOptions := {| op_encode := Eager; op_unstemmed := false; op_positions := true; op_whole_document := false |}.
Definition toy_prepared : outcome (Interner * StoredDocument unit) :=
  prepare_with_options (A := toy_analyzer) (fun _ => true) tt (fun _ => 4%Z) toy_input 128 None None MultiscaleWordsV1 toy_options (interner_new false).

Lemma ingested_documents_replay_witness :
  exists i d, toy_prepared = Ok (i, d) /\ validate_document 128 None d = Ok tt /\ map c_text (doc_chunks d) = [Some [67; 97; 116; 115; 46; 10; 99; 97; 116]; Some [100; 111; 103; 115]]%Z.
Proof.
  pose proof (ingested_documents_replay (L := toy_analyzer_laws) (fun _ => true) tt (fun _ => 4%Z) toy_input 128 None None MultiscaleWordsV1 toy_options eq_refl
    ltac:(intros ks [=]) (interner_new false) (idle_new false)) as H.
  assert (E : exists i d, toy_prepared = Ok (i, d) /\ map c_text (doc_chunks d) = [Some [67; 97; 116; 115; 46; 10; 99; 97; 116]; Some [100; 111; 103; 115]]%Z)
    by (vm_compute; eexists _, _; split; reflexivity).
  destruct E as (i & d & E & T). exists i, d. split; [exact E|]. unfold toy_prepared in E. rewrite E in H. destruct H as (_ & H & _). split; [exact H|exact T].
Defined.
End Toy.
