(* ===== verification/Bm25.v ===== *)
(** * Scores

    [Bm25] of [src/core/documents.rs], on IEEE 754 binary64 as the Standard Library specifies it,
    rounded to nearest even after every operation.  The logarithm is the platform's: a parameter.
    The order of scores is total, so that a ranking is unique. *)

From S2P Require Import Prelude Words.
From Stdlib Require Import Floats.SpecFloat.

(** ** Binary64 *)

Abbreviation f64 := spec_float.

Definition f_add : f64 -> f64 -> f64 := SFadd 53 1024.
Definition f_sub : f64 -> f64 -> f64 := SFsub 53 1024.
Definition f_mul : f64 -> f64 -> f64 := SFmul 53 1024.
Definition f_div : f64 -> f64 -> f64 := SFdiv 53 1024.

(** [as f64] of an integer. *)
Definition f_of_Z (n : Z) : f64 := binary_normalize 53 1024 n 0 false.

(** The literal nearest to [n / d]. *)
Definition f_lit (n d : Z) : f64 := f_div (f_of_Z n) (f_of_Z d).

Definition f_zero : f64 := S754_zero false.
Definition f_one : f64 := f_of_Z 1.

Definition is_finite (x : f64) : bool := match x with S754_zero _ | S754_finite _ _ _ => true | _ => false end.

(** [f64::max]: of a number and a NaN, the number. *)
Definition f_max (x y : f64) : f64 :=
  match x, y with S754_nan, _ => y | _, S754_nan => x | _, _ => if SFltb x y then y else x end.

(** [Iterator::sum]. *)
Definition f_sum (l : list f64) : f64 := foldl f_add (S754_zero true) l.

(** [f64::total_cmp], the order of the bit patterns: by sign, exponent and significand, with one
    NaN, above infinity. *)
Definition f_key (x : f64) : Z * Z * Z :=
  match x with
  | S754_infinity true => (-2, 0, 0)%Z
  | S754_finite true m e => (-1, - e, Z.neg m)%Z
  | S754_zero true => (0, 0, 0)%Z
  | S754_zero false => (0, 0, 1)%Z
  | S754_finite false m e => (1, e, Z.pos m)%Z
  | S754_infinity false => (2, 0, 0)%Z
  | S754_nan => (3, 0, 0)%Z
  end.

Definition then_with (a b : comparison) : comparison := match a with Eq => b | c => c end.

Definition f_total_cmp (x y : f64) : comparison :=
  let '(a, b, c) := f_key x in
  let '(a', b', c') := f_key y in
  then_with (a ?= a')%Z (then_with (b ?= b')%Z (c ?= c')%Z).

(** ** The scorer *)

Record Bm25 := mkBm25 { k1_plus_one : f64; bm_k1 : f64; one_minus_b : f64; bm_b : f64 }.

Definition bm25_default : Bm25 := {| k1_plus_one := f_lit 22 10; bm_k1 := f_lit 12 10; one_minus_b := f_lit 1 4; bm_b := f_lit 3 4 |}.

(** [Bm25::from_options], from the two options it reads. *)
Definition from_options (bm25_k1 bm25_b : option f64) : outcome Bm25 :=
  match bm25_k1, bm25_b with
  | None, None => Ok bm25_default
  | _, _ =>
      let k1 := default (bm_k1 bm25_default) bm25_k1 in
      let b := default (bm_b bm25_default) bm25_b in
      ensure (is_finite k1 && SFleb f_zero k1 && (SFleb f_zero b && SFleb b f_one)) else "bm25K1 must be finite and nonnegative and bm25B in [0, 1]" ;
      Ok {| k1_plus_one := f_add k1 f_one; bm_k1 := k1; one_minus_b := f_sub f_one b; bm_b := b |}
  end.

Definition norm (m : Bm25) (word_count average : f64) : f64 :=
  f_mul (bm_k1 m) (f_add (one_minus_b m) (f_div (f_mul (bm_b m) word_count) average)).

Definition idf (ln : f64 -> f64) (n df : f64) : f64 :=
  let half := f_lit 1 2 in ln (f_add f_one (f_div (f_add (f_sub n df) half) (f_add df half))).

Definition weight (m : Bm25) (idf tf norm : f64) : f64 :=
  if SFeqb tf f_zero then f_zero else f_div (f_mul (f_mul idf tf) (k1_plus_one m)) (f_add tf norm).

(** [store.word_count / store.chunk_count.max(1)], at least 1. *)
Definition average_length (words chunks : Z) : f64 := f_max (f_div (f_of_Z words) (f_max (f_of_Z chunks) f_one)) f_one.

(** ** Orders *)

(** A comparison that is a total preorder. *)
Record cmp_ok {X} (cmp : X -> X -> comparison) : Prop := {
  cmp_opp : forall a b, cmp b a = CompOpp (cmp a b);
  cmp_le_trans : forall a b c, cmp a b <> Gt -> cmp b c <> Gt -> cmp a c <> Gt }.

(** Comparing by one order, then by another. *)
Lemma then_with_ok {X} (f g : X -> X -> comparison) : cmp_ok f -> cmp_ok g -> cmp_ok (fun a b => then_with (f a b) (g a b)).
Proof.
  intros [Fo Ft] [Go Gt']. split; [intros a b; rewrite (Fo a b), (Go a b); by destruct (f a b)|].
  intros a b c Hab Hbc. assert (Fab : f a b <> Gt) by (destruct (f a b); [congruence..|done]). assert (Fbc : f b c <> Gt) by (destruct (f b c); [congruence..|done]).
  pose proof (Ft a b c Fab Fbc) as Fac. destruct (f a c) eqn:E; [|done|done]. cbn.
  assert (Eba : f b a <> Gt) by (apply (Ft b c a Fbc); rewrite Fo, E; done). assert (Ecb : f c b <> Gt) by (apply (Ft c a b); [rewrite Fo, E|]; done).
  rewrite Fo in Eba, Ecb. destruct (f a b); [|done|done]. destruct (f b c); [|done|done]. cbn in *. by apply (Gt' a b c).
Qed.

(** Comparing images. *)
Lemma cmp_map_ok {X Y} (h : X -> Y) (f : Y -> Y -> comparison) : cmp_ok f -> cmp_ok (fun a b => f (h a) (h b)).
Proof. intros [Fo Ft]. split; [intros a b; apply Fo|intros a b c; apply Ft]. Qed.

Lemma cmp_flip_ok {X} (f : X -> X -> comparison) : cmp_ok f -> cmp_ok (fun a b => f b a).
Proof. intros [Fo Ft]. split; [intros a b; apply Fo|intros a b c H1 H2; by apply (Ft c b a)]. Qed.

Lemma Zcompare_ok : cmp_ok Z.compare.
Proof. split; [intros a b; apply Z.compare_antisym|]. intros a b c. change (a <= b -> b <= c -> a <= c)%Z. lia. Qed.

Lemma f_total_cmp_ok : cmp_ok f_total_cmp.
Proof.
  pose proof (then_with_ok _ _ (cmp_map_ok (fun x => (f_key x).1.1) _ Zcompare_ok) (then_with_ok _ _ (cmp_map_ok (fun x => (f_key x).1.2) _ Zcompare_ok) (cmp_map_ok (fun x => (f_key x).2) _ Zcompare_ok))) as [H1 H2].
  split; [intros a b; specialize (H1 a b)|intros a b c; specialize (H2 a b c)]; unfold f_total_cmp; cbn beta in *;
    destruct (f_key a) as [[? ?] ?], (f_key b) as [[? ?] ?]; [done|]. by destruct (f_key c) as [[? ?] ?].
Qed.

(** Distinct canonical numbers are never equal in the order. *)
Lemma f_total_cmp_eq x y : f_total_cmp x y = Eq -> x = y.
Proof.
  intros H. assert (K : f_key x = f_key y).
  { unfold f_total_cmp in H. destruct (f_key x) as [[a b] c], (f_key y) as [[a' b'] c']. destruct (Z.compare_spec a a') as [->| |]; [|done|done]. cbn in H.
    destruct (Z.compare_spec b b') as [->| |]; [|done|done]. cbn in H. apply Z.compare_eq in H as ->. done. }
  destruct x as [[]|[]| |[] m e], y as [[]|[]| |[] m' e']; cbn in K; try done; injection K as ? ?; f_equal; lia.
Qed.
