(* ===== verification/Lexical.v ===== *)
(** * Boolean and phrase queries

    [src/core/documents/lexical.rs]: the query language, phrase matching over word positions, and
    the exhaustive execution every other execution is checked against.  A query matches a chunk by
    what its clauses say of the chunk's words, and the exhaustive execution counts exactly the
    documents that have such a chunk and ranks exactly the chunks. *)

From S2P Require Import Prelude Words BitPack Search Positions Terms FrameDict TextSegment Binary Share TermDict Postings Cursor PostingEdit PostingRuns CheckpointLists Lists Indexing Bulk IndexRuns Filters SlotTable Store Chars Interner Analysis Bm25.

(** ** Queries *)

Inductive Occur := Must | Should | MustNot.
#[global] Instance occur_eq : EqDecision Occur. Proof. solve_decision. Defined.

(** [words] in both forms. *)
Record Clause := mkClause { cl_occur : Occur; cl_plain : list (list Z); cl_stems : list (list Z); cl_phrase : bool }.
#[global] Instance clause_eq : EqDecision Clause. Proof. solve_decision. Defined.

Definition cl_words (c : Clause) (stemmed : bool) : list (list Z) := if stemmed then cl_stems c else cl_plain c.

Definition LexicalQuery := list Clause.

(** The derived order of clauses. *)
Definition occur_rank (o : Occur) : Z := match o with Must => 0 | Should => 1 | MustNot => 2 end.

Fixpoint words_cmp (a b : list (list Z)) : comparison :=
  match a, b with
  | [], [] => Eq
  | [], _ :: _ => Lt
  | _ :: _, [] => Gt
  | x :: a, y :: b => then_with (bcmp x y) (words_cmp a b)
  end.

Definition clause_cmp (a b : Clause) : comparison :=
  then_with (occur_rank (cl_occur a) ?= occur_rank (cl_occur b))%Z
    (then_with (words_cmp (cl_plain a) (cl_plain b)) (then_with (words_cmp (cl_stems a) (cl_stems b)) (Bool.compare (cl_phrase a) (cl_phrase b)))).

Definition clause_le (a b : Clause) : Prop := clause_cmp a b <> Gt.
#[global] Instance clause_le_dec : RelDecision clause_le := fun a b => not_dec _.

(** [Vec::dedup]. *)
Fixpoint dedup (l : list Clause) : list Clause :=
  match l with
  | a :: (b :: _) as r => if decide (a = b) then dedup r else a :: dedup r
  | _ => l
  end.

Section Query.
Context `{A : Analyzer}.

(** Texts as characters. *)
Abbreviation text := (list (list Z * Z)).
Definition text_bytes (cs : text) : list Z := concat (map fst cs).

Fixpoint trim_start (cs : text) : text :=
  match cs with x :: r => if is_whitespace x.2 then trim_start r else cs | [] => [] end.
Definition trim (cs : text) : text := rev (trim_start (rev (trim_start cs))).

(** The characters before the first that satisfies [P], and the rest from it. *)
Fixpoint split_find (P : Z -> bool) (cs : text) : text * text :=
  match cs with
  | [] => ([], [])
  | x :: r => if P x.2 then ([], cs) else let '(a, b) := split_find P r in (x :: a, b)
  end.

Definition QUOTE : Z := 34.

(** The value of a clause and what follows it. *)
Definition parse_phrase (rest : text) : outcome (text * text) :=
  let '(value, after) := split_find (fun c => (c =? QUOTE)%Z) rest in
  match after with
  | [] => Err "unterminated lexical phrase"
  | _ :: rest =>
      ensure (match rest with [] => true | x :: _ => is_whitespace x.2 end) else "unsupported lexical phrase suffix (only zero slop is supported)" ;
      ensure (forallb (fun x => is_alphanumeric x.2 || is_whitespace x.2) value) else "unsupported character in lexical phrase" ;
      Ok (value, rest)
  end.

Definition parse_word (rest : text) : outcome (text * text) :=
  let '(value, rest) := split_find is_whitespace rest in
  ensure (negb (bool_decide (value = [])) && forallb (fun x => is_alphanumeric x.2) value) else "unsupported lexical query syntax" ;
  Ok (value, rest).

Definition parse_clause (rest : text) : outcome (Clause * text) :=
  let '(occur, rest) := match rest with
                        | x :: r => if (x.2 =? 43)%Z then (Must, r) else if (x.2 =? 45)%Z then (MustNot, r) else (Should, rest)
                        | [] => (Should, rest)
                        end in
  let phrase := match rest with x :: _ => (x.2 =? QUOTE)%Z | [] => false end in
  let* (value, rest) := if phrase then parse_phrase (tail rest) else parse_word rest in
  let plain := tokens (text_bytes value) false in
  ensure (negb (bool_decide (plain = []))) else "lexical clause requires a token" ;
  ensure (length plain <=? 1024) else "lexical phrase exceeds 1024 tokens" ;
  Ok ({| cl_occur := occur; cl_plain := plain; cl_stems := tokens (text_bytes value) true; cl_phrase := phrase && (1 <? length plain) |}, rest).

Fixpoint parse_loop (fuel : nat) (rest : text) (clauses : list Clause) : outcome (list Clause) :=
  match rest with
  | [] => Ok clauses
  | _ =>
      match fuel with
      | O => Panic
      | S fuel =>
          ensure (length clauses <? 1024) else "lexical query exceeds 1024 clauses" ;
          let* (clause, rest) := parse_clause rest in
          parse_loop fuel (trim_start rest) (clauses ++ [clause])
      end
  end.

(** [LexicalQuery::parse]. *)
Definition parse (query : list Z) : outcome LexicalQuery :=
  ensure (Z.of_nat (length query) <=? MAX_DOCUMENT_BYTES)%Z else "query exceeds 8 MiB" ;
  let cs := trim (chars query) in
  let* clauses := parse_loop (length cs) cs [] in
  Ok (dedup (merge_sort clause_le clauses)).
End Query.

Definition has_positive (q : LexicalQuery) : bool := existsb (fun c => negb (bool_decide (cl_occur c = MustNot))) q.

(** ** Matching a chunk *)

(** The term index of every word of a phrase, and the word of least frequency.  The code keeps the
    words' dictionary ids across chunks; [WordCache] shows those lookups are [t_index]. *)
Fixpoint phrase_indices (t : StoredTerms) (count : nat) (words seen : list (list Z)) (indices : list nat) (lead : nat) (least : Z)
    : outcome (option (list nat * nat)) :=
  match words with
  | [] => Ok (Some (indices, lead))
  | word :: words =>
      let* found := match (if count <=? 16 then position_of seen word else None) with
                    | Some earlier => let* i := expect (indices !! earlier) in Ok (Some i)
                    | None => t_index t word
                    end in
      match found with
      | None => Ok None
      | Some index =>
          let* frequency := frequency_at t index in
          if (frequency =? 0)%Z then Ok None
          else
            let '(lead, least) := if (frequency <? least)%Z then (length indices, frequency) else (lead, least) in
            phrase_indices t count words (seen ++ [word]) (indices ++ [index]) lead least
      end
  end.

(** [while iter.peek() < target { iter.next() }]. *)
Fixpoint drop_below (target : Z) (l : list Z) : list Z :=
  match l with p :: r => if (p <? target)%Z then drop_below target r else l | [] => [] end.

(** Whether every cursor stands on its offset from [start]; a failed one ends the round. *)
Fixpoint match_at (cursors : list (list Z)) (start offset : Z) : list (list Z) * bool :=
  match cursors with
  | [] => ([], true)
  | c :: rest =>
      match checked_add U32 start offset with
      | None => (c :: rest, false)
      | Some target =>
          let c := drop_below target c in
          if bool_decide (head c = Some target) then let '(rest, matched) := match_at rest start (offset + 1) in (c :: rest, matched)
          else (c :: rest, false)
      end
  end.

(** [match_positions]. *)
Fixpoint match_positions (positions : list Z) (lead : Z) (cursors : list (list Z)) (exact : bool) (count : Z) : Z :=
  match positions with
  | [] => count
  | position :: rest =>
      match checked_sub position lead with
      | None => match_positions rest lead cursors exact count
      | Some start =>
          let '(cursors, matched) := match_at cursors start 0 in
          let count := (if matched then count + 1 else count)%Z in
          if matched && negb exact then count else match_positions rest lead cursors exact count
      end
  end.

(** [frequency_with_positions], without the cache of dictionary ids. *)
Definition frequency (clause : Clause) (c : StoredChunk) (exact : bool) (positions : option Positions) : outcome Z :=
  let words := cl_words clause (c_stemmed c) in
  if negb (cl_phrase clause) then
    let* word := expect (head words) in let* f := t_get (c_terms c) word in Ok (default 0%Z f)
  else
    let* found := phrase_indices (c_terms c) (length words) words [] [] 0 (U32 - 1) in
    match found with
    | None => Ok 0%Z
    | Some (indices, lead) =>
        let* p := expect positions in
        let* cursors := omap_list (iter p) indices in
        let* index := expect (indices !! lead) in
        let* starts := iter p index in
        Ok (match_positions starts (Z.of_nat lead) cursors exact 0)
    end.

Fixpoint matches_loop (q : LexicalQuery) (frequencies : list Z) (required optional : bool) : bool :=
  match q, frequencies with
  | clause :: q, f :: frequencies =>
      match cl_occur clause with
      | Must => if (f =? 0)%Z then false else matches_loop q frequencies true optional
      | MustNot => if (f =? 0)%Z then matches_loop q frequencies required optional else false
      | Should => matches_loop q frequencies required (optional || negb (f =? 0)%Z)
      end
  | _, _ => required || optional
  end.
Definition matches (q : LexicalQuery) (frequencies : list Z) : bool := matches_loop q frequencies false false.

(** ** Exhaustive execution *)

Record LexicalHit := mkHit { lh_document_id : list Z; lh_chunk_index : nat; lh_score : f64 }.
Record LexicalResults := mkResults { lr_hits : list LexicalHit; lr_count : option nat }.

Definition order_hits (a b : LexicalHit) : comparison :=
  then_with (f_total_cmp (lh_score b) (lh_score a))
    (then_with (bcmp (lh_document_id a) (lh_document_id b)) (Nat.compare (lh_chunk_index a) (lh_chunk_index b))).
Definition hit_le (a b : LexicalHit) : Prop := order_hits a b <> Gt.
#[global] Instance hit_le_dec : RelDecision hit_le := fun a b => not_dec _.

(** One inverse document frequency per clause and form. *)
Abbreviation idfs_of := (list (f64 * f64)).

(** The sum over the clauses that are not excluded and occur. *)
Fixpoint score_sum (m : Bm25) (q : LexicalQuery) (frequencies : list Z) (idfs : idfs_of) (stemmed : bool) (nm score : f64) : f64 :=
  match q, frequencies, idfs with
  | clause :: q, f :: frequencies, i :: idfs =>
      let score := if negb (bool_decide (cl_occur clause = MustNot)) && (0 <? f)%Z
                   then f_add score (weight m (if stemmed then i.2 else i.1) (f_of_Z f) nm) else score in
      score_sum m q frequencies idfs stemmed nm score
  | _, _, _ => score
  end.

Definition score (m : Bm25) (q : LexicalQuery) (frequencies : list Z) (idfs : idfs_of) (stemmed : bool) (nm : f64) : outcome f64 :=
  let score := score_sum m q frequencies idfs stemmed nm f_zero in
  ensure (is_finite score) else "lexical score is nonfinite; reduce BM25 parameters" ;
  Ok score.

Section Execute.
Context {V : Type} {TI Ba : Type} {dict : TermIndex TI} `{A : Analyzer}.
Context (crc32 : list Z -> Z) (cipher : option Aead) (ln : f64 -> f64) (m : Bm25).
Abbreviation Doc := (StoredDocument V).
Abbreviation Store := (DocumentStore V TI Ba).

(** The inverse document frequency of a word of one form. *)
Definition word_idf (s : Store) (stemmed : bool) (word : list Z) : outcome f64 :=
  let* l := pls_get (form (ds_postings s) stemmed) word in
  let df := match l with Some l => pl_count l | None => 0%Z end in
  Ok (idf ln (f_of_Z (st_chunks (ds_table s))) (f_of_Z df)).

Definition clause_idfs (s : Store) (q : LexicalQuery) : outcome idfs_of :=
  omap_list (fun clause =>
    let* plain := omap_list (word_idf s false) (cl_plain clause) in
    let* stems := omap_list (word_idf s true) (cl_stems clause) in
    Ok (f_sum plain, f_sum stems)) q.

Definition positions_for_chunk (segment : option TextSegment) (c : StoredChunk) : outcome Positions :=
  match t_positions (c_terms c) with
  | Some p => Ok p
  | None =>
      let* text := try_text_of crc32 cipher segment c in
      let* text := ok_or text "unsupported index: a candidate phrase needs stored positions or retained chunk text" in
      from_text text (c_stemmed c) (c_terms c) (is_whole_document (c_terms c))
  end.

(** [Iterator::all] and [any]. *)
Fixpoint oall {B} (f : B -> outcome bool) (l : list B) : outcome bool :=
  match l with [] => Ok true | x :: l => let* b := f x in if b then oall f l else Ok false end.
Fixpoint oany {B} (f : B -> outcome bool) (l : list B) : outcome bool :=
  match l with [] => Ok false | x :: l => let* b := f x in if b then Ok true else oany f l end.

(** Whether a chunk has all words of a phrase. *)
Definition phrase_possible (q : LexicalQuery) (c : StoredChunk) : outcome bool :=
  oany (fun clause =>
    if cl_phrase clause
    then oall (fun word => let* f := t_get (c_terms c) word in Ok (match f with Some n => (0 <? n)%Z | None => false end)) (cl_words clause (c_stemmed c))
    else Ok false) q.

Definition chunk_frequencies (segment : option TextSegment) (q : LexicalQuery) (c : StoredChunk) (exact : bool) : outcome (list Z) :=
  let* possible := phrase_possible q c in
  let* positions := if possible then let* p := positions_for_chunk segment c in Ok (Some p) else Ok None in
  omap_list (fun clause => frequency clause c exact positions) q.

(** One document; the matched ids are a set. *)
Fixpoint scan_chunks (segment : option TextSegment) (q : LexicalQuery) (idfs : idfs_of) (average : f64) (k : nat) (count : bool) (id : list Z) (index : nat) (cs : list StoredChunk)
    (hits : list LexicalHit) (matched : gset (list Z)) : outcome (list LexicalHit * gset (list Z)) :=
  match cs with
  | [] => Ok (hits, matched)
  | c :: cs =>
      let* frequencies := chunk_frequencies segment q c (0 <? k) in
      if negb (matches q frequencies) then scan_chunks segment q idfs average k count id (index + 1) cs hits matched
      else
        let matched := if count then {[ id ]} ∪ matched else matched in
        if 0 <? k then
          let* s := score m q frequencies idfs (c_stemmed c) (norm m (f_of_Z (c_word_count c)) average) in
          scan_chunks segment q idfs average k count id (index + 1) cs (hits ++ [{| lh_document_id := id; lh_chunk_index := index; lh_score := s |}]) matched
        else scan_chunks segment q idfs average k count id (index + 1) cs hits matched
  end.

Fixpoint scan_documents (segment : option TextSegment) (q : LexicalQuery) (idfs : idfs_of) (average : f64) (k : nat) (count : bool) (ds : list (list Z * Doc))
    (hits : list LexicalHit) (matched : gset (list Z)) : outcome (list LexicalHit * gset (list Z)) :=
  match ds with
  | [] => Ok (hits, matched)
  | (id, d) :: ds =>
      let* (hits, matched) := scan_chunks segment q idfs average k count id 0 (doc_chunks d) hits matched in
      scan_documents segment q idfs average k count ds hits matched
  end.

Definition exhaustive (s : Store) (q : LexicalQuery) (k : nat) (count : bool) : outcome LexicalResults :=
  if negb (has_positive q) then Ok {| lr_hits := []; lr_count := if count then Some 0 else None |}
  else
    let* idfs := if 0 <? k then clause_idfs s q else Ok [] in
    let average := average_length (st_total_words (ds_table s)) (st_chunks (ds_table s)) in
    let* (hits, matched) := scan_documents (ds_text s) q idfs average k count (merge_sort id_le (map_to_list (ds_documents s))) [] ∅ in
    Ok {| lr_hits := take k (merge_sort hit_le hits); lr_count := if count then Some (size matched) else None |}.
End Execute.

(** ** Phrase matching is exact *)

Definition Zsorted (l : list Z) : Prop := StronglySorted Z.lt l.

Lemma drop_below_spec target l : Zsorted l -> Zsorted (drop_below target l) /\ forall x, x ∈ drop_below target l <-> x ∈ l /\ (target <= x)%Z.
Proof.
  induction 1 as [|p l Hl IH Hp]; cbn [drop_below]; [split; [constructor|]; intros x; rewrite elem_of_nil; tauto|]. rewrite Forall_forall in Hp.
  destruct (Z.ltb_spec p target) as [Hlt|Hge].
  - destruct IH as [H1 H2]. split; [done|]. intros x. rewrite H2, elem_of_cons. split; [intros [? ?]; auto|]. intros [[->|?] ?]; [lia|done].
  - split; [constructor; [done|by apply Forall_forall]|]. intros x. split; [|by intros [? _]]. intros Hx. split; [done|]. apply elem_of_cons in Hx as [->|Hx]; [done|]. specialize (Hp x Hx). lia.
Qed.

Lemma head_found target l : Zsorted l -> (forall x, x ∈ l -> (target <= x)%Z) -> head l = Some target <-> target ∈ l.
Proof.
  intros Hl Hx. destruct Hl as [|p l Hl Hp]; [by rewrite elem_of_nil|]. cbn. rewrite elem_of_cons. split; [intros [= ->]; by left|]. intros [->|Hin]; [done|].
  rewrite Forall_forall in Hp. specialize (Hp _ Hin). specialize (Hx p ltac:(left)). lia.
Qed.

(** A cursor over the positions [ps] that has dropped only what lies below [bound]. *)
Definition cursor_ok (bound : Z) (c ps : list Z) : Prop :=
  Zsorted c /\ (forall x, x ∈ c -> x ∈ ps) /\ (forall x, x ∈ ps -> (bound <= x)%Z -> x ∈ c).

(** The cursors of the words of a phrase, from the word at [offset]. *)
Fixpoint cursors_ok (start offset : Z) (cs pss : list (list Z)) : Prop :=
  match cs, pss with
  | [], [] => True
  | c :: cs, ps :: pss => cursor_ok (start + offset) c ps /\ cursors_ok start (offset + 1) cs pss
  | _, _ => False
  end.

Fixpoint all_at (start offset : Z) (pss : list (list Z)) : Prop :=
  match pss with [] => True | ps :: pss => (start + offset)%Z ∈ ps /\ all_at start (offset + 1) pss end.

Lemma cursors_later start start' offset cs pss : (start <= start')%Z -> cursors_ok start offset cs pss -> cursors_ok start' offset cs pss.
Proof.
  intros Hs. revert offset pss. induction cs as [|c cs IH]; intros offset [|ps pss]; cbn; try done. intros [(H1 & H2 & H3) H]. split; [|by apply IH].
  split; [done|]. split; [done|]. intros x Hx Hb. apply H3; [done|lia].
Qed.

Lemma match_at_ok start offset cs pss :
  Forall (Forall (fun x => (x < U32)%Z)) pss -> cursors_ok start offset cs pss ->
  let '(cs', matched) := match_at cs start offset in cursors_ok start offset cs' pss /\ (matched = true <-> all_at start offset pss).
Proof.
  intros Hb. revert offset cs. induction Hb as [|ps pss Hps Hb IH]; intros offset [|c cs] Hc; try done. cbn [match_at]. destruct Hc as [Hc Hcs]. unfold checked_add.
  destruct (Z.ltb_spec (start + offset) U32) as [Hlt|Hge].
  - destruct Hc as (H1 & H2 & H3). destruct (drop_below_spec (start + offset) c H1) as [D1 D2].
    assert (Hc' : cursor_ok (start + offset) (drop_below (start + offset) c) ps) by (split; [done|]; split; [intros x Hx; apply H2; by apply D2 in Hx as [? _]|intros x Hx Hxb; apply D2; split; [by apply H3|done]]).
    assert (Hfound : head (drop_below (start + offset) c) = Some (start + offset)%Z <-> (start + offset)%Z ∈ ps).
    { rewrite head_found by (try done; intros x Hx; by apply D2 in Hx as [_ ?]). rewrite D2. split; [intros [? _]; by apply H2|]. intros Hin. split; [apply H3; [done|lia]|lia]. }
    case_bool_decide as Eh.
    + specialize (IH (offset + 1)%Z cs Hcs). destruct (match_at cs start (offset + 1)) as [cs' matched]. destruct IH as [IH1 IH2]. split; [by split|]. cbn [all_at]. rewrite IH2. split; [intros ?; split; [by apply Hfound|done]|by intros [_ ?]].
    + split; [by split|]. cbn [all_at]. split; [done|]. intros [Hin _]. by apply Hfound in Hin.
  - split; [by split|]. cbn [all_at]. split; [done|]. intros [Hin _]. rewrite Forall_forall in Hps. specialize (Hps _ Hin). lia.
Qed.

#[global] Instance all_at_dec start offset pss : Decision (all_at start offset pss).
Proof. revert offset. induction pss as [|ps pss IH]; intros offset; cbn [all_at]; apply _. Defined.

(** The starts among the positions of the leading word. *)
Definition starts_at (lead : Z) (pss : list (list Z)) (p : Z) : Prop := (lead <= p)%Z /\ all_at (p - lead) 0 pss.
#[global] Instance starts_at_dec lead pss p : Decision (starts_at lead pss p) := _.

Lemma match_positions_ok positions lead cs pss exact count bound :
  Zsorted positions -> Forall (Forall (fun x => (x < U32)%Z)) pss -> cursors_ok bound 0 cs pss -> Forall (fun p => (bound <= p - lead)%Z \/ (p < lead)%Z) positions ->
  match_positions positions lead cs exact count =
  (count + if exact then Z.of_nat (length (filter (starts_at lead pss) positions)) else if decide (Exists (starts_at lead pss) positions) then 1 else 0)%Z.
Proof.
  intros Hs Hb. revert cs count bound. induction Hs as [|p positions Hs IH Hp]; intros cs count bound Hc Hbd; cbn [match_positions].
  { destruct exact; [cbn; lia|]. rewrite decide_False; [lia|]. intros H. inversion H. }
  apply Forall_cons in Hbd as [Hbp Hbd]. rewrite filter_cons. unfold checked_sub. destruct (Z.leb_spec lead p) as [Hle|Hlt].
  - pose proof (match_at_ok (p - lead) 0 cs pss Hb (cursors_later bound (p - lead)%Z 0 cs pss ltac:(lia) Hc)) as Hm. destruct (match_at cs (p - lead) 0) as [cs' matched]. destruct Hm as [Hc' Hm].
    assert (Hbd' : Forall (fun q => (p - lead <= q - lead)%Z \/ (q < lead)%Z) positions) by (eapply Forall_impl; [exact Hp|]; cbn; intros; lia).
    assert (Hst : matched = true <-> starts_at lead pss p) by (unfold starts_at; rewrite Hm; tauto). destruct matched; cbn [andb].
    + assert (Hsp : starts_at lead pss p) by by apply Hst. rewrite (decide_True (P := starts_at lead pss p)) by done. destruct exact; cbn [negb].
      * rewrite (IH cs' (count + 1)%Z (p - lead)%Z Hc' Hbd'). cbn [length]. lia.
      * rewrite decide_True by (by left). lia.
    + assert (Hsp : ~ starts_at lead pss p) by (intros H; by apply Hst in H). rewrite (decide_False (P := starts_at lead pss p)) by done. rewrite (IH cs' count (p - lead)%Z Hc' Hbd'). f_equal.
      destruct exact; [done|]. apply decide_ext. rewrite Exists_cons. tauto.
  - assert (Hsp : ~ starts_at lead pss p) by (unfold starts_at; lia). rewrite (decide_False (P := starts_at lead pss p)) by done. rewrite (IH cs count bound Hc Hbd). f_equal.
    destruct exact; [done|]. apply decide_ext. rewrite Exists_cons. tauto.
Qed.

(** *** Phrases of a word sequence *)

(** The words [ws] follow one another at [i]. *)
Definition phrase_at (ws ts : list (list Z)) (i : nat) : Prop := take (length ws) (drop i ts) = ws.
#[global] Instance phrase_at_dec ws ts i : Decision (phrase_at ws ts i) := list_eq_dec _ _.

Definition phrase_count (ws ts : list (list Z)) : nat := length (filter (phrase_at ws ts) (seq 0 (length ts))).

(** The positions of a word. *)
Definition positions_of (ts : list (list Z)) (w : list Z) : list nat := filter (fun i => ts !! i = Some w) (seq 0 (length ts)).

Lemma positions_of_elem ts w i : i ∈ positions_of ts w <-> ts !! i = Some w.
Proof.
  unfold positions_of. rewrite list_elem_of_filter, elem_of_seq. split; [by intros [? _]|]. intros H. split; [done|]. apply lookup_lt_Some in H. lia.
Qed.

Lemma all_at_phrase ts ws i j :
  all_at (Z.of_nat i) (Z.of_nat j) (map (fun w => map Z.of_nat (positions_of ts w)) ws) <-> take (length ws) (drop (i + j) ts) = ws.
Proof.
  revert j. induction ws as [|w ws IH]; intros j; cbn [map all_at length]; [by split|].
  replace (Z.of_nat j + 1)%Z with (Z.of_nat (S j)) by lia. rewrite IH. replace (i + S j) with (S (i + j)) by lia.
  assert (Hin : (Z.of_nat i + Z.of_nat j)%Z ∈ map Z.of_nat (positions_of ts w) <-> ts !! (i + j) = Some w).
  { rewrite list_elem_of_fmap. split; [intros (k & E & Hk); apply positions_of_elem in Hk; by replace (i + j) with k by lia|]. intros H. exists (i + j). split; [lia|by apply positions_of_elem]. }
  rewrite Hin. split.
  - intros [H1 H2]. rewrite (drop_S _ _ _ H1). cbn [firstn take]. by rewrite H2.
  - intros H. destruct (drop (i + j) ts) as [|x r] eqn:E; [done|]. cbn in H. injection H as -> H. assert (Hx : ts !! (i + j) = Some w) by (rewrite <- (Nat.add_0_r (i + j)), <- lookup_drop, E; done).
    split; [done|]. rewrite (drop_S _ _ _ Hx) in E. injection E as E. by rewrite E.
Qed.

Lemma starts_count ts ws lead w :
  ws !! lead = Some w ->
  length (filter (starts_at (Z.of_nat lead) (map (fun w => map Z.of_nat (positions_of ts w)) ws)) (map Z.of_nat (positions_of ts w))) = phrase_count ws ts.
Proof.
  intros Hw. unfold phrase_count. rewrite <- (length_map (fun b => Z.of_nat (b + lead)) (filter (phrase_at ws ts) _)). apply Permutation_length, NoDup_Permutation.
  - apply NoDup_filter, NoDup_fmap_2; [intros a b; lia|]. apply NoDup_filter, NoDup_seq.
  - apply NoDup_fmap_2; [intros a b; lia|]. apply NoDup_filter, NoDup_seq.
  - intros x. rewrite list_elem_of_filter, !list_elem_of_fmap. split.
    + intros [[Hle Hall] (i & -> & Hi)]. exists (i - lead). replace (Z.of_nat i - Z.of_nat lead)%Z with (Z.of_nat (i - lead)) in Hall by lia. apply (all_at_phrase ts ws (i - lead) 0) in Hall. rewrite Nat.add_0_r in Hall.
      split; [lia|]. apply list_elem_of_filter. split; [done|]. apply positions_of_elem, lookup_lt_Some in Hi. apply elem_of_seq. lia.
    + intros (b & -> & [Hb _]%list_elem_of_filter). split.
      * split; [lia|]. replace (Z.of_nat (b + lead) - Z.of_nat lead)%Z with (Z.of_nat b) by lia. apply (all_at_phrase ts ws b 0). by rewrite Nat.add_0_r.
      * exists (b + lead). split; [done|]. apply positions_of_elem. unfold phrase_at in Hb. rewrite <- Hb in Hw. rewrite lookup_take_Some in Hw. destruct Hw as [Hw _]. by rewrite lookup_drop in Hw.
Qed.

(** *** Looking up the words *)

Lemma frequency_at_repr t l i k f : repr (t_terms t) l -> l !! i = Some (k, f) -> frequency_at t i = Ok f.
Proof.
  destruct t as [[[t|t|m]|] ps]; cbn [frequency_at t_terms]; intros Hr Hi.
  - destruct Hr as [_ ->]. cbn. by rewrite list_lookup_fmap, Hi.
  - destruct Hr as (? & ? & _ & _ & _ & _ & E & _). unfold f_get. by rewrite E, list_lookup_fmap, Hi.
  - destruct Hr as [-> _]. by rewrite Hi.
  - simpl in Hr. by subst l.
Qed.

Section Lookup.
Context (t : StoredTerms) (es : list (list Z * Z)) (Hr : repr (t_terms t) es) (Hs : bsorted (map fst es)) (Hf : Forall (fun e : list Z * Z => (0 < e.2 < U32)%Z) es).
Abbreviation ks := (map fst es).

Lemma phrase_indices_ok count words seen indices lead least :
  Forall2 (fun (i : nat) w => ks !! i = Some w) indices seen -> lead < length indices \/ lead = 0 ->
  match phrase_indices t count words seen indices lead least with
  | Ok (Some (ids, ld)) => Forall2 (fun (i : nat) w => ks !! i = Some w) ids (seen ++ words) /\ (ld < length ids \/ ld = 0)
  | Ok None => exists w, w ∈ words /\ w ∉ ks
  | _ => False
  end.
Proof using Hr Hs Hf.
  revert seen indices lead least. induction words as [|w words IH]; intros seen indices lead least Hi Hl; cbn [phrase_indices]; [by rewrite app_nil_r|].
  assert (Found : exists o, (match (if count <=? 16 then position_of seen w else None) with
      | Some earlier => let* i := expect (indices !! earlier) in Ok (Some i) | None => t_index t w end) = Ok o /\ match o with Some i => ks !! i = Some w | None => w ∉ ks end).
  { destruct (if count <=? 16 then position_of seen w else None) as [e|] eqn:E.
    - assert (Ee : seen !! e = Some w) by (destruct (count <=? 16); [|done]; unfold position_of in E; destruct (list_find _ seen) as [[e' w']|] eqn:F; [|done]; injection E as ->; apply list_find_Some in F as (F & <- & _); done).
      destruct (Forall2_lookup_r _ _ _ _ _ Hi Ee) as (i & Ei & Hk). rewrite Ei. cbn. by exists (Some i).
    - rewrite (t_index_repr t es w Hr Hs). eexists. split; [reflexivity|]. destruct (position_of ks w) as [i|] eqn:P; [apply position_of_Some in P; [done|by apply bsorted_NoDup]|by apply position_of_None]. }
  destruct Found as (o & -> & Ho). cbn [obind]. destruct o as [i|]; [|exists w; split; [left|done]].
  rewrite list_lookup_fmap in Ho. destruct (es !! i) as [[k f]|] eqn:Ei; [|done]. cbn in Ho. injection Ho as ->. rewrite (frequency_at_repr t es i w f Hr Ei). cbn [obind].
  pose proof (Forall_lookup_1 _ _ _ _ Hf Ei) as Hpos. cbn in Hpos. rewrite (proj2 (Z.eqb_neq f 0)) by lia.
  set (ll := if (f <? least)%Z then (length indices, f) else (lead, least)). assert (Hll : ll.1 < length (indices ++ [i])) by (unfold ll; rewrite length_app; cbn [length]; destruct (f <? least)%Z; cbn; lia).
  destruct ll as [lead' least']. cbn [fst] in Hll.
  specialize (IH (seen ++ [w]) (indices ++ [i]) lead' least'). rewrite <- app_assoc in IH. destruct (phrase_indices _ _ _ _ _ _ _) as [[[ids ld]|]| |];
    (pose proof (IH ltac:(apply Forall2_app; [done|]; constructor; [by rewrite list_lookup_fmap, Ei|constructor]) ltac:(by left)) as H); [done| |done|done].
  destruct H as (u & Hu & Hn). exists u. split; [by right|done].
Qed.
End Lookup.
