(* ===== verification/LexicalExact.v ===== *)
(** * Searches are exact

    The exhaustive execution of [src/core/documents/lexical.rs] against a reference that reads only
    the texts: a clause holds of a chunk when its word, or its words one after the other, are among
    the words of the text. *)

From S2P Require Import Prelude Words BitPack Search Positions Terms FrameDict TextSegment Binary Share TermDict Postings Cursor PostingEdit PostingRuns CheckpointLists Lists Indexing Bulk IndexRuns Filters SlotTable Store Chars Interner Analysis Bm25 Lexical.

(** ** What a query means *)

Section Meaning.
Context `{A : Analyzer}.

(** A word is in the text, or a phrase is at some place of it. *)
Definition holds (cl : Clause) (stemmed : bool) (text : list Z) : bool :=
  let ts := tokens text stemmed in let ws := cl_words cl stemmed in
  if cl_phrase cl then existsb (fun i => bool_decide (phrase_at ws ts i)) (seq 0 (length ts)) else bool_decide (hd [] ws ∈ ts).

(** Every required clause, no excluded one, and one that is not excluded. *)
Definition satisfies (q : LexicalQuery) (stemmed : bool) (text : list Z) : bool :=
  forallb (fun cl => match cl_occur cl with Must => holds cl stemmed text | MustNot => negb (holds cl stemmed text) | Should => true end) q &&
  existsb (fun cl => match cl_occur cl with MustNot => false | _ => holds cl stemmed text end) q.

(** How often: a word by its weight in text and title, a phrase by its places. *)
Definition occurrences_of (exact : bool) (stemmed : bool) (text : list Z) (w : Z) (cl : Clause) : Z :=
  let ws := cl_words cl stemmed in
  if cl_phrase cl then let n := phrase_count ws (tokens text stemmed) in Z.of_nat (if exact then n else Nat.min 1 n)
  else weight_of (log_of text w stemmed) (hd [] ws).
End Meaning.

(** ** Analysed chunks *)

Section Analysed.
Context `{A : Analyzer} {L : AnalyzerLaws A} (crc32 : list Z -> Z) (cipher : option Aead) (segment : option TextSegment).

(** The content of a chunk, its text and title weight: its table is the analysis of the text, in any
    layout, and the text is readable unless the table has positions. *)
Definition analysed (c : StoredChunk) (text : list Z) (w : Z) : Prop :=
  exists c0 positions, text_fits text w /\ analysis text w (c_stemmed c) positions = Ok (c_terms c0, c_word_count c0) /\ same_content c0 c /\
    (positions = None -> try_text_of crc32 cipher segment c = Ok (Some text)).

Lemma ranks_exist (keys ts : list (list Z)) : (forall t, t ∈ ts -> t ∈ keys) -> exists ranks, Forall2 (fun (r : nat) t => keys !! r = Some t) ranks ts.
Proof using.
  induction ts as [|t ts IH]; intros H; [by exists []|]. destruct IH as [ranks Hr]; [intros u Hu; apply H; by right|]. destruct (proj1 (list_elem_of_lookup _ _) (H t ltac:(left))) as [r Hr'].
  exists (r :: ranks). by constructor.
Qed.

Lemma block_positions (keys ts : list (list Z)) ranks j t :
  NoDup keys -> Forall2 (fun (r : nat) t => keys !! r = Some t) ranks ts -> keys !! j = Some t -> block ranks j = positions_of ts t.
Proof using.
  intros Hnd Hf Hj. rewrite block_filter. unfold positions_of. rewrite (Forall2_length _ _ _ Hf). apply list_filter_ext. intros i _. split.
  - intros Hi. destruct (Forall2_lookup_l _ _ _ _ _ Hf Hi) as (u & Hu & Hk). congruence.
  - intros Hi. destruct (Forall2_lookup_r _ _ _ _ _ Hf Hi) as (r & Hr & Hk). rewrite Hr. f_equal. by eapply NoDup_lookup.
Qed.

(** The entries of an analysed chunk and the positions a phrase is matched on. *)
Lemma analysed_parts c text w (es := weighted_terms text w (c_stemmed c)) (ts := tokens text (c_stemmed c)) :
  analysed c text w ->
  repr (t_terms (c_terms c)) es /\ bsorted (map fst es) /\ Forall (fun e : list Z * Z => (0 < e.2 < U32)%Z) es /\ (forall t, t ∈ map fst es <-> t ∈ ts) /\
    (Z.of_nat (length ts) < U32)%Z /\
    exists p, positions_for_chunk crc32 cipher segment c = Ok p /\ forall j t, map fst es !! j = Some t -> iter p j = Ok (map Z.of_nat (positions_of ts t)).
Proof using L.
  intros (c0 & positions & Hfit & Ea & (_ & Hps & _ & Hr) & Htext). pose proof Hfit as (Hv & Hl & _). destruct (analysis_holds _ _ _ _ _ _ Hfit Ea) as (Hr0 & _ & [Hs _] & _ & _).
  rewrite (repr_entries_of _ _ Hr0) in Hr. clear Hr0. fold es in Hr, Hs. unfold ts.
  split; [done|]. split; [done|]. split; [by apply weighted_positive_counts|].
  assert (Hk : forall t, t ∈ map fst es <-> t ∈ tokens text (c_stemmed c)) by (intros t; apply weighted_keys; [done|unfold U32; lia]). split; [done|].
  pose proof (tokens_length text (c_stemmed c) Hv) as Htl. split; [unfold U32; lia|].
  destruct (ranks_exist (map fst es) (tokens text (c_stemmed c))) as [ranks Hf]; [intros t; by apply Hk|]. assert (Hnd : NoDup (map fst es)) by by apply bsorted_NoDup.
  assert (G : forall table whole, t_keys table = Ok (map fst es) -> exists p, from_text text (c_stemmed c) table whole = Ok p /\ forall j t, map fst es !! j = Some t -> iter p j = Ok (map Z.of_nat (positions_of (tokens text (c_stemmed c)) t))).
  { intros table whole Ek. destruct (from_text_ranks text (c_stemmed c) table whole (map fst es) ranks Hnd Ek Hf ltac:(intros t; by apply Hk) ltac:(unfold U32; lia)) as (p & Ep & Et).
    exists p. split; [done|]. intros j t Hj. pose proof (Forall2_length _ _ _ Hf) as Hrl.
    assert (Hrange : Forall (fun r => r < length (map fst es)) ranks) by (apply Forall_forall; intros r [i Hi]%list_elem_of_lookup; destruct (Forall2_lookup_l _ _ _ _ _ Hf Hi) as (u & _ & Hu); by eapply lookup_lt_Some).
    pose proof (term_data_length ranks (length (map fst es))) as Hdl. rewrite (upto_all _ _ Hrange) in Hdl.
    destruct (from_ranks_iter ranks (length (map fst es)) whole Hrange ltac:(unfold U32; lia) ltac:(unfold U32; lia)) as (p' & Ep' & Hi). assert (p' = p) as -> by congruence.
    rewrite (Hi j (lookup_lt_Some _ _ _ Hj)). by rewrite (block_positions (map fst es) (tokens text (c_stemmed c)) ranks j t). }
  assert (Ek : forall table, repr (t_terms table) es -> t_keys table = Ok (map fst es)) by (intros table Hrt; unfold t_keys; by rewrite (t_entries_repr _ _ Hrt)).
  unfold positions_for_chunk. rewrite Hps. unfold analysis in Ea. fold es in Ea. apply obind_ok in Ea as (base & Eb & Ea). apply obind_ok in Ea as (ps & Eps & Ea). injection Ea as Et _.
  destruct (from_sorted_repr es (weighted_texts text w (c_stemmed c) Hv ltac:(unfold U32; lia))) as (base' & Eb' & Hrb & _). assert (base' = base) as -> by congruence. destruct positions as [whole|].
  - apply obind_ok in Eps as (p & Ep & Eps). injection Eps as <-. rewrite <- Et. cbn [t_positions]. destruct (G base whole (Ek base Hrb)) as (p' & Ep' & Hi). exists p. split; [done|]. by replace p with p' by congruence.
  - injection Eps as <-. rewrite <- Et. cbn [t_positions]. rewrite (Htext eq_refl). cbn [obind ok_or]. apply G, Ek, Hr.
Qed.

Lemma weighted_get text w stem word : text_fits text w -> default 0%Z (tree_get (weighted_terms text w stem) word) = weight_of (log_of text w stem) word.
Proof using L.
  intros (Hv & Hl & _). destruct (weighted_terms_spec text w stem Hv ltac:(unfold U32; lia)) as [Hs He]. rewrite <- tree_get_map.
  apply (weighs_default _ (log_of text w stem)); [apply log_of_positive|]. intros t n. rewrite <- He. symmetry. apply elem_of_list_to_map. by apply bsorted_NoDup.
Qed.

Lemma phrase_count_pos ws ts : 0 < phrase_count ws ts <-> exists i, i < length ts /\ phrase_at ws ts i.
Proof using.
  unfold phrase_count. split.
  - intros H. destruct (filter _ _) as [|i l] eqn:E; [cbn in H; lia|]. assert (Hi : i ∈ filter (phrase_at ws ts) (seq 0 (length ts))) by (rewrite E; left).
    apply list_elem_of_filter in Hi as [Hp Hi]. apply elem_of_seq in Hi. exists i. split; [lia|done].
  - intros (i & Hi & Hp). destruct (filter _ _) as [|j l] eqn:E; [|cbn; lia]. assert (Hin : i ∈ filter (phrase_at ws ts) (seq 0 (length ts))) by (apply list_elem_of_filter; split; [done|apply elem_of_seq; lia]).
    rewrite E in Hin. by apply elem_of_nil in Hin.
Qed.

Lemma phrase_words ws ts i t : phrase_at ws ts i -> t ∈ ws -> t ∈ ts.
Proof using. intros <- Ht. apply elem_of_take in Ht as (k & Hk & _). rewrite lookup_drop in Hk. by apply list_elem_of_lookup_2 in Hk. Qed.

Lemma phrase_absent ws ts t : t ∈ ws -> t ∉ ts -> phrase_count ws ts = 0.
Proof using.
  intros Hw Ht. destruct (decide (0 < phrase_count ws ts)) as [H|H]; [|lia]. apply phrase_count_pos in H as (i & _ & Hp). exfalso. apply Ht. by apply (phrase_words ws ts i).
Qed.

Lemma positions_sorted ts t : Zsorted (map Z.of_nat (positions_of ts t)).
Proof using.
  unfold positions_of. generalize (length ts) as n, 0 as k. induction n as [|n IH]; intros k; cbn [seq]; [constructor|]. rewrite filter_cons. case_decide; [|apply IH].
  constructor; [apply IH|]. apply Forall_map, Forall_forall. intros x (_ & Hx%elem_of_seq)%list_elem_of_filter. lia.
Qed.

Lemma positions_bound ts t : (Z.of_nat (length ts) < U32)%Z -> Forall (fun x => (x < U32)%Z) (map Z.of_nat (positions_of ts t)).
Proof using. intros H. apply Forall_map, Forall_forall. intros i Hi%positions_of_elem%lookup_lt_Some. lia. Qed.

Lemma cursors_start bound offset pss : Forall Zsorted pss -> cursors_ok bound offset pss pss.
Proof using. intros H. revert offset. induction H as [|ps pss Hs _ IH]; intros offset; [done|]. split; [|apply IH]. by split. Qed.

(** The phrase occurrences the cursors count. *)
Lemma matched_phrases ts ws lead word exact :
  (Z.of_nat (length ts) < U32)%Z -> ws !! lead = Some word ->
  match_positions (map Z.of_nat (positions_of ts word)) (Z.of_nat lead) (map (fun t => map Z.of_nat (positions_of ts t)) ws) exact 0
  = Z.of_nat (if exact then phrase_count ws ts else Nat.min 1 (phrase_count ws ts)).
Proof using.
  intros Hl Hw. set (pss := map (fun t => map Z.of_nat (positions_of ts t)) ws).
  rewrite (match_positions_ok _ _ pss pss exact 0 (- Z.of_nat lead)); [|apply positions_sorted|apply Forall_map, Forall_forall; intros t _; by apply positions_bound|
    apply cursors_start, Forall_map, Forall_forall; intros t _; apply positions_sorted|apply Forall_map, Forall_forall; intros; left; lia].
  pose proof (starts_count ts ws lead word Hw) as Hc. fold pss in Hc. destruct exact; [by rewrite Hc|]. rewrite <- Hc. clear Hc. generalize (map Z.of_nat (positions_of ts word)).
  intros l. destruct (decide (Exists _ l)) as [H|H].
  - apply Exists_exists in H as (x & Hx & Hs). destruct (filter _ l) as [|y r] eqn:E; [|cbn; lia]. assert (Hin : x ∈ filter (starts_at (Z.of_nat lead) pss) l) by by apply list_elem_of_filter.
    rewrite E in Hin. by apply elem_of_nil in Hin.
  - destruct (filter _ l) as [|y r] eqn:E; [done|]. exfalso. apply H, Exists_exists. exists y. assert (Hin : y ∈ filter (starts_at (Z.of_nat lead) pss) l) by (rewrite E; left).
    apply list_elem_of_filter in Hin as [? ?]. done.
Qed.

Lemma iter_all p (es : list (list Z * Z)) ts ids (words : list (list Z)) :
  (forall j t, map fst es !! j = Some t -> iter p j = Ok (map Z.of_nat (positions_of ts t))) ->
  Forall2 (fun (i : nat) t => map fst es !! i = Some t) ids words -> omap_list (iter p) ids = Ok (map (fun t => map Z.of_nat (positions_of ts t)) words).
Proof using. intros Hp. induction 1 as [|i t ids words Hi _ IH]; [done|]. cbn [omap_list map]. rewrite (Hp i t Hi). cbn [obind]. by rewrite IH. Qed.

(** Whether the positions are needed. *)
Definition all_words (cl : Clause) (stemmed : bool) (text : list Z) : bool := forallb (fun t => bool_decide (t ∈ tokens text stemmed)) (cl_words cl stemmed).

Lemma frequency_ok c text w cl exact positions :
  analysed c text w -> cl_words cl (c_stemmed c) <> [] ->
  (cl_phrase cl = true -> all_words cl (c_stemmed c) text = true -> exists p, positions = Some p /\ positions_for_chunk crc32 cipher segment c = Ok p) ->
  frequency cl c exact positions = Ok (occurrences_of exact (c_stemmed c) text w cl).
Proof using L.
  intros Ha Hne Hp. pose proof Ha as (_ & _ & Hfit & _). destruct (analysed_parts c text w Ha) as (Hr & Hs & Hf & Hk & Hl & p & Ep & Hi). unfold frequency, occurrences_of.
  destruct (cl_phrase cl); cbn [negb].
  - set (ws := cl_words cl (c_stemmed c)) in *. pose proof (phrase_indices_ok (c_terms c) _ Hr Hs Hf (length ws) ws [] [] 0 (U32 - 1) ltac:(constructor) ltac:(by right)) as H.
    destruct (phrase_indices _ _ _ _ _ _ _) as [[[ids ld]|]| |]; [|destruct H as (t & Ht & Hn)|done|done]; cbn [obind].
    + destruct H as [Hids Hld]. cbn [app] in Hids. pose proof (Forall2_length _ _ _ Hids) as Hlen.
      assert (Hall : all_words cl (c_stemmed c) text = true).
      { apply forallb_forall. intros t Ht%list_elem_of_In. apply bool_decide_eq_true, Hk. fold ws in Ht. apply list_elem_of_lookup in Ht as [j Hj]. destruct (Forall2_lookup_r _ _ _ _ _ Hids Hj) as (i & _ & Hi'). by eapply list_elem_of_lookup_2. }
      destruct (Hp eq_refl Hall) as (p' & -> & Ep'). assert (p' = p) as -> by congruence. cbn [expect obind]. rewrite (iter_all _ _ _ _ _ Hi Hids). cbn [obind].
      assert (Hlt : ld < length ws) by (destruct ws; [done|]; cbn [length] in *; lia). destruct (lookup_lt_is_Some_2 ws ld Hlt) as [t Ht].
      destruct (Forall2_lookup_r _ _ _ _ _ Hids Ht) as (i & Ei & Hti). rewrite Ei. cbn [expect obind]. rewrite (Hi i t Hti). cbn [obind]. f_equal. by apply matched_phrases.
    + rewrite Hk in Hn. rewrite (phrase_absent ws _ t Ht Hn). by destruct exact.
  - destruct (cl_words cl (c_stemmed c)) as [|t ws]; [done|]. cbn [head expect obind hd]. rewrite (t_get_repr _ _ t Hr Hs). cbn [obind]. f_equal. by apply weighted_get.
Qed.

Lemma oall_ok {B} (f : B -> outcome bool) g l : (forall x, x ∈ l -> f x = Ok (g x)) -> oall f l = Ok (forallb g l).
Proof using. induction l as [|x l IH]; intros H; [done|]. cbn [oall forallb]. rewrite H by left. cbn [obind]. destruct (g x); [|done]. apply IH. intros y Hy. apply H. by right. Qed.

Lemma oany_ok {B} (f : B -> outcome bool) g l : (forall x, x ∈ l -> f x = Ok (g x)) -> oany f l = Ok (existsb g l).
Proof using. induction l as [|x l IH]; intros H; [done|]. cbn [oany existsb]. rewrite H by left. cbn [obind]. destruct (g x); [done|]. apply IH. intros y Hy. apply H. by right. Qed.

Lemma phrase_possible_ok c text w q : analysed c text w -> phrase_possible q c = Ok (existsb (fun cl => cl_phrase cl && all_words cl (c_stemmed c) text) q).
Proof using L.
  intros Ha. destruct (analysed_parts c text w Ha) as (Hr & Hs & Hf & Hk & _). apply oany_ok. intros cl _. destruct (cl_phrase cl); [|done]. apply oall_ok. intros t _.
  rewrite (t_get_repr _ _ t Hr Hs). cbn [obind]. f_equal. rewrite tree_get_position. destruct (position_of _ t) as [i|] eqn:E.
  - apply position_of_Some in E; [|by apply bsorted_NoDup]. rewrite list_lookup_fmap in E. cbn [option_bind mbind]. destruct (weighted_terms text w (c_stemmed c) !! i) as [[k f]|] eqn:Ei; [|done]. cbn in E. injection E as ->. cbn.
    pose proof (Forall_lookup_1 _ _ _ _ Hf Ei) as Hpos. cbn in Hpos. rewrite (proj2 (Z.ltb_lt 0 f)) by lia. symmetry. apply bool_decide_eq_true, Hk, list_elem_of_fmap. exists (t, f). split; [done|]. by eapply list_elem_of_lookup_2.
  - symmetry. apply bool_decide_eq_false. intros Hin%Hk. by apply position_of_None in E.
Qed.

Lemma chunk_frequencies_ok c text w q exact :
  analysed c text w -> Forall (fun cl => cl_words cl (c_stemmed c) <> []) q ->
  chunk_frequencies crc32 cipher segment q c exact = Ok (map (occurrences_of exact (c_stemmed c) text w) q).
Proof using L.
  intros Ha Hq. unfold chunk_frequencies. rewrite (phrase_possible_ok c text w q Ha). cbn [obind]. destruct (analysed_parts c text w Ha) as (_ & _ & _ & _ & _ & p & Ep & _).
  rewrite Forall_forall in Hq. destruct (existsb _ q) eqn:E.
  - rewrite Ep. cbn [obind]. apply omap_list_ok. intros cl Hcl. apply frequency_ok; [done|by apply Hq|]. intros _ _. by exists p.
  - cbn [obind]. apply omap_list_ok. intros cl Hcl. apply frequency_ok; [done|by apply Hq|]. intros H1 H2. exfalso.
    assert (existsb (fun cl => cl_phrase cl && all_words cl (c_stemmed c) text) q = true); [|congruence]. apply existsb_exists. exists cl. split; [by apply list_elem_of_In|]. by rewrite H1, H2.
Qed.

Lemma holds_occurrences cl stemmed exact text w : text_fits text w -> negb (occurrences_of exact stemmed text w cl =? 0)%Z = holds cl stemmed text.
Proof using L.
  intros (Hv & Hl & _). unfold occurrences_of, holds. destruct (cl_phrase cl).
  - assert (E : existsb (fun i => bool_decide (phrase_at (cl_words cl stemmed) (tokens text stemmed) i)) (seq 0 (length (tokens text stemmed))) = (0 <? phrase_count (cl_words cl stemmed) (tokens text stemmed))).
    { apply eq_bool_prop_intro. rewrite !Is_true_true, Nat.ltb_lt, phrase_count_pos, existsb_exists. setoid_rewrite bool_decide_eq_true. setoid_rewrite <- list_elem_of_In. setoid_rewrite elem_of_seq. split; intros (i & ? & ?); exists i; split; try done; lia. }
    rewrite E. destruct (phrase_count _ _); [by destruct exact|]. rewrite (proj2 (Z.eqb_neq _ _)) by (destruct exact; lia). done.
  - pose proof (log_of_positive text w stemmed) as Hp. pose proof (weight_of_bounds _ (hd [] (cl_words cl stemmed)) Hp) as B. pose proof (weight_of_pos _ (hd [] (cl_words cl stemmed)) Hp) as W.
    rewrite (log_of_keys text w stemmed _ Hv) in W. case_bool_decide as E; [apply W in E|]; (destruct (Z.eqb_spec (weight_of (log_of text w stemmed) (hd [] (cl_words cl stemmed))) 0); [|done || (exfalso; apply E, W; lia)]); [lia|done].
Qed.
End Analysed.

(** ** Queries that parse *)

Section Parse.
Context `{A : Analyzer}.

(** A clause has words, in both forms. *)
Definition clause_ok (cl : Clause) : Prop := forall stemmed, cl_words cl stemmed <> [].

Lemma trim_start_length cs : length (trim_start cs) <= length cs.
Proof using. induction cs as [|x cs IH]; [done|]. cbn [trim_start]. destruct (is_whitespace x.2); cbn [length] in *; lia. Qed.

Lemma split_find_app P cs : (split_find P cs).1 ++ (split_find P cs).2 = cs.
Proof using. induction cs as [|x cs IH]; [done|]. cbn [split_find]. destruct (P x.2); [done|]. destruct (split_find P cs) as [a b]. cbn in *. by rewrite IH. Qed.

Lemma parse_phrase_ok rest : match parse_phrase rest with Ok (_, rest') => length rest' < length rest | Err _ => True | Panic => False end.
Proof using.
  unfold parse_phrase. pose proof (split_find_app (fun c => (c =? QUOTE)%Z) rest) as E. destruct (split_find _ rest) as [value after]. cbn in E. apply (f_equal length) in E. rewrite length_app in E.
  destruct after as [|x after]; [done|]. cbn [length] in E. destruct (match after with [] => true | _ => _ end); [|done]. destruct (forallb _ value); [lia|done].
Qed.

Lemma parse_word_ok rest : match parse_word rest with Ok (_, rest') => length rest' < length rest | Err _ => True | Panic => False end.
Proof using.
  unfold parse_word. pose proof (split_find_app is_whitespace rest) as E. destruct (split_find _ rest) as [value after]. cbn in E. apply (f_equal length) in E. rewrite length_app in E.
  case_bool_decide as Ev; [done|]. cbn [negb andb]. destruct (forallb _ value); [|done]. destruct value; [done|]. cbn [length] in *. lia.
Qed.

(** Every clause takes a character, so the loop ends. *)
Lemma parse_clause_ok rest : match parse_clause rest with Ok (cl, rest') => clause_ok cl /\ length rest' < length rest | Err _ => True | Panic => False end.
Proof using.
  unfold parse_clause. set (head := match rest with [] => (Should, rest) | _ => _ end). assert (Hh : length head.2 <= length rest).
  { unfold head. destruct rest as [|x r]; [done|]. destruct (x.2 =? 43)%Z; [cbn; lia|]. destruct (x.2 =? 45)%Z; cbn; lia. }
  destruct head as [occur r]. cbn [snd] in Hh. set (phrase := match r with [] => false | _ => _ end).
  assert (Hv : match (if phrase then parse_phrase (tail r) else parse_word r) with Ok (_, rest') => length rest' < length r | Err _ => True | Panic => False end).
  { destruct phrase; [|apply parse_word_ok]. pose proof (parse_phrase_ok (tail r)) as H. destruct (parse_phrase (tail r)) as [[? ?]| |]; [|done|done]. destruct r; cbn [tail length] in *; lia. }
  destruct (if phrase then _ else _) as [[value rest']| |]; [|done|done]. cbn [obind]. case_bool_decide as En; [done|]. cbn [negb]. destruct (_ <=? 1024); [|done]. split; [|lia].
  intros [|]; cbn [cl_words cl_plain cl_stems]; [|done]. intros E. apply En. unfold tokens in *. by apply map_eq_nil in E as ->.
Qed.

Lemma parse_loop_ok fuel rest clauses :
  length rest <= fuel -> Forall clause_ok clauses -> match parse_loop fuel rest clauses with Ok q => Forall clause_ok q | Err _ => True | Panic => False end.
Proof using.
  revert rest clauses. induction fuel as [|fuel IH]; intros rest clauses Hl Hc; (destruct rest as [|x rest]; [done|]); [cbn in Hl; lia|]. cbn [parse_loop].
  destruct (_ <? 1024); [|done]. pose proof (parse_clause_ok (x :: rest)) as H. destruct (parse_clause (x :: rest)) as [[cl rest']| |]; [|done|done]. destruct H as [Hcl Hlt]. cbn [obind].
  apply IH; [pose proof (trim_start_length rest'); lia|]. apply Forall_app. split; [done|]. by constructor.
Qed.

Lemma dedup_subset (l : list Clause) : dedup l ⊆ l.
Proof using.
  induction l as [|a [|b l] IH]; [done|done|]. cbn [dedup]. case_decide as E.
  - intros x Hx. right. by apply IH.
  - intros x [->|Hx]%elem_of_cons; [left|]. right. by apply IH.
Qed.

Lemma parse_ok text : match parse text with Ok q => Forall clause_ok q | Err _ => True | Panic => False end.
Proof using.
  unfold parse. destruct (_ <=? MAX_DOCUMENT_BYTES)%Z; [|done]. pose proof (parse_loop_ok (length (trim (chars text))) (trim (chars text)) [] ltac:(done) ltac:(constructor)) as H.
  destruct (parse_loop _ _ _) as [q| |]; [|done|done]. cbn [obind]. rewrite Forall_forall in *. intros cl Hcl%dedup_subset. apply H. by rewrite merge_sort_Permutation in Hcl.
Qed.
End Parse.

(** ** Ranking *)

Lemma Ncompare_ok : cmp_ok Nat.compare.
Proof. split; [intros a b; apply Nat.compare_antisym|]. intros a b c. rewrite !Nat.compare_le_iff. lia. Qed.

Lemma bcmp_ok : cmp_ok bcmp.
Proof.
  split; [apply bcmp_antisym|]. intros a b c Hab Hbc Hac. apply bcmp_gt in Hac. destruct (bcmp a b) eqn:Eab; [apply bcmp_eq in Eab as ->; apply Hbc, bcmp_gt, Hac| |done].
  apply Hbc, bcmp_gt. exact (blt_trans c a b Hac Eab).
Qed.

Lemma order_hits_ok : cmp_ok order_hits.
Proof.
  apply (then_with_ok (fun a b => f_total_cmp (lh_score b) (lh_score a))); [apply (cmp_map_ok lh_score (fun x y => f_total_cmp y x)), cmp_flip_ok, f_total_cmp_ok|].
  apply (then_with_ok (fun a b => bcmp (lh_document_id a) (lh_document_id b))); [apply cmp_map_ok, bcmp_ok|apply cmp_map_ok, Ncompare_ok].
Qed.

Lemma ranked hits : StronglySorted hit_le (merge_sort hit_le hits).
Proof.
  pose proof order_hits_ok as [Ho Ht]. apply StronglySorted_merge_sort; [exact Ht|]. intros a b. unfold hit_le. rewrite (Ho a b). destruct (order_hits a b); [left|left|right]; done.
Qed.

(** ** The reference *)

(** The chunks of a document, with its id and their index. *)
Fixpoint rows (id : list Z) (index : nat) (cs : list StoredChunk) : list (list Z * nat * StoredChunk) :=
  match cs with [] => [] | c :: cs => (id, index, c) :: rows id (index + 1) cs end.

Section Exact.
Context {V : Type} {TI Ba : Type} {dict : TermIndex TI} `{A : Analyzer} {L : AnalyzerLaws A}.
Context (crc32 : list Z -> Z) (cipher : option Aead) (ln : f64 -> f64) (m : Bm25).
Abbreviation Doc := (StoredDocument V).
Abbreviation Store := (DocumentStore V TI Ba).
(** The content of the chunks. *)
Context (content : StoredChunk -> list Z * Z).
Context (q : LexicalQuery) (idfs : idfs_of) (average : f64).

Definition chunk_satisfies (c : StoredChunk) : bool := satisfies q (c_stemmed c) (content c).1.

Definition satisfying (ds : list (list Z * Doc)) : list (list Z * nat * StoredChunk) :=
  filter (fun r => chunk_satisfies r.2 = true) (concat (map (fun d => rows d.1 0 (doc_chunks d.2)) ds)).

(** The hit of a chunk: its score from the occurrences in its text. *)
Definition hit_of (r : list Z * nat * StoredChunk) : outcome LexicalHit :=
  let c := r.2 in
  let* s := score m q (map (occurrences_of true (c_stemmed c) (content c).1 (content c).2) q) idfs (c_stemmed c) (norm m (f_of_Z (c_word_count c)) average) in
  Ok {| lh_document_id := r.1.1; lh_chunk_index := r.1.2; lh_score := s |}.

(** The documents with a chunk that satisfies the query. *)
Definition matched_documents (ds : list (list Z * Doc)) : list (list Z) :=
  map fst (filter (fun d => existsb chunk_satisfies (doc_chunks d.2) = true) ds).

Lemma matches_loop_spec (f : Clause -> Z) (p : LexicalQuery) required optional :
  matches_loop p (map f p) required optional =
  forallb (fun cl => match cl_occur cl with Must => negb (f cl =? 0)%Z | MustNot => (f cl =? 0)%Z | Should => true end) p &&
  (required || optional || existsb (fun cl => match cl_occur cl with MustNot => false | _ => negb (f cl =? 0)%Z end) p).
Proof using.
  revert required optional. induction p as [|cl p IH]; intros required optional; cbn [matches_loop map forallb existsb]; [by rewrite orb_false_r|].
  destruct (cl_occur cl), (f cl =? 0)%Z; cbn [negb andb orb]; rewrite ?IH; try done; by destruct (forallb _ p), required, optional.
Qed.

Lemma matches_ok stemmed exact text w : text_fits text w -> matches q (map (occurrences_of exact stemmed text w) q) = satisfies q stemmed text.
Proof using L.
  intros Hf. unfold matches, satisfies. rewrite matches_loop_spec. cbn [orb]. f_equal.
  - induction q as [|cl p IH]; [done|]. cbn [forallb]. rewrite IH, <- (holds_occurrences cl stemmed exact text w Hf), negb_involutive. done.
  - induction q as [|cl p IH]; [done|]. cbn [existsb]. by rewrite IH, <- (holds_occurrences cl stemmed exact text w Hf).
Qed.

(** ** Scanning *)

Context (segment : option TextSegment) (Hq : Forall clause_ok q) (k : nat) (count : bool).

(** A chunk and its stored form, which has its content. *)
Definition stored_as (c c' : StoredChunk) : Prop :=
  c_stemmed c' = c_stemmed c /\ c_word_count c' = c_word_count c /\ analysed crc32 cipher segment c' (content c).1 (content c).2.

Definition hits_of (rs : list (list Z * nat * StoredChunk)) : outcome (list LexicalHit) :=
  if 0 <? k then omap_list hit_of (filter (fun r => chunk_satisfies r.2 = true) rs) else Ok [].

Lemma hits_of_app a b : hits_of (a ++ b) = (let* x := hits_of a in let* y := hits_of b in Ok (x ++ y)).
Proof using. unfold hits_of. destruct (0 <? k); [|done]. by rewrite filter_app, omap_list_app. Qed.

Definition mark_id (id : list Z) (cs : list StoredChunk) (matched : gset (list Z)) : gset (list Z) :=
  if count && existsb chunk_satisfies cs then {[ id ]} ∪ matched else matched.

Lemma scan_rows_ok id index cs cs' hits matched :
  Forall2 stored_as cs cs' ->
  scan_chunks crc32 cipher m segment q idfs average k count id index cs' hits matched =
  (let* hs := hits_of (rows id index cs) in Ok (hits ++ hs, mark_id id cs matched)).
Proof using L Hq.
  clear ln. intros Hcs. revert index hits matched. induction Hcs as [|c c' cs cs' (Es & Ew & Hc) _ IH]; intros index hits matched; cbn [scan_chunks rows].
  { unfold hits_of, mark_id. rewrite andb_false_r. destruct (0 <? k); cbn; by rewrite app_nil_r. }
  rewrite (chunk_frequencies_ok crc32 cipher segment c' _ _ q _ Hc) by (eapply Forall_impl; [exact Hq|]; intros cl H; apply H). cbn [obind].
  pose proof Hc as (? & ? & Hfit & _). rewrite Es, Ew, (matches_ok _ _ _ _ Hfit). fold (chunk_satisfies c). change ((id, index, c) :: rows id (index + 1) cs) with ([(id, index, c)] ++ rows id (index + 1) cs).
  rewrite hits_of_app. unfold mark_id at 1. cbn [existsb]. unfold hits_of at 1. rewrite filter_cons, filter_nil. cbn [snd]. destruct (chunk_satisfies c) eqn:Hsat; cbn [negb].
  - rewrite decide_True by done. rewrite orb_true_l, andb_true_r. assert (M : mark_id id cs (if count then {[id]} ∪ matched else matched) = if count then {[id]} ∪ matched else matched).
    { unfold mark_id. destruct count; [|done]. cbn [andb]. destruct (existsb _ cs); [|done]. set_solver. }
    destruct (Nat.ltb_spec 0 k) as [Hk|Hk].
    + cbn [omap_list]. unfold hit_of at 1. cbn [fst snd]. destruct (score _ _ _ _ _ _) as [s| |]; [|done|done]. cbn [obind]. rewrite IH, M. destruct (hits_of _) as [hs| |]; [|done|done]. cbn [obind].
      by rewrite <- app_assoc.
    + rewrite IH, M. cbn [obind]. destruct (hits_of _) as [hs| |]; done.
  - rewrite decide_False by congruence. rewrite IH. cbn [orb]. destruct (0 <? k); cbn [omap_list obind]; destruct (hits_of _) as [hs| |]; done.
Qed.

Lemma scan_documents_ok (ds ds' : list (list Z * Doc)) hits matched :
  Forall2 (fun d d' => d'.1 = d.1 /\ Forall2 stored_as (doc_chunks d.2) (doc_chunks d'.2)) ds ds' ->
  scan_documents crc32 cipher m segment q idfs average k count ds' hits matched =
  (let* hs := hits_of (concat (map (fun d => rows d.1 0 (doc_chunks d.2)) ds)) in
   Ok (hits ++ hs, if count then list_to_set (matched_documents ds) ∪ matched else matched)).
Proof using L Hq.
  clear ln. intros Hds. revert hits matched. induction Hds as [|[id d] [id' d'] ds ds' [E Hd] _ IH]; intros hits matched; cbn [scan_documents map concat]; [|cbn [fst snd] in E, Hd; subst id'].
  { unfold hits_of, matched_documents. destruct (0 <? k); cbn; rewrite app_nil_r; (destruct count; [|done]); by rewrite (left_id_L ∅ (∪)). }
  rewrite (scan_rows_ok _ _ _ _ _ _ Hd). rewrite hits_of_app. cbn [fst snd]. destruct (hits_of (rows id 0 (doc_chunks d))) as [hs| |]; [|done|done]. cbn [obind]. rewrite IH.
  destruct (hits_of _) as [hs'| |]; [|done|done]. cbn [obind]. rewrite <- app_assoc. do 2 f_equal. unfold mark_id, matched_documents. rewrite filter_cons. destruct count; [|done]. cbn [andb snd].
  destruct (existsb chunk_satisfies (doc_chunks d)); [rewrite decide_True by done; cbn [map list_to_set fst]; set_solver|]. by rewrite decide_False by congruence.
Qed.
End Exact.
