(* ===== verification/LexicalHistory.v ===== *)
(** * Searches of a store

    The exhaustive search of a store that any history of batches and removals left, against the
    documents of the history: what matches, the document frequencies the scores use, and the
    ranking are those of the texts that were put in. *)

From S2P Require Import Prelude Words BitPack Search Positions Terms FrameDict TextSegment Binary Share TermDict Postings Cursor PostingEdit PostingRuns CheckpointLists Lists Indexing Bulk IndexRuns Filters SlotTable Store Overlay Capacity StoreSpec StoreEdits StoreRuns StoreHistory Chars Interner Analysis Bm25 Lexical LexicalExact.

Section Ordered.
Context {V : Type} `{!EqDecision (StoredDocument V)}.
Abbreviation Doc := (StoredDocument V).

(** Related maps list their documents side by side. *)
Lemma ordered_related (R M : gmap (list Z) Doc) :
  related R M -> Forall2 (fun d d' : list Z * Doc => d'.1 = d.1 /\ same_document d.2 d'.2) (ordered R) (ordered M).
Proof.
  intros Hrel. set (l := map (fun d => (d.1, default d.2 (M !! d.1))) (ordered R)). assert (Ek : map fst l = map fst (ordered R)) by (unfold l; by rewrite map_map).
  assert (l = ordered M) as <-.
  { apply ordered_unique; [rewrite Ek; apply ordered_sorted|]. apply NoDup_Permutation; [apply (NoDup_fmap_1 fst); change (NoDup (map fst l)); rewrite Ek; apply ordered_NoDup|apply NoDup_map_to_list|].
    intros [id d]. rewrite elem_of_map_to_list. unfold l. rewrite list_elem_of_fmap. split.
    - intros ([id' d0] & [= -> ->] & Hd%ordered_elem). cbn [fst snd]. specialize (Hrel id'). rewrite Hd in Hrel. inversion Hrel as [? d' _ E1 E2|]; subst. done.
    - intros Hd. specialize (Hrel id). rewrite Hd in Hrel. inversion Hrel as [d0 ? _ E1 E2|]; subst. exists (id, d0). cbn [fst snd]. rewrite Hd. split; [done|]. by apply ordered_elem. }
  unfold l. apply Forall2_fmap_r, Forall_Forall2_diag, Forall_forall. intros [id d] Hd%ordered_elem. cbn [fst snd]. split; [done|]. specialize (Hrel id). rewrite Hd in Hrel.
  inversion Hrel as [? d' Hs E1 E2|]; subst. cbn [fst snd]. rewrite <- E2. done.
Qed.
End Ordered.

(** ** Document frequencies *)

Lemma represents_count {D} {dict : TermIndex D} words (s : PostingLists D) M t :
  represents words s M ->
  exists l qs, pls_get s t = Ok l /\ match l with Some l => pl_count l | None => 0%Z end = Z.of_nat (length qs) /\ NoDup qs /\
    forall k, k ∈ qs <-> is_Some (at_term M t !! k).
Proof.
  intros (m & Hd & Hc). unfold pls_get. rewrite (ti_get_ok _ _ _ Hd). cbn [obind]. destruct (m !! t) as [id|] eqn:Hid.
  - destruct (lo_live _ _ _ _ _ Hc t id Hid) as (_ & l & es & Hl & Hm & _ & HM). rewrite Hl. cbn [expect obind]. pose proof (models_entries _ _ _ Hm) as He.
    exists (Some l), (map slot_of es). split_and!; [done|by rewrite length_map, (models_count _ _ _ Hm)|apply sorted_NoDup, He|].
    intros k. rewrite (at_term_Some _ _ _ HM). pose proof (entries_distinct _ He) as Hdist. split.
    + intros (e & -> & Hin)%list_elem_of_fmap. exists (e.1.2, e.2). apply to_map_Some; [done|]. by exists e.
    + intros [v Hv]. apply to_map_Some in Hv as (e & Hin & E); [|done]. injection E as <- _. by apply list_elem_of_fmap_2.
  - exists None, []. split_and!; [done|done|constructor|]. intros k. rewrite elem_of_nil. unfold at_term. rewrite (proj1 (core_None _ _ _ _ _ t Hc) Hid). split; [done|]. by intros [o Ho].
Qed.

(** The rows of a chunk list, and of the documents. *)
Lemma rows_elem id n cs x : x ∈ rows id n cs <-> exists i c, cs !! i = Some c /\ x = (id, n + i, c).
Proof.
  revert n. induction cs as [|c cs IH]; intros n; cbn [rows]; [rewrite elem_of_nil; split; [done|]; intros (i & c & Hc & _); by rewrite lookup_nil in Hc|].
  rewrite elem_of_cons, IH. split.
  - intros [->|(i & c' & Hc & ->)]; [exists 0, c; rewrite Nat.add_0_r; done|]. exists (S i), c'. split; [done|]. do 2 f_equal. lia.
  - intros ([|i] & c' & Hc & ->); [injection Hc as ->; left; by rewrite Nat.add_0_r|]. right. exists i, c'. split; [done|]. do 2 f_equal. lia.
Qed.

Lemma rows_NoDup id n cs : NoDup (map fst (rows id n cs)).
Proof.
  revert n. induction cs as [|c cs IH]; intros n; cbn [rows map]; constructor; [|apply IH]. intros (x & E & (i & c' & _ & ->)%rows_elem)%list_elem_of_fmap. cbn in E. injection E as E. lia.
Qed.

Section Rows.
Context {V : Type} `{!EqDecision (StoredDocument V)}.
Abbreviation Doc := (StoredDocument V).

Definition all_rows (R : gmap (list Z) Doc) : list (list Z * nat * StoredChunk) := concat (map (fun d => rows d.1 0 (doc_chunks d.2)) (ordered R)).

Lemma all_rows_elem R id i c : (id, i, c) ∈ all_rows R <-> exists d, R !! id = Some d /\ doc_chunks d !! i = Some c.
Proof.
  unfold all_rows. rewrite list_elem_of_In, in_concat. split.
  - intros (l & Hl & Hx). apply list_elem_of_In in Hl, Hx. apply list_elem_of_fmap in Hl as ([id' d] & -> & Hd%ordered_elem). apply rows_elem in Hx as (j & c' & Hc & [= -> -> ->]). eauto.
  - intros (d & Hd & Hc). exists (rows id 0 (doc_chunks d)). rewrite <- !list_elem_of_In. split; [|apply rows_elem; by exists i, c]. apply list_elem_of_fmap. exists (id, d). split; [done|]. by apply ordered_elem.
Qed.

Lemma all_rows_NoDup R : NoDup (map fst (all_rows R)).
Proof.
  unfold all_rows. pose proof (ordered_NoDup R) as Hnd. induction (ordered R) as [|[id d] l IH]; cbn [map concat]; [constructor|]. cbn [map] in Hnd. apply NoDup_cons in Hnd as [Hid Hnd].
  rewrite map_app. apply NoDup_app. split_and!; [apply rows_NoDup| |by apply IH]. intros x (y & -> & (i & c & _ & ->)%rows_elem)%list_elem_of_fmap (z & E & Hz)%list_elem_of_fmap.
  apply list_elem_of_In, in_concat in Hz as (r & Hr & Hz). apply list_elem_of_In in Hr, Hz. apply list_elem_of_fmap in Hr as ([id' d'] & -> & Hin). apply rows_elem in Hz as (j & c' & _ & ->).
  cbn in E. injection E as <- _. apply Hid. apply list_elem_of_fmap. by exists (id, d').
Qed.
End Rows.

(** ** Searching what a history left *)

Section Search.
Context {V : Type} {json : Json V} `{!EqDecision (StoredDocument V)} {B : Type} {checkpoint : Checkpoint B} `{A : Analyzer} {L : AnalyzerLaws A}.
Context (crc32 : list Z -> Z) (cipher : option Aead) (ln : f64 -> f64) (m : Bm25).
Abbreviation Doc := (StoredDocument V).
Abbreviation docs := (gmap (list Z) Doc).
Abbreviation Store := (DocumentStore V TermDictionary B).
(** The text and title weight of a chunk. *)
Context (content : StoredChunk -> list Z * Z).

(** A chunk with the table of its text, which it keeps unless it has positions. *)
Definition ingested (c : StoredChunk) : Prop :=
  exists positions, text_fits (content c).1 (content c).2 /\ analysis (content c).1 (content c).2 (c_stemmed c) positions = Ok (c_terms c, c_word_count c) /\
    (positions = None -> c_text c = Some (content c).1).

Definition all_ingested (R : docs) : Prop := forall id d c, R !! id = Some d -> c ∈ doc_chunks d -> ingested c.

(** The chunks of a form that have a word. *)
Definition document_frequency (R : docs) (f : bool) (t : list Z) : nat :=
  length (filter (fun r => c_stemmed r.2 = f /\ t ∈ tokens (content r.2).1 f) (all_rows R)).

Definition reference_idf (R : docs) (f : bool) (t : list Z) : f64 := idf ln (f_of_Z (docs_total one R)) (f_of_Z (Z.of_nat (document_frequency R f t))).
Definition reference_idfs (R : docs) (q : LexicalQuery) : idfs_of :=
  map (fun cl => (f_sum (map (reference_idf R false) (cl_plain cl)), f_sum (map (reference_idf R true) (cl_stems cl)))) q.
Definition reference_average (R : docs) : f64 := average_length (docs_total c_word_count R) (docs_total one R).

Lemma ingested_keys c t : ingested c -> (exists fr, (t, fr) ∈ entries_of c) <-> t ∈ tokens (content c).1 (c_stemmed c).
Proof using L.
  intros (positions & Hfit & E & _). destruct (analysis_holds _ _ _ _ _ _ Hfit E) as (Hr & _). rewrite (repr_entries_of _ _ Hr). destruct Hfit as (Hv & Hl & _).
  rewrite <- (weighted_keys _ (content c).2 _ t Hv) by (unfold U32; lia). rewrite list_elem_of_fmap. split; [intros (fr & H); by exists (t, fr)|]. intros ([t' fr] & -> & H). by exists fr.
Qed.

(** Such a chunk is within what the store takes. *)
Lemma ingested_fits c : ingested c -> chunk_fits c.
Proof using L.
  intros (positions & Hfit & E & _). destruct (analysis_holds _ _ _ _ _ _ Hfit E) as (Hr & Hw & He & Hl & _). pose proof (log_of_total _ _ (c_stemmed c) Hfit) as Ht. destruct Hfit as (_ & Hlen & _).
  pose proof (weight_of_bounds _ [] (log_of_positive (content c).1 (content c).2 (c_stemmed c))). split; [|rewrite Hw; unfold U32_MAX, U32; lia].
  rewrite (repr_entries_of _ _ Hr). split; [done|done|unfold U32; lia].
Qed.

Lemma stored_content (segment : option TextSegment) c c' : ingested c -> same_content c c' -> stored_as crc32 cipher content segment c c'.
Proof using.
  intros (positions & Hfit & E & Ht) Hs. pose proof Hs as (Ec & _). assert (Es : c_stemmed c' = c_stemmed c) by by rewrite Ec. assert (Ew : c_word_count c' = c_word_count c) by by rewrite Ec.
  split; [done|]. split; [done|]. exists c, positions. rewrite Es. split_and!; [done|done|done|]. intros Hp. assert (Et : c_text c' = Some (content c).1) by (rewrite Ec; exact (Ht Hp)).
  unfold try_text_of. by rewrite Et.
Qed.

(** The slot of a row. *)
Definition slot_at (S : gmap (list Z) (list Z)) (x : list Z * nat) : Z := default 0%Z (S !! x.1 ≫= (fun ss => ss !! x.2)).

(** Every row of a document has its own slot, and postings are the rows with the word. *)
Section Slots.
Context (s : Store) (outs : list (option Doc)) (r : docs * list (option Doc)) (g : Z) (Hm : StoreHistory.matches (s, outs) r g) (Hin : all_ingested r.1).

Lemma row_slot id i c : (id, i, c) ∈ all_rows r.1 -> exists ss k, ds_slots s !! id = Some ss /\ ss !! i = Some k /\ slot_at (ds_slots s) (id, i) = k.
Proof using Hm.
  clear Hin. intros (d & Hd & Hc)%all_rows_elem. pose proof Hm as [H1 H2 _ _ _ _ _]. cbn [fst] in *. specialize (H2 id). rewrite Hd in H2. inversion H2 as [d0 d' Hdd E1 E2|]; subst. symmetry in E2.
  destruct (dir_slots s _ _ _ (sk_dir _ H1) E2) as (ss & Hss & _ & Hlen). destruct Hdd as [_ Hdd]. apply Forall2_length in Hdd. apply lookup_lt_Some in Hc.
  destruct (lookup_lt_is_Some_2 ss i ltac:(lia)) as [k Hk]. exists ss, k. split_and!; [done|done|]. unfold slot_at. cbn [fst snd]. rewrite Hss. cbn. by rewrite Hk.
Qed.

Lemma row_slots_NoDup P `{!forall x, Decision (P x)} : NoDup (map (fun x => slot_at (ds_slots s) x.1) (filter P (all_rows r.1))).
Proof using Hm.
  clear Hin. rewrite <- (map_map fst (slot_at (ds_slots s))). apply NoDup_fmap_2_strong; [|eapply sublist_NoDup; [apply (all_rows_NoDup r.1)|apply (fmap_sublist fst), sublist_filter]].
  intros x y ([[id i] c] & -> & [_ Hx]%list_elem_of_filter)%list_elem_of_fmap ([[id' i'] c'] & -> & [_ Hy]%list_elem_of_filter)%list_elem_of_fmap. cbn [fst].
  destruct (row_slot _ _ _ Hx) as (ss & k & Hss & Hk & ->). destruct (row_slot _ _ _ Hy) as (ss' & k' & Hss' & Hk' & ->). intros ->. pose proof Hm as [H1 _ _ _ _ _ _]. cbn [fst] in *.
  destruct (linked_distinct _ _ _ (dk_linked _ _ (sk_dir _ H1)) id id' ss ss' i i' k' Hss Hk Hss' Hk') as [-> ->]. done.
Qed.

Lemma posting_rows f t k :
  (exists fr, has_posting r.1 (ds_slots s) f t k fr) <-> k ∈ map (fun x => slot_at (ds_slots s) x.1) (filter (fun x => c_stemmed x.2 = f /\ t ∈ tokens (content x.2).1 f) (all_rows r.1)).
Proof using Hm Hin L.
  rewrite list_elem_of_fmap. split.
  - intros (fr & id & d & ss & i & c & Hd & Hss & Hi & Hc & Hf & He). exists (id, i, c). unfold slot_at. cbn [fst snd]. rewrite Hss. cbn. rewrite Hi. split; [done|]. apply list_elem_of_filter. cbn [snd].
    split; [|apply all_rows_elem; eauto]. split; [done|]. rewrite <- Hf. apply ingested_keys; [eapply Hin; [exact Hd|by eapply list_elem_of_lookup_2]|eauto].
  - intros ([[id i] c] & -> & [[Hf Ht] Hx]%list_elem_of_filter). cbn [snd fst] in *. destruct (row_slot _ _ _ Hx) as (ss & k & Hss & Hk & ->). apply all_rows_elem in Hx as (d & Hd & Hc). rewrite <- Hf in Ht.
    apply ingested_keys in Ht as [fr Hfr]; [|eapply Hin; [exact Hd|by eapply list_elem_of_lookup_2]]. exists fr, id, d, ss, i, c. done.
Qed.
End Slots.

Lemma document_frequency_ok (s : Store) outs r g f t :
  StoreHistory.matches (s, outs) r g -> all_ingested r.1 ->
  exists l, pls_get (form (ds_postings s) f) t = Ok l /\ match l with Some l => pl_count l | None => 0%Z end = Z.of_nat (document_frequency r.1 f t).
Proof using L.
  intros Hm Hin. pose proof Hm as [H1 _ _ _ _ _ _]. cbn [fst] in *.
  destruct (represents_count _ _ _ t (so_index _ _ (sk_postings _ H1) f)) as (l & qs & El & Ec & Hnd & Hqs). exists l. split; [done|]. rewrite Ec. f_equal. unfold document_frequency.
  rewrite <- (length_map (fun x => slot_at (ds_slots s) x.1)). apply Permutation_length, NoDup_Permutation; [done|by apply (row_slots_NoDup s outs r g Hm)|].
  intros k. rewrite Hqs, index_of_lookup, <- (posting_rows s outs r g Hm Hin). setoid_rewrite <- (look_posting _ _ _ f t k _ Hm). cbn [fst].
  split; [intros [[fr o] Hv]; eauto|]. intros (fr & o & Hv). eauto.
Qed.

Lemma word_idf_ok (s : Store) outs r g f t :
  StoreHistory.matches (s, outs) r g -> all_ingested r.1 -> word_idf ln s f t = Ok (reference_idf r.1 f t).
Proof using L.
  intros Hm Hin. destruct (document_frequency_ok s outs r g f t Hm Hin) as (l & El & Ed). unfold word_idf. rewrite El. cbn [obind]. rewrite Ed.
  pose proof (counter_total _ _ _ one Hm stable_one) as Hc. pose proof Hm as [H1 _ _ _ _ _ _]. cbn [fst] in *. by rewrite (tk_chunks _ (dk_table _ _ (sk_dir _ H1))), Hc.
Qed.

Lemma clause_idfs_ok (s : Store) outs r g q :
  StoreHistory.matches (s, outs) r g -> all_ingested r.1 -> clause_idfs ln s q = Ok (reference_idfs r.1 q).
Proof using L.
  intros Hm Hin. apply omap_list_ok. intros cl _. by rewrite !(omap_list_ok _ _ _ (fun t _ => word_idf_ok s outs r g _ t Hm Hin)).
Qed.

(** What a search returns: the documents with a chunk that satisfies the query are counted, and
    the chunks that do are ranked and the first [k] returned; a score that is not finite is an
    error. *)
Definition search_answer (R : docs) (q : LexicalQuery) (k : nat) (count : bool) (result : outcome LexicalResults) : Prop :=
  match hits_of m content q (reference_idfs R q) (reference_average R) k (all_rows R) with
  | Ok hits => exists ranking, ranking ≡ₚ hits /\ StronglySorted hit_le ranking /\
      result = Ok {| lr_hits := take k ranking; lr_count := if count then Some (length (matched_documents content q (ordered R))) else None |}
  | Err e => result = Err e
  | Panic => False
  end.

(** A query of excluded clauses is satisfied by nothing. *)
Lemma no_positive q c : has_positive q = false -> chunk_satisfies content q c = false.
Proof using.
  intros H. unfold chunk_satisfies, satisfies. apply andb_false_intro2. unfold has_positive in H. induction q as [|cl q IH]; [done|]. cbn [existsb] in *. apply orb_false_iff in H as [H1 H2].
  rewrite IH by done. case_bool_decide as E; [|done]. by rewrite E.
Qed.

Lemma hits_of_nothing q idfs average k rs : (forall c, chunk_satisfies content q c = false) -> hits_of m content q idfs average k rs = Ok [].
Proof using.
  intros H. unfold hits_of. destruct (0 <? k); [|done]. assert (filter (fun r => chunk_satisfies content q r.2 = true) rs = []) as ->; [|done].
  induction rs as [|x rs IH]; [done|]. rewrite filter_cons, decide_False; [done|]. by rewrite H.
Qed.

Lemma hits_of_total q idfs average k rs : hits_of m content q idfs average k rs <> Panic.
Proof using.
  unfold hits_of. destruct (0 <? k); [|done]. induction (filter _ rs) as [|x l IH]; [done|]. cbn [omap_list]. unfold hit_of at 1, score. destruct (is_finite _); [|done]. cbn [obind].
  destruct (omap_list _ l); done.
Qed.

Lemma ordered_stored (segment : option TextSegment) (R M : docs) :
  related R M -> all_ingested R ->
  Forall2 (fun d d' : list Z * Doc => d'.1 = d.1 /\ Forall2 (stored_as crc32 cipher content segment) (doc_chunks d.2) (doc_chunks d'.2)) (ordered R) (ordered M).
Proof using.
  intros Hrel Hin. assert (F : Forall (fun d : list Z * Doc => Forall ingested (doc_chunks d.2)) (ordered R)).
  { apply Forall_forall. intros [id d] Hd%ordered_elem. apply Forall_forall. intros c Hc. by apply (Hin id d). }
  pose proof (ordered_related R M Hrel) as H. clear Hin Hrel. induction H as [|d d' l l' [E [_ Hd]] _ IH]; constructor; apply Forall_cons in F as [Fd F]; [|by apply IH].
  split; [done|]. clear -Hd Fd. induction Hd as [|c c' cs cs' Hc _ IH]; constructor; apply Forall_cons in Fd as [Fc Fd]; [by apply stored_content|by apply IH].
Qed.

Lemma exhaustive_ok (s : Store) outs r g q k count :
  StoreHistory.matches (s, outs) r g -> all_ingested r.1 -> Forall clause_ok q -> search_answer r.1 q k count (exhaustive crc32 cipher ln m s q k count).
Proof using L.
  intros Hm Hin Hq. pose proof (counter_total _ _ _ one Hm stable_one) as Hc. pose proof (counter_total _ _ _ c_word_count Hm stable_words) as Hw. pose proof Hm as [H1 H2 _ _ _ _ _]. cbn [fst] in *.
  pose proof (dk_table _ _ (sk_dir _ H1)) as Ht. unfold exhaustive, search_answer. destruct (has_positive q) eqn:Hp; cbn [negb].
  2: { pose proof (fun c => no_positive q c Hp) as Hn. rewrite hits_of_nothing by done. exists []. split; [done|]. split; [constructor|]. rewrite take_nil. do 2 f_equal. destruct count; [|done]. f_equal.
       unfold matched_documents. rewrite length_map. induction (ordered r.1) as [|d l IH]; [done|]. rewrite filter_cons, decide_False; [done|]. intros (c & _ & Hc')%existsb_exists. by rewrite Hn in Hc'. }
  assert (Ei : (if 0 <? k then clause_idfs ln s q else Ok []) = Ok (if 0 <? k then reference_idfs r.1 q else [])) by (destruct (0 <? k); [by apply (clause_idfs_ok s outs r g)|done]). rewrite Ei. cbn [obind].
  rewrite (tk_chunks _ Ht), (tk_total _ Ht), Hc, Hw. fold (reference_average r.1). fold (ordered (ds_documents s)).
  rewrite (scan_documents_ok crc32 cipher m content q _ _ (ds_text s) Hq k count (ordered r.1) (ordered (ds_documents s))).
  2: by apply ordered_stored.
  fold (all_rows r.1). assert (Eh : hits_of m content q (if 0 <? k then reference_idfs r.1 q else []) (reference_average r.1) k (all_rows r.1) = hits_of m content q (reference_idfs r.1 q) (reference_average r.1) k (all_rows r.1)).
  { unfold hits_of. by destruct (0 <? k). }
  rewrite Eh. pose proof (hits_of_total q (reference_idfs r.1 q) (reference_average r.1) k (all_rows r.1)) as Hnp. clear Eh. destruct (hits_of m content q (reference_idfs r.1 q) (reference_average r.1) k (all_rows r.1)) as [hits| |]; [|done|done]. cbn [obind app].
  exists (merge_sort hit_le hits). split; [apply merge_sort_Permutation|]. split; [apply ranked|]. do 2 f_equal. destruct count; [|done]. f_equal. rewrite (right_id_L ∅ (∪)). apply size_list_to_set.
  unfold matched_documents. eapply sublist_NoDup; [apply (ordered_NoDup r.1)|apply (fmap_sublist fst), sublist_filter].
Qed.

(** C15: a search finds what the texts say.  After any history of batches and removals, for any query
    text: parsing never panics, and a query that parses is answered from the store exactly as from
    the texts of the documents the history left: the documents counted are those with a chunk that
    has every required word and phrase, no excluded one, and at least one that is not excluded,
    where a phrase occurs when its words follow one another; the hits are the first [k] of these
    chunks ranked by score, then id, then index; and the scores use the occurrences in the texts,
    and the document frequencies and average length over all chunks.  The only error is a score
    that is not finite. *)
Theorem lexical_search_exact threads nonce_at g os text k count :
  store_ops_ok ∅ g os -> all_ingested (reference os).1 ->
  exists s outs, store_steps threads crc32 cipher nonce_at (opened (D := TermDictionary) (B := B) g) os = Ok (s, outs) /\
    match parse text with
    | Ok q => search_answer (reference os).1 q k count (exhaustive crc32 cipher ln m s q k count)
    | Err _ => True
    | Panic => False
    end.
Proof using L.
  intros Ho Hin. destruct (run_ok_matches threads crc32 cipher nonce_at g os Ho) as (s & outs & g' & Hrun & Hm). exists s, outs. split; [done|].
  pose proof (parse_ok text) as Hp. destruct (parse text) as [q| |]; [|done|done]. by apply (exhaustive_ok s outs (reference os) g').
Qed.
End Search.

(** ** A search *)

(** "Cats.\ncat dogs" and "dogs", without positions; the first line counts twice. *)
Definition toy_texts : list (list Z) := [[67; 97; 116; 115; 46; 10; 99; 97; 116; 32; 100; 111; 103; 115]; [100; 111; 103; 115]]%Z.

Definition toy_content (c : StoredChunk) : list Z * Z := (default [] (c_text c), 2%Z).

Definition toy_text_chunk (text : list Z) : StoredChunk :=
  let r := match analysis (A := toy_analyzer) text 2 true None with Ok r => r | _ => ({| t_terms := None; t_positions := None |}, 0%Z) end in
  {| c_id := []; c_text := Some text; c_text_at := None; c_start_byte := 0; c_end_byte := Z.of_nat (length text);
     c_vector := {| hv_dim := 64; hv_indices := [] |}; c_embedding := None; c_terms := r.1; c_word_count := r.2; c_stemmed := true; c_vector_state := Encoded |}.

Definition toy_search_history : list store_op :=
  [SInsert [toy_sdoc [1] (map toy_text_chunk toy_texts); toy_sdoc [2] (map toy_text_chunk (tail toy_texts))]; SRemove [9]]%Z.

(** The phrase "cat dogs", without the word bird. *)
Definition toy_query : list Z := [43; 34; 99; 97; 116; 32; 100; 111; 103; 115; 34; 32; 45; 98; 105; 114; 100]%Z.

Lemma toy_texts_ingested text : text ∈ toy_texts -> ingested (A := toy_analyzer) toy_content (toy_text_chunk text).
Proof.
  intros Ht. assert (text_fits text 2 /\ exists r, analysis (A := toy_analyzer) text 2 true None = Ok r) as (Hfit & r & E).
  { unfold text_fits. apply elem_of_cons in Ht as [->|Ht]; [|apply list_elem_of_singleton in Ht as ->]; (split; [split_and!; vm_compute; congruence|]); eexists; vm_compute; reflexivity. }
  exists None. split; [exact Hfit|]. split; [|reflexivity]. change (analysis (A := toy_analyzer) text 2 true None = Ok (c_terms (toy_text_chunk text), c_word_count (toy_text_chunk text))).
  unfold toy_text_chunk. cbn [c_terms c_word_count]. rewrite E. by destruct r.
Qed.

Lemma toy_search_history_ok : store_ops_ok ∅ 5 toy_search_history.
Proof.
  unfold toy_search_history. cbn [store_ops_ok]. unfold store_op_ok. repeat match goal with |- _ /\ _ => split end; try exact I; try by_decide.
  assert (F : forall ts, Forall (fun t => t ∈ toy_texts) ts -> Forall chunk_fits (map toy_text_chunk ts)).
  { intros ts Hts. apply Forall_map. eapply Forall_impl; [exact Hts|]. intros t Ht. by apply (ingested_fits (L := toy_analyzer_laws) toy_content), toy_texts_ingested. }
  apply Forall_cons. split; [|apply Forall_cons; split; [|constructor]]; apply F; by_decide.
Qed.

Lemma toy_all_ingested : all_ingested (A := toy_analyzer) toy_content (reference toy_search_history).1.
Proof.
  intros id d c Hd Hc. assert (F : map_Forall (fun _ d => Forall (fun c => exists text, text ∈ toy_texts /\ c = toy_text_chunk text) (doc_chunks d)) (reference toy_search_history).1).
  { apply map_Forall_delete. repeat apply map_Forall_insert_2; [| |apply map_Forall_empty]; cbn [toy_sdoc doc_chunks]; apply Forall_map, Forall_forall; intros t Ht; exists t; (split; [|done]); [by right|done]. }
  specialize (F id d Hd). rewrite Forall_forall in F. destruct (F c Hc) as (text & Ht & ->). by apply toy_texts_ingested.
Qed.

Lemma lexical_search_exact_witness :
  exists s outs q hit,
    store_steps (V := toy_json) (B := Base flat_image) 4 (fun _ => 0%Z) None (fun _ => []) (opened (D := TermDictionary) 5) toy_search_history = Ok (s, outs) /\
    parse (A := toy_analyzer) toy_query = Ok q /\
    exhaustive (A := toy_analyzer) (fun _ => 0%Z) None (fun x => x) bm25_default s q 5 true = Ok {| lr_hits := [hit]; lr_count := Some 1 |} /\
    lh_document_id hit = [1]%Z /\ lh_chunk_index hit = 0.
Proof.
  destruct (lexical_search_exact (B := Base flat_image) (L := toy_analyzer_laws) (fun _ => 0%Z) None (fun x => x) bm25_default toy_content 4 (fun _ => []) 5 toy_search_history toy_query 5 true
    toy_search_history_ok toy_all_ingested) as (s & outs & Hrun & H).
  destruct (parse (A := toy_analyzer) toy_query) as [q| |] eqn:Eq; [|vm_compute in Eq; discriminate|vm_compute in Eq; discriminate].
  assert (Hh : exists hit, hits_of (A := toy_analyzer) bm25_default toy_content q (reference_idfs (A := toy_analyzer) (fun x => x) toy_content (reference toy_search_history).1 q) (reference_average (reference toy_search_history).1) 5
      (all_rows (reference toy_search_history).1) = Ok [hit] /\ lh_document_id hit = [1]%Z /\ lh_chunk_index hit = 0).
  { vm_compute in Eq. injection Eq as <-. eexists. split; [vm_compute; reflexivity|]. split; reflexivity. }
  destruct Hh as (hit & Eh & Hd & Hi). exists s, outs, q, hit. split; [exact Hrun|]. split; [reflexivity|]. split; [|split; [exact Hd|exact Hi]].
  unfold search_answer in H. rewrite Eh in H. destruct H as (ranking & Hp & _ & ->). apply Permutation_singleton_r in Hp as ->.
  assert (Hl : length (matched_documents (A := toy_analyzer) toy_content q (ordered (reference toy_search_history).1)) = 1) by (vm_compute in Eq; injection Eq as <-; vm_compute; reflexivity). rewrite Hl. reflexivity.
Defined.
