(* ===== verification/Gate.v ===== *)
(** * The mutation gate

    [src/core/engine/mutation_gate.rs]: a queue of tickets that admits one writer or maintenance
    task at a time, and a reader-writer lock that a mutation takes to publish.  Every critical
    section of the queue's mutex is one step of the thread that runs it; waiting on the condition
    variable gives the mutex up and falls asleep at once, and a thread that sleeps can be woken
    without cause.  Whatever the interleaving, writers are admitted one at a time and in the order
    they asked, a publishing writer excludes readers, no wake-up is lost, and every thread that
    waits is admitted. *)

From S2P Require Import Prelude.

(** ** Threads *)

(** What a thread asked for. *)
Inductive Admission := Maintenance | Mutation.

(** Where a thread stands. *)
Inductive Thread :=
| Idle
| Entering (r : Admission)             (* at the lock of [acquire] *)
| Asleep (r : Admission) (ticket : Z)  (* waits on [changed] *)
| Woken (r : Admission) (ticket : Z)   (* about to compare again *)
| Leased (ticket : Z) (held : bool)  (* a [WriterLease] of maintenance *)
| Transaction (ticket : Z)           (* a [TransactionGuard] *)
| Writing (ticket : Z)               (* a [WriteGuard] *)
| Closing (ticket : Z)               (* its [_readers] dropped, its [_writer] not yet *)
| EnteringRead
| Reading
| Panicked.
#[global] Instance admission_eq : EqDecision Admission. Proof. solve_decision. Defined.
#[global] Instance thread_eq : EqDecision Thread. Proof. solve_decision. Defined.

Record WriterState := mkWriters { ws_next : Z; ws_serving : Z }.

(** The queue, the thread that holds [readers] to write, those that hold it to read, and the
    threads. *)
Record MutationGate := mkGate { g_state : WriterState; g_writer : option nat; g_readers : gset nat; g_threads : gmap nat Thread }.

Definition set_thread (g : MutationGate) (i : nat) (p : Thread) : MutationGate :=
  {| g_state := g_state g; g_writer := g_writer g; g_readers := g_readers g; g_threads := <[i := p]> (g_threads g) |}.

(** [MutationGate::default], before any call of the threads [ids]. *)
Definition gate_default (ids : list nat) : MutationGate :=
  {| g_state := {| ws_next := 0; ws_serving := 0 |}; g_writer := None; g_readers := ∅; g_threads := list_to_map (map (fun i => (i, Idle)) ids) |}.

(** ** The steps *)

(** The lease [acquire] returns, as its caller keeps it. *)
Definition leased (r : Admission) (ticket : Z) : Thread := match r with Maintenance => Leased ticket true | Mutation => Transaction ticket end.

(** One turn of the loop of [acquire]. *)
Definition compare_ticket (s : WriterState) (r : Admission) (ticket : Z) : Thread :=
  if (ws_serving s =? ticket)%Z then leased r ticket else Asleep r ticket.

(** [acquire] up to the first comparison. *)
Definition acquire (g : MutationGate) (i : nat) (r : Admission) : MutationGate :=
  let ticket := ws_next (g_state g) in
  match checked_add U64 ticket 1 with
  | None => set_thread g i Panicked
  | Some next =>
      let s := {| ws_next := next; ws_serving := ws_serving (g_state g) |} in
      {| g_state := s; g_writer := g_writer g; g_readers := g_readers g; g_threads := <[i := compare_ticket s r ticket]> (g_threads g) |}
  end.

Definition wake (p : Thread) : Thread := match p with Asleep r ticket => Woken r ticket | p => p end.

(** [WriterLease::release] of a lease that is held. *)
Definition release (g : MutationGate) : outcome MutationGate :=
  let* serving := expect (checked_add U64 (ws_serving (g_state g)) 1) in
  Ok {| g_state := {| ws_next := ws_next (g_state g); ws_serving := serving |}; g_writer := g_writer g; g_readers := g_readers g; g_threads := wake <$> g_threads g |}.

Definition with_writer (g : MutationGate) (w : option nat) : MutationGate :=
  {| g_state := g_state g; g_writer := w; g_readers := g_readers g; g_threads := g_threads g |}.
Definition with_readers (g : MutationGate) (rs : gset nat) : MutationGate :=
  {| g_state := g_state g; g_writer := g_writer g; g_readers := rs; g_threads := g_threads g |}.

(** What a thread does next: a call, an awakening without cause, its next operation, [release], or
    the drop of what it holds. *)
Inductive Action := Call (r : Admission) | CallRead | Spurious | Next | Release | Drop.

(** The step of a thread, if it is not blocked there. *)
Definition act (g : MutationGate) (i : nat) (a : Action) : option (outcome MutationGate) :=
  match g_threads g !! i, a with
  | Some Idle, Call r => Some (Ok (set_thread g i (Entering r)))
  | Some Idle, CallRead => Some (Ok (set_thread g i EnteringRead))
  | Some (Entering r), Next => Some (Ok (acquire g i r))
  | Some (Asleep r t), Spurious => Some (Ok (set_thread g i (Woken r t)))
  | Some (Woken r t), Next => Some (Ok (set_thread g i (compare_ticket (g_state g) r t)))
  | Some (Leased t true), Release => Some (let* g := release g in Ok (set_thread g i (Leased t false)))
  | Some (Leased t held), Drop => Some (let* g := (if held then release g else Ok g) in Ok (set_thread g i Idle))
  | Some (Transaction t), Next =>
      if bool_decide (g_writer g = None) && bool_decide (g_readers g = ∅) then Some (Ok (with_writer (set_thread g i (Writing t)) (Some i))) else None
  | Some (Transaction t), Drop => Some (let* g := release g in Ok (set_thread g i Idle))
  | Some (Writing t), Drop => Some (Ok (with_writer (set_thread g i (Closing t)) None))
  | Some (Closing t), Drop => Some (let* g := release g in Ok (set_thread g i Idle))
  | Some EnteringRead, Next => if bool_decide (g_writer g = None) then Some (Ok (with_readers (set_thread g i Reading) ({[ i ]} ∪ g_readers g))) else None
  | Some Reading, Drop => Some (Ok (with_readers (set_thread g i Idle) (g_readers g ∖ {[ i ]})))
  | _, _ => None
  end.

(** ** Histories *)

(** The ticket a thread has, and the lease it holds. *)
Definition ticket_of (p : Thread) : option Z :=
  match p with Asleep _ t | Woken _ t | Leased t true | Transaction t | Writing t | Closing t => Some t | _ => None end.
Definition lease_of (p : Thread) : option Z :=
  match p with Leased t true | Transaction t | Writing t | Closing t => Some t | _ => None end.

(** The threads that drew a ticket and those that got the lease, in order. *)
Record Log := mkLog { l_drawn : list nat; l_admitted : list nat }.

Definition of_thread {X} (f : Thread -> option X) (g : MutationGate) (i : nat) : option X := g_threads g !! i ≫= f.

Definition record_step (l : Log) (g g' : MutationGate) (i : nat) : Log :=
  {| l_drawn := match of_thread ticket_of g i, of_thread ticket_of g' i with None, Some _ => l_drawn l ++ [i] | _, _ => l_drawn l end;
     l_admitted := match of_thread lease_of g i, of_thread lease_of g' i with None, Some _ => l_admitted l ++ [i] | _, _ => l_admitted l end |}.

(** Any interleaving; a thread that is blocked does nothing. *)
Fixpoint run_gate (x : MutationGate * Log) (actions : list (nat * Action)) : outcome (MutationGate * Log) :=
  match actions with
  | [] => Ok x
  | (i, a) :: rest =>
      match act x.1 i a with
      | None => run_gate x rest
      | Some step => let* g := step in run_gate (g, record_step x.2 x.1 g i) rest
      end
  end.

(** ** The invariant *)

Abbreviation threads := (gmap nat Thread).

(** The tickets from [ws_serving] on belong to one thread each, in the order drawn; only the served
    one may have the lease, and its thread is not asleep. *)
Record queue_ok (s : WriterState) (m : threads) (l : Log) : Prop := {
  qo_range : (0 <= ws_serving s <= ws_next s)%Z /\ (ws_next s < U64)%Z;
  qo_drawn : ws_next s = Z.of_nat (length (l_drawn l));
  qo_ticket : forall i p t, m !! i = Some p -> ticket_of p = Some t -> (ws_serving s <= t < ws_next s)%Z /\ l_drawn l !! Z.to_nat t = Some i;
  qo_served : forall t, (ws_serving s <= t < ws_next s)%Z -> exists i p, m !! i = Some p /\ ticket_of p = Some t;
  qo_lease : forall i p t, m !! i = Some p -> lease_of p = Some t -> t = ws_serving s;
  qo_asleep : forall i r t, m !! i = Some (Asleep r t) -> t <> ws_serving s;
  qo_admitted : (exists i p, m !! i = Some p /\ is_Some (lease_of p)) /\ l_admitted l = take (S (Z.to_nat (ws_serving s))) (l_drawn l) \/
                (forall i p, m !! i = Some p -> lease_of p = None) /\ l_admitted l = take (Z.to_nat (ws_serving s)) (l_drawn l) }.

Record lock_ok (w : option nat) (rs : gset nat) (m : threads) : Prop := {
  lk_writer : forall i, w = Some i <-> exists t, m !! i = Some (Writing t);
  lk_readers : forall i, i ∈ rs <-> m !! i = Some Reading;
  lk_excluded : w = None \/ rs = ∅ }.

Definition gate_ok (g : MutationGate) (l : Log) : Prop := queue_ok (g_state g) (g_threads g) l /\ lock_ok (g_writer g) (g_readers g) (g_threads g).

Lemma lease_ticket p t : lease_of p = Some t -> ticket_of p = Some t.
Proof. destruct p as [| | | |? []| | | | | |]; cbn; congruence. Qed.

(** A step that keeps the ticket and the lease. *)
Lemma queue_same s m l i p p' :
  queue_ok s m l -> m !! i = Some p -> ticket_of p' = ticket_of p -> lease_of p' = lease_of p -> (forall r t, p' = Asleep r t -> t <> ws_serving s) ->
  queue_ok s (<[i := p']> m) l.
Proof.
  intros [H1 H2 H3 H4 H5 H6 H7] Hp Et El Ha. split; [done|done| | | | |].
  - intros j x t [[<- <-]|[_ Hj]]%lookup_insert_Some Hx; [rewrite Et in Hx|]; eauto.
  - intros t Ht. destruct (H4 t Ht) as (j & x & Hj & Hx). destruct (decide (i = j)) as [<-|Hne]; [exists i, p'; rewrite lookup_insert_eq; split; congruence|].
    exists j, x. by rewrite lookup_insert_ne.
  - intros j x t [[<- <-]|[_ Hj]]%lookup_insert_Some Hx; [rewrite El in Hx|]; eauto.
  - intros j r t [[<- ->]|[_ Hj]]%lookup_insert_Some; eauto.
  - destruct H7 as [[(j & x & Hj & Hx) E]|[Hn E]]; [left|right]; (split; [|done]).
    + destruct (decide (i = j)) as [<-|Hne]; [exists i, p'; rewrite lookup_insert_eq; split; [done|]; rewrite El; congruence|]. exists j, x. by rewrite lookup_insert_ne.
    + intros j x [[<- <-]|[_ Hj]]%lookup_insert_Some; [rewrite El|]; eauto.
Qed.

(** The thread whose ticket is served gets the lease. *)
Lemma queue_admit s m l i r t p' :
  queue_ok s m l -> m !! i = Some (Woken r t) -> t = ws_serving s -> ticket_of p' = Some t -> lease_of p' = Some t ->
  queue_ok s (<[i := p']> m) {| l_drawn := l_drawn l; l_admitted := l_admitted l ++ [i] |}.
Proof.
  intros [H1 H2 H3 H4 H5 H6 H7] Hp -> Et El. destruct (H3 i _ _ Hp eq_refl) as [Hr Hd].
  assert (Hno : forall j x, m !! j = Some x -> lease_of x = None).
  { intros j x Hj. destruct (lease_of x) as [t|] eqn:E; [|done]. pose proof (H5 j x t Hj E) as ->. destruct (H3 j x _ Hj (lease_ticket _ _ E)) as [_ Hd']. rewrite Hd in Hd'. injection Hd' as <-.
    rewrite Hp in Hj. by injection Hj as <-. }
  split; cbn [l_drawn l_admitted]; [done|done| | | | |].
  - intros j x t [[<- <-]|[_ Hj]]%lookup_insert_Some Hx; [rewrite Et in Hx; injection Hx as <-; done|eauto].
  - intros t Ht. destruct (H4 t Ht) as (j & x & Hj & Hx). destruct (decide (i = j)) as [<-|Hne]; [exists i, p'; rewrite lookup_insert_eq; split; [done|]; rewrite Hp in Hj; injection Hj as <-; cbn in Hx; congruence|].
    exists j, x. by rewrite lookup_insert_ne.
  - intros j x t [[<- <-]|[_ Hj]]%lookup_insert_Some Hx; [congruence|eauto].
  - intros j r' t [[<- ->]|[_ Hj]]%lookup_insert_Some; [done|eauto].
  - left. split; [exists i, p'; rewrite lookup_insert_eq; split; [done|]; by exists (ws_serving s)|]. destruct H7 as [[(j & x & Hj & [t Hx]) _]|[_ E]]; [by rewrite (Hno j x Hj) in Hx|].
    by rewrite E, (take_S_r _ _ _ Hd).
Qed.

(** A ticket is drawn by a thread that has none. *)
Lemma queue_draw s m l i p r :
  queue_ok s m l -> m !! i = Some p -> ticket_of p = None -> (ws_next s + 1 < U64)%Z ->
  queue_ok {| ws_next := ws_next s + 1; ws_serving := ws_serving s |} (<[i := Woken r (ws_next s)]> m) {| l_drawn := l_drawn l ++ [i]; l_admitted := l_admitted l |}.
Proof.
  intros [H1 H2 H3 H4 H5 H6 H7] Hp Et Hb. pose proof (fun t (Ht : (0 <= t < ws_next s)%Z) => lookup_app_l (l_drawn l) [i] (Z.to_nat t) ltac:(lia)) as Hlook.
  assert (Elp : lease_of p = None) by (destruct (lease_of p) as [t|] eqn:E; [|done]; apply lease_ticket in E; congruence).
  assert (Etake : forall n, n <= length (l_drawn l) -> take n (l_drawn l ++ [i]) = take n (l_drawn l)) by (intros n Hn; by rewrite take_app_le).
  split; cbn [ws_next ws_serving l_drawn l_admitted]; [lia|rewrite length_app; cbn; lia| | | | |].
  - intros j x t [[<- <-]|[_ Hj]]%lookup_insert_Some Hx.
    + cbn in Hx. injection Hx as <-. split; [lia|]. rewrite H2, Nat2Z.id, lookup_app_r, Nat.sub_diag by lia. done.
    + destruct (H3 j x t Hj Hx) as [Hr Hd]. split; [lia|]. rewrite Hlook by lia. done.
  - intros t Ht. destruct (decide (t = ws_next s)) as [->|Hne]; [exists i, (Woken r (ws_next s)); by rewrite lookup_insert_eq|].
    destruct (H4 t ltac:(lia)) as (j & x & Hj & Hx). exists j, x. rewrite lookup_insert_ne; [done|]. intros <-. congruence.
  - intros j x t [[<- <-]|[_ Hj]]%lookup_insert_Some Hx; [done|eauto].
  - intros j r' t [[<- ?]|[_ Hj]]%lookup_insert_Some; [done|eauto].
  - destruct H7 as [[(j & x & Hj & [t Hx]) E]|[Hn E]]; [left|right].
    + split; [exists j, x; rewrite lookup_insert_ne by (intros <-; congruence); split; [done|by exists t]|]. rewrite E, Etake; [done|].
      destruct (H3 j x t Hj (lease_ticket _ _ Hx)) as [Hr _]. lia.
    + split; [intros j x [[<- <-]|[_ Hj]]%lookup_insert_Some; [done|eauto]|]. rewrite E, Etake; [done|lia].
Qed.

Lemma wake_ticket p : ticket_of (wake p) = ticket_of p.
Proof. by destruct p. Qed.
Lemma wake_lease p : lease_of (wake p) = lease_of p.
Proof. by destruct p. Qed.

(** A lease is released: the next ticket is served, and nobody sleeps. *)
Lemma queue_release s m l i p p' t :
  queue_ok s m l -> m !! i = Some p -> lease_of p = Some t -> ticket_of p' = None ->
  (ws_serving s + 1 < U64)%Z /\ queue_ok {| ws_next := ws_next s; ws_serving := ws_serving s + 1 |} (<[i := p']> (wake <$> m)) l.
Proof.
  intros [H1 H2 H3 H4 H5 H6 H7] Hp El Et'. pose proof (H5 i p t Hp El) as ->. destruct (H3 i p _ Hp (lease_ticket _ _ El)) as [Hr Hd].
  assert (El' : lease_of p' = None) by (destruct (lease_of p') as [t|] eqn:E; [|done]; apply lease_ticket in E; congruence).
  assert (Hother : forall j x t, <[i := p']> (wake <$> m) !! j = Some x -> ticket_of x = Some t -> exists y, j <> i /\ m !! j = Some y /\ x = wake y /\ ticket_of y = Some t /\ t <> ws_serving s).
  { intros j x t [[<- <-]|[Hne Hj]]%lookup_insert_Some Hx; [congruence|]. rewrite lookup_fmap in Hj. destruct (m !! j) as [y|] eqn:Ey; [|done]. injection Hj as <-. rewrite wake_ticket in Hx.
    exists y. split_and!; try done. intros ->. destruct (H3 j y _ Ey Hx) as [_ Hd']. rewrite Hd in Hd'. by injection Hd'. }
  assert (Hno : forall j x, <[i := p']> (wake <$> m) !! j = Some x -> lease_of x = None).
  { intros j x Hj. destruct (lease_of x) as [t|] eqn:E; [|done]. destruct (Hother j x t Hj (lease_ticket _ _ E)) as (y & _ & Hy & -> & _ & Hn). rewrite wake_lease in E. by pose proof (H5 j y t Hy E). }
  split; [lia|]. split; cbn [ws_next ws_serving]; [lia|done| | | | |].
  - intros j x t Hj Hx. destruct (Hother j x t Hj Hx) as (y & _ & Hy & _ & Ht & Hn). destruct (H3 j y t Hy Ht) as [? ?]. split; [lia|done].
  - intros t Ht. destruct (H4 t ltac:(lia)) as (j & x & Hj & Hx). exists j, (wake x). rewrite wake_ticket. split; [|done]. rewrite lookup_insert_ne, lookup_fmap, Hj; [done|].
    intros <-. rewrite Hp in Hj. injection Hj as <-. apply lease_ticket in El. rewrite El in Hx. injection Hx as <-. lia.
  - intros j x t Hj Hx. by rewrite (Hno j x Hj) in Hx.
  - intros j r t Hj. destruct (Hother j _ t Hj eq_refl) as (y & _ & _ & Ey & _). by destruct y.
  - right. split; [done|]. destruct H7 as [[_ E]|[Hn _]]; [|by rewrite (Hn i p Hp) in El]. rewrite E. f_equal. lia.
Qed.

(** ** The lock *)

Definition plain (p : Thread) : Prop := p <> Reading /\ forall t, p <> Writing t.

Lemma lock_same w rs m i p p' : lock_ok w rs m -> m !! i = Some p -> plain p -> plain p' -> lock_ok w rs (<[i := p']> m).
Proof.
  intros [H1 H2 H3] Hp [Pr Pw] [Pr' Pw']. split; [| |done].
  - intros j. rewrite H1. split; intros [t Ht]; exists t; [rewrite lookup_insert_ne; [done|]; intros <-; rewrite Hp in Ht; injection Ht as ->; by apply (Pw t)|].
    apply lookup_insert_Some in Ht as [[<- ->]|[_ Ht]]; [by destruct (Pw' t)|done].
  - intros j. rewrite H2. split; intros Ht; [rewrite lookup_insert_ne; [done|]; intros <-; rewrite Hp in Ht; injection Ht as ->; done|].
    apply lookup_insert_Some in Ht as [[<- ->]|[_ Ht]]; done.
Qed.

Lemma lock_wake w rs m : lock_ok w rs m -> lock_ok w rs (wake <$> m).
Proof.
  intros [H1 H2 H3]. assert (E : forall j x, (forall r t, x <> Woken r t) -> (forall r t, x <> Asleep r t) -> (wake <$> m) !! j = Some x <-> m !! j = Some x).
  { intros j x Hx Hx'. rewrite lookup_fmap. destruct (m !! j) as [y|]; [|done]. cbn. destruct y; try done. split; intros [= <-]; [by destruct (Hx r ticket)|by destruct (Hx' r ticket)]. }
  split; [| |done]; intros j; [rewrite H1; by setoid_rewrite E|rewrite H2; by rewrite E].
Qed.

(** ** Every step keeps the invariant *)

Lemma record_same l g g' i :
  of_thread ticket_of g' i = of_thread ticket_of g i -> of_thread lease_of g' i = of_thread lease_of g i -> record_step l g g' i = l.
Proof. intros E1 E2. unfold record_step. rewrite E1, E2. destruct l. cbn. by destruct (of_thread ticket_of g i), (of_thread lease_of g i). Qed.

Lemma of_thread_at {X} (f : Thread -> option X) g i p : g_threads g !! i = Some p -> of_thread f g i = f p.
Proof. unfold of_thread. by intros ->. Qed.

(** A step that keeps the ticket and the lease, and the lock. *)
Lemma same_step g l i p p' :
  gate_ok g l -> g_threads g !! i = Some p -> ticket_of p' = ticket_of p -> lease_of p' = lease_of p -> (forall r t, p' = Asleep r t -> t <> ws_serving (g_state g)) -> plain p -> plain p' ->
  gate_ok (set_thread g i p') (record_step l g (set_thread g i p') i).
Proof.
  intros [Hq Hl] Hp Et El Ha P P'. rewrite record_same by (rewrite (of_thread_at _ g i p Hp), (of_thread_at _ (set_thread g i p') i p') by (apply lookup_insert_eq); done).
  split; [by eapply queue_same|by eapply lock_same].
Qed.

Lemma compare_step g l i r t :
  gate_ok g l -> g_threads g !! i = Some (Woken r t) -> let g' := set_thread g i (compare_ticket (g_state g) r t) in gate_ok g' (record_step l g g' i).
Proof.
  intros Hg Hp. unfold compare_ticket. destruct (Z.eqb_spec (ws_serving (g_state g)) t) as [E|E].
  - destruct Hg as [Hq Hl]. unfold record_step. rewrite !(of_thread_at _ g i _ Hp), !(of_thread_at _ (set_thread g i (leased r t)) i (leased r t)) by apply lookup_insert_eq. cbn [ticket_of lease_of].
    assert (lease_of (leased r t) = Some t) as -> by by destruct r. split; [|cbn; eapply lock_same; [done|exact Hp|by split|by destruct r]].
    apply (queue_admit _ _ _ _ r t); try done; by destruct r.
  - eapply same_step; [done|exact Hp|done|done| |by split|by split]. intros r' t' [= _ <-]. congruence.
Qed.

Lemma acquire_step g l i r : gate_ok g l -> g_threads g !! i = Some (Entering r) -> gate_ok (acquire g i r) (record_step l g (acquire g i r) i).
Proof.
  intros Hg Hp. unfold acquire, checked_add. destruct (Z.ltb_spec (ws_next (g_state g) + 1) U64) as [Hb|Hb]; [|eapply same_step; [done|exact Hp|done|done|done|by split|by split]].
  set (t := ws_next (g_state g)) in *. set (s := {| ws_next := t + 1; ws_serving := ws_serving (g_state g) |}). destruct Hg as [Hq Hl].
  set (g1 := {| g_state := s; g_writer := g_writer g; g_readers := g_readers g; g_threads := <[i := Woken r t]> (g_threads g) |}).
  set (l1 := {| l_drawn := l_drawn l ++ [i]; l_admitted := l_admitted l |}).
  assert (Hg1 : gate_ok g1 l1) by (split; [by eapply queue_draw|cbn; eapply lock_same; [done|exact Hp|by split|by split]]).
  pose proof (compare_step g1 l1 i r t Hg1 (lookup_insert_eq _ _ _)) as H. cbv zeta in H. unfold set_thread in H. cbn [g1 g_state g_writer g_readers g_threads] in H. rewrite insert_insert_eq in H.
  match goal with |- gate_ok ?g' _ => assert (E : record_step l g g' i = record_step l1 g1 g' i); [|by rewrite E] end.
  unfold record_step. rewrite !(of_thread_at _ g i _ Hp), !(of_thread_at _ g1 i _ (lookup_insert_eq _ _ _)). set (p' := compare_ticket s r t).
  assert (ticket_of p' = Some t) as Et by (unfold p', compare_ticket; by destruct (_ =? _)%Z, r). unfold of_thread. cbn [g_threads]. rewrite lookup_insert_eq. cbn [mbind option_bind]. rewrite Et. done.
Qed.

Lemma release_step g l i p p' t :
  gate_ok g l -> g_threads g !! i = Some p -> lease_of p = Some t -> ticket_of p' = None -> plain p -> plain p' ->
  exists g1, release g = Ok g1 /\ gate_ok (set_thread g1 i p') (record_step l g (set_thread g1 i p') i).
Proof.
  intros [Hq Hl] Hp El Et P P'. destruct (queue_release _ _ _ i p p' t Hq Hp El Et) as [Hb Hq']. unfold release, checked_add. rewrite (proj2 (Z.ltb_lt _ _) Hb). cbn [expect obind]. eexists. split; [done|].
  assert (El' : lease_of p' = None) by (destruct (lease_of p') as [u|] eqn:E; [|done]; apply lease_ticket in E; congruence).
  match goal with |- gate_ok ?g' _ => assert (E : record_step l g g' i = l) end.
  { unfold record_step. rewrite !(of_thread_at _ g i p Hp). unfold of_thread, set_thread. cbn [g_threads]. rewrite lookup_insert_eq. cbn [mbind option_bind].
    rewrite Et, El', El, (lease_ticket _ _ El). by destruct l. }
  rewrite E. split; [exact Hq'|]. cbn [set_thread g_writer g_readers g_threads].
  eapply lock_same; [by apply lock_wake|by rewrite lookup_fmap, Hp|by destruct p|done].
Qed.

(** The lock taken and given back. *)
Lemma lock_publish m i p t : lock_ok None ∅ m -> m !! i = Some p -> plain p -> lock_ok (Some i) ∅ (<[i := Writing t]> m).
Proof.
  intros [H1 H2 H3] Hp [Pr Pw]. split; [| |by right].
  - intros j. split; [intros [= <-]; exists t; apply lookup_insert_eq|]. intros [u [[-> _]|[_ Hu]]%lookup_insert_Some]; [done|]. assert (None = Some j) by (apply H1; by exists u). done.
  - intros j. rewrite H2. destruct (decide (i = j)) as [<-|Hne]; [|by rewrite lookup_insert_ne]. rewrite lookup_insert_eq, Hp. split; [|done]. by intros [= ->].
Qed.

Lemma lock_close w rs m i t p : lock_ok w rs m -> m !! i = Some (Writing t) -> plain p -> lock_ok None rs (<[i := p]> m).
Proof.
  intros [H1 H2 H3] Hp [Pr Pw]. split; [| |by left].
  - intros j. split; [done|]. intros [u [[-> E]|[Hne Hu]]%lookup_insert_Some]; [by destruct (Pw u)|]. exfalso.
    assert (w = Some i) by (apply H1; by exists t). assert (w = Some j) by (apply H1; by exists u). congruence.
  - intros j. rewrite H2. destruct (decide (i = j)) as [<-|Hne]; [|by rewrite lookup_insert_ne]. rewrite lookup_insert_eq, Hp. split; [done|]. by intros [= ->].
Qed.

Lemma lock_read rs m i p : lock_ok None rs m -> m !! i = Some p -> plain p -> lock_ok None ({[i]} ∪ rs) (<[i := Reading]> m).
Proof.
  intros [H1 H2 H3] Hp [Pr Pw]. split; [| |by left].
  - intros j. rewrite H1. split; intros [u Hu]; exists u; [rewrite lookup_insert_ne; [done|]; intros <-; rewrite Hp in Hu; injection Hu as ->; by destruct (Pw u)|]. by apply lookup_insert_Some in Hu as [[_ ?]|[_ ?]].
  - intros j. rewrite elem_of_union, elem_of_singleton, H2, lookup_insert_Some. split; [intros [->|Hj]; [by left|]|intros [[-> _]|[_ ?]]; auto].
    right. split; [|done]. intros <-. rewrite Hp in Hj. by injection Hj.
Qed.

Lemma lock_unread w rs m i p : lock_ok w rs m -> m !! i = Some Reading -> plain p -> lock_ok w (rs ∖ {[i]}) (<[i := p]> m).
Proof.
  intros [H1 H2 H3] Hp [Pr Pw]. split; [| |destruct H3 as [?|E]; [by left|right; set_solver]].
  - intros j. rewrite H1. split; intros [u Hu]; exists u; [rewrite lookup_insert_ne; [done|]; intros <-; congruence|]. apply lookup_insert_Some in Hu as [[_ E]|[_ ?]]; [by destruct (Pw u)|done].
  - intros j. rewrite elem_of_difference, elem_of_singleton, H2, lookup_insert_Some. split; [intros [? ?]; right; split; [congruence|done]|intros [[-> E]|[? ?]]; [done|split; congruence]].
Qed.

Lemma act_ok g l i a o : gate_ok g l -> act g i a = Some o -> exists g', o = Ok g' /\ gate_ok g' (record_step l g g' i).
Proof.
  intros Hg Ha. unfold act in Ha. destruct (g_threads g !! i) as [p|] eqn:Hp; [|done]. pose proof Hg as [Hq Hl].
  assert (Hrec : forall p' w rs, ticket_of p' = ticket_of p -> lease_of p' = lease_of p ->
     record_step l g {| g_state := g_state g; g_writer := w; g_readers := rs; g_threads := <[i := p']> (g_threads g) |} i = l).
  { intros p' w rs E1 E2. apply record_same; rewrite (of_thread_at _ g i p Hp); unfold of_thread; cbn [g_threads]; by rewrite lookup_insert_eq. }
  assert (Hqs : forall p', ticket_of p' = ticket_of p -> lease_of p' = lease_of p -> (forall r t, p' = Asleep r t -> False) -> queue_ok (g_state g) (<[i := p']> (g_threads g)) l).
  { intros p' E1 E2 E3. eapply queue_same; [done|exact Hp|done|done|]. intros r t E. by destruct (E3 r t). }
  destruct p as [|r|r t|r t|t held|t|t|t| | |], a as [r'| | | | |]; try done; try (destruct held; try done).
  all: try (injection Ha as <-).
  - eexists. split; [done|]. by eapply same_step; [done|exact Hp|..].
  - eexists. split; [done|]. by eapply same_step; [done|exact Hp|..].
  - eexists. split; [done|]. by apply acquire_step.
  - eexists. split; [done|]. by eapply same_step; [done|exact Hp|..].
  - eexists. split; [done|]. by apply compare_step.
  - destruct (release_step g l i _ (Leased t false) t Hg Hp) as (g1 & -> & H); try done. by eexists.
  - destruct (release_step g l i _ Idle t Hg Hp) as (g1 & -> & H); try done. by eexists.
  - eexists. split; [done|]. by eapply same_step; [done|exact Hp|..].
  - case_bool_decide as Ew; [|done]. case_bool_decide as Er; [|done]. injection Ha as <-. eexists. split; [done|]. unfold with_writer, set_thread. cbn [g_state g_writer g_readers g_threads].
    rewrite Hrec by done. split; cbn [g_state g_writer g_readers g_threads]; [by apply Hqs|]. rewrite Ew, Er in Hl. rewrite Er. by eapply lock_publish.
  - destruct (release_step g l i _ Idle t Hg Hp) as (g1 & -> & H); try done. by eexists.
  - eexists. split; [done|]. unfold with_writer, set_thread. cbn [g_state g_writer g_readers g_threads]. rewrite Hrec by done. split; cbn [g_state g_writer g_readers g_threads]; [by apply Hqs|].
    by eapply lock_close.
  - destruct (release_step g l i _ Idle t Hg Hp) as (g1 & -> & H); try done. by eexists.
  - case_bool_decide as Ew; [|done]. injection Ha as <-. eexists. split; [done|]. unfold with_readers, set_thread. cbn [g_state g_writer g_readers g_threads].
    rewrite Hrec by done. split; cbn [g_state g_writer g_readers g_threads]; [by apply Hqs|]. rewrite Ew in Hl |- *. by eapply lock_read.
  - eexists. split; [done|]. unfold with_readers, set_thread. cbn [g_state g_writer g_readers g_threads]. rewrite Hrec by done. split; cbn [g_state g_writer g_readers g_threads]; [by apply Hqs|].
    by eapply lock_unread.
Qed.

(** ** Any interleaving *)

Lemma default_ok ids : gate_ok (gate_default ids) (mkLog [] []).
Proof.
  assert (Hi : forall i p, g_threads (gate_default ids) !! i = Some p -> p = Idle).
  { intros i p Hp%elem_of_list_to_map_2. by apply list_elem_of_fmap in Hp as (j & [= _ ->] & _). }
  split; split; cbn [gate_default g_state g_writer g_readers ws_next ws_serving l_drawn l_admitted]; try done.
  - by intros i p t ->%Hi.
  - intros t Ht. lia.
  - by intros i p t ->%Hi.
  - by intros i r t ?%Hi.
  - right. split; [|done]. by intros i p ->%Hi.
  - intros i. split; [done|]. by intros [t ?%Hi].
  - intros i. split; [by intros ?%elem_of_empty|]. by intros ?%Hi.
  - by left.
Qed.

Lemma run_gate_ok x actions : gate_ok x.1 x.2 -> exists y, run_gate x actions = Ok y /\ gate_ok y.1 y.2.
Proof.
  revert x. induction actions as [|[i a] rest IH]; intros x Hx; [by exists x|]. cbn [run_gate]. destruct (act x.1 i a) as [o|] eqn:Ea; [|by apply IH].
  destruct (act_ok _ _ _ _ _ Hx Ea) as (g' & -> & Hg'). cbn [obind]. by apply IH.
Qed.

(** C19: writers are served one at a time and in order.  Whatever the threads do and however their
    steps interleave, no counter overflows into a panic of a writer that was admitted; threads get
    the lease in the order in which they drew their tickets; at most one thread has it; a thread
    that publishes excludes every reader and every other writer; and no wake-up is lost: while a
    thread sleeps, the thread whose ticket is served is awake. *)
Theorem gate_admits_in_order ids actions :
  exists g l, run_gate (gate_default ids, mkLog [] []) actions = Ok (g, l) /\
    l_admitted l `prefix_of` l_drawn l /\
    (forall i j p q, g_threads g !! i = Some p -> g_threads g !! j = Some q -> is_Some (lease_of p) -> is_Some (lease_of q) -> i = j) /\
    (forall i t j q, g_threads g !! i = Some (Writing t) -> g_threads g !! j = Some q -> q <> Reading /\ forall u, q = Writing u -> j = i) /\
    (forall i r t, g_threads g !! i = Some (Asleep r t) ->
       exists j q, g_threads g !! j = Some q /\ ticket_of q = Some (ws_serving (g_state g)) /\ wake q = q).
Proof.
  destruct (run_gate_ok (gate_default ids, mkLog [] []) actions (default_ok ids)) as ([g l] & E & [Hq Hl]). cbn [fst snd] in *. exists g, l. split_and!; [done| | | |].
  - destruct (qo_admitted _ _ _ Hq) as [[_ ->]|[_ ->]]; apply prefix_take.
  - intros i j p q Hp Hj [t Ht] [u Hu]. pose proof (qo_lease _ _ _ Hq _ _ _ Hp Ht) as ->. pose proof (qo_lease _ _ _ Hq _ _ _ Hj Hu) as ->.
    destruct (qo_ticket _ _ _ Hq _ _ _ Hp (lease_ticket _ _ Ht)) as [_ D1]. destruct (qo_ticket _ _ _ Hq _ _ _ Hj (lease_ticket _ _ Hu)) as [_ D2]. congruence.
  - intros i t j q Hi Hj. assert (W : g_writer g = Some i) by (apply (lk_writer _ _ _ Hl); by exists t). destruct (lk_excluded _ _ _ Hl) as [?|Er]; [congruence|]. split.
    + intros ->. apply (lk_readers _ _ _ Hl) in Hj. rewrite Er in Hj. by apply elem_of_empty in Hj.
    + intros u ->. assert (g_writer g = Some j) by (apply (lk_writer _ _ _ Hl); by exists u). congruence.
  - intros i r t Hi. destruct (qo_ticket _ _ _ Hq _ _ _ Hi eq_refl) as [Hr _]. destruct (qo_served _ _ _ Hq (ws_serving (g_state g)) ltac:(lia)) as (j & q & Hj & Hx). exists j, q. split; [done|]. split; [done|].
    destruct q; try done. injection Hx as ->. by destruct (qo_asleep _ _ _ Hq _ _ _ Hj).
Qed.

(** ** Progress *)

(** The steps left to a thread, when [n] threads may have to be woken by each release. *)
Definition weight (n : nat) (p : Thread) : nat :=
  match p with
  | Idle | Panicked => 0
  | Reading | Leased _ false => 1
  | EnteringRead => 2
  | Closing _ => n + 1
  | Writing _ => n + 2
  | Transaction _ | Leased _ true => n + 3
  | Asleep _ _ => n + 4
  | Woken _ _ => n + 5
  | Entering _ => n + 6
  end.

Definition work_left (n : nat) (m : threads) : nat := map_fold (fun _ p k => weight n p + k) 0 m.

Lemma work_insert n (m : threads) i p p' : m !! i = Some p -> work_left n (<[i := p']> m) + weight n p = work_left n m + weight n p'.
Proof.
  intros Hp. unfold work_left. rewrite <- insert_delete_eq. rewrite map_fold_insert_L by (intros; lia || apply lookup_delete_eq).
  rewrite (map_fold_delete_L (fun _ p k => weight n p + k) 0 i p m) by (intros; lia || done). lia.
Qed.

Lemma work_wake n (m : threads) : work_left n (wake <$> m) <= work_left n m + size m.
Proof.
  unfold work_left. induction m as [|i p m Hi IH] using map_ind; [by rewrite fmap_empty|]. rewrite fmap_insert, !map_fold_insert_L, map_size_insert_None by (try done; try lia; by rewrite lookup_fmap, Hi).
  assert (weight n (wake p) <= weight n p + 1) by (destruct p; cbn; lia). lia.
Qed.

Lemma work_bound n (m : threads) : work_left n m <= size m * (n + 6).
Proof.
  unfold work_left. induction m as [|i p m Hi IH] using map_ind; [by rewrite map_fold_empty|]. rewrite map_fold_insert_L, map_size_insert_None by (done || lia).
  assert (weight n p <= n + 6) by (destruct p as [| | | |? []| | | | | |]; cbn; lia). lia.
Qed.

(** The steps of threads that go on, as opposed to new calls and awakenings without cause. *)
Definition is_work (a : Action) : bool := match a with Next | Release | Drop => true | _ => false end.

Lemma release_threads g g1 : release g = Ok g1 -> g_threads g1 = wake <$> g_threads g.
Proof. unfold release. destruct (checked_add _ _ _); [|done]. by intros [= <-]. Qed.

Lemma work_step g i a g' n :
  act g i a = Some (Ok g') -> is_work a = true -> size (g_threads g) <= n ->
  size (g_threads g') = size (g_threads g) /\ work_left n (g_threads g') < work_left n (g_threads g).
Proof.
  intros Ha Hw Hn. unfold act in Ha. destruct (g_threads g !! i) as [p|] eqn:Hp; [|done].
  assert (Hset : forall p', weight n p' < weight n p -> size (<[i := p']> (g_threads g)) = size (g_threads g) /\ work_left n (<[i := p']> (g_threads g)) < work_left n (g_threads g)).
  { intros p' Hlt. split; [by apply map_size_insert_Some|]. pose proof (work_insert n _ i p p' Hp). lia. }
  assert (Hrel : forall g1 p', release g = Ok g1 -> plain p -> lease_of p <> None -> weight n p' + n < weight n p -> size (<[i := p']> (g_threads g1)) = size (g_threads g) /\ work_left n (<[i := p']> (g_threads g1)) < work_left n (g_threads g)).
  { intros g1 p' Hr _ Hl Hlt. rewrite (release_threads _ _ Hr). assert (Hp1 : (wake <$> g_threads g) !! i = Some p) by (rewrite lookup_fmap, Hp; by destruct p as [| | | |? []| | | | | |]).
    split; [rewrite map_size_insert_Some by done; apply map_size_fmap|]. pose proof (work_insert n _ i p p' Hp1). pose proof (work_wake n (g_threads g)). lia. }
  destruct p as [|r|r t|r t|t held|t|t|t| | |], a as [r'| | | | |]; try done; try (destruct held; try done).
  - injection Ha as <-. unfold acquire. destruct (checked_add _ _ _); apply Hset; [|cbn; lia]. unfold compare_ticket. destruct (_ =? _)%Z, r; cbn; lia.
  - injection Ha as <-. apply Hset. unfold compare_ticket. destruct (_ =? _)%Z, r; cbn; lia.
  - destruct (release g) as [g1| |] eqn:Hr; [|done|done]. injection Ha as <-. apply (Hrel g1); try done. cbn. lia.
  - destruct (release g) as [g1| |] eqn:Hr; [|done|done]. injection Ha as <-. apply (Hrel g1); try done. cbn. lia.
  - injection Ha as <-. apply Hset. cbn. lia.
  - case_bool_decide; [|done]. case_bool_decide; [|done]. injection Ha as <-. apply Hset. cbn. lia.
  - destruct (release g) as [g1| |] eqn:Hr; [|done|done]. injection Ha as <-. apply (Hrel g1); try done. cbn. lia.
  - injection Ha as <-. apply Hset. cbn. lia.
  - destruct (release g) as [g1| |] eqn:Hr; [|done|done]. injection Ha as <-. apply (Hrel g1); try done. cbn. lia.
  - case_bool_decide; [|done]. injection Ha as <-. apply Hset. cbn. lia.
  - injection Ha as <-. apply Hset. cbn. lia.
Qed.

(** A schedule of work, every step of which is taken. *)
Fixpoint work_run (x : MutationGate * Log) (actions : list (nat * Action)) : option (MutationGate * Log) :=
  match actions with
  | [] => Some x
  | (i, a) :: rest =>
      if is_work a then match act x.1 i a with Some (Ok g) => work_run (g, record_step x.2 x.1 g i) rest | _ => None end else None
  end.

(** No thread can go on; a transaction waits to publish. *)
Definition stuck (g : MutationGate) : Prop :=
  forall i, act g i Next = None /\ ((exists t, g_threads g !! i = Some (Transaction t)) \/ act g i Drop = None).

Lemma record_prefix l g g' i : l_drawn l `prefix_of` l_drawn (record_step l g g' i).
Proof. unfold record_step. cbn. destruct (of_thread ticket_of g i), (of_thread ticket_of g' i); try done. by apply prefix_app_r. Qed.

Lemma work_run_ok n x y actions :
  gate_ok x.1 x.2 -> work_run x actions = Some y -> size (g_threads x.1) <= n ->
  gate_ok y.1 y.2 /\ length actions + work_left n (g_threads y.1) <= work_left n (g_threads x.1) /\ l_drawn x.2 `prefix_of` l_drawn y.2.
Proof.
  revert x. induction actions as [|[i a] rest IH]; intros x Hx; cbn [work_run]; [intros [= <-] _; split; [done|]; split; [cbn; lia|done]|].
  intros H Hn. destruct (is_work a) eqn:Ew; [|done]. destruct (act x.1 i a) as [[g'| |]|] eqn:Ea; [|done|done|done]. destruct (act_ok _ _ _ _ _ Hx Ea) as (g1 & [= <-] & Hg').
  destruct (work_step x.1 i a g' n Ea Ew Hn) as [Hs Hlt]. destruct (IH (g', record_step x.2 x.1 g' i) Hg' H ltac:(cbn; lia)) as (H1 & H2 & H3). cbn [fst snd length] in *. split_and!; [done|lia|].
  etrans; [apply record_prefix|exact H3].
Qed.

Lemma stuck_idle g l : gate_ok g l -> stuck g -> (forall i p, g_threads g !! i = Some p -> p = Idle \/ p = Panicked) /\ l_admitted l = l_drawn l.
Proof.
  intros [Hq Hl] Hs.
  assert (Hgo : forall i p, g_threads g !! i = Some p -> match p with Idle | Panicked | Asleep _ _ | Transaction _ | EnteringRead => True | _ => False end).
  { intros i p Hp. destruct (Hs i) as [Hn Hd]. unfold act in Hn, Hd. rewrite Hp in Hn, Hd. destruct p as [| | | |? []| | | | | |]; try done; destruct Hd as [[? ?]|?]; done. }
  assert (Hw : g_writer g = None) by (destruct (g_writer g) as [i|]; [|done]; destruct (proj1 (lk_writer _ _ _ Hl i) eq_refl) as [t Ht]; by apply Hgo in Ht).
  assert (Hr : g_readers g = ∅) by (apply set_eq; intros i; split; [|by intros ?%elem_of_empty]; intros Hi; apply (lk_readers _ _ _ Hl) in Hi; by apply Hgo in Hi).
  assert (Hidle : forall i p, g_threads g !! i = Some p -> match p with Idle | Panicked | Asleep _ _ => True | _ => False end).
  { intros i p Hp. pose proof (Hgo i p Hp) as H. destruct (Hs i) as [Hn _]. unfold act in Hn. rewrite Hp in Hn. destruct p; try done; rewrite Hw in Hn; [rewrite Hr in Hn|]; by rewrite ?bool_decide_eq_true_2 in Hn. }
  assert (Hend : ws_serving (g_state g) = ws_next (g_state g)).
  { destruct (qo_range _ _ _ Hq) as [Hrg _]. destruct (decide (ws_serving (g_state g) = ws_next (g_state g))) as [E|E]; [done|]. destruct (qo_served _ _ _ Hq (ws_serving (g_state g)) ltac:(lia)) as (i & p & Hp & Ht).
    pose proof (Hidle i p Hp) as H. destruct p; try done. injection Ht as ->. by destruct (qo_asleep _ _ _ Hq _ _ _ Hp). }
  split.
  - intros i p Hp. pose proof (Hidle i p Hp) as H. destruct p; auto; try done. destruct (qo_ticket _ _ _ Hq _ _ _ Hp eq_refl) as [? _]. lia.
  - destruct (qo_admitted _ _ _ Hq) as [[(i & p & Hp & [t Ht]) _]|[_ ->]]; [pose proof (Hidle i p Hp) as H; by destruct p|]. rewrite Hend, (qo_drawn _ _ _ Hq), Nat2Z.id. by apply take_ge.
Qed.

(** C20: every writer that waits is admitted.  From any state the threads can reach, a schedule of
    their steps without new calls has at most [n * (n + 6)] steps for [n] threads, and when no thread
    can go on, even if transactions are never abandoned, no thread waits: all have finished and
    everyone who drew a ticket was admitted.  There is no deadlock between the queue, the condition
    variable and the lock. *)
Theorem gate_admits_everyone ids actions g l schedule g' l' :
  run_gate (gate_default ids, mkLog [] []) actions = Ok (g, l) -> work_run (g, l) schedule = Some (g', l') ->
  let n := size (g_threads g) in
  length schedule <= n * (n + 6) /\
  (stuck g' -> (forall i p, g_threads g' !! i = Some p -> p = Idle \/ p = Panicked) /\ l_admitted l' = l_drawn l' /\ l_drawn l `prefix_of` l_drawn l').
Proof.
  intros Hrun Hwork n. destruct (run_gate_ok (gate_default ids, mkLog [] []) actions (default_ok ids)) as (y & E & Hy). rewrite Hrun in E. injection E as <-.
  destruct (work_run_ok n (g, l) (g', l') schedule Hy Hwork ltac:(cbn; lia)) as (Hg' & Hlen & Hpre). cbn [fst snd] in *. pose proof (work_bound n (g_threads g)). split; [lia|].
  intros Hs. destruct (stuck_idle g' l' Hg' Hs) as [? ?]. split_and!; done.
Qed.

(** ** Three threads *)

(** A maintenance task, a mutation behind it, and a reader. *)
Definition toy_actions : list (nat * Action) :=
  [(0, Call Maintenance); (0, Next); (2, CallRead); (1, Call Mutation); (1, Next); (1, Spurious); (1, Next); (2, Next)].
Definition toy_schedule : list (nat * Action) := [(0, Drop); (1, Next); (2, Drop); (1, Next); (1, Drop); (1, Drop)].

Lemma idle_stuck g : map_Forall (fun _ p => p = Idle) (g_threads g) -> stuck g.
Proof.
  intros H i. unfold act. destruct (g_threads g !! i) as [p|] eqn:E; [|by split; [|right]]. rewrite (H i p E). by split; [|right].
Qed.

Lemma gate_admits_everyone_witness :
  exists g l g' l', run_gate (gate_default [0; 1; 2], mkLog [] []) toy_actions = Ok (g, l) /\ (exists t, g_threads g !! 1 = Some (Asleep Mutation t)) /\
    work_run (g, l) toy_schedule = Some (g', l') /\ length toy_schedule <= 27 /\ l_admitted l' = [0; 1] /\ l_admitted l' = l_drawn l'.
Proof.
  destruct (run_gate (gate_default [0; 1; 2], mkLog [] []) toy_actions) as [[g l]| |] eqn:E; [|vm_compute in E; discriminate|vm_compute in E; discriminate].
  destruct (work_run (g, l) toy_schedule) as [[g' l']|] eqn:Ew; [|exfalso; vm_compute in E; injection E as <- <-; vm_compute in Ew; discriminate].
  pose proof (gate_admits_everyone [0; 1; 2] toy_actions g l toy_schedule g' l' E Ew) as H. cbv zeta in H. destruct H as [Hlen Hs].
  assert (Hn : size (g_threads g) = 3) by (vm_compute in E; injection E as <- <-; vm_compute; reflexivity). rewrite Hn in Hlen.
  assert (Hi : stuck g') by (apply idle_stuck; vm_compute in E; injection E as <- <-; vm_compute in Ew; injection Ew as <- <-; by_decide).
  assert (Ha : l_admitted l' = [0; 1]) by (vm_compute in E; injection E as <- <-; vm_compute in Ew; injection Ew as <- <-; reflexivity).
  destruct (Hs Hi) as (_ & Had & _). exists g, l, g', l'. split; [reflexivity|]. split; [vm_compute in E; injection E as <- <-; eexists; vm_compute; reflexivity|]. split; [exact Ew|]. split; [exact Hlen|]. split; [exact Ha|exact Had].
Defined.
