(* ===== verification/TopK.v ===== *)
(** * The best hits

    [TopK] of [src/core/documents/lexical/execution.rs], which the pruned executions collect their
    hits with, and [top_ranked] of [src/core/documents.rs]: at most twice the hits asked for are
    kept, and what cannot rank is not kept at all.  The hits returned are the first of a full
    sort of everything considered. *)

From S2P Require Import Prelude Words Search Bm25 Lexical LexicalExact.
From Stdlib Require Import Floats.SpecFloat.

(** ** The collector *)

Section TopK.
(** [slot_order] of the store. *)
Context (slot_order : Z -> list Z * nat).

Record TopK := mkTop { tk_values : list (f64 * Z); tk_k : nat; tk_floor : f64 }.

Definition top_new (k : nat) : TopK := {| tk_values := []; tk_k := k; tk_floor := f_zero |}.

(** The hit of a score and a slot. *)
Definition slot_hit (x : f64 * Z) : LexicalHit := {| lh_document_id := (slot_order x.2).1; lh_chunk_index := (slot_order x.2).2; lh_score := x.1 |}.

(** The order of [trim]: by score, then by document and chunk. *)
Definition slot_le (a b : f64 * Z) : Prop := hit_le (slot_hit a) (slot_hit b).
#[local] Instance slot_le_dec : RelDecision slot_le := fun a b => hit_le_dec _ _.

(** [top_ranked]: the first [limit] of the sorted values. *)
Definition top_ranked (values : list (f64 * Z)) (limit : nat) : list (f64 * Z) :=
  if limit <? length values then take limit (merge_sort slot_le values) else merge_sort slot_le values.

Definition trim (t : TopK) : TopK :=
  let values := top_ranked (tk_values t) (tk_k t) in
  {| tk_values := values; tk_k := tk_k t;
     tk_floor := if length values =? tk_k t then match last values with Some x => x.1 | None => tk_floor t end else tk_floor t |}.

Definition consider (t : TopK) (score : f64) (slot : Z) : TopK :=
  if (tk_k t =? 0) || SFltb score (tk_floor t) then t
  else
    let t := {| tk_values := tk_values t ++ [(score, slot)]; tk_k := tk_k t; tk_floor := tk_floor t |} in
    if length (tk_values t) =? tk_k t * 2 then trim t else t.

Definition finish (t : TopK) : list LexicalHit := if tk_k t =? 0 then [] else map slot_hit (tk_values (trim t)).

Definition consider_all (t : TopK) (xs : list (f64 * Z)) : TopK := foldl (fun t x => consider t x.1 x.2) t xs.
End TopK.

(** ** The first of a sort *)

Lemma order_hits_eq a b : order_hits a b = Eq -> a = b.
Proof.
  unfold order_hits. intros H. destruct a as [d i s], b as [d' i' s']. cbn in H. destruct (f_total_cmp s' s) eqn:E1; [|done|done]. cbn in H. destruct (bcmp d d') eqn:E2; [|done|done]. cbn in H.
  apply f_total_cmp_eq in E1 as ->. apply bcmp_eq in E2 as ->. by apply Nat.compare_eq in H as ->.
Qed.

#[global] Instance hit_le_trans : Transitive hit_le.
Proof. intros a b c. apply order_hits_ok. Qed.
#[global] Instance hit_le_total : Total hit_le.
Proof. intros a b. unfold hit_le. rewrite (cmp_opp _ order_hits_ok a b). destruct (order_hits a b); [left|left|right]; done. Qed.
#[global] Instance hit_le_antisymm : AntiSymm (=) hit_le.
Proof. intros a b H1 H2. apply order_hits_eq. unfold hit_le in H1, H2. rewrite (cmp_opp _ order_hits_ok a b) in H2. by destruct (order_hits a b). Qed.

(** The first [k] hits of a list. *)
Definition best (k : nat) (l : list LexicalHit) : list LexicalHit := take k (merge_sort hit_le l).

Lemma sorted_hits_unique l l' : StronglySorted hit_le l -> StronglySorted hit_le l' -> l ≡ₚ l' -> l = l'.
Proof. intros H1 H2. by apply (Sorted_unique hit_le); apply StronglySorted_Sorted. Qed.

Lemma best_perm k l l' : l ≡ₚ l' -> best k l = best k l'.
Proof. intros H. unfold best. f_equal. apply sorted_hits_unique; [apply ranked..|]. by rewrite !merge_sort_Permutation. Qed.

(** The hits of a list that are not after [d]. *)
Definition ahead (d : LexicalHit) (l : list LexicalHit) : nat := length (filter (fun x => hit_le x d) l).

Lemma ahead_perm d l l' : l ≡ₚ l' -> ahead d l = ahead d l'.
Proof. intros H. unfold ahead. by rewrite H. Qed.

Lemma ahead_app d l l' : ahead d (l ++ l') = ahead d l + ahead d l'.
Proof. unfold ahead. by rewrite filter_app, length_app. Qed.

Lemma ahead_all d l : Forall (fun x => hit_le x d) l -> ahead d l = length l.
Proof. unfold ahead. induction 1 as [|x l Hx _ IH]; [done|]. rewrite filter_cons, decide_True by done. cbn. by rewrite IH. Qed.

Lemma ahead_none d l : Forall (fun x => ~ hit_le x d) l -> ahead d l = 0.
Proof. unfold ahead. induction 1 as [|x l Hx _ IH]; [done|]. by rewrite filter_cons, decide_False. Qed.

Lemma ahead_length d l : ahead d l <= length l.
Proof. apply length_filter. Qed.

(** If [k] hits are not after [d], the first [k] are not. *)
Lemma ahead_first k d l : StronglySorted hit_le l -> k <= ahead d l -> Forall (fun x => hit_le x d) (take k l).
Proof.
  intros Hs. revert k. induction Hs as [|x l Hs IH Hx]; intros [|k] Hk; [constructor..|]. cbn [take firstn]. destruct (decide (hit_le x d)) as [H|H].
  - constructor; [done|]. apply IH. unfold ahead in *. rewrite filter_cons, decide_True in Hk by done. cbn in Hk. lia.
  - exfalso. rewrite (ahead_none d (x :: l)) in Hk; [lia|]. constructor; [done|]. eapply Forall_impl; [exact Hx|]. intros y Hy Hyd. apply H. by trans y.
Qed.

(** A hit with [k] hits not after it changes nothing. *)
Lemma best_skip k d l : k <= ahead d l -> best k (d :: l) = best k l.
Proof.
  intros Hk. unfold best. set (S := merge_sort hit_le l). assert (HS : StronglySorted hit_le S) by apply ranked. assert (Hp : S ≡ₚ l) by apply merge_sort_Permutation.
  assert (Hf : Forall (fun x => hit_le x d) (take k S)) by (apply ahead_first; [done|]; by rewrite (ahead_perm d S l)).
  assert (Hl : length (take k S) = k) by (rewrite length_take, Hp; pose proof (ahead_length d l); lia).
  assert (E : merge_sort hit_le (d :: l) = take k S ++ merge_sort hit_le (d :: drop k S)).
  { apply sorted_hits_unique; [apply ranked| |by rewrite !merge_sort_Permutation, <- Permutation_middle, take_drop, Hp]. rewrite <- (take_drop k S) in HS. apply StronglySorted_app in HS as (H1 & H2 & H3).
    apply StronglySorted_app. split_and!; [|done|apply ranked]. intros x y Hx Hy. rewrite merge_sort_Permutation in Hy. rewrite Forall_forall in Hf. apply elem_of_cons in Hy as [->|Hy]; [by apply Hf|by apply H1]. }
  rewrite E, take_app_le by lia. rewrite <- Hl at 1. apply take_ge. lia.
Qed.

Lemma best_skips k D l : Forall (fun d => k <= ahead d l) D -> best k (D ++ l) = best k l.
Proof.
  induction 1 as [|d D Hd _ IH]; [done|]. cbn [app]. rewrite best_skip; [done|]. rewrite ahead_app. lia.
Qed.

(** Keeping the best hits of a part is enough. *)
Lemma best_best k l l' : best k (best k l ++ l') = best k (l ++ l').
Proof.
  unfold best at 2. set (S := merge_sort hit_le l). assert (HS : StronglySorted hit_le S) by apply ranked. assert (Hp : S ≡ₚ l) by apply merge_sort_Permutation.
  rewrite <- (best_skips k (drop k S) (take k S ++ l')).
  - apply best_perm. by rewrite <- Hp, (app_assoc (drop k S)), (Permutation_app_comm (drop k S)), take_drop.
  - apply Forall_forall. intros d Hd. rewrite ahead_app. rewrite <- (take_drop k S) in HS. apply StronglySorted_app in HS as (H1 & _ & _).
    rewrite (ahead_all d (take k S)); [|apply Forall_forall; intros x Hx; by apply H1]. rewrite length_take. assert (k < length S) by (apply list_elem_of_lookup in Hd as [i Hi]; rewrite lookup_drop in Hi; apply lookup_lt_Some in Hi; lia). lia.
Qed.

(** ** What the collector keeps *)

(** Less than, as the order of scores has it. *)
Lemma less_total x y : SFltb x y = true -> f_total_cmp x y = Lt.
Proof.
  unfold SFltb, f_total_cmp. destruct x as [[]|[]| |[] m e], y as [[]|[]| |[] m' e']; try done; cbn [SFcompare f_key then_with Z.compare].
  - rewrite Z.compare_opp, (Z.compare_antisym e e'). change (PosDef.Pos.compare_cont Eq m m') with (m ?= m')%positive. by destruct (e ?= e')%Z, (m ?= m')%positive.
  - change (PosDef.Pos.compare_cont Eq m m') with (m ?= m')%positive. by destruct (e ?= e')%Z, (m ?= m')%positive.
Qed.

Section Exact.
Context (slot_order : Z -> list Z * nat).
Abbreviation hit := (slot_hit slot_order).

(** Sorting commutes with naming. *)
Lemma merge_sort_hits l : map hit (merge_sort (slot_le slot_order) l) = merge_sort hit_le (map hit l).
Proof.
  apply sorted_hits_unique; [|apply ranked|rewrite (merge_sort_Permutation hit_le (map hit l)); apply Permutation_map, merge_sort_Permutation].
  assert (S : StronglySorted (slot_le slot_order) (merge_sort (slot_le slot_order) l)).
  { apply StronglySorted_merge_sort; [intros a b c; apply hit_le_trans|intros a b; apply hit_le_total]. }
  induction S as [|x s S IH Hx]; constructor; [done|]. apply Forall_map. exact Hx.
Qed.

Lemma top_ranked_hits values k : map hit (top_ranked slot_order values k) = best k (map hit values).
Proof.
  unfold top_ranked, best. rewrite <- merge_sort_hits. destruct (Nat.ltb_spec k (length values)); [by rewrite firstn_map|]. rewrite take_ge; [done|]. rewrite length_map, merge_sort_Permutation. lia.
Qed.

(** The collector after everything in [seen]: its values rank like [seen], and what is below the
    floor has [k] hits before it. *)
Record top_ok (t : TopK) (seen : list (f64 * Z)) : Prop := {
  to_best : forall l, best (tk_k t) (map hit (tk_values t) ++ l) = best (tk_k t) (map hit seen ++ l);
  to_floor : tk_floor t = f_zero \/ forall x, SFltb x.1 (tk_floor t) = true -> tk_k t <= ahead (hit x) (map hit (tk_values t)) }.

Lemma trim_ok t seen : tk_k t <> 0 -> top_ok t seen -> top_ok (trim slot_order t) seen.
Proof.
  intros Hk [H1 H2]. assert (Hbest : forall l, best (tk_k t) (map hit (top_ranked slot_order (tk_values t) (tk_k t)) ++ l) = best (tk_k t) (map hit seen ++ l)) by (intros l; by rewrite top_ranked_hits, best_best).
  split; [exact Hbest|]. unfold trim. cbn [tk_k tk_values tk_floor]. set (vs := top_ranked slot_order (tk_values t) (tk_k t)).
  assert (Hsorted : StronglySorted hit_le (map hit vs)).
  { unfold vs. rewrite top_ranked_hits. unfold best. pose proof (ranked (map hit (tk_values t))) as R. rewrite <- (take_drop (tk_k t) (merge_sort hit_le _)) in R. by apply StronglySorted_app in R as (_ & ? & _). }
  destruct (Nat.eqb_spec (length vs) (tk_k t)) as [El|El].
  - right. intros x Hx. destruct (last vs) as [y|] eqn:Ey; [|apply last_None in Ey as ->; by cbn in El]. apply last_Some in Ey as [vs' E]. rewrite E, map_app in Hsorted |- *. apply StronglySorted_app in Hsorted as (Hle & _ & _).
    assert (Hyx : hit_le (hit y) (hit x)) by (unfold hit_le, order_hits; cbn [slot_hit lh_score]; by rewrite (less_total _ _ Hx)). rewrite ahead_all; [rewrite <- El, E, !length_app, !length_map; done|].
    apply Forall_app. split; [|by repeat constructor]. apply Forall_forall. intros z Hz. trans (hit y); [|done]. apply Hle; [done|left].
  - destruct H2 as [?|H2]; [by left|]. right. intros x Hx. specialize (H2 x Hx). exfalso. apply El. unfold vs. rewrite <- (length_map hit), top_ranked_hits. unfold best. rewrite length_take, merge_sort_Permutation.
    pose proof (ahead_length (hit x) (map hit (tk_values t))). lia.
Qed.

Lemma consider_ok t seen x : tk_k t <> 0 -> SFltb x.1 f_zero = false -> top_ok t seen -> top_ok (consider slot_order t x.1 x.2) (seen ++ [x]).
Proof.
  intros Hk Hx H. pose proof H as [H1 H2]. unfold consider. rewrite (proj2 (Nat.eqb_neq (tk_k t) 0) Hk). cbn [orb]. destruct (SFltb x.1 (tk_floor t)) eqn:Ef.
  - destruct H2 as [E|H2]; [congruence|]. split; [|by right]. intros l. rewrite map_app, <- app_assoc. cbn [map app]. rewrite <- H1. symmetry.
    rewrite (best_perm _ _ (hit x :: map hit (tk_values t) ++ l)) by (symmetry; apply Permutation_middle). apply best_skip. rewrite ahead_app. specialize (H2 x Ef). lia.
  - assert (Hadd : top_ok {| tk_values := tk_values t ++ [(x.1, x.2)]; tk_k := tk_k t; tk_floor := tk_floor t |} (seen ++ [x])).
    { split; cbn [tk_values tk_k tk_floor].
      - intros l. rewrite !map_app, <- !app_assoc. rewrite H1. by destruct x.
      - destruct H2 as [?|H2]; [by left|]. right. intros y Hy. rewrite map_app, ahead_app. specialize (H2 y Hy). lia. }
    cbn [tk_values tk_k]. destruct (_ =? _); [by apply trim_ok|done].
Qed.

Lemma consider_k t s n : tk_k (consider slot_order t s n) = tk_k t.
Proof. unfold consider. destruct (_ || _); [done|]. cbn [tk_values tk_k]. by destruct (_ =? _). Qed.

(** The collector never holds more than twice the hits asked for. *)
Lemma consider_length t s n : length (tk_values t) < 2 * tk_k t \/ tk_k t = 0 -> let t' := consider slot_order t s n in length (tk_values t') < 2 * tk_k t' \/ tk_k t' = 0.
Proof.
  intros H t'. unfold t', consider. destruct (Nat.eqb_spec (tk_k t) 0) as [E|E]; [by right|]. cbn [orb]. destruct (SFltb _ _); [done|]. cbn [tk_values tk_k]. rewrite length_app. cbn [length].
  destruct (Nat.eqb_spec (length (tk_values t) + 1) (tk_k t * 2)) as [El|El]; [|left; cbn; rewrite length_app; cbn; lia]. left. cbn [trim tk_values tk_k].
  rewrite <- (length_map hit), top_ranked_hits. unfold best. rewrite length_take. lia.
Qed.

(** C17: the collector returns the best.  Whatever scores, none of them negative, are considered in
    whatever order, the hits returned are the first [k] of all of them sorted by score, document
    and chunk, and at no time are more than twice [k] kept. *)
Theorem top_k_exact k xs :
  Forall (fun x => SFltb x.1 f_zero = false) xs ->
  let t := consider_all slot_order (top_new k) xs in
  finish slot_order t = take k (merge_sort hit_le (map hit xs)) /\ length (tk_values t) <= 2 * k.
Proof.
  intros Hxs t. assert (G : forall xs t seen, Forall (fun x => SFltb x.1 f_zero = false) xs -> top_ok t seen -> tk_k t = k -> length (tk_values t) < 2 * tk_k t \/ tk_k t = 0 -> k <> 0 ->
    let t' := consider_all slot_order t xs in top_ok t' (seen ++ xs) /\ tk_k t' = k /\ length (tk_values t') < 2 * k).
  { clear. induction xs as [|x xs IH]; intros t seen Hf Ht Et Hl Hk; [rewrite app_nil_r; split_and!; [done|done|destruct Hl; cbn; lia]|]. apply Forall_cons in Hf as [Hx Hf]. cbn [consider_all foldl].
    rewrite cons_middle, app_assoc. apply IH; [done|by apply consider_ok; [congruence|..]|by rewrite consider_k|by apply consider_length|done]. }
  destruct (decide (k = 0)) as [->|Hk].
  - assert (Et : t = top_new 0) by (unfold t; clear; induction xs as [|x xs IH]; [done|exact IH]). rewrite Et. by split; [|cbn; lia].
  - destruct (G xs (top_new k) [] Hxs) as (Ht & Et & Hl); [by split; [|left]|done|left; cbn; lia|done|]. fold t in Ht, Et, Hl. split; [|lia]. unfold finish. rewrite Et, (proj2 (Nat.eqb_neq k 0) Hk).
    cbn [trim tk_values]. rewrite top_ranked_hits, Et. pose proof (to_best _ _ Ht []) as H. rewrite !app_nil_r, Et in H. exact H.
Qed.
End Exact.

(** ** Five scores, two asked for *)

Definition toy_scores : list (f64 * Z) := map (fun x => (f_of_Z x.1, x.2)) [(3, 0); (1, 1); (5, 2); (3, 3); (2, 4)]%Z.

Lemma top_k_exact_witness :
  Forall (fun x => SFltb x.1 f_zero = false) toy_scores /\
  map lh_document_id (finish (fun n => ([n], 0)) (consider_all (fun n => ([n], 0)) (top_new 2) toy_scores)) = [[2]; [0]]%Z.
Proof.
  assert (H : Forall (fun x => SFltb x.1 f_zero = false) toy_scores) by by_decide. split; [exact H|].
  destruct (top_k_exact (fun n => ([n], 0)) 2 toy_scores H) as [E _]. rewrite E. vm_compute. reflexivity.
Defined.
