(* ===== verification/CountUnion.v ===== *)
(** * Counting a disjunction

    [count_union] and [count_terms] of [src/core/documents/lexical/execution.rs]: the number of
    documents a disjunction of words matches, from bits per slot instead of a scan of the
    documents.  It is the count of the exhaustive execution. *)

From S2P Require Import Prelude Words BitPack Search Positions Terms FrameDict TextSegment Binary Share TermDict Postings Cursor PostingEdit PostingRuns CheckpointLists Lists Indexing Bulk IndexRuns Filters SlotTable Store Overlay Capacity StoreSpec StoreEdits StoreRuns StoreHistory Chars Interner Analysis Bm25 Lexical LexicalExact LexicalHistory.

(** ** Bits *)

(** [u64::count_ones]. *)
Definition count_ones (w : Z) : nat := length (filter (fun i => Z.testbit w (Z.of_nat i) = true) (seq 0 64)).

(** [while bits != 0 { .. bits.trailing_zeros() .. bits &= bits - 1 }]. *)
Fixpoint bit_loop (fuel : nat) (bits : Z) : outcome (list nat) :=
  if (bits =? 0)%Z then Ok []
  else match fuel with
       | O => Panic
       | S fuel => let* rest := bit_loop fuel (Z.land bits (bits - 1)) in Ok (trailing_zeros 64 bits :: rest)
       end.

(** ** Slots of a list *)

Fixpoint mark_all (matched : list Z) (slots : list Z) : outcome (list Z) :=
  match slots with [] => Ok matched | s :: slots => let* matched := set_bit matched (Z.to_nat s) in mark_all matched slots end.

(** [PostingList::mark_slots]. *)
Definition mark_slots (l : PostingList) (matched : list Z) : outcome (list Z) :=
  if negb (pl_positive_count l =? pl_count l)%Z
  then let* ps := pl_for_each l in mark_all matched (map fst (filter (fun p => 0 < p.2)%Z ps))
  else let* blocks := omap_list (block_slots l) (pl_blocks l) in mark_all matched (concat blocks).

(** ** Counting *)

Section Count.
Context {V : Type} `{!EqDecision (StoredDocument V)} {D B : Type} {dict : TermIndex D}.
Abbreviation Doc := (StoredDocument V).
Abbreviation Store := (DocumentStore V D B).

Definition borrowed_chunk (s : Store) (slot : nat) : outcome (Doc * nat) :=
  let* o := expect (st_owners (ds_table s) !! slot) in expect o.

(** A document counts once: each further matching chunk of one is taken back.  [seen] has the
    documents of several chunks met so far. *)
Fixpoint take_back (s : Store) (slots : list nat) (seen : list Doc) (count : Z) : outcome Z :=
  match slots with
  | [] => Ok count
  | slot :: slots =>
      let* (d, _) := borrowed_chunk s slot in
      if 1 <? length (doc_chunks d) then
        if bool_decide (d ∈ seen) then let* count := expect (checked_sub count 1) in take_back s slots seen count
        else take_back s slots (d :: seen) count
      else take_back s slots seen count
  end.

(** The slots of the bits set, in order. *)
Definition marked_slots (matched : list Z) : outcome (list nat) :=
  let* words := omap_list (bit_loop 64) matched in Ok (concat (imap (fun index bits => map (fun b => index * 64 + b) bits) words)).

Fixpoint mark_words (ps : PostingLists D) (words : list (list Z)) (matched : list Z) : outcome (list Z) :=
  match words with
  | [] => Ok matched
  | word :: words =>
      let* l := pls_get ps word in
      let* matched := match l with Some l => mark_slots l matched | None => Ok matched end in
      mark_words ps words matched
  end.

Definition positive_len (ps : PostingLists D) (words : list (list Z)) : outcome Z :=
  match head words with
  | None => Ok 0%Z
  | Some word => let* l := pls_get ps word in Ok (match l with Some l => pl_positive_count l | None => 0%Z end)
  end.

Definition count_terms (s : Store) (plain stems : list (list Z)) : outcome Z :=
  if (length plain <=? 1) && (length stems <=? 1) && (st_chunks (ds_table s) =? Z.of_nat (size (ds_documents s)))%Z then
    let* a := positive_len (form (ds_postings s) false) plain in
    let* b := positive_len (form (ds_postings s) true) stems in
    Ok (a + b)%Z
  else
    let* matched := mark_words (form (ds_postings s) false) plain (replicate (div_ceil (Z.to_nat (st_slot_count (ds_table s))) 64) 0%Z) in
    let* matched := mark_words (form (ds_postings s) true) stems matched in
    let count := Z.of_nat (foldr (fun w n => count_ones w + n) 0 matched) in
    if bool_decide (ds_multichunk s = ∅) then Ok count
    else let* slots := marked_slots matched in take_back s slots [] count.

(** The words of the clauses, as a sorted set. *)
Definition first_words (q : LexicalQuery) (stemmed : bool) : outcome (list (list Z)) :=
  let* words := omap_list (fun cl => expect (head (cl_words cl stemmed))) q in
  Ok (map fst (merge_sort key_le (map_to_list (list_to_map (map (fun w => (w, 0%Z)) words) : gmap (list Z) Z)))).

Definition count_union (s : Store) (q : LexicalQuery) : outcome Z :=
  let* plain := first_words q false in
  let* stems := first_words q true in
  count_terms s plain stems.
End Count.

(** ** The bits of a word *)

Lemma low_bits_zero w t : (0 <= t)%Z -> (forall i, (0 <= i < t)%Z -> Z.testbit w i = false) -> (w mod 2 ^ t = 0)%Z.
Proof.
  intros Ht H. apply Z.bits_inj'. intros i Hi. rewrite Z.bits_0. destruct (Z.ltb_spec i t); [rewrite Z.mod_pow2_bits_low by done; by apply H|by rewrite Z.mod_pow2_bits_high by lia].
Qed.

(** [bits & (bits - 1)] clears the lowest bit. *)
Lemma clear_lowest w t i :
  (0 <= t)%Z -> Z.testbit w t = true -> (forall i, (0 <= i < t)%Z -> Z.testbit w i = false) -> (0 <= i)%Z ->
  Z.testbit (Z.land w (w - 1)) i = (t <? i)%Z && Z.testbit w i.
Proof.
  intros Ht Hb Hl Hi. rewrite Z.land_spec. pose proof (low_bits_zero w t Ht Hl) as Hm. pose proof (Z.pow_pos_nonneg 2 t ltac:(lia) Ht) as Hp.
  set (a := (w / 2 ^ t)%Z). assert (Ew : w = (a * 2 ^ t)%Z) by (unfold a; pose proof (Z.div_mod w (2 ^ t)); lia).
  assert (Ha : Z.odd a = true) by (rewrite <- Z.bit0_odd; unfold a; rewrite Z.div_pow2_bits by lia; by rewrite Z.add_0_l). rewrite Z.odd_spec in Ha. destruct Ha as [q Hq].
  destruct (Z.ltb_spec t i) as [Hti|Hti]; cbn [andb].
  - assert (E : ((w - 1) / 2 ^ (t + 1) = w / 2 ^ (t + 1))%Z).
    { rewrite Z.pow_add_r by lia. change (2 ^ 1)%Z with 2%Z. rewrite Ew, Hq. replace ((2 * q + 1) * 2 ^ t - 1)%Z with (q * (2 ^ t * 2) + (2 ^ t - 1))%Z by ring. replace ((2 * q + 1) * 2 ^ t)%Z with (q * (2 ^ t * 2) + 2 ^ t)%Z by ring.
      rewrite !Z.div_add_l by lia. rewrite !Z.div_small by lia. done. }
    replace i with (i - (t + 1) + (t + 1))%Z by lia. rewrite <- !Z.div_pow2_bits by lia. rewrite E. apply andb_diag.
  - destruct (Z.eqb_spec i t) as [->|Hne]; [|rewrite Hl by lia; done]. rewrite Hb. cbn [andb].
    rewrite Ew, Hq. replace ((2 * q + 1) * 2 ^ t - 1)%Z with (2 ^ t - 1 + 2 * q * 2 ^ t)%Z by ring. rewrite <- (Z.add_0_l t) at 3. rewrite <- Z.div_pow2_bits by lia. rewrite Z.div_add, Z.div_small by lia.
    rewrite Z.add_0_l. by rewrite Z.testbit_even_0.
Qed.

Lemma trailing_zeros_at n z : (0 <= z)%Z -> (exists i, i < n /\ Z.testbit z (Z.of_nat i) = true) -> trailing_zeros n z < n /\ Z.testbit z (Z.of_nat (trailing_zeros n z)) = true.
Proof.
  revert z. induction n as [|n IH]; intros z Hz (i & Hi & Hb); [lia|]. cbn [trailing_zeros]. destruct (Z.odd z) eqn:E; [split; [lia|by rewrite Z.bit0_odd]|].
  destruct i as [|i]; [by rewrite Z.bit0_odd, E in Hb|]. rewrite Nat2Z.inj_succ, <- Z.div2_bits, <- Z.div2_div in Hb by lia. destruct (IH (Z.div2 z)) as [H1 H2]; [by apply Z.div2_nonneg|exists i; split; [lia|done]|].
  split; [lia|]. rewrite Nat2Z.inj_succ, <- Z.div2_bits, <- Z.div2_div by lia. done.
Qed.

Abbreviation set_bits w := (filter (fun i => Z.testbit w (Z.of_nat i) = true)).

(** A word below 2^64 has no bit from 64 on. *)
Lemma word_high_bits z : (0 <= z)%Z -> (z < U64)%Z <-> forall i, (64 <= i)%Z -> Z.testbit z i = false.
Proof.
  intros Hz. change U64 with (2 ^ 64)%Z. split.
  - intros H i Hi. destruct (decide (z = 0)%Z) as [->|]; [apply Z.bits_0|]. apply Z.bits_above_log2; [lia|]. pose proof (proj1 (Z.log2_lt_pow2 z 64 ltac:(lia))). lia.
  - intros H. assert (E : (z mod 2 ^ 64)%Z = z); [|rewrite <- E; apply Z.mod_pos_bound; lia]. apply Z.bits_inj'. intros i Hi.
    destruct (Z.ltb_spec i 64); [by rewrite Z.mod_pow2_bits_low|]. by rewrite Z.mod_pow2_bits_high, H by lia.
Qed.

Lemma zero_bits w : (0 <= w < U64)%Z -> (forall i, i < 64 -> Z.testbit w (Z.of_nat i) = false) -> w = 0%Z.
Proof.
  intros Hw H. apply Z.bits_inj'. intros i Hi. rewrite Z.bits_0. destruct (Z.ltb_spec i 64); [specialize (H (Z.to_nat i) ltac:(lia)); by rewrite Z2Nat.id in H|]. apply (proj1 (word_high_bits w ltac:(lia)) ltac:(lia)). lia.
Qed.

Lemma bit_loop_ok fuel w j :
  (0 <= w < U64)%Z -> (forall i, i < j -> Z.testbit w (Z.of_nat i) = false) -> j <= 64 -> 64 - j <= fuel -> bit_loop fuel w = Ok (set_bits w (seq j (64 - j))).
Proof.
  assert (Hnil : forall w a n, (forall i, a <= i < a + n -> Z.testbit w (Z.of_nat i) = false) -> set_bits w (seq a n) = []).
  { clear. intros w a n. revert a. induction n as [|n IH]; intros a H; [done|]. cbn [seq]. rewrite filter_cons, decide_False by (rewrite H by lia; done). apply IH. intros i Hi. apply H. lia. }
  revert w j. induction fuel as [|fuel IH]; intros w j Hw Hl Hj Hf; cbn [bit_loop]; destruct (Z.eqb_spec w 0) as [->|Hne].
  - rewrite Hnil; [done|]. intros; apply Z.bits_0.
  - exfalso. apply Hne, zero_bits; [done|]. intros i Hi. apply Hl. lia.
  - rewrite Hnil; [done|]. intros; apply Z.bits_0.
  - assert (Hex : exists i, i < 64 /\ Z.testbit w (Z.of_nat i) = true).
    { destruct (decide (Exists (fun i => Z.testbit w (Z.of_nat i) = true) (seq 0 64))) as [H|H]; [apply Exists_exists in H as (i & Hi%elem_of_seq & Hb); exists i; split; [lia|done]|]. exfalso. apply Hne, zero_bits; [done|].
      intros i Hi. apply not_true_is_false. intros Hb. apply H, Exists_exists. exists i. split; [apply elem_of_seq; lia|done]. }
    destruct (trailing_zeros_at 64 w ltac:(lia) Hex) as [Ht Hb]. pose proof (trailing_zeros_bits 64 w) as Hz. set (t := trailing_zeros 64 w) in *.
    assert (Hjt : j <= t) by (destruct (decide (j <= t)); [done|]; rewrite (Hl t) in Hb by lia; done).
    assert (Hc : forall i, Z.testbit (Z.land w (w - 1)) (Z.of_nat i) = (t <? i) && Z.testbit w (Z.of_nat i)).
    { intros i. rewrite (clear_lowest w (Z.of_nat t)); [|lia|done| |lia].
      - f_equal. apply eq_bool_prop_intro. rewrite !Is_true_true, Z.ltb_lt, Nat.ltb_lt. lia.
      - intros k Hk. specialize (Hz (Z.to_nat k) ltac:(lia)). by rewrite Z2Nat.id in Hz by lia. }
    assert (Hw' : (0 <= Z.land w (w - 1) < U64)%Z).
    { assert (0 <= Z.land w (w - 1))%Z by (apply Z.land_nonneg; lia). split; [done|]. apply word_high_bits; [done|]. intros i Hi. rewrite Z.land_spec. by rewrite (proj1 (word_high_bits w ltac:(lia)) ltac:(lia) i Hi). }
    rewrite (IH _ (S t)) by (try done; try lia; intros i Hi; rewrite Hc, (proj2 (Nat.ltb_ge t i)) by lia; done). cbn [obind]. f_equal.
    replace (64 - j) with ((t - j) + S (64 - S t)) by lia. rewrite seq_app, filter_app, (Hnil w j (t - j)) by (intros i Hi; apply Hz; lia). cbn [app]. replace (j + (t - j)) with t by lia. cbn [seq]. rewrite filter_cons, decide_True by done. f_equal.
    apply list_filter_ext. intros i Hi%elem_of_seq. rewrite Hc, (proj2 (Nat.ltb_lt t i)) by lia. done.
Qed.

(** ** Sets of slots *)

(** The words of a bitset of [64 * n] slots, whose members satisfy [p]. *)
Definition bitset_ok (matched : list Z) (n : nat) (p : nat -> bool) : Prop := bits_ok matched (64 * n) p /\ Forall (fun w => (0 <= w < U64)%Z) matched.

Lemma div_ceil_64 n : div_ceil (64 * n) 64 = n.
Proof. unfold div_ceil. replace (64 * n + 64 - 1) with (63 + n * 64) by lia. rewrite Nat.div_add by lia. done. Qed.

Lemma bitset_ext matched n p q : (forall j, j < 64 * n -> p j = q j) -> bitset_ok matched n p -> bitset_ok matched n q.
Proof. intros H [H1 H2]. split; [by eapply bits_ext|done]. Qed.

Lemma bitset_new n : bitset_ok (replicate n 0%Z) n (fun _ => false).
Proof. split; [rewrite <- (div_ceil_64 n) at 1; apply bits_new|]. apply Forall_replicate. done. Qed.

Lemma set_bit_word matched i matched' : Forall (fun w => (0 <= w < U64)%Z) matched -> set_bit matched i = Ok matched' -> Forall (fun w => (0 <= w < U64)%Z) matched'.
Proof.
  intros H. unfold set_bit. destruct (matched !! (i / 64)) as [w|] eqn:E; [|done]. intros [= <-]. apply Forall_insert; [done|]. pose proof (Forall_lookup_1 _ _ _ _ H E) as Hw. cbn in Hw.
  assert (H0 : (0 <= Z.lor w (Z.shiftl 1 (Z.of_nat (i mod 64))))%Z) by (apply Z.lor_nonneg; split; [lia|apply Z.shiftl_nonneg; lia]). split; [done|]. apply word_high_bits; [done|]. intros k Hk.
  rewrite Z.lor_spec, (proj1 (word_high_bits w ltac:(lia)) ltac:(lia) k Hk), Z.shiftl_1_l, Z.pow2_bits_eqb by lia. apply Z.eqb_neq. pose proof (Nat.mod_upper_bound i 64). lia.
Qed.

Lemma mark_all_ok matched n p slots :
  bitset_ok matched n p -> Forall (fun s => 0 <= s < 64 * Z.of_nat n)%Z slots ->
  exists matched', mark_all matched slots = Ok matched' /\ bitset_ok matched' n (fun j => p j || bool_decide (Z.of_nat j ∈ slots)).
Proof.
  intros Hm Hs. revert matched p Hm. induction Hs as [|s slots Hs _ IH]; intros matched p Hm; cbn [mark_all].
  - exists matched. split; [done|]. eapply bitset_ext; [|exact Hm]. intros j _. rewrite bool_decide_eq_false_2 by apply not_elem_of_nil. by rewrite orb_false_r.
  - destruct Hm as [Hb Hw]. destruct (set_bit_ok matched (64 * n) p (Z.to_nat s) Hb ltac:(lia)) as (m1 & E & Hb1). rewrite E. cbn [obind]. destruct (IH m1 _ (conj Hb1 (set_bit_word _ _ _ Hw E))) as (m2 & -> & H2).
    exists m2. split; [done|]. eapply bitset_ext; [|exact H2]. intros j _. cbn beta. rewrite <- orb_assoc, orb_comm, <- orb_assoc. f_equal. apply eq_bool_prop_intro.
    rewrite !Is_true_true, orb_true_iff, Nat.eqb_eq, !bool_decide_eq_true, elem_of_cons. split; [intros [?|Ej]; [by right|left; lia]|intros [Ej|?]; [right; lia|by left]].
Qed.

(** The bits set, in order. *)
Lemma marked_from matched k (p : nat -> bool) :
  (forall i w, matched !! i = Some w -> forall b, b < 64 -> Z.testbit w (Z.of_nat b) = p ((k + i) * 64 + b)) ->
  concat (imap (fun i bits => map (fun b => (k + i) * 64 + b) bits) (map (fun w => set_bits w (seq 0 64)) matched)) = filter (fun j => p j = true) (seq (k * 64) (64 * length matched)).
Proof.
  revert k. induction matched as [|w matched IH]; intros k H; [by rewrite Nat.mul_0_r|]. cbn [map imap length concat].
  replace (64 * S (length matched)) with (64 + 64 * length matched) by lia. rewrite seq_app, filter_app. f_equal.
  - rewrite Nat.add_0_r. specialize (H 0 w eq_refl). rewrite Nat.add_0_r in H.
    assert (E : seq (k * 64) 64 = map (fun b => k * 64 + b) (seq 0 64)) by (change (seq (k * 64) 64 = Nat.add (k * 64) <$> seq 0 64); by rewrite fmap_add_seq, Nat.add_0_r). rewrite E. clear E IH.
    assert (F : Forall (fun b => b < 64) (seq 0 64)) by (apply Forall_forall; intros b Hb%elem_of_seq; lia). induction F as [|b l Hb _ IHl]; [done|]. cbn [map]. rewrite !filter_cons, (H b Hb).
    destruct (p (k * 64 + b)); [rewrite !decide_True by done; cbn [map]; by f_equal|]. by rewrite !decide_False by done.
  - replace (k * 64 + 64) with (S k * 64) by lia. rewrite <- IH; [|intros i v Hv b Hb; rewrite (H (S i) v Hv b Hb); f_equal; lia]. f_equal. apply imap_ext. intros i bits _. cbn [compose]. apply map_ext. intros b. lia.
Qed.

Lemma marked_slots_ok matched n p :
  bitset_ok matched n p -> let slots := filter (fun j => p j = true) (seq 0 (64 * n)) in marked_slots matched = Ok slots /\ foldr (fun w k => count_ones w + k) 0 matched = length slots.
Proof.
  intros [[Hl Hb] Hw] slots. rewrite div_ceil_64 in Hl.
  assert (Hbits : forall i w, matched !! i = Some w -> forall b, b < 64 -> Z.testbit w (Z.of_nat b) = p ((0 + i) * 64 + b)).
  { intros i w Hi b Hlt. cbn [Nat.add]. pose proof (lookup_lt_Some _ _ _ Hi). specialize (Hb (i * 64 + b) ltac:(lia)). unfold bit in Hb.
    replace ((i * 64 + b) / 64) with i in Hb by (rewrite Nat.div_add_l by lia; rewrite Nat.div_small by lia; lia). replace ((i * 64 + b) mod 64) with b in Hb by (rewrite Nat.add_comm, Nat.Div0.mod_add, Nat.mod_small by lia; done).
    rewrite Hi in Hb. cbn [expect obind] in Hb. rewrite land_bit in Hb by lia. by injection Hb. }
  pose proof (marked_from matched 0 p Hbits) as E. rewrite Hl in E. change (0 * 64) with 0 in E. fold slots in E. split.
  - unfold marked_slots. rewrite (omap_list_ok _ (fun w => set_bits w (seq 0 64))); [cbn [obind]; by rewrite <- E|]. intros w Hin. rewrite Forall_forall in Hw. rewrite (bit_loop_ok 64 w 0); [done|by apply Hw|lia..].
  - rewrite <- E. clear. generalize 0 at 2 as k. induction matched as [|w matched IH]; intros k; [done|]. cbn [foldr map imap concat]. rewrite length_app, length_map, (IH (S k)). unfold count_ones. f_equal. f_equal. f_equal.
    apply imap_ext. intros i bits _. cbn [compose]. apply map_ext. intros b. lia.
Qed.

(** ** The slots of a term *)

Lemma represents_list {D} {dict : TermIndex D} words (s : PostingLists D) M t :
  represents words s M ->
  exists l, pls_get s t = Ok l /\ match l with Some l => exists es, models (words t) l es /\ at_term M t = to_map es | None => at_term M t = ∅ end.
Proof.
  intros (m & Hd & Hc). unfold pls_get. rewrite (ti_get_ok _ _ _ Hd). cbn [obind]. destruct (m !! t) as [id|] eqn:Hid.
  - destruct (lo_live _ _ _ _ _ Hc t id Hid) as (_ & l & es & Hl & Hm & _ & HM). rewrite Hl. cbn [expect obind]. exists (Some l). split; [done|]. exists es. split; [done|]. by apply at_term_Some.
  - exists None. split; [done|]. unfold at_term. by rewrite (proj1 (core_None _ _ _ _ _ t Hc) Hid).
Qed.

Lemma mark_slots_ok words l es matched n p :
  models words l es -> bitset_ok matched n p -> Forall (fun e => 0 <= slot_of e < 64 * Z.of_nat n)%Z es ->
  exists matched', mark_slots l matched = Ok matched' /\ bitset_ok matched' n (fun j => p j || bool_decide (Z.of_nat j ∈ map slot_of (filter (fun e => 0 < e.1.2)%Z es))).
Proof.
  intros Hm Hb Hr. unfold mark_slots. destruct (Z.eqb_spec (pl_positive_count l) (pl_count l)) as [E|E]; cbn [negb].
  - destruct Hm as (gs & H & Hes). pose proof (lr_blocks _ _ (po_repr _ _ _ H)) as Hbl. rewrite (block_slots_ok l gs Hbl). cbn [obind].
    assert (Hall : filter (fun e : Posting * Z => 0 < e.1.2)%Z es = es).
    { rewrite (po_positive _ _ _ H), (po_count _ _ _ H), Hes in E. unfold positive in E. apply Nat2Z.inj in E. clear -E.
      assert (Ef : length (filter (fun p : Posting => 0 < p.2)%Z (map fst es)) = length (filter (fun e : Posting * Z => 0 < e.1.2)%Z es)) by (clear; induction es as [|e es IH]; [done|]; cbn [map]; rewrite !filter_cons; case_decide; cbn [length]; lia).
      rewrite Ef in E. clear Ef. induction es as [|e es IH]; [done|]. rewrite filter_cons in *. pose proof (length_filter (fun e : Posting * Z => 0 < e.1.2)%Z es). case_decide; cbn [length] in E; [f_equal; apply IH; lia|lia]. }
    assert (Ec : concat (map (fun g : group => map fst g.1) gs) = map slot_of es).
    { rewrite <- Hes. unfold flat. clear -Hbl. pose proof (br_groups _ _ Hbl) as Hg. clear Hbl. induction Hg as [|g gs Hg _ IH]; [done|]. cbn [map concat]. rewrite map_app, IH. by rewrite (slot_of_entries g Hg). }
    rewrite Ec. destruct (mark_all_ok matched n p (map slot_of es) Hb) as (m' & -> & H'); [by apply Forall_map|]. exists m'. split; [done|]. by rewrite Hall.
  - rewrite (models_for_each _ _ _ Hm). cbn [obind].
    assert (Ef : map fst (filter (fun p : Posting => 0 < p.2)%Z (map fst es)) = map slot_of (filter (fun e : Posting * Z => 0 < e.1.2)%Z es)).
    { clear. induction es as [|e es IH]; [done|]. cbn [map]. rewrite !filter_cons. case_decide; [|done]. cbn [map]. by f_equal. }
    rewrite Ef. apply mark_all_ok; [done|]. apply Forall_map. rewrite Forall_forall in *. intros e [_ He]%list_elem_of_filter. by apply Hr.
Qed.

(** ** A document counts once *)

Section TakeBack.
Context {V : Type} `{!EqDecision (StoredDocument V)} {D B : Type} {dict : TermIndex D}.
Abbreviation Doc := (StoredDocument V).
Abbreviation Store := (DocumentStore V D B).
Context (s : Store) (M : gmap (list Z) Doc).

(** The ids of some documents. *)
Definition id_set (ds : list Doc) : gset (list Z) := list_to_set (map doc_id ds).

Lemma take_back_ok (slots : list nat) (ds seen : list Doc) (X : gset (list Z)) (count : Z) :
  Forall2 (fun slot d => exists i, st_owners (ds_table s) !! slot = Some (Some (d, i))) slots ds ->
  Forall (fun d => M !! doc_id d = Some d) (ds ++ seen) ->
  (forall d, M !! doc_id d = Some d -> 1 < length (doc_chunks d) -> (d ∈ seen <-> doc_id d ∈ X)) ->
  (forall j d, ds !! j = Some d -> length (doc_chunks d) <= 1 -> (doc_id d ∉ X) /\ forall j', ds !! j' = Some d -> j' = j) ->
  (Z.of_nat (length ds) <= count)%Z ->
  take_back s slots seen count = Ok (count - Z.of_nat (length ds) + Z.of_nat (size (id_set ds ∪ X) - size X))%Z.
Proof using.
  intros Hf. revert seen X count. induction Hf as [|slot d slots ds [i Ho] _ IH]; intros seen X count HM Hseen Hone Hc; cbn [take_back].
  { change (id_set []) with (∅ : gset (list Z)). rewrite (left_id_L ∅ (∪)), Nat.sub_diag. cbn [length]. f_equal. lia. }
  unfold borrowed_chunk. rewrite Ho. cbn [expect obind]. cbn [app] in HM. apply Forall_cons in HM as [Hd HM]. cbn [length] in Hc.
  assert (Hone' : forall Y : gset (list Z), (forall x, x ∈ Y <-> x ∈ X \/ x = doc_id d) -> forall j e, ds !! j = Some e -> length (doc_chunks e) <= 1 -> (doc_id e ∉ Y) /\ forall j', ds !! j' = Some e -> j' = j).
  { intros Y HY j e He Hle. destruct (Hone (S j) e He Hle) as [H1 H2]. split.
    - rewrite HY. intros [?|E]; [done|]. assert (e = d) as -> by (rewrite Forall_forall in HM; assert (M !! doc_id e = Some e) by (apply HM, elem_of_app; left; by eapply list_elem_of_lookup_2); congruence). by specialize (H2 0 eq_refl).
    - intros j' Hj'. specialize (H2 (S j') Hj'). lia. }
  change (id_set (d :: ds)) with ({[ doc_id d ]} ∪ id_set ds).
  assert (Hnew : doc_id d ∉ X -> size ({[ doc_id d ]} ∪ id_set ds ∪ X) - size X = S (size (id_set ds ∪ ({[ doc_id d ]} ∪ X)) - size ({[ doc_id d ]} ∪ X))).
  { intros Hn. rewrite (size_union {[ doc_id d ]} X), size_singleton by set_solver. replace ({[doc_id d]} ∪ id_set ds ∪ X) with (id_set ds ∪ ({[doc_id d]} ∪ X)) by set_solver.
    assert (size ({[doc_id d]} ∪ X) <= size (id_set ds ∪ ({[doc_id d]} ∪ X))) as Hs by (apply subseteq_size; set_solver). rewrite (size_union {[ doc_id d ]} X), size_singleton in Hs by set_solver. lia. }
  destruct (Nat.ltb_spec 1 (length (doc_chunks d))) as [Hmulti|Hsingle].
  - case_bool_decide as Es.
    + assert (HX : doc_id d ∈ X) by by apply Hseen. unfold checked_sub. rewrite (proj2 (Z.leb_le _ _)) by lia. cbn [expect obind]. rewrite (IH seen X (count - 1)%Z HM Hseen); [|apply Hone'; set_solver|lia].
      replace ({[doc_id d]} ∪ id_set ds ∪ X) with (id_set ds ∪ X) by set_solver. cbn [length]. f_equal. lia.
    + assert (HX : doc_id d ∉ X) by (intros H; by apply Es, Hseen). rewrite Hnew by done. rewrite (IH (d :: seen) ({[ doc_id d ]} ∪ X) count).
      * cbn [length]. f_equal. lia.
      * rewrite <- Permutation_middle. by constructor.
      * intros e He Hm. rewrite elem_of_cons, (Hseen e He Hm), elem_of_union, elem_of_singleton. split; [intros [->|?]; [by left|by right]|intros [E|?]; [left; congruence|by right]].
      * apply Hone'. set_solver.
      * lia.
  - destruct (Hone 0 d eq_refl Hsingle) as [HX _]. rewrite Hnew by done. rewrite (IH seen ({[ doc_id d ]} ∪ X) count); [cbn [length]; f_equal; lia|done| |apply Hone'; set_solver|lia].
    intros e He Hm. rewrite (Hseen e He Hm), elem_of_union, elem_of_singleton. split; [by right|]. intros [E|?]; [|done]. assert (e = d) as -> by congruence. lia.
Qed.
End TakeBack.

(** ** After a history *)

Section History.
Context {V : Type} {json : Json V} `{!EqDecision (StoredDocument V)} {B : Type} {checkpoint : Checkpoint B} `{A : Analyzer} {L : AnalyzerLaws A}.
Abbreviation Doc := (StoredDocument V).
Abbreviation docs := (gmap (list Z) Doc).
Abbreviation Store := (DocumentStore V TermDictionary B).
Context (content : StoredChunk -> list Z * Z).
Context (s : Store) (outs : list (option Doc)) (r : docs * list (option Doc)) (g : Z) (Hm : StoreHistory.matches (s, outs) r g) (Hin : all_ingested content r.1).

Abbreviation slot_words := (div_ceil (Z.to_nat (st_slot_count (ds_table s))) 64).
Abbreviation slots_of := (map (fun x => slot_at (ds_slots s) x.1)).
Abbreviation index f := (index_of (views (owned (st_owners (ds_table s)))) f).

(** A posting of positive frequency. *)
Definition posted (f : bool) (t : list Z) (k : nat) : bool := match at_term (index f) t !! Z.of_nat k with Some (fr, _) => (0 <? fr)%Z | None => false end.

Lemma posted_rows f t k : posted f t k = true <-> Z.of_nat k ∈ slots_of (filter (fun x => c_stemmed x.2 = f /\ t ∈ tokens (content x.2).1 f) (all_rows r.1)).
Proof using Hm Hin L.
  rewrite <- (posting_rows content s outs r g Hm Hin). unfold posted. rewrite index_of_lookup. split.
  - destruct (look _ f t (Z.of_nat k)) as [[fr o]|] eqn:E; [|done]. intros _. exists fr. apply (look_posting _ _ _ f t (Z.of_nat k) fr Hm). by exists o.
  - intros (fr & Hp). pose proof Hp as (id & d & ss & i & c & Hd & _ & _ & Hc & _ & He). apply (look_posting _ _ _ f t (Z.of_nat k) fr Hm) in Hp as [o Ho]. cbn [fst] in Ho. rewrite Ho.
    destruct (Hin id d c Hd ltac:(by eapply list_elem_of_lookup_2)) as (positions & Hfit & E & _). destruct (analysis_holds _ _ _ _ _ _ Hfit E) as (Hr & _). rewrite (repr_entries_of _ _ Hr) in He.
    pose proof (weighted_positive_counts _ _ (c_stemmed c) Hfit) as F. rewrite Forall_forall in F. specialize (F _ He). cbn in F. apply Z.ltb_lt. lia.
Qed.

Lemma index_range f t k v : at_term (index f) t !! k = Some v -> (0 <= k < 64 * Z.of_nat slot_words)%Z.
Proof using Hm.
  clear Hin. rewrite index_of_lookup. unfold look, views. rewrite lookup_fmap. destruct (owned _ !! k) as [[c e]|] eqn:E; [|done]. intros _. rewrite lookup_owned in E. apply fmap_Some in E as (c0 & Hc & _).
  apply slot_chunk_Some in Hc as (Hpos & x & Ho & _). apply lookup_lt_Some in Ho. pose proof Hm as [H1 _ _ _ _ _ _]. cbn [fst] in *. pose proof (tk_count _ (dk_table _ _ (sk_dir _ H1))) as Hcount.
  rewrite Hcount, Nat2Z.id. pose proof (div_64 (Z.to_nat k) (length (st_owners (ds_table s))) Ho). pose proof (Nat.div_mod_eq (Z.to_nat k) 64). pose proof (Nat.mod_upper_bound (Z.to_nat k) 64). lia.
Qed.

Lemma mark_words_ok f words matched p :
  bitset_ok matched slot_words p ->
  exists matched', mark_words (form (ds_postings s) f) words matched = Ok matched' /\ bitset_ok matched' slot_words (fun j => p j || existsb (fun t => posted f t j) words).
Proof using Hm.
  clear Hin. pose proof Hm as [H1 _ _ _ _ _ _]. cbn [fst] in *. pose proof (so_index _ _ (sk_postings _ H1) f) as Hrep. revert matched p. induction words as [|t words IH]; intros matched p Hb; cbn [mark_words existsb].
  { exists matched. split; [done|]. eapply bitset_ext; [|exact Hb]. intros j _. by rewrite orb_false_r. }
  destruct (represents_list _ _ _ t Hrep) as (l & -> & Hl). cbn [obind].
  assert (Hone : exists m1, match l with Some l => mark_slots l matched | None => Ok matched end = Ok m1 /\ bitset_ok m1 slot_words (fun j => p j || posted f t j)).
  { destruct l as [l|].
    - destruct Hl as (es & Hmod & Eat). assert (Hd : distinct es) by (by eapply entries_distinct, models_entries). destruct (mark_slots_ok _ l es matched slot_words p Hmod Hb) as (m1 & E1 & Hb1).
      + apply Forall_forall. intros e He. apply (index_range f t _ (e.1.2, e.2)). rewrite Eat. apply to_map_Some; [done|]. by exists e.
      + exists m1. split; [done|]. eapply bitset_ext; [|exact Hb1]. intros j _. cbn beta. f_equal. apply eq_bool_prop_intro. rewrite !Is_true_true, bool_decide_eq_true, list_elem_of_fmap. unfold posted. rewrite Eat. split.
        * intros (e & Ee & [Hp He]%list_elem_of_filter). assert (to_map es !! Z.of_nat j = Some (e.1.2, e.2)) as -> by (apply to_map_Some; [done|]; exists e; split; [done|]; by rewrite Ee). by apply Z.ltb_lt.
        * destruct (to_map es !! Z.of_nat j) as [[fr o]|] eqn:E; [|done]. apply to_map_Some in E as (e & He & Ee); [|done]. unfold to_pair in Ee. injection Ee as E1' E2' _. intros Hp%Z.ltb_lt. exists e. split; [done|]. apply list_elem_of_filter. split; [|done]. by rewrite E2'.
    - exists matched. split; [done|]. eapply bitset_ext; [|exact Hb]. intros j _. unfold posted. rewrite Hl, lookup_empty. by rewrite orb_false_r. }
  destruct Hone as (m1 & -> & Hb1). cbn [obind]. destruct (IH m1 _ Hb1) as (m2 & -> & Hb2). exists m2. split; [done|]. eapply bitset_ext; [|exact Hb2]. intros j _. by rewrite orb_assoc.
Qed.

(** *** Rows and documents *)

Context (plain stems : list (list Z)).

(** The chunk has one of the words of its form. *)
Definition wanted (c : StoredChunk) : bool := existsb (fun t => bool_decide (t ∈ tokens (content c).1 (c_stemmed c))) (if c_stemmed c then stems else plain).

Abbreviation rows' := (filter (fun x => wanted x.2 = true) (all_rows r.1)).
Abbreviation found := (map fst (filter (fun d : list Z * Doc => existsb wanted (doc_chunks d.2) = true) (ordered r.1))).

Lemma wanted_rows k : existsb (fun t => posted false t k) plain || existsb (fun t => posted true t k) stems = true <-> Z.of_nat k ∈ slots_of rows'.
Proof using Hm Hin L.
  rewrite orb_true_iff, !existsb_exists. setoid_rewrite posted_rows. setoid_rewrite list_elem_of_fmap. setoid_rewrite list_elem_of_filter. setoid_rewrite <- list_elem_of_In. unfold wanted. split.
  - intros [(t & Ht & x & Hk & (Hf & Hx) & Hr)|(t & Ht & x & Hk & (Hf & Hx) & Hr)]; exists x; (split; [done|]; split; [|done]); apply existsb_exists; exists t; rewrite Hf; (split; [by apply list_elem_of_In|by apply bool_decide_eq_true]).
  - intros (x & Hk & Hw & Hr). apply existsb_exists in Hw as (t & Ht%list_elem_of_In & Hx%bool_decide_eq_true). destruct (c_stemmed x.2) eqn:Hf; [right|left]; exists t; (split; [done|]); exists x; by rewrite Hf.
Qed.

Lemma found_NoDup : NoDup found.
Proof using. clear. eapply sublist_NoDup; [apply (ordered_NoDup r.1)|apply (fmap_sublist fst), sublist_filter]. Qed.

Lemma found_rows id : id ∈ found <-> exists i c, (id, i, c) ∈ rows'.
Proof using.
  clear Hm Hin. rewrite list_elem_of_fmap. split.
  - intros ([id' d] & -> & [Hd Ho]%list_elem_of_filter). cbn [snd fst] in *. apply existsb_exists in Hd as (c & Hc%list_elem_of_In & Hw). apply list_elem_of_lookup in Hc as [i Hi]. exists i, c. apply list_elem_of_filter. split; [done|].
    apply all_rows_elem. exists d. split; [by apply ordered_elem|done].
  - intros (i & c & [Hw (d & Hd & Hc)%all_rows_elem]%list_elem_of_filter). exists (id, d). split; [done|]. apply list_elem_of_filter. cbn [snd] in *. split; [|by apply ordered_elem].
    apply existsb_exists. exists c. split; [apply list_elem_of_In; by eapply list_elem_of_lookup_2|done].
Qed.

(** The slot of a row belongs to its document. *)
Lemma row_owner id i c :
  (id, i, c) ∈ all_rows r.1 -> exists d, ds_documents s !! id = Some d /\ doc_id d = id /\ (0 <= slot_at (ds_slots s) (id, i))%Z /\
    st_owners (ds_table s) !! Z.to_nat (slot_at (ds_slots s) (id, i)) = Some (Some (d, i)).
Proof using Hm.
  clear Hin. intros Hx. destruct (row_slot s outs r g Hm id i c Hx) as (ss & k & Hss & Hk & ->). pose proof Hm as [H1 _ _ _ _ _ _]. cbn [fst] in *. pose proof (dk_linked _ _ (sk_dir _ H1)) as Hl.
  assert (Hd : is_Some (ds_documents s !! id)) by (apply elem_of_dom; rewrite <- (ln_dom _ _ _ Hl); apply elem_of_dom; eauto). destruct Hd as [d Hd]. exists d. split; [done|]. split; [by apply (ln_ids _ _ _ Hl)|].
  destruct (ln_slots _ _ _ Hl id d ss Hd Hss) as [_ H]. by apply H.
Qed.

(** The documents of the wanted slots. *)
Lemma slot_documents (slots : list nat) :
  NoDup slots -> (forall k, k ∈ slots <-> Z.of_nat k ∈ slots_of rows') ->
  exists ds, Forall2 (fun slot d => exists i, st_owners (ds_table s) !! slot = Some (Some (d, i))) slots ds /\
    Forall (fun d => ds_documents s !! doc_id d = Some d) ds /\
    (forall j d, ds !! j = Some d -> length (doc_chunks d) <= 1 -> forall j', ds !! j' = Some d -> j' = j) /\ id_set ds = list_to_set found.
Proof using Hm.
  clear Hin. intros Hnd Hs. pose proof Hm as [H1 _ _ _ _ _ _]. cbn [fst] in *. pose proof (dk_linked _ _ (sk_dir _ H1)) as Hl.
  assert (Hex : exists ds, Forall2 (fun slot d => exists i, st_owners (ds_table s) !! slot = Some (Some (d, i))) slots ds).
  { assert (F : Forall (fun slot => exists d i, st_owners (ds_table s) !! slot = Some (Some (d, i))) slots).
    { apply Forall_forall. intros k Hk%Hs. apply list_elem_of_fmap in Hk as ([[id i] c] & Ek & [_ Hx]%list_elem_of_filter). destruct (row_owner id i c Hx) as (d & _ & _ & _ & Ho). cbn [fst] in Ek. rewrite <- Ek, Nat2Z.id in Ho. eauto. }
    clear -F. induction F as [|k l (d & Hd) _ [ds IH]]; [by exists []|]. exists (d :: ds). by constructor. }
  destruct Hex as [ds Hf]. exists ds. split; [done|].
  assert (Hown : forall j d, ds !! j = Some d -> exists k i ss, slots !! j = Some k /\ st_owners (ds_table s) !! k = Some (Some (d, i)) /\ ds_documents s !! doc_id d = Some d /\ ds_slots s !! doc_id d = Some ss /\ ss !! i = Some (Z.of_nat k)).
  { intros j d Hj. destruct (Forall2_lookup_r _ _ _ _ _ Hf Hj) as (k & Hk & i & Ho). destruct (ln_owners _ _ _ Hl _ _ _ Ho) as (Hd & ss & Hss & Hi). by exists k, i, ss. }
  split; [|split].
  - apply Forall_forall. intros d [j Hj]%list_elem_of_lookup. by destruct (Hown j d Hj) as (_ & _ & _ & _ & _ & ? & _).
  - intros j d Hj Hle j' Hj'. destruct (Hown j d Hj) as (k & i & ss & Hk & _ & Hd & Hss & Hi). destruct (Hown j' d Hj') as (k' & i' & ss' & Hk' & _ & _ & Hss' & Hi'). rewrite Hss in Hss'. injection Hss' as <-.
    destruct (ln_slots _ _ _ Hl _ _ _ Hd Hss) as [Hlen _]. pose proof (lookup_lt_Some _ _ _ Hi). pose proof (lookup_lt_Some _ _ _ Hi'). assert (i' = i) as -> by lia. rewrite Hi in Hi'. injection Hi' as Ek. apply Nat2Z.inj in Ek as ->. by eapply NoDup_lookup.
  - apply set_eq. intros id. unfold id_set. rewrite !elem_of_list_to_set, found_rows, list_elem_of_fmap. split.
    + intros (d & -> & [j Hj]%list_elem_of_lookup). destruct (Hown j d Hj) as (k & i & ss & Hk & Ho & Hd & Hss & Hi). assert (Hin : k ∈ slots) by (by eapply list_elem_of_lookup_2). apply Hs, list_elem_of_fmap in Hin as ([[id' i'] c] & Ek & Hx).
      pose proof Hx as [_ Hx']%list_elem_of_filter. destruct (row_owner id' i' c Hx') as (d' & _ & Eid & _ & Ho'). cbn [fst] in Ek. rewrite <- Ek, Nat2Z.id, Ho in Ho'. injection Ho' as <- <-. rewrite Eid. eauto.
    + intros (i & c & Hx). pose proof Hx as [_ Hx']%list_elem_of_filter. destruct (row_owner id i c Hx') as (d & _ & Eid & Hpos & Ho).
      assert (Hk : Z.to_nat (slot_at (ds_slots s) (id, i)) ∈ slots) by (apply Hs; rewrite Z2Nat.id by done; apply list_elem_of_fmap; by exists (id, i, c)). apply list_elem_of_lookup in Hk as [j Hj].
      destruct (Forall2_lookup_l _ _ _ _ _ Hf Hj) as (d' & Hd' & i' & Ho'). rewrite Ho in Ho'. injection Ho' as <- <-. exists d. split; [done|]. by eapply list_elem_of_lookup_2.
Qed.

Lemma take_back_found (slots : list nat) :
  NoDup slots -> (forall k, k ∈ slots <-> Z.of_nat k ∈ slots_of rows') -> take_back s slots [] (Z.of_nat (length slots)) = Ok (Z.of_nat (length found)).
Proof using Hm.
  clear Hin. intros Hnd Hs. destruct (slot_documents slots Hnd Hs) as (ds & Hf & HM & Hone & Hid). pose proof (Forall2_length _ _ _ Hf) as Hlen.
  rewrite (take_back_ok s (ds_documents s) slots ds [] ∅); [|done|by rewrite app_nil_r| | |lia].
  - rewrite (right_id_L ∅ (∪)), Hid, size_list_to_set by apply found_NoDup. rewrite size_empty. f_equal. lia.
  - intros d _ _. split; [by intros ?%elem_of_nil|by intros ?%elem_of_empty].
  - intros j d Hj Hle. split; [apply not_elem_of_empty|]. by apply (Hone j d).
Qed.

(** Where no document has two chunks, slots are documents. *)
Lemma take_back_single (slots : list nat) ds seen count :
  Forall2 (fun slot d => exists i, st_owners (ds_table s) !! slot = Some (Some (d, i))) slots ds -> Forall (fun d => length (doc_chunks d) <= 1) ds -> take_back s slots seen count = Ok count.
Proof using.
  clear. intros Hf. induction Hf as [|slot d slots ds [i Ho] _ IH]; intros HM; [done|]. apply Forall_cons in HM as [Hd HM]. cbn [take_back]. unfold borrowed_chunk. rewrite Ho. cbn [expect obind].
  rewrite (proj2 (Nat.ltb_ge 1 _)) by done. by apply IH.
Qed.

Lemma single_found (slots : list nat) :
  NoDup slots -> (forall k, k ∈ slots <-> Z.of_nat k ∈ slots_of rows') -> (forall id d, ds_documents s !! id = Some d -> length (doc_chunks d) <= 1) -> length slots = length found.
Proof using Hm EqDecision0.
  clear Hin. intros Hnd Hs Hone. pose proof (take_back_found slots Hnd Hs) as E. destruct (slot_documents slots Hnd Hs) as (ds & Hf & HM & _). rewrite (take_back_single slots ds) in E; [injection E; lia|done|].
  eapply Forall_impl; [exact HM|]. intros d Hd. exact (Hone _ _ Hd).
Qed.

(** *** The two ways to count *)

Lemma positive_len_ok f words :
  length words <= 1 ->
  positive_len (form (ds_postings s) f) words = Ok (Z.of_nat (length (filter (fun x => c_stemmed x.2 = f /\ existsb (fun t => bool_decide (t ∈ tokens (content x.2).1 f)) words = true) (all_rows r.1)))).
Proof using Hm Hin L.
  intros Hl. pose proof Hm as [H1 _ _ _ _ _ _]. cbn [fst] in *. destruct words as [|t [|]]; [|clear Hl|cbn in Hl; lia]; cbn [positive_len head].
  { f_equal. symmetry. change 0%Z with (Z.of_nat 0). f_equal. induction (all_rows r.1) as [|x l IH]; [done|]. rewrite filter_cons, decide_False; [done|]. by intros [_ ?]. }
  destruct (represents_list _ _ _ t (so_index _ _ (sk_postings _ H1) f)) as (l & -> & Hlist). cbn [obind]. f_equal.
  assert (Ef : filter (fun x => c_stemmed x.2 = f /\ existsb (fun t => bool_decide (t ∈ tokens (content x.2).1 f)) [t] = true) (all_rows r.1) = filter (fun x => c_stemmed x.2 = f /\ t ∈ tokens (content x.2).1 f) (all_rows r.1)).
  { apply list_filter_ext. intros x _. cbn [existsb]. rewrite orb_false_r, bool_decide_eq_true. done. }
  rewrite Ef, <- (length_map (fun x => slot_at (ds_slots s) x.1)). clear Ef. set (target := slots_of _).
  assert (Htarget : forall k, k ∈ target -> (0 <= k)%Z) by (intros k ([[id i] c] & -> & [_ Hx]%list_elem_of_filter)%list_elem_of_fmap; by destruct (row_owner id i c Hx) as (_ & _ & _ & ? & _)).
  destruct l as [l|].
  - destruct Hlist as (es & Hmod & Eat). pose proof (models_entries _ _ _ Hmod) as He. assert (Hd : distinct es) by by apply entries_distinct.
    transitivity (Z.of_nat (length (map slot_of (filter (fun e : Posting * Z => 0 < e.1.2)%Z es)))).
    + destruct Hmod as (gs & Hpl & Hes). rewrite (po_positive _ _ _ Hpl), Hes. unfold PostingEdit.positive. f_equal. rewrite length_map. clear. induction es as [|e es IH]; [done|]. cbn [map]. rewrite !filter_cons. case_decide; cbn [length]; lia.
    + f_equal. apply Permutation_length, NoDup_Permutation; [eapply sublist_NoDup; [exact Hd|apply (fmap_sublist slot_of), sublist_filter]|by apply (row_slots_NoDup s outs r g Hm)|].
      intros k. split.
      * intros (e & -> & [Hp Hin']%list_elem_of_filter)%list_elem_of_fmap. assert (Hk : at_term (index f) t !! slot_of e = Some (e.1.2, e.2)) by (rewrite Eat; apply to_map_Some; [done|]; by exists e).
        destruct (index_range f t _ _ Hk) as [H0 _]. rewrite <- (Z2Nat.id (slot_of e)) by done. apply posted_rows. unfold posted. rewrite Z2Nat.id, Hk by done. by apply Z.ltb_lt.
      * intros Hk. pose proof (Htarget k Hk) as H0. rewrite <- (Z2Nat.id k) in Hk by done. apply posted_rows in Hk. unfold posted in Hk. rewrite Z2Nat.id, Eat in Hk by done.
        destruct (to_map es !! k) as [[fr o]|] eqn:E; [|done]. apply to_map_Some in E as (e & He' & Ee); [|done]. unfold to_pair in Ee. injection Ee as E1 E2 _. apply list_elem_of_fmap. exists e. split; [done|]. apply list_elem_of_filter. split; [apply Z.ltb_lt in Hk; by rewrite E2|done].
  - change 0%Z with (Z.of_nat 0). f_equal. destruct target as [|k target'] eqn:E; [done|]. exfalso. pose proof (Htarget k ltac:(left)) as H0. assert (Hk : k ∈ target) by (rewrite E; left). unfold target in Hk. rewrite <- (Z2Nat.id k) in Hk by done.
    apply posted_rows in Hk. unfold posted in Hk. by rewrite Hlist, lookup_empty in Hk.
Qed.

Lemma split_rows (l : list (list Z * nat * StoredChunk)) :
  length (filter (fun x => c_stemmed x.2 = false /\ existsb (fun t => bool_decide (t ∈ tokens (content x.2).1 false)) plain = true) l) +
  length (filter (fun x => c_stemmed x.2 = true /\ existsb (fun t => bool_decide (t ∈ tokens (content x.2).1 true)) stems = true) l) = length (filter (fun x => wanted x.2 = true) l).
Proof using.
  clear. induction l as [|x l IH]; [done|]. rewrite !filter_cons.
  assert (c_stemmed x.2 = true /\ wanted x.2 = existsb (fun t => bool_decide (t ∈ tokens (content x.2).1 true)) stems \/ c_stemmed x.2 = false /\ wanted x.2 = existsb (fun t => bool_decide (t ∈ tokens (content x.2).1 false)) plain) as W
    by (unfold wanted; destruct (c_stemmed x.2); auto).
  destruct W as [[E W]|[E W]]; repeat case_decide; cbn [length]; try lia; exfalso; naive_solver congruence.
Qed.

(** One chunk each, where there are as many chunks as documents. *)
Lemma one_chunk_each :
  (forall id d, r.1 !! id = Some d -> doc_chunks d <> []) -> st_chunks (ds_table s) = Z.of_nat (size (ds_documents s)) -> forall id d, ds_documents s !! id = Some d -> length (doc_chunks d) <= 1.
Proof using Hm.
  clear Hin. intros Hne Hc id d' Hd'. pose proof (counter_total _ _ _ one Hm stable_one) as Ht. pose proof Hm as [H1 H2 _ _ _ _ _]. cbn [fst] in *. rewrite (tk_chunks _ (dk_table _ _ (sk_dir _ H1))), Ht, (related_size _ _ H2) in Hc.
  pose proof (H2 id) as Hid. rewrite Hd' in Hid. inversion Hid as [d x Hs E1 E2|]; subst. symmetry in E1. destruct Hs as [_ Hs]. rewrite <- (Forall2_length _ _ _ Hs).
  assert (Hsum : forall l : list Doc, Forall (fun d => doc_chunks d <> []) l -> (Z.of_nat (length l) <= list_sum one l)%Z /\ (list_sum one l = Z.of_nat (length l) -> Forall (fun d => length (doc_chunks d) <= 1) l)).
  { clear. assert (Hone : forall cs, chunk_sum one cs = Z.of_nat (length cs)) by (induction cs as [|c cs IH]; [done|]; cbn [chunk_sum foldr length]; fold (chunk_sum one cs); unfold one at 1; lia).
    induction 1 as [|d l Hd _ [IH1 IH2]]; [by split; [|constructor]|]. cbn [list_sum foldr length]. fold (list_sum one l). unfold doc_sum. rewrite Hone. assert (0 < length (doc_chunks d)) by (destruct (doc_chunks d); [done|cbn; lia]).
    split; [lia|]. intros E. constructor; [lia|]. apply IH2. lia. }
  destruct (Hsum (map snd (map_to_list r.1))) as [_ Hall].
  - apply Forall_map, Forall_forall. intros [i x] Hx%elem_of_map_to_list. by eapply Hne.
  - rewrite Forall_map, Forall_forall in Hall. rewrite length_map, length_map_to_list in Hall. apply (Hall Hc (id, d)). by apply elem_of_map_to_list.
Qed.

Lemma count_terms_exact : (forall id d, r.1 !! id = Some d -> doc_chunks d <> []) -> count_terms s plain stems = Ok (Z.of_nat (length found)).
Proof using Hm Hin L EqDecision0.
  intros Hne. pose proof Hm as [H1 _ _ _ _ _ _]. cbn [fst] in *. unfold count_terms. destruct ((length plain <=? 1) && _ && _) eqn:Efast.
  - apply andb_true_iff in Efast as [Ew Ec%Z.eqb_eq]. apply andb_true_iff in Ew as [Ep%Nat.leb_le Es%Nat.leb_le]. rewrite (positive_len_ok false plain Ep), (positive_len_ok true stems Es). cbn [obind].
    rewrite <- Nat2Z.inj_add, split_rows. do 2 f_equal. rewrite <- (length_map (fun x => slot_at (ds_slots s) x.1)), <- (length_map Z.to_nat).
    assert (Hpos : forall k, k ∈ slots_of rows' -> (0 <= k)%Z) by (intros k ([[id i] c] & -> & [_ Hx]%list_elem_of_filter)%list_elem_of_fmap; by destruct (row_owner id i c Hx) as (_ & _ & _ & ? & _)).
    apply single_found; [| |by apply one_chunk_each].
    + apply NoDup_fmap_2_strong; [|by apply (row_slots_NoDup s outs r g Hm)]. intros a b Ha%Hpos Hb%Hpos. lia.
    + intros k. rewrite list_elem_of_fmap. split; [intros (z & -> & Hz); by rewrite Z2Nat.id by by apply Hpos|]. intros Hk. exists (Z.of_nat k). by rewrite Nat2Z.id.
  - destruct (mark_words_ok false plain _ _ (bitset_new slot_words)) as (m1 & -> & Hb1). cbn [obind]. destruct (mark_words_ok true stems m1 _ Hb1) as (m2 & -> & Hb2). cbn [obind].
    destruct (marked_slots_ok m2 slot_words _ Hb2) as [Hslots Hcount]. rewrite Hcount. set (slots := filter _ (seq 0 (64 * slot_words))) in *.
    assert (Hnd : NoDup slots) by (apply NoDup_filter, NoDup_seq).
    assert (Hel : forall k, k ∈ slots <-> Z.of_nat k ∈ slots_of rows').
    { intros k. unfold slots. rewrite list_elem_of_filter, elem_of_seq. cbn [orb]. rewrite <- wanted_rows. split; [by intros [? _]|]. intros Hk. split; [done|]. apply wanted_rows, list_elem_of_fmap in Hk as ([[id i] c] & Ek & [_ Hx]%list_elem_of_filter).
      destruct (row_owner id i c Hx) as (d & _ & _ & _ & Ho). cbn [fst] in Ek. rewrite <- Ek, Nat2Z.id in Ho. apply lookup_lt_Some in Ho. rewrite (tk_count _ (dk_table _ _ (sk_dir _ H1))), Nat2Z.id.
      pose proof (div_64 k (length (st_owners (ds_table s))) Ho). pose proof (Nat.div_mod_eq k 64). pose proof (Nat.mod_upper_bound k 64). lia. }
    case_bool_decide as Emulti.
    + do 2 f_equal. apply single_found; [done|done|]. intros id d Hd. destruct (decide (1 < length (doc_chunks d))) as [Hlt|]; [|lia]. exfalso.
      assert (Hx : id ∈ ds_multichunk s) by (apply (dk_multi _ _ (sk_dir _ H1)); eauto). rewrite Emulti in Hx. by apply elem_of_empty in Hx.
    + rewrite Hslots. cbn [obind]. by apply take_back_found.
Qed.
End History.

(** ** The count of the exhaustive execution *)

(** The queries [execute] counts without a scan. *)
Definition disjunction (q : LexicalQuery) : bool := forallb (fun cl => bool_decide (cl_occur cl = Should) && negb (cl_phrase cl)) q.

(** [execute] of such a query, when only the count is asked for. *)
Definition execute_count {V D B} `{!EqDecision (StoredDocument V)} {dict : TermIndex D} (s : DocumentStore V D B) (q : LexicalQuery) : outcome LexicalResults :=
  let* count := count_union s q in Ok {| lr_hits := []; lr_count := Some (Z.to_nat count) |}.

Lemma first_words_ok q f : Forall clause_ok q -> exists ws, first_words q f = Ok ws /\ forall w, w ∈ ws <-> exists cl, cl ∈ q /\ hd [] (cl_words cl f) = w.
Proof.
  intros Hq. unfold first_words. rewrite (omap_list_ok _ (fun cl => hd [] (cl_words cl f))).
  - cbn [obind]. eexists. split; [done|]. intros w. set (ws := map (fun cl => hd [] (cl_words cl f)) q). transitivity (w ∈ ws); [|unfold ws; rewrite list_elem_of_fmap; split; intros (cl & ? & ?); exists cl; split; done].
    rewrite list_elem_of_fmap. setoid_rewrite merge_sort_Permutation. split.
    + intros ([w' z] & -> & Hw%elem_of_map_to_list). apply elem_of_list_to_map_2, list_elem_of_fmap in Hw as (u & [= -> _] & Hu). done.
    + intros Hw. assert (Hd : is_Some ((list_to_map (map (fun w => (w, 0%Z)) ws) : gmap (list Z) Z) !! w)).
      { apply elem_of_dom. rewrite dom_list_to_map_L. apply elem_of_list_to_set. change (w ∈ map fst (map (fun w => (w, 0%Z)) ws)). rewrite map_map. cbn. by rewrite map_id. }
      destruct Hd as [z Hz]. exists (w, z). split; [done|]. by apply elem_of_map_to_list.
  - intros cl Hcl. rewrite Forall_forall in Hq. specialize (Hq cl Hcl f). by destruct (cl_words cl f).
Qed.

Section Equivalence.
Context {V : Type} {json : Json V} `{!EqDecision (StoredDocument V)} {B : Type} {checkpoint : Checkpoint B} `{A : Analyzer} {L : AnalyzerLaws A}.
Context (crc32 : list Z -> Z) (cipher : option Aead) (ln : f64 -> f64) (m : Bm25) (content : StoredChunk -> list Z * Z).
Abbreviation Doc := (StoredDocument V).

Lemma wanted_satisfies q plain stems c :
  disjunction q = true -> (forall w, w ∈ plain <-> exists cl, cl ∈ q /\ hd [] (cl_words cl false) = w) -> (forall w, w ∈ stems <-> exists cl, cl ∈ q /\ hd [] (cl_words cl true) = w) ->
  wanted content plain stems c = chunk_satisfies content q c.
Proof using.
  intros Hq Hp Hs. unfold disjunction in Hq. rewrite forallb_forall in Hq. assert (Hcl : forall cl, cl ∈ q -> cl_occur cl = Should /\ cl_phrase cl = false).
  { intros cl Hcl%list_elem_of_In. specialize (Hq cl Hcl). by apply andb_true_iff in Hq as [?%bool_decide_eq_true ?%negb_true_iff]. }
  unfold wanted, chunk_satisfies, satisfies. set (f := c_stemmed c).
  assert (Hall : forallb (fun cl => match cl_occur cl with Must => holds cl f (content c).1 | Should => true | MustNot => negb (holds cl f (content c).1) end) q = true).
  { apply forallb_forall. intros cl Hin%list_elem_of_In. by destruct (Hcl cl Hin) as [-> _]. }
  rewrite Hall. cbn [andb]. apply eq_bool_prop_intro. rewrite !Is_true_true, !existsb_exists. setoid_rewrite <- list_elem_of_In. setoid_rewrite bool_decide_eq_true.
  assert (Hw : forall w, w ∈ (if f then stems else plain) <-> exists cl, cl ∈ q /\ hd [] (cl_words cl f) = w) by (intros w; by destruct f). setoid_rewrite Hw. split.
  - intros (w & (cl & Hin & <-) & Ht). exists cl. split; [done|]. destruct (Hcl cl Hin) as [-> Hph]. unfold holds. rewrite Hph. by apply bool_decide_eq_true.
  - intros (cl & Hin & Hh). destruct (Hcl cl Hin) as [Ho Hph]. rewrite Ho in Hh. unfold holds in Hh. rewrite Hph in Hh. apply bool_decide_eq_true in Hh. eauto.
Qed.

(** C16: counting from bits is counting from texts.  After any history, for a query of optional words
    whose count alone is asked for, the count from the posting lists, by their lengths or by bits
    per slot with the further chunks of a document taken back, never panics and is the result of
    the exhaustive execution: the number of documents with a chunk that has one of the words. *)
Theorem count_union_exact threads nonce_at g os text q :
  store_ops_ok ∅ g os -> all_ingested content (reference os).1 -> map_Forall (fun _ d => doc_chunks d <> []) (reference os).1 ->
  parse text = Ok q -> disjunction q = true ->
  exists s outs, store_steps threads crc32 cipher nonce_at (opened (D := TermDictionary) (B := B) g) os = Ok (s, outs) /\
    execute_count s q = exhaustive crc32 cipher ln m s q 0 true /\
    execute_count s q = Ok {| lr_hits := []; lr_count := Some (length (matched_documents content q (ordered (reference os).1))) |}.
Proof using L.
  intros Ho Hin Hne Hp Hq. destruct (run_ok_matches threads crc32 cipher nonce_at g os Ho) as (s & outs & g' & Hrun & Hm). exists s, outs. split; [done|].
  pose proof (parse_ok text) as Hok. rewrite Hp in Hok. destruct (first_words_ok q false Hok) as (plain & Ep & Hplain). destruct (first_words_ok q true Hok) as (stems & Es & Hstems).
  assert (E : execute_count s q = Ok {| lr_hits := []; lr_count := Some (length (matched_documents content q (ordered (reference os).1))) |}).
  { unfold execute_count, count_union. rewrite Ep, Es. cbn [obind]. rewrite (count_terms_exact content s outs (reference os) g' Hm Hin plain stems) by exact Hne. cbn [obind]. rewrite Nat2Z.id. unfold matched_documents.
    do 5 f_equal. apply list_filter_ext. intros d _. assert (Ex : existsb (wanted content plain stems) (doc_chunks d.2) = existsb (chunk_satisfies content q) (doc_chunks d.2)); [|by rewrite Ex].
    induction (doc_chunks d.2) as [|c cs IH]; [done|]. cbn [existsb]. by rewrite IH, (wanted_satisfies q plain stems c Hq Hplain Hstems). }
  split; [|done]. rewrite E. pose proof (exhaustive_ok crc32 cipher ln m content s outs (reference os) g' q 0 true Hm Hin Hok) as Hx. unfold search_answer in Hx. cbn in Hx. destruct Hx as (ranking & _ & _ & ->). done.
Qed.
End Equivalence.

(** ** A count *)

(** The words cat and dog. *)
Definition toy_disjunction : list Z := [99; 97; 116; 32; 100; 111; 103]%Z.

Lemma count_union_exact_witness :
  exists s outs q,
    store_steps (V := toy_json) (B := Base flat_image) 4 (fun _ => 0%Z) None (fun _ => []) (opened (D := TermDictionary) 5) toy_search_history = Ok (s, outs) /\
    parse (A := toy_analyzer) toy_disjunction = Ok q /\ execute_count s q = Ok {| lr_hits := []; lr_count := Some 2 |}.
Proof.
  destruct (parse (A := toy_analyzer) toy_disjunction) as [q| |] eqn:Eq; [|vm_compute in Eq; discriminate|vm_compute in Eq; discriminate].
  destruct (count_union_exact (B := Base flat_image) (L := toy_analyzer_laws) (fun _ => 0%Z) None (fun x => x) bm25_default toy_content 4 (fun _ => []) 5 toy_search_history toy_disjunction q
    toy_search_history_ok toy_all_ingested ltac:(by_decide) Eq ltac:(vm_compute in Eq; injection Eq as <-; vm_compute; reflexivity)) as (s & outs & Hrun & _ & E).
  exists s, outs, q. split; [exact Hrun|]. split; [reflexivity|]. rewrite E. vm_compute in Eq. injection Eq as <-. vm_compute. reflexivity.
Defined.
