(* ===== verification/WordCache.v ===== *)
(** * The id of a word across chunks

    [WordId], [index_cached] and [bracket] of [src/core/documents/packed_terms.rs]: a phrase keeps
    the id its words have in the last shared dictionary met, and looks them up in a chunk by an
    interpolated guess widened by doubling steps.  Every lookup is the search by strings. *)

From S2P Require Import Prelude BitPack Search Positions Words Terms.

(** ** The cache *)

(** The dictionary the id belongs to, as the number of its allocation ([Arc::ptr_eq]; the cache
    holds the [Arc], so the number is not used again), and the id, if the word has one. *)
Record WordId := mkWordId { wi_dictionary : option (nat * option Z) }.

Definition word_id_default : WordId := {| wi_dictionary := None |}.

(** ** A range that holds the id *)

(** The id at an index. *)
Definition id_at (t : SharedTerms) (index : nat) : outcome Z := unpack (s_ids t) index (s_bits t).

(** The loop over a guess below the id. *)
Fixpoint widen_up (fuel : nat) (at_ : nat -> outcome Z) (guess count : nat) (id : Z) (low step : nat) : outcome (nat * nat) :=
  match fuel with
  | O => Panic
  | S fuel =>
      let probe := guess + step in
      if count <=? probe then Ok (low, count)
      else
        let* v := at_ probe in
        if (id <=? v)%Z then Ok (low, probe + 1) else widen_up fuel at_ guess count id (probe + 1) (step * 2)
  end.

(** The loop over a guess above the id. *)
Fixpoint widen_down (fuel : nat) (at_ : nat -> outcome Z) (guess : nat) (id : Z) (high step : nat) : outcome (nat * nat) :=
  match fuel with
  | O => Panic
  | S fuel =>
      if guess <? step then Ok (0, high)
      else
        let probe := guess - step in
        let* v := at_ probe in
        if (v <=? id)%Z then Ok (probe, high) else widen_down fuel at_ guess id probe (step * 2)
  end.

(** [SharedTerms::bracket]; the product of the interpolation is 128 bits wide. *)
Definition bracket (t : SharedTerms) (id : Z) : outcome (option (nat * nat)) :=
  let count := f_len (s_frequencies t) in
  let* first := id_at t 0 in
  if count =? 0 then Ok None
  else
    let* last := id_at t (count - 1) in
    if ((id <? first) || (last <? id))%Z then Ok None
    else
      let guess := if (last =? first)%Z then 0 else Z.to_nat ((id - first) * Z.of_nat (count - 1) / (last - first)) in
      let* value := id_at t guess in
      if (value =? id)%Z then Ok (Some (guess, guess + 1))
      else
        let* r := if (value <? id)%Z then widen_up (S count) (id_at t) guess count id (guess + 1) 1
                  else widen_down (S count) (id_at t) guess id guess 1 in
        Ok (Some r).

(** [SharedTerms::index_cached] of a table whose dictionary is allocation [arc]. *)
Definition s_index_cached (arc : nat) (t : SharedTerms) (key : list Z) (cache : WordId) : outcome (option nat * WordId) :=
  let* (id, cache) := match wi_dictionary cache with
                      | Some (arc', id) => if arc' =? arc then Ok (id, cache)
                                           else let* id := d_find (s_dictionary t) key in Ok (id, {| wi_dictionary := Some (arc, id) |})
                      | None => let* id := d_find (s_dictionary t) key in Ok (id, {| wi_dictionary := Some (arc, id) |})
                      end in
  match id with
  | None => Ok (None, cache)
  | Some id =>
      let* b := bracket t id in
      match b with
      | None => Ok (None, cache)
      | Some (low, high) =>
          let* r := bsearch (high - low) (fun i => let* v := id_at t i in Ok (v ?= id)%Z) low high in
          Ok (match r with inl middle => Some middle | inr _ => None end, cache)
      end
  end.

(** [StoredTerms::index_cached]. *)
Definition index_cached (arc : nat) (t : StoredTerms) (key : list Z) (cache : WordId) : outcome (option nat * WordId) :=
  match t_terms t with
  | Some (Shared table) => s_index_cached arc table key cache
  | _ => let* i := t_index t key in Ok (i, cache)
  end.

(** One word looked up in one chunk after another, with one cache. *)
Fixpoint cached_lookups (key : list Z) (ts : list (nat * StoredTerms)) (cache : WordId) : outcome (list (option nat)) :=
  match ts with
  | [] => Ok []
  | (arc, t) :: ts => let* (i, cache) := index_cached arc t key cache in let* found := cached_lookups key ts cache in Ok (i :: found)
  end.

(** ** The range *)

Section Bracket.
Context (at_ : nat -> outcome Z) (ids : list Z) (Hat : forall i v, ids !! i = Some v -> at_ i = Ok v) (Hs : StronglySorted Z.lt ids) (id : Z).

(** What is outside a range is on its side of the id. *)
Definition bracketed (low high : nat) : Prop :=
  low <= high <= length ids /\ (forall i v, i < low -> ids !! i = Some v -> (v < id)%Z) /\ (forall i v, high <= i -> ids !! i = Some v -> (id < v)%Z).

Lemma ids_ascend i j v w : i < j -> ids !! i = Some v -> ids !! j = Some w -> (v < w)%Z.
Proof. intros. by eapply sorted_lookup_lt. Qed.

Lemma ids_ascend_le i j v w : i <= j -> ids !! i = Some v -> ids !! j = Some w -> (v <= w)%Z.
Proof. intros Hij Hi Hj. destruct (decide (i = j)) as [->|]; [simplify_eq; lia|]. pose proof (ids_ascend i j v w ltac:(lia) Hi Hj). lia. Qed.

Lemma widen_up_ok fuel guess low step :
  0 < step -> length ids <= guess + step + fuel -> low <= guess + step -> low <= length ids -> (forall i v, i < low -> ids !! i = Some v -> (v < id)%Z) ->
  exists lo hi, widen_up (S fuel) at_ guess (length ids) id low step = Ok (lo, hi) /\ bracketed lo hi.
Proof.
  revert low step. induction fuel as [|fuel IH]; intros low step Hst Hf Hl Hn Hlow; cbn [widen_up];
    (destruct (Nat.leb_spec (length ids) (guess + step)) as [H|H]; [exists low, (length ids); split; [done|]; split_and!; [lia|lia|done|intros i v Hi Hv; apply lookup_lt_Some in Hv; lia]|]).
  - lia.
  - destruct (lookup_lt_is_Some_2 ids (guess + step) H) as [v Hv]. rewrite (Hat _ _ Hv). cbn [obind]. destruct (Z.leb_spec id v) as [Hiv|Hiv].
    + exists low, (guess + step + 1). split; [done|]. split_and!; [lia|lia|done|]. intros i w Hi Hw. pose proof (ids_ascend (guess + step) i v w ltac:(lia) Hv Hw). lia.
    + apply IH; [lia..|]. intros i w Hi Hw. pose proof (ids_ascend_le i (guess + step) w v ltac:(lia) Hw Hv). lia.
Qed.

Lemma widen_down_ok fuel guess high step :
  0 < step -> guess < step + fuel -> high <= guess -> guess - step <= high -> guess < length ids -> (forall i v, high <= i -> ids !! i = Some v -> (id < v)%Z) ->
  exists lo hi, widen_down (S fuel) at_ guess id high step = Ok (lo, hi) /\ bracketed lo hi.
Proof.
  revert high step. induction fuel as [|fuel IH]; intros high step Hst Hf Hh Hp Hg Hhigh; cbn [widen_down];
    (destruct (Nat.ltb_spec guess step) as [H|H]; [exists 0, high; split; [done|]; split_and!; [lia|lia|intros; lia|done]|]).
  - lia.
  - destruct (lookup_lt_is_Some_2 ids (guess - step) ltac:(lia)) as [v Hv]. rewrite (Hat _ _ Hv). cbn [obind]. destruct (Z.leb_spec v id) as [Hiv|Hiv].
    + exists (guess - step), high. split; [done|]. split_and!; [lia|lia| |done]. intros i w Hi Hw. pose proof (ids_ascend i (guess - step) w v ltac:(lia) Hw Hv). lia.
    + apply IH; [lia..|]. intros i w Hi Hw. pose proof (ids_ascend_le (guess - step) i v w ltac:(lia) Hv Hw). lia.
Qed.

Lemma bracketed_search low high :
  bracketed low high -> exists r, bsearch (high - low) (fun i => let* v := at_ i in Ok (v ?= id)%Z) low high = Ok r /\
    match r with inl i => ids !! i = Some id | inr _ => id ∉ ids end.
Proof.
  intros (Hb & Hl & Hh). set (c := fun i => (default 0 (ids !! i) ?= id)%Z).
  destruct (bsearch_found (high - low) (fun i => let* v := at_ i in Ok (v ?= id)%Z) c (length ids) low high) as (r & -> & Hr).
  - intros i j Hij Hj. unfold c. destruct (lookup_lt_is_Some_2 ids i ltac:(lia)) as [v Hv], (lookup_lt_is_Some_2 ids j Hj) as [w Hw]. rewrite Hv, Hw. cbn. pose proof (ids_ascend i j v w Hij Hv Hw).
    split; rewrite !Z.compare_lt_iff; [lia|]. rewrite Z.compare_gt_iff. lia.
  - intros i Hi. unfold c. destruct (lookup_lt_is_Some_2 ids i Hi) as [v Hv]. by rewrite (Hat _ _ Hv), Hv.
  - lia.
  - done.
  - intros i Hi. unfold c. destruct (lookup_lt_is_Some_2 ids i ltac:(lia)) as [v Hv]. rewrite Hv. apply Z.compare_lt_iff. by eapply Hl.
  - intros i Hi. unfold c. destruct (lookup_lt_is_Some_2 ids i ltac:(lia)) as [v Hv]. rewrite Hv. apply Z.compare_gt_iff. eapply Hh; [|done]. lia.
  - exists r. split; [done|]. unfold c in Hr. destruct r as [i|p]; cbn in Hr.
    + destruct Hr as [Hi He]. destruct (lookup_lt_is_Some_2 ids i Hi) as [v Hv]. rewrite Hv in He |- *. cbn in He. by apply Z.compare_eq_iff in He as ->.
    + destruct Hr as (Hp & H1 & H2). intros [i Hi]%list_elem_of_lookup. pose proof (lookup_lt_Some _ _ _ Hi).
      destruct (decide (i < p)) as [H'|H']; [specialize (H1 i H')|specialize (H2 i ltac:(lia))]; rewrite Hi in *; cbn in *; rewrite Z.compare_refl in *; done.
Qed.
End Bracket.

(** ** Tables of one dictionary *)

(** The table of ascending ids into a sorted dictionary. *)
Record shared_table (words : list (list Z)) (ids : list Z) (t : SharedTerms) : Prop := {
  sh_sorted : bsorted words;
  sh_texts : strings_ok words;
  sh_size : (Z.of_nat (length words) < U32)%Z;
  sh_ids : ids_ok words ids;
  sh_some : ids <> [];
  sh_dictionary : s_dictionary t = {| d_text := concat words; d_starts := starts_of words |};
  sh_bits : s_bits t <= 64;
  sh_fits : Forall (fits (s_bits t)) ids;
  sh_packed : s_ids t = pack ids (s_bits t);
  sh_len : f_len (s_frequencies t) = length ids
}.

Section Table.
Context (words : list (list Z)) (ids : list Z) (t : SharedTerms) (H : shared_table words ids t).

Lemma id_at_ok i v : ids !! i = Some v -> id_at t i = Ok v.
Proof. intros Hi. destruct H. unfold id_at. rewrite sh_packed0, <- (app_nil_r (pack _ _)). apply (unpack_pack (s_bits t) ids); [done|done|constructor|done]. Qed.

(** The word of every id. *)
Definition names : list (list Z) := map (fun i => default [] (words !! Z.to_nat i)) ids.

Lemma d_find_ok key : d_find (s_dictionary t) key = Ok (Z.of_nat <$> position_of words key).
Proof.
  destruct H. unfold d_find. rewrite sh_dictionary0. unfold d_len. cbn [d_starts]. rewrite starts_of_length.
  destruct (search_position words key (fun i => let* w := d_term {| d_text := concat words; d_starts := starts_of words |} i in Ok (bcmp w key)) sh_sorted0) as (r & -> & Hr).
  - intros i k Hk. unfold d_term. cbn [d_text d_starts]. by rewrite (text_entry_spec words i k sh_texts0 Hk).
  - cbn [obind]. destruct r as [i|p]; [|by destruct Hr as (_ & -> & _)]. destruct Hr as [Hi ->]. apply lookup_lt_Some in Hi. by rewrite (proj2 (Z.ltb_lt _ _)) by lia.
Qed.

(** The place of a word among the names is the place of its id. *)
Lemma name_position key : match position_of words key with
  | Some w => forall i, ids !! i = Some (Z.of_nat w) <-> names !! i = Some key
  | None => key ∉ names end.
Proof.
  destruct H. destruct sh_ids0 as [_ Hb]. assert (Hname : forall i k, names !! i = Some k <-> exists v, ids !! i = Some v /\ words !! Z.to_nat v = Some k).
  { intros i k. unfold names. change (map (fun j => default [] (words !! Z.to_nat j)) ids) with ((fun j => default [] (words !! Z.to_nat j)) <$> ids). rewrite list_lookup_fmap. destruct (ids !! i) as [v|] eqn:Ev; cbn; [|naive_solver].
    pose proof (Forall_lookup_1 _ _ _ _ Hb Ev) as Hv. cbn in Hv. destruct (lookup_lt_is_Some_2 words (Z.to_nat v) ltac:(lia)) as [w Hw]. rewrite Hw. cbn. split; [intros [= <-]; eauto|]. intros (v' & [= <-] & Hv'). congruence. }
  destruct (position_of words key) as [w|] eqn:E.
  - apply position_of_Some in E; [|by apply bsorted_NoDup]. intros i. rewrite Hname. split.
    + intros Hi. exists (Z.of_nat w). split; [done|]. by rewrite Nat2Z.id.
    + intros (v & Hv & Hk). pose proof (Forall_lookup_1 _ _ _ _ Hb Hv) as Hvb. cbn in Hvb. rewrite Hv. f_equal. pose proof (NoDup_lookup _ _ _ _ (bsorted_NoDup _ sh_sorted0) E Hk). lia.
  - apply position_of_None in E. intros [i Hi]%list_elem_of_lookup. apply Hname in Hi as (v & _ & Hv). apply E. by eapply list_elem_of_lookup_2.
Qed.

Lemma bracket_ok id : exists r, bracket t id = Ok r /\ match r with Some (low, high) => bracketed ids id low high | None => id ∉ ids end.
Proof.
  pose proof H as [_ _ _ [Hs Hb] Hne _ _ _ _ Hlen]. unfold bracket. rewrite Hlen. assert (Hn : 0 < length ids) by (destruct (decide (length ids = 0)) as [E%length_zero_iff_nil|]; [done|lia]).
  destruct (lookup_lt_is_Some_2 ids 0 Hn) as [first Hf]. rewrite (id_at_ok 0 first Hf). cbn [obind]. rewrite (proj2 (Nat.eqb_neq (length ids) 0)) by lia.
  destruct (lookup_lt_is_Some_2 ids (length ids - 1) ltac:(lia)) as [top Ht]. rewrite (id_at_ok _ top Ht). cbn [obind].
  assert (Hr : forall i v, ids !! i = Some v -> (first <= v <= top)%Z).
  { intros i v Hv. pose proof (lookup_lt_Some _ _ _ Hv). split; [by eapply (ids_ascend_le ids Hs 0 i); [lia|..]|by eapply (ids_ascend_le ids Hs i (length ids - 1)); [lia|..]]. }
  destruct (Z.ltb_spec id first) as [H1|H1]; cbn [orb]; [eexists; split; [done|]; cbn; intros [i Hi]%list_elem_of_lookup; specialize (Hr i id Hi); lia|].
  destruct (Z.ltb_spec top id) as [H2|H2]; [eexists; split; [done|]; cbn; intros [i Hi]%list_elem_of_lookup; specialize (Hr i id Hi); lia|].
  set (guess := if (top =? first)%Z then 0 else Z.to_nat ((id - first) * Z.of_nat (length ids - 1) / (top - first))).
  assert (Hg : guess < length ids).
  { unfold guess. destruct (Z.eqb_spec top first); [done|]. pose proof (Z.div_le_upper_bound ((id - first) * Z.of_nat (length ids - 1)) (top - first) (Z.of_nat (length ids - 1)) ltac:(lia) ltac:(nia)). lia. }
  destruct (lookup_lt_is_Some_2 ids guess Hg) as [v Hv]. rewrite (id_at_ok _ v Hv). cbn [obind]. destruct (Z.eqb_spec v id) as [->|Hvi].
  - eexists. split; [done|]. cbn. split_and!; [lia|lia|intros i w Hi Hw; by eapply (ids_ascend ids Hs i guess)|intros i w Hi Hw; eapply (ids_ascend ids Hs guess i); [lia|done..]].
  - destruct (Z.ltb_spec v id) as [Hlt|Hge].
    + destruct (widen_up_ok (id_at t) ids id_at_ok Hs id (length ids) guess (guess + 1) 1) as (lo & hi & -> & Hlh); [lia..| |by eexists].
      intros i w Hi Hw. pose proof (ids_ascend_le ids Hs i guess w v ltac:(lia) Hw Hv). lia.
    + destruct (widen_down_ok (id_at t) ids id_at_ok Hs id (length ids) guess guess 1) as (lo & hi & -> & Hlh); [lia..| |by eexists].
      intros i w Hi Hw. pose proof (ids_ascend_le ids Hs guess i v w ltac:(lia) Hv Hw). lia.
Qed.
End Table.

(** ** Every lookup *)

(** What a cache may hold of a word: its id in the dictionary it names. *)
Definition cache_ok (dictionaries : gmap nat (list (list Z))) (key : list Z) (cache : WordId) : Prop :=
  match wi_dictionary cache with
  | Some (arc, id) => exists words, dictionaries !! arc = Some words /\ id = Z.of_nat <$> position_of words key
  | None => True
  end.

Lemma s_index_cached_ok dictionaries words ids arc t key cache :
  dictionaries !! arc = Some words -> shared_table words ids t -> cache_ok dictionaries key cache ->
  exists cache', s_index_cached arc t key cache = Ok (position_of (names words ids) key, cache') /\ cache_ok dictionaries key cache'.
Proof.
  intros Ha Ht Hc.
  assert (Hid : exists cache', match wi_dictionary cache with
      | Some (arc', id) => if arc' =? arc then Ok (id, cache) else let* id := d_find (s_dictionary t) key in Ok (id, {| wi_dictionary := Some (arc, id) |})
      | None => let* id := d_find (s_dictionary t) key in Ok (id, {| wi_dictionary := Some (arc, id) |}) end = Ok (Z.of_nat <$> position_of words key, cache') /\ cache_ok dictionaries key cache').
  { assert (Hnew : cache_ok dictionaries key {| wi_dictionary := Some (arc, Z.of_nat <$> position_of words key) |}) by (exists words; done).
    rewrite (d_find_ok words ids t Ht). cbn [obind]. destruct (wi_dictionary cache) as [[arc' id]|] eqn:E; [|by eexists]. destruct (Nat.eqb_spec arc' arc) as [->|]; [|by eexists].
    exists cache. split; [|done]. unfold cache_ok in Hc. rewrite E in Hc. destruct Hc as (words' & Hw & ->). by simplify_eq. }
  destruct Hid as (cache' & E & Hc'). unfold s_index_cached. rewrite E. cbn [obind]. exists cache'. split; [|done].
  pose proof (name_position words ids t Ht key) as Hn. destruct (position_of words key) as [w|]; cbn [fmap option_fmap option_map]; [|by rewrite (proj2 (position_of_None _ _) Hn)].
  assert (Hnone : Z.of_nat w ∉ ids -> position_of (names words ids) key = None).
  { intros Hw. apply position_of_None. intros [i Hi]%list_elem_of_lookup. apply Hw. eapply list_elem_of_lookup_2, Hn, Hi. }
  destruct (bracket_ok words ids t Ht (Z.of_nat w)) as ([[low high]|] & -> & Hb); cbn [obind]; [|by rewrite Hnone].
  destruct (bracketed_search (id_at t) ids (id_at_ok words ids t Ht) (proj1 (sh_ids _ _ _ Ht)) (Z.of_nat w) low high Hb) as ([i|p] & -> & Hr); cbn [obind]; [|by rewrite Hnone].
  rewrite (proj2 (position_of_Some (names words ids) key i ltac:(apply bsorted_NoDup, ids_ok_sorted; apply Ht))); [done|by apply Hn].
Qed.

(** A chunk's table: any layout of its own, or ids into the dictionary of an allocation. *)
Definition table_of (dictionaries : gmap nat (list (list Z))) (x : nat * StoredTerms) : Prop :=
  match t_terms x.2 with
  | Some (Shared _) =>
      exists words ids frequencies t, dictionaries !! x.1 = Some words /\ ids_ok words ids /\ length ids = length frequencies /\ Forall is_u32 frequencies /\
        from_dictionary {| d_text := concat words; d_starts := starts_of words |} ids frequencies = Ok t /\ t_terms t = t_terms x.2
  | _ => True
  end.

Lemma from_dictionary_shared words ids frequencies t s :
  bsorted words -> strings_ok words -> (Z.of_nat (length words) < U32)%Z -> ids_ok words ids -> length ids = length frequencies -> Forall is_u32 frequencies ->
  from_dictionary {| d_text := concat words; d_starts := starts_of words |} ids frequencies = Ok t -> t_terms t = Some (Shared s) -> shared_table words ids s.
Proof.
  intros Hw Hu Hn [Hs Hb] Hl Hf E Es. unfold from_dictionary in E. rewrite Hl, Nat.eqb_refl in E. destruct (last ids) as [top|] eqn:Ht; injection E as <-; [|done]. injection Es as <-.
  assert (Hne : ids <> []) by (by intros ->). pose proof (last_Some_elem_of _ _ Ht) as Hin. rewrite Forall_forall in Hb. pose proof (Hb top Hin) as Htop. cbn in Htop.
  split; cbn; [done|done|done|split; [done|by apply Forall_forall]|done|done| | |done|].
  - transitivity 32; [|lia]. apply bit_length_le. change (pw 32) with U32. lia.
  - apply Forall_forall. intros v Hv. pose proof (last_max ids top v Hs Ht Hv). pose proof (Hb v Hv). pose proof (bit_length_fits top ltac:(lia)). unfold fits in *. cbn in *. lia.
  - unfold f_len. by rewrite frequencies_from_list.
Qed.

(** C18: a cached id changes no answer.  Whatever chunks a word is looked up in, one after another
    with one cache, in tables of any layout and of any number of shared dictionaries, the
    interpolated search by the cached id finds, without a panic of its own, the index the search by
    strings finds in every chunk. *)
Theorem cached_lookups_exact dictionaries key ts :
  map_Forall (fun _ words => bsorted words /\ strings_ok words /\ (Z.of_nat (length words) < U32)%Z) dictionaries ->
  Forall (table_of dictionaries) ts ->
  cached_lookups key ts word_id_default = omap_list (fun x => t_index x.2 key) ts.
Proof.
  intros Hd Hts. assert (Hc : cache_ok dictionaries key word_id_default) by done. revert Hc. generalize word_id_default as cache.
  induction Hts as [|[arc t] ts Ht _ IH]; intros cache Hc; [done|]. cbn [cached_lookups omap_list snd]. unfold index_cached. unfold table_of in Ht. cbn [fst snd] in Ht.
  destruct (t_terms t) as [[k|s|m]|] eqn:E; [destruct (t_index t key); cbn [obind]; [by rewrite (IH cache Hc)|done..]| |destruct (t_index t key); cbn [obind]; [by rewrite (IH cache Hc)|done..]..].
  destruct Ht as (words & ids & freqs & t' & Ha & Hids & Hl & Hf & Ed & Et). destruct (Hd _ _ Ha) as (Hw & Hu & Hn). pose proof (from_dictionary_shared words ids freqs t' s Hw Hu Hn Hids Hl Hf Ed Et) as Hs.
  destruct (s_index_cached_ok dictionaries words ids arc s key cache Ha Hs Hc) as (cache' & -> & Hc'). cbn [obind]. rewrite (IH cache' Hc').
  destruct (from_dictionary_repr words ids freqs _ eq_refl Hu Hids Hn Hl Hf) as (t'' & E2 & _ & Hr). rewrite Ed in E2. injection E2 as <-. rewrite Et, <- E in Hr.
  erewrite t_index_repr; [|exact Hr|rewrite fst_zip by (rewrite length_map; lia); by apply ids_ok_sorted]. cbn [obind]. rewrite fst_zip by (rewrite length_map; lia). done.
Qed.

(** ** Two chunks of one dictionary and one of another *)

Definition toy_words : list (list Z) := map (fun b => [b]) (map Z.of_nat (seq 97 12)).
Definition toy_table (words : list (list Z)) (ids : list Z) : StoredTerms :=
  match from_dictionary {| d_text := concat words; d_starts := starts_of words |} ids (map (fun _ => 1%Z) ids) with Ok t => t | _ => terms_default end.
Definition toy_tables : list (nat * StoredTerms) := [(1, toy_table toy_words [0; 1; 2; 3; 10; 11]%Z); (1, toy_table toy_words [4; 9]%Z); (2, toy_table (drop 3 toy_words) [0; 1; 7]%Z); (0, terms_default)].

Lemma cached_lookups_exact_witness : cached_lookups [107]%Z toy_tables word_id_default = Ok [Some 4; None; Some 2; None].
Proof.
  rewrite (cached_lookups_exact {[1 := toy_words; 2 := drop 3 toy_words]} [107]%Z toy_tables).
  - vm_compute. reflexivity.
  - apply map_Forall_insert_2; [split_and!; [by_decide|by_decide|reflexivity]|]. apply map_Forall_singleton. split_and!; [by_decide|by_decide|reflexivity].
  - repeat constructor; cbn [fst snd].
    + exists toy_words, [0; 1; 2; 3; 10; 11]%Z, [1; 1; 1; 1; 1; 1]%Z. eexists. split_and!; [reflexivity|split; by_decide|reflexivity|by_decide|reflexivity|reflexivity].
    + exists toy_words, [4; 9]%Z, [1; 1]%Z. eexists. split_and!; [reflexivity|split; by_decide|reflexivity|by_decide|reflexivity|reflexivity].
    + exists (drop 3 toy_words), [0; 1; 7]%Z, [1; 1; 1]%Z. eexists. split_and!; [reflexivity|split; by_decide|reflexivity|by_decide|reflexivity|reflexivity].
Defined.
