(* ===== verification/Batch.v ===== *)
(** * Batches of documents

    [validate_inputs_with] of [src/core/engine/document_batch.rs] and the documents
    [prepare_batch] of [src/core/engine/document_api.rs] makes of a batch: inputs are measured in
    parallel up to the one whose bytes pass the budget, the budgets are then charged in order, and
    each input is prepared with the spans it was measured with.  What is accepted is exactly what is
    within every limit, and the documents are those of one input after another. *)

From S2P Require Import Prelude Words BitPack Search Positions Terms FrameDict TextSegment Binary Share TermDict Postings Cursor PostingEdit PostingRuns CheckpointLists Lists Indexing Bulk IndexRuns Filters SlotTable Store Overlay Capacity StoreSpec StoreEdits StoreRuns StoreHistory Chars Interner Analysis Chunking Ingest.

(** [MAX_BATCH_ITEMS] of [documents.rs]. *)
Definition MAX_ITEMS : Z := 4096.
Definition MAX_EMBEDDING_VALUES : Z := 1048576.

(** ** Sizes *)

(** [SizeLimit]: a sink that counts bytes and fails past its limit. *)
Record SizeLimit := mkSink { sl_bytes : Z; sl_limit : Z }.

Definition sink_write (s : SizeLimit) (bytes : list Z) : outcome SizeLimit :=
  match checked_add USIZE (sl_bytes s) (Z.of_nat (length bytes)) with
  | Some next => if (next <=? sl_limit s)%Z then Ok {| sl_bytes := next; sl_limit := sl_limit s |} else Err "document batch size limit exceeded"
  | None => Err "document batch size limit exceeded"
  end.

Fixpoint write_all (s : SizeLimit) (writes : list (list Z)) : outcome SizeLimit :=
  match writes with [] => Ok s | bytes :: writes => let* s := sink_write s bytes in write_all s writes end.

(** [serialized_size] of a value that is written in these pieces. *)
Definition serialized_size (writes : list (list Z)) (limit : Z) : outcome Z :=
  let* s := write_all {| sl_bytes := 0; sl_limit := limit |} writes in Ok (sl_bytes s).

Definition add_size (total size limit : Z) (message : string) : outcome Z :=
  match checked_add USIZE total size with
  | Some n => if (n <=? limit)%Z then Ok n else Err message
  | None => Err message
  end.

Fixpoint add_sizes (total : Z) (sizes : list Z) (limit : Z) (message : string) : outcome Z :=
  match sizes with [] => Ok total | size :: sizes => let* total := add_size total size limit message in add_sizes total sizes limit message end.

Section Batch.
Context {V : Type} {F : Vectors} {A : Analyzer}.
(** The pieces [serde_json::to_writer] writes of a value. *)
Context (json_writes : V -> list (list Z)).
Abbreviation Input := (DocumentInput (V := V)).

Definition source_sizes (input : Input) : list Z :=
  [Z.of_nat (length (di_id input)); Z.of_nat (length (di_text input)); match di_source_uri input with Some s => Z.of_nat (length s) | None => 0%Z end;
   match di_version input with Some s => Z.of_nat (length s) | None => 0%Z end].

(** Whether the sizes of an input take the running total past the budget. *)
Fixpoint any_over (total : Z) (sizes : list Z) : bool * Z :=
  match sizes with
  | [] => (false, total)
  | size :: sizes =>
      let total := saturating_add USIZE total size in
      if (MAX_DOCUMENT_BYTES <? total)%Z then (true, total) else any_over total sizes
  end.

(** [measured_len]: up to the first input over the budget. *)
Fixpoint measured_len (total : Z) (inputs : list Input) : nat :=
  match inputs with
  | [] => 0
  | input :: inputs => let '(over, total) := any_over total (source_sizes input) in if over then 1 else S (measured_len total inputs)
  end.

(** The serialized size of the metadata, if there is any, and the spans; a measure that fails is
    kept as a value. *)
Definition Measured : Type := option (outcome Z) * outcome (list (Z * Z)).

Definition measure (options : IngestOptions) (input : Input) : outcome Measured :=
  match chunk_spans_with input options with
  | Panic => Panic
  | spans => Ok ((fun metadata => serialized_size (json_writes metadata) MAX_DOCUMENT_BYTES) <$> di_metadata input, spans)
  end.

Record Budgets := mkBudgets { bg_ids : gset (list Z); bg_source : Z; bg_metadata : Z; bg_embedding : Z; bg_chunks : Z; bg_spans : list (list (Z * Z)) }.

Definition no_budget : Budgets := {| bg_ids := ∅; bg_source := 0; bg_metadata := 0; bg_embedding := 0; bg_chunks := 0; bg_spans := [] |}.

(** The embedding values of an input: those it brings, or one vector per chunk. *)
Definition charge_embeddings (total : Z) (input : Input) (chunk_count : nat) (inferred_dimensions : option Z) : outcome Z :=
  match di_embeddings input, inferred_dimensions with
  | Some embeddings, _ => add_sizes total (map (fun e => Z.of_nat (length e)) embeddings) MAX_EMBEDDING_VALUES "document batch exceeds 1048576 embedding values"
  | None, Some dimensions =>
      match checked_mul USIZE (Z.of_nat chunk_count) dimensions with
      | None => Err "document batch embedding allocation overflow"
      | Some values => add_size total values MAX_EMBEDDING_VALUES "document batch exceeds 1048576 embedding values"
      end
  | None, None => Ok total
  end.

(** One round of the loop over the measured inputs. *)
Definition charge (inferred_dimensions : option Z) (b : Budgets) (input : Input) (measured : Measured) : outcome Budgets :=
  ensure (negb (bool_decide (di_id input ∈ bg_ids b))) else "document batch IDs must be unique" ;
  let* source := add_sizes (bg_source b) (source_sizes input) MAX_DOCUMENT_BYTES "document batch source exceeds 8 MiB" in
  let* metadata := match measured.1 with
                   | Some size => let* size := size in add_size (bg_metadata b) size MAX_DOCUMENT_BYTES "document batch metadata exceeds 8 MiB"
                   | None => Ok (bg_metadata b)
                   end in
  let* spans := measured.2 in
  let* embedding := charge_embeddings (bg_embedding b) input (length spans) inferred_dimensions in
  let* chunks := add_size (bg_chunks b) (Z.of_nat (length spans)) MAX_ITEMS "document batch exceeds 4096 chunks" in
  Ok {| bg_ids := {[di_id input]} ∪ bg_ids b; bg_source := source; bg_metadata := metadata; bg_embedding := embedding; bg_chunks := chunks;
        bg_spans := bg_spans b ++ [spans] |}.

Fixpoint charge_all (inferred_dimensions : option Z) (b : Budgets) (inputs : list (Input * Measured)) : outcome Budgets :=
  match inputs with [] => Ok b | (input, m) :: inputs => let* b := charge inferred_dimensions b input m in charge_all inferred_dimensions b inputs end.

Definition validate_inputs_with (inputs : list Input) (inferred_dimensions : option Z) (options : IngestOptions) : outcome (list (list (Z * Z))) :=
  ensure (negb (Nat.eqb (length inputs) 0)) else "document batch requires 1..=4096 items" ;
  ensure (Z.of_nat (length inputs) <=? MAX_ITEMS)%Z else "document batch requires 1..=4096 items" ;
  let* measured := omap_list (measure options) (take (measured_len 0 inputs) inputs) in
  let* b := charge_all inferred_dimensions no_budget (zip inputs measured) in
  Ok (bg_spans b).

(** The documents [prepare_batch] makes of a batch, on workers whose interners are [memo]. *)
Section Prepare.
Context (is_object : V -> bool) (empty_object : V) (json_len : option V -> Z).
Context (dimensions : Z) (embedding_dimensions : option Z) (encoder : TextEncoder) (options : IngestOptions).

Fixpoint prepare_inputs (memo : nat -> Interner) (k : nat) (inputs : list (Input * list (Z * Z))) : outcome (list (StoredDocument V)) :=
  match inputs with
  | [] => Ok []
  | (input, spans) :: inputs =>
      let* (_, d) := prepare_spans is_object empty_object json_len input dimensions embedding_dimensions None encoder options (memo k) spans in
      let* ds := prepare_inputs memo (S k) inputs in
      Ok (d :: ds)
  end.

Definition prepare_documents (memo : nat -> Interner) (inputs : list Input) (inferred_dimensions : option Z) : outcome (list (StoredDocument V)) :=
  let* spans := validate_inputs_with inputs inferred_dimensions options in
  prepare_inputs memo 0 (zip inputs spans).
End Prepare.
End Batch.

(** ** Budgets *)

Abbreviation sum := (foldr Z.add 0%Z).

Lemma sum_app l k : sum (l ++ k) = (sum l + sum k)%Z.
Proof. induction l as [|x l IH]; cbn [app foldr]; [lia|]. rewrite IH. lia. Qed.

Lemma sum_nonneg l : Forall (Z.le 0) l -> (0 <= sum l)%Z.
Proof. induction 1; cbn [foldr]; lia. Qed.

Lemma add_size_ok total size limit message :
  (0 <= limit < USIZE)%Z -> add_size total size limit message = if (total + size <=? limit)%Z then Ok (total + size)%Z else Err message.
Proof. intros Hl. unfold add_size, checked_add. destruct (Z.ltb_spec (total + size) USIZE); [done|]. by rewrite (proj2 (Z.leb_gt _ _)) by lia. Qed.

Lemma add_sizes_ok total sizes limit message :
  (0 <= limit < USIZE)%Z -> (total <= limit)%Z -> Forall (Z.le 0) sizes -> add_sizes total sizes limit message = if (total + sum sizes <=? limit)%Z then Ok (total + sum sizes)%Z else Err message.
Proof.
  intros Hl Ht Hs. revert total Ht. induction Hs as [|x l Hx Hs IH]; intros total Ht; cbn [add_sizes foldr]; [rewrite Z.add_0_r, (proj2 (Z.leb_le _ _)) by lia; done|].
  rewrite add_size_ok by done. destruct (Z.leb_spec (total + x) limit); cbn [obind].
  - rewrite IH by done. by rewrite Z.add_assoc.
  - pose proof (sum_nonneg l Hs). by rewrite (proj2 (Z.leb_gt _ _)) by lia.
Qed.

Lemma serialized_size_ok writes limit :
  (0 <= limit < USIZE)%Z ->
  serialized_size writes limit = if (Z.of_nat (length (concat writes)) <=? limit)%Z then Ok (Z.of_nat (length (concat writes))) else Err "document batch size limit exceeded".
Proof.
  intros Hl. unfold serialized_size. assert (G : forall s, sl_limit s = limit -> (sl_bytes s <= limit)%Z ->
    write_all s writes = if (sl_bytes s + Z.of_nat (length (concat writes)) <=? limit)%Z then Ok {| sl_bytes := sl_bytes s + Z.of_nat (length (concat writes)); sl_limit := limit |} else Err "document batch size limit exceeded").
  { induction writes as [|w ws IH]; intros [b l] El Hb; cbn in El, Hb; subst l; cbn [write_all concat length sl_bytes]; [rewrite Z.add_0_r, (proj2 (Z.leb_le _ _)) by lia; done|].
    unfold sink_write, checked_add. cbn [sl_bytes sl_limit]. rewrite length_app, Nat2Z.inj_add. destruct (Z.ltb_spec (b + Z.of_nat (length w)) USIZE); [|by rewrite (proj2 (Z.leb_gt _ _)) by lia].
    destruct (Z.leb_spec (b + Z.of_nat (length w)) limit); cbn [obind]; [|by rewrite (proj2 (Z.leb_gt _ _)) by lia]. rewrite IH by done. cbn [sl_bytes]. by rewrite Z.add_assoc. }
  rewrite G by (cbn; lia). cbn [sl_bytes]. rewrite Z.add_0_l. by destruct (_ <=? _)%Z.
Qed.

(** ** What is within the limits *)

Section Limits.
Context {V : Type} {F : Vectors} {A : Analyzer}.
Context (json_writes : V -> list (list Z)) (inferred_dimensions : option Z) (options : IngestOptions).
Context (Hdim : forall d, inferred_dimensions = Some d -> (0 <= d)%Z).
Abbreviation Input := (DocumentInput (V := V)).

Definition source_bytes (input : Input) : Z := sum (source_sizes input).
Definition metadata_bytes (input : Input) : Z := match di_metadata input with Some v => Z.of_nat (length (concat (json_writes v))) | None => 0%Z end.
Definition embedding_values (input : Input) (spans : list (Z * Z)) : Z :=
  match di_embeddings input, inferred_dimensions with
  | Some es, _ => sum (map (fun e => Z.of_nat (length e)) es)
  | None, Some d => (Z.of_nat (length spans) * d)%Z
  | None, None => 0%Z
  end.

(** The inputs a budget has room for, with their spans. *)
Record accepted_from (b : Budgets) (inputs : list Input) (spans : list (list (Z * Z))) : Prop := {
  ac_spans : Forall2 (fun input s => chunk_spans_with input options = Ok s) inputs spans;
  ac_ids : NoDup (map di_id inputs);
  ac_new : Forall (fun input => di_id input ∉ bg_ids b) inputs;
  ac_source : (bg_source b + sum (map source_bytes inputs) <= MAX_DOCUMENT_BYTES)%Z;
  ac_metadata : (bg_metadata b + sum (map metadata_bytes inputs) <= MAX_DOCUMENT_BYTES)%Z;
  ac_embedding : (bg_embedding b + sum (zip_with embedding_values inputs spans) <= MAX_EMBEDDING_VALUES)%Z;
  ac_chunks : (bg_chunks b + Z.of_nat (length (concat spans)) <= MAX_ITEMS)%Z
}.

(** A batch within every limit. *)
Definition accepted (inputs : list Input) (spans : list (list (Z * Z))) : Prop :=
  (1 <= Z.of_nat (length inputs) <= MAX_ITEMS)%Z /\ accepted_from no_budget inputs spans.

(** The budgets after an input. *)
Definition charged (b : Budgets) (input : Input) (spans : list (Z * Z)) : Budgets :=
  {| bg_ids := {[di_id input]} ∪ bg_ids b; bg_source := bg_source b + source_bytes input; bg_metadata := bg_metadata b + metadata_bytes input;
     bg_embedding := bg_embedding b + embedding_values input spans; bg_chunks := bg_chunks b + Z.of_nat (length spans); bg_spans := bg_spans b ++ [spans] |}.

Ltac budgets := cbn [charged bg_ids bg_source bg_metadata bg_embedding bg_chunks] in *.

Definition within (b : Budgets) : Prop :=
  (bg_source b <= MAX_DOCUMENT_BYTES)%Z /\ (bg_metadata b <= MAX_DOCUMENT_BYTES)%Z /\ (bg_embedding b <= MAX_EMBEDDING_VALUES)%Z /\ (bg_chunks b <= MAX_ITEMS)%Z.

Lemma source_bytes_nonneg input : Forall (Z.le 0) (source_sizes input) /\ (0 <= source_bytes input)%Z.
Proof using.
  assert (H : Forall (Z.le 0) (source_sizes input)) by (unfold source_sizes; destruct (di_source_uri input), (di_version input); repeat constructor; lia). split; [done|by apply sum_nonneg].
Qed.

Lemma metadata_bytes_nonneg input : (0 <= metadata_bytes input)%Z.
Proof using. unfold metadata_bytes. destruct (di_metadata input); lia. Qed.

Lemma embedding_values_nonneg input spans : (0 <= embedding_values input spans)%Z.
Proof using Hdim.
  unfold embedding_values. destruct (di_embeddings input) as [es|]; [apply sum_nonneg, Forall_map, Forall_forall; intros; cbn; lia|].
  destruct inferred_dimensions as [d|] eqn:E; [|done]. specialize (Hdim d eq_refl). nia.
Qed.

Lemma accepted_sums inputs spans :
  (0 <= sum (map source_bytes inputs))%Z /\ (0 <= sum (map metadata_bytes inputs))%Z /\ (0 <= sum (zip_with embedding_values inputs spans))%Z.
Proof using Hdim.
  split_and!; apply sum_nonneg.
  - apply Forall_map, Forall_forall. intros input _. apply source_bytes_nonneg.
  - apply Forall_map, Forall_forall. intros input _. apply metadata_bytes_nonneg.
  - apply Forall_forall. intros z (i & Hz)%list_elem_of_lookup. apply lookup_zip_with_Some in Hz as (x & y & -> & _ & _). apply embedding_values_nonneg.
Qed.

(** The first input of a batch, then the rest. *)
Lemma accepted_cons b input inputs s spans :
  accepted_from b (input :: inputs) (s :: spans) <->
  chunk_spans_with input options = Ok s /\ (di_id input ∉ bg_ids b) /\ within (charged b input s) /\ accepted_from (charged b input s) inputs spans.
Proof using Hdim.
  pose proof (accepted_sums inputs spans) as (H1 & H2 & H3). split.
  - intros []. apply Forall2_cons in ac_spans0 as [? ?]. apply NoDup_cons in ac_ids0 as [Hid ?]. apply Forall_cons in ac_new0 as [? Hnew]. cbn [map foldr zip_with concat] in *. rewrite length_app in ac_chunks0.
    split; [done|]. split; [done|]. split; [unfold within; cbn [charged bg_source bg_metadata bg_embedding bg_chunks]; lia|]. split; cbn [charged bg_ids bg_source bg_metadata bg_embedding bg_chunks]; [done|done| |lia..].
    apply Forall_forall. intros x Hx. rewrite Forall_forall in Hnew. specialize (Hnew x Hx). apply not_elem_of_union. split; [|done]. apply not_elem_of_singleton. intros Heq. apply Hid. rewrite <- Heq. by apply list_elem_of_fmap_2.
  - intros (Es & Hid & Hw & []). cbn [charged bg_ids bg_source bg_metadata bg_embedding bg_chunks] in *. rewrite Forall_forall in ac_new0. split; cbn [map foldr zip_with concat]; [by constructor| | |lia|lia|lia|rewrite length_app; lia].
    + constructor; [|done]. intros (x & Hx & Hin)%list_elem_of_fmap. specialize (ac_new0 x Hin). set_solver.
    + constructor; [done|]. apply Forall_forall. intros x Hx. specialize (ac_new0 x Hx). set_solver.
Qed.

(** ** Charging *)

Lemma max_bytes : (0 <= MAX_DOCUMENT_BYTES < USIZE)%Z /\ (0 <= MAX_EMBEDDING_VALUES < USIZE)%Z /\ (0 <= MAX_ITEMS < USIZE)%Z.
Proof using. done. Qed.

Lemma charge_embeddings_ok total input n :
  (0 <= total <= MAX_EMBEDDING_VALUES)%Z ->
  forall spans : list (Z * Z), length spans = n ->
  match charge_embeddings total input n inferred_dimensions with
  | Ok v => v = (total + embedding_values input spans)%Z /\ (v <= MAX_EMBEDDING_VALUES)%Z
  | Err _ => ~ (total + embedding_values input spans <= MAX_EMBEDDING_VALUES)%Z
  | Panic => False
  end.
Proof using Hdim.
  intros Ht spans Hn. unfold charge_embeddings, embedding_values. pose proof max_bytes as (_ & Hm & _). destruct (di_embeddings input) as [es|].
  - rewrite add_sizes_ok by (try done; try lia; apply Forall_map, Forall_forall; intros; cbn; lia). destruct (Z.leb_spec (total + sum (map (fun e : list float => Z.of_nat (length e)) es)) MAX_EMBEDDING_VALUES); [done|lia].
  - destruct inferred_dimensions as [d|] eqn:E; [|split; [lia|lia]]. rewrite Hn. unfold checked_mul. destruct (Z.ltb_spec (Z.of_nat n * d) USIZE); [|lia].
    rewrite add_size_ok by done. destruct (Z.leb_spec (total + Z.of_nat n * d) MAX_EMBEDDING_VALUES); [done|lia].
Qed.

Definition nonneg (b : Budgets) : Prop := (0 <= bg_source b)%Z /\ (0 <= bg_metadata b)%Z /\ (0 <= bg_embedding b)%Z /\ (0 <= bg_chunks b)%Z.

Lemma charge_ok b input m :
  nonneg b -> within b -> measure json_writes options input = Ok m ->
  match charge inferred_dimensions b input m with
  | Ok b' => exists s, chunk_spans_with input options = Ok s /\ (di_id input ∉ bg_ids b) /\ b' = charged b input s /\ nonneg b' /\ within b'
  | Err _ => ~ exists s, chunk_spans_with input options = Ok s /\ (di_id input ∉ bg_ids b) /\ within (charged b input s)
  | Panic => False
  end.
Proof using Hdim.
  intros (N1 & N2 & N3 & N4) (W1 & W2 & W3 & W4) Em. pose proof max_bytes as (M1 & M2 & M3). pose proof (source_bytes_nonneg input) as [Hs Hs']. pose proof (metadata_bytes_nonneg input) as Hm.
  unfold measure in Em. unfold charge, within. destruct (decide (di_id input ∈ bg_ids b)) as [Hid|Hid]; [rewrite bool_decide_true by done; cbn [negb]; by intros (s & _ & Hn & _)|]. rewrite bool_decide_false by done. cbn [negb].
  rewrite add_sizes_ok by done. fold (source_bytes input). destruct (Z.leb_spec (bg_source b + source_bytes input) MAX_DOCUMENT_BYTES); cbn [obind]; [|intros (s & _ & _ & Hw & _); budgets; lia].
  assert (Hmeta : match (match m.1 with Some size => let* size := size in add_size (bg_metadata b) size MAX_DOCUMENT_BYTES "document batch metadata exceeds 8 MiB" | None => Ok (bg_metadata b) end) with
    | Ok v => v = (bg_metadata b + metadata_bytes input)%Z /\ (v <= MAX_DOCUMENT_BYTES)%Z | Err _ => ~ (bg_metadata b + metadata_bytes input <= MAX_DOCUMENT_BYTES)%Z | Panic => False end).
  { assert (E1 : m.1 = (fun v => serialized_size (json_writes v) MAX_DOCUMENT_BYTES) <$> di_metadata input) by (destruct (chunk_spans_with input options); by simplify_eq). rewrite E1. unfold metadata_bytes. destruct (di_metadata input) as [v|]; cbn; [|lia].
    rewrite serialized_size_ok by done. destruct (Z.leb_spec (Z.of_nat (length (concat (json_writes v)))) MAX_DOCUMENT_BYTES); cbn [obind]; [|lia]. rewrite add_size_ok by done.
    destruct (Z.leb_spec (bg_metadata b + Z.of_nat (length (concat (json_writes v)))) MAX_DOCUMENT_BYTES); [done|lia]. }
  destruct (match m.1 with Some size => _ | None => _ end) as [metadata|e|]; cbn [obind]; [|intros (s & _ & _ & _ & Hw & _); done|done]. destruct Hmeta as [-> Hmeta].
  assert (E2 : m.2 = chunk_spans_with input options) by (destruct (chunk_spans_with input options); by simplify_eq). rewrite E2. destruct (chunk_spans_with input options) as [spans|e|] eqn:Es; cbn [obind]; [|intros (s & [=] & _)|done].
  pose proof (charge_embeddings_ok (bg_embedding b) input (length spans) ltac:(lia) spans eq_refl) as He. pose proof (embedding_values_nonneg input spans) as Hv.
  destruct (charge_embeddings _ _ _ _) as [v|e|]; cbn [obind]; [|intros (s & [= <-] & _ & _ & _ & Hw & _); done|done]. destruct He as [-> He].
  rewrite add_size_ok by done. destruct (Z.leb_spec (bg_chunks b + Z.of_nat (length spans)) MAX_ITEMS); cbn [obind]; [|intros (s & [= <-] & _ & _ & _ & _ & Hw); budgets; lia].
  exists spans. unfold nonneg. budgets. split_and!; first [done|lia].
Qed.

(** Every input measured. *)
Definition measured_as (input : Input) (m : Measured) : Prop := measure json_writes options input = Ok m.

Lemma charge_all_ok b inputs ms :
  nonneg b -> within b -> Forall2 measured_as inputs ms ->
  match charge_all inferred_dimensions b (zip inputs ms) with
  | Ok b' => exists spans, accepted_from b inputs spans /\ bg_spans b' = bg_spans b ++ spans
  | Err _ => ~ exists spans, accepted_from b inputs spans
  | Panic => False
  end.
Proof using Hdim.
  intros Hn Hw Hm. revert b Hn Hw. induction Hm as [|input m inputs ms Hm _ IH]; intros b Hn Hw; cbn [zip zip_with charge_all].
  - exists []. rewrite app_nil_r. split; [|done]. destruct Hw as (W1 & W2 & W3 & W4). split; cbn [map foldr zip_with concat length]; [constructor..|lia|lia|lia|lia].
  - pose proof (charge_ok b input m Hn Hw Hm) as Hc. destruct (charge _ b input m) as [b'|e|]; cbn [obind]; [| |done].
    + destruct Hc as (s & Es & Hid & -> & Hn' & Hw'). specialize (IH _ Hn' Hw'). destruct (charge_all _ _ _) as [b'|e|]; [| |done].
      * destruct IH as (spans & Ha & Eb). exists (s :: spans). split; [by apply accepted_cons|]. rewrite Eb. cbn [charged bg_spans]. by rewrite <- app_assoc.
      * intros (spans & Ha). destruct spans as [|s' spans]; [destruct Ha as [Hf _ _ _ _ _ _]; inversion Hf|]. apply accepted_cons in Ha as (Es' & _ & _ & Ha). rewrite Es in Es'. injection Es' as <-. apply IH. by exists spans.
    + intros (spans & Ha). destruct spans as [|s' spans]; [destruct Ha as [Hf _ _ _ _ _ _]; inversion Hf|]. apply accepted_cons in Ha as (Es' & Hid & Hw' & _). apply Hc. by exists s'.
Qed.

(** ** Measuring a part *)

Lemma any_over_ok total sizes :
  (total <= MAX_DOCUMENT_BYTES)%Z -> Forall (Z.le 0) sizes ->
  (any_over total sizes).1 = (MAX_DOCUMENT_BYTES <? total + sum sizes)%Z /\ ((any_over total sizes).1 = false -> (any_over total sizes).2 = (total + sum sizes)%Z).
Proof using.
  intros Ht Hs. assert (Hm : (MAX_DOCUMENT_BYTES + 1 < USIZE)%Z) by done. revert total Ht. induction Hs as [|x l Hx Hs IH]; intros total Ht; cbn [any_over foldr]; [rewrite Z.add_0_r, (proj2 (Z.ltb_ge _ _)) by lia; done|].
  assert (E : (MAX_DOCUMENT_BYTES <? saturating_add USIZE total x)%Z = (MAX_DOCUMENT_BYTES <? total + x)%Z).
  { unfold saturating_add. destruct (Z.ltb_spec MAX_DOCUMENT_BYTES (total + x)); [rewrite (proj2 (Z.ltb_lt _ _)) by lia; done|]. rewrite (proj2 (Z.ltb_ge _ _)) by lia. done. }
  rewrite E. pose proof (sum_nonneg l Hs). destruct (Z.ltb_spec MAX_DOCUMENT_BYTES (total + x)); cbn [fst snd]; [rewrite (proj2 (Z.ltb_lt _ _)) by lia; done|].
  assert (Es : saturating_add USIZE total x = (total + x)%Z) by (unfold saturating_add; lia). rewrite Es. destruct (IH (total + x)%Z ltac:(lia)) as [H1 H2]. rewrite H1. split; [f_equal; lia|]. intros Hf. rewrite H1 in H2. rewrite H2 by done. lia.
Qed.

(** What is not measured comes after an input over the budget. *)
Lemma measured_len_ok total inputs :
  (total <= MAX_DOCUMENT_BYTES)%Z -> measured_len total inputs < length inputs -> (MAX_DOCUMENT_BYTES < total + sum (map source_bytes (take (measured_len total inputs) inputs)))%Z.
Proof using.
  revert total. induction inputs as [|input inputs IH]; intros total Ht Hl; cbn [measured_len length] in *; [lia|]. destruct (source_bytes_nonneg input) as [Hs _]. destruct (any_over_ok total (source_sizes input) Ht Hs) as [H1 H2].
  destruct (any_over total (source_sizes input)) as [over total']. cbn [fst snd] in *. fold (source_bytes input) in *. destruct over.
  - cbn [take firstn map foldr]. apply eq_sym, Z.ltb_lt in H1. rewrite take_0. cbn [map foldr]. lia.
  - cbn [take firstn map foldr]. apply eq_sym, Z.ltb_ge in H1. rewrite (H2 eq_refl) in Hl |- *. specialize (IH (total + source_bytes input)%Z H1 ltac:(lia)). lia.
Qed.

(** A part of what is accepted is accepted. *)
Lemma accepted_prefix b inputs inputs' spans : accepted_from b (inputs ++ inputs') spans -> exists spans', accepted_from b inputs spans'.
Proof using Hdim.
  revert b spans. induction inputs as [|input inputs IH]; intros b spans Ha.
  - exists []. destruct Ha as [_ _ _ H1 H2 H3 H4]. pose proof (accepted_sums inputs' spans) as (P1 & P2 & P3). cbn [app] in *. split; cbn [map foldr zip_with concat length]; [constructor..|lia|lia|lia|lia].
  - cbn [app] in Ha. destruct spans as [|s spans]; [destruct Ha as [Hf _ _ _ _ _ _]; inversion Hf|]. apply accepted_cons in Ha as (Es & Hid & Hw & Ha). destruct (IH _ _ Ha) as [spans' H]. exists (s :: spans'). by apply accepted_cons.
Qed.

Lemma charge_all_app b xs ys : charge_all (V := V) inferred_dimensions b (xs ++ ys) = let* b := charge_all inferred_dimensions b xs in charge_all inferred_dimensions b ys.
Proof using. revert b. induction xs as [|[input m] xs IH]; intros b; [done|]. cbn [app charge_all]. destruct (charge _ _ _ _); cbn [obind]; [apply IH|done|done]. Qed.

(** ** Serially *)

(** The reference: one input after another is measured and charged. *)
Fixpoint charge_serially (b : Budgets) (inputs : list Input) : outcome Budgets :=
  match inputs with
  | [] => Ok b
  | input :: inputs => let* m := measure json_writes options input in let* b := charge inferred_dimensions b input m in charge_serially b inputs
  end.

Definition validate_serially (inputs : list Input) : outcome (list (list (Z * Z))) :=
  ensure ((1 <=? Z.of_nat (length inputs)) && (Z.of_nat (length inputs) <=? MAX_ITEMS))%Z else "document batch requires 1..=4096 items" ;
  let* b := charge_serially no_budget inputs in Ok (bg_spans b).

Lemma charge_serially_ok b inputs ms : Forall2 measured_as inputs ms -> charge_serially b inputs = charge_all inferred_dimensions b (zip inputs ms).
Proof using.
  intros Hm. revert b. induction Hm as [|input m inputs ms Hm _ IH]; intros b; [done|]. cbn [charge_serially zip zip_with charge_all]. rewrite Hm. cbn [obind]. destruct (charge _ _ _ _); cbn [obind]; [apply IH|done|done].
Qed.

Lemma measure_all inputs : Forall (fun input => chunk_spans_with input options <> Panic) inputs -> exists ms, omap_list (measure json_writes options) inputs = Ok ms /\ Forall2 measured_as inputs ms.
Proof using.
  induction 1 as [|input inputs Hi _ (ms & E & Hm)]; [by exists []|]. cbn [omap_list]. assert (H : exists m, measure json_writes options input = Ok m) by (unfold measure; destruct (chunk_spans_with input options); [by eexists|by eexists|done]).
  destruct H as [m Em]. rewrite Em, E. cbn [obind]. eexists. split; [done|]. by constructor.
Qed.

Lemma validate_ok inputs :
  Forall (fun input => chunk_spans_with input options <> Panic) inputs ->
  validate_inputs_with json_writes inputs inferred_dimensions options = validate_serially inputs /\
  match validate_inputs_with json_writes inputs inferred_dimensions options with
  | Ok spans => accepted inputs spans
  | Err _ => ~ exists spans, accepted inputs spans
  | Panic => False
  end.
Proof using Hdim.
  intros Hp. unfold validate_inputs_with, validate_serially, accepted.
  destruct (Nat.eqb_spec (length inputs) 0) as [H0|H0]; cbn [negb]; [rewrite (proj2 (Z.leb_gt 1 _)) by lia; cbn [andb]; split; [done|]; intros (spans & ? & _); lia|]. rewrite (proj2 (Z.leb_le 1 _)) by lia. cbn [andb].
  destruct (Z.leb_spec (Z.of_nat (length inputs)) MAX_ITEMS) as [H1|H1]; [|split; [done|]; intros (spans & ? & _); lia].
  destruct (measure_all inputs Hp) as (ms & Ems & Hms). set (n := measured_len 0 inputs).
  assert (Hn : Forall2 measured_as (take n inputs) (take n ms)) by by apply Forall2_take. assert (Etake : omap_list (measure json_writes options) (take n inputs) = Ok (take n ms)).
  { destruct (measure_all (take n inputs)) as (ms' & E & Hm'); [by apply Forall_take|]. rewrite E. f_equal. clear - Hn Hm'. revert ms' Hm'. induction Hn as [|x y xs ys Hxy _ IH]; intros ms' Hm'; inversion Hm' as [|? z ? zs Hz Hzs]; [done|]. subst. f_equal; [unfold measured_as in *; congruence|by apply IH]. }
  rewrite Etake, (charge_serially_ok _ _ _ Hms). cbn [obind].
  assert (W : nonneg no_budget /\ within no_budget) by (split; repeat split; done). destruct W as [Wn Ww].
  assert (Ezip : zip inputs ms = zip (take n inputs) (take n ms) ++ zip (drop n inputs) (drop n ms)) by (rewrite <- zip_with_app by (by eapply Forall2_length); by rewrite !take_drop).
  assert (Eshort : zip inputs (take n ms) = zip (take n inputs) (take n ms)).
  { rewrite <- (take_drop n inputs) at 1. rewrite <- (app_nil_r (take n ms)) at 1. rewrite zip_with_app by (by eapply Forall2_length). rewrite zip_with_nil_r, app_nil_r. done. }
  pose proof (charge_all_ok no_budget _ _ Wn Ww Hn) as Hc. rewrite Eshort. destruct (decide (n < length inputs)) as [Hlt|Hge].
  - rewrite Ezip, charge_all_app. pose proof (measured_len_ok 0 inputs ltac:(done) Hlt) as Hover. fold n in Hover. destruct (charge_all _ _ _) as [b|e|]; cbn [obind]; [exfalso|split; [done|]|done].
    + destruct Hc as (spans & [_ _ _ Hs _ _ _] & _). cbn [no_budget bg_source] in Hs. lia.
    + intros (spans & _ & Ha). apply Hc, (accepted_prefix _ (take n inputs) (drop n inputs) spans). by rewrite take_drop.
  - rewrite !(take_ge ms), !(take_ge inputs) in * by (rewrite <- ?(Forall2_length _ _ _ Hms); lia). split; [done|]. destruct (charge_all _ _ _) as [b|e|]; cbn [obind]; [|intros (spans & _ & Ha); apply Hc; by exists spans|done].
    destruct Hc as (spans & Ha & ->). split; [lia|done].
Qed.
End Limits.

(** ** The documents of a batch *)

Section Documents.
Context {V : Type} {F : Vectors} {FL : VectorLaws F} {A : Analyzer} {L : AnalyzerLaws A}.
Context (json_writes : V -> list (list Z)) (is_object : V -> bool) (empty_object : V) (json_len : option V -> Z).
Context (dimensions : Z) (embedding_dimensions : option Z) (encoder : TextEncoder) (options : IngestOptions).
Context (inferred_dimensions : option Z) (Hdim : forall d, inferred_dimensions = Some d -> (0 <= d)%Z).
Abbreviation Input := (DocumentInput (V := V)).
Abbreviation prepare input := (prepare_with_options is_object empty_object json_len input dimensions embedding_dimensions None encoder options).

(** Whether an input by itself gives a document, with whatever interner. *)
Definition prepares (input : Input) (d : StoredDocument V) : Prop := forall i, idle i -> exists i', prepare input i = Ok (i', d).
Definition refuses (input : Input) : Prop := forall i, idle i -> exists e, prepare input i = Err e.

Lemma no_keys : forall ks, None = Some ks -> Forall (fun k : list Z => utf8_valid k = true /\ (Z.of_nat (length k) <= MAX_DOCUMENT_BYTES)%Z) ks.
Proof using. done. Qed.

(** The spans measured are the spans preparation would cut. *)
Lemma prepare_measured input spans i :
  chunk_spans_with input options = Ok spans -> prepare input i = prepare_spans is_object empty_object json_len input dimensions embedding_dimensions None encoder options i spans.
Proof using.
  intros E. unfold prepare_with_options. rewrite E. cbn [obind]. unfold prepare_spans. by destruct (check_mode _ _ _) as [[]| |].
Qed.

Lemma prepare_one i input spans :
  utf8_valid (di_text input) = true -> idle i -> chunk_spans_with input options = Ok spans ->
  match prepare_spans is_object empty_object json_len input dimensions embedding_dimensions None encoder options i spans with Ok (_, d) => prepares input d | Err _ => refuses input | Panic => False end.
Proof using FL L.
  intros Hu Hm Es. rewrite <- (prepare_measured input spans i Es).
  pose proof (prepared_document_ok is_object empty_object json_len input dimensions embedding_dimensions None encoder options Hu no_keys i Hm) as Hok.
  pose proof (fun j Hj => prepare_memo is_object empty_object json_len input dimensions embedding_dimensions None encoder options Hu no_keys i j Hm Hj) as Hmemo.
  destruct (prepare input i) as [[i' d]|e|]; [| |done]; intros j Hj; specialize (Hmemo j Hj); destruct (prepare input j) as [[j' d']|e'|]; try done; [subst; by eexists|by eexists].
Qed.

Lemma batch_each_ok memo k (inputs : list Input) spans :
  Forall (fun input => utf8_valid (di_text input) = true) inputs -> (forall k, idle (memo k)) -> Forall2 (fun input s => chunk_spans_with input options = Ok s) inputs spans ->
  match prepare_inputs is_object empty_object json_len dimensions embedding_dimensions encoder options memo k (zip inputs spans) with
  | Ok ds => Forall2 prepares inputs ds | Err _ => Exists refuses inputs | Panic => False end.
Proof using FL L.
  intros Hu Hm Hs. revert k. induction Hs as [|input s inputs spans Es _ IH]; intros k; [constructor|]. apply Forall_cons in Hu as [Hu Hu']. specialize (IH Hu' (S k)).
  cbn [zip zip_with prepare_inputs]. pose proof (prepare_one (memo k) input s Hu (Hm k) Es) as H1. destruct (prepare_spans _ _ _ _ _ _ _ _ _ _ _) as [[i d]|e|]; cbn [obind]; [|by constructor|done].
  destruct (prepare_inputs _ _ _ _ _ _ _ _ _ _); cbn [obind]; [by constructor|by right|done].
Qed.

(** C9: a batch is taken whole or refused, exactly at its limits.  Whatever the inputs, and whatever
    interners the workers have, nothing panics; measuring only a part of the inputs in parallel
    gives the spans, or the error, of measuring and charging one input after another; the spans are
    given exactly when the ids are distinct, every input can be cut, and items, source bytes,
    metadata bytes, embedding values and chunks are within their limits; and the documents are
    those each input gives by itself, or one of them is refused by itself. *)
Theorem batch_limits_exact (inputs : list Input) (memo : nat -> Interner) :
  Forall (fun input => utf8_valid (di_text input) = true) inputs -> (forall k, idle (memo k)) ->
  validate_inputs_with json_writes inputs inferred_dimensions options = validate_serially json_writes inferred_dimensions options inputs /\
  match validate_inputs_with json_writes inputs inferred_dimensions options with
  | Ok spans => accepted json_writes inferred_dimensions options inputs spans
  | Err _ => ~ exists spans, accepted json_writes inferred_dimensions options inputs spans
  | Panic => False
  end /\
  match prepare_documents json_writes is_object empty_object json_len dimensions embedding_dimensions encoder options memo inputs inferred_dimensions with
  | Ok ds => (exists spans, accepted json_writes inferred_dimensions options inputs spans) /\ Forall2 prepares inputs ds
  | Err _ => (~ exists spans, accepted json_writes inferred_dimensions options inputs spans) \/ Exists refuses inputs
  | Panic => False
  end.
Proof using FL L Hdim.
  intros Hu Hm. assert (Hp : Forall (fun input => chunk_spans_with input options <> Panic) inputs).
  { eapply Forall_impl; [exact Hu|]. intros input Hi E. pose proof (spans_ok_with input options Hi) as H. by rewrite E in H. }
  destruct (validate_ok json_writes inferred_dimensions options Hdim inputs Hp) as [Es Ha]. split; [done|]. split; [done|]. unfold prepare_documents.
  destruct (validate_inputs_with _ _ _ _) as [spans|e|]; cbn [obind]; [|by left|done].
  pose proof (batch_each_ok memo 0 inputs spans Hu Hm (ac_spans _ _ _ _ _ _ (proj2 Ha))) as Hd. destruct (prepare_inputs _ _ _ _ _ _ _ _ _ _); [|by right|done]. split; [by exists spans|done].
Qed.
End Documents.

(** ** Two documents *)

Definition toy_batch : list (DocumentInput (V := unit) (F := toy_vectors)) :=
  [toy_input; {| di_id := [101]%Z; di_text := [99; 97; 116]%Z; di_source_uri := None; di_version := None; di_metadata := Some tt; di_chunk_words := None;
     di_overlap_words := None; di_store_text := None; di_embeddings := None; di_title_weight := None |}].

Definition toy_batch_documents : outcome (list (StoredDocument unit)) :=
  prepare_documents (F := toy_vectors) (A := toy_analyzer) (fun _ => [[123]; [125]]%Z) (fun _ => true) tt (fun _ => 4%Z) 128 None MultiscaleWordsV1 toy_options (fun _ => interner_new false) toy_batch None.

Lemma batch_limits_exact_witness :
  exists ds, toy_batch_documents = Ok ds /\ map doc_id ds = [[100]; [101]]%Z /\
    Forall2 (prepares (F := toy_vectors) (A := toy_analyzer) (fun _ => true) tt (fun _ => 4%Z) 128 None MultiscaleWordsV1 toy_options) toy_batch ds.
Proof.
  pose proof (batch_limits_exact (FL := toy_vector_laws) (L := toy_analyzer_laws) (fun _ => [[123]; [125]]%Z) (fun _ => true) tt (fun _ => 4%Z) 128 None MultiscaleWordsV1 toy_options None ltac:(done)
    toy_batch (fun _ => interner_new false) ltac:(by_decide) (fun _ => idle_new false)) as (_ & _ & H).
  assert (E : exists ds, toy_batch_documents = Ok ds /\ map doc_id ds = [[100]; [101]]%Z) by (vm_compute; eexists; split; reflexivity).
  destruct E as (ds & E & Hid). exists ds. split; [exact E|]. split; [exact Hid|]. unfold toy_batch_documents in E. rewrite E in H. apply H.
Defined.
