(* ===== verification/AuditDelivery.v ===== *)
(** * Audit delivery

    [src/core/audit.rs], [src/core/audit_effects.rs], [src/core/engine/audit_delivery.rs] and the
    audit side of commits, replay and compaction ([engine/mutation.rs], [engine/mod.rs],
    [engine/compaction.rs]): an audit record is committed with the operation it describes, kept in
    a queue, appended to a file of its own and acknowledged in the journal.  Whatever fails and
    whenever the process dies, the file has every record once, in the order of the commits. *)

From S2P Require Import Prelude Words BitPack.

(** ** Records *)

Inductive AuditOp := Memorize | Delete | Compact.
#[global] Instance AuditOp_eq_dec : EqDecision AuditOp.
Proof. solve_decision. Defined.

Definition op_to_u8 (op : AuditOp) : Z := match op with Memorize => 1 | Delete => 2 | Compact => 3 end%Z.
Definition op_from_u8 (v : Z) : option AuditOp :=
  if (v =? 1)%Z then Some Memorize else if (v =? 2)%Z then Some Delete else if (v =? 3)%Z then Some Compact else None.

Record AuditEntry := mkEntry { ae_timestamp_ms : Z; ae_op : AuditOp; ae_id_hash : list Z; ae_signature : list Z; ae_effect_id : option (list Z) }.
#[global] Instance AuditEntry_eq_dec : EqDecision AuditEntry.
Proof. solve_decision. Defined.

Definition ENTRY_SIZE : nat := 105.
Definition RECORD_SIZE : nat := 125.
Definition MAX_PENDING : nat := 1024.
(** [WARMAU02]. *)
Definition AUDIT_MAGIC : list Z := [87; 65; 82; 77; 65; 85; 48; 50]%Z.

Definition entry_to_bytes (e : AuditEntry) : list Z := to_le_bytes 8 (ae_timestamp_ms e) ++ [op_to_u8 (ae_op e)] ++ ae_id_hash e ++ ae_signature e.

Definition entry_from_bytes (buf : list Z) : outcome (option AuditEntry) :=
  let* t := slice buf 0 8 in
  let* v := expect (buf !! 8) in
  match op_from_u8 v with
  | None => Ok None
  | Some op =>
      let* id_hash := slice buf 9 41 in
      let* signature := slice buf 41 105 in
      Ok (Some {| ae_timestamp_ms := from_le_bytes t; ae_op := op; ae_id_hash := id_hash; ae_signature := signature; ae_effect_id := None |})
  end.

Section Records.
Context (crc32 : list Z -> Z).

(** [AuditIntent::id], [encode] and [decode]. *)
Definition intent_id (e : AuditEntry) : outcome (list Z) :=
  match ae_effect_id e with Some id => Ok id | None => Err "audit intent has no effect identity" end.

Definition intent_encode (e : AuditEntry) : outcome (list Z) :=
  let* id := intent_id e in
  let body := id ++ entry_to_bytes e in
  Ok (body ++ to_le_bytes 4 (crc32 body)).

Definition intent_decode (bytes : list Z) : outcome AuditEntry :=
  let* tail := slice bytes (RECORD_SIZE - 4) RECORD_SIZE in
  let* body := slice bytes 0 (RECORD_SIZE - 4) in
  ensure (crc32 body =? from_le_bytes tail)%Z else "audit effect checksum mismatch" ;
  let* inner := slice bytes 16 (16 + ENTRY_SIZE) in
  let* entry := entry_from_bytes inner in
  match entry with
  | None => Err "audit effect has an invalid operation"
  | Some e =>
      let* id := slice bytes 0 16 in
      Ok {| ae_timestamp_ms := ae_timestamp_ms e; ae_op := ae_op e; ae_id_hash := ae_id_hash e; ae_signature := ae_signature e; ae_effect_id := Some id |}
  end.

(** ** The file *)

(** The bytes of the file, how many of them are on the disk, and how many readers may see. *)
Record Stream := mkStream { sm_file : list Z; sm_synced : nat; sm_published : nat }.

(** What goes wrong in one call: a read, the truncation of a torn tail, a sync, or the write, which
    may leave some of its bytes. *)
Inductive Fate := Works | ReadFails | TruncateFails | RepairSyncFails | WriteFails (written : nat) | SyncFails.

(** [positioned_read]. *)
Definition read_exact_at (file : list Z) (at_ count : nat) : outcome (list Z) :=
  if at_ + count <=? length file then Ok (take count (drop at_ file)) else Err "failed to fill whole buffer".

(** The records from [at_] to [end_], read 512 at a time. *)
Fixpoint read_records (fuel : nat) (file : list Z) (at_ end_ : nat) : outcome (list AuditEntry) :=
  if end_ <=? at_ then Ok []
  else match fuel with
       | O => Panic
       | S fuel =>
           let count := Nat.min (end_ - at_) (512 * RECORD_SIZE) in
           let* scratch := read_exact_at file at_ count in
           let* entries := omap_list (fun index => let* bytes := slice scratch (index * RECORD_SIZE) ((index + 1) * RECORD_SIZE) in intent_decode bytes) (seq 0 (count / RECORD_SIZE)) in
           let* rest := read_records fuel file (at_ + count) end_ in
           Ok (entries ++ rest)
       end.

Definition inspect (file : list Z) : outcome nat :=
  let* magic := read_exact_at file 0 8 in
  ensure (bool_decide (magic = AUDIT_MAGIC)) else "unsupported audit effect format" ;
  ensure (8 <=? length file) else "truncated audit effect header" ;
  let trailing := (length file - 8) mod RECORD_SIZE in
  let* _ := read_records (length file) file 8 (length file - trailing) in
  Ok trailing.

Definition set_published (s : Stream) (n : nat) : Stream := {| sm_file := sm_file s; sm_synced := sm_synced s; sm_published := n |}.
Definition sync (s : Stream) : Stream := {| sm_file := sm_file s; sm_synced := length (sm_file s); sm_published := sm_published s |}.

Definition repair_tail (f : Fate) (s : Stream) : Stream * outcome nat :=
  let length_ := length (sm_file s) in
  match f with
  | ReadFails => (s, Err "metadata")
  | _ =>
      if length_ <? sm_published s then (s, Err "audit effect history was truncated while open")
      else
        let whole := length_ - (length_ - 8) mod RECORD_SIZE in
        if whole =? length_ then (s, Ok whole)
        else match f with
             | TruncateFails => (s, Err "repairing audit effect tail")
             | _ =>
                 let s := {| sm_file := take whole (sm_file s); sm_synced := Nat.min (sm_synced s) whole; sm_published := sm_published s |} in
                 match f with RepairSyncFails => (s, Err "syncing audit effects") | _ => (sync s, Ok whole) end
             end
  end.

(** [AuditEffectStream::last]. *)
Definition last_record (s : Stream) (length_ : nat) : outcome (option AuditEntry) :=
  if length_ =? 8 then Ok None
  else
    let* at_ := expect (if RECORD_SIZE <=? length_ then Some (length_ - RECORD_SIZE) else None) in
    let* bytes := read_exact_at (sm_file s) at_ RECORD_SIZE in
    let* e := intent_decode bytes in
    Ok (Some e).

(** The append at the end of [deliver]. *)
Definition append_record (f : Fate) (s : Stream) (length_ : nat) (bytes : list Z) : Stream * outcome unit :=
  match checked_add U64 (Z.of_nat length_) (Z.of_nat RECORD_SIZE) with
  | None => (s, Err "audit effect file length overflow")
  | Some next =>
      match f with
      | WriteFails n => ({| sm_file := take length_ (sm_file s) ++ take n bytes; sm_synced := sm_synced s; sm_published := sm_published s |}, Err "appending audit effect")
      | _ =>
          let s := {| sm_file := take length_ (sm_file s) ++ bytes; sm_synced := sm_synced s; sm_published := sm_published s |} in
          match f with SyncFails => (s, Err "syncing audit effects") | _ => (set_published (sync s) (Z.to_nat next), Ok tt) end
      end
  end.

Definition deliver (f : Fate) (s : Stream) (intent : AuditEntry) : Stream * outcome unit :=
  match intent_encode intent with
  | Err e => (s, Err e)
  | Panic => (s, Panic)
  | Ok bytes =>
      match repair_tail f s with
      | (s, Err e) => (s, Err e)
      | (s, Panic) => (s, Panic)
      | (s, Ok length_) =>
          match last_record s length_ with
          | Err e => (s, Err e)
          | Panic => (s, Panic)
          | Ok last =>
              if bool_decide (ae_effect_id <$> last = Some (ae_effect_id intent)) then
                if bool_decide (last = Some intent)
                then match f with SyncFails => (s, Err "syncing audit effects") | _ => (set_published (sync s) length_, Ok tt) end
                else (s, Err "audit effect identity has conflicting payloads")
              else append_record f s length_ bytes
          end
      end
  end.

(** [AuditEffectStream::from_file] of the bytes on the disk. *)
Definition from_file (file : list Z) : outcome Stream :=
  let* _ := inspect file in
  match repair_tail Works {| sm_file := file; sm_synced := length file; sm_published := 8 |} with
  | (s, Ok length_) => let* _ := last_record s length_ in Ok (set_published s length_)
  | (_, Err e) => Err e
  | (_, Panic) => Panic
  end.

Definition entries_since (s : Stream) (timestamp_ms : Z) : outcome (list AuditEntry) :=
  let* entries := read_records (sm_published s) (sm_file s) 8 (sm_published s) in
  Ok (filter (fun e => timestamp_ms <= ae_timestamp_ms e)%Z entries).

(** ** The queue *)

(** The mutations of a transaction that concern the audit, and the rest. *)
Inductive AuditMutation := AuditPending (intent : AuditEntry) | AuditAcknowledged (id : list Z) | Business.

Definition is_audit (m : AuditMutation) : bool := match m with Business => false | _ => true end.

(** One round of the loop of [validate_audit_transitions]. *)
Definition validate_transition (ids : list (list Z)) (m : AuditMutation) : outcome (list (list Z)) :=
  match m with
  | AuditPending intent =>
      let* id := intent_id intent in
      ensure (length ids <? MAX_PENDING) else "audit delivery backlog is full; flush audit effects before writing" ;
      ensure (negb (bool_decide (id ∈ ids))) else "duplicate pending audit effect identity" ;
      Ok (ids ++ [id])
  | AuditAcknowledged id =>
      ensure (bool_decide (head ids = Some id)) else "audit acknowledgement is out of order" ;
      Ok (tail ids)
  | Business => Ok ids
  end.

Fixpoint validate_transitions (ids : list (list Z)) (ms : list AuditMutation) : outcome (list (list Z)) :=
  match ms with [] => Ok ids | m :: ms => let* ids := validate_transition ids m in validate_transitions ids ms end.

Definition validate_audit_transitions (pending : list AuditEntry) (ms : list AuditMutation) : outcome unit :=
  if negb (existsb is_audit ms) then Ok tt
  else
    let* ids := omap_list intent_id pending in
    let* _ := validate_transitions ids ms in
    Ok tt.

(** [apply_mutation] of the audit mutations. *)
Definition apply_audit (pending : list AuditEntry) (m : AuditMutation) : outcome (list AuditEntry) :=
  match m with
  | AuditPending intent => Ok (pending ++ [intent])
  | AuditAcknowledged id =>
      ensure (bool_decide (ae_effect_id <$> head pending = Some (Some id))) else "audit acknowledgement is out of order" ;
      Ok (tail pending)
  | Business => Ok pending
  end.

Fixpoint apply_audits (pending : list AuditEntry) (ms : list AuditMutation) : outcome (list AuditEntry) :=
  match ms with [] => Ok pending | m :: ms => let* pending := apply_audit pending m in apply_audits pending ms end.

(** [replay_mutations] of the frames of a journal. *)
Fixpoint replay (pending : list AuditEntry) (frames : list (list AuditMutation)) : outcome (list AuditEntry) :=
  match frames with
  | [] => Ok pending
  | ms :: frames =>
      let* _ := validate_audit_transitions pending ms in
      let* pending := apply_audits pending ms in
      replay pending frames
  end.

(** ** The engine *)

(** Where the one thread that drains the queue is: it has a target, and is about to deliver the first
    record or to acknowledge the one it delivered. *)
Inductive Drain := Idle | Delivering (target : list Z) | Acknowledging (target id : list Z).

(** The journal of committed transactions, the queue, the file, the drain, and a compaction that has
    taken its snapshot: the queue then, and the end of the journal then. *)
Record Core := mkCore {
  co_journal : list (list AuditMutation); co_pending : list AuditEntry; co_stream : Stream; co_drain : Drain;
  co_snapshot : option (list AuditEntry * nat) }.

Definition with_stream (c : Core) (s : Stream) : Core :=
  {| co_journal := co_journal c; co_pending := co_pending c; co_stream := s; co_drain := co_drain c; co_snapshot := co_snapshot c |}.
Definition with_drain (c : Core) (d : Drain) : Core :=
  {| co_journal := co_journal c; co_pending := co_pending c; co_stream := co_stream c; co_drain := d; co_snapshot := co_snapshot c |}.
Definition with_snapshot (c : Core) (s : option (list AuditEntry * nat)) : Core :=
  {| co_journal := co_journal c; co_pending := co_pending c; co_stream := co_stream c; co_drain := co_drain c; co_snapshot := s |}.

(** [commit]: the transaction is checked, appended to the journal, which may fail, and applied. *)
Definition commit (c : Core) (ms : list AuditMutation) (append : bool) : Core * outcome unit :=
  if negb ((1 <=? length ms) && (length ms <=? 4096)) then (c, Err "transaction requires 1..=4096 operations")
  else match validate_audit_transitions (co_pending c) ms with
       | Err e => (c, Err e)
       | Panic => (c, Panic)
       | Ok _ =>
           if negb append then (c, Err "append")
           else match apply_audits (co_pending c) ms with
                | Ok pending =>
                    ({| co_journal := co_journal c ++ [ms]; co_pending := pending; co_stream := co_stream c; co_drain := co_drain c; co_snapshot := co_snapshot c |}, Ok tt)
                | Err e => ({| co_journal := co_journal c ++ [ms]; co_pending := co_pending c; co_stream := co_stream c; co_drain := co_drain c; co_snapshot := co_snapshot c |}, Err e)
                | Panic => (c, Panic)
                end
       end.

(** [commit_audited] up to the commit: the mutations of an operation and its record, if there is one. *)
Definition commit_audited (c : Core) (business : nat) (intent : option AuditEntry) (append : bool) : Core * outcome unit :=
  commit c (replicate business Business ++ match intent with Some i => [AuditPending i] | None => [] end) append.

(** [flush_audit] up to its loop: the lease of the drain, and the last record of the queue as target. *)
Definition flush_begin (c : Core) : Core * outcome unit :=
  match co_drain c, last (co_pending c) with
  | Idle, Some intent =>
      match intent_id intent with Ok target => (with_drain c (Delivering target), Ok tt) | Err e => (c, Err e) | Panic => (c, Panic) end
  | _, _ => (c, Ok tt)
  end.

(** The first half of a round of the loop: the first record is delivered. *)
Definition flush_deliver (c : Core) (f : Fate) : Core * outcome unit :=
  match co_drain c with
  | Delivering target =>
      match head (co_pending c) with
      | None => (with_drain c Idle, Err "audit delivery queue lost its target")
      | Some intent =>
          match intent_id intent with
          | Ok id =>
              match deliver f (co_stream c) intent with
              | (s, Ok _) => (with_drain (with_stream c s) (Acknowledging target id), Ok tt)
              | (s, r) => (with_drain (with_stream c s) Idle, r)
              end
          | Err e => (with_drain c Idle, Err e)
          | Panic => (with_drain c Idle, Panic)
          end
      end
  | _ => (c, Ok tt)
  end.

(** The second half: it is acknowledged, and the loop ends at the target. *)
Definition flush_acknowledge (c : Core) (append : bool) : Core * outcome unit :=
  match co_drain c with
  | Acknowledging target id =>
      match commit c [AuditAcknowledged id] append with
      | (c, Ok _) => (with_drain c (if bool_decide (id = target) then Idle else Delivering target), Ok tt)
      | (c, r) => (with_drain c Idle, r)
      end
  | _ => (c, Ok tt)
  end.

(** A compaction takes a snapshot of the queue, and later replaces the journal by the snapshot, the
    transactions since, and a record of its own. *)
Definition compact_snapshot (c : Core) : Core * outcome unit := (with_snapshot c (Some (co_pending c, length (co_journal c))), Ok tt).

Definition compact_publish (c : Core) (intent : option AuditEntry) (publish : bool) : Core * outcome unit :=
  match co_snapshot c with
  | None => (c, Ok tt)
  | Some (pending, at_) =>
      let c := with_snapshot c None in
      let record := match intent with Some i => [AuditPending i] | None => [] end in
      match (match intent with Some _ => validate_audit_transitions (co_pending c) record | None => Ok tt end) with
      | Err e => (c, Err e)
      | Panic => (c, Panic)
      | Ok _ =>
          if negb publish then (c, Err "publication")
          else ({| co_journal := map (fun i => [AuditPending i]) pending ++ drop at_ (co_journal c) ++ match intent with Some _ => [record] | None => [] end;
                   co_pending := co_pending c ++ match intent with Some i => [i] | None => [] end;
                   co_stream := co_stream c; co_drain := co_drain c; co_snapshot := None |}, Ok tt)
      end
  end.

(** The process dies and the store is opened again.  Of the bytes that were not synced a beginning is
    still there, however long; what was synced is. *)
Definition reopen (c : Core) (kept : nat) : outcome Core :=
  let* stream := from_file (take (Nat.max kept (sm_synced (co_stream c))) (sm_file (co_stream c))) in
  let* pending := replay [] (co_journal c) in
  Ok {| co_journal := co_journal c; co_pending := pending; co_stream := stream; co_drain := Idle; co_snapshot := None |}.

(** ** Histories *)

Inductive AuditAction :=
| Write (business : nat) (intent : option AuditEntry) (append : bool)
| FlushBegin
| Deliver (f : Fate)
| Acknowledge (append : bool)
| Snapshot
| Publish (intent : option AuditEntry) (publish : bool)
| Crash (kept : nat).

Definition audit_act (c : Core) (a : AuditAction) : Core * outcome unit :=
  match a with
  | Write business intent append => commit_audited c business intent append
  | FlushBegin => flush_begin c
  | Deliver f => flush_deliver c f
  | Acknowledge append => flush_acknowledge c append
  | Snapshot => compact_snapshot c
  | Publish intent publish => compact_publish c intent publish
  | Crash kept => match reopen c kept with Ok c => (c, Ok tt) | Err e => (c, Err e) | Panic => (c, Panic) end
  end.

(** The records an action commits: those of the calls that succeed. *)
Definition committed (c : Core) (a : AuditAction) : list AuditEntry :=
  match audit_act c a with
  | (_, Ok _) => match a with
                 | Write _ (Some i) _ => [i]
                 | Publish (Some i) _ => if bool_decide (is_Some (co_snapshot c)) then [i] else []
                 | _ => []
                 end
  | _ => []
  end.

Fixpoint run_audit (c : Core) (ledger : list AuditEntry) (actions : list AuditAction) : Core * list AuditEntry :=
  match actions with [] => (c, ledger) | a :: actions => run_audit (audit_act c a).1 (ledger ++ committed c a) actions end.
End Records.

(** A new store. *)
Definition new_core : Core :=
  {| co_journal := []; co_pending := []; co_stream := {| sm_file := AUDIT_MAGIC; sm_synced := 8; sm_published := 8 |}; co_drain := Idle; co_snapshot := None |}.

(** ** Records read back *)

Section Delivery.
Context (crc32 : list Z -> Z) (Hcrc : forall d, is_u32 (crc32 d)).

Record entry_ok (e : AuditEntry) : Prop := {
  en_time : is_u64 (ae_timestamp_ms e);
  en_hash : length (ae_id_hash e) = 32;
  en_signature : length (ae_signature e) = 64;
  en_id : exists id, ae_effect_id e = Some id /\ length id = 16
}.

Definition id_of (e : AuditEntry) : list Z := match ae_effect_id e with Some i => i | None => [] end.

Lemma id_of_ok e : entry_ok e -> ae_effect_id e = Some (id_of e) /\ length (id_of e) = 16.
Proof using. intros [_ _ _ (i & E & Hi)]. unfold id_of. by rewrite E. Qed.

(** The bytes of a record. *)
Definition record (e : AuditEntry) : list Z :=
  let body := id_of e ++ entry_to_bytes e in body ++ to_le_bytes 4 (crc32 body).

Lemma entry_bytes_length e : entry_ok e -> length (entry_to_bytes e) = ENTRY_SIZE.
Proof using. intros []. unfold entry_to_bytes. rewrite !length_app, to_le_bytes_length, en_hash0, en_signature0. done. Qed.

Lemma audit_record_length e : entry_ok e -> length (record e) = RECORD_SIZE.
Proof using. intros He. unfold record. rewrite !length_app, to_le_bytes_length, (entry_bytes_length e He), (proj2 (id_of_ok e He)). done. Qed.

Lemma intent_encode_ok e : entry_ok e -> intent_encode crc32 e = Ok (record e).
Proof using. intros He. unfold intent_encode, intent_id, record. by rewrite (proj1 (id_of_ok e He)). Qed.

Lemma slice_app_mid {A} (a b c : list A) i j : i = length a -> j = length a + length b -> slice (a ++ b ++ c) i j = Ok b.
Proof using. intros -> ->. rewrite slice_Ok by (rewrite ?length_app; lia). f_equal. rewrite drop_app_length. replace (length a + length b - length a) with (length b) by lia. apply take_app_length. Qed.

Lemma slice_app_front {A} (b c : list A) j : j = length b -> slice (b ++ c) 0 j = Ok b.
Proof using. intros ->. by apply (slice_app_mid []). Qed.

Lemma entry_roundtrip e : entry_ok e ->
  entry_from_bytes (entry_to_bytes e) = Ok (Some {| ae_timestamp_ms := ae_timestamp_ms e; ae_op := ae_op e; ae_id_hash := ae_id_hash e; ae_signature := ae_signature e; ae_effect_id := None |}).
Proof using.
  intros [Ht Hh Hs _]. unfold entry_from_bytes, entry_to_bytes. rewrite (slice_app_front (to_le_bytes 8 (ae_timestamp_ms e))) by (rewrite ?to_le_bytes_length; done). cbn [obind].
  rewrite lookup_app_r by (rewrite to_le_bytes_length; lia). rewrite to_le_bytes_length. change (([op_to_u8 (ae_op e)] ++ ae_id_hash e ++ ae_signature e) !! (8 - 8)) with (Some (op_to_u8 (ae_op e))). cbn [expect obind].
  assert (Eop : op_from_u8 (op_to_u8 (ae_op e)) = Some (ae_op e)) by by destruct (ae_op e). rewrite Eop.
  rewrite (app_assoc (to_le_bytes 8 _) [_]). rewrite (slice_app_mid (to_le_bytes 8 (ae_timestamp_ms e) ++ [op_to_u8 (ae_op e)]) (ae_id_hash e)) by (rewrite length_app, to_le_bytes_length, ?Hh; done). cbn [obind].
  rewrite app_assoc. rewrite <- (app_nil_r (ae_signature e)) at 1. rewrite (slice_app_mid ((to_le_bytes 8 (ae_timestamp_ms e) ++ [op_to_u8 (ae_op e)]) ++ ae_id_hash e) (ae_signature e)) by (rewrite !length_app, to_le_bytes_length, ?Hh, ?Hs; done). cbn [obind].
  by rewrite from_to_le_bytes.
Qed.

Lemma record_roundtrip e : entry_ok e -> intent_decode crc32 (record e) = Ok e.
Proof using Hcrc.
  intros He. pose proof (entry_bytes_length e He) as Hl. pose proof (entry_roundtrip e He) as Hr. destruct (id_of_ok e He) as [E Hid]. unfold intent_decode, record.
  set (body := id_of e ++ entry_to_bytes e). assert (Hb : length body = 121) by (unfold body; rewrite length_app, Hid, Hl; done).
  rewrite <- (app_nil_r (to_le_bytes 4 (crc32 body))) at 1. rewrite (slice_app_mid body (to_le_bytes 4 (crc32 body))) by (rewrite ?to_le_bytes_length, Hb; done). cbn [obind].
  rewrite (slice_app_front body) by (rewrite ?Hb; done). cbn [obind]. rewrite from_to_le_bytes by apply Hcrc. rewrite Z.eqb_refl. unfold body at 1. rewrite <- app_assoc.
  rewrite (slice_app_mid (id_of e) (entry_to_bytes e)) by (rewrite ?Hid, ?Hl; done). cbn [obind]. rewrite Hr. cbn [obind]. unfold body. rewrite <- app_assoc. rewrite (slice_app_front (id_of e)) by (rewrite ?Hid; done). cbn [obind].
  f_equal. rewrite <- E. by destruct e.
Qed.

(** The file of delivered records. *)
Definition records (ds : list AuditEntry) : list Z := AUDIT_MAGIC ++ concat (map record ds).

Lemma concat_records_length ds : Forall entry_ok ds -> length (concat (map record ds)) = RECORD_SIZE * length ds.
Proof using. induction 1 as [|e ds He _ IH]; [done|]. cbn [map concat length]. rewrite length_app, IH, audit_record_length by done. lia. Qed.

Lemma audit_records_length ds : Forall entry_ok ds -> length (records ds) = 8 + RECORD_SIZE * length ds.
Proof using. intros H. unfold records. rewrite length_app, concat_records_length by done. done. Qed.

Lemma records_app ds ds' : records (ds ++ ds') = records ds ++ concat (map record ds').
Proof using. unfold records. by rewrite map_app, concat_app, app_assoc. Qed.

(** A range of records in the file. *)
Lemma records_range ds junk j m :
  Forall entry_ok ds -> j + m <= length ds -> take (RECORD_SIZE * m) (drop (8 + RECORD_SIZE * j) (records ds ++ junk)) = concat (map record (take m (drop j ds))).
Proof using.
  intros Hd Hjm. rewrite <- (take_drop j ds) at 1. rewrite <- (take_drop m (drop j ds)) at 1. rewrite !records_app, <- !app_assoc.
  assert (H1 : length (records (take j ds)) = 8 + RECORD_SIZE * j) by (rewrite audit_records_length, length_take by (by apply Forall_take); do 2 f_equal; lia).
  assert (H2 : length (concat (map record (take m (drop j ds)))) = RECORD_SIZE * m) by (rewrite concat_records_length, length_take, length_drop by (by apply Forall_take, Forall_drop); f_equal; lia).
  rewrite map_app, concat_app, <- app_assoc. rewrite <- H1, drop_app_length, <- H2. apply take_app_length.
Qed.

Lemma record_slice ds i e : Forall entry_ok ds -> ds !! i = Some e -> slice (concat (map record ds)) (i * RECORD_SIZE) ((i + 1) * RECORD_SIZE) = Ok (record e).
Proof using.
  intros Hd Hi. pose proof (lookup_lt_Some _ _ _ Hi). pose proof (take_drop_middle _ _ _ Hi) as E. rewrite <- E at 1. rewrite map_app, concat_app. cbn [map concat].
  pose proof (Forall_lookup_1 _ _ _ _ Hd Hi) as He. apply slice_app_mid; rewrite concat_records_length, length_take, ?audit_record_length by (try done; by apply Forall_take); lia.
Qed.

Lemma read_records_ok fuel ds junk j k :
  Forall entry_ok ds -> j <= k <= length ds -> k - j <= fuel ->
  read_records crc32 fuel (records ds ++ junk) (8 + RECORD_SIZE * j) (8 + RECORD_SIZE * k) = Ok (take (k - j) (drop j ds)).
Proof using Hcrc.
  intros Hd. revert j. induction fuel as [|fuel IH]; intros j Hjk Hf; cbn [read_records];
    (destruct (Nat.leb_spec (8 + RECORD_SIZE * k) (8 + RECORD_SIZE * j)) as [H|H]; [assert (k = j) as -> by (unfold RECORD_SIZE in H; lia); by rewrite Nat.sub_diag, take_0|]).
  - unfold RECORD_SIZE in H. lia.
  - assert (Hlt : j < k) by (unfold RECORD_SIZE in H; lia). set (m := Nat.min (k - j) 512).
    assert (Ec : Nat.min (8 + RECORD_SIZE * k - (8 + RECORD_SIZE * j)) (512 * RECORD_SIZE) = RECORD_SIZE * m) by (unfold m, RECORD_SIZE; lia). rewrite Ec.
    unfold read_exact_at. rewrite (proj2 (Nat.leb_le _ _)) by (rewrite length_app, audit_records_length by done; unfold m, RECORD_SIZE; lia). cbn [obind].
    rewrite records_range by (try done; unfold m; lia). replace (RECORD_SIZE * m / RECORD_SIZE) with m by (rewrite Nat.mul_comm, Nat.div_mul by (unfold RECORD_SIZE; lia); done).
    set (part := take m (drop j ds)). assert (Hp : Forall entry_ok part) by (by apply Forall_take, Forall_drop). assert (Hpl : length part = m) by (unfold part; rewrite length_take, length_drop; unfold m; lia).
    assert (Ep : omap_list (fun index => let* bytes := slice (concat (map record part)) (index * RECORD_SIZE) ((index + 1) * RECORD_SIZE) in intent_decode crc32 bytes) (seq 0 m) = Ok part).
    { clearbody part. rewrite (omap_list_ok _ (fun i => default {| ae_timestamp_ms := 0; ae_op := Memorize; ae_id_hash := []; ae_signature := []; ae_effect_id := None |} (part !! i))).
      - f_equal. apply list_eq. intros i. change (map ?f ?l) with (f <$> l). rewrite list_lookup_fmap. destruct (decide (i < m)) as [Hi|Hi]; [rewrite lookup_seq_lt by lia; cbn; destruct (lookup_lt_is_Some_2 part i ltac:(lia)) as [e He]; by rewrite He|].
        rewrite lookup_seq_ge, lookup_ge_None_2 by lia. done.
      - intros i Hi%elem_of_seq. destruct (lookup_lt_is_Some_2 part i ltac:(lia)) as [e He]. rewrite (record_slice part i e Hp He), He. cbn [obind default]. apply record_roundtrip. by eapply Forall_lookup_1. }
    rewrite Ep. cbn [obind]. replace (8 + RECORD_SIZE * j + RECORD_SIZE * m) with (8 + RECORD_SIZE * (j + m)) by lia. rewrite IH by (unfold m; lia). cbn [obind]. f_equal. unfold part.
    replace (drop (j + m) ds) with (drop m (drop j ds)) by (rewrite drop_drop; f_equal; lia). replace (k - j) with (m + (k - (j + m))) by (unfold m; lia). by rewrite take_take_drop.
Qed.

(** ** The stream *)

(** Every acknowledged record is delivered, and perhaps the first pending one. *)
Definition delivered (acked pending ds : list AuditEntry) : Prop := ds = acked \/ exists x, head pending = Some x /\ ds = acked ++ [x].

Record stream_ok (acked pending : list AuditEntry) (s : Stream) (ds : list AuditEntry) (torn : list Z) (k : nat) : Prop := {
  st_delivered : delivered acked pending ds;
  st_file : sm_file s = records ds ++ torn;
  st_torn : length torn < RECORD_SIZE;
  st_published : sm_published s = 8 + RECORD_SIZE * k;
  st_acked : length acked <= k;
  st_seen : sm_published s <= sm_synced s;
  st_synced : sm_synced s <= 8 + RECORD_SIZE * length ds
}.

(** The first pending record is delivered and on the disk. *)
Definition settled (acked : list AuditEntry) (x : AuditEntry) (s : Stream) : Prop :=
  sm_file s = records (acked ++ [x]) /\ sm_synced s = 8 + RECORD_SIZE * S (length acked) /\ sm_published s = 8 + RECORD_SIZE * S (length acked).

Lemma settled_ok acked x rest s : settled acked x s -> stream_ok acked (x :: rest) s (acked ++ [x]) [] (S (length acked)).
Proof using. intros (E & E1 & E2). split; [right; by exists x|by rewrite app_nil_r|cbn; unfold RECORD_SIZE; lia|done|lia|lia|rewrite length_app; cbn [length]; lia]. Qed.

Lemma settled_acked acked x rest s : settled acked x s -> stream_ok (acked ++ [x]) rest s (acked ++ [x]) [] (S (length acked)).
Proof using. intros (E & E1 & E2). split; [by left|by rewrite app_nil_r|cbn; unfold RECORD_SIZE; lia|done|rewrite length_app; cbn [length]; lia|lia|rewrite length_app; cbn [length]; lia]. Qed.

Lemma delivered_ok acked pending ds : Forall entry_ok (acked ++ pending) -> delivered acked pending ds -> Forall entry_ok ds /\ length acked <= length ds <= S (length acked) /\ ds `prefix_of` acked ++ pending.
Proof using.
  intros Hf [->|(x & Hx & ->)]; [apply Forall_app in Hf as [? _]; split_and!; [done|lia|lia|by eexists]|]. destruct pending as [|y pending]; [done|]. injection Hx as ->. rewrite length_app. cbn [length].
  apply Forall_app in Hf as [? [? ?]%Forall_cons]. split_and!; [apply Forall_app; split; [done|by apply Forall_singleton]|lia|lia|]. exists pending. by rewrite <- app_assoc.
Qed.

Section Stream.
Context (acked pending : list AuditEntry) (Hok : Forall entry_ok (acked ++ pending)).

Lemma whole_length ds torn : Forall entry_ok ds -> length torn < RECORD_SIZE ->
  length (records ds ++ torn) - (length (records ds ++ torn) - 8) mod RECORD_SIZE = 8 + RECORD_SIZE * length ds.
Proof using.
  intros Hd Ht. rewrite length_app, audit_records_length by done. replace (8 + RECORD_SIZE * length ds + length torn - 8) with (length torn + length ds * RECORD_SIZE) by lia.
  rewrite Nat.Div0.mod_add, Nat.mod_small by done. lia.
Qed.

(** Repairing leaves the whole records. *)
Lemma repair_tail_ok f s ds torn k : stream_ok acked pending s ds torn k ->
  match repair_tail f s with
  | (s', Ok n) => n = 8 + RECORD_SIZE * length ds /\ stream_ok acked pending s' ds [] k /\ f <> ReadFails /\ sm_published s' = sm_published s
  | (s', Err _) => f <> Works /\ f <> SyncFails /\ sm_published s' = sm_published s /\ exists torn', stream_ok acked pending s' ds torn' k
  | (_, Panic) => False
  end.
Proof using Hok.
  intros Hs. pose proof Hs as []. destruct (delivered_ok _ _ _ Hok st_delivered0) as (Hd & Hl & _). pose proof (whole_length ds torn Hd st_torn0) as Ew. rewrite <- st_file0 in Ew.
  assert (Hp : (length (sm_file s) <? sm_published s) = false) by (apply Nat.ltb_ge; rewrite st_file0, length_app, audit_records_length by done; lia). unfold repair_tail. rewrite Hp, Ew.
  assert (E8 : length (sm_file s) = 8 + RECORD_SIZE * length ds + length torn) by (rewrite st_file0, length_app, audit_records_length by done; done).
  assert (Etake : take (8 + RECORD_SIZE * length ds) (sm_file s) = records ds) by (rewrite st_file0, <- (audit_records_length ds Hd); apply take_app_length).
  assert (Hs' : forall n, n <= 8 + RECORD_SIZE * length ds -> sm_published s <= n -> stream_ok acked pending {| sm_file := take (8 + RECORD_SIZE * length ds) (sm_file s); sm_synced := n; sm_published := sm_published s |} ds [] k).
  { intros n Hn Hn'. split; cbn [sm_file sm_synced sm_published]; [done|by rewrite app_nil_r|cbn; unfold RECORD_SIZE; lia|done|done|done|done]. }
  assert (Hfin : match (if 8 + RECORD_SIZE * length ds =? length (sm_file s) then (s, Ok (8 + RECORD_SIZE * length ds)) else match f with
      | TruncateFails => (s, Err "repairing audit effect tail")
      | _ => let s := {| sm_file := take (8 + RECORD_SIZE * length ds) (sm_file s); sm_synced := Nat.min (sm_synced s) (8 + RECORD_SIZE * length ds); sm_published := sm_published s |} in
             match f with RepairSyncFails => (s, Err "syncing audit effects") | _ => (sync s, Ok (8 + RECORD_SIZE * length ds)) end end : Stream * outcome nat) with
    | (s', Ok n) => n = 8 + RECORD_SIZE * length ds /\ stream_ok acked pending s' ds [] k /\ sm_published s' = sm_published s
    | (s', Err _) => f <> Works /\ f <> SyncFails /\ sm_published s' = sm_published s /\ exists torn', stream_ok acked pending s' ds torn' k
    | (_, Panic) => False end).
  { destruct (Nat.eqb_spec (8 + RECORD_SIZE * length ds) (length (sm_file s))) as [E|E].
    - split; [done|]. split; [|done]. assert (torn = []) as -> by (apply length_zero_iff_nil; lia). done.
    - assert (Hsync : stream_ok acked pending (sync {| sm_file := take (8 + RECORD_SIZE * length ds) (sm_file s); sm_synced := Nat.min (sm_synced s) (8 + RECORD_SIZE * length ds); sm_published := sm_published s |}) ds [] k)
        by (unfold sync; cbn [sm_file sm_published]; apply Hs'; rewrite length_take; lia).
      destruct f; cbn zeta; try (split; [done|]; split; [exact Hsync|done]); (split; [done|]; split; [done|]; split; [done|]); [by exists torn|exists []; apply Hs'; lia]. }
  destruct f; [..|]; try (split_and!; try done; by exists torn); destruct (if _ =? _ then _ else _) as [s' [n|e|]]; try done; destruct Hfin as (? & ? & ?); done.
Qed.

Lemma last_record_ok s ds k : stream_ok acked pending s ds [] k -> last_record crc32 s (8 + RECORD_SIZE * length ds) = Ok (last ds).
Proof using Hok Hcrc.
  intros []. destruct (delivered_ok _ _ _ Hok st_delivered0) as (Hd & _ & _). unfold last_record. rewrite st_file0. clear - Hd Hcrc. destruct ds as [|x ds _] using rev_ind; [done|].
  rewrite length_app. cbn [length]. rewrite (proj2 (Nat.eqb_neq _ _)) by (unfold RECORD_SIZE; lia). rewrite (proj2 (Nat.leb_le _ _)) by lia. cbn [expect obind]. pose proof Hd as [_ Hx%Forall_inv]%Forall_app.
  replace (8 + RECORD_SIZE * (length ds + 1) - RECORD_SIZE) with (8 + RECORD_SIZE * length ds) by lia. unfold read_exact_at.
  rewrite (proj2 (Nat.leb_le _ _)) by (rewrite app_nil_r, (audit_records_length _ Hd), length_app; cbn [length]; lia). cbn [obind].
  rewrite <- (Nat.mul_1_r RECORD_SIZE) at 1. rewrite (records_range _ _ _ _ Hd) by (rewrite length_app; cbn [length]; lia).
  rewrite drop_app_length. cbn [take map concat]. rewrite app_nil_r, record_roundtrip by done. cbn [obind]. by rewrite last_snoc.
Qed.

(** Records follow on in the file. *)
Lemma records_snoc ds x : records ds ++ record x = records (ds ++ [x]).
Proof using. rewrite records_app. cbn [map concat]. by rewrite app_nil_r. Qed.

(** A stream whose file and marks are these. *)
Lemma stream_intro s ds torn k :
  delivered acked pending ds -> sm_file s = records ds ++ torn -> length torn < RECORD_SIZE -> sm_published s = 8 + RECORD_SIZE * k -> length acked <= k ->
  sm_published s <= sm_synced s <= 8 + RECORD_SIZE * length ds -> stream_ok acked pending s ds torn k.
Proof using. intros. split; try done; lia. Qed.
End Stream.

(** ** Delivering *)

Section Deliver.
Context (acked : list AuditEntry) (x : AuditEntry) (rest : list AuditEntry).
Context (Hok : Forall entry_ok (acked ++ x :: rest)) (Hids : NoDup (map ae_effect_id (acked ++ x :: rest))).
Context (Hroom : (Z.of_nat (8 + RECORD_SIZE * S (length acked)) < U64)%Z).

Lemma x_ok : entry_ok x.
Proof using Hok. by apply Forall_app in Hok as [_ [? _]%Forall_cons]. Qed.

Lemma append_record_ok f s k :
  stream_ok acked (x :: rest) s acked [] k ->
  match append_record f s (8 + RECORD_SIZE * length acked) (record x) with
  | (s', Ok _) => settled acked x s'
  | (s', Err _) => f <> Works /\ exists ds torn, stream_ok acked (x :: rest) s' ds torn k
  | (_, Panic) => False
  end.
Proof using Hok Hroom.
  intros []. pose proof (audit_record_length x x_ok) as Hr. assert (Ha : Forall entry_ok acked) by by apply Forall_app in Hok as [? _]. unfold append_record, checked_add.
  rewrite (proj2 (Z.ltb_lt _ _)) by (unfold RECORD_SIZE in *; lia). rewrite app_nil_r in st_file0.
  assert (Et : take (8 + RECORD_SIZE * length acked) (sm_file s) = records acked) by (rewrite st_file0, take_ge; [done|rewrite audit_records_length by done; lia]). rewrite Et, records_snoc.
  assert (Hx : delivered acked (x :: rest) (acked ++ [x])) by (right; by exists x).
  assert (Hfull : stream_ok acked (x :: rest) {| sm_file := records (acked ++ [x]); sm_synced := sm_synced s; sm_published := sm_published s |} (acked ++ [x]) [] k)
    by (apply stream_intro; cbn [sm_file sm_synced sm_published]; [done|by rewrite app_nil_r|cbn; unfold RECORD_SIZE; lia|done|done|rewrite length_app; cbn [length]; lia]).
  assert (Hset : settled acked x (set_published (sync {| sm_file := records (acked ++ [x]); sm_synced := sm_synced s; sm_published := sm_published s |}) (Z.to_nat (Z.of_nat (8 + RECORD_SIZE * length acked) + Z.of_nat RECORD_SIZE)))).
  { unfold settled, set_published, sync. cbn [sm_file sm_synced sm_published]. rewrite audit_records_length, length_app by (apply Forall_app; split; [done|repeat constructor; apply x_ok]). cbn [length]. split_and!; [done|lia|lia]. }
  destruct f as [| | | |n|]; try exact Hset; (split; [done|]); [|by exists (acked ++ [x]), []].
  destruct (decide (n < RECORD_SIZE)) as [Hn|Hn].
  - exists acked, (take n (record x)). apply stream_intro; cbn [sm_file sm_synced sm_published]; [by left|done|rewrite length_take; lia|done|done|lia].
  - exists (acked ++ [x]), []. rewrite (take_ge (record x)) by lia. rewrite records_snoc. exact Hfull.
Qed.

Lemma deliver_ok f s ds torn k :
  stream_ok acked (x :: rest) s ds torn k ->
  match deliver crc32 f s x with
  | (s', Ok _) => settled acked x s'
  | (s', Err _) => f <> Works /\ exists ds' torn', stream_ok acked (x :: rest) s' ds' torn' k
  | (_, Panic) => False
  end.
Proof using Hok Hids Hroom Hcrc.
  intros Hs. unfold deliver. rewrite (intent_encode_ok x x_ok). pose proof (repair_tail_ok acked (x :: rest) Hok f s ds torn k Hs) as Hr.
  destruct (repair_tail f s) as [s1 [n|e|]]; [|destruct Hr as (H1 & _ & _ & torn' & H); split; [done|]; by exists ds, torn'|done]. destruct Hr as (-> & Hs1 & _ & _).
  rewrite (last_record_ok acked (x :: rest) Hok s1 ds k Hs1). pose proof Hs1 as []. destruct st_delivered0 as [->|(y & [= <-] & ->)].
  - rewrite bool_decide_false; [by apply append_record_ok|]. intros E. destruct (last acked) as [y|] eqn:El; [|done]. injection E as E. apply last_Some_elem_of in El. rewrite map_app in Hids.
    apply NoDup_app in Hids as (_ & Hn & _). apply (Hn (ae_effect_id y)); [by apply list_elem_of_fmap_2|]. rewrite E. left.
  - rewrite last_snoc. cbn [fmap option_fmap option_map]. rewrite !bool_decide_true by done. rewrite app_nil_r in st_file0. rewrite length_app. cbn [length].
    assert (Hset : settled acked x (set_published (sync s1) (8 + RECORD_SIZE * (length acked + 1)))).
    { unfold settled, set_published, sync. cbn [sm_file sm_synced sm_published]. rewrite st_file0, audit_records_length, length_app by (apply Forall_app; split; [by apply Forall_app in Hok as [? _]|repeat constructor; apply x_ok]). cbn [length]. split_and!; [done|lia|lia]. }
    destruct f; try exact Hset. split; [done|]. by exists (acked ++ [x]), [].
Qed.
End Deliver.

(** ** Opening and reading *)

Section Open.
Context (acked pending : list AuditEntry) (Hok : Forall entry_ok (acked ++ pending)).

(** What a crash leaves of the file. *)
Lemma crash_cut_ok s ds torn k n :
  stream_ok acked pending s ds torn k -> sm_synced s <= n ->
  exists ds' torn', delivered acked pending ds' /\ take n (sm_file s) = records ds' ++ torn' /\ length torn' < RECORD_SIZE /\ k <= length ds'.
Proof using Hok.
  intros [] Hn. destruct (delivered_ok _ _ _ Hok st_delivered0) as (Hd & Hl & _). rewrite st_file0.
  destruct (decide (length (records ds) <= n)) as [Hge|Hlt].
  - exists ds, (take (n - length (records ds)) torn). rewrite take_app_ge by done. split_and!; [done|done|rewrite length_take; lia|unfold RECORD_SIZE in *; lia].
  - destruct st_delivered0 as [->|(x & Hx & ->)]; [rewrite audit_records_length in Hlt by done; unfold RECORD_SIZE in *; lia|]. rewrite <- records_snoc in Hlt |- *. apply Forall_app in Hd as [Ha Hx']. pose proof (Forall_inv Hx') as Hxo.
    rewrite length_app, (audit_record_length x Hxo), (audit_records_length _ Ha) in Hlt. exists acked, (take (n - length (records acked)) (record x)). rewrite <- app_assoc, take_app_ge by (rewrite audit_records_length by done; unfold RECORD_SIZE in *; lia).
    rewrite (audit_records_length _ Ha). rewrite take_app_le by (rewrite (audit_record_length x Hxo); lia). split_and!; [by left|done|rewrite length_take; lia|unfold RECORD_SIZE in *; lia].
Qed.

Lemma from_file_ok ds torn :
  delivered acked pending ds -> length torn < RECORD_SIZE -> exists s, from_file crc32 (records ds ++ torn) = Ok s /\ stream_ok acked pending s ds [] (length ds).
Proof using Hok Hcrc.
  intros Hdl Ht. destruct (delivered_ok _ _ _ Hok Hdl) as (Hd & Hl & _). unfold from_file, inspect. set (file := records ds ++ torn).
  assert (Hlen : length file = 8 + RECORD_SIZE * length ds + length torn) by (unfold file; rewrite length_app, audit_records_length by done; done).
  unfold read_exact_at at 1. rewrite (proj2 (Nat.leb_le (0 + 8) _)) by lia. cbn [obind]. change (take 8 (drop 0 file)) with AUDIT_MAGIC. rewrite bool_decide_true by done. rewrite (proj2 (Nat.leb_le 8 _)) by lia.
  pose proof (whole_length ds torn Hd Ht) as Ew. fold file in Ew. rewrite Ew.
  pose proof (read_records_ok (length file) ds torn 0 (length ds) Hd ltac:(lia) ltac:(unfold RECORD_SIZE in *; lia)) as Er. rewrite Nat.mul_0_r, Nat.add_0_r in Er. fold file in Er. rewrite Er. cbn [obind].
  unfold repair_tail. cbn [sm_file sm_published]. rewrite (proj2 (Nat.ltb_ge _ _)) by lia. rewrite Ew.
  assert (Etake : take (8 + RECORD_SIZE * length ds) file = records ds) by (unfold file; rewrite <- (audit_records_length ds Hd); apply take_app_length).
  assert (G : forall s1, sm_file s1 = records ds -> sm_synced s1 = 8 + RECORD_SIZE * length ds -> exists s, (let* _ := last_record crc32 s1 (8 + RECORD_SIZE * length ds) in Ok (set_published s1 (8 + RECORD_SIZE * length ds))) = Ok s /\ stream_ok acked pending s ds [] (length ds)).
  { intros s1 E1 E2. assert (Hs : stream_ok acked pending (set_published s1 (8 + RECORD_SIZE * length ds)) ds [] (length ds))
      by (apply stream_intro; cbn [set_published sm_file sm_synced sm_published]; [done|by rewrite app_nil_r|cbn; unfold RECORD_SIZE; lia|done|lia|lia]).
    pose proof (last_record_ok _ _ Hok _ _ _ Hs) as El. unfold last_record in *. cbn [set_published sm_file] in El. rewrite El. cbn [obind]. eexists. split; [done|exact Hs]. }
  destruct (Nat.eqb_spec (8 + RECORD_SIZE * length ds) (length file)) as [E|E].
  - apply G; cbn [sm_file sm_synced]; [|lia]. rewrite <- Etake, take_ge by lia. done.
  - apply G; cbn [sync sm_file sm_synced]; [done|]. rewrite Etake, audit_records_length by done. done.
Qed.

Lemma entries_since_ok s ds torn k time :
  stream_ok acked pending s ds torn k ->
  entries_since crc32 s time = Ok (filter (fun e => time <= ae_timestamp_ms e)%Z (take k (acked ++ pending))) /\ k <= length ds.
Proof using Hok Hcrc.
  intros []. destruct (delivered_ok _ _ _ Hok st_delivered0) as (Hd & Hl & (r & Er)). assert (Hk : k <= length ds) by (unfold RECORD_SIZE in *; lia). split; [|done].
  unfold entries_since. rewrite st_published0, st_file0. pose proof (read_records_ok (8 + RECORD_SIZE * k) ds torn 0 k Hd ltac:(lia) ltac:(unfold RECORD_SIZE; lia)) as E. rewrite Nat.mul_0_r, Nat.add_0_r, Nat.sub_0_r, drop_0 in E.
  rewrite E. cbn [obind]. by rewrite Er, take_app_le.
Qed.
End Open.

(** ** The queue and the journal *)

Lemma replay_app q f g : replay q (f ++ g) = let* q := replay q f in replay q g.
Proof using.
  revert q. induction f as [|ms f IH]; intros q; [done|]. cbn [app replay]. destruct (validate_audit_transitions q ms); cbn [obind]; [|done|done]. destruct (apply_audits q ms); cbn [obind]; [apply IH|done|done].
Qed.

Lemma queue_ids q : Forall entry_ok q -> omap_list intent_id q = Ok (map id_of q).
Proof using. intros Hq. apply omap_list_ok. intros e He. rewrite Forall_forall in Hq. unfold intent_id. by rewrite (proj1 (id_of_ok e (Hq e He))). Qed.

Lemma map_effect_ids q : Forall entry_ok q -> map ae_effect_id q = map Some (map id_of q).
Proof using. induction 1 as [|e q He _ IH]; [done|]. cbn [map]. by rewrite IH, (proj1 (id_of_ok e He)). Qed.

Lemma fresh_id q i : Forall entry_ok (q ++ [i]) -> NoDup (map ae_effect_id (q ++ [i])) -> id_of i ∉ map id_of q.
Proof using.
  intros Hq Hn. rewrite map_effect_ids in Hn by done. rewrite !map_app in Hn. apply NoDup_app in Hn as (_ & Hn & _). intros Hin. apply (Hn (Some (id_of i))); [by apply list_elem_of_fmap_2|]. left.
Qed.

Lemma validate_business n ids ms : validate_transitions ids (replicate n Business ++ ms) = validate_transitions ids ms.
Proof using. induction n as [|n IH]; [done|]. exact IH. Qed.

Lemma apply_business n q ms : apply_audits q (replicate n Business ++ ms) = apply_audits q ms.
Proof using. induction n as [|n IH]; [done|]. exact IH. Qed.

(** A new record is refused only when the queue is full. *)
Lemma validate_pending n q i :
  Forall entry_ok (q ++ [i]) -> NoDup (map ae_effect_id (q ++ [i])) ->
  validate_audit_transitions q (replicate n Business ++ [AuditPending i]) = if length q <? MAX_PENDING then Ok tt else Err "audit delivery backlog is full; flush audit effects before writing".
Proof using.
  intros Hq Hn. pose proof (fresh_id q i Hq Hn) as Hf. apply Forall_app in Hq as [Hq Hi%Forall_inv]. unfold validate_audit_transitions.
  assert (E : existsb is_audit (replicate n Business ++ [AuditPending i]) = true) by (rewrite existsb_app; cbn [existsb is_audit]; by rewrite orb_true_r). rewrite E. cbn [negb]. rewrite (queue_ids q Hq). cbn [obind].
  rewrite validate_business. cbn [validate_transitions validate_transition]. unfold intent_id. rewrite (proj1 (id_of_ok i Hi)). cbn [obind]. rewrite length_map. destruct (_ <? _); [|done]. by rewrite bool_decide_false by done.
Qed.

Lemma validate_none n q : validate_audit_transitions q (replicate n Business) = Ok tt.
Proof using. unfold validate_audit_transitions. assert (E : existsb is_audit (replicate n Business) = false) by (induction n as [|n IH]; [done|exact IH]). by rewrite E. Qed.

Lemma apply_none n q : apply_audits q (replicate n Business) = Ok q.
Proof using. rewrite <- (app_nil_r (replicate n Business)). apply apply_business. Qed.

Lemma validate_acknowledged x rest : Forall entry_ok (x :: rest) -> validate_audit_transitions (x :: rest) [AuditAcknowledged (id_of x)] = Ok tt.
Proof using. intros Hq. unfold validate_audit_transitions. cbn [existsb is_audit orb negb]. rewrite (queue_ids _ Hq). cbn [obind map validate_transitions validate_transition head]. by rewrite bool_decide_true. Qed.

Lemma apply_acknowledged x rest : entry_ok x -> apply_audits (x :: rest) [AuditAcknowledged (id_of x)] = Ok rest.
Proof using. intros Hx. cbn [apply_audits apply_audit head fmap option_fmap option_map]. by rewrite (proj1 (id_of_ok x Hx)), bool_decide_true. Qed.

(** The frames of a snapshot restore its queue. *)
Lemma replay_snapshot q q' :
  Forall entry_ok (q ++ q') -> NoDup (map ae_effect_id (q ++ q')) -> length (q ++ q') <= MAX_PENDING -> replay q (map (fun i => [AuditPending i]) q') = Ok (q ++ q').
Proof using.
  revert q. induction q' as [|i q' IH]; intros q Hq Hn Hl; [by rewrite app_nil_r|]. cbn [map replay]. rewrite cons_middle, app_assoc in Hq, Hn, Hl |- *. pose proof Hq as [Hq1 _]%Forall_app. pose proof Hn as Hn1. rewrite map_app in Hn1. apply NoDup_app in Hn1 as [Hn1 _].
  pose proof (validate_pending 0 q i Hq1 Hn1) as E. cbn [replicate app] in E. rewrite !length_app in Hl. cbn [length] in Hl. rewrite (proj2 (Nat.ltb_lt _ _)) in E by lia. rewrite E. cbn [obind apply_audits apply_audit].
  apply IH; [done|done|]. rewrite !length_app. cbn [length]. lia.
Qed.

(** ** The invariant *)

Record audit_ok (c : Core) (ledger : list AuditEntry) : Prop := {
  au_entries : Forall entry_ok ledger;
  au_ids : NoDup (map ae_effect_id ledger);
  au_room : (Z.of_nat (8 + RECORD_SIZE * length ledger) < U64)%Z;
  au_replay : replay [] (co_journal c) = Ok (co_pending c);
  au_size : length (co_pending c) <= MAX_PENDING;
  au_stream : exists acked ds torn k, ledger = acked ++ co_pending c /\ stream_ok acked (co_pending c) (co_stream c) ds torn k;
  au_drain : match co_drain c with
             | Idle => True
             | Delivering target => target ∈ map id_of (co_pending c)
             | Acknowledging target id => target ∈ map id_of (co_pending c) /\
                 exists acked x rest, ledger = acked ++ co_pending c /\ co_pending c = x :: rest /\ id = id_of x /\ settled acked x (co_stream c)
             end;
  au_snapshot : match co_snapshot c with
                | None => True
                | Some (q, n) => n <= length (co_journal c) /\ replay [] (take n (co_journal c)) = Ok q /\ Forall entry_ok q /\ NoDup (map ae_effect_id q) /\ length q <= MAX_PENDING
                end
}.

Lemma pending_part c l : audit_ok c l -> Forall entry_ok (co_pending c) /\ NoDup (map ae_effect_id (co_pending c)).
Proof using. intros []. destruct au_stream0 as (acked & ds & torn & k & -> & _). apply Forall_app in au_entries0 as [_ ?]. rewrite map_app in au_ids0. by apply NoDup_app in au_ids0 as (_ & _ & ?). Qed.

(** A longer queue. *)
Lemma stream_push acked pending extra s ds torn k : stream_ok acked pending s ds torn k -> stream_ok acked (pending ++ extra) s ds torn k.
Proof using. intros []. split; try done. destruct st_delivered0 as [?|(x & Hx & ?)]; [by left|]. right. exists x. split; [|done]. by destruct pending. Qed.

(** The drain does not mind a longer queue. *)
Lemma drain_push c l extra :
  audit_ok c l -> match co_drain c with
             | Idle => True
             | Delivering target => target ∈ map id_of (co_pending c ++ extra)
             | Acknowledging target id => target ∈ map id_of (co_pending c ++ extra) /\
                 exists acked x rest, l ++ extra = acked ++ co_pending c ++ extra /\ co_pending c ++ extra = x :: rest /\ id = id_of x /\ settled acked x (co_stream c)
             end.
Proof using.
  intros []. rewrite map_app. destruct (co_drain c) as [|t|t id]; [done|apply elem_of_app; by left|]. destruct au_drain0 as (Ht & acked & x & rest & -> & Ep & -> & Hs). split; [apply elem_of_app; by left|]. rewrite Ep.
  exists acked, x, (rest ++ extra). split_and!; [by rewrite <- app_assoc|done|done|done].
Qed.

(** A transaction that was validated and applied extends the journal and the queue. *)
Lemma extend_ok c l ms extra :
  audit_ok c l -> validate_audit_transitions (co_pending c) ms = Ok tt -> apply_audits (co_pending c) ms = Ok (co_pending c ++ extra) -> length (co_pending c ++ extra) <= MAX_PENDING ->
  Forall entry_ok (l ++ extra) -> NoDup (map ae_effect_id (l ++ extra)) -> (Z.of_nat (8 + RECORD_SIZE * length (l ++ extra)) < U64)%Z ->
  audit_ok {| co_journal := co_journal c ++ [ms]; co_pending := co_pending c ++ extra; co_stream := co_stream c; co_drain := co_drain c; co_snapshot := co_snapshot c |} (l ++ extra).
Proof using.
  intros Hc Hv Ha Hl He Hn Hr. pose proof (drain_push c l extra Hc) as Hdr. pose proof Hc as []. split; cbn [co_journal co_pending co_stream co_drain co_snapshot]; [done|done|done| |done| |done|].
  - rewrite replay_app, au_replay0. cbn [obind replay]. rewrite Hv. cbn [obind]. by rewrite Ha.
  - destruct au_stream0 as (acked & ds & torn & k & -> & Hs). exists acked, ds, torn, k. split; [by rewrite <- app_assoc|by apply stream_push].
  - destruct (co_snapshot c) as [[q n]|]; [|done]. destruct au_snapshot0 as (H1 & H2 & H3). split; [rewrite length_app; lia|]. by rewrite take_app_le.
Qed.

Lemma ok_nil c l : audit_ok c l -> audit_ok c (l ++ []).
Proof using. by rewrite app_nil_r. Qed.

Lemma new_core_ok : audit_ok new_core [].
Proof using.
  split; cbn [new_core co_journal co_pending co_stream co_drain co_snapshot]; [constructor|constructor|done|done|apply Nat.le_0_l| |done|done]. exists [], [], [], 0. split; [done|]. split; [by left|done|cbn; unfold RECORD_SIZE; lia|done|done|done|done].
Qed.

(** ** Steps *)

Lemma commit_cases c ms append q :
  validate_audit_transitions (co_pending c) ms <> Panic -> apply_audits (co_pending c) ms = Ok q ->
  (exists e, commit c ms append = (c, Err e)) \/
  validate_audit_transitions (co_pending c) ms = Ok tt /\
  commit c ms append = ({| co_journal := co_journal c ++ [ms]; co_pending := q; co_stream := co_stream c; co_drain := co_drain c; co_snapshot := co_snapshot c |}, Ok tt).
Proof using.
  intros Hv Ha. unfold commit. destruct (negb _); [left; by eexists|]. destruct (validate_audit_transitions (co_pending c) ms) as [[]|e|]; [|left; by eexists|done]. destruct append; cbn [negb]; [|left; by eexists]. right. by rewrite Ha.
Qed.

(** The new records of an action. *)
Definition offers (a : AuditAction) : list AuditEntry := match a with Write _ (Some i) _ | Publish (Some i) _ => [i] | _ => [] end.

(** Records a ledger has room for. *)
Definition admits (l extra : list AuditEntry) : Prop :=
  Forall entry_ok (l ++ extra) /\ NoDup (map ae_effect_id (l ++ extra)) /\ (Z.of_nat (8 + RECORD_SIZE * length (l ++ extra)) < U64)%Z.

Lemma admits_pending c l i : audit_ok c l -> admits l [i] -> Forall entry_ok (co_pending c ++ [i]) /\ NoDup (map ae_effect_id (co_pending c ++ [i])).
Proof using.
  intros [] (He & Hn & _). destruct au_stream0 as (acked & ds & torn & k & -> & _). rewrite <- app_assoc in He, Hn. apply Forall_app in He as [_ ?]. rewrite map_app in Hn. by apply NoDup_app in Hn as (_ & _ & ?).
Qed.

Lemma write_step c l n intent append : audit_ok c l -> admits l (offers (Write n intent append)) -> audit_ok (audit_act crc32 c (Write n intent append)).1 (l ++ committed crc32 c (Write n intent append)).
Proof using.
  intros Hc Ha. unfold committed. cbn [audit_act]. unfold commit_audited. destruct intent as [i|].
  - destruct (admits_pending c l i Hc Ha) as [He Hn]. destruct Ha as (A1 & A2 & A3). pose proof (validate_pending n (co_pending c) i He Hn) as Ev.
    destruct (commit_cases c (replicate n Business ++ [AuditPending i]) append (co_pending c ++ [i])) as [(e & ->)|[Hv ->]]; [rewrite Ev; by destruct (_ <? _)|by rewrite apply_business|by apply ok_nil|].
    cbn [fst]. apply extend_ok; try done; [by rewrite apply_business|]. rewrite Hv in Ev. destruct (Nat.ltb_spec (length (co_pending c)) MAX_PENDING) as [Hlt|]; [|done]. rewrite length_app. cbn [length]. lia.
  - rewrite app_nil_r. destruct (commit_cases c (replicate n Business) append (co_pending c)) as [(e & ->)|[Hv ->]]; [by rewrite validate_none|apply apply_none|by apply ok_nil|].
    cbn [fst]. pose proof Hc as []. rewrite <- (app_nil_r (co_pending c)) at 1. apply extend_ok; rewrite ?app_nil_r; try done. apply apply_none.
Qed.

Lemma begin_step c l : audit_ok c l -> audit_ok (flush_begin c).1 l.
Proof using.
  intros Hc. unfold flush_begin. destruct (co_drain c) eqn:Ed; try done. destruct (last (co_pending c)) as [x|] eqn:El; [|done]. pose proof (proj1 (pending_part c l Hc)) as Hp. apply last_Some_elem_of in El. rewrite Forall_forall in Hp.
  unfold intent_id. rewrite (proj1 (id_of_ok x (Hp x El))). cbn [fst with_drain]. destruct Hc. split; cbn; try done. by apply list_elem_of_fmap_2.
Qed.

Lemma idle_ok c l : audit_ok c l -> audit_ok (with_drain c Idle) l.
Proof using. intros []. by split. Qed.

Lemma room_first (acked : list AuditEntry) x rest : (Z.of_nat (8 + RECORD_SIZE * length (acked ++ x :: rest)) < U64)%Z -> (Z.of_nat (8 + RECORD_SIZE * S (length acked)) < U64)%Z.
Proof using. rewrite length_app. cbn [length]. unfold RECORD_SIZE. lia. Qed.

(** A delivery ends with the record on the disk, or leaves it to the next. *)
Lemma deliver_step c l f target :
  audit_ok c l -> co_drain c = Delivering target ->
  exists x rest, co_pending c = x :: rest /\ audit_ok (flush_deliver crc32 c f).1 l /\ co_pending (flush_deliver crc32 c f).1 = co_pending c /\
    ((flush_deliver crc32 c f).2 = Ok tt -> co_drain (flush_deliver crc32 c f).1 = Acknowledging target (id_of x)) /\ (f = Works -> (flush_deliver crc32 c f).2 = Ok tt) /\ (flush_deliver crc32 c f).2 <> Panic.
Proof using Hcrc.
  intros Hc Ed. pose proof Hc as []. rewrite Ed in au_drain0. destruct (co_pending c) as [|x rest] eqn:Ep; [by apply elem_of_nil in au_drain0|]. exists x, rest. split; [done|].
  destruct au_stream0 as (acked & ds & torn & k & El & Hs). rewrite El in *. assert (Hx : entry_ok x) by (by apply x_ok with (acked := acked) (rest := rest)).
  pose proof (deliver_ok acked x rest au_entries0 au_ids0 (room_first _ _ _ au_room0) f (co_stream c) ds torn k Hs) as Hd.
  unfold flush_deliver. rewrite Ed, Ep. cbn [head]. unfold intent_id. rewrite (proj1 (id_of_ok x Hx)). destruct (deliver crc32 f (co_stream c) x) as [s' [[]|e|]]; [| |done]; cbn [fst snd].
  - split; [|split; [by cbn|done]]. split; cbn; rewrite ?Ep; try done; [|split; [done|]; exists acked, x, rest; done]. exists acked, (acked ++ [x]), [], (S (length acked)). split; [done|by apply settled_ok].
  - destruct Hd as (Hf & ds' & torn' & Hs'). split; [|split_and!; done]. split; cbn; rewrite ?Ep; try done. by exists acked, ds', torn', k.
Qed.

Lemma acknowledge_step c l append target id :
  audit_ok c l -> co_drain c = Acknowledging target id ->
  exists x rest, co_pending c = x :: rest /\ audit_ok (flush_acknowledge c append).1 l /\ (flush_acknowledge c append).2 <> Panic /\
    (append = true -> (flush_acknowledge c append).2 = Ok tt /\ co_pending (flush_acknowledge c append).1 = rest /\
       co_drain (flush_acknowledge c append).1 = if bool_decide (id_of x = target) then Idle else Delivering target).
Proof using.
  intros Hc Ed. pose proof Hc as []. rewrite Ed in au_drain0. destruct au_drain0 as (Ht & acked & x & rest & El & Ep & -> & Hset). exists x, rest. split; [done|]. pose proof (proj1 (pending_part c l Hc)) as Hp. rewrite Ep in Hp. pose proof (Forall_inv Hp) as Hx.
  pose proof (validate_acknowledged x rest Hp) as Ev. pose proof (apply_acknowledged x rest Hx) as Ea. rewrite <- Ep in Ev, Ea at 1. unfold flush_acknowledge. rewrite Ed.
  destruct (commit_cases c [AuditAcknowledged (id_of x)] append rest) as [(e & Ec)|[_ Ec]]; [by rewrite Ev|done| |]; rewrite Ec; cbn [fst snd].
  - split; [by apply idle_ok|]. split; [done|]. intros ->. exfalso. unfold commit in Ec. cbn [length Nat.leb andb negb] in Ec. rewrite Ev, Ea in Ec. done.
  - split; [|done]. rewrite Ep, cons_middle, app_assoc in El. split; cbn [with_drain co_journal co_pending co_stream co_drain co_snapshot]; try done.
    + rewrite replay_app, au_replay0. cbn [obind replay]. rewrite Ev. cbn [obind]. by rewrite Ea.
    + rewrite Ep in au_size0. cbn [length] in au_size0. lia.
    + exists (acked ++ [x]), (acked ++ [x]), [], (S (length acked)). split; [done|by apply settled_acked].
    + case_bool_decide as Hb; [done|]. rewrite Ep in Ht. cbn [map] in Ht. apply elem_of_cons in Ht as [->|Ht]; done.
    + destruct (co_snapshot c) as [[q n]|]; [|done]. destruct au_snapshot0 as (H1 & H2 & H3). split; [rewrite length_app; lia|]. by rewrite take_app_le.
Qed.

Lemma snapshot_step c l : audit_ok c l -> audit_ok (compact_snapshot c).1 l.
Proof using. intros Hc. pose proof (pending_part c l Hc) as [H1 H2]. destruct Hc. split; cbn; try done. rewrite take_ge by lia. split_and!; done. Qed.

Lemma unsnapshot_ok c l : audit_ok c l -> audit_ok (with_snapshot c None) l.
Proof using. intros []. by split. Qed.

Lemma publish_step c l intent publish : audit_ok c l -> admits l (offers (Publish intent publish)) -> audit_ok (audit_act crc32 c (Publish intent publish)).1 (l ++ committed crc32 c (Publish intent publish)).
Proof using.
  intros Hc Ha. unfold committed. cbn [audit_act]. unfold compact_publish. destruct (co_snapshot c) as [[q n]|] eqn:Es; [|cbn [fst]; rewrite bool_decide_false by (by intros [? ?]); destruct intent; by apply ok_nil].
  rewrite bool_decide_true by by eexists. pose proof (unsnapshot_ok c l Hc) as Hu. pose proof Hc as []. rewrite Es in au_snapshot0. destruct au_snapshot0 as (S1 & S2 & S3 & S4 & S5).
  assert (Hr : replay [] (map (fun i => [AuditPending i]) q ++ drop n (co_journal c)) = Ok (co_pending c)).
  { rewrite replay_app, (replay_snapshot [] q) by done. cbn [app obind]. rewrite <- (take_drop n (co_journal c)), replay_app, S2 in au_replay0. exact au_replay0. }
  destruct intent as [i|].
  - destruct (admits_pending c l i Hc Ha) as [He Hn]. destruct Ha as (A1 & A2 & A3). cbn [offers] in *. pose proof (validate_pending 0 (co_pending c) i He Hn) as Ev. cbn [replicate app] in Ev. cbn [with_snapshot co_pending co_journal co_stream co_drain]. rewrite Ev.
    destruct (Nat.ltb_spec (length (co_pending c)) MAX_PENDING) as [Hlt|Hge]; [|by apply ok_nil]. destruct publish; cbn [negb fst]; [|by apply ok_nil].
    pose proof (extend_ok c l [AuditPending i] [i] Hc Ev eq_refl ltac:(rewrite length_app; cbn [length]; lia) A1 A2 A3) as []. split; cbn [co_journal co_pending co_stream co_drain co_snapshot] in *; try done.
    rewrite app_assoc, replay_app, Hr. cbn [obind replay]. by rewrite Ev.
  - cbn [with_snapshot co_pending co_journal co_stream co_drain]. destruct publish; cbn [negb fst]; [|by apply ok_nil]. rewrite !app_nil_r. split; cbn [co_journal co_pending co_stream co_drain co_snapshot]; try done.
Qed.

(** A crash loses nothing that was committed or seen. *)
Lemma reopen_ok c l kept :
  audit_ok c l -> exists c', reopen crc32 c kept = Ok c' /\ audit_ok c' l /\ co_pending c' = co_pending c /\ sm_published (co_stream c) <= sm_published (co_stream c').
Proof using Hcrc.
  intros []. destruct au_stream0 as (acked & ds & torn & k & El & Hs). rewrite El in au_entries0. destruct (crash_cut_ok _ _ au_entries0 _ _ _ _ (Nat.max kept (sm_synced (co_stream c))) Hs ltac:(lia)) as (ds' & torn' & Hd & Ef & Ht & Hk).
  destruct (from_file_ok _ _ au_entries0 ds' torn' Hd Ht) as (s & Es & Hs'). unfold reopen. rewrite Ef, Es. cbn [obind]. rewrite au_replay0. cbn [obind]. eexists. split; [done|]. split; [|split; [done|]].
  - split; cbn; try done; [by rewrite El|]. by exists acked, ds', [], (length ds').
  - cbn. rewrite (st_published _ _ _ _ _ _ Hs), (st_published _ _ _ _ _ _ Hs'). unfold RECORD_SIZE. lia.
Qed.

Lemma act_step c l a : audit_ok c l -> admits l (offers a) -> audit_ok (audit_act crc32 c a).1 (l ++ committed crc32 c a).
Proof using Hcrc.
  intros Hc Ha. assert (Hnil : forall x, audit_ok x l -> committed crc32 c a = [] -> audit_ok x (l ++ committed crc32 c a)) by (intros x Hx ->; by apply ok_nil).
  destruct a as [n intent append| |f|append| |intent publish|kept]; [by apply write_step|..|by apply publish_step|]; apply Hnil; cbn [audit_act]; try (unfold committed; by destruct (audit_act _ _ _) as [? []]).
  - by apply begin_step.
  - destruct (co_drain c) eqn:Ed; [unfold flush_deliver; by rewrite Ed| |unfold flush_deliver; by rewrite Ed]. by destruct (deliver_step c l f target Hc Ed) as (? & ? & _ & ? & _).
  - destruct (co_drain c) eqn:Ed; [unfold flush_acknowledge; by rewrite Ed..|]. by destruct (acknowledge_step c l append target id Hc Ed) as (? & ? & _ & ? & _).
  - by apply snapshot_step.
  - destruct (reopen_ok c l kept Hc) as (c' & -> & ? & _). done.
Qed.

(** ** Every history *)

Lemma admits_left l a b : admits l (a ++ b) -> admits l a.
Proof using.
  intros (H1 & H2 & H3). rewrite app_assoc in H1, H2, H3. apply Forall_app in H1 as [H1 _]. rewrite map_app in H2. apply NoDup_app in H2 as [H2 _]. split_and!; [done|done|]. rewrite length_app in H3. unfold RECORD_SIZE in *. lia.
Qed.

Lemma admits_right l a b : admits l (a ++ b) -> admits l b.
Proof using.
  intros (H1 & H2 & H3). assert (E : l ++ a ++ b ≡ₚ (l ++ b) ++ a) by (rewrite <- app_assoc; f_equiv; apply Permutation_app_comm). rewrite E in H1, H3. apply (admits_left l b a). split_and!; rewrite app_assoc; [done| |done].
  by rewrite <- (Permutation_map ae_effect_id E).
Qed.

Lemma committed_offers c a : committed crc32 c a = [] \/ committed crc32 c a = offers a.
Proof using. unfold committed. destruct (audit_act _ _ _) as [? [[]|e|]]; [|by left|by left]. destruct a as [n [i|] ap| | | | |[i|] p|]; try (by left); [by right|]. case_bool_decide; [by right|by left]. Qed.

Lemma run_ok c l actions : audit_ok c l -> admits l (concat (map offers actions)) -> audit_ok (run_audit crc32 c l actions).1 (run_audit crc32 c l actions).2.
Proof using Hcrc.
  revert c l. induction actions as [|a actions IH]; intros c l Hc Ha; [done|]. cbn [map concat run_audit] in *. apply IH; [apply act_step; [done|by eapply admits_left]|].
  destruct (committed_offers c a) as [->| ->]; [rewrite app_nil_r; by eapply admits_right|]. destruct Ha as (H1 & H2 & H3). rewrite app_assoc in H1, H2, H3. by split.
Qed.

(** Histories whose records are well formed, have distinct identities and fit a file. *)
Definition actions_ok (actions : list AuditAction) : Prop := admits [] (concat (map offers actions)).

(** C21: every audit record is delivered once.  Whatever writes, drains, compactions and crashes, and
    whatever reads, truncations, writes, syncs and appends fail, the queue is the end of the records
    committed, readers of the file see a beginning of them, in order and without repetition, that
    has every acknowledged record and at most one more, and a crash at any time, with any part of
    what was not synced, leaves a store that opens with the same queue and shows no less. *)
Theorem audit_exactly_once actions :
  actions_ok actions ->
  let '(c, ledger) := run_audit crc32 new_core [] actions in
  let acked := length ledger - length (co_pending c) in
  drop acked ledger = co_pending c /\ length (co_pending c) <= length ledger /\
  exists k, acked <= k <= S acked /\ (forall time, entries_since crc32 (co_stream c) time = Ok (filter (fun e => time <= ae_timestamp_ms e)%Z (take k ledger))) /\
    forall kept, exists c' k', reopen crc32 c kept = Ok c' /\ co_pending c' = co_pending c /\ k <= k' <= S acked /\
      forall time, entries_since crc32 (co_stream c') time = Ok (filter (fun e => time <= ae_timestamp_ms e)%Z (take k' ledger)).
Proof using Hcrc.
  intros Ha. pose proof (run_ok new_core [] actions new_core_ok Ha) as Hc. destruct (run_audit crc32 new_core [] actions) as [c ledger]. cbn [fst snd] in Hc. pose proof Hc as []. destruct au_stream0 as (acked & ds & torn & k & El & Hs).
  assert (Eacked : length ledger - length (co_pending c) = length acked) by (rewrite El, length_app; lia). cbv zeta. rewrite Eacked. split; [rewrite El; apply drop_app_length|]. split; [rewrite El, length_app; lia|].
  rewrite El in au_entries0. destruct (delivered_ok _ _ _ au_entries0 (st_delivered _ _ _ _ _ _ Hs)) as (_ & Hl & _). exists k. pose proof (fun time => proj1 (entries_since_ok _ _ au_entries0 _ _ _ _ time Hs)) as He. pose proof (proj2 (entries_since_ok _ _ au_entries0 _ _ _ _ 0%Z Hs)) as Hk.
  pose proof (st_acked _ _ _ _ _ _ Hs). split; [lia|]. split; [intros time; rewrite El; apply He|]. intros kept. destruct (reopen_ok c ledger kept Hc) as (c' & Er & Hc' & Ep & Hp). destruct Hc' as [_ _ _ _ _ (acked' & ds' & torn' & k' & El' & Hs') _ _].
  rewrite Ep in El', Hs'. rewrite El in El'. apply app_inv_tail in El' as <-. destruct (delivered_ok _ _ _ au_entries0 (st_delivered _ _ _ _ _ _ Hs')) as (_ & Hl' & _). pose proof (proj2 (entries_since_ok _ _ au_entries0 _ _ _ _ 0%Z Hs')).
  exists c', k'. split; [done|]. split; [done|]. rewrite (st_published _ _ _ _ _ _ Hs), (st_published _ _ _ _ _ _ Hs') in Hp. split; [unfold RECORD_SIZE in Hp; lia|]. intros time. rewrite El. by apply (entries_since_ok _ _ au_entries0 _ _ _ _ time Hs').
Qed.

(** ** Draining *)

Definition drain_round : list AuditAction := [Deliver Works; Acknowledge true].

Lemma run_audit_app c l a b : run_audit crc32 c l (a ++ b) = run_audit crc32 (run_audit crc32 c l a).1 (run_audit crc32 c l a).2 b.
Proof using. revert c l. induction a as [|x a IH]; intros c l; [done|]. apply IH. Qed.

Lemma drain_round_ok c l x rest y target :
  audit_ok c l -> co_pending c = x :: rest -> co_drain c = Delivering target -> last (x :: rest) = Some y -> target = id_of y ->
  exists c', run_audit crc32 c l drain_round = (c', l) /\ audit_ok c' l /\ co_pending c' = rest /\ co_drain c' = if bool_decide (rest = []) then Idle else Delivering target.
Proof using Hcrc.
  intros Hc Ep Ed El Et. destruct (deliver_step c l Works target Hc Ed) as (x' & rest' & Ep1 & H1 & Hp1 & Hd1 & Hw & _). rewrite Ep in Ep1. injection Ep1 as <- <-. specialize (Hw eq_refl). specialize (Hd1 Hw).
  destruct (acknowledge_step _ l true target (id_of x) H1 Hd1) as (y' & rest' & Ep2 & H2 & _ & H3). rewrite Hp1, Ep in Ep2. injection Ep2 as <- <-. destruct (H3 eq_refl) as (Ho & Hp2 & Hd2).
  exists (flush_acknowledge (flush_deliver crc32 c Works).1 true).1. split_and!; [|done|done|].
  - cbn [drain_round run_audit audit_act]. unfold committed. cbn [audit_act]. destruct (flush_deliver crc32 c Works) as [c1 r1]. cbn [fst snd] in *. subst r1. rewrite app_nil_r. destruct (flush_acknowledge c1 true) as [c2 r2]. cbn [fst snd] in *. subst r2. by rewrite app_nil_r.
  - rewrite Hd2. destruct (pending_part c l Hc) as [He Hn]. rewrite Ep in He, Hn. rewrite map_effect_ids in Hn by done. apply NoDup_fmap_1 in Hn. cbn [map] in Hn. apply NoDup_cons in Hn as [Hn _]. destruct rest as [|z rest]; [injection El as <-; by rewrite Et, !bool_decide_true by done|].
    rewrite (bool_decide_false (z :: rest = [])) by done. rewrite bool_decide_false; [done|]. intros E. apply Hn. rewrite E, Et. apply list_elem_of_fmap_2. by apply last_Some_elem_of.
Qed.

Lemma rounds_ok n c l y target :
  audit_ok c l -> length (co_pending c) = S n -> co_drain c = Delivering target -> last (co_pending c) = Some y -> target = id_of y ->
  exists c', run_audit crc32 c l (concat (replicate (S n) drain_round)) = (c', l) /\ audit_ok c' l /\ co_pending c' = [] /\ co_drain c' = Idle.
Proof using Hcrc.
  revert c. induction n as [|n IH]; intros c Hc Hl Ed Ey Et; cbn [replicate concat]; rewrite run_audit_app; (destruct (co_pending c) as [|x rest] eqn:Ep; [done|]); destruct (drain_round_ok c l x rest y target Hc Ep Ed Ey Et) as (c1 & E1 & H1 & Hp1 & Hd1); rewrite E1; cbn [fst snd]; cbn [length] in Hl; injection Hl as Hl.
  - apply length_zero_iff_nil in Hl as ->. rewrite bool_decide_true in Hd1 by done. by exists c1.
  - destruct rest as [|z rest]; [done|]. rewrite bool_decide_false in Hd1 by done. rewrite <- Hp1 in Hl. apply (IH c1); [done|done|done|by rewrite Hp1|done].
Qed.

(** The actions of one call of [flush_audit] in which nothing fails. *)
Definition flush_audit (c : Core) : list AuditAction := FlushBegin :: concat (replicate (length (co_pending c)) drain_round).

(** C22: the queue drains.  From any state a history can reach in which no drain is under way, a call of
    [flush_audit] in which nothing fails ends after one round for each record of the queue, with
    an empty queue and every record ever committed in the file, once and in the order of the
    commits. *)
Theorem audit_drains actions :
  actions_ok actions ->
  let '(c, ledger) := run_audit crc32 new_core [] actions in
  co_drain c = Idle ->
  exists c', run_audit crc32 c ledger (flush_audit c) = (c', ledger) /\ co_pending c' = [] /\ co_drain c' = Idle /\
    forall time, entries_since crc32 (co_stream c') time = Ok (filter (fun e => time <= ae_timestamp_ms e)%Z ledger).
Proof using Hcrc.
  intros Ha. pose proof (run_ok new_core [] actions new_core_ok Ha) as Hc. destruct (run_audit crc32 new_core [] actions) as [c ledger]. cbn [fst snd] in Hc. intros Ed.
  assert (G : exists c', run_audit crc32 c ledger (flush_audit c) = (c', ledger) /\ audit_ok c' ledger /\ co_pending c' = [] /\ co_drain c' = Idle).
  { unfold flush_audit. cbn [run_audit]. assert (E0 : committed crc32 c FlushBegin = []) by (unfold committed; by destruct (audit_act _ _ _) as [? []]). rewrite E0, app_nil_r. cbn [audit_act]. pose proof (begin_step c ledger Hc) as Hb. unfold flush_begin in *. rewrite Ed in *.
    destruct (co_pending c) as [|x rest] eqn:Ep; [by exists c|]. destruct (last (x :: rest)) as [y|] eqn:El; [|by apply last_None in El]. pose proof (proj1 (pending_part c ledger Hc)) as Hp. rewrite Ep, Forall_forall in Hp.
    unfold intent_id in *. rewrite (proj1 (id_of_ok y (Hp y (last_Some_elem_of _ _ El)))) in *. cbn [fst] in *. cbn [length]. apply (rounds_ok (length rest) _ ledger y (id_of y)); cbn [with_drain co_pending co_drain]; [done|by rewrite Ep|done|by rewrite Ep|done]. }
  destruct G as (c' & Er & Hc' & Ep' & Ed'). exists c'. split; [done|]. split; [done|]. split; [done|]. intros time. destruct Hc' as [He _ _ _ _ (acked & ds & torn & k & El & Hs) _ _]. rewrite Ep' in El, Hs. pose proof El as El'. rewrite app_nil_r in El'. subst acked. rewrite El in He.
  destruct (entries_since_ok _ _ He _ _ _ _ time Hs) as [-> _]. pose proof (st_acked _ _ _ _ _ _ Hs). rewrite app_nil_r, take_ge by done. done.
Qed.
End Delivery.

(** ** Two records, a torn write and a lost sync *)

Definition toy_record (n : Z) : AuditEntry :=
  {| ae_timestamp_ms := n; ae_op := Memorize; ae_id_hash := replicate 32 n; ae_signature := replicate 64 0%Z; ae_effect_id := Some (replicate 16 n) |}.

Definition toy_audit : list AuditAction :=
  [Write 1 (Some (toy_record 1)) true; FlushBegin; Deliver (WriteFails 60); Crash 100; Write 1 (Some (toy_record 2)) true; FlushBegin; Deliver SyncFails; Snapshot; Publish (Some (toy_record 3)) true; Crash 1000].

Lemma toy_audit_ok : actions_ok toy_audit.
Proof.
  split_and!; [|by_decide|done]. repeat constructor; cbn; by_decide || (eexists; split; reflexivity).
Qed.

Lemma audit_exactly_once_witness :
  let '(c, ledger) := run_audit (fun _ => 7%Z) new_core [] toy_audit in
  ledger = [toy_record 1; toy_record 2; toy_record 3] /\ drop (length ledger - length (co_pending c)) ledger = co_pending c /\ length (co_pending c) = 3 /\
  entries_since (fun _ => 7%Z) (co_stream c) 0 = Ok [toy_record 1].
Proof.
  pose proof (audit_exactly_once (fun _ => 7%Z) (fun _ => ltac:(split; done)) toy_audit toy_audit_ok) as H. destruct (run_audit (fun _ => 7%Z) new_core [] toy_audit) as [c ledger] eqn:E. destruct H as (H & _).
  split; [|split; [exact H|]]; vm_compute in E; injection E as <- <-; [reflexivity|]. split; vm_compute; reflexivity.
Defined.

Lemma audit_drains_witness :
  exists c c', run_audit (fun _ => 7%Z) new_core [] toy_audit = (c, [toy_record 1; toy_record 2; toy_record 3]) /\
    run_audit (fun _ => 7%Z) c [toy_record 1; toy_record 2; toy_record 3] (flush_audit c) = (c', [toy_record 1; toy_record 2; toy_record 3]) /\
    entries_since (fun _ => 7%Z) (co_stream c') 0 = Ok [toy_record 1; toy_record 2; toy_record 3].
Proof.
  pose proof (audit_drains (fun _ => 7%Z) (fun _ => ltac:(split; done)) toy_audit toy_audit_ok) as H. destruct (run_audit (fun _ => 7%Z) new_core [] toy_audit) as [c ledger] eqn:E.
  assert (El : ledger = [toy_record 1; toy_record 2; toy_record 3] /\ co_drain c = Idle) by (vm_compute in E; injection E as <- <-; split; reflexivity). destruct El as [-> Ed]. destruct (H Ed) as (c' & Er & _ & _ & He).
  exists c, c'. split; [reflexivity|]. split; [exact Er|]. rewrite (He 0%Z). vm_compute. reflexivity.
Defined.
